(* ===== verification/_CoqProject ===== *)
-Q . S2P
Prelude.v
BTree.v
Opcode.v
Program.v
Budget.v
Writer.v
Reader.v
Codec.v
Verifier.v
Metadata.v
Linker.v
Artifact.v
Float64.v
Semantics.v
Values.v
Resource.v
TypeContract.v
Text.v
Regex.v
Arith.v
Ops.v
Json.v
Host.v
Env.v
Snapshot.v
Machine.v
Methods.v
Builtins.v
Execute.v
Run.v
Effects.v
Sound.v
StepSafety.v
Safety.v
Termination.v
Gate.v
Replay.v
Operators.v
Fold.v
FoldSound.v
Emit.v
Compile.v
CompileEnds.v
Running.v
Region.v
CompileSound.v
CompileVerifies.v
Token.v
Syntax.v
ParserState.v
TypeParser.v
Parser.v
Format.v
ParserEnds.v
Printable.v
Reading.v
ReparseOperators.v
Reparse.v
Split.v
Ordered.v
Fallible.v
Atom.v
AtomCodec.v
Predicates.v
Slice.v
SliceClosure.v
SliceOrder.v
SliceSound.v
Glob.v
GlobName.v
Policy.v
PolicySound.v
SessionEvent.v
SessionSigning.v
SessionHooks.v
SessionStore.v
SessionSound.v
SessionRetention.v
Tasks.v
TaskSound.v
