(* ===== verification/Prelude.v ===== *)
(** * The portable Harn kernel, modelled and verified

    Harn is a scripting language for agent workflows. Its portable kernel
    ([crates/harn-kernel/src]) takes a compiled program as a byte artifact,
    checks it, and runs it deterministically inside a host that answers its
    capability requests: a run either completes, fails, or suspends with a
    request and a snapshot from which it is resumed by replay. This library
    models the kernel's path from artifact bytes to outcome, the expression
    grammar in front of it, and the logic of four crates beside it: Flow, the
    atoms and slices of versioned work; the glob matchers; capability policies;
    and the session store, the hash-chained journal of what agents did.

    ** How the parts fit

    [assemble_program] -> bytes -> [decode] = frame checks, wire reader,
    metadata and code verification, linking -> [ProgramArtifact] -> [start],
    [replay], [resume] = input and grant checks, module loading, the
    interpreter loop over values, environments, builtins and capabilities ->
    [Execution] (complete, failed, or suspended with an authenticated snapshot).

    ** Files

    - Prelude: diagnostics, the result and reader monads, list lemmas, tactics.
      BTree: [BTreeMap] as a sorted association list.
    - Opcode ([opcode.rs]), Program ([program.rs], [ast.rs] type expressions):
      instructions and the data of chunks, functions and modules.
    - Budget, Writer, Reader, Codec ([artifact/wire.rs], [wire/reader.rs],
      [wire/writer.rs]): the payload codec with its limits; the round trip.
    - Verifier, Metadata ([artifact/validation.rs]): the bytecode verifier and
      its specification by reachable instruction boundaries; type metadata.
    - Linker, Artifact ([artifact/wire.rs], [artifact.rs]): chunk trees to wire
      programs and back, the frame around the payload, entry metadata.
    - Float64, Semantics ([value.rs]): IEEE bit patterns, structural equality
      and the shared comparison, iterative as in the source, against recursive
      specifications.
    - Values, Resource ([execution/runtime_value.rs], [execution/resource.rs]):
      runtime values, conversions, depth, node and byte accounting.
    - TypeContract ([type_contract.rs], [execution/type_guard.rs],
      [harn-builtin-meta]): declared types at run time and at the host boundary.
    - Text, Regex ([pure.rs], [pure/regex.rs]), Arith, Ops
      ([execution/arithmetic.rs], [execution/ops.rs]): the pure operations.
    - Json, Host, Snapshot ([execution/types.rs], [execution/snapshot.rs]): the
      tagged JSON seam, grants, requests, results, replay snapshots. A snapshot
      is written and read as a document whose values are JSON made by [to_json]
      and taken back by [from_json], as [DataValue]'s own (de)serialiser does;
      only the text of documents is a parameter.
    - Env ([Env] of [execution.rs]), Machine, Methods, Builtins, Execute, Run
      ([execution.rs], [execution/methods.rs], [execution/builtins.rs]): the
      machine, one definition per opcode, capability calls, builtins, the loop,
      module loading, [start], [replay], [resume].
    - Effects: what every machine operation keeps, proved once through the
      class [Closed] and used by the theorems on runs. Sound, StepSafety,
      Safety: typed state invariants and which faults of the executor verified
      programs cannot meet ([verifier_fault]) and which they can.
      Termination: step bounds. Gate: what reaches the host is granted.
      Replay: a conversation of suspensions is one replay.
    - Fold, FoldSound ([compiler/optimizer.rs]): constant folding, and its
      agreement with the executor's operators. Emit ([program.rs]) and Compile
      ([compiler/mod.rs], [expressions.rs], [type_facts.rs]): chunks under
      construction and [compile_node] on expressions. CompileEnds: when its
      recursion ends. Running: a program logic for code that calls nothing.
      Region: what each piece of emitted code does. CompileSound: compiled
      expressions run to their value. CompileVerifies: compiled chunks pass the
      verifier.
    - Operators ([harn-parser/src/operators.rs]), Token
      ([harn-lexer/src/token.rs]), Syntax ([harn-parser/src/ast.rs]): operators
      and their precedence groups, tokens, expressions. ParserState,
      TypeParser, Parser ([harn-parser/src/parser]): recursive descent and
      precedence climbing over tokens. Format ([harn-fmt],
      [typechecker/format.rs]): the tokens the formatter prints. ParserEnds:
      parsing ends on every input. Printable, Reading, ReparseOperators,
      Reparse: printed expressions parse to themselves, and which do not.
    - Split ([str] methods), Ordered ([BTreeSet], [BTreeMap], [Ord] as a class
      with its laws): shared by the components below. Atom, AtomCodec
      ([harn-flow/src/atom.rs]): text edits and undo, signing, the canonical
      binary form. Slice ([harn-flow/src/slice.rs]): the derivation of slices;
      SliceClosure, SliceOrder, SliceSound: the closure as reachability, Kahn's
      algorithm, and what a derived slice promises. Predicates
      ([predicates/result.rs], [predicates/compose.rs]): verdicts and their
      composition along directories. Glob, GlobName ([harn-glob/src/lib.rs]):
      the three matchers. Policy, PolicySound ([harn-execution-policy]): what a
      run may do, the meet of a ceiling and a request, the check of a computed
      policy; the order of authority they are proved in.
    - SessionEvent ([harn-session-store/src/event.rs]): events and their
      canonical bytes, injective up to what they are meant to cover.
      SessionSigning ([signing.rs]): hash chain, signatures, receipts,
      verification. SessionHooks ([identity.rs], [redaction.rs]): producer
      identity in headers and redaction, on the way in and on the way out.
      SessionStore ([store.rs], [memory.rs], [memory_helpers.rs],
      [boundary.rs]): the state of the in-memory store, one definition per
      operation. SessionSound: the store as a transition system and what holds
      in every reachable state. SessionRetention ([retention.rs],
      [sweep_retention] of [store.rs]): the policy and the sweep. Tasks
      ([task.rs], [memory_tasks.rs], the claims of [lease.rs]): task records,
      their status machine, control events and the operations on the task
      tables. TaskSound: operations as steps of an abstract machine, and what
      callers can rely on.

    ** Conventions

    [usize], [u8], [u32], [u64] are [N] (offsets into code and indices of lists
    are [nat]); [i64] is [Z] with its overflow checks written out; [f64] is its
    64-bit pattern in [N]; strings are Stdlib strings of UTF-8 bytes; [BTreeMap]
    is a sorted association list. [Result<_, Diagnostic>] is [result]; a
    diagnostic keeps its code and the message where the program can see it.
    [Rc<Env>] is an index into a store that only grows. Stacks have their top
    first. Code outside the kernel is a parameter given by a class: digests and
    MACs, the IEEE operations ([FloatLib]), the capability registry, serde and
    the secret scanner ([Platform], [SnapshotSerde]), regular expressions
    ([RegexEngine]), the text of JSON scalars ([SerdeJson]), signatures and
    base64 ([FlowCrates], [SigningCrates]). Readings of the clock and fresh ids
    are inputs of the operation that takes them; the host's redaction policy and
    archive are functions in its hooks. What is assumed of them stands in a
    [Laws] class or a named hypothesis beside each, with an instance in the
    samples. For snapshots that is [tag_length] (a MAC has 32 bytes) and
    [serde_faithful]: [serde_json] reads a document it wrote, as far as it is
    nested no deeper than [serde_json] reads (127 levels) and its floats are read
    back exactly. A panic of the source is a failure of its own where it can be
    reached ([panicked], for a capability contract without parameters).

    ** Fuel and bounds

    Recursions of the source that are not structural take a budget: reading
    types and verifying code use the length of what they read; [exec] takes the
    [step_budget] that [run_program_terminates] proves is never what stops a
    run; [compile_node] takes the depth of its recursion ([compiling_ends]: it
    ends, or it is shown to go on for ever);
    late-bound callees take [name_budget], which [resolve_callee_complete]
    proves decides exactly whether the source's recursion ends. The one
    recursion that need not end is an outcome of its own, [NameCycle] with the
    environment and name it is stuck on, reported as [None] by [start]
    ([name_cycle_reachable] runs into it).
    The recursions of [derive_slice] take budgets in the number of known atoms;
    [derive_slice_refuses] proves none of them runs out. Reading a journal page
    by page takes the number of its events ([read_all_drains]); moving aside
    reserved headers takes the number of reserved names, and the search for a
    free name the number of headers.

    ** What the theorems show

    Round trips of the codec, the linker and the artifact, and exactly which data
    survives the JSON seam and a snapshot; the verifier and the iterative value
    algorithms against specifications; what decoding rules out at run time, under
    every input, grant and response (table indices, opcodes, environments and the
    call stack; not the depth of the operand stack, which nothing tracks);
    termination, up to names that name themselves, and fuel accounting; type
    contracts agreeing on both sides of the host boundary; requests bounded by
    grants; replay as the meaning of conversations over data that survives;
    correctness of compiled and folded expressions against [evaluate], the meaning
    of an expression, and when compiling one ends; the formatter against the
    parser; lexical assignment; exact-or-promoted arithmetic; the
    regex cache being unobservable.

    For Harn's version control (Flow): undo restores documents; atoms are named
    by their content; a slice is exactly what its intents need, in a
    deterministic order, or a refusal with its cause; composed verdicts are
    never laxer than those above them. For globs: each matcher against the
    documented meaning of its patterns, the cache of the third being
    unobservable. For capability policies: nesting computes the meet of
    authority, and accepted policies lie below their ceiling, in the dimensions
    of [bounds_le] always and in tools ([tools_le]) for requests without escapes,
    with what holds of roots stated apart; the wire form keeps what a policy
    allows. Examples beside the theorems run the inputs that leave their
    conditions: [verifier_leaves], [name_cycle_reachable], [ambiguous_forms],
    [policy_gaps], [caller_receipts_fail], [directories_inside_a_name].

    For the session store: canonical bytes are equal only for equal content, so
    a chain root commits to the journal under it, or two strings it hashes
    collide; every state reachable without receipts of the callers' own verifies;
    what is read is what was signed or marked as not; forks copy exactly the
    prefix a boundary acknowledges, as redaction leaves it; paging drains a
    journal, likewise; a source is imported once; a sweep removes nothing early
    and nothing unannounced. The log of control events, as long as callers leave
    status events to the store, replays to the status of every task; a request is
    admitted once; closing a session settles its tasks; messages are hidden only
    on request.

    ** Not modelled

    The compiler beyond expressions (statements, bindings, calls, patterns,
    closures), the lexer, the parser and formatter beyond expressions and types,
    the type checker, the stores, builtins and predicate execution of Flow and
    the JSON form of its atoms, search, control payloads, file leases and the
    SQLite backend of the session store (the operations are modelled on the
    in-memory backend, a sweep as it runs alone), the native asynchronous VM,
    hosts, servers and tools, which surround the kernel with processes, networks
    and files. The text of error messages that no program can observe,
    allocation, and the exact liveness of environments: the store never frees,
    where the source frees environments nothing retains. *)

From stdpp Require Export base tactics list strings option numbers gmap.
From Stdlib Require Export ZArith NArith Lia.
From Stdlib Require Import Strings.Byte.

(** ** Diagnostics and the result monad *)

(** The stable [code] of every [Diagnostic] the kernel raises; [panicked] is none
    of them, it stands for a panic of the kernel. *)
Inductive Code :=
  | artifact_too_large | artifact_truncated | artifact_magic | artifact_version
  | artifact_features | artifact_trailing_bytes | artifact_corrupt
  | artifact_semantic_abi | artifact_malformed | artifact_trailing_payload
  | artifact_invalid_index | artifact_invalid_module | artifact_invalid_utf8
  | artifact_allocation_limit | artifact_too_many_instructions
  | artifact_too_many_constants | artifact_strings_too_large
  | artifact_metadata_too_large | artifact_type_too_deep
  | artifact_too_many_type_nodes | artifact_invalid_opcode
  | artifact_truncated_instruction | artifact_invalid_constant_type
  | artifact_builtin_id_mismatch | artifact_invalid_jump
  | artifact_too_many_chunks | artifact_too_many_functions
  | artifact_invalid_function | artifact_runtime_type_metadata
  | artifact_too_many_modules | artifact_invalid_entry | artifact_invalid_graph
  | artifact_invalid_import
  | value_depth_limit | value_node_limit | value_byte_limit
  | numeric_type | division_by_zero | slice_type | slice_range
  | property_assignment | subscript_assignment | truncated_instruction
  | stack_underflow | invalid_index | invalid_opcode | instruction_pointer
  | execution_state | execution_fuel | frame_limit | scope_depth_limit
  | operand_stack_limit | iterator_limit | iterator_type | iterator_state
  | immutable_assignment | undefined_variable | missing_property
  | subscript_code | invalid_rethrow | try_unwrap_type | spread_type
  | not_callable | unsupported_method | unsupported_builtin
  | unsupported_portable_opcode | builtin_type | builtin_error | list_type
  | argument_type | arity_mismatch | binding_type | closure_environment
  | entry_not_callable | harn_throw | harn_declared_throw | non_data_result
  | portable_import | portable_import_cycle | portable_import_collision
  | unsupported_capability | unsupported_portable_capability_type
  | capability_arguments | capability_denied | capability_argument_type
  | capability_replay_mismatch | capability_result_type
  | capability_result_mismatch | snapshot_program_mismatch
  | snapshot_grant_mismatch | snapshot_key_required | snapshot_too_large
  | snapshot_malformed | snapshot_authentication | snapshot_encode
  | invalid_snapshot_key | invalid_capability_grant | unknown_capability_grant
  | input_number | input_integer | input_float | input_bytes
  | json_stringify | invalid_regex
  | panicked.

(** [Diagnostic]: its code, and its message where a program can observe it
    (the value a handler receives, the rendered value of an uncaught throw).
    Messages only people read are [None]. *)
Record Diagnostic := mkDiagnostic { code : Code; message : option string }.

Definition diagnostic (c : Code) : Diagnostic := mkDiagnostic c None.
Definition diagnostic_text (c : Code) (s : string) : Diagnostic := mkDiagnostic c (Some s).

(** [Result<A, Diagnostic>]. *)
Inductive result (A : Type) :=
  | Ok (a : A)
  | Err (d : Diagnostic).
Arguments Ok {A} a.
Arguments Err {A} d.

#[export] Instance result_ret : MRet result := λ A a, Ok a.
#[export] Instance result_bind : MBind result := λ A B f m,
  match m with Ok a => f a | Err d => Err d end.
#[export] Instance result_fmap : FMap result := λ A B f m,
  match m with Ok a => Ok (f a) | Err d => Err d end.

(** [ok_or_else]: an option made a result. *)
Definition ok_or {A} (o : option A) (c : Code) : result A :=
  match o with Some a => Ok a | None => Err (diagnostic c) end.

(** [if guard { return Err(..) }] *)
Definition reject_if (b : bool) (c : Code) : result unit :=
  if b then Err (diagnostic c) else Ok tt.

Section traversals.
Context {S A B : Type}.

(** A [for item in items { step(item)?; }] loop threading a state. *)
Section foldl.
Variable f : S → A → result S.
Fixpoint result_foldl (s : S) (l : list A) : result S :=
  match l with
  | [] => Ok s
  | x :: l' => s' ← f s x; result_foldl s' l'
  end.
End foldl.

(** [items.iter().map(f).collect::<Result<Vec<_>, _>>()] *)
Section map.
Variable f : A → result B.
Fixpoint result_map (l : list A) : result (list B) :=
  match l with
  | [] => Ok []
  | x :: l' => y ← f x; ys ← result_map l'; Ok (y :: ys)
  end.
End map.
End traversals.

(** ** Machine integers *)

(** Lengths ([usize]) and unsigned words are [N]; [i64] is a [Z] in range. *)
Definition len {A} (l : list A) : N := N.of_nat (length l).
Definition slen (s : string) : N := N.of_nat (String.length s).

Definition USIZE_MAX : N := 18446744073709551615.
Definition U64_MAX : N := 18446744073709551615.
Definition U32_MAX : N := 4294967295.
Definition I64_MIN : Z := -9223372036854775808.
Definition I64_MAX : Z := 9223372036854775807.

Definition in_i64 (z : Z) : bool := (I64_MIN <=? z)%Z && (z <=? I64_MAX)%Z.
Definition checked_i64 (z : Z) : option Z := if in_i64 z then Some z else None.
Definition wrap_i64 (z : Z) : Z :=
  ((z + 9223372036854775808) mod 18446744073709551616 - 9223372036854775808)%Z.

(** [usize::checked_add], [usize::saturating_add], [u64::saturating_add]. *)
Definition checked_add_usize (a b : N) : option N :=
  if (a + b <=? USIZE_MAX)%N then Some (a + b)%N else None.
Definition checked_mul_usize (a b : N) : option N :=
  if (a * b <=? USIZE_MAX)%N then Some (a * b)%N else None.
Definition saturating_add_usize (a b : N) : N := N.min (a + b) USIZE_MAX.

(** ** Bytes and big-endian words *)

Abbreviation byte := Byte.byte.

Definition b2n (b : byte) : N := Byte.to_N b.
Definition n2b (n : N) : byte := default Byte.x00 (Byte.of_N (n mod 256)).

(** A Rust string is the [string] of its UTF-8 bytes. *)
Definition as_bytes (s : string) : list byte := String.list_byte_of_string s.
Definition from_bytes (bs : list byte) : string := String.string_of_list_byte bs.

(** [uN::to_be_bytes], with [n] the number of bytes. *)
Fixpoint be_bytes (n : nat) (w : N) : list byte :=
  match n with
  | O => []
  | S n' => n2b (w / 256 ^ N.of_nat n') :: be_bytes n' w
  end.

(** [uN::from_be_bytes] *)
Definition from_be_bytes (bs : list byte) : N :=
  foldl (λ acc b, acc * 256 + b2n b)%N 0%N bs.

(** The two's-complement view of an [i64]. *)
Definition i64_to_u64 (z : Z) : N := Z.to_N (z mod 18446744073709551616).
Definition u64_to_i64 (n : N) : Z := wrap_i64 (Z.of_N n).

(** ** Tactics *)

(** Invert the successful result of a monadic computation, one bind at a time. *)
Ltac inv_result :=
  repeat match goal with
  | H : mbind _ ?m = Ok _ |- _ =>
      let E := fresh "E" in
      destruct m eqn:E; cbn [mbind result_bind] in H; [|discriminate H]
  | H : Ok _ = Ok _ |- _ => injection H; clear H; intros; subst
  | H : Err _ = Ok _ |- _ => discriminate H
  | H : reject_if ?b _ = Ok _ |- _ =>
      let E := fresh "E" in
      unfold reject_if in H; destruct b eqn:E; [discriminate H|clear H]
  | H : ok_or ?o _ = Ok _ |- _ =>
      let E := fresh "E" in
      unfold ok_or in H; destruct o eqn:E; [|discriminate H]
  end.

(** Reflect the boolean tests on words into arithmetic facts. *)
Ltac reflect_bools :=
  repeat match goal with
  | H : (_ <=? _)%N = true |- _ => apply N.leb_le in H
  | H : (_ <=? _)%N = false |- _ => apply N.leb_gt in H
  | H : (_ <? _)%N = true |- _ => apply N.ltb_lt in H
  | H : (_ <? _)%N = false |- _ => apply N.ltb_ge in H
  | H : (_ =? _)%N = true |- _ => apply N.eqb_eq in H
  | H : (_ =? _)%N = false |- _ => apply N.eqb_neq in H
  | H : (_ <=? _)%Z = true |- _ => apply Z.leb_le in H
  | H : (_ <=? _)%Z = false |- _ => apply Z.leb_gt in H
  | H : (_ <? _)%Z = true |- _ => apply Z.ltb_lt in H
  | H : (_ <? _)%Z = false |- _ => apply Z.ltb_ge in H
  | H : (_ =? _)%Z = true |- _ => apply Z.eqb_eq in H
  | H : (_ =? _)%Z = false |- _ => apply Z.eqb_neq in H
  | H : _ && _ = true |- _ => apply andb_true_iff in H; destruct H
  | H : _ || _ = false |- _ => apply orb_false_iff in H; destruct H
  end.

(** ** Lemmas on the result monad *)

Lemma result_bind_ok {A B} (m : result A) (f : A → result B) b :
  (m ≫= f) = Ok b ↔ ∃ a, m = Ok a ∧ f a = Ok b.
Proof.
  destruct m as [a|d]; cbn; split.
  - eauto.
  - intros (? & [= <-] & ?); done.
  - discriminate.
  - intros (? & ? & ?); discriminate.
Qed.

Lemma result_foldl_app {S A} (f : S → A → result S) s l1 l2 :
  result_foldl f s (l1 ++ l2) = result_foldl f s l1 ≫= λ s', result_foldl f s' l2.
Proof.
  revert s; induction l1 as [|x l1 IH]; intros s; cbn; [done|].
  destruct (f s x); cbn; [apply IH|done].
Qed.

Lemma result_map_length {A B} (f : A → result B) l l' :
  result_map f l = Ok l' → length l' = length l.
Proof.
  revert l'; induction l as [|x l IH]; intros l' H; cbn in H; inv_result; [done|].
  cbn; f_equal; eauto.
Qed.

Lemma result_map_Forall2 {A B} (f : A → result B) l l' :
  result_map f l = Ok l' ↔ Forall2 (λ x y, f x = Ok y) l l'.
Proof.
  split.
  - revert l'; induction l as [|x l IH]; intros l' H; cbn in H; inv_result; [constructor|].
    constructor; eauto.
  - induction 1 as [|x y l l' Hxy Hl IH]; cbn; [done|]. by rewrite Hxy; cbn; rewrite IH.
Qed.

(** ** Lemmas on lengths *)

Lemma len_nil {A} : len (@nil A) = 0%N.
Proof. done. Qed.
Lemma len_cons {A} (x : A) l : len (x :: l) = (1 + len l)%N.
Proof. unfold len; cbn; lia. Qed.
Lemma len_app {A} (l1 l2 : list A) : len (l1 ++ l2) = (len l1 + len l2)%N.
Proof. unfold len; rewrite length_app; lia. Qed.
Lemma len_map {A B} (f : A → B) l : len (map f l) = len l.
Proof. unfold len; by rewrite length_map. Qed.

Create HintDb kernel.
Create Rewrite HintDb kernel.
#[export] Hint Rewrite @len_nil @len_cons @len_app @len_map : kernel.

(** ** Lemmas on bytes *)

Lemma b2n_lt b : (b2n b < 256)%N.
Proof. unfold b2n. pose proof (Byte.to_N_bounded b). lia. Qed.

Lemma b2n_inj a b : b2n a = b2n b → a = b.
Proof.
  unfold b2n; intros H.
  pose proof (Byte.of_to_N a) as Ha; pose proof (Byte.of_to_N b) as Hb.
  rewrite H in Ha; congruence.
Qed.

Lemma b2n_n2b n : b2n (n2b n) = (n mod 256)%N.
Proof.
  unfold b2n, n2b. pose proof (N.mod_lt n 256 ltac:(done)) as Hlt.
  destruct (Byte.of_N (n mod 256)) as [b|] eqn:E; cbn.
  - by apply Byte.to_of_N in E.
  - apply Byte.of_N_None_iff in E. lia.
Qed.

Lemma n2b_b2n b : n2b (b2n b) = b.
Proof. apply b2n_inj. rewrite b2n_n2b. apply N.mod_small, b2n_lt. Qed.

Lemma be_bytes_length n w : length (be_bytes n w) = n.
Proof. induction n; cbn; congruence. Qed.

Lemma from_be_bytes_app bs b :
  from_be_bytes (bs ++ [b]) = (from_be_bytes bs * 256 + b2n b)%N.
Proof. unfold from_be_bytes. by rewrite foldl_app. Qed.

Lemma from_be_bytes_cons b bs :
  from_be_bytes (b :: bs) = (b2n b * 256 ^ len bs + from_be_bytes bs)%N.
Proof.
  induction bs as [|c bs IH] using rev_ind.
  - unfold from_be_bytes, len; cbn; lia.
  - change (b :: bs ++ [c]) with ((b :: bs) ++ [c]).
    rewrite !from_be_bytes_app, IH, len_app, N.pow_add_r.
    change (256 ^ len [c])%N with 256%N. lia.
Qed.

Lemma from_be_bytes_lt bs : (from_be_bytes bs < 256 ^ len bs)%N.
Proof.
  induction bs as [|b bs IH]; [done|].
  rewrite from_be_bytes_cons, len_cons, N.pow_add_r. pose proof (b2n_lt b). nia.
Qed.

Lemma from_be_be_bytes n w : from_be_bytes (be_bytes n w) = (w mod 256 ^ N.of_nat n)%N.
Proof.
  induction n as [|n IH]; [cbn; by rewrite N.mod_1_r|].
  cbn [be_bytes]. rewrite from_be_bytes_cons, b2n_n2b, IH.
  unfold len; rewrite be_bytes_length.
  replace (256 ^ N.of_nat (S n))%N with (256 ^ N.of_nat n * 256)%N
    by (rewrite Nat2N.inj_succ, N.pow_succ_r'; lia).
  rewrite N.Div0.mod_mul_r. lia.
Qed.

Lemma from_be_bytes_inj bs1 bs2 :
  length bs1 = length bs2 → from_be_bytes bs1 = from_be_bytes bs2 → bs1 = bs2.
Proof.
  revert bs2; induction bs1 as [|b1 bs1 IH]; intros [|b2 bs2] Hl; try done.
  cbn in Hl; injection Hl as Hl. rewrite !from_be_bytes_cons.
  assert (len bs1 = len bs2) as Hlen by (unfold len; by rewrite Hl). rewrite <-Hlen.
  pose proof (from_be_bytes_lt bs1) as H1. pose proof (from_be_bytes_lt bs2) as H2.
  rewrite <-Hlen in H2. intros Heq.
  destruct (N.div_mod_unique (256 ^ len bs1) (b2n b1) (b2n b2)
    (from_be_bytes bs1) (from_be_bytes bs2)) as [Hb Hr]; [done|done|lia|].
  f_equal; [by apply b2n_inj|by apply IH].
Qed.

Lemma be_bytes_from_be bs : be_bytes (length bs) (from_be_bytes bs) = bs.
Proof.
  apply from_be_bytes_inj; [apply be_bytes_length|].
  rewrite from_be_be_bytes. apply N.mod_small, from_be_bytes_lt.
Qed.

Lemma from_bytes_as_bytes s : from_bytes (as_bytes s) = s.
Proof. apply String.string_of_list_byte_of_string. Qed.

Lemma as_bytes_from_bytes bs : as_bytes (from_bytes bs) = bs.
Proof. apply String.list_byte_of_string_of_list_byte. Qed.

Lemma len_as_bytes s : len (as_bytes s) = slen s.
Proof.
  unfold len, slen, as_bytes. f_equal.
  induction s as [|a s IH]; cbn; [done|]. by f_equal.
Qed.

(** ** Lemmas on [i64] *)

Lemma in_i64_spec z : in_i64 z = true ↔ (I64_MIN ≤ z ≤ I64_MAX)%Z.
Proof. unfold in_i64. rewrite andb_true_iff, !Z.leb_le. done. Qed.

Lemma checked_i64_spec z r : checked_i64 z = r ↔
  (r = Some z ∧ (I64_MIN ≤ z ≤ I64_MAX)%Z) ∨ (r = None ∧ ¬ (I64_MIN ≤ z ≤ I64_MAX)%Z).
Proof.
  unfold checked_i64. destruct (in_i64 z) eqn:E.
  - apply in_i64_spec in E. split; [intros <-; by left|]. intros [[-> _]|[_ ?]]; done.
  - assert (¬ (I64_MIN ≤ z ≤ I64_MAX)%Z) as Hz by (rewrite <-in_i64_spec; congruence).
    split; [intros <-; by right|]. intros [[_ ?]|[-> _]]; done.
Qed.

Lemma checked_i64_out z : ¬ (I64_MIN ≤ z ≤ I64_MAX)%Z → checked_i64 z = None.
Proof. intros Hz. apply checked_i64_spec. by right. Qed.

Lemma checked_i64_in z : (I64_MIN ≤ z ≤ I64_MAX)%Z → checked_i64 z = Some z.
Proof. intros Hz. apply checked_i64_spec. by left. Qed.

Lemma checked_i64_some z r : checked_i64 z = Some r → r = z ∧ (I64_MIN ≤ z ≤ I64_MAX)%Z.
Proof. rewrite checked_i64_spec. intros [[[= ->] ?]|[? _]]; done. Qed.

Lemma wrap_i64_range z : in_i64 (wrap_i64 z) = true.
Proof.
  apply in_i64_spec. unfold wrap_i64, I64_MIN, I64_MAX.
  pose proof (Z.mod_pos_bound (z + 9223372036854775808) 18446744073709551616). lia.
Qed.

Lemma wrap_i64_small z : in_i64 z = true → wrap_i64 z = z.
Proof.
  rewrite in_i64_spec. unfold wrap_i64, I64_MIN, I64_MAX. intros H.
  rewrite Z.mod_small; lia.
Qed.

Lemma u64_to_i64_to_u64 z : in_i64 z = true → u64_to_i64 (i64_to_u64 z) = z.
Proof.
  intros H. unfold u64_to_i64, i64_to_u64.
  rewrite Z2N.id by (apply Z.mod_pos_bound; done).
  transitivity (wrap_i64 z); [|by apply wrap_i64_small].
  unfold wrap_i64. by rewrite Zplus_mod_idemp_l.
Qed.

Lemma i64_to_u64_bound z : (i64_to_u64 z < 18446744073709551616)%N.
Proof.
  unfold i64_to_u64. pose proof (Z.mod_pos_bound z 18446744073709551616). lia.
Qed.

(** ** Lemmas on suffixes of a byte list *)

Lemma drop_app_cons {A} (l : list A) n xs tail :
  drop n l = xs ++ tail → drop (n + length xs) l = tail.
Proof. intros H. rewrite <-drop_drop, H. by rewrite drop_app_length. Qed.

Lemma drop_ge_length {A} (l : list A) n xs tail :
  drop n l = xs ++ tail → xs ≠ [] → n + length xs ≤ length l.
Proof.
  intros H Hne. apply (f_equal length) in H. rewrite length_drop, length_app in H.
  destruct xs; [done|]. cbn in *. lia.
Qed.

(** ** Induction two elements at a time *)

Lemma list_pair_ind {A} (P : list A → Prop) :
  P [] → (∀ x, P [x]) → (∀ x y l, P l → P (x :: y :: l)) → ∀ l, P l.
Proof.
  intros H0 H1 H2. fix IH 1. intros [|x [|y l]]; [exact H0|exact (H1 x)|apply H2, IH].
Qed.
