(* ===== verification/BTree.v ===== *)
(** * [BTreeMap<String, V>] as a key-sorted association list

    The kernel keeps records, environments and module tables in
    [BTreeMap<String, _>] and lets their iteration order show: it is the order
    of artifact bytes, of [keys()], of rendered records. The model is the list
    of entries in iteration order, bytewise lexicographic on the key. *)

From S2P Require Import Prelude.
From Stdlib Require Import Strings.Ascii Sorting.Sorted.

Definition btree (V : Type) : Type := list (string * V).

(** [Ord for str] *)
Definition str_lt (a b : string) : Prop := String.compare a b = Lt.

Module BTree.

Section ops.
Context {V : Type}.

Fixpoint get (k : string) (m : btree V) : option V :=
  match m with
  | [] => None
  | (k', v) :: m' => if String.eqb k k' then Some v else get k m'
  end.

Fixpoint insert (k : string) (v : V) (m : btree V) : btree V :=
  match m with
  | [] => [(k, v)]
  | (k', v') :: m' =>
      match String.compare k k' with
      | Lt => (k, v) :: m
      | Eq => (k, v) :: m'
      | Gt => (k', v') :: insert k v m'
      end
  end.

Fixpoint remove (k : string) (m : btree V) : btree V :=
  match m with
  | [] => []
  | (k', v') :: m' => if String.eqb k k' then m' else (k', v') :: remove k m'
  end.

Definition contains_key (k : string) (m : btree V) : bool :=
  match get k m with Some _ => true | None => false end.

(** [extend] / [collect] of entries: later entries replace earlier ones. *)
Definition extend (m : btree V) (entries : list (string * V)) : btree V :=
  fold_left (λ m e, insert e.1 e.2 m) entries m.

Definition from_entries (entries : list (string * V)) : btree V := extend [] entries.

Definition keys (m : btree V) : list string := map fst m.
Definition values (m : btree V) : list V := map snd m.
End ops.

Definition map_values {V W} (f : V → W) (m : btree V) : btree W :=
  map (λ e, (e.1, f e.2)) m.

(** The representation invariant: keys strictly increase. *)
Definition sorted {V} (m : btree V) : Prop :=
  StronglySorted (λ a b, str_lt a.1 b.1) m.

End BTree.

(** ** The order on keys *)

Lemma ascii_compare_eq a b : Ascii.compare a b = Eq ↔ a = b.
Proof.
  unfold Ascii.compare. rewrite N.compare_eq_iff. split; [|congruence].
  intros H. rewrite <-(ascii_N_embedding a), <-(ascii_N_embedding b). congruence.
Qed.

Lemma str_compare_refl a : String.compare a a = Eq.
Proof.
  induction a as [|x a IH]; cbn; [done|].
  by rewrite (proj2 (ascii_compare_eq x x)).
Qed.

Lemma str_lt_irrefl a : ¬ str_lt a a.
Proof. unfold str_lt. by rewrite str_compare_refl. Qed.

Lemma str_lt_trans a b c : str_lt a b → str_lt b c → str_lt a c.
Proof.
  unfold str_lt. revert b c; induction a as [|x a IH]; intros [|y b] [|z c]; cbn; try done.
  destruct (Ascii.compare x y) eqn:Exy, (Ascii.compare y z) eqn:Eyz; try done.
  - apply ascii_compare_eq in Exy, Eyz; subst.
    rewrite (proj2 (ascii_compare_eq z z)) by done. apply IH.
  - apply ascii_compare_eq in Exy; subst. by rewrite Eyz.
  - apply ascii_compare_eq in Eyz; subst. by rewrite Exy.
  - unfold Ascii.compare in *. rewrite N.compare_lt_iff in Exy, Eyz.
    intros _ _. replace (N_of_ascii x ?= N_of_ascii z)%N with Lt; [done|].
    symmetry. apply N.compare_lt_iff. lia.
Qed.

Lemma str_compare_gt a b : String.compare a b = Gt ↔ str_lt b a.
Proof.
  unfold str_lt. rewrite String.compare_antisym.
  destruct (String.compare b a); cbn; split; congruence.
Qed.

Lemma str_lt_ne a b : str_lt a b → a ≠ b.
Proof. intros H ->. by apply (str_lt_irrefl b). Qed.

Lemma str_lt_trichotomy a b : str_lt a b ∨ a = b ∨ str_lt b a.
Proof.
  destruct (String.compare a b) eqn:E.
  - right; left. by apply String.compare_eq_iff.
  - by left.
  - right; right. by apply str_compare_gt.
Qed.

(** ** The map laws *)

Section btree_lemmas.
Context {V : Type}.
Implicit Types m : btree V.

Lemma btree_get_insert_eq k v m : BTree.get k (BTree.insert k v m) = Some v.
Proof.
  induction m as [|[k' v'] m IH]; cbn; [by rewrite String.eqb_refl|].
  destruct (String.compare k k') eqn:E; cbn; try by rewrite String.eqb_refl.
  destruct (String.eqb_spec k k') as [->|]; [by rewrite str_compare_refl in E|done].
Qed.

Lemma btree_get_insert_ne k k' v m :
  k ≠ k' → BTree.get k (BTree.insert k' v m) = BTree.get k m.
Proof.
  intros Hne. induction m as [|[k0 v0] m IH]; cbn.
  - by destruct (String.eqb_spec k k').
  - destruct (String.compare k' k0) eqn:E; cbn.
    + apply String.compare_eq_iff in E; subst. by destruct (String.eqb_spec k k0).
    + by destruct (String.eqb_spec k k').
    + by rewrite IH.
Qed.

Lemma btree_sorted_nil : BTree.sorted (@nil (string * V)).
Proof. constructor. Qed.

Lemma btree_insert_lower k v m a :
  str_lt a k → Forall (λ e, str_lt a e.1) m → Forall (λ e, str_lt a e.1) (BTree.insert k v m).
Proof.
  intros Ha. induction m as [|[k0 v0] m IH]; cbn; intros Hm; [by repeat constructor|].
  apply Forall_cons in Hm as [H0 Hm].
  destruct (String.compare k k0); repeat constructor; auto.
Qed.

Lemma btree_insert_sorted k v m : BTree.sorted m → BTree.sorted (BTree.insert k v m).
Proof.
  unfold BTree.sorted. induction 1 as [|[k0 v0] m Hs IH Hlt]; cbn; [by repeat constructor|].
  destruct (String.compare k k0) eqn:E.
  - apply String.compare_eq_iff in E; subst. by constructor.
  - constructor; [by constructor|]. constructor; [done|].
    eapply Forall_impl; [exact Hlt|]. intros e He. by eapply str_lt_trans.
  - apply str_compare_gt in E. constructor; [done|]. by apply btree_insert_lower.
Qed.

Lemma btree_insert_elem k v m e : e ∈ BTree.insert k v m → e ∈ m ∨ e = (k, v).
Proof.
  induction m as [|[k' w] m IH]; cbn; [set_solver|]. destruct (String.compare k k'); set_solver.
Qed.

Lemma btree_extend_values (P : V → Prop) m es :
  (∀ e, e ∈ m → P e.2) → (∀ e, e ∈ es → P e.2) → ∀ e, e ∈ BTree.extend m es → P e.2.
Proof.
  unfold BTree.extend. revert m. induction es as [|e es IH]; intros m Hm Hes; cbn; [done|].
  apply IH; [|intros x Hx; apply Hes; by right].
  intros x [Hx| ->]%btree_insert_elem; [by apply Hm|]. apply (Hes e). by left.
Qed.

Lemma btree_extend_length m es : length (BTree.extend m es) ≤ length m + length es.
Proof.
  assert (∀ k v m, length (BTree.insert k v m) ≤ S (length m)) as Hi.
  { clear. intros k v m. induction m as [|[k' w] m IH]; cbn; [lia|]. destruct (String.compare k k'); cbn; lia. }
  unfold BTree.extend. revert m. induction es as [|e es IH]; intros m; cbn; [lia|].
  specialize (IH (BTree.insert e.1 e.2 m)). specialize (Hi e.1 e.2 m). lia.
Qed.

Lemma btree_extend_sorted m es : BTree.sorted m → BTree.sorted (BTree.extend m es).
Proof.
  revert m; induction es as [|e es IH]; intros m Hm; cbn; [done|].
  by apply IH, btree_insert_sorted.
Qed.

Lemma btree_get_lower k m : Forall (λ e, str_lt k e.1) m → BTree.get k m = None.
Proof.
  induction 1 as [|[k0 v0] m H0 Hm IH]; cbn; [done|].
  destruct (String.eqb_spec k k0) as [->|]; [by apply str_lt_irrefl in H0|done].
Qed.

(** Inserting above every key appends. *)
Lemma btree_insert_last k v m :
  Forall (λ e, str_lt e.1 k) m → BTree.insert k v m = m ++ [(k, v)].
Proof.
  induction 1 as [|[k0 v0] m H0 Hm IH]; cbn; [done|].
  apply str_compare_gt in H0; cbn in H0. by rewrite H0, IH.
Qed.

Lemma btree_get_upper k m : Forall (λ e, str_lt e.1 k) m → BTree.get k m = None.
Proof.
  induction 1 as [|[k0 v0] m H0 Hm IH]; cbn; [done|].
  destruct (String.eqb_spec k k0) as [->|]; [by apply str_lt_irrefl in H0|done].
Qed.

Lemma btree_sorted_app_lower m1 e m2 :
  BTree.sorted (m1 ++ e :: m2) → Forall (λ e', str_lt e'.1 e.1) m1.
Proof.
  unfold BTree.sorted. induction m1 as [|e1 m1 IH]; cbn; intros H; [constructor|].
  apply StronglySorted_inv in H as [Hs Hf].
  constructor; [|by apply IH].
  rewrite Forall_app, Forall_cons in Hf. naive_solver.
Qed.

Lemma btree_get_sorted_in k v m :
  BTree.sorted m → BTree.get k m = Some v ↔ (k, v) ∈ m.
Proof.
  unfold BTree.sorted. induction 1 as [|[k0 v0] m Hs IH Hlt]; cbn.
  - split; [done|]. by intros ?%not_elem_of_nil.
  - rewrite elem_of_cons. destruct (String.eqb_spec k k0) as [->|Hne].
    + split; [intros [= ->]; by left|]. intros [[= ->]|Hin]; [done|].
      rewrite Forall_forall in Hlt. apply Hlt in Hin. cbn in Hin. by apply str_lt_irrefl in Hin.
    + rewrite IH. naive_solver.
Qed.

Lemma btree_get_in k v m : BTree.get k m = Some v → (k, v) ∈ m.
Proof.
  induction m as [|[k0 v0] m IH]; cbn; [done|].
  destruct (String.eqb_spec k k0) as [->|]; [intros [= ->]; by left|right; auto].
Qed.

(** A sorted map is what collecting its own entries gives. *)
Lemma btree_from_sorted m : BTree.sorted m → BTree.from_entries m = m.
Proof.
  unfold BTree.from_entries. intros Hm. change m with ([] ++ m) in Hm at 1.
  change m with ([] ++ m) at 2. revert Hm. generalize (@nil (string * V)) as done_.
  induction m as [|[k v] m IH]; intros done_ Hm; cbn; [by rewrite app_nil_r|].
  pose proof (btree_sorted_app_lower _ _ _ Hm) as Hlow. cbn in Hlow.
  rewrite btree_insert_last by done.
  change (BTree.extend (done_ ++ [(k, v)]) m = done_ ++ (k, v) :: m).
  rewrite IH; [by rewrite <- app_assoc|]. by rewrite <- app_assoc.
Qed.

(** Sorted maps with the same lookups are the same list. *)
Lemma btree_ext m1 m2 :
  BTree.sorted m1 → BTree.sorted m2 →
  (∀ k, BTree.get k m1 = BTree.get k m2) → m1 = m2.
Proof.
  unfold BTree.sorted. intros H1; revert m2.
  induction H1 as [|[k1 v1] m1 Hs1 IH Hlt1]; intros m2 H2 Heq.
  - destruct m2 as [|[k2 v2] m2]; [done|]. specialize (Heq k2). cbn in Heq.
    by rewrite String.eqb_refl in Heq.
  - destruct H2 as [|[k2 v2] m2 Hs2 Hlt2].
    + specialize (Heq k1). cbn in Heq. by rewrite String.eqb_refl in Heq.
    + assert (k1 = k2) as ->.
      { destruct (str_lt_trichotomy k1 k2) as [Hlt|[?|Hlt]]; [|done|].
        - specialize (Heq k1). cbn in Heq. rewrite String.eqb_refl in Heq.
          destruct (String.eqb_spec k1 k2) as [->|_]; [by apply str_lt_irrefl in Hlt|].
          rewrite btree_get_lower in Heq; [done|].
          eapply Forall_impl; [exact Hlt2|]. intros e He. by eapply str_lt_trans.
        - specialize (Heq k2). cbn in Heq. rewrite String.eqb_refl in Heq.
          destruct (String.eqb_spec k2 k1) as [->|_]; [by apply str_lt_irrefl in Hlt|].
          rewrite btree_get_lower in Heq; [done|].
          eapply Forall_impl; [exact Hlt1|]. intros e He. by eapply str_lt_trans. }
      pose proof (Heq k2) as Hv. cbn in Hv. rewrite !String.eqb_refl in Hv.
      injection Hv as ->. f_equal. apply IH; [done|].
      intros k'. pose proof (Heq k') as Hk. cbn in Hk.
      destruct (String.eqb_spec k' k2) as [Hk2|]; [|done].
      rewrite Hk2. by rewrite !btree_get_lower.
Qed.

End btree_lemmas.

#[export] Hint Resolve btree_sorted_nil btree_insert_sorted btree_extend_sorted : kernel.
