(* ===== verification/Opcode.v ===== *)
(** * The opcode schema ([opcode.rs])

    The bytecode ABI's single table: discriminants, operand roles and widths,
    names, and the portability classification. *)

From S2P Require Import Prelude.

Module OperandKind.

Inductive OperandKind :=
  | ImmediateU8 | ImmediateU16 | BuiltinIdU64 | ConstantU16 | StringConstantU16
  | LocalU16 | FunctionU16 | JumpU16 | BindingTypeU16.

Definition width (k : OperandKind) : nat :=
  match k with
  | ImmediateU8 => 1
  | ImmediateU16 | ConstantU16 | StringConstantU16 | LocalU16 | FunctionU16
  | JumpU16 | BindingTypeU16 => 2
  | BuiltinIdU64 => 8
  end.

Definition abi_tag (k : OperandKind) : N :=
  match k with
  | ImmediateU8 => 0
  | ImmediateU16 => 1
  | BuiltinIdU64 => 2
  | ConstantU16 => 3
  | LocalU16 => 4
  | FunctionU16 => 5
  | JumpU16 => 6
  | StringConstantU16 => 7
  | BindingTypeU16 => 8
  end.

End OperandKind.

Module Op.
Import OperandKind.

Inductive Op :=
  | Constant | Nil | True_ | False_ | RootHarness | GetVar | DefLet | DefVar
  | DefCell | SetVar | PushScope | PopScope | Add | Sub | Mul | Div | Mod | Pow
  | Negate | Equal | NotEqual | Less | Greater | LessEqual | GreaterEqual | Not
  | Jump | JumpIfFalse | JumpIfTrue | Pop | Call | TailCall | Return | Closure
  | BuildList | BuildDict | Subscript | SubscriptOpt | Slice | GetProperty
  | GetPropertyOpt | SetProperty | SetSubscript | SetLocalSlotProperty
  | SetLocalSlotSubscript | MethodCall | MethodCallOpt | Concat | IterInit | IterNext
  | Pipe | Throw | TryCatchSetup | PopHandler | Parallel | ParallelMap
  | ParallelMapStream | ParallelSettle | Spawn | SyncMutexEnter | SyncMutexEnterKeyed
  | TaskScopeEnter | TaskScopeExit | Import | SelectiveImport | NamespaceImport
  | DeadlineSetup | DeadlineEnd | BuildEnum | MatchEnum | PopIterator | GetArgc
  | CheckType | TryUnwrap | TryWrapOk | CallSpread | CallBuiltin | CallBuiltinSpread
  | MethodCallSpread | Dup | Swap | Contains | AddInt | SubInt | MulInt | DivInt
  | ModInt | AddFloat | SubFloat | MulFloat | DivFloat | ModFloat | EqualInt
  | NotEqualInt | LessInt | GreaterInt | LessEqualInt | GreaterEqualInt | EqualFloat
  | NotEqualFloat | LessFloat | GreaterFloat | LessEqualFloat | GreaterEqualFloat
  | EqualBool | NotEqualBool | EqualString | NotEqualString | Yield | GetLocalSlot
  | DefLocalSlot | SetLocalSlot | ConcatAssignLocal | NamespaceImportMembers
  | AssertBindingType | ThrowDeclared | TryCatchPreserve | Rethrow.

(** [Op::ALL], in discriminant order. *)
Definition ALL : list Op :=
  [Constant; Nil; True_; False_; RootHarness; GetVar; DefLet; DefVar; DefCell;
   SetVar; PushScope; PopScope; Add; Sub; Mul; Div; Mod; Pow; Negate; Equal;
   NotEqual; Less; Greater; LessEqual; GreaterEqual; Not; Jump; JumpIfFalse;
   JumpIfTrue; Pop; Call; TailCall; Return; Closure; BuildList; BuildDict; Subscript;
   SubscriptOpt; Slice; GetProperty; GetPropertyOpt; SetProperty; SetSubscript;
   SetLocalSlotProperty; SetLocalSlotSubscript; MethodCall; MethodCallOpt; Concat;
   IterInit; IterNext; Pipe; Throw; TryCatchSetup; PopHandler; Parallel; ParallelMap;
   ParallelMapStream; ParallelSettle; Spawn; SyncMutexEnter; SyncMutexEnterKeyed;
   TaskScopeEnter; TaskScopeExit; Import; SelectiveImport; NamespaceImport;
   DeadlineSetup; DeadlineEnd; BuildEnum; MatchEnum; PopIterator; GetArgc; CheckType;
   TryUnwrap; TryWrapOk; CallSpread; CallBuiltin; CallBuiltinSpread;
   MethodCallSpread; Dup; Swap; Contains; AddInt; SubInt; MulInt; DivInt; ModInt;
   AddFloat; SubFloat; MulFloat; DivFloat; ModFloat; EqualInt; NotEqualInt; LessInt;
   GreaterInt; LessEqualInt; GreaterEqualInt; EqualFloat; NotEqualFloat; LessFloat;
   GreaterFloat; LessEqualFloat; GreaterEqualFloat; EqualBool; NotEqualBool;
   EqualString; NotEqualString; Yield; GetLocalSlot; DefLocalSlot; SetLocalSlot;
   ConcatAssignLocal; NamespaceImportMembers; AssertBindingType; ThrowDeclared;
   TryCatchPreserve; Rethrow].

(** [op as u8] *)
Definition discriminant (op : Op) : N :=
  match op with
  | Constant => 0
  | Nil => 1
  | True_ => 2
  | False_ => 3
  | RootHarness => 4
  | GetVar => 5
  | DefLet => 6
  | DefVar => 7
  | DefCell => 8
  | SetVar => 9
  | PushScope => 10
  | PopScope => 11
  | Add => 12
  | Sub => 13
  | Mul => 14
  | Div => 15
  | Mod => 16
  | Pow => 17
  | Negate => 18
  | Equal => 19
  | NotEqual => 20
  | Less => 21
  | Greater => 22
  | LessEqual => 23
  | GreaterEqual => 24
  | Not => 25
  | Jump => 26
  | JumpIfFalse => 27
  | JumpIfTrue => 28
  | Pop => 29
  | Call => 30
  | TailCall => 31
  | Return => 32
  | Closure => 33
  | BuildList => 34
  | BuildDict => 35
  | Subscript => 36
  | SubscriptOpt => 37
  | Slice => 38
  | GetProperty => 39
  | GetPropertyOpt => 40
  | SetProperty => 41
  | SetSubscript => 42
  | SetLocalSlotProperty => 43
  | SetLocalSlotSubscript => 44
  | MethodCall => 45
  | MethodCallOpt => 46
  | Concat => 47
  | IterInit => 48
  | IterNext => 49
  | Pipe => 50
  | Throw => 51
  | TryCatchSetup => 52
  | PopHandler => 53
  | Parallel => 54
  | ParallelMap => 55
  | ParallelMapStream => 56
  | ParallelSettle => 57
  | Spawn => 58
  | SyncMutexEnter => 59
  | SyncMutexEnterKeyed => 60
  | TaskScopeEnter => 61
  | TaskScopeExit => 62
  | Import => 63
  | SelectiveImport => 64
  | NamespaceImport => 65
  | DeadlineSetup => 66
  | DeadlineEnd => 67
  | BuildEnum => 68
  | MatchEnum => 69
  | PopIterator => 70
  | GetArgc => 71
  | CheckType => 72
  | TryUnwrap => 73
  | TryWrapOk => 74
  | CallSpread => 75
  | CallBuiltin => 76
  | CallBuiltinSpread => 77
  | MethodCallSpread => 78
  | Dup => 79
  | Swap => 80
  | Contains => 81
  | AddInt => 82
  | SubInt => 83
  | MulInt => 84
  | DivInt => 85
  | ModInt => 86
  | AddFloat => 87
  | SubFloat => 88
  | MulFloat => 89
  | DivFloat => 90
  | ModFloat => 91
  | EqualInt => 92
  | NotEqualInt => 93
  | LessInt => 94
  | GreaterInt => 95
  | LessEqualInt => 96
  | GreaterEqualInt => 97
  | EqualFloat => 98
  | NotEqualFloat => 99
  | LessFloat => 100
  | GreaterFloat => 101
  | LessEqualFloat => 102
  | GreaterEqualFloat => 103
  | EqualBool => 104
  | NotEqualBool => 105
  | EqualString => 106
  | NotEqualString => 107
  | Yield => 108
  | GetLocalSlot => 109
  | DefLocalSlot => 110
  | SetLocalSlot => 111
  | ConcatAssignLocal => 112
  | NamespaceImportMembers => 113
  | AssertBindingType => 114
  | ThrowDeclared => 115
  | TryCatchPreserve => 116
  | Rethrow => 117
  end.

Lemma discriminant_inj a b : discriminant a = discriminant b → a = b.
Proof.
  assert (∀ op, ALL !! N.to_nat (discriminant op) = Some op) as Hall
    by (intros []; reflexivity).
  intros H. pose proof (Hall a) as Ha. rewrite H, Hall in Ha. congruence.
Qed.

#[export] Instance Op_eq_dec : EqDecision Op.
Proof.
  intros a b. destruct (decide (discriminant a = discriminant b)) as [H|H].
  - left. by apply discriminant_inj.
  - right. congruence.
Defined.

Definition from_byte (b : byte) : option Op := ALL !! N.to_nat (b2n b).

Definition name (op : Op) : string :=
  match op with
  | Constant => "Constant"
  | Nil => "Nil"
  | True_ => "True"
  | False_ => "False"
  | RootHarness => "RootHarness"
  | GetVar => "GetVar"
  | DefLet => "DefLet"
  | DefVar => "DefVar"
  | DefCell => "DefCell"
  | SetVar => "SetVar"
  | PushScope => "PushScope"
  | PopScope => "PopScope"
  | Add => "Add"
  | Sub => "Sub"
  | Mul => "Mul"
  | Div => "Div"
  | Mod => "Mod"
  | Pow => "Pow"
  | Negate => "Negate"
  | Equal => "Equal"
  | NotEqual => "NotEqual"
  | Less => "Less"
  | Greater => "Greater"
  | LessEqual => "LessEqual"
  | GreaterEqual => "GreaterEqual"
  | Not => "Not"
  | Jump => "Jump"
  | JumpIfFalse => "JumpIfFalse"
  | JumpIfTrue => "JumpIfTrue"
  | Pop => "Pop"
  | Call => "Call"
  | TailCall => "TailCall"
  | Return => "Return"
  | Closure => "Closure"
  | BuildList => "BuildList"
  | BuildDict => "BuildDict"
  | Subscript => "Subscript"
  | SubscriptOpt => "SubscriptOpt"
  | Slice => "Slice"
  | GetProperty => "GetProperty"
  | GetPropertyOpt => "GetPropertyOpt"
  | SetProperty => "SetProperty"
  | SetSubscript => "SetSubscript"
  | SetLocalSlotProperty => "SetLocalSlotProperty"
  | SetLocalSlotSubscript => "SetLocalSlotSubscript"
  | MethodCall => "MethodCall"
  | MethodCallOpt => "MethodCallOpt"
  | Concat => "Concat"
  | IterInit => "IterInit"
  | IterNext => "IterNext"
  | Pipe => "Pipe"
  | Throw => "Throw"
  | TryCatchSetup => "TryCatchSetup"
  | PopHandler => "PopHandler"
  | Parallel => "Parallel"
  | ParallelMap => "ParallelMap"
  | ParallelMapStream => "ParallelMapStream"
  | ParallelSettle => "ParallelSettle"
  | Spawn => "Spawn"
  | SyncMutexEnter => "SyncMutexEnter"
  | SyncMutexEnterKeyed => "SyncMutexEnterKeyed"
  | TaskScopeEnter => "TaskScopeEnter"
  | TaskScopeExit => "TaskScopeExit"
  | Import => "Import"
  | SelectiveImport => "SelectiveImport"
  | NamespaceImport => "NamespaceImport"
  | DeadlineSetup => "DeadlineSetup"
  | DeadlineEnd => "DeadlineEnd"
  | BuildEnum => "BuildEnum"
  | MatchEnum => "MatchEnum"
  | PopIterator => "PopIterator"
  | GetArgc => "GetArgc"
  | CheckType => "CheckType"
  | TryUnwrap => "TryUnwrap"
  | TryWrapOk => "TryWrapOk"
  | CallSpread => "CallSpread"
  | CallBuiltin => "CallBuiltin"
  | CallBuiltinSpread => "CallBuiltinSpread"
  | MethodCallSpread => "MethodCallSpread"
  | Dup => "Dup"
  | Swap => "Swap"
  | Contains => "Contains"
  | AddInt => "AddInt"
  | SubInt => "SubInt"
  | MulInt => "MulInt"
  | DivInt => "DivInt"
  | ModInt => "ModInt"
  | AddFloat => "AddFloat"
  | SubFloat => "SubFloat"
  | MulFloat => "MulFloat"
  | DivFloat => "DivFloat"
  | ModFloat => "ModFloat"
  | EqualInt => "EqualInt"
  | NotEqualInt => "NotEqualInt"
  | LessInt => "LessInt"
  | GreaterInt => "GreaterInt"
  | LessEqualInt => "LessEqualInt"
  | GreaterEqualInt => "GreaterEqualInt"
  | EqualFloat => "EqualFloat"
  | NotEqualFloat => "NotEqualFloat"
  | LessFloat => "LessFloat"
  | GreaterFloat => "GreaterFloat"
  | LessEqualFloat => "LessEqualFloat"
  | GreaterEqualFloat => "GreaterEqualFloat"
  | EqualBool => "EqualBool"
  | NotEqualBool => "NotEqualBool"
  | EqualString => "EqualString"
  | NotEqualString => "NotEqualString"
  | Yield => "Yield"
  | GetLocalSlot => "GetLocalSlot"
  | DefLocalSlot => "DefLocalSlot"
  | SetLocalSlot => "SetLocalSlot"
  | ConcatAssignLocal => "ConcatAssignLocal"
  | NamespaceImportMembers => "NamespaceImportMembers"
  | AssertBindingType => "AssertBindingType"
  | ThrowDeclared => "ThrowDeclared"
  | TryCatchPreserve => "TryCatchPreserve"
  | Rethrow => "Rethrow"
  end.

Definition operands (op : Op) : list OperandKind :=
  match op with
  | Constant => [ConstantU16]
  | GetVar | DefLet | DefVar | DefCell | SetVar | GetProperty | GetPropertyOpt
  | SetSubscript | Import | MethodCallSpread => [StringConstantU16]
  | Jump | JumpIfFalse | JumpIfTrue | IterNext => [JumpU16]
  | Call | TailCall => [ImmediateU8]
  | Closure => [FunctionU16]
  | BuildList | BuildDict | Concat => [ImmediateU16]
  | SetProperty | SelectiveImport | NamespaceImport | MatchEnum | CheckType => [StringConstantU16; StringConstantU16]
  | SetLocalSlotProperty => [StringConstantU16; LocalU16]
  | SetLocalSlotSubscript | GetLocalSlot | DefLocalSlot | SetLocalSlot
  | ConcatAssignLocal => [LocalU16]
  | MethodCall | MethodCallOpt => [StringConstantU16; ImmediateU8]
  | TryCatchSetup | TryCatchPreserve => [JumpU16; StringConstantU16]
  | BuildEnum => [StringConstantU16; StringConstantU16; ImmediateU16]
  | CallBuiltin => [BuiltinIdU64; StringConstantU16; ImmediateU8]
  | CallBuiltinSpread => [BuiltinIdU64; StringConstantU16]
  | NamespaceImportMembers => [StringConstantU16; StringConstantU16; StringConstantU16]
  | AssertBindingType => [BindingTypeU16]
  | _ => []
  end.

Definition instruction_len (op : Op) : nat :=
  foldl (λ width k, width + OperandKind.width k) 1 (operands op).

Inductive Portability := Executable | Deferred.

Definition portability (op : Op) : Portability :=
  match op with
  | Pipe | Parallel | ParallelMap | ParallelMapStream | ParallelSettle | Spawn
  | SyncMutexEnter | SyncMutexEnterKeyed | TaskScopeEnter | TaskScopeExit | Import
  | SelectiveImport | NamespaceImport | NamespaceImportMembers | DeadlineSetup
  | DeadlineEnd | CheckType | CallSpread | MethodCallSpread | Yield => Deferred
  | Constant | Nil | True_ | False_ | RootHarness | GetVar | DefLet | DefVar
  | DefCell | SetVar | PushScope | PopScope | Add | Sub | Mul | Div | Mod | Pow
  | Negate | Equal | NotEqual | Less | Greater | LessEqual | GreaterEqual | Not
  | Jump | JumpIfFalse | JumpIfTrue | Pop | Call | TailCall | Return | Closure
  | BuildList | BuildDict | Subscript | SubscriptOpt | Slice | GetProperty
  | GetPropertyOpt | SetProperty | SetSubscript | SetLocalSlotProperty
  | SetLocalSlotSubscript | MethodCall | MethodCallOpt | Concat | Throw
  | ThrowDeclared | Rethrow | TryCatchSetup | TryCatchPreserve | PopHandler
  | IterInit | IterNext | PopIterator | GetArgc | CallBuiltin | CallBuiltinSpread
  | Dup | Swap | Contains | AddInt | SubInt | MulInt | DivInt | ModInt | AddFloat
  | SubFloat | MulFloat | DivFloat | ModFloat | EqualInt | NotEqualInt | LessInt
  | GreaterInt | LessEqualInt | GreaterEqualInt | EqualFloat | NotEqualFloat
  | LessFloat | GreaterFloat | LessEqualFloat | GreaterEqualFloat | EqualBool
  | NotEqualBool | EqualString | NotEqualString | GetLocalSlot | DefLocalSlot
  | SetLocalSlot | ConcatAssignLocal | BuildEnum | MatchEnum | TryUnwrap | TryWrapOk
  | AssertBindingType => Executable
  end.

Definition is_executable (op : Op) : bool :=
  match portability op with Executable => true | Deferred => false end.

(** The bytes [opcode_abi_fingerprint] feeds its hasher, in order. *)
Definition abi_bytes (op : Op) : list byte :=
  [n2b (discriminant op)] ++ as_bytes (name op) ++ [n2b 0] ++
  map (λ k, n2b (abi_tag k)) (operands op) ++ [n2b 255].

End Op.

Definition opcode_abi_preimage : list byte := concat (map Op.abi_bytes Op.ALL).

(** ** Facts about the table *)

Lemma op_from_byte_discriminant op : Op.from_byte (n2b (Op.discriminant op)) = Some op.
Proof. destruct op; reflexivity. Qed.

Lemma op_discriminant_bound op : (Op.discriminant op < 118)%N.
Proof. destruct op; cbn; lia. Qed.

Lemma op_from_byte_inv b op : Op.from_byte b = Some op → b = n2b (Op.discriminant op).
Proof. destruct b; cbn; intros H; try discriminate H; injection H as <-; reflexivity. Qed.

Lemma op_instruction_len_pos op : 1 ≤ Op.instruction_len op.
Proof. destruct op; cbn; lia. Qed.
