(* ===== verification/Program.v ===== *)
(** * Program data: type expressions, constants, chunks, functions, packages

    The data of [program.rs], [harn-parser]'s [TypeExpr], [compiler/module.rs]'s
    import and export projections, and the wire records of [artifact/wire.rs]. *)

From S2P Require Import Prelude BTree Opcode.

(** ** UTF-8 ([std::str::from_utf8]) *)

Definition byte_in (lo hi : N) (b : byte) : bool := ((lo <=? b2n b) && (b2n b <=? hi))%N.
Definition is_continuation (b : byte) : bool := byte_in 128 191 b.

(** Well-formed UTF-8: no overlong forms, no surrogates, nothing above U+10FFFF. *)
Fixpoint utf8_valid (bs : list byte) : bool :=
  match bs with
  | [] => true
  | b0 :: r0 =>
      if byte_in 0 127 b0 then utf8_valid r0 else
      match r0 with
      | [] => false
      | b1 :: r1 =>
          if byte_in 194 223 b0 then is_continuation b1 && utf8_valid r1 else
          match r1 with
          | [] => false
          | b2 :: r2 =>
              if byte_in 224 224 b0 then byte_in 160 191 b1 && is_continuation b2 && utf8_valid r2
              else if byte_in 237 237 b0 then byte_in 128 159 b1 && is_continuation b2 && utf8_valid r2
              else if byte_in 225 239 b0 then is_continuation b1 && is_continuation b2 && utf8_valid r2
              else
              match r2 with
              | [] => false
              | b3 :: r3 =>
                  let tail := is_continuation b2 && is_continuation b3 && utf8_valid r3 in
                  if byte_in 240 240 b0 then byte_in 144 191 b1 && tail
                  else if byte_in 241 243 b0 then is_continuation b1 && tail
                  else if byte_in 244 244 b0 then byte_in 128 143 b1 && tail
                  else false
              end
          end
      end
  end.

Definition from_utf8 (bs : list byte) : option string :=
  if utf8_valid bs then Some (from_bytes bs) else None.

(** Every Rust [String] satisfies this. *)
Definition str_wf (s : string) : Prop := utf8_valid (as_bytes s) = true.

Lemma from_utf8_as_bytes s : str_wf s → from_utf8 (as_bytes s) = Some s.
Proof. unfold from_utf8, str_wf. intros ->. by rewrite from_bytes_as_bytes. Qed.

Lemma from_utf8_inv bs s : from_utf8 bs = Some s → as_bytes s = bs ∧ str_wf s.
Proof.
  unfold from_utf8, str_wf. destruct (utf8_valid bs) eqn:E; [|done].
  intros [= <-]. by rewrite as_bytes_from_bytes.
Qed.

(** ** Type expressions ([harn-parser] [ast.rs]) *)

(** [ShapeField]; its [span] is provenance outside field identity. *)
Record ShapeField (T : Type) := mkShapeField {
  field_name : string;
  field_type : T;
  field_optional : bool
}.
Arguments mkShapeField {T}.
Arguments field_name {T}.
Arguments field_type {T}.
Arguments field_optional {T}.

Module TypeExpr.
Inductive TypeExpr :=
  | Named (name : string)
  | Union (members : list TypeExpr)
  | Intersection (members : list TypeExpr)
  | Shape (fields : list (ShapeField TypeExpr))
  | OpenShape (fields : list (ShapeField TypeExpr)) (rests : list TypeExpr)
  | List (inner : TypeExpr)
  | Tuple (elements : list TypeExpr)
  | DictType (key value : TypeExpr)
  | Iter (inner : TypeExpr)
  | Generator (inner : TypeExpr)
  | Stream (inner : TypeExpr)
  | Owned (inner : TypeExpr)
  | Applied (name : string) (args : list TypeExpr)
  | FnType (params : list TypeExpr) (return_type : TypeExpr)
  | Never
  | LitString (value : string)
  | LitInt (value : Z).

Section induction.
Variable P : TypeExpr → Prop.
Hypothesis HNamed : ∀ s, P (Named s).
Hypothesis HUnion : ∀ ts, Forall P ts → P (Union ts).
Hypothesis HIntersection : ∀ ts, Forall P ts → P (Intersection ts).
Hypothesis HShape : ∀ fs, Forall (λ f, P (field_type f)) fs → P (Shape fs).
Hypothesis HOpenShape : ∀ fs ts,
  Forall (λ f, P (field_type f)) fs → Forall P ts → P (OpenShape fs ts).
Hypothesis HList : ∀ t, P t → P (List t).
Hypothesis HTuple : ∀ ts, Forall P ts → P (Tuple ts).
Hypothesis HDict : ∀ k v, P k → P v → P (DictType k v).
Hypothesis HIter : ∀ t, P t → P (Iter t).
Hypothesis HGenerator : ∀ t, P t → P (Generator t).
Hypothesis HStream : ∀ t, P t → P (Stream t).
Hypothesis HOwned : ∀ t, P t → P (Owned t).
Hypothesis HApplied : ∀ n ts, Forall P ts → P (Applied n ts).
Hypothesis HFn : ∀ ts t, Forall P ts → P t → P (FnType ts t).
Hypothesis HNever : P Never.
Hypothesis HLitString : ∀ s, P (LitString s).
Hypothesis HLitInt : ∀ z, P (LitInt z).

Fixpoint type_expr_ind (t : TypeExpr) : P t :=
  let list_ind := fix list_ind (ts : list TypeExpr) : Forall P ts :=
    match ts with
    | [] => Forall_nil_2 _
    | t :: ts => Forall_cons_2 _ _ _ (type_expr_ind t) (list_ind ts)
    end in
  let fields_ind := fix fields_ind (fs : list (ShapeField TypeExpr)) :
      Forall (λ f, P (field_type f)) fs :=
    match fs with
    | [] => Forall_nil_2 _
    | f :: fs => Forall_cons_2 _ _ _ (type_expr_ind (field_type f)) (fields_ind fs)
    end in
  match t with
  | Named s => HNamed s
  | Union ts => HUnion ts (list_ind ts)
  | Intersection ts => HIntersection ts (list_ind ts)
  | Shape fs => HShape fs (fields_ind fs)
  | OpenShape fs ts => HOpenShape fs ts (fields_ind fs) (list_ind ts)
  | List t => HList t (type_expr_ind t)
  | Tuple ts => HTuple ts (list_ind ts)
  | DictType k v => HDict k v (type_expr_ind k) (type_expr_ind v)
  | Iter t => HIter t (type_expr_ind t)
  | Generator t => HGenerator t (type_expr_ind t)
  | Stream t => HStream t (type_expr_ind t)
  | Owned t => HOwned t (type_expr_ind t)
  | Applied n ts => HApplied n ts (list_ind ts)
  | FnType ts t => HFn ts t (list_ind ts) (type_expr_ind t)
  | Never => HNever
  | LitString s => HLitString s
  | LitInt z => HLitInt z
  end.
End induction.
End TypeExpr.

(** ** Constants, chunks and functions ([program.rs]) *)

(** An [f64] is its 64-bit pattern. *)
Abbreviation f64 := N (only parsing).

Module Constant.
Inductive Constant :=
  | Int (value : Z)
  | Float (value : f64)
  | String (value : string)
  | Bool (value : bool)
  | Nil
  | Duration (value : Z).
End Constant.

Record LocalSlotInfo := mkLocalSlotInfo {
  slot_name : string;
  slot_mutable : bool;
  slot_scope_depth : N
}.

Record BindingTypeSlot := mkBindingTypeSlot {
  binding_name : string;
  binding_type_expr : TypeExpr.TypeExpr;
  binding_nominal_type_names : list string
}.

Record ParamSlot := mkParamSlot {
  param_name : string;
  param_type_expr : option TypeExpr.TypeExpr;
  param_has_default : bool
}.

(** [CompiledFunction]; [C] is the type of its chunk. *)
Record CompiledFunctionOf (C : Type) := mkCompiledFunction {
  fn_name : string;
  fn_type_params : list string;
  fn_nominal_type_names : list string;
  fn_params : list ParamSlot;
  fn_default_start : option N;
  fn_chunk : C;
  fn_is_generator : bool;
  fn_is_stream : bool;
  fn_has_rest_param : bool;
  fn_has_runtime_type_checks : bool
}.
Arguments mkCompiledFunction {C}.
Arguments fn_name {C}.
Arguments fn_type_params {C}.
Arguments fn_nominal_type_names {C}.
Arguments fn_params {C}.
Arguments fn_default_start {C}.
Arguments fn_chunk {C}.
Arguments fn_is_generator {C}.
Arguments fn_is_stream {C}.
Arguments fn_has_rest_param {C}.
Arguments fn_has_runtime_type_checks {C}.

(** [Chunk]: the fields an artifact carries ([ChunkParts]); [constant_index],
    [current_col] and the debug balance counters serve the compiler only. *)
Inductive Chunk := mkChunk {
  chunk_code : list byte;
  chunk_constants : list Constant.Constant;
  chunk_lines : list N;
  chunk_columns : list N;
  chunk_source_file : option string;
  chunk_functions : list (CompiledFunctionOf Chunk);
  chunk_local_slots : list LocalSlotInfo;
  chunk_binding_types : list BindingTypeSlot;
  chunk_references_outer_names : bool
}.

Abbreviation CompiledFunction := (CompiledFunctionOf Chunk).

(** [CompiledFunction::required_param_count] *)
Definition required_param_count (f : CompiledFunction) : N :=
  default (len (fn_params f)) (fn_default_start f).

(** ** Equality of type expressions *)

Section list_eq.
Context {A : Type} (eqb : A → A → bool).
Fixpoint list_eqb (l1 l2 : list A) : bool :=
  match l1, l2 with
  | [], [] => true
  | x :: l1, y :: l2 => eqb x y && list_eqb l1 l2
  | _, _ => false
  end.
End list_eq.

(** The derived equality of [TypeExpr]; fields compare without their span. *)
Fixpoint type_expr_eqb (a b : TypeExpr.TypeExpr) {struct a} : bool :=
  let field_eqb (x y : ShapeField TypeExpr.TypeExpr) :=
    String.eqb (field_name x) (field_name y) && type_expr_eqb (field_type x) (field_type y) &&
    Bool.eqb (field_optional x) (field_optional y) in
  match a, b with
  | TypeExpr.Named x, TypeExpr.Named y | TypeExpr.LitString x, TypeExpr.LitString y => String.eqb x y
  | TypeExpr.Union xs, TypeExpr.Union ys | TypeExpr.Intersection xs, TypeExpr.Intersection ys
  | TypeExpr.Tuple xs, TypeExpr.Tuple ys => list_eqb type_expr_eqb xs ys
  | TypeExpr.Shape xs, TypeExpr.Shape ys => list_eqb field_eqb xs ys
  | TypeExpr.OpenShape xs rs, TypeExpr.OpenShape ys ss =>
      list_eqb field_eqb xs ys && list_eqb type_expr_eqb rs ss
  | TypeExpr.List x, TypeExpr.List y | TypeExpr.Iter x, TypeExpr.Iter y
  | TypeExpr.Generator x, TypeExpr.Generator y | TypeExpr.Stream x, TypeExpr.Stream y
  | TypeExpr.Owned x, TypeExpr.Owned y => type_expr_eqb x y
  | TypeExpr.DictType k v, TypeExpr.DictType l w => type_expr_eqb k l && type_expr_eqb v w
  | TypeExpr.Applied n xs, TypeExpr.Applied m ys => String.eqb n m && list_eqb type_expr_eqb xs ys
  | TypeExpr.FnType ps r, TypeExpr.FnType qs s => list_eqb type_expr_eqb ps qs && type_expr_eqb r s
  | TypeExpr.Never, TypeExpr.Never => true
  | TypeExpr.LitInt x, TypeExpr.LitInt y => (x =? y)%Z
  | _, _ => false
  end.

(** ** Package linkage ([compiler/module.rs]) *)

Record PortableImport := mkPortableImport {
  import_path : string;
  import_target : string;
  import_selected_names : option (list string);
  import_namespace_alias : option string;
  import_is_pub : bool
}.

Module PortableExportKind.
Inductive PortableExportKind :=
  | Function | Pipeline | Tool | Skill | EvalPack
  | Struct | Enum | Interface | Type_ | Variable_.

Definition has_runtime_value (k : PortableExportKind) : bool :=
  match k with Interface | Type_ => false | _ => true end.
End PortableExportKind.

Inductive EntryKind := EntryFunction | EntryPipeline.

(** ** Wire records ([artifact/wire.rs]) *)

Record WireLocalSlot := mkWireLocalSlot {
  wslot_name : string;
  wslot_mutable : bool;
  wslot_scope_depth : N
}.

Record WireBindingType := mkWireBindingType {
  wbind_name : string;
  wbind_type_expr : TypeExpr.TypeExpr;
  wbind_nominal_type_names : list string
}.

Record WireParam := mkWireParam {
  wparam_name : string;
  wparam_type_expr : option TypeExpr.TypeExpr;
  wparam_has_default : bool
}.

Record WireFunction := mkWireFunction {
  wfn_name : string;
  wfn_type_params : list string;
  wfn_nominal_type_names : list string;
  wfn_params : list WireParam;
  wfn_default_start : option N;
  wfn_chunk : N;
  wfn_is_generator : bool;
  wfn_is_stream : bool;
  wfn_has_rest_param : bool;
  wfn_has_runtime_type_checks : bool
}.

Record WireChunk := mkWireChunk {
  wcode : list byte;
  wconstants : list Constant.Constant;
  wlines : list N;
  wcolumns : list N;
  wsource_file : option string;
  wfunctions : list N;
  wlocal_slots : list WireLocalSlot;
  wbinding_types : list WireBindingType;
  wreferences_outer_names : bool
}.

Record WireModule := mkWireModule {
  wmod_id : string;
  wmod_imports : list PortableImport;
  wmod_init : option N;
  wmod_functions : btree N;
  wmod_exports : btree PortableExportKind.PortableExportKind
}.

Record WireProgram := mkWireProgram {
  wprog_semantic_abi : list byte;
  wprog_entry : string;
  wprog_entry_kind : EntryKind;
  wprog_expects_harness : bool;
  wprog_chunks : list WireChunk;
  wprog_functions : list WireFunction;
  wprog_root_imports : list PortableImport;
  wprog_modules : list WireModule
}.
