(* ===== verification/Budget.v ===== *)
(** * Artifact limits and the metadata budget ([artifact.rs], [artifact/validation.rs])

    The reader and the validator both meter an artifact with a
    [MetadataBudget]: five counters that only grow, each against one limit. *)

From S2P Require Import Prelude Program.

Record ArtifactLimits := mkLimits {
  max_bytes : N;
  max_chunks : N;
  max_functions : N;
  max_instructions : N;
  max_constants : N;
  max_string_bytes : N;
  max_metadata_entries : N;
  max_type_nodes : N;
  max_type_depth : N
}.

(** [ArtifactLimits::default] *)
Definition default_limits : ArtifactLimits := {|
  max_bytes := 8 * 1024 * 1024;
  max_chunks := 16384;
  max_functions := 16384;
  max_instructions := 4 * 1024 * 1024;
  max_constants := 1048576;
  max_string_bytes := 4 * 1024 * 1024;
  max_metadata_entries := 1048576;
  max_type_nodes := 262144;
  max_type_depth := 128
|}.

Record MetadataBudget := mkBudget {
  mb_limits : ArtifactLimits;
  mb_instruction_bytes : N;
  mb_constants : N;
  mb_string_bytes : N;
  mb_metadata_entries : N;
  mb_type_nodes : N
}.

(** [MetadataBudget::new] *)
Definition budget_new (l : ArtifactLimits) : MetadataBudget := mkBudget l 0 0 0 0 0.

(** [MetadataBudget::add] *)
Definition budget_add (value amount limit : N) (c : Code) : result N :=
  value' ← ok_or (checked_add_usize value amount) c;
  _ ← reject_if (limit <? value')%N c;
  Ok value'.

Definition budget_instructions (amount : N) (b : MetadataBudget) : result MetadataBudget :=
  v ← budget_add (mb_instruction_bytes b) amount (max_instructions (mb_limits b))
        artifact_too_many_instructions;
  Ok (mkBudget (mb_limits b) v (mb_constants b) (mb_string_bytes b)
        (mb_metadata_entries b) (mb_type_nodes b)).

Definition budget_constants (amount : N) (b : MetadataBudget) : result MetadataBudget :=
  v ← budget_add (mb_constants b) amount (max_constants (mb_limits b))
        artifact_too_many_constants;
  Ok (mkBudget (mb_limits b) (mb_instruction_bytes b) v (mb_string_bytes b)
        (mb_metadata_entries b) (mb_type_nodes b)).

Definition budget_string (value : string) (b : MetadataBudget) : result MetadataBudget :=
  v ← budget_add (mb_string_bytes b) (slen value) (max_string_bytes (mb_limits b))
        artifact_strings_too_large;
  Ok (mkBudget (mb_limits b) (mb_instruction_bytes b) (mb_constants b) v
        (mb_metadata_entries b) (mb_type_nodes b)).

Definition budget_metadata (amount : N) (b : MetadataBudget) : result MetadataBudget :=
  v ← budget_add (mb_metadata_entries b) amount (max_metadata_entries (mb_limits b))
        artifact_metadata_too_large;
  Ok (mkBudget (mb_limits b) (mb_instruction_bytes b) (mb_constants b)
        (mb_string_bytes b) v (mb_type_nodes b)).

Definition budget_type_node (depth : N) (b : MetadataBudget) : result MetadataBudget :=
  _ ← reject_if (max_type_depth (mb_limits b) <? depth)%N artifact_type_too_deep;
  v ← budget_add (mb_type_nodes b) 1 (max_type_nodes (mb_limits b))
        artifact_too_many_type_nodes;
  Ok (mkBudget (mb_limits b) (mb_instruction_bytes b) (mb_constants b)
        (mb_string_bytes b) (mb_metadata_entries b) v).

(** [MetadataBudget::type_expr], with [shape_fields] inlined. *)
Fixpoint budget_type_expr (t : TypeExpr.TypeExpr) (depth : N) (b : MetadataBudget)
    : result MetadataBudget :=
  let type_vec ts b :=
    b ← budget_metadata (len ts) b;
    result_foldl (λ b t, budget_type_expr t (depth + 1) b) b ts in
  let shape_fields fs b :=
    b ← budget_metadata (len fs) b;
    result_foldl (λ b f,
      b ← budget_string (field_name f) b;
      budget_type_expr (field_type f) (depth + 1) b) b fs in
  b ← budget_type_node depth b;
  match t with
  | TypeExpr.Named name | TypeExpr.LitString name => budget_string name b
  | TypeExpr.Union items | TypeExpr.Intersection items | TypeExpr.Tuple items =>
      type_vec items b
  | TypeExpr.Shape fields => shape_fields fields b
  | TypeExpr.OpenShape fields rests => b ← shape_fields fields b; type_vec rests b
  | TypeExpr.List inner | TypeExpr.Iter inner | TypeExpr.Generator inner
  | TypeExpr.Stream inner | TypeExpr.Owned inner => budget_type_expr inner (depth + 1) b
  | TypeExpr.DictType key value =>
      b ← budget_type_expr key (depth + 1) b; budget_type_expr value (depth + 1) b
  | TypeExpr.Applied name args => b ← budget_string name b; type_vec args b
  | TypeExpr.FnType params return_type =>
      b ← type_vec params b; budget_type_expr return_type (depth + 1) b
  | TypeExpr.Never | TypeExpr.LitInt _ => Ok b
  end.

(** ** Usage: what a piece of an artifact adds to the counters *)

Record Usage := mkUsage {
  u_instruction_bytes : N;
  u_constants : N;
  u_string_bytes : N;
  u_metadata_entries : N;
  u_type_nodes : N
}.

Definition usage_zero : Usage := mkUsage 0 0 0 0 0.

Definition usage_add (a b : Usage) : Usage :=
  mkUsage (u_instruction_bytes a + u_instruction_bytes b)
    (u_constants a + u_constants b) (u_string_bytes a + u_string_bytes b)
    (u_metadata_entries a + u_metadata_entries b) (u_type_nodes a + u_type_nodes b).

Definition usage_sum (us : list Usage) : Usage := foldr usage_add usage_zero us.

Definition usage_instructions (n : N) : Usage := mkUsage n 0 0 0 0.
Definition usage_constants (n : N) : Usage := mkUsage 0 n 0 0 0.
Definition usage_string (s : string) : Usage := mkUsage 0 0 (slen s) 0 0.
Definition usage_metadata (n : N) : Usage := mkUsage 0 0 0 n 0.
Definition usage_type_node : Usage := mkUsage 0 0 0 0 1.

Definition budget_usage (b : MetadataBudget) : Usage :=
  mkUsage (mb_instruction_bytes b) (mb_constants b) (mb_string_bytes b)
    (mb_metadata_entries b) (mb_type_nodes b).

Definition budget_charge (u : Usage) (b : MetadataBudget) : MetadataBudget :=
  mkBudget (mb_limits b)
    (mb_instruction_bytes b + u_instruction_bytes u) (mb_constants b + u_constants u)
    (mb_string_bytes b + u_string_bytes u)
    (mb_metadata_entries b + u_metadata_entries u) (mb_type_nodes b + u_type_nodes u).

(** A usage within the limits; limits are [usize] values. *)
Definition within (u : Usage) (l : ArtifactLimits) : Prop :=
  (u_instruction_bytes u ≤ max_instructions l ∧ u_constants u ≤ max_constants l ∧
   u_string_bytes u ≤ max_string_bytes l ∧ u_metadata_entries u ≤ max_metadata_entries l ∧
   u_type_nodes u ≤ max_type_nodes l)%N.

Definition limits_wf (l : ArtifactLimits) : Prop :=
  (max_instructions l ≤ USIZE_MAX ∧ max_constants l ≤ USIZE_MAX ∧
   max_string_bytes l ≤ USIZE_MAX ∧ max_metadata_entries l ≤ USIZE_MAX ∧
   max_type_nodes l ≤ USIZE_MAX)%N.

(** ** Laws of usage *)

Ltac usage_solve :=
  unfold within, limits_wf, budget_charge, budget_usage, usage_add, usage_zero,
    usage_instructions, usage_constants, usage_string, usage_metadata, usage_type_node in *;
  cbn in *; first [lia | done | f_equal; lia].

Lemma usage_add_assoc a b c : usage_add a (usage_add b c) = usage_add (usage_add a b) c.
Proof. destruct a, b, c. usage_solve. Qed.

Lemma usage_add_0_l a : usage_add usage_zero a = a.
Proof. by destruct a. Qed.

Lemma usage_add_0_r a : usage_add a usage_zero = a.
Proof. destruct a. usage_solve. Qed.

Lemma budget_charge_add a b m :
  budget_charge (usage_add a b) m = budget_charge b (budget_charge a m).
Proof. destruct a, b, m. usage_solve. Qed.

Lemma budget_charge_zero m : budget_charge usage_zero m = m.
Proof. destruct m. usage_solve. Qed.

Lemma within_add_l a b l : within (usage_add a b) l → within a l.
Proof. destruct a, b. usage_solve. Qed.

Lemma budget_add_ok value amount limit c :
  (limit ≤ USIZE_MAX → value + amount ≤ limit →
   budget_add value amount limit c = Ok (value + amount))%N.
Proof.
  intros Hl Hv. unfold budget_add, checked_add_usize.
  destruct (N.leb_spec (value + amount) USIZE_MAX); [cbn|lia].
  unfold reject_if. by destruct (N.ltb_spec limit (value + amount)); [lia|].
Qed.

Lemma budget_add_inv value amount limit c v :
  budget_add value amount limit c = Ok v → (v = value + amount ∧ v ≤ limit)%N.
Proof.
  unfold budget_add, checked_add_usize. intros H. inv_result. reflect_bools.
  destruct (N.leb_spec (value + amount) USIZE_MAX); [|done]. split; [congruence|lia].
Qed.

(** Each metered operation charges exactly its usage, or fails. *)

Ltac budget_op_ok f :=
  intros Hl Hw; unfold f; rewrite budget_add_ok; cbn;
  [ rewrite ?N.add_0_r; done | usage_solve | usage_solve ].

Lemma budget_instructions_ok n b :
  limits_wf (mb_limits b) →
  within (usage_add (budget_usage b) (usage_instructions n)) (mb_limits b) →
  budget_instructions n b = Ok (budget_charge (usage_instructions n) b).
Proof. unfold budget_charge; cbn. budget_op_ok budget_instructions. Qed.

Lemma budget_constants_ok n b :
  limits_wf (mb_limits b) →
  within (usage_add (budget_usage b) (usage_constants n)) (mb_limits b) →
  budget_constants n b = Ok (budget_charge (usage_constants n) b).
Proof. unfold budget_charge; cbn. budget_op_ok budget_constants. Qed.

Lemma budget_string_ok s b :
  limits_wf (mb_limits b) →
  within (usage_add (budget_usage b) (usage_string s)) (mb_limits b) →
  budget_string s b = Ok (budget_charge (usage_string s) b).
Proof. unfold budget_charge; cbn. budget_op_ok budget_string. Qed.

Lemma budget_metadata_ok n b :
  limits_wf (mb_limits b) →
  within (usage_add (budget_usage b) (usage_metadata n)) (mb_limits b) →
  budget_metadata n b = Ok (budget_charge (usage_metadata n) b).
Proof. unfold budget_charge; cbn. budget_op_ok budget_metadata. Qed.

Lemma budget_type_node_ok depth b :
  limits_wf (mb_limits b) → (depth ≤ max_type_depth (mb_limits b))%N →
  within (usage_add (budget_usage b) usage_type_node) (mb_limits b) →
  budget_type_node depth b = Ok (budget_charge usage_type_node b).
Proof.
  unfold budget_charge; cbn. intros Hl Hd Hw. unfold budget_type_node, reject_if.
  destruct (N.ltb_spec (max_type_depth (mb_limits b)) depth); [lia|]. cbn.
  rewrite budget_add_ok; cbn; [rewrite ?N.add_0_r; done|usage_solve|usage_solve].
Qed.
