(* ===== verification/Writer.v ===== *)
(** * The artifact writer ([artifact/wire/writer.rs])

    [ArtifactWriter] is the bytes written so far; each of its methods appends. *)

From S2P Require Import Prelude BTree Program.

(** A method of [ArtifactWriter]: the bytes before, and after unless it fails. *)
Definition Writer : Type := list byte → result (list byte).

Definition w_skip : Writer := λ s, Ok s.
Definition w_seq (w1 w2 : Writer) : Writer := λ s, s' ← w1 s; w2 s'.

Declare Scope writer_scope.
Delimit Scope writer_scope with writer.
Notation "w1 ⨾ w2" := (w_seq w1 w2) (at level 95, right associativity) : writer_scope.
#[local] Open Scope writer_scope.

(** [for item in items { writer.item(item)?; }] *)
Definition w_all {A} (w : A → Writer) (l : list A) : Writer :=
  λ s, result_foldl (λ s x, w x s) s l.

Definition w_bytes (bs : list byte) : Writer := λ s, Ok (s ++ bs).
Definition w_u8 (v : N) : Writer := w_bytes [n2b v].
Definition w_boolean (v : bool) : Writer := w_u8 (if v then 1 else 0)%N.
Definition w_u32 (v : N) : Writer := w_bytes (be_bytes 4 v).
Definition w_u64 (v : N) : Writer := w_bytes (be_bytes 8 v).
Definition w_i64 (v : Z) : Writer := w_bytes (be_bytes 8 (i64_to_u64 v)).

Definition w_len (v : N) : Writer := λ s,
  _ ← reject_if (U32_MAX <? v)%N artifact_too_large;
  w_u32 v s.

Definition w_string (v : string) : Writer := w_len (slen v) ⨾ w_bytes (as_bytes v).

(** [match value { Some(value) => { self.u8(1); write(value) }, None => self.u8(0) }] *)
Definition w_option {A} (w : A → Writer) (v : option A) : Writer :=
  match v with
  | Some x => w_u8 1 ⨾ w x
  | None => w_u8 0
  end.

Definition w_optional_string (v : option string) : Writer := w_option w_string v.
Definition w_byte_vec (v : list byte) : Writer := w_len (len v) ⨾ w_bytes v.
Definition w_u32_vec (v : list N) : Writer := w_len (len v) ⨾ w_all w_u32 v.
Definition w_string_vec (v : list string) : Writer := w_len (len v) ⨾ w_all w_string v.

Definition w_import (i : PortableImport) : Writer :=
  w_string (import_path i) ⨾
  w_string (import_target i) ⨾
  w_option w_string_vec (import_selected_names i) ⨾
  w_option w_string (import_namespace_alias i) ⨾
  w_boolean (import_is_pub i).

Definition w_import_vec (imports : list PortableImport) : Writer :=
  w_len (len imports) ⨾ w_all w_import imports.

Definition w_constant (c : Constant.Constant) : Writer :=
  match c with
  | Constant.Int v => w_u8 0 ⨾ w_i64 v
  | Constant.Float v => w_u8 1 ⨾ w_u64 v
  | Constant.String v => w_u8 2 ⨾ w_string v
  | Constant.Bool v => w_u8 3 ⨾ w_boolean v
  | Constant.Nil => w_u8 4
  | Constant.Duration v => w_u8 5 ⨾ w_i64 v
  end.

(** [ArtifactWriter::type_expr], with [type_vec] and [shape_fields]. *)
Fixpoint w_type_expr (t : TypeExpr.TypeExpr) : Writer :=
  let type_vec ts := w_len (len ts) ⨾ w_all w_type_expr ts in
  let shape_fields fs :=
    w_len (len fs) ⨾
    w_all (λ f, w_string (field_name f) ⨾ w_type_expr (field_type f) ⨾
                w_boolean (field_optional f)) fs in
  match t with
  | TypeExpr.Named name => w_u8 0 ⨾ w_string name
  | TypeExpr.Union items => w_u8 1 ⨾ type_vec items
  | TypeExpr.Intersection items => w_u8 2 ⨾ type_vec items
  | TypeExpr.Shape fields => w_u8 3 ⨾ shape_fields fields
  | TypeExpr.OpenShape fields rests => w_u8 4 ⨾ shape_fields fields ⨾ type_vec rests
  | TypeExpr.List inner => w_u8 5 ⨾ w_type_expr inner
  | TypeExpr.Tuple items => w_u8 6 ⨾ type_vec items
  | TypeExpr.DictType key value => w_u8 7 ⨾ w_type_expr key ⨾ w_type_expr value
  | TypeExpr.Iter inner => w_u8 8 ⨾ w_type_expr inner
  | TypeExpr.Generator inner => w_u8 9 ⨾ w_type_expr inner
  | TypeExpr.Stream inner => w_u8 10 ⨾ w_type_expr inner
  | TypeExpr.Owned inner => w_u8 11 ⨾ w_type_expr inner
  | TypeExpr.Applied name args => w_u8 12 ⨾ w_string name ⨾ type_vec args
  | TypeExpr.FnType params return_type =>
      w_u8 13 ⨾ type_vec params ⨾ w_type_expr return_type
  | TypeExpr.Never => w_u8 14
  | TypeExpr.LitString value => w_u8 15 ⨾ w_string value
  | TypeExpr.LitInt value => w_u8 16 ⨾ w_i64 value
  end.

Definition w_type_vec (ts : list TypeExpr.TypeExpr) : Writer :=
  w_len (len ts) ⨾ w_all w_type_expr ts.

Definition w_shape_field (f : ShapeField TypeExpr.TypeExpr) : Writer :=
  w_string (field_name f) ⨾ w_type_expr (field_type f) ⨾ w_boolean (field_optional f).

Definition w_shape_fields (fs : list (ShapeField TypeExpr.TypeExpr)) : Writer :=
  w_len (len fs) ⨾ w_all w_shape_field fs.

Definition export_kind_tag (k : PortableExportKind.PortableExportKind) : N :=
  match k with
  | PortableExportKind.Function => 0
  | PortableExportKind.Pipeline => 1
  | PortableExportKind.Tool => 2
  | PortableExportKind.Skill => 3
  | PortableExportKind.EvalPack => 4
  | PortableExportKind.Struct => 5
  | PortableExportKind.Enum => 6
  | PortableExportKind.Interface => 7
  | PortableExportKind.Type_ => 8
  | PortableExportKind.Variable_ => 9
  end.

(** The body of [encode_wire_program]'s loops. *)

Definition w_local_slot (slot : WireLocalSlot) : Writer :=
  w_string (wslot_name slot) ⨾ w_boolean (wslot_mutable slot) ⨾
  w_u32 (wslot_scope_depth slot).

Definition w_binding_type (slot : WireBindingType) : Writer :=
  w_string (wbind_name slot) ⨾ w_type_expr (wbind_type_expr slot) ⨾
  w_string_vec (wbind_nominal_type_names slot).

Definition w_chunk (c : WireChunk) : Writer :=
  w_byte_vec (wcode c) ⨾
  w_len (len (wconstants c)) ⨾ w_all w_constant (wconstants c) ⨾
  w_u32_vec (wlines c) ⨾
  w_u32_vec (wcolumns c) ⨾
  w_optional_string (wsource_file c) ⨾
  w_len (len (wfunctions c)) ⨾ w_all w_u32 (wfunctions c) ⨾
  w_len (len (wlocal_slots c)) ⨾ w_all w_local_slot (wlocal_slots c) ⨾
  w_len (len (wbinding_types c)) ⨾ w_all w_binding_type (wbinding_types c) ⨾
  w_boolean (wreferences_outer_names c).

Definition w_param (p : WireParam) : Writer :=
  w_string (wparam_name p) ⨾
  w_option w_type_expr (wparam_type_expr p) ⨾
  w_boolean (wparam_has_default p).

Definition w_function (f : WireFunction) : Writer :=
  w_string (wfn_name f) ⨾
  w_string_vec (wfn_type_params f) ⨾
  w_string_vec (wfn_nominal_type_names f) ⨾
  w_len (len (wfn_params f)) ⨾ w_all w_param (wfn_params f) ⨾
  w_option w_u32 (wfn_default_start f) ⨾
  w_u32 (wfn_chunk f) ⨾
  w_boolean (wfn_is_generator f) ⨾
  w_boolean (wfn_is_stream f) ⨾
  w_boolean (wfn_has_rest_param f) ⨾
  w_boolean (wfn_has_runtime_type_checks f).

Definition w_module_function (e : string * N) : Writer := w_string e.1 ⨾ w_u32 e.2.
Definition w_module_export (e : string * PortableExportKind.PortableExportKind) : Writer :=
  w_string e.1 ⨾ w_u8 (export_kind_tag e.2).

Definition w_module (m : WireModule) : Writer :=
  w_string (wmod_id m) ⨾
  w_import_vec (wmod_imports m) ⨾
  w_option w_u32 (wmod_init m) ⨾
  w_len (len (wmod_functions m)) ⨾ w_all w_module_function (wmod_functions m) ⨾
  w_len (len (wmod_exports m)) ⨾ w_all w_module_export (wmod_exports m).

Definition w_entry_kind (k : EntryKind) : Writer :=
  w_u8 (match k with EntryFunction => 0 | EntryPipeline => 1 end)%N.

Definition w_program (p : WireProgram) : Writer :=
  w_bytes (wprog_semantic_abi p) ⨾
  w_string (wprog_entry p) ⨾
  w_entry_kind (wprog_entry_kind p) ⨾
  w_boolean (wprog_expects_harness p) ⨾
  w_len (len (wprog_chunks p)) ⨾
  w_len (len (wprog_functions p)) ⨾
  w_all w_chunk (wprog_chunks p) ⨾
  w_all w_function (wprog_functions p) ⨾
  w_import_vec (wprog_root_imports p) ⨾
  w_len (len (wprog_modules p)) ⨾ w_all w_module (wprog_modules p).

Definition encode_wire_program (p : WireProgram) : result (list byte) := w_program p [].
