(* ===== verification/Reader.v ===== *)
(** * The artifact reader ([artifact/wire/reader.rs])

    [ArtifactReader] is a cursor over the payload with a metadata budget. Every
    count is checked against a limit before anything is read for it. *)

From S2P Require Import Prelude BTree Program Budget.

Record reader_state := mkReader {
  rd_bytes : list byte;
  rd_offset : N;
  rd_limits : ArtifactLimits;
  rd_budget : MetadataBudget
}.

Definition Reader (A : Type) : Type := reader_state → result (A * reader_state).

#[export] Instance reader_ret : MRet Reader := λ A a st, Ok (a, st).
#[export] Instance reader_bind : MBind Reader := λ A B f m st,
  match m st with Ok (a, st') => f a st' | Err d => Err d end.

Definition rd_error {A} (c : Code) : Reader A := λ _, Err (diagnostic c).
Definition rd_reject_if (b : bool) (c : Code) : Reader unit :=
  if b then rd_error c else mret tt.
Definition rd_get : Reader reader_state := λ st, Ok (st, st).

(** [self.budget.<operation>(..)?] *)
Definition rd_charge (op : MetadataBudget → result MetadataBudget) : Reader unit := λ st,
  b ← op (rd_budget st);
  Ok (tt, mkReader (rd_bytes st) (rd_offset st) (rd_limits st) b).

(** [ArtifactReader::new] *)
Definition reader_new (bytes : list byte) (l : ArtifactLimits) : reader_state :=
  mkReader bytes 0 l (budget_new l).

(** [for _ in 0..count { values.push(read()?) }] *)
Section repeat.
Context {A : Type} (r : Reader A).
Fixpoint rd_repeat (count : nat) : Reader (list A) :=
  match count with
  | O => mret []
  | S count' => x ← r; xs ← rd_repeat count'; mret (x :: xs)
  end.
End repeat.

Definition rd_take (n : N) : Reader (list byte) := λ st,
  e ← ok_or (checked_add_usize (rd_offset st) n) artifact_too_large;
  _ ← reject_if (len (rd_bytes st) <? e)%N artifact_truncated;
  Ok (take (N.to_nat n) (drop (N.to_nat (rd_offset st)) (rd_bytes st)),
      mkReader (rd_bytes st) e (rd_limits st) (rd_budget st)).

Definition rd_ensure_fixed_bytes (count width : N) : Reader unit := λ st,
  bytes ← ok_or (checked_mul_usize count width) artifact_too_large;
  _ ← reject_if (len (rd_bytes st) - rd_offset st <? bytes)%N artifact_truncated;
  Ok (tt, st).

Definition rd_u8 : Reader N := bs ← rd_take 1; mret (from_be_bytes bs).
Definition rd_u32 : Reader N := bs ← rd_take 4; mret (from_be_bytes bs).
Definition rd_u64 : Reader N := bs ← rd_take 8; mret (from_be_bytes bs).
Definition rd_i64 : Reader Z := bs ← rd_take 8; mret (u64_to_i64 (from_be_bytes bs)).

Definition rd_boolean : Reader bool :=
  v ← rd_u8;
  if (v =? 0)%N then mret false
  else if (v =? 1)%N then mret true
  else rd_error artifact_malformed.

Definition rd_count (limit : N) : Reader N :=
  v ← rd_u32;
  _ ← rd_reject_if (limit <? v)%N artifact_allocation_limit;
  mret v.

Definition rd_string : Reader string :=
  st ← rd_get;
  n ← rd_count (max_string_bytes (rd_limits st));
  bs ← rd_take n;
  match from_utf8 bs with
  | None => rd_error artifact_invalid_utf8
  | Some value => _ ← rd_charge (budget_string value); mret value
  end.

(** [match self.u8(..)? { 0 => None, 1 => Some(read()?), _ => Err(..) }] *)
Definition rd_option {A} (r : Reader A) : Reader (option A) :=
  tag ← rd_u8;
  if (tag =? 0)%N then mret None
  else if (tag =? 1)%N then x ← r; mret (Some x)
  else rd_error artifact_malformed.

Definition rd_optional_string : Reader (option string) := rd_option rd_string.

(** A count charged to the metadata budget, then that many items. *)
Definition rd_metadata_vec {A} (r : Reader A) : Reader (list A) :=
  st ← rd_get;
  count ← rd_count (max_metadata_entries (rd_limits st));
  _ ← rd_charge (budget_metadata count);
  rd_repeat r (N.to_nat count).

Definition rd_string_vec : Reader (list string) := rd_metadata_vec rd_string.

Definition rd_u32_vec_exact (expected : N) : Reader (list N) :=
  st ← rd_get;
  count ← rd_count (max_instructions (rd_limits st));
  _ ← rd_reject_if (negb (count =? expected)%N) artifact_malformed;
  _ ← rd_ensure_fixed_bytes count 4;
  rd_repeat rd_u32 (N.to_nat count).

Definition rd_constant : Reader Constant.Constant :=
  tag ← rd_u8;
  match tag with
  | 0%N => v ← rd_i64; mret (Constant.Int v)
  | 1%N => v ← rd_u64; mret (Constant.Float v)
  | 2%N => v ← rd_string; mret (Constant.String v)
  | 3%N => v ← rd_boolean; mret (Constant.Bool v)
  | 4%N => mret Constant.Nil
  | 5%N => v ← rd_i64; mret (Constant.Duration v)
  | _ => rd_error artifact_malformed
  end.

Definition rd_import : Reader PortableImport :=
  path ← rd_string;
  target ← rd_string;
  selected_names ← rd_option rd_string_vec;
  namespace_alias ← rd_option rd_string;
  is_pub ← rd_boolean;
  mret (mkPortableImport path target selected_names namespace_alias is_pub).

Definition rd_import_vec : Reader (list PortableImport) := rd_metadata_vec rd_import.

(** [ArtifactReader::type_expr]. The recursion is on the bytes; [depth] grows
    with it and is checked first, so [max_type_depth + 1] levels of fuel are
    never exhausted (see [rd_type_expr_fuel]). *)
Fixpoint rd_type_expr_go (fuel : nat) (depth : N) : Reader TypeExpr.TypeExpr :=
  match fuel with
  | O => rd_error artifact_type_too_deep
  | S fuel' =>
      let sub := rd_type_expr_go fuel' (depth + 1) in
      let type_vec := rd_metadata_vec sub in
      let shape_fields := rd_metadata_vec (
        name ← rd_string;
        type_expr ← sub;
        optional ← rd_boolean;
        mret (mkShapeField name type_expr optional)) in
      _ ← rd_charge (budget_type_node depth);
      tag ← rd_u8;
      match tag with
      | 0%N => name ← rd_string; mret (TypeExpr.Named name)
      | 1%N => ts ← type_vec; mret (TypeExpr.Union ts)
      | 2%N => ts ← type_vec; mret (TypeExpr.Intersection ts)
      | 3%N => fs ← shape_fields; mret (TypeExpr.Shape fs)
      | 4%N => fs ← shape_fields; ts ← type_vec; mret (TypeExpr.OpenShape fs ts)
      | 5%N => t ← sub; mret (TypeExpr.List t)
      | 6%N => ts ← type_vec; mret (TypeExpr.Tuple ts)
      | 7%N => k ← sub; v ← sub; mret (TypeExpr.DictType k v)
      | 8%N => t ← sub; mret (TypeExpr.Iter t)
      | 9%N => t ← sub; mret (TypeExpr.Generator t)
      | 10%N => t ← sub; mret (TypeExpr.Stream t)
      | 11%N => t ← sub; mret (TypeExpr.Owned t)
      | 12%N => name ← rd_string; ts ← type_vec; mret (TypeExpr.Applied name ts)
      | 13%N => ts ← type_vec; t ← sub; mret (TypeExpr.FnType ts t)
      | 14%N => mret TypeExpr.Never
      | 15%N => s ← rd_string; mret (TypeExpr.LitString s)
      | 16%N => v ← rd_i64; mret (TypeExpr.LitInt v)
      | _ => rd_error artifact_malformed
      end
  end.

Definition rd_type_expr : Reader TypeExpr.TypeExpr :=
  st ← rd_get;
  rd_type_expr_go (S (N.to_nat (max_type_depth (rd_limits st)))) 1.

Definition rd_local_slot : Reader WireLocalSlot :=
  name ← rd_string;
  mutable ← rd_boolean;
  scope_depth ← rd_u32;
  mret (mkWireLocalSlot name mutable scope_depth).

Definition rd_binding_type : Reader WireBindingType :=
  name ← rd_string;
  type_expr ← rd_type_expr;
  nominal_type_names ← rd_string_vec;
  mret (mkWireBindingType name type_expr nominal_type_names).

Definition rd_function_ref (function_count : N) : Reader N :=
  function ← rd_u32;
  _ ← rd_reject_if (function_count <=? function)%N artifact_invalid_index;
  mret function.

Definition rd_chunk (function_count : N) : Reader WireChunk :=
  st ← rd_get;
  let limits := rd_limits st in
  code_len ← rd_count (max_instructions limits);
  _ ← rd_charge (budget_instructions code_len);
  code ← rd_take code_len;
  constant_count ← rd_count (max_constants limits);
  _ ← rd_charge (budget_constants constant_count);
  constants ← rd_repeat rd_constant (N.to_nat constant_count);
  lines ← rd_u32_vec_exact code_len;
  columns ← rd_u32_vec_exact code_len;
  source_file ← rd_optional_string;
  function_refs ← rd_count (max_metadata_entries limits);
  _ ← rd_charge (budget_metadata function_refs);
  _ ← rd_ensure_fixed_bytes function_refs 4;
  functions ← rd_repeat (rd_function_ref function_count) (N.to_nat function_refs);
  local_slots ← rd_metadata_vec rd_local_slot;
  binding_types ← rd_metadata_vec rd_binding_type;
  references_outer_names ← rd_boolean;
  mret (mkWireChunk code constants lines columns source_file functions local_slots
          binding_types references_outer_names).

Definition rd_param : Reader WireParam :=
  name ← rd_string;
  type_expr ← rd_option rd_type_expr;
  has_default ← rd_boolean;
  mret (mkWireParam name type_expr has_default).

Definition rd_function : Reader WireFunction :=
  name ← rd_string;
  type_params ← rd_string_vec;
  nominal_type_names ← rd_string_vec;
  params ← rd_metadata_vec rd_param;
  default_start ← rd_option rd_u32;
  chunk ← rd_u32;
  is_generator ← rd_boolean;
  is_stream ← rd_boolean;
  has_rest_param ← rd_boolean;
  has_runtime_type_checks ← rd_boolean;
  mret (mkWireFunction name type_params nominal_type_names params default_start chunk
          is_generator is_stream has_rest_param has_runtime_type_checks).

Definition export_kind (tag : N) : option PortableExportKind.PortableExportKind :=
  match tag with
  | 0%N => Some PortableExportKind.Function
  | 1%N => Some PortableExportKind.Pipeline
  | 2%N => Some PortableExportKind.Tool
  | 3%N => Some PortableExportKind.Skill
  | 4%N => Some PortableExportKind.EvalPack
  | 5%N => Some PortableExportKind.Struct
  | 6%N => Some PortableExportKind.Enum
  | 7%N => Some PortableExportKind.Interface
  | 8%N => Some PortableExportKind.Type_
  | 9%N => Some PortableExportKind.Variable_
  | _ => None
  end.

(** [for _ in 0..count { if map.insert(name, value).is_some() { return Err(..) } }] *)
Section table.
Context {V : Type} (r : Reader (string * V)).
Fixpoint rd_table (count : nat) (m : btree V) : Reader (btree V) :=
  match count with
  | O => mret m
  | S count' =>
      e ← r;
      _ ← rd_reject_if (BTree.contains_key e.1 m) artifact_invalid_module;
      rd_table count' (BTree.insert e.1 e.2 m)
  end.
End table.

Definition rd_module_function (function_count : N) : Reader (string * N) :=
  name ← rd_string;
  function ← rd_u32;
  _ ← rd_reject_if (function_count <=? function)%N artifact_invalid_index;
  mret (name, function).

Definition rd_module_export : Reader (string * PortableExportKind.PortableExportKind) :=
  name ← rd_string;
  tag ← rd_u8;
  match export_kind tag with
  | None => rd_error artifact_malformed
  | Some kind => mret (name, kind)
  end.

Definition rd_module (function_count chunk_count : N) : Reader WireModule :=
  st ← rd_get;
  let limits := rd_limits st in
  id ← rd_string;
  imports ← rd_import_vec;
  init ← rd_option (
    chunk ← rd_u32;
    _ ← rd_reject_if (chunk_count <=? chunk)%N artifact_invalid_index;
    mret chunk);
  function_count_for_module ← rd_count (max_functions limits);
  functions ← rd_table (rd_module_function function_count)
                (N.to_nat function_count_for_module) [];
  export_count ← rd_count (max_metadata_entries limits);
  exports ← rd_table rd_module_export (N.to_nat export_count) [];
  mret (mkWireModule id imports init functions exports).

Definition rd_entry_kind : Reader EntryKind :=
  tag ← rd_u8;
  match tag with
  | 0%N => mret EntryFunction
  | 1%N => mret EntryPipeline
  | _ => rd_error artifact_malformed
  end.

Definition bytes_eqb (a b : list byte) : bool := bool_decide (map b2n a = map b2n b).

Lemma bytes_eqb_refl bs : bytes_eqb bs bs = true.
Proof. by apply bool_decide_eq_true. Qed.

(** [ArtifactReader::read_program]; [abi] is [semantic_abi_fingerprint()]. *)
Definition rd_program_body (abi : list byte) : Reader WireProgram :=
  st ← rd_get;
  let limits := rd_limits st in
  semantic_abi ← rd_take 32;
  _ ← rd_reject_if (negb (bytes_eqb semantic_abi abi)) artifact_semantic_abi;
  entry ← rd_string;
  entry_kind ← rd_entry_kind;
  expects_harness ← rd_boolean;
  chunk_count ← rd_count (max_chunks limits);
  _ ← rd_reject_if (chunk_count =? 0)%N artifact_malformed;
  function_count ← rd_count (max_functions limits);
  chunks ← rd_repeat (rd_chunk function_count) (N.to_nat chunk_count);
  functions ← rd_repeat rd_function (N.to_nat function_count);
  root_imports ← rd_import_vec;
  module_count ← rd_count (max_chunks limits);
  modules ← rd_repeat (rd_module function_count chunk_count) (N.to_nat module_count);
  mret (mkWireProgram semantic_abi entry entry_kind expects_harness chunks functions
          root_imports modules).

(** ... and nothing after it. *)
Definition rd_program (abi : list byte) : Reader WireProgram :=
  program ← rd_program_body abi;
  st ← rd_get;
  _ ← rd_reject_if (negb (rd_offset st =? len (rd_bytes st))%N) artifact_trailing_payload;
  mret program.

Definition read_program (abi payload : list byte) (limits : ArtifactLimits)
    : result WireProgram :=
  r ← rd_program abi (reader_new payload limits);
  Ok r.1.
