(* ===== verification/Codec.v ===== *)
(** * The wire format round trip

    What the writer emits for a well-formed wire program, the reader reads back
    unchanged, provided the program's usage is within the reader's limits. The
    interface between the two sides is [codec]: every component's writer and
    reader satisfy it, and it composes. *)

From S2P Require Import Prelude BTree Opcode Program Budget Writer Reader.
From Stdlib Require Import Sorting.Sorted.

#[local] Open Scope writer_scope.

(** ** Usage of each component: what reading it charges *)

Definition use_string_vec (l : list string) : Usage :=
  usage_add (usage_metadata (len l)) (usage_sum (map usage_string l)).

Definition use_option {A} (u : A → Usage) (o : option A) : Usage :=
  match o with Some x => u x | None => usage_zero end.

Fixpoint use_type_expr (t : TypeExpr.TypeExpr) : Usage :=
  let type_vec ts := usage_add (usage_metadata (len ts)) (usage_sum (map use_type_expr ts)) in
  let shape_fields fs :=
    usage_add (usage_metadata (len fs))
      (usage_sum (map (λ f, usage_add (usage_string (field_name f))
                              (use_type_expr (field_type f))) fs)) in
  usage_add usage_type_node
    match t with
    | TypeExpr.Named s | TypeExpr.LitString s => usage_string s
    | TypeExpr.Union ts | TypeExpr.Intersection ts | TypeExpr.Tuple ts => type_vec ts
    | TypeExpr.Shape fs => shape_fields fs
    | TypeExpr.OpenShape fs ts => usage_add (shape_fields fs) (type_vec ts)
    | TypeExpr.List t | TypeExpr.Iter t | TypeExpr.Generator t | TypeExpr.Stream t
    | TypeExpr.Owned t => use_type_expr t
    | TypeExpr.DictType k v => usage_add (use_type_expr k) (use_type_expr v)
    | TypeExpr.Applied s ts => usage_add (usage_string s) (type_vec ts)
    | TypeExpr.FnType ts t => usage_add (type_vec ts) (use_type_expr t)
    | TypeExpr.Never | TypeExpr.LitInt _ => usage_zero
    end.

Definition use_constant (c : Constant.Constant) : Usage :=
  match c with Constant.String s => usage_string s | _ => usage_zero end.

Definition use_import (i : PortableImport) : Usage :=
  usage_add (usage_string (import_path i))
    (usage_add (usage_string (import_target i))
      (usage_add (use_option use_string_vec (import_selected_names i))
        (use_option usage_string (import_namespace_alias i)))).

Definition use_imports (l : list PortableImport) : Usage :=
  usage_add (usage_metadata (len l)) (usage_sum (map use_import l)).

Definition use_binding_type (b : WireBindingType) : Usage :=
  usage_add (usage_string (wbind_name b))
    (usage_add (use_type_expr (wbind_type_expr b))
      (use_string_vec (wbind_nominal_type_names b))).

Definition use_chunk (c : WireChunk) : Usage :=
  usage_add (usage_instructions (len (wcode c)))
    (usage_add (usage_constants (len (wconstants c)))
      (usage_add (usage_sum (map use_constant (wconstants c)))
        (usage_add (use_option usage_string (wsource_file c))
          (usage_add (usage_metadata (len (wfunctions c)))
            (usage_add (usage_add (usage_metadata (len (wlocal_slots c)))
                         (usage_sum (map (λ s, usage_string (wslot_name s)) (wlocal_slots c))))
              (usage_add (usage_metadata (len (wbinding_types c)))
                (usage_sum (map use_binding_type (wbinding_types c))))))))).

Definition use_param (p : WireParam) : Usage :=
  usage_add (usage_string (wparam_name p)) (use_option use_type_expr (wparam_type_expr p)).

Definition use_function (f : WireFunction) : Usage :=
  usage_add (usage_string (wfn_name f))
    (usage_add (use_string_vec (wfn_type_params f))
      (usage_add (use_string_vec (wfn_nominal_type_names f))
        (usage_add (usage_metadata (len (wfn_params f)))
          (usage_sum (map use_param (wfn_params f)))))).

Definition use_module (m : WireModule) : Usage :=
  usage_add (usage_string (wmod_id m))
    (usage_add (use_imports (wmod_imports m))
      (usage_add (usage_sum (map (λ e, usage_string e.1) (wmod_functions m)))
        (usage_sum (map (λ e, usage_string e.1) (wmod_exports m))))).

Definition use_program (p : WireProgram) : Usage :=
  usage_add (usage_string (wprog_entry p))
    (usage_add (usage_sum (map use_chunk (wprog_chunks p)))
      (usage_add (usage_sum (map use_function (wprog_functions p)))
        (usage_add (use_imports (wprog_root_imports p))
          (usage_sum (map use_module (wprog_modules p)))))).

(** Nesting depth of a type expression. *)
Fixpoint type_depth (t : TypeExpr.TypeExpr) : nat :=
  let depths ts := foldr (λ t d, Nat.max (type_depth t) d) 0 ts in
  let fields fs := foldr (λ f d, Nat.max (type_depth (field_type f)) d) 0 fs in
  S match t with
    | TypeExpr.Union ts | TypeExpr.Intersection ts | TypeExpr.Tuple ts
    | TypeExpr.Applied _ ts => depths ts
    | TypeExpr.Shape fs => fields fs
    | TypeExpr.OpenShape fs ts => Nat.max (fields fs) (depths ts)
    | TypeExpr.List t | TypeExpr.Iter t | TypeExpr.Generator t | TypeExpr.Stream t
    | TypeExpr.Owned t => type_depth t
    | TypeExpr.DictType k v => Nat.max (type_depth k) (type_depth v)
    | TypeExpr.FnType ts t => Nat.max (depths ts) (type_depth t)
    | TypeExpr.Named _ | TypeExpr.Never | TypeExpr.LitString _ | TypeExpr.LitInt _ => 0
    end.

(** ** Well-formed wire programs

    The first group is what Rust's types guarantee of any value (strings are
    UTF-8, [u32] and [i64] fields are in range, [BTreeMap]s are ordered); the
    second is what the reader demands beyond the budget. *)

Definition u32_wf (n : N) : Prop := (n ≤ U32_MAX)%N.

Fixpoint type_wf (t : TypeExpr.TypeExpr) : Prop :=
  let all ts := foldr (λ t P, type_wf t ∧ P) True ts in
  let fields fs := foldr (λ f P, (str_wf (field_name f) ∧ type_wf (field_type f)) ∧ P) True fs in
  match t with
  | TypeExpr.Named s | TypeExpr.LitString s => str_wf s
  | TypeExpr.Union ts | TypeExpr.Intersection ts | TypeExpr.Tuple ts => all ts
  | TypeExpr.Shape fs => fields fs
  | TypeExpr.OpenShape fs ts => fields fs ∧ all ts
  | TypeExpr.List t | TypeExpr.Iter t | TypeExpr.Generator t | TypeExpr.Stream t
  | TypeExpr.Owned t => type_wf t
  | TypeExpr.DictType k v => type_wf k ∧ type_wf v
  | TypeExpr.Applied s ts => str_wf s ∧ all ts
  | TypeExpr.FnType ts t => all ts ∧ type_wf t
  | TypeExpr.Never => True
  | TypeExpr.LitInt z => in_i64 z = true
  end.

(** A type expression the reader accepts at depth 1. *)
Definition type_ok (L : ArtifactLimits) (t : TypeExpr.TypeExpr) : Prop :=
  type_wf t ∧ (N.of_nat (type_depth t) ≤ max_type_depth L)%N.

Definition constant_wf (c : Constant.Constant) : Prop :=
  match c with
  | Constant.Int z | Constant.Duration z => in_i64 z = true
  | Constant.Float bits => (bits ≤ U64_MAX)%N
  | Constant.String s => str_wf s
  | Constant.Bool _ | Constant.Nil => True
  end.

Definition import_wf (i : PortableImport) : Prop :=
  str_wf (import_path i) ∧ str_wf (import_target i) ∧
  (∀ l, import_selected_names i = Some l → Forall str_wf l) ∧
  (∀ s, import_namespace_alias i = Some s → str_wf s).

Definition binding_type_wf (L : ArtifactLimits) (b : WireBindingType) : Prop :=
  str_wf (wbind_name b) ∧ type_ok L (wbind_type_expr b) ∧
  Forall str_wf (wbind_nominal_type_names b).

Record chunk_wf (L : ArtifactLimits) (function_count : N) (c : WireChunk) : Prop := {
  cwf_constants : Forall constant_wf (wconstants c);
  cwf_lines : Forall u32_wf (wlines c);
  cwf_columns : Forall u32_wf (wcolumns c);
  cwf_lines_len : len (wlines c) = len (wcode c);
  cwf_columns_len : len (wcolumns c) = len (wcode c);
  cwf_source_file : ∀ s, wsource_file c = Some s → str_wf s;
  cwf_functions : Forall (λ f, u32_wf f ∧ (f < function_count)%N) (wfunctions c);
  cwf_local_slots :
    Forall (λ s, str_wf (wslot_name s) ∧ u32_wf (wslot_scope_depth s)) (wlocal_slots c);
  cwf_binding_types : Forall (binding_type_wf L) (wbinding_types c)
}.

Definition param_wf (L : ArtifactLimits) (p : WireParam) : Prop :=
  str_wf (wparam_name p) ∧ (∀ t, wparam_type_expr p = Some t → type_ok L t).

Record function_wf (L : ArtifactLimits) (f : WireFunction) : Prop := {
  fwf_name : str_wf (wfn_name f);
  fwf_type_params : Forall str_wf (wfn_type_params f);
  fwf_nominal : Forall str_wf (wfn_nominal_type_names f);
  fwf_params : Forall (param_wf L) (wfn_params f);
  fwf_default : ∀ n, wfn_default_start f = Some n → u32_wf n;
  fwf_chunk : u32_wf (wfn_chunk f)
}.

Record module_wf (L : ArtifactLimits) (function_count chunk_count : N) (m : WireModule)
    : Prop := {
  mwf_id : str_wf (wmod_id m);
  mwf_imports : Forall import_wf (wmod_imports m);
  mwf_init : ∀ n, wmod_init m = Some n → u32_wf n ∧ (n < chunk_count)%N;
  mwf_functions :
    Forall (λ e, str_wf e.1 ∧ u32_wf e.2 ∧ (e.2 < function_count)%N) (wmod_functions m);
  mwf_functions_sorted : BTree.sorted (wmod_functions m);
  mwf_functions_len : (len (wmod_functions m) ≤ max_functions L)%N;
  mwf_exports : Forall (λ e, str_wf e.1) (wmod_exports m);
  mwf_exports_sorted : BTree.sorted (wmod_exports m);
  mwf_exports_len : (len (wmod_exports m) ≤ max_metadata_entries L)%N
}.

Record program_wf (L : ArtifactLimits) (abi : list byte) (p : WireProgram) : Prop := {
  pwf_abi : wprog_semantic_abi p = abi;
  pwf_abi_len : length abi = 32;
  pwf_entry : str_wf (wprog_entry p);
  pwf_chunks : Forall (chunk_wf L (len (wprog_functions p))) (wprog_chunks p);
  pwf_chunks_nonempty : wprog_chunks p ≠ [];
  pwf_chunks_len : (len (wprog_chunks p) ≤ max_chunks L)%N;
  pwf_functions : Forall (function_wf L) (wprog_functions p);
  pwf_functions_len : (len (wprog_functions p) ≤ max_functions L)%N;
  pwf_root_imports : Forall import_wf (wprog_root_imports p);
  pwf_modules :
    Forall (module_wf L (len (wprog_functions p)) (len (wprog_chunks p))) (wprog_modules p);
  pwf_modules_len : (len (wprog_modules p) ≤ max_chunks L)%N
}.

(** ** The specification of a read *)

Section reads.
Context (L : ArtifactLimits).

(** The cursor after consuming [n] bytes and charging [u]. *)
Definition advance (n : nat) (u : Usage) (st : reader_state) : reader_state :=
  mkReader (rd_bytes st) (rd_offset st + N.of_nat n) (rd_limits st)
    (budget_charge u (rd_budget st)).

Record ready (st : reader_state) (xs : list byte) (u : Usage) : Prop := {
  ready_limits : rd_limits st = L;
  ready_budget : mb_limits (rd_budget st) = L;
  ready_bytes : ∃ tail, drop (N.to_nat (rd_offset st)) (rd_bytes st) = xs ++ tail;
  ready_len : (len (rd_bytes st) ≤ USIZE_MAX)%N;
  ready_offset : (rd_offset st ≤ len (rd_bytes st))%N;
  ready_within : within (usage_add (budget_usage (rd_budget st)) u) L
}.

(** [r] reads exactly [xs], yields [a] and charges [u]. *)
Definition reads {A} (r : Reader A) (xs : list byte) (a : A) (u : Usage) : Prop :=
  ∀ st, ready st xs u → r st = Ok (a, advance (length xs) u st).

(** What the writer [w] emits, the reader [r] reads back as [a]. *)
Definition codec {A} (w : Writer) (r : Reader A) (a : A) (u : Usage) : Prop :=
  within u L → ∀ s s', w s = Ok s' → ∃ xs, s' = s ++ xs ∧ reads r xs a u.

Hypothesis HL : limits_wf L.

Lemma ready_remaining st xs u :
  ready st xs u → (rd_offset st + N.of_nat (length xs) ≤ len (rd_bytes st))%N.
Proof.
  intros [_ _ [tail Ht] _ Ho _]. unfold len in *.
  apply (f_equal length) in Ht. rewrite length_drop, length_app in Ht. lia.
Qed.

Lemma ready_split st xs ys u v :
  ready st (xs ++ ys) (usage_add u v) →
  ready st xs u ∧ ready (advance (length xs) u st) ys v.
Proof.
  intros H. pose proof (ready_remaining _ _ _ H) as Hrem.
  destruct H as [H1 H2 [tail Ht] H4 H5 H6]. split; split; cbn; try done.
  - exists (ys ++ tail). by rewrite app_assoc.
  - rewrite usage_add_assoc in H6. by eapply within_add_l.
  - exists tail. replace (N.to_nat (rd_offset st + N.of_nat (length xs)))
      with (N.to_nat (rd_offset st) + length xs) by lia.
    apply drop_app_cons. by rewrite Ht, app_assoc.
  - rewrite length_app in Hrem. lia.
  - revert H6. unfold within, budget_usage, usage_add; cbn. lia.
Qed.

Lemma advance_advance n m u v st :
  advance m v (advance n u st) = advance (n + m) (usage_add u v) st.
Proof. unfold advance; cbn. rewrite budget_charge_add. f_equal. lia. Qed.

Lemma advance_zero st : advance 0 usage_zero st = st.
Proof. destruct st. unfold advance; cbn. rewrite budget_charge_zero. f_equal. lia. Qed.

Lemma reads_ret {A} (a : A) : reads (mret a) [] a usage_zero.
Proof. intros st _. cbn. by rewrite advance_zero. Qed.

Lemma reads_bind {A B} (r : Reader A) (k : A → Reader B) xs ys a b u v :
  reads r xs a u → reads (k a) ys b v → reads (r ≫= k) (xs ++ ys) b (usage_add u v).
Proof.
  intros Hr Hk st Hst. apply ready_split in Hst as [H1 H2].
  unfold mbind, reader_bind. rewrite (Hr _ H1), (Hk _ H2), advance_advance.
  by rewrite length_app.
Qed.

Lemma reads_end {A B} (r : Reader A) (k : A → Reader B) xs a b u v :
  reads r xs a u → reads (k a) [] b v → reads (r ≫= k) xs b (usage_add u v).
Proof.
  intros Hr Hk. rewrite <-(app_nil_r xs) at 1. by apply reads_bind with a.
Qed.

Lemma reads_ext {A} (r r' : Reader A) xs a u :
  (∀ st, r st = r' st) → reads r xs a u → reads r' xs a u.
Proof. intros He H st Hst. rewrite <-He. by apply H. Qed.

Lemma reads_take xs : reads (rd_take (len xs)) xs xs usage_zero.
Proof.
  intros st Hst. pose proof (ready_remaining _ _ _ Hst) as Hrem.
  destruct Hst as [_ _ [tail Ht] Hlen _ _].
  unfold rd_take, checked_add_usize, ok_or, reject_if.
  unfold len in *. destruct (N.leb_spec (rd_offset st + N.of_nat (length xs)) USIZE_MAX); [|lia].
  cbn. destruct (N.ltb_spec (N.of_nat (length (rd_bytes st)))
    (rd_offset st + N.of_nat (length xs))); [lia|]. cbn.
  rewrite Ht, Nat2N.id, take_app_length. unfold advance. by rewrite budget_charge_zero.
Qed.

Lemma reads_charge op u :
  (∀ b, mb_limits b = L → within (usage_add (budget_usage b) u) L →
     op b = Ok (budget_charge u b)) →
  reads (rd_charge op) [] tt u.
Proof.
  intros Hop st [H1 H2 _ _ _ H6]. unfold rd_charge. rewrite (Hop _ H2 H6). cbn.
  unfold advance; cbn. by rewrite N.add_0_r.
Qed.

(** *** Composition *)

Lemma within_split u v : within (usage_add u v) L → within u L ∧ within v L.
Proof. destruct u, v. unfold within, usage_add; cbn. lia. Qed.

Lemma codec_bind {A B} (w1 w2 : Writer) (r : Reader A) (k : A → Reader B) a b u v :
  codec w1 r a u → codec w2 (k a) b v → codec (w1 ⨾ w2) (r ≫= k) b (usage_add u v).
Proof.
  intros H1 H2 Hw s s' Hs. apply within_split in Hw as [Hu Hv].
  unfold w_seq in Hs. inv_result.
  destruct (H1 Hu _ _ E) as (xs & -> & Hr). destruct (H2 Hv _ _ Hs) as (ys & -> & Hk).
  exists (xs ++ ys). split; [by rewrite app_assoc|]. by apply reads_bind with a.
Qed.

Lemma codec_end {A B} w (r : Reader A) (k : A → Reader B) a b u :
  codec w r a u → reads (k a) [] b usage_zero → codec w (r ≫= k) b u.
Proof.
  intros H Hk Hw s s' Hs. destruct (H Hw _ _ Hs) as (xs & -> & Hr).
  exists xs. split; [done|]. rewrite <-(app_nil_r xs), <-(usage_add_0_r u).
  by apply reads_bind with a.
Qed.

(** A reader step that consumes nothing, charging [u]. *)
Lemma codec_silent {A B} w (r : Reader A) (k : A → Reader B) a b u v :
  reads r [] a u → codec w (k a) b v → codec w (r ≫= k) b (usage_add u v).
Proof.
  intros H Hk Hw s s' Hs. apply within_split in Hw as [Hu Hv].
  destruct (Hk Hv _ _ Hs) as (xs & -> & Hr).
  exists xs. split; [done|]. by apply (reads_bind r k [] xs a).
Qed.

Lemma codec_usage {A} w (r : Reader A) a u v : u = v → codec w r a u → codec w r a v.
Proof. by intros ->. Qed.

Lemma codec_within {A} w (r : Reader A) a u :
  (within u L → codec w r a u) → codec w r a u.
Proof. intros H Hw. by apply H. Qed.

Lemma codec_ext {A} w (r r' : Reader A) a u :
  (∀ st, r st = r' st) → codec w r a u → codec w r' a u.
Proof.
  intros He H Hw s s' Hs. destruct (H Hw _ _ Hs) as (xs & -> & Hr).
  exists xs. split; [done|]. by eapply reads_ext.
Qed.

(** [rd_get] exposes the limits; what is emitted does not depend on it. *)
Lemma codec_get {B} w (k : reader_state → Reader B) b u :
  (∀ st, rd_limits st = L → codec w (k st) b u) → codec w (rd_get ≫= k) b u.
Proof.
  intros H Hw s s' Hs.
  destruct (H (reader_new [] L) eq_refl Hw _ _ Hs) as (xs & -> & _).
  exists xs. split; [done|]. intros st Hst.
  destruct (H st (ready_limits _ _ _ Hst) Hw _ _ Hs) as (xs' & Heq & Hr).
  apply app_inv_head in Heq as <-. unfold mbind, reader_bind, rd_get. by apply Hr.
Qed.

Lemma codec_guard {B} w b c (k : unit → Reader B) a u :
  b = false → codec w (k tt) a u → codec w (rd_reject_if b c ≫= k) a u.
Proof.
  intros -> H. rewrite <-(usage_add_0_l u). eapply codec_silent; [|exact H].
  apply reads_ret.
Qed.

Lemma codec_charge {B} w op (k : unit → Reader B) a u v :
  (∀ b, mb_limits b = L → within (usage_add (budget_usage b) u) L →
     op b = Ok (budget_charge u b)) →
  codec w (k tt) a v → codec w (rd_charge op ≫= k) a (usage_add u v).
Proof. intros Hop. apply codec_silent. by apply reads_charge. Qed.

(** *** Primitives *)

Lemma codec_bytes xs : codec (w_bytes xs) (rd_take (len xs)) xs usage_zero.
Proof.
  intros _ s s' Hs. unfold w_bytes in Hs. inv_result.
  exists xs. split; [done|]. apply reads_take.
Qed.

Lemma codec_word n v :
  (v < 256 ^ N.of_nat n)%N →
  codec (w_bytes (be_bytes n v)) (bs ← rd_take (N.of_nat n); mret (from_be_bytes bs)) v usage_zero.
Proof.
  intros Hv. eapply codec_end.
  - replace (N.of_nat n) with (len (be_bytes n v))
      by (unfold len; by rewrite be_bytes_length).
    apply codec_bytes.
  - replace (from_be_bytes (be_bytes n v)) with v; [apply reads_ret|].
    rewrite from_be_be_bytes. symmetry. by apply N.mod_small.
Qed.

Lemma codec_u8 v : (v < 256)%N → codec (w_u8 v) rd_u8 v usage_zero.
Proof.
  intros Hv. unfold w_u8, rd_u8.
  replace [n2b v] with (be_bytes 1 v) by (cbn; by rewrite N.div_1_r).
  apply (codec_word 1 v). change (256 ^ N.of_nat 1)%N with 256%N. done.
Qed.

Lemma codec_u32 v : u32_wf v → codec (w_u32 v) rd_u32 v usage_zero.
Proof.
  intros Hv. apply (codec_word 4 v). unfold u32_wf, U32_MAX in Hv. cbn. lia.
Qed.

Lemma codec_u64 v : (v ≤ U64_MAX)%N → codec (w_u64 v) rd_u64 v usage_zero.
Proof. intros Hv. apply (codec_word 8 v). unfold U64_MAX in Hv.
  change (256 ^ N.of_nat 8)%N with 18446744073709551616%N. lia. Qed.

Lemma codec_i64 v : in_i64 v = true → codec (w_i64 v) rd_i64 v usage_zero.
Proof.
  intros Hv. unfold w_i64, rd_i64. eapply codec_end.
  - change 8%N with (len (be_bytes 8 (i64_to_u64 v))). apply codec_bytes.
  - rewrite from_be_be_bytes, N.mod_small by apply i64_to_u64_bound.
    rewrite u64_to_i64_to_u64 by done. apply reads_ret.
Qed.

Lemma codec_boolean v : codec (w_boolean v) rd_boolean v usage_zero.
Proof.
  unfold w_boolean, rd_boolean. eapply codec_end.
  - apply codec_u8. by destruct v.
  - destruct v; apply reads_ret.
Qed.

Lemma codec_count v limit : (v ≤ limit)%N → codec (w_len v) (rd_count limit) v usage_zero.
Proof.
  intros Hv Hw s s' Hs. unfold w_len in Hs. inv_result. reflect_bools.
  revert Hs. refine (codec_end (w_u32 v) rd_u32 _ v v usage_zero _ _ Hw s s').
  - by apply codec_u32.
  - rewrite <-(usage_add_0_l usage_zero).
    apply (reads_bind (rd_reject_if _ _) _ [] [] tt); [|apply reads_ret].
    destruct (N.ltb_spec limit v); [lia|]. apply reads_ret.
Qed.

(** *** Composite values *)

Lemma codec_string v : str_wf v → codec (w_string v) rd_string v (usage_string v).
Proof.
  intros Hv. unfold w_string, rd_string. apply codec_get; intros st Hst.
  apply codec_within; intros Hw. rewrite Hst, <-(usage_add_0_l (usage_string v)).
  eapply codec_bind; [apply codec_count; destruct Hw; intuition|].
  rewrite <-(usage_add_0_l (usage_string v)).
  rewrite <-len_as_bytes. intros Hw' s s' Hs. unfold w_bytes in Hs. inv_result.
  exists (as_bytes v). split; [done|].
  eapply reads_end; [apply reads_take|].
  rewrite from_utf8_as_bytes by done.
  rewrite <-(usage_add_0_r (usage_string v)). eapply reads_end; [|apply reads_ret].
  apply reads_charge. intros b Hb Hbw. apply budget_string_ok; by rewrite Hb.
Qed.

Lemma codec_option {A} (w : A → Writer) (r : Reader A) o (u : A → Usage) :
  (∀ x, o = Some x → codec (w x) r x (u x)) →
  codec (w_option w o) (rd_option r) o (use_option u o).
Proof.
  intros H. unfold rd_option. destruct o as [x|]; cbn [w_option use_option].
  - rewrite <-(usage_add_0_l (u x)). eapply codec_bind; [by apply codec_u8|]. cbn.
    eapply codec_end; [by apply H|apply reads_ret].
  - eapply codec_end; [by apply codec_u8|apply reads_ret].
Qed.

Lemma codec_all {A} (w : A → Writer) (r : Reader A) l (u : A → Usage) :
  Forall (λ x, codec (w x) r x (u x)) l →
  codec (w_all w l) (rd_repeat r (length l)) l (usage_sum (map u l)).
Proof.
  induction 1 as [|x l Hx Hl IH]; cbn.
  - intros _ s s' Hs. unfold w_all in Hs. cbn in Hs. inv_result.
    exists []. split; [by rewrite app_nil_r|apply reads_ret].
  - change (w_all w (x :: l)) with (w x ⨾ w_all w l).
    eapply codec_bind; [exact Hx|]. eapply codec_end; [exact IH|apply reads_ret].
Qed.

Lemma to_nat_len {A} (l : list A) : N.to_nat (len l) = length l.
Proof. unfold len. lia. Qed.

Lemma codec_metadata_vec {A} (w : A → Writer) (r : Reader A) l (u : A → Usage) :
  Forall (λ x, codec (w x) r x (u x)) l →
  codec (w_len (len l) ⨾ w_all w l) (rd_metadata_vec r) l
    (usage_add (usage_metadata (len l)) (usage_sum (map u l))).
Proof.
  intros H. unfold rd_metadata_vec. apply codec_get; intros st Hst.
  apply codec_within; intros Hw. apply within_split in Hw as [Hw _].
  rewrite Hst, <-(usage_add_0_l (usage_add _ _)).
  eapply codec_bind.
  { apply codec_count. destruct Hw as (_ & _ & _ & Hw & _). exact Hw. }
  cbv beta. apply codec_charge.
  { intros b Hb Hbw. apply budget_metadata_ok; by rewrite Hb. }
  rewrite to_nat_len. by apply codec_all.
Qed.

Lemma codec_string_vec l :
  Forall str_wf l → codec (w_string_vec l) rd_string_vec l (use_string_vec l).
Proof.
  intros H. apply codec_metadata_vec. eapply Forall_impl; [exact H|]. apply codec_string.
Qed.

Lemma w_all_u32_length l s s' :
  w_all w_u32 l s = Ok s' → length s' = length s + 4 * length l.
Proof.
  revert s; induction l as [|x l IH]; intros s Hs; cbn in Hs; inv_result; [cbn; lia|].
  change (w_all w_u32 l (s ++ be_bytes 4 x) = Ok s') in Hs.
  rewrite (IH _ Hs), length_app, be_bytes_length. cbn; lia.
Qed.

(** The look-ahead length check before a fixed-width vector passes. *)
Lemma codec_ensure (r : Reader (list N)) l u :
  codec (w_all w_u32 l) r l u →
  codec (w_all w_u32 l) (rd_ensure_fixed_bytes (len l) 4 ≫= λ _, r) l u.
Proof.
  intros H Hw s s' Hs. destruct (H Hw _ _ Hs) as (xs & -> & Hr).
  exists xs. split; [done|]. intros st Hst.
  apply w_all_u32_length in Hs. rewrite length_app in Hs.
  pose proof (ready_remaining _ _ _ Hst) as Hrem. pose proof (ready_len _ _ _ Hst) as Hlen.
  unfold mbind, reader_bind, rd_ensure_fixed_bytes, checked_mul_usize.
  assert (len l * 4 ≤ len (rd_bytes st) - rd_offset st)%N by (unfold len in *; lia).
  destruct (N.leb_spec (len l * 4) USIZE_MAX); [cbn|lia].
  unfold reject_if. destruct (N.ltb_spec (len (rd_bytes st) - rd_offset st) (len l * 4)); [lia|].
  cbn. by apply Hr.
Qed.

Lemma codec_u32_all l :
  Forall u32_wf l → codec (w_all w_u32 l) (rd_repeat rd_u32 (length l)) l usage_zero.
Proof.
  intros H. apply (codec_usage _ _ _ (usage_sum (map (λ _, usage_zero) l))).
  { clear H. induction l as [|x l IH]; [done|].
    change (usage_add usage_zero (usage_sum (map (λ _ : N, usage_zero) l)) = usage_zero).
    by rewrite IH. }
  apply codec_all. eapply Forall_impl; [exact H|]. apply codec_u32.
Qed.

Lemma codec_u32_vec_exact l expected :
  Forall u32_wf l → len l = expected → (expected ≤ max_instructions L)%N →
  codec (w_u32_vec l) (rd_u32_vec_exact expected) l usage_zero.
Proof.
  intros H <- Hmax. unfold rd_u32_vec_exact. apply codec_get; intros st Hst. rewrite Hst.
  rewrite <-(usage_add_0_l usage_zero).
  eapply codec_bind; [by apply codec_count|]. cbv beta.
  apply codec_guard; [by rewrite N.eqb_refl|]. rewrite to_nat_len.
  apply codec_ensure. by apply codec_u32_all.
Qed.

(** *** Type expressions *)

Lemma type_wf_all (ts : list TypeExpr.TypeExpr) :
  foldr (λ t P, type_wf t ∧ P) True ts ↔ Forall type_wf ts.
Proof.
  induction ts as [|t ts IH]; cbn; [|rewrite Forall_cons; tauto].
  split; intros; constructor.
Qed.

Lemma type_wf_fields (fs : list (ShapeField TypeExpr.TypeExpr)) :
  foldr (λ f P, (str_wf (field_name f) ∧ type_wf (field_type f)) ∧ P) True fs ↔
  Forall (λ f, str_wf (field_name f) ∧ type_wf (field_type f)) fs.
Proof.
  induction fs as [|f fs IH]; cbn; [|rewrite Forall_cons; tauto].
  split; intros; constructor.
Qed.

Lemma foldr_max_le {A} (f : A → nat) l d :
  foldr (λ x m, Nat.max (f x) m) 0 l ≤ d → Forall (λ x, f x ≤ d) l.
Proof. induction l; cbn; constructor; [lia|]. apply IHl. lia. Qed.

(** The codec of a nested expression at the next depth. *)
Definition type_codec (fuel : nat) (depth : N) (t : TypeExpr.TypeExpr) : Prop :=
  codec (w_type_expr t) (rd_type_expr_go fuel depth) t (use_type_expr t).

Definition type_codec_below (t : TypeExpr.TypeExpr) : Prop :=
  ∀ fuel depth, type_wf t → type_depth t ≤ fuel →
    (depth + N.of_nat (type_depth t) ≤ max_type_depth L + 1)%N → type_codec fuel depth t.

Lemma type_codec_vec fuel depth ts d :
  Forall type_codec_below ts → foldr (λ t P, type_wf t ∧ P) True ts →
  foldr (λ t d, Nat.max (type_depth t) d) 0 ts ≤ d → d ≤ fuel →
  (depth + N.of_nat d ≤ max_type_depth L + 1)%N →
  codec (w_len (len ts) ⨾ w_all w_type_expr ts) (rd_metadata_vec (rd_type_expr_go fuel depth)) ts
    (usage_add (usage_metadata (len ts)) (usage_sum (map use_type_expr ts))).
Proof.
  intros Hts Hwf%type_wf_all Hd%foldr_max_le Hf Hmax. apply codec_metadata_vec.
  rewrite Forall_forall in Hts, Hwf, Hd |- *. intros t Ht.
  apply Hts; auto; specialize (Hd _ Ht); cbn in Hd; lia.
Qed.

Lemma type_codec_fields fuel depth fs d :
  Forall (λ f, type_codec_below (field_type f)) fs →
  foldr (λ f P, (str_wf (field_name f) ∧ type_wf (field_type f)) ∧ P) True fs →
  foldr (λ f d, Nat.max (type_depth (field_type f)) d) 0 fs ≤ d → d ≤ fuel →
  (depth + N.of_nat d ≤ max_type_depth L + 1)%N →
  codec
    (w_len (len fs) ⨾
     w_all (λ f, w_string (field_name f) ⨾ w_type_expr (field_type f) ⨾
                 w_boolean (field_optional f)) fs)
    (rd_metadata_vec (
      name ← rd_string; type_expr ← rd_type_expr_go fuel depth; optional ← rd_boolean;
      mret (mkShapeField name type_expr optional))) fs
    (usage_add (usage_metadata (len fs))
      (usage_sum (map (λ f, usage_add (usage_string (field_name f))
                              (use_type_expr (field_type f))) fs))).
Proof.
  intros Hfs Hwf%type_wf_fields Hd%foldr_max_le Hf Hmax. apply codec_metadata_vec.
  rewrite Forall_forall in Hfs, Hwf, Hd |- *. intros [n t o] Ht.
  specialize (Hd _ Ht); cbn in Hd. destruct (Hwf _ Ht) as [Hn Hwt].
  eapply codec_bind; [by apply codec_string|]. cbn.
  rewrite <-(usage_add_0_r (use_type_expr t)). eapply codec_bind.
  - apply (Hfs _ Ht); cbn; auto; lia.
  - eapply codec_end; [apply codec_boolean|apply reads_ret].
Qed.

Lemma type_codec_tag depth t tag w u (k : N → Reader TypeExpr.TypeExpr) :
  (tag < 256)%N → (depth ≤ max_type_depth L)%N →
  codec w (k tag) t u →
  codec (w_u8 tag ⨾ w)
    (_ ← rd_charge (budget_type_node depth); tag ← rd_u8; k tag) t
    (usage_add usage_type_node u).
Proof.
  intros Htag Hd Hk. apply codec_charge.
  - intros b Hb Hbw. apply budget_type_node_ok; by rewrite Hb.
  - rewrite <-(usage_add_0_l u). eapply codec_bind; [by apply codec_u8|done].
Qed.

Lemma type_codec_tag_only depth t tag (k : N → Reader TypeExpr.TypeExpr) :
  (tag < 256)%N → (depth ≤ max_type_depth L)%N → k tag = mret t →
  codec (w_u8 tag) (_ ← rd_charge (budget_type_node depth); tag ← rd_u8; k tag) t
    (usage_add usage_type_node usage_zero).
Proof.
  intros Htag Hd Hk. apply codec_charge.
  - intros b Hb Hbw. apply budget_type_node_ok; by rewrite Hb.
  - eapply codec_end; [by apply codec_u8|]. rewrite Hk. apply reads_ret.
Qed.

Ltac sub_codec :=
  match goal with
  | H : type_codec_below ?t |- codec (w_type_expr ?t) _ _ _ => apply H; [tauto|lia|lia]
  end.
Ltac vec_codec :=
  first [ eapply type_codec_vec | eapply type_codec_fields ];
  [eassumption|tauto|apply Nat.le_refl|lia|lia].
Ltac string_codec := apply codec_string; tauto.
Ltac type_codec_case :=
  first
    [ eapply codec_end; [|apply reads_ret];
      first [string_codec | by apply codec_i64 | sub_codec | vec_codec]
    | eapply codec_bind;
      [ first [string_codec | sub_codec | vec_codec] | cbv beta; type_codec_case ] ].

Lemma codec_type_expr_go t : type_codec_below t.
Proof.
  induction t using TypeExpr.type_expr_ind; intros fuel depth Hwf Hf Hd; cbn in Hwf, Hf, Hd;
    (destruct fuel as [|fuel]; [lia|]); unfold type_codec; cbn [w_type_expr rd_type_expr_go use_type_expr];
    try (apply type_codec_tag_only; [done|lia|done]);
    (apply type_codec_tag; [done|lia|]); cbn beta iota zeta.
  all: type_codec_case.
Qed.
Lemma codec_type_expr t :
  type_ok L t → codec (w_type_expr t) rd_type_expr t (use_type_expr t).
Proof.
  intros [Hwf Hd]. apply codec_get; intros st ->.
  apply codec_type_expr_go; [done|lia|lia].
Qed.

(** *** Constants, imports, chunks *)

Lemma codec_constant c :
  constant_wf c → codec (w_constant c) rd_constant c (use_constant c).
Proof.
  intros Hc. destruct c; cbn [w_constant use_constant constant_wf] in *; unfold rd_constant.
  5: { eapply codec_end; [by apply codec_u8|apply reads_ret]. }
  all: first [rewrite <-(usage_add_0_l usage_zero)|rewrite <-(usage_add_0_l (usage_string _))];
    (eapply codec_bind; [by apply codec_u8|]); cbv beta iota;
    (eapply codec_end; [|apply reads_ret]);
    by first [apply codec_i64|apply codec_u64|apply codec_string|apply codec_boolean].
Qed.

Lemma codec_import i :
  import_wf i → codec (w_import i) rd_import i (use_import i).
Proof.
  intros (Hp & Ht & Hs & Ha). destruct i as [p t s a b]; cbn in *.
  unfold w_import, rd_import, use_import; cbn.
  eapply codec_bind; [by apply codec_string|]. eapply codec_bind; [by apply codec_string|].
  eapply codec_bind; [apply codec_option; intros; apply codec_string_vec; eauto|].
  rewrite <-(usage_add_0_r (use_option usage_string a)).
  eapply codec_bind; [apply codec_option; intros; apply codec_string; eauto|].
  eapply codec_end; [apply codec_boolean|apply reads_ret].
Qed.

Lemma codec_imports l :
  Forall import_wf l → codec (w_import_vec l) rd_import_vec l (use_imports l).
Proof.
  intros H. apply codec_metadata_vec. eapply Forall_impl; [exact H|]. apply codec_import.
Qed.

Lemma codec_local_slot s :
  str_wf (wslot_name s) ∧ u32_wf (wslot_scope_depth s) →
  codec (w_local_slot s) rd_local_slot s (usage_string (wslot_name s)).
Proof.
  destruct s as [n m d]; cbn. intros [Hn Hd]. unfold w_local_slot, rd_local_slot; cbn.
  rewrite <-(usage_add_0_r (usage_string n)).
  eapply codec_bind; [by apply codec_string|]. rewrite <-(usage_add_0_l usage_zero).
  eapply codec_bind; [apply codec_boolean|].
  eapply codec_end; [by apply codec_u32|apply reads_ret].
Qed.

Lemma codec_binding_type b :
  binding_type_wf L b →
  codec (w_binding_type b) rd_binding_type b (use_binding_type b).
Proof.
  destruct b as [n t l]; unfold binding_type_wf; cbn. intros (Hn & Ht & Hl).
  unfold w_binding_type, rd_binding_type, use_binding_type; cbn.
  eapply codec_bind; [by apply codec_string|].
  eapply codec_bind; [by apply codec_type_expr|].
  eapply codec_end; [by apply codec_string_vec|apply reads_ret].
Qed.
(** *** Chunks and functions *)

Lemma codec_seq_assoc {A} w1 w2 w3 (r : Reader A) a u :
  codec (w1 ⨾ w2 ⨾ w3) r a u → codec ((w1 ⨾ w2) ⨾ w3) r a u.
Proof.
  intros H Hw s s' Hs. apply (H Hw). rewrite <-Hs.
  unfold w_seq. by destruct (w1 s).
Qed.

(** A counted vector in the middle of a sequence. *)
Lemma codec_vec_bind {A B} (w : A → Writer) (r : Reader A) l w2 (k : list A → Reader B) b
    (u : A → Usage) v :
  Forall (λ x, codec (w x) r x (u x)) l → codec w2 (k l) b v →
  codec (w_len (len l) ⨾ w_all w l ⨾ w2) (rd_metadata_vec r ≫= k) b
    (usage_add (usage_add (usage_metadata (len l)) (usage_sum (map u l))) v).
Proof.
  intros Hl Hk Hw s s' Hs.
  refine (codec_bind _ _ _ _ _ _ _ _ (codec_metadata_vec w r l u Hl) Hk Hw s s' _).
  rewrite <-Hs. unfold w_seq. by destruct (w_len (len l) s).
Qed.

Lemma reader_bind_assoc {A B C} (r : Reader A) (k : A → Reader B) (k' : B → Reader C) st :
  ((r ≫= k) ≫= k') st = (r ≫= λ a, k a ≫= k') st.
Proof. unfold mbind, reader_bind. by destruct (r st) as [[??]|]. Qed.

Lemma codec_function_ref n f :
  u32_wf f ∧ (f < n)%N → codec (w_u32 f) (rd_function_ref n) f usage_zero.
Proof.
  intros [Hu Hf]. eapply codec_end; [by apply codec_u32|].
  rewrite <-(usage_add_0_l usage_zero).
  apply (reads_bind (rd_reject_if _ _) _ [] [] tt); [|apply reads_ret].
  destruct (N.leb_spec n f); [lia|]. apply reads_ret.
Qed.

Lemma codec_function_refs n l :
  Forall (λ f, u32_wf f ∧ (f < n)%N) l →
  codec (w_all w_u32 l) (rd_repeat (rd_function_ref n) (length l)) l usage_zero.
Proof.
  intros H. apply (codec_usage _ _ _ (usage_sum (map (λ _, usage_zero) l))).
  { clear H. induction l as [|x l IH]; [done|].
    change (usage_add usage_zero (usage_sum (map (λ _ : N, usage_zero) l)) = usage_zero).
    by rewrite IH. }
  apply codec_all. eapply Forall_impl; [exact H|]. apply codec_function_ref.
Qed.

Lemma codec_chunk n c :
  chunk_wf L n c → codec (w_chunk c) (rd_chunk n) c (use_chunk c).
Proof.
  intros [Hc Hl Hcol Hll Hcl Hs Hf Hsl Hb]. destruct c as [code cs ls cols sf fs slots bs ro].
  cbn in *. apply codec_within; intros Hw. eapply codec_usage; cycle 1.
  - unfold w_chunk, w_byte_vec, rd_chunk; cbn. apply codec_get; intros st ->.
    apply codec_seq_assoc.
    assert (len code ≤ max_instructions L)%N by usage_solve.
    eapply codec_bind; [by apply codec_count|].
    apply codec_charge; [intros; by apply budget_instructions_ok; simplify_eq|].
    eapply codec_bind; [apply codec_bytes|].
    eapply codec_bind; [apply codec_count; usage_solve|].
    apply codec_charge; [intros; by apply budget_constants_ok; simplify_eq|].
    rewrite to_nat_len.
    eapply codec_bind; [apply codec_all; eapply Forall_impl; [exact Hc|apply codec_constant]|].
    eapply codec_bind; [by apply codec_u32_vec_exact|].
    eapply codec_bind; [by apply codec_u32_vec_exact|].
    eapply codec_bind; [apply codec_option; intros; apply codec_string; eauto|].
    eapply codec_bind; [apply codec_count; usage_solve|].
    apply codec_charge; [intros; by apply budget_metadata_ok; simplify_eq|].
    rewrite to_nat_len. eapply codec_ext; [intros; apply reader_bind_assoc|].
    eapply codec_bind; [by apply codec_ensure, codec_function_refs|].
    eapply codec_vec_bind; [eapply Forall_impl; [exact Hsl|apply codec_local_slot]|].
    eapply codec_vec_bind; [eapply Forall_impl; [exact Hb|apply codec_binding_type]|].
    eapply codec_end; [apply codec_boolean|apply reads_ret].
  - unfold use_chunk; cbn. by rewrite ?usage_add_assoc, ?usage_add_0_l, ?usage_add_0_r.
Qed.
Lemma codec_param p : param_wf L p → codec (w_param p) rd_param p (use_param p).
Proof.
  destruct p as [n t d]; intros [Hn Ht]; cbn in *. unfold w_param, rd_param, use_param; cbn.
  eapply codec_usage; cycle 1.
  - eapply codec_bind; [by apply codec_string|].
    eapply codec_bind; [apply codec_option; intros; apply codec_type_expr; eauto|].
    eapply codec_end; [apply codec_boolean|apply reads_ret].
  - by rewrite ?usage_add_0_r.
Qed.

Lemma codec_function f : function_wf L f → codec (w_function f) rd_function f (use_function f).
Proof.
  intros [Hn Htp Hnm Hp Hd Hc]. destruct f as [n tp nm ps ds c g st rest ck]; cbn in *.
  unfold w_function, rd_function, use_function; cbn. eapply codec_usage; cycle 1.
  - eapply codec_bind; [by apply codec_string|].
    do 2 (eapply codec_bind; [by apply codec_string_vec|]).
    eapply codec_vec_bind; [eapply Forall_impl; [exact Hp|apply codec_param]|].
    eapply codec_bind; [apply (codec_option w_u32 rd_u32 ds (λ _, usage_zero)); intros;
                        apply codec_u32; eauto|].
    eapply codec_bind; [by apply codec_u32|].
    do 3 (eapply codec_bind; [apply codec_boolean|]).
    eapply codec_end; [apply codec_boolean|apply reads_ret].
  - replace (use_option (λ _, usage_zero) ds) with usage_zero by by destruct ds.
    by rewrite ?usage_add_assoc, ?usage_add_0_r.
Qed.

(** *** Modules *)

Lemma codec_table {V} (w : string * V → Writer) (r : Reader (string * V)) l m (u : string * V → Usage) :
  BTree.sorted (m ++ l) → Forall (λ e, codec (w e) r e (u e)) l →
  codec (w_all w l) (rd_table r (length l) m) (m ++ l) (usage_sum (map u l)).
Proof.
  intros Hs Hl. revert m Hs. induction Hl as [|[k v] l Hx Hl IH]; intros m Hs; cbn.
  - intros _ s s' Hw. unfold w_all in Hw. cbn in Hw. inv_result.
    exists []. rewrite !app_nil_r. split; [done|apply reads_ret].
  - change (w_all w ((k, v) :: l)) with (w (k, v) ⨾ w_all w l).
    pose proof (btree_sorted_app_lower _ _ _ Hs) as Hlow.
    eapply codec_bind; [exact Hx|]. cbn. apply codec_guard.
    { unfold BTree.contains_key. by rewrite btree_get_upper. }
    rewrite btree_insert_last by done.
    replace (m ++ (k, v) :: l) with ((m ++ [(k, v)]) ++ l) in * by by rewrite <-app_assoc.
    by apply IH.
Qed.

Lemma codec_module_function n e :
  str_wf e.1 ∧ u32_wf e.2 ∧ (e.2 < n)%N →
  codec (w_module_function e) (rd_module_function n) e (usage_string e.1).
Proof.
  destruct e as [k f]; cbn; intros (Hk & Hu & Hf).
  unfold w_module_function, rd_module_function; cbn.
  eapply codec_usage; [apply usage_add_0_r|].
  eapply codec_bind; [by apply codec_string|].
  eapply codec_end; [by apply codec_u32|]. rewrite <-(usage_add_0_l usage_zero).
  apply (reads_bind (rd_reject_if _ _) _ [] [] tt); [|apply reads_ret].
  destruct (N.leb_spec n f); [lia|]. apply reads_ret.
Qed.

Lemma codec_module_export e :
  str_wf e.1 → codec (w_module_export e) rd_module_export e (usage_string e.1).
Proof.
  destruct e as [k x]; cbn; intros Hk. unfold w_module_export, rd_module_export; cbn.
  eapply codec_usage; [apply usage_add_0_r|].
  eapply codec_bind; [by apply codec_string|].
  eapply codec_end; [apply codec_u8; by destruct x|].
  destruct x; apply reads_ret.
Qed.

Lemma codec_module nf nc m :
  module_wf L nf nc m → codec (w_module m) (rd_module nf nc) m (use_module m).
Proof.
  intros [Hid Hi Hinit Hf Hfs Hfl He Hes Hel]. destruct m as [id imps init fns exs]; cbn in *.
  unfold w_module, rd_module, use_module; cbn. eapply codec_usage; cycle 1.
  - apply codec_get; intros st ->.
    eapply codec_bind; [by apply codec_string|].
    eapply codec_bind; [by apply codec_imports|].
    eapply codec_bind.
    { apply (codec_option w_u32 _ init (λ _, usage_zero)). intros c Hc.
      by apply (codec_function_ref nc), Hinit. }
    eapply codec_bind; [by apply codec_count|]. rewrite to_nat_len.
    eapply codec_bind; [apply (codec_table _ _ fns []); [done|];
      eapply Forall_impl; [exact Hf|apply codec_module_function]|].
    eapply codec_bind; [by apply codec_count|]. rewrite to_nat_len.
    eapply codec_end; [apply (codec_table _ _ exs []); [done|];
      eapply Forall_impl; [exact He|apply codec_module_export]|].
    apply reads_ret.
  - replace (use_option (λ _, usage_zero) init) with usage_zero by by destruct init.
    by rewrite ?usage_add_assoc, ?usage_add_0_r.
Qed.
(** *** Programs *)

Lemma codec_entry_kind k : codec (w_entry_kind k) rd_entry_kind k usage_zero.
Proof.
  unfold w_entry_kind, rd_entry_kind.
  destruct k; (eapply codec_end; [by apply codec_u8|apply reads_ret]).
Qed.

Lemma codec_program abi p :
  program_wf L abi p → codec (w_program p) (rd_program_body abi) p (use_program p).
Proof.
  intros [Habi Hlen He Hc Hcn Hcl Hf Hfl Hr Hm Hml].
  destruct p as [abi' en ek eh cs fns ri ms]; cbn in *; subst abi'.
  unfold w_program, rd_program_body, use_program; cbn. eapply codec_usage; cycle 1.
  - apply codec_get; intros st ->.
    eapply codec_bind.
    { replace 32%N with (len abi) by (unfold len; by rewrite Hlen). apply codec_bytes. }
    apply codec_guard; [by rewrite bytes_eqb_refl|].
    eapply codec_bind; [by apply codec_string|].
    eapply codec_bind; [apply codec_entry_kind|].
    eapply codec_bind; [apply codec_boolean|].
    eapply codec_bind; [by apply codec_count|].
    apply codec_guard; [destruct cs; [done|]; apply N.eqb_neq; rewrite len_cons; lia|].
    eapply codec_bind; [by apply codec_count|]. rewrite !to_nat_len.
    eapply codec_bind; [apply codec_all; eapply Forall_impl; [exact Hc|apply codec_chunk]|].
    eapply codec_bind; [apply codec_all; eapply Forall_impl; [exact Hf|apply codec_function]|].
    eapply codec_bind; [by apply codec_imports|].
    eapply codec_bind; [by apply codec_count|]. rewrite !to_nat_len.
    eapply codec_end; [apply codec_all; eapply Forall_impl; [exact Hm|apply codec_module]|].
    apply reads_ret.
  - by rewrite ?usage_add_assoc, ?usage_add_0_l, ?usage_add_0_r.
Qed.
End reads.

#[export] Hint Resolve codec_string codec_u32 codec_u64 codec_i64 codec_boolean
  codec_string_vec codec_u8 reads_ret : kernel.

(** ** The round trip *)

Section payload.
Context (L : ArtifactLimits) (HL : limits_wf L).

(** The initial cursor is ready to read a whole payload. *)
Lemma ready_new bytes u :
  within u L → (len bytes ≤ USIZE_MAX)%N → ready L (reader_new bytes L) bytes u.
Proof.
  intros Hu Hlen. split; cbn; try done.
  - exists []. by rewrite app_nil_r.
  - lia.
Qed.

Lemma read_program_payload abi p payload :
  program_wf L abi p → within (use_program p) L →
  encode_wire_program p = Ok payload → (len payload ≤ USIZE_MAX)%N →
  read_program abi payload L = Ok p.
Proof.
  intros Hp Hu He Hlen.
  destruct (codec_program L HL abi p Hp Hu [] payload He) as (xs & Hxs & Hr).
  cbn in Hxs. subst xs. unfold read_program, rd_program, mbind, reader_bind, result_bind, rd_get.
  rewrite (Hr _ (ready_new _ _ Hu Hlen)). cbn.
  unfold len. by rewrite N.eqb_refl.
Qed.
End payload.

(** C5: reading back what the writer emitted for a wire program gives that
    program, unchanged, whenever the program is well formed (its strings are
    UTF-8, its references are in range, its tables are ordered) and what it uses
    is within the reader's limits. No byte of the payload is left over. *)
Theorem read_encode_round_trip (L : ArtifactLimits) (abi : list byte) (p : WireProgram)
    (payload : list byte) :
  limits_wf L → program_wf L abi p → within (use_program p) L →
  encode_wire_program p = Ok payload → (len payload ≤ USIZE_MAX)%N →
  read_program abi payload L = Ok p.
Proof. intros HL. by apply read_program_payload. Qed.

(** A package with an import, a typed function and a module to try it on. *)
Definition sample_abi : list byte := repeat (n2b 7) 32.

Definition sample_wire : WireProgram := {|
  wprog_semantic_abi := sample_abi;
  wprog_entry := "main";
  wprog_entry_kind := EntryPipeline;
  wprog_expects_harness := false;
  wprog_chunks := [
    {| wcode := [n2b 4; n2b 60];
       wconstants := [Constant.Int (-1); Constant.String "k"; Constant.Nil];
       wlines := [1; 1]%N; wcolumns := [1; 5]%N;
       wsource_file := Some "a.harn"%string;
       wfunctions := [0%N];
       wlocal_slots := [mkWireLocalSlot "x" true 0];
       wbinding_types := [];
       wreferences_outer_names := true |} ];
  wprog_functions := [
    {| wfn_name := "f"; wfn_type_params := ["T"]%string; wfn_nominal_type_names := [];
       wfn_params := [mkWireParam "p"
         (Some (TypeExpr.FnType [TypeExpr.Named "T"] (TypeExpr.List TypeExpr.Never))) false];
       wfn_default_start := Some 1%N; wfn_chunk := 0; wfn_is_generator := false;
       wfn_is_stream := false; wfn_has_rest_param := false;
       wfn_has_runtime_type_checks := true |} ];
  wprog_root_imports := [mkPortableImport "./m" "m" (Some ["g"]%string) None false];
  wprog_modules := [
    {| wmod_id := "m"; wmod_imports := []; wmod_init := Some 0%N;
       wmod_functions := [("g", 0%N)]%string;
       wmod_exports := [("g", PortableExportKind.Function)]%string |} ]
|}.

Definition sample_payload : list byte :=
  match encode_wire_program sample_wire with Ok bs => bs | Err _ => [] end.

(** Decide well-formedness of a concrete program. *)
Ltac wire_wf :=
  repeat match goal with
  | |- Forall _ _ => constructor
  | |- program_wf _ _ _ => split
  | |- chunk_wf _ _ _ => split
  | |- function_wf _ _ => split
  | |- module_wf _ _ _ _ => split
  | |- BTree.sorted _ => constructor
  | |- StronglySorted _ _ => constructor
  | |- _ ∧ _ => split
  | |- ∀ _, _ = Some _ → _ => intros ? [= <-]
  | |- type_ok _ _ => split
  | |- import_wf _ => split
  | |- param_wf _ _ => split
  | |- (_ ≤ _)%N => by vm_compute
  | |- (_ < _)%N => by vm_compute
  | _ => done
  end.

Lemma sample_wire_wf : program_wf default_limits sample_abi sample_wire.
Proof. wire_wf. Qed.

Lemma default_limits_wf : limits_wf default_limits.
Proof. by vm_compute. Qed.

Lemma read_encode_round_trip_witness :
  read_program sample_abi sample_payload default_limits = Ok sample_wire.
Proof.
  apply (read_encode_round_trip default_limits sample_abi sample_wire sample_payload).
  - exact default_limits_wf.
  - exact sample_wire_wf.
  - vm_compute. repeat split; discriminate.
  - vm_compute. reflexivity.
  - vm_compute. discriminate.
Defined.
