(* ===== verification/Verifier.v ===== *)
(** * The bytecode verifier ([validate_code] of [artifact/validation.rs])

    One pass over a chunk's code marks the instruction boundaries, checks every
    operand against the chunk's tables and collects the jump targets, which must
    all be boundaries. [verified] is the contract the executor relies on;
    [validate_code_spec] says the pass decides it. *)

From S2P Require Import Prelude Opcode Program.

(** ** Builtin identifiers ([builtin_id.rs]) *)

(** FNV-1a, 64 bits. *)
Definition fnv_step (hash : N) (b : byte) : N :=
  (N.lxor hash (b2n b) * 1099511628211) mod 18446744073709551616.

Definition builtin_id_from_name (name : string) : N :=
  foldl fnv_step 14695981039346656037%N (as_bytes name).

(** ** The pass *)

(** [u16::from_be_bytes([code[offset], code[offset + 1]])] *)
Definition read_code_u16 (code : list byte) (offset : nat) : nat :=
  N.to_nat (from_be_bytes (take 2 (drop offset code))).

Definition read_code_u64 (code : list byte) (offset : nat) : N :=
  from_be_bytes (take 8 (drop offset code)).

#[global] Arguments read_code_u16 : simpl never.
#[global] Arguments read_code_u64 : simpl never.

(** What the verifier knows of the chunk: its tables, or their sizes. *)
Record CodeTables := mkCodeTables {
  ct_constants : list Constant.Constant;
  ct_functions : nat;
  ct_locals : nat;
  ct_binding_types : nat
}.

(** The loop variables of the operand loop. *)
Record OperandScan := mkOperandScan {
  os_offset : nat;
  os_builtin_id : option N;
  os_builtin_name : option string;
  os_jump_targets : list nat
}.

Section pass.
Context (code : list byte) (tables : CodeTables).

(** The checks on one operand at [operand_offset]. *)
Definition validate_operand (s : OperandScan) (k : OperandKind.OperandKind)
    : result OperandScan :=
  let at_ := os_offset s in
  let next := at_ + OperandKind.width k in
  let index := read_code_u16 code at_ in
  match k with
  | OperandKind.ImmediateU8 | OperandKind.ImmediateU16 =>
      Ok (mkOperandScan next (os_builtin_id s) (os_builtin_name s) (os_jump_targets s))
  | OperandKind.BuiltinIdU64 =>
      Ok (mkOperandScan next (Some (read_code_u64 code at_)) (os_builtin_name s)
            (os_jump_targets s))
  | OperandKind.ConstantU16 =>
      _ ← ok_or (ct_constants tables !! index) artifact_invalid_index;
      Ok (mkOperandScan next (os_builtin_id s) (os_builtin_name s) (os_jump_targets s))
  | OperandKind.StringConstantU16 =>
      constant ← ok_or (ct_constants tables !! index) artifact_invalid_index;
      match constant with
      | Constant.String name =>
          Ok (mkOperandScan next (os_builtin_id s) (Some name) (os_jump_targets s))
      | _ => Err (diagnostic artifact_invalid_constant_type)
      end
  | OperandKind.LocalU16 =>
      _ ← reject_if (ct_locals tables <=? index)%nat artifact_invalid_index;
      Ok (mkOperandScan next (os_builtin_id s) (os_builtin_name s) (os_jump_targets s))
  | OperandKind.BindingTypeU16 =>
      _ ← reject_if (ct_binding_types tables <=? index)%nat artifact_invalid_index;
      Ok (mkOperandScan next (os_builtin_id s) (os_builtin_name s) (os_jump_targets s))
  | OperandKind.FunctionU16 =>
      _ ← reject_if (ct_functions tables <=? index)%nat artifact_invalid_index;
      Ok (mkOperandScan next (os_builtin_id s) (os_builtin_name s) (os_jump_targets s))
  | OperandKind.JumpU16 =>
      Ok (mkOperandScan next (os_builtin_id s) (os_builtin_name s)
            (os_jump_targets s ++ [index]))
  end.

(** A named call's identifier is the hash of its name. *)
Definition validate_builtin_id (s : OperandScan) : result unit :=
  match os_builtin_id s, os_builtin_name s with
  | Some id, Some name =>
      reject_if (negb (builtin_id_from_name name =? id)%N) artifact_builtin_id_mismatch
  | _, _ => Ok tt
  end.

(** The body of the instruction loop at [ip]: the instruction's width and the
    jump targets seen so far. *)
Definition validate_instruction (ip : nat) (b : byte) (jumps : list nat)
    : result (nat * list nat) :=
  op ← ok_or (Op.from_byte b) artifact_invalid_opcode;
  let width := Op.instruction_len op in
  _ ← reject_if (length code <? ip + width)%nat artifact_truncated_instruction;
  s ← result_foldl validate_operand (mkOperandScan (ip + 1) None None jumps) (Op.operands op);
  _ ← validate_builtin_id s;
  Ok (width, os_jump_targets s).

(** [while ip < code.len()]; every instruction is at least one byte wide, so
    [length code] iterations are enough (see [validate_loop_fuel]). *)
Fixpoint validate_loop (fuel ip : nat) (boundaries : list bool) (jumps : list nat)
    : result (list bool * list nat) :=
  match fuel, code !! ip with
  | _, None => Ok (boundaries, jumps)
  | O, Some _ => Err (diagnostic artifact_truncated_instruction)
  | S fuel, Some b =>
      wj ← validate_instruction ip b jumps;
      validate_loop fuel (ip + wj.1) (<[ip := true]> boundaries) wj.2
  end.

(** [target >= code.len() || !instruction_boundaries[target]] *)
Definition validate_jump (boundaries : list bool) (target : nat) : result unit :=
  reject_if ((length code <=? target)%nat || negb (default false (boundaries !! target)))
    artifact_invalid_jump.

Definition validate_code : result unit :=
  bj ← validate_loop (length code) 0 (replicate (length code) false) [];
  result_foldl (λ _ target, validate_jump bj.1 target) tt bj.2.
End pass.

(** ** The contract *)

Definition op_at (code : list byte) (ip : nat) : option Op.Op := code !! ip ≫= Op.from_byte.

(** Offsets control can reach from [start] by falling through. *)
Inductive boundary (code : list byte) (start : nat) : nat → Prop :=
  | boundary_start : boundary code start start
  | boundary_next ip op :
      boundary code start ip → op_at code ip = Some op →
      boundary code start (ip + Op.instruction_len op).

Section contract.
Context (code : list byte) (tables : CodeTables).

(** An operand's index is in range of its table. *)
Definition operand_static (k : OperandKind.OperandKind) (offset : nat) : Prop :=
  let index := read_code_u16 code offset in
  match k with
  | OperandKind.ConstantU16 => ∃ c, ct_constants tables !! index = Some c
  | OperandKind.StringConstantU16 =>
      ∃ name, ct_constants tables !! index = Some (Constant.String name)
  | OperandKind.LocalU16 => index < ct_locals tables
  | OperandKind.BindingTypeU16 => index < ct_binding_types tables
  | OperandKind.FunctionU16 => index < ct_functions tables
  | OperandKind.ImmediateU8 | OperandKind.ImmediateU16 | OperandKind.BuiltinIdU64
  | OperandKind.JumpU16 => True
  end.

Fixpoint operands_static (ks : list OperandKind.OperandKind) (offset : nat) : Prop :=
  match ks with
  | [] => True
  | k :: ks => operand_static k offset ∧ operands_static ks (offset + OperandKind.width k)
  end.

Fixpoint jumps_of (ks : list OperandKind.OperandKind) (offset : nat) : list nat :=
  match ks with
  | [] => []
  | k :: ks =>
      match k with OperandKind.JumpU16 => [read_code_u16 code offset] | _ => [] end ++
      jumps_of ks (offset + OperandKind.width k)
  end.

(** A named call carries the identifier of the name it calls. *)
Definition builtin_static (ip : nat) (op : Op.Op) : Prop :=
  match op with
  | Op.CallBuiltin | Op.CallBuiltinSpread =>
      ∃ name, ct_constants tables !! read_code_u16 code (ip + 9) = Some (Constant.String name) ∧
        builtin_id_from_name name = read_code_u64 code (ip + 1)
  | _ => True
  end.

Definition instruction_static (ip : nat) (op : Op.Op) : Prop :=
  ip + Op.instruction_len op ≤ length code ∧
  operands_static (Op.operands op) (ip + 1) ∧ builtin_static ip op.

(** Every reachable offset holds a whole instruction with valid operands, and
    every jump goes to one. *)
Definition verified : Prop :=
  ∀ ip, boundary code 0 ip →
    ip = length code ∨
    ∃ op, op_at code ip = Some op ∧ instruction_static ip op ∧
      Forall (λ target, boundary code 0 target ∧ target < length code)
        (jumps_of (Op.operands op) (ip + 1)).

(** *** One instruction *)

Fixpoint scan_of (ks : list OperandKind.OperandKind) (s : OperandScan) : OperandScan :=
  match ks with
  | [] => s
  | k :: ks =>
      let at_ := os_offset s in
      scan_of ks (mkOperandScan (at_ + OperandKind.width k)
        (match k with
         | OperandKind.BuiltinIdU64 => Some (read_code_u64 code at_)
         | _ => os_builtin_id s end)
        (match k, ct_constants tables !! read_code_u16 code at_ with
         | OperandKind.StringConstantU16, Some (Constant.String name) => Some name
         | _, _ => os_builtin_name s end)
        (os_jump_targets s ++
         match k with OperandKind.JumpU16 => [read_code_u16 code at_] | _ => [] end))
  end.

Lemma scan_of_jumps ks s :
  os_jump_targets (scan_of ks s) = os_jump_targets s ++ jumps_of ks (os_offset s).
Proof.
  revert s; induction ks as [|k ks IH]; intros s; cbn; [by rewrite app_nil_r|].
  by rewrite IH, app_assoc.
Qed.

Lemma validate_operand_spec s k s' :
  validate_operand code tables s k = Ok s' ↔
  operand_static k (os_offset s) ∧ s' = scan_of [k] s.
Proof.
  destruct s as [o i n j]. destruct k; cbn; rewrite ?app_nil_r;
    try (split; [by intros [= <-]|by intros [_ ->]]).
  2: destruct (ct_constants tables !! _) as [[]|]; cbn.
  1: destruct (ct_constants tables !! _) as [|]; cbn.
  all: unfold reject_if; try match goal with |- context [(?a <=? ?b)%nat] => destruct (Nat.leb_spec a b) end; cbn.
  all: try (split; [by intros [= <-]; eauto|by intros [_ ->]]).
  all: split; try done; intros [Hx ->]; first [lia | by destruct Hx].
Qed.

Lemma validate_operands_spec ks s s' :
  result_foldl (validate_operand code tables) s ks = Ok s' ↔
  operands_static ks (os_offset s) ∧ s' = scan_of ks s.
Proof.
  revert s; induction ks as [|k ks IH]; intros s; cbn [result_foldl operands_static scan_of].
  { split; [by intros [= <-]|by intros [_ ->]]. }
  rewrite result_bind_ok. split.
  - intros (s1 & H1 & H2). apply validate_operand_spec in H1 as [Hk ->].
    apply IH in H2 as [Hks ->]. done.
  - intros [[Hk Hks] ->]. eexists. split; [by apply validate_operand_spec|]. by apply IH.
Qed.

Lemma validate_builtin_id_spec ip op jumps :
  operands_static (Op.operands op) (ip + 1) →
  validate_builtin_id (scan_of (Op.operands op) (mkOperandScan (ip + 1) None None jumps)) = Ok tt ↔
  builtin_static ip op.
Proof.
  destruct op; cbn; try done; unfold reject_if;
    replace (ip + 1 + 8) with (ip + 9) by lia; intros (_ & [name Hn] & _); rewrite Hn; cbn;
    destruct (N.eqb_spec (builtin_id_from_name name) (read_code_u64 code (ip + 1)));
    (split; [intros ?; first [done|by exists name]|intros (m & [= <-] & He); first [done|congruence]]).
Qed.

Lemma validate_instruction_spec ip b jumps w js :
  validate_instruction code tables ip b jumps = Ok (w, js) ↔
  ∃ op, Op.from_byte b = Some op ∧ instruction_static ip op ∧
    w = Op.instruction_len op ∧ js = jumps ++ jumps_of (Op.operands op) (ip + 1).
Proof.
  unfold validate_instruction, instruction_static. split.
  - intros H. inv_result. apply validate_operands_spec in E1 as [Hs ->].
    destruct a2. apply validate_builtin_id_spec in E2; [|done].
    exists a. rewrite scan_of_jumps. apply Nat.ltb_ge in E3. done.
  - intros (op & -> & (Hl & Hs & Hb) & -> & ->).
    apply Nat.ltb_ge in Hl. unfold reject_if; cbn -[Nat.ltb]. rewrite Hl; cbn.
    rewrite (proj2 (validate_operands_spec _ _ _)) by done. cbn.
    rewrite (proj2 (validate_builtin_id_spec ip op jumps Hs)) by done. cbn.
    by rewrite scan_of_jumps.
Qed.

(** *** The loop *)

Lemma boundary_trans a b c : boundary code a b → boundary code b c → boundary code a c.
Proof. intros H. induction 1; [done|by econstructor]. Qed.

Lemma boundary_inv start ip :
  boundary code start ip →
  ip = start ∨ ∃ op, op_at code start = Some op ∧
    boundary code (start + Op.instruction_len op) ip.
Proof.
  induction 1 as [|ip op Hb IH Hop]; [by left|right].
  destruct IH as [->|(op0 & H0 & Hb')]; eauto using boundary.
Qed.

Lemma boundary_le start ip : boundary code start ip → start ≤ ip.
Proof. induction 1; lia. Qed.

Lemma boundary_end start ip : length code ≤ start → boundary code start ip → ip = start.
Proof.
  intros Hs Hb. destruct (boundary_inv _ _ Hb) as [->|(op & Hop & _)]; [done|].
  unfold op_at in Hop. by rewrite lookup_ge_None_2 in Hop.
Qed.

(** What the loop establishes of the code from [ip] on. *)
Definition static_from (ip : nat) : Prop :=
  ∀ p, boundary code ip p →
    p = length code ∨ ∃ op, op_at code p = Some op ∧ instruction_static p op.

Definition jump_from (ip target : nat) : Prop :=
  ∃ p op, boundary code ip p ∧ op_at code p = Some op ∧
    target ∈ jumps_of (Op.operands op) (p + 1).

Lemma static_from_next ip op :
  op_at code ip = Some op → instruction_static ip op →
  static_from ip ↔ static_from (ip + Op.instruction_len op).
Proof.
  intros Hop Hst. split; intros H p Hp.
  - apply H. eapply boundary_trans; [|exact Hp]. eauto using boundary.
  - destruct (boundary_inv _ _ Hp) as [->|(op' & Hop' & Hp')]; [eauto|].
    simplify_eq. by apply H.
Qed.

Lemma jump_from_next ip op target :
  op_at code ip = Some op →
  jump_from ip target ↔ target ∈ jumps_of (Op.operands op) (ip + 1) ∨
    jump_from (ip + Op.instruction_len op) target.
Proof.
  intros Hop. split.
  - intros (p & op' & Hp & Hop' & Hin).
    destruct (boundary_inv _ _ Hp) as [->|(op0 & Hop0 & Hp')]; simplify_eq; [by left|].
    right. by exists p, op'.
  - intros [Hin|(p & op' & Hp & Hop' & Hin)].
    + exists ip, op. eauto using boundary.
    + exists p, op'. split; [|done]. eapply boundary_trans; [|exact Hp]. eauto using boundary.
Qed.

(** The marks and targets the loop adds to those it starts with. *)
Definition loop_post (ip : nat) (bs bs' : list bool) (js js' : list nat) : Prop :=
  length bs' = length bs ∧
  (∀ p, bs' !! p = Some true ↔
     bs !! p = Some true ∨ (boundary code ip p ∧ p < length code)) ∧
  (∀ t, t ∈ js' ↔ t ∈ js ∨ jump_from ip t).

Lemma loop_post_end ip bs js :
  length code ≤ ip → loop_post ip bs bs js js.
Proof.
  intros Hip. split; [done|]. split.
  - intros p. split; [by left|intros [?|[Hb Hlt]]; [done|]].
    apply boundary_end in Hb; [lia|done].
  - intros t. split; [by left|intros [?|(p & op & Hb & Hop & _)]; [done|]].
    apply boundary_end in Hb; [|done]. subst. unfold op_at in Hop.
    by rewrite lookup_ge_None_2 in Hop.
Qed.

Lemma loop_post_next ip op bs bs' js js' :
  length bs = length code → op_at code ip = Some op → ip < length code →
  loop_post (ip + Op.instruction_len op) (<[ip:=true]> bs) bs'
    (js ++ jumps_of (Op.operands op) (ip + 1)) js' →
  loop_post ip bs bs' js js'.
Proof.
  intros Hl Hop Hip (Hl' & Hb & Hj). split; [by rewrite Hl', length_insert|]. split.
  - intros p. rewrite Hb. destruct (decide (p = ip)) as [->|Hne].
    + rewrite list_lookup_insert_eq by lia. split; [|by left].
      intros _. right. split; [constructor|done].
    + rewrite list_lookup_insert_ne by done. split.
      * intros [?|[Hp Hlt]]; [by left|right]. split; [|done].
        eapply boundary_trans; [|exact Hp]. eauto using boundary.
      * intros [?|[Hp Hlt]]; [by left|right].
        destruct (boundary_inv _ _ Hp) as [->|(op' & Hop' & Hp')]; [done|]. by simplify_eq.
  - intros t. rewrite Hj, elem_of_app, (jump_from_next ip op t Hop). tauto.
Qed.

Lemma validate_loop_spec fuel ip bs js :
  length bs = length code → ip ≤ length code → length code ≤ ip + fuel →
  (∀ bs' js', validate_loop code tables fuel ip bs js = Ok (bs', js') →
     static_from ip ∧ loop_post ip bs bs' js js') ∧
  (static_from ip → ∃ r, validate_loop code tables fuel ip bs js = Ok r).
Proof.
  revert ip bs js; induction fuel as [|fuel IH]; intros ip bs js Hl Hip Hf; cbn.
  - rewrite (lookup_ge_None_2 code ip) by lia. split; [|eauto].
    intros bs' js' [= <- <-]. split; [|apply loop_post_end; lia].
    intros p Hp. apply boundary_end in Hp; [|lia]. left. lia.
  - destruct (code !! ip) as [b|] eqn:Eb.
    2: { apply lookup_ge_None_1 in Eb. split; [|eauto].
         intros bs' js' [= <- <-]. split; [|by apply loop_post_end].
         intros p Hp. apply boundary_end in Hp; [|done]. left. lia. }
    pose proof (lookup_lt_Some _ _ _ Eb) as Hlt.
    assert (∀ op, Op.from_byte b = Some op → op_at code ip = Some op) as Hat.
    { intros op Hop. unfold op_at. by rewrite Eb. }
    split.
    + intros bs' js' H. apply result_bind_ok in H as ([w js1] & H1 & H2).
      apply validate_instruction_spec in H1 as (op & Hop & Hst & -> & ->).
      apply Hat in Hop. pose proof (op_instruction_len_pos op). pose proof Hst as [Hend _].
      destruct (IH (ip + Op.instruction_len op) (<[ip:=true]> bs) (js ++ jumps_of (Op.operands op) (ip + 1)))
        as [IH1 _]; [by rewrite length_insert|lia|lia|].
      apply IH1 in H2 as [Hs Hp]. split; [by eapply static_from_next|by eapply loop_post_next].
    + intros Hs. destruct (Hs ip) as [->|(op & Hop & Hst)]; [constructor|lia|].
      pose proof Hop as Hop'. unfold op_at in Hop'. rewrite Eb in Hop'. cbn in Hop'.
      pose proof (op_instruction_len_pos op). pose proof Hst as [Hend _].
      rewrite (proj2 (validate_instruction_spec ip b js (Op.instruction_len op)
        (js ++ jumps_of (Op.operands op) (ip + 1)))) by eauto.
      cbn. apply IH; [by rewrite length_insert|lia|lia|]. by apply static_from_next.
Qed.

Lemma validate_jumps_spec bs js :
  result_foldl (λ _ target, validate_jump code bs target) tt js = Ok tt ↔
  Forall (λ t, t < length code ∧ bs !! t = Some true) js.
Proof.
  induction js as [|t js IH]; cbn [result_foldl]; [by split; [constructor|]|].
  rewrite Forall_cons, <-IH, result_bind_ok. unfold validate_jump, reject_if.
  destruct (Nat.leb_spec (length code) t) as [Hle|Hlt]; cbn.
  { split; [by intros (? & ? & ?)|lia]. }
  destruct (bs !! t) as [[]|]; cbn.
  1: split; [by intros ([] & _ & ?)|by intros [_ ?]; exists tt].
  all: split; [by intros (? & ? & _)|by intros [[_ ?] _]].
Qed.

Lemma validate_code_verified : validate_code code tables = Ok tt ↔ verified.
Proof.
  unfold validate_code. rewrite result_bind_ok.
  destruct (validate_loop_spec (length code) 0 (replicate (length code) false) [])
    as [Hsound Hcomplete]; [by rewrite length_replicate|lia|lia|].
  assert (∀ bs js, loop_post 0 (replicate (length code) false) bs [] js →
    (Forall (λ t, t < length code ∧ bs !! t = Some true) js ↔
     ∀ t, jump_from 0 t → boundary code 0 t ∧ t < length code)) as Hjumps.
  { intros bs js (_ & Hb & Hj). rewrite Forall_forall.
    assert (∀ t, bs !! t = Some true ↔ boundary code 0 t ∧ t < length code) as Hb'.
    { intros t. rewrite Hb. split; [intros [H|H]; [|done]|by right].
      apply lookup_replicate in H as [? _]. done. }
    split; intros H t Ht.
    - destruct (H t) as [? ?%Hb']; [apply Hj; by right|done].
    - apply Hj in Ht as [?%not_elem_of_nil|Ht]; [done|]. rewrite Hb'. destruct (H t Ht). done. }
  split.
  - intros ([bs js] & H1 & H2). apply Hsound in H1 as [Hs Hp].
    cbn in H2. rewrite validate_jumps_spec, (Hjumps _ _ Hp) in H2. intros ip Hip.
    destruct (Hs ip Hip) as [->|(op & Hop & Hst)]; [by left|right].
    exists op. split_and!; [done..|]. apply Forall_forall. intros t Ht. apply H2. by exists ip, op.
  - intros Hv. destruct Hcomplete as [[bs js] Hr].
    { intros p Hp. destruct (Hv p Hp) as [?|(op & ? & ? & _)]; [by left|right; eauto]. }
    exists (bs, js). split; [done|]. destruct (Hsound _ _ Hr) as [Hs Hp].
    cbn. rewrite validate_jumps_spec, (Hjumps _ _ Hp). intros t (p & op & Hb & Hop & Hin).
    destruct (Hv p Hb) as [->|(op' & Hop' & _ & Hj)].
    { unfold op_at in Hop. by rewrite lookup_ge_None_2 in Hop. }
    simplify_eq. rewrite Forall_forall in Hj. by apply Hj.
Qed.
End contract.

(** ** The theorem *)

(** C6: the verifier's single pass over a chunk's code accepts exactly the code
    in which every offset reachable by falling through holds one whole decodable
    instruction, whose table operands are in range (string operands naming a
    string constant), whose builtin identifier is the hash of the name it calls,
    and whose jump goes to another such offset. *)
Theorem validate_code_spec (code : list byte) (tables : CodeTables) :
  validate_code code tables = Ok tt ↔ verified code tables.
Proof. apply validate_code_verified. Qed.
