(* ===== verification/Metadata.v ===== *)
(** * Metadata validation ([WireProgram::validate_metadata] of [artifact/wire.rs])

    Everything about an artifact that is not code: names, parameter lists,
    defaults, type-check flags, imports, module tables, the entry. *)

From S2P Require Import Prelude BTree Program Budget.

(** [type_contract::requires_runtime_type_check] *)
Definition requires_runtime_type_check (expected : TypeExpr.TypeExpr) : bool :=
  match expected with
  | TypeExpr.Named name => negb (String.eqb name "any" || String.eqb name "unknown")
  | _ => true
  end.

(** [!set.insert(name)]: was it there already? The set is the list of names inserted. *)
Definition seen_before (name : string) (seen : list string) : bool :=
  existsb (String.eqb name) seen.

Definition is_empty (s : string) : bool := String.eqb s "".

(** The loop [for name in names { if name.is_empty() || !seen.insert(name) {..} ..budget.string(name)?; }] *)
Fixpoint validate_names (c : Code) (seen : list string) (names : list string)
    (b : MetadataBudget) : result MetadataBudget :=
  match names with
  | [] => Ok b
  | name :: names =>
      _ ← reject_if (is_empty name || seen_before name seen) c;
      b ← budget_string name b;
      validate_names c (name :: seen) names b
  end.

Definition budget_chunk (b : MetadataBudget) (chunk : WireChunk) : result MetadataBudget :=
  b ← budget_instructions (len (wcode chunk)) b;
  b ← budget_constants (len (wconstants chunk)) b;
  b ← budget_metadata (len (wfunctions chunk)) b;
  b ← budget_metadata (len (wlocal_slots chunk)) b;
  b ← budget_metadata (len (wbinding_types chunk)) b;
  b ← match wsource_file chunk with Some f => budget_string f b | None => Ok b end;
  b ← result_foldl (λ b constant,
        match constant with Constant.String v => budget_string v b | _ => Ok b end)
      b (wconstants chunk);
  b ← result_foldl (λ b local, budget_string (wslot_name local) b) b (wlocal_slots chunk);
  result_foldl (λ b binding,
    b ← budget_string (wbind_name binding) b;
    b ← budget_type_expr (wbind_type_expr binding) 1 b;
    result_foldl (λ b nominal, budget_string nominal b) b (wbind_nominal_type_names binding))
    b (wbinding_types chunk).

(** Parameter names: [_] may repeat, nothing else may. *)
Fixpoint validate_params (seen : list string) (params : list WireParam) (b : MetadataBudget)
    : result MetadataBudget :=
  match params with
  | [] => Ok b
  | param :: params =>
      let name := wparam_name param in
      let wildcard := String.eqb name "_" in
      _ ← reject_if (is_empty name || (negb wildcard && seen_before name seen))
            artifact_invalid_function;
      b ← budget_string name b;
      b ← match wparam_type_expr param with
          | Some t => budget_type_expr t 1 b
          | None => Ok b
          end;
      validate_params (if wildcard then seen else name :: seen) params b
  end.

(** [params.iter().position(|parameter| parameter.has_default)] *)
Fixpoint first_default (params : list WireParam) : option nat :=
  match params with
  | [] => None
  | p :: params => if wparam_has_default p then Some 0 else S <$> first_default params
  end.

Definition carries_runtime_types (f : WireFunction) : bool :=
  existsb (λ p, match wparam_type_expr p with
                | Some t => requires_runtime_type_check t
                | None => false
                end) (wfn_params f).

(** The default metadata is incoherent. *)
Definition defaults_incoherent (f : WireFunction) : bool :=
  negb (bool_decide (N.to_nat <$> wfn_default_start f = first_default (wfn_params f))) ||
  match first_default (wfn_params f) with
  | Some start => existsb (λ p, negb (wparam_has_default p)) (drop start (wfn_params f))
  | None => false
  end.

(** [function.has_rest_param && function.params.is_empty() || ..] *)
Definition callable_incoherent (f : WireFunction) : bool :=
  is_empty (wfn_name f) ||
  (wfn_has_rest_param f && match wfn_params f with [] => true | _ => false end) ||
  (wfn_is_stream f && negb (wfn_is_generator f)).

Definition validate_function (b : MetadataBudget) (f : WireFunction) : result MetadataBudget :=
  _ ← reject_if (callable_incoherent f) artifact_invalid_function;
  b ← budget_string (wfn_name f) b;
  b ← budget_metadata (len (wfn_type_params f)) b;
  b ← validate_names artifact_invalid_function [] (wfn_type_params f) b;
  b ← budget_metadata (len (wfn_nominal_type_names f)) b;
  b ← validate_names artifact_invalid_function [] (wfn_nominal_type_names f) b;
  b ← budget_metadata (len (wfn_params f)) b;
  b ← validate_params [] (wfn_params f) b;
  _ ← reject_if (negb (Bool.eqb (wfn_has_runtime_type_checks f) (carries_runtime_types f)))
        artifact_runtime_type_metadata;
  _ ← reject_if (defaults_incoherent f) artifact_invalid_function;
  Ok b.

(** [budget_imports] *)
Definition budget_imports (b : MetadataBudget) (imports : list PortableImport)
    : result MetadataBudget :=
  b ← budget_metadata (len imports) b;
  result_foldl (λ b import,
    b ← budget_string (import_path import) b;
    b ← budget_string (import_target import) b;
    b ← match import_selected_names import with
        | Some names =>
            b ← budget_metadata (len names) b;
            result_foldl (λ b name, budget_string name b) b names
        | None => Ok b
        end;
    match import_namespace_alias import with
    | Some alias => budget_string alias b
    | None => Ok b
    end) b imports.

(** The duplicate check alone, as the import names have it. *)
Fixpoint distinct_names (seen names : list string) : bool :=
  match names with
  | [] => true
  | name :: names =>
      negb (is_empty name || seen_before name seen) && distinct_names (name :: seen) names
  end.

(** [validate_import_targets] *)
Definition validate_import_target (module_ids : list string) (import : PortableImport)
    : result unit :=
  _ ← reject_if (is_empty (import_path import) || is_empty (import_target import))
        artifact_invalid_import;
  _ ← reject_if (bool_decide (is_Some (import_selected_names import)) &&
                 bool_decide (is_Some (import_namespace_alias import)))
        artifact_invalid_import;
  _ ← reject_if (match import_selected_names import with
                 | Some names => negb (distinct_names [] names)
                 | None => false
                 end) artifact_invalid_import;
  _ ← reject_if (match import_namespace_alias import with
                 | Some alias => is_empty alias
                 | None => false
                 end) artifact_invalid_import;
  reject_if (negb (seen_before (import_target import) module_ids)) artifact_invalid_import.

Definition validate_import_targets (imports : list PortableImport) (module_ids : list string)
    : result unit :=
  result_foldl (λ _ import, validate_import_target module_ids import) tt imports.

(** One module's table entries; [module_ids] is the set of the ids before it. *)
Definition validate_module (chunks functions : N) (s : MetadataBudget * list string)
    (m : WireModule) : result (MetadataBudget * list string) :=
  let '(b, module_ids) := s in
  _ ← reject_if (is_empty (wmod_id m) || seen_before (wmod_id m) module_ids)
        artifact_invalid_module;
  b ← budget_string (wmod_id m) b;
  b ← budget_imports b (wmod_imports m);
  _ ← match wmod_init m with
      | Some init => reject_if (chunks <=? init)%N artifact_invalid_index
      | None => Ok tt
      end;
  b ← result_foldl (λ b (e : string * N),
        b ← budget_string e.1 b;
        _ ← reject_if (functions <=? e.2)%N artifact_invalid_index;
        Ok b) b (wmod_functions m);
  b ← result_foldl (λ b name, budget_string name b) b (BTree.keys (wmod_exports m));
  Ok (b, wmod_id m :: module_ids).

(** The function's first parameter is [: Harness]. *)
Definition takes_harness (f : WireFunction) : bool :=
  match wfn_params f with
  | p :: _ =>
      match wparam_type_expr p with
      | Some (TypeExpr.Named name) => String.eqb name "Harness"
      | _ => false
      end
  | [] => false
  end.

Definition entry_matches (p : WireProgram) : bool :=
  existsb (λ f, String.eqb (wfn_name f) (wprog_entry p) &&
                Bool.eqb (takes_harness f) (wprog_expects_harness p)) (wprog_functions p).

Definition validate_counts (p : WireProgram) (limits : ArtifactLimits) : result unit :=
  _ ← reject_if (match wprog_chunks p with [] => true | _ => false end) artifact_malformed;
  _ ← reject_if (max_chunks limits <? len (wprog_chunks p))%N artifact_too_many_chunks;
  reject_if (max_functions limits <? len (wprog_functions p))%N artifact_too_many_functions.

(** [WireProgram::validate_metadata] *)
Definition validate_metadata (p : WireProgram) (limits : ArtifactLimits) : result unit :=
  _ ← validate_counts p limits;
  b ← budget_string (wprog_entry p) (budget_new limits);
  b ← result_foldl budget_chunk b (wprog_chunks p);
  b ← result_foldl validate_function b (wprog_functions p);
  b ← budget_imports b (wprog_root_imports p);
  _ ← reject_if (max_chunks limits <? len (wprog_modules p))%N artifact_too_many_modules;
  s ← result_foldl (validate_module (len (wprog_chunks p)) (len (wprog_functions p)))
        (b, []) (wprog_modules p);
  _ ← validate_import_targets (wprog_root_imports p) s.2;
  _ ← result_foldl (λ _ m, validate_import_targets (wmod_imports m) s.2) tt (wprog_modules p);
  reject_if (is_empty (wprog_entry p) || negb (entry_matches p)) artifact_invalid_entry.
