(* ===== verification/Linker.v ===== *)
(** * Linking: wire programs to chunk trees and back ([artifact/wire.rs])

    [validate_and_build] turns the flat tables of a wire program into nested
    chunks; [from_image] and [from_package] flatten chunks into those tables.
    [link_flatten] says the first undoes the second. *)

From S2P Require Import Prelude BTree Opcode Program Budget Verifier Metadata.

(** ** Building *)

Record BuiltModule := mkBuiltModule {
  built_id : string;
  built_imports : list PortableImport;
  built_init : option Chunk;
  built_functions : btree CompiledFunction;
  built_exports : btree PortableExportKind.PortableExportKind
}.

Record BuiltProgram := mkBuiltProgram {
  built_root : Chunk;
  built_root_imports : list PortableImport;
  built_modules : list BuiltModule
}.

(** The field-by-field copies of [validate_and_build]. *)

Definition link_param (p : WireParam) : ParamSlot :=
  mkParamSlot (wparam_name p) (wparam_type_expr p) (wparam_has_default p).

Definition link_local (s : WireLocalSlot) : LocalSlotInfo :=
  mkLocalSlotInfo (wslot_name s) (wslot_mutable s) (wslot_scope_depth s).

Definition link_binding (s : WireBindingType) : BindingTypeSlot :=
  mkBindingTypeSlot (wbind_name s) (wbind_type_expr s) (wbind_nominal_type_names s).

Definition link_function (f : WireFunction) (chunk : Chunk) : CompiledFunction :=
  mkCompiledFunction (wfn_name f) (wfn_type_params f) (wfn_nominal_type_names f)
    (map link_param (wfn_params f)) (wfn_default_start f) chunk (wfn_is_generator f)
    (wfn_is_stream f) (wfn_has_rest_param f) (wfn_has_runtime_type_checks f).

(** [Chunk::from_artifact_parts] *)
Definition link_chunk (w : WireChunk) (functions : list CompiledFunction) : Chunk :=
  mkChunk (wcode w) (wconstants w) (wlines w) (wcolumns w) (wsource_file w) functions
    (map link_local (wlocal_slots w)) (map link_binding (wbinding_types w))
    (wreferences_outer_names w).

Definition wire_tables (w : WireChunk) : CodeTables :=
  mkCodeTables (wconstants w) (length (wfunctions w)) (length (wlocal_slots w))
    (length (wbinding_types w)).

(** The checks of the first loop over [self.chunks]. *)
Definition validate_chunk (function_count : nat) (w : WireChunk) : result unit :=
  _ ← reject_if (negb (length (wlines w) =? length (wcode w)) ||
                 negb (length (wcolumns w) =? length (wcode w))) artifact_malformed;
  _ ← validate_code (wcode w) (wire_tables w);
  result_foldl (λ _ f, reject_if (function_count <=? N.to_nat f) artifact_invalid_index)
    tt (wfunctions w).

Section build.
Context (p : WireProgram).

(** One function reference of chunk [chunk_id]. The indexing
    [self.functions[function_id]] is in range by [validate_chunk]. *)
Definition build_function (built : list (option Chunk)) (chunk_id : nat) (function_id : N)
    : result CompiledFunction :=
  function ← ok_or (wprog_functions p !! N.to_nat function_id) artifact_invalid_index;
  let chunk := N.to_nat (wfn_chunk function) in
  _ ← reject_if ((chunk <=? chunk_id) || (length (wprog_chunks p) <=? chunk))
        artifact_invalid_graph;
  child ← ok_or (built !! chunk ≫= λ c, c) artifact_invalid_graph;
  Ok (link_function function child).

Definition build_chunk (built : list (option Chunk)) (chunk_id : nat)
    : result (list (option Chunk)) :=
  wire ← ok_or (wprog_chunks p !! chunk_id) artifact_invalid_index;
  functions ← result_map (build_function built chunk_id) (wfunctions wire);
  Ok (<[chunk_id := Some (link_chunk wire functions)]> built).

(** [for chunk_id in (0..self.chunks.len()).rev()] *)
Definition build_chunks : result (list (option Chunk)) :=
  let n := length (wprog_chunks p) in
  result_foldl build_chunk (replicate n None) (rev (seq 0 n)).

(** A module's function table entry; the chunk is looked up again. *)
Definition build_module_function (built : list (option Chunk)) (e : string * N)
    : result (string * CompiledFunction) :=
  function ← ok_or (wprog_functions p !! N.to_nat e.2) artifact_invalid_module;
  chunk ← ok_or (built !! N.to_nat (wfn_chunk function) ≫= λ c, c) artifact_invalid_module;
  Ok (e.1, link_function function chunk).

Definition build_module (built : list (option Chunk)) (s : list BuiltModule * list string)
    (m : WireModule) : result (list BuiltModule * list string) :=
  _ ← reject_if (is_empty (wmod_id m) || seen_before (wmod_id m) s.2) artifact_invalid_module;
  init ← match wmod_init m with
         | Some chunk =>
             c ← ok_or (built !! N.to_nat chunk ≫= λ c, c) artifact_invalid_module;
             Ok (Some c)
         | None => Ok None
         end;
  functions ← result_map (build_module_function built) (wmod_functions m);
  Ok (s.1 ++ [mkBuiltModule (wmod_id m) (wmod_imports m) init
                (BTree.from_entries functions) (wmod_exports m)],
      wmod_id m :: s.2).

(** [WireProgram::validate_and_build]; [abi] is [semantic_abi_fingerprint()].
    [built[0].take()] leaves no root chunk for the modules to name, and no
    other reference to it exists ([Arc::try_unwrap] succeeds), since children
    have greater indices. *)
Definition validate_and_build (abi : list byte) (limits : ArtifactLimits)
    : result BuiltProgram :=
  _ ← reject_if (negb (bool_decide (map b2n (wprog_semantic_abi p) = map b2n abi)))
        artifact_semantic_abi;
  _ ← validate_metadata p limits;
  _ ← validate_counts p limits;
  _ ← result_foldl (λ _ w, validate_chunk (length (wprog_functions p)) w) tt (wprog_chunks p);
  built ← build_chunks;
  root ← ok_or (built !! 0 ≫= λ c, c) artifact_invalid_graph;
  s ← result_foldl (build_module (<[0 := None]> built)) ([], []) (wprog_modules p);
  Ok (mkBuiltProgram root (wprog_root_imports p) s.1).
End build.

(** ** Flattening *)

(** [u32::try_from(value)] *)
Definition u32_try_from (v : N) (c : Code) : result N :=
  _ ← reject_if (U32_MAX <? v)%N c; Ok v.

Definition flatten_param (p : ParamSlot) : WireParam :=
  mkWireParam (param_name p) (param_type_expr p) (param_has_default p).

(** [value as u32] *)
Definition as_u32 (v : N) : N := v mod 4294967296.

(** [WireFunction::from_compiled] *)
Definition from_compiled (f : CompiledFunction) (chunk : N) : WireFunction :=
  mkWireFunction (fn_name f) (fn_type_params f) (fn_nominal_type_names f)
    (map flatten_param (fn_params f)) (as_u32 <$> fn_default_start f) chunk
    (fn_is_generator f) (fn_is_stream f) (fn_has_rest_param f)
    (fn_has_runtime_type_checks f).

Definition flatten_local (s : LocalSlotInfo) : result WireLocalSlot :=
  depth ← u32_try_from (slot_scope_depth s) artifact_metadata_too_large;
  Ok (mkWireLocalSlot (slot_name s) (slot_mutable s) depth).

Definition flatten_binding (s : BindingTypeSlot) : WireBindingType :=
  mkWireBindingType (binding_name s) (binding_type_expr s) (binding_nominal_type_names s).

(** [WireProgram::wire_chunk] *)
Definition wire_chunk (c : Chunk) (functions : list N) : result WireChunk :=
  locals ← result_map flatten_local (chunk_local_slots c);
  Ok (mkWireChunk (chunk_code c) (chunk_constants c) (chunk_lines c) (chunk_columns c)
        (chunk_source_file c) functions locals (map flatten_binding (chunk_binding_types c))
        (chunk_references_outer_names c)).

(** The chunk queue and the function table under construction. *)
Record Flat := mkFlat { pending : list Chunk; functions : list WireFunction }.

(** The closure [append_function]. *)
Definition append_function (s : Flat) (f : CompiledFunction) : result (N * Flat) :=
  child_chunk ← u32_try_from (len (pending s)) artifact_too_large;
  function_id ← u32_try_from (len (functions s)) artifact_too_large;
  Ok (function_id,
      mkFlat (pending s ++ [fn_chunk f]) (functions s ++ [from_compiled f child_chunk])).

Fixpoint append_functions (s : Flat) (fs : list CompiledFunction) : result (list N * Flat) :=
  match fs with
  | [] => Ok ([], s)
  | f :: fs =>
      r ← append_function s f;
      r' ← append_functions r.2 fs;
      Ok (r.1 :: r'.1, r'.2)
  end.

(** Every chunk of a tree. *)
Fixpoint chunk_size (c : Chunk) : nat :=
  S (foldr (λ f n, chunk_size (fn_chunk f) + n) 0 (chunk_functions c)).

(** [while cursor < pending.len()]; each chunk of the forest is queued once, so
    the forest's size is fuel enough (see [walk_fuel]). *)
Fixpoint walk (fuel cursor : nat) (s : Flat) (chunks : list WireChunk)
    : result (list WireChunk * list WireFunction) :=
  match fuel, pending s !! cursor with
  | _, None => Ok (chunks, functions s)
  | O, Some _ => Err (diagnostic artifact_too_large)
  | S fuel, Some chunk =>
      r ← append_functions s (chunk_functions chunk);
      w ← wire_chunk chunk r.1;
      walk fuel (S cursor) r.2 (chunks ++ [w])
  end.

Definition forest_size (cs : list Chunk) : nat :=
  foldr (λ c n, chunk_size c + n) 0 cs.

(** [WireProgram::from_image] *)
Definition from_image (abi : list byte) (root : Chunk) (entry : string) (kind : EntryKind)
    (expects_harness : bool) : result WireProgram :=
  r ← walk (chunk_size root) 0 (mkFlat [root] []) [];
  Ok (mkWireProgram abi entry kind expects_harness r.1 r.2 [] []).

(** [CompiledPortableModule]: what [from_package] reads of it. *)
Record CompiledPortableModule := mkCompiledPortableModule {
  cpm_id : string;
  cpm_imports : list PortableImport;
  cpm_init : option Chunk;
  cpm_functions : btree CompiledFunction;
  cpm_exports : btree PortableExportKind.PortableExportKind
}.

(** [modules.sort_by(|left, right| left.id.cmp(&right.id))], which is stable. *)
Fixpoint insert_module (m : CompiledPortableModule) (ms : list CompiledPortableModule)
    : list CompiledPortableModule :=
  match ms with
  | [] => [m]
  | m' :: ms' =>
      match String.compare (cpm_id m) (cpm_id m') with
      | Gt => m' :: insert_module m ms'
      | _ => m :: ms
      end
  end.

Definition sort_modules (ms : list CompiledPortableModule) : list CompiledPortableModule :=
  foldr insert_module [] ms.

Definition append_module (s : Flat * list WireModule) (m : CompiledPortableModule)
    : result (Flat * list WireModule) :=
  let flat := s.1 in
  init ← match cpm_init m with
         | Some chunk =>
             id ← u32_try_from (len (pending flat)) artifact_too_large;
             Ok (Some id, mkFlat (pending flat ++ [chunk]) (functions flat))
         | None => Ok (None, flat)
         end;
  r ← append_functions init.2 (BTree.values (cpm_functions m));
  Ok (r.2, s.2 ++ [mkWireModule (cpm_id m) (cpm_imports m) init.1
                     (BTree.from_entries (zip (BTree.keys (cpm_functions m)) r.1))
                     (cpm_exports m)]).

Definition package_size (root : Chunk) (ms : list CompiledPortableModule) : nat :=
  chunk_size root +
  foldr (λ m n, forest_size (match cpm_init m with Some c => [c] | None => [] end) +
                forest_size (map fn_chunk (BTree.values (cpm_functions m))) + n) 0 ms.

(** [WireProgram::from_package] *)
Definition from_package (abi : list byte) (root : Chunk) (modules : list CompiledPortableModule)
    (root_imports : list PortableImport) (entry : string) (kind : EntryKind)
    (expects_harness : bool) : result WireProgram :=
  s ← result_foldl append_module (mkFlat [root] [], []) (sort_modules modules);
  r ← walk (package_size root modules) 0 s.1 [];
  Ok (mkWireProgram abi entry kind expects_harness r.1 r.2 root_imports s.2).

(** ** Predicates on every chunk of a tree *)

Inductive tree_all (P : Chunk → Prop) : Chunk → Prop :=
  | tree_all_intro c :
      P c → (∀ f, f ∈ chunk_functions c → tree_all P (fn_chunk f)) → tree_all P c.

Lemma tree_all_here P c : tree_all P c → P c.
Proof. by destruct 1. Qed.

Lemma tree_all_child P c f : tree_all P c → f ∈ chunk_functions c → tree_all P (fn_chunk f).
Proof. destruct 1; auto. Qed.

(** The compiler's offsets fit the wire format's words. *)
Definition defaults_fit (c : Chunk) : Prop :=
  ∀ f n, f ∈ chunk_functions c → fn_default_start f = Some n → (n ≤ U32_MAX)%N.

(** ** Flattening *)

Section flatten.

(** Function [f] of chunk [i] is in the tables as [id]. *)
Definition listed (fns : list WireFunction) (pend : list Chunk) (i : nat)
    (id : N) (f : CompiledFunction) : Prop :=
  ∃ child, fns !! N.to_nat id = Some (from_compiled f child) ∧
    pend !! N.to_nat child = Some (fn_chunk f) ∧ i < N.to_nat child.

(** Chunk [i] is in the tables as [w]. *)
Definition described (fns : list WireFunction) (pend : list Chunk) (i : nat)
    (w : WireChunk) (c : Chunk) : Prop :=
  ∃ ids, wire_chunk c ids = Ok w ∧ Forall2 (listed fns pend i) ids (chunk_functions c).

Lemma listed_mono fns fns' pend pend' i id f :
  fns `prefix_of` fns' → pend `prefix_of` pend' →
  listed fns pend i id f → listed fns' pend' i id f.
Proof.
  intros Hf Hp (child & H1 & H2 & H3). exists child.
  split_and!; [by eapply prefix_lookup_Some|by eapply prefix_lookup_Some|done].
Qed.

Lemma described_mono fns fns' pend pend' i w c :
  fns `prefix_of` fns' → pend `prefix_of` pend' →
  described fns pend i w c → described fns' pend' i w c.
Proof.
  intros Hf Hp (ids & Hw & Hids). exists ids. split; [done|].
  eapply Forall2_impl; [exact Hids|]. intros. by eapply listed_mono.
Qed.

Lemma append_functions_spec i fs s ids s' :
  i < length (pending s) → append_functions s fs = Ok (ids, s') →
  pending s' = pending s ++ map fn_chunk fs ∧
  functions s `prefix_of` functions s' ∧
  Forall2 (listed (functions s') (pending s') i) ids fs.
Proof.
  intros Hi. revert s ids Hi. induction fs as [|f fs IH]; intros s ids Hi H; cbn in H; inv_result.
  - rewrite app_nil_r. split_and!; [done..|constructor].
  - unfold append_function, u32_try_from in E. inv_result. cbn in *.
    destruct a0 as [ids' s1]. cbn in *.
    apply IH in E0 as (Hp & Hf & Hall); cbn in *; [|rewrite length_app; lia].
    split_and!.
    + by rewrite Hp, <-app_assoc.
    + etrans; [|exact Hf]. by apply prefix_app_r.
    + constructor; [|done]. exists (len (pending s)). split_and!.
      * eapply prefix_lookup_Some; [|exact Hf]. unfold len. rewrite Nat2N.id.
        by apply list_lookup_middle.
      * rewrite Hp. unfold len. rewrite Nat2N.id, <-app_assoc. by apply list_lookup_middle.
      * unfold len. lia.
Qed.

(** The tables describe every queued chunk once the queue is empty. *)
Lemma walk_spec fuel s chunks cs fns :
  walk fuel (length chunks) s chunks = Ok (cs, fns) →
  length chunks ≤ length (pending s) →
  (∀ i c, pending s !! i = Some c → i < length chunks →
     ∃ w, chunks !! i = Some w ∧ described (functions s) (pending s) i w c) →
  ∃ pend, pending s `prefix_of` pend ∧ length cs = length pend ∧
    (∀ P, Forall (tree_all P) (pending s) → Forall (tree_all P) pend) ∧
    ∀ i c, pend !! i = Some c → ∃ w, cs !! i = Some w ∧ described fns pend i w c.
Proof.
  revert s chunks; induction fuel as [|fuel IH]; intros s chunks H Hle Hinv; cbn in H.
  all: destruct (pending s !! length chunks) as [chunk|] eqn:Ec; inv_result.
  all: try (apply lookup_ge_None_1 in Ec; exists (pending s); split_and!; [done|lia|done|];
            intros i c Hi; apply Hinv; [done|]; apply lookup_lt_Some in Hi; lia).
  destruct a as [ids s1]; cbn in *. pose proof (lookup_lt_Some _ _ _ Ec) as Hlt.
  apply (append_functions_spec (length chunks)) in E as (Hp & Hf & Hids); [|done].
  assert (pending s `prefix_of` pending s1) as Hpre by (rewrite Hp; by apply prefix_app_r).
  destruct (IH s1 (chunks ++ [a0])) as (pend & H1 & H2 & H3 & H4).
  - by rewrite length_app, Nat.add_1_r.
  - rewrite Hp, !length_app; cbn. lia.
  - intros i c Hi Hil. rewrite length_app in Hil; cbn in Hil.
    destruct (decide (i = length chunks)) as [->|Hne].
    + exists a0. split; [by apply list_lookup_middle|]. exists ids. split; [|].
      * eapply prefix_lookup_Some in Ec; [|exact Hpre]. by simplify_eq.
      * eapply prefix_lookup_Some in Ec; [|exact Hpre]. by simplify_eq.
    + assert (i < length chunks) as Hil' by lia.
      rewrite Hp, lookup_app_l in Hi by lia.
      destruct (Hinv i c Hi Hil') as (w & Hw & Hd). exists w.
      split; [by rewrite lookup_app_l|]. by eapply described_mono.
  - exists pend. split_and!; [by etrans|done| |done].
    intros P HP. apply H3. rewrite Hp. apply Forall_app. split; [done|].
    apply Forall_forall. intros c Hc. apply list_elem_of_fmap in Hc as (f & -> & Hin).
    rewrite Forall_forall in HP. eapply tree_all_child; [|exact Hin].
    apply HP. by eapply list_elem_of_lookup_2.
Qed.

Lemma forest_size_app a b : forest_size (a ++ b) = forest_size a + forest_size b.
Proof.
  unfold forest_size. induction a as [|x a IH]; cbn; [done|]. rewrite IH. lia.
Qed.

Lemma forest_size_cons c cs : forest_size (c :: cs) = chunk_size c + forest_size cs.
Proof. done. Qed.

Lemma chunk_size_eq c : chunk_size c = S (forest_size (map fn_chunk (chunk_functions c))).
Proof.
  destruct c as [? ? ? ? ? fs ? ? ?]; cbn. f_equal. unfold forest_size.
  induction fs as [|f fs IH]; cbn; [done|]. by rewrite IH.
Qed.

(** The fuel is enough: more does not change the result. *)
Lemma walk_fuel fuel k cursor s chunks :
  forest_size (drop cursor (pending s)) ≤ fuel →
  walk fuel cursor s chunks = walk (fuel + k) cursor s chunks.
Proof.
  revert cursor s chunks; induction fuel as [|fuel IH]; intros cursor s chunks H; cbn.
  - destruct (pending s !! cursor) as [c|] eqn:Ec.
    + rewrite (drop_S _ _ _ Ec), forest_size_cons, chunk_size_eq in H. lia.
    + destruct k; cbn; by rewrite Ec.
  - destruct (pending s !! cursor) as [c|] eqn:Ec; [|done].
    rewrite (drop_S _ _ _ Ec), forest_size_cons, chunk_size_eq in H.
    destruct (append_functions s (chunk_functions c)) as [[ids s1]|] eqn:Ea; cbn; [|done].
    destruct (wire_chunk c ids); cbn; [|done]. apply IH.
    apply lookup_lt_Some in Ec.
    apply (append_functions_spec cursor) in Ea as (Hp & _); [|done].
    rewrite Hp, drop_app_le by lia. rewrite forest_size_app. lia.
Qed.
End flatten.

(** ** Linking what was flattened *)

Lemma map_id_ext {A} (f : A → A) l : (∀ x, f x = x) → map f l = l.
Proof. intros Hf. induction l as [|x l IH]; cbn; [done|]. by rewrite Hf, IH. Qed.

Lemma link_flatten_function f child :
  (∀ n, fn_default_start f = Some n → (n ≤ U32_MAX)%N) →
  link_function (from_compiled f child) (fn_chunk f) = f.
Proof.
  destruct f as [n tp nm ps ds c g st rest ck]; cbn. intros Hds. unfold link_function; cbn.
  f_equal.
  - rewrite map_map. apply map_id_ext. by intros [].
  - destruct ds as [d|]; cbn; [|done]. f_equal. unfold as_u32. apply N.mod_small.
    specialize (Hds d eq_refl). unfold U32_MAX in Hds. lia.
Qed.

Lemma link_flatten_chunk c ids w :
  wire_chunk c ids = Ok w → wfunctions w = ids ∧ link_chunk w (chunk_functions c) = c.
Proof.
  unfold wire_chunk. destruct c as [code ks ls cols sf fs slots bs ro]; cbn. intros H. inv_result.
  split; [done|]. unfold link_chunk; cbn. f_equal.
  - apply result_map_Forall2 in E. induction E as [|s w sl wl Hs Hl IH]; cbn; [done|].
    rewrite IH. f_equal. unfold flatten_local, u32_try_from in Hs. inv_result. by destruct s.
  - rewrite map_map. apply map_id_ext. by intros [].
Qed.

Section link.
Context (p : WireProgram) (pend : list Chunk).
Hypothesis Hlen : length (wprog_chunks p) = length pend.
Hypothesis Hdesc : ∀ i c, pend !! i = Some c →
  ∃ w, wprog_chunks p !! i = Some w ∧ described (wprog_functions p) pend i w c.
Hypothesis Hfit : Forall (tree_all defaults_fit) pend.

(** Chunks from [i] on are built; those before are not. *)
Definition built_from (i : nat) : list (option Chunk) :=
  replicate i None ++ map Some (drop i pend).

Lemma built_from_lookup i j c : i ≤ j → pend !! j = Some c → built_from i !! j = Some (Some c).
Proof.
  intros Hij Hj. unfold built_from. rewrite lookup_app_r by (rewrite length_replicate; lia).
  rewrite length_replicate, list_lookup_fmap, lookup_drop.
  replace (i + (j - i)) with j by lia. by rewrite Hj.
Qed.

Lemma build_functions_flatten i ids fs :
  Forall2 (listed (wprog_functions p) pend i) ids fs →
  (∀ f n, f ∈ fs → fn_default_start f = Some n → (n ≤ U32_MAX)%N) →
  result_map (build_function p (built_from (S i)) i) ids = Ok fs.
Proof.
  intros H Hfs. apply result_map_Forall2.
  induction H as [|id f ids fs (child & H1 & H2 & H3) Hids IH]; constructor.
  - unfold build_function. rewrite H1. cbn -[Nat.leb built_from lookup].
    pose proof (lookup_lt_Some _ _ _ H2) as Hlt. unfold reject_if.
    destruct (Nat.leb_spec (N.to_nat child) i); [lia|].
    destruct (Nat.leb_spec (length (wprog_chunks p)) (N.to_nat child)); [lia|]. cbn -[built_from lookup].
    rewrite (built_from_lookup _ _ _ H3 H2). cbn. f_equal. apply link_flatten_function.
    intros n. apply Hfs. by left.
  - apply IH. intros g n Hg. apply Hfs. by right.
Qed.

Lemma build_chunk_flatten i :
  i < length pend → build_chunk p (built_from (S i)) i = Ok (built_from i).
Proof.
  intros Hi. destruct (lookup_lt_is_Some_2 _ _ Hi) as [c Hc].
  destruct (Hdesc i c Hc) as (w & Hw & ids & Hwire & Hids).
  apply link_flatten_chunk in Hwire as [<- Hlink].
  unfold build_chunk. rewrite Hw. cbn -[built_from].
  rewrite (build_functions_flatten _ _ _ Hids); cbn -[built_from replicate].
  - rewrite Hlink. f_equal. unfold built_from. rewrite (drop_S _ _ _ Hc). cbn [map list_fmap fmap].
    rewrite replicate_S_end, <-app_assoc. cbn.
    rewrite insert_app_r_alt by (rewrite length_replicate; lia).
    by rewrite length_replicate, Nat.sub_diag.
  - rewrite Forall_forall in Hfit. pose proof (tree_all_here _ _ (Hfit c (list_elem_of_lookup_2 _ _ _ Hc))) as Hd.
    exact Hd.
Qed.

Lemma build_chunks_flatten : build_chunks p = Ok (map Some pend).
Proof.
  unfold build_chunks. rewrite Hlen.
  assert (∀ i, i ≤ length pend →
    result_foldl (build_chunk p) (built_from i) (rev (seq 0 i)) = Ok (built_from 0)) as H.
  { induction i as [|i IH]; intros Hi; [done|].
    rewrite seq_S, rev_app_distr. cbn [rev app result_foldl].
    change (0 + i) with i. rewrite build_chunk_flatten by lia. apply IH. lia. }
  specialize (H (length pend) ltac:(lia)). unfold built_from in H at 1.
  rewrite drop_all, app_nil_r in H. rewrite H. unfold built_from. by rewrite drop_0.
Qed.
End link.

Lemma link_flatten_eq abi root entry kind expects_harness p limits :
  from_image abi root entry kind expects_harness = Ok p →
  tree_all defaults_fit root →
  validate_and_build p abi limits =
    (_ ← validate_metadata p limits;
     _ ← validate_counts p limits;
     _ ← result_foldl (λ _ w, validate_chunk (length (wprog_functions p)) w) tt (wprog_chunks p);
     Ok (mkBuiltProgram root [] [])).
Proof.
  unfold from_image. intros H Hfit. inv_result. destruct a as [cs fns]; cbn in *.
  destruct (walk_spec (chunk_size root) (mkFlat [root] []) [] cs fns E)
    as (pend & Hpre & Hlen & HP & Hdesc); cbn; [lia|intros; lia|].
  unfold validate_and_build.
  rewrite (build_chunks_flatten (mkWireProgram abi entry kind expects_harness cs fns [] []) pend);
    [|exact Hlen|exact Hdesc|apply HP; by constructor].
  unfold mbind, result_bind. rewrite bool_decide_eq_true_2 by done. cbn [negb reject_if].
  destruct (validate_metadata _ _); [|done]. destruct (validate_counts _ _); [|done].
  cbn [wprog_chunks wprog_functions wprog_modules wprog_root_imports].
  destruct (result_foldl _ _ _); [|done].
  by rewrite list_lookup_fmap, (prefix_lookup_Some [root] pend 0 root eq_refl Hpre).
Qed.

Lemma link_flatten_build abi root entry kind expects_harness p limits b :
  from_image abi root entry kind expects_harness = Ok p →
  tree_all defaults_fit root →
  validate_and_build p abi limits = Ok b → b = mkBuiltProgram root [] [].
Proof.
  intros Hp Hfit Hb. rewrite (link_flatten_eq _ _ _ _ _ _ _ Hp Hfit) in Hb. by inv_result.
Qed.

(** Flattening a compiled chunk tree into a wire program and building it
    again gives the tree back. The graph phase of [validate_and_build] never
    fails on such a program: what remains of it is the metadata and code checks,
    and their success returns exactly the tree that was flattened. *)
Theorem link_flatten (abi : list byte) (root : Chunk) (entry : string) (kind : EntryKind)
    (expects_harness : bool) (p : WireProgram) (limits : ArtifactLimits) :
  from_image abi root entry kind expects_harness = Ok p →
  tree_all defaults_fit root →
  validate_and_build p abi limits =
    (_ ← validate_metadata p limits;
     _ ← validate_counts p limits;
     _ ← result_foldl (λ _ w, validate_chunk (length (wprog_functions p)) w) tt (wprog_chunks p);
     Ok (mkBuiltProgram root [] [])).
Proof. apply link_flatten_eq. Qed.

(** ** What is built has been checked *)

Definition chunk_tables (c : Chunk) : CodeTables :=
  mkCodeTables (chunk_constants c) (length (chunk_functions c)) (length (chunk_local_slots c))
    (length (chunk_binding_types c)).

(** The code is verified against the chunk's own tables, and has source maps. *)
Record chunk_checked (c : Chunk) : Prop := {
  checked_code : verified (chunk_code c) (chunk_tables c);
  checked_lines : length (chunk_lines c) = length (chunk_code c);
  checked_columns : length (chunk_columns c) = length (chunk_code c)
}.

Section checked.
Context (p : WireProgram).
Hypothesis Hchunks : Forall (λ w, validate_chunk (length (wprog_functions p)) w = Ok tt)
  (wprog_chunks p).

Definition built_ok (built : list (option Chunk)) : Prop :=
  ∀ i c, built !! i = Some (Some c) → tree_all chunk_checked c.

Lemma built_lookup_ok built i c :
  built_ok built → (built !! i ≫= λ c, c) = Some c → tree_all chunk_checked c.
Proof.
  intros Hb H. destruct (built !! i) as [[c'|]|] eqn:E; simplify_option_eq. by eapply Hb.
Qed.

Lemma build_function_checked built i id f :
  built_ok built → build_function p built i id = Ok f → tree_all chunk_checked (fn_chunk f).
Proof. intros Hb H. unfold build_function in H. inv_result. by eapply built_lookup_ok; [|eassumption]. Qed.

Lemma link_chunk_checked w fs :
  validate_chunk (length (wprog_functions p)) w = Ok tt → length fs = length (wfunctions w) →
  chunk_checked (link_chunk w fs).
Proof.
  unfold validate_chunk. intros H Hfs. inv_result. reflect_bools.
  repeat match goal with H : negb (_ =? _)%nat = false |- _ => apply negb_false_iff, Nat.eqb_eq in H end.
  split; cbn; [|done|done].
  match goal with H : validate_code _ _ = Ok ?u |- _ =>
    destruct u; apply validate_code_verified in H; rename H into Hv end.
  unfold chunk_tables; cbn. rewrite !length_map, Hfs. exact Hv.
Qed.

Lemma build_chunk_checked built i built' :
  built_ok built → build_chunk p built i = Ok built' → built_ok built'.
Proof.
  unfold build_chunk. intros Hb H. inv_result. intros j c Hj.
  destruct (decide (i = j)) as [->|Hne]; [|rewrite list_lookup_insert_ne in Hj by done; by eapply Hb].
  destruct (decide (j < length built)).
  2: { rewrite list_insert_ge in Hj by lia. by eapply Hb. }
  rewrite list_lookup_insert_eq in Hj by done. injection Hj as <-.
  constructor.
  - apply link_chunk_checked; [|by eapply result_map_length].
    rewrite Forall_lookup in Hchunks. by eapply Hchunks.
  - cbn. intros f Hf. apply result_map_Forall2 in E0.
    apply list_elem_of_lookup in Hf as [k Hk].
    destruct (Forall2_lookup_r _ _ _ _ _ E0 Hk) as (id & _ & Hid).
    by eapply build_function_checked.
Qed.

Lemma build_chunks_checked built : build_chunks p = Ok built → built_ok built.
Proof.
  unfold build_chunks. generalize (rev (seq 0 (length (wprog_chunks p)))). intros is_.
  assert (built_ok (replicate (length (wprog_chunks p)) None)) as H0.
  { intros i c Hi. by apply lookup_replicate in Hi as [? _]. }
  revert H0. generalize (replicate (length (wprog_chunks p)) (@None Chunk)).
  induction is_ as [|i is_ IH]; intros b0 H0 H; cbn in H; inv_result; [done|].
  eapply IH; [|exact H]. by eapply build_chunk_checked.
Qed.

Definition module_ok (m : BuiltModule) : Prop :=
  (∀ c, built_init m = Some c → tree_all chunk_checked c) ∧
  Forall (λ e, tree_all chunk_checked (fn_chunk e.2)) (built_functions m).

Lemma from_entries_Forall {V} (P : V → Prop) (m es : list (string * V)) :
  Forall (λ e, P e.2) m → Forall (λ e, P e.2) es → Forall (λ e, P e.2) (BTree.extend m es).
Proof.
  revert m; induction es as [|[k v] es IH]; intros m Hm Hes; cbn; [done|].
  apply Forall_cons in Hes as [Hv Hes]. apply IH; [|done]. clear IH Hes. cbn in *.
  induction Hm as [|[k' v'] m Hv' Hm IHm]; cbn; [by repeat constructor|].
  destruct (String.compare k k'); repeat constructor; done.
Qed.

Lemma build_modules_checked built s ms s' :
  built_ok built → Forall module_ok s.1 →
  result_foldl (build_module p built) s ms = Ok s' → Forall module_ok s'.1.
Proof.
  intros Hb. revert s; induction ms as [|m ms IH]; intros s Hs H; cbn [result_foldl] in H; inv_result;
    [done|]. eapply IH; [|exact H]. clear IH H. unfold build_module in E. inv_result. cbn.
  apply Forall_app. split; [done|]. constructor; [|done]. split; cbn.
  - intros c ->. destruct (wmod_init m); inv_result; [|done].
    by eapply built_lookup_ok; [|eassumption].
  - apply (from_entries_Forall (λ f, tree_all chunk_checked (fn_chunk f)) []); [done|]. apply result_map_Forall2 in E2.
    apply Forall_forall. intros [n f] Hf. apply list_elem_of_lookup in Hf as [k Hk].
    destruct (Forall2_lookup_r _ _ _ _ _ E2 Hk) as (e & _ & He).
    unfold build_module_function in He. inv_result. cbn. by eapply built_lookup_ok; [|eassumption].
Qed.

Lemma built_ok_take built : built_ok built → built_ok (<[0 := None]> built).
Proof.
  intros Hb i c Hi. destruct i as [|i]; [by destruct built|].
  rewrite list_lookup_insert_ne in Hi by done. by eapply Hb.
Qed.
End checked.

Lemma result_foldl_unit {A} (f : A → result unit) l :
  result_foldl (λ _ x, f x) tt l = Ok tt → Forall (λ x, f x = Ok tt) l.
Proof.
  induction l as [|x l IH]; cbn; intros H; inv_result; [done|]. destruct a. constructor; auto.
Qed.

Lemma validate_and_build_tree p abi limits b :
  validate_and_build p abi limits = Ok b →
  tree_all chunk_checked (built_root b) ∧ Forall module_ok (built_modules b).
Proof.
  unfold validate_and_build. intros H. inv_result. cbn.
  match goal with H : result_foldl (λ _ _, validate_chunk _ _) ?u _ = Ok ?v |- _ =>
    destruct v; apply result_foldl_unit in H; rename H into Hc end.
  match goal with H : build_chunks _ = Ok _ |- _ => apply (build_chunks_checked _ Hc) in H end.
  split; [by eapply built_lookup_ok; [|eassumption]|].
  by eapply build_modules_checked; [apply built_ok_take| |eassumption].
Qed.

(** C12: an accepted artifact contains only verified code: the root chunk, every
    module initialiser and every module function that [validate_and_build]
    returns has, at every depth of nesting, code the verifier accepted against
    that very chunk's tables, and a source position for every byte. *)
Theorem validate_and_build_checked (p : WireProgram) (abi : list byte)
    (limits : ArtifactLimits) (b : BuiltProgram) :
  validate_and_build p abi limits = Ok b →
  tree_all chunk_checked (built_root b) ∧ Forall module_ok (built_modules b).
Proof. apply validate_and_build_tree. Qed.

(** ** A chunk tree to try it on *)

(** [fn main(x = nil) { .. }], and the bootstrap that returns its closure. *)
Definition sample_main : Chunk :=
  mkChunk [n2b 1; n2b 32] [] [1; 1]%N [3; 3]%N None [] [mkLocalSlotInfo "x" false 0] [] false.

Definition sample_root : Chunk :=
  mkChunk [n2b 33; n2b 0; n2b 0; n2b 32] [Constant.Int 5] [1; 1; 1; 1]%N [1; 1; 1; 1]%N
    (Some "a.harn"%string)
    [mkCompiledFunction "main" [] [] [mkParamSlot "x" None true] (Some 0%N) sample_main
       false false false false]
    [] [] true.

Definition sample_image : WireProgram :=
  match from_image [n2b 9] sample_root "main" EntryFunction false with
  | Ok p => p
  | Err _ => mkWireProgram [] "" EntryFunction false [] [] [] []
  end.

Lemma sample_root_fits : tree_all defaults_fit sample_root.
Proof.
  constructor.
  - intros f n Hf. apply list_elem_of_singleton in Hf as ->. by intros [= <-].
  - intros f Hf. apply list_elem_of_singleton in Hf as ->. cbn.
    constructor; [intros f n Hf|intros f Hf]; by apply not_elem_of_nil in Hf.
Qed.

Lemma link_flatten_witness :
  validate_and_build sample_image [n2b 9] default_limits = Ok (mkBuiltProgram sample_root [] []).
Proof.
  rewrite (link_flatten [n2b 9] sample_root "main" EntryFunction false sample_image default_limits).
  - vm_compute. reflexivity.
  - vm_compute. reflexivity.
  - exact sample_root_fits.
Defined.

Lemma validate_and_build_checked_witness :
  tree_all chunk_checked (built_root (mkBuiltProgram sample_root [] [])) ∧
  Forall module_ok (built_modules (mkBuiltProgram sample_root [] [])).
Proof.
  apply (validate_and_build_checked sample_image [n2b 9] default_limits).
  vm_compute. reflexivity.
Defined.
