(* ===== verification/Artifact.v ===== *)
(** * The artifact container ([artifact.rs])

    A 48-byte header (magic, version, flags, payload length, payload digest)
    and the wire payload. [blake3::hash] and the semantic ABI fingerprint, which
    is a hash over the opcode table and the capability registry, are parameters. *)

From S2P Require Import Prelude BTree Program Budget Writer Reader Codec Verifier Metadata Linker.

Definition MAGIC : list byte := as_bytes "HARNPK01".
Definition ARTIFACT_VERSION : N := 5.
Definition HEADER_BYTES : N := 8 + 2 + 2 + 4 + 32.

Record ProgramArtifact := mkProgramArtifact {
  art_bytes : list byte;
  art_digest : list byte;
  art_image : Chunk;
  art_entry : string;
  art_entry_kind : EntryKind;
  art_expects_harness : bool;
  art_root_imports : list PortableImport;
  art_modules : list BuiltModule
}.

(** [&bytes[from..from + n]] *)
Definition bytes_at (from n : nat) (bytes : list byte) : list byte := take n (drop from bytes).

Section artifact.
Context (blake3 : list byte → list byte) (abi : list byte).

(** [ProgramArtifact::decode] *)
Definition decode (bytes : list byte) (limits : ArtifactLimits) : result ProgramArtifact :=
  _ ← reject_if (max_bytes limits <? len bytes)%N artifact_too_large;
  _ ← reject_if (len bytes <? HEADER_BYTES)%N artifact_truncated;
  _ ← reject_if (negb (bytes_eqb (bytes_at 0 8 bytes) MAGIC)) artifact_magic;
  let version := from_be_bytes (bytes_at 8 2 bytes) in
  _ ← reject_if (negb (version =? ARTIFACT_VERSION)%N) artifact_version;
  let flags := from_be_bytes (bytes_at 10 2 bytes) in
  _ ← reject_if (negb (flags =? 0)%N) artifact_features;
  let payload_len := from_be_bytes (bytes_at 12 4 bytes) in
  total ← ok_or (checked_add_usize HEADER_BYTES payload_len) artifact_too_large;
  _ ← reject_if (negb (total =? len bytes)%N)
        (if (len bytes <? total)%N then artifact_truncated else artifact_trailing_bytes);
  let expected_digest := bytes_at 16 32 bytes in
  let payload := drop 48 bytes in
  let digest := blake3 payload in
  _ ← reject_if (negb (bytes_eqb digest expected_digest)) artifact_corrupt;
  wire ← read_program abi payload limits;
  built ← validate_and_build wire abi limits;
  Ok (mkProgramArtifact bytes digest (built_root built) (wprog_entry wire)
        (wprog_entry_kind wire) (wprog_expects_harness wire) (built_root_imports built)
        (built_modules built)).

(** The bytes [encode_artifact_payload] assembles. *)
Definition frame (payload : list byte) : list byte :=
  MAGIC ++ be_bytes 2 ARTIFACT_VERSION ++ be_bytes 2 0 ++ be_bytes 4 (len payload) ++
  blake3 payload ++ payload.

(** [encode_artifact_payload] *)
Definition encode_artifact_payload (payload : list byte) : result ProgramArtifact :=
  _ ← reject_if (U32_MAX <? len payload)%N artifact_too_large;
  decode (frame payload) default_limits.

(** The end of [compile_program]: [root] is the compiled bootstrap chunk. *)
Definition assemble_program (root : Chunk) (entry : string) (kind : EntryKind)
    (expects_harness : bool) : result ProgramArtifact :=
  wire ← from_image abi root entry kind expects_harness;
  _ ← validate_metadata wire default_limits;
  payload ← encode_wire_program wire;
  encode_artifact_payload payload.

(** The end of [compile_program_package]. *)
Definition assemble_package (root : Chunk) (modules : list CompiledPortableModule)
    (root_imports : list PortableImport) (entry : string) (kind : EntryKind)
    (expects_harness : bool) : result ProgramArtifact :=
  wire ← from_package abi root modules root_imports entry kind expects_harness;
  _ ← validate_metadata wire default_limits;
  payload ← encode_wire_program wire;
  encode_artifact_payload payload.

(** *** Frames *)

Hypothesis blake3_length : ∀ bs, length (blake3 bs) = 32.

Lemma bytes_eqb_eq a b : bytes_eqb a b = true ↔ a = b.
Proof.
  unfold bytes_eqb. rewrite bool_decide_eq_true. split; [|by intros ->].
  revert b; induction a as [|x a IH]; intros [|y b]; cbn; try done.
  intros [= Hxy Hab]. f_equal; [by apply b2n_inj|by apply IH].
Qed.

Lemma magic_length : length MAGIC = 8.
Proof. done. Qed.

Lemma frame_length payload : len (frame payload) = (HEADER_BYTES + len payload)%N.
Proof.
  unfold frame, len. rewrite !length_app, !be_bytes_length, blake3_length, magic_length.
  change HEADER_BYTES with 48%N. lia.
Qed.

Lemma bytes_at_app n (xs ys : list byte) : length xs = n → bytes_at 0 n (xs ++ ys) = xs.
Proof. intros <-. unfold bytes_at. by rewrite drop_0, take_app_length. Qed.

Lemma bytes_at_skip m n (xs ys : list byte) :
  length xs ≤ m → bytes_at m n (xs ++ ys) = bytes_at (m - length xs) n ys.
Proof. intros H. unfold bytes_at. by rewrite drop_app_ge. Qed.

(** The header fields are where [decode] looks for them. *)
Lemma frame_fields payload :
  (len payload ≤ U32_MAX)%N →
  bytes_at 0 8 (frame payload) = MAGIC ∧
  from_be_bytes (bytes_at 8 2 (frame payload)) = ARTIFACT_VERSION ∧
  from_be_bytes (bytes_at 10 2 (frame payload)) = 0%N ∧
  from_be_bytes (bytes_at 12 4 (frame payload)) = len payload ∧
  bytes_at 16 32 (frame payload) = blake3 payload ∧
  drop 48 (frame payload) = payload.
Proof.
  intros Hlen. unfold frame.
  repeat match goal with |- _ ∧ _ => split end.
  - by apply bytes_at_app.
  - by rewrite bytes_at_skip, bytes_at_app by (cbn; lia).
  - rewrite !bytes_at_skip by (cbn; lia). by rewrite bytes_at_app.
  - rewrite !bytes_at_skip by (rewrite ?be_bytes_length; cbn; lia).
    rewrite bytes_at_app by (rewrite be_bytes_length; cbn; lia).
    rewrite from_be_be_bytes. apply N.mod_small. unfold U32_MAX in Hlen.
    change (256 ^ N.of_nat 4)%N with 4294967296%N. lia.
  - rewrite !bytes_at_skip by (rewrite ?be_bytes_length; cbn; lia).
    apply bytes_at_app, blake3_length.
  - set (header := MAGIC ++ be_bytes 2 ARTIFACT_VERSION ++ be_bytes 2 0 ++
      be_bytes 4 (len payload) ++ blake3 payload).
    assert (length header = 48) as H48.
    { unfold header. by rewrite !length_app, !be_bytes_length, blake3_length. }
    transitivity (drop (length header) (header ++ payload)); [|apply drop_app_length].
    rewrite H48. unfold header. by rewrite <-!app_assoc.
Qed.

Lemma be_bytes_eq n bs v :
  length bs = n → from_be_bytes bs = v → bs = be_bytes n v.
Proof. intros <- <-. by rewrite be_bytes_from_be. Qed.

Lemma bytes_at_length m n (bs : list byte) : m + n ≤ length bs → length (bytes_at m n bs) = n.
Proof. intros H. unfold bytes_at. rewrite length_take, length_drop. lia. Qed.

Lemma bytes_at_split m n (bs : list byte) : drop m bs = bytes_at m n bs ++ drop (m + n) bs.
Proof. unfold bytes_at. by rewrite <-drop_drop, take_drop. Qed.

(** Bytes with these fields are a frame. *)
Lemma fields_frame bytes :
  48 ≤ length bytes → bytes_at 0 8 bytes = MAGIC →
  from_be_bytes (bytes_at 8 2 bytes) = ARTIFACT_VERSION →
  from_be_bytes (bytes_at 10 2 bytes) = 0%N →
  from_be_bytes (bytes_at 12 4 bytes) = len (drop 48 bytes) →
  bytes_at 16 32 bytes = blake3 (drop 48 bytes) →
  bytes = frame (drop 48 bytes).
Proof.
  intros Hlen Hm Hv Hf Hl Hd. unfold frame.
  rewrite <-Hm, <-Hd.
  rewrite <-(be_bytes_eq 2 _ _ (bytes_at_length 8 2 bytes ltac:(lia)) Hv).
  rewrite <-(be_bytes_eq 2 _ _ (bytes_at_length 10 2 bytes ltac:(lia)) Hf).
  rewrite <-(be_bytes_eq 4 _ _ (bytes_at_length 12 4 bytes ltac:(lia)) Hl).
  change (drop 48 bytes) with (drop (16 + 32) bytes).
  rewrite <-(bytes_at_split 16 32), <-(bytes_at_split 12 4), <-(bytes_at_split 10 2),
    <-(bytes_at_split 8 2).
  by rewrite <-(bytes_at_split 0 8), drop_0.
Qed.

(** The specification: what a decoded artifact is of its bytes. *)
Definition artifact_of (payload : list byte) (limits : ArtifactLimits) (a : ProgramArtifact)
    : Prop :=
  ∃ wire built,
    read_program abi payload limits = Ok wire ∧
    validate_and_build wire abi limits = Ok built ∧
    a = mkProgramArtifact (frame payload) (blake3 payload) (built_root built)
          (wprog_entry wire) (wprog_entry_kind wire) (wprog_expects_harness wire)
          (built_root_imports built) (built_modules built).

Lemma decode_frame_inv bytes limits a :
  decode bytes limits = Ok a →
  ∃ payload, bytes = frame payload ∧ (len payload ≤ U32_MAX)%N ∧
    (len bytes ≤ max_bytes limits)%N ∧ artifact_of payload limits a.
Proof.
  unfold decode. intros H. inv_result. reflect_bools.
  repeat match goal with H : negb _ = false |- _ => apply negb_false_iff in H end.
  reflect_bools. repeat match goal with H : bytes_eqb _ _ = true |- _ => apply bytes_eqb_eq in H end.
  unfold checked_add_usize in *.
  match goal with H : (if ?b then Some _ else None) = Some _ |- _ =>
    destruct b; [injection H as <-|discriminate H] end.
  unfold len, HEADER_BYTES in *.
  assert (bytes = frame (drop 48 bytes)) as Hframe.
  { apply fields_frame; unfold len; rewrite ?length_drop; try done; try lia. }
  exists (drop 48 bytes). split_and!; [done| |lia|].
  - rewrite length_drop. pose proof (from_be_bytes_lt (bytes_at 12 4 bytes)) as Hlt.
    unfold len in Hlt. rewrite (bytes_at_length 12 4) in Hlt by lia.
    change (256 ^ N.of_nat 4)%N with 4294967296%N in Hlt. unfold U32_MAX. lia.
  - eexists _, _. split_and!; [eassumption..|]. by rewrite <-Hframe.
Qed.

Lemma decode_frame payload limits :
  (len payload ≤ U32_MAX)%N → (HEADER_BYTES + len payload ≤ max_bytes limits)%N →
  decode (frame payload) limits =
    (wire ← read_program abi payload limits;
     built ← validate_and_build wire abi limits;
     Ok (mkProgramArtifact (frame payload) (blake3 payload) (built_root built)
           (wprog_entry wire) (wprog_entry_kind wire) (wprog_expects_harness wire)
           (built_root_imports built) (built_modules built))).
Proof.
  intros H32 Hmax. destruct (frame_fields payload H32) as (Hm & Hv & Hf & Hl & Hd & Hp).
  unfold decode, reject_if. rewrite Hm, Hv, Hf, Hl, Hd, Hp, frame_length.
  rewrite !(proj2 (bytes_eqb_eq _ _) eq_refl). rewrite !N.eqb_refl.
  destruct (N.ltb_spec (max_bytes limits) (HEADER_BYTES + len payload)); [lia|].
  destruct (N.ltb_spec (HEADER_BYTES + len payload) HEADER_BYTES); [lia|].
  unfold checked_add_usize, ok_or.
  destruct (N.leb_spec (HEADER_BYTES + len payload) USIZE_MAX) as [|Hbig].
  2: { unfold USIZE_MAX, HEADER_BYTES, U32_MAX in *. lia. }
  unfold mbind, result_bind. cbn [negb]. by rewrite N.eqb_refl.
Qed.
End artifact.

(** ** The theorems *)

(** C9: assembling a compiled program into an artifact and decoding the bytes
    gives the compiled chunk tree, the entry and its kind back: no step of
    flattening, encoding, framing, reading, checking and linking loses or
    changes anything. *)
Theorem assemble_program_image (blake3 : list byte → list byte) (abi : list byte)
    (root : Chunk) (entry : string) (kind : EntryKind) (expects_harness : bool)
    (a : ProgramArtifact) :
  (∀ bs, length (blake3 bs) = 32) →
  tree_all defaults_fit root →
  (∀ p, from_image abi root entry kind expects_harness = Ok p →
     program_wf default_limits abi p ∧ within (use_program p) default_limits) →
  assemble_program blake3 abi root entry kind expects_harness = Ok a →
  art_image a = root ∧ art_entry a = entry ∧ art_entry_kind a = kind ∧
  art_expects_harness a = expects_harness ∧ art_modules a = [] ∧
  decode blake3 abi (art_bytes a) default_limits = Ok a.
Proof.
  intros Hb Hfit Hwf H. unfold assemble_program in H. inv_result.
  rename a0 into p, a2 into payload. destruct (Hwf p eq_refl) as [Hp Hu].
  unfold encode_artifact_payload in H. inv_result. reflect_bools. pose proof H as Hdec.
  assert (Hmax : (HEADER_BYTES + len payload ≤ max_bytes default_limits)%N).
  { apply (decode_frame_inv blake3 abi) in H as (q & Hq & _ & Hle & _).
    by rewrite frame_length in Hle. }
  rewrite (decode_frame blake3 abi Hb) in H by done.
  rewrite (read_program_payload default_limits default_limits_wf abi p payload) in H;
    [|done|done|done|].
  2: { unfold U32_MAX, USIZE_MAX in *. lia. }
  cbn [mbind result_bind] in H. destruct (validate_and_build p abi default_limits) as [b|] eqn:Eb;
    cbn [mbind result_bind] in H; [|discriminate H]. injection H as <-.
  pose proof (link_flatten_build abi root entry kind expects_harness p default_limits b E Hfit Eb) as ->.
  assert (wprog_entry p = entry ∧ wprog_entry_kind p = kind ∧
    wprog_expects_harness p = expects_harness) as (<- & <- & <-).
  { unfold from_image in E. inv_result. done. }
  done.
Qed.

(** C10: whatever [decode] accepts is exactly a frame: the magic, version 5, no
    feature bits, the payload's length, its digest, the payload and nothing
    else, within the byte limit; and the artifact is what reading and linking
    that payload gives. A change of any byte of the header or of the payload
    that keeps the digest field is rejected unless the digests collide. *)
Theorem decode_sound (blake3 : list byte → list byte) (abi bytes : list byte)
    (limits : ArtifactLimits) (a : ProgramArtifact) :
  decode blake3 abi bytes limits = Ok a →
  ∃ payload, bytes = frame blake3 payload ∧ (len payload ≤ U32_MAX)%N ∧
    (len bytes ≤ max_bytes limits)%N ∧ artifact_of blake3 abi payload limits a.
Proof. apply decode_frame_inv. Qed.

(** A digest function to try them with. *)
Definition sample_blake3 (bs : list byte) : list byte :=
  repeat (n2b (foldl (λ acc b, acc + b2n b) 0 bs)%N) 32.

Definition sample_artifact_image : WireProgram :=
  match from_image sample_abi sample_root "main" EntryFunction false with
  | Ok p => p
  | Err _ => sample_wire
  end.

Definition sample_artifact : ProgramArtifact :=
  match assemble_program sample_blake3 sample_abi sample_root "main" EntryFunction false with
  | Ok a => a
  | Err _ => mkProgramArtifact [] [] sample_main "" EntryPipeline true [] []
  end.

Lemma sample_artifact_image_wf :
  program_wf default_limits sample_abi sample_artifact_image ∧
  within (use_program sample_artifact_image) default_limits.
Proof. split; [wire_wf|vm_compute; repeat split; discriminate]. Qed.

Lemma assemble_program_image_witness :
  art_image sample_artifact = sample_root ∧
  decode sample_blake3 sample_abi (art_bytes sample_artifact) default_limits = Ok sample_artifact.
Proof.
  assert (from_image sample_abi sample_root "main" EntryFunction false =
    Ok sample_artifact_image) as Himage by (vm_compute; reflexivity).
  destruct (assemble_program_image sample_blake3 sample_abi sample_root "main" EntryFunction false
    sample_artifact) as (? & _ & _ & _ & _ & ?).
  - intros bs. apply repeat_length.
  - exact sample_root_fits.
  - intros p Hp. rewrite Himage in Hp. injection Hp as <-. exact sample_artifact_image_wf.
  - vm_compute. reflexivity.
  - split; assumption.
Defined.

Lemma decode_sound_witness :
  ∃ payload, art_bytes sample_artifact = frame sample_blake3 payload ∧
    (len payload ≤ U32_MAX)%N ∧
    (len (art_bytes sample_artifact) ≤ max_bytes default_limits)%N ∧
    artifact_of sample_blake3 sample_abi payload default_limits sample_artifact.
Proof.
  apply (decode_sound sample_blake3 sample_abi (art_bytes sample_artifact) default_limits).
  vm_compute. reflexivity.
Defined.
