(* ===== verification/Float64.v ===== *)
(** * [f64] arithmetic on bit patterns

    An [f64] is the 64-bit pattern of an IEEE 754 binary64. The operations
    decode it, compute with the Standard Library's [SpecFloat] (round to nearest,
    ties to even) and encode the result. A computed NaN is the positive quiet
    one; Rust leaves its bits unspecified, and no operation of the kernel
    distinguishes NaNs. [powf] and [powi], whose precision Rust leaves
    unspecified, and the shortest-decimal [Display] are the class [FloatLib]. *)

From Stdlib Require Import Floats.SpecFloat.
From S2P Require Import Prelude Program.

(** What the kernel takes from the platform's math library and from [core::fmt]. *)
Class FloatLib := {
  f64_powf : f64 → f64 → f64;
  f64_powi : f64 → Z → f64;
  f64_to_string : f64 → string
}.

Definition f64_view (bits : f64) : spec_float :=
  let s := N.testbit bits 63 in
  let e := ((bits / 4503599627370496) mod 2048)%N in
  let m := (bits mod 4503599627370496)%N in
  if (e =? 2047)%N then (if (m =? 0)%N then S754_infinity s else S754_nan)
  else if (e =? 0)%N then
    match m with N0 => S754_zero s | Npos p => S754_finite s p (-1074) end
  else
    match (m + 4503599627370496)%N with
    | Npos p => S754_finite s p (Z.of_N e - 1075)
    | N0 => S754_nan
    end.

Definition sign_bit (s : bool) : N := (if s then 9223372036854775808 else 0)%N.
Definition f64_nan : f64 := 9221120237041090560%N.

Definition f64_bits (x : spec_float) : f64 :=
  match x with
  | S754_zero s => sign_bit s
  | S754_infinity s => sign_bit s + 9218868437227405312
  | S754_nan => f64_nan
  | S754_finite s m e =>
      if (Npos m <? 4503599627370496)%N then sign_bit s + Npos m
      else sign_bit s + Z.to_N (e + 1075) * 4503599627370496 + (Npos m - 4503599627370496)
  end%N.

Definition f64_add (a b : f64) : f64 := f64_bits (SFadd 53 1024 (f64_view a) (f64_view b)).
Definition f64_sub (a b : f64) : f64 := f64_bits (SFsub 53 1024 (f64_view a) (f64_view b)).
Definition f64_mul (a b : f64) : f64 := f64_bits (SFmul 53 1024 (f64_view a) (f64_view b)).
Definition f64_div (a b : f64) : f64 := f64_bits (SFdiv 53 1024 (f64_view a) (f64_view b)).
Definition f64_neg (a : f64) : f64 := N.lxor a 9223372036854775808%N.

(** [a % b]: truncated, exact, with the sign of [a]. *)
Definition f64_rem (a b : f64) : f64 :=
  match f64_view a, f64_view b with
  | S754_nan, _ | _, S754_nan | S754_infinity _, _ | _, S754_zero _ => f64_nan
  | S754_zero _, _ | S754_finite _ _ _, S754_infinity _ => a
  | S754_finite s m1 e1, S754_finite _ m2 e2 =>
      let e := Z.min e1 e2 in
      let r := ((Zpos m1 * 2 ^ (e1 - e)) mod (Zpos m2 * 2 ^ (e2 - e)))%Z in
      f64_bits (binary_normalize 53 1024 (cond_Zopp s r) e s)
  end.

(** [i64 as f64] *)
Definition f64_of_i64 (z : Z) : f64 := f64_bits (binary_normalize 53 1024 z 0 false).

(** [==] and [partial_cmp] *)
Definition f64_eqb (a b : f64) : bool := SFeqb (f64_view a) (f64_view b).
Definition f64_partial_cmp (a b : f64) : option comparison := SFcompare (f64_view a) (f64_view b).

Definition f64_zero : f64 := 0%N.
Definition f64_is_nan (a : f64) : bool :=
  match f64_view a with S754_nan => true | _ => false end.

(** ** Facts *)

Lemma f64_cmp_antisym a b : f64_partial_cmp b a = CompOpp <$> f64_partial_cmp a b.
Proof.
  unfold f64_partial_cmp. destruct (f64_view a) as [[]|[]| |[] m e], (f64_view b) as [[]|[]| |[] m' e'];
    cbn; try done; rewrite (Z.compare_antisym e' e); destruct (e' ?= e)%Z eqn:He; cbn; try done;
    change (Pos.compare_cont Eq m m') with (Pos.compare m m');
    change (Pos.compare_cont Eq m' m) with (Pos.compare m' m);
    rewrite (Pos.compare_antisym m' m); by destruct (m' ?= m)%positive.
Qed.

Lemma f64_eqb_cmp a b : f64_eqb a b = true ↔ f64_partial_cmp a b = Some Eq.
Proof.
  unfold f64_eqb, f64_partial_cmp, SFeqb. destruct (SFcompare _ _) as [[]|]; split; congruence.
Qed.

Lemma f64_eqb_sym a b : f64_eqb a b = f64_eqb b a.
Proof.
  apply eq_true_iff_eq. rewrite !f64_eqb_cmp, (f64_cmp_antisym a b).
  destruct (f64_partial_cmp a b) as [[]|]; cbn; split; congruence.
Qed.

Lemma f64_cmp_refl a : f64_is_nan a = false → f64_partial_cmp a a = Some Eq.
Proof.
  unfold f64_is_nan, f64_partial_cmp. destruct (f64_view a) as [[]|[]| |[] m e]; cbn; try done;
    rewrite Z.compare_refl; change (Pos.compare_cont Eq m m) with (Pos.compare m m);
    by rewrite Pos.compare_refl.
Qed.

Lemma f64_cmp_nan a b : f64_is_nan a = true → f64_partial_cmp a b = None.
Proof. unfold f64_is_nan, f64_partial_cmp. by destruct (f64_view a). Qed.

Lemma f64_eqb_refl a : f64_eqb a a = negb (f64_is_nan a).
Proof.
  destruct (f64_is_nan a) eqn:E; cbn.
  - unfold f64_eqb, SFeqb. pose proof (f64_cmp_nan a a E) as H.
    unfold f64_partial_cmp in H. by rewrite H.
  - by apply f64_eqb_cmp, f64_cmp_refl.
Qed.

Example f64_one_plus_one :
  f64_add (f64_of_i64 1) (f64_of_i64 1) = f64_of_i64 2 ∧
  f64_rem (f64_of_i64 (-7)) (f64_of_i64 3) = f64_of_i64 (-1) ∧
  f64_of_i64 9007199254740993 = f64_of_i64 9007199254740992.
Proof. vm_compute. done. Qed.

(** A stand-in for the platform's library, to run examples with. *)
Definition sample_floats : FloatLib := {|
  f64_powf a b := f64_mul a b;
  f64_powi a n := f64_mul a (f64_of_i64 n);
  f64_to_string a := "float"
|}.
