(* ===== verification/Semantics.v ===== *)
(** * Value semantics shared by compiler and executor ([value.rs])

    Truthiness, structural equality and ordering are defined once over
    [ValueView], the borrowed projection of a value. Equality and ordering run
    over an explicit work stack; [semantic_eq] and [semantic_cmp] are the
    recursive relations they compute. *)

From S2P Require Import Prelude BTree Program Float64.

Module Truthiness.
Inductive Truthiness :=
  | Nil
  | Bool (value : bool)
  | Int (value : Z)
  | Float (value : f64)
  | ExactZero (is_zero : bool)
  | Length (length : N)
  | Opaque.

Definition is_truthy (t : Truthiness) : bool :=
  match t with
  | Nil => false
  | Bool value => value
  | Int value => negb (value =? 0)%Z
  | Float value => negb (f64_eqb value f64_zero)
  | ExactZero is_zero => negb is_zero
  | Length length => negb (length =? 0)%N
  | Opaque => true
  end.
End Truthiness.

Module View.
Inductive ValueView (T : Type) :=
  | Nil
  | Bool (b : bool)
  | Int (z : Z)
  | Float (f : f64)
  | String (s : string)
  | Bytes (bs : list byte)
  | Duration (z : Z)
  | List (l : list T)
  | Record (m : btree T)
  | Enum (enum_name variant : string) (fields : list T)
  | Opaque.
End View.
Arguments View.Nil {T}.
Arguments View.Bool {T}.
Arguments View.Int {T}.
Arguments View.Float {T}.
Arguments View.String {T}.
Arguments View.Bytes {T}.
Arguments View.Duration {T}.
Arguments View.List {T}.
Arguments View.Record {T}.
Arguments View.Enum {T}.
Arguments View.Opaque {T}.

(** The values directly inside a view. *)
Definition view_children {T} (v : View.ValueView T) : list T :=
  match v with
  | View.List l | View.Enum _ _ l => l
  | View.Record m => BTree.values m
  | _ => []
  end.

(** [SemanticValue]: the projection, with a size that bounds the work stacks. *)
Class SemanticValue (T : Type) := {
  semantic_view : T → View.ValueView T;
  value_size : T → nat;
  value_size_children v :
    sum_list_with value_size (view_children (semantic_view v)) < value_size v
}.

Section equality.
Context {T : Type} `{SemanticValue T}.

(** All keys of [left] in [right], with the values to compare. *)
Fixpoint record_pairs (l r : btree T) : option (list (T * T)) :=
  match l with
  | [] => Some []
  | (key, lv) :: l =>
      rv ← BTree.get key r;
      rest ← record_pairs l r;
      Some ((lv, rv) :: rest)
  end.

(** One arm of the match: [None] is [return false], otherwise the pairs pushed. *)
Definition equal_step (l r : View.ValueView T) : option (list (T * T)) :=
  match l, r with
  | View.Nil, View.Nil => Some []
  | View.Bool a, View.Bool b => if Bool.eqb a b then Some [] else None
  | View.Int a, View.Int b => if (a =? b)%Z then Some [] else None
  | View.Float a, View.Float b => if f64_eqb a b then Some [] else None
  | View.Int a, View.Float b => if f64_eqb (f64_of_i64 a) b then Some [] else None
  | View.Float a, View.Int b => if f64_eqb a (f64_of_i64 b) then Some [] else None
  | View.String a, View.String b => if String.eqb a b then Some [] else None
  | View.Bytes a, View.Bytes b => if bool_decide (map b2n a = map b2n b) then Some [] else None
  | View.Duration a, View.Duration b => if (a =? b)%Z then Some [] else None
  | View.List a, View.List b => if (length a =? length b)%nat then Some (zip a b) else None
  | View.Record a, View.Record b =>
      if (length a =? length b)%nat then record_pairs a b else None
  | View.Enum e1 v1 f1, View.Enum e2 v2 f2 =>
      if String.eqb e1 e2 && String.eqb v1 v2 && (length f1 =? length f2)%nat
      then Some (zip f1 f2) else None
  | _, _ => None
  end.

(** [while let Some((left, right)) = pending.pop()], top of the stack first. *)
Fixpoint equal_loop (fuel : nat) (pending : list (T * T)) : bool :=
  match pending with
  | [] => true
  | (l, r) :: pending =>
      match fuel with
      | O => false
      | S fuel =>
          match equal_step (semantic_view l) (semantic_view r) with
          | None => false
          | Some pairs => equal_loop fuel (reverse pairs ++ pending)
          end
      end
  end.

(** Every pushed pair has a strictly smaller left side, so the size of [left]
    is fuel enough. *)
Definition semantic_values_equal (l r : T) : bool :=
  equal_loop (value_size l) [(l, r)].

(** The relation it decides. *)
Inductive semantic_eq : T → T → Prop :=
  | semantic_eq_step l r pairs :
      equal_step (semantic_view l) (semantic_view r) = Some pairs →
      (∀ p, p ∈ pairs → semantic_eq p.1 p.2) →
      semantic_eq l r.

Lemma semantic_eq_inv l r :
  semantic_eq l r → ∃ pairs, equal_step (semantic_view l) (semantic_view r) = Some pairs ∧
    ∀ p, p ∈ pairs → semantic_eq p.1 p.2.
Proof. destruct 1; eauto. Qed.

Definition pairs_size (ps : list (T * T)) : nat := sum_list_with (λ p, value_size p.1) ps.

Lemma record_pairs_fst m m' ps : record_pairs m m' = Some ps → map fst ps = BTree.values m.
Proof.
  revert ps; induction m as [|[k v] m IH]; intros ps Hp; cbn in Hp; simplify_option_eq; [done|].
  cbn. f_equal. by apply IH.
Qed.

Lemma zip_fst (a b : list T) : length a = length b → map fst (zip a b) = a.
Proof. intros Hl. apply (fst_zip a b). lia. Qed.

Lemma equal_step_fst l r ps :
  equal_step l r = Some ps → map fst ps = [] ∨ map fst ps = view_children l.
Proof.
  destruct l, r; cbn; try done;
    try (match goal with |- (if ?b then _ else _) = _ → _ => destruct b eqn:Hb end; [|done]);
    try (intros [= <-]; by left); intros Hp; right.
  - injection Hp as <-. apply zip_fst. by apply Nat.eqb_eq.
  - by apply record_pairs_fst in Hp.
  - injection Hp as <-. apply andb_true_iff in Hb as [_ Hb]. apply zip_fst. by apply Nat.eqb_eq.
Qed.

Lemma sum_list_with_map {A B} (f : B → nat) (g : A → B) l :
  sum_list_with f (map g l) = sum_list_with (λ x, f (g x)) l.
Proof. induction l; cbn; auto. Qed.

Lemma pairs_size_step l r ps :
  equal_step (semantic_view l) (semantic_view r) = Some ps → pairs_size ps < value_size l.
Proof.
  intros Hs. apply equal_step_fst in Hs. pose proof (value_size_children l) as Hc.
  unfold pairs_size. rewrite <-(sum_list_with_map value_size fst ps).
  destruct Hs as [->| ->]; cbn; lia.
Qed.

Lemma pairs_size_app a b : pairs_size (a ++ b) = pairs_size a + pairs_size b.
Proof. unfold pairs_size. by rewrite sum_list_with_app. Qed.

Lemma pairs_size_rev a : pairs_size (reverse a) = pairs_size a.
Proof. apply sum_list_with_reverse. Qed.

Lemma equal_loop_spec fuel pending :
  pairs_size pending ≤ fuel →
  equal_loop fuel pending = true ↔ ∀ p, p ∈ pending → semantic_eq p.1 p.2.
Proof.
  revert pending; induction fuel as [|fuel IH]; intros [|[l r] pending] Hf; cbn.
  - by split; [intros _ p ?%not_elem_of_nil|].
  - unfold pairs_size in Hf; cbn in Hf. pose proof (value_size_children l). lia.
  - by split; [intros _ p ?%not_elem_of_nil|].
  - destruct (equal_step (semantic_view l) (semantic_view r)) as [ps|] eqn:Hs.
    + pose proof (pairs_size_step _ _ _ Hs) as Hlt.
      change (pairs_size ((l, r) :: pending)) with (value_size l + pairs_size pending) in Hf.
      rewrite IH by (rewrite pairs_size_app, pairs_size_rev; lia).
      split.
      * intros Hall p [->|Hp]%elem_of_cons; [|by apply Hall, elem_of_app; right].
        econstructor; [exact Hs|]. intros q Hq. apply Hall, elem_of_app. left.
        by apply elem_of_reverse.
      * intros Hall p [Hp|Hp]%elem_of_app; [|by apply Hall; right].
        rewrite elem_of_reverse in Hp.
        assert (semantic_eq l r) as He by (apply (Hall (l, r)); left).
        destruct (semantic_eq_inv _ _ He) as (ps' & Hs' & Hps'). simplify_eq. by apply Hps'.
    + split; [done|]. intros Hall.
      assert (semantic_eq l r) as He by (apply (Hall (l, r)); left).
      destruct (semantic_eq_inv _ _ He) as (ps' & Hs' & _). by rewrite Hs in Hs'.
Qed.

Lemma semantic_values_equal_spec l r :
  semantic_values_equal l r = true ↔ semantic_eq l r.
Proof.
  unfold semantic_values_equal. rewrite equal_loop_spec by (unfold pairs_size; cbn; lia).
  split; [intros Hall; apply (Hall (l, r)); by left|].
  by intros He p ->%list_elem_of_singleton.
Qed.
End equality.

(** ** Ordering *)

Inductive CompareTask (T : Type) :=
  | Values (l r : T)
  | ListLength (l r : nat).
Arguments Values {T}.
Arguments ListLength {T}.

(** What one task does: [return None], an [Ordering], or new tasks. *)
Inductive TaskResult (T : Type) :=
  | Unordered
  | Ordering_ (c : comparison)
  | Push (tasks : list (CompareTask T)).
Arguments Unordered {T}.
Arguments Ordering_ {T}.
Arguments Push {T}.

(** [partial_cmp(..)?] *)
Definition of_partial_cmp {T} (o : option comparison) : TaskResult T :=
  match o with Some c => Ordering_ c | None => Unordered end.

Section ordering.
Context {T : Type} `{SemanticValue T}.

Definition compare_views (l r : View.ValueView T) : TaskResult T :=
  match l, r with
  | View.Int a, View.Int b => Ordering_ (a ?= b)%Z
  | View.Float a, View.Float b => of_partial_cmp (f64_partial_cmp a b)
  | View.Int a, View.Float b => of_partial_cmp (f64_partial_cmp (f64_of_i64 a) b)
  | View.Float a, View.Int b => of_partial_cmp (f64_partial_cmp a (f64_of_i64 b))
  | View.String a, View.String b => Ordering_ (String.compare a b)
  | View.List a, View.List b =>
      Push (map (λ p, Values p.1 p.2) (zip a b) ++ [ListLength (length a) (length b)])
  | _, _ => Ordering_ Eq
  end.

Definition compare_task (t : CompareTask T) : TaskResult T :=
  match t with
  | ListLength l r => Ordering_ (l ?= r)%nat
  | Values l r => compare_views (semantic_view l) (semantic_view r)
  end.

Fixpoint compare_loop (fuel : nat) (pending : list (CompareTask T)) : option comparison :=
  match pending with
  | [] => Some Eq
  | task :: pending =>
      match fuel with
      | O => None
      | S fuel =>
          match compare_task task with
          | Unordered => None
          | Ordering_ Eq => compare_loop fuel pending
          | Ordering_ c => Some c
          | Push tasks => compare_loop fuel (tasks ++ pending)
          end
      end
  end.

(** [Some(-1)], [Some(0)], [Some(1)] are [Some Lt], [Some Eq], [Some Gt]. *)
Definition semantic_try_compare (l r : T) : option comparison :=
  compare_loop (2 * value_size l) [Values l r].

(** *** The relation it computes *)

Definition scalar_result (t : TaskResult T) : option (option comparison) :=
  match t with
  | Unordered => Some None
  | Ordering_ c => Some (Some c)
  | Push _ => None
  end.

(** Lists compare lexicographically; NaN is unordered, and so is a list at the
    first place where it meets one. *)
Inductive semantic_cmp : T → T → option comparison → Prop :=
  | cmp_scalar l r o :
      scalar_result (compare_views (semantic_view l) (semantic_view r)) = Some o →
      semantic_cmp l r o
  | cmp_list l r a b o :
      semantic_view l = View.List a → semantic_view r = View.List b →
      list_cmp a b o → semantic_cmp l r o
with list_cmp : list T → list T → option comparison → Prop :=
  | list_cmp_nil : list_cmp [] [] (Some Eq)
  | list_cmp_short y b : list_cmp [] (y :: b) (Some Lt)
  | list_cmp_long x a : list_cmp (x :: a) [] (Some Gt)
  | list_cmp_tail x y a b o :
      semantic_cmp x y (Some Eq) → list_cmp a b o → list_cmp (x :: a) (y :: b) o
  | list_cmp_head x y a b o :
      semantic_cmp x y o → o ≠ Some Eq → list_cmp (x :: a) (y :: b) o.

Scheme semantic_cmp_mind := Minimality for semantic_cmp Sort Prop
  with list_cmp_mind := Minimality for list_cmp Sort Prop.

Definition task_cmp (t : CompareTask T) (o : option comparison) : Prop :=
  match t with
  | Values l r => semantic_cmp l r o
  | ListLength l r => o = Some (l ?= r)%nat
  end.

Inductive tasks_cmp : list (CompareTask T) → option comparison → Prop :=
  | tasks_cmp_nil : tasks_cmp [] (Some Eq)
  | tasks_cmp_next t ts o : task_cmp t (Some Eq) → tasks_cmp ts o → tasks_cmp (t :: ts) o
  | tasks_cmp_stop t ts o : task_cmp t o → o ≠ Some Eq → tasks_cmp (t :: ts) o.

Lemma tasks_cmp_cons_inv t ts o :
  tasks_cmp (t :: ts) o →
  (task_cmp t (Some Eq) ∧ tasks_cmp ts o) ∨ (task_cmp t o ∧ o ≠ Some Eq).
Proof. inversion 1; auto. Qed.

Lemma tasks_cmp_zip a b k pending o :
  tasks_cmp (map (λ p, Values p.1 p.2) (zip a b) ++
             ListLength (k + length a) (k + length b) :: pending) o →
  ∃ o', list_cmp a b o' ∧ ((o' = Some Eq ∧ tasks_cmp pending o) ∨ (o' ≠ Some Eq ∧ o = o')).
Proof.
  revert b k; induction a as [|x a IH]; intros [|y b] k Ht;
    (apply tasks_cmp_cons_inv in Ht as [[H1 H2]|[H1 H2]]); cbn in H1.
  - exists (Some Eq). split; [constructor|by left].
  - rewrite Nat.compare_refl in H1. by simplify_eq.
  - injection H1 as H1. symmetry in H1. apply Nat.compare_eq in H1. lia.
  - exists (Some Lt). split; [constructor|right]. split; [done|]. rewrite H1. f_equal.
    apply Nat.compare_lt_iff. lia.
  - injection H1 as H1. symmetry in H1. apply Nat.compare_eq in H1. lia.
  - exists (Some Gt). split; [constructor|right]. split; [done|]. rewrite H1. f_equal.
    apply Nat.compare_gt_iff. lia.
  - destruct (IH b (S k)) as (o' & Ho' & Hcase).
    { cbn in H2. replace (S k + length a) with (k + S (length a)) by lia.
      by replace (S k + length b) with (k + S (length b)) by lia. }
    exists o'. split; [by apply list_cmp_tail|done].
  - exists o. split; [by apply list_cmp_head|by right].
Qed.

Definition task_size (t : CompareTask T) : nat :=
  match t with Values l _ => 2 * value_size l | ListLength _ _ => 1 end.

Lemma zip_tasks_size (a b : list T) n m :
  sum_list_with task_size (map (λ p, Values p.1 p.2) (zip a b) ++ [ListLength n m]) ≤
  2 * sum_list_with value_size a + 1.
Proof.
  rewrite sum_list_with_app; cbn. revert b; induction a as [|x a IH]; intros [|y b]; cbn; try lia.
  specialize (IH b). lia.
Qed.

Lemma compare_loop_spec fuel pending :
  sum_list_with task_size pending ≤ fuel → tasks_cmp pending (compare_loop fuel pending).
Proof.
  revert pending; induction fuel as [|fuel IH]; intros [|t pending] Hf; cbn.
  - constructor.
  - destruct t as [l r|]; cbn in Hf; [|lia]. pose proof (value_size_children l). lia.
  - constructor.
  - cbn in Hf. assert (1 ≤ task_size t) as Ht.
    { destruct t as [l r|]; cbn; [|lia]. pose proof (value_size_children l). lia. }
    destruct t as [l r|n m]; cbn.
    2: { destruct (n ?= m)%nat eqn:E; [apply tasks_cmp_next|apply tasks_cmp_stop..]; cbn;
         rewrite ?E; try done. apply IH. lia. }
    destruct (compare_views (semantic_view l) (semantic_view r)) as [|c|ts] eqn:Ev.
    + apply tasks_cmp_stop; [|done]. cbn. apply cmp_scalar. by rewrite Ev.
    + assert (semantic_cmp l r (Some c)) as Hc by (apply cmp_scalar; by rewrite Ev).
      destruct c; [apply tasks_cmp_next; [done|apply IH; lia]|by apply tasks_cmp_stop..].
    + destruct (semantic_view l) eqn:El, (semantic_view r) eqn:Er; cbn in Ev; try done;
        try (by destruct (f64_partial_cmp _ _)). injection Ev as <-.
      pose proof (value_size_children l) as Hs. rewrite El in Hs; cbn in Hs.
      pose proof (zip_tasks_size l0 l1 (length l0) (length l1)) as Hz. cbn in Ht.
      specialize (IH ((map (λ p, Values p.1 p.2) (zip l0 l1) ++
        [ListLength (length l0) (length l1)]) ++ pending)).
      rewrite sum_list_with_app in IH. specialize (IH ltac:(cbn in *; lia)).
      set (o := compare_loop fuel _) in *. clearbody o.
      rewrite <-app_assoc in IH. apply (tasks_cmp_zip l0 l1 0) in IH as (o' & Ho' & [[-> Hp]|[Hne ->]]).
      * apply tasks_cmp_next; [by eapply cmp_list|done].
      * apply tasks_cmp_stop; [by eapply cmp_list|done].
Qed.

Lemma semantic_try_compare_spec l r : semantic_cmp l r (semantic_try_compare l r).
Proof.
  unfold semantic_try_compare. pose proof (compare_loop_spec (2 * value_size l) [Values l r]) as Hs.
  specialize (Hs ltac:(cbn; lia)). set (o := compare_loop _ _) in *. clearbody o.
  apply tasks_cmp_cons_inv in Hs as [[H1 H2]|[H1 H2]]; [|done].
  by inversion H2.
Qed.
End ordering.

(** ** The relation is a function, and reversing the sides reverses it *)

Section ordering_facts.
Context {T : Type} `{SemanticValue T}.

Lemma compare_views_push (l r : View.ValueView T) ts :
  compare_views l r = Push ts → ∃ a b, l = View.List a ∧ r = View.List b.
Proof.
  destruct l, r; cbn; try done; try (by destruct (f64_partial_cmp _ _)). eauto.
Qed.

Lemma semantic_cmp_det l r o : semantic_cmp l r o → ∀ o', semantic_cmp l r o' → o = o'.
Proof.
  revert l r o. apply (semantic_cmp_mind (λ l r o, ∀ o', semantic_cmp l r o' → o = o')
    (λ a b o, ∀ o', list_cmp a b o' → o = o')).
  - intros l r o e o' Ho'. inversion Ho' as [? ? ? Hs|? ? a b ? Hl Hr]; subst; [congruence|].
    rewrite Hl, Hr in e. done.
  - intros l r a b o e e0 _ IH o' Ho'. inversion Ho' as [? ? ? Hs|? ? a' b' ? Hl Hr Hlist]; subst.
    + rewrite e, e0 in Hs. done.
    + rewrite e in Hl. rewrite e0 in Hr. simplify_eq. by apply IH.
  - by inversion 1.
  - by inversion 1.
  - by inversion 1.
  - intros x y a b o _ IHx _ IHl o' Ho'. inversion Ho'; subst; [by apply IHl|].
    match goal with Hn : _ ≠ Some Eq |- _ => destruct Hn end. symmetry. by apply IHx.
  - intros x y a b o _ IHx Hne o' Ho'. inversion Ho'; subst; [|by apply IHx].
    destruct Hne. by apply IHx.
Qed.

Lemma compare_views_sym (l r : View.ValueView T) o :
  scalar_result (compare_views l r) = Some o →
  scalar_result (compare_views r l) = Some (CompOpp <$> o).
Proof.
  assert (∀ a b o, scalar_result (@of_partial_cmp T (f64_partial_cmp a b)) = Some o →
    scalar_result (@of_partial_cmp T (f64_partial_cmp b a)) = Some (CompOpp <$> o)) as Hf.
  { intros a b o'. rewrite (f64_cmp_antisym a b). destruct (f64_partial_cmp a b); cbn;
      intros [= <-]; done. }
  destruct l, r; cbn; try done; try (by intros [= <-]); try apply Hf; intros [= <-]; cbn.
  - by rewrite Z.compare_antisym.
  - by rewrite String.compare_antisym.
Qed.

Lemma semantic_cmp_sym l r o : semantic_cmp l r o → semantic_cmp r l (CompOpp <$> o).
Proof.
  revert l r o. apply (semantic_cmp_mind (λ l r o, semantic_cmp r l (CompOpp <$> o))
    (λ a b o, list_cmp b a (CompOpp <$> o))); intros.
  - by apply cmp_scalar, compare_views_sym.
  - by eapply cmp_list.
  - constructor.
  - constructor.
  - constructor.
  - by apply list_cmp_tail.
  - apply list_cmp_head; [done|]. by destruct o as [[]|].
Qed.


(** Comparing in the other direction gives the opposite answer, at any
    nesting: [a < b] and [b > a] never disagree, and unordered is symmetric. *)
Theorem semantic_try_compare_antisym (l r : T) :
  semantic_try_compare r l = CompOpp <$> semantic_try_compare l r.
Proof.
  eapply semantic_cmp_det; [apply semantic_try_compare_spec|].
  apply semantic_cmp_sym, semantic_try_compare_spec.
Qed.

(** Equality computed over the work stack is structural equality: same kind,
    int and float compared by value, sequences elementwise, records key by key;
    a value with no data view equals nothing, itself included. *)
Theorem semantic_values_equal_iff (l r : T) :
  semantic_values_equal l r = true ↔ semantic_eq l r.
Proof. apply semantic_values_equal_spec. Qed.
End ordering_facts.
