(* ===== verification/Values.v ===== *)
(** * Runtime values ([value.rs], [execution/runtime_value.rs], [execution/types.rs])

    [VmValue] is the compiler's constant vocabulary, [RuntimeValue] the
    executor's, [DataValue] what crosses the host boundary. Rust shares them by
    reference count and copies on write, so they are immutable trees here. *)

From Stdlib Require Import Numbers.DecimalString Strings.String.
From S2P Require Import Prelude BTree Program Float64 Semantics.

Abbreviation string := String.string.

(** ** Text *)

(** [i64::to_string] *)
Definition i64_to_string (z : Z) : string := NilZero.string_of_int (Z.to_int z).

(** [usize::to_string] *)
Definition usize_to_string (n : N) : string := i64_to_string (Z.of_N n).

Definition bool_to_string (b : bool) : string := if b then "true" else "false".

(** [join(", ")] *)
Definition join_comma (parts : list string) : string := String.concat ", " parts.

(** ** The compiler's constants *)

Module VmValue.
Inductive VmValue :=
  | Int (value : Z)
  | Float (value : f64)
  | String (value : string)
  | Bool (value : bool)
  | Nil
  | Duration (value : Z)
  | List (values : list VmValue)
  | Dict (entries : btree VmValue).

(** [VmValue::is_truthy] *)
Definition is_truthy (v : VmValue) : bool :=
  Truthiness.is_truthy
    match v with
    | Nil => Truthiness.Nil
    | Bool value => Truthiness.Bool value
    | Int value | Duration value => Truthiness.Int value
    | Float value => Truthiness.Float value
    | String value => Truthiness.Length (slen value)
    | List values => Truthiness.Length (len values)
    | Dict entries => Truthiness.Length (len entries)
    end.

Definition view (v : VmValue) : View.ValueView VmValue :=
  match v with
  | Nil => View.Nil
  | Bool value => View.Bool value
  | Int value => View.Int value
  | Float value => View.Float value
  | String value => View.String value
  | Duration value => View.Duration value
  | List values => View.List values
  | Dict entries => View.Record entries
  end.

Fixpoint size (v : VmValue) : nat :=
  S match v with
    | List vs => sum_list_with size vs
    | Dict es => sum_list_with (λ e, size e.2) es
    | _ => 0
    end.

(** [fmt::Display for VmValue] *)
Fixpoint display `{FloatLib} (v : VmValue) : string :=
  match v with
  | Int value => i64_to_string value
  | Float value => f64_to_string value
  | String value => value
  | Bool value => bool_to_string value
  | Nil => "nil"
  | Duration value => i64_to_string value ++ "ms"
  | List values => "[" ++ join_comma (map display values) ++ "]"
  | Dict entries =>
      "{" ++ join_comma (map (λ e, e.1 ++ ": " ++ display e.2) entries) ++ "}"
  end%string.
End VmValue.

Lemma sum_values {V} (f : V → nat) (m : btree V) :
  sum_list_with f (BTree.values m) = sum_list_with (λ e, f e.2) m.
Proof. induction m as [|e m IH]; cbn; [done|]. by f_equal. Qed.

#[export] Program Instance vm_semantic : SemanticValue VmValue.VmValue := {
  semantic_view := VmValue.view;
  value_size := VmValue.size
}.
Next Obligation. intros []; cbn; rewrite ?sum_values; lia. Qed.

(** ** The executor's values *)

(** An environment is an index into the machine's environment store. *)
Abbreviation EnvId := nat.

Inductive RuntimeValue :=
  | RNil
  | RBool (value : bool)
  | RInt (value : Z)
  | RFloat (value : f64)
  | RString (value : string)
  | RBytes (value : list byte)
  | RList (values : list RuntimeValue)
  | RRecord (entries : btree RuntimeValue)
  | REnum (enum_name variant : string) (fields : list RuntimeValue)
  | RClosure (function : CompiledFunction) (env : EnvId)
  | RBuiltin (name : string)
  | RHarness (name : string)
  | RException (value : RuntimeValue) (declared : bool).

(** [RuntimeValue::truthy] *)
Definition truthy (v : RuntimeValue) : bool :=
  Truthiness.is_truthy
    match v with
    | RNil => Truthiness.Nil
    | RBool value => Truthiness.Bool value
    | RInt value => Truthiness.Int value
    | RFloat value => Truthiness.Float value
    | RString value => Truthiness.Length (slen value)
    | RBytes value => Truthiness.Length (len value)
    | RList values => Truthiness.Length (len values)
    | RRecord entries => Truthiness.Length (len entries)
    | _ => Truthiness.Opaque
    end.

(** [RuntimeValue::display] *)
Fixpoint display `{FloatLib} (v : RuntimeValue) : string :=
  match v with
  | RNil => "nil"
  | RBool value => bool_to_string value
  | RInt value => i64_to_string value
  | RFloat value => f64_to_string value
  | RString value => value
  | RBytes value => "<" ++ usize_to_string (len value) ++ " bytes>"
  | RList values => "[" ++ join_comma (map display values) ++ "]"
  | RRecord entries =>
      "{" ++ join_comma (map (λ e, e.1 ++ ": " ++ display e.2) entries) ++ "}"
  | REnum enum_name variant [] => enum_name ++ "." ++ variant
  | REnum enum_name variant fields =>
      enum_name ++ "." ++ variant ++ "(" ++ join_comma (map display fields) ++ ")"
  | RClosure _ _ => "<closure>"
  | RBuiltin name => "<builtin " ++ name ++ ">"
  | RHarness name => "<harness " ++ name ++ ">"
  | RException _ _ => "<caught exception>"
  end%string.

Definition runtime_view (v : RuntimeValue) : View.ValueView RuntimeValue :=
  match v with
  | RNil => View.Nil
  | RBool value => View.Bool value
  | RInt value => View.Int value
  | RFloat value => View.Float value
  | RString value => View.String value
  | RBytes value => View.Bytes value
  | RList values => View.List values
  | RRecord entries => View.Record entries
  | REnum enum_name variant fields => View.Enum enum_name variant fields
  | RClosure _ _ | RBuiltin _ | RHarness _ | RException _ _ => View.Opaque
  end.

(** Nodes of a value, as [validate_runtime_value] counts them. *)
Fixpoint runtime_size (v : RuntimeValue) : nat :=
  S match v with
    | RList vs | REnum _ _ vs => sum_list_with runtime_size vs
    | RRecord es => sum_list_with (λ e, runtime_size e.2) es
    | RException v _ => runtime_size v
    | _ => 0
    end.

#[export] Program Instance runtime_semantic : SemanticValue RuntimeValue := {
  semantic_view := runtime_view;
  value_size := runtime_size
}.
Next Obligation. intros []; cbn; rewrite ?sum_values; lia. Qed.

(** [EnumValue::is_variant] *)
Definition is_variant (v : RuntimeValue) (enum_name variant : string) : bool :=
  match v with
  | REnum e w _ => String.eqb e enum_name && String.eqb w variant
  | _ => false
  end.

(** [From<Constant> for RuntimeValue]: a duration becomes its milliseconds. *)
Definition runtime_of_constant (c : Constant.Constant) : RuntimeValue :=
  match c with
  | Constant.Int value | Constant.Duration value => RInt value
  | Constant.Float value => RFloat value
  | Constant.String value => RString value
  | Constant.Bool value => RBool value
  | Constant.Nil => RNil
  end.

(** ** Portable data *)

Inductive DataValue :=
  | DNil
  | DBool (value : bool)
  | DInt (value : Z)
  | DFloat (value : f64)
  | DString (value : string)
  | DBytes (value : list byte)
  | DList (values : list DataValue)
  | DRecord (entries : btree DataValue).

(** [From<DataValue> for RuntimeValue] *)
Fixpoint runtime_of_data (d : DataValue) : RuntimeValue :=
  match d with
  | DNil => RNil
  | DBool value => RBool value
  | DInt value => RInt value
  | DFloat value => RFloat value
  | DString value => RString value
  | DBytes value => RBytes value
  | DList values => RList (map runtime_of_data values)
  | DRecord entries => RRecord (map (λ e, (e.1, runtime_of_data e.2)) entries)
  end.

(** [DataValue::try_from_validated] *)
Fixpoint try_from_validated (v : RuntimeValue) : result DataValue :=
  match v with
  | RNil => Ok DNil
  | RBool value => Ok (DBool value)
  | RInt value => Ok (DInt value)
  | RFloat value => Ok (DFloat value)
  | RString value => Ok (DString value)
  | RBytes value => Ok (DBytes value)
  | RList values => vs ← result_map try_from_validated values; Ok (DList vs)
  | RRecord entries =>
      es ← result_map (λ e, d ← try_from_validated e.2; Ok (e.1, d)) entries;
      Ok (DRecord es)
  | REnum _ _ _ | RClosure _ _ | RBuiltin _ | RHarness _ | RException _ _ =>
      Err (diagnostic non_data_result)
  end.

(** ** Induction principles *)

Section runtime_ind.
Variable P : RuntimeValue → Prop.
Hypothesis Hleaf : ∀ v, view_children (runtime_view v) = [] →
  (∀ w d, v ≠ RException w d) → P v.
Hypothesis Hlist : ∀ vs, Forall P vs → P (RList vs).
Hypothesis Hrecord : ∀ es, Forall (λ e, P e.2) es → P (RRecord es).
Hypothesis Henum : ∀ n w vs, Forall P vs → P (REnum n w vs).
Hypothesis Hexn : ∀ v d, P v → P (RException v d).

Fixpoint runtime_value_ind (v : RuntimeValue) : P v.
Proof.
  destruct v; try (apply Hleaf; [reflexivity|discriminate]).
  - apply Hlist. induction values; constructor; auto.
  - apply Hrecord. induction entries as [|e es IH]; constructor; auto.
  - apply Henum. induction fields; constructor; auto.
  - by apply Hexn.
Defined.
End runtime_ind.

Section data_ind.
Variable P : DataValue → Prop.
Hypothesis Hnil : P DNil.
Hypothesis Hbool : ∀ b, P (DBool b).
Hypothesis Hint : ∀ z, P (DInt z).
Hypothesis Hfloat : ∀ f, P (DFloat f).
Hypothesis Hstring : ∀ s, P (DString s).
Hypothesis Hbytes : ∀ bs, P (DBytes bs).
Hypothesis Hlist : ∀ ds, Forall P ds → P (DList ds).
Hypothesis Hrecord : ∀ es, Forall (λ e, P e.2) es → P (DRecord es).

Fixpoint data_value_ind (d : DataValue) : P d.
Proof.
  destruct d; [apply Hnil|apply Hbool|apply Hint|apply Hfloat|apply Hstring|apply Hbytes| |].
  - apply Hlist. induction values; constructor; auto.
  - apply Hrecord. induction entries as [|e es IH]; constructor; auto.
Defined.
End data_ind.

(** ** Data survives the trip into the executor and back *)

Lemma try_from_runtime_of_data d : try_from_validated (runtime_of_data d) = Ok d.
Proof.
  induction d as [| | | | | |ds IH|es IH] using data_value_ind; cbn; try done.
  - assert (result_map try_from_validated (map runtime_of_data ds) = Ok ds) as ->; [|done].
    induction IH as [|d ds Hd Hds IH]; cbn; [done|]. rewrite Hd; cbn. by rewrite IH.
  - match goal with |- context [result_map ?f (map ?g es)] =>
      assert (result_map f (map g es) = Ok es) as ->; [|done] end.
    induction IH as [|[k d] es Hd Hes IH]; cbn in *; [done|]. rewrite Hd; cbn. by rewrite IH.
Qed.

Lemma try_from_validated_inv v d : try_from_validated v = Ok d → runtime_of_data d = v.
Proof.
  revert d. induction v as [v Hc Hx|vs IH|es IH|n w vs IH|v dc IH] using runtime_value_ind;
    intros d Hd; cbn in Hd; try discriminate Hd.
  - destruct v; cbn in *; try discriminate Hd; inv_result; try done; subst; cbn in *; inv_result; try done.
    destruct entries; cbn in *; [inv_result; done|discriminate].
  - inv_result. cbn. f_equal. apply result_map_Forall2 in E.
    induction E as [|x y vs ds Hxy Hall IHl]; cbn; [done|].
    apply Forall_cons in IH as [Hx IH]. by rewrite (Hx _ Hxy), IHl.
  - inv_result. cbn. f_equal. apply result_map_Forall2 in E.
    induction E as [|[k x] y vs ds Hxy Hall IHl]; cbn; [done|].
    apply Forall_cons in IH as [Hx IH]. cbn in *. inv_result. cbn. by rewrite (Hx _ eq_refl), IHl.
Qed.
