(* ===== verification/Resource.v ===== *)
(** * Resource budgets of values ([execution/resource.rs])

    Three walks over an explicit stack (JSON, data, runtime values) count nodes
    and bytes and bound the depth before anything is done with a value. They
    differ only in what a node holds, so the walk is written once over a
    [ResourceView], and each of the three is an instance of it. *)

From S2P Require Import Prelude BTree Program Float64 Semantics Values.

Definition MAX_VALUE_NODES : N := 100000.
Definition MAX_VALUE_DEPTH : N := 128.
Definition MAX_VALUE_BYTES : N := 1048576.

Definition check_depth (depth : N) : result unit :=
  reject_if (MAX_VALUE_DEPTH <? depth)%N value_depth_limit.

Definition check_bytes (bytes : N) : result unit :=
  reject_if (MAX_VALUE_BYTES <? bytes)%N value_byte_limit.

Definition reserve_children (count parent_depth nodes : N) : result N :=
  _ ← (if (count =? 0)%N then Ok tt else check_depth (saturating_add_usize parent_depth 1));
  let nodes := saturating_add_usize nodes count in
  _ ← reject_if (MAX_VALUE_NODES <? nodes)%N value_node_limit;
  Ok nodes.

(** What a node holds: the lengths added to [bytes], and its children. *)
Class ResourceView (T : Type) := {
  own_bytes : T → list N;
  children : T → list T;
  tree_size : T → nat;
  tree_size_eq v : tree_size v = S (sum_list_with tree_size (children v))
}.

Section walk.
Context {T : Type} `{ResourceView T}.

(** [while let Some((value, depth)) = stack.pop()]; top of the stack first. The
    node counter bounds the iterations; the size of the root is fuel enough
    (see [resource_walk_spec]). *)
Fixpoint resource_walk (fuel : nat) (stack : list (T * N)) (nodes bytes : N) : result N :=
  match stack with
  | [] => Ok nodes
  | (value, depth) :: stack =>
      match fuel with
      | O => Err (diagnostic value_node_limit)
      | S fuel =>
          _ ← check_depth depth;
          nodes ← reserve_children (len (children value)) depth nodes;
          let bytes := foldl saturating_add_usize bytes (own_bytes value) in
          _ ← check_bytes bytes;
          resource_walk fuel (reverse (map (λ v, (v, depth + 1)%N) (children value)) ++ stack)
            nodes bytes
      end
  end.

Definition validate_resources (root : T) : result N :=
  resource_walk (tree_size root) [(root, 1%N)] 1 0.

(** *** What the walk measures *)

(** Depth and bytes of the tree, by the same fuel-free recursion on size. *)
Inductive fits_at : T → N → Prop :=
  | fits_at_node v depth :
      (depth ≤ MAX_VALUE_DEPTH)%N →
      (∀ w, w ∈ children v → fits_at w (depth + 1)) →
      fits_at v depth.

Fixpoint total_bytes (fuel : nat) (v : T) : N :=
  match fuel with
  | O => 0
  | S fuel => foldr N.add 0 (own_bytes v) + foldr (λ w b, total_bytes fuel w + b) 0 (children v)
  end%N.

Definition value_bytes (v : T) : N := total_bytes (tree_size v) v.

Lemma tree_size_child v w : w ∈ children v → tree_size w < tree_size v.
Proof.
  intros Hw. rewrite (tree_size_eq v). apply sum_list_with_in with (f := tree_size) in Hw. lia.
Qed.

Lemma total_bytes_fuel fuel v : tree_size v ≤ fuel → total_bytes fuel v = value_bytes v.
Proof.
  unfold value_bytes. assert (∀ n f g v, tree_size v ≤ n → n ≤ f → n ≤ g →
    total_bytes f v = total_bytes g v) as Hgen.
  { induction n as [|n IH]; intros f g w Hs Hf Hg; [rewrite tree_size_eq in Hs; lia|].
    destruct f as [|f], g as [|g]; try lia. cbn. f_equal.
    assert (∀ ws, (∀ x, x ∈ ws → tree_size x ≤ n) →
      foldr (λ w b, total_bytes f w + b)%N 0%N ws = foldr (λ w b, total_bytes g w + b)%N 0%N ws) as Hws.
    { induction ws as [|x ws IHws]; intros Hx; cbn; [done|].
      rewrite (IH f g x), IHws; auto with lia; [|by apply Hx; left]. intros y Hy. apply Hx. by right. }
    apply Hws. intros x Hx%tree_size_child. lia. }
  intros Hf. by apply (Hgen (tree_size v)).
Qed.

Lemma value_bytes_eq v :
  value_bytes v = (foldr N.add 0 (own_bytes v) + foldr (λ w b, value_bytes w + b) 0 (children v))%N.
Proof.
  unfold value_bytes at 1. rewrite (tree_size_eq v). cbn. f_equal.
  assert (∀ ws, (∀ x, x ∈ ws → x ∈ children v) →
    foldr (λ w b, total_bytes (sum_list_with tree_size (children v)) w + b)%N 0%N ws =
    foldr (λ w b, value_bytes w + b)%N 0%N ws) as Hws; [|by apply Hws].
  induction ws as [|x ws IH]; intros Hx; cbn; [done|].
  rewrite total_bytes_fuel, IH; [done| |].
  - intros y Hy. apply Hx. by right.
  - apply sum_list_with_in. apply Hx. by left.
Qed.

Definition stack_size (s : list (T * N)) : nat := sum_list_with (λ p, tree_size p.1) s.
Definition stack_bytes (s : list (T * N)) : N := foldr (λ p b, value_bytes p.1 + b)%N 0%N s.

Lemma tree_size_pos v : 1 ≤ tree_size v.
Proof. rewrite tree_size_eq. lia. Qed.

Lemma sum_sizes_length vs : length vs ≤ sum_list_with tree_size vs.
Proof. induction vs as [|v vs IH]; cbn; [lia|]. pose proof (tree_size_pos v). lia. Qed.

Lemma stack_size_length s : length s ≤ stack_size s.
Proof.
  unfold stack_size. induction s as [|[v d] s IH]; cbn; [lia|]. pose proof (tree_size_pos v). lia.
Qed.

Lemma stack_size_children vs d s :
  stack_size (reverse (map (λ v, (v, d)) vs) ++ s) = sum_list_with tree_size vs + stack_size s.
Proof.
  unfold stack_size. rewrite sum_list_with_app, sum_list_with_reverse. f_equal.
  induction vs as [|v vs IH]; cbn; auto.
Qed.

Lemma stack_bytes_app s1 s2 : stack_bytes (s1 ++ s2) = (stack_bytes s1 + stack_bytes s2)%N.
Proof. unfold stack_bytes. induction s1 as [|p s1 IH]; cbn; [done|]. rewrite IH. lia. Qed.

Lemma stack_bytes_children vs d s :
  stack_bytes (reverse (map (λ v, (v, d)) vs) ++ s) =
  (foldr (λ w b, value_bytes w + b) 0 vs + stack_bytes s)%N.
Proof.
  rewrite stack_bytes_app. f_equal. induction vs as [|v vs IH]; [done|].
  cbn [map]. rewrite reverse_cons, stack_bytes_app, IH. unfold stack_bytes; cbn. lia.
Qed.

Lemma saturating_le a b m : (m < USIZE_MAX)%N →
  ((saturating_add_usize a b ≤ m)%N ↔ (a + b ≤ m)%N) ∧
  ((a + b ≤ m)%N → saturating_add_usize a b = (a + b)%N).
Proof. unfold saturating_add_usize. lia. Qed.

Lemma saturating_sum m bytes own : (m < USIZE_MAX)%N →
  ((foldl saturating_add_usize bytes own ≤ m)%N ↔ (bytes + foldr N.add 0%N own ≤ m)%N) ∧
  ((bytes + foldr N.add 0%N own ≤ m)%N →
     foldl saturating_add_usize bytes own = (bytes + foldr N.add 0%N own)%N).
Proof.
  intros Hm. revert bytes; induction own as [|n own IH]; intros bytes; cbn; [split; lia|].
  destruct (IH (saturating_add_usize bytes n)) as [IH1 IH2].
  destruct (saturating_le bytes n m Hm) as [H1 H2].
  destruct (decide (bytes + n ≤ m)%N) as [Hle|Hgt].
  - rewrite H2 in * by done. split; [rewrite IH1; lia|]. intros Hs. rewrite IH2; lia.
  - split; [|lia]. rewrite IH1. unfold saturating_add_usize in *. lia.
Qed.

Lemma reject_if_ok b c (u : unit) : reject_if b c = Ok u ↔ b = false.
Proof. unfold reject_if. destruct b, u; split; congruence. Qed.

Lemma reserve_children_ok count depth nodes n :
  (nodes ≤ MAX_VALUE_NODES)%N → (depth ≤ MAX_VALUE_DEPTH)%N →
  reserve_children count depth nodes = Ok n ↔
  (count ≠ 0 → depth + 1 ≤ MAX_VALUE_DEPTH)%N ∧ n = (nodes + count)%N ∧ (n ≤ MAX_VALUE_NODES)%N.
Proof.
  intros Hn Hd. unfold reserve_children, check_depth, reject_if.
  destruct (saturating_le depth 1 MAX_VALUE_DEPTH eq_refl) as [Hd1 _].
  destruct (saturating_le nodes count MAX_VALUE_NODES eq_refl) as [Hn1 Hn2].
  destruct (N.eqb_spec count 0) as [->|Hc]; cbn.
  - destruct (N.ltb_spec MAX_VALUE_NODES (saturating_add_usize nodes 0)); cbn.
    + split; [done|]. intros (_ & -> & ?). lia.
    + rewrite Hn2 by lia. split; [intros [= <-]; split; [lia|]; lia|intros (_ & -> & _); done].
  - destruct (N.ltb_spec MAX_VALUE_DEPTH (saturating_add_usize depth 1)); cbn.
    + split; [done|]. intros (Hd2 & _). specialize (Hd2 Hc). lia.
    + destruct (N.ltb_spec MAX_VALUE_NODES (saturating_add_usize nodes count)); cbn.
      * split; [done|]. intros (_ & -> & ?). lia.
      * rewrite Hn2 by lia. split; [intros [= <-]; split; [lia|]; lia|intros (_ & -> & _); done].
Qed.

Definition all_fit (s : list (T * N)) : Prop := ∀ p, p ∈ s → fits_at p.1 p.2.

Lemma all_fit_cons v d s :
  all_fit ((v, d) :: s) ↔
  (d ≤ MAX_VALUE_DEPTH)%N ∧
  all_fit (reverse (map (λ w, (w, d + 1)%N) (children v)) ++ s).
Proof.
  unfold all_fit. split.
  - intros Hall. assert (fits_at v d) as Hv by (apply (Hall (v, d)); left).
    destruct Hv as [v d Hd Hch]. split; [done|]. intros p [Hp|Hp]%elem_of_app.
    + rewrite elem_of_reverse in Hp. apply list_elem_of_fmap in Hp as (w & -> & Hw). by apply Hch.
    + apply Hall. by right.
  - intros [Hd Hall] p [->|Hp]%elem_of_cons.
    + constructor; [done|]. intros w Hw. apply (Hall (w, (d + 1)%N)), elem_of_app. left.
      rewrite elem_of_reverse. apply list_elem_of_fmap. eauto.
    + apply Hall, elem_of_app. by right.
Qed.

Lemma resource_walk_spec fuel s nodes bytes n :
  stack_size s ≤ fuel → (nodes ≤ MAX_VALUE_NODES)%N → (bytes ≤ MAX_VALUE_BYTES)%N →
  resource_walk fuel s nodes bytes = Ok n ↔
  n = (nodes + N.of_nat (stack_size s - length s))%N ∧ (n ≤ MAX_VALUE_NODES)%N ∧
  all_fit s ∧ (bytes + stack_bytes s ≤ MAX_VALUE_BYTES)%N.
Proof.
  revert s nodes bytes; induction fuel as [|fuel IH]; intros [|[v d] s] nodes bytes Hf Hn Hb;
    cbn [resource_walk].
  1, 3: split; [intros [= <-]|intros (-> & _)]; cbn; [|f_equal; lia];
    split_and!; [lia|lia|by intros p ?%not_elem_of_nil|unfold stack_bytes; cbn; lia].
  { pose proof (stack_size_length ((v, d) :: s)). cbn in *. lia. }
  assert (stack_size ((v, d) :: s) = S (sum_list_with tree_size (children v)) + stack_size s) as Hsz.
  { unfold stack_size; cbn. rewrite (tree_size_eq v). lia. }
  assert (stack_bytes ((v, d) :: s) = value_bytes v + stack_bytes s)%N as Hby by done.
  rewrite value_bytes_eq in Hby. rewrite all_fit_cons, Hsz, Hby.
  pose proof (sum_sizes_length (children v)) as Hlen. pose proof (stack_size_length s) as Hls.
  destruct (saturating_sum MAX_VALUE_BYTES bytes (own_bytes v) eq_refl) as [Hs1 Hs2].
  set (own := foldr N.add 0%N (own_bytes v)) in *.
  set (kids := foldr (λ w b, value_bytes w + b)%N 0%N (children v)) in *.
  split.
  - intros Hw. apply result_bind_ok in Hw as (u & Hd & Hw).
    apply result_bind_ok in Hw as (n1 & Hr & Hw). apply result_bind_ok in Hw as (u' & Hc & Hw).
    apply reject_if_ok, N.ltb_ge in Hd, Hc. apply reserve_children_ok in Hr as (_ & -> & Hn1); [|done..].
    apply Hs1 in Hc. rewrite Hs2 in Hw by done.
    apply IH in Hw as (-> & Hmax & Hfit & Hbytes); [|rewrite stack_size_children; lia|lia|lia].
    rewrite stack_size_children, length_app, length_reverse, length_map in *.
    rewrite stack_bytes_children in Hbytes. fold kids in Hbytes. unfold len in *. cbn [length].
    split_and!; [lia|lia|done|done|lia].
  - intros (Hn' & Hmax & [Hd Hfit] & Hbytes). cbn [length] in Hn'.
    apply result_bind_ok. exists tt. split; [apply reject_if_ok; by apply N.ltb_ge|].
    apply result_bind_ok. exists (nodes + len (children v))%N. split.
    { apply reserve_children_ok; [done..|]. unfold len. split_and!; [|done|lia].
      intros Hne. destruct (children v) as [|w ws] eqn:Ech; [done|].
      assert (fits_at w (d + 1)) as Hw.
      { apply (Hfit (w, (d + 1)%N)), elem_of_app. left. rewrite elem_of_reverse. left. }
      by destruct Hw. }
    apply result_bind_ok. exists tt. split; [apply reject_if_ok, N.ltb_ge, Hs1; lia|].
    rewrite Hs2 by lia. apply IH; [rewrite stack_size_children; lia|unfold len; lia|lia|].
    rewrite stack_size_children, length_app, length_reverse, length_map, stack_bytes_children.
    fold kids. unfold len. split_and!; [lia|lia|done|lia].
Qed.

(** The three walks succeed exactly on values within the budgets, and count
    every node. *)
Lemma validate_resources_spec v n :
  validate_resources v = Ok n ↔
  n = N.of_nat (tree_size v) ∧ (n ≤ MAX_VALUE_NODES)%N ∧ fits_at v 1 ∧
  (value_bytes v ≤ MAX_VALUE_BYTES)%N.
Proof.
  unfold validate_resources. rewrite resource_walk_spec; [|unfold stack_size; cbn; lia|done|done].
  unfold stack_size, stack_bytes; cbn. pose proof (tree_size_pos v).
  assert (all_fit [(v, 1%N)] ↔ fits_at v 1) as ->.
  { unfold all_fit. split; [intros Ha; apply (Ha (v, 1%N)); left|].
    by intros Hv p ->%list_elem_of_singleton. }
  rewrite N.add_0_r. intuition lia.
Qed.
End walk.

#[global] Arguments value_bytes : simpl never.

(** ** The walks of the kernel *)

Definition runtime_own_bytes (v : RuntimeValue) : list N :=
  match v with
  | RString s => [slen s]
  | RBytes bs => [len bs]
  | RRecord es => map (λ e, slen e.1) es
  | REnum enum_name variant _ => [slen enum_name; slen variant]
  | _ => []
  end.

Definition runtime_children (v : RuntimeValue) : list RuntimeValue :=
  match v with
  | RList vs | REnum _ _ vs => vs
  | RRecord es => BTree.values es
  | RException v _ => [v]
  | _ => []
  end.

#[export] Program Instance runtime_resources : ResourceView RuntimeValue := {
  own_bytes := runtime_own_bytes;
  children := runtime_children;
  tree_size := runtime_size
}.
Next Obligation. intros []; cbn; rewrite ?sum_values; lia. Qed.

Fixpoint data_size (d : DataValue) : nat :=
  S match d with
    | DList ds => sum_list_with data_size ds
    | DRecord es => sum_list_with (λ e, data_size e.2) es
    | _ => 0
    end.

Definition data_own_bytes (d : DataValue) : list N :=
  match d with
  | DString s => [slen s]
  | DBytes bs => [len bs]
  | DRecord es => map (λ e, slen e.1) es
  | _ => []
  end.

Definition data_children (d : DataValue) : list DataValue :=
  match d with
  | DList ds => ds
  | DRecord es => BTree.values es
  | _ => []
  end.

#[export] Program Instance data_resources : ResourceView DataValue := {
  own_bytes := data_own_bytes;
  children := data_children;
  tree_size := data_size
}.
Next Obligation. intros []; cbn; rewrite ?sum_values; lia. Qed.

(** [validate_runtime_value]: the usage is the node count. *)
Definition validate_runtime_value (root : RuntimeValue) : result N := validate_resources root.

(** [validate_data_value] *)
Definition validate_data_value (root : DataValue) : result unit :=
  _ ← validate_resources root; Ok tt.

(** [TryFrom<RuntimeValue> for DataValue] *)
Definition data_try_from (v : RuntimeValue) : result DataValue :=
  _ ← validate_runtime_value v; try_from_validated v.

(** ** Data in the executor costs what it cost at the boundary *)

Lemma runtime_of_data_size d : runtime_size (runtime_of_data d) = data_size d.
Proof.
  induction d as [| | | | | |ds IH|es IH] using data_value_ind; cbn; try done; f_equal.
  - rewrite sum_list_with_map. induction IH as [|d ds Hd Hds IH]; cbn; congruence.
  - rewrite sum_list_with_map. cbn. induction IH as [|d ds Hd Hds IH]; cbn; congruence.
Qed.

Lemma runtime_of_data_own d : runtime_own_bytes (runtime_of_data d) = data_own_bytes d.
Proof. destruct d; cbn; try done. rewrite map_map. by apply map_ext. Qed.

Lemma runtime_of_data_children d :
  runtime_children (runtime_of_data d) = map runtime_of_data (data_children d).
Proof. destruct d; cbn; try done. unfold BTree.values. rewrite !map_map. by apply map_ext. Qed.

Lemma runtime_of_data_fits d depth : fits_at (runtime_of_data d) depth ↔ fits_at d depth.
Proof.
  split.
  - intros Hf. remember (runtime_of_data d) as v eqn:Hv. revert d Hv.
    induction Hf as [v depth Hd Hch IH]. intros d ->. constructor; [done|].
    intros w Hw. apply (IH (runtime_of_data w)); [|done]. cbn.
    rewrite runtime_of_data_children. apply list_elem_of_fmap. eauto.
  - induction 1 as [d depth Hd Hch IH]. constructor; [done|]. cbn.
    rewrite runtime_of_data_children. intros w Hw. apply list_elem_of_fmap in Hw as (w' & -> & Hw').
    by apply IH.
Qed.

Lemma runtime_of_data_bytes d : value_bytes (runtime_of_data d) = value_bytes d.
Proof.
  remember (data_size d) as n eqn:Hn. revert d Hn.
  induction (lt_wf n) as [n _ IH]. intros d ->. rewrite !value_bytes_eq. cbn.
  rewrite runtime_of_data_own, runtime_of_data_children. f_equal.
  assert (∀ ws, (∀ w, w ∈ ws → w ∈ data_children d) →
    foldr (λ w b, value_bytes w + b)%N 0%N (map runtime_of_data ws) =
    foldr (λ w b, value_bytes w + b)%N 0%N ws) as Hws; [|by apply Hws].
  induction ws as [|w ws IHws]; intros Hw; cbn; [done|].
  rewrite (IH (data_size w)); [|apply (@tree_size_child _ data_resources d), Hw; by left|done].
  rewrite IHws; [done|]. intros x Hx. apply Hw. by right.
Qed.

Lemma validate_runtime_of_data d :
  validate_runtime_value (runtime_of_data d) = Ok (N.of_nat (data_size d)) ↔
  validate_data_value d = Ok tt.
Proof.
  unfold validate_runtime_value, validate_data_value. rewrite result_bind_ok. split.
  - intros Hv. exists (N.of_nat (data_size d)). split; [|done].
    apply validate_resources_spec in Hv as (_ & Hn & Hf & Hb). apply validate_resources_spec.
    by rewrite runtime_of_data_fits, runtime_of_data_bytes in *.
  - intros (n & Hv & _). apply validate_resources_spec in Hv as (-> & Hn & Hf & Hb).
    apply validate_resources_spec. change (tree_size (runtime_of_data d)) with (runtime_size (runtime_of_data d)).
    rewrite runtime_of_data_size.
    rewrite runtime_of_data_fits, runtime_of_data_bytes. done.
Qed.

(** C17: the resource check accepts a runtime value exactly when it has at most
    100000 nodes, nesting at most 128 and at most 1 MiB of text, keys and bytes,
    and then reports its exact node count; the walk's stack never runs dry of
    fuel and no counter wraps. *)
Theorem validate_runtime_value_spec (v : RuntimeValue) (n : N) :
  validate_runtime_value v = Ok n ↔
  n = N.of_nat (runtime_size v) ∧ (n ≤ MAX_VALUE_NODES)%N ∧ fits_at v 1 ∧
  (value_bytes v ≤ MAX_VALUE_BYTES)%N.
Proof. exact (validate_resources_spec v n). Qed.

(** Data accepted at the host boundary enters the executor, is within the
    executor's own budgets at the same cost, and leaves as the same data; and
    whatever leaves as data is exactly what entering it again would give. *)
Theorem data_boundary_round_trip (d : DataValue) :
  validate_data_value d = Ok tt →
  data_try_from (runtime_of_data d) = Ok d ∧
  ∀ v, data_try_from v = Ok d → v = runtime_of_data d.
Proof.
  intros Hd. split.
  - unfold data_try_from. apply validate_runtime_of_data in Hd. rewrite Hd. cbn.
    apply try_from_runtime_of_data.
  - intros v Hv. unfold data_try_from in Hv. inv_result. symmetry. by apply try_from_validated_inv.
Qed.

Definition sample_data : DataValue :=
  DRecord [("a", DList [DInt 1; DNil]); ("b", DString "x")]%string.

Lemma data_boundary_round_trip_witness :
  validate_data_value sample_data = Ok tt ∧ data_try_from (runtime_of_data sample_data) = Ok sample_data.
Proof.
  split; [vm_compute; reflexivity|].
  apply (data_boundary_round_trip sample_data). vm_compute. reflexivity.
Defined.
