(* ===== verification/TypeContract.v ===== *)
(** * Runtime type contracts ([type_contract.rs], [execution/type_guard.rs])

    One matcher decides whether a value meets a declared type; runtimes project
    their values through [TypeContractValue]. Calls, bindings, capability
    arguments and results all go through it. *)

From S2P Require Import Prelude BTree Program Float64 Semantics Values Metadata.

Module Kind.
Inductive RuntimeTypeKind :=
  | Int | Float | Decimal | String | Bytes | Bool | Nil | List | Dict | Closure | Duration
  | Enum | Struct | TaskHandle | Channel | Atomic | Rng | SyncPermit | Resource
  | ResourceGuard | McpClient | VerdictReceipt | Set_ | Generator | Stream | Range | Iter
  | Pair | Harness.

#[export] Instance kind_eq_dec : EqDecision RuntimeTypeKind.
Proof. solve_decision. Defined.

Definition eqb (a b : RuntimeTypeKind) : bool := bool_decide (a = b).

(** [matches!(value.runtime_type_kind(), ..)] *)
Definition one_of (k : RuntimeTypeKind) (ks : list RuntimeTypeKind) : bool :=
  existsb (eqb k) ks.
End Kind.

(** [record_values_match] is given by the values it runs over. *)
Class TypeContractValue (V : Type) := {
  runtime_type_kind : V → Kind.RuntimeTypeKind;
  list_items : V → option (list V);
  record_field : V → string → option V;
  record_values : V → option (list V);
  string_literal : V → option string;
  int_literal : V → option Z;
  nominal_type_name : V → option string
}.

Definition is_nominal (name : string) (nominal_type_names : list string) : bool :=
  existsb (λ ty, String.eqb ty name) nominal_type_names.

(** The kinds each built-in type name accepts. *)
Definition named_kinds (name : string) : option (list Kind.RuntimeTypeKind) :=
  BTree.get name [
    ("int", [Kind.Int]);
    ("float", [Kind.Float; Kind.Int]); ("number", [Kind.Float; Kind.Int]);
    ("decimal", [Kind.Decimal]);
    ("string", [Kind.String]);
    ("bool", [Kind.Bool]);
    ("nil", [Kind.Nil]);
    ("list", [Kind.List]);
    ("dict", [Kind.Dict]); ("record", [Kind.Dict]);
    ("bytes", [Kind.Bytes]);
    ("duration", [Kind.Duration]);
    ("set", [Kind.Set_]);
    ("range", [Kind.Range]);
    ("iter", [Kind.Iter]);
    ("generator", [Kind.Generator]); ("Generator", [Kind.Generator]);
    ("stream", [Kind.Stream]); ("Stream", [Kind.Stream]);
    ("channel", [Kind.Channel]);
    ("task_handle", [Kind.TaskHandle]);
    ("atomic", [Kind.Atomic]);
    ("rng", [Kind.Rng]);
    ("sync_permit", [Kind.SyncPermit]);
    ("resource", [Kind.Resource]);
    ("resource_guard", [Kind.ResourceGuard]);
    ("mcp_client", [Kind.McpClient]);
    ("verdict_receipt", [Kind.VerdictReceipt]);
    ("pair", [Kind.Pair]);
    ("enum", [Kind.Enum]);
    ("struct", [Kind.Struct]);
    ("closure", [Kind.Closure])
  ]%string.

Definition option_is {A} (p : A → bool) (o : option A) : bool :=
  match o with Some a => p a | None => false end.

Section matching.
Context {V : Type} `{TypeContractValue V}.
Context (type_params nominal_type_names : list string).

Definition kind_in (value : V) (ks : list Kind.RuntimeTypeKind) : bool :=
  Kind.one_of (runtime_type_kind value) ks.

Definition nominal_is (value : V) (name : string) : bool :=
  option_is (λ actual, String.eqb actual name) (nominal_type_name value).

Definition matches_named (value : V) (name : string) : bool :=
  if existsb (λ param, String.eqb param name) type_params then true
  else if String.eqb name "any" || String.eqb name "unknown" then true
  else
    match named_kinds name with
    | Some ks => kind_in value ks
    | None =>
        if negb (is_nominal name nominal_type_names) then true else nominal_is value name
    end.

(** A shape's field against the record's. *)
Definition matches_field (rec : V → bool) (value : V) (name : string) (optional : bool) : bool :=
  match record_field value name with
  | Some field_value => (optional && kind_in field_value [Kind.Nil]) || rec field_value
  | None => optional
  end.

(** [matches_type] *)
Fixpoint matches_type (expected : TypeExpr.TypeExpr) (value : V) {struct expected} : bool :=
  match expected with
  | TypeExpr.Named name => matches_named value name
  | TypeExpr.Union members => existsb (λ member, matches_type member value) members
  | TypeExpr.Intersection members => forallb (λ member, matches_type member value) members
  | TypeExpr.List inner => option_is (forallb (matches_type inner)) (list_items value)
  | TypeExpr.Tuple elements =>
      match list_items value with
      | None => false
      | Some items =>
          (length items =? length elements)%nat &&
          (fix zip_match (elements : list TypeExpr.TypeExpr) (items : list V) : bool :=
             match elements, items with
             | element :: elements, item :: items =>
                 matches_type element item && zip_match elements items
             | _, _ => true
             end) elements items
      end
  | TypeExpr.DictType _ value_type =>
      kind_in value [Kind.Dict] && option_is (forallb (matches_type value_type)) (record_values value)
  | TypeExpr.Iter _ | TypeExpr.Generator _ | TypeExpr.Stream _ =>
      kind_in value [Kind.List; Kind.Generator; Kind.Stream]
  | TypeExpr.Shape fields | TypeExpr.OpenShape fields _ =>
      kind_in value [Kind.Dict; Kind.Struct] &&
      forallb (λ f, matches_field (matches_type (field_type f)) value (field_name f)
                      (field_optional f)) fields
  | TypeExpr.Applied name args =>
      let nominal :=
        if is_nominal name nominal_type_names then nominal_is value name else true in
      match args with
      | [inner] =>
          if String.eqb name "list" || String.eqb name "List"
          then option_is (forallb (matches_type inner)) (list_items value)
          else if String.eqb name "Option" && negb (is_nominal "Option" nominal_type_names)
          then kind_in value [Kind.Nil] || matches_type inner value
          else nominal
      | [_; value_type] =>
          if String.eqb name "dict" || String.eqb name "Dict"
          then kind_in value [Kind.Dict] &&
               option_is (forallb (matches_type value_type)) (record_values value)
          else nominal
      | _ => nominal
      end
  | TypeExpr.FnType _ _ => kind_in value [Kind.Closure]
  | TypeExpr.Never => false
  | TypeExpr.LitString expected => option_is (String.eqb expected) (string_literal value)
  | TypeExpr.LitInt expected => option_is (Z.eqb expected) (int_literal value)
  | TypeExpr.Owned inner => matches_type inner value
  end.
End matching.

(** ** Manifest types ([harn-builtin-meta], [harn-parser]) *)

Module Ty.
Inductive Ty :=
  | Named (name : string)
  | Generic (name : string)
  | Any
  | Optional (inner : Ty)
  | Apply (name : string) (args : list Ty)
  | Union (members : list Ty)
  | Fn (params : list Ty) (return_type : Ty)
  | Shape (fields : list (ShapeField Ty))
  | OpenShape (fields : list (ShapeField Ty)) (rests : list Ty)
  | SchemaOf (name : string)
  | Never
  | LitInt (value : Z)
  | LitString (value : string).
End Ty.

Definition one_of_names (name : string) (names : list string) : bool :=
  existsb (String.eqb name) names.

(** [ty_to_type_expr] *)
Fixpoint ty_to_type_expr (ty : Ty.Ty) : TypeExpr.TypeExpr :=
  match ty with
  | Ty.Named name | Ty.Generic name => TypeExpr.Named name
  | Ty.Any => TypeExpr.Named "any"
  | Ty.Optional inner => TypeExpr.Union [ty_to_type_expr inner; TypeExpr.Named "nil"]
  | Ty.Apply name args =>
      let applied := TypeExpr.Applied name (map ty_to_type_expr args) in
      match args with
      | [inner] =>
          let inner := ty_to_type_expr inner in
          if String.eqb name "list" then TypeExpr.List inner
          else if String.eqb name "iter" then TypeExpr.Iter inner
          else if one_of_names name ["generator"; "Generator"]%string then TypeExpr.Generator inner
          else if one_of_names name ["stream"; "Stream"]%string then TypeExpr.Stream inner
          else if String.eqb name "owned" then TypeExpr.Owned inner
          else applied
      | [key; value] =>
          if String.eqb name "dict"
          then TypeExpr.DictType (ty_to_type_expr key) (ty_to_type_expr value)
          else applied
      | _ => applied
      end
  | Ty.Union members => TypeExpr.Union (map ty_to_type_expr members)
  | Ty.Fn params return_type =>
      TypeExpr.FnType (map ty_to_type_expr params) (ty_to_type_expr return_type)
  | Ty.Shape fields =>
      TypeExpr.Shape (map (λ f, mkShapeField (field_name f) (ty_to_type_expr (field_type f))
                                  (field_optional f)) fields)
  | Ty.OpenShape fields rests =>
      TypeExpr.OpenShape
        (map (λ f, mkShapeField (field_name f) (ty_to_type_expr (field_type f))
                     (field_optional f)) fields)
        (map ty_to_type_expr rests)
  | Ty.SchemaOf name => TypeExpr.Applied "Schema" [TypeExpr.Named name]
  | Ty.Never => TypeExpr.Never
  | Ty.LitInt v => TypeExpr.LitInt v
  | Ty.LitString s => TypeExpr.LitString s
  end.

(** [matches_manifest_type] *)
Definition matches_manifest_type {V} `{TypeContractValue V} (value : V) (expected : Ty.Ty) : bool :=
  matches_type [] [] (ty_to_type_expr expected) value.

Definition portable_names : list string :=
  ["any"; "unknown"; "nil"; "bool"; "int"; "float"; "number"; "string"; "bytes"; "list";
   "dict"; "record"]%string.

(** [manifest_dict_key_is_portable] *)
Fixpoint manifest_dict_key_is_portable (expected : Ty.Ty) : bool :=
  match expected with
  | Ty.Any | Ty.LitString _ => true
  | Ty.Named name => one_of_names name ["any"; "unknown"; "string"]%string
  | Ty.Union members =>
      match members with [] => false | _ => true end &&
      forallb manifest_dict_key_is_portable members
  | _ => false
  end.

(** [manifest_type_is_portable] *)
Fixpoint manifest_type_is_portable (expected : Ty.Ty) : bool :=
  match expected with
  | Ty.Any | Ty.LitInt _ | Ty.LitString _ => true
  | Ty.Named name => one_of_names name portable_names
  | Ty.Optional inner => manifest_type_is_portable inner
  | Ty.Apply name args =>
      match args with
      | [inner] =>
          one_of_names name ["list"; "List"; "Option"]%string && manifest_type_is_portable inner
      | [key; value] =>
          one_of_names name ["dict"; "Dict"]%string && manifest_dict_key_is_portable key &&
          manifest_type_is_portable value
      | _ => false
      end
  | Ty.Union members =>
      match members with [] => false | _ => true end &&
      forallb manifest_type_is_portable members
  | Ty.Shape fields => forallb (λ f, manifest_type_is_portable (field_type f)) fields
  | Ty.OpenShape fields rests =>
      forallb (λ f, manifest_type_is_portable (field_type f)) fields &&
      forallb manifest_type_is_portable rests
  | Ty.Generic _ | Ty.Fn _ _ | Ty.SchemaOf _ | Ty.Never => false
  end.

(** [BuiltinSignature]: what the executor reads of it. *)
Record SigParam := mkSigParam { par_ty : Ty.Ty; par_optional : bool }.
Record BuiltinSignature := mkSignature {
  sig_params : list SigParam;
  sig_returns : Ty.Ty;
  sig_has_rest : bool
}.

(** [manifest_signature_is_portable] *)
Definition manifest_signature_is_portable (signature : BuiltinSignature) : bool :=
  forallb (λ p, manifest_type_is_portable (par_ty p)) (sig_params signature) &&
  manifest_type_is_portable (sig_returns signature).

(** ** The values that are matched *)

(** [impl TypeContractValue for DataValue] *)
#[export] Instance data_contract : TypeContractValue DataValue := {
  runtime_type_kind v :=
    match v with
    | DNil => Kind.Nil
    | DBool _ => Kind.Bool
    | DInt _ => Kind.Int
    | DFloat _ => Kind.Float
    | DString _ => Kind.String
    | DBytes _ => Kind.Bytes
    | DList _ => Kind.List
    | DRecord _ => Kind.Dict
    end;
  list_items v := match v with DList items => Some items | _ => None end;
  record_field v name := match v with DRecord fields => BTree.get name fields | _ => None end;
  record_values v := match v with DRecord fields => Some (BTree.values fields) | _ => None end;
  string_literal v := match v with DString value => Some value | _ => None end;
  int_literal v := match v with DInt value => Some value | _ => None end;
  nominal_type_name v := None
}.

(** [impl TypeContractValue for RuntimeValue] *)
#[export] Instance runtime_contract : TypeContractValue RuntimeValue := {
  runtime_type_kind v :=
    match v with
    | RNil => Kind.Nil
    | RBool _ => Kind.Bool
    | RInt _ => Kind.Int
    | RFloat _ => Kind.Float
    | RString _ => Kind.String
    | RBytes _ => Kind.Bytes
    | RList _ => Kind.List
    | RRecord _ => Kind.Dict
    | REnum _ _ _ => Kind.Enum
    | RClosure _ _ | RBuiltin _ => Kind.Closure
    | RHarness _ => Kind.Harness
    | RException _ _ => Kind.Resource
    end;
  list_items v := match v with RList items => Some items | _ => None end;
  record_field v name := match v with RRecord fields => BTree.get name fields | _ => None end;
  record_values v := match v with RRecord fields => Some (BTree.values fields) | _ => None end;
  string_literal v := match v with RString value => Some value | _ => None end;
  int_literal v := match v with RInt value => Some value | _ => None end;
  nominal_type_name v := match v with REnum enum_name _ _ => Some enum_name | _ => None end
}.

(** ** The compiler's schemas for defaulted parameters *)

Definition MAX_SCHEMA_DEPTH : nat := 256.

Section schema.
Context {V : Type} `{TypeContractValue V}.

(** [literal_matches] *)
Definition literal_matches (value : V) (expected : DataValue) : bool :=
  match expected with
  | DString expected => option_is (String.eqb expected) (string_literal value)
  | DInt expected => option_is (Z.eqb expected) (int_literal value)
  | DNil => kind_in value [Kind.Nil]
  | _ => false
  end.

(** The kinds of the schema's [type]; anything else matches nothing. *)
Definition schema_kinds (name : string) : list Kind.RuntimeTypeKind :=
  default [] (BTree.get name [
    ("int", [Kind.Int]);
    ("float", [Kind.Int; Kind.Float]);
    ("string", [Kind.String]);
    ("bool", [Kind.Bool]);
    ("nil", [Kind.Nil]);
    ("list", [Kind.List]);
    ("dict", [Kind.Dict]);
    ("bytes", [Kind.Bytes]);
    ("closure", [Kind.Closure]);
    ("set", [Kind.Set_])
  ]%string).

(** The keywords that need no recursion. *)
Definition schema_type_ok (value : V) (fields : btree DataValue) : bool :=
  match BTree.get "type" fields with
  | Some (DString expected) => kind_in value (schema_kinds expected)
  | _ => true
  end.

Definition schema_enum_ok (value : V) (fields : btree DataValue) : bool :=
  match BTree.get "enum" fields with
  | Some (DList allowed) => existsb (literal_matches value) allowed
  | _ => true
  end.

Definition schema_const_ok (value : V) (fields : btree DataValue) : bool :=
  match BTree.get "const" fields with
  | Some expected => literal_matches value expected
  | None => true
  end.

Definition schema_required_ok (value : V) (fields : btree DataValue) : bool :=
  match BTree.get "required" fields with
  | Some (DList required) =>
      forallb (λ name, match name with
                       | DString name => bool_decide (is_Some (record_field value name))
                       | _ => false
                       end) required
  | _ => true
  end.

(** [matches_compiler_schema_inner], with [fuel] the levels left before
    [MAX_SCHEMA_DEPTH]: running out of them rejects, as the code does. *)
Fixpoint schema_matches (fuel : nat) (value : V) (schema : DataValue) : bool :=
  match fuel, schema with
  | S fuel, DRecord fields =>
      match BTree.get "union" fields with
      | Some (DList branches) => existsb (schema_matches fuel value) branches
      | _ =>
          match BTree.get "all_of" fields with
          | Some (DList branches) => forallb (schema_matches fuel value) branches
          | _ =>
              schema_type_ok value fields && schema_enum_ok value fields &&
              schema_const_ok value fields && schema_required_ok value fields &&
              match BTree.get "properties" fields with
              | Some (DRecord properties) =>
                  forallb (λ p, match record_field value p.1 with
                                | Some child => schema_matches fuel child p.2
                                | None => true
                                end) properties
              | _ => true
              end &&
              match BTree.get "additional_properties" fields with
              | Some additional =>
                  option_is (forallb (λ child, schema_matches fuel child additional))
                    (record_values value)
              | None => true
              end
          end
      end
  | _, _ => false
  end.

(** [matches_compiler_schema] *)
Definition matches_compiler_schema (value : V) (schema : DataValue) : bool :=
  schema_matches MAX_SCHEMA_DEPTH value schema.
End schema.

(** ** Result shapes ([execution/types.rs]) *)

Module ValueShape.
Inductive ValueShape := Any | Nil | Bool | Int | Float | String | Bytes | List | Record_.

(** [ValueShape::from_type] *)
Definition from_type (ty : Ty.Ty) : ValueShape :=
  match ty with
  | Ty.Never => Nil
  | Ty.LitInt _ => Int
  | Ty.LitString _ => String
  | Ty.Shape _ | Ty.OpenShape _ _ => Record_
  | Ty.Named name =>
      default Any (BTree.get name [
        ("nil", Nil); ("bool", Bool); ("int", Int); ("float", Float); ("string", String);
        ("bytes", Bytes); ("list", List); ("dict", Record_); ("record", Record_)]%string)
  | Ty.Apply name _ => if one_of_names name ["list"; "List"]%string then List else Any
  | _ => Any
  end.
End ValueShape.

(** ** Calls and bindings ([execution/type_guard.rs]) *)

Definition minimum_arguments (function : CompiledFunction) : N :=
  if fn_has_rest_param function
  then N.min (required_param_count function) (len (fn_params function) - 1)
  else required_param_count function.

(** [maximum.is_some_and(|limit| arguments.len() > limit)] *)
Definition too_many_arguments (function : CompiledFunction) (count : N) : bool :=
  negb (fn_has_rest_param function) && (len (fn_params function) <? count)%N.

(** The parameter the argument at [index] is checked against. *)
Definition parameter_of (function : CompiledFunction) (index : nat) : option ParamSlot :=
  if fn_has_rest_param function && (length (fn_params function) - 1 <=? index)
  then last (fn_params function)
  else fn_params function !! index.

Definition argument_accepted (function : CompiledFunction) (index : nat) (value : RuntimeValue)
    : bool :=
  match parameter_of function index with
  | Some parameter =>
      match param_type_expr parameter with
      | Some expected =>
          matches_type (fn_type_params function) (fn_nominal_type_names function) expected value
      | None => true
      end
  | None => true
  end.

Fixpoint check_arguments (function : CompiledFunction) (index : nat) (arguments : list RuntimeValue)
    : result unit :=
  match arguments with
  | [] => Ok tt
  | value :: arguments =>
      _ ← reject_if (negb (argument_accepted function index value)) argument_type;
      check_arguments function (S index) arguments
  end.

(** [validate_call] *)
Definition validate_call (function : CompiledFunction) (arguments : list RuntimeValue)
    : result unit :=
  _ ← reject_if ((len arguments <? minimum_arguments function)%N ||
                 too_many_arguments function (len arguments)) arity_mismatch;
  if negb (fn_has_runtime_type_checks function) then Ok tt
  else check_arguments function 0 arguments.

(** [validate_binding] *)
Definition validate_binding (value : RuntimeValue) (slot : BindingTypeSlot) : result unit :=
  reject_if (negb (matches_type [] (binding_nominal_type_names slot) (binding_type_expr slot) value))
    binding_type.

(** ** The guards do not change with the representation *)

(** A projection that keeps what the matcher looks at. *)
Class ContractHom {V W : Type} `{TypeContractValue V, TypeContractValue W} (f : V → W) := {
  hom_kind v : runtime_type_kind (f v) = runtime_type_kind v;
  hom_items v : list_items (f v) = map f <$> list_items v;
  hom_field v name : record_field (f v) name = f <$> record_field v name;
  hom_values v : record_values (f v) = map f <$> record_values v;
  hom_string v : string_literal (f v) = string_literal v;
  hom_int v : int_literal (f v) = int_literal v;
  hom_nominal v : nominal_type_name (f v) = nominal_type_name v
}.

Lemma forallb_map {A B} (f : A → B) p l : forallb p (map f l) = forallb (λ x, p (f x)) l.
Proof. induction l; cbn; congruence. Qed.

Lemma forallb_ext_in {A} (p q : A → bool) l :
  Forall (λ x, p x = q x) l → forallb p l = forallb q l.
Proof. induction 1; cbn; congruence. Qed.

Lemma existsb_ext_in {A} (p q : A → bool) l :
  Forall (λ x, p x = q x) l → existsb p l = existsb q l.
Proof. induction 1; cbn; congruence. Qed.

Lemma forallb_ext' {A} (p q : A → bool) l : (∀ x, p x = q x) → forallb p l = forallb q l.
Proof. intros Hpq. apply forallb_ext_in, Forall_true, Hpq. Qed.

Section hom.
Context {V W : Type} `{HV : TypeContractValue V, HW : TypeContractValue W}.
Context (f : V → W) `{!ContractHom f}.
Context (type_params nominal_type_names : list string).

Abbreviation matches := (matches_type type_params nominal_type_names).

Lemma hom_kind_in v ks : kind_in (f v) ks = kind_in v ks.
Proof. unfold kind_in. by rewrite hom_kind. Qed.

Lemma hom_nominal_is v name : nominal_is (f v) name = nominal_is v name.
Proof. unfold nominal_is. by rewrite hom_nominal. Qed.

Lemma hom_matches_named v name :
  matches_named type_params nominal_type_names (f v) name =
  matches_named type_params nominal_type_names v name.
Proof.
  unfold matches_named. repeat case_match; rewrite ?hom_kind_in, ?hom_nominal_is; done.
Qed.

Lemma hom_all (p : W → bool) (q : V → bool) (o : option (list V)) :
  (∀ v, p (f v) = q v) →
  option_is (forallb p) (map f <$> o) = option_is (forallb q) o.
Proof.
  intros Hpq. destruct o; cbn; [|done]. rewrite forallb_map. by apply forallb_ext'.
Qed.

Lemma hom_matches_field p q v name optional :
  (∀ v, p (f v) = q v) →
  matches_field p (f v) name optional = matches_field q v name optional.
Proof.
  intros Hpq. unfold matches_field. rewrite hom_field.
  destruct (record_field v name); cbn [fmap option_fmap option_map]; [|done]. by rewrite hom_kind_in, Hpq.
Qed.

Lemma hom_fields v fs :
  Forall (λ fl, ∀ v, matches (field_type fl) (f v) = matches (field_type fl) v) fs →
  forallb (λ fl, matches_field (matches (field_type fl)) (f v) (field_name fl)
                   (field_optional fl)) fs =
  forallb (λ fl, matches_field (matches (field_type fl)) v (field_name fl)
                   (field_optional fl)) fs.
Proof.
  intros Hfs. apply forallb_ext_in. eapply Forall_impl; [exact Hfs|].
  cbn. intros fl Hfl. by apply hom_matches_field.
Qed.

Lemma hom_matches_type t v : matches t (f v) = matches t v.
Proof.
  revert v; induction t as [name|ts IH|ts IH|fs IH|fs ts IH _|t IH|ts IH|k e IHk IHe|t IH|t IH|t IH|t IH
    |name ts IH|ts t IH IHt| |s|z] using TypeExpr.type_expr_ind; intros v; cbn [matches_type].
  - apply hom_matches_named.
  - apply existsb_ext_in. eapply Forall_impl; [exact IH|]. cbn; auto.
  - apply forallb_ext_in. eapply Forall_impl; [exact IH|]. cbn; auto.
  - by rewrite hom_kind_in, hom_fields.
  - by rewrite hom_kind_in, hom_fields.
  - rewrite hom_items. by apply hom_all.
  - rewrite hom_items. destruct (list_items v) as [items|]; cbn; [|done].
    rewrite length_map. f_equal. clear v. revert items.
    induction IH as [|t ts Ht Hts IHts]; intros [|item items]; cbn; try done. by rewrite Ht, IHts.
  - rewrite hom_kind_in, hom_values. f_equal. by apply hom_all.
  - apply hom_kind_in.
  - apply hom_kind_in.
  - apply hom_kind_in.
  - apply IH.
  - assert (∀ b, (if is_nominal name nominal_type_names then nominal_is (f v) name else b) =
      (if is_nominal name nominal_type_names then nominal_is v name else b)) as Hnom
      by (intros b; by rewrite hom_nominal_is).
    destruct IH as [|t ts Ht IH]; [apply Hnom|]. destruct IH as [|t' ts Ht' IH].
    + repeat case_match; rewrite ?hom_nominal_is; auto;
        first [by rewrite hom_kind_in, Ht | rewrite hom_items; by apply hom_all | idtac].
    + destruct ts; [|apply Hnom]. repeat case_match; rewrite ?hom_nominal_is; auto.
      all: rewrite hom_kind_in, hom_values; f_equal; by apply hom_all.
  - apply hom_kind_in.
  - done.
  - by rewrite hom_string.
  - by rewrite hom_int.
Qed.
End hom.

Lemma get_map_values {V W} (f : V → W) k (m : btree V) :
  BTree.get k (map (λ e, (e.1, f e.2)) m) = f <$> BTree.get k m.
Proof. induction m as [|[k' v] m IH]; cbn; [done|]. by destruct (String.eqb k k'). Qed.

#[export] Instance runtime_of_data_hom : ContractHom runtime_of_data.
Proof.
  constructor; try by intros [].
  - intros [] name; cbn; try done. apply get_map_values.
  - intros []; cbn; try done. f_equal. unfold BTree.values. by rewrite !map_map.
Qed.

(** Type contracts do not change at the host boundary: a portable value
    meets a declared type exactly when the runtime value it becomes does, for
    every type, type parameters and nominal names in scope. *)
Theorem matches_type_boundary type_params nominal_type_names expected d :
  matches_type type_params nominal_type_names expected (runtime_of_data d) =
  matches_type type_params nominal_type_names expected d.
Proof. apply (hom_matches_type runtime_of_data). Qed.

(** ** Calls *)

Lemma check_arguments_spec function index arguments :
  check_arguments function index arguments = Ok tt ↔
  ∀ i v, arguments !! i = Some v → argument_accepted function (index + i) v = true.
Proof.
  revert index; induction arguments as [|v vs IH]; intros index; cbn; [done|].
  destruct (argument_accepted function index v) eqn:E; cbn.
  - rewrite IH. split.
    + intros Hall [|i] w Hw; cbn in Hw; [injection Hw as <-; by rewrite Nat.add_0_r|].
      rewrite Nat.add_succ_r, <-Nat.add_succ_l. by apply Hall.
    + intros Hall i w Hw. rewrite Nat.add_succ_l, <-Nat.add_succ_r. by apply Hall.
  - split; [done|]. intros Hall. specialize (Hall 0 v eq_refl). rewrite Nat.add_0_r in Hall. congruence.
Qed.

(** The flag says whether some parameter's type constrains anything; the
    verifier refuses artifacts in which it does not. *)
Definition flag_coherent (function : CompiledFunction) : Prop :=
  fn_has_runtime_type_checks function =
  existsb (λ p, match param_type_expr p with
                | Some t => requires_runtime_type_check t
                | None => false
                end) (fn_params function).

(** [any] and [unknown] accept everything. *)
Lemma unchecked_accepts {V} `{TypeContractValue V} ps ns t (v : V) :
  requires_runtime_type_check t = false → matches_type ps ns t v = true.
Proof.
  destruct t; cbn; try done. intros Hn. apply negb_false_iff in Hn.
  unfold matches_named. rewrite Hn. by destruct (existsb _ _).
Qed.

Lemma existsb_false {A} (p : A → bool) l x : existsb p l = false → x ∈ l → p x = false.
Proof.
  induction l as [|y l IH]; cbn; [by intros _ ?%not_elem_of_nil|].
  intros [Hy Hl]%orb_false_iff [->|Hx]%elem_of_cons; auto.
Qed.

Lemma parameter_of_elem function index p :
  parameter_of function index = Some p → p ∈ fn_params function.
Proof.
  unfold parameter_of. destruct (_ && _).
  - intros Hp. apply last_Some in Hp as [l ->]. apply elem_of_app. right. by left.
  - apply list_elem_of_lookup_2.
Qed.

Lemma elided_accepts function index v :
  flag_coherent function → fn_has_runtime_type_checks function = false →
  argument_accepted function index v = true.
Proof.
  unfold flag_coherent, argument_accepted. intros -> Hf.
  destruct (parameter_of function index) as [p|] eqn:Hp; [|done].
  apply parameter_of_elem in Hp. apply (existsb_false _ _ p) in Hf; [|done].
  cbn in Hf. destruct (param_type_expr p) as [t|]; [|done]. by apply unchecked_accepts.
Qed.

(** A call is accepted exactly when it has at least the required and at
    most the declared arguments (unless the last parameter takes the rest) and
    every argument meets the type of its parameter, the rest parameter's type
    standing for each surplus argument. Skipping the type loop when the flag
    is clear never lets a wrong argument through. *)
Theorem validate_call_spec function arguments :
  flag_coherent function →
  validate_call function arguments = Ok tt ↔
  (minimum_arguments function ≤ len arguments)%N ∧
  (fn_has_rest_param function = true ∨ len arguments ≤ len (fn_params function))%N ∧
  ∀ i v, arguments !! i = Some v → argument_accepted function i v = true.
Proof.
  intros Hflag. unfold validate_call, too_many_arguments, reject_if.
  destruct (N.ltb_spec (len arguments) (minimum_arguments function)); cbn.
  { split; [done|]. intros (? & _). lia. }
  destruct (fn_has_rest_param function) eqn:Hrest; cbn.
  2: destruct (N.ltb_spec (len (fn_params function)) (len arguments)); cbn.
  2: { split; [done|]. intros (_ & [?|?] & _); [done|lia]. }
  all: destruct (fn_has_runtime_type_checks function) eqn:Hchecks; cbn [negb];
    rewrite ?check_arguments_spec; (split; [intros Hok|intros (_ & _ & Hok)]); auto;
    (split; [done|split; [auto|]]); auto.
  all: intros i v _; by apply elided_accepts.
Qed.

(** ** Portable types *)

(** The shapes a value has. *)
Definition has_shape (d : DataValue) (s : ValueShape.ValueShape) : bool :=
  match s with
  | ValueShape.Any => true
  | ValueShape.Nil => kind_in d [Kind.Nil]
  | ValueShape.Bool => kind_in d [Kind.Bool]
  | ValueShape.Int => kind_in d [Kind.Int]
  | ValueShape.Float => kind_in d [Kind.Float; Kind.Int]
  | ValueShape.String => kind_in d [Kind.String]
  | ValueShape.Bytes => kind_in d [Kind.Bytes]
  | ValueShape.List => kind_in d [Kind.List]
  | ValueShape.Record_ => kind_in d [Kind.Dict]
  end.

Lemma list_items_kind (d : DataValue) p : option_is p (list_items d) = true → kind_in d [Kind.List] = true.
Proof. by destruct d. Qed.

Lemma portable_name_shape (d : DataValue) name :
  one_of_names name portable_names = true → matches_named [] [] d name = true →
  has_shape d (ValueShape.from_type (Ty.Named name)) = true.
Proof.
  intros Hn Hm. apply existsb_exists in Hn as (n & Hin & Heq%String.eqb_eq). subst n.
  unfold portable_names in Hin. repeat destruct Hin as [<-|Hin]; try done; exact Hm.
Qed.

(** C30: The shape a capability request advertises for its result is sound: a
    value accepted against a portable manifest type has the shape
    [ValueShape::from_type] gives that type (an int may stand where a float is
    expected). *)
Theorem value_shape_sound ty (d : DataValue) :
  manifest_type_is_portable ty = true → matches_manifest_type d ty = true →
  has_shape d (ValueShape.from_type ty) = true.
Proof.
  unfold matches_manifest_type.
  destruct ty as [name|name| |inner|name args|members|ps r|fields|fields rests|name| |z|s];
    intros Hp Hm; try done.
  - by apply portable_name_shape.
  - destruct args as [|a [|b [|? ?]]]; try discriminate Hp; cbn in Hp.
    + cbn [ValueShape.from_type]. destruct (one_of_names name ["list"; "List"]) eqn:Hl; [|done].
      cbn in Hl. cbn [ty_to_type_expr] in Hm.
      apply orb_true_iff in Hl as [->%String.eqb_eq|Hl]; [by destruct d|].
      apply orb_true_iff in Hl as [->%String.eqb_eq|]; [by destruct d|done].
    + cbn [ValueShape.from_type]. apply andb_true_iff in Hp as [[Hn _]%andb_true_iff _].
      apply orb_true_iff in Hn as [->%String.eqb_eq|Hn]; [done|].
      by apply orb_true_iff in Hn as [->%String.eqb_eq|].
  - cbn in Hm |- *. apply andb_true_iff in Hm as [Hk _]. by destruct d.
  - cbn in Hm |- *. apply andb_true_iff in Hm as [Hk _]. by destruct d.
  - cbn in Hm |- *. by destruct d.
  - cbn in Hm |- *. by destruct d.
Qed.

Lemma value_shape_sound_witness :
  has_shape (DList [DString "kernel"]) (ValueShape.from_type (Ty.Apply "list" [Ty.Named "string"])) = true.
Proof. apply value_shape_sound; reflexivity. Defined.

(** ** A function to call *)

Definition sample_callee : CompiledFunction :=
  mkCompiledFunction "greet" [] []
    [mkParamSlot "name" (Some (TypeExpr.Named "string")) false;
     mkParamSlot "more" (Some (TypeExpr.Named "int")) false]
    None (mkChunk [] [] [] [] None [] [] [] false) false false true true.

Lemma validate_call_spec_witness :
  validate_call sample_callee [RString "x"; RInt 1; RInt 2] = Ok tt.
Proof.
  apply validate_call_spec; [reflexivity|]. split; [vm_compute; discriminate|].
  split; [by left|]. intros [|[|[|i]]] v; cbn; intros [= <-]; reflexivity.
Defined.
