(* ===== verification/Text.v ===== *)
(** * Text primitives ([pure.rs] and the [str] methods the executor uses)

    A string is its UTF-8 bytes; a [char] is the string of its encoding. *)

From Stdlib Require Import Strings.String.
From S2P Require Import Prelude Program Values.

(** ** Characters *)

(** A lead byte takes the continuation bytes that follow it. *)
Fixpoint char_groups (bs : list byte) : list (list byte) :=
  match bs with
  | [] => []
  | b :: bs =>
      match char_groups bs with
      | (c :: g) :: gs => if is_continuation c then (b :: c :: g) :: gs else [b] :: (c :: g) :: gs
      | gs => [b] :: gs
      end
  end.

(** [str::chars] *)
Definition chars (s : string) : list string := map from_bytes (char_groups (as_bytes s)).

(** [chars.iter().collect::<String>()] *)
Definition of_chars (cs : list string) : string := String.concat "" cs.

(** [s.chars().count()] *)
Definition char_count (s : string) : N := len (chars s).

(** [char::is_whitespace] (Unicode [White_Space]), on the bytes of the character. *)
Definition is_whitespace (c : string) : bool :=
  match map b2n (as_bytes c) with
  | [b] => ((9 <=? b) && (b <=? 13) || (b =? 32))%N
  | [194; b]%N => ((b =? 133) || (b =? 160))%N
  | [225; 154; 128]%N => true
  | [226; 128; b]%N => ((128 <=? b) && (b <=? 138) || (b =? 168) || (b =? 169) || (b =? 175))%N
  | [226; 129; 159]%N => true
  | [227; 128; 128]%N => true
  | _ => false
  end.

Fixpoint skip_while (p : string → bool) (cs : list string) : list string :=
  match cs with
  | c :: cs' => if p c then skip_while p cs' else cs
  | [] => []
  end.

(** [trim_text] *)
Definition trim_text (s : string) : string :=
  of_chars (reverse (skip_while is_whitespace (reverse (skip_while is_whitespace (chars s))))).

(** ** Substrings *)

(** [starts_with_text] *)
Definition starts_with_text (s prefix : string) : bool := String.prefix prefix s.

(** [str::contains] *)
Fixpoint str_contains (s needle : string) : bool :=
  String.prefix needle s ||
  match s with
  | EmptyString => false
  | String _ s => str_contains s needle
  end.

Definition str_drop (n : nat) (s : string) : string := String.substring n (String.length s - n) s.

(** [ends_with_text] *)
Definition ends_with_text (s suffix : string) : bool :=
  (String.length suffix <=? String.length s) &&
  String.eqb (str_drop (String.length s - String.length suffix) s) suffix.

(** [replace_text] for a non-empty [old]: matches from the left, not overlapping. *)
Fixpoint replace_from (skip : nat) (old new s : string) : string :=
  match s with
  | EmptyString => EmptyString
  | String a s' =>
      match skip with
      | S skip => replace_from skip old new s'
      | O =>
          if String.prefix old s
          then (new ++ replace_from (String.length old - 1) old new s')%string
          else String a (replace_from 0 old new s')
      end
  end.

(** [replace_text]: an empty [old] matches at every character boundary. *)
Definition replace_text (s old new : string) : string :=
  match old with
  | EmptyString => (new ++ of_chars (map (λ c, c ++ new) (chars s)))%string
  | _ => replace_from 0 old new s
  end.

(** ** Hexadecimal and lossy decoding *)

Definition hex_digit (n : N) : byte := n2b (if n <? 10 then 48 + n else 87 + n)%N.

(** [hex_encode] *)
Definition hex_encode (bs : list byte) : string :=
  from_bytes (concat (map (λ b, [hex_digit (b2n b / 16); hex_digit (b2n b mod 16)]) bs)).

(** U+FFFD *)
Definition replacement : list byte := map n2b [239; 191; 189]%N.

(** The second byte that may follow a lead byte, and the length of the sequence. *)
Definition lead (b0 : byte) : option (N * N * nat) :=
  if byte_in 194 223 b0 then Some (128%N, 191%N, 2)
  else if byte_in 224 224 b0 then Some (160%N, 191%N, 3)
  else if byte_in 237 237 b0 then Some (128%N, 159%N, 3)
  else if byte_in 225 239 b0 then Some (128%N, 191%N, 3)
  else if byte_in 240 240 b0 then Some (144%N, 191%N, 4)
  else if byte_in 241 243 b0 then Some (128%N, 191%N, 4)
  else if byte_in 244 244 b0 then Some (128%N, 143%N, 4)
  else None.

(** [String::from_utf8_lossy]: each maximal invalid prefix becomes one U+FFFD. *)
Fixpoint utf8_lossy (bs : list byte) : list byte :=
  match bs with
  | [] => []
  | b0 :: r0 =>
      if byte_in 0 127 b0 then b0 :: utf8_lossy r0 else
      match lead b0, r0 with
      | Some (lo, hi, n), b1 :: r1 =>
          if negb (byte_in lo hi b1) then replacement ++ utf8_lossy r0
          else if (n =? 2)%nat then b0 :: b1 :: utf8_lossy r1 else
          match r1 with
          | b2 :: r2 =>
              if negb (is_continuation b2) then replacement ++ utf8_lossy r1
              else if (n =? 3)%nat then b0 :: b1 :: b2 :: utf8_lossy r2 else
              match r2 with
              | b3 :: r3 =>
                  if negb (is_continuation b3) then replacement ++ utf8_lossy r2
                  else b0 :: b1 :: b2 :: b3 :: utf8_lossy r3
              | [] => replacement
              end
          | [] => replacement
          end
      | _, _ => replacement ++ utf8_lossy r0
      end
  end.

(** ** Paths *)

Fixpoint map_string (f : Ascii.ascii → Ascii.ascii) (s : string) : string :=
  match s with
  | EmptyString => EmptyString
  | String a s => String (f a) (map_string f s)
  end.

Definition slash : Ascii.ascii := Ascii.ascii_of_N 47.
Definition backslash : Ascii.ascii := Ascii.ascii_of_N 92.

Definition slash_of_backslash (a : Ascii.ascii) : Ascii.ascii :=
  if Ascii.eqb a backslash then slash else a.

Fixpoint trim_start_slashes (s : string) : string :=
  match s with
  | String a s' => if Ascii.eqb a slash then trim_start_slashes s' else s
  | EmptyString => EmptyString
  end.

Definition is_absolute (segment : string) : bool :=
  starts_with_text segment "/" || String.eqb (String.substring 1 2 segment) ":/".

(** One iteration of [join_path_segments]. *)
Definition join_path_segment (joined segment : string) : string :=
  let segment := map_string slash_of_backslash segment in
  if String.eqb segment "" then joined
  else if is_absolute segment then segment
  else
    let joined :=
      if negb (String.eqb joined "") && negb (ends_with_text joined "/")
      then (joined ++ "/")%string else joined in
    (joined ++ trim_start_slashes segment)%string.

(** [join_path_segments] *)
Definition join_path_segments (segments : list string) : string :=
  fold_left join_path_segment segments EmptyString.

Example text_methods :
  trim_text " Harn " = "Harn"%string ∧
  replace_text "aaa" "aa" "b" = "ba"%string ∧
  replace_text "ab" "" "-" = "-a-b-"%string ∧
  join_path_segments ["/repo"; ".harn"; "state.json"]%string = "/repo/.harn/state.json"%string ∧
  join_path_segments ["ignored"; "C:\repo"; "file"]%string = "C:/repo/file"%string ∧
  utf8_lossy (map n2b [104; 195; 40; 226; 130]%N) =
    map n2b [104; 239; 191; 189; 40; 239; 191; 189]%N ∧
  hex_encode (map n2b [0; 171]%N) = "00ab"%string.
Proof. vm_compute. done. Qed.

(** ** Counting characters *)

(** Bytes that begin a character. *)
Definition lead_count (bs : list byte) : nat :=
  length (filter (λ b, is_continuation b = false) bs).

Lemma char_groups_head bs c g gs : char_groups bs = (c :: g) :: gs → head bs = Some c.
Proof.
  destruct bs as [|b bs]; cbn; [done|].
  destruct (char_groups bs) as [|[|c' g'] gs']; try (intros [= -> _ _]; done).
  destruct (is_continuation c'); by intros [= -> _ _].
Qed.

Lemma char_groups_nonempty bs g gs : char_groups bs = g :: gs → g ≠ [].
Proof.
  destruct bs as [|b bs]; cbn; [done|].
  destruct (char_groups bs) as [|[|c' g'] gs']; try (by intros [= <- _]).
  destruct (is_continuation c'); by intros [= <- _].
Qed.

Lemma char_groups_length b bs : length (char_groups (b :: bs)) = S (lead_count bs).
Proof.
  revert b; induction bs as [|c bs IH]; intros b; [done|]. specialize (IH c).
  change (char_groups (b :: c :: bs)) with
    (match char_groups (c :: bs) with
     | (d :: g) :: gs => if is_continuation d then (b :: d :: g) :: gs else [b] :: (d :: g) :: gs
     | gs => [b] :: gs
     end).
  destruct (char_groups (c :: bs)) as [|[|d g] gs] eqn:E; [done|by apply char_groups_nonempty in E|].
  pose proof (char_groups_head _ _ _ _ E) as Hd. injection Hd as ->.
  unfold lead_count in *. rewrite filter_cons.
  destruct (is_continuation d); [rewrite decide_False by done|rewrite decide_True by done];
    cbn [length] in *; lia.
Qed.

(** A slice that begins a character. *)
Definition starts_char (bs : list byte) : Prop :=
  match bs with [] => True | b :: _ => is_continuation b = false end.

Lemma chars_length bs : starts_char bs → length (char_groups bs) = lead_count bs.
Proof.
  destruct bs as [|b bs]; [done|]. intros Hb. rewrite char_groups_length.
  unfold lead_count. by rewrite filter_cons, decide_True.
Qed.

Lemma lead_count_app a b : lead_count (a ++ b) = lead_count a + lead_count b.
Proof. unfold lead_count. by rewrite filter_app, length_app. Qed.

Lemma as_bytes_substring n m s : as_bytes (String.substring n m s) = take m (drop n (as_bytes s)).
Proof.
  unfold as_bytes, String.list_byte_of_string.
  revert n m; induction s as [|a s IH]; intros [|n] [|m]; cbn; try done.
  f_equal. by rewrite IH, drop_0.
Qed.

Lemma take_slice {A} (l : list A) a b : a ≤ b → take b l = take a l ++ take (b - a) (drop a l).
Proof. intros Hab. rewrite <-(take_drop a (take b l)), take_take, Nat.min_l by done. by rewrite skipn_firstn_comm. Qed.

Lemma char_count_bytes s : starts_char (as_bytes s) → char_count s = N.of_nat (lead_count (as_bytes s)).
Proof. intros Hs. unfold char_count, chars, len. by rewrite length_map, chars_length. Qed.

(** ** Trimming is idempotent *)

(** The bytes of characters: each a byte and its continuation bytes, and only
    the first may itself begin with one. *)
Definition character (g : list byte) : Prop :=
  match g with [] => False | _ :: g => Forall (λ c, is_continuation c = true) g end.
Definition begins (g : list byte) : Prop := match g with [] => False | b :: _ => is_continuation b = false end.
Definition grouped (gs : list (list byte)) : Prop := Forall character gs ∧ Forall begins (tail gs).

Lemma char_groups_grouped bs : grouped (char_groups bs).
Proof.
  induction bs as [|b bs [IHc IHb]]; [by split|]. cbn [char_groups].
  destruct (char_groups bs) as [|[|c g] gs]; [by repeat constructor| |].
  - by apply Forall_cons in IHc as [[] _].
  - apply Forall_cons in IHc as [Hg Hgs]. cbn in *. destruct (is_continuation c) eqn:E.
    + split; [|done]. constructor; [|done]. by constructor.
    + split; [repeat constructor; done|]. cbn. by constructor.
Qed.

Lemma grouped_inv gs : grouped gs → char_groups (concat gs) = gs.
Proof.
  unfold grouped. induction gs as [|[|b g] gs IH]; intros [Hc Hb]; [done|by apply Forall_cons in Hc as [[] _]|].
  apply Forall_cons in Hc as [Hg Hgs]. cbn [tail concat] in *.
  assert (char_groups (concat gs) = gs) as Hrest.
  { apply IH. split; [done|]. destruct gs; [done|]. by apply Forall_cons in Hb as [_ Hb]. }
  clear IH. cbn in Hg. revert b. induction Hg as [|c g Hcont Hg IHg]; intros b; cbn [app char_groups].
  - rewrite Hrest. destruct gs as [|[|c g] gs]; [done|by apply Forall_cons in Hb as [[] _]|].
    apply Forall_cons in Hb as [Hb _]. cbn in Hb. by rewrite Hb.
  - specialize (IHg c). cbn [app char_groups] in IHg. rewrite IHg. by rewrite Hcont.
Qed.

Lemma grouped_drop n gs : grouped gs → grouped (drop n gs).
Proof.
  intros [Hc Hb]. split; [by apply Forall_drop|]. destruct n as [|n]; [done|]. destruct gs as [|g gs]; [done|].
  cbn in *. apply (Forall_drop _ n) in Hb. destruct Hb; [done|]. by cbn.
Qed.

Lemma grouped_take n gs : grouped gs → grouped (take n gs).
Proof.
  intros [Hc Hb]. split; [by apply Forall_take|]. destruct n as [|n]; [done|]. destruct gs as [|g gs]; [done|].
  cbn in *. by apply Forall_take.
Qed.

Lemma from_bytes_app a b : from_bytes (a ++ b) = (from_bytes a ++ from_bytes b)%string.
Proof. induction a as [|x a IH]; [done|]. exact (f_equal (String.String (Ascii.ascii_of_byte x)) IH). Qed.

Lemma of_chars_groups gs : of_chars (map from_bytes gs) = from_bytes (concat gs).
Proof.
  unfold of_chars. induction gs as [|g gs IH]; [done|]. cbn [map concat]. rewrite from_bytes_app, <- IH.
  destruct gs; cbn; [|done]. generalize (from_bytes g) as s. induction s as [|x s IHs]; [done|].
  exact (f_equal (String.String x) IHs).
Qed.

Lemma chars_of_chars gs : grouped gs → chars (of_chars (map from_bytes gs)) = map from_bytes gs.
Proof. intros Hg. unfold chars. by rewrite of_chars_groups, as_bytes_from_bytes, grouped_inv. Qed.

Section trimming.
Context (p : string → bool).
Let trimmed (cs : list string) : list string := reverse (skip_while p (reverse (skip_while p cs))).

Lemma skip_while_drop cs : ∃ n, skip_while p cs = drop n cs.
Proof.
  induction cs as [|c cs [n IH]]; [by exists 0|]. cbn. destruct (p c); [by exists (S n)|by exists 0].
Qed.

Lemma skip_while_stops cs : match skip_while p cs with [] => True | c :: _ => p c = false end.
Proof. induction cs as [|c cs IH]; [done|]. cbn. by destruct (p c) eqn:E. Qed.

Lemma skip_while_id cs : match cs with [] => True | c :: _ => p c = false end → skip_while p cs = cs.
Proof. destruct cs as [|c cs]; [done|]. cbn. by intros ->. Qed.

Lemma reverse_skip_take cs : ∃ n, reverse (skip_while p (reverse cs)) = take n cs.
Proof.
  destruct (skip_while_drop (reverse cs)) as [n ->]. rewrite drop_reverse, reverse_involutive. by eexists.
Qed.

Lemma trimmed_again cs : trimmed (trimmed cs) = trimmed cs.
Proof.
  unfold trimmed. set (front := skip_while p cs).
  destruct (reverse_skip_take front) as [n Hn].
  rewrite (skip_while_id (reverse (skip_while p (reverse front)))).
  - rewrite reverse_involutive. by rewrite (skip_while_id _ (skip_while_stops _)).
  - rewrite Hn. pose proof (skip_while_stops cs) as Hs. fold front in Hs. by destruct front, n.
Qed.

Lemma trimmed_part cs : ∃ m n, trimmed cs = take m (drop n cs).
Proof.
  unfold trimmed. destruct (skip_while_drop cs) as [n ->]. destruct (reverse_skip_take (drop n cs)) as [m Hm].
  by exists m, n.
Qed.
End trimming.

Lemma chars_trim_text s :
  chars (trim_text s) = reverse (skip_while is_whitespace (reverse (skip_while is_whitespace (chars s)))).
Proof.
  unfold trim_text. destruct (trimmed_part is_whitespace (chars s)) as (m & n & ->). unfold chars at 2 3.
  rewrite skipn_map, firstn_map. apply chars_of_chars, grouped_take, grouped_drop, char_groups_grouped.
Qed.

Lemma trim_text_idem s : trim_text (trim_text s) = trim_text s.
Proof.
  unfold trim_text at 1. rewrite chars_trim_text. unfold trim_text. f_equal.
  apply (trimmed_again is_whitespace (chars s)).
Qed.
