(* ===== verification/Regex.v ===== *)
(** * Regular expressions over a bounded cache ([pure/regex.rs])

    The [regex] crate is the class [RegexEngine]; the kernel adds flags, a size
    limit, a thread-local cache and character positions. [compiled_transparent]
    says the cache cannot be observed, so callers use [compile] directly. *)

From Stdlib Require Import Strings.String.
From S2P Require Import Prelude BTree Program Values Text.

(** The builder's switches. *)
Record Flags := mkFlags {
  case_insensitive : bool;
  multi_line : bool;
  dot_matches_new_line : bool;
  ignore_whitespace : bool
}.

(** One match of [captures_iter]: the byte range of the whole, groups 1.., names. *)
Record Captures := mkCaptures {
  cap_start : nat;
  cap_end : nat;
  cap_groups : list (option string);
  cap_name : string → option string
}.

Class RegexEngine := {
  Regex : Type;
  regex_build : Flags → string → Regex + string;
  regex_find_iter : Regex → string → list string;
  regex_replace_all : Regex → string → string → string;
  regex_split_iter : Regex → string → list string;
  regex_capture_names : Regex → list (option string);
  regex_captures_iter : Regex → string → list Captures
}.

Definition REGEX_CACHE_LIMIT : nat := 128.
Definition MAX_REGEX_PATTERN_BYTES : N := 65536.

Definition byte_slice (s : string) (from to : nat) : string := String.substring from (to - from) s.

Section regex.
Context `{RegexEngine}.

(** The loop over [flags.chars()]. *)
Fixpoint apply_flags (b : Flags) (flags : list string) : Flags + string :=
  match flags with
  | [] => inl b
  | flag :: flags =>
      if String.eqb flag "i" then
        apply_flags (mkFlags true (multi_line b) (dot_matches_new_line b) (ignore_whitespace b)) flags
      else if String.eqb flag "m" then
        apply_flags (mkFlags (case_insensitive b) true (dot_matches_new_line b) (ignore_whitespace b)) flags
      else if String.eqb flag "s" then
        apply_flags (mkFlags (case_insensitive b) (multi_line b) true (ignore_whitespace b)) flags
      else if String.eqb flag "x" then
        apply_flags (mkFlags (case_insensitive b) (multi_line b) (dot_matches_new_line b) true) flags
      else inr ("unsupported regex flag '" ++ flag ++ "', expected one of i/m/s/x")%string
  end.

(** [compiled] past both caches. *)
Definition build_regex (pattern flags : string) : Regex + string :=
  match apply_flags (mkFlags false false false false) (chars flags) with
  | inl b => regex_build b pattern
  | inr e => inr e
  end.

Definition too_long (pattern : string) : bool := (MAX_REGEX_PATTERN_BYTES <? slen pattern)%N.
Definition too_long_error : string := "regex pattern exceeds the 65536-byte limit".

(** [compiled] without a cache. *)
Definition compile (pattern flags : string) : Regex + string :=
  if too_long pattern then inr too_long_error else build_regex pattern flags.

(** The thread-locals [REGEX_CACHE], keyed by flags and pattern, and [LAST_REGEX]. *)
Record RegexCache := mkRegexCache {
  cache : list (string * string * Regex);
  last_regex : option (string * string * Regex)
}.

Fixpoint cache_get (flags pattern : string) (c : list (string * string * Regex)) : option Regex :=
  match c with
  | [] => None
  | (f, p, r) :: c =>
      if String.eqb f flags && String.eqb p pattern then Some r else cache_get flags pattern c
  end.

(** [LAST_REGEX] holds pattern, flags, regex, in this order. *)
Definition last_get (flags pattern : string) (l : option (string * string * Regex)) : option Regex :=
  match l with
  | Some (p, f, r) => if String.eqb p pattern && String.eqb f flags then Some r else None
  | None => None
  end.

(** [compiled] *)
Definition compiled (pattern flags : string) (c : RegexCache) : (Regex + string) * RegexCache :=
  if too_long pattern then (inr too_long_error, c)
  else
    match last_get flags pattern (last_regex c) with
    | Some r => (inl r, c)
    | None =>
        match cache_get flags pattern (cache c) with
        | Some r => (inl r, mkRegexCache (cache c) (Some (pattern, flags, r)))
        | None =>
            match build_regex pattern flags with
            | inr e => (inr e, c)
            | inl r =>
                let kept := if (REGEX_CACHE_LIMIT <=? length (cache c))%nat then [] else cache c in
                (inl r, mkRegexCache ((flags, pattern, r) :: kept) (Some (pattern, flags, r)))
            end
        end
    end.

(** ** The primitives *)

Definition bind_regex {A} (r : Regex + string) (f : Regex → A + string) : A + string :=
  match r with inl r => f r | inr e => inr e end.

(** [regex_matches] *)
Definition regex_matches (pattern text flags : string) : list string + string :=
  bind_regex (compile pattern flags) (λ r, inl (regex_find_iter r text)).

(** [regex_replace] *)
Definition regex_replace (pattern replacement text flags : string) : string + string :=
  bind_regex (compile pattern flags) (λ r, inl (regex_replace_all r text replacement)).

(** [regex_split] *)
Definition regex_split (pattern text flags : string) : list string + string :=
  bind_regex (compile pattern flags) (λ r, inl (regex_split_iter r text)).

Record RegexCapture := mkRegexCapture {
  full_match : string;
  capture_groups : list (option string);
  start_char : N;
  end_char : N;
  capture_line : N;
  capture_named : btree string
}.

Definition REGEX_CAPTURES_RESERVED_KEYS : list string :=
  ["match"; "groups"; "start"; "end"; "line"]%string.

(** [bytes().filter(|byte| *byte == b'\n').count()] *)
Definition newlines (s : string) : N :=
  len (filter (λ b, b2n b = 10%N) (as_bytes s)).

(** [scanned_byte], [chars_before], [newlines_before] *)
Record ScanState := mkScanState { scanned_byte : nat; chars_before : N; newlines_before : N }.

(** One iteration of the loop over [captures_iter]. *)
Definition capture_step (text : string) (names : list string) (s : ScanState) (c : Captures)
    : RegexCapture * ScanState :=
  let gap := byte_slice text (scanned_byte s) (cap_start c) in
  let start := (chars_before s + char_count gap)%N in
  let before := (newlines_before s + newlines gap)%N in
  let matched := byte_slice text (cap_start c) (cap_end c) in
  let stop := (start + char_count matched)%N in
  (mkRegexCapture matched (cap_groups c) start stop (before + 1)
     (BTree.from_entries (omap (λ name, v ← cap_name c name; Some (name, v)) names)),
   mkScanState (cap_end c) stop (before + newlines matched)%N).

Fixpoint capture_loop (text : string) (names : list string) (s : ScanState) (cs : list Captures)
    : list RegexCapture :=
  match cs with
  | [] => []
  | c :: cs =>
      let r := capture_step text names s c in
      r.1 :: capture_loop text names r.2 cs
  end.

Definition reserved_error (name : string) : string :=
  ("named group `" ++ name ++ "` collides with a reserved regex_captures key (match, groups, start, end, line); rename the group")%string.

(** [regex_captures] *)
Definition regex_captures (pattern text flags : string) : list RegexCapture + string :=
  bind_regex (compile pattern flags) (λ r,
    let names := omap (λ n, n) (regex_capture_names r) in
    match find (λ name, existsb (String.eqb name) REGEX_CAPTURES_RESERVED_KEYS) names with
    | Some name => inr (reserved_error name)
    | None => inl (capture_loop text names (mkScanState 0 0 0) (regex_captures_iter r text))
    end).

(** ** The cache is transparent *)

(** Whatever is cached is what compiling would give, and the cache is bounded. *)
Definition entry_ok (pattern flags : string) (r : Regex) : Prop := compile pattern flags = inl r.

Record cache_ok (c : RegexCache) : Prop := {
  cached_ok : Forall (λ e, entry_ok e.1.2 e.1.1 e.2) (cache c);
  last_ok : ∀ p f r, last_regex c = Some (p, f, r) → entry_ok p f r;
  cache_bounded : length (cache c) ≤ REGEX_CACHE_LIMIT
}.

Lemma cache_get_ok flags pattern c r :
  Forall (λ e, entry_ok e.1.2 e.1.1 e.2) c → cache_get flags pattern c = Some r →
  entry_ok pattern flags r.
Proof.
  induction 1 as [|[[f p] r'] c He Hc IH]; cbn; [done|].
  destruct (String.eqb_spec f flags) as [->|], (String.eqb_spec p pattern) as [->|]; cbn; auto.
  by intros [= <-].
Qed.

(** The regex cache cannot be observed: from any cache holding only
    compiled patterns, [compiled] answers exactly what compiling afresh would,
    errors included, and leaves a cache that again holds only compiled patterns,
    at most 128 of them. *)
Theorem compiled_transparent pattern flags c :
  cache_ok c →
  (compiled pattern flags c).1 = compile pattern flags ∧ cache_ok (compiled pattern flags c).2.
Proof.
  intros Hok. pose proof Hok as [Hc Hl Hb]. unfold compiled. destruct (too_long pattern) eqn:Ht.
  { unfold compile. by rewrite Ht. }
  unfold last_get. destruct (last_regex c) as [[[p f] r]|] eqn:El.
  1: destruct (String.eqb_spec p pattern) as [->|], (String.eqb_spec f flags) as [->|]; cbn [andb].
  1: { split; [symmetry; by apply Hl|done]. }
  all: destruct (cache_get flags pattern (cache c)) as [r'|] eqn:Eg.
  all: try (apply cache_get_ok in Eg; [|done]; split; [by rewrite Eg|split; [done| |done]];
            cbn; by intros ? ? ? [= <- <- <-]).
  all: destruct (build_regex pattern flags) as [r'|e] eqn:Eb; cbn [fst snd].
  all: split; [unfold compile; by rewrite Ht, Eb|].
  all: try done.
  all: assert (entry_ok pattern flags r') as Hr by (unfold entry_ok, compile; by rewrite Ht, Eb).
  all: destruct (Nat.leb_spec REGEX_CACHE_LIMIT (length (cache c))); split;
    cbn [cache last_regex length]; try (by intros ? ? ? [= <- <- <-]);
    first [unfold REGEX_CACHE_LIMIT in *; lia | repeat constructor; auto].
Qed.

(** ** Capture positions *)

(** The engine's contract: matches come in order without overlapping, within
    the text, at character boundaries ([regex]'s documentation). *)
Fixpoint ordered_matches (text : string) (from : nat) (cs : list Captures) : Prop :=
  match cs with
  | [] => True
  | c :: cs =>
      from ≤ cap_start c ∧ cap_start c ≤ cap_end c ∧ cap_end c ≤ String.length text ∧
      starts_char (drop (cap_start c) (as_bytes text)) ∧
      starts_char (drop (cap_end c) (as_bytes text)) ∧
      ordered_matches text (cap_end c) cs
  end.

Definition prefix_chars (text : string) (n : nat) : N :=
  N.of_nat (lead_count (take n (as_bytes text))).
Definition prefix_lines (text : string) (n : nat) : N :=
  len (filter (λ b, b2n b = 10%N) (take n (as_bytes text))).

Lemma slice_starts bs a b : starts_char (drop a bs) → starts_char (take (b - a) (drop a bs)).
Proof. destruct (b - a), (drop a bs); done. Qed.

Lemma prefix_chars_step text a b :
  a ≤ b → starts_char (drop a (as_bytes text)) →
  (prefix_chars text a + char_count (byte_slice text a b))%N = prefix_chars text b.
Proof.
  intros Hab Ha. unfold prefix_chars, byte_slice.
  rewrite char_count_bytes by (rewrite as_bytes_substring; by apply slice_starts).
  rewrite as_bytes_substring, (take_slice _ a b Hab), lead_count_app. lia.
Qed.

Lemma prefix_lines_step text a b :
  a ≤ b → (prefix_lines text a + newlines (byte_slice text a b))%N = prefix_lines text b.
Proof.
  intros Hab. unfold prefix_lines, newlines, byte_slice.
  rewrite as_bytes_substring, (take_slice _ a b Hab), filter_app, len_app. lia.
Qed.

(** A capture's fields, from its byte range. *)
Definition positioned (text : string) (c : Captures) (r : RegexCapture) : Prop :=
  full_match r = byte_slice text (cap_start c) (cap_end c) ∧
  start_char r = prefix_chars text (cap_start c) ∧
  end_char r = prefix_chars text (cap_end c) ∧
  capture_line r = (prefix_lines text (cap_start c) + 1)%N.

Lemma capture_loop_positions text names from cs :
  starts_char (drop from (as_bytes text)) → ordered_matches text from cs →
  Forall2 (positioned text) cs
    (capture_loop text names (mkScanState from (prefix_chars text from) (prefix_lines text from)) cs).
Proof.
  revert from; induction cs as [|c cs IH]; intros from Hfrom Hord; cbn; [constructor|].
  destruct Hord as (H1 & H2 & H3 & H4 & H5 & Hord).
  rewrite !prefix_chars_step, !prefix_lines_step by done.
  constructor; [by unfold positioned|by apply IH].
Qed.
End regex.

(** Capture positions count characters and lines, not bytes: when the
    engine reports matches in order at character boundaries, every capture's
    [start] and [end] are the characters before its match and before its end,
    and its [line] is one more than the newlines before it. *)
Theorem regex_captures_positions `{RegexEngine} pattern text flags r cs :
  compile pattern flags = inl r →
  ordered_matches text 0 (regex_captures_iter r text) →
  starts_char (as_bytes text) →
  regex_captures pattern text flags = inl cs →
  Forall2 (positioned text) (regex_captures_iter r text) cs.
Proof.
  intros Hr Hord Htext. unfold regex_captures. rewrite Hr. cbn. case_match; [done|].
  intros [= <-]. by apply (capture_loop_positions text _ 0).
Qed.

(** A stand-in engine: a pattern matches itself once, at the start. *)
Definition sample_regex : RegexEngine := {|
  Regex := string;
  regex_build _ pattern := inl pattern;
  regex_find_iter pattern text := if String.prefix pattern text then [pattern] else [];
  regex_replace_all pattern text replacement := text;
  regex_split_iter pattern text := [text];
  regex_capture_names pattern := [];
  regex_captures_iter pattern text := [mkCaptures 0 (String.length pattern) [] (λ _, None)]
|}.

Lemma compiled_transparent_witness :
  let c := @mkRegexCache sample_regex [(("i"%string, "harn"%string), "harn"%string)] None in
  (@compiled sample_regex "harn" "i" c).1 = inl "harn"%string ∧
  @cache_ok sample_regex (@compiled sample_regex "harn" "i" c).2.
Proof.
  apply (@compiled_transparent sample_regex "harn" "i"). split; cbn.
  - repeat constructor.
  - discriminate.
  - unfold REGEX_CACHE_LIMIT. lia.
Defined.

Lemma regex_captures_positions_witness :
  Forall2 (positioned "harn-harn") [mkCaptures 0 4 [] (λ _, None)]
    [mkRegexCapture "harn" [] 0 4 1 []].
Proof.
  apply (@regex_captures_positions sample_regex "harn" "harn-harn" "" "harn"%string).
  - vm_compute. reflexivity.
  - cbn. lia || (repeat split; lia).
  - reflexivity.
  - vm_compute. reflexivity.
Defined.
