(* ===== verification/Arith.v ===== *)
(** * Arithmetic of the executor ([execution/arithmetic.rs])

    Integers are checked: a result outside [i64] is computed again in floating
    point. Strings and lists share [+] and [*] under the value limits. *)

From Stdlib Require Import Strings.String.
From S2P Require Import Prelude BTree Program Float64 Semantics Values Resource.

(** ** Checked operations *)

Definition checked_add (a b : Z) : option Z := checked_i64 (a + b).
Definition checked_sub (a b : Z) : option Z := checked_i64 (a - b).
Definition checked_mul (a b : Z) : option Z := checked_i64 (a * b).
Definition checked_neg (a : Z) : option Z := checked_i64 (- a).

(** [i64::checked_div]: truncated; [None] on zero and on [i64::MIN / -1]. *)
Definition checked_div (a b : Z) : option Z :=
  if (b =? 0)%Z then None else checked_i64 (Z.quot a b).

(** [i64::wrapping_rem], for a non-zero divisor. *)
Definition wrapping_rem (a b : Z) : Z := Z.rem a b.

(** [i64::checked_pow]: repeated squaring, giving up at the first overflow. *)
Fixpoint checked_pow_loop (base : Z) (exp : positive) (acc : Z) : option Z :=
  match exp with
  | xH => checked_mul acc base
  | xO exp => base ← checked_mul base base; checked_pow_loop base exp acc
  | xI exp =>
      acc ← checked_mul acc base;
      base ← checked_mul base base;
      checked_pow_loop base exp acc
  end.

Definition checked_pow (a : Z) (exp : N) : option Z :=
  match exp with N0 => Some 1%Z | Npos exp => checked_pow_loop a exp 1 end.

(** ** Operations on values *)

(** [numeric] *)
Definition numeric (a b : RuntimeValue) (ints : Z → Z → option Z) (floats : f64 → f64 → f64)
    : result RuntimeValue :=
  match a, b with
  | RInt x, RInt y =>
      Ok match ints x y with
         | Some z => RInt z
         | None => RFloat (floats (f64_of_i64 x) (f64_of_i64 y))
         end
  | RInt x, RFloat y => Ok (RFloat (floats (f64_of_i64 x) y))
  | RFloat x, RInt y => Ok (RFloat (floats x (f64_of_i64 y)))
  | RFloat x, RFloat y => Ok (RFloat (floats x y))
  | _, _ => Err (diagnostic numeric_type)
  end.

(** [add] *)
Definition add (a b : RuntimeValue) : result RuntimeValue :=
  match a, b with
  | RString x, RString y =>
      length ← ok_or (checked_add_usize (slen x) (slen y)) value_byte_limit;
      _ ← reject_if (MAX_VALUE_BYTES <? length)%N value_byte_limit;
      Ok (RString (x ++ y))
  | RList x, RList y =>
      length ← ok_or (checked_add_usize (len x) (len y)) value_node_limit;
      _ ← reject_if (MAX_VALUE_NODES <? length)%N value_node_limit;
      Ok (RList (x ++ y))
  | RRecord x, RRecord y =>
      _ ← reject_if (MAX_VALUE_NODES <? saturating_add_usize (len x) (len y))%N value_node_limit;
      Ok (RRecord (BTree.extend x y))
  | _, _ => numeric a b checked_add f64_add
  end.

(** [sub] *)
Definition sub (a b : RuntimeValue) : result RuntimeValue := numeric a b checked_sub f64_sub.

(** [str::repeat] *)
Fixpoint repeat_string (s : string) (n : nat) : string :=
  match n with O => EmptyString | S n => (s ++ repeat_string s n)%string end.

(** The string arm of [mul]. *)
Definition repeat_text (text : string) (count : Z) : result RuntimeValue :=
  if String.eqb text "" || (count <=? 0)%Z then Ok (RString "")
  else
    length ← ok_or (checked_mul_usize (slen text) (Z.to_N count)) value_byte_limit;
    _ ← reject_if (MAX_VALUE_BYTES <? length)%N value_byte_limit;
    Ok (RString (repeat_string text (Z.to_nat count))).

(** [mul] *)
Definition mul (a b : RuntimeValue) : result RuntimeValue :=
  match a, b with
  | RString text, RInt count | RInt count, RString text => repeat_text text count
  | _, _ => numeric a b checked_mul f64_mul
  end.

(** [div] *)
Definition div (a b : RuntimeValue) : result RuntimeValue :=
  match a, b with
  | RInt _, RInt 0 => Err (diagnostic division_by_zero)
  | _, _ => numeric a b checked_div f64_div
  end.

Definition is_number (v : RuntimeValue) : bool :=
  match v with RInt _ | RFloat _ => true | _ => false end.

Definition is_zero (v : RuntimeValue) : bool :=
  match v with
  | RInt value => (value =? 0)%Z
  | RFloat value => f64_eqb value f64_zero
  | _ => false
  end.

(** [modulo] *)
Definition modulo (a b : RuntimeValue) : result RuntimeValue :=
  if is_number a && is_zero b then Err (diagnostic division_by_zero)
  else numeric a b (λ x y, Some (wrapping_rem x y)) f64_rem.

Definition U32_MAX_Z : Z := 4294967295.
Definition in_u32 (z : Z) : bool := (0 <=? z)%Z && (z <=? U32_MAX_Z)%Z.
Definition in_i32 (z : Z) : bool := (-2147483648 <=? z)%Z && (z <=? 2147483647)%Z.

(** [pow] *)
Definition pow `{FloatLib} (a b : RuntimeValue) : result RuntimeValue :=
  match a, b with
  | RInt x, RInt y =>
      if in_u32 y
      then Ok match checked_pow x (Z.to_N y) with
              | Some z => RInt z
              | None => RFloat (f64_powf (f64_of_i64 x) (f64_of_i64 y))
              end
      else Ok (RFloat (f64_powf (f64_of_i64 x) (f64_of_i64 y)))
  | RFloat x, RInt y =>
      if in_i32 y then Ok (RFloat (f64_powi x y))
      else numeric a b (λ _ _, None) f64_powf
  | _, _ => numeric a b (λ _ _, None) f64_powf
  end.

(** [negate] *)
Definition negate (v : RuntimeValue) : result RuntimeValue :=
  match v with
  | RInt value =>
      Ok match checked_neg value with
         | Some z => RInt z
         | None => RFloat (f64_neg (f64_of_i64 value))
         end
  | RFloat value => Ok (RFloat (f64_neg value))
  | _ => Err (diagnostic numeric_type)
  end.

(** ** Integers are exact or promoted *)

(** Squaring out of range cannot come back into range. *)
Lemma square_overflow base k acc :
  acc ≠ 0%Z → (0 ≤ k)%Z → ¬ (I64_MIN ≤ base * base ≤ I64_MAX)%Z →
  ¬ (I64_MIN ≤ acc * (base * base) ^ (k + 1) ≤ I64_MAX)%Z.
Proof.
  intros Hacc Hk Hb. unfold I64_MIN, I64_MAX in *.
  assert (9223372037000250000 ≤ base * base)%Z as Hsq.
  { rewrite <-(Z.abs_square base) in *. pose proof (Z.abs_nonneg base).
    destruct (Z.le_gt_cases 3037000500 (Z.abs base)); [nia|].
    assert (Z.abs base * Z.abs base ≤ 3037000499 * 3037000499)%Z by nia. lia. }
  assert (base * base ≤ (base * base) ^ (k + 1))%Z as Hpow.
  { rewrite Z.pow_add_r, Z.pow_1_r by lia.
    pose proof (Z.pow_pos_nonneg (base * base) k ltac:(lia) Hk). nia. }
  generalize dependent ((base * base) ^ (k + 1))%Z. intros p Hp.
  destruct (Z.lt_trichotomy acc 0) as [?|[?|?]]; [nia|done|nia].
Qed.

(** Nor can an accumulator. *)
Lemma acc_overflow z base k :
  (0 ≤ k)%Z → ¬ (I64_MIN ≤ z ≤ I64_MAX)%Z → base ≠ 0%Z →
  ¬ (I64_MIN ≤ z * (base * base) ^ k ≤ I64_MAX)%Z.
Proof.
  intros Hk Hz Hb. unfold I64_MIN, I64_MAX in *.
  assert (1 ≤ (base * base) ^ k)%Z as Hp.
  { assert (0 < base * base)%Z by nia. pose proof (Z.pow_pos_nonneg (base * base) k). lia. }
  assert (0 < (base * base))%Z by nia.
  generalize dependent ((base * base) ^ k)%Z. intros p Hp. nia.
Qed.

Lemma pow_double base e : (base ^ Zpos (xO e) = (base * base) ^ Zpos e)%Z.
Proof. rewrite Pos2Z.inj_xO, Z.pow_mul_r, Z.pow_2_r by lia. done. Qed.

Lemma pow_double_succ base e : (base ^ Zpos (xI e) = base * (base * base) ^ Zpos e)%Z.
Proof.
  rewrite Pos2Z.inj_xI, Z.pow_add_r, Z.pow_mul_r, Z.pow_2_r, Z.pow_1_r by lia. lia.
Qed.

Lemma checked_pow_loop_exact base exp acc :
  (base = 0 ∨ acc ≠ 0)%Z →
  checked_pow_loop base exp acc = checked_i64 (acc * base ^ Zpos exp).
Proof.
  revert base acc; induction exp as [exp IH|exp IH|]; intros base acc Hnz; cbn [checked_pow_loop].
  - rewrite pow_double_succ. unfold checked_mul.
    destruct (decide (base = 0%Z)) as [->|Hb].
    { rewrite ?Z.mul_0_l, ?Z.mul_0_r. change (checked_i64 0) with (Some 0%Z).
      cbn [mbind option_bind]. rewrite IH by (by left). by rewrite Z.mul_0_l. }
    destruct Hnz as [?|Hacc]; [done|].
    destruct (decide (I64_MIN ≤ acc * base ≤ I64_MAX)%Z) as [Hin|Hout].
    + rewrite (checked_i64_in (acc * base)) by done. cbn.
      destruct (decide (I64_MIN ≤ base * base ≤ I64_MAX)%Z) as [Hin2|Hout2].
      * rewrite (checked_i64_in (base * base)) by done. cbn. rewrite IH by (right; nia).
        f_equal. lia.
      * rewrite (checked_i64_out (base * base)) by done. cbn. symmetry. apply checked_i64_out.
        replace (Zpos exp) with (Zpos exp - 1 + 1)%Z by lia. rewrite Z.mul_assoc.
        apply square_overflow; [nia|lia|done].
    + rewrite (checked_i64_out (acc * base)) by done. cbn. symmetry. apply checked_i64_out.
      rewrite Z.mul_assoc. by apply acc_overflow.
  - rewrite pow_double. unfold checked_mul.
    destruct (decide (base = 0%Z)) as [->|Hb].
    { change (checked_i64 (0 * 0)) with (Some 0%Z). cbn [mbind option_bind].
      rewrite IH by (by left). done. }
    destruct Hnz as [?|Hacc]; [done|].
    destruct (decide (I64_MIN ≤ base * base ≤ I64_MAX)%Z) as [Hin|Hout].
    + rewrite checked_i64_in by done. cbn. rewrite IH by (by right). done.
    + rewrite (checked_i64_out (base * base)) by done. cbn. symmetry. apply checked_i64_out.
      replace (Zpos exp) with (Zpos exp - 1 + 1)%Z by lia. apply square_overflow; [done|lia|done].
  - unfold checked_mul. by rewrite Z.pow_1_r.
Qed.

(** [i64::checked_pow] by squaring is the mathematical power, when it fits. *)
Lemma checked_pow_eq a exp : in_i64 a = true → checked_pow a exp = checked_i64 (a ^ Z.of_N exp).
Proof.
  intros Ha. destruct exp as [|exp]; [done|]. cbn [checked_pow Z.of_N].
  rewrite checked_pow_loop_exact by (by right). by rewrite Z.mul_1_l.
Qed.

(** ** The outcome of an integer operation *)

(** Exact when it fits, and otherwise the floating-point result. *)
Inductive exact_or_promoted (exact : Z) (promoted : f64) : RuntimeValue → Prop :=
  | exact_fits : (I64_MIN ≤ exact ≤ I64_MAX)%Z → exact_or_promoted exact promoted (RInt exact)
  | exact_promoted :
      ¬ (I64_MIN ≤ exact ≤ I64_MAX)%Z → exact_or_promoted exact promoted (RFloat promoted).

Lemma exact_or_promoted_intro z f :
  exact_or_promoted z f (match checked_i64 z with Some z => RInt z | None => RFloat f end).
Proof.
  destruct (decide (I64_MIN ≤ z ≤ I64_MAX)%Z) as [Hz|Hz].
  - rewrite checked_i64_in by done. by constructor.
  - rewrite checked_i64_out by done. by constructor.
Qed.

(** Integer arithmetic never wraps: [+ - * / **] and negation of integers
    give the exact mathematical result when it fits [i64] and the
    floating-point result otherwise; [/] and [%] by zero are errors, [%] is the
    truncated remainder. In particular repeated squaring gives up only when
    the power itself is out of range. *)
Theorem integer_arithmetic `{FloatLib} x y :
  in_i64 x = true → in_i64 y = true →
  let fx := f64_of_i64 x in let fy := f64_of_i64 y in
  (∃ v, add (RInt x) (RInt y) = Ok v ∧ exact_or_promoted (x + y) (f64_add fx fy) v) ∧
  (∃ v, sub (RInt x) (RInt y) = Ok v ∧ exact_or_promoted (x - y) (f64_sub fx fy) v) ∧
  (∃ v, mul (RInt x) (RInt y) = Ok v ∧ exact_or_promoted (x * y) (f64_mul fx fy) v) ∧
  (∃ v, negate (RInt x) = Ok v ∧ exact_or_promoted (- x) (f64_neg fx) v) ∧
  (if (y =? 0)%Z then div (RInt x) (RInt y) = Err (diagnostic division_by_zero)
   else ∃ v, div (RInt x) (RInt y) = Ok v ∧ exact_or_promoted (Z.quot x y) (f64_div fx fy) v) ∧
  modulo (RInt x) (RInt y) =
    (if (y =? 0)%Z then Err (diagnostic division_by_zero) else Ok (RInt (Z.rem x y))) ∧
  (in_u32 y = true →
     ∃ v, pow (RInt x) (RInt y) = Ok v ∧ exact_or_promoted (x ^ y) (f64_powf fx fy) v).
Proof.
  intros Hx Hy fx fy. split_and!.
  1-4: eexists; split; [reflexivity|apply exact_or_promoted_intro].
  - destruct (Z.eqb_spec y 0) as [->|Hne]; [done|].
    exists (match checked_i64 (Z.quot x y) with Some z => RInt z | None => RFloat (f64_div fx fy) end).
    split; [|apply exact_or_promoted_intro]. unfold div, numeric, checked_div.
    destruct y; [done| |]; done.
  - unfold modulo. cbn. by destruct (y =? 0)%Z.
  - intros Hu. eexists. cbn [pow]. rewrite Hu. split; [reflexivity|].
    rewrite checked_pow_eq by done. rewrite Z2N.id.
    + apply exact_or_promoted_intro.
    + unfold in_u32 in Hu. reflect_bools. done.
Qed.

Lemma integer_arithmetic_witness :
  ∃ v, @pow sample_floats (RInt 3) (RInt 40) = Ok v ∧
       exact_or_promoted (3 ^ 40) (@f64_powf sample_floats (f64_of_i64 3) (f64_of_i64 40)) v.
Proof. apply (@integer_arithmetic sample_floats 3 40); reflexivity. Defined.
