(* ===== verification/Ops.v ===== *)
(** * Value operations of the executor ([execution/ops.rs])

    Property access and update, subscripts, slices. Values are immutable: an
    update returns the new value ([Rc::unwrap_or_clone] copies when shared). *)

From Stdlib Require Import Strings.String.
From S2P Require Import Prelude BTree Program Float64 Semantics Values Resource Text.

(** [usize as i64] *)
Definition as_i64 (n : N) : Z := wrap_i64 (Z.of_N n).

(** [i64::try_from(usize)] *)
Definition i64_try_from (n : N) : option Z := checked_i64 (Z.of_N n).

(** [get_property] *)
Definition get_property (value : RuntimeValue) (name : string) : option RuntimeValue :=
  match value with
  | RRecord values => BTree.get name values
  | REnum _ variant fields =>
      if String.eqb name "variant" then Some (RString variant)
      else if String.eqb name "fields" then Some (RList fields)
      else None
  | RList values => if String.eqb name "count" then Some (RInt (as_i64 (len values))) else None
  | RString value =>
      if String.eqb name "count" then Some (RInt (as_i64 (char_count value))) else None
  | RHarness root => if String.eqb root "root" then Some (RHarness name) else None
  | _ => None
  end.

(** [set_property_value] *)
Definition set_property_value (target : RuntimeValue) (property : string) (value : RuntimeValue)
    : result RuntimeValue :=
  match target with
  | RRecord values => Ok (RRecord (BTree.insert property value values))
  | _ => Err (diagnostic property_assignment)
  end.

(** [normalized_index]: negative indices count from the end. *)
Definition normalized_index (length : N) (index : Z) : option nat :=
  length ← i64_try_from length;
  index ← (if (index <? 0)%Z then checked_i64 (length + index) else Some index);
  if ((0 <=? index) && (index <? length))%Z then Some (Z.to_nat index) else None.

(** [set_subscript_value] *)
Definition set_subscript_value `{FloatLib} (target index value : RuntimeValue)
    : result RuntimeValue :=
  match target with
  | RList values =>
      match index with
      | RInt index =>
          i ← ok_or (normalized_index (len values) index) subscript_assignment;
          Ok (RList (<[i := value]> values))
      | _ => Err (diagnostic subscript_assignment)
      end
  | RRecord values => Ok (RRecord (BTree.insert (display index) value values))
  | _ => Err (diagnostic subscript_assignment)
  end.

(** The closure [bound] of [slice_bounds]. [length + value] does not overflow:
    a length is not negative and [value] is. *)
Definition slice_bound (length : Z) (value : RuntimeValue) (default_ : Z) : result Z :=
  match value with
  | RNil => Ok default_
  | RInt value =>
      if (value <? 0)%Z then Ok (Z.max (length + value) 0) else Ok (Z.min value length)
  | _ => Err (diagnostic slice_type)
  end.

(** [slice_bounds] *)
Definition slice_bounds (length : N) (start end_ : RuntimeValue) : result (nat * nat) :=
  length ← ok_or (i64_try_from length) slice_range;
  start ← slice_bound length start 0;
  end_ ← slice_bound length end_ length;
  if (end_ <=? start)%Z then Ok (0, 0) else Ok (Z.to_nat start, Z.to_nat end_).

(** [values[start..end]] *)
Definition range {A} (l : list A) (bounds : nat * nat) : list A :=
  take (bounds.2 - bounds.1) (drop bounds.1 l).

(** [slice] *)
Definition slice (value start end_ : RuntimeValue) : result RuntimeValue :=
  match value with
  | RList values =>
      bounds ← slice_bounds (len values) start end_;
      Ok (RList (range values bounds))
  | RString value =>
      let cs := chars value in
      bounds ← slice_bounds (len cs) start end_;
      Ok (RString (of_chars (range cs bounds)))
  | _ => Err (diagnostic slice_type)
  end.

(** ** Bounds *)

Lemma normalized_index_some length index i :
  (Z.of_N length ≤ I64_MAX)%Z → in_i64 index = true →
  normalized_index length index = Some i ↔
  (i < N.to_nat length) ∧
  (index = Z.of_nat i ∨ index = Z.of_nat i - Z.of_N length)%Z.
Proof.
  intros Hl Hi. apply in_i64_spec in Hi. unfold normalized_index, i64_try_from, checked_i64.
  unfold I64_MIN, I64_MAX in *.
  rewrite (proj2 (in_i64_spec (Z.of_N length))) by (unfold I64_MIN, I64_MAX; lia). cbn.
  destruct (Z.ltb_spec index 0); cbn.
  - rewrite (proj2 (in_i64_spec (Z.of_N length + index))) by (unfold I64_MIN, I64_MAX; lia). cbn.
    destruct (Z.leb_spec 0 (Z.of_N length + index)); cbn; [|split; [done|lia]].
    destruct (Z.ltb_spec (Z.of_N length + index) (Z.of_N length)); [|lia].
    split; [intros [= <-]; lia|]. intros [? [?|?]]; f_equal; lia.
  - destruct (Z.leb_spec 0 index); cbn; [|lia].
    destruct (Z.ltb_spec index (Z.of_N length)); [|split; [done|lia]].
    split; [intros [= <-]; lia|]. intros [? [?|?]]; f_equal; lia.
Qed.

(** A value read back from where it was written. *)
Lemma set_subscript_lookup `{FloatLib} values index value updated :
  (Z.of_N (len values) ≤ I64_MAX)%Z → in_i64 index = true →
  set_subscript_value (RList values) (RInt index) value = Ok (RList updated) →
  ∃ i, normalized_index (len values) index = Some i ∧
    updated !! i = Some value ∧ length updated = length values ∧
    ∀ j, j ≠ i → updated !! j = values !! j.
Proof.
  intros Hl Hi Hs. cbn in Hs. inv_result. rename a into i. exists i. split; [done|].
  match goal with Hn : normalized_index _ _ = Some _ |- _ =>
    apply normalized_index_some in Hn as [Hlt _]; [|done|done] end. unfold len in Hlt.
  split_and!.
  - apply list_lookup_insert_eq. lia.
  - apply length_insert.
  - intros j Hj. by apply list_lookup_insert_ne.
Qed.

Lemma slice_bound_in length v d b :
  (0 ≤ length)%Z → (0 ≤ d ≤ length)%Z → slice_bound length v d = Ok b → (0 ≤ b ≤ length)%Z.
Proof.
  intros Hl Hd H. destruct v; cbn in H; inv_result; try done.
  destruct (Z.ltb_spec value 0); inv_result; lia.
Qed.

Lemma slice_bounds_in length start end_ s e :
  slice_bounds length start end_ = Ok (s, e) → s ≤ e ≤ N.to_nat length.
Proof.
  unfold slice_bounds, i64_try_from. intros H. inv_result.
  match goal with Hc : checked_i64 _ = Some _ |- _ => apply checked_i64_some in Hc as [-> ?] end.
  repeat match goal with Hc : slice_bound _ _ _ = Ok _ |- _ => apply slice_bound_in in Hc; [|lia|lia] end.
  case_match; inv_result; reflect_bools; lia.
Qed.

Lemma range_concat {A} (l : list A) k n :
  k ≤ n → range l (0, k) ++ range l (k, n) = range l (0, n).
Proof.
  unfold range; cbn. rewrite drop_0, !Nat.sub_0_r. intros Hk.
  rewrite <-(take_drop k (take n l)), take_take, Nat.min_l by done. f_equal.
  by rewrite skipn_firstn_comm.
Qed.

(** A slice never reads outside its list: whenever [slice] succeeds on a
    list its bounds lie within it, negative bounds counting from the end, and
    cutting a list at any integer and joining the halves gives it back. *)
Theorem slice_split values k :
  (Z.of_N (len values) ≤ I64_MAX)%Z → in_i64 k = true →
  (∀ start end_ s e, slice_bounds (len values) start end_ = Ok (s, e) → s ≤ e ≤ length values) ∧
  ∃ l r, slice (RList values) RNil (RInt k) = Ok (RList l) ∧
         slice (RList values) (RInt k) RNil = Ok (RList r) ∧ l ++ r = values.
Proof.
  intros Hl Hk. split.
  { intros start end_ s e Hs%slice_bounds_in. unfold len in Hs. lia. }
  apply in_i64_spec in Hk. set (n := Z.of_N (len values)).
  assert (∃ c, slice_bound n (RInt k) 0 = Ok c ∧ slice_bound n (RInt k) n = Ok c ∧ (0 ≤ c ≤ n)%Z)
    as (c & Hc0 & Hcn & Hc).
  { cbn. destruct (Z.ltb_spec k 0); eexists; (split; [done|]); (split; [done|]); lia. }
  unfold slice, slice_bounds, i64_try_from. rewrite checked_i64_in by (unfold I64_MIN; lia).
  fold n. unfold mbind, result_bind. cbn [ok_or]. rewrite Hc0, Hcn. cbn [slice_bound].
  assert (length values = Z.to_nat n) as Hlen by (unfold n, len; lia).
  destruct (Z.leb_spec c 0), (Z.leb_spec n c); cbn -[range]; do 2 eexists; (split; [done|]);
    (split; [done|]); unfold range; cbn; rewrite ?drop_0, ?Nat.sub_0_r.
  - destruct values; [done|cbn in *; lia].
  - replace (Z.to_nat c) with 0 by lia. cbn. rewrite Nat.sub_0_r, drop_0. apply take_ge. lia.
  - rewrite app_nil_r. apply take_ge. lia.
  - pose proof (range_concat values (Z.to_nat c) (Z.to_nat n)) as Hr. unfold range in Hr; cbn in Hr.
    rewrite drop_0, !Nat.sub_0_r in Hr. rewrite Hr by lia. apply take_ge. lia.
Qed.

Lemma slice_split_witness :
  ∃ l r, slice (RList [RInt 1; RInt 2; RInt 3]) RNil (RInt (-1)) = Ok (RList l) ∧
         slice (RList [RInt 1; RInt 2; RInt 3]) (RInt (-1)) RNil = Ok (RList r) ∧
         l ++ r = [RInt 1; RInt 2; RInt 3].
Proof.
  apply (slice_split [RInt 1; RInt 2; RInt 3] (-1)); [vm_compute; discriminate|reflexivity].
Defined.
