(* ===== verification/Json.v ===== *)
(** * Portable data as JSON ([DataValue::to_json], [from_json] of [execution/types.rs])

    The host seam: integers beyond 2^53 - 1, non-finite floats and byte strings
    travel as single-entry objects tagged ["$int"], ["$float"], ["$bytes"].
    [Json] is [serde_json::Value]: a number is an integer of [i64] or [u64], or
    a finite [f64]; objects are key-sorted. *)

From Stdlib Require Import Numbers.DecimalString Strings.String.
From Stdlib Require Import Numbers.DecimalZ.
From S2P Require Import Prelude BTree Program Float64 Semantics Values Resource.

Inductive Json :=
  | JNull
  | JBool (value : bool)
  | JInt (value : Z)
  | JFloat (value : f64)
  | JString (value : string)
  | JArray (values : list Json)
  | JObject (entries : btree Json).

(** ** The limits *)

Fixpoint json_size (j : Json) : nat :=
  S match j with
    | JArray vs => sum_list_with json_size vs
    | JObject es => sum_list_with (λ e, json_size e.2) es
    | _ => 0
    end.

Definition json_own_bytes (j : Json) : list N :=
  match j with
  | JString s => [slen s]
  | JObject es => map (λ e, slen e.1) es
  | _ => []
  end.

Definition json_children (j : Json) : list Json :=
  match j with
  | JArray vs => vs
  | JObject es => BTree.values es
  | _ => []
  end.

#[export] Program Instance json_resources : ResourceView Json := {
  own_bytes := json_own_bytes;
  children := json_children;
  tree_size := json_size
}.
Next Obligation. intros []; cbn; rewrite ?sum_values; lia. Qed.

(** [validate_json_value] *)
Definition validate_json_value (root : Json) : result unit :=
  _ ← validate_resources root; Ok tt.

(** ** Numbers *)

(** [str::parse::<i64>]: an optional sign, then decimal digits. *)
Definition parse_i64 (s : string) : option Z :=
  z ← match s with
      | String a digits =>
          if Ascii.eqb a (Ascii.ascii_of_N 43)
          then Z.of_uint <$> NilZero.uint_of_string digits
          else Z.of_int <$> NilZero.int_of_string s
      | EmptyString => None
      end;
  checked_i64 z.

Definition MAX_JSON_SAFE_INTEGER : Z := 9007199254740991.

Definition f64_infinity (negative : bool) : f64 := f64_bits (SpecFloat.S754_infinity negative).

(** [f64::is_nan], and comparison with the infinities. *)
Definition is_infinity (negative : bool) (f : f64) : bool := f64_eqb f (f64_infinity negative).

(** ** Encoding *)

Definition tagged (tag : string) (j : Json) : Json := JObject [(tag, j)].

(** [DataValue::to_json] *)
Fixpoint to_json (d : DataValue) : Json :=
  match d with
  | DNil => JNull
  | DBool value => JBool value
  | DInt value =>
      if (Z.abs value <=? MAX_JSON_SAFE_INTEGER)%Z then JInt value
      else tagged "$int" (JString (i64_to_string value))
  | DFloat value =>
      if f64_is_nan value then tagged "$float" (JString "nan")
      else if is_infinity false value then tagged "$float" (JString "infinity")
      else if is_infinity true value then tagged "$float" (JString "-infinity")
      else JFloat value
  | DString value => JString value
  | DBytes value => tagged "$bytes" (JArray (map (λ b, JInt (Z.of_N (b2n b))) value))
  | DList values => JArray (map to_json values)
  | DRecord entries => JObject (map (λ e, (e.1, to_json e.2)) entries)
  end.

(** ** Decoding *)

(** [value.as_u64().and_then(|value| u8::try_from(value).ok())] *)
Definition byte_of_json (j : Json) : option byte :=
  match j with
  | JInt z => if ((0 <=? z) && (z <=? 255))%Z then Some (n2b (Z.to_N z)) else None
  | _ => None
  end.

Definition float_of_tag (s : string) : option f64 :=
  BTree.get s [("nan", f64_nan); ("infinity", f64_infinity false);
               ("-infinity", f64_infinity true)]%string.

(** The single-entry objects; [None] is an ordinary record. *)
Definition decode_tagged (entries : btree Json) : option (result DataValue) :=
  match entries with
  | [(tag, value)] =>
      if String.eqb tag "$int" then
        Some match value with
             | JString s => z ← ok_or (parse_i64 s) input_integer; Ok (DInt z)
             | _ => Err (diagnostic input_integer)
             end
      else if String.eqb tag "$float" then
        Some match value with
             | JString s => f ← ok_or (float_of_tag s) input_float; Ok (DFloat f)
             | _ => Err (diagnostic input_float)
             end
      else if String.eqb tag "$bytes" then
        Some match value with
             | JArray values =>
                 bs ← result_map (λ v, ok_or (byte_of_json v) input_bytes) values;
                 Ok (DBytes bs)
             | _ => Err (diagnostic input_bytes)
             end
      else None
  | _ => None
  end.

(** [DataValue::from_json_validated]. A number outside [i64] becomes a float. *)
Fixpoint from_json_validated (j : Json) : result DataValue :=
  match j with
  | JNull => Ok DNil
  | JBool value => Ok (DBool value)
  | JInt value => Ok (if in_i64 value then DInt value else DFloat (f64_of_i64 value))
  | JFloat value => Ok (DFloat value)
  | JString value => Ok (DString value)
  | JArray values => ds ← result_map from_json_validated values; Ok (DList ds)
  | JObject entries =>
      match decode_tagged entries with
      | Some r => r
      | None =>
          es ← result_map (λ e, d ← from_json_validated e.2; Ok (e.1, d)) entries;
          Ok (DRecord es)
      end
  end.

(** [DataValue::from_json] *)
Definition from_json (j : Json) : result DataValue :=
  _ ← validate_json_value j; from_json_validated j.

Section json_ind.
Variable P : Json → Prop.
Hypothesis Hnull : P JNull.
Hypothesis Hbool : ∀ b, P (JBool b).
Hypothesis Hint : ∀ z, P (JInt z).
Hypothesis Hfloat : ∀ f, P (JFloat f).
Hypothesis Hstring : ∀ s, P (JString s).
Hypothesis Harray : ∀ js, Forall P js → P (JArray js).
Hypothesis Hobject : ∀ es, Forall (λ e, P e.2) es → P (JObject es).

Fixpoint json_value_ind (j : Json) : P j.
Proof.
  destruct j; [apply Hnull|apply Hbool|apply Hint|apply Hfloat|apply Hstring| |].
  - apply Harray. induction values; constructor; auto.
  - apply Hobject. induction entries as [|e es IH]; constructor; auto.
Defined.
End json_ind.

(** ** The seam is lossless away from its own tags *)

Definition is_tag (name : string) : bool :=
  existsb (String.eqb name) ["$int"; "$float"; "$bytes"]%string.

(** The one pattern each tag of a float is read back as. *)
Definition canonical_float (f : f64) : bool :=
  if f64_is_nan f then (f =? f64_nan)%N
  else if is_infinity false f then (f =? f64_infinity false)%N
  else if is_infinity true f then (f =? f64_infinity true)%N
  else true.

(** No record looks like a tagged value, integers are [i64]s and a NaN is the
    canonical one ([canonical_infinity]: an infinity always is). *)
Fixpoint seam_safe (d : DataValue) : bool :=
  match d with
  | DInt z => in_i64 z
  | DFloat f => canonical_float f
  | DList ds => forallb seam_safe ds
  | DRecord es =>
      negb (match es with [(name, _)] => is_tag name | _ => false end) &&
      forallb (λ e, seam_safe e.2) es
  | _ => true
  end.


Lemma to_int_not_nil z : Z.to_int z ≠ Decimal.Pos Decimal.Nil ∧ Z.to_int z ≠ Decimal.Neg Decimal.Nil.
Proof.
  split; intros Hz; pose proof (DecimalZ.of_to z) as Hof; rewrite Hz in Hof; cbn in Hof; by subst.
Qed.

Lemma no_plus d a s :
  NilZero.string_of_int d = String a s → Ascii.eqb a (Ascii.ascii_of_N 43) = false.
Proof.
  destruct d as [[]|]; cbn; intros [= <- <-]; done.
Qed.

Lemma parse_i64_to_string z : in_i64 z = true → parse_i64 (i64_to_string z) = Some z.
Proof.
  intros Hz. unfold parse_i64, i64_to_string. destruct (to_int_not_nil z) as [Hp Hn].
  pose proof (NilZero.isi (Z.to_int z) Hp Hn) as Hi.
  destruct (NilZero.string_of_int (Z.to_int z)) as [|a s] eqn:E.
  - by destruct (Z.to_int z) as [[]|[]].
  - rewrite (no_plus _ _ _ E), Hi. cbn [fmap option_fmap option_map mbind option_bind].
    rewrite DecimalZ.of_to. by apply checked_i64_in, in_i64_spec.
Qed.

Lemma byte_of_json_byte b : byte_of_json (JInt (Z.of_N (b2n b))) = Some b.
Proof.
  cbn. pose proof (b2n_lt b). destruct (Z.leb_spec 0 (Z.of_N (b2n b))); [|lia].
  destruct (Z.leb_spec (Z.of_N (b2n b)) 255); [|lia]. cbn. by rewrite N2Z.id, n2b_b2n.
Qed.

Lemma result_map_all {A B} (f : A → result B) (g : B → A) l :
  Forall (λ x, f (g x) = Ok x) l → result_map f (map g l) = Ok l.
Proof. induction 1 as [|x l Hx Hl IH]; cbn; [done|]. by rewrite Hx; cbn; rewrite IH. Qed.

Lemma decode_untagged entries :
  (match entries with [(name, _)] => is_tag name | _ => false end) = false →
  decode_tagged entries = None.
Proof.
  destruct entries as [|[name v] [|]]; cbn; try done. intros Ht.
  apply orb_false_iff in Ht as [-> Ht]. apply orb_false_iff in Ht as [-> Ht].
  by apply orb_false_iff in Ht as [-> _].
Qed.

Lemma f64_view_infinity f negative :
  f64_view f = SpecFloat.S754_infinity negative →
  N.testbit f 63 = negative ∧ ((f / 4503599627370496) mod 2048 = 2047)%N ∧
  (f mod 4503599627370496 = 0)%N.
Proof.
  unfold f64_view. destruct (N.eqb_spec ((f / 4503599627370496) mod 2048) 2047).
  - destruct (N.eqb_spec (f mod 4503599627370496) 0); [|done]. by intros [= ->].
  - destruct (_ =? 0)%N; [by destruct (f mod _)%N|].
    by destruct (f mod 4503599627370496 + 4503599627370496)%N.
Qed.

Lemma f64_infinity_bits f negative :
  (f < 18446744073709551616)%N → is_infinity negative f = true → f = f64_infinity negative.
Proof.
  intros Hf Hi. assert (f64_view f = SpecFloat.S754_infinity negative) as Hv.
  { unfold is_infinity, f64_eqb, SpecFloat.SFeqb in Hi.
    assert (f64_view (f64_infinity negative) = SpecFloat.S754_infinity negative) as Hinf
      by (by destruct negative).
    rewrite Hinf in Hi. by destruct (f64_view f) as [[]|[]| |[]], negative. }
  apply f64_view_infinity in Hv as (Hs & He & Hm).
  assert (f / 9223372036854775808 = if negative then 1 else 0)%N as Hd.
  { rewrite N.testbit_eqb in Hs. change (2 ^ 63)%N with 9223372036854775808%N in Hs.
    pose proof (N.div_lt_upper_bound f 9223372036854775808 2 ltac:(done) ltac:(lia)).
    revert Hs H. generalize (f / 9223372036854775808)%N. intros q Hs Hq.
    rewrite N.mod_small in Hs by lia. destruct (N.eqb_spec q 1), negative; try done; lia. }
  assert (f / 4503599627370496 / 2048 = f / 9223372036854775808)%N as Hdd
    by (by rewrite N.Div0.div_div).
  pose proof (N.div_mod f 4503599627370496 ltac:(done)).
  pose proof (N.div_mod (f / 4503599627370496) 2048 ltac:(done)).
  destruct negative; cbn; lia.
Qed.

Lemma forallb_Forall {A} (p : A → bool) l : forallb p l = true → Forall (λ x, p x = true) l.
Proof. induction l as [|x l IH]; cbn; [done|]. intros [Hx Hl]%andb_true_iff. auto. Qed.

Lemma canonical_infinity f :
  (f < 18446744073709551616)%N → f64_is_nan f = false → canonical_float f = true.
Proof.
  intros Hf Hn. unfold canonical_float. rewrite Hn.
  destruct (is_infinity false f) eqn:E; [by apply N.eqb_eq, f64_infinity_bits|].
  destruct (is_infinity true f) eqn:E'; [by apply N.eqb_eq, f64_infinity_bits|done].
Qed.

Lemma float_round_trip f :
  from_json_validated (to_json (DFloat f)) = Ok (DFloat f) ↔ canonical_float f = true.
Proof.
  unfold canonical_float. cbn [to_json].
  destruct (f64_is_nan f); [|destruct (is_infinity false f); [|destruct (is_infinity true f)]];
    rewrite ?N.eqb_eq; [| | |done]; split; [by intros [= <-]|by intros ->|by intros [= <-]|by intros ->
      |by intros [= <-]|by intros ->].
Qed.

Lemma from_json_to_json d : seam_safe d = true → from_json_validated (to_json d) = Ok d.
Proof.
  induction d as [| |z|f| |bs|ds IH|es IH] using data_value_ind; cbn [seam_safe]; try done.
  - cbn. intros Hz. destruct (Z.abs z <=? MAX_JSON_SAFE_INTEGER)%Z; cbn; [by rewrite Hz|].
    by rewrite parse_i64_to_string.
  - by intros Hf%float_round_trip.
  - intros _. cbn. rewrite (result_map_all _ (λ b, JInt (Z.of_N (b2n b)))); [done|].
    apply Forall_true. intros b. by rewrite byte_of_json_byte.
  - intros Hs%forallb_Forall. cbn. rewrite result_map_all; [done|].
    apply Forall_forall. intros d Hd. rewrite Forall_forall in IH, Hs. auto.
  - intros [Ht Hs%forallb_Forall]%andb_true_iff. apply negb_true_iff in Ht. cbn [to_json from_json_validated].
    rewrite decode_untagged by (destruct es as [|[] [|]]; done).
    rewrite (result_map_all _ (λ e, (e.1, to_json e.2))); [done|].
    apply Forall_forall. intros [k d] Hd. rewrite Forall_forall in IH, Hs.
    pose proof (IH _ Hd (Hs _ Hd)) as Hk. cbn in Hk |- *. by rewrite Hk.
Qed.

(** *** And only away from them *)

Lemma parse_i64_in s z : parse_i64 s = Some z → in_i64 z = true.
Proof.
  unfold parse_i64. intros (z' & _ & H)%bind_Some. unfold checked_i64 in H.
  destruct (in_i64 z') eqn:E; [by injection H as <-|done].
Qed.

Lemma result_map_inv {A B} (f : A → result B) (g : B → A) l :
  result_map f (map g l) = Ok l → Forall (λ x, f (g x) = Ok x) l.
Proof.
  induction l as [|x l IH]; cbn; [done|]. intros H. inv_result. constructor; auto.
Qed.

Lemma Forall_forallb {A} (p : A → bool) l : Forall (λ x, p x = true) l → forallb p l = true.
Proof. induction 1 as [|x l Hx _ IH]; cbn; [done|]. by rewrite Hx. Qed.

(** What a tagged object holds is no record. *)
Lemma decode_tagged_no_record entries r es : decode_tagged entries = Some r → r ≠ Ok (DRecord es).
Proof.
  unfold decode_tagged. intros Hd ->. destruct entries as [|[tag v] [|]]; try done.
  repeat match type of Hd with
    | (if ?b then _ else _) = _ => destruct b
    | Some (match ?v with _ => _ end) = _ => destruct v
    end; try done; injection Hd as Hd; by inv_result.
Qed.

Lemma to_json_from_json d : from_json_validated (to_json d) = Ok d → seam_safe d = true.
Proof.
  induction d as [| |z|f| |bs|ds IH|es IH] using data_value_ind; cbn [seam_safe]; try done.
  - cbn. destruct (Z.leb_spec (Z.abs z) MAX_JSON_SAFE_INTEGER) as [Hz|_]; cbn.
    + intros _. apply in_i64_spec. unfold MAX_JSON_SAFE_INTEGER, I64_MIN, I64_MAX in *. lia.
    + intros H. inv_result. destruct (parse_i64 _) eqn:E; [|done]. cbn in *. simplify_eq.
      by apply parse_i64_in in E.
  - by intros Hf%float_round_trip.
  - cbn. intros H. inv_result. apply Forall_forallb. 
    match goal with H : result_map _ _ = _ |- _ => apply result_map_inv in H as Hall end.
    rewrite Forall_forall in IH, Hall |- *. auto.
  - cbn [to_json from_json_validated]. destruct (decode_tagged _) as [r|] eqn:Et.
    { by intros Hr%(decode_tagged_no_record _ _ _ Et). }
    intros H. inv_result. apply andb_true_iff. split.
    + destruct es as [|[name v] [|]]; try done. apply negb_true_iff, not_true_iff_false. cbn. intros Ht.
      cbn in Et. repeat apply orb_true_iff in Ht as [Ht|Ht]; try done;
        rewrite Ht in Et; repeat destruct (String.eqb name _); done.
    + apply Forall_forallb.
      match goal with H : result_map _ _ = _ |- _ => apply (result_map_inv _ (λ e, (e.1, to_json e.2))) in H as Hall end.
      rewrite Forall_forall in IH, Hall |- *. intros [k d] Hd. specialize (Hall _ Hd). cbn in Hall.
      inv_result. by apply (IH _ Hd).
Qed.

Lemma walk_node fuel (v : Json) d s nodes bytes nodes' :
  check_depth d = Ok tt → reserve_children (len (children v)) d nodes = Ok nodes' →
  check_bytes (foldl saturating_add_usize bytes (own_bytes v)) = Ok tt →
  resource_walk (S fuel) ((v, d) :: s) nodes bytes =
  resource_walk fuel (reverse (map (λ w, (w, d + 1)%N) (children v)) ++ s) nodes'
    (foldl saturating_add_usize bytes (own_bytes v)).
Proof. intros Hd Hr Hb. cbn [resource_walk]. rewrite Hd. cbn [mbind result_bind]. by rewrite Hr; cbn [mbind result_bind]; rewrite Hb. Qed.

Lemma walk_too_wide fuel (v : Json) d s nodes bytes c :
  check_depth d = Ok tt → reserve_children (len (children v)) d nodes = Err c →
  resource_walk (S fuel) ((v, d) :: s) nodes bytes = Err c.
Proof. intros Hd Hr. cbn [resource_walk]. rewrite Hd. cbn [mbind result_bind]. by rewrite Hr. Qed.

Lemma too_wide count :
  (99999 ≤ count)%N → reserve_children count 2 2 = Err (diagnostic value_node_limit).
Proof.
  intros Hc. destruct (saturating_le 2 count MAX_VALUE_NODES eq_refl) as [Hle _].
  assert (MAX_VALUE_NODES <? saturating_add_usize 2 count = true)%N as Hwide.
  { apply N.ltb_lt, N.nle_gt. rewrite Hle. unfold MAX_VALUE_NODES. lia. }
  assert (count =? 0 = false)%N as Hne by (apply N.eqb_neq; lia).
  unfold reserve_children. by rewrite Hwide, Hne.
Qed.

(** A byte string is as many nodes as it has bytes, and two. *)
Lemma bytes_nodes bs :
  (99999 ≤ len bs)%N → validate_json_value (to_json (DBytes bs)) = Err (diagnostic value_node_limit).
Proof.
  intros Hn. unfold validate_json_value, validate_resources. cbn [to_json].
  set (values := JArray _). rewrite (tree_size_eq (tagged "$bytes" values)).
  rewrite (walk_node _ _ _ _ _ _ 2%N) by reflexivity.
  cbn [children json_resources json_children tagged BTree.values map snd sum_list_with].
  rewrite (tree_size_eq values). cbn [Nat.add reverse rev_append app].
  erewrite walk_too_wide; [reflexivity|reflexivity|]. unfold values, len. cbn. rewrite length_map. by apply too_wide.
Qed.

(** C28: What crosses the host seam unchanged, exactly: data that is JSON encoded
    and read back by [from_json] is the same again if and only if the encoding
    is within the limits of a JSON value, no record in it is a single entry
    named like a tag, and no float in it is a NaN other than the canonical one.
    Records like a tag and other NaNs never come back as they were. A byte
    string of 99,999 bytes or more, which as data may have a mebibyte, does not
    come back at all, since the seam counts every byte as a node. *)
Theorem json_round_trip :
  (∀ d, from_json (to_json d) = Ok d ↔
     seam_safe d = true ∧ validate_json_value (to_json d) = Ok tt) ∧
  (∀ bs, (99999 ≤ len bs)%N → (len bs ≤ MAX_VALUE_BYTES)%N →
     validate_data_value (DBytes bs) = Ok tt ∧
     from_json (to_json (DBytes bs)) = Err (diagnostic value_node_limit)).
Proof.
  split.
  - intros d. unfold from_json. destruct (validate_json_value (to_json d)) as [[]|e]; cbn; [|naive_solver].
    split; [by intros H%to_json_from_json|by intros [H%from_json_to_json _]].
  - intros bs Hn Hb. split.
    + unfold validate_data_value. apply result_bind_ok. exists 1%N. split; [|done].
      apply validate_resources_spec. split_and!; [done|done| |].
      * constructor; [done|]. by intros w ?%not_elem_of_nil.
      * rewrite value_bytes_eq. cbn. lia.
    + unfold from_json. by rewrite bytes_nodes.
Qed.
