(* ===== verification/Host.v ===== *)
(** * The host seam: grants, capability requests and results ([execution/types.rs])

    The libraries the kernel calls but does not contain are the class
    [Platform]: BLAKE3, SHA-256, [serde_json]'s printer, the [hex] and [regex]
    crates, and the generated capability registry. Nothing is assumed of them
    here; a theorem that needs a fact about one states it. *)

From Stdlib Require Import Strings.String.
From S2P Require Import Prelude BTree Program Float64 Semantics Values Resource Text Regex Json.
From S2P Require Import TypeContract.

Class Platform := {
  (** [blake3::Hasher] over the concatenated updates. *)
  blake3 : list byte → list byte;
  (** [blake3::keyed_hash(key, payload)] *)
  keyed_hash : list byte → list byte → list byte;
  (** [sha2::Sha256::digest] *)
  sha256 : list byte → list byte;
  (** [serde_json::to_vec], [to_string] of a JSON value; [None] is its error. *)
  json_text : Json → option string;
  (** [harn_capability_contracts::capability_method_entry]: the generated registry. *)
  capability_method_entry : string → string → option BuiltinSignature;
  (** [hex::decode], or the error it displays. *)
  hex_crate_decode : list byte → list byte + string;
  (** The [regex] crate. *)
  platform_regex :: RegexEngine;
  (** [scan_secrets] and [scan_secret_hashes] of [pure/secret_scan.rs] with their
      findings as JSON, and [secret_pattern_catalog]: a catalogue of patterns
      run by the [regex] crate, not modelled. *)
  secret_scan : string → option (list string) → Json + string;
  secret_catalog : Json
}.

(** [CapabilityId::from_field_name(name).is_some()] *)
Definition capability_field (name : string) : bool :=
  existsb (String.eqb name) [
    "stdio"; "term"; "clock"; "fs"; "env"; "random"; "net"; "process"; "channels"; "system";
    "secrets"; "llm"; "agent"; "tenant"; "auth"; "obs"; "verdict"; "tools"; "ast";
    "code_index"; "computer"; "embed"; "memory"; "sqlite"; "postgres"; "fs_watch";
    "host_lease"; "scanner"; "secret_store"; "terminal"; "rules"; "lint"; "runtime";
    "interaction"; "project"; "dashboard"; "workspace"; "merge_captain"; "session";
    "permission"; "text"; "lsp"; "credentials"; "pr_monitor"; "workflow"; "testing"]%string.

(** ** Grants *)

Record GrantSet := mkGrantSet {
  grants : btree unit;
  snapshot_key : option (list byte)
}.

(** [GrantSet::pure] *)
Definition grant_pure : GrantSet := mkGrantSet [] None.

(** [str::split_once('.')] *)
Fixpoint split_once_dot (s : string) : option (string * string) :=
  match s with
  | EmptyString => None
  | String a s' =>
      if Ascii.eqb a (Ascii.ascii_of_N 46) then Some (EmptyString, s')
      else p ← split_once_dot s'; Some (String a p.1, p.2)
  end.

Section grants.
Context `{Platform}.

Definition validate_grant (grant : string) : result unit :=
  p ← ok_or (split_once_dot grant) invalid_capability_grant;
  contract ← ok_or (capability_method_entry p.1 p.2) unknown_capability_grant;
  reject_if (negb (manifest_signature_is_portable contract)) unsupported_portable_capability_type.

(** [names.into_iter().collect::<BTreeSet<_>>()] *)
Definition grant_names (names : list string) : btree unit :=
  BTree.from_entries (map (λ n, (n, tt)) names).

(** [GrantSet::from_names] *)
Definition from_names (names : list string) : result GrantSet :=
  let set := grant_names names in
  _ ← result_foldl (λ _ grant, validate_grant grant) tt (BTree.keys set);
  Ok (mkGrantSet set None).

(** [decode_snapshot_key] *)
Definition decode_snapshot_key (encoded : list byte) : result (list byte) :=
  _ ← reject_if (negb (len encoded =? 32)%N) invalid_snapshot_key; Ok encoded.

(** [GrantSet::with_snapshot_key] *)
Definition with_snapshot_key (g : GrantSet) (key : list byte) : GrantSet :=
  mkGrantSet (grants g) (Some key).

(** [GrantSet::from_host_json], past [serde]: the fields of [HostGrants]. *)
Definition from_host_grants (capabilities : list string) (key : option (list byte))
    : result GrantSet :=
  g ← from_names capabilities;
  match key with
  | Some key => key ← decode_snapshot_key key; Ok (with_snapshot_key g key)
  | None => Ok g
  end.

(** What [GrantSet::fingerprint] hashes. *)
Definition fingerprint_preimage (g : GrantSet) : list byte :=
  concat (map (λ grant, as_bytes grant ++ [n2b 0]) (BTree.keys (grants g))).

(** [GrantSet::fingerprint] *)
Definition fingerprint (g : GrantSet) : list byte := blake3 (fingerprint_preimage g).

(** [GrantSet::allows] *)
Definition allows (g : GrantSet) (capability operation : string) : bool :=
  BTree.contains_key (capability ++ "." ++ operation)%string (grants g).
End grants.

(** ** Requests and results *)

Record CapabilityRequest := mkCapabilityRequest {
  req_id : string;
  req_capability : string;
  req_operation : string;
  req_arguments : DataValue;
  req_expected : ValueShape.ValueShape
}.

Inductive CapabilityResult :=
  | CapOk (request_id : string) (value : DataValue)
  | CapErr (request_id code message : string).

(** [CapabilityResult::request_id] *)
Definition result_request_id (r : CapabilityResult) : string :=
  match r with CapOk id _ | CapErr id _ _ => id end.

Inductive Execution :=
  | Completed (value : DataValue)
  | Suspended (request : CapabilityRequest) (snapshot : list byte)
  | Failed (d : Diagnostic).

Section request_id.
Context `{Platform}.

(** [serde_json::to_vec(arguments).unwrap_or_default()] *)
Definition json_bytes (j : Json) : list byte :=
  match json_text j with Some s => as_bytes s | None => [] end.

(** What [request_id] hashes. *)
Definition request_preimage (digest : list byte) (ordinal : N) (capability operation : string)
    (arguments : DataValue) : list byte :=
  digest ++ be_bytes 8 ordinal ++ as_bytes capability ++ [n2b 0] ++ as_bytes operation ++
  json_bytes (to_json arguments).

(** [request_id]: the first 32 hex digits of the hash. *)
Definition request_id (digest : list byte) (ordinal : N) (capability operation : string)
    (arguments : DataValue) : string :=
  String.substring 0 32 (hex_encode (blake3 (request_preimage digest ordinal capability operation arguments))).
End request_id.
