(* ===== verification/Env.v ===== *)
(** * Lexical environments ([Env] of [execution.rs])

    An environment is shared by every closure made in it and mutated in place,
    so environments live in a store and a reference is an index. The code holds
    them by [Rc] from [Machine::environments] on, so none is ever freed while a
    closure could name it; the store only grows. *)

From Stdlib Require Import Strings.String.
From S2P Require Import Prelude BTree Program Float64 Semantics Values Resource.

Definition MAX_SCOPE_DEPTH : N := 256.

Record Env := mkEnv {
  env_values : btree RuntimeValue;
  env_parent : option EnvId;
  env_depth : N
}.

Abbreviation Store := (list Env).

(** [Env::root] *)
Definition env_root (s : Store) : EnvId * Store := (length s, s ++ [mkEnv [] None 0]).

(** [Env::child], after [Weak::upgrade]: the parent must exist. *)
Definition env_child (parent : EnvId) (s : Store) : result (EnvId * Store) :=
  p ← ok_or (s !! parent) closure_environment;
  _ ← reject_if (MAX_SCOPE_DEPTH <=? env_depth p)%N scope_depth_limit;
  Ok (length s, s ++ [mkEnv [] (Some parent) (env_depth p + 1)]).

Definition env_update (f : btree RuntimeValue → btree RuntimeValue) (e : Env) : Env :=
  mkEnv (f (env_values e)) (env_parent e) (env_depth e).

(** [Env::define] *)
Definition env_define (id : EnvId) (name : string) (value : RuntimeValue) (s : Store) : Store :=
  alter (env_update (BTree.insert name value)) id s.

(** [Env::contains_local] *)
Definition env_contains_local (id : EnvId) (name : string) (s : Store) : bool :=
  match s !! id with Some e => BTree.contains_key name (env_values e) | None => false end.

(** The environment a name is bound in, from [id] outwards; the root when it is
    bound nowhere. Parents have smaller indices, so [S id] levels are enough. *)
Fixpoint env_owner (fuel : nat) (id : EnvId) (name : string) (s : Store) : option EnvId :=
  match fuel with
  | O => None
  | S fuel =>
      e ← s !! id;
      if BTree.contains_key name (env_values e) then Some id
      else match env_parent e with
           | Some parent => env_owner fuel parent name s
           | None => Some id
           end
  end.

(** [Env::get] *)
Fixpoint env_get_go (fuel : nat) (id : EnvId) (name : string) (s : Store) : option RuntimeValue :=
  match fuel with
  | O => None
  | S fuel =>
      e ← s !! id;
      match BTree.get name (env_values e) with
      | Some v => Some v
      | None => parent ← env_parent e; env_get_go fuel parent name s
      end
  end.

Definition env_get (id : EnvId) (name : string) (s : Store) : option RuntimeValue :=
  env_get_go (S id) id name s.

(** [Env::set]: the nearest binding is replaced; without one the root binds. *)
Definition env_set (id : EnvId) (name : string) (value : RuntimeValue) (s : Store) : Store :=
  match env_owner (S id) id name s with
  | Some owner => env_define owner name value s
  | None => s
  end.

(** ** Well-formed stores *)

(** Parents are older and one level up; nothing is deeper than the limit. *)
Record env_ok (s : Store) (id : EnvId) (e : Env) : Prop := {
  env_depth_ok : (env_depth e ≤ MAX_SCOPE_DEPTH)%N;
  env_sorted : BTree.sorted (env_values e);
  env_parent_ok : ∀ p, env_parent e = Some p →
    p < id ∧ ∃ pe, s !! p = Some pe ∧ env_depth e = (env_depth pe + 1)%N
}.

Definition store_ok (s : Store) : Prop := ∀ id e, s !! id = Some e → env_ok s id e.

(** [t] has at least the environments of [s], each with the same place in the tree. *)
Definition store_extends (s t : Store) : Prop :=
  ∀ id e, s !! id = Some e →
    ∃ e', t !! id = Some e' ∧ env_parent e' = env_parent e ∧ env_depth e' = env_depth e.

#[export] Instance store_extends_preorder : PreOrder store_extends.
Proof.
  split.
  - intros s id e He. eauto.
  - intros s t u Hst Htu id e He. destruct (Hst _ _ He) as (e' & He' & Hp & Hd).
    destruct (Htu _ _ He') as (e'' & He'' & Hp' & Hd'). exists e''. by rewrite Hp', Hd'.
Qed.

Lemma store_extends_app s t : store_extends s (s ++ t).
Proof. intros id e He. exists e. split; [|done]. by apply lookup_app_l_Some. Qed.

Lemma store_extends_define id name v s : store_extends s (env_define id name v s).
Proof.
  intros i e He. unfold env_define. destruct (decide (i = id)) as [->|Hne].
  - exists (env_update (BTree.insert name v) e). by rewrite list_lookup_alter_eq, He.
  - exists e. by rewrite list_lookup_alter_ne.
Qed.

Lemma env_define_lookup_eq id name v s :
  env_define id name v s !! id = env_update (BTree.insert name v) <$> s !! id.
Proof. apply list_lookup_alter_eq. Qed.

Lemma env_define_lookup_ne id i name v s :
  i ≠ id → env_define id name v s !! i = s !! i.
Proof. intros Hi. by apply list_lookup_alter_ne. Qed.

Lemma store_extends_set id name v s : store_extends s (env_set id name v s).
Proof. unfold env_set. destruct (env_owner _ _ _ _); [apply store_extends_define|done]. Qed.

Lemma store_extends_lookup s t id : store_extends s t → is_Some (s !! id) → is_Some (t !! id).
Proof. intros Hst [e He]. destruct (Hst _ _ He) as (e' & He' & _). eauto. Qed.

Lemma env_ok_extends s t id e : store_extends s t → env_ok s id e → env_ok t id e.
Proof.
  intros Hst [Hd Hs Hp]. split; [done..|]. intros p Hpe. destruct (Hp p Hpe) as (Hlt & pe & Hpe' & Hde).
  split; [done|]. destruct (Hst _ _ Hpe') as (pe' & ? & ? & ?). exists pe'. split; [done|congruence].
Qed.

Lemma store_ok_define id name v s : store_ok s → store_ok (env_define id name v s).
Proof.
  intros Hs i e He. unfold env_define in He. destruct (decide (i = id)) as [->|Hne].
  - rewrite list_lookup_alter_eq in He. destruct (s !! id) as [e0|] eqn:E0; [|done].
    injection He as <-. pose proof (env_ok_extends _ _ _ _ (store_extends_define id name v s) (Hs _ _ E0)) as [H1 H2 H3].
    split; cbn; [done|by apply btree_insert_sorted|done].
  - rewrite list_lookup_alter_ne in He by done.
    eapply env_ok_extends; [apply store_extends_define|by apply Hs].
Qed.

Lemma store_ok_set id name v s : store_ok s → store_ok (env_set id name v s).
Proof. unfold env_set. destruct (env_owner _ _ _ _); [apply store_ok_define|done]. Qed.

Lemma store_ok_root s : store_ok s → store_ok (env_root s).2.
Proof.
  intros Hs i e He. cbn in *. apply lookup_app_Some in He as [He|[Hge He]].
  - eapply env_ok_extends; [apply store_extends_app|by apply Hs].
  - apply list_lookup_singleton_Some in He as [_ <-]. split; [done|constructor|done].
Qed.

Lemma store_ok_child parent s id t :
  store_ok s → env_child parent s = Ok (id, t) → store_ok t ∧ store_extends s t ∧ is_Some (t !! id).
Proof.
  unfold env_child. intros Hs H. inv_result. reflect_bools.
  match goal with H : s !! parent = Some ?pe |- _ => rename H into Hp; rename pe into e0 end.
  split_and!; [|apply store_extends_app|by rewrite list_lookup_middle].
  intros i e He. apply lookup_app_Some in He as [He|[Hge He]].
  - eapply env_ok_extends; [apply store_extends_app|by apply Hs].
  - apply list_lookup_singleton_Some in He as [Hi <-].
    split; cbn; [unfold MAX_SCOPE_DEPTH in *; lia|constructor|]. intros p [= <-].
    pose proof (lookup_lt_Some _ _ _ Hp). split; [lia|]. exists e0. split; [|done].
    by apply lookup_app_l_Some.
Qed.

(** ** Lexical scoping *)

Lemma contains_key_get {V} k (m : btree V) : BTree.contains_key k m = true ↔ is_Some (BTree.get k m).
Proof. unfold BTree.contains_key. destruct (BTree.get k m); split; [eauto|done|done|by intros [? [=]]]. Qed.

(** Reading is finding the owner and reading it there. *)
Lemma env_get_owner fuel id name s :
  store_ok s → id < fuel →
  env_get_go fuel id name s =
    (owner ← env_owner fuel id name s; e ← s !! owner; BTree.get name (env_values e)).
Proof.
  intros Hs. revert id; induction fuel as [|fuel IH]; intros id Hlt; [lia|]. cbn.
  destruct (s !! id) as [e|] eqn:He; cbn; [|done]. unfold BTree.contains_key.
  destruct (BTree.get name (env_values e)) as [v|] eqn:Hg; cbn; [by rewrite He; cbn|].
  destruct (env_parent e) as [p|] eqn:Hp; cbn; [|by rewrite He; cbn].
  apply IH. destruct (env_parent_ok _ _ _ (Hs _ _ He) p Hp). lia.
Qed.

(** A scope that binds [name], or a root. *)
Definition may_own (s : Store) (name : string) (o : EnvId) : Prop :=
  ∃ e, s !! o = Some e ∧ (BTree.contains_key name (env_values e) = true ∨ env_parent e = None).

Lemma env_owner_may_own fuel id name s o : env_owner fuel id name s = Some o → may_own s name o.
Proof.
  revert id; induction fuel as [|fuel IH]; intros id Ho; cbn in Ho; [done|].
  destruct (s !! id) as [e|] eqn:He; cbn in Ho; [|done].
  destruct (BTree.contains_key name (env_values e)) eqn:Hc; [injection Ho as <-; exists e; eauto|].
  destruct (env_parent e) eqn:Hp; [by eapply IH|]. injection Ho as <-. exists e; eauto.
Qed.

Lemma env_owner_some fuel id name s :
  store_ok s → id < fuel → is_Some (s !! id) → is_Some (env_owner fuel id name s).
Proof.
  intros Hs. revert id; induction fuel as [|fuel IH]; intros id Hlt [e He]; [lia|]. cbn.
  rewrite He; cbn. destruct (BTree.contains_key _ _); [eauto|].
  destruct (env_parent e) as [p|] eqn:Hp; [|eauto].
  destruct (env_parent_ok _ _ _ (Hs _ _ He) p Hp) as (Hpl & pe & Hpe & _). apply IH; [lia|eauto].
Qed.

Lemma contains_key_insert {V} k k' (v : V) m :
  BTree.contains_key k' (BTree.insert k v m) = String.eqb k' k || BTree.contains_key k' m.
Proof.
  unfold BTree.contains_key. destruct (String.eqb_spec k' k) as [->|Hne]; cbn.
  - by rewrite btree_get_insert_eq.
  - by rewrite btree_get_insert_ne.
Qed.

(** Binding at an owner changes no name's owner. *)
Lemma env_owner_define fuel id o name name' v s :
  may_own s name o →
  env_owner fuel id name' (env_define o name v s) = env_owner fuel id name' s.
Proof.
  intros (eo & Ho & Hown). revert id; induction fuel as [|fuel IH]; intros id; cbn; [done|].
  destruct (decide (id = o)) as [->|Hne].
  - rewrite env_define_lookup_eq, Ho. cbn. rewrite contains_key_insert.
    destruct (String.eqb_spec name' name) as [->|]; cbn.
    + destruct Hown as [->| ->]; [done|]. by destruct (BTree.contains_key _ _).
    + destruct (BTree.contains_key name' (env_values eo)); [done|].
      destruct (env_parent eo); [apply IH|done].
  - rewrite env_define_lookup_ne by done. destruct (s !! id) as [e|]; cbn; [|done].
    destruct (BTree.contains_key name' (env_values e)); [done|].
    destruct (env_parent e); [apply IH|done].
Qed.

Lemma env_get_define id o name name' v s :
  store_ok s → may_own s name o →
  env_get id name' (env_define o name v s) =
    (if bool_decide (name' = name ∧ env_owner (S id) id name s = Some o) then Some v
     else env_get id name' s).
Proof.
  intros Hs Hown. unfold env_get. rewrite !env_get_owner by (try apply store_ok_define; auto; lia).
  rewrite (env_owner_define _ _ _ _ _ _ _ Hown).
  destruct (decide (name' = name)) as [->|Hn].
  - destruct (env_owner (S id) id name s) as [o'|] eqn:E; cbn [mbind option_bind];
      [|rewrite bool_decide_eq_false_2; [done|by intros [_ ?]]].
    destruct (decide (o' = o)) as [->|Hne].
    + rewrite bool_decide_eq_true_2 by done. destruct Hown as (eo & Ho & _).
      rewrite env_define_lookup_eq, Ho. cbn. by rewrite btree_get_insert_eq.
    + rewrite bool_decide_eq_false_2 by (intros [_ [= ?]]; done).
      by rewrite env_define_lookup_ne by congruence.
  - rewrite bool_decide_eq_false_2 by (intros [? _]; done).
    destruct (env_owner (S id) id name' s) as [o'|]; cbn [mbind option_bind]; [|done].
    destruct (decide (o' = o)) as [->|Hne].
    + rewrite env_define_lookup_eq. destruct (s !! o); cbn; [|done]. by rewrite btree_get_insert_ne.
    + by rewrite env_define_lookup_ne by congruence.
Qed.

(** Assignment is lexical: in a well-formed store, assigning [name] in
    scope [id] makes exactly the scopes that resolve [name] to the same
    environment see the new value, closures included, and changes nothing else
    any scope reads; the store stays well formed. *)
Theorem env_set_scoping id name v s :
  store_ok s → is_Some (s !! id) →
  store_ok (env_set id name v s) ∧
  env_get id name (env_set id name v s) = Some v ∧
  ∀ id' name',
    env_get id' name' (env_set id name v s) =
      (if bool_decide (name' = name ∧ env_owner (S id') id' name s = env_owner (S id) id name s)
       then Some v else env_get id' name' s).
Proof.
  intros Hs Hid. split; [by apply store_ok_set|].
  destruct (env_owner_some (S id) id name s Hs ltac:(lia) Hid) as [o Ho].
  assert (∀ id' name', env_get id' name' (env_set id name v s) =
    (if bool_decide (name' = name ∧ env_owner (S id') id' name s = env_owner (S id) id name s)
     then Some v else env_get id' name' s)) as Hall.
  { intros id' name'. unfold env_set. rewrite Ho. apply env_get_define; [done|].
    by eapply env_owner_may_own. }
  split; [|exact Hall]. rewrite Hall. by rewrite bool_decide_eq_true_2.
Qed.

(** A root binding [x], a block inside it, and a block inside that. *)
Definition sample_store : Store :=
  [mkEnv [("x"%string, RInt 1)] None 0; mkEnv [] (Some 0) 1; mkEnv [] (Some 1) 2].

Lemma sample_store_ok : store_ok sample_store.
Proof.
  intros [|[|[|id]]] e; cbn; intros [= <-]; (split; cbn; [unfold MAX_SCOPE_DEPTH; lia|repeat constructor|]);
    intros p [= <-]; (split; [lia|eauto]).
Qed.

Lemma env_set_scoping_witness :
  env_get 0 "x" (env_set 2 "x" (RInt 7) sample_store) = Some (RInt 7).
Proof.
  destruct (env_set_scoping 2 "x" (RInt 7) sample_store sample_store_ok) as (_ & _ & Hall).
  - cbn. eauto.
  - rewrite (Hall 0 "x"%string). reflexivity.
Defined.
