(* ===== verification/Snapshot.v ===== *)
(** * Suspended executions ([execution/snapshot.rs])

    A snapshot is a replay log, serialised by [serde] and framed with a magic,
    a length and a keyed BLAKE3 tag. The host owns the key. *)

From Stdlib Require Import Strings.String.
From S2P Require Import Prelude BTree Program Reader Artifact Values Json Regex TypeContract Host.

Definition SNAPSHOT_MAGIC : list byte := as_bytes "HARNSP01".
Definition SNAPSHOT_TAG_BYTES : N := 32.
Definition PORTABLE_MAX_SNAPSHOT_BYTES : N := 1048576.

Record ReplaySnapshot := mkReplaySnapshot {
  artifact_digest : list byte;
  grant_fingerprint : list byte;
  fuel_consumed : N;
  snap_input : DataValue;
  snap_responses : list CapabilityResult;
  pending_request : string
}.

(** ** What is written for a snapshot *)

(** The document [serde] writes and reads: the fields of a snapshot with every
    [DataValue] as the [serde_json::Value] its own [Serialize] hands on and its
    [Deserialize] is handed. *)
Inductive ResultDocument :=
  | DocOk (request_id : string) (value : Json)
  | DocErr (request_id code message : string).

Record SnapshotDocument := mkSnapshotDocument {
  doc_artifact_digest : list byte;
  doc_grant_fingerprint : list byte;
  doc_fuel_consumed : N;
  doc_input : Json;
  doc_responses : list ResultDocument;
  doc_pending_request : string
}.

(** [DataValue::serialize], in the derived [Serialize] of what holds it *)
Definition result_document (r : CapabilityResult) : ResultDocument :=
  match r with
  | CapOk request_id value => DocOk request_id (to_json value)
  | CapErr request_id code message => DocErr request_id code message
  end.

Definition snapshot_document (s : ReplaySnapshot) : SnapshotDocument :=
  mkSnapshotDocument (artifact_digest s) (grant_fingerprint s) (fuel_consumed s)
    (to_json (snap_input s)) (map result_document (snap_responses s)) (pending_request s).

(** [DataValue::deserialize], in the derived [Deserialize] of what holds it *)
Definition result_of_document (r : ResultDocument) : result CapabilityResult :=
  match r with
  | DocOk request_id value => d ← from_json value; Ok (CapOk request_id d)
  | DocErr request_id code message => Ok (CapErr request_id code message)
  end.

Definition snapshot_of_document (doc : SnapshotDocument) : result ReplaySnapshot :=
  input ← from_json (doc_input doc);
  responses ← result_map result_of_document (doc_responses doc);
  Ok (mkReplaySnapshot (doc_artifact_digest doc) (doc_grant_fingerprint doc)
        (doc_fuel_consumed doc) input responses (doc_pending_request doc)).

(** [serde_json::to_vec] and [from_slice] on such documents, and the floats whose
    text is read back exactly: without its feature [float_roundtrip], which the
    kernel does not ask for, [serde_json] may be off by the last bit. What is no
    value of its Rust type (an integer beyond its width, keys out of order, a
    string that is not UTF-8) has no bytes. *)
Class SnapshotSerde := {
  snapshot_to_vec : SnapshotDocument → option (list byte);
  snapshot_from_slice : list byte → option SnapshotDocument;
  float_text_exact : f64 → bool
}.

Section snapshot.
Context `{Platform, SnapshotSerde}.

(** The bytes of a snapshot; the length field is [payload.len() as u32]. *)
Definition snapshot_frame (key payload : list byte) : list byte :=
  SNAPSHOT_MAGIC ++ be_bytes 4 (len payload mod 4294967296) ++ payload ++ keyed_hash key payload.

(** [serde_json::to_vec(snapshot)] *)
Definition write_snapshot (s : ReplaySnapshot) : option (list byte) :=
  snapshot_to_vec (snapshot_document s).

(** [serde_json::from_slice(payload)]; an error of [from_json] is one of serde. *)
Definition read_snapshot (payload : list byte) : option ReplaySnapshot :=
  doc ← snapshot_from_slice payload;
  match snapshot_of_document doc with Ok s => Some s | Err _ => None end.

(** [encode_snapshot] *)
Definition encode_snapshot (snapshot : ReplaySnapshot) (key : list byte) : result (list byte) :=
  payload ← ok_or (write_snapshot snapshot) snapshot_encode;
  let bytes := snapshot_frame key payload in
  _ ← reject_if (PORTABLE_MAX_SNAPSHOT_BYTES <? len bytes)%N snapshot_too_large;
  Ok bytes.

(** [decode_snapshot] *)
Definition decode_snapshot (bytes : list byte) (key : option (list byte)) : result ReplaySnapshot :=
  key ← ok_or key snapshot_key_required;
  _ ← reject_if (PORTABLE_MAX_SNAPSHOT_BYTES <? len bytes)%N snapshot_too_large;
  _ ← reject_if ((len bytes <? 12 + SNAPSHOT_TAG_BYTES)%N ||
                 negb (bytes_eqb (bytes_at 0 8 bytes) SNAPSHOT_MAGIC)) snapshot_malformed;
  let length := from_be_bytes (bytes_at 8 4 bytes) in
  _ ← reject_if (negb (length =? len bytes - 12 - SNAPSHOT_TAG_BYTES)%N) snapshot_malformed;
  let payload := bytes_at 12 (N.to_nat length) bytes in
  _ ← reject_if (negb (bytes_eqb (drop (12 + N.to_nat length) bytes) (keyed_hash key payload)))
        snapshot_authentication;
  ok_or (read_snapshot payload) snapshot_malformed.

(** ** Round trip and authenticity *)

(** What the kernel relies on: BLAKE3 tags are 32 bytes. *)
Definition tag_length : Prop := ∀ key payload, length (keyed_hash key payload) = 32.

(** [serde_json] refuses more than 127 levels of arrays and objects. *)
Fixpoint json_readable (levels : nat) (j : Json) : bool :=
  match j with
  | JFloat f => float_text_exact f
  | JArray js => match levels with O => false | S levels => forallb (json_readable levels) js end
  | JObject es =>
      match levels with O => false | S levels => forallb (λ e, json_readable levels e.2) es end
  | _ => true
  end.

(** The levels left below the fields of a snapshot: the input is a field of it,
    a value a field of a response in a list. *)
Definition INPUT_LEVELS : nat := 126.
Definition RESPONSE_LEVELS : nat := 124.

Definition result_readable (r : ResultDocument) : bool :=
  match r with DocOk _ value => json_readable RESPONSE_LEVELS value | DocErr _ _ _ => true end.

Definition document_readable (doc : SnapshotDocument) : bool :=
  json_readable INPUT_LEVELS (doc_input doc) && forallb result_readable (doc_responses doc).

(** And that [serde_json] reads what it wrote, within its limits. *)
Definition serde_faithful : Prop := ∀ doc payload,
  document_readable doc = true → snapshot_to_vec doc = Some payload →
  snapshot_from_slice payload = Some doc.

(** *** The data that survives *)

(** Data the seam keeps (see [json_round_trip]). *)
Definition crosses (d : DataValue) : bool :=
  seam_safe d && match validate_json_value (to_json d) with Ok _ => true | Err _ => false end.

Definition response_keeps (r : CapabilityResult) : bool :=
  match r with CapOk _ value => crosses value | CapErr _ _ _ => true end.

Definition snapshot_keeps (s : ReplaySnapshot) : bool :=
  crosses (snap_input s) && forallb response_keeps (snap_responses s).

Lemma crosses_spec d : crosses d = true ↔ from_json (to_json d) = Ok d.
Proof.
  unfold crosses, from_json. destruct (validate_json_value (to_json d)) as [[]|e]; cbn.
  - rewrite andb_true_r. split; [apply from_json_to_json|apply to_json_from_json].
  - by rewrite andb_false_r.
Qed.

Lemma response_keeps_spec r :
  response_keeps r = true ↔ result_of_document (result_document r) = Ok r.
Proof.
  destruct r as [id d|]; [|done]. cbn [response_keeps result_document result_of_document].
  rewrite crosses_spec, result_bind_ok. naive_solver.
Qed.

Lemma snapshot_keeps_spec s :
  snapshot_keeps s = true ↔ snapshot_of_document (snapshot_document s) = Ok s.
Proof.
  unfold snapshot_keeps, snapshot_of_document. rewrite andb_true_iff, crosses_spec.
  destruct s as [digest print fuel input rs pending]. cbn. split.
  - intros [-> Hrs%forallb_Forall]. cbn. rewrite result_map_all; [done|].
    eapply Forall_impl; [exact Hrs|]. intros r. apply response_keeps_spec.
  - intros (d & Hd & (ds & Hds & [= -> ->])%result_bind_ok)%result_bind_ok. split; [done|].
    apply Forall_forallb. apply result_map_inv in Hds as Hall.
    eapply Forall_impl; [exact Hall|]. intros r. apply response_keeps_spec.
Qed.

(** A snapshot survives being written exactly when its data does. *)
Lemma read_write_snapshot s payload :
  serde_faithful → document_readable (snapshot_document s) = true →
  write_snapshot s = Some payload → (read_snapshot payload = Some s ↔ snapshot_keeps s = true).
Proof.
  intros Hserde Hr Hw. unfold read_snapshot. rewrite (Hserde (snapshot_document s) payload Hr Hw), snapshot_keeps_spec.
  cbn [mbind option_bind].
  destruct (snapshot_of_document _); split; congruence.
Qed.

Lemma snapshot_frame_length key payload :
  tag_length → length (snapshot_frame key payload) = 44 + length payload.
Proof.
  intros Ht. unfold snapshot_frame. rewrite !length_app, be_bytes_length, Ht.
  change (length SNAPSHOT_MAGIC) with 8. lia.
Qed.

Lemma snapshot_frame_parts key payload :
  tag_length → (len payload < 4294967296)%N →
  let bytes := snapshot_frame key payload in
  bytes_at 0 8 bytes = SNAPSHOT_MAGIC ∧
  from_be_bytes (bytes_at 8 4 bytes) = len payload ∧
  bytes_at 12 (length payload) bytes = payload ∧
  drop (12 + length payload) bytes = keyed_hash key payload.
Proof.
  intros Ht Hlen bytes. unfold bytes, snapshot_frame, bytes_at.
  set (lenf := be_bytes 4 _). assert (length lenf = 4) as Hf by apply be_bytes_length.
  assert (length SNAPSHOT_MAGIC = 8) as Hm by reflexivity.
  split_and!.
  - by rewrite drop_0, <-Hm, take_app_length.
  - rewrite drop_app_ge by lia. rewrite Hm, Nat.sub_diag, drop_0, <-Hf, take_app_length.
    unfold lenf. rewrite from_be_be_bytes. change (256 ^ N.of_nat 4)%N with 4294967296%N.
    rewrite N.Div0.mod_mod, N.mod_small by done. done.
  - rewrite drop_app_ge by lia. rewrite Hm, drop_app_ge by lia. rewrite Hf.
    change (12 - 8 - 4) with 0. by rewrite drop_0, take_app_length.
  - rewrite drop_app_ge by lia. rewrite Hm, drop_app_ge by lia. rewrite Hf.
    replace (12 + length payload - 8 - 4) with (length payload) by lia. by rewrite drop_app_length.
Qed.

Lemma decode_encode_snapshot key snapshot bytes :
  tag_length →
  serde_faithful → document_readable (snapshot_document snapshot) = true →
  encode_snapshot snapshot key = Ok bytes →
  (decode_snapshot bytes (Some key) = Ok snapshot ↔ snapshot_keeps snapshot = true).
Proof.
  intros Ht Hserde Hread He. unfold encode_snapshot in He. inv_result. rename a into payload.
  reflect_bools. pose proof (snapshot_frame_length key payload Ht) as Hl.
  assert (len payload < 4294967296)%N as Hlt
    by (unfold len, PORTABLE_MAX_SNAPSHOT_BYTES in *; lia).
  destruct (snapshot_frame_parts key payload Ht Hlt) as (H1 & H2 & H3 & H4).
  set (bytes := snapshot_frame key payload) in *. unfold decode_snapshot.
  cbn [ok_or mbind result_bind]. unfold len in *.
  destruct (N.ltb_spec PORTABLE_MAX_SNAPSHOT_BYTES (N.of_nat (length bytes))); [lia|].
  rewrite H1, bytes_eqb_refl. unfold SNAPSHOT_TAG_BYTES.
  destruct (N.ltb_spec (N.of_nat (length bytes)) (12 + 32)); [lia|]. cbn [orb negb reject_if].
  rewrite H2. replace (N.of_nat (length bytes) - 12 - 32)%N with (N.of_nat (length payload)) by lia.
  rewrite N.eqb_refl, Nat2N.id. cbn [negb reject_if]. rewrite H3, H4, bytes_eqb_refl. cbn [negb reject_if].
  match goal with H : write_snapshot _ = _ |- _ => rename H into Hw end.
  rewrite <-(read_write_snapshot _ _ Hserde Hread Hw). destruct (read_snapshot payload); cbn; naive_solver.
Qed.

(** C29: Snapshots are authenticated, and lossless for exactly the data the seam
    keeps. For a snapshot nested no deeper, with no other floats, than
    [serde_json] reads back, and given 32-byte MACs: what [encode_snapshot] emits
    decodes, under the same key, to the same snapshot if and only if its input
    and every recorded value cross the seam unchanged ([json_round_trip]). Any
    bytes that decode are exactly a frame whose tag is the keyed hash of their
    payload, and without a key nothing decodes. *)
Theorem snapshot_round_trip key snapshot :
  tag_length → serde_faithful → document_readable (snapshot_document snapshot) = true →
  (∀ bytes, encode_snapshot snapshot key = Ok bytes →
     (decode_snapshot bytes (Some key) = Ok snapshot ↔ snapshot_keeps snapshot = true)) ∧
  (∀ bytes s, decode_snapshot bytes (Some key) = Ok s →
     ∃ payload, bytes = snapshot_frame key payload ∧ read_snapshot payload = Some s) ∧
  (∀ bytes, decode_snapshot bytes None = Err (diagnostic snapshot_key_required)).
Proof.
  intros Ht Hserde Hread. split_and!; [| |done].
  - intros bytes. by apply decode_encode_snapshot.
  - intros bytes snapshot' Hd. unfold decode_snapshot in Hd. cbn [ok_or mbind result_bind] in Hd.
    inv_result. repeat match goal with
      | H : _ || _ = false |- _ => apply orb_false_iff in H as [? ?]
      | H : negb _ = false |- _ => apply negb_false_iff in H
      | H : bytes_eqb _ _ = true |- _ => apply bytes_eqb_eq in H
      end. reflect_bools. unfold len, SNAPSHOT_TAG_BYTES, PORTABLE_MAX_SNAPSHOT_BYTES in *.
    set (n := N.to_nat (from_be_bytes (bytes_at 8 4 bytes))) in *.
    assert (n = length bytes - 12 - 32) as Hn by (unfold n; lia).
    exists (bytes_at 12 n bytes). split; [|done]. unfold snapshot_frame.
    assert (bytes_at 8 4 bytes = be_bytes 4 (len (bytes_at 12 n bytes) mod 4294967296)) as <-.
    { apply be_bytes_eq; [apply bytes_at_length; lia|].
      unfold len. rewrite bytes_at_length by lia. rewrite N.mod_small by lia. unfold n. lia. }
        match goal with H : drop (12 + n) bytes = _ |- _ => rewrite <-H end.
    match goal with H : bytes_at 0 8 bytes = _ |- _ => rewrite <-H end.
    rewrite <-(bytes_at_split 12 n), <-(bytes_at_split 8 4).
    by rewrite <-(bytes_at_split 0 8), drop_0.
Qed.
End snapshot.

(** ** A stand-in host, to run examples with *)

Definition sample_platform : Platform := {|
  blake3 := sample_blake3;
  keyed_hash key payload := sample_blake3 (key ++ payload);
  sha256 := sample_blake3;
  json_text _ := Some "json"%string;
  capability_method_entry capability method :=
    if String.eqb capability "clock" then Some (mkSignature [] (Ty.Named "int") false) else None;
  hex_crate_decode bs := inl bs;
  platform_regex := sample_regex;
  secret_scan _ _ := inl (JArray []);
  secret_catalog := JArray []
|}.

Definition sample_snapshot : ReplaySnapshot :=
  mkReplaySnapshot (repeat (n2b 1) 32) (repeat (n2b 2) 32) 7 (DInt 1) [] "id".

Definition sample_serde : SnapshotSerde := {|
  snapshot_to_vec _ := Some [n2b 5];
  snapshot_from_slice _ := Some (snapshot_document sample_snapshot);
  float_text_exact _ := true
|}.

Lemma sample_platform_tags : @tag_length sample_platform.
Proof. intros key payload. reflexivity. Qed.

(** One that writes and reads the snapshots of one execution, by their fuel. *)
Section one_serde.
Context (digest print : list byte) (pending : string).

Definition one_document (fuel : N) : SnapshotDocument :=
  mkSnapshotDocument digest print fuel (JInt 1) [] pending.

Definition is_one_document (doc : SnapshotDocument) : bool :=
  bytes_eqb (doc_artifact_digest doc) digest && bytes_eqb (doc_grant_fingerprint doc) print &&
  (doc_fuel_consumed doc <? 256)%N &&
  match doc_input doc with JInt 1 => true | _ => false end &&
  match doc_responses doc with [] => true | _ => false end &&
  String.eqb (doc_pending_request doc) pending.

Definition one_serde : SnapshotSerde := {|
  snapshot_to_vec doc := if is_one_document doc then Some [n2b (doc_fuel_consumed doc)] else None;
  snapshot_from_slice payload :=
    match payload with [b] => Some (one_document (b2n b)) | _ => None end;
  float_text_exact _ := true
|}.

Lemma one_serde_faithful : @serde_faithful one_serde.
Proof.
  intros doc payload _ Hs. cbn in *. destruct (is_one_document doc) eqn:E; [|done].
  injection Hs as <-. unfold is_one_document in E. repeat (apply andb_true_iff in E as [E ?]).
  destruct doc as [digest' print' fuel input rs pending']. cbn in *.
  repeat match goal with
    | H : bytes_eqb _ _ = true |- _ => apply bytes_eqb_eq in H
    | H : String.eqb _ _ = true |- _ => apply String.eqb_eq in H
    end.
  subst. destruct input as [| |z| | | |]; try done. destruct z as [|[]|]; try done.
  destruct rs; try done. unfold one_document. rewrite b2n_n2b, N.mod_small; [done|].
  by apply N.ltb_lt.
Qed.
End one_serde.

Lemma snapshot_round_trip_witness :
  let serde := one_serde (repeat (n2b 1) 32) (repeat (n2b 2) 32) "id" in
  @decode_snapshot sample_platform serde
    (@snapshot_frame sample_platform [n2b 9] [n2b 7]) (Some [n2b 9]) = Ok sample_snapshot.
Proof.
  intros serde.
  apply (@snapshot_round_trip sample_platform serde [n2b 9] sample_snapshot).
  - exact sample_platform_tags.
  - apply one_serde_faithful.
  - reflexivity.
  - vm_compute. reflexivity.
  - vm_compute. reflexivity.
Defined.
