(* ===== verification/Machine.v ===== *)
(** * The machine: state, fuel, frames ([execution.rs], [execution/ops.rs])

    [Machine] is the record of the same name less its immutable parts (program,
    grants, recorded responses), which are a [Session]. Rust mutates it behind
    [&mut]; here an operation is a function from state to a result and a state.
    A diagnostic ends the execution, so no state accompanies one. *)

From Stdlib Require Import Strings.String.
From S2P Require Import Prelude BTree Opcode Program Verifier Artifact Float64 Semantics Values.
From S2P Require Import Resource Text Ops TypeContract Json Host Env.

Definition DEFAULT_FUEL : N := 2000000.
Definition MAX_FRAMES : nat := 1024.
Definition MAX_OPERAND_STACK : nat := 16384.
Definition MAX_ITERATORS : nat := 1024.

(** ** State *)

Record ModuleInstance := mkModuleInstance {
  inst_env : EnvId;
  inst_exports : btree PortableExportKind.PortableExportKind
}.

Inductive IteratorState :=
  | IterList (values : list RuntimeValue) (index : nat)
  | IterRecord (values : btree RuntimeValue) (keys : list string) (index : nat).

(** [iterators] and every stack below have their top first. *)
Record Machine := mkMachine {
  response_cursor : nat;
  request_ordinal : N;
  fuel : N;
  replay_credit : N;
  environments : Store;
  modules : btree ModuleInstance;
  loading_modules : list string;
  iterators : list IteratorState
}.

Record Session := mkSession {
  program : ProgramArtifact;
  session_grants : GrantSet;
  responses : list CapabilityResult
}.

Record Handler := mkHandler {
  handler_target : nat;
  handler_stack_depth : nat;
  handler_env : EnvId;
  handler_preserve : bool
}.

Record Frame := mkFrame {
  fr_chunk : Chunk;
  fr_ip : nat;
  fr_stack : list RuntimeValue;
  fr_locals : list (option RuntimeValue);
  fr_env : EnvId;
  fr_handlers : list Handler;
  fr_argc : N
}.

Record RuntimeException := mkException { exn_value : RuntimeValue; exn_declared : bool }.

Inductive OpStep :=
  | Continue
  | Push (value : RuntimeValue)
  | Call (function : CompiledFunction) (env : EnvId) (args : list RuntimeValue) (tail : bool)
  | Return (value : RuntimeValue)
  | Suspend (request : CapabilityRequest)
  | Throw (error : RuntimeException)
  | RuntimeError (error : Diagnostic).

(** [Machine::new] *)
Definition machine_new (root : Store) (fuel_consumed : N) : Machine :=
  mkMachine 0 0 (DEFAULT_FUEL - fuel_consumed) (N.min fuel_consumed DEFAULT_FUEL) root [] [] [].

(** *** Updates *)

Definition set_fuel (fuel credit : N) (m : Machine) : Machine :=
  mkMachine (response_cursor m) (request_ordinal m) fuel credit (environments m) (modules m)
    (loading_modules m) (iterators m).
Definition set_environments (s : Store) (m : Machine) : Machine :=
  mkMachine (response_cursor m) (request_ordinal m) (fuel m) (replay_credit m) s (modules m)
    (loading_modules m) (iterators m).
Definition set_modules (ms : btree ModuleInstance) (m : Machine) : Machine :=
  mkMachine (response_cursor m) (request_ordinal m) (fuel m) (replay_credit m) (environments m) ms
    (loading_modules m) (iterators m).
Definition set_loading (l : list string) (m : Machine) : Machine :=
  mkMachine (response_cursor m) (request_ordinal m) (fuel m) (replay_credit m) (environments m)
    (modules m) l (iterators m).
Definition set_iterators (l : list IteratorState) (m : Machine) : Machine :=
  mkMachine (response_cursor m) (request_ordinal m) (fuel m) (replay_credit m) (environments m)
    (modules m) (loading_modules m) l.
Definition set_request (cursor : nat) (ordinal : N) (m : Machine) : Machine :=
  mkMachine cursor ordinal (fuel m) (replay_credit m) (environments m) (modules m)
    (loading_modules m) (iterators m).

Definition set_ip (ip : nat) (f : Frame) : Frame :=
  mkFrame (fr_chunk f) ip (fr_stack f) (fr_locals f) (fr_env f) (fr_handlers f) (fr_argc f).
Definition set_stack (stack : list RuntimeValue) (f : Frame) : Frame :=
  mkFrame (fr_chunk f) (fr_ip f) stack (fr_locals f) (fr_env f) (fr_handlers f) (fr_argc f).
Definition set_locals (locals : list (option RuntimeValue)) (f : Frame) : Frame :=
  mkFrame (fr_chunk f) (fr_ip f) (fr_stack f) locals (fr_env f) (fr_handlers f) (fr_argc f).
Definition set_env (env : EnvId) (f : Frame) : Frame :=
  mkFrame (fr_chunk f) (fr_ip f) (fr_stack f) (fr_locals f) env (fr_handlers f) (fr_argc f).
Definition set_handlers (handlers : list Handler) (f : Frame) : Frame :=
  mkFrame (fr_chunk f) (fr_ip f) (fr_stack f) (fr_locals f) (fr_env f) handlers (fr_argc f).

(** ** State-passing computations *)

(** What runs on a state [S] and may end the execution. *)
Definition StateR (S A : Type) : Type := S → result (A * S).

#[export] Instance state_ret S : MRet (StateR S) := λ A a s, Ok (a, s).
#[export] Instance state_bind S : MBind (StateR S) := λ A B f m s,
  match m s with Ok (a, s) => f a s | Err d => Err d end.

Definition get {S} : StateR S S := λ s, Ok (s, s).
Definition gets {S A} (f : S → A) : StateR S A := λ s, Ok (f s, s).
Definition modify {S} (f : S → S) : StateR S unit := λ s, Ok (tt, f s).
Definition lift {S A} (r : result A) : StateR S A := λ s,
  match r with Ok a => Ok (a, s) | Err d => Err d end.
Definition fail {S A} (c : Code) : StateR S A := λ _, Err (diagnostic c).
Definition fail_with {S A} (d : Diagnostic) : StateR S A := λ _, Err d.

(** On the machine alone, and on the active frame and the machine. *)
Definition MachineR := StateR Machine.
Record State := mkState { st_frame : Frame; st_machine : Machine }.
Definition FrameR := StateR State.

Definition on_machine {A} (m : MachineR A) : FrameR A := λ s,
  match m (st_machine s) with
  | Ok (a, machine) => Ok (a, mkState (st_frame s) machine)
  | Err d => Err d
  end.

Definition frame_get {A} (f : Frame → A) : FrameR A := gets (λ s, f (st_frame s)).
Definition frame_set (f : Frame → Frame) : FrameR unit :=
  modify (λ s, mkState (f (st_frame s)) (st_machine s)).

(** ** Fuel *)

(** [Machine::charge]: work done before the snapshot is not charged again. *)
Definition charge (amount : N) : MachineR unit := λ m,
  let replayed := N.min amount (replay_credit m) in
  let fresh := (amount - replayed)%N in
  if (fuel m <? fresh)%N then Err (diagnostic execution_fuel)
  else Ok (tt, set_fuel (fuel m - fresh) (replay_credit m - replayed) m).

(** [Machine::charge_value_work] *)
Definition charge_value_work (value : RuntimeValue) : MachineR unit :=
  nodes ← lift (validate_runtime_value value); charge nodes.

(** The loop of [charge_call_validation] and [charge_values_work]. *)
Definition total_nodes (values : list RuntimeValue) : result N :=
  result_foldl (λ nodes value,
    usage ← validate_runtime_value value; Ok (N.min (nodes + usage) U64_MAX)) 0%N values.

(** [Machine::charge_call_validation] *)
Definition charge_call_validation (arguments : list RuntimeValue) : MachineR unit :=
  nodes ← lift (total_nodes arguments); charge nodes.

(** [Machine::charge_values_work] *)
Definition charge_values_work (values : list RuntimeValue) : MachineR unit :=
  nodes ← lift (total_nodes values); charge nodes.

Section machine.
Context `{FloatLib}.

(** [Machine::render_value] *)
Definition render_value (value : RuntimeValue) : MachineR string :=
  _ ← charge_value_work value; mret (display value).

(** [Machine::push_charged] *)
Definition push_charged (value : RuntimeValue) : MachineR OpStep :=
  _ ← charge_value_work value; mret (Push value).

(** [Machine::values_equal] *)
Definition values_equal (a b : RuntimeValue) : MachineR bool :=
  _ ← charge_values_work [a; b]; mret (semantic_values_equal a b).
End machine.

(** [Machine::child_env] *)
Definition child_env (parent : EnvId) : MachineR EnvId := λ m,
  match env_child parent (environments m) with
  | Ok (id, s) => Ok (id, set_environments s m)
  | Err d => Err d
  end.

(** [env.define(..)] and [env.set(..)] on an environment of the machine. *)
Definition define (env : EnvId) (name : string) (value : RuntimeValue) : MachineR unit :=
  modify (λ m, set_environments (env_define env name value (environments m)) m).
Definition assign (env : EnvId) (name : string) (value : RuntimeValue) : MachineR unit :=
  modify (λ m, set_environments (env_set env name value (environments m)) m).
Definition lookup_name (env : EnvId) (name : string) : MachineR (option RuntimeValue) :=
  gets (λ m, env_get env name (environments m)).

(** ** Frames *)

(** [Frame::new]: arguments fill the first local slots. *)
Definition frame_new (chunk : Chunk) (env : EnvId) (arguments : list RuntimeValue) : Frame :=
  let slots := length (chunk_local_slots chunk) in
  let filled := take slots arguments in
  mkFrame chunk 0 [] (map Some filled ++ replicate (slots - length filled) None) env []
    (len arguments).

(** The rest parameter collects what the others leave. *)
Definition bound_arguments (function : CompiledFunction) (arguments : list RuntimeValue)
    : list RuntimeValue :=
  let params := length (fn_params function) in
  if fn_has_rest_param function && negb (params =? 0)%nat
  then
    let rest_index := params - 1 in
    take rest_index arguments ++ [RList (drop rest_index arguments)]
  else take params arguments.

(** The parameters' bindings, one per filled slot. *)
Fixpoint define_parameters (env : EnvId) (params : list ParamSlot)
    (locals : list (option RuntimeValue)) (m : Machine) : Machine :=
  match params, locals with
  | p :: params, l :: locals =>
      let m := match l with
               | Some value =>
                   set_environments (env_define env (param_name p) value (environments m)) m
               | None => m
               end in
      define_parameters env params locals m
  | _, _ => m
  end.

(** [Frame::for_function] *)
Definition frame_for_function (function : CompiledFunction) (env : EnvId)
    (arguments : list RuntimeValue) : MachineR Frame := λ m,
  let frame := frame_new (fn_chunk function) env (bound_arguments function arguments) in
  Ok (mkFrame (fr_chunk frame) (fr_ip frame) (fr_stack frame) (fr_locals frame) (fr_env frame)
        (fr_handlers frame) (len arguments),
      define_parameters env (fn_params function) (fr_locals frame) m).

(** [Machine::function_frame] *)
Definition function_frame (function : CompiledFunction) (env : EnvId)
    (arguments : list RuntimeValue) : MachineR Frame :=
  frame ← frame_for_function function env arguments;
  let params := length (fn_params function) in
  _ ← (if fn_has_rest_param function && negb (params =? 0)%nat
       then match fr_locals frame !! (params - 1) with
            | Some (Some rest) => charge_value_work rest
            | _ => mret tt
            end
       else mret tt);
  mret frame.

(** [Vec::truncate], top first. *)
Definition truncate {A} (depth : nat) (l : list A) : list A := drop (length l - depth) l.

(** [handle_throw]: unwind to the nearest handler; [None] when there is none. *)
Fixpoint handle_throw (frames : list Frame) (error : RuntimeException) : option (list Frame) :=
  match frames with
  | [] => None
  | frame :: frames =>
      match fr_handlers frame with
      | handler :: handlers =>
          let value := if handler_preserve handler
                       then RException (exn_value error) (exn_declared error)
                       else exn_value error in
          let stack := truncate (handler_stack_depth handler) (fr_stack frame) in
          Some (mkFrame (fr_chunk frame) (handler_target handler) (value :: stack)
                  (fr_locals frame) (handler_env handler) handlers (fr_argc frame) :: frames)
      | [] => handle_throw frames error
      end
  end.

(** ** Operands *)

Definition code_of (f : Frame) : list byte := chunk_code (fr_chunk f).

(** [read_u8] *)
Definition read_u8 : FrameR nat := λ s,
  let f := st_frame s in
  match code_of f !! fr_ip f with
  | Some b => Ok (N.to_nat (b2n b), mkState (set_ip (fr_ip f + 1) f) (st_machine s))
  | None => Err (diagnostic truncated_instruction)
  end.

(** [read_u16] *)
Definition read_u16 : FrameR nat := λ s,
  let f := st_frame s in
  if (length (code_of f) <? fr_ip f + 2)%nat then Err (diagnostic truncated_instruction)
  else Ok (read_code_u16 (code_of f) (fr_ip f), mkState (set_ip (fr_ip f + 2) f) (st_machine s)).

(** [invalid_index]; the message names what was indexed. *)
Definition invalid_index_message (kind : string) (index : nat) : string :=
  (kind ++ " index " ++ usize_to_string (N.of_nat index) ++ " is out of bounds")%string.

Definition invalid_index_error {A} (kind : string) (index : nat) : FrameR A := λ _,
  Err (diagnostic_text invalid_index (invalid_index_message kind index)).

(** [read_constant_string] *)
Definition read_constant_string : FrameR string :=
  index ← read_u16;
  constants ← frame_get (λ f, chunk_constants (fr_chunk f));
  match constants !! index with
  | Some (Constant.String value) => mret value
  | _ => invalid_index_error "string constant" index
  end.

(** [pop!()] *)
Definition pop : FrameR RuntimeValue := λ s,
  match fr_stack (st_frame s) with
  | v :: stack => Ok (v, mkState (set_stack stack (st_frame s)) (st_machine s))
  | [] => Err (diagnostic stack_underflow)
  end.

Definition push (v : RuntimeValue) : FrameR unit :=
  frame_set (λ f, set_stack (v :: fr_stack f) f).

(** [pop_args]: the last [count] values, in the order they were pushed. *)
Definition pop_args (count : nat) : FrameR (list RuntimeValue) := λ s,
  let stack := fr_stack (st_frame s) in
  if (length stack <? count)%nat then Err (diagnostic stack_underflow)
  else Ok (reverse (take count stack),
           mkState (set_stack (drop count stack) (st_frame s)) (st_machine s)).
