(* ===== verification/Methods.v ===== *)
(** * Methods, subscripts and membership ([execution/methods.rs])

    [call_method] is also the capability gate: a method on a harness handle
    becomes a request to the host, checked against the registry's contract and
    the session's grants, answered from the recorded responses or suspended. *)

From Stdlib Require Import Strings.String.
From S2P Require Import Prelude BTree Opcode Program Verifier Artifact Float64 Semantics Values.
From S2P Require Import Resource Text Ops TypeContract Json Regex Host Env Machine.

(** [u64::wrapping] of the ordinal: it counts requests, each of which costs fuel. *)
Definition next_ordinal (n : N) : N := (n + 1)%N.

Section methods.
Context `{FloatLib, Platform} (session : Session).

(** ** The capability gate *)

Definition required_params (s : BuiltinSignature) : N :=
  len (filter (λ p, par_optional p = false) (sig_params s)).

Definition capability_arity_ok (s : BuiltinSignature) (count : N) : bool :=
  negb (count <? required_params s)%N &&
  (sig_has_rest s || negb (len (sig_params s) <? count)%N).

(** The parameter contract of the argument at [index]. *)
Definition capability_param (s : BuiltinSignature) (index : nat) : option SigParam :=
  match sig_params s !! index with
  | Some p => Some p
  | None => if sig_has_rest s then last (sig_params s) else None
  end.

(** An omitted optional argument arrives as [nil]. *)
Definition capability_argument_fits (p : SigParam) (value : DataValue) : bool :=
  (par_optional p && match value with DNil => true | _ => false end) ||
  matches_manifest_type value (par_ty p).

(** The loop over the arguments; [expect("arity validation guarantees a parameter
    contract")] panics, for a signature with a rest parameter and no parameter. *)
Fixpoint check_capability_arguments (s : BuiltinSignature) (index : nat) (values : list DataValue)
    : result unit :=
  match values with
  | [] => Ok tt
  | value :: values =>
      p ← ok_or (capability_param s index) panicked;
      _ ← reject_if (negb (capability_argument_fits p value)) capability_argument_type;
      check_capability_arguments s (S index) values
  end.

(** What it accepts: arguments that each have a parameter, and fit it. *)
Definition capability_argument_ok (s : BuiltinSignature) (index : nat) (value : DataValue) : bool :=
  match capability_param s index with
  | Some p => capability_argument_fits p value
  | None => false
  end.

Fixpoint capability_arguments_ok (s : BuiltinSignature) (index : nat) (values : list DataValue)
    : bool :=
  match values with
  | [] => true
  | value :: values =>
      capability_argument_ok s index value && capability_arguments_ok s (S index) values
  end.

Lemma check_capability_arguments_ok s index values u :
  check_capability_arguments s index values = Ok u → capability_arguments_ok s index values = true.
Proof.
  revert index; induction values as [|value values IH]; intros index Hc; [done|].
  cbn [check_capability_arguments capability_arguments_ok] in *. unfold capability_argument_ok.
  inv_result. rewrite (IH (S index)) by done. by rewrite andb_true_r; apply negb_false_iff.
Qed.

(** The checks made before a request exists, and the arguments it carries. *)
Definition capability_arguments (capability method : string) (args : list RuntimeValue)
    : result (BuiltinSignature * DataValue) :=
  contract ← ok_or (capability_method_entry capability method) unsupported_capability;
  _ ← reject_if (negb (manifest_signature_is_portable contract)) unsupported_portable_capability_type;
  _ ← reject_if (negb (capability_arity_ok contract (len args))) Prelude.capability_arguments;
  _ ← reject_if (negb (allows (session_grants session) capability method)) capability_denied;
  values ← result_map data_try_from args;
  _ ← check_capability_arguments contract 0 values;
  _ ← validate_data_value (DList values);
  Ok (contract, DList values).

(** The recorded response to a request. *)
Definition capability_response (contract : BuiltinSignature) (response : CapabilityResult)
    : MachineR OpStep :=
  match response with
  | CapOk _ value =>
      if matches_manifest_type value (sig_returns contract)
      then push_charged (runtime_of_data value)
      else fail capability_result_type
  | CapErr _ code message =>
      let value := RRecord (BTree.from_entries
                     [("code"%string, RString code); ("message"%string, RString message)]) in
      _ ← charge_value_work value;
      mret (Throw (mkException value false))
  end.

(** The harness arm of [call_method]. *)
Definition call_capability (capability method : string) (args : list RuntimeValue)
    : MachineR OpStep :=
  checked ← lift (capability_arguments capability method args);
  let '(contract, arguments) := checked in
  m ← get;
  let id := request_id (art_digest (program session)) (request_ordinal m) capability method
              arguments in
  let request := mkCapabilityRequest id capability method arguments
                   (ValueShape.from_type (sig_returns contract)) in
  _ ← modify (set_request (response_cursor m) (next_ordinal (request_ordinal m)));
  match responses session !! response_cursor m with
  | Some response =>
      if negb (String.eqb (result_request_id response) id) then fail capability_replay_mismatch
      else
        _ ← modify (set_request (response_cursor m + 1) (next_ordinal (request_ordinal m)));
        capability_response contract response
  | None => mret (Suspend request)
  end.

(** ** Methods of values *)

Definition push_value (v : RuntimeValue) : MachineR OpStep := mret (Push v).

(** [for item in values { if self.values_equal(item, value)? { return true } }] *)
Fixpoint list_contains (values : list RuntimeValue) (item : RuntimeValue) : MachineR bool :=
  match values with
  | [] => mret false
  | value :: values =>
      found ← values_equal value item;
      if (found : bool) then mret true else list_contains values item
  end.

Definition list_method (values : list RuntimeValue) (method : string) (args : list RuntimeValue)
    : MachineR OpStep :=
  match args with
  | [] =>
      if String.eqb method "len" then push_value (RInt (as_i64 (len values)))
      else if String.eqb method "empty"
      then push_value (RBool match values with [] => true | _ => false end)
      else fail unsupported_method
  | [value] =>
      if String.eqb method "contains"
      then found ← list_contains values value; push_value (RBool found)
      else fail unsupported_method
  | _ => fail unsupported_method
  end.

Definition string_method (value : string) (method : string) (args : list RuntimeValue)
    : MachineR OpStep :=
  match args with
  | [] =>
      if String.eqb method "len" then push_value (RInt (as_i64 (char_count value)))
      else if String.eqb method "empty" then push_value (RBool (String.eqb value ""))
      else if String.eqb method "trim" then push_charged (RString (trim_text value))
      else fail unsupported_method
  | [arg] =>
      if String.eqb method "contains" then
        match arg with
        | RString needle => push_value (RBool (str_contains value needle))
        | _ => fail unsupported_method
        end
      else if String.eqb method "starts_with" then
        prefix ← render_value arg; push_value (RBool (starts_with_text value prefix))
      else if String.eqb method "ends_with" then
        suffix ← render_value arg; push_value (RBool (ends_with_text value suffix))
      else fail unsupported_method
  | [old; new] =>
      if String.eqb method "replace" then
        old ← render_value old;
        new ← render_value new;
        push_charged (RString (replace_text value old new))
      else fail unsupported_method
  | _ => fail unsupported_method
  end.

(** [record_entries] *)
Definition record_entry (e : string * RuntimeValue) : RuntimeValue :=
  RRecord (BTree.from_entries [("key"%string, RString e.1); ("value"%string, e.2)]).

Definition record_entries (values : btree RuntimeValue) : list RuntimeValue :=
  map record_entry values.

Definition record_get (values : btree RuntimeValue) (key : RuntimeValue) (default_ : RuntimeValue)
    : MachineR OpStep :=
  key ← render_value key; push_value (default default_ (BTree.get key values)).

Definition record_method (values : btree RuntimeValue) (method : string) (args : list RuntimeValue)
    : MachineR OpStep :=
  match args with
  | [] =>
      if String.eqb method "len" then push_value (RInt (as_i64 (len values)))
      else if String.eqb method "keys" then push_charged (RList (map RString (BTree.keys values)))
      else if String.eqb method "values" then push_charged (RList (BTree.values values))
      else if one_of_names method ["entries"; "to_list"]%string
      then push_charged (RList (record_entries values))
      else if String.eqb method "to_dict" then push_value (RRecord values)
      else fail unsupported_method
  | [arg] =>
      if String.eqb method "has" then
        key ← render_value arg; push_value (RBool (BTree.contains_key key values))
      else if String.eqb method "merge" then
        match arg with
        | RRecord other => push_charged (RRecord (BTree.extend values other))
        | _ => fail unsupported_method
        end
      else if String.eqb method "get" then record_get values arg RNil
      else fail unsupported_method
  | [key; default_] =>
      if String.eqb method "get" then record_get values key default_ else fail unsupported_method
  | _ => fail unsupported_method
  end.

(** The arms of [call_method] after the harness and the record members. *)
Definition value_method (receiver : RuntimeValue) (method : string) (args : list RuntimeValue)
    : MachineR OpStep :=
  match receiver with
  | RList values => list_method values method args
  | RString value => string_method value method args
  | RRecord values => record_method values method args
  | _ => fail unsupported_method
  end.

(** A record's own member shadows its methods. *)
Definition record_member (receiver : RuntimeValue) (method : string) : option RuntimeValue :=
  match receiver with RRecord values => BTree.get method values | _ => None end.

(** [call_method]; [call_builtin] is the builtin dispatcher it may call. *)
Definition call_method (call_builtin : string → list RuntimeValue → MachineR OpStep)
    (receiver : RuntimeValue) (method : string) (args : list RuntimeValue) : MachineR OpStep :=
  _ ← charge_call_validation args;
  match receiver with
  | RHarness capability => call_capability capability method args
  | _ =>
      match record_member receiver method with
      | Some (RClosure function env) => mret (Call function env args false)
      | Some (RBuiltin name) => call_builtin name args
      | Some _ => fail not_callable
      | None => value_method receiver method args
      end
  end.

(** ** Mutating methods *)

(** The comparator [ordering(a, b).unwrap_or(0).cmp(&0)]. *)
Definition sort_compare (a b : RuntimeValue) : comparison := default Eq (semantic_try_compare a b).

(** [slice::sort_by] is stable; with a comparator that is not a total order
    Rust leaves the result unspecified (and may panic). *)
Fixpoint sort_insert (x : RuntimeValue) (l : list RuntimeValue) : list RuntimeValue :=
  match l with
  | [] => [x]
  | y :: l => match sort_compare x y with Gt => y :: sort_insert x l | _ => x :: y :: l end
  end.

Definition sort_by (l : list RuntimeValue) : list RuntimeValue := foldr sort_insert [] l.

(** [if *index < 0 { len + index } else { *index }.clamp(0, len)] *)
Definition insert_position (len_ : N) (index : Z) : nat :=
  let length := as_i64 len_ in
  Z.to_nat (Z.min (Z.max (if (index <? 0)%Z then length + index else index) 0) length).

(** The closure [outcome]. *)
Definition outcome (next result_ : RuntimeValue) : RuntimeValue := RList [next; result_].

(** The value [method_mutate] pushes, where it is not rendered first. *)
Definition list_mutation (values : list RuntimeValue) (method : string) (args : list RuntimeValue)
    : RuntimeValue :=
  match args with
  | [] =>
      if String.eqb method "pop" then
        outcome (RList (take (length values - 1) values)) (default RNil (last values))
      else if String.eqb method "clear" then outcome (RList []) RNil
      else if String.eqb method "sort" then outcome (RList (sort_by values)) RNil
      else if String.eqb method "reverse" then outcome (RList (reverse values)) RNil
      else RNil
  | [item] =>
      if String.eqb method "push" then outcome (RList (values ++ [item])) RNil
      else if String.eqb method "extend" then
        match item with
        | RList more => outcome (RList (values ++ more)) RNil
        | _ => RNil
        end
      else RNil
  | [RInt index; item] =>
      if String.eqb method "insert" then
        let at_ := insert_position (len values) index in
        outcome (RList (take at_ values ++ item :: drop at_ values)) RNil
      else RNil
  | _ => RNil
  end.

(** [method_mutate] *)
Definition method_mutate (receiver : RuntimeValue) (method : string) (args : list RuntimeValue)
    : MachineR OpStep :=
  match receiver with
  | RList values => push_charged (list_mutation values method args)
  | RRecord values =>
      match args with
      | [key] =>
          if String.eqb method "remove" then
            key ← render_value key;
            push_charged (outcome (RRecord (BTree.remove key values))
                            (default RNil (BTree.get key values)))
          else push_charged RNil
      | [] =>
          if String.eqb method "clear" then push_charged (outcome (RRecord []) RNil)
          else push_charged RNil
      | _ => push_charged RNil
      end
  | _ => push_charged RNil
  end.

(** ** Subscripts and membership *)

(** [subscript] *)
Definition subscript (value index : RuntimeValue) : MachineR (option RuntimeValue) :=
  match value, index with
  | RList values, RInt index => mret (i ← normalized_index (len values) index; values !! i)
  | RRecord values, key => key ← render_value key; mret (BTree.get key values)
  | RString value, RInt index =>
      let cs := chars value in
      mret (i ← normalized_index (len cs) index; c ← cs !! i; Some (RString c))
  | _, _ => mret None
  end.

(** [contains] *)
Definition contains (container item : RuntimeValue) : MachineR bool :=
  match container with
  | RList values => list_contains values item
  | RRecord values => key ← render_value item; mret (BTree.contains_key key values)
  | RString value => needle ← render_value item; mret (str_contains value needle)
  | _ => mret false
  end.
End methods.
