(* ===== verification/Builtins.v ===== *)
(** * The portable builtins ([execution/builtins.rs], [portable_builtin.rs], [pure.rs]) *)

From Stdlib Require Import Strings.String.
From S2P Require Import Prelude BTree Opcode Program Verifier Artifact Float64 Semantics Values.
From S2P Require Import Resource Text Ops TypeContract Json Regex Host Env Machine Methods.

Module PortableBuiltin.
Inductive PortableBuiltin :=
  | Pick | Len | ToString | HexEncode | HexDecode | Trim | Replace | StartsWith | JsonStringify
  | RegexMatch | RegexReplace | RegexCaptures | RegexSplit | Sha256 | SecretScan
  | SecretPatternCatalog | PathJoin
  | Count | String_ | MakeStruct | AssertList | AssertSchema | DictFilterNil | MethodMutate.

Definition ALL : list PortableBuiltin :=
  [Pick; Len; ToString; HexEncode; HexDecode; Trim; Replace; StartsWith; JsonStringify;
   RegexMatch; RegexReplace; RegexCaptures; RegexSplit; Sha256; SecretScan;
   SecretPatternCatalog; PathJoin;
   Count; String_; MakeStruct; AssertList; AssertSchema; DictFilterNil; MethodMutate].

(** [PortableBuiltin::name] *)
Definition name (b : PortableBuiltin) : string :=
  match b with
  | Pick => "pick" | Len => "len" | ToString => "to_string" | HexEncode => "hex_encode"
  | HexDecode => "hex_decode" | Trim => "trim" | Replace => "replace"
  | StartsWith => "starts_with" | JsonStringify => "json_stringify"
  | RegexMatch => "regex_match" | RegexReplace => "regex_replace"
  | RegexCaptures => "regex_captures" | RegexSplit => "regex_split" | Sha256 => "sha256"
  | SecretScan => "secret_scan" | SecretPatternCatalog => "secret_pattern_catalog"
  | PathJoin => "path_join"
  | Count => "count" | String_ => "string" | MakeStruct => "__make_struct"
  | AssertList => "__assert_list" | AssertSchema => "__assert_schema"
  | DictFilterNil => "__dict_filter_nil" | MethodMutate => "__method_mutate"
  end%string.

(** [PortableBuiltin::from_name] *)
Definition from_name (n : string) : option PortableBuiltin :=
  find (λ b, String.eqb (name b) n) ALL.
End PortableBuiltin.

Section builtins.
Context `{FloatLib, Platform}.

(** [runtime_text] *)
Definition runtime_text (v : RuntimeValue) : option string :=
  match v with RNil => None | _ => Some (display v) end.

Definition usize_value (n : N) : RuntimeValue := RInt (as_i64 n).

(** [regex_capture_value]: the fixed keys, then the named groups over them. *)
Definition regex_capture_value (c : RegexCapture) : RuntimeValue :=
  RRecord (BTree.extend
    (BTree.from_entries [
      ("match"%string, RString (full_match c));
      ("groups"%string, RList (map (λ g, match g with Some s => RString s | None => RNil end)
                                 (capture_groups c)));
      ("start"%string, usize_value (start_char c));
      ("end"%string, usize_value (end_char c));
      ("line"%string, usize_value (capture_line c))])
    (map (λ e, (e.1, RString e.2)) (capture_named c))).

(** [is_filter_nil_value] *)
Definition is_filter_nil_value (v : RuntimeValue) : bool :=
  match v with
  | RNil => true
  | RString value => String.eqb value "" || String.eqb value "null"
  | _ => false
  end.

(** [pick_fields] *)
Definition pick_step (lookup : string → option RuntimeValue) (selected : btree RuntimeValue)
    (key : string) : btree RuntimeValue :=
  if BTree.contains_key key selected then selected
  else match lookup key with Some value => BTree.insert key value selected | None => selected end.

Definition pick_fields (keys : list string) (lookup : string → option RuntimeValue)
    : btree RuntimeValue :=
  fold_left (pick_step lookup) keys [].

Definition string_list (vs : list RuntimeValue) : option (list string) :=
  mapM (λ v, match v with RString s => Some s | _ => None end) vs.

Definition runtime_error (c : Code) (message : string) : MachineR OpStep :=
  mret (RuntimeError (diagnostic_text c message)).

(** The regex builtins: what to do with a result, or the error a script can catch. *)
Definition regex_result {A} (r : A + string) (f : A → MachineR OpStep) : MachineR OpStep :=
  match r with
  | inl a => f a
  | inr message => runtime_error invalid_regex ("Invalid regex: " ++ message)
  end.

Definition push_strings (values : list string) : MachineR OpStep :=
  push_charged (RList (map RString values)).

(** [args.get(n).and_then(runtime_text).unwrap_or_default()] *)
Definition flags_of (flags : option RuntimeValue) : string :=
  default EmptyString (flags ≫= runtime_text).

Definition regex_match_builtin (pattern value : RuntimeValue) (flags : option RuntimeValue)
    : MachineR OpStep :=
  match runtime_text pattern, runtime_text value with
  | Some pattern, Some value =>
      regex_result (regex_matches pattern value (flags_of flags)) (λ values,
        match values with [] => push_value RNil | _ => push_strings values end)
  | _, _ => push_value RNil
  end.

Definition regex_replace_builtin (pattern replacement value : RuntimeValue)
    (flags : option RuntimeValue) : MachineR OpStep :=
  match runtime_text pattern, runtime_text replacement, runtime_text value with
  | Some pattern, Some replacement, Some value =>
      regex_result (regex_replace pattern replacement value (flags_of flags)) (λ value,
        push_charged (RString value))
  | _, _, _ => push_value RNil
  end.

Definition regex_captures_builtin (pattern value : RuntimeValue) (flags : option RuntimeValue)
    : MachineR OpStep :=
  match runtime_text pattern, runtime_text value with
  | Some pattern, Some value =>
      regex_result (regex_captures pattern value (flags_of flags)) (λ captures,
        push_charged (RList (map regex_capture_value captures)))
  | _, _ => push_value (RList [])
  end.

Definition regex_split_builtin (value pattern : RuntimeValue) (flags : option RuntimeValue)
    : MachineR OpStep :=
  match runtime_text value, runtime_text pattern with
  | Some value, Some pattern =>
      regex_result (regex_split pattern value (flags_of flags)) push_strings
  | _, _ => push_value RNil
  end.

(** [hex_decode_text] *)
Definition hex_decode_text (s : string) : string + string :=
  match hex_crate_decode (as_bytes s) with
  | inl bs => inl (from_bytes (utf8_lossy bs))
  | inr e => inr ("hex decode error: " ++ e)%string
  end.

Definition push_json (j : Json) : MachineR OpStep :=
  value ← lift (from_json j); push_charged (runtime_of_data value).

Definition secret_scan_builtin (value : RuntimeValue) (hashes : option (list RuntimeValue))
    : MachineR OpStep :=
  match runtime_text value with
  | None => runtime_error builtin_error "secret_scan: content is required"
  | Some content =>
      let findings := match hashes with
                      | Some values =>
                          match string_list values with
                          | Some hashes => secret_scan content (Some hashes)
                          | None => inr "secret_scan: hashes must be strings"%string
                          end
                      | None => secret_scan content None
                      end in
      match findings with
      | inl findings => push_json findings
      | inr message => runtime_error builtin_error message
      end
  end.

Definition is_root_harness (v : RuntimeValue) : bool :=
  match v with RHarness name => String.eqb name "root" | _ => false end.

(** The lookup [pick] selects with. *)
Definition pick_lookup (source : RuntimeValue) (name : string) : option RuntimeValue :=
  match source with
  | RHarness _ => if capability_field name then get_property source name else None
  | _ => get_property source name
  end.

Definition pick_builtin (args : list RuntimeValue) : MachineR OpStep :=
  match args with
  | [source; keys] =>
      if negb (match source with RRecord _ => true | _ => is_root_harness source end)
      then fail builtin_type
      else
        match keys with
        | RList keys =>
            names ← lift (ok_or (string_list keys) builtin_type);
            push_charged (RRecord (pick_fields names (pick_lookup source)))
        | _ => fail builtin_type
        end
  | _ => fail builtin_type
  end.

Fixpoint render_all (values : list RuntimeValue) : MachineR (list string) :=
  match values with
  | [] => mret []
  | value :: values => s ← render_value value; ss ← render_all values; mret (s :: ss)
  end.

Definition dict_filter_nil (values : btree RuntimeValue) (drop_empty : bool) : btree RuntimeValue :=
  filter (λ e, negb (match e.2 with RNil => true | _ => false end) &&
               (negb drop_empty || negb (is_filter_nil_value e.2)) = true) values.

Definition render_to_string (value : RuntimeValue) : MachineR OpStep :=
  s ← render_value value; push_charged (RString s).

(** The arms of [call_builtin]; [None] is the fallthrough arm. *)
Definition builtin_arm (b : PortableBuiltin.PortableBuiltin) (args : list RuntimeValue)
    : option (MachineR OpStep) :=
  match b, args with
  | PortableBuiltin.MethodMutate, receiver :: RString method :: rest =>
      Some (method_mutate receiver method rest)
  | (PortableBuiltin.Len | PortableBuiltin.Count), [RList v] =>
      Some (push_value (RInt (as_i64 (len v))))
  | (PortableBuiltin.Len | PortableBuiltin.Count), [RString v] =>
      Some (push_value (RInt (as_i64 (char_count v))))
  | (PortableBuiltin.String_ | PortableBuiltin.ToString), [value] => Some (render_to_string value)
  | PortableBuiltin.HexEncode, [RString value] =>
      Some (push_charged (RString (hex_encode (as_bytes value))))
  | PortableBuiltin.HexEncode, [RBytes value] => Some (push_charged (RString (hex_encode value)))
  | PortableBuiltin.HexDecode, [RString value] =>
      Some match hex_decode_text value with
           | inl value => push_charged (RString value)
           | inr message => runtime_error builtin_error message
           end
  | PortableBuiltin.Trim, [value] =>
      Some (s ← render_value value; push_charged (RString (trim_text s)))
  | PortableBuiltin.Replace, [input; old; new] =>
      Some (input ← render_value input; old ← render_value old; new ← render_value new;
            push_charged (RString (replace_text input old new)))
  | PortableBuiltin.StartsWith, [input; prefix] =>
      Some (input ← render_value input; prefix ← render_value prefix;
            push_value (RBool (starts_with_text input prefix)))
  | PortableBuiltin.JsonStringify, [value] =>
      Some (d ← lift (data_try_from value);
            s ← lift (ok_or (json_text (to_json d)) json_stringify);
            push_charged (RString s))
  | PortableBuiltin.RegexMatch, [pattern; value] => Some (regex_match_builtin pattern value None)
  | PortableBuiltin.RegexMatch, [pattern; value; flags] =>
      Some (regex_match_builtin pattern value (Some flags))
  | PortableBuiltin.RegexReplace, [pattern; replacement; value] =>
      Some (regex_replace_builtin pattern replacement value None)
  | PortableBuiltin.RegexReplace, [pattern; replacement; value; flags] =>
      Some (regex_replace_builtin pattern replacement value (Some flags))
  | PortableBuiltin.RegexCaptures, [pattern; value] =>
      Some (regex_captures_builtin pattern value None)
  | PortableBuiltin.RegexCaptures, [pattern; value; flags] =>
      Some (regex_captures_builtin pattern value (Some flags))
  | PortableBuiltin.RegexSplit, [value; pattern] => Some (regex_split_builtin value pattern None)
  | PortableBuiltin.RegexSplit, [value; pattern; flags] =>
      Some (regex_split_builtin value pattern (Some flags))
  | PortableBuiltin.Sha256, [RString value] =>
      Some (push_charged (RString (hex_encode (sha256 (as_bytes value)))))
  | PortableBuiltin.Sha256, [RBytes value] =>
      Some (push_charged (RString (hex_encode (sha256 value))))
  | PortableBuiltin.SecretPatternCatalog, [] => Some (push_json secret_catalog)
  | PortableBuiltin.SecretScan, ([value] | [value; RNil]) => Some (secret_scan_builtin value None)
  | PortableBuiltin.SecretScan, [value; RList hashes] =>
      Some (secret_scan_builtin value (Some hashes))
  | PortableBuiltin.Pick, args => Some (pick_builtin args)
  | PortableBuiltin.PathJoin, values =>
      Some (segments ← render_all values; push_charged (RString (join_path_segments segments)))
  | PortableBuiltin.DictFilterNil, ([RRecord values] | [RRecord values; RNil]) =>
      Some (push_charged (RRecord (dict_filter_nil values true)))
  | PortableBuiltin.DictFilterNil, [RRecord values; RBool drop_empty] =>
      Some (push_charged (RRecord (dict_filter_nil values drop_empty)))
  | PortableBuiltin.MakeStruct, [RString _; RRecord values; _] => Some (push_value (RRecord values))
  | PortableBuiltin.AssertList, [RList _] => Some (push_value RNil)
  | PortableBuiltin.AssertList, [_] => Some (fail list_type)
  | PortableBuiltin.AssertSchema, [value; RString _; schema] =>
      Some (schema ← lift (data_try_from schema);
            if matches_compiler_schema value schema then push_value RNil else fail argument_type)
  | _, _ => None
  end.

(** [call_builtin] *)
Definition call_builtin (name : string) (args : list RuntimeValue) : MachineR OpStep :=
  _ ← charge_call_validation args;
  match PortableBuiltin.from_name name with
  | Some builtin => default (fail unsupported_builtin) (builtin_arm builtin args)
  | None => fail unsupported_builtin
  end.
End builtins.

(** [catch_builtin_error]: a script sees the message of a builtin's failure. *)
Definition catch_builtin_error (frames : list Frame) (error : Diagnostic) : MachineR (list Frame) :=
  let value := RString ("Runtime error: " ++ default EmptyString (message error)) in
  _ ← charge_value_work value;
  match handle_throw frames (mkException value false) with
  | Some frames => mret frames
  | None => fail_with error
  end.
