(* ===== verification/Execute.v ===== *)
(** * The instruction set ([Machine::execute_op] of [execution.rs])

    One instruction runs on the active frame and the machine. Calls and imports
    end in a request that Run.v carries out: they leave the frame for another
    function or module. *)

From Stdlib Require Import Strings.String.
From S2P Require Import Prelude BTree Opcode Program Verifier Artifact Float64 Semantics Values.
From S2P Require Import Resource Text Arith Ops TypeContract Json Regex Host Env Machine Methods.
From S2P Require Import Builtins.

(** [selected_names] and [NamespaceProjection]: an alias and its demanded members. *)
Record ImportRequest := mkImportRequest {
  imp_path : string;
  imp_selected : option (list string);
  imp_namespace : option (string * option (list string))
}.

(** What an instruction asks for: [call_value]'s callee, or an import. *)
Inductive OpRequest :=
  | Stepped (step : OpStep)
  | CallValue (callee : RuntimeValue) (args : list RuntimeValue) (tail : bool)
  | ImportModule (import : ImportRequest).

(** [str::split(',')] *)
Fixpoint split_comma_go (current : string) (s : string) : list string :=
  match s with
  | EmptyString => [current]
  | String a s =>
      if Ascii.eqb a (Ascii.ascii_of_N 44) then current :: split_comma_go EmptyString s
      else split_comma_go (current ++ String a EmptyString) s
  end.

(** [names.split(',').filter(|name| !name.is_empty())] *)
Definition split_names (s : string) : list string :=
  filter (λ name, String.eqb name "" = false) (split_comma_go EmptyString s).

Section ops.
Context `{FloatLib, Platform} (session : Session).

Definition done : FrameR OpRequest := mret (Stepped Continue).
Definition stepped (s : OpStep) : FrameR OpRequest := mret (Stepped s).

Definition charge_value (v : RuntimeValue) : FrameR unit := on_machine (charge_value_work v).

(** Push a value whose work has just been charged. *)
Definition push_done (v : RuntimeValue) : FrameR OpRequest := _ ← push v; done.

Definition charged_push (v : RuntimeValue) : FrameR OpRequest :=
  _ ← charge_value v; push_done v.

(** *** Variables *)

Definition op_constant : FrameR OpRequest :=
  index ← read_u16;
  constants ← frame_get (λ f, chunk_constants (fr_chunk f));
  match constants !! index with
  | Some value => push_done (runtime_of_constant value)
  | None => invalid_index_error "constant" index
  end.

Definition op_get_var : FrameR OpRequest :=
  name ← read_constant_string;
  env ← frame_get fr_env;
  value ← on_machine (lookup_name env name);
  push_done (default (RBuiltin name) value).

Definition op_def_var : FrameR OpRequest :=
  name ← read_constant_string;
  value ← pop;
  env ← frame_get fr_env;
  _ ← on_machine (define env name value);
  done.

Definition op_set_var : FrameR OpRequest :=
  name ← read_constant_string;
  value ← pop;
  env ← frame_get fr_env;
  _ ← on_machine (assign env name value);
  done.

Definition op_push_scope : FrameR OpRequest :=
  env ← frame_get fr_env;
  child ← on_machine (child_env env);
  _ ← frame_set (set_env child);
  done.

Definition op_pop_scope : FrameR OpRequest :=
  env ← frame_get fr_env;
  parent ← on_machine (gets (λ m, environments m !! env ≫= env_parent));
  match parent with
  | Some parent => _ ← frame_set (set_env parent); done
  | None => done
  end.

(** [frame.locals.get(slot).and_then(Clone::clone)] *)
Definition local_value (slot : nat) : FrameR RuntimeValue :=
  locals ← frame_get fr_locals;
  match locals !! slot with
  | Some (Some value) => mret value
  | _ => invalid_index_error "local" slot
  end.

Definition set_local (slot : nat) (value : RuntimeValue) : FrameR unit :=
  frame_set (λ f, set_locals (<[slot := Some value]> (fr_locals f)) f).

Definition local_slot (slot : nat) : FrameR (option LocalSlotInfo) :=
  frame_get (λ f, chunk_local_slots (fr_chunk f) !! slot).

Definition op_get_local_slot : FrameR OpRequest :=
  slot ← read_u16;
  value ← local_value slot;
  push_done value.

Definition op_store_local_slot (define_ : bool) : FrameR OpRequest :=
  slot ← read_u16;
  value ← pop;
  locals ← frame_get fr_locals;
  if (length locals <=? slot)%nat then invalid_index_error "local" slot
  else
    _ ← set_local slot value;
    local ← local_slot slot;
    env ← frame_get fr_env;
    match local with
    | Some local =>
        _ ← on_machine (if define_ then define env (slot_name local) value
                        else assign env (slot_name local) value);
        done
    | None => done
    end.

(** The guard shared by the in-place updates of a local slot. *)
Definition mutable_slot (slot : nat) : FrameR LocalSlotInfo :=
  local ← local_slot slot;
  match local with
  | Some local => if slot_mutable local then mret local else fail immutable_assignment
  | None => invalid_index_error "local" slot
  end.

(** Store the updated value of a mutable slot under both its names. *)
Definition update_slot (slot : nat) (local : LocalSlotInfo) (value : RuntimeValue)
    : FrameR OpRequest :=
  _ ← charge_value value;
  _ ← set_local slot value;
  env ← frame_get fr_env;
  _ ← on_machine (assign env (slot_name local) value);
  done.

Definition op_concat_assign_local : FrameR OpRequest :=
  slot ← read_u16;
  rhs ← pop;
  local ← mutable_slot slot;
  lhs ← local_value slot;
  value ← lift (add lhs rhs);
  update_slot slot local value.

Definition op_get_argc : FrameR OpRequest :=
  argc ← frame_get fr_argc; push_done (RInt (as_i64 argc)).

(** *** The stack *)

Definition op_pop : FrameR OpRequest := _ ← pop; done.

Definition op_dup : FrameR OpRequest :=
  value ← pop; _ ← push value; push_done value.

Definition op_swap : FrameR OpRequest :=
  right_ ← pop;
  left_ ← pop;
  _ ← push right_;
  push_done left_.

(** *** Operators *)

(** [binary] *)
Definition binary (operation : RuntimeValue → RuntimeValue → result RuntimeValue)
    : FrameR RuntimeValue :=
  right_ ← pop;
  left_ ← pop;
  lift (operation left_ right_).

Definition op_binary (operation : RuntimeValue → RuntimeValue → result RuntimeValue)
    : FrameR OpRequest :=
  value ← binary operation; charged_push value.

Definition op_negate : FrameR OpRequest :=
  value ← pop; value ← lift (negate value); push_done value.

Definition op_not : FrameR OpRequest :=
  value ← pop; push_done (RBool (negb (truthy value))).

(** [compare_equality] *)
Definition compare_equality (expected : bool) : FrameR OpRequest :=
  right_ ← pop;
  left_ ← pop;
  equal ← on_machine (values_equal left_ right_);
  push_done (RBool (Bool.eqb equal expected)).

(** [compare]: an unordered pair satisfies no predicate. *)
Definition compare (predicate : comparison → bool) : FrameR OpRequest :=
  right_ ← pop;
  left_ ← pop;
  _ ← on_machine (charge_values_work [left_; right_]);
  push_done (RBool (match semantic_try_compare left_ right_ with
                    | Some c => predicate c
                    | None => false
                    end)).

Definition is_lt (c : comparison) : bool := match c with Lt => true | _ => false end.
Definition is_gt (c : comparison) : bool := match c with Gt => true | _ => false end.
Definition is_le (c : comparison) : bool := negb (is_gt c).
Definition is_ge (c : comparison) : bool := negb (is_lt c).

(** *** Jumps *)

Definition op_jump : FrameR OpRequest :=
  target ← read_u16; _ ← frame_set (set_ip target); done.

(** [frame.stack.last().is_some_and(RuntimeValue::truthy)] *)
Definition top_truthy (f : Frame) : bool :=
  match fr_stack f with v :: _ => truthy v | [] => false end.

Definition op_jump_if (expected : bool) : FrameR OpRequest :=
  target ← read_u16;
  truthy_ ← frame_get top_truthy;
  if Bool.eqb truthy_ expected then (_ ← frame_set (set_ip target); done) else done.

(** *** Functions *)

Definition op_closure : FrameR OpRequest :=
  index ← read_u16;
  function ← frame_get (λ f, chunk_functions (fr_chunk f) !! index);
  env ← frame_get fr_env;
  match function with
  | Some function => push_done (RClosure function env)
  | None => invalid_index_error "function" index
  end.

Definition op_call (tail : bool) : FrameR OpRequest :=
  argc ← read_u8;
  args ← pop_args argc;
  callee ← pop;
  mret (CallValue callee args tail).

(** [CallBuiltin], [CallBuiltinSpread] skip the identifier. *)
Definition skip_builtin_id : FrameR unit := frame_set (λ f, set_ip (fr_ip f + 8) f).

Definition op_call_builtin : FrameR OpRequest :=
  _ ← skip_builtin_id;
  name ← read_constant_string;
  argc ← read_u8;
  args ← pop_args argc;
  mret (CallValue (RString name) args false).

Definition op_call_builtin_spread : FrameR OpRequest :=
  _ ← skip_builtin_id;
  name ← read_constant_string;
  spread ← pop;
  match spread with
  | RList args => mret (CallValue (RString name) args false)
  | _ => fail spread_type
  end.

(** [frame.stack.pop().unwrap_or(RuntimeValue::Nil)] *)
Definition op_return : FrameR OpRequest := λ s,
  match fr_stack (st_frame s) with
  | v :: stack =>
      Ok (Stepped (Return v), mkState (set_stack stack (st_frame s)) (st_machine s))
  | [] => Ok (Stepped (Return RNil), s)
  end.

(** *** Values *)

Definition op_build_list : FrameR OpRequest :=
  count ← read_u16;
  values ← pop_args count;
  charged_push (RList values).

(** Keys are rendered in order; later keys replace earlier ones. *)
Fixpoint build_dict (entries : btree RuntimeValue) (values : list RuntimeValue)
    : MachineR (btree RuntimeValue) :=
  match values with
  | key :: value :: values =>
      key ← render_value key; build_dict (BTree.insert key value entries) values
  | _ => mret entries
  end.

Definition op_build_dict : FrameR OpRequest :=
  count ← read_u16;
  values ← pop_args (count * 2);
  entries ← on_machine (build_dict [] values);
  charged_push (RRecord entries).

Definition op_get_property (optional : bool) : FrameR OpRequest :=
  name ← read_constant_string;
  value ← pop;
  match get_property value name with
  | Some value => push_done value
  | None => if optional then push_done RNil else fail missing_property
  end.

Definition op_subscript (optional : bool) : FrameR OpRequest :=
  index ← pop;
  value ← pop;
  found ← on_machine (subscript value index);
  match found with
  | Some value => push_done value
  | None => if optional then push_done RNil else fail subscript_code
  end.

(** Assignment through a named binding. *)
Definition update_binding (binding : string) (update : RuntimeValue → result RuntimeValue)
    : FrameR OpRequest :=
  env ← frame_get fr_env;
  target ← on_machine (lookup_name env binding);
  target ← lift (ok_or target undefined_variable);
  updated ← lift (update target);
  _ ← charge_value updated;
  _ ← on_machine (assign env binding updated);
  done.

Definition op_set_property : FrameR OpRequest :=
  property ← read_constant_string;
  binding ← read_constant_string;
  value ← pop;
  update_binding binding (λ target, set_property_value target property value).

Definition op_set_subscript : FrameR OpRequest :=
  binding ← read_constant_string;
  index ← pop;
  value ← pop;
  update_binding binding (λ target, set_subscript_value target index value).

Definition op_set_local_slot_property : FrameR OpRequest :=
  property ← read_constant_string;
  slot ← read_u16;
  value ← pop;
  local ← mutable_slot slot;
  target ← local_value slot;
  updated ← lift (set_property_value target property value);
  update_slot slot local updated.

Definition op_set_local_slot_subscript : FrameR OpRequest :=
  slot ← read_u16;
  index ← pop;
  value ← pop;
  local ← mutable_slot slot;
  target ← local_value slot;
  updated ← lift (set_subscript_value target index value);
  update_slot slot local updated.

Definition op_slice : FrameR OpRequest :=
  end_ ← pop;
  start ← pop;
  value ← pop;
  value ← lift (slice value start end_);
  charged_push value.

Definition op_method_call (optional : bool) : FrameR OpRequest :=
  name ← read_constant_string;
  argc ← read_u8;
  args ← pop_args argc;
  receiver ← pop;
  if optional && match receiver with RNil => true | _ => false end then push_done RNil
  else step ← on_machine (call_method session call_builtin receiver name args); stepped step.

(** The loop of [Op::Concat]. *)
Fixpoint concat_rendered (rendered : string) (values : list RuntimeValue) : MachineR string :=
  match values with
  | [] => mret rendered
  | value :: values =>
      part ← render_value value;
      if (MAX_VALUE_BYTES <? saturating_add_usize (slen rendered) (slen part))%N
      then fail value_byte_limit
      else concat_rendered (rendered ++ part)%string values
  end.

Definition op_concat : FrameR OpRequest :=
  count ← read_u16;
  values ← pop_args count;
  rendered ← on_machine (concat_rendered EmptyString values);
  push_done (RString rendered).

Definition op_contains : FrameR OpRequest :=
  container ← pop;
  item ← pop;
  found ← on_machine (contains container item);
  push_done (RBool found).

(** *** Iteration *)

Definition iterator_of (iterable : RuntimeValue) : result IteratorState :=
  match iterable with
  | RList values => Ok (IterList values 0)
  | RRecord values => Ok (IterRecord values (BTree.keys values) 0)
  | _ => Err (diagnostic iterator_type)
  end.

Definition op_iter_init : FrameR OpRequest :=
  active ← on_machine (gets iterators);
  if (MAX_ITERATORS <=? length active)%nat then fail iterator_limit
  else
    iterable ← pop;
    iterator ← lift (iterator_of iterable);
    _ ← on_machine (modify (set_iterators (iterator :: active)));
    done.

(** One step of an iterator: the value and the iterator after it. *)
Definition iterator_next (i : IteratorState) : option (RuntimeValue * IteratorState) :=
  match i with
  | IterList values index =>
      value ← values !! index; Some (value, IterList values (index + 1))
  | IterRecord values keys index =>
      key ← keys !! index;
      Some (record_entry (key, default RNil (BTree.get key values)),
            IterRecord values keys (index + 1))
  end.

Definition op_iter_next : FrameR OpRequest :=
  target ← read_u16;
  active ← on_machine (gets iterators);
  match active with
  | [] => fail iterator_state
  | iterator :: rest =>
      match iterator_next iterator with
      | Some (value, next) =>
          _ ← on_machine (modify (set_iterators (next :: rest)));
          push_done value
      | None =>
          _ ← on_machine (modify (set_iterators rest));
          _ ← frame_set (set_ip target);
          done
      end
  end.

(** [self.iterators.pop()] *)
Definition op_pop_iterator : FrameR OpRequest :=
  _ ← on_machine (modify (λ m, set_iterators (tail (iterators m)) m)); done.

(** *** Exceptions *)

Definition op_try_catch (preserve : bool) : FrameR OpRequest :=
  target ← read_u16;
  _type_name ← read_u16;
  _ ← frame_set (λ f,
        set_handlers (mkHandler target (length (fr_stack f)) (fr_env f) preserve
                        :: fr_handlers f) f);
  done.

Definition op_pop_handler : FrameR OpRequest :=
  _ ← frame_set (λ f, set_handlers (tail (fr_handlers f)) f); done.

Definition op_throw (declared : bool) : FrameR OpRequest :=
  value ← pop; stepped (Throw (mkException value declared)).

Definition op_rethrow : FrameR OpRequest :=
  value ← pop;
  match value with
  | RException value declared => stepped (Throw (mkException value declared))
  | _ => fail invalid_rethrow
  end.

(** *** Enums and results *)

Definition op_build_enum : FrameR OpRequest :=
  enum_name ← read_constant_string;
  variant ← read_constant_string;
  field_count ← read_u16;
  fields ← pop_args field_count;
  charged_push (REnum enum_name variant fields).

Definition op_match_enum : FrameR OpRequest :=
  enum_name ← read_constant_string;
  variant ← read_constant_string;
  value ← pop;
  _ ← push value;
  push_done (RBool (is_variant value enum_name variant)).

Definition op_try_wrap_ok : FrameR OpRequest :=
  value ← pop;
  push_done
    match value with
    | REnum enum_name _ _ =>
        if String.eqb enum_name "Result" then value else REnum "Result" "Ok" [value]
    | _ => REnum "Result" "Ok" [value]
    end.

Definition op_try_unwrap : FrameR OpRequest :=
  value ← pop;
  match value with
  | REnum enum_name variant fields =>
      if negb (String.eqb enum_name "Result") then fail try_unwrap_type
      else if String.eqb variant "Ok" then push_done (default RNil (head fields))
      else stepped (Return value)
  | _ => fail try_unwrap_type
  end.

Definition op_assert_binding_type : FrameR OpRequest :=
  index ← read_u16;
  slot ← frame_get (λ f, chunk_binding_types (fr_chunk f) !! index);
  stack ← frame_get fr_stack;
  match slot, stack with
  | None, _ => invalid_index_error "binding type" index
  | Some _, [] => fail stack_underflow
  | Some slot, value :: _ => _ ← lift (validate_binding value slot); done
  end.

(** *** Imports *)

Definition op_import : FrameR OpRequest :=
  path ← read_constant_string; mret (ImportModule (mkImportRequest path None None)).

Definition op_selective_import : FrameR OpRequest :=
  path ← read_constant_string;
  names ← read_constant_string;
  mret (ImportModule (mkImportRequest path (Some (split_names names)) None)).

Definition op_namespace_import : FrameR OpRequest :=
  path ← read_constant_string;
  alias ← read_constant_string;
  mret (ImportModule (mkImportRequest path None (Some (alias, None)))).

Definition op_namespace_import_members : FrameR OpRequest :=
  path ← read_constant_string;
  alias ← read_constant_string;
  members ← read_constant_string;
  mret (ImportModule (mkImportRequest path None (Some (alias, Some (split_names members))))).

(** [execute_op] *)
Definition execute_op (op : Op.Op) : FrameR OpRequest :=
  match op with
  | Op.Constant => op_constant
  | Op.Nil => push_done RNil
  | Op.True_ => push_done (RBool true)
  | Op.False_ => push_done (RBool false)
  | Op.RootHarness => push_done (RHarness "root")
  | Op.GetVar => op_get_var
  | Op.DefLet | Op.DefVar | Op.DefCell => op_def_var
  | Op.SetVar => op_set_var
  | Op.PushScope => op_push_scope
  | Op.PopScope => op_pop_scope
  | Op.GetLocalSlot => op_get_local_slot
  | Op.DefLocalSlot => op_store_local_slot true
  | Op.SetLocalSlot => op_store_local_slot false
  | Op.ConcatAssignLocal => op_concat_assign_local
  | Op.GetArgc => op_get_argc
  | Op.Pop => op_pop
  | Op.Dup => op_dup
  | Op.Swap => op_swap
  | Op.Add | Op.AddInt | Op.AddFloat => op_binary add
  | Op.Sub | Op.SubInt | Op.SubFloat => op_binary sub
  | Op.Mul | Op.MulInt | Op.MulFloat => op_binary mul
  | Op.Div | Op.DivInt | Op.DivFloat => op_binary div
  | Op.Mod | Op.ModInt | Op.ModFloat => op_binary modulo
  | Op.Pow => op_binary pow
  | Op.Negate => op_negate
  | Op.Not => op_not
  | Op.Equal | Op.EqualInt | Op.EqualFloat | Op.EqualBool | Op.EqualString => compare_equality true
  | Op.NotEqual | Op.NotEqualInt | Op.NotEqualFloat | Op.NotEqualBool | Op.NotEqualString =>
      compare_equality false
  | Op.Less | Op.LessInt | Op.LessFloat => compare is_lt
  | Op.Greater | Op.GreaterInt | Op.GreaterFloat => compare is_gt
  | Op.LessEqual | Op.LessEqualInt | Op.LessEqualFloat => compare is_le
  | Op.GreaterEqual | Op.GreaterEqualInt | Op.GreaterEqualFloat => compare is_ge
  | Op.Jump => op_jump
  | Op.JumpIfFalse => op_jump_if false
  | Op.JumpIfTrue => op_jump_if true
  | Op.Closure => op_closure
  | Op.Call => op_call false
  | Op.TailCall => op_call true
  | Op.Return => op_return
  | Op.BuildList => op_build_list
  | Op.BuildDict => op_build_dict
  | Op.GetProperty => op_get_property false
  | Op.GetPropertyOpt => op_get_property true
  | Op.Subscript => op_subscript false
  | Op.SubscriptOpt => op_subscript true
  | Op.SetProperty => op_set_property
  | Op.SetSubscript => op_set_subscript
  | Op.SetLocalSlotProperty => op_set_local_slot_property
  | Op.SetLocalSlotSubscript => op_set_local_slot_subscript
  | Op.Slice => op_slice
  | Op.MethodCall => op_method_call false
  | Op.MethodCallOpt => op_method_call true
  | Op.Concat => op_concat
  | Op.Contains => op_contains
  | Op.IterInit => op_iter_init
  | Op.IterNext => op_iter_next
  | Op.PopIterator => op_pop_iterator
  | Op.TryCatchSetup => op_try_catch false
  | Op.TryCatchPreserve => op_try_catch true
  | Op.PopHandler => op_pop_handler
  | Op.Throw => op_throw false
  | Op.ThrowDeclared => op_throw true
  | Op.Rethrow => op_rethrow
  | Op.Import => op_import
  | Op.SelectiveImport => op_selective_import
  | Op.NamespaceImport => op_namespace_import
  | Op.NamespaceImportMembers => op_namespace_import_members
  | Op.BuildEnum => op_build_enum
  | Op.MatchEnum => op_match_enum
  | Op.TryWrapOk => op_try_wrap_ok
  | Op.TryUnwrap => op_try_unwrap
  | Op.AssertBindingType => op_assert_binding_type
  | Op.CallBuiltin => op_call_builtin
  | Op.CallBuiltinSpread => op_call_builtin_spread
  | Op.CheckType | Op.Pipe | Op.Parallel | Op.ParallelMap | Op.ParallelMapStream
  | Op.ParallelSettle | Op.Spawn | Op.SyncMutexEnter | Op.SyncMutexEnterKeyed | Op.TaskScopeEnter
  | Op.TaskScopeExit | Op.DeadlineSetup | Op.DeadlineEnd | Op.CallSpread | Op.MethodCallSpread
  | Op.Yield => fail unsupported_portable_opcode
  end.
End ops.
