(* ===== verification/Run.v ===== *)
(** * Execution ([execute_frames], [load_module], [run], [resume] of [execution.rs])

    The interpreter loop and module loading call each other: an import runs a
    module's initialiser in a loop of its own. [exec] ties the knot over a step
    budget that Termination.v shows is never the reason to stop. *)

From Stdlib Require Import Strings.String.
From S2P Require Import Prelude BTree Opcode Program Verifier Linker Reader Artifact Float64.
From S2P Require Import Semantics Values Resource Text Arith Ops TypeContract Json Regex Host Env.
From S2P Require Import Machine Methods Builtins Snapshot Execute.

(** ** Outcomes *)

(** [NameCycle]: [call_value] and [call_named] recurse without end, on a callee
    that is a name bound to a string that names it again: the scope, the callee
    and the scopes at that call. [OutOfSteps]: the model's budget. *)
Inductive outcome (A : Type) :=
  | Finished (r : result (A * Machine))
  | NameCycle (env : EnvId) (callee : RuntimeValue) (scopes : Store)
  | OutOfSteps.
Arguments Finished {A}.
Arguments NameCycle {A}.
Arguments OutOfSteps {A}.

Definition ExecR (A : Type) : Type := Machine → outcome A.

#[export] Instance exec_ret : MRet ExecR := λ A a m, Finished (Ok (a, m)).
#[export] Instance exec_bind : MBind ExecR := λ A B f e m,
  match e m with
  | Finished (Ok (a, m)) => f a m
  | Finished (Err d) => Finished (Err d)
  | NameCycle env callee scopes => NameCycle env callee scopes
  | OutOfSteps => OutOfSteps
  end.

Definition run_machine {A} (r : MachineR A) : ExecR A := λ m, Finished (r m).
Definition exec_fail {A} (c : Code) : ExecR A := λ _, Finished (Err (diagnostic c)).

(** ** Late-bound callees *)

(** What [call_value] and [call_named] come to: a value that is no name, or a
    name nothing binds. *)
Inductive Callee := Found (value : RuntimeValue) | Unbound (name : string).

Fixpoint resolve_callee (fuel : nat) (env : EnvId) (callee : RuntimeValue) (s : Store)
    : option Callee :=
  match callee with
  | RString name =>
      match fuel with
      | O => None
      | S fuel =>
          match env_get env name s with
          | Some callee => resolve_callee fuel env callee s
          | None => Some (Unbound name)
          end
      end
  | _ => Some (Found callee)
  end.

(** More names than all scopes together bind. *)
Definition name_budget (s : Store) : nat := S (S (sum_list_with (λ e, length (env_values e)) s)).

Section run.
Context `{FloatLib, Platform, SnapshotSerde} (session : Session).

(** [call_value], [call_named] *)
Definition call_value (env : EnvId) (callee : RuntimeValue) (args : list RuntimeValue) (tail : bool)
    : ExecR OpStep := λ m,
  match resolve_callee (name_budget (environments m)) env callee (environments m) with
  | None => NameCycle env callee (environments m)
  | Some (Unbound name) => run_machine (call_builtin name args) m
  | Some (Found callee) =>
      match callee with
      | RClosure function closure_env => Finished (Ok (Call function closure_env args tail, m))
      | RBuiltin name => run_machine (call_builtin name args) m
      | RHarness _ => run_machine (call_method session call_builtin callee "call" args) m
      | _ => exec_fail not_callable m
      end
  end.

(** ** One iteration of the loop *)

Inductive Step := Value (value : RuntimeValue) | Suspended_ (request : CapabilityRequest).
Inductive ModuleStep := Ready (m : ModuleInstance) | ModuleSuspend (request : CapabilityRequest).

(** The two functions that recurse: [execute_frames] and [load_module]. *)
Inductive Task := Frames (frames : list Frame) | LoadModule (id : string).

Definition Answer (t : Task) : Type :=
  match t with Frames _ => Step | LoadModule _ => ModuleStep end.

(** What is left to do after an [OpStep]: go on, or a result. *)
Inductive Next := NextFrames (frames : list Frame) | NextStep (step : Step).

Definition push_on (value : RuntimeValue) (frames : list Frame) : list Frame :=
  match frames with
  | frame :: frames => set_stack (value :: fr_stack frame) frame :: frames
  | [] => []
  end.

(** The [OpStep::Call] arm: the frame of the callee. *)
Definition call_frame (function : CompiledFunction) (env : EnvId) (args : list RuntimeValue)
    : MachineR Frame :=
  env ← child_env env;
  _ ← charge_call_validation args;
  _ ← lift (validate_call function args);
  function_frame function env args.

Definition throw_code (declared : bool) : Code :=
  if declared then harn_declared_throw else harn_throw.

(** The [OpStep::Throw] arm. *)
Definition throw (frames : list Frame) (error : RuntimeException) : MachineR Next :=
  match handle_throw frames error with
  | Some frames => mret (NextFrames frames)
  | None =>
      message ← render_value (exn_value error);
      fail_with (diagnostic_text (throw_code (exn_declared error)) message)
  end.

(** The match on the instruction's result. *)
Definition dispatch (step : OpStep) (frames : list Frame) : MachineR Next :=
  match step with
  | Continue => mret (NextFrames frames)
  | Push value => mret (NextFrames (push_on value frames))
  | Call function env args tail =>
      if (MAX_FRAMES <=? length frames)%nat then fail frame_limit
      else
        next ← call_frame function env args;
        mret (NextFrames (if tail then next :: List.tl frames else next :: frames))
  | Return value =>
      match List.tl frames with
      | [] => mret (NextStep (Value value))
      | callers => mret (NextFrames (push_on value callers))
      end
  | Suspend request => mret (NextStep (Suspended_ request))
  | Throw error => throw frames error
  | RuntimeError error => frames ← catch_builtin_error frames error; mret (NextFrames frames)
  end.

Definition stack_exceeded (frames : list Frame) : bool :=
  match frames with
  | frame :: _ => (MAX_OPERAND_STACK <? length (fr_stack frame))%nat
  | [] => false
  end.

(** *** Imports *)

(** The members a namespace import projects. *)
Definition namespace_entries (exports : btree PortableExportKind.PortableExportKind)
    (demanded : option (list string)) (env : EnvId) (s : Store) : btree RuntimeValue :=
  fold_left (λ entries (e : string * PortableExportKind.PortableExportKind),
    if negb (PortableExportKind.has_runtime_value e.2) then entries
    else if match demanded with
            | Some members => negb (existsb (λ member, String.eqb member e.1) members)
            | None => false
            end then entries
    else match env_get env e.1 s with
         | Some value => BTree.insert e.1 value entries
         | None => entries
         end) exports [].

Definition bind_namespace (inst : ModuleInstance) (alias : string)
    (demanded : option (list string)) (env : EnvId) : MachineR unit :=
  m ← get;
  if env_contains_local env alias (environments m) then fail portable_import_collision
  else if match demanded with
          | Some members =>
              negb (forallb (λ member, BTree.contains_key member (inst_exports inst)) members)
          | None => false
          end then fail portable_import
  else define env alias (RRecord (namespace_entries (inst_exports inst) demanded (inst_env inst)
                                    (environments m))).

(** One name of a plain or selective import. *)
Definition bind_name (inst : ModuleInstance) (env : EnvId) (name : string) : MachineR unit :=
  match BTree.get name (inst_exports inst) with
  | None => fail portable_import
  | Some kind =>
      if negb (PortableExportKind.has_runtime_value kind) then mret tt
      else
        value ← lookup_name (inst_env inst) name;
        value ← lift (ok_or value portable_import);
        m ← get;
        if env_contains_local env name (environments m) then fail portable_import_collision
        else define env name value
  end.

Fixpoint bind_names (inst : ModuleInstance) (env : EnvId) (names : list string) : MachineR unit :=
  match names with
  | [] => mret tt
  | name :: names => _ ← bind_name inst env name; bind_names inst env names
  end.

(** [bind_module_projection] *)
Definition bind_module_projection (inst : ModuleInstance) (selected : option (list string))
    (namespace : option (string * option (list string))) (env : EnvId) : MachineR unit :=
  match namespace with
  | Some (alias, demanded) => bind_namespace inst alias demanded env
  | None => bind_names inst env (default (BTree.keys (inst_exports inst)) selected)
  end.

Section knot.
Context (rec : ∀ t : Task, ExecR (Answer t)).

(** [import_root_module] *)
Definition import_root_module (import : ImportRequest) (env : EnvId) : ExecR OpStep :=
  match find (λ spec, String.eqb (import_path spec) (imp_path import))
          (art_root_imports (program session)) with
  | None => exec_fail portable_import
  | Some spec =>
      answer ← rec (LoadModule (import_target spec));
      match (answer : ModuleStep) with
      | Ready inst =>
          _ ← run_machine (bind_module_projection inst (imp_selected import) (imp_namespace import) env);
          mret Continue
      | ModuleSuspend request => mret (Suspend request)
      end
  end.

(** The request an instruction ends in. *)
Definition run_request (request : OpRequest) (env : EnvId) : ExecR OpStep :=
  match request with
  | Stepped step => mret step
  | CallValue callee args tail => call_value env callee args tail
  | ImportModule import => import_root_module import env
  end.

(** An iteration of [execute_frames], and the rest of the loop. *)
Definition step_frames (frames : list Frame) : ExecR Step :=
  _ ← run_machine (charge 1);
  match frames with
  | [] => exec_fail execution_state
  | frame :: callers =>
      match code_of frame !! fr_ip frame with
      | None => exec_fail instruction_pointer
      | Some b =>
          match Op.from_byte b with
          | None => exec_fail invalid_opcode
          | Some op => λ m,
              match execute_op session op (mkState (set_ip (fr_ip frame + 1) frame) m) with
              | Err d => Finished (Err d)
              | Ok (request, s) =>
                  (step ← run_request request (fr_env (st_frame s));
                   next ← run_machine (dispatch step (st_frame s :: callers));
                   match next with
                   | NextStep step => mret step
                   | NextFrames frames =>
                       if stack_exceeded frames then exec_fail operand_stack_limit
                       else rec (Frames frames)
                   end) (st_machine s)
              end
          end
      end
  end.

(** The loop over a module's own imports; [Some] is a suspension. *)
Fixpoint load_imports (imports : list PortableImport) (env : EnvId)
    : ExecR (option CapabilityRequest) :=
  match imports with
  | [] => mret None
  | import :: imports =>
      answer ← rec (LoadModule (import_target import));
      match (answer : ModuleStep) with
      | ModuleSuspend request => mret (Some request)
      | Ready inst =>
          _ ← run_machine (bind_module_projection inst (import_selected_names import)
                             ((λ alias, (alias, None)) <$> import_namespace_alias import) env);
          load_imports imports env
      end
  end.

(** A module's initialiser; [Some] is a suspension. *)
Definition run_init (init : option Chunk) (env : EnvId) : ExecR (option CapabilityRequest) :=
  match init with
  | None => mret None
  | Some chunk =>
      step ← rec (Frames [frame_new chunk env []]);
      match (step : Step) with
      | Value _ => mret None
      | Suspended_ request => mret (Some request)
      end
  end.

Definition define_functions (env : EnvId) (functions : btree CompiledFunction) (m : Machine)
    : Machine :=
  fold_left (λ m (e : string * CompiledFunction),
    set_environments (env_define env e.1 (RClosure e.2 env) (environments m)) m) functions m.

Definition pop_loading (m : Machine) : Machine := set_loading (tl (loading_modules m)) m.

(** A module being loaded is on the stack [loading_modules] until it is ready or
    suspends. *)
Definition enter_module (module : BuiltModule) : MachineR EnvId := λ m,
  let '(env, s) := env_root (environments m) in
  Ok (env, set_loading (built_id module :: loading_modules m) (set_environments s m)).

(** The module is ready: its functions are closures over its environment. *)
Definition finish_module (module : BuiltModule) (env : EnvId) : MachineR ModuleInstance :=
  let inst := mkModuleInstance env (built_exports module) in
  _ ← modify (define_functions env (built_functions module));
  _ ← modify (λ m, pop_loading (set_modules (BTree.insert (built_id module) inst (modules m)) m));
  mret inst.

Definition load_module_body (module : BuiltModule) : ExecR ModuleStep :=
  env ← run_machine (enter_module module);
  suspended ← load_imports (built_imports module) env;
  match suspended with
  | Some request => _ ← run_machine (modify pop_loading); mret (ModuleSuspend request)
  | None =>
      suspended ← run_init (built_init module) env;
      match suspended with
      | Some request => _ ← run_machine (modify pop_loading); mret (ModuleSuspend request)
      | None => inst ← run_machine (finish_module module env); mret (Ready inst)
      end
  end.

(** [load_module] *)
Definition load_module (id : string) : ExecR ModuleStep := λ m,
  match BTree.get id (modules m) with
  | Some inst => Finished (Ok (Ready inst, m))
  | None =>
      if existsb (λ loading, String.eqb loading id) (loading_modules m)
      then exec_fail portable_import_cycle m
      else
        match find (λ module, String.eqb (built_id module) id) (art_modules (program session)) with
        | None => exec_fail portable_import m
        | Some module => load_module_body module m
        end
  end.
End knot.

(** The mutual recursion, over a budget of steps. *)
Fixpoint exec (steps : nat) (t : Task) : ExecR (Answer t) :=
  match steps with
  | O => λ _, OutOfSteps
  | S steps =>
      match t with
      | Frames frames => step_frames (exec steps) frames
      | LoadModule id => load_module (exec steps) id
      end
  end.

(** ** Whole executions *)

(** Every iteration of a loop is charged, and modules nest at most once each:
    enough steps for any execution (see [run_program_terminates]). *)
Definition step_budget : nat :=
  S (N.to_nat DEFAULT_FUEL + length (art_modules (program session))).

(** [suspend] *)
Definition suspend (input : DataValue) (request : CapabilityRequest) (m : Machine) : Execution :=
  match snapshot_key (session_grants session) with
  | None => Failed (diagnostic snapshot_key_required)
  | Some key =>
      let snapshot := mkReplaySnapshot (art_digest (program session))
                        (fingerprint (session_grants session)) (DEFAULT_FUEL - fuel m) input
                        (take (response_cursor m) (responses session)) (req_id request) in
      match encode_snapshot snapshot key with
      | Ok bytes => Suspended request bytes
      | Err d => Failed d
      end
  end.

(** The host's data, checked before anything runs. *)
Definition validate_inputs (input : DataValue) : result unit :=
  _ ← validate_data_value input;
  result_foldl (λ _ response,
    match response with CapOk _ value => validate_data_value value | _ => Ok tt end)
    tt (responses session).

Definition entry_arguments (input : DataValue) : list RuntimeValue :=
  (if art_expects_harness (program session) then [RHarness "root"] else []) ++
  [runtime_of_data input].

(** The entry function's value leaves as data. *)
Definition complete (value : RuntimeValue) : MachineR DataValue :=
  _ ← charge_value_work value; lift (data_try_from value).

(** From the bootstrap's closure to the entry's frame. *)
Definition entry_frame (bootstrap : RuntimeValue) (input : DataValue) : MachineR Frame :=
  match bootstrap with
  | RClosure function closure_env => call_frame function closure_env (entry_arguments input)
  | _ => fail entry_not_callable
  end.

Inductive RunResult := RunCompleted (value : DataValue) | RunSuspended (request : CapabilityRequest).

(** Bootstrap, then entry: the body of [run_with_fuel]. *)
Definition run_program (steps : nat) (input : DataValue) : ExecR RunResult :=
  bootstrap ← exec steps (Frames [frame_new (art_image (program session)) 0 []]);
  match (bootstrap : Step) with
  | Suspended_ request => mret (RunSuspended request)
  | Value bootstrap =>
      frame ← run_machine (entry_frame bootstrap input);
      step ← exec steps (Frames [frame]);
      match (step : Step) with
      | Suspended_ request => mret (RunSuspended request)
      | Value value => value ← run_machine (complete value); mret (RunCompleted value)
      end
  end.

(** [run_with_fuel]; [None] is a name cycle (or a budget that was too small). *)
Definition run_with_steps (steps : nat) (input : DataValue) (fuel_consumed : N) : option Execution :=
  match validate_inputs input with
  | Err d => Some (Failed d)
  | Ok _ =>
      match run_program steps input (machine_new (env_root []).2 fuel_consumed) with
      | Finished (Ok (RunCompleted value, _)) => Some (Completed value)
      | Finished (Ok (RunSuspended request, m)) => Some (suspend input request m)
      | Finished (Err d) => Some (Failed d)
      | NameCycle _ _ _ | OutOfSteps => None
      end
  end.

Definition run_with_fuel (input : DataValue) (fuel_consumed : N) : option Execution :=
  run_with_steps step_budget input fuel_consumed.
End run.

Section entry_points.
Context `{FloatLib, Platform, SnapshotSerde} (artifact : ProgramArtifact).

(** [start] *)
Definition start (input : DataValue) (grants : GrantSet) : option Execution :=
  run_with_fuel (mkSession artifact grants []) input 0.

(** [replay] *)
Definition replay (input : DataValue) (grants : GrantSet) (responses : list CapabilityResult)
    : option Execution :=
  run_with_fuel (mkSession artifact grants responses) input 0.

(** [resume] *)
Definition resume (snapshot : list byte) (result_ : CapabilityResult) (grants : GrantSet)
    : option Execution :=
  match decode_snapshot snapshot (snapshot_key grants) with
  | Err d => Some (Failed d)
  | Ok decoded =>
      if negb (bytes_eqb (artifact_digest decoded) (art_digest artifact))
      then Some (Failed (diagnostic snapshot_program_mismatch))
      else if negb (bytes_eqb (grant_fingerprint decoded) (fingerprint grants))
      then Some (Failed (diagnostic snapshot_grant_mismatch))
      else if negb (String.eqb (result_request_id result_) (pending_request decoded))
      then Some (Failed (diagnostic capability_result_mismatch))
      else run_with_fuel (mkSession artifact grants (snap_responses decoded ++ [result_]))
             (snap_input decoded) (fuel_consumed decoded)
  end.
End entry_points.
