(* ===== verification/Effects.v ===== *)
(** * What operations do to the state

    Operations are composed from few primitives: charging fuel, and quiet steps,
    which neither read nor write the fuel and leave the loading path and the
    shape of the environments alone. A property of operations that holds of
    those and is closed under sequencing ([Closed]) holds of every method,
    builtin and instruction; this file walks down to the primitives once. Two
    instances are used: what every step keeps ([keeps], Termination.v) and that
    no step sees how fuel and replay credit are split (Replay.v). *)

From Stdlib Require Import Strings.String.
From S2P Require Import Prelude BTree Opcode Program Verifier Artifact Float64 Semantics Values.
From S2P Require Import Resource Text Arith Ops TypeContract Json Regex Host Env Machine Methods.
From S2P Require Import Builtins Snapshot Execute Run.

(** ** Primitives *)

Definition on_result {A B S T} (f : A → B) (g : S → T) (r : result (A * S)) : result (B * T) :=
  match r with Ok (a, s) => Ok (f a, g s) | Err d => Err d end.

(** The machine with other fuel. *)
Record quiet_step (m m' : Machine) : Prop := {
  quiet_fuel : fuel m' = fuel m;
  quiet_credit : replay_credit m' = replay_credit m;
  quiet_loading : loading_modules m' = loading_modules m;
  quiet_store : store_extends (environments m) (environments m')
}.

Record quiet {A} (op : MachineR A) : Prop := {
  quiet_steps m a m' : op m = Ok (a, m') → quiet_step m m';
  quiet_blind m k c : op (set_fuel k c m) = on_result id (set_fuel k c) (op m)
}.

Class Closed (P : ∀ A, MachineR A → Prop) := {
  closed_quiet A (op : MachineR A) : quiet op → P A op;
  closed_charge n : P unit (charge n);
  closed_bind A B (op : MachineR A) (f : A → MachineR B) :
    P A op → (∀ a, P B (f a)) → P B (op ≫= f);
  (** A continuation of [get] that does not look at the fuel. *)
  closed_get A (f : Machine → MachineR A) :
    (∀ m k c, f (set_fuel k c m) = f m) → (∀ m, P A (f m)) → P A (get ≫= f)
}.

(** *** Quiet operations *)

Lemma quiet_step_refl m : quiet_step m m.
Proof. by split. Qed.

Lemma quiet_ret {A} (a : A) : quiet (mret a).
Proof. split; [intros m b m' [= <- <-]; apply quiet_step_refl|done]. Qed.

Lemma quiet_fail_with {A} d : quiet (fail_with (A := A) d).
Proof. by split. Qed.

Lemma quiet_fail {A} c : quiet (fail (A := A) c).
Proof. by split. Qed.

Lemma quiet_lift {A} (r : result A) : quiet (lift r).
Proof. destruct r; [apply quiet_ret|apply quiet_fail_with]. Qed.

Lemma quiet_gets {A} (f : Machine → A) : (∀ m k c, f (set_fuel k c m) = f m) → quiet (gets f).
Proof.
  intros Hf. split; [intros m a m' [= <- <-]; apply quiet_step_refl|].
  intros m k c. unfold gets. by rewrite Hf.
Qed.

Lemma quiet_modify f :
  (∀ m, quiet_step m (f m)) → (∀ m k c, f (set_fuel k c m) = set_fuel k c (f m)) → quiet (modify f).
Proof.
  intros Hf Hb. split; [intros m a m' [= <- <-]; apply Hf|]. intros m k c. unfold modify. by rewrite Hb.
Qed.

Lemma quiet_environments (f : Store → Store) :
  (∀ s, store_extends s (f s)) → quiet (modify (λ m, set_environments (f (environments m)) m)).
Proof. intros Hf. apply quiet_modify; [|done]. intros m. by split. Qed.

Lemma quiet_child_env parent : quiet (child_env parent).
Proof.
  split.
  - intros m id m' H'. unfold child_env, env_child in H'.
    destruct (ok_or _ _); cbn in H'; [|done]. destruct (reject_if _ _); cbn in H'; [|done].
    injection H' as <- <-. split; try done. apply store_extends_app.
  - intros m k c. unfold child_env. cbn. by destruct (env_child _ _) as [[]|].
Qed.

Create HintDb closed.

(** One layer of an operation: a bind, a branch, or something known. *)
Ltac closed_step P :=
  lazymatch goal with
  | |- P _ (mret _) => apply (closed_quiet (P := P)), quiet_ret
  | |- P _ (fail _) => apply (closed_quiet (P := P)), quiet_fail
  | |- P _ (fail_with _) => apply (closed_quiet (P := P)), quiet_fail_with
  | |- P _ (lift _) => apply (closed_quiet (P := P)), quiet_lift
  | |- P _ (gets _) => apply (closed_quiet (P := P)), quiet_gets; reflexivity
  | |- P _ (modify _) =>
      apply (closed_quiet (P := P)), quiet_modify; [intros; split; reflexivity|reflexivity]
  | |- P _ (get ≫= _) => apply (closed_get (P := P)); [reflexivity|intros]
  | |- P _ (_ ≫= _) => apply (closed_bind (P := P)); [|intros]
  | |- P _ (if ?b then _ else _) => destruct b
  | |- P _ (match ?x with _ => _ end) => destruct x
  | |- _ => solve [eauto 2 with closed]
  end.

Section machine.
Context `{FloatLib, Platform} (session : Session).
Context (P : ∀ A, MachineR A → Prop) `{!Closed P}.
#[local] Arguments P {A}.

Lemma closed_charging n : P (charge n).
Proof. apply closed_charge. Qed.
#[local] Hint Resolve closed_charging : closed.
Ltac closed_walk := repeat closed_step (@P).

Lemma closed_charge_value_work v : P (charge_value_work v).
Proof. unfold charge_value_work. closed_walk. Qed.
Lemma closed_charge_call_validation vs : P (charge_call_validation vs).
Proof. unfold charge_call_validation. closed_walk. Qed.
Lemma closed_charge_values_work vs : P (charge_values_work vs).
Proof. unfold charge_values_work. closed_walk. Qed.
#[local] Hint Resolve closed_charge_value_work closed_charge_call_validation
  closed_charge_values_work : closed.

Lemma closed_render_value v : P (render_value v).
Proof. unfold render_value. closed_walk. Qed.
Lemma closed_push_charged v : P (push_charged v).
Proof. unfold push_charged. closed_walk. Qed.
Lemma closed_push_value v : P (push_value v).
Proof. unfold push_value. closed_walk. Qed.
Lemma closed_values_equal a b : P (values_equal a b).
Proof. unfold values_equal. closed_walk. Qed.
#[local] Hint Resolve closed_render_value closed_push_charged closed_push_value closed_values_equal : closed.

Lemma closed_define env name v : P (define env name v).
Proof. apply closed_quiet, quiet_environments. intros s. apply store_extends_define. Qed.
Lemma closed_assign env name v : P (assign env name v).
Proof. apply closed_quiet, quiet_environments. intros s. apply store_extends_set. Qed.
Lemma closed_child_env parent : P (child_env parent).
Proof. apply closed_quiet, quiet_child_env. Qed.
Lemma closed_lookup_name env name : P (lookup_name env name).
Proof. apply closed_quiet, quiet_gets. reflexivity. Qed.
#[local] Hint Resolve closed_define closed_assign closed_child_env closed_lookup_name : closed.

Lemma closed_list_contains vs v : P (list_contains vs v).
Proof. induction vs; cbn [list_contains]; closed_walk. Qed.
Lemma closed_render_all vs : P (render_all vs).
Proof. induction vs; cbn [render_all]; closed_walk. Qed.
Lemma closed_concat_rendered s vs : P (concat_rendered s vs).
Proof. revert s; induction vs; intros s; cbn [concat_rendered]; closed_walk. Qed.
Lemma closed_build_dict es vs : P (build_dict es vs).
Proof.
  revert es. induction vs as [| |k v vs IH] using list_pair_ind; intros es; cbn [build_dict]; closed_walk.
Qed.
#[local] Hint Resolve closed_list_contains closed_render_all closed_concat_rendered closed_build_dict : closed.

Lemma closed_call_capability capability method args :
  P (call_capability session capability method args).
Proof. unfold call_capability, capability_response. closed_walk. Qed.

Lemma closed_list_method vs method args : P (list_method vs method args).
Proof. unfold list_method. closed_walk. Qed.
Lemma closed_string_method s method args : P (string_method s method args).
Proof. unfold string_method. closed_walk. Qed.
Lemma closed_record_method es method args : P (record_method es method args).
Proof. unfold record_method, record_get. closed_walk. Qed.
Lemma closed_method_mutate v method args : P (method_mutate v method args).
Proof. unfold method_mutate. closed_walk. Qed.
Lemma closed_subscript v i : P (subscript v i).
Proof. unfold subscript. closed_walk. Qed.
Lemma closed_contains v i : P (contains v i).
Proof. unfold contains. closed_walk. Qed.
#[local] Hint Resolve closed_call_capability closed_list_method closed_string_method
  closed_record_method closed_method_mutate closed_subscript closed_contains : closed.

Lemma closed_runtime_error c s : P (runtime_error c s).
Proof. unfold runtime_error. closed_walk. Qed.
#[local] Hint Resolve closed_runtime_error : closed.
Lemma closed_builtin_arm b args op : builtin_arm b args = Some op → P op.
Proof.
  unfold builtin_arm, pick_builtin, render_to_string, regex_match_builtin, regex_replace_builtin,
    regex_captures_builtin, regex_split_builtin, secret_scan_builtin, push_json, push_strings,
    regex_result.
  intros Hop. destruct b; repeat (match type of Hop with context [match ?x with _ => _ end] =>
    is_var x; destruct x end; try discriminate Hop);
    injection Hop as <-; closed_walk.
Qed.

Lemma closed_call_builtin name args : P (call_builtin name args).
Proof.
  unfold call_builtin. closed_walk.
  match goal with |- context [builtin_arm ?b args] => destruct (builtin_arm b args) eqn:E end;
    cbn [default]; [by eapply closed_builtin_arm|closed_walk].
Qed.
#[local] Hint Resolve closed_call_builtin : closed.

Lemma closed_call_method receiver method args :
  P (call_method session call_builtin receiver method args).
Proof. unfold call_method, value_method. closed_walk. Qed.

Lemma closed_catch_builtin_error frames d : P (catch_builtin_error frames d).
Proof. unfold catch_builtin_error. closed_walk. Qed.

Lemma quiet_define_parameters env ps ls m :
  quiet_step m (define_parameters env ps ls m).
Proof.
  revert ls m. induction ps as [|p ps IH]; intros [|[v|] ls] m; try apply quiet_step_refl; [|apply IH].
  destruct (IH ls (set_environments (env_define env (param_name p) v (environments m)) m)).
  split; try done. cbn [define_parameters]. etrans; [apply store_extends_define|exact quiet_store0].
Qed.

Lemma blind_define_parameters env ps ls m k c :
  define_parameters env ps ls (set_fuel k c m) = set_fuel k c (define_parameters env ps ls m).
Proof.
  revert ls m. induction ps as [|p ps IH]; intros [|[v|] ls] m; try done; [|apply (IH ls)].
  apply (IH ls (set_environments (env_define env (param_name p) v (environments m)) m)).
Qed.

Lemma closed_function_frame function env args : P (function_frame function env args).
Proof.
  unfold function_frame. closed_walk. apply closed_quiet. split.
  - intros m f m' [= <- <-]. apply quiet_define_parameters.
  - intros m k c. unfold frame_for_function, on_result. by rewrite blind_define_parameters.
Qed.
End machine.

(** Operations that are closed under any such property. *)
Ltac closed_known P :=
  first
    [ apply (closed_charge (P := P)) | apply (closed_charge_value_work P)
    | apply (closed_charge_call_validation P) | apply (closed_charge_values_work P)
    | apply (closed_render_value P) | apply (closed_values_equal P) | apply (closed_define P)
    | apply (closed_assign P) | apply (closed_child_env P) | apply (closed_lookup_name P)
    | apply (closed_concat_rendered P) | apply (closed_build_dict P) | apply (closed_subscript P)
    | apply (closed_contains P) | apply (closed_call_builtin P) | apply (closed_call_method _ P)
    | apply (closed_catch_builtin_error P) | apply (closed_function_frame P) ].

Ltac closed_walk_at P := repeat first [closed_known P | closed_step P].

(** ** Instructions *)

(** An operation on the frame alone. *)
Definition frame_only {A} (op : FrameR A) : Prop :=
  ∃ g : Frame → result (A * Frame), ∀ s,
    op s = on_result id (λ f, mkState f (st_machine s)) (g (st_frame s)).

Class FrameClosed (P : ∀ A, MachineR A → Prop) (Q : ∀ A, FrameR A → Prop) := {
  frame_closed_machine :: Closed P;
  closed_on_machine A (op : MachineR A) : P A op → Q A (on_machine op);
  closed_frame_only A (op : FrameR A) : frame_only op → Q A op;
  closed_frame_bind A B (op : FrameR A) (f : A → FrameR B) :
    Q A op → (∀ a, Q B (f a)) → Q B (op ≫= f)
}.

Lemma frame_only_ret {A} (a : A) : frame_only (mret a).
Proof. exists (λ f, Ok (a, f)). by intros []. Qed.
Lemma frame_only_fail_with {A} d : frame_only (fail_with (A := A) d).
Proof. by exists (λ f, Err d). Qed.
Lemma frame_only_fail {A} c : frame_only (fail (A := A) c).
Proof. apply frame_only_fail_with. Qed.
Lemma frame_only_lift {A} (r : result A) : frame_only (lift r).
Proof. destruct r; [apply frame_only_ret|apply frame_only_fail_with]. Qed.
Lemma frame_only_get {A} (f : Frame → A) : frame_only (frame_get f).
Proof. exists (λ fr, Ok (f fr, fr)). by intros []. Qed.
Lemma frame_only_set f : frame_only (frame_set f).
Proof. exists (λ fr, Ok (tt, f fr)). by intros []. Qed.
Lemma frame_only_pop : frame_only pop.
Proof.
  exists (λ f, match fr_stack f with
               | v :: vs => Ok (v, set_stack vs f)
               | [] => Err (diagnostic stack_underflow) end).
  intros [f m]. unfold pop; cbn. by destruct (fr_stack f).
Qed.
Lemma frame_only_pop_args n : frame_only (pop_args n).
Proof.
  exists (λ f, if (length (fr_stack f) <? n)%nat then Err (diagnostic stack_underflow)
               else Ok (reverse (take n (fr_stack f)), set_stack (drop n (fr_stack f)) f)).
  intros [f m]. unfold pop_args; cbn [st_frame st_machine]. by destruct (_ <? _)%nat.
Qed.
Lemma frame_only_read_u8 : frame_only read_u8.
Proof.
  exists (λ f, match code_of f !! fr_ip f with
               | Some b => Ok (N.to_nat (b2n b), set_ip (fr_ip f + 1) f)
               | None => Err (diagnostic truncated_instruction) end).
  intros [f m]. unfold read_u8; cbn. by destruct (_ !! _).
Qed.
Lemma frame_only_read_u16 : frame_only read_u16.
Proof.
  exists (λ f, if (length (code_of f) <? fr_ip f + 2)%nat
               then Err (diagnostic truncated_instruction)
               else Ok (read_code_u16 (code_of f) (fr_ip f), set_ip (fr_ip f + 2) f)).
  intros [f m]. unfold read_u16; cbn [st_frame st_machine]. by destruct (_ <? _)%nat.
Qed.
Lemma frame_only_invalid_index {A} k n : frame_only (invalid_index_error (A := A) k n).
Proof. by eexists (λ f, Err _). Qed.
Lemma frame_only_return : frame_only op_return.
Proof.
  exists (λ f, match fr_stack f with
               | v :: vs => Ok (Stepped (Return v), set_stack vs f)
               | [] => Ok (Stepped (Return RNil), f) end).
  intros [f m]. unfold op_return; cbn. by destruct (fr_stack f).
Qed.

Ltac unfold_ops :=
  unfold op_constant, op_get_var, op_def_var, op_set_var, op_push_scope, op_pop_scope,
    op_get_local_slot, op_store_local_slot, op_concat_assign_local, op_get_argc, op_pop, op_dup,
    op_swap, op_binary, binary, op_negate, op_not, compare_equality, compare, op_jump, op_jump_if,
    op_closure, op_call, op_call_builtin, op_call_builtin_spread, skip_builtin_id, op_build_list,
    op_build_dict, op_get_property, op_subscript, op_set_property, op_set_subscript,
    update_binding, op_set_local_slot_property, op_set_local_slot_subscript, op_slice,
    op_method_call, op_concat, op_contains, op_iter_init, op_iter_next, op_pop_iterator,
    op_try_catch, op_pop_handler, op_throw, op_rethrow, op_build_enum, op_match_enum,
    op_try_wrap_ok, op_try_unwrap, op_assert_binding_type, op_import, op_selective_import,
    op_namespace_import, op_namespace_import_members, update_slot, mutable_slot, local_value,
    set_local, local_slot, read_constant_string, charged_push, push_done, charge_value, done,
    stepped, push, skip_builtin_id.

Section frame.
Context `{FloatLib, Platform} (session : Session).
Context (P : ∀ A, MachineR A → Prop) (Q : ∀ A, FrameR A → Prop) `{!FrameClosed P Q}.

Ltac frame_step :=
  first
    [ apply (closed_frame_only (Q := Q));
      first [ apply frame_only_ret | apply frame_only_fail | apply frame_only_lift
            | apply frame_only_get | apply frame_only_set | apply frame_only_pop
            | apply frame_only_pop_args | apply frame_only_read_u8 | apply frame_only_read_u16
            | apply frame_only_invalid_index | apply frame_only_return ]
    | apply (closed_on_machine (Q := Q))
    | closed_known P
    | closed_step P
    | apply (closed_frame_bind (Q := Q)); [|intros]
    | match goal with
      | |- Q _ (if ?b then _ else _) => destruct b
      | |- Q _ (match ?x with _ => _ end) => destruct x
      end ].

(** Every instruction, whatever its operands and operators do. *)
Lemma closed_execute_op op : Q _ (execute_op session op).
Proof. destruct op; cbn [execute_op]; unfold_ops; repeat frame_step. Qed.
End frame.

(** ** Operations of the loop and the loader *)

Section run.
Context `{FloatLib, Platform, SnapshotSerde} (session : Session).
Context (P : ∀ A, MachineR A → Prop) `{!Closed P}.
#[local] Arguments P {A}.
Ltac walk := closed_walk_at (@P).

Lemma closed_dispatch step frames : P (dispatch step frames).
Proof. unfold dispatch, call_frame, throw. walk. Qed.

Lemma closed_bind_names inst env names : P (bind_names inst env names).
Proof. induction names; cbn [bind_names]; unfold bind_name; walk. Qed.

Lemma closed_bind_projection inst selected ns env :
  P (bind_module_projection inst selected ns env).
Proof. unfold bind_module_projection, bind_namespace. walk; apply closed_bind_names. Qed.

Lemma closed_entry_frame bootstrap input : P (entry_frame session bootstrap input).
Proof. unfold entry_frame, call_frame. walk. Qed.

Lemma closed_complete value : P (complete value).
Proof. unfold complete. walk. Qed.
End run.

(** ** What operations keep *)

(** Whenever [op] succeeds, [R] relates the state before to the state after. *)
Definition keeps {S} (R : S → S → Prop) {A} (op : StateR S A) : Prop :=
  ∀ s a t, op s = Ok (a, t) → R s t.

(** A preorder that only charging has to respect. *)
Class MachineKeeps (R : Machine → Machine → Prop) := {
  mk_preorder :: PreOrder R;
  mk_charge n : keeps R (charge n);
  mk_quiet m m' : quiet_step m m' → R m m'
}.

Lemma keeps_bind {S} (R : S → S → Prop) `{!Transitive R} {A B} (op : StateR S A) (f : A → StateR S B) :
  keeps R op → (∀ a, keeps R (f a)) → keeps R (op ≫= f).
Proof.
  intros Hop Hf s b u H. unfold mbind, state_bind in H.
  destruct (op s) as [[a t]|d] eqn:E; [|done]. transitivity t; [by eapply Hop|by eapply Hf].
Qed.

Lemma keeps_get {S} (R : S → S → Prop) {A} (f : S → StateR S A) :
  (∀ s, keeps R (f s)) → keeps R (get ≫= f).
Proof. intros Hf s a t H. by eapply (Hf s). Qed.

(** The effect of an instruction on the machine alone. *)
Definition on_st_machine (R : Machine → Machine → Prop) (s t : State) : Prop :=
  R (st_machine s) (st_machine t).

#[export] Instance keeps_closed R `{!MachineKeeps R} : Closed (@keeps _ R).
Proof.
  split.
  - intros A op [Hop _] m a m' H. by eapply mk_quiet, Hop.
  - apply mk_charge.
  - intros A B op f. apply keeps_bind. apply _.
  - intros A f _. apply keeps_get.
Qed.

#[export] Instance keeps_frame_closed R `{!MachineKeeps R} :
  FrameClosed (@keeps _ R) (@keeps _ (on_st_machine R)).
Proof.
  split.
  - apply _.
  - intros A op Hop s a t H. unfold on_machine in H.
    destruct (op (st_machine s)) as [[b m]|] eqn:E; [|done]. injection H as <- <-. by eapply Hop.
  - intros A op [g Hg] s a t H. rewrite Hg in H. destruct (g (st_frame s)) as [[b f]|]; [|done].
    injection H as <- <-. unfold on_st_machine; cbn. reflexivity.
  - intros A B op f. apply keeps_bind. intros s t u. unfold on_st_machine. by etrans.
Qed.
