(* ===== verification/Sound.v ===== *)
(** * A program logic for sound states

    Verified code keeps the machine sound: every closure a value holds has
    checked code and an environment that exists, whatever list, record, scope,
    iterator or module it is stored in. [yields] is the Hoare triple of the
    operations that create no environment; its error clause rules out the
    faults the verifier is there to prevent. *)

From Stdlib Require Import Strings.String.
From S2P Require Import Prelude BTree Opcode Program Verifier Linker Artifact Float64 Semantics.
From S2P Require Import Values Resource Text Arith Ops TypeContract Json Regex Host Env Machine.
From S2P Require Import Methods Builtins Execute.

(** ** The faults verification rules out *)

(** Five of the faults the executor blames on the code it runs: an instruction
    that is cut short or does not decode, an operand out of its table, a closure
    without its environment, an empty call stack. The other three are not here,
    since the verifier follows offsets and not the stack: [stack_underflow],
    [iterator_state] and [instruction_pointer] (see [verifier_leaves]). A local
    slot without a value is reported as an index too, but is the program's. *)
Definition verifier_fault (d : Diagnostic) : bool :=
  match code d with
  | truncated_instruction | invalid_opcode | closure_environment | execution_state => true
  | invalid_index => negb (String.prefix "local index " (default EmptyString (message d)))
  | _ => false
  end.

Definition safe (d : Diagnostic) : Prop := verifier_fault d = false.

(** A result without such faults. *)
Definition safe_result {A} (r : result A) (P : A → Prop) : Prop :=
  match r with Ok a => P a | Err d => safe d end.

Lemma safe_bind {A B} (r : result A) (f : A → result B) P Q :
  safe_result r P → (∀ a, P a → safe_result (f a) Q) → safe_result (r ≫= f) Q.
Proof. destruct r; cbn; auto. Qed.

Lemma safe_weaken {A} (r : result A) (P Q : A → Prop) :
  safe_result r P → (∀ a, P a → Q a) → safe_result r Q.
Proof. destruct r; cbn; auto. Qed.

Lemma safe_reject b c : safe (diagnostic c) → safe_result (reject_if b c) (λ _, True).
Proof. by destruct b. Qed.

Lemma safe_ok_or {A} (o : option A) c : safe (diagnostic c) → safe_result (ok_or o c) (λ a, o = Some a).
Proof. by destruct o. Qed.

Lemma safe_ok_or_true {A} (o : option A) c :
  safe (diagnostic c) → safe_result (ok_or o c) (λ _, True).
Proof. by destruct o. Qed.

Lemma safe_ok {A} (a : A) : safe_result (Ok a) (λ _, True).
Proof. exact I. Qed.

Lemma safe_foldl {A B} (f : B → A → result B) s l :
  (∀ s x, safe_result (f s x) (λ _, True)) → safe_result (result_foldl f s l) (λ _, True).
Proof.
  intros Hf; revert s; induction l as [|x l IH]; intros s; cbn; [done|].
  eapply safe_bind; [apply Hf|]. auto.
Qed.

Lemma safe_map {A B} (f : A → result B) l :
  Forall (λ x, safe_result (f x) (λ _, True)) l → safe_result (result_map f l) (λ _, True).
Proof.
  induction 1 as [|x l Hx Hl IH]; cbn; [done|]. eapply safe_bind; [exact Hx|]. intros y _.
  eapply safe_bind; [exact IH|]. done.
Qed.

Create HintDb safe.

(** Walk a pure function down to its diagnostics. *)
Ltac safe_step :=
  first
    [ match goal with
      | |- safe _ => reflexivity
      | |- safe_result (Err _) _ => reflexivity
      | |- True => exact I
      end
    | solve [eauto 2 with safe]
    | apply safe_reject
    | apply safe_ok_or_true
    | eapply safe_bind; [|intros]
    | match goal with
      | |- safe_result (if ?b then _ else _) _ => destruct b
      | |- safe_result (match ?x with _ => _ end) _ => destruct x
      end
    | apply safe_ok ].
Ltac safe_walk := repeat safe_step.

(** ** Sound values *)

Definition function_ok (f : CompiledFunction) : Prop := tree_all chunk_checked (fn_chunk f).

Section sound.
(** The number of environments. *)
Context (n : nat).

Inductive value_ok : RuntimeValue → Prop :=
  | value_ok_nil : value_ok RNil
  | value_ok_bool b : value_ok (RBool b)
  | value_ok_int z : value_ok (RInt z)
  | value_ok_float f : value_ok (RFloat f)
  | value_ok_string s : value_ok (RString s)
  | value_ok_bytes bs : value_ok (RBytes bs)
  | value_ok_list vs : Forall value_ok vs → value_ok (RList vs)
  | value_ok_record es : Forall (λ e, value_ok e.2) es → value_ok (RRecord es)
  | value_ok_enum name variant vs : Forall value_ok vs → value_ok (REnum name variant vs)
  | value_ok_closure f env : function_ok f → env < n → value_ok (RClosure f env)
  | value_ok_builtin name : value_ok (RBuiltin name)
  | value_ok_harness name : value_ok (RHarness name)
  | value_ok_exception v d : value_ok v → value_ok (RException v d).

Definition entries_ok (es : btree RuntimeValue) : Prop := Forall (λ e, value_ok e.2) es.
Definition slot_ok (l : option RuntimeValue) : Prop := ∀ v, l = Some v → value_ok v.

Lemma value_ok_entries es : entries_ok es → value_ok (RRecord es).
Proof. by constructor. Qed.
Lemma value_ok_list_inv vs : value_ok (RList vs) → Forall value_ok vs.
Proof. by inversion 1. Qed.
Lemma value_ok_record_inv es : value_ok (RRecord es) → entries_ok es.
Proof. by inversion 1. Qed.
Lemma value_ok_enum_inv name variant vs : value_ok (REnum name variant vs) → Forall value_ok vs.
Proof. by inversion 1. Qed.
Lemma value_ok_closure_inv f env : value_ok (RClosure f env) → function_ok f ∧ env < n.
Proof. by inversion 1. Qed.
Lemma value_ok_exception_inv v d : value_ok (RException v d) → value_ok v.
Proof. by inversion 1. Qed.

(** Data holds no closure. *)
Lemma value_ok_data d : value_ok (runtime_of_data d).
Proof.
  induction d as [| | | | | |ds IH|es IH] using data_value_ind; cbn; constructor.
  - by apply Forall_map.
  - apply Forall_map. exact IH.
Qed.

Lemma value_ok_constant c : value_ok (runtime_of_constant c).
Proof. destruct c; constructor. Qed.

(** *** Entries and lists *)

Lemma entries_ok_nil : entries_ok [].
Proof. constructor. Qed.

Lemma entries_ok_insert k v es : value_ok v → entries_ok es → entries_ok (BTree.insert k v es).
Proof.
  intros Hv. induction 1 as [|[k' v'] es Hv' Hes IH]; cbn; [by repeat constructor|].
  destruct (String.compare k k'); repeat constructor; done.
Qed.

Lemma entries_ok_extend es es' : entries_ok es → entries_ok es' → entries_ok (BTree.extend es es').
Proof. intros H1 H2. by apply (from_entries_Forall value_ok). Qed.

Lemma entries_ok_remove k es : entries_ok es → entries_ok (BTree.remove k es).
Proof.
  induction 1 as [|[k' v'] es Hv' Hes IH]; cbn; [constructor|].
  destruct (String.eqb k k'); [done|]. by constructor.
Qed.

Lemma entries_ok_get k es v : entries_ok es → BTree.get k es = Some v → value_ok v.
Proof.
  intros Hes Hg%btree_get_in. unfold entries_ok in Hes. rewrite Forall_forall in Hes. by apply Hes in Hg.
Qed.

Lemma slot_ok_get k es : entries_ok es → slot_ok (BTree.get k es).
Proof. intros Hes v Hv. by eapply entries_ok_get. Qed.

Lemma slot_ok_lookup (vs : list RuntimeValue) i : Forall value_ok vs → slot_ok (vs !! i).
Proof. intros Hvs v Hv. rewrite Forall_forall in Hvs. apply Hvs. by eapply list_elem_of_lookup_2. Qed.

Lemma slot_ok_default v l : value_ok v → slot_ok l → value_ok (default v l).
Proof. destruct l; auto. Qed.

Lemma entries_ok_values es : entries_ok es → Forall value_ok (BTree.values es).
Proof. intros Hes. by apply Forall_map. Qed.
End sound.

Create HintDb sound discriminated.
#[export] Hint Constants Opaque : sound.
#[export] Hint Resolve value_ok_nil value_ok_bool value_ok_int value_ok_float value_ok_string
  value_ok_bytes value_ok_list value_ok_entries value_ok_enum value_ok_closure value_ok_builtin
  value_ok_harness value_ok_exception : sound.
#[export] Hint Immediate value_ok_list_inv value_ok_record_inv value_ok_enum_inv
  value_ok_exception_inv : sound.
#[export] Hint Resolve entries_ok_nil value_ok_data value_ok_constant entries_ok_insert entries_ok_extend entries_ok_remove
  slot_ok_get slot_ok_lookup slot_ok_default entries_ok_values : sound.
#[export] Hint Resolve Forall_take Forall_drop Forall_insert Forall_app_2 Forall_nil_2
  Forall_cons_2 : sound.

(** More environments keep what is sound. *)
Lemma value_ok_mono n n' v : n ≤ n' → value_ok n v → value_ok n' v.
Proof.
  intros Hn. induction v as [v Hc Hx|vs IH|es IH|m w vs IH|v dc IH] using runtime_value_ind.
  - destruct v; inversion 1; subst; try (constructor; lia || done); cbn in *; subst; try (constructor; constructor).
    + destruct entries; [constructor; constructor|done].
    + by destruct (Hx _ _ eq_refl).
  - intros Hv%value_ok_list_inv. constructor.
    induction IH; [constructor|]. apply Forall_cons in Hv as [??]. constructor; auto.
  - intros Hv%value_ok_record_inv. constructor.
    induction IH; [constructor|]. apply Forall_cons in Hv as [??]. constructor; auto.
  - intros Hv%value_ok_enum_inv. constructor.
    induction IH; [constructor|]. apply Forall_cons in Hv as [??]. constructor; auto.
  - intros Hv%value_ok_exception_inv. constructor. auto.
Qed.

(** ** Pure operations *)

Lemma safe_resource_walk {T} `{ResourceView T} fuel stack nodes bytes :
  safe_result (resource_walk fuel stack nodes bytes) (λ _, True).
Proof.
  revert stack nodes bytes; induction fuel as [|fuel IH]; intros [|[v d] stack] nodes bytes;
    cbn [resource_walk]; unfold check_depth, reserve_children, check_bytes; safe_walk.
Qed.

Lemma safe_validate_runtime_value v : safe_result (validate_runtime_value v) (λ _, True).
Proof. apply safe_resource_walk. Qed.
Lemma safe_validate_data_value d : safe_result (validate_data_value d) (λ _, True).
Proof. eapply safe_bind; [apply safe_resource_walk|]. done. Qed.
Lemma safe_validate_json_value j : safe_result (validate_json_value j) (λ _, True).
Proof. eapply safe_bind; [apply safe_resource_walk|]. done. Qed.
#[export] Hint Resolve safe_validate_runtime_value safe_validate_data_value
  safe_validate_json_value : safe.

Lemma safe_try_from_validated v : safe_result (try_from_validated v) (λ _, True).
Proof.
  induction v as [v Hc Hx|vs IH|es IH|m w vs IH|v dc IH] using runtime_value_ind; cbn [try_from_validated];
    [destruct v; try reflexivity; try exact I|..|reflexivity|reflexivity].
  - by destruct values.
  - by destruct entries.
  - eapply safe_bind; [by apply safe_map|]. done.
  - eapply safe_bind; [apply safe_map|done].
    eapply Forall_impl; [exact IH|]. intros e He. eapply safe_bind; [exact He|]. done.
Qed.

Lemma safe_data_try_from v : safe_result (data_try_from v) (λ _, True).
Proof. eapply safe_bind; [auto with safe|]. intros. apply safe_try_from_validated. Qed.
#[export] Hint Resolve safe_data_try_from : safe.

Lemma safe_decode_tagged es r : decode_tagged es = Some r → safe_result r (λ _, True).
Proof.
  unfold decode_tagged. destruct es as [|[tag v] [|]]; try done.
  repeat case_match; intros [= <-]; safe_walk.
  apply safe_map, Forall_true. intros w. by apply safe_ok_or_true.
Qed.

Lemma safe_from_json j : safe_result (from_json j) (λ _, True).
Proof.
  eapply safe_bind; [auto with safe|]. intros _ _.
  induction j as [| | | | |js IH|es IH] using json_value_ind; cbn [from_json_validated]; try exact I.
  - eapply safe_bind; [by apply safe_map|]. done.
  - destruct (decode_tagged es) eqn:E; [by eapply safe_decode_tagged|].
    eapply safe_bind; [apply safe_map|done].
    eapply Forall_impl; [exact IH|]. intros e He. eapply safe_bind; [exact He|]. done.
Qed.
#[export] Hint Resolve safe_from_json : safe.

Lemma safe_check_arguments f i args : safe_result (check_arguments f i args) (λ _, True).
Proof. revert i; induction args; intros i; cbn [check_arguments]; safe_walk. Qed.

Lemma safe_validate_call f args : safe_result (validate_call f args) (λ _, True).
Proof. unfold validate_call. safe_walk. apply safe_check_arguments. Qed.

Lemma safe_validate_binding v slot : safe_result (validate_binding v slot) (λ _, True).
Proof. by apply safe_reject. Qed.
#[export] Hint Resolve safe_validate_call safe_validate_binding : safe.

Section values.
Context `{FloatLib} (n : nat).
#[local] Abbreviation ok := (value_ok n).

(** Arithmetic makes numbers and strings, or joins what it is given. *)
Definition keeps_ok (f : RuntimeValue → RuntimeValue → result RuntimeValue) : Prop :=
  ∀ a b, ok a → ok b → safe_result (f a b) ok.

Lemma sound_numeric a b ints floats : safe_result (numeric a b ints floats) ok.
Proof. unfold numeric. destruct a, b; try reflexivity; cbn; auto with sound. by destruct (ints _ _); constructor. Qed.

Ltac value_step :=
  first
    [ safe_step
    | apply sound_numeric
    | progress intros
    | match goal with
      | |- safe_result (Ok _) _ => cbn [safe_result]
      end
    | solve [eauto 6 with sound] ].
Ltac value_walk := repeat value_step.

Lemma sound_repeat_text s z : safe_result (repeat_text s z) ok.
Proof. unfold repeat_text. value_walk. Qed.
#[local] Hint Resolve sound_numeric sound_repeat_text : safe.

Lemma sound_add : keeps_ok add.
Proof. intros a b Ha Hb. unfold add. destruct a; try apply sound_numeric; destruct b; try apply sound_numeric; value_walk. Qed.
Lemma sound_sub : keeps_ok sub.
Proof. intros a b _ _. apply sound_numeric. Qed.
Lemma sound_mul : keeps_ok mul.
Proof. intros a b _ _. unfold mul. destruct a; try apply sound_numeric; destruct b; first [apply sound_numeric|apply sound_repeat_text]. Qed.
Lemma sound_div : keeps_ok div.
Proof. intros a b _ _. unfold div. repeat case_match; try apply sound_numeric. done. Qed.
Lemma sound_modulo : keeps_ok modulo.
Proof. intros a b _ _. unfold modulo. destruct (_ && _); [done|apply sound_numeric]. Qed.
Lemma sound_pow : keeps_ok pow.
Proof.
  intros a b _ _. unfold pow. destruct a; try apply sound_numeric; destruct b; try apply sound_numeric.
  - destruct (in_u32 _); [|constructor]. by destruct (checked_pow _ _); constructor.
  - destruct (in_i32 _); [constructor|apply sound_numeric].
Qed.
Lemma sound_negate v : safe_result (negate v) ok.
Proof. destruct v; try reflexivity; [cbn; by destruct (checked_neg _); constructor|constructor]. Qed.

Lemma sound_get_property v name : ok v → slot_ok n (get_property v name).
Proof.
  intros Hv w Hw. destruct v; cbn in Hw; try discriminate Hw; try (by eapply slot_ok_get, Hw; auto with sound);
    repeat case_match; simplify_eq; auto with sound. constructor. by eapply value_ok_enum_inv.
Qed.

Lemma sound_set_property_value t p v : ok t → ok v → safe_result (set_property_value t p v) ok.
Proof. intros Ht Hv. unfold set_property_value. destruct t; value_walk. Qed.

Lemma sound_set_subscript_value t i v : ok t → ok v → safe_result (set_subscript_value t i v) ok.
Proof. intros Ht Hv. unfold set_subscript_value. destruct t; value_walk. Qed.

Lemma safe_slice_bounds l a b : safe_result (slice_bounds l a b) (λ _, True).
Proof. unfold slice_bounds, slice_bound. safe_walk. Qed.

Lemma sound_slice v a b : ok v → safe_result (slice v a b) ok.
Proof.
  intros Hv. destruct v; try reflexivity; (eapply safe_bind; [apply safe_slice_bounds|]);
    intros bounds _; cbn [safe_result]; unfold range; auto 6 with sound.
Qed.
End values.
#[export] Hint Resolve sound_negate sound_get_property sound_set_property_value
  sound_set_subscript_value sound_slice : safe.

(** ** Sound machines *)

Definition env_sound (n : nat) (e : Env) : Prop :=
  (∀ p, env_parent e = Some p → p < n) ∧ entries_ok n (env_values e).

Definition iterator_ok (n : nat) (i : IteratorState) : Prop :=
  match i with
  | IterList values _ => Forall (value_ok n) values
  | IterRecord values _ _ => entries_ok n values
  end.

(** [n] counts the environments; everything the machine holds is sound. *)
Record machine_ok (n : nat) (m : Machine) : Prop := {
  ok_size : length (environments m) = n;
  ok_store : Forall (env_sound n) (environments m);
  ok_iterators : Forall (iterator_ok n) (iterators m);
  ok_modules : Forall (λ e, inst_env e.2 < n) (modules m)
}.

Definition exception_ok (n : nat) (e : RuntimeException) : Prop := value_ok n (exn_value e).

Definition step_ok (n : nat) (s : OpStep) : Prop :=
  match s with
  | Continue | Suspend _ => True
  | Push v | Return v => value_ok n v
  | Call f env args _ => function_ok f ∧ env < n ∧ Forall (value_ok n) args
  | Throw e => exception_ok n e
  | RuntimeError d => safe d
  end.

Section triples.
Context (n : nat).

(** From a sound machine the operation ends in a sound machine with the same
    environments and a value satisfying [P], or in no internal fault. *)
Definition yields {A} (op : MachineR A) (P : A → Prop) : Prop :=
  ∀ m, machine_ok n m → safe_result (op m) (λ r, machine_ok n r.2 ∧ P r.1).

Lemma yields_ret {A} (a : A) (P : A → Prop) : P a → yields (mret a) P.
Proof. by intros Ha m Hm. Qed.

Lemma yields_bind {A B} (op : MachineR A) (f : A → MachineR B) P Q :
  yields op P → (∀ a, P a → yields (f a) Q) → yields (op ≫= f) Q.
Proof.
  intros Hop Hf m Hm. specialize (Hop m Hm). unfold mbind, state_bind.
  destruct (op m) as [[a m']|d]; [|done]. destruct Hop as [Hm' Ha]. by apply Hf.
Qed.

Lemma yields_weaken {A} (op : MachineR A) (P Q : A → Prop) :
  yields op P → (∀ a, P a → Q a) → yields op Q.
Proof.
  intros Hop HPQ m Hm. specialize (Hop m Hm). destruct (op m) as [[a m']|d]; [|done].
  destruct Hop as [Hm' Ha]. split; auto.
Qed.

Lemma yields_fail {A} c (P : A → Prop) : safe (diagnostic c) → yields (fail c) P.
Proof. by intros Hc m Hm. Qed.

Lemma yields_lift {A} (r : result A) P : safe_result r P → yields (lift r) P.
Proof. intros Hr m Hm. unfold lift. by destruct r. Qed.

Lemma yields_gets {A} (f : Machine → A) (P : A → Prop) :
  (∀ m, machine_ok n m → P (f m)) → yields (gets f) P.
Proof. intros Hf m Hm. split; [done|]. by apply Hf. Qed.

Lemma yields_get : yields get (machine_ok n).
Proof. by intros m Hm. Qed.

Lemma yields_modify f : (∀ m, machine_ok n m → machine_ok n (f m)) → yields (modify f) (λ _, True).
Proof. intros Hf m Hm. split; [|done]. by apply Hf. Qed.
End triples.

Create HintDb yields.

(** One layer of an operation: a bind, a branch, a failure, or something known. *)
Ltac yields_step :=
  first
    [ solve [eauto 3 with yields]
    | apply yields_fail; reflexivity
    | apply yields_ret; solve [cbn [step_ok exception_ok exn_value]; eauto 6 with sound]
    | eapply yields_bind; [|intros]
    | apply yields_lift; solve [eauto 3 with safe | safe_walk]
    | match goal with
      | |- yields _ (if ?b then _ else _) _ => destruct b
      | |- yields _ (match ?x with _ => _ end) _ => destruct x
      end ].
Ltac yields_walk := repeat yields_step.

Section machine.
Context `{FloatLib} (n : nat).
#[local] Abbreviation anything := (λ _, True).

Lemma yields_charge k : yields n (charge k) anything.
Proof. intros m Hm. unfold charge. destruct (_ <? _)%N; [done|]. by destruct Hm. Qed.
#[local] Hint Resolve yields_charge : yields.

Lemma yields_charge_value_work v : yields n (charge_value_work v) anything.
Proof. unfold charge_value_work. yields_walk. Qed.

Lemma safe_total_nodes vs : safe_result (total_nodes vs) (λ _, True).
Proof. apply safe_foldl. intros. safe_walk. Qed.
#[local] Hint Resolve safe_total_nodes : safe.

Lemma yields_charge_call_validation vs : yields n (charge_call_validation vs) anything.
Proof. unfold charge_call_validation. yields_walk. Qed.
Lemma yields_charge_values_work vs : yields n (charge_values_work vs) anything.
Proof. unfold charge_values_work. yields_walk. Qed.
#[local] Hint Resolve yields_charge_value_work yields_charge_call_validation
  yields_charge_values_work : yields.

Lemma yields_render_value v : yields n (render_value v) anything.
Proof. unfold render_value. yields_walk. Qed.
Lemma yields_values_equal a b : yields n (values_equal a b) anything.
Proof. unfold values_equal. yields_walk. Qed.
Lemma yields_push_value v : value_ok n v → yields n (push_value v) (step_ok n).
Proof. unfold push_value. intros Hv. by apply yields_ret. Qed.
Lemma yields_push_charged v : value_ok n v → yields n (push_charged v) (step_ok n).
Proof. intros Hv. unfold push_charged. yields_walk. Qed.
#[local] Hint Resolve yields_render_value yields_values_equal yields_push_value yields_push_charged
  : yields.

(** *** Environments *)

Lemma store_define_ok env name v s :
  value_ok n v → Forall (env_sound n) s → Forall (env_sound n) (env_define env name v s).
Proof.
  intros Hv Hs. unfold env_define. apply Forall_alter; [done|]. intros e _ [Hp He].
  split; [done|]. by apply entries_ok_insert.
Qed.

Lemma env_define_length env name v s : length (env_define env name v s) = length s.
Proof. apply length_alter. Qed.

Lemma machine_ok_define env name v m :
  value_ok n v → machine_ok n m →
  machine_ok n (set_environments (env_define env name v (environments m)) m).
Proof.
  intros Hv [Hsize Hstore Hit Hmod]. split; cbn; [by rewrite env_define_length|by apply store_define_ok|done|done].
Qed.

Lemma yields_define env name v : value_ok n v → yields n (define env name v) anything.
Proof. intros Hv. apply yields_modify. intros m. by apply machine_ok_define. Qed.

Lemma yields_assign env name v : value_ok n v → yields n (assign env name v) anything.
Proof.
  intros Hv. apply yields_modify. intros m Hm. unfold env_set.
  destruct (env_owner _ _ _ _); [by apply machine_ok_define|by destruct Hm].
Qed.

Lemma env_get_ok env name s : Forall (env_sound n) s → slot_ok n (env_get env name s).
Proof.
  intros Hs. unfold env_get. generalize (S env) as fuel; intros fuel; revert env.
  induction fuel as [|fuel IH]; intros env; [done|]. cbn.
  destruct (s !! env) as [e|] eqn:He; cbn; [|done].
  assert (env_sound n e) as [_ Hes] by (rewrite Forall_forall in Hs; apply Hs; by eapply list_elem_of_lookup_2).
  destruct (BTree.get name (env_values e)) as [v|] eqn:Hg.
  - intros w [= <-]. by eapply entries_ok_get.
  - destruct (env_parent e); cbn; [apply IH|done].
Qed.

Lemma yields_lookup_name env name : yields n (lookup_name env name) (slot_ok n).
Proof. apply yields_gets. intros m Hm. apply env_get_ok. by destruct Hm. Qed.
#[local] Hint Resolve yields_define yields_assign yields_lookup_name : yields.

(** *** Methods *)

Lemma yields_list_contains vs v : yields n (list_contains vs v) anything.
Proof. induction vs; cbn [list_contains]; yields_walk; by apply yields_ret. Qed.
#[local] Hint Resolve yields_list_contains : yields.

Lemma record_entry_ok k v : value_ok n v → value_ok n (record_entry (k, v)).
Proof.
  intros Hv. unfold record_entry, BTree.from_entries. apply value_ok_entries, entries_ok_extend;
    [constructor|]. repeat constructor. done.
Qed.
#[local] Hint Resolve record_entry_ok : sound.

Lemma strings_ok ss : value_ok n (RList (map RString ss)).
Proof. constructor. apply Forall_map, Forall_true. constructor. Qed.
#[local] Hint Resolve strings_ok : sound.

Lemma record_entries_ok es : entries_ok n es → Forall (value_ok n) (record_entries es).
Proof.
  intros Hes. apply Forall_map. eapply Forall_impl; [exact Hes|]. intros [k v] Hv.
  by apply record_entry_ok.
Qed.
#[local] Hint Resolve record_entries_ok : sound.

Lemma yields_list_method vs method args : yields n (list_method vs method args) (step_ok n).
Proof. unfold list_method. yields_walk. Qed.

Lemma yields_string_method s method args : yields n (string_method s method args) (step_ok n).
Proof. unfold string_method. yields_walk. Qed.

Lemma yields_record_get es k v :
  entries_ok n es → value_ok n v → yields n (record_get es k v) (step_ok n).
Proof. intros Hes Hv. unfold record_get. yields_walk. Qed.

Lemma yields_record_method es method args :
  entries_ok n es → Forall (value_ok n) args → yields n (record_method es method args) (step_ok n).
Proof.
  intros Hes Hargs. unfold record_method. destruct Hargs as [|a args Ha Hargs]; [yields_walk|].
  destruct Hargs as [|b args Hb Hargs]; [|destruct Hargs; yields_walk; by apply yields_record_get].
  yields_walk.
Qed.

Lemma outcome_ok a b : value_ok n a → value_ok n b → value_ok n (outcome a b).
Proof. intros Ha Hb. unfold outcome. auto with sound. Qed.

Lemma sort_by_ok vs : Forall (value_ok n) vs → Forall (value_ok n) (sort_by vs).
Proof.
  assert (∀ x l, value_ok n x → Forall (value_ok n) l → Forall (value_ok n) (sort_insert x l)) as Hins.
  { intros x l Hx. induction 1 as [|y l Hy Hl IH]; cbn [sort_insert]; [auto with sound|].
    destruct (sort_compare x y); auto with sound. }
  induction vs as [|v vs IH]; [done|]. intros [Hv Hvs]%Forall_cons. apply Hins; auto.
Qed.

Lemma reverse_ok vs : Forall (value_ok n) vs → Forall (value_ok n) (reverse vs).
Proof. apply Forall_reverse. Qed.

Lemma last_ok vs : Forall (value_ok n) vs → slot_ok n (last vs).
Proof. intros Hvs v Hv. apply last_Some_elem_of in Hv. rewrite Forall_forall in Hvs. auto. Qed.

Lemma head_ok vs : Forall (value_ok n) vs → slot_ok n (head vs).
Proof. intros Hvs v Hv. destruct Hvs; [done|]. by injection Hv as <-. Qed.
#[local] Hint Resolve outcome_ok sort_by_ok reverse_ok last_ok : sound.

Lemma list_mutation_ok vs method args :
  Forall (value_ok n) vs → Forall (value_ok n) args → value_ok n (list_mutation vs method args).
Proof.
  intros Hvs Hargs. unfold list_mutation.
  destruct Hargs as [|a args Ha Hargs]; [|destruct Hargs as [|b args Hb Hargs]];
    repeat case_match; subst; auto 7 with sound.
Qed.
#[local] Hint Resolve list_mutation_ok : sound.

Lemma yields_method_mutate v method args :
  value_ok n v → Forall (value_ok n) args → yields n (method_mutate v method args) (step_ok n).
Proof.
  intros Hv Hargs. unfold method_mutate. destruct v; yields_walk.
Qed.

Lemma yields_value_method v method args :
  value_ok n v → Forall (value_ok n) args → yields n (value_method v method args) (step_ok n).
Proof.
  intros Hv Hargs. unfold value_method. destruct v; yields_walk.
  - apply yields_string_method.
  - apply yields_list_method.
  - apply yields_record_method; [by apply value_ok_record_inv|done].
Qed.

Lemma yields_subscript v i : value_ok n v → yields n (subscript v i) (slot_ok n).
Proof.
  intros Hv. unfold subscript. destruct v; try (apply yields_ret; by intros ? [=]).
  - destruct i; apply yields_ret; intros w Hw; try done.
    destruct (normalized_index _ _); cbn in Hw; [|done]. destruct (_ !! _); cbn in Hw; [|done].
    injection Hw as <-. constructor.
  - destruct i; apply yields_ret; intros w Hw; try done.
    destruct (normalized_index _ _); cbn in Hw; [|done]. eapply slot_ok_lookup, Hw. auto with sound.
  - destruct i; (eapply yields_bind; [apply yields_render_value|]); intros; apply yields_ret;
      auto with sound.
Qed.

Lemma yields_contains v i : yields n (contains v i) anything.
Proof. unfold contains. yields_walk. Qed.
End machine.

#[export] Hint Resolve yields_charge yields_charge_value_work yields_charge_call_validation
  yields_charge_values_work yields_render_value yields_values_equal yields_push_value
  yields_push_charged yields_define yields_assign yields_lookup_name yields_list_contains
  yields_subscript yields_contains : yields.
#[export] Hint Resolve strings_ok record_entry_ok record_entries_ok outcome_ok reverse_ok last_ok
  head_ok : sound.

Section host.
Context `{FloatLib, Platform} (session : Session) (n : nat).

(** *** Capabilities *)

Lemma yields_set_request f g : yields n (modify (λ m, set_request (f m) (g m) m)) (λ _, True).
Proof. apply yields_modify. by intros m []. Qed.

Lemma safe_check_capability_arguments s index values :
  safe_result (check_capability_arguments s index values) (λ _, True).
Proof.
  revert index; induction values as [|value values IH]; intros index; cbn; [done|].
  eapply safe_bind; [by apply safe_ok_or_true|]. intros p _. eapply safe_bind; [by apply safe_reject|]. auto.
Qed.
#[local] Hint Resolve safe_check_capability_arguments : safe.

Lemma safe_capability_arguments capability method args :
  safe_result (capability_arguments session capability method args) (λ _, True).
Proof.
  unfold capability_arguments. safe_walk. apply safe_map, Forall_true. auto with safe.
Qed.

Lemma yields_capability_response contract r :
  yields n (capability_response contract r) (step_ok n).
Proof.
  unfold capability_response. destruct r; yields_walk. apply yields_ret. cbn.
  repeat constructor.
Qed.

Lemma yields_call_capability capability method args :
  yields n (call_capability session capability method args) (step_ok n).
Proof.
  unfold call_capability. eapply yields_bind; [apply yields_lift, safe_capability_arguments|].
  intros [contract arguments] _. eapply yields_bind; [apply yields_get|]. intros m Hm.
  eapply yields_bind; [by apply yields_modify; intros ? []|]. intros _ _.
  destruct (responses session !! _) as [r|]; [|yields_walk].
  destruct (negb _); [by apply yields_fail|].
  eapply yields_bind; [by apply yields_modify; intros ? []|]. intros _ _.
  apply yields_capability_response.
Qed.

(** *** Builtins *)

Lemma pick_fields_ok keys lookup :
  (∀ k, slot_ok n (lookup k)) → entries_ok n (pick_fields keys lookup).
Proof.
  intros Hl. unfold pick_fields. assert (entries_ok n []) as Hnil by constructor. revert Hnil.
  generalize (@nil (string * RuntimeValue)).
  induction keys as [|k keys IH]; intros es Hes; cbn [fold_left]; [done|]. apply IH. unfold pick_step.
  destruct (BTree.contains_key k es); [done|]. specialize (Hl k).
  destruct (lookup k) as [v|]; [|done]. apply entries_ok_insert; auto.
Qed.

Lemma pick_lookup_ok v k : value_ok n v → slot_ok n (pick_lookup v k).
Proof.
  intros Hv. unfold pick_lookup. destruct v; try by apply sound_get_property.
  destruct (capability_field k); [by apply sound_get_property|done].
Qed.

Lemma dict_filter_nil_ok es b : entries_ok n es → entries_ok n (dict_filter_nil es b).
Proof.
  unfold entries_ok, dict_filter_nil. rewrite !Forall_forall. intros Hes e He.
  apply list_elem_of_filter in He as [_ He]. auto.
Qed.

Lemma regex_capture_value_ok c : value_ok n (regex_capture_value c).
Proof.
  unfold regex_capture_value. apply value_ok_entries, entries_ok_extend.
  - apply entries_ok_extend; [constructor|]. repeat constructor; cbn.
    apply Forall_map, Forall_true. intros []; constructor.
  - apply Forall_map, Forall_true. constructor.
Qed.

Lemma regex_captures_ok cs : value_ok n (RList (map regex_capture_value cs)).
Proof. apply value_ok_list, Forall_map, Forall_true, regex_capture_value_ok. Qed.
#[local] Hint Resolve pick_fields_ok pick_lookup_ok dict_filter_nil_ok regex_captures_ok : sound.

Lemma yields_render_all vs : yields n (render_all vs) (λ _, True).
Proof. induction vs; cbn [render_all]; yields_walk. Qed.

Lemma yields_runtime_error c s : safe (diagnostic_text c s) → yields n (runtime_error c s) (step_ok n).
Proof. intros Hc. unfold runtime_error. by apply yields_ret. Qed.

Lemma yields_push_json j : yields n (push_json j) (step_ok n).
Proof. unfold push_json. yields_walk. Qed.
#[local] Hint Resolve yields_render_all yields_push_json : yields.
#[local] Hint Extern 2 (yields _ (runtime_error _ _) _) => apply yields_runtime_error; reflexivity : yields.

Ltac builtin_walk :=
  unfold pick_builtin, render_to_string, regex_match_builtin, regex_replace_builtin,
    regex_captures_builtin, regex_split_builtin, secret_scan_builtin, push_strings,
    regex_result; yields_walk.

Lemma yields_builtin_arm b args op :
  Forall (value_ok n) args → builtin_arm b args = Some op → yields n op (step_ok n).
Proof.
  intros Hargs Hop. destruct b; unfold builtin_arm in Hop;
    repeat (match type of Hop with context [match ?x with _ => _ end] =>
      is_var x; destruct x end; try discriminate Hop);
    injection Hop as <-;
    repeat match goal with H : Forall _ (_ :: _) |- _ => apply Forall_cons in H as [? ?] end.
  all: builtin_walk.
  - apply Forall_cons in Hargs as [Hr _]. apply yields_ret, value_ok_entries, pick_fields_ok.
    intros k. by apply pick_lookup_ok.
  - by apply yields_method_mutate.
Qed.

Lemma yields_call_builtin name args :
  Forall (value_ok n) args → yields n (call_builtin name args) (step_ok n).
Proof.
  intros Hargs. unfold call_builtin. eapply yields_bind; [eauto with yields|]. intros _ _.
  destruct (PortableBuiltin.from_name name) as [b|]; [|by apply yields_fail].
  destruct (builtin_arm b args) eqn:E; [|by apply yields_fail]. by eapply yields_builtin_arm.
Qed.

Lemma yields_call_method v method args :
  value_ok n v → Forall (value_ok n) args →
  yields n (call_method session call_builtin v method args) (step_ok n).
Proof.
  intros Hv Hargs. unfold call_method. eapply yields_bind; [eauto with yields|]. intros _ _.
  assert (slot_ok n (record_member v method)) as Hmember.
  { destruct v; try done. by apply slot_ok_get, value_ok_record_inv. }
  destruct (record_member v method) as [w|].
  - specialize (Hmember w eq_refl). destruct v; try apply yields_call_capability;
      (destruct w; try by apply yields_fail); try by apply yields_call_builtin.
    all: apply value_ok_closure_inv in Hmember as [??]; by apply yields_ret.
  - destruct v; try apply yields_call_capability; by apply yields_value_method.
Qed.

(** *** Frames *)

(** What [execute_op] and the loop find in a frame: checked code at an
    instruction boundary, sound values, environments that exist. *)
Record handler_ok (c : Chunk) (h : Handler) : Prop := {
  ok_target : boundary (chunk_code c) 0 (handler_target h);
  ok_handler_env : handler_env h < n
}.

Record frame_ok (f : Frame) : Prop := {
  ok_chunk : tree_all chunk_checked (fr_chunk f);
  ok_stack : Forall (value_ok n) (fr_stack f);
  ok_locals : Forall (slot_ok n) (fr_locals f);
  ok_env : fr_env f < n;
  ok_handlers : Forall (handler_ok (fr_chunk f)) (fr_handlers f)
}.

Definition at_boundary (f : Frame) : Prop := boundary (chunk_code (fr_chunk f)) 0 (fr_ip f).

(** A frame that runs next, or when its callee returns. *)
Definition frame_ready (f : Frame) : Prop := frame_ok f ∧ at_boundary f.

Lemma handle_throw_ready frames e frames' :
  Forall frame_ready frames → exception_ok n e → handle_throw frames e = Some frames' →
  frames' ≠ [] ∧ Forall frame_ready frames'.
Proof.
  intros Hfs He. induction Hfs as [|f fs [[Hc Hst Hl Henv Hh] Hip] Hfs IH]; cbn; [done|].
  destruct (fr_handlers f) as [|h hs] eqn:E; [done|]. intros [= <-]. split; [done|].
  apply Forall_cons in Hh as [[Ht Hhe] Hh]. constructor; [|done]. split; [split; cbn|]; try done.
  constructor; [destruct (handler_preserve h); [by constructor|done]|by apply Forall_drop].
Qed.

Lemma yields_catch_builtin_error frames d :
  Forall frame_ready frames → safe d →
  yields n (catch_builtin_error frames d) (λ frames, frames ≠ [] ∧ Forall frame_ready frames).
Proof.
  intros Hfs Hd. unfold catch_builtin_error. eapply yields_bind; [eauto with yields|]. intros _ _.
  destruct (handle_throw _ _) as [frames'|] eqn:E; [|by intros m Hm].
  apply yields_ret. eapply handle_throw_ready; [done| |done]. constructor.
Qed.

Lemma frame_new_ready c env args :
  tree_all chunk_checked c → env < n → Forall (value_ok n) args → frame_ready (frame_new c env args).
Proof.
  intros Hc Henv Hargs. split; [split; cbn; try done|constructor].
  apply Forall_app. split.
  - apply Forall_map. eapply Forall_impl; [by apply Forall_take|]. by intros v Hv w [= <-].
  - apply Forall_replicate. done.
Qed.

Lemma bound_arguments_ok f args :
  Forall (value_ok n) args → Forall (value_ok n) (bound_arguments f args).
Proof. intros Hargs. unfold bound_arguments. destruct (_ && _); auto 6 with sound. Qed.

Lemma define_parameters_ok env ps ls m :
  Forall (slot_ok n) ls → machine_ok n m → machine_ok n (define_parameters env ps ls m).
Proof.
  revert ls m; induction ps as [|p ps IH]; intros ls m Hls Hm; cbn; [done|].
  destruct Hls as [|l ls Hl Hls]; [done|]. apply IH; [done|]. destruct l as [v|]; [|done].
  apply machine_ok_define; [by apply Hl|done].
Qed.

Lemma yields_function_frame f env args :
  function_ok f → env < n → Forall (value_ok n) args →
  yields n (function_frame f env args) frame_ready.
Proof.
  intros Hf Henv Hargs. unfold function_frame. eapply (yields_bind _ _ _ frame_ready).
  - intros m Hm. unfold frame_for_function. cbn [safe_result fst snd].
    destruct (frame_new_ready (fn_chunk f) env (bound_arguments f args) Hf Henv) as [[] Hip];
      [by apply bound_arguments_ok|].
    split; [by apply define_parameters_ok|]. split; [split; done|done].
  - intros frame Hframe. eapply (yields_bind _ _ _ (λ _, True)); [|intros; by apply yields_ret].
    repeat case_match; eauto with yields; by apply yields_ret.
Qed.
End host.
