(* ===== verification/StepSafety.v ===== *)
(** * Instructions of verified code ([execute_op])

    Every instruction of a chunk the verifier accepted keeps the machine sound
    and ends at an instruction boundary. The triple [runs] carries the position
    of the frame; [cursor] what the verifier checked of the operands still to
    be read. *)

From Stdlib Require Import Strings.String.
From S2P Require Import Prelude BTree Opcode Program Verifier Linker Reader Artifact Float64.
From S2P Require Import Semantics Values Resource Text Arith Ops TypeContract Json Regex Host Env.
From S2P Require Import Snapshot Machine Methods Builtins Execute Run Effects Sound.

(** ** One instruction *)

Lemma prefix_app p s : String.prefix p (p ++ s) = true.
Proof.
  induction p as [|a p IH]; [by destruct s|].
  change ((if Ascii.ascii_dec a a then String.prefix p (p ++ s) else false) = true).
  by destruct (Ascii.ascii_dec a a).
Qed.

(** A slot without a value is the program's error. *)
Lemma safe_local_index slot : safe (diagnostic_text invalid_index (invalid_index_message "local" slot)).
Proof.
  change (negb (String.prefix "local index "
    ("local index " ++ usize_to_string (N.of_nat slot) ++ " is out of bounds")) = false).
  by rewrite prefix_app.
Qed.

Definition request_ok (n : nat) (r : OpRequest) : Prop :=
  match r with
  | Stepped s => step_ok n s
  | CallValue v args _ => value_ok n v ∧ Forall (value_ok n) args
  | ImportModule _ => True
  end.

Section instruction.
Context `{FloatLib, Platform} (session : Session) (n : nat).
(** The active chunk, and where the instruction ends. *)
Context (c : Chunk) (end_ : nat).

Record state_ok (s : State) : Prop := {
  ok_frame : frame_ok n (st_frame s);
  ok_active : fr_chunk (st_frame s) = c;
  ok_machine : machine_ok n (st_machine s)
}.

Lemma state_ok_frame f m :
  frame_ok n f → fr_chunk f = c → machine_ok n m → state_ok (mkState f m).
Proof. by split. Qed.

Lemma frame_ok_set_ip ip f : frame_ok n f → frame_ok n (set_ip ip f).
Proof. intros []. by split. Qed.

Lemma frame_ok_set_stack vs f : frame_ok n f → Forall (value_ok n) vs → frame_ok n (set_stack vs f).
Proof. intros [] Hvs. by split. Qed.

(** The triple of an operation that starts with the frame at [pos]. *)
Definition runs {A} (pos : nat) (op : FrameR A) (Q : nat → A → Prop) : Prop :=
  ∀ s, state_ok s → fr_ip (st_frame s) = pos →
    safe_result (op s) (λ r, state_ok r.2 ∧ Q (fr_ip (st_frame r.2)) r.1).

(** Whatever leaves the frame where it is. *)
Definition stays {A} (pos : nat) (P : A → Prop) : nat → A → Prop := λ p a, p = pos ∧ P a.

Lemma runs_ret {A} pos (a : A) (Q : nat → A → Prop) : Q pos a → runs pos (mret a) Q.
Proof. by intros Ha s Hs <-. Qed.

Lemma runs_bind {A B} pos (op : FrameR A) (f : A → FrameR B) P Q :
  runs pos op P → (∀ a p, P p a → runs p (f a) Q) → runs pos (op ≫= f) Q.
Proof.
  intros Hop Hf s Hs Hip. specialize (Hop s Hs Hip). unfold mbind, state_bind.
  destruct (op s) as [[a s']|d]; [|done]. destruct Hop as [Hs' Ha]. by eapply Hf.
Qed.

Lemma runs_fail {A} pos code_ (Q : nat → A → Prop) : safe (diagnostic code_) → runs pos (fail code_) Q.
Proof. by intros Hc s. Qed.

Lemma runs_lift {A} pos (r : result A) P : safe_result r P → runs pos (lift r) (stays pos P).
Proof. intros Hr s Hs Hip. unfold lift. destruct r; [|done]. by split. Qed.

Lemma runs_machine {A} pos (op : MachineR A) P :
  yields n op P → runs pos (on_machine op) (stays pos P).
Proof.
  intros Hop s [Hf Ha Hm] Hip. specialize (Hop _ Hm). unfold on_machine.
  destruct (op (st_machine s)) as [[a m]|d]; [|done]. destruct Hop as [Hm' Hp]. by split.
Qed.

Lemma runs_frame_get {A} pos (f : Frame → A) :
  runs pos (frame_get f) (stays pos (λ a, ∃ fr, frame_ok n fr ∧ fr_chunk fr = c ∧ a = f fr)).
Proof. intros s Hs Hip. split; [done|]. split; [done|]. exists (st_frame s). by destruct Hs. Qed.

Lemma runs_frame_set pos pos' g :
  (∀ f, frame_ok n f → fr_chunk f = c → fr_ip f = pos →
     frame_ok n (g f) ∧ fr_chunk (g f) = c ∧ fr_ip (g f) = pos') →
  runs pos (frame_set g) (stays pos' (λ _, True)).
Proof.
  intros Hg s [Hf Ha Hm] Hip. destruct (Hg _ Hf Ha Hip) as (Hf' & Hc' & Hip'). by split.
Qed.

(** *** The stack *)

Lemma runs_push pos v : value_ok n v → runs pos (push v) (stays pos (λ _, True)).
Proof.
  intros Hv. apply runs_frame_set. intros f Hf Hc Hip.
  split; [|done]. apply frame_ok_set_stack; [done|]. constructor; [done|by apply ok_stack].
Qed.

Lemma runs_pop pos : runs pos pop (stays pos (value_ok n)).
Proof.
  intros s [Hf Ha Hm] Hip. unfold pop. pose proof (ok_stack _ _ Hf) as Hst.
  destruct Hst as [|v vs Hv Hvs]; [done|].
  split; [apply state_ok_frame; [by apply frame_ok_set_stack|done|done]|by split].
Qed.

Lemma runs_pop_args pos k : runs pos (pop_args k) (stays pos (Forall (value_ok n))).
Proof.
  intros s [Hf Ha Hm] Hip. unfold pop_args. pose proof (ok_stack _ _ Hf) as Hst.
  destruct (_ <? _)%nat; [done|]. split; [|split; [done|by apply Forall_reverse, Forall_take]].
  apply state_ok_frame; [apply frame_ok_set_stack; [done|by apply Forall_drop]|done|done].
Qed.

(** *** Operands *)

(** The operands [ks] lie between here and the end of the instruction. *)
Record cursor (ks : list OperandKind.OperandKind) (pos : nat) : Prop := {
  cursor_static : operands_static (chunk_code c) (chunk_tables c) ks pos;
  cursor_jumps : Forall (boundary (chunk_code c) 0) (jumps_of (chunk_code c) ks pos);
  cursor_end : pos + sum_list_with OperandKind.width ks = end_;
  cursor_fits : end_ ≤ length (chunk_code c)
}.

(** What the verifier promises of an index. *)
Definition operand_ok (k : OperandKind.OperandKind) (index : nat) : Prop :=
  match k with
  | OperandKind.ConstantU16 => is_Some (chunk_constants c !! index)
  | OperandKind.StringConstantU16 => ∃ name, chunk_constants c !! index = Some (Constant.String name)
  | OperandKind.LocalU16 => is_Some (chunk_local_slots c !! index)
  | OperandKind.BindingTypeU16 => is_Some (chunk_binding_types c !! index)
  | OperandKind.FunctionU16 => is_Some (chunk_functions c !! index)
  | OperandKind.JumpU16 => boundary (chunk_code c) 0 index
  | _ => True
  end.

Lemma cursor_next k ks pos :
  cursor (k :: ks) pos →
  cursor ks (pos + OperandKind.width k) ∧ pos + OperandKind.width k ≤ length (chunk_code c) ∧
  operand_ok k (read_code_u16 (chunk_code c) pos).
Proof.
  intros [[Hk Hs] Hj He Hf]. cbn [sum_list_with] in He. cbn [jumps_of] in Hj.
  apply Forall_app in Hj as [Hjk Hj]. split; [|split].
  - split; [done|done|lia|done].
  - lia.
  - destruct k; cbn in *; try done; try by apply lookup_lt_is_Some_2.
    by apply Forall_cons in Hjk as [? _].
Qed.

Lemma runs_read_u8 ks pos :
  cursor (OperandKind.ImmediateU8 :: ks) pos → runs pos read_u8 (λ p _, cursor ks p).
Proof.
  intros (Hks & Hlt & _)%cursor_next s [Hf Ha Hm] Hip. cbn in Hlt. unfold read_u8, code_of. rewrite Ha, Hip.
  destruct (lookup_lt_is_Some_2 (chunk_code c) pos) as [b ->]; [lia|].
  split; [apply state_ok_frame; [by apply frame_ok_set_ip|done|done]|done].
Qed.

Lemma runs_read_u16 k ks pos :
  OperandKind.width k = 2 → cursor (k :: ks) pos →
  runs pos read_u16 (λ p index, cursor ks p ∧ operand_ok k index).
Proof.
  intros Hw (Hks & Hlt & Hok)%cursor_next s [Hf Ha Hm] Hip. rewrite Hw in *.
  unfold read_u16, code_of. rewrite Ha, Hip.
  destruct (Nat.ltb_spec (length (chunk_code c)) (pos + 2)); [lia|].
  split; [apply state_ok_frame; [by apply frame_ok_set_ip|done|done]|by split].
Qed.

Lemma runs_read_constant_string ks pos :
  cursor (OperandKind.StringConstantU16 :: ks) pos →
  runs pos read_constant_string (λ p _, cursor ks p).
Proof.
  intros Hks. unfold read_constant_string.
  eapply runs_bind; [eapply runs_read_u16; [|exact Hks]; done|]. intros index p [Hp [name Hname]].
  eapply runs_bind; [apply runs_frame_get|]. intros cs q (-> & f & _ & Hf & ->).
  rewrite Hf, Hname. by apply runs_ret.
Qed.

Lemma runs_skip_builtin_id ks pos :
  cursor (OperandKind.BuiltinIdU64 :: ks) pos → runs pos skip_builtin_id (λ p _, cursor ks p).
Proof.
  intros (Hks & _)%cursor_next s [Hf Ha Hm] Hip. cbn in Hks.
  split; [apply state_ok_frame; [by apply frame_ok_set_ip|done|done]|cbn; by rewrite Hip].
Qed.

Lemma cursor_done pos : cursor [] pos → pos = end_.
Proof. intros [_ _ He _]. cbn in He. lia. Qed.

(** *** What instructions do with the frame *)

Lemma runs_weaken {A} pos (op : FrameR A) (P Q : nat → A → Prop) :
  runs pos op P → (∀ p a, P p a → Q p a) → runs pos op Q.
Proof.
  intros Hop HPQ s Hs Hip. specialize (Hop s Hs Hip). destruct (op s) as [[a t]|d]; [|done].
  destruct Hop as [Ht Ha]. split; auto.
Qed.

Lemma runs_env pos : runs pos (frame_get fr_env) (stays pos (λ env, env < n)).
Proof.
  eapply runs_weaken; [apply runs_frame_get|]. intros p a (-> & f & Hf & _ & ->).
  split; [done|by apply ok_env].
Qed.

Lemma runs_locals pos : runs pos (frame_get fr_locals) (stays pos (Forall (slot_ok n))).
Proof.
  eapply runs_weaken; [apply runs_frame_get|]. intros p a (-> & f & Hf & _ & ->).
  split; [done|by apply ok_locals].
Qed.

Lemma runs_stack pos : runs pos (frame_get fr_stack) (stays pos (Forall (value_ok n))).
Proof.
  eapply runs_weaken; [apply runs_frame_get|]. intros p a (-> & f & Hf & _ & ->).
  split; [done|by apply ok_stack].
Qed.

(** Reading the chunk, which does not change. *)
Lemma runs_chunk {A} pos (g : Chunk → A) :
  runs pos (frame_get (λ f, g (fr_chunk f))) (stays pos (λ a, a = g c)).
Proof.
  eapply runs_weaken; [apply runs_frame_get|]. by intros p a (-> & f & _ & <- & ->).
Qed.

Lemma runs_goto pos target : runs pos (frame_set (set_ip target)) (λ p _, p = target).
Proof.
  eapply runs_weaken; [apply (runs_frame_set _ target)|by intros p a [? _]].
  intros f Hf Hc _. split; [by apply frame_ok_set_ip|done].
Qed.

Lemma runs_set_env pos env : env < n → runs pos (frame_set (set_env env)) (stays pos (λ _, True)).
Proof. intros Henv. apply runs_frame_set. intros f [] Hc Hip. split; [by split|done]. Qed.

Lemma runs_set_local pos slot v : value_ok n v → runs pos (set_local slot v) (stays pos (λ _, True)).
Proof.
  intros Hv. apply runs_frame_set. intros f [] Hc Hip. split; [|done].
  split; try done. apply Forall_insert; [done|]. by intros w [= <-].
Qed.

Lemma runs_invalid_local {A} pos slot (Q : nat → A → Prop) :
  runs pos (invalid_index_error "local" slot) Q.
Proof. intros s _ _. apply safe_local_index. Qed.

Lemma runs_local_value pos slot : runs pos (local_value slot) (stays pos (value_ok n)).
Proof.
  unfold local_value. eapply runs_bind; [apply runs_locals|]. intros ls p [-> Hls].
  destruct (ls !! slot) as [[v|]|] eqn:E; [|apply runs_invalid_local..].
  apply runs_ret. split; [done|]. rewrite Forall_forall in Hls.
  by eapply Hls; [eapply list_elem_of_lookup_2|].
Qed.

Lemma runs_local_slot pos slot : runs pos (local_slot slot) (stays pos (λ _, True)).
Proof. eapply runs_weaken; [apply runs_frame_get|]. by intros p a (-> & _). Qed.

Lemma runs_top_truthy pos : runs pos (frame_get top_truthy) (stays pos (λ _, True)).
Proof. eapply runs_weaken; [apply runs_frame_get|]. by intros p a (-> & _). Qed.

Lemma runs_argc pos : runs pos (frame_get fr_argc) (stays pos (λ _, True)).
Proof. eapply runs_weaken; [apply runs_frame_get|]. by intros p a (-> & _). Qed.

Lemma runs_mutable_slot pos slot : runs pos (mutable_slot slot) (stays pos (λ _, True)).
Proof.
  unfold mutable_slot. eapply runs_bind; [apply runs_local_slot|]. intros [l|] p [-> _].
  - destruct (slot_mutable l); [by apply runs_ret|by apply runs_fail].
  - apply runs_invalid_local.
Qed.

(** The end of an instruction: a boundary, and a sound request. *)
Definition ends_well (p : nat) (r : OpRequest) : Prop :=
  boundary (chunk_code c) 0 p ∧ request_ok n r.

Lemma runs_done pos : boundary (chunk_code c) 0 pos → runs pos done ends_well.
Proof. intros Hb. by apply runs_ret. Qed.

Lemma runs_stepped pos s :
  boundary (chunk_code c) 0 pos → step_ok n s → runs pos (stepped s) ends_well.
Proof. intros Hb Hs. by apply runs_ret. Qed.

Lemma runs_push_done pos v :
  boundary (chunk_code c) 0 pos → value_ok n v → runs pos (push_done v) ends_well.
Proof.
  intros Hb Hv. unfold push_done. eapply runs_bind; [by apply runs_push|]. intros _ p [-> _].
  by apply runs_done.
Qed.

Lemma runs_charge_value pos v : runs pos (charge_value v) (stays pos (λ _, True)).
Proof. apply runs_machine. eauto with yields. Qed.

Lemma runs_charged_push pos v :
  boundary (chunk_code c) 0 pos → value_ok n v → runs pos (charged_push v) ends_well.
Proof.
  intros Hb Hv. unfold charged_push. eapply runs_bind; [apply runs_charge_value|]. intros _ p [-> _].
  by apply runs_push_done.
Qed.

(** *** Walking an instruction *)

Lemma yields_build_dict es vs :
  entries_ok n es → Forall (value_ok n) vs → yields n (build_dict es vs) (entries_ok n).
Proof.
  revert es. induction vs as [|v|k v vs IH] using list_pair_ind; intros es Hes Hvs; cbn [build_dict];
    [by apply yields_ret..|].
  apply Forall_cons in Hvs as [_ [Hv Hvs]%Forall_cons].
  eapply yields_bind; [eauto with yields|]. intros key _. apply IH; auto with sound.
Qed.

Lemma yields_concat_rendered s vs : yields n (concat_rendered s vs) (λ _, True).
Proof. revert s; induction vs; intros s; cbn [concat_rendered]; yields_walk. Qed.

Lemma yields_iterators : yields n (gets iterators) (Forall (iterator_ok n)).
Proof. apply yields_gets. by intros m []. Qed.

Lemma yields_set_iterators f :
  (∀ l, Forall (iterator_ok n) l → Forall (iterator_ok n) (f l)) →
  yields n (modify (λ m, set_iterators (f (iterators m)) m)) (λ _, True).
Proof. intros Hf. apply yields_modify. intros m []. split; cbn; auto. Qed.

Lemma iterator_of_ok v : value_ok n v → safe_result (iterator_of v) (iterator_ok n).
Proof.
  intros Hv. destruct v; try reflexivity; [by apply value_ok_list_inv|by apply value_ok_record_inv].
Qed.

Lemma iterator_next_ok i v j :
  iterator_ok n i → iterator_next i = Some (v, j) → value_ok n v ∧ iterator_ok n j.
Proof.
  destruct i as [vs k|es ks k]; cbn; intros Hi Hn.
  - destruct (vs !! k) eqn:E; cbn in Hn; [|done]. injection Hn as <- <-. split; [|done].
    by eapply slot_ok_lookup.
  - destruct (ks !! k) eqn:E; cbn in Hn; [|done]. injection Hn as <- <-. split; [|done].
    apply record_entry_ok. auto with sound.
Qed.

Lemma yields_parent env :
  yields n (gets (λ m, environments m !! env ≫= env_parent)) (λ o, ∀ p, o = Some p → p < n).
Proof.
  apply yields_gets. intros m [_ Hs _ _] p Hp. destruct (_ !! env) as [e|] eqn:E; cbn in Hp; [|done].
  rewrite Forall_forall in Hs. apply list_elem_of_lookup_2, Hs in E as [Hpar _]. auto.
Qed.

Lemma runs_handlers pos g :
  (∀ f, frame_ok n f → fr_chunk f = c →
     Forall (handler_ok n c) (fr_handlers f) → Forall (handler_ok n c) (g f)) →
  runs pos (frame_set (λ f, set_handlers (g f) f)) (stays pos (λ _, True)).
Proof.
  intros Hg. apply runs_frame_set. intros f Hf Hc Hip. split; [|done]. pose proof Hf as [].
  split; try done. cbn. rewrite Hc in *. auto.
Qed.
#[local] Hint Resolve yields_build_dict yields_concat_rendered yields_iterators yields_parent
  yields_call_method : yields.
#[local] Hint Resolve iterator_of_ok : safe.

Hypothesis Hend : boundary (chunk_code c) 0 end_.

Lemma cursor_boundary pos : cursor [] pos → boundary (chunk_code c) 0 pos.
Proof. by intros ->%cursor_done. Qed.

Lemma chunk_function_ok f index :
  tree_all chunk_checked c → chunk_functions c !! index = Some f → function_ok f.
Proof. intros Hc Hf. eapply tree_all_child; [exact Hc|]. by eapply list_elem_of_lookup_2. Qed.

Lemma jump_boundary i : operand_ok OperandKind.JumpU16 i → boundary (chunk_code c) 0 i.
Proof. done. Qed.

#[local] Hint Resolve cursor_boundary : runs.
#[local] Hint Immediate jump_boundary : runs.

Ltac split_facts :=
  repeat match goal with
  | H : stays _ _ _ _ |- _ => destruct H as [-> ?]
  | H : (λ _, _) _ |- _ => cbn beta in H
  | H : (λ _ _, _) _ _ |- _ => cbn beta in H
  | H : _ ∧ _ |- _ => destruct H
  | H : ?p = _ |- runs ?p _ _ => subst p
  end.

(** What the next operation of an instruction is known to do. *)
Ltac runs_known :=
  first
    [ eapply runs_read_constant_string; eassumption
    | eapply runs_read_u16; [|eassumption]; reflexivity
    | eapply runs_read_u8; eassumption
    | eapply runs_skip_builtin_id; eassumption
    | apply runs_pop
    | apply runs_pop_args
    | apply runs_push; solve [auto with sound]
    | apply runs_env | apply runs_locals | apply runs_stack | apply runs_argc
    | apply runs_top_truthy
    | apply runs_local_slot | apply runs_local_value | apply runs_mutable_slot
    | apply runs_set_local; solve [auto with sound]
    | apply runs_charge_value
    | apply runs_goto
    | apply (runs_chunk _ chunk_constants)
    | eapply (runs_chunk _ (λ c, chunk_functions c !! _))
    | eapply (runs_chunk _ (λ c, chunk_binding_types c !! _))
    | apply runs_lift, safe_ok_or; reflexivity
    | apply runs_handlers; solve [eauto with runs]
    | apply runs_machine; solve [eauto with yields sound]
    | apply runs_lift; solve [eauto with safe] ].

Ltac runs_step :=
  first
    [ progress split_facts
    | apply runs_done; solve [eauto with runs]
    | apply runs_stepped; [solve [eauto with runs]|solve [auto with sound]]
    | apply runs_push_done; [solve [eauto with runs]|solve [auto with sound]]
    | apply runs_charged_push; [solve [eauto with runs]|solve [auto with sound]]
    | apply runs_fail; reflexivity
    | apply runs_invalid_local
    | apply runs_ret; split; [solve [eauto with runs]|solve [split; auto with sound]]
    | eapply runs_bind; [runs_known|intros]
    | match goal with
      | |- runs _ (if ?b then _ else _) _ => destruct b
      | |- runs _ (match ?x with _ => _ end) _ => destruct x eqn:?
      end ].
Ltac runs_walk := repeat runs_step.

Lemma runs_op_constant pos : cursor [OperandKind.ConstantU16] pos → runs pos op_constant ends_well.
Proof.
  intros Hks. unfold op_constant. runs_walk.
  match goal with H : operand_ok _ _ |- _ => destruct H as [k Hk] end. congruence.
Qed.

Lemma sound_op_binary pos f :
  cursor [] pos → keeps_ok n f → runs pos (op_binary f) ends_well.
Proof.
  intros Hks Hf. unfold op_binary, binary. eapply (runs_bind _ _ _ (stays pos (value_ok n))).
  - runs_walk. apply runs_lift. by apply Hf.
  - intros. runs_walk.
Qed.

Lemma runs_op_closure pos :
  tree_all chunk_checked c → cursor [OperandKind.FunctionU16] pos → runs pos op_closure ends_well.
Proof.
  intros Hc Hks. unfold op_closure. runs_walk.
  - apply runs_push_done; [auto with runs|]. constructor; [|done]. by eapply chunk_function_ok.
  - match goal with H : operand_ok _ _ |- _ => destruct H end. congruence.
Qed.

Lemma runs_op_assert_binding_type pos :
  cursor [OperandKind.BindingTypeU16] pos → runs pos op_assert_binding_type ends_well.
Proof.
  intros Hks. unfold op_assert_binding_type. runs_walk.
  match goal with H : operand_ok _ _ |- _ => destruct H end. congruence.
Qed.

Lemma runs_op_pop_scope pos : cursor [] pos → runs pos op_pop_scope ends_well.
Proof.
  intros Hks. unfold op_pop_scope. runs_walk.
  eapply runs_bind; [apply runs_set_env; auto|intros]. runs_walk.
Qed.

Lemma runs_op_return pos : cursor [] pos → runs pos op_return ends_well.
Proof.
  intros Hks s [Hf Ha Hm] Hip. unfold op_return. pose proof (ok_stack _ _ Hf) as Hst.
  apply cursor_boundary in Hks. rewrite <- Hip in Hks.
  destruct Hst as [|v vs Hv Hvs]; split; [done|split; [done|constructor]| |by split].
  apply state_ok_frame; [by apply frame_ok_set_stack|done|done].
Qed.

Lemma runs_op_try_catch pos preserve :
  cursor [OperandKind.JumpU16; OperandKind.StringConstantU16] pos →
  runs pos (op_try_catch preserve) ends_well.
Proof.
  intros Hks. unfold op_try_catch. runs_walk.
  eapply runs_bind; [apply runs_handlers|intros; runs_walk].
  intros f Hf Hc Hhs. constructor; [|done]. split; [done|by apply ok_env].
Qed.

Lemma runs_op_pop_handler pos : cursor [] pos → runs pos op_pop_handler ends_well.
Proof.
  intros Hks. unfold op_pop_handler. eapply runs_bind; [apply runs_handlers|intros; runs_walk].
  intros f _ _ Hhs. by destruct Hhs.
Qed.

Lemma runs_op_pop_iterator pos : cursor [] pos → runs pos op_pop_iterator ends_well.
Proof.
  intros Hks. unfold op_pop_iterator.
  eapply runs_bind; [apply runs_machine, yields_set_iterators|intros; runs_walk].
  intros l Hl. by destruct Hl.
Qed.

Lemma runs_op_iter_init pos : cursor [] pos → runs pos op_iter_init ends_well.
Proof.
  intros Hks. unfold op_iter_init. runs_walk.
  eapply runs_bind; [apply runs_machine, yields_modify|intros; runs_walk].
  intros m []. split; try done. by constructor.
Qed.

Lemma runs_op_iter_next pos : cursor [OperandKind.JumpU16] pos → runs pos op_iter_next ends_well.
Proof.
  intros Hks. unfold op_iter_next. runs_walk.
  all: match goal with H : Forall _ (_ :: _) |- _ => apply Forall_cons in H as [Hi Hrest] end.
  - subst. match goal with H : iterator_next _ = _ |- _ => apply (iterator_next_ok _ _ _ Hi) in H as [Hv Hj] end.
    eapply runs_bind; [apply runs_machine, yields_modify|intros; runs_walk].
    intros m []. split; try done. by constructor.
  - eapply runs_bind; [apply runs_machine, yields_modify|intros; runs_walk].
    intros m []. by split.
Qed.

Lemma runs_update_binding pos name update :
  boundary (chunk_code c) 0 pos →
  (∀ t, value_ok n t → safe_result (update t) (value_ok n)) →
  runs pos (update_binding name update) ends_well.
Proof.
  intros Hb Hu. unfold update_binding. runs_walk.
Qed.

Lemma runs_op_concat_assign pos :
  cursor [OperandKind.LocalU16] pos → runs pos op_concat_assign_local ends_well.
Proof.
  intros Hks. unfold op_concat_assign_local, update_slot. runs_walk.
  eapply runs_bind; [apply runs_lift; by apply sound_add|intros]. runs_walk.
Qed.

Lemma runs_op_try_unwrap pos : cursor [] pos → runs pos op_try_unwrap ends_well.
Proof.
  intros Hks. unfold op_try_unwrap. runs_walk. subst. apply runs_push_done; [auto with runs|].
  apply slot_ok_default; [constructor|]. apply head_ok. by eapply value_ok_enum_inv.
Qed.

Lemma runs_op_try_wrap_ok pos : cursor [] pos → runs pos op_try_wrap_ok ends_well.
Proof.
  intros Hks. unfold op_try_wrap_ok. runs_walk. apply runs_push_done; [auto with runs|].
  repeat case_match; subst; auto with sound.
Qed.

Lemma runs_op_call_method pos optional :
  cursor [OperandKind.StringConstantU16; OperandKind.ImmediateU8] pos →
  runs pos (op_method_call session optional) ends_well.
Proof.
  intros Hks. unfold op_method_call. runs_walk.
Qed.

Lemma runs_op_negate pos : cursor [] pos → runs pos op_negate ends_well.
Proof.
  intros Hks. unfold op_negate. eapply runs_bind; [apply runs_pop|intros; split_facts].
  eapply runs_bind; [apply runs_lift, (sound_negate n)|intros]. runs_walk.
Qed.

Lemma runs_op_get_property pos optional :
  cursor [OperandKind.StringConstantU16] pos → runs pos (op_get_property optional) ends_well.
Proof.
  intros Hks. unfold op_get_property. runs_walk. apply runs_push_done; [auto with runs|].
  by eapply sound_get_property.
Qed.

Lemma runs_op_rethrow pos : cursor [] pos → runs pos op_rethrow ends_well.
Proof.
  intros Hks. unfold op_rethrow. runs_walk. subst. apply runs_stepped; [auto with runs|].
  by eapply value_ok_exception_inv.
Qed.

Lemma runs_execute_op op pos :
  op ≠ Op.PushScope → tree_all chunk_checked c → cursor (Op.operands op) pos →
  runs pos (execute_op session op) ends_well.
Proof.
  intros Hne Hc Hks. destruct op; cbn [execute_op Op.operands] in *.
  all: try (exfalso; apply Hne; reflexivity).
  all: try (apply runs_fail; reflexivity).
  all: try (first [apply runs_op_constant|apply runs_op_closure|apply runs_op_assert_binding_type
    |apply runs_op_pop_scope|apply runs_op_return|apply runs_op_try_catch|apply runs_op_pop_handler
    |apply runs_op_pop_iterator|apply runs_op_iter_init|apply runs_op_iter_next
    |apply runs_op_concat_assign|apply runs_op_try_unwrap|apply runs_op_try_wrap_ok
    |apply runs_op_call_method
    |apply runs_op_negate|apply runs_op_get_property|apply runs_op_rethrow]; assumption).
  all: try (apply sound_op_binary; [exact Hks|first [apply sound_add|apply sound_sub|apply sound_mul|apply sound_div|apply sound_modulo|apply sound_pow]]).
  all: unfold op_get_var, op_def_var, op_set_var,
    op_get_local_slot, op_store_local_slot, op_get_argc, op_pop, op_dup,
    op_swap, op_not, compare_equality, compare, op_jump, op_jump_if,
    op_call, op_call_builtin, op_call_builtin_spread, op_build_list,
    op_build_dict, op_subscript, op_set_property, op_set_subscript,
    op_set_local_slot_property, op_set_local_slot_subscript, op_slice,
    op_concat, op_contains, op_throw, op_build_enum, op_match_enum,
    op_import, op_selective_import, op_namespace_import, op_namespace_import_members, update_slot.
  all: runs_walk.
  all: try (apply runs_update_binding; [auto with runs|intros; auto with safe]).
Qed.
End instruction.

(** ** Any instruction of a verified chunk *)

Section step.
Context `{FloatLib, Platform} (session : Session).

Lemma boundary_cursor c ip op :
  chunk_checked c → boundary (chunk_code c) 0 ip → op_at (chunk_code c) ip = Some op →
  let end_ := ip + Op.instruction_len op in
  boundary (chunk_code c) 0 end_ ∧ cursor c end_ (Op.operands op) (ip + 1).
Proof.
  intros [Hv _ _] Hb Hop end_. split; [by eapply boundary_next|].
  destruct (Hv ip Hb) as [->|(op' & Hop' & (Hlen & Hst & _) & Hj)].
  { unfold op_at in Hop. by rewrite lookup_ge_None_2 in Hop. }
  assert (op' = op) as -> by congruence. split; [done| | |done].
  - eapply Forall_impl; [exact Hj|]. by intros t [? _].
  - unfold end_. clear. assert (Op.instruction_len op = 1 + sum_list_with OperandKind.width (Op.operands op))
      as -> by (by destruct op). lia.
Qed.

Lemma frame_ok_mono n n' f : n ≤ n' → frame_ok n f → frame_ok n' f.
Proof.
  intros Hn [Hc Hs Hl He Hh]. split; [done| | |lia|].
  - eapply Forall_impl; [exact Hs|]. intros v. by apply value_ok_mono.
  - eapply Forall_impl; [exact Hl|]. intros l Hv v Hl'. eapply value_ok_mono; [done|]. by apply Hv.
  - eapply Forall_impl; [exact Hh|]. intros h [Ht Hx]. split; [done|lia].
Qed.

Lemma frame_ready_mono n n' f : n ≤ n' → frame_ready n f → frame_ready n' f.
Proof. intros Hn [Hf Hb]. split; [by eapply frame_ok_mono|done]. Qed.

Lemma frames_ready_mono n n' fs : n ≤ n' → Forall (frame_ready n) fs → Forall (frame_ready n') fs.
Proof. intros Hn Hfs. eapply Forall_impl; [exact Hfs|]. intros f. by apply frame_ready_mono. Qed.

Lemma values_ok_mono n n' vs : n ≤ n' → Forall (value_ok n) vs → Forall (value_ok n') vs.
Proof. intros Hn Hvs. eapply Forall_impl; [exact Hvs|]. intros v. by apply value_ok_mono. Qed.

Lemma entries_ok_mono n n' es : n ≤ n' → entries_ok n es → entries_ok n' es.
Proof. intros Hn Hes. eapply Forall_impl; [exact Hes|]. intros e. by apply value_ok_mono. Qed.

(** A new environment. *)
Lemma machine_ok_push n m e :
  machine_ok n m → env_sound (S n) e →
  machine_ok (S n) (set_environments (environments m ++ [e]) m).
Proof.
  intros [Hn Hs Hi Hm] He. split; cbn.
  - rewrite length_app. cbn. lia.
  - apply Forall_app. split; [|by constructor]. eapply Forall_impl; [exact Hs|]. intros e' [Hp Hes].
    split; [intros p Hp'%Hp; lia|]. by eapply entries_ok_mono; [|exact Hes]; lia.
  - eapply Forall_impl; [exact Hi|]. intros [vs k|es ks k]; cbn.
    + by apply values_ok_mono; lia.
    + by apply entries_ok_mono; lia.
  - eapply Forall_impl; [exact Hm|]. cbn. lia.
Qed.

Lemma child_env_ok n parent m :
  machine_ok n m → parent < n →
  safe_result (child_env parent m) (λ r, r.1 = n ∧ machine_ok (S n) r.2).
Proof.
  intros Hm Hp. unfold child_env, env_child. pose proof (ok_size _ _ Hm) as Hn.
  destruct (lookup_lt_is_Some_2 (environments m) parent) as [e He]; [lia|]. rewrite He.
  cbn [ok_or mbind result_bind]. unfold reject_if.
  destruct (_ <=? _)%N; [done|]. cbn [mbind result_bind safe_result fst snd]. split; [done|].
  apply machine_ok_push; [done|]. split; cbn; [|constructor]. intros p [= <-]. lia.
Qed.

(** An instruction at a boundary of checked code ends at a boundary, with a
    sound frame and machine and a sound request, and at worst a new scope. *)
Lemma execute_op_sound n f m op :
  machine_ok n m → frame_ready n f → op_at (chunk_code (fr_chunk f)) (fr_ip f) = Some op →
  safe_result (execute_op session op (mkState (set_ip (fr_ip f + 1) f) m)) (λ r,
    ∃ n', n ≤ n' ∧ machine_ok n' (st_machine r.2) ∧ frame_ready n' (st_frame r.2) ∧
      request_ok n' r.1).
Proof.
  intros Hm [Hf Hb] Hop.
  destruct (boundary_cursor (fr_chunk f) (fr_ip f) op) as [Hend Hcur]; [|done..|].
  { by apply tree_all_here, ok_chunk with n. }
  assert (op = Op.PushScope ∨ op ≠ Op.PushScope) as [->|Hne] by (destruct op; auto).
  - cbn [execute_op]. unfold op_push_scope, mbind, state_bind, frame_get, gets. cbn [st_frame set_ip fr_env].
    unfold on_machine. cbn [st_machine].
    pose proof (child_env_ok n (fr_env f) m Hm (ok_env _ _ Hf)) as Hc.
    destruct (child_env (fr_env f) m) as [[env m']|d]; [|done]. cbn [safe_result fst snd] in Hc.
    destruct Hc as [-> Hm']. cbn. exists (S n). split; [lia|]. split; [done|]. split; [|done].
    split; [|exact Hend]. apply (frame_ok_mono n (S n)) in Hf as []; [|lia]. split; try done. cbn. lia.
  - pose proof (runs_execute_op session n (fr_chunk f) _ Hend op (fr_ip f + 1) Hne
      (ok_chunk _ _ Hf) Hcur (mkState (set_ip (fr_ip f + 1) f) m)) as Hrun.
    assert (state_ok n (fr_chunk f) (mkState (set_ip (fr_ip f + 1) f) m)) as Hs.
    { apply state_ok_frame; [by apply frame_ok_set_ip|done|done]. }
    specialize (Hrun Hs eq_refl). destruct (execute_op _ _ _) as [[r s]|d]; [|done].
    destruct Hrun as [[Hf' Hact Hm'] [Hb' Hr]]. exists n. split; [done|]. split; [done|].
    split; [|done]. split; [done|]. unfold at_boundary. by rewrite Hact.
Qed.
End step.
