(* ===== verification/Safety.v ===== *)
(** * Executions of verified code ([execute_frames], [load_module], [run_with_fuel])

    No execution of an accepted artifact reaches an internal fault: the checks
    [decode] makes once replace checks the executor would make at every step. *)

From Stdlib Require Import Strings.String.
From S2P Require Import Prelude BTree Opcode Program Verifier Budget Writer Reader Codec Linker.
From S2P Require Import Artifact Float64 Semantics Values Resource Text Arith Ops TypeContract.
From S2P Require Import Json Regex Host Env Snapshot Machine Methods Builtins Execute Run Effects.
From S2P Require Import Sound StepSafety.

Definition program_ok (a : ProgramArtifact) : Prop :=
  tree_all chunk_checked (art_image a) ∧ Forall module_ok (art_modules a).

(** ** The triple of computations that make environments *)

Definition sound_outcome {A} (n : nat) (o : outcome A) (P : nat → A → Prop) : Prop :=
  match o with
  | Finished r => safe_result r (λ r, ∃ n', n ≤ n' ∧ machine_ok n' r.2 ∧ P n' r.1)
  | NameCycle _ _ _ | OutOfSteps => True
  end.

Definition execs {A} (n : nat) (e : ExecR A) (P : nat → A → Prop) : Prop :=
  ∀ m, machine_ok n m → sound_outcome n (e m) P.

Lemma sound_outcome_older {A} n n' (o : outcome A) P :
  n ≤ n' → sound_outcome n' o P → sound_outcome n o P.
Proof.
  intros Hn. destruct o as [[[a m]|d]| |]; try done. intros (n'' & Hn' & Hm & Ha).
  exists n''. split; [lia|done].
Qed.

Lemma execs_ret {A} n (a : A) (P : nat → A → Prop) : P n a → execs n (mret a) P.
Proof. intros Ha m Hm. by exists n. Qed.

Lemma execs_fail {A} n c (P : nat → A → Prop) : safe (diagnostic c) → execs n (exec_fail c) P.
Proof. by intros Hc m Hm. Qed.

Lemma execs_bind {A B} n (e : ExecR A) (f : A → ExecR B) P Q :
  execs n e P → (∀ a n', n ≤ n' → P n' a → execs n' (f a) Q) → execs n (e ≫= f) Q.
Proof.
  intros He Hf m Hm. specialize (He m Hm). unfold mbind, exec_bind.
  destruct (e m) as [[[a m']|d]| |]; try done.
  destruct He as (n' & Hn & Hm' & Ha). specialize (Hf a n' Hn Ha m' Hm').
  destruct (f a m') as [[[b m'']|d]| |]; try done.
  destruct Hf as (n'' & Hn' & Hm'' & Hb). exists n''. split; [lia|done].
Qed.

Lemma execs_machine {A} n (op : MachineR A) P :
  yields n op P → execs n (run_machine op) (λ n' a, n' = n ∧ P a).
Proof.
  intros Hop m Hm. specialize (Hop m Hm). unfold run_machine. cbn [sound_outcome].
  destruct (op m) as [[a m']|d]; [|done]. destruct Hop as [Hm' Ha]. by exists n.
Qed.

Lemma execs_weaken {A} n (e : ExecR A) (P Q : nat → A → Prop) :
  execs n e P → (∀ n' a, n ≤ n' → P n' a → Q n' a) → execs n e Q.
Proof.
  intros He HPQ m Hm. specialize (He m Hm). destruct (e m) as [[[a m']|d]| |]; try done.
  destruct He as (n' & Hn & Hm' & Ha). exists n'. split; [done|]. split; [done|]. by apply HPQ.
Qed.

Section exec.
Context `{FloatLib, Platform, SnapshotSerde} (session : Session).
Hypothesis Hprogram : program_ok (program session).

(** ** Late-bound callees *)

Lemma resolve_ok n fuel env v s c :
  Forall (env_sound n) s → value_ok n v → resolve_callee fuel env v s = Some (Found c) → value_ok n c.
Proof.
  intros Hs. revert v; induction fuel as [|fuel IH]; intros v Hv Hr.
  - destruct v; cbn in Hr; try discriminate Hr; by injection Hr as <-.
  - destruct v; cbn [resolve_callee] in Hr; try (by injection Hr as <-).
    destruct (env_get env value s) as [w|] eqn:Hg; [|done].
    apply (IH w); [|done]. by eapply env_get_ok.
Qed.

Lemma execs_call_value n env v args tail :
  value_ok n v → Forall (value_ok n) args → execs n (call_value session env v args tail) (λ n, step_ok n).
Proof.
  intros Hv Hargs m Hm. unfold call_value.
  destruct (resolve_callee _ _ _ _) as [[w|name]|] eqn:E; [| |done].
  - apply resolve_ok with (n := n) in E; [|by apply ok_store|done].
    destruct w; try (by apply execs_fail).
    + apply value_ok_closure_inv in E as [??]. exists n. by split_and!.
    + eapply execs_weaken; [by apply execs_machine, yields_call_builtin| |done].
      by intros n' a _ [-> ?].
    + eapply execs_weaken; [by apply execs_machine, yields_call_method| |done].
      by intros n' a _ [-> ?].
  - eapply execs_weaken; [by apply execs_machine, yields_call_builtin| |done].
    by intros n' a _ [-> ?].
Qed.

(** ** Projections of modules *)

Lemma namespace_entries_ok n exports demanded env s :
  Forall (env_sound n) s → entries_ok n (namespace_entries exports demanded env s).
Proof.
  intros Hs. unfold namespace_entries. assert (entries_ok n []) as Hnil by constructor. revert Hnil.
  generalize (@nil (string * RuntimeValue)).
  induction exports as [|[k kind] exports IH]; intros es Hes; cbn [fold_left]; [done|]. apply IH.
  destruct (negb _); [done|]. destruct (match demanded with Some _ => _ | None => _ end); [done|].
  destruct (env_get env _ s) as [v|] eqn:Hg; [|done].
  apply entries_ok_insert; [by eapply env_get_ok|done].
Qed.

Lemma yields_bind_name n inst env name : yields n (bind_name inst env name) (λ _, True).
Proof.
  unfold bind_name. destruct (BTree.get _ _) as [kind|]; [|by apply yields_fail].
  destruct (negb _); [by apply yields_ret|].
  eapply yields_bind; [apply yields_lookup_name|]. intros o Ho.
  eapply yields_bind; [apply yields_lift, safe_ok_or; reflexivity|]. intros v Hv.
  eapply yields_bind; [apply yields_get|]. intros m Hm.
  destruct (env_contains_local _ _ _); [by apply yields_fail|]. apply yields_define. by apply Ho.
Qed.

Lemma yields_bind_names n inst env names : yields n (bind_names inst env names) (λ _, True).
Proof.
  induction names; cbn [bind_names]; [by apply yields_ret|].
  eapply yields_bind; [apply yields_bind_name|]. auto.
Qed.

Lemma yields_projection n inst selected ns env :
  yields n (bind_module_projection inst selected ns env) (λ _, True).
Proof.
  unfold bind_module_projection. destruct ns as [[alias demanded]|]; [|apply yields_bind_names].
  unfold bind_namespace. eapply yields_bind; [apply yields_get|]. intros m Hm.
  destruct (env_contains_local _ _ _); [by apply yields_fail|].
  destruct (match demanded with Some _ => _ | None => _ end); [by apply yields_fail|].
  apply yields_define, value_ok_entries, namespace_entries_ok. by apply ok_store.
Qed.

(** ** Frames *)

Definition next_ok (n : nat) (r : Next) : Prop :=
  match r with
  | NextFrames frames => frames ≠ [] ∧ Forall (frame_ready n) frames
  | NextStep (Value v) => value_ok n v
  | NextStep (Suspended_ _) => True
  end.

Lemma push_on_ready n v frames :
  frames ≠ [] → value_ok n v → Forall (frame_ready n) frames →
  push_on v frames ≠ [] ∧ Forall (frame_ready n) (push_on v frames).
Proof.
  intros Hne Hv Hfs. destruct Hfs as [|f fs [Hf Hb] Hfs]; [done|]. split; [done|]. cbn.
  constructor; [|done]. split; [|done]. apply frame_ok_set_stack; [done|].
  constructor; [done|by apply ok_stack].
Qed.

Lemma execs_call_frame n function env args :
  function_ok function → env < n → Forall (value_ok n) args →
  execs n (run_machine (call_frame function env args)) (λ n', frame_ready n').
Proof.
  intros Hf Henv Hargs m Hm. unfold call_frame, run_machine. cbn [sound_outcome].
  unfold mbind at 1, state_bind at 1. pose proof (child_env_ok n env m Hm Henv) as Hchild.
  destruct (child_env env m) as [[env' m1]|d]; [|done]. destruct Hchild as [Heq Hm1].
  cbn [fst snd] in *. subst env'.
  assert (yields (S n) (_ ← charge_call_validation args; _ ← lift (validate_call function args);
    function_frame function n args) (frame_ready (S n))) as Hrest.
  { eapply yields_bind; [eauto with yields|]. intros _ _.
    eapply yields_bind; [apply yields_lift; auto with safe|]. intros _ _.
    apply yields_function_frame; [done|lia|]. eapply values_ok_mono; [|done]. lia. }
  specialize (Hrest m1 Hm1). match goal with |- safe_result ?r _ => destruct r as [[f m2]|d] end;
    [|done]. destruct Hrest as [Hm2 Hf2]. exists (S n). split; [lia|done].
Qed.

Lemma yields_throw n frames e :
  Forall (frame_ready n) frames → exception_ok n e → yields n (throw frames e) (next_ok n).
Proof.
  intros Hfs He. unfold throw. destruct (handle_throw frames e) as [frames'|] eqn:E.
  - apply yields_ret. by eapply handle_throw_ready.
  - eapply yields_bind; [eauto with yields|]. intros msg _ m Hm. by destruct (exn_declared e).
Qed.

Lemma execs_dispatch n step frames :
  frames ≠ [] → step_ok n step → Forall (frame_ready n) frames →
  execs n (run_machine (dispatch step frames)) (λ n', next_ok n').
Proof.
  intros Hne Hstep Hfs.
  assert (∀ op, yields n op (next_ok n) → execs n (run_machine op) (λ n', next_ok n')) as Hstay.
  { intros op Hop. eapply execs_weaken; [by apply execs_machine|]. by intros n' a _ [-> ?]. }
  destruct step as [|v|f env args tail|v|r|e|d]; cbn [dispatch].
  - by apply Hstay, yields_ret.
  - apply Hstay, yields_ret. by apply push_on_ready.
  - destruct (MAX_FRAMES <=? length frames); [by intros m Hm|].
    destruct Hstep as (Hf & Henv & Hargs). intros m Hm.
    pose proof (execs_call_frame n f env args Hf Henv Hargs m Hm) as Hframe.
    unfold run_machine in *. cbn [sound_outcome] in *. unfold mbind, state_bind.
    destruct (call_frame f env args m) as [[fr m']|]; [|done]. destruct Hframe as (n' & Hn & Hm' & Hfr).
    exists n'. split; [done|]. split; [done|]. apply (frames_ready_mono n n') in Hfs; [|done].
    cbn. destruct tail; (split; [done|]); constructor; try done. by destruct Hfs.
  - destruct Hfs as [|f callers Hf Hcallers]; [done|]. cbn [List.tl].
    destruct callers as [|f' callers]; [by apply Hstay, yields_ret|].
    apply Hstay, yields_ret. by apply push_on_ready.
  - by apply Hstay, yields_ret.
  - by apply Hstay, yields_throw.
  - apply Hstay. eapply yields_bind; [by apply yields_catch_builtin_error|]. intros frames' Hfs'.
    by apply yields_ret.
Qed.

(** ** The loop and the loader *)

Definition task_ok (n : nat) (t : Task) : Prop :=
  match t with
  | Frames frames => frames ≠ [] ∧ Forall (frame_ready n) frames
  | LoadModule _ => True
  end.

Definition answer_ok (n : nat) {t : Task} : Answer t → Prop :=
  match t with
  | Frames _ => λ s, match s with Value v => value_ok n v | Suspended_ _ => True end
  | LoadModule _ => λ s, match s with Ready inst => inst_env inst < n | ModuleSuspend _ => True end
  end.

Section steps.
Context (rec : ∀ t : Task, ExecR (Answer t)).
Hypothesis Hrec : ∀ t n, task_ok n t → execs n (rec t) (λ n', answer_ok n').

Lemma execs_request n request env :
  request_ok n request → execs n (run_request session rec request env) (λ n', step_ok n').
Proof.
  intros Hr. destruct request as [s|callee args tail|import]; cbn [run_request].
  - by apply execs_ret.
  - destruct Hr. by apply execs_call_value.
  - unfold import_root_module. destruct (find _ _) as [spec|]; [|by apply execs_fail].
    eapply execs_bind; [by apply (Hrec (LoadModule _))|]. intros [inst|r] n' Hn Ha; [|by apply execs_ret].
    eapply execs_bind; [apply execs_machine, yields_projection|]. intros _ n'' _ _. by apply execs_ret.
Qed.

Lemma execs_step_frames n frames :
  frames ≠ [] → Forall (frame_ready n) frames →
  execs n (step_frames session rec frames) (λ n', answer_ok n' (t := Frames frames)).
Proof.
  intros Hne Hfs. unfold step_frames.
  eapply execs_bind; [apply execs_machine, yields_charge|]. intros _ n' _ [-> _].
  destruct Hfs as [|frame callers Hf Hcallers]; [done|]. unfold code_of.
  destruct (chunk_code (fr_chunk frame) !! fr_ip frame) as [b|] eqn:Eb; [|by apply execs_fail].
  assert (Op.from_byte b = op_at (chunk_code (fr_chunk frame)) (fr_ip frame)) as Hat
    by (unfold op_at; by rewrite Eb).
  destruct (Op.from_byte b) as [op|].
  2: { exfalso. destruct Hf as [Hf Hb]. apply ok_chunk, tree_all_here in Hf as [Hv _ _].
       destruct (Hv _ Hb) as [Hip|(op & Hop & _)]; [|congruence].
       rewrite Hip in Eb. by rewrite lookup_ge_None_2 in Eb. }
  intros m Hm. pose proof (execute_op_sound session n frame m op Hm Hf (eq_sym Hat)) as Hop.
  destruct (execute_op _ _ _) as [[request s]|d]; [|done].
  destruct Hop as (n1 & Hn1 & Hm1 & Hf1 & Hr1).
  apply (frames_ready_mono n n1) in Hcallers; [|done]. cbn [fst snd] in *.
  match goal with |- sound_outcome n (?e _) ?P => assert (execs n1 e P) as He end.
  - eapply execs_bind; [by apply execs_request|]. intros step n2 Hn2 Hstep.
    eapply execs_bind; [apply execs_dispatch; [done|done|]|].
    { apply (frames_ready_mono n1 n2); [done|]. by constructor. }
    intros [frames'|[v|r]] n3 Hn3 Hnext; [|by apply execs_ret..].
    destruct (stack_exceeded frames'); [by apply execs_fail|]. by apply (Hrec (Frames frames')).
  - by apply (sound_outcome_older n n1), He.
Qed.

Lemma execs_load_imports n imports env : execs n (load_imports rec imports env) (λ _ _, True).
Proof.
  revert n; induction imports as [|import imports IH]; intros n; cbn [load_imports]; [by apply execs_ret|].
  eapply execs_bind; [by apply (Hrec (LoadModule _))|]. intros [inst|r] n' _ _; [|by apply execs_ret].
  eapply execs_bind; [apply execs_machine, yields_projection|]. intros _ n'' _ _. apply IH.
Qed.

Lemma execs_run_init n init env :
  (∀ c, init = Some c → tree_all chunk_checked c) → env < n →
  execs n (run_init rec init env) (λ _ _, True).
Proof.
  intros Hinit Henv. unfold run_init. destruct init as [c|]; [|by apply execs_ret].
  eapply execs_bind; [apply (Hrec (Frames _)); split; [done|]|].
  - constructor; [|done]. apply frame_new_ready; auto.
  - intros [] n' _ _; by apply execs_ret.
Qed.

Lemma yields_pop_loading n : yields n (modify pop_loading) (λ _, True).
Proof. apply yields_modify. intros m []. by split. Qed.

Lemma define_functions_ok n env fns m :
  Forall (λ e, function_ok e.2) fns → env < n → machine_ok n m →
  machine_ok n (define_functions env fns m).
Proof.
  intros Hfns Henv. revert m; induction Hfns as [|[k f] fns Hf Hfns IH]; intros m Hm; [done|].
  apply IH, machine_ok_define; [|done]. by constructor.
Qed.

Lemma yields_finish_module n module env :
  module_ok module → env < n → yields n (finish_module module env) (λ inst, inst_env inst < n).
Proof.
  intros [_ Hfns] Henv. unfold finish_module.
  eapply yields_bind; [apply yields_modify; intros m; by apply define_functions_ok|]. intros _ _.
  eapply yields_bind; [apply yields_modify|intros _ _; by apply yields_ret].
  intros m []. split; try done. cbn.
  apply (from_entries_Forall (λ i, inst_env i < n) _ [(_, _)]); [done|]. by constructor.
Qed.

Lemma execs_enter_module n module :
  execs n (run_machine (enter_module module)) (λ n' env, env < n').
Proof.
  intros m Hm. exists (S n). split; [lia|]. pose proof (ok_size _ _ Hm) as Hn.
  assert (machine_ok (S n) (set_environments (environments m ++ [mkEnv [] None 0]) m)) as [].
  { apply machine_ok_push; [done|]. split; [done|constructor]. }
  split; [by split|]. cbn. lia.
Qed.

Lemma execs_load_module n id :
  execs n (load_module session rec id) (λ n', answer_ok n' (t := LoadModule id)).
Proof.
  intros m Hm. unfold load_module. destruct (BTree.get id (modules m)) as [inst|] eqn:Eg.
  { exists n. split; [done|]. split; [done|]. apply btree_get_in in Eg.
    destruct Hm as [_ _ _ Hmod]. rewrite Forall_forall in Hmod. by apply Hmod in Eg. }
  destruct (existsb _ _); [done|]. destruct (find _ _) as [module|] eqn:Efind; [|done].
  apply find_some in Efind as [Hin%list_elem_of_In _]. destruct Hprogram as [_ Hmods].
  rewrite Forall_forall in Hmods. specialize (Hmods _ Hin). revert m Hm Eg. intros m Hm _. revert m Hm.
  unfold load_module_body. eapply execs_bind; [apply execs_enter_module|]. intros env n1 _ Henv.
  cbn beta in Henv.
  eapply execs_bind; [apply execs_load_imports|]. intros [r|] n2 Hn2 _.
  { eapply execs_bind; [apply execs_machine, yields_pop_loading|]. intros. by apply execs_ret. }
  eapply execs_bind; [apply execs_run_init; [apply Hmods|lia]|]. intros [r|] n3 Hn3 _.
  { eapply execs_bind; [apply execs_machine, yields_pop_loading|]. intros. by apply execs_ret. }
  eapply execs_bind; [apply execs_machine, yields_finish_module; [done|lia]|].
  intros inst n4 _ [-> Hinst]. by apply execs_ret.
Qed.
End steps.

Lemma exec_sound steps t n : task_ok n t → execs n (exec session steps t) (λ n', answer_ok n').
Proof.
  revert t n; induction steps as [|steps IH]; intros t n Ht; [by intros m Hm|].
  destruct t as [frames|id]; cbn [exec].
  - destruct Ht. by apply execs_step_frames.
  - by apply execs_load_module.
Qed.

(** ** Whole executions *)

Lemma execs_entry_frame n bootstrap input :
  value_ok n bootstrap →
  execs n (run_machine (entry_frame session bootstrap input)) (λ n', frame_ready n').
Proof.
  intros Hv. unfold entry_frame. destruct bootstrap; try by intros m Hm.
  apply value_ok_closure_inv in Hv as [Hf Henv]. apply execs_call_frame; [done|done|].
  apply Forall_app. split; [destruct (art_expects_harness _); repeat constructor|].
  constructor; [apply value_ok_data|done].
Qed.

Lemma run_program_safe steps input n m :
  machine_ok n m → 0 < n → sound_outcome n (run_program session steps input m) (λ _ _, True).
Proof.
  intros Hm Hn. revert m Hm. unfold run_program. destruct Hprogram as [Himage _].
  eapply execs_bind; [apply (exec_sound _ (Frames _)); split; [done|]|].
  { constructor; [|done]. by apply frame_new_ready. }
  intros [bootstrap|r] n1 _ Hb; [|by apply execs_ret].
  eapply execs_bind; [by apply execs_entry_frame|]. intros frame n2 _ Hf.
  eapply execs_bind; [apply (exec_sound _ (Frames _)); split; [done|by constructor]|].
  intros [v|r] n3 _ _; [|by apply execs_ret].
  eapply execs_bind; [apply execs_machine|intros; by apply execs_ret].
  unfold complete. eapply yields_bind; [eauto with yields|]. intros _ _. apply yields_lift.
  apply safe_bind with (P := λ _, True); [auto with safe|]. intros _ _. apply safe_try_from_validated.
Qed.

Lemma machine_new_ok consumed : machine_ok 1 (machine_new (env_root []).2 consumed).
Proof. split; [done|repeat constructor|constructor|constructor]. by intros. Qed.

Lemma safe_validate_inputs input : safe_result (validate_inputs session input) (λ _, True).
Proof.
  unfold validate_inputs. eapply safe_bind; [auto with safe|]. intros _ _. apply safe_foldl.
  intros _ []; [auto with safe|done].
Qed.

(** An outcome that is no such fault; endless recursion on names is not one
    ([run_program_terminates] says when that is). *)
Definition faultless (e : option Execution) : Prop :=
  match e with Some (Failed d) => safe d | _ => True end.

Lemma suspend_faultless input r m : faultless (Some (suspend session input r m)).
Proof.
  unfold suspend. destruct (snapshot_key _) as [key|]; [|done].
  unfold encode_snapshot. destruct (write_snapshot _); cbn [ok_or mbind result_bind]; [|done].
  unfold reject_if. by destruct (_ <? _)%N.
Qed.

Lemma run_with_fuel_faultless input consumed : faultless (run_with_fuel session input consumed).
Proof.
  unfold run_with_fuel, run_with_steps. pose proof (safe_validate_inputs input) as Hin.
  destruct (validate_inputs session input) as [|d]; [|done].
  pose proof (run_program_safe (step_budget session) input 1 _ (machine_new_ok consumed) ltac:(lia)) as Hrun.
  destruct (run_program _ _ _ _) as [[[[v|r] m]|d]| |]; try done. apply suspend_faultless.
Qed.
End exec.

(** Decoding checks all the code an execution can reach. *)
Lemma decode_program_ok blake3 abi bytes limits a :
  decode blake3 abi bytes limits = Ok a → program_ok a.
Proof.
  intros (payload & _ & _ & _ & wire & built & _ & Hb & ->)%decode_frame_inv.
  apply validate_and_build_tree in Hb. done.
Qed.

Lemma safe_decode_snapshot `{Platform, SnapshotSerde} bytes key :
  safe_result (decode_snapshot bytes key) (λ _, True).
Proof. unfold decode_snapshot. safe_walk. Qed.

(** ** The theorem *)



(** ** What verification leaves *)

Definition runs_as (code : list N) : ProgramArtifact :=
  mkProgramArtifact [] []
    (mkChunk (map n2b code) [] [] [] None [] [] [] false) "main" EntryFunction false [] [].

(** Verified code whose execution ends in the faults about the stack, the
    iterators and the end of the code. *)
Example verifier_leaves :
  Forall (λ case : list N * Code,
    validate_code (map n2b case.1) (mkCodeTables [] 0 0 0) = Ok tt ∧
    @start sample_floats sample_platform sample_serde (runs_as case.1) (DInt 1) grant_pure =
      Some (Failed (diagnostic case.2)))
  [([Op.discriminant Op.Pop], stack_underflow);
   ([Op.discriminant Op.IterNext; 0; 0]%N, iterator_state);
   ([Op.discriminant Op.Nil], instruction_pointer)].
Proof. repeat (apply Forall_cons; split; [split; vm_compute; reflexivity|]). apply Forall_nil, I. Qed.
