(* ===== verification/Termination.v ===== *)
(** * Executions end ([execute_frames], [load_module])

    Every instruction charges fuel and a module never loads inside itself, so
    the potential [fuel + replay_credit + unloaded modules] bounds the steps.
    What it does not bound is [call_value]'s recursion on names. *)

From Stdlib Require Import Strings.String.
From S2P Require Import Prelude BTree Opcode Program Verifier Linker Reader Artifact Float64.
From S2P Require Import Semantics Values Resource Text Arith Ops TypeContract Json Regex Host Env.
From S2P Require Import Snapshot Machine Methods Builtins Execute Run Effects.

(** ** The potential *)

Definition potential (m : Machine) : N := (fuel m + replay_credit m)%N.

(** Operations may spend potential; they load nothing. *)
Definition spends (m m' : Machine) : Prop :=
  (potential m' ≤ potential m)%N ∧ loading_modules m' = loading_modules m.

#[export] Instance spends_preorder : PreOrder spends.
Proof.
  split; [intros m; split; [lia|done]|].
  intros a b c [H1 H2] [H3 H4]. split; [lia|congruence].
Qed.

(** A charge takes its amount, or fails for want of it. *)
Lemma charge_potential n m a m' :
  charge n m = Ok (a, m') → (potential m = potential m' + n)%N ∧ loading_modules m' = loading_modules m.
Proof.
  unfold charge, potential.
  destruct (N.ltb_spec (fuel m) (n - N.min n (replay_credit m))); intros [= _ <-]. split; [cbn; lia|done].
Qed.

#[export] Instance spends_keeps : MachineKeeps spends.
Proof.
  split.
  - apply _.
  - intros n m a m' H. apply charge_potential in H as [H1 H2]. split; [lia|done].
  - intros m m' [Hf Hc Hl _]. split; [|done]. unfold potential. by rewrite Hf, Hc.
Qed.

(** ** Chains of names *)

(** The name that [name] stands for, when it stands for one. *)
Definition next_name (env : EnvId) (s : Store) (name : string) : option string :=
  match env_get env name s with Some (RString next) => Some next | _ => None end.

Definition bound_names (s : Store) : list string := concat (map (λ e, BTree.keys (env_values e)) s).

Lemma bound_names_length s : name_budget s = S (S (length (bound_names s))).
Proof.
  unfold name_budget, bound_names. do 2 f_equal. induction s as [|e s IH]; cbn; [done|].
  rewrite length_app, IH. unfold BTree.keys. by rewrite length_map.
Qed.

Lemma env_get_bound env name s : is_Some (env_get env name s) → name ∈ bound_names s.
Proof.
  unfold env_get. generalize (S env) as fuel. intros fuel. revert env.
  induction fuel as [|fuel IH]; intros env [v Hv]; [done|]. cbn in Hv.
  destruct (s !! env) as [e|] eqn:He; cbn in Hv; [|done].
  destruct (BTree.get name (env_values e)) as [w|] eqn:Hg.
  - apply list_elem_of_In, in_concat. exists (BTree.keys (env_values e)). split.
    + apply (in_map (λ e, BTree.keys (env_values e))), list_elem_of_In.
      by eapply list_elem_of_lookup_2.
    + apply btree_get_in, list_elem_of_In in Hg. apply (in_map fst _ _ Hg).
  - destruct (env_parent e) as [p|]; cbn in Hv; [|done]. apply (IH p). eauto.
Qed.

Lemma next_name_bound env s name next : next_name env s name = Some next → name ∈ bound_names s.
Proof.
  unfold next_name. intros Hn. apply (env_get_bound env). destruct (env_get env name s); [eauto|done].
Qed.

Section chain.
Context (env : EnvId) (s : Store).

(** [stops k name]: the chain from [name] ends after exactly [k] links. *)
Inductive stops : nat → string → Prop :=
  | stops_here name : next_name env s name = None → stops 0 name
  | stops_after k name next : next_name env s name = Some next → stops k next → stops (S k) name.

Lemma stops_unique j k name : stops j name → stops k name → j = k.
Proof.
  intros Hj; revert k; induction Hj as [|j name next Hn _ IH]; intros k; inversion 1; subst; try congruence.
  f_equal. apply IH. by replace next with next0 by congruence.
Qed.

(** The links of a chain that stops are distinct bound names. *)
Lemma stops_path k name : stops k name →
  ∃ l, NoDup l ∧ length l = k ∧ l ⊆ bound_names s ∧ ∀ x, x ∈ l → ∃ j, j ≤ k ∧ 0 < j ∧ stops j x.
Proof.
  induction 1 as [name Hn|k name next Hn Hs (l & Hnd & Hlen & Hsub & Hj)].
  - exists []. split; [constructor|]. split; [done|]. split; set_solver.
  - assert (stops (S k) name) as Hname by (by eapply stops_after).
    exists (name :: l). split_and!.
    + constructor; [|done]. intros Hin. destruct (Hj _ Hin) as (j & Hjk & _ & Hst).
      pose proof (stops_unique _ _ _ Hname Hst). lia.
    + cbn. by rewrite Hlen.
    + intros x [->|Hx]%elem_of_cons; [by eapply next_name_bound|by apply Hsub].
    + intros x [->|Hx]%elem_of_cons; [exists (S k); split_and!; [lia|lia|done]|].
      destruct (Hj _ Hx) as (j & ? & ? & ?). exists j. split_and!; [lia|done|done].
Qed.

Lemma stops_bound k name : stops k name → k ≤ length (bound_names s).
Proof.
  intros Hk. destruct (stops_path _ _ Hk) as (l & Hnd & <- & Hsub & _).
  apply submseteq_length, NoDup_submseteq; [done|]. intros x. apply Hsub.
Qed.

Lemma resolve_stops fuel name c :
  resolve_callee fuel env (RString name) s = Some c →
  ∃ k, stops k name ∧ ∀ fuel', k < fuel' → resolve_callee fuel' env (RString name) s = Some c.
Proof.
  revert name; induction fuel as [|fuel IH]; intros name Hr; [done|]. cbn [resolve_callee] in Hr.
  destruct (env_get env name s) as [v|] eqn:Hg.
  - destruct v as [| | | |next| | | | | | | |].
    5: { destruct (IH _ Hr) as (k & Hk & Hall). exists (S k). split.
         - eapply stops_after; [|exact Hk]. unfold next_name. by rewrite Hg.
         - intros [|fuel'] Hf; [lia|]. cbn [resolve_callee]. rewrite Hg. apply Hall. lia. }
    all: exists 0; split; [apply stops_here; unfold next_name; by rewrite Hg|].
    all: intros [|fuel'] Hf; [lia|]; cbn [resolve_callee]; rewrite Hg; destruct fuel, fuel'; exact Hr.
  - exists 0. split; [apply stops_here; unfold next_name; by rewrite Hg|].
    intros [|fuel'] Hf; [lia|]. cbn [resolve_callee]. by rewrite Hg.
Qed.

Lemma resolve_budget fuel callee c :
  resolve_callee fuel env callee s = Some c →
  resolve_callee (name_budget s) env callee s = Some c.
Proof.
  destruct callee; try (destruct fuel; exact id). intros Hr.
  destruct (resolve_stops _ _ _ Hr) as (k & Hk & Hall). apply Hall.
  apply stops_bound in Hk. rewrite bound_names_length. lia.
Qed.
End chain.

Lemma unresolved env callee s depth :
  resolve_callee (name_budget s) env callee s = None → resolve_callee depth env callee s = None.
Proof.
  intros Hb. destruct (resolve_callee depth env callee s) as [c|] eqn:E; [|done].
  apply resolve_budget in E. congruence.
Qed.

Section termination.
Context `{FloatLib, Platform, SnapshotSerde} (session : Session).

Definition module_ids : list string := map built_id (art_modules (program session)).

(** [loading_modules] is a path of distinct modules of the program. *)
Definition loading_ok (l : list string) : Prop := NoDup l ∧ l ⊆ module_ids.

Definition measure (m : Machine) : nat :=
  N.to_nat (potential m) + (length module_ids - length (loading_modules m)).

Lemma loading_length l : loading_ok l → length l ≤ length module_ids.
Proof.
  intros [Hnd Hsub]. apply submseteq_length, NoDup_submseteq; [done|]. intros x Hx. by apply Hsub.
Qed.

(** What an execution guarantees: it does not run out of steps, when it returns
    it has only spent, and if it is stuck on a callee, the callee has no end. *)
Definition ends {A} (m : Machine) (o : outcome A) : Prop :=
  match o with
  | Finished (Ok (_, m')) => spends m m'
  | Finished (Err _) => True
  | NameCycle env callee scopes => ∀ depth, resolve_callee depth env callee scopes = None
  | OutOfSteps => False
  end.

Lemma ends_bind {A B} (e : ExecR A) (f : A → ExecR B) m :
  ends m (e m) →
  (∀ a m', e m = Finished (Ok (a, m')) → spends m m' → ends m' (f a m')) →
  ends m ((e ≫= f) m).
Proof.
  intros He Hf. unfold mbind, exec_bind. destruct (e m) as [[[a m']|d]| |] eqn:E; cbn in *; try done.
  specialize (Hf a m' eq_refl He).
  destruct (f a m') as [[[b m'']|d]| |]; cbn in *; try done. by etrans.
Qed.

Lemma ends_machine {A} (r : MachineR A) m : keeps spends r → ends m (run_machine r m).
Proof. intros Hr. unfold run_machine; cbn. destruct (r m) as [[a m']|] eqn:E; [by eapply Hr|done]. Qed.

Lemma ends_ret {A} (a : A) m : ends m (mret (M := ExecR) a m).
Proof. unfold mret, exec_ret; cbn. reflexivity. Qed.

Lemma ends_fail {A} c m : ends m (exec_fail (A := A) c m).
Proof. done. Qed.

Lemma spends_call_value env callee args tail m : ends m (call_value session env callee args tail m).
Proof.
  unfold call_value. destruct (resolve_callee _ _ _ _) as [[[]|]|] eqn:E; try done.
  all: try (intros depth; by apply unresolved).
  all: try (apply ends_machine; first [apply (closed_call_builtin (@keeps _ spends)) | apply (closed_call_method session (@keeps _ spends))]).
Qed.

(** ** The induction *)

Section steps.
Context (rec : ∀ t : Task, ExecR (Answer t)) (n : nat).
Hypothesis Hrec : ∀ t m, loading_ok (loading_modules m) → measure m < n → ends m (rec t m).

Lemma measure_spends m m' : spends m m' → measure m' ≤ measure m.
Proof. unfold measure. intros [Hp Hl]. rewrite Hl. lia. Qed.

(** Calling back after spending. *)
Lemma ends_rec t m m' :
  spends m m' → loading_ok (loading_modules m) → measure m < n → ends m' (rec t m').
Proof.
  intros Hs Hl Hn. apply Hrec; [by rewrite (proj2 Hs)|]. apply measure_spends in Hs. lia.
Qed.

Lemma ends_import import env m :
  loading_ok (loading_modules m) → measure m < n →
  ends m (import_root_module session rec import env m).
Proof.
  intros Hl Hn. unfold import_root_module. destruct (find _ _); [|done].
  apply ends_bind; [by apply (Hrec (LoadModule (import_target _)))|]. intros [inst|request] m' _ Hs; [|apply ends_ret].
  apply ends_bind; [apply ends_machine, (closed_bind_projection (@keeps _ spends))|]. intros _ m'' _ _. apply ends_ret.
Qed.

Lemma ends_request request env m :
  loading_ok (loading_modules m) → measure m < n →
  ends m (run_request session rec request env m).
Proof.
  intros Hl Hn. destruct request; [apply ends_ret|apply spends_call_value|by apply ends_import].
Qed.

(** One charge pays for the iteration. *)
Lemma ends_step_frames frames m :
  loading_ok (loading_modules m) → measure m ≤ n → ends m (step_frames session rec frames m).
Proof.
  intros Hl Hn. unfold step_frames.
  apply ends_bind; [apply ends_machine; apply mk_charge|]. intros [] m1 Hc Hs1.
  unfold run_machine in Hc. injection Hc as Hc. apply charge_potential in Hc as [Hp Hl1].
  assert (measure m1 < n) as Hn1 by (unfold measure in *; rewrite Hl1; lia).
  assert (loading_ok (loading_modules m1)) as Hok1 by (by rewrite Hl1).
  destruct frames as [|frame callers]; [done|]. destruct (_ !! _) as [b|]; [|done].
  destruct (Op.from_byte b) as [op|]; [|done].
  destruct (execute_op _ _ _) as [[request s]|d] eqn:Eop; [|done].
  apply (closed_execute_op session (@keeps _ spends) (@keeps _ (on_st_machine spends))) in Eop. unfold on_st_machine in Eop; cbn in Eop.
  assert (∀ o, ends (st_machine s) o → @ends Step m1 o) as Hshift.
  { intros [[[a m']|]| |]; cbn; try done. intros. by etrans. }
  apply Hshift.
  assert (loading_ok (loading_modules (st_machine s))) as Hok2 by (by rewrite (proj2 Eop)).
  assert (measure (st_machine s) < n) as Hn2 by (apply measure_spends in Eop; lia).
  apply ends_bind; [by apply ends_request|]. intros step m3 _ Hs3.
  apply ends_bind; [apply ends_machine, (closed_dispatch (@keeps _ spends))|]. intros [frames|st] m4 _ Hs4; [|apply ends_ret].
  destruct (stack_exceeded frames); [done|].
  apply (ends_rec (Frames frames) (st_machine s)); [by etrans|done|done].
Qed.

Lemma ends_load_imports imports env m :
  loading_ok (loading_modules m) → measure m < n → ends m (load_imports rec imports env m).
Proof.
  revert m; induction imports as [|import imports IH]; intros m Hl Hn; cbn [load_imports]; [apply ends_ret|].
  apply ends_bind; [by apply (Hrec (LoadModule (import_target _)))|]. intros [inst|request] m' _ Hs; [|apply ends_ret].
  apply ends_bind; [apply ends_machine, (closed_bind_projection (@keeps _ spends))|]. intros _ m'' _ Hs'.
  apply IH; [by rewrite (proj2 Hs'), (proj2 Hs)|].
  apply measure_spends in Hs, Hs'. lia.
Qed.

Lemma ends_run_init init env m :
  loading_ok (loading_modules m) → measure m < n → ends m (run_init rec init env m).
Proof.
  intros Hl Hn. unfold run_init. destruct init as [chunk|]; [|apply ends_ret].
  apply ends_bind; [by apply (Hrec (Frames _))|]. intros [] m' _ _; apply ends_ret.
Qed.

Lemma define_functions_machine env fns m :
  potential (define_functions env fns m) = potential m ∧
  loading_modules (define_functions env fns m) = loading_modules m.
Proof.
  unfold define_functions. revert m; induction fns as [|e fns IH]; intros m; cbn; [done|].
  destruct (IH (set_environments (env_define env e.1 (RClosure e.2 env) (environments m)) m)) as [-> ->].
  done.
Qed.

(** While a module loads it occupies a place of the path, so there are fewer
    modules left to load; afterwards the path is as before. *)
Definition inside (m m' : Machine) (id : string) : Prop :=
  (potential m' ≤ potential m)%N ∧ loading_modules m' = id :: loading_modules m.

Lemma inside_spends id m m1 m2 : inside m m1 id → spends m1 m2 → inside m m2 id.
Proof. intros [Ha Hb] [Hc Hd]. split; [lia|congruence]. Qed.

Lemma inside_ready m m1 module :
  module ∈ art_modules (program session) → built_id module ∉ loading_modules m →
  loading_ok (loading_modules m) → measure m ≤ n → inside m m1 (built_id module) →
  loading_ok (loading_modules m1) ∧ measure m1 < n.
Proof.
  intros Hin Hfresh Hl Hn [Hp Hlm].
  assert (loading_ok (loading_modules m1)) as Hok.
  { rewrite Hlm. destruct Hl as [Hnd Hsub]. split; [by constructor|].
    intros x [->|Hx]%elem_of_cons; [|by apply Hsub]. apply list_elem_of_fmap. eauto. }
  split; [done|]. pose proof (loading_length _ Hok) as Hlen.
  unfold measure in *. rewrite Hlm in *. cbn in *. lia.
Qed.

(** Leaving the module, whatever it ends in. *)
Lemma ends_leave {A} m m1 id (e : ExecR A) :
  inside m m1 id → ends (pop_loading m1) (e (pop_loading m1)) → ends m (e (pop_loading m1)).
Proof.
  intros [Hp Hlm] He. destruct (e (pop_loading m1)) as [[[a m']|]| |]; cbn in *; try done.
  etrans; [|exact He]. split; [by cbn|]. cbn. by rewrite Hlm.
Qed.

(** [ends_bind] inside the module. *)
Lemma ends_bind_inside {A B} (e : ExecR A) (f : A → ExecR B) m m1 id :
  inside m m1 id → ends m1 (e m1) →
  (∀ a m', inside m m' id → ends m (f a m')) → ends m ((e ≫= f) m1).
Proof.
  intros Hi He Hf. unfold mbind, exec_bind. destruct (e m1) as [[[a m']|d]| |]; cbn in *; try done.
  apply Hf. by eapply inside_spends.
Qed.

Lemma ends_load_body module m :
  module ∈ art_modules (program session) → built_id module ∉ loading_modules m →
  loading_ok (loading_modules m) → measure m ≤ n → ends m (load_module_body rec module m).
Proof.
  intros Hin Hfresh Hl Hn. unfold load_module_body, mbind at 1, exec_bind at 1, run_machine at 1.
  cbn [enter_module env_root].
  set (m1 := set_loading _ _). assert (inside m m1 (built_id module)) as Hi by done. clearbody m1.
  pose proof (λ m1, inside_ready m m1 module Hin Hfresh Hl Hn) as Hready.
  eapply ends_bind_inside; [exact Hi|apply ends_load_imports; by apply Hready|].
  intros [request|] m2 Hi2; [by eapply (ends_leave _ _ _ (mret (M := ExecR) _) Hi2), ends_ret|].
  eapply ends_bind_inside; [exact Hi2|apply ends_run_init; by apply Hready|].
  intros [request|] m3 Hi3; [by eapply (ends_leave _ _ _ (mret (M := ExecR) _) Hi3), ends_ret|].
  destruct Hi3 as [Hp3 Hl3]. unfold mbind, exec_bind, run_machine, finish_module, modify; cbn.
  destruct (define_functions_machine (length (environments m)) (built_functions module) m3) as [Hp Hlm].
  split; [unfold potential in *; cbn in *; lia|]. cbn. by rewrite Hlm, Hl3.
Qed.

Lemma ends_load_module id m :
  loading_ok (loading_modules m) → measure m ≤ n → ends m (load_module session rec id m).
Proof.
  intros Hl Hn. unfold load_module. destruct (BTree.get _ _); [apply (ends_ret (Ready _))|].
  destruct (existsb _ _) eqn:Efresh; [done|]. destruct (find _ _) as [module|] eqn:Efind; [|done].
  apply find_some in Efind as [Hin Hid%String.eqb_eq]. apply ends_load_body; try done.
  - by apply list_elem_of_In.
  - intros Hloading. rewrite <- not_true_iff_false in Efresh. apply Efresh, existsb_exists.
    exists (built_id module). split; [by apply list_elem_of_In|]. by apply String.eqb_eq.
Qed.
End steps.

(** The step budget is never what ends a loop. *)
Lemma exec_ends steps t m :
  loading_ok (loading_modules m) → measure m < steps → ends m (exec session steps t m).
Proof.
  revert t m; induction steps as [|steps IH]; intros t m Hl Hm; [lia|].
  destruct t as [frames|id]; cbn [exec].
  - apply (ends_step_frames _ steps); [apply IH|done|lia].
  - apply (ends_load_module _ steps); [apply IH|done|lia].
Qed.

(** ** More steps change nothing *)

Definition approximates {A} (o o' : outcome A) : Prop := o = OutOfSteps ∨ o = o'.

Lemma approximates_refl {A} (o : outcome A) : approximates o o.
Proof. by right. Qed.
#[local] Hint Resolve approximates_refl : core.

Lemma approximates_bind {A B} (e e' : ExecR A) (f f' : A → ExecR B) m :
  approximates (e m) (e' m) → (∀ a m', approximates (f a m') (f' a m')) →
  approximates ((e ≫= f) m) ((e' ≫= f') m).
Proof.
  intros He Hf. unfold mbind, exec_bind. destruct He as [->| ->]; [by left|].
  destruct (e' m) as [[[a m']|]| |]; auto.
Qed.

Section monotone.
Context (rec rec' : ∀ t : Task, ExecR (Answer t)).
Hypothesis Hrec : ∀ t m, approximates (rec t m) (rec' t m).

Lemma approximates_step_frames frames m :
  approximates (step_frames session rec frames m) (step_frames session rec' frames m).
Proof.
  unfold step_frames. apply approximates_bind; [done|]. intros _ m1.
  destruct frames as [|frame callers]; [done|]. destruct (_ !! _) as [b|]; [|done].
  destruct (Op.from_byte b) as [op|]; [|done].
  destruct (execute_op _ _ _) as [[request s]|]; [|done].
  apply approximates_bind.
  - destruct request; try done. unfold run_request, import_root_module.
    destruct (find _ _); [|done]. apply approximates_bind; [apply (Hrec (LoadModule _))|done].
  - intros step m2. apply approximates_bind; [done|]. intros [frames|] m3; [|done].
    destruct (stack_exceeded frames); [done|]. apply (Hrec (Frames frames)).
Qed.

Lemma approximates_load_imports imports env m :
  approximates (load_imports rec imports env m) (load_imports rec' imports env m).
Proof.
  revert m; induction imports as [|import imports IH]; intros m; [done|]. cbn [load_imports].
  apply approximates_bind; [apply (Hrec (LoadModule _))|]. intros [inst|] m1; [|done].
  apply approximates_bind; [done|]. intros _ m2. apply IH.
Qed.

Lemma approximates_load_module id m :
  approximates (load_module session rec id m) (load_module session rec' id m).
Proof.
  unfold load_module. destruct (BTree.get _ _); [done|]. destruct (existsb _ _); [done|].
  destruct (find _ _) as [module|]; [|done]. unfold load_module_body.
  apply approximates_bind; [done|]. intros env m1.
  apply approximates_bind; [apply approximates_load_imports|]. intros [] m2; [done|].
  apply approximates_bind; [|intros [] m3; done].
  unfold run_init. destruct (built_init module); [|done].
  apply approximates_bind; [apply (Hrec (Frames _))|done].
Qed.
End monotone.

Lemma exec_approximates steps more t m :
  approximates (exec session steps t m) (exec session (steps + more) t m).
Proof.
  revert t m; induction steps as [|steps IH]; intros t m; [by left|].
  destruct t as [frames|id]; cbn [exec Nat.add].
  - apply approximates_step_frames, IH.
  - apply approximates_load_module, IH.
Qed.

(** *** Whole executions *)

Lemma run_program_ends steps input m :
  loading_modules m = [] → measure m < steps → ends m (run_program session steps input m).
Proof.
  intros Hl Hm.
  assert (∀ m', spends m m' → loading_ok (loading_modules m') ∧ measure m' < steps) as Hok.
  { intros m' Hs. split; [|apply measure_spends in Hs; lia]. rewrite (proj2 Hs), Hl.
    split; [constructor|set_solver]. }
  unfold run_program. apply ends_bind; [by apply (exec_ends _ (Frames _)); apply Hok|].
  intros [bootstrap|request] m1 _ Hs1; [|apply ends_ret].
  apply ends_bind; [apply ends_machine, (closed_entry_frame session (@keeps _ spends))|]. intros frame m2 _ Hs2.
  apply ends_bind; [apply (exec_ends _ (Frames _)); apply Hok; by etrans|].
  intros [value|request] m3 _ _; [|apply ends_ret].
  apply ends_bind; [apply ends_machine, (closed_complete (@keeps _ spends))|]. intros; apply ends_ret.
Qed.

Lemma run_program_approximates steps more input m :
  approximates (run_program session steps input m) (run_program session (steps + more) input m).
Proof.
  unfold run_program. apply approximates_bind; [apply (exec_approximates _ _ (Frames _))|].
  intros [bootstrap|request] m1; [|done]. apply approximates_bind; [done|]. intros frame m2.
  apply approximates_bind; [apply (exec_approximates _ _ (Frames _))|]. done.
Qed.

Lemma potential_new root consumed : potential (machine_new root consumed) = DEFAULT_FUEL.
Proof. unfold potential, machine_new; cbn [fuel replay_credit]. lia. Qed.

Lemma step_budget_enough root consumed : measure (machine_new root consumed) < step_budget session.
Proof.
  unfold measure, step_budget, module_ids. rewrite potential_new, length_map.
  change (loading_modules (machine_new root consumed)) with (@nil string).
  generalize (N.to_nat DEFAULT_FUEL). cbn. lia.
Qed.

Lemma run_program_bounded steps limit input m :
  loading_modules m = [] → measure m < steps → potential m = limit →
  let run := run_program session steps input m in
  match run with
  | Finished (Ok (_, m')) => (fuel m' + replay_credit m' ≤ limit)%N ∧ loading_modules m' = []
  | Finished (Err _) => True
  | NameCycle env callee scopes => ∀ depth, resolve_callee depth env callee scopes = None
  | OutOfSteps => False
  end ∧
  ∀ more, run_program session (steps + more) input m = run.
Proof.
  intros Hm Hsteps Hpot run. assert (ends m run) as Hends by (by apply run_program_ends). split.
  - destruct run as [[[r m']|]| |]; try done. destruct Hends as [Hp Hl]. split; [|congruence].
    rewrite <- Hpot. exact Hp.
  - intros more. destruct (run_program_approximates steps more input m) as [E|E]; [|by symmetry].
    fold run in E. by rewrite E in Hends.
Qed.

(** ** Main results *)

(** C11: The interpreter stops, except on a name without end. From the state
    [run_with_fuel] starts in, whatever the program, input, recorded responses
    and prior consumption, the loop and the module loader take no more steps
    than the fuel and the modules of the artifact allow: within that budget the
    run returns, with the fuel and replay credit left at most [DEFAULT_FUEL] and
    no module still loading, or it fails, or it has come to a call for which
    [call_value] never reaches a callee at any depth of its recursion, since the
    name leads from string to string for ever. A larger budget gives the same
    run. (A program that gets there: [name_cycle_reachable].) *)
Theorem run_program_terminates input consumed root :
  let m := machine_new root consumed in
  let run := run_program session (step_budget session) input m in
  match run with
  | Finished (Ok (_, m')) =>
      (fuel m' + replay_credit m' ≤ DEFAULT_FUEL)%N ∧ loading_modules m' = []
  | Finished (Err _) => True
  | NameCycle env callee scopes => ∀ depth, resolve_callee depth env callee scopes = None
  | OutOfSteps => False
  end ∧
  ∀ more, run_program session (step_budget session + more) input m = run.
Proof. apply run_program_bounded; [done|apply step_budget_enough|apply potential_new]. Qed.
End termination.

(** Late-bound callees: the budget [name_budget] decides nothing. When it
    yields no callee, no number of recursive calls of [call_value] would, so
    [NameCycle] stands for calls that recurse without end; and any depth at
    which the recursion does end, it ends in the callee the model uses. *)
Theorem resolve_callee_complete env callee s :
  (resolve_callee (name_budget s) env callee s = None ↔
     ∀ depth, resolve_callee depth env callee s = None) ∧
  (∀ depth, resolve_callee depth env callee s = None ∨
     resolve_callee depth env callee s = resolve_callee (name_budget s) env callee s).
Proof.
  split; [split; [|done]|].
  - intros Hb depth. by apply unresolved.
  - intros depth. destruct (resolve_callee depth env callee s) as [c|] eqn:E; [|by left].
    right. by apply resolve_budget in E as ->.
Qed.

(** A program whose entry calls its own input: [fn main(input) { input() }]. *)
Definition calls_its_input : Chunk :=
  mkChunk (map n2b [Op.discriminant Op.GetLocalSlot; 0; 0; Op.discriminant Op.Call; 0;
                    Op.discriminant Op.Return]%N)
    [] [] [] None [] [mkLocalSlotInfo "input" true 0] [] false.

Definition call_input_program : ProgramArtifact :=
  let entry := mkCompiledFunction "main" [] [] [mkParamSlot "input" None false] None
                 calls_its_input false false false false in
  mkProgramArtifact [] []
    (mkChunk (map n2b [Op.discriminant Op.Closure; 0; 0; Op.discriminant Op.Return]%N)
       [] [] [] None [entry] [] [] false)
    "main" EntryFunction false [] [].

(** A name cycle is reachable from a host's input alone: a verified program
    that calls its parameter [input] runs to the unknown-builtin diagnostic on
    the string "len!" but recurses without end on the string "input", which
    names the parameter itself. *)
Example name_cycle_reachable :
  validate_code (chunk_code calls_its_input) (mkCodeTables [] 0 1 0) = Ok tt ∧
  @start sample_floats sample_platform sample_serde call_input_program (DString "len!") grant_pure
    = Some (Failed (diagnostic unsupported_builtin)) ∧
  @start sample_floats sample_platform sample_serde call_input_program (DString "input") grant_pure
    = None.
Proof. split_and!; vm_compute; reflexivity. Qed.
