(* ===== verification/Gate.v ===== *)
(** * The capability gate ([Machine::call_method], [execute_frames])

    An execution leaves the kernel only by suspending with a request. This file
    follows a request from the one place that makes it, [call_capability], through
    the instructions, the loop and the loader to the host: it carries what the
    gate checked, and it was made after all recorded responses were used. *)

From Stdlib Require Import Strings.String.
From S2P Require Import Prelude BTree Opcode Program Verifier Linker Reader Artifact Float64.
From S2P Require Import Semantics Values Resource Text Arith Ops TypeContract Json Regex Host Env.
From S2P Require Import Snapshot Machine Methods Builtins Execute Run Effects.

(** ** What operations end in *)

(** Whenever [op] succeeds, [R] holds of its value and the state after. *)
Definition ends_in {S A} (R : A → S → Prop) (op : StateR S A) : Prop :=
  ∀ s a t, op s = Ok (a, t) → R a t.

Lemma ends_in_ret {S A} (R : A → S → Prop) a : (∀ s, R a s) → ends_in R (mret a).
Proof. by intros HR s b t [= <- <-]. Qed.

Lemma ends_in_fail {S A} (R : A → S → Prop) c : ends_in R (fail c).
Proof. done. Qed.

Lemma ends_in_fail_with {S A} (R : A → S → Prop) d : ends_in R (fail_with d).
Proof. done. Qed.

Lemma ends_in_bind {S A B} (R : B → S → Prop) (op : StateR S A) (f : A → StateR S B) :
  (∀ a, ends_in R (f a)) → ends_in R (op ≫= f).
Proof.
  intros Hf s b u H. unfold mbind, state_bind in H. destruct (op s) as [[a t]|]; [|done].
  by eapply Hf.
Qed.

Section authorised.
Context `{Platform}.

(** What the gate guarantees of a request: the registry has a portable contract
    for the operation, the grants allow it, the arguments fit the contract in
    number and type and respect the resource limits, and the identifier is the
    hash of the request. *)
Definition authorised (artifact : ProgramArtifact) (grants : GrantSet) (r : CapabilityRequest) : Prop :=
  ∃ contract values ordinal,
    capability_method_entry (req_capability r) (req_operation r) = Some contract ∧
    manifest_signature_is_portable contract = true ∧
    allows grants (req_capability r) (req_operation r) = true ∧
    req_arguments r = DList values ∧
    capability_arity_ok contract (len values) = true ∧
    capability_arguments_ok contract 0 values = true ∧
    validate_data_value (req_arguments r) = Ok tt ∧
    req_expected r = ValueShape.from_type (sig_returns contract) ∧
    req_id r = request_id (art_digest artifact) ordinal (req_capability r)
                 (req_operation r) (req_arguments r).
End authorised.

Section gate.
Context `{FloatLib, Platform, SnapshotSerde} (session : Session).

(** A request that may leave the kernel in state [m]. *)
Definition released (r : CapabilityRequest) (m : Machine) : Prop :=
  authorised (program session) (session_grants session) r ∧ length (responses session) ≤ response_cursor m.

Definition step_released (s : OpStep) (m : Machine) : Prop :=
  match s with Suspend r => released r m | _ => True end.

(** ** Operations *)

Ltac ends_walk :=
  repeat lazymatch goal with
  | |- ends_in _ (mret _) => apply ends_in_ret; intros; exact I
  | |- ends_in _ (fail _) => apply ends_in_fail
  | |- ends_in _ (fail_with _) => apply ends_in_fail_with
  | |- ends_in _ (_ ≫= _) => apply ends_in_bind; intros
  | |- ends_in _ (if ?b then _ else _) => destruct b
  | |- ends_in _ (match ?x with _ => _ end) => destruct x
  | |- _ => solve [eauto 1]
  end.

Lemma ends_push_charged v : ends_in step_released (push_charged v).
Proof. unfold push_charged. ends_walk. Qed.
Lemma ends_push_value v : ends_in step_released (push_value v).
Proof. unfold push_value. ends_walk. Qed.
#[local] Hint Resolve ends_push_charged ends_push_value : core.

Lemma ends_method_mutate v method args : ends_in step_released (method_mutate v method args).
Proof. unfold method_mutate. ends_walk. Qed.
Lemma ends_value_method v method args : ends_in step_released (value_method v method args).
Proof. unfold value_method, list_method, string_method, record_method, record_get. ends_walk. Qed.
#[local] Hint Resolve ends_method_mutate ends_value_method : core.

Lemma ends_builtin_arm b args op : builtin_arm b args = Some op → ends_in step_released op.
Proof.
  unfold builtin_arm, pick_builtin, render_to_string, regex_match_builtin, regex_replace_builtin,
    regex_captures_builtin, regex_split_builtin, secret_scan_builtin, push_json, push_strings,
    regex_result, runtime_error.
  intros Hop. destruct b; repeat (match type of Hop with context [match ?x with _ => _ end] =>
    is_var x; destruct x end; try discriminate Hop);
    injection Hop as <-; ends_walk.
Qed.

Lemma ends_call_builtin name args : ends_in step_released (call_builtin name args).
Proof.
  unfold call_builtin. apply ends_in_bind; intros _.
  destruct (PortableBuiltin.from_name name) as [b|]; [|unfold runtime_error; ends_walk].
  destruct (builtin_arm b args) eqn:E; cbn [default]; [by eapply ends_builtin_arm|].
  apply ends_in_fail.
Qed.

(** The gate. *)
Lemma ends_call_capability capability method args :
  ends_in step_released (call_capability session capability method args).
Proof.
  intros m step m' Hrun. unfold call_capability, mbind, state_bind, lift in Hrun.
  destruct (capability_arguments _ _ _ _) as [[contract arguments]|] eqn:Hargs; [|done].
  unfold get, modify in Hrun. cbn in Hrun.
  destruct (responses session !! response_cursor m) as [response|] eqn:Hr.
  - destruct (negb _); [done|]. unfold capability_response in Hrun. destruct response.
    + destruct (matches_manifest_type _ _); [|done]. by apply ends_push_charged in Hrun.
    + unfold mbind, state_bind in Hrun. destruct (charge_value_work _ _) as [[]|]; [|done].
      by injection Hrun as <- <-.
  - injection Hrun as <- <-. split; [|by apply lookup_ge_None].
    unfold capability_arguments in Hargs. inv_result.
    repeat match goal with H : negb _ = false |- _ => apply negb_false_iff in H end.
    match goal with H : result_map _ _ = Ok ?vs |- _ => exists contract, vs, (request_ordinal m);
      apply result_map_length in H as Hlen end.
    cbn. split_and!; try done; [unfold len in *; by rewrite Hlen|by eapply check_capability_arguments_ok|].
    match goal with H : validate_data_value _ = Ok ?u |- _ => by destruct u end.
Qed.

Lemma ends_call_method receiver method args :
  ends_in step_released (call_method session call_builtin receiver method args).
Proof.
  unfold call_method. apply ends_in_bind; intros _. pose proof ends_call_builtin.
  pose proof ends_call_capability. destruct receiver; ends_walk.
Qed.

(** ** Instructions *)

Definition request_released (r : OpRequest) (s : State) : Prop :=
  match r with Stepped step => step_released step (st_machine s) | _ => True end.

Lemma ends_stepped (op : MachineR OpStep) :
  ends_in step_released op → ends_in request_released (step ← on_machine op; stepped step).
Proof.
  intros Hop s r t Hrun. unfold mbind, state_bind, on_machine in Hrun.
  destruct (op (st_machine s)) as [[step m]|] eqn:E; [|done]. injection Hrun as <- <-.
  by apply Hop in E.
Qed.

Lemma ends_return : ends_in request_released op_return.
Proof.
  intros s r t Hrun. unfold op_return in Hrun. by destruct (fr_stack _); injection Hrun as <- <-.
Qed.

Ltac ends_op :=
  repeat lazymatch goal with
  | |- ends_in _ (on_machine _ ≫= stepped) => apply ends_stepped
  | |- ends_in _ (on_machine (call_method _ _ _ _ _) ≫= _) => apply ends_stepped, ends_call_method
  | |- ends_in _ (on_machine (call_builtin _ _) ≫= _) => apply ends_stepped, ends_call_builtin
  | |- ends_in _ (_ ≫= _) => apply ends_in_bind; intros
  | |- ends_in _ (mret _) => apply ends_in_ret; intros; exact I
  | |- ends_in _ (fail _) => apply ends_in_fail
  | |- ends_in _ (lift ?r) => destruct r
  | |- ends_in _ (if ?b then _ else _) => destruct b
  | |- ends_in _ (match ?x with _ => _ end) => destruct x
  | |- ends_in _ op_return => apply ends_return
  | |- ends_in _ (invalid_index_error _ _) => done
  end.

Lemma ends_execute_op op : ends_in request_released (execute_op session op).
Proof.
  destruct op; cbn [execute_op]; unfold_ops; ends_op.
Qed.

(** ** The loop and the loader *)

Definition leaves {A} (R : A → Machine → Prop) (o : outcome A) : Prop :=
  ∀ a m, o = Finished (Ok (a, m)) → R a m.

Lemma leaves_ret {A} (R : A → Machine → Prop) a m : R a m → leaves R (mret (M := ExecR) a m).
Proof. by intros HR b m' [= <- <-]. Qed.

Lemma leaves_fail {A} (R : A → Machine → Prop) c m : leaves R (exec_fail c m).
Proof. done. Qed.

Lemma leaves_bind {A B} (R : A → Machine → Prop) (R' : B → Machine → Prop)
    (e : ExecR A) (f : A → ExecR B) m :
  leaves R (e m) → (∀ a m', R a m' → leaves R' (f a m')) → leaves R' ((e ≫= f) m).
Proof.
  intros He Hf. unfold mbind, exec_bind. destruct (e m) as [[[a m']|]| |]; try done.
  by apply Hf, He.
Qed.

Lemma leaves_machine {A} (R : A → Machine → Prop) (op : MachineR A) m :
  ends_in R op → leaves R (run_machine op m).
Proof. intros Hop a m' [= H']. by eapply Hop. Qed.

Definition anything {A} : A → Machine → Prop := λ _ _, True.

Lemma leaves_anything {A} (o : outcome A) : leaves anything o.
Proof. done. Qed.
#[local] Hint Resolve leaves_anything leaves_ret leaves_fail : core.

Definition answer_released (t : Task) : Answer t → Machine → Prop :=
  match t with
  | Frames _ => λ s m, match s with Suspended_ r => released r m | _ => True end
  | LoadModule _ => λ s m, match s with ModuleSuspend r => released r m | _ => True end
  end.
Definition load_released (o : option CapabilityRequest) (m : Machine) : Prop :=
  match o with Some r => released r m | None => True end.
Definition next_released (n : Next) (m : Machine) : Prop :=
  match n with NextStep (Suspended_ r) => released r m | _ => True end.
Definition result_released (r : RunResult) (m : Machine) : Prop :=
  match r with RunSuspended r => released r m | _ => True end.

Lemma leaves_call_value env callee args tail m :
  leaves step_released (call_value session env callee args tail m).
Proof.
  unfold call_value. destruct (resolve_callee _ _ _ _) as [[value|name]|]; [|apply leaves_machine, ends_call_builtin|done].
  destruct value; try done; [by intros a m' [= <- <-]| |];
    apply leaves_machine; first [apply ends_call_builtin|apply ends_call_method].
Qed.

Lemma leaves_dispatch step frames m :
  step_released step m → leaves next_released (run_machine (dispatch step frames) m).
Proof.
  intros Hs. destruct step as [| | | |request| |]; cbn [dispatch].
  5: { intros n m' Hn. injection Hn as <- <-. exact Hs. }
  all: apply leaves_machine; unfold throw; ends_op. apply ends_in_fail_with.
Qed.

Section steps.
Context (rec : ∀ t : Task, ExecR (Answer t)).
Hypothesis Hrec : ∀ t m, leaves (answer_released t) (rec t m).

Lemma leaves_request request env m :
  (∀ step, request = Stepped step → step_released step m) →
  leaves step_released (run_request session rec request env m).
Proof.
  intros Hr. destruct request as [step|callee args tail|import]; cbn [run_request];
    [by apply leaves_ret, Hr|apply leaves_call_value|].
  unfold import_root_module. destruct (find _ _) as [spec|]; [|done].
  eapply (leaves_bind (answer_released (LoadModule (import_target spec))));
    [apply (Hrec (LoadModule _))|]. intros [inst|r] m' Ha; [|by apply leaves_ret].
  apply (leaves_bind anything); [done|]. intros _ m2 _. by apply leaves_ret.
Qed.

Lemma leaves_step_frames frames m :
  leaves (answer_released (Frames frames)) (step_frames session rec frames m).
Proof.
  unfold step_frames. apply (leaves_bind anything); [done|]. intros _ m1 _.
  destruct frames as [|frame callers]; [done|]. destruct (_ !! _) as [b|]; [|done].
  destruct (Op.from_byte b) as [op|]; [|done].
  destruct (execute_op _ _ _) as [[request s]|] eqn:E; [|done]. apply ends_execute_op in E.
  apply (leaves_bind step_released).
  { apply leaves_request. by intros step ->. }
  intros step m2 Hs. apply (leaves_bind next_released); [by apply leaves_dispatch|].
  intros [next|step'] m3 Hn; [|by apply leaves_ret].
  destruct (stack_exceeded next); [done|apply (Hrec (Frames next))].
Qed.

Lemma leaves_load_imports imports env m : leaves load_released (load_imports rec imports env m).
Proof.
  revert m; induction imports as [|import imports IH]; intros m; cbn [load_imports]; [by apply leaves_ret|].
  apply (leaves_bind (answer_released (LoadModule (import_target import))));
    [apply (Hrec (LoadModule _))|]. intros [inst|r] m' Ha; [|by apply leaves_ret].
  apply (leaves_bind anything); [done|]. intros _ m2 _. apply IH.
Qed.

Lemma leaves_run_init init env m : leaves load_released (run_init rec init env m).
Proof.
  unfold run_init. destruct init as [chunk|]; [|by apply leaves_ret].
  apply (leaves_bind (answer_released (Frames [frame_new chunk env []])));
    [apply (Hrec (Frames _))|]. intros [value|r] m' Ha; by apply leaves_ret.
Qed.

Lemma leaves_load_module id m :
  leaves (answer_released (LoadModule id)) (load_module session rec id m).
Proof.
  unfold load_module. destruct (BTree.get _ _); [by intros a m' [= <- <-]|].
  destruct (existsb _ _); [done|]. destruct (find _ _) as [module|]; [|done]. unfold load_module_body.
  apply (leaves_bind anything); [done|]. intros env m1 _.
  apply (leaves_bind load_released); [apply leaves_load_imports|].
  intros [r|] m2 Ha; [by intros a m' [= <- <-]|].
  apply (leaves_bind load_released); [apply leaves_run_init|].
  intros [r|] m3 Hb; [by intros a m' [= <- <-]|].
  apply (leaves_bind anything); [done|]. intros inst m4 _. by apply leaves_ret.
Qed.
End steps.

Lemma leaves_exec steps t m : leaves (answer_released t) (exec session steps t m).
Proof.
  revert t m; induction steps as [|steps IH]; intros t m; [done|].
  destruct t; cbn [exec]; [by apply leaves_step_frames|by apply leaves_load_module].
Qed.

Lemma leaves_run_program steps input m :
  leaves result_released (run_program session steps input m).
Proof.
  unfold run_program.
  eapply leaves_bind; [apply (leaves_exec _ (Frames _))|]. intros [bootstrap|r] m1 Ha; [|by apply leaves_ret].
  apply (leaves_bind anything); [done|]. intros frame m2 _.
  eapply leaves_bind; [apply (leaves_exec _ (Frames _))|]. intros [value|r] m3 Hb; [|by apply leaves_ret].
  apply (leaves_bind anything); [done|]. intros data m4 _. by apply leaves_ret.
Qed.
End gate.

(** ** Main results *)

Section results.
Context `{FloatLib, Platform, SnapshotSerde}.

Lemma run_with_fuel_released session input consumed request snapshot :
  run_with_fuel session input consumed = Some (Suspended request snapshot) →
  authorised (program session) (session_grants session) request ∧
  is_Some (snapshot_key (session_grants session)).
Proof.
  unfold run_with_fuel, run_with_steps. destruct (validate_inputs _ _); [|done].
  destruct (run_program _ _ _ _) as [[[[value|r] m]|]| |] eqn:E; try done. unfold suspend.
  destruct (snapshot_key _) as [key|]; [|done]. destruct (encode_snapshot _ _); [|done].
  intros [= -> _]. apply leaves_run_program in E as [Ha _]. split; [exact Ha|eauto].
Qed.

(** C4: Nothing leaves the kernel unauthorised: whenever an execution started,
    replayed or resumed under some grants suspends with a request, the grants
    allow its operation, the registry has a portable contract for it that the
    arguments fit in number, type and size, and its identifier is the hash of
    program, ordinal, operation and arguments. Without grants, or without a
    snapshot key, nothing ever leaves. *)
Theorem requests_are_authorised artifact grants request snapshot :
  (∀ input, start artifact input grants = Some (Suspended request snapshot) →
     authorised artifact grants request) ∧
  (∀ input responses, replay artifact input grants responses = Some (Suspended request snapshot) →
     authorised artifact grants request) ∧
  (∀ earlier response, resume artifact earlier response grants = Some (Suspended request snapshot) →
     authorised artifact grants request) ∧
  (Host.grants grants = [] ∨ snapshot_key grants = None →
     ∀ input responses, replay artifact input grants responses ≠ Some (Suspended request snapshot)).
Proof.
  split_and!.
  - intros input Hrun. by apply run_with_fuel_released in Hrun as [Ha _].
  - intros input responses Hrun. by apply run_with_fuel_released in Hrun as [Ha _].
  - intros earlier response Hrun. unfold resume in Hrun. destruct (decode_snapshot _ _); [|done].
    destruct (negb _); [done|]. destruct (negb _); [done|]. destruct (negb _); [done|].
    by apply run_with_fuel_released in Hrun as [Ha _].
  - intros Hg input responses Hrun. apply run_with_fuel_released in Hrun as [Ha Hk].
    destruct Hg as [Hg|Hg]; cbn in Hk; [|by rewrite Hg in Hk; destruct Hk].
    destruct Ha as (c & vs & n & _ & _ & Hallow & _). unfold allows in Hallow. cbn in Hallow. by rewrite Hg in Hallow.
Qed.
End results.

(** A program whose entry asks for the time: [fn main(harness) { harness.clock.now() }]. *)
Definition asks_the_time : Chunk :=
  mkChunk (map n2b [Op.discriminant Op.GetLocalSlot; 0; 0;
                    Op.discriminant Op.GetProperty; 0; 0;
                    Op.discriminant Op.MethodCall; 0; 1; 0; Op.discriminant Op.Return]%N)
    [Constant.String "clock"; Constant.String "now"] [] [] None []
    [mkLocalSlotInfo "harness" true 0; mkLocalSlotInfo "input" true 0] [] false.

Definition clock_program : ProgramArtifact :=
  let parameter name := mkParamSlot name None false in
  let entry := mkCompiledFunction "main" [] [] [parameter "harness"%string; parameter "input"%string]
                 None asks_the_time false false false false in
  mkProgramArtifact [] []
    (mkChunk (map n2b [Op.discriminant Op.Closure; 0; 0; Op.discriminant Op.Return]%N)
       [] [] [] None [entry] [] [] false)
    "main" EntryFunction true [] [].

Definition clock_grants : GrantSet := mkGrantSet [("clock.now"%string, tt)] (Some [n2b 9]).

Definition clock_request : CapabilityRequest :=
  mkCapabilityRequest
    (@request_id sample_platform [] 0 "clock" "now" (DList [])) "clock" "now" (DList [])
    (ValueShape.from_type (Ty.Named "int")).

Lemma requests_are_authorised_witness :
  @authorised sample_platform clock_program clock_grants clock_request.
Proof.
  destruct (@requests_are_authorised sample_floats sample_platform sample_serde clock_program
    clock_grants clock_request (@snapshot_frame sample_platform [n2b 9] [n2b 5])) as (Hstart & _).
  apply (Hstart (DInt 1)). vm_compute. reflexivity.
Defined.
