(* ===== verification/Replay.v ===== *)
(** * Durable executions ([suspend], [resume])

    A suspended execution is not saved, it is run again: [resume] replays the
    recorded responses from the start, crediting the fuel the earlier run spent.
    This file shows that nothing of that can be observed: operations do not see
    how what is left is split into fuel and credit, an execution with one more
    response goes exactly the way of the shorter one up to its suspension, and so
    any conversation of suspensions and resumptions is one replay. *)

From Stdlib Require Import Strings.String.
From S2P Require Import Prelude BTree Opcode Program Verifier Linker Reader Artifact Float64.
From S2P Require Import Semantics Values Resource Text Arith Ops TypeContract Json Regex Host Env.
From S2P Require Import Snapshot Machine Methods Builtins Execute Run Effects Termination Gate.

(** ** Properties of runs *)

(** [Closed], one level up: a property [E] of the loop and the loader that
    follows from a property [P] of the operations they are made of. *)
Class RunClosed (P : ∀ A, MachineR A → Prop) (Q : ∀ A, FrameR A → Prop)
    (E : ∀ A, ExecR A → Prop) := {
  run_frame_closed :: FrameClosed P Q;
  run_on_machine A (op : MachineR A) : P A op → E A (run_machine op);
  run_bind A B (e : ExecR A) (f : A → ExecR B) : E A e → (∀ a, E B (f a)) → E B (e ≫= f);
  run_get A (f : Machine → ExecR A) :
    (∀ m k c, f (set_fuel k c m) = f m) → (∀ m, E A (f m)) → E A (λ m, f m m);
  run_stuck A (o : outcome A) : (o = OutOfSteps ∨ ∃ env callee scopes, o = NameCycle env callee scopes) → E A (λ _, o);
  run_instruction A B (op : FrameR A) frame (k : A → Frame → ExecR B) :
    Q A op → (∀ a frame, E B (k a frame)) →
    E B (λ m, match op (mkState frame m) with
              | Err d => Finished (Err d)
              | Ok (a, s) => k a (st_frame s) (st_machine s)
              end);
  run_enter module : E EnvId (run_machine (enter_module module));
  run_pop : E unit (run_machine (modify pop_loading));
  run_finish module env : E ModuleInstance (run_machine (finish_module module env))
}.

Section run_closed.
Context `{FloatLib, Platform, SnapshotSerde} (session : Session).
Context P Q E `{!RunClosed P Q E}.
#[local] Arguments E {A}.

Lemma run_ret {A} (a : A) : E (mret a).
Proof. exact (run_on_machine (E := @E) _ _ (closed_quiet (P := P) _ _ (quiet_ret a))). Qed.

Lemma run_fail {A} c : E (exec_fail (A := A) c).
Proof. exact (run_on_machine (E := @E) _ _ (closed_quiet (P := P) _ _ (quiet_fail c))). Qed.

Ltac run_step :=
  lazymatch goal with
  | |- E _ (mret _) => apply run_ret
  | |- E (mret _) => apply run_ret
  | |- E (exec_fail _) => apply run_fail
  | |- E (run_machine _ ≫= _) => apply run_bind; [apply run_on_machine; try closed_known P|intros]
  | |- E (_ ≫= _) => apply run_bind; [|intros]
  | |- E (match ?x with _ => _ end) => destruct x
  end.

Lemma run_call_value env callee args tail : E (call_value session env callee args tail).
Proof.
  apply (run_get _ (λ m m', match resolve_callee (name_budget (environments m)) env callee (environments m) with
    | None => NameCycle env callee (environments m)
    | Some (Unbound name) => run_machine (call_builtin name args) m'
    | Some (Found callee) => match callee with
      | RClosure function closure_env => Finished (Ok (Call function closure_env args tail, m'))
      | RBuiltin name => run_machine (call_builtin name args) m'
      | RHarness _ => run_machine (call_method session call_builtin callee "call" args) m'
      | _ => exec_fail not_callable m' end end)); [done|].
  intros m. destruct (resolve_callee _ _ _ _) as [[value|name]|]; [|by apply run_on_machine; closed_walk_at P|].
  - destruct value; try apply (run_fail not_callable); [apply (run_ret (Call _ _ _ _))| |];
      apply run_on_machine; closed_walk_at P.
  - apply run_stuck. right. eauto.
Qed.

Section steps.
Context (rec : ∀ t : Task, ExecR (Answer t)).
Hypothesis Hrec : ∀ t, E (rec t).

Lemma run_import import env : E (import_root_module session rec import env).
Proof.
  unfold import_root_module. run_step; [|apply run_fail]. run_step; [apply (Hrec (LoadModule _))|].
  run_step; [|apply run_ret]. run_step; [apply (closed_bind_projection P)|apply run_ret].
Qed.

Lemma run_run_request request env : E (run_request session rec request env).
Proof. destruct request; [apply run_ret|apply run_call_value|apply run_import]. Qed.

Lemma run_step_frames frames : E (step_frames session rec frames).
Proof.
  unfold step_frames. run_step. destruct frames as [|frame callers]; [apply run_fail|].
  destruct (_ !! _); [|apply run_fail]. destruct (Op.from_byte _) as [op|]; [|apply run_fail].
  apply (run_instruction _ _ (execute_op session op) _ (λ request fr, (step ← run_request session rec request (fr_env fr);
     next ← run_machine (dispatch step (fr :: callers));
     match next with
     | NextStep step => mret step
     | NextFrames frames =>
         if stack_exceeded frames then exec_fail operand_stack_limit else rec (Frames frames)
     end))); [apply (closed_execute_op session P Q)|].
  intros request fr. run_step; [apply run_run_request|].
  run_step; [apply (closed_dispatch P)|].
  run_step; [|apply run_ret]. destruct (stack_exceeded _); [apply run_fail|apply (Hrec (Frames _))].
Qed.

Lemma run_load_imports imports env : E (load_imports rec imports env).
Proof.
  induction imports as [|import imports IH]; cbn [load_imports]; [apply run_ret|].
  run_step; [apply (Hrec (LoadModule _))|]. run_step; [|apply run_ret].
  run_step; [apply (closed_bind_projection P)|]. apply IH.
Qed.

Lemma run_run_init init env : E (run_init rec init env).
Proof.
  unfold run_init. run_step; [|apply run_ret]. run_step; [apply (Hrec (Frames _))|].
  run_step; apply run_ret.
Qed.

Lemma run_load_module id : E (load_module session rec id).
Proof.
  apply (run_get _ (λ m m', match BTree.get id (modules m) with
    | Some inst => Finished (Ok (Ready inst, m'))
    | None => if existsb (λ loading, String.eqb loading id) (loading_modules m)
        then exec_fail portable_import_cycle m'
        else match find (λ module, String.eqb (built_id module) id) (art_modules (program session)) with
          | None => exec_fail portable_import m'
          | Some module => load_module_body rec module m' end end)); [done|].
  intros m. destruct (BTree.get _ _) as [inst|]; [apply (run_ret (Ready inst))|].
  destruct (existsb _ _); [apply (run_fail portable_import_cycle)|].
  destruct (find _ _) as [module|]; [|apply (run_fail portable_import)].
  unfold load_module_body. apply run_bind; [apply run_enter|intros env].
  apply run_bind; [apply run_load_imports|intros [request|]].
  { apply run_bind; [apply run_pop|intros; apply run_ret]. }
  apply run_bind; [apply run_run_init|intros [request|]].
  { apply run_bind; [apply run_pop|intros; apply run_ret]. }
  apply run_bind; [apply run_finish|intros; apply run_ret].
Qed.
End steps.

Lemma run_exec steps t : E (exec session steps t).
Proof.
  revert t; induction steps as [|steps IH]; intros t.
  { exact (run_stuck (E := @E) _ _ (or_introl eq_refl)). }
  destruct t; cbn [exec]; [by apply run_step_frames|by apply run_load_module].
Qed.

Lemma run_run_program steps input : E (run_program session steps input).
Proof.
  unfold run_program. run_step; [apply (run_exec _ (Frames _))|]. run_step; [|apply run_ret].
  run_step; [apply (closed_entry_frame session P)|].
  run_step; [apply (run_exec _ (Frames _))|]. run_step; [|apply run_ret].
  run_step; [apply (closed_complete P)|]. apply run_ret.
Qed.
End run_closed.

(** ** Potential never grows, and credit goes first *)

Definition lowers (m m' : Machine) : Prop :=
  (potential m' ≤ potential m)%N ∧ fuel m' = N.min (fuel m) (potential m').

Lemma lowers_same m m' : fuel m' = fuel m → replay_credit m' = replay_credit m → lowers m m'.
Proof. intros Hf Hc. unfold lowers, potential. rewrite Hf, Hc. lia. Qed.

#[export] Instance lowers_preorder : PreOrder lowers.
Proof.
  split; [intros m; by apply lowers_same|].
  intros a b c [Hab Eab] [Hbc Ebc]. split; [lia|]. rewrite Ebc, Eab. lia.
Qed.

#[export] Instance lowers_keeps : MachineKeeps lowers.
Proof.
  split.
  - apply _.
  - intros n m a m'. unfold charge, lowers, potential.
    destruct (N.ltb_spec (fuel m) (n - N.min n (replay_credit m))); intros [= _ <-]. cbn. lia.
  - intros m m' [Hf Hc _ _]. by apply lowers_same.
Qed.

Lemma define_functions_fuel env fns m :
  fuel (define_functions env fns m) = fuel m ∧
  replay_credit (define_functions env fns m) = replay_credit m.
Proof.
  unfold define_functions. revert m; induction fns as [|e fns IH]; intros m; cbn; [done|].
  by destruct (IH (set_environments (env_define env e.1 (RClosure e.2 env) (environments m)) m)) as [-> ->].
Qed.

Definition descends (A : Type) (e : ExecR A) : Prop :=
  ∀ m a m', e m = Finished (Ok (a, m')) → lowers m m'.

#[export] Instance descends_closed :
  RunClosed (@keeps _ lowers) (@keeps _ (on_st_machine lowers)) descends.
Proof.
  split.
  - apply _.
  - intros A op Hop m a m' [= H]. by eapply Hop.
  - intros A B e f He Hf m b m'' H. unfold mbind, exec_bind in H.
    destruct (e m) as [[[a m']|]| |] eqn:E; try done.
    transitivity m'; [by eapply He|by eapply Hf].
  - intros A f _ Hf m a m' H. by eapply (Hf m).
  - intros A o [-> |(? & ? & ? & ->)]; done.
  - intros A B op frame k Hop Hk m b m' H. destruct (op _) as [[a s]|] eqn:E; [|done].
    transitivity (st_machine s); [by apply Hop in E|by eapply Hk].
  - intros module m env m' H. unfold run_machine, enter_module in H. cbn in H. injection H as _ <-.
    by apply lowers_same.
  - intros m a m' [= _ <-]. by apply lowers_same.
  - intros module env m inst m' H.
    unfold run_machine, finish_module, mbind, state_bind, modify, mret, state_ret in H.
    injection H as _ <-. destruct (define_functions_fuel env (built_functions module) m).
    by apply lowers_same.
Qed.

(** ** The split into fuel and credit *)

(** All potential as fuel: what [machine_new] starts a fresh run with. *)
Definition norm (m : Machine) : Machine := set_fuel (potential m) 0 m.
Definition norm_state (s : State) : State := mkState (st_frame s) (norm (st_machine s)).

Definition blind (A : Type) (op : MachineR A) : Prop := ∀ m, op (norm m) = on_result id norm (op m).
Definition frame_blind (A : Type) (op : FrameR A) : Prop :=
  ∀ s, op (norm_state s) = on_result id norm_state (op s).

Definition on_outcome {A} (g : Machine → Machine) (o : outcome A) : outcome A :=
  match o with
  | Finished r => Finished (on_result id g r)
  | NameCycle env callee scopes => NameCycle env callee scopes
  | OutOfSteps => OutOfSteps
  end.

Definition blind_run (A : Type) (e : ExecR A) : Prop := ∀ m, e (norm m) = on_outcome norm (e m).

Lemma blind_charge n : blind _ (charge n).
Proof.
  intros m. unfold charge, norm, potential; cbn [fuel replay_credit set_fuel].
  rewrite N.min_0_r, N.sub_0_r.
  destruct (N.ltb_spec (fuel m) (n - N.min n (replay_credit m)));
    destruct (N.ltb_spec (fuel m + replay_credit m) n); try lia; cbn; [done|].
  unfold set_fuel; cbn. do 3 f_equal; lia.
Qed.

#[export] Instance blind_closed : Closed blind.
Proof.
  split.
  - intros A op [Hop Hblind] m. unfold norm at 1. rewrite Hblind.
    destruct (op m) as [[a m']|d] eqn:E; [|done]. cbn. do 2 f_equal. unfold norm, potential.
    destruct (Hop _ _ _ E) as [-> -> _ _]. done.
  - apply blind_charge.
  - intros A B op f Hop Hf m. unfold mbind, state_bind. rewrite Hop.
    destruct (op m) as [[a m']|]; [|done]. apply Hf.
  - intros A f Hget Hf m. unfold mbind, state_bind, get.
    change (f (set_fuel (potential m) 0 m) (norm m) = on_result id norm (f m m)).
    rewrite Hget. apply Hf.
Qed.

#[export] Instance blind_frame_closed : FrameClosed blind frame_blind.
Proof.
  split.
  - apply _.
  - intros A op Hop s. unfold on_machine, norm_state; cbn. rewrite Hop. by destruct (op _) as [[]|].
  - intros A op [g Hg] s. rewrite !Hg. cbn. by destruct (g _) as [[]|].
  - intros A B op f Hop Hf s. unfold mbind, state_bind. rewrite Hop.
    destruct (op s) as [[a t]|]; [|done]. apply Hf.
Qed.

Lemma define_functions_norm env fns m :
  define_functions env fns (norm m) = norm (define_functions env fns m).
Proof.
  unfold define_functions. revert m; induction fns as [|e fns IH]; intros m; cbn; [done|].
  apply (IH (set_environments (env_define env e.1 (RClosure e.2 env) (environments m)) m)).
Qed.

#[export] Instance blind_run_closed : RunClosed blind frame_blind blind_run.
Proof.
  split.
  - apply _.
  - intros A op Hop m. unfold run_machine. by rewrite Hop.
  - intros A B e f He Hf m. unfold mbind, exec_bind. rewrite He.
    destruct (e m) as [[[a m']|]| |]; try done. apply Hf.
  - intros A f Hget Hf m.
    change (f (set_fuel (potential m) 0 m) (norm m) = on_outcome norm (f m m)).
    rewrite Hget. apply Hf.
  - intros A o [-> |(? & ? & ? & ->)] m; done.
  - intros A B op frame k Hop Hk m. pose proof (Hop (mkState frame m)) as H.
    unfold norm_state at 1 in H. cbn in H. rewrite H. destruct (op (mkState frame m)) as [[a s]|d]; [|reflexivity].
    apply Hk.
  - intros module m. reflexivity.
  - intros m. reflexivity.
  - intros module env m. unfold run_machine, finish_module, mbind, state_bind, modify, mret, state_ret.
    rewrite define_functions_norm. cbn. unfold id. reflexivity.
Qed.

(** ** One more response *)

(** Results that suspend the execution. *)
Definition op_suspends (s : OpStep) : Prop := match s with Suspend _ => True | _ => False end.
Definition request_suspends (r : OpRequest) : Prop :=
  match r with Stepped s => op_suspends s | _ => False end.
Definition answer_suspends (t : Task) : Answer t → Prop :=
  match t with
  | Frames _ => λ s, match s with Suspended_ _ => True | _ => False end
  | LoadModule _ => λ s, match s with ModuleSuspend _ => True | _ => False end
  end.
Definition load_suspends (r : option CapabilityRequest) : Prop := is_Some r.
Definition run_suspends (r : RunResult) : Prop :=
  match r with RunSuspended _ => True | _ => False end.

Section longer.
Context `{FloatLib, Platform, SnapshotSerde} (artifact : ProgramArtifact) (grants : GrantSet).
Context (recorded more : list CapabilityResult).
#[local] Notation short := (mkSession artifact grants recorded).
#[local] Notation long := (mkSession artifact grants (recorded ++ more)).

(** [o1], with the recorded responses, and [o2], with more of them: the same
    unless [o1] suspends having used them all; [o2] then has no more left. *)
Definition pauses {A} (P : A → Prop) (o1 o2 : outcome A) : Prop :=
  o1 = o2 ∨ ∃ a m1, o1 = Finished (Ok (a, m1)) ∧ P a ∧ length recorded ≤ response_cursor m1 ∧
    ∀ b m2, o2 = Finished (Ok (b, m2)) → lowers m1 m2.

Lemma pauses_refl {A} (P : A → Prop) o : pauses P o o.
Proof. by left. Qed.
#[local] Hint Resolve pauses_refl : core.

(** The continuation of a suspension passes it on. *)
Definition passes {A B} (P : A → Prop) (Q : B → Prop) (f : A → ExecR B) : Prop :=
  ∀ a m, P a → ∃ b m', f a m = Finished (Ok (b, m')) ∧ Q b ∧
    response_cursor m' = response_cursor m ∧
    fuel m' = fuel m ∧ replay_credit m' = replay_credit m.

Lemma pauses_bind {A B} (P : A → Prop) (Q : B → Prop) (e e' : ExecR A) (f f' : A → ExecR B) m :
  pauses P (e m) (e' m) → (∀ a m', pauses Q (f a m') (f' a m')) →
  passes P Q f → (∀ a, descends B (f' a)) →
  pauses Q ((e ≫= f) m) ((e' ≫= f') m).
Proof.
  intros He Hf Hp Hd. unfold mbind, exec_bind. destruct He as [->|(a & m1 & -> & Ha & Hc & Hlow)].
  - destruct (e' m) as [[[a m']|]| |]; auto.
  - right. destruct (Hp a m1 Ha) as (b & m' & -> & Hb & Hc' & Hf' & Hcr). exists b, m'.
    split_and!; try done; [by rewrite Hc'|]. intros c m2 H2.
    destruct (e' m) as [[[a' m3]|]| |]; try done. transitivity m1; [by apply lowers_same|]. transitivity m3; [by eapply Hlow|by eapply Hd].
Qed.

(** The same of an operation on some state around the machine. *)
Definition pauses_at {S A} (machine : S → Machine) (P : A → Prop) (r1 r2 : result (A * S)) : Prop :=
  r1 = r2 ∨ ∃ a s1, r1 = Ok (a, s1) ∧ P a ∧ length recorded ≤ response_cursor (machine s1) ∧
    ∀ b s2, r2 = Ok (b, s2) → lowers (machine s1) (machine s2).

Lemma pauses_at_after {S A B} machine (P : B → Prop) (op : StateR S A) (f f' : A → StateR S B) s :
  (∀ a s, pauses_at machine P (f a s) (f' a s)) →
  pauses_at machine P ((op ≫= f) s) ((op ≫= f') s).
Proof. intros Hf. unfold mbind, state_bind. destruct (op s) as [[a t]|]; [apply Hf|by left]. Qed.

Lemma capability_pauses capability method args m :
  pauses_at id op_suspends (call_capability short capability method args m)
    (call_capability long capability method args m).
Proof.
  pose proof (λ a m2, closed_call_capability long (@keeps _ lowers) capability method args m a m2) as Hlow.
  revert Hlow. unfold call_capability, mbind, state_bind, lift.
  change (capability_arguments long) with (capability_arguments short).
  destruct (capability_arguments _ _ _ _) as [[contract arguments]|d]; [|by left].
  unfold get, modify. cbn. intros Hlow.
  destruct (recorded !! response_cursor m) as [response|] eqn:E.
  - left. by rewrite (lookup_app_l_Some _ _ _ _ E).
  - right. eexists _, _. split; [reflexivity|]. split; [done|]. split; [by apply lookup_ge_None|].
    intros b m2 H2. apply Hlow in H2. transitivity m; [by apply lowers_same|done].
Qed.

Lemma method_pauses receiver method args m :
  pauses_at id op_suspends (call_method short call_builtin receiver method args m)
    (call_method long call_builtin receiver method args m).
Proof.
  unfold call_method. apply pauses_at_after. intros _ m'. destruct receiver; try by left.
  apply capability_pauses.
Qed.

(** Method calls are the only instructions that see the responses. *)
Lemma execute_op_pauses op s :
  pauses_at st_machine request_suspends (execute_op short op s) (execute_op long op s).
Proof.
  assert (∀ optional, pauses_at st_machine request_suspends
    (op_method_call short optional s) (op_method_call long optional s)) as Hcall.
  { intros optional. unfold op_method_call. do 4 (apply pauses_at_after; intros ? ?).
    match goal with |- context [if ?b then _ else _] => destruct b end; [by left|].
    match goal with |- context [on_machine (call_method _ _ ?r ?n ?v)] =>
      rename r into receiver, n into name, v into args end.
    unfold mbind, state_bind, on_machine, stepped, mret, state_ret.
    destruct (method_pauses receiver name args (st_machine s3)) as [->|(a & m1 & -> & Ha & Hc & Hlow)];
      [by left|]. right. eexists _, _. split_and!; try done. cbn. intros b s5 H5.
    destruct (call_method long _ _ _ _ _) as [[step m2]|] eqn:E2; [|done]. injection H5 as _ <-.
    by apply (Hlow _ _ eq_refl). }
  destruct op; try (by left); apply Hcall.
Qed.

Lemma call_value_pauses env callee args tail m :
  pauses op_suspends (call_value short env callee args tail m) (call_value long env callee args tail m).
Proof.
  unfold call_value. destruct (resolve_callee _ _ _ _) as [[[]|]|]; try by left.
  unfold run_machine.
  match goal with |- context [call_method _ _ ?r ?n ?v m] =>
    destruct (method_pauses r n v m) as [->|(a & m1 & -> & Ha & Hc & Hlow)] end; [by left|].
  right. eexists _, _. split_and!; try done. intros b m2 [= H2]. by eapply Hlow.
Qed.

(** [descends] for a continuation of the longer run. *)
Ltac descend :=
  repeat lazymatch goal with
  | |- descends _ (mret _) => apply (run_ret _ _ descends)
  | |- descends _ (exec_fail _) => apply (run_fail _ _ descends)
  | |- descends _ (run_machine (modify pop_loading)) => apply (run_pop (E := descends))
  | |- descends _ (run_machine (finish_module _ _)) => apply (run_finish (E := descends))
  | |- descends _ (run_machine (bind_module_projection _ _ _ _)) =>
      apply (run_on_machine (E := descends)), (closed_bind_projection (@keeps _ lowers))
  | |- descends _ (run_machine (dispatch _ _)) =>
      apply (run_on_machine (E := descends)), (closed_dispatch (@keeps _ lowers))
  | |- descends _ (run_machine (entry_frame _ _ _)) =>
      apply (run_on_machine (E := descends)), (closed_entry_frame _ (@keeps _ lowers))
  | |- descends _ (run_machine (complete _)) =>
      apply (run_on_machine (E := descends)), (closed_complete (@keeps _ lowers))
  | |- descends _ (_ ≫= _) => apply (run_bind (E := descends)); [|intros]
  | |- descends _ (match ?x with _ => _ end) => destruct x
  | |- _ => solve [eauto 1]
  end.

Section steps.
Context (rec rec' : ∀ t : Task, ExecR (Answer t)).
Hypothesis Hrec : ∀ t m, pauses (answer_suspends t) (rec t m) (rec' t m).
Hypothesis Hdesc : ∀ t, descends _ (rec' t).

Lemma descends_frames frames : descends Step (rec' (Frames frames)).
Proof. apply (Hdesc (Frames frames)). Qed.
#[local] Hint Resolve descends_frames : core.

Lemma import_pauses import env m :
  pauses op_suspends (import_root_module short rec import env m)
    (import_root_module long rec' import env m).
Proof.
  unfold import_root_module. cbn [program]. destruct (find _ _) as [spec|]; [|done].
  apply (pauses_bind (answer_suspends (LoadModule (import_target spec))));
    [apply (Hrec (LoadModule _))|done| |intros; descend].
  intros [inst|request] m' Ha; [done|]. by exists (Suspend request), m'.
Qed.

Lemma step_frames_pauses frames m :
  pauses (answer_suspends (Frames frames)) (step_frames short rec frames m)
    (step_frames long rec' frames m).
Proof.
  unfold step_frames, mbind at 1 4, exec_bind at 1 4. destruct (run_machine _ m) as [[[u m1]|]| |]; try done.
  destruct frames as [|frame callers]; [done|]. destruct (_ !! _) as [b|]; [|done].
  destruct (Op.from_byte b) as [op|]; [|done].
  destruct (execute_op_pauses op (mkState (set_ip (fr_ip frame + 1) frame) m1))
    as [->|(request & s1 & -> & Hr & Hc & Hlow)].
  - destruct (execute_op _ _ _) as [[request s]|]; [|done].
    apply (pauses_bind op_suspends); [|intros step m2| |intros; descend].
    + destruct request; [done|apply call_value_pauses|apply import_pauses].
    + apply pauses_bind with (P := λ _, False); [done| |by intros ? ? []|intros; descend].
      intros [next|step'] m3; [|done]. destruct (stack_exceeded next); [done|].
      apply (Hrec (Frames next)).
    + intros [] m' Ha; try done. by exists (Suspended_ request0), m'.
  - destruct request as [[]| |]; try done. right.
    exists (Suspended_ request), (st_machine s1). split_and!; try done.
    intros step m2 H2. destruct (execute_op long _ _) as [[r2 s2]|]; [|done].
    transitivity (st_machine s2); [by eapply Hlow|]. revert H2.
    generalize (st_machine s2). intros m3.
    assert (descends Step (step ← run_request long rec' r2 (fr_env (st_frame s2));
      next ← run_machine (dispatch step (st_frame s2 :: callers));
      match next with
      | NextFrames frames =>
          if stack_exceeded frames then exec_fail operand_stack_limit else rec' (Frames frames)
      | NextStep step => mret step
      end)) as Hd; [|apply Hd].
    apply (run_bind (E := descends)); [|intros; descend].
    apply (run_run_request long _ _ descends), Hdesc.
Qed.

Lemma load_imports_pauses imports env m :
  pauses load_suspends (load_imports rec imports env m) (load_imports rec' imports env m).
Proof.
  revert m; induction imports as [|import imports IH]; intros m; [done|]. cbn [load_imports].
  apply (pauses_bind (answer_suspends (LoadModule (import_target import))));
    [apply (Hrec (LoadModule _))| | |].
  - intros [inst|request] m1; [|done]. apply pauses_bind with (P := λ _, False); [done| |by intros ? ? []|].
    + intros _ m2. apply IH.
    + intros _. apply (run_load_imports _ _ descends); apply Hdesc.
  - intros [inst|request] m' Ha; [done|]. exists (Some request), m'. split_and!; try done. by eexists.
  - intros [inst|request]; descend. apply (run_load_imports _ _ descends); apply Hdesc.
Qed.

Lemma run_init_pauses init env m :
  pauses load_suspends (run_init rec init env m) (run_init rec' init env m).
Proof.
  unfold run_init. destruct init as [chunk|]; [|done].
  apply (pauses_bind (answer_suspends (Frames [frame_new chunk env []])));
    [apply (Hrec (Frames _))|done| |intros; descend].
  intros [value|request] m' Ha; [done|]. exists (Some request), m'. split_and!; try done. by eexists.
Qed.

Lemma descends_init init env : descends _ (run_init rec' init env).
Proof. apply (run_run_init _ _ descends), Hdesc. Qed.
#[local] Hint Resolve descends_init : core.

Lemma load_module_pauses id m :
  pauses (answer_suspends (LoadModule id)) (load_module short rec id m) (load_module long rec' id m).
Proof.
  unfold load_module. cbn [program]. destruct (BTree.get _ _); [done|]. destruct (existsb _ _); [done|].
  destruct (find _ _) as [module|]; [|done]. unfold load_module_body.
  assert (∀ f : ExecR ModuleStep, passes load_suspends (answer_suspends (LoadModule id))
    (λ o, match o with
          | Some request => _ ← run_machine (modify pop_loading); mret (ModuleSuspend request)
          | None => f end)) as Hpass.
  { intros f o m' [request ->]. by exists (ModuleSuspend request), (pop_loading m'). }
  apply pauses_bind with (P := λ _, False); [done| |by intros ? ? []|].
  - intros env m1. apply (pauses_bind load_suspends);
      [apply load_imports_pauses| |by apply Hpass|intros; descend].
    intros [request|] m2; [done|].
    apply (pauses_bind load_suspends); [apply run_init_pauses|done|by apply Hpass|intros; descend].
  - intros env. apply (run_bind (E := descends)); [|intros; descend].
    apply (run_load_imports _ _ descends), Hdesc.
Qed.
End steps.

Lemma exec_pauses steps t m :
  pauses (answer_suspends t) (exec short steps t m) (exec long steps t m).
Proof.
  revert t m; induction steps as [|steps IH]; intros t m; [done|]. destruct t; cbn [exec].
  - apply step_frames_pauses; [apply IH|apply (run_exec long _ _ descends)].
  - apply load_module_pauses; [apply IH|apply (run_exec long _ _ descends)].
Qed.

Lemma run_program_pauses steps input m :
  pauses run_suspends (run_program short steps input m) (run_program long steps input m).
Proof.
  assert (∀ frames, descends Step (exec long steps (Frames frames))) as Hd.
  { intros frames. apply (run_exec long _ _ descends steps (Frames frames)). }
  unfold run_program. cbn [program].
  apply (pauses_bind (answer_suspends (Frames [frame_new (art_image artifact) 0 []]))); [apply (exec_pauses _ (Frames _))| | |intros; descend].
  - intros [bootstrap|request] m1; [|done].
    apply pauses_bind with (P := λ _, False); [done| |by intros ? ? []|intros; descend].
    intros frame m2.
    apply (pauses_bind (answer_suspends (Frames [frame])));
      [apply (exec_pauses _ (Frames _))|done| |intros; descend].
    intros [value|request] m' Ha; [done|]. by exists (RunSuspended request), m'.
  - intros [value|request] m' Ha; [done|]. by exists (RunSuspended request), m'.
Qed.
End longer.

(** ** Conversations *)

Section conversation.
Context `{FloatLib, Platform, SnapshotSerde} (artifact : ProgramArtifact) (grants : GrantSet).

(** Data that survives a snapshot: the seam keeps it, and its text is within
    what [serde_json] reads back. *)
Definition restorable (levels : nat) (d : DataValue) : bool :=
  crosses d && json_readable levels (to_json d).

Definition response_restorable (r : CapabilityResult) : bool :=
  match r with CapOk _ value => restorable RESPONSE_LEVELS value | CapErr _ _ _ => true end.

Lemma restorable_snapshot digest print fuel input rs pending :
  restorable INPUT_LEVELS input = true → forallb response_restorable rs = true →
  let s := mkReplaySnapshot digest print fuel input rs pending in
  document_readable (snapshot_document s) = true ∧ snapshot_keeps s = true.
Proof.
  intros Hin Hrs%forallb_Forall s. apply andb_true_iff in Hin as [Hkeep Hread].
  assert (∀ r, response_restorable r = true →
    response_keeps r = true ∧ result_readable (result_document r) = true) as Hr.
  { intros [id d|] Hd; [|by split]. by apply andb_true_iff in Hd as [??]. }
  unfold document_readable, snapshot_keeps, s. cbn [snap_input snap_responses snapshot_document doc_input doc_responses].
  rewrite Hread, Hkeep. cbn [andb].
  split; apply Forall_forallb; rewrite ?Forall_fmap; (eapply Forall_impl; [exact Hrs|]); intros r Hd%Hr; apply Hd.
Qed.

(** The executions a host can reach by answering one request after the other. *)
Inductive conversation (input : DataValue) : list CapabilityResult → option Execution → Prop :=
  | conversation_start : conversation input [] (start artifact input grants)
  | conversation_resume responses request snapshot response :
      conversation input responses (Some (Suspended request snapshot)) →
      result_request_id response = req_id request →
      conversation input (responses ++ [response]) (resume artifact snapshot response grants).

Lemma run_from_norm session steps input consumed root :
  run_program session steps input (machine_new root 0) =
  on_outcome norm (run_program session steps input (machine_new root consumed)).
Proof.
  rewrite <- (run_run_program session _ _ blind_run steps input (machine_new root consumed)).
  f_equal. unfold norm. rewrite potential_new. unfold machine_new, set_fuel; cbn. f_equal.
Qed.

(** Reduced to one of the two: how a suspension is reported. *)
Lemma suspend_lowers session input request m1 m2 :
  (DEFAULT_FUEL - fuel m1 = DEFAULT_FUEL - fuel m2)%N →
  response_cursor m1 = response_cursor m2 →
  suspend session input request m1 = suspend session input request m2.
Proof. intros Hf Hc. unfold suspend. by rewrite Hf, Hc. Qed.

(** The fuel of a run from [machine_new root consumed]. *)
Lemma run_program_fuel session steps input consumed root r m :
  run_program session steps input (machine_new root consumed) = Finished (Ok (r, m)) →
  (potential m ≤ DEFAULT_FUEL ∧ fuel m = N.min (DEFAULT_FUEL - consumed) (potential m))%N.
Proof.
  intros Hrun. apply (run_run_program session _ _ descends) in Hrun as [Hp Hf].
  rewrite potential_new in Hp. by split.
Qed.

(** A run with one more response, from any fuel a suspended run may have left. *)
Lemma longer_run_same recorded response input request m1 root :
  let short := mkSession artifact grants recorded in
  let long := mkSession artifact grants (recorded ++ [response]) in
  run_program short (step_budget short) input (machine_new root 0) =
    Finished (Ok (RunSuspended request, m1)) →
  ∀ r m2, run_program long (step_budget long) input (machine_new root (DEFAULT_FUEL - fuel m1)) =
    Finished (Ok (RunSuspended r, m2)) →
  suspend long input r m2 = suspend long input r (norm m2).
Proof.
  intros short long Hshort r m2 Hlong. apply suspend_lowers; [|done].
  destruct (run_program_fuel _ _ _ _ _ _ _ Hshort) as [Hp1 Hf1].
  destruct (run_program_fuel _ _ _ _ _ _ _ Hlong) as [Hp2 Hf2].
  assert (potential m2 ≤ potential m1)%N as Hlow.
  { pose proof (run_from_norm long (step_budget long) input (DEFAULT_FUEL - fuel m1) root) as Hn.
    rewrite Hlong in Hn. cbn [on_outcome on_result] in Hn. change (potential m2) with (fuel (norm m2)).
    pose proof (run_program_pauses artifact grants recorded [response] (step_budget short) input
      (machine_new root 0)) as Hpause. fold short long in Hpause. rewrite Hshort in Hpause.
    destruct Hpause as [E|(a & m1' & E & _ & _ & Hl)].
    - change (step_budget short) with (step_budget long) in E. rewrite Hn in E.
      injection E as _ ->. unfold norm, potential; cbn. lia.
    - injection E as _ <-. change (step_budget short) with (step_budget long) in Hl.
      destruct (Hl _ _ Hn) as [Hl' _]. unfold norm, potential in *; cbn in *. lia. }
  change (fuel (norm m2)) with (potential m2). lia.
Qed.

Lemma resume_continues recorded input request snapshot response :
  tag_length → serde_faithful →
  restorable INPUT_LEVELS input = true → forallb response_restorable recorded = true →
  replay artifact input grants recorded = Some (Suspended request snapshot) →
  result_request_id response = req_id request →
  resume artifact snapshot response grants = replay artifact input grants (recorded ++ [response]).
Proof.
  intros Htag Hserde Hin Hrs Hreplay Hid. unfold replay, run_with_fuel, run_with_steps in Hreplay.
  set (short := mkSession artifact grants recorded) in *.
  destruct (validate_inputs _ _) as [u|] eqn:Hv; [|done].
  destruct (run_program _ _ _ _) as [[[[value|r] m1]|]| |] eqn:Hrun; try done.
  pose proof (leaves_run_program _ _ _ _ _ _ Hrun) as [_ Hcursor].
  unfold suspend in Hreplay. cbn [session_grants short] in Hreplay.
  destruct (snapshot_key grants) as [key|] eqn:Hkey; [|done].
  destruct (encode_snapshot _ _) as [bytes|] eqn:Henc; [|done]. injection Hreplay as -> ->.
  cbn [responses short] in Henc, Hcursor. rewrite take_ge in Henc by done.
  match type of Henc with encode_snapshot (mkReplaySnapshot ?d ?p ?f _ _ ?q) _ = _ =>
    destruct (restorable_snapshot d p f _ _ q Hin Hrs) as [Hread Hkeeps] end.
  apply decode_encode_snapshot in Henc; [|done..]. apply Henc in Hkeeps. clear Henc. rename Hkeeps into Henc.
  unfold resume. rewrite Hkey, Henc. cbn [artifact_digest grant_fingerprint pending_request
    snap_responses snap_input fuel_consumed].
  change (art_digest (program short)) with (art_digest artifact).
  change (fingerprint (session_grants short)) with (fingerprint grants).
  rewrite !bytes_eqb_refl, Hid, String.eqb_refl. cbn [negb].
  unfold replay, run_with_fuel, run_with_steps. set (long := mkSession _ _ _).
  destruct (validate_inputs long input); [|done].
  rewrite (run_from_norm long _ _ (DEFAULT_FUEL - fuel m1)).
  destruct (run_program long _ _ _) as [[[[value|r] m2]|]| |] eqn:Hlong; try done.
  cbn. f_equal. by eapply longer_run_same.
Qed.

(** C3: Suspension is invisible: whatever a host answers, request by request,
    the execution it gets by resuming snapshots is the one it would get by
    replaying all responses from the start: the same result or failure, the
    same next request, and byte for byte the same next snapshot, fuel included.
    So nothing is charged twice, no request is made twice, and a saved snapshot
    can be resumed by any host. This is for restorable data: the input and every
    value answered cross the JSON seam unchanged (see [json_round_trip]) and are
    nested no deeper, with no other floats, than [serde_json] reads back; and
    given that MACs are 32 bytes and that [serde_json] reads such documents. *)
Theorem conversation_is_replay input responses execution :
  tag_length → serde_faithful →
  restorable INPUT_LEVELS input = true → forallb response_restorable responses = true →
  conversation input responses execution →
  execution = replay artifact input grants responses.
Proof.
  intros Htag Hserde Hin Hrs Hconv. revert Hrs.
  induction Hconv as [|responses request snapshot response Hconv IH Hid]; intros Hrs; [done|].
  rewrite forallb_app in Hrs. apply andb_true_iff in Hrs as [Hrs _].
  eapply resume_continues; try done. symmetry. by apply IH.
Qed.
End conversation.

(** A serde for the snapshots of one program on one input: it writes the fuel. *)
Definition clock_serde : SnapshotSerde :=
  one_serde [] (@fingerprint sample_platform clock_grants) (req_id clock_request).

Lemma conversation_is_replay_witness :
  let response := CapOk (req_id clock_request) (DInt 5) in
  let snapshot := @snapshot_frame sample_platform [n2b 9] [n2b 7] in
  @resume sample_floats sample_platform clock_serde clock_program snapshot response clock_grants =
    @replay sample_floats sample_platform clock_serde clock_program (DInt 1) clock_grants [response].
Proof.
  intros response snapshot.
  apply (@conversation_is_replay sample_floats sample_platform clock_serde clock_program clock_grants
    (DInt 1) [response]).
  - exact sample_platform_tags.
  - apply one_serde_faithful.
  - reflexivity.
  - reflexivity.
  - apply (conversation_resume _ _ _ [] clock_request snapshot response); [|reflexivity].
    assert (Some (Suspended clock_request snapshot) =
      @start sample_floats sample_platform clock_serde clock_program (DInt 1) clock_grants) as ->.
    { vm_compute. reflexivity. }
    apply conversation_start.
Defined.
