(* ===== verification/Operators.v ===== *)
(** * Operators ([harn-parser/src/operators.rs])

    The vocabulary of expression operators: spelling, wire names, precedence
    groups and associativity, the ladder the parser climbs, and when an operand
    needs parentheses. *)

From Stdlib Require Import Strings.String.
From S2P Require Import Prelude.

(** ** Operators *)

Module BinaryOperator.
Inductive BinaryOperator :=
  | Pipe | Or | And | Eq | Neq | Lt | Gt | Lte | Gte | In | NotIn | NilCoalesce
  | Add | Sub | Mul | Div | Mod | Pow.

(** [BinaryOperator::ALL] *)
Definition ALL : list BinaryOperator :=
  [Pipe; Or; And; Eq; Neq; Lt; Gt; Lte; Gte; In; NotIn; NilCoalesce; Add; Sub; Mul; Div; Mod; Pow].

(** [BinaryOperator::symbol] *)
Definition symbol (op : BinaryOperator) : string :=
  match op with
  | Pipe => "|>" | Or => "||" | And => "&&" | Eq => "==" | Neq => "!=" | Lt => "<" | Gt => ">"
  | Lte => "<=" | Gte => ">=" | In => "in" | NotIn => "not in" | NilCoalesce => "??"
  | Add => "+" | Sub => "-" | Mul => "*" | Div => "/" | Mod => "%" | Pow => "**"
  end.

(** [BinaryOperator::wire_name] *)
Definition wire_name (op : BinaryOperator) : string :=
  match op with NotIn => "not_in" | _ => symbol op end.

(** [BinaryOperator::from_wire_name] *)
Definition from_wire_name (name : string) : option BinaryOperator :=
  find (λ op, String.eqb (wire_name op) name) ALL.
End BinaryOperator.

Inductive UnaryOperator := Neg | Not.

#[export] Instance binary_operator_eq_dec : EqDecision BinaryOperator.BinaryOperator.
Proof. solve_decision. Defined.
#[export] Instance unary_operator_eq_dec : EqDecision UnaryOperator.
Proof. solve_decision. Defined.

(** ** Precedence groups *)

Module Associativity.
Inductive Associativity := Left | Right | None.
End Associativity.

#[export] Instance associativity_eq_dec : EqDecision Associativity.Associativity.
Proof. solve_decision. Defined.

Module Precedence.
Inductive Precedence :=
  | Pipe | Ternary | LogicalOr | LogicalAnd | Equality | Comparison | NilCoalescing | Range
  | Additive | Multiplicative | Prefix | Exponent | Postfix.

#[global] Instance precedence_eq_dec : EqDecision Precedence.
Proof. solve_decision. Defined.

(** [Precedence::ALL], loosest first *)
Definition ALL : list Precedence :=
  [Pipe; Ternary; LogicalOr; LogicalAnd; Equality; Comparison; NilCoalescing; Range; Additive;
   Multiplicative; Prefix; Exponent; Postfix].

(** [position] of a group in a ladder *)
Definition position (group : Precedence) (ladder : list Precedence) : option nat :=
  fst <$> list_find (group =.) ladder.

(** [Precedence::level] *)
Definition level (p : Precedence) : nat := default 0 (S <$> position p ALL).

(** [Precedence::tighter] *)
Definition tighter (p : Precedence) : option Precedence := ALL !! level p.

(** [Precedence::associativity] *)
Definition associativity (p : Precedence) : Associativity.Associativity :=
  match p with
  | Ternary | Prefix | Exponent => Associativity.Right
  | Range => Associativity.None
  | _ => Associativity.Left
  end.

(** The derived order: by position in the declaration. *)
Definition lt (a b : Precedence) : bool := (level a <? level b)%nat.
End Precedence.

(** [BinaryOperator::precedence] *)
Definition precedence (op : BinaryOperator.BinaryOperator) : Precedence.Precedence :=
  match op with
  | BinaryOperator.Pipe => Precedence.Pipe
  | BinaryOperator.Or => Precedence.LogicalOr
  | BinaryOperator.And => Precedence.LogicalAnd
  | BinaryOperator.Eq | BinaryOperator.Neq => Precedence.Equality
  | BinaryOperator.Lt | BinaryOperator.Gt | BinaryOperator.Lte | BinaryOperator.Gte
  | BinaryOperator.In | BinaryOperator.NotIn => Precedence.Comparison
  | BinaryOperator.NilCoalesce => Precedence.NilCoalescing
  | BinaryOperator.Add | BinaryOperator.Sub => Precedence.Additive
  | BinaryOperator.Mul | BinaryOperator.Div | BinaryOperator.Mod => Precedence.Multiplicative
  | BinaryOperator.Pow => Precedence.Exponent
  end.

(** [BinaryOperator::continues_across_newline] *)
Definition continues_across_newline (op : BinaryOperator.BinaryOperator) : bool :=
  match op with
  | BinaryOperator.Sub | BinaryOperator.In | BinaryOperator.NotIn => false
  | _ => true
  end.

(** ** Operands *)

Module OperandSide.
Inductive OperandSide := Left | Right | Prefix | Postfix | TernaryCondition | TernaryBranch.
End OperandSide.

(** [loosest_bare_operand] *)
Definition loosest_bare_operand (parent : Precedence.Precedence) (side : OperandSide.OperandSide)
    : Precedence.Precedence :=
  let same_group (allowed : bool) :=
    if allowed then parent else default Precedence.Postfix (Precedence.tighter parent) in
  match side with
  | OperandSide.Prefix => Precedence.Prefix
  | OperandSide.Postfix => Precedence.Postfix
  | OperandSide.TernaryCondition => Precedence.LogicalOr
  | OperandSide.TernaryBranch => Precedence.Ternary
  | OperandSide.Right =>
      if decide (parent = Precedence.Exponent) then Precedence.Prefix
      else same_group (bool_decide (Precedence.associativity parent = Associativity.Right))
  | OperandSide.Left =>
      same_group (bool_decide (Precedence.associativity parent = Associativity.Left))
  end.

(** [operand_needs_parens] *)
Definition operand_needs_parens (parent child : Precedence.Precedence) (side : OperandSide.OperandSide)
    : bool := Precedence.lt child (loosest_bare_operand parent side).

(** ** Ladders *)

Record OperatorGrammar := mkOperatorGrammar {
  ladder : list Precedence.Precedence;
  legacy_ranges : bool
}.

(** [OperatorGrammar::CURRENT] *)
Definition CURRENT : OperatorGrammar := mkOperatorGrammar Precedence.ALL false.

(** [OperatorGrammar::LEGACY] *)
Definition LEGACY : OperatorGrammar := mkOperatorGrammar
  [Precedence.Pipe; Precedence.Range; Precedence.Ternary; Precedence.LogicalOr; Precedence.LogicalAnd;
   Precedence.Equality; Precedence.Comparison; Precedence.Additive; Precedence.NilCoalescing;
   Precedence.Multiplicative; Precedence.Prefix; Precedence.Exponent; Precedence.Postfix] true.

(** [OperatorGrammar::loosest]; [self.ladder[0]] of ladders that are not empty. *)
Definition loosest (g : OperatorGrammar) : Precedence.Precedence := default Precedence.Postfix (head (ladder g)).

(** [OperatorGrammar::tighter] *)
Definition tighter (g : OperatorGrammar) (group : Precedence.Precedence) : Precedence.Precedence :=
  default Precedence.Postfix (Precedence.position group (ladder g) ≫= λ index, ladder g !! S index).

(** *** Facts *)

(** Wire names identify operators. *)
Lemma from_wire_name_iff name op :
  BinaryOperator.from_wire_name name = Some op ↔ BinaryOperator.wire_name op = name.
Proof.
  unfold BinaryOperator.from_wire_name. split.
  - intros [_ Heq%String.eqb_eq]%find_some. done.
  - intros <-. by destruct op.
Qed.

(** A bare right operand is never looser than its operator's group, so that
    grouping follows the tree. *)
Lemma loosest_bare_operand_level op side : side = OperandSide.Left ∨ side = OperandSide.Right →
  operand_needs_parens (precedence op) (precedence op) side =
    match Precedence.associativity (precedence op), side with
    | Associativity.Left, OperandSide.Left | Associativity.Right, OperandSide.Right => false
    | _, _ => true
    end.
Proof. intros [-> | ->]; by destruct op. Qed.
