(* ===== verification/Fold.v ===== *)
(** * Constant folding ([compiler/optimizer.rs])

    The compiler evaluates constant expressions and puts the value back as a
    literal. The syntax is the part of [Node] folding can see: literals,
    operators, conditionals and collections; every other node is not constant. *)

From Stdlib Require Import Strings.String.
From S2P Require Import Prelude BTree Program Float64 Semantics Values Text Arith Ops Operators.

(** ** Syntax ([ast.rs]) *)

Record Span := mkSpan {
  span_start : N;
  span_end : N;
  span_line : N;
  span_column : N;
  span_end_line : N
}.

#[export] Instance span_eq_dec : EqDecision Span.
Proof. solve_decision. Defined.

(** [Spanned<T>] *)
Record Spanned (T : Type) := mkSpanned { node : T; span : Span }.
Arguments mkSpanned {T}.
Arguments node {T}.
Arguments span {T}.

(** The expression nodes folding distinguishes. [Identifier] and [Spread] stand
    for what is never constant. *)
Module Node.
Inductive Node :=
  | StringLiteral (value : string)
  | RawStringLiteral (value : string)
  | IntLiteral (value : Z)
  | FloatLiteral (value : f64)
  | BoolLiteral (value : bool)
  | NilLiteral
  | DurationLiteral (ms : N)
  | Identifier (name : string)
  | BinaryOp (op : BinaryOperator.BinaryOperator) (left right : Spanned Node)
  | UnaryOp (op : UnaryOperator) (operand : Spanned Node)
  | Ternary (condition true_expr false_expr : Spanned Node)
  | ListLiteral (items : list (Spanned Node))
  | DictLiteral (entries : list (Spanned Node * Spanned Node))
  | Spread (inner : Spanned Node).
End Node.

Abbreviation SNode := (Spanned Node.Node).

(** *** Equality of nodes: derived, so floats compare as [f64] does *)

Fixpoint node_eqb (a b : Node.Node) {struct a} : bool :=
  let snode_eqb (x y : SNode) := node_eqb (node x) (node y) && bool_decide (span x = span y) in
  match a, b with
  | Node.StringLiteral x, Node.StringLiteral y | Node.RawStringLiteral x, Node.RawStringLiteral y
  | Node.Identifier x, Node.Identifier y => String.eqb x y
  | Node.IntLiteral x, Node.IntLiteral y => (x =? y)%Z
  | Node.FloatLiteral x, Node.FloatLiteral y => f64_eqb x y
  | Node.BoolLiteral x, Node.BoolLiteral y => Bool.eqb x y
  | Node.NilLiteral, Node.NilLiteral => true
  | Node.DurationLiteral x, Node.DurationLiteral y => (x =? y)%N
  | Node.BinaryOp o x1 x2, Node.BinaryOp p y1 y2 =>
      bool_decide (o = p) && snode_eqb x1 y1 && snode_eqb x2 y2
  | Node.UnaryOp o x, Node.UnaryOp p y => bool_decide (o = p) && snode_eqb x y
  | Node.Ternary x1 x2 x3, Node.Ternary y1 y2 y3 =>
      snode_eqb x1 y1 && snode_eqb x2 y2 && snode_eqb x3 y3
  | Node.ListLiteral xs, Node.ListLiteral ys => list_eqb snode_eqb xs ys
  | Node.DictLiteral xs, Node.DictLiteral ys =>
      list_eqb (λ x y, snode_eqb x.1 y.1 && snode_eqb x.2 y.2) xs ys
  | Node.Spread x, Node.Spread y => snode_eqb x y
  | _, _ => false
  end.

(** ** Folding of operators *)

Definition MAX_FOLDED_STRING_BYTES : N := 65536.
Definition MAX_FOLDED_COLLECTION_ITEMS : N := 4096.

Section fold.
Context `{FloatLib}.
Import VmValue.

(** [values_equal], [try_compare_values] *)
Definition fold_equal (a b : VmValue) : bool := semantic_values_equal a b.
Definition fold_compare (predicate : comparison → bool) (a b : VmValue) : VmValue :=
  Bool match semantic_try_compare a b with Some c => predicate c | None => false end.

(** [fold_unary] *)
Definition fold_unary (op : UnaryOperator) (value : VmValue) : option VmValue :=
  match op, value with
  | Neg, Int value => Int <$> checked_neg value
  | Neg, Float value => Some (Float (f64_neg value))
  | Operators.Not, value => Some (Bool (negb (is_truthy value)))
  | _, _ => None
  end.

(** The arms of an arithmetic operator on numbers. *)
Definition fold_numeric (ints : Z → Z → option Z) (floats : f64 → f64 → f64) (left_ right_ : VmValue)
    : option VmValue :=
  match left_, right_ with
  | Int x, Int y => Int <$> ints x y
  | Float x, Float y => Some (Float (floats x y))
  | Int x, Float y => Some (Float (floats (f64_of_i64 x) y))
  | Float x, Int y => Some (Float (floats x (f64_of_i64 y)))
  | _, _ => None
  end.

(** [fold_add] *)
Definition fold_add (left_ right_ : VmValue) : option VmValue :=
  match left_, right_ with
  | String x, String y =>
      len ← checked_add_usize (slen x) (slen y);
      if (MAX_FOLDED_STRING_BYTES <? len)%N then None else Some (String (x ++ y))
  | List x, List y =>
      len ← checked_add_usize (len x) (len y);
      if (MAX_FOLDED_COLLECTION_ITEMS <? len)%N then None else Some (List (x ++ y))
  | Dict x, Dict y =>
      len ← checked_add_usize (len x) (len y);
      if (MAX_FOLDED_COLLECTION_ITEMS <? len)%N then None else Some (Dict (BTree.extend x y))
  | _, _ => fold_numeric checked_add f64_add left_ right_
  end.

(** [fold_sub] *)
Definition fold_sub : VmValue → VmValue → option VmValue := fold_numeric checked_sub f64_sub.

(** The string arm of [fold_mul]. *)
Definition fold_repeat (text : string) (count : Z) : option VmValue :=
  let count := Z.to_N (Z.max count 0) in
  len ← checked_mul_usize (slen text) count;
  if (MAX_FOLDED_STRING_BYTES <? len)%N then None
  else Some (String (repeat_string text (N.to_nat count))).

(** [fold_mul] *)
Definition fold_mul (left_ right_ : VmValue) : option VmValue :=
  match left_, right_ with
  | String text, Int count | Int count, String text => fold_repeat text count
  | _, _ => fold_numeric checked_mul f64_mul left_ right_
  end.

(** [fold_div] *)
Definition fold_div (left_ right_ : VmValue) : option VmValue :=
  match left_, right_ with
  | Int _, Int 0 => None
  | _, _ => fold_numeric checked_div f64_div left_ right_
  end.

(** [i64::checked_rem]: [None] on zero and on [i64::MIN % -1]. *)
Definition checked_rem (a b : Z) : option Z :=
  if (b =? 0)%Z then None
  else if (b =? -1)%Z && (a =? I64_MIN)%Z then None else Some (Z.rem a b).

(** [fold_mod]: the pattern [Float(0.0)] matches both zeros. *)
Definition fold_mod (left_ right_ : VmValue) : option VmValue :=
  let zero :=
    match right_ with Int y => (y =? 0)%Z | Float y => f64_eqb y f64_zero | _ => false end in
  match left_ with
  | Int _ | Float _ => if zero then None else fold_numeric checked_rem f64_rem left_ right_
  | _ => None
  end.

(** [fold_pow] *)
Definition fold_pow (left_ right_ : VmValue) : option VmValue :=
  match left_, right_ with
  | Int base, Int exp =>
      if in_u32 exp then Int <$> checked_pow base (Z.to_N exp)
      else Some (Float (f64_powf (f64_of_i64 base) (f64_of_i64 exp)))
  | Float base, Int exp =>
      if in_i32 exp then Some (Float (f64_powi base exp))
      else Some (Float (f64_powf base (f64_of_i64 exp)))
  | Int base, Float exp => Some (Float (f64_powf (f64_of_i64 base) exp))
  | Float base, Float exp => Some (Float (f64_powf base exp))
  | _, _ => None
  end.

(** [contains_value] *)
Definition contains_value (item collection : VmValue) : bool :=
  match collection with
  | List items => existsb (λ value, semantic_values_equal value item) items
  | Dict entries => BTree.contains_key (display item) entries
  | String text =>
      match item with
      | String substr => str_contains text substr
      | other => str_contains text (display other)
      end
  | _ => false
  end.

(** [fold_binary] *)
Definition fold_binary (op : BinaryOperator.BinaryOperator) (left_ right_ : VmValue) : option VmValue :=
  match op with
  | BinaryOperator.Add => fold_add left_ right_
  | BinaryOperator.Sub => fold_sub left_ right_
  | BinaryOperator.Mul => fold_mul left_ right_
  | BinaryOperator.Div => fold_div left_ right_
  | BinaryOperator.Mod => fold_mod left_ right_
  | BinaryOperator.Pow => fold_pow left_ right_
  | BinaryOperator.Eq => Some (Bool (fold_equal left_ right_))
  | BinaryOperator.Neq => Some (Bool (negb (fold_equal left_ right_)))
  | BinaryOperator.Lt => Some (fold_compare (λ o, bool_decide (o = Lt)) left_ right_)
  | BinaryOperator.Gt => Some (fold_compare (λ o, bool_decide (o = Gt)) left_ right_)
  | BinaryOperator.Lte => Some (fold_compare (λ o, bool_decide (o ≠ Gt)) left_ right_)
  | BinaryOperator.Gte => Some (fold_compare (λ o, bool_decide (o ≠ Lt)) left_ right_)
  | BinaryOperator.And => Some (Bool (is_truthy left_ && is_truthy right_))
  | BinaryOperator.Or => Some (Bool (is_truthy left_ || is_truthy right_))
  | BinaryOperator.NilCoalesce => Some match left_ with Nil => right_ | _ => left_ end
  | BinaryOperator.In => Some (Bool (contains_value left_ right_))
  | BinaryOperator.NotIn => Some (Bool (negb (contains_value left_ right_)))
  | BinaryOperator.Pipe => None
  end.

(** ** Constant expressions *)

Section collect.
Context {A B : Type} (f : A → option B).

(** A loop that pushes [f(item)?]. *)
Fixpoint collect (l : list A) : option (list B) :=
  match l with
  | [] => Some []
  | x :: l => y ← f x; ys ← collect l; Some (y :: ys)
  end.
End collect.

Definition is_spread (n : SNode) : bool :=
  match node n with Node.Spread _ => true | _ => false end.

(** [constant_value] *)
Fixpoint constant_of (n : Node.Node) : option VmValue :=
  match n with
  | Node.IntLiteral value => Some (Int value)
  | Node.FloatLiteral value => Some (Float value)
  | Node.StringLiteral value | Node.RawStringLiteral value => Some (String value)
  | Node.BoolLiteral value => Some (Bool value)
  | Node.NilLiteral => Some Nil
  | Node.DurationLiteral ms => Duration <$> i64_try_from ms
  | Node.UnaryOp op operand => value ← constant_of (node operand); fold_unary op value
  | Node.BinaryOp op left_ right_ =>
      left_ ← constant_of (node left_);
      right_ ← constant_of (node right_);
      fold_binary op left_ right_
  | Node.Ternary condition true_expr false_expr =>
      condition ← constant_of (node condition);
      if is_truthy condition then constant_of (node true_expr) else constant_of (node false_expr)
  | Node.ListLiteral items =>
      if (MAX_FOLDED_COLLECTION_ITEMS <? len items)%N then None
      else
        List <$> collect (λ item, if is_spread item then None else constant_of (node item)) items
  | Node.DictLiteral entries =>
      if (MAX_FOLDED_COLLECTION_ITEMS <? len entries)%N then None
      else
        entries ← collect (λ e : SNode * SNode,
          if is_spread e.2 then None
          else
            key ← constant_of (node e.1);
            value ← constant_of (node e.2);
            Some (display key, value)) entries;
        Some (Dict (BTree.from_entries entries))
  | Node.Identifier _ | Node.Spread _ => None
  end.

Definition constant_value (expr : SNode) : option VmValue := constant_of (node expr).

(** [value_to_snode] *)
Fixpoint value_to_node (value : VmValue) (span : Span) : option Node.Node :=
  let to_snode value := n ← value_to_node value span; Some (mkSpanned n span) in
  match value with
  | Int value => Some (Node.IntLiteral value)
  | Float value => Some (Node.FloatLiteral value)
  | String value => Some (Node.StringLiteral value)
  | Bool value => Some (Node.BoolLiteral value)
  | Nil => Some Node.NilLiteral
  | Duration ms => if (ms <? 0)%Z then None else Some (Node.DurationLiteral (Z.to_N ms))
  | List values => Node.ListLiteral <$> collect to_snode values
  | Dict values =>
      Node.DictLiteral <$>
        collect (λ e : string * VmValue,
          value ← to_snode e.2; Some (mkSpanned (Node.StringLiteral e.1) span, value)) values
  end.

Definition value_to_snode (value : VmValue) (span : Span) : option SNode :=
  n ← value_to_node value span; Some (mkSpanned n span).

(** [is_constant_fold_candidate] *)
Definition is_constant_fold_candidate (n : Node.Node) : bool :=
  match n with
  | Node.BinaryOp _ _ _ | Node.UnaryOp _ _ | Node.Ternary _ _ _ | Node.ListLiteral _
  | Node.DictLiteral _ => true
  | _ => false
  end.

(** [fold_constant_expr] *)
Definition fold_constant_expr (expr : SNode) : option SNode :=
  if negb (is_constant_fold_candidate (node expr)) then None
  else value ← constant_value expr; value_to_snode value (span expr).
End fold.
