(* ===== verification/FoldSound.v ===== *)
(** * Folding against the executor

    [evaluate] is what an expression means to the executor, operator by operator
    and without resource limits. Folding agrees with it on every expression
    without durations, which the executor turns into integers. *)

From Stdlib Require Import Strings.String.
From S2P Require Import Prelude BTree Program Float64 Semantics Values Resource Text Arith Ops Operators Fold.

(** ** Constants as the executor's values *)

Module V := VmValue.

Fixpoint runtime_of_vm (v : V.VmValue) : RuntimeValue :=
  match v with
  | V.Nil => RNil
  | V.Bool b => RBool b
  | V.Int z | V.Duration z => RInt z
  | V.Float f => RFloat f
  | V.String s => RString s
  | V.List vs => RList (map runtime_of_vm vs)
  | V.Dict es => RRecord (BTree.map_values runtime_of_vm es)
  end.

(** No durations inside, and dictionaries are what a [BTreeMap] can be. *)
Inductive plain : V.VmValue → Prop :=
  | plain_nil : plain V.Nil
  | plain_bool b : plain (V.Bool b)
  | plain_int z : plain (V.Int z)
  | plain_float f : plain (V.Float f)
  | plain_string s : plain (V.String s)
  | plain_list vs : (∀ v, v ∈ vs → plain v) → plain (V.List vs)
  | plain_dict es : BTree.sorted es → (∀ e, e ∈ es → plain e.2) → plain (V.Dict es).

Section vm_ind.
Context (P : V.VmValue → Prop).
Hypotheses (Hint : ∀ z, P (V.Int z)) (Hfloat : ∀ f, P (V.Float f)) (Hstring : ∀ t, P (V.String t))
  (Hbool : ∀ b, P (V.Bool b)) (Hnil : P V.Nil) (Hduration : ∀ z, P (V.Duration z)).
Hypothesis Hlist : ∀ vs, Forall P vs → P (V.List vs).
Hypothesis Hdict : ∀ es, Forall (λ e, P e.2) es → P (V.Dict es).

Fixpoint vm_value_ind (v : V.VmValue) : P v.
Proof.
  destruct v as [z|f|s|b| |d|vs|es];
    [apply Hint|apply Hfloat|apply Hstring|apply Hbool|apply Hnil|apply Hduration| |].
  - apply Hlist. induction vs as [|v vs IH]; constructor; [apply vm_value_ind|exact IH].
  - apply Hdict. induction es as [|e es IH]; constructor; [apply vm_value_ind|exact IH].
Defined.
End vm_ind.

Lemma get_map_value {A B} (f : A → B) k (m : btree A) :
  BTree.get k (BTree.map_values f m) = f <$> BTree.get k m.
Proof. induction m as [|[k' v] m IH]; cbn; [done|]. by destruct (String.eqb k k'). Qed.

Lemma insert_map_values {A B} (f : A → B) k v (m : btree A) :
  BTree.insert k (f v) (BTree.map_values f m) = BTree.map_values f (BTree.insert k v m).
Proof.
  induction m as [|[k' v'] m IH]; cbn; [done|]. destruct (String.compare k k'); cbn; [done|done|].
  f_equal. exact IH.
Qed.

Lemma extend_map_values {A B} (f : A → B) (m : btree A) es :
  BTree.extend (BTree.map_values f m) (map (λ e, (e.1, f e.2)) es) =
  BTree.map_values f (BTree.extend m es).
Proof.
  unfold BTree.extend. revert m; induction es as [|e es IH]; intros m; cbn; [done|].
  by rewrite insert_map_values, IH.
Qed.

Lemma truthy_vm v : truthy (runtime_of_vm v) = V.is_truthy v.
Proof.
  destruct v; try done; unfold truthy, V.is_truthy, len; cbn; [by rewrite length_map|].
  unfold BTree.map_values. by rewrite length_map.
Qed.

Lemma size_vm v : runtime_size (runtime_of_vm v) = V.size v.
Proof.
  induction v as [| | | | | |vs IH|es IH] using vm_value_ind; cbn; f_equal.
  - induction IH as [|v vs Hv _ IHvs]; cbn; [done|]. by rewrite Hv, IHvs.
  - unfold BTree.map_values. induction IH as [|e es He _ IHes]; cbn; [done|].
    rewrite He. by f_equal.
Qed.

Lemma display_vm `{FloatLib} v : plain v → display (runtime_of_vm v) = V.display v.
Proof.
  induction v as [| | | | | |vs IH|es IH] using vm_value_ind; intros Hp; try done; [inversion Hp|..]; cbn.
  - f_equal. f_equal. f_equal. inversion Hp as [| | | | |? Hall|]; subst. rewrite map_map.
    apply map_ext_in. intros v Hv%list_elem_of_In. rewrite Forall_forall in IH. by apply IH, Hall.
  - f_equal. f_equal. f_equal. inversion Hp as [| | | | | |? _ Hall]; subst.
    unfold BTree.map_values. rewrite map_map.
    apply map_ext_in. intros e He%list_elem_of_In. cbn. rewrite Forall_forall in IH.
    by rewrite (IH e He (Hall e He)).
Qed.

(** ** Equality and ordering *)

Definition pair_vm (p : V.VmValue * V.VmValue) : RuntimeValue * RuntimeValue :=
  (runtime_of_vm p.1, runtime_of_vm p.2).

Definition plain_pair (p : V.VmValue * V.VmValue) : Prop := plain p.1 ∧ plain p.2.

Lemma zip_vm a b : zip (map runtime_of_vm a) (map runtime_of_vm b) = map pair_vm (zip a b).
Proof. revert b; induction a as [|x a IH]; intros [|y b]; cbn; [done..|]. by rewrite IH. Qed.

Lemma record_pairs_vm a b :
  record_pairs (BTree.map_values runtime_of_vm a) (BTree.map_values runtime_of_vm b) =
  map pair_vm <$> record_pairs a b.
Proof.
  induction a as [|[k v] a IH]; cbn; [done|].
  rewrite (get_map_value runtime_of_vm k b).
  change (map (λ e, (e.1, runtime_of_vm e.2)) a) with (BTree.map_values runtime_of_vm a).
  rewrite IH.
  destruct (BTree.get k b); cbn; [|done]. by destruct (record_pairs a b).
Qed.

Lemma plain_pairs_zip a b :
  (∀ v, v ∈ a → plain v) → (∀ v, v ∈ b → plain v) → ∀ p, p ∈ zip a b → plain_pair p.
Proof.
  intros Ha Hb [v w] Hp. split; [apply Ha|apply Hb].
  - by apply elem_of_zip_l in Hp.
  - by apply elem_of_zip_r in Hp.
Qed.

Lemma plain_pairs_record a b ps :
  (∀ e, e ∈ a → plain e.2) → (∀ e, e ∈ b → plain e.2) → record_pairs a b = Some ps →
  ∀ p, p ∈ ps → plain_pair p.
Proof.
  revert ps; induction a as [|[k v] a IH]; intros ps Ha Hb Hps p Hp; cbn in Hps.
  - injection Hps as <-. set_solver.
  - destruct (BTree.get k b) as [w|] eqn:Hg; cbn in Hps; [|done].
    destruct (record_pairs a b) as [rest|] eqn:Hr; cbn in Hps; [|done]. injection Hps as <-.
    apply elem_of_cons in Hp as [->|Hp].
    + split; [apply (Ha (k, v)); by left|]. apply btree_get_in in Hg. by apply (Hb (k, w)).
    + eapply (IH rest); try done. intros e He. apply Ha. by right.
Qed.

Lemma equal_step_vm a b : plain a → plain b →
  equal_step (semantic_view (runtime_of_vm a)) (semantic_view (runtime_of_vm b)) =
    map pair_vm <$> equal_step (semantic_view a) (semantic_view b) ∧
  ∀ ps, equal_step (semantic_view a) (semantic_view b) = Some ps → ∀ p, p ∈ ps → plain_pair p.
Proof.
  intros Ha Hb. destruct Ha, Hb; cbn;
    try (split; [by repeat case_match|intros ps Hps; repeat case_match; simplify_eq; set_solver]).
  - rewrite !length_map. destruct (_ =? _)%nat; [|done]. cbn. rewrite zip_vm. split; [done|].
    intros ps [= <-]. by apply plain_pairs_zip.
  - unfold BTree.map_values at 1 2. rewrite !length_map. destruct (_ =? _)%nat; [|done].
    split; [apply record_pairs_vm|]. intros ps Hps.
    eapply plain_pairs_record; [| |exact Hps]; done.
Qed.

Lemma equal_loop_vm fuel pending : (∀ p, p ∈ pending → plain_pair p) →
  equal_loop fuel (map pair_vm pending) = equal_loop fuel pending.
Proof.
  revert pending; induction fuel as [|fuel IH]; intros [|[a b] pending] Hp; try done.
  cbn [map equal_loop pair_vm fst snd]. destruct (Hp (a, b)) as [Ha Hb]; [by left|]. cbn in Ha, Hb.
  destruct (equal_step_vm a b Ha Hb) as [Hstep Hps]. rewrite Hstep.
  destruct (equal_step (semantic_view a) (semantic_view b)) as [ps|]; [|done]. cbn [fmap option_fmap option_map].
  rewrite <- (IH (reverse ps ++ pending)).
  - rewrite map_app. do 2 f_equal. symmetry. apply (fmap_reverse pair_vm).
  - intros p [Hin|Hin]%elem_of_app; [apply (Hps ps eq_refl)|apply Hp; by right].
    by rewrite elem_of_reverse in Hin.
Qed.

Lemma values_equal_vm a b : plain a → plain b →
  semantic_values_equal (runtime_of_vm a) (runtime_of_vm b) = semantic_values_equal a b.
Proof.
  intros Ha Hb. unfold semantic_values_equal. cbn [value_size runtime_semantic vm_semantic].
  rewrite size_vm. apply (equal_loop_vm _ [(a, b)]). by intros p ->%list_elem_of_singleton.
Qed.

Definition task_vm (t : CompareTask V.VmValue) : CompareTask RuntimeValue :=
  match t with
  | Semantics.Values l r => Semantics.Values (runtime_of_vm l) (runtime_of_vm r)
  | ListLength l r => ListLength l r
  end.

Definition plain_task (t : CompareTask V.VmValue) : Prop :=
  match t with Semantics.Values l r => plain l ∧ plain r | ListLength _ _ => True end.

Definition result_vm (r : TaskResult V.VmValue) : TaskResult RuntimeValue :=
  match r with Unordered => Unordered | Ordering_ c => Ordering_ c | Push ts => Push (map task_vm ts) end.

Lemma compare_task_vm t : plain_task t →
  compare_task (task_vm t) = result_vm (compare_task t) ∧
  ∀ ts, compare_task t = Push ts → ∀ t, t ∈ ts → plain_task t.
Proof.
  destruct t as [a b|l r]; [|by split]. intros [Ha Hb].
  destruct Ha, Hb; cbn; try (split; [by repeat case_match|intros ts Hts; done]).
  all: try (destruct (f64_partial_cmp _ _); by split).
  split.
  - rewrite !length_map, zip_vm, map_app, !map_map. done.
  - intros ts [= <-] t [Ht|Ht]%elem_of_app; [|by apply list_elem_of_singleton in Ht as ->].
    apply list_elem_of_fmap in Ht as ([v w] & -> & Hin). by apply (plain_pairs_zip _ _ H H0 (v, w)).
Qed.

Lemma compare_loop_vm fuel pending : (∀ t, t ∈ pending → plain_task t) →
  compare_loop fuel (map task_vm pending) = compare_loop fuel pending.
Proof.
  revert pending; induction fuel as [|fuel IH]; intros [|t pending] Hp; try done.
  cbn [map compare_loop]. destruct (compare_task_vm t) as [Htask Hts]; [apply Hp; by left|].
  rewrite Htask. destruct (compare_task t) as [|[]|ts]; cbn [result_vm]; try done.
  - apply IH. intros u Hu. apply Hp. by right.
  - rewrite <- map_app. apply IH. intros u [Hu|Hu]%elem_of_app; [by apply (Hts ts)|apply Hp; by right].
Qed.

Lemma try_compare_vm a b : plain a → plain b →
  semantic_try_compare (runtime_of_vm a) (runtime_of_vm b) = semantic_try_compare a b.
Proof.
  intros Ha Hb. unfold semantic_try_compare. cbn [value_size runtime_semantic vm_semantic].
  rewrite size_vm. apply (compare_loop_vm _ [Semantics.Values a b]).
  by intros t ->%list_elem_of_singleton.
Qed.

(** ** What expressions mean *)

Section evaluate.
Context `{FloatLib}.

Definition contains_runtime (item container : RuntimeValue) : bool :=
  match container with
  | RList values => existsb (λ value, semantic_values_equal value item) values
  | RRecord values => BTree.contains_key (display item) values
  | RString value => str_contains value (display item)
  | _ => false
  end.

Definition compare_runtime (predicate : comparison → bool) (a b : RuntimeValue) : RuntimeValue :=
  RBool match semantic_try_compare a b with Some c => predicate c | None => false end.

(** Operators of two values. *)
Definition evaluate_binary (op : BinaryOperator.BinaryOperator) (a b : RuntimeValue)
    : result RuntimeValue :=
  match op with
  | BinaryOperator.Add => add a b
  | BinaryOperator.Sub => sub a b
  | BinaryOperator.Mul => mul a b
  | BinaryOperator.Div => div a b
  | BinaryOperator.Mod => modulo a b
  | BinaryOperator.Pow => pow a b
  | BinaryOperator.Eq => Ok (RBool (semantic_values_equal a b))
  | BinaryOperator.Neq => Ok (RBool (negb (semantic_values_equal a b)))
  | BinaryOperator.Lt => Ok (compare_runtime (λ c, bool_decide (c = Lt)) a b)
  | BinaryOperator.Gt => Ok (compare_runtime (λ c, bool_decide (c = Gt)) a b)
  | BinaryOperator.Lte => Ok (compare_runtime (λ c, bool_decide (c ≠ Gt)) a b)
  | BinaryOperator.Gte => Ok (compare_runtime (λ c, bool_decide (c ≠ Lt)) a b)
  | BinaryOperator.In => Ok (RBool (contains_runtime a b))
  | BinaryOperator.NotIn => Ok (RBool (negb (contains_runtime a b)))
  | _ => Err (diagnostic unsupported_portable_opcode)
  end.

(** Conjunction, disjunction and [??] evaluate their right side on demand. *)
Fixpoint evaluate (n : Node.Node) : result RuntimeValue :=
  match n with
  | Node.IntLiteral z => Ok (RInt z)
  | Node.FloatLiteral f => Ok (RFloat f)
  | Node.StringLiteral s | Node.RawStringLiteral s => Ok (RString s)
  | Node.BoolLiteral b => Ok (RBool b)
  | Node.NilLiteral => Ok RNil
  | Node.DurationLiteral ms => Ok (RInt (Z.of_N ms))
  | Node.UnaryOp Neg operand => v ← evaluate (node operand); negate v
  | Node.UnaryOp Operators.Not operand => v ← evaluate (node operand); Ok (RBool (negb (truthy v)))
  | Node.BinaryOp BinaryOperator.And l r =>
      v ← evaluate (node l);
      if truthy v then v ← evaluate (node r); Ok (RBool (truthy v)) else Ok (RBool false)
  | Node.BinaryOp BinaryOperator.Or l r =>
      v ← evaluate (node l);
      if truthy v then Ok (RBool true) else v ← evaluate (node r); Ok (RBool (truthy v))
  | Node.BinaryOp BinaryOperator.NilCoalesce l r =>
      v ← evaluate (node l);
      if semantic_values_equal v RNil then evaluate (node r) else Ok v
  | Node.BinaryOp op l r =>
      a ← evaluate (node l); b ← evaluate (node r); evaluate_binary op a b
  | Node.Ternary c t f =>
      v ← evaluate (node c); if truthy v then evaluate (node t) else evaluate (node f)
  | Node.ListLiteral items => RList <$> result_map (λ item, evaluate (node item)) items
  | Node.DictLiteral entries =>
      entries ← result_map (λ e : SNode * SNode,
        key ← evaluate (node e.1); value ← evaluate (node e.2); Ok (display key, value)) entries;
      Ok (RRecord (BTree.from_entries entries))
  | Node.Identifier _ | Node.Spread _ => Err (diagnostic unsupported_portable_opcode)
  end.

Fixpoint duration_free (n : Node.Node) : bool :=
  match n with
  | Node.DurationLiteral _ => false
  | Node.UnaryOp _ e => duration_free (node e)
  | Node.BinaryOp _ l r => duration_free (node l) && duration_free (node r)
  | Node.Ternary c t f => duration_free (node c) && duration_free (node t) && duration_free (node f)
  | Node.ListLiteral items => forallb (λ item, duration_free (node item)) items
  | Node.DictLiteral entries =>
      forallb (λ e : SNode * SNode, duration_free (node e.1) && duration_free (node e.2)) entries
  | _ => true
  end.
End evaluate.

(** ** Soundness *)

Section soundness.
Context `{FloatLib}.

Lemma fold_numeric_sound ints ints' floats a b v :
  (∀ x y z, ints x y = Some z → ints' x y = Some z) →
  fold_numeric ints floats a b = Some v →
  numeric (runtime_of_vm a) (runtime_of_vm b) ints' floats = Ok (runtime_of_vm v) ∧ plain v.
Proof.
  intros Hints Hv. destruct a, b; cbn in Hv; try done;
    try (injection Hv as <-; by split; [|constructor]).
  destruct (ints _ _) as [z|] eqn:Ez; [|done]. cbn in Hv. injection Hv as <-.
  cbn. rewrite (Hints _ _ _ Ez). by split; [|constructor].
Qed.

Lemma repeat_string_empty n : repeat_string "" n = ""%string.
Proof. by induction n. Qed.

Lemma fold_repeat_sound text count v :
  fold_repeat text count = Some v → repeat_text text count = Ok (runtime_of_vm v) ∧ plain v.
Proof.
  unfold fold_repeat, repeat_text. intros Hv.
  destruct (checked_mul_usize _ _) as [n|] eqn:En; cbn in Hv; [|done].
  destruct (N.ltb_spec MAX_FOLDED_STRING_BYTES n) as [|Hle]; [done|]. injection Hv as <-.
  split; [|constructor]. cbn [runtime_of_vm].
  destruct (String.eqb_spec text "") as [->|Hne]; cbn [orb]; [by rewrite repeat_string_empty|].
  destruct (Z.leb_spec count 0) as [Hneg|Hpos].
  - by replace (Z.max count 0) with 0%Z by lia.
  - replace (Z.max count 0) with count in * by lia. rewrite En. cbn.
    assert (MAX_VALUE_BYTES <? n = false)%N as -> by (apply N.ltb_ge; unfold MAX_VALUE_BYTES, MAX_FOLDED_STRING_BYTES in *; lia).
    cbn. by rewrite Z_N_nat.
Qed.

Lemma plain_extend a b :
  plain (V.Dict a) → (∀ e, e ∈ b → plain e.2) → plain (V.Dict (BTree.extend a b)).
Proof.
  intros Hpa Hb. inversion Hpa as [| | | | | |? Hs Ha]; subst.
  constructor; [by apply btree_extend_sorted|by apply btree_extend_values].
Qed.

Lemma fold_add_sound a b v : plain a → plain b → fold_add a b = Some v →
  add (runtime_of_vm a) (runtime_of_vm b) = Ok (runtime_of_vm v) ∧ plain v.
Proof.
  intros Ha Hb Hv.
  destruct a, b; try (exact (fold_numeric_sound checked_add checked_add f64_add _ _ v (λ _ _ _, id) Hv)); cbn in Hv.
  - destruct (checked_add_usize _ _) as [n|] eqn:En; cbn in Hv; [|done].
    destruct (N.ltb_spec MAX_FOLDED_STRING_BYTES n) as [|Hle]; [done|]. injection Hv as <-.
    cbn. rewrite En. cbn.
    assert (MAX_VALUE_BYTES <? n = false)%N as -> by (apply N.ltb_ge; unfold MAX_VALUE_BYTES, MAX_FOLDED_STRING_BYTES in *; lia).
    by split; [|constructor].
  - destruct (checked_add_usize _ _) as [n|] eqn:En; cbn in Hv; [|done].
    destruct (N.ltb_spec MAX_FOLDED_COLLECTION_ITEMS n) as [|Hle]; [done|]. injection Hv as <-.
    cbn. unfold len in *. rewrite !length_map, En. cbn.
    assert (MAX_VALUE_NODES <? n = false)%N as -> by (apply N.ltb_ge; unfold MAX_VALUE_NODES, MAX_FOLDED_COLLECTION_ITEMS in *; lia).
    cbn. rewrite map_app. split; [done|]. inversion Ha; inversion Hb; subst. constructor.
    intros w [Hw|Hw]%elem_of_app; auto.
  - destruct (checked_add_usize _ _) as [n|] eqn:En; cbn in Hv; [|done].
    destruct (N.ltb_spec MAX_FOLDED_COLLECTION_ITEMS n) as [|Hle]; [done|]. injection Hv as <-.
    split; [|apply plain_extend; [done|by inversion Hb]]. cbn. unfold len, BTree.map_values in *. rewrite !length_map.
    assert (saturating_add_usize (N.of_nat (length entries)) (N.of_nat (length entries0)) = n) as ->.
    { unfold checked_add_usize, saturating_add_usize in *. 
      destruct (N.leb_spec (N.of_nat (length entries) + N.of_nat (length entries0)) USIZE_MAX); [|done].
      injection En as <-. lia. }
    assert (MAX_VALUE_NODES <? n = false)%N as -> by (apply N.ltb_ge; unfold MAX_VALUE_NODES, MAX_FOLDED_COLLECTION_ITEMS in *; lia).
    cbn. do 2 f_equal. apply (extend_map_values runtime_of_vm).
Qed.

Lemma fold_pow_sound a b v : fold_pow a b = Some v →
  pow (runtime_of_vm a) (runtime_of_vm b) = Ok (runtime_of_vm v) ∧ plain v.
Proof.
  intros Hv. destruct a, b; cbn in Hv; try done; try (injection Hv as <-; by split; [|constructor]).
  - unfold pow; cbn [runtime_of_vm]. destruct (in_u32 _).
    + destruct (checked_pow _ _) as [z|]; [|done]. cbn in Hv. injection Hv as <-. by split; [|constructor].
    + injection Hv as <-. by split; [|constructor].
  - unfold pow; cbn [runtime_of_vm]. destruct (in_i32 _); injection Hv as <-; by split; [|constructor].
Qed.

Lemma checked_rem_wrapping x y z : checked_rem x y = Some z → Some (wrapping_rem x y) = Some z.
Proof. unfold checked_rem, wrapping_rem. by repeat case_match. Qed.

Lemma fold_mod_sound a b v : plain b → fold_mod a b = Some v →
  modulo (runtime_of_vm a) (runtime_of_vm b) = Ok (runtime_of_vm v) ∧ plain v.
Proof.
  intros Hb Hv. unfold fold_mod in Hv.
  assert (match b with V.Int y => (y =? 0)%Z | V.Float y => f64_eqb y f64_zero | _ => false end =
          is_zero (runtime_of_vm b)) as Hz by (by destruct Hb).
  rewrite Hz in Hv. unfold modulo.
  destruct a as [x|x| | | | | |]; try done; destruct (is_zero (runtime_of_vm b)); try done;
    exact (fold_numeric_sound checked_rem _ f64_rem _ _ v checked_rem_wrapping Hv).
Qed.

Lemma fold_div_sound a b v : fold_div a b = Some v →
  div (runtime_of_vm a) (runtime_of_vm b) = Ok (runtime_of_vm v) ∧ plain v.
Proof.
  intros Hv.
  assert (fold_numeric checked_div f64_div a b = Some v) as Hnum.
  { destruct a as [x| | | | | | |]; try exact Hv. destruct b as [y| | | | | | |]; try exact Hv.
    destruct y; [done|exact Hv|exact Hv]. }
  apply (fold_numeric_sound checked_div checked_div f64_div) in Hnum as [Hnum Hp]; [|done].
  split; [|done]. destruct a as [x| | | | |x| |]; try exact Hnum; [|discriminate Hv].
  destruct b as [y| | | | |y| |]; try exact Hnum; [|discriminate Hv].
  destruct y; [discriminate Hv|exact Hnum|exact Hnum].
Qed.

Lemma fold_mul_sound a b v : fold_mul a b = Some v →
  mul (runtime_of_vm a) (runtime_of_vm b) = Ok (runtime_of_vm v) ∧ plain v.
Proof.
  intros Hv.
  destruct a, b; first [discriminate Hv|exact (fold_repeat_sound _ _ _ Hv)
    |exact (fold_numeric_sound checked_mul checked_mul f64_mul _ _ v (λ _ _ _, id) Hv)].
Qed.

Lemma contains_vm a b : plain a → plain b →
  contains_runtime (runtime_of_vm a) (runtime_of_vm b) = contains_value a b.
Proof.
  intros Ha Hb. destruct Hb as [| | | |text|items Hitems|es Hs Hes]; try done;
    cbn [contains_runtime runtime_of_vm contains_value].
  - rewrite display_vm by done. by destruct a.
  - induction items as [|w items IH]; cbn [map existsb]; [done|]. rewrite values_equal_vm; [|apply Hitems; by left|done].
    f_equal. apply IH. intros x Hx. apply Hitems. by right.
  - unfold BTree.contains_key. rewrite get_map_value, display_vm by done. by destruct (BTree.get _ _).
Qed.

Lemma fold_binary_sound op a b v : plain a → plain b →
  op ∉ [BinaryOperator.And; BinaryOperator.Or; BinaryOperator.NilCoalesce] →
  fold_binary op a b = Some v →
  evaluate_binary op (runtime_of_vm a) (runtime_of_vm b) = Ok (runtime_of_vm v) ∧ plain v.
Proof.
  intros Ha Hb Hop Hv. destruct op; cbn [fold_binary evaluate_binary] in *; try done; try set_solver;
    try (injection Hv as <-; split; [|constructor]; unfold fold_equal, fold_compare, compare_runtime;
         cbn [runtime_of_vm]; by rewrite ?values_equal_vm, ?try_compare_vm, ?contains_vm).
  - by apply fold_add_sound.
  - by apply (fold_numeric_sound checked_sub checked_sub f64_sub).
  - by apply fold_mul_sound.
  - by apply fold_div_sound.
  - by apply fold_mod_sound.
  - by apply fold_pow_sound.
Qed.

(** *** Conditional operators *)

Lemma fold_and_sound a b v : fold_binary BinaryOperator.And a b = Some v →
  v = V.Bool (truthy (runtime_of_vm a) && truthy (runtime_of_vm b)).
Proof. intros [= <-]. by rewrite !truthy_vm. Qed.

Lemma fold_or_sound a b v : fold_binary BinaryOperator.Or a b = Some v →
  v = V.Bool (truthy (runtime_of_vm a) || truthy (runtime_of_vm b)).
Proof. intros [= <-]. by rewrite !truthy_vm. Qed.

Lemma equal_nil v : plain v →
  semantic_values_equal (runtime_of_vm v) RNil = match v with V.Nil => true | _ => false end.
Proof. by intros []. Qed.

(** *** Expressions *)

Section node_ind.
Context (P : Node.Node → Prop).
Hypotheses (Hstr : ∀ s, P (Node.StringLiteral s)) (Hraw : ∀ s, P (Node.RawStringLiteral s))
  (Hint : ∀ z, P (Node.IntLiteral z)) (Hflt : ∀ f, P (Node.FloatLiteral f))
  (Hbool : ∀ b, P (Node.BoolLiteral b)) (Hnil : P Node.NilLiteral)
  (Hdur : ∀ ms, P (Node.DurationLiteral ms)) (Hid : ∀ x, P (Node.Identifier x))
  (Hbin : ∀ op l r, P (node l) → P (node r) → P (Node.BinaryOp op l r))
  (Hun : ∀ op e, P (node e) → P (Node.UnaryOp op e))
  (Htern : ∀ c t f, P (node c) → P (node t) → P (node f) → P (Node.Ternary c t f))
  (Hlist : ∀ items, Forall (λ i : SNode, P (node i)) items → P (Node.ListLiteral items))
  (Hdict : ∀ es, Forall (λ e : SNode * SNode, P (node e.1) ∧ P (node e.2)) es →
     P (Node.DictLiteral es))
  (Hspread : ∀ e, P (node e) → P (Node.Spread e)).

Fixpoint node_ind (n : Node.Node) : P n :=
  match n with
  | Node.StringLiteral s => Hstr s
  | Node.RawStringLiteral s => Hraw s
  | Node.IntLiteral z => Hint z
  | Node.FloatLiteral f => Hflt f
  | Node.BoolLiteral b => Hbool b
  | Node.NilLiteral => Hnil
  | Node.DurationLiteral ms => Hdur ms
  | Node.Identifier x => Hid x
  | Node.BinaryOp op l r => Hbin op l r (node_ind (node l)) (node_ind (node r))
  | Node.UnaryOp op e => Hun op e (node_ind (node e))
  | Node.Ternary c t f => Htern c t f (node_ind (node c)) (node_ind (node t)) (node_ind (node f))
  | Node.ListLiteral items =>
      Hlist items ((fix go items : Forall (λ i : SNode, P (node i)) items :=
        match items with
        | [] => Forall_nil_2 _
        | i :: items => Forall_cons_2 _ _ _ (node_ind (node i)) (go items)
        end) items)
  | Node.DictLiteral es =>
      Hdict es ((fix go es : Forall (λ e : SNode * SNode, P (node e.1) ∧ P (node e.2)) es :=
        match es with
        | [] => Forall_nil_2 _
        | e :: es => Forall_cons_2 _ _ _ (conj (node_ind (node e.1)) (node_ind (node e.2))) (go es)
        end) es)
  | Node.Spread e => Hspread e (node_ind (node e))
  end.
End node_ind.

(** A loop of folds against the loop of evaluations. *)
Lemma collect_sound {A B C} (f : A → option B) (g : A → result C) (h : B → C) (Q : B → Prop) l vs :
  Forall (λ x, ∀ v, f x = Some v → g x = Ok (h v) ∧ Q v) l → collect f l = Some vs →
  result_map g l = Ok (map h vs) ∧ ∀ v, v ∈ vs → Q v.
Proof.
  intros Hl. revert vs; induction Hl as [|x l Hx _ IH]; intros vs Hvs; cbn in *.
  - injection Hvs as <-. split; [done|]. set_solver.
  - destruct (f x) as [v|]; cbn in Hvs; [|done]. destruct (collect f l) as [vs'|]; cbn in Hvs; [|done].
    injection Hvs as <-. destruct (Hx v eq_refl) as [-> Hq]. destruct (IH _ eq_refl) as [-> Hqs].
    split; [done|]. set_solver.
Qed.

Lemma constant_sound n v : duration_free n = true → constant_of n = Some v →
  evaluate n = Ok (runtime_of_vm v) ∧ plain v.
Proof.
  revert v; induction n as [s|s|z|f|b| |ms|x|op l r IHl IHr|op e IHe|c t f IHc IHt IHf|items IH|es IH|e IHe]
    using node_ind; intros v Hdf Hv; cbn [duration_free constant_of] in *; try done;
    try (injection Hv as <-; by split; [|constructor]).
  - apply andb_true_iff in Hdf as [Hdl Hdr].
    destruct (constant_of (node l)) as [a|]; cbn in Hv; [|done].
    destruct (constant_of (node r)) as [b|]; cbn in Hv; [|done].
    destruct (IHl a) as [El Pl]; [done..|]. destruct (IHr b) as [Er Pr]; [done..|].
    destruct (decide (op ∈ [BinaryOperator.And; BinaryOperator.Or; BinaryOperator.NilCoalesce])) as [Hop|Hop].
    + cbn [evaluate]. apply elem_of_cons in Hop as [->|Hop]; [|apply elem_of_cons in Hop as [->|Hop]].
      * rewrite El, Er. apply fold_and_sound in Hv as ->. split; [|constructor]. cbn.
        by destruct (truthy (runtime_of_vm a)).
      * rewrite El, Er. apply fold_or_sound in Hv as ->. split; [|constructor]. cbn.
        by destruct (truthy (runtime_of_vm a)).
      * apply list_elem_of_singleton in Hop as ->. rewrite El, Er. cbn in Hv. injection Hv as <-. cbn [mbind result_bind].
        rewrite equal_nil by done. by destruct Pl; split; try constructor.
    + destruct (fold_binary_sound op a b v) as [Hev Hp]; try done. split; [|done].
      assert (evaluate (Node.BinaryOp op l r) =
        (a ← evaluate (node l); b ← evaluate (node r); evaluate_binary op a b)) as ->.
      { destruct op; try done; exfalso; apply Hop; set_solver. }
      by rewrite El, Er.
  - destruct (constant_of (node e)) as [a|]; cbn in Hv; [|done].
    destruct (IHe a) as [Ee Pe]; [done..|]. destruct op; cbn [evaluate]; rewrite Ee; cbn [mbind result_bind option_bind] in *.
    + destruct a as [z|f| | | | | |]; try done; cbn [runtime_of_vm negate fold_unary] in *.
      * destruct (checked_neg z) as [z'|]; cbn in Hv; [|done]. injection Hv as <-.
        by split; [|constructor].
      * injection Hv as <-. by split; [|constructor].
    + assert (v = V.Bool (negb (V.is_truthy a))) as -> by (by destruct a; injection Hv as <-).
      rewrite truthy_vm. by split; [|constructor].
  - apply andb_true_iff in Hdf as [[Hdc Hdt]%andb_true_iff Hdf].
    destruct (constant_of (node c)) as [a|]; cbn in Hv; [|done].
    destruct (IHc a) as [Ec Pc]; [done..|]. cbn [evaluate]. rewrite Ec. cbn [mbind result_bind].
    rewrite truthy_vm. destruct (V.is_truthy a); auto.
  - destruct (_ <? _)%N; [done|]. destruct (collect _ _) as [vs|] eqn:Evs; cbn in Hv; [|done].
    injection Hv as <-.
    apply (collect_sound _ (λ item : SNode, evaluate (node item)) runtime_of_vm plain) in Evs as [Ev Hp].
    + cbn [evaluate]. rewrite Ev. by split; [|constructor].
    + rewrite Forall_forall in IH |- *. intros i Hi w Hw. rewrite forallb_forall in Hdf.
      destruct (is_spread i); [done|]. apply IH; try done. by apply Hdf, list_elem_of_In.
  - destruct (_ <? _)%N; [done|]. destruct (collect _ _) as [vs|] eqn:Evs; cbn in Hv; [|done].
    injection Hv as <-.
    apply (collect_sound _ (λ e : SNode * SNode,
        key ← evaluate (node e.1); value ← evaluate (node e.2); Ok (display key, value))
        (λ e, (e.1, runtime_of_vm e.2)) (λ e, plain e.2)) in Evs as [Ev Hp].
    + cbn [evaluate]. rewrite Ev. split; [cbn; do 2 f_equal; apply (extend_map_values runtime_of_vm [])|].
      apply plain_extend; [constructor; [apply btree_sorted_nil|set_solver]|done].
    + rewrite Forall_forall in IH |- *. intros i Hi w Hw. rewrite forallb_forall in Hdf.
      destruct (is_spread i.2); [done|].
      assert (In i es) as [Hd1 Hd2]%Hdf%andb_true_iff by (by apply list_elem_of_In). destruct (IH i Hi) as [IH1 IH2].
      destruct (constant_of (node i.1)) as [k|]; cbn in Hw; [|done].
      destruct (constant_of (node i.2)) as [w'|]; cbn in Hw; [|done]. injection Hw as <-.
      destruct (IH1 k) as [-> Pk]; [done..|]. destruct (IH2 w') as [-> Pw]; [done..|].
      cbn. by rewrite display_vm.
Qed.
End soundness.

(** ** Putting the value back *)

Definition is_Ok {A} (r : result A) : Prop := ∃ a, r = Ok a.

Section literals.
Context `{FloatLib}.

Lemma collect_Forall {A B} (f : A → option B) (Q : A → B → Prop) l ys :
  Forall (λ x, ∀ y, f x = Some y → Q x y) l → collect f l = Some ys → Forall2 Q l ys.
Proof.
  intros Hl. revert ys; induction Hl as [|x l Hx _ IH]; intros ys Hys; cbn in Hys.
  - injection Hys as <-. constructor.
  - destruct (f x) as [y|]; cbn in Hys; [|done]. destruct (collect f l) as [ys'|]; cbn in Hys; [|done].
    injection Hys as <-. constructor; auto.
Qed.

Lemma Forall2_right {A B} (P : B → Prop) (l : list A) ys : Forall2 (λ _ y, P y) l ys → Forall P ys.
Proof. induction 1; by constructor. Qed.

Lemma value_to_node_sound v sp n : plain v → value_to_node v sp = Some n →
  evaluate n = Ok (runtime_of_vm v).
Proof.
  revert n; induction v as [| | | | | |vs IH|es IH] using vm_value_ind; intros n Hp Hn; cbn in Hn;
    try (injection Hn as <-; done).
  - inversion Hp.
  - destruct (collect _ _) as [ns|] eqn:Ens; cbn in Hn; [|done]. injection Hn as <-.
    apply (collect_Forall _ (λ v i, evaluate (node i) = Ok (runtime_of_vm v))) in Ens.
    + cbn [evaluate runtime_of_vm].
      assert (result_map (λ item : SNode, evaluate (node item)) ns = Ok (map runtime_of_vm vs)) as ->; [|done].
      clear IH Hp. induction Ens as [|v i vs ns Hi _ IH]; cbn; [done|]. by rewrite Hi, IH.
    + inversion Hp as [| | | | |? Hall|]; subst. rewrite Forall_forall in IH |- *.
      intros v Hv i Hi. destruct (value_to_node v sp) as [m|] eqn:Em; cbn in Hi; [|done].
      injection Hi as <-. cbn. apply (IH v Hv); auto.
  - destruct (collect _ _) as [ns|] eqn:Ens; cbn in Hn; [|done]. injection Hn as <-.
    inversion Hp as [| | | | | |? Hs Hall]; subst.
    apply (collect_Forall _ (λ (e : string * V.VmValue) (i : SNode * SNode),
      node i.1 = Node.StringLiteral e.1 ∧ evaluate (node i.2) = Ok (runtime_of_vm e.2))) in Ens.
    + cbn [evaluate runtime_of_vm].
      assert (result_map (λ e : SNode * SNode,
        key ← evaluate (node e.1); value ← evaluate (node e.2); Ok (display key, value)) ns =
        Ok (BTree.map_values runtime_of_vm es)) as ->.
      { clear IH Hp Hs Hall. induction Ens as [|e i es ns [Hk Hi] _ IH]; cbn; [done|]. by rewrite Hk, Hi, IH. }
      cbn [mbind result_bind]. do 2 f_equal. rewrite <- (btree_from_sorted es Hs) at 2.
      apply (extend_map_values runtime_of_vm []).
    + rewrite Forall_forall in IH |- *.
      intros e Hin i Hi. destruct (value_to_node e.2 sp) as [m|] eqn:Em; cbn in Hi; [|done].
      injection Hi as <-. cbn. split; [done|]. apply (IH e Hin); auto.
Qed.

(** C15: Constant folding preserves meaning: on every expression without duration
    literals, the literal the optimizer puts in its place evaluates to the value
    the executor's own operators give, and that value exists: folding never
    hides an error, and declines on division by zero, overflow and oversized
    results. With durations it does not: [1s == 1000] folds to [false], while the
    executor, which loads durations as integers, computes [true]. *)
Theorem folding_preserves_meaning :
  (∀ e e', duration_free (node e) = true → fold_constant_expr e = Some e' →
     span e' = span e ∧ evaluate (node e') = evaluate (node e) ∧ is_Ok (evaluate (node e))) ∧
  ∃ e e', fold_constant_expr e = Some e' ∧
    evaluate (node e) = Ok (RBool true) ∧ evaluate (node e') = Ok (RBool false).
Proof.
  split.
  - intros e e' Hdf He. unfold fold_constant_expr in He.
    destruct (negb _); [done|]. destruct (constant_value e) as [v|] eqn:Ev; cbn in He; [|done].
    unfold value_to_snode in He. destruct (value_to_node v (span e)) as [n|] eqn:En; cbn in He; [|done].
    injection He as <-. destruct (constant_sound _ _ Hdf Ev) as [Hev Hp]. rewrite Hev.
    split; [done|]. split; [by eapply value_to_node_sound|by eexists].
  - pose (sp := mkSpan 0 10 1 1 1). pose (literal (n : Node.Node) := mkSpanned n sp).
    exists (literal (Node.BinaryOp BinaryOperator.Eq (literal (Node.DurationLiteral 1000))
                      (literal (Node.IntLiteral 1000)))), (literal (Node.BoolLiteral false)).
    by split_and!.
Qed.
End literals.
