(* ===== verification/Emit.v ===== *)
(** * Building chunks ([program.rs])

    What the compiler does to a chunk: interning constants, appending whole
    instructions with their source positions, and patching jump targets. The
    facts below are about growth: everything appended stays where it is. *)

From stdpp Require Import countable.
From Stdlib Require Import Strings.String.
From S2P Require Import Prelude BTree Opcode Program Verifier.

(** ** State *)

#[export] Instance constant_eq_dec : EqDecision Constant.Constant.
Proof. solve_decision. Defined.

#[export] Program Instance constant_countable : Countable Constant.Constant :=
  inj_countable'
    (λ c, match c with
          | Constant.Int z => inl (inl z)
          | Constant.Float f => inl (inr f)
          | Constant.String s => inr (inl s)
          | Constant.Bool b => inr (inr (inl b))
          | Constant.Nil => inr (inr (inr (inl tt)))
          | Constant.Duration z => inr (inr (inr (inr z)))
          end)
    (λ s, match s with
          | inl (inl z) => Constant.Int z
          | inl (inr f) => Constant.Float f
          | inr (inl s) => Constant.String s
          | inr (inr (inl b)) => Constant.Bool b
          | inr (inr (inr (inl _))) => Constant.Nil
          | inr (inr (inr (inr z))) => Constant.Duration z
          end) _.
Next Obligation. by intros []. Qed.

(** A chunk under construction. [ConstantKey] is the constant itself: floats are
    their bits. [constant_index] is the map [Chunk::new] starts with. *)
Record Emitter := mkEmitter {
  chunk : Chunk;
  constant_index : gmap Constant.Constant N;
  current_col : N
}.

(** [Chunk::new] *)
Definition chunk_new : Emitter := mkEmitter (mkChunk [] [] [] [] None [] [] [] false) ∅ 0.

Definition code_len (e : Emitter) : nat := length (chunk_code (chunk e)).

Definition set_code (code : list byte) (e : Emitter) : Emitter :=
  let c := chunk e in
  mkEmitter (mkChunk code (chunk_constants c) (chunk_lines c) (chunk_columns c) (chunk_source_file c)
    (chunk_functions c) (chunk_local_slots c) (chunk_binding_types c) (chunk_references_outer_names c))
    (constant_index e) (current_col e).

(** [self.references_outer_names = true] *)
Definition mark_outer (b : bool) (e : Emitter) : Emitter :=
  let c := chunk e in
  mkEmitter (mkChunk (chunk_code c) (chunk_constants c) (chunk_lines c) (chunk_columns c)
    (chunk_source_file c) (chunk_functions c) (chunk_local_slots c) (chunk_binding_types c)
    (chunk_references_outer_names c || b)) (constant_index e) (current_col e).

(** [Chunk::set_column] *)
Definition set_column (column : N) (e : Emitter) : Emitter :=
  mkEmitter (chunk e) (constant_index e) column.

(** ** Constants *)

Definition U16_MAX : N := 65535.

(** [Chunk::add_constant]; [None] is the [expect] on a full pool. *)
Definition add_constant (constant : Constant.Constant) (e : Emitter) : option (N * Emitter) :=
  match constant_index e !! constant with
  | Some existing => Some (existing, e)
  | None =>
      let c := chunk e in
      let slot := len (chunk_constants c) in
      if (U16_MAX <? slot)%N then None
      else Some (slot, mkEmitter
        (mkChunk (chunk_code c) (chunk_constants c ++ [constant]) (chunk_lines c) (chunk_columns c)
           (chunk_source_file c) (chunk_functions c) (chunk_local_slots c) (chunk_binding_types c)
           (chunk_references_outer_names c))
        (<[constant := slot]> (constant_index e)) (current_col e))
  end.

(** ** Instructions *)

(** [push_bytes]: every byte of an instruction has its position. *)
Definition push_bytes (bytes : list byte) (line : N) (e : Emitter) : Emitter :=
  let c := chunk e in
  mkEmitter (mkChunk (chunk_code c ++ bytes) (chunk_constants c)
    (chunk_lines c ++ replicate (length bytes) line)
    (chunk_columns c ++ replicate (length bytes) (current_col e)) (chunk_source_file c)
    (chunk_functions c) (chunk_local_slots c) (chunk_binding_types c) (chunk_references_outer_names c))
    (constant_index e) (current_col e).

(** [reads_outer_name] *)
Definition reads_outer_name (op : Op.Op) : bool :=
  match op with
  | Op.GetVar | Op.SetVar | Op.Call | Op.TailCall | Op.Pipe | Op.CheckType | Op.CallSpread
  | Op.CallBuiltin | Op.CallBuiltinSpread => true
  | _ => false
  end.

Definition op_byte (op : Op.Op) : byte := n2b (Op.discriminant op).

(** [Chunk::emit] *)
Definition emit (op : Op.Op) (line : N) (e : Emitter) : Emitter :=
  mark_outer (reads_outer_name op) (push_bytes [op_byte op] line e).

(** A closure that reads outer names makes its owner read them. *)
Definition captures_reader (op : Op.Op) (value : N) (e : Emitter) : bool :=
  match op with
  | Op.Closure =>
      match chunk_functions (chunk e) !! N.to_nat value with
      | Some function => chunk_references_outer_names (fn_chunk function)
      | None => false
      end
  | _ => false
  end.

(** [Chunk::emit_u16] *)
Definition emit_u16 (op : Op.Op) (value : N) (line : N) (e : Emitter) : Emitter :=
  let e := push_bytes [op_byte op; n2b (N.shiftr value 8); n2b value] line e in
  mark_outer (reads_outer_name op || captures_reader op value e) e.

(** [Chunk::emit_u16_operands] *)
Definition emit_u16_operands (op : Op.Op) (values : list N) (line : N) (e : Emitter) : Emitter :=
  mark_outer (reads_outer_name op)
    (push_bytes (op_byte op :: concat (map (be_bytes 2) values)) line e).

(** [Chunk::emit_u8] *)
Definition emit_u8 (op : Op.Op) (value : N) (line : N) (e : Emitter) : Emitter :=
  mark_outer (reads_outer_name op) (push_bytes [op_byte op; n2b value] line e).

(** [Chunk::emit_call_builtin] *)
Definition emit_call_builtin (id name argc line : N) (e : Emitter) : Emitter :=
  mark_outer true
    (push_bytes (op_byte Op.CallBuiltin :: be_bytes 8 id ++ be_bytes 2 name ++ [n2b argc]) line e).

(** [Chunk::emit_call_builtin_spread] *)
Definition emit_call_builtin_spread (id name line : N) (e : Emitter) : Emitter :=
  mark_outer true (push_bytes (op_byte Op.CallBuiltinSpread :: be_bytes 8 id ++ be_bytes 2 name) line e).

(** [Chunk::emit_method_call_inner] *)
Definition emit_method_call_inner (op : Op.Op) (name argc line : N) (e : Emitter) : Emitter :=
  push_bytes [op_byte op; n2b (N.shiftr name 8); n2b name; n2b argc] line e.

(** [Chunk::emit_set_local_slot_property] *)
Definition emit_set_local_slot_property (property slot line : N) (e : Emitter) : Emitter :=
  push_bytes [op_byte Op.SetLocalSlotProperty; n2b (N.shiftr property 8); n2b property;
              n2b (N.shiftr slot 8); n2b slot] line e.

(** ** Jumps *)

(** [Chunk::emit_jump]: the target is patched in later. *)
Definition emit_jump (op : Op.Op) (line : N) (e : Emitter) : nat * Emitter :=
  (code_len e + 1, push_bytes [op_byte op; n2b 255; n2b 255] line e).

(** [Chunk::patch_jump_to]: [target as u16]; the slice is in bounds for every
    patch that [emit_jump] returned. *)
Definition patch_jump_to (patch target : nat) (e : Emitter) : Emitter :=
  let code := chunk_code (chunk e) in
  set_code (take patch code ++ be_bytes 2 (N.of_nat target mod 65536) ++ drop (patch + 2) code) e.

(** [Chunk::patch_jump] *)
Definition patch_jump (patch : nat) (e : Emitter) : Emitter := patch_jump_to patch (code_len e) e.

(** [Chunk::read_u16] *)
Definition read_u16_at (position : nat) (e : Emitter) : N :=
  N.of_nat (read_code_u16 (chunk_code (chunk e)) position).

(** ** Tables *)

(** [Chunk::add_local_slot]; [None] is the [expect]. *)
Definition add_local_slot (name : string) (mutable : bool) (scope_depth : N) (e : Emitter)
    : option (N * Emitter) :=
  let c := chunk e in
  let slot := len (chunk_local_slots c) in
  if (U16_MAX <? slot)%N then None
  else Some (slot, mkEmitter
    (mkChunk (chunk_code c) (chunk_constants c) (chunk_lines c) (chunk_columns c) (chunk_source_file c)
       (chunk_functions c) (chunk_local_slots c ++ [mkLocalSlotInfo name mutable scope_depth])
       (chunk_binding_types c) (chunk_references_outer_names c))
    (constant_index e) (current_col e)).
