(* ===== verification/Compile.v ===== *)
(** * Compiling expressions ([compiler/mod.rs], [compiler/expressions.rs])

    [compile_node] on the nodes of Fold.v: literals, operators, conditionals and
    collections, with folding and typed opcodes when optimisations are on. *)

From stdpp Require Import countable.
From Stdlib Require Import Strings.String.
From S2P Require Import Prelude BTree Opcode Program Float64 Semantics Values Ops Operators Fold Emit.

(** ** The compiler's state *)

(** What compiling an expression uses of [Compiler]. *)
Record Compiler := mkCompiler {
  emitter : Emitter;
  string_constants : gmap string N;
  line : N;
  column : N
}.

(** A compiler before its first node. *)
Definition compiler_new : Compiler := mkCompiler chunk_new ∅ 1 1.

(** [Panicked]: an [expect] failed. [Diverges]: the budget of the recursion ran
    out. [Unmodelled]: nodes outside this development. *)
Inductive Compiled (A : Type) :=
  | Done (a : A)
  | CompileError (line : N)
  | Panicked
  | Diverges
  | Unmodelled.
Arguments Done {A}.
Arguments CompileError {A}.
Arguments Panicked {A}.
Arguments Diverges {A}.
Arguments Unmodelled {A}.

Definition CompileM (A : Type) : Type := Compiler → Compiled (A * Compiler).

#[export] Instance compile_ret : MRet CompileM := λ A a s, Done (a, s).
#[export] Instance compile_bind : MBind CompileM := λ A B f m s,
  match m s with
  | Done (a, s) => f a s
  | CompileError line => CompileError line
  | Panicked => Panicked
  | Diverges => Diverges
  | Unmodelled => Unmodelled
  end.

Definition with_emitter (f : Emitter → Emitter) : CompileM unit := λ s,
  Done (tt, mkCompiler (f (emitter s)) (string_constants s) (line s) (column s)).

(** [self.chunk.emit(op, self.line)] and its companions. *)
Definition chunk_emit (op : Op.Op) : CompileM unit := λ s, with_emitter (emit op (line s)) s.
Definition chunk_emit_u16 (op : Op.Op) (value : N) : CompileM unit := λ s,
  with_emitter (emit_u16 op value (line s)) s.
Definition chunk_emit_u8 (op : Op.Op) (value : N) : CompileM unit := λ s,
  with_emitter (emit_u8 op value (line s)) s.
Definition chunk_emit_jump (op : Op.Op) : CompileM nat := λ s,
  let '(patch, e) := emit_jump op (line s) (emitter s) in
  Done (patch, mkCompiler e (string_constants s) (line s) (column s)).
Definition chunk_patch_jump (patch : nat) : CompileM unit := with_emitter (patch_jump patch).

Definition chunk_add_constant (c : Constant.Constant) : CompileM N := λ s,
  match add_constant c (emitter s) with
  | Some (index, e) => Done (index, mkCompiler e (string_constants s) (line s) (column s))
  | None => Panicked
  end.

(** [string_constant] *)
Definition string_constant (value : string) : CompileM N := λ s,
  match string_constants s !! value with
  | Some index => Done (index, s)
  | None =>
      match chunk_add_constant (Constant.String value) s with
      | Done (index, s) =>
          Done (index, mkCompiler (emitter s) (<[value := index]> (string_constants s)) (line s) (column s))
      | other => other
      end
  end.

(** ** Types of expressions ([compiler/type_facts.rs]) *)

Module PrimitiveType.
Inductive PrimitiveType := Int | Float | Bool | String | Nil.
End PrimitiveType.

(** [primitive_kind] *)
Definition primitive_kind (t : TypeExpr.TypeExpr) : option PrimitiveType.PrimitiveType :=
  match t with
  | TypeExpr.Named name =>
      if String.eqb name "int" then Some PrimitiveType.Int
      else if String.eqb name "float" then Some PrimitiveType.Float
      else if String.eqb name "bool" then Some PrimitiveType.Bool
      else if String.eqb name "string" then Some PrimitiveType.String
      else if String.eqb name "nil" then Some PrimitiveType.Nil
      else None
  | TypeExpr.LitInt _ => Some PrimitiveType.Int
  | TypeExpr.LitString _ => Some PrimitiveType.String
  | _ => None
  end.

Section compiler.
Context `{FloatLib}.
(** [expand_alias] and [lookup_type_fact], which read the type aliases and the
    scopes of the compiler; expressions change neither. *)
Context (expand_alias : TypeExpr.TypeExpr → TypeExpr.TypeExpr).
Context (lookup_type_fact : string → option TypeExpr.TypeExpr).

Definition kind_of (t : TypeExpr.TypeExpr) : option PrimitiveType.PrimitiveType :=
  primitive_kind (expand_alias t).

Definition named (name : string) : option TypeExpr.TypeExpr := Some (TypeExpr.Named name).

(** The types of [+ - * / % **] on two primitives. *)
Definition numeric_result (l r : option PrimitiveType.PrimitiveType) : option TypeExpr.TypeExpr :=
  match l, r with
  | Some PrimitiveType.Int, Some PrimitiveType.Int => named "int"
  | Some PrimitiveType.Float, Some PrimitiveType.Float
  | Some PrimitiveType.Int, Some PrimitiveType.Float
  | Some PrimitiveType.Float, Some PrimitiveType.Int => named "float"
  | _, _ => None
  end.

(** [infer_binary_result_type] *)
Definition infer_binary_result_type (op : BinaryOperator.BinaryOperator)
    (left_ right_ : option TypeExpr.TypeExpr) : option TypeExpr.TypeExpr :=
  let kinds (f : option PrimitiveType.PrimitiveType → option PrimitiveType.PrimitiveType →
                 option TypeExpr.TypeExpr) :=
    l ← left_; r ← right_; f (kind_of l) (kind_of r) in
  match op with
  | BinaryOperator.Eq | BinaryOperator.Neq | BinaryOperator.Lt | BinaryOperator.Gt
  | BinaryOperator.Lte | BinaryOperator.Gte | BinaryOperator.And | BinaryOperator.Or => named "bool"
  | BinaryOperator.Add =>
      kinds (λ l r, match l, r with
        | Some PrimitiveType.String, Some PrimitiveType.String => named "string"
        | _, _ => numeric_result l r end)
  | BinaryOperator.Sub | BinaryOperator.Div | BinaryOperator.Mod | BinaryOperator.Pow =>
      kinds numeric_result
  | BinaryOperator.Mul =>
      kinds (λ l r, match l, r with
        | Some PrimitiveType.String, Some PrimitiveType.Int
        | Some PrimitiveType.Int, Some PrimitiveType.String => named "string"
        | _, _ => numeric_result l r end)
  | _ => None
  end.

(** The loop of [infer_list_literal_type], from the second item on. *)
Fixpoint list_item_type (item_type : TypeExpr.TypeExpr) (types : list (option TypeExpr.TypeExpr))
    : option TypeExpr.TypeExpr :=
  match types with
  | [] => Some (TypeExpr.List item_type)
  | None :: _ => None
  | Some t :: types =>
      if type_expr_eqb item_type t then list_item_type item_type types else named "list"
  end.

(** [infer_list_literal_type] *)
Definition infer_list_literal_type (types : list (option TypeExpr.TypeExpr))
    : option TypeExpr.TypeExpr :=
  match types with
  | [] => Some (TypeExpr.List (TypeExpr.Named "_"))
  | None :: _ => None
  | Some t :: types => list_item_type t types
  end.

(** The dictionary arm of [infer_expr_type]: keys, and the types of values. *)
Fixpoint dict_fields (entries : list (Node.Node * option TypeExpr.TypeExpr))
    (fields : list (ShapeField TypeExpr.TypeExpr)) : option TypeExpr.TypeExpr :=
  match entries with
  | [] => match fields with [] => named "dict" | _ => Some (TypeExpr.Shape fields) end
  | ((Node.Identifier key | Node.StringLiteral key), Some t) :: entries =>
      dict_fields entries (fields ++ [mkShapeField key t false])
  | _ => named "dict"
  end.

(** [infer_expr_type] *)
Fixpoint infer_expr_type (n : Node.Node) : option TypeExpr.TypeExpr :=
  match n with
  | Node.IntLiteral _ => named "int"
  | Node.FloatLiteral _ => named "float"
  | Node.StringLiteral _ | Node.RawStringLiteral _ => named "string"
  | Node.BoolLiteral _ => named "bool"
  | Node.NilLiteral => named "nil"
  | Node.DurationLiteral _ => named "duration"
  | Node.Identifier name => lookup_type_fact name
  | Node.UnaryOp op operand =>
      t ← infer_expr_type (node operand);
      match op with
      | Neg =>
          match kind_of t with
          | Some PrimitiveType.Int | Some PrimitiveType.Float => Some t
          | _ => None
          end
      | Operators.Not => named "bool"
      end
  | Node.BinaryOp op left_ right_ =>
      infer_binary_result_type op (infer_expr_type (node left_)) (infer_expr_type (node right_))
  | Node.Ternary _ true_expr false_expr =>
      t ← infer_expr_type (node true_expr);
      f ← infer_expr_type (node false_expr);
      if type_expr_eqb t f then Some t else None
  | Node.ListLiteral items =>
      infer_list_literal_type (map (λ item, infer_expr_type (node item)) items)
  | Node.DictLiteral entries =>
      dict_fields (map (λ e, (node e.1, infer_expr_type (node e.2))) entries) []
  | Node.Spread _ => None
  end.

(** [specialized_binary_op] *)
Definition specialized_binary_op (op : BinaryOperator.BinaryOperator)
    (left_ right_ : option TypeExpr.TypeExpr) : option Op.Op :=
  l ← left_ ≫= kind_of;
  r ← right_ ≫= kind_of;
  match l, r with
  | PrimitiveType.Int, PrimitiveType.Int =>
      match op with
      | BinaryOperator.Add => Some Op.AddInt | BinaryOperator.Sub => Some Op.SubInt
      | BinaryOperator.Mul => Some Op.MulInt | BinaryOperator.Div => Some Op.DivInt
      | BinaryOperator.Mod => Some Op.ModInt | BinaryOperator.Eq => Some Op.EqualInt
      | BinaryOperator.Neq => Some Op.NotEqualInt | BinaryOperator.Lt => Some Op.LessInt
      | BinaryOperator.Gt => Some Op.GreaterInt | BinaryOperator.Lte => Some Op.LessEqualInt
      | BinaryOperator.Gte => Some Op.GreaterEqualInt
      | _ => None
      end
  | PrimitiveType.Float, PrimitiveType.Float =>
      match op with
      | BinaryOperator.Add => Some Op.AddFloat | BinaryOperator.Sub => Some Op.SubFloat
      | BinaryOperator.Mul => Some Op.MulFloat | BinaryOperator.Div => Some Op.DivFloat
      | BinaryOperator.Mod => Some Op.ModFloat | BinaryOperator.Eq => Some Op.EqualFloat
      | BinaryOperator.Neq => Some Op.NotEqualFloat | BinaryOperator.Lt => Some Op.LessFloat
      | BinaryOperator.Gt => Some Op.GreaterFloat | BinaryOperator.Lte => Some Op.LessEqualFloat
      | BinaryOperator.Gte => Some Op.GreaterEqualFloat
      | _ => None
      end
  | PrimitiveType.Bool, PrimitiveType.Bool =>
      match op with
      | BinaryOperator.Eq => Some Op.EqualBool | BinaryOperator.Neq => Some Op.NotEqualBool
      | _ => None
      end
  | PrimitiveType.String, PrimitiveType.String =>
      match op with
      | BinaryOperator.Eq => Some Op.EqualString | BinaryOperator.Neq => Some Op.NotEqualString
      | _ => None
      end
  | _, _ => None
  end.

(** ** Nodes *)

Context (optimizations_enabled : bool).

(** [emit_generic_binary_op] *)
Definition emit_generic_binary_op (op : BinaryOperator.BinaryOperator) : CompileM unit :=
  match op with
  | BinaryOperator.Add => chunk_emit Op.Add
  | BinaryOperator.Sub => chunk_emit Op.Sub
  | BinaryOperator.Mul => chunk_emit Op.Mul
  | BinaryOperator.Div => chunk_emit Op.Div
  | BinaryOperator.Mod => chunk_emit Op.Mod
  | BinaryOperator.Pow => chunk_emit Op.Pow
  | BinaryOperator.Eq => chunk_emit Op.Equal
  | BinaryOperator.Neq => chunk_emit Op.NotEqual
  | BinaryOperator.Lt => chunk_emit Op.Less
  | BinaryOperator.Gt => chunk_emit Op.Greater
  | BinaryOperator.Lte => chunk_emit Op.LessEqual
  | BinaryOperator.Gte => chunk_emit Op.GreaterEqual
  | BinaryOperator.In => chunk_emit Op.Contains
  | BinaryOperator.NotIn => _ ← chunk_emit Op.Contains; chunk_emit Op.Not
  | _ => λ s, CompileError (line s)
  end.

(** [add_constant] and the [Constant] instruction. *)
Definition load_constant (c : Constant.Constant) : CompileM unit :=
  index ← chunk_add_constant c; chunk_emit_u16 Op.Constant index.

Definition load_string (value : string) : CompileM unit :=
  index ← string_constant value; chunk_emit_u16 Op.Constant index.

(** The line and column of the node being compiled. *)
Definition enter_node (span : Span) : CompileM unit := λ s,
  let column := (span_column span mod 4294967296)%N in
  Done (tt, mkCompiler (set_column column (emitter s)) (string_constants s)
    (span_line span mod 4294967296)%N column).

Section node.
(** [compile_node], on smaller nodes or with less of the budget. *)
Context (compile : SNode → CompileM unit).

(** The arms of [And] and [Or]: the operands, then [Not] twice. *)
Definition compile_conditional (jump : Op.Op) (left_ right_ : SNode) : CompileM unit :=
  _ ← compile left_;
  jump ← chunk_emit_jump jump;
  _ ← chunk_emit Op.Pop;
  _ ← compile right_;
  _ ← chunk_patch_jump jump;
  _ ← chunk_emit Op.Not;
  chunk_emit Op.Not.

Definition compile_nil_coalesce (left_ right_ : SNode) : CompileM unit :=
  _ ← compile left_;
  _ ← chunk_emit Op.Dup;
  _ ← chunk_emit Op.Nil;
  _ ← chunk_emit Op.NotEqual;
  jump ← chunk_emit_jump Op.JumpIfTrue;
  _ ← chunk_emit Op.Pop;
  _ ← chunk_emit Op.Pop;
  _ ← compile right_;
  end_ ← chunk_emit_jump Op.Jump;
  _ ← chunk_patch_jump jump;
  _ ← chunk_emit Op.Pop;
  chunk_patch_jump end_.

(** [compile_binary_op] *)
Definition compile_binary_op (op : BinaryOperator.BinaryOperator) (left_ right_ : SNode)
    : CompileM unit :=
  match op with
  | BinaryOperator.And => compile_conditional Op.JumpIfFalse left_ right_
  | BinaryOperator.Or => compile_conditional Op.JumpIfTrue left_ right_
  | BinaryOperator.NilCoalesce => compile_nil_coalesce left_ right_
  | BinaryOperator.Pipe => λ _, Unmodelled
  | _ =>
      let left_type := infer_expr_type (node left_) in
      let right_type := infer_expr_type (node right_) in
      _ ← compile left_;
      _ ← compile right_;
      match (if optimizations_enabled then specialized_binary_op op left_type right_type else None) with
      | Some typed_op => chunk_emit typed_op
      | None => emit_generic_binary_op op
      end
  end.

(** [Node::Ternary] *)
Definition compile_ternary (condition true_expr false_expr : SNode) : CompileM unit :=
  _ ← compile condition;
  else_jump ← chunk_emit_jump Op.JumpIfFalse;
  _ ← chunk_emit Op.Pop;
  _ ← compile true_expr;
  end_jump ← chunk_emit_jump Op.Jump;
  _ ← chunk_patch_jump else_jump;
  _ ← chunk_emit Op.Pop;
  _ ← compile false_expr;
  chunk_patch_jump end_jump.

(** Elements without a spread, one after the other. *)
Fixpoint compile_all (items : list SNode) : CompileM unit :=
  match items with
  | [] => mret tt
  | item :: items => _ ← compile item; compile_all items
  end.

(** The elements collected since the last spread, appended to the list below. *)
Definition flush (build : Op.Op) (pending : N) : CompileM unit :=
  if (0 <? pending)%N then
    _ ← chunk_emit_u16 build (pending mod 65536); chunk_emit Op.Add
  else mret tt.

(** [...inner]: its value, checked, appended to the list or record below. *)
Definition compile_spread (check : string) (inner : SNode) : CompileM unit :=
  _ ← compile inner;
  _ ← chunk_emit Op.Dup;
  index ← string_constant check;
  _ ← chunk_emit_u16 Op.Constant index;
  _ ← chunk_emit Op.Swap;
  _ ← chunk_emit_u8 Op.Call 1;
  _ ← chunk_emit Op.Pop;
  chunk_emit Op.Add.

Fixpoint compile_spread_items (items : list SNode) (pending : N) : CompileM unit :=
  match items with
  | [] => flush Op.BuildList pending
  | item :: items =>
      match node item with
      | Node.Spread inner =>
          _ ← flush Op.BuildList pending;
          _ ← compile_spread "__assert_list" inner;
          compile_spread_items items 0
      | _ => _ ← compile item; compile_spread_items items (pending + 1)
      end
  end.

(** [compile_list_literal] *)
Definition compile_list_literal (elements : list SNode) : CompileM unit :=
  if existsb is_spread elements then
    _ ← chunk_emit_u16 Op.BuildList 0; compile_spread_items elements 0
  else
    _ ← compile_all elements; chunk_emit_u16 Op.BuildList (len elements mod 65536).

Fixpoint compile_entries (entries : list (SNode * SNode)) : CompileM unit :=
  match entries with
  | [] => mret tt
  | (key, value) :: entries => _ ← compile key; _ ← compile value; compile_entries entries
  end.

Fixpoint compile_spread_entries (entries : list (SNode * SNode)) (pending : N) : CompileM unit :=
  match entries with
  | [] => flush Op.BuildDict pending
  | (key, value) :: entries =>
      match node value with
      | Node.Spread inner =>
          _ ← flush Op.BuildDict pending;
          _ ← compile_spread "__assert_dict" inner;
          compile_spread_entries entries 0
      | _ =>
          _ ← compile key; _ ← compile value; compile_spread_entries entries (pending + 1)
      end
  end.

(** [compile_dict_literal]; schema aliases are identifiers, outside the model. *)
Definition compile_dict_literal (entries : list (SNode * SNode)) : CompileM unit :=
  if existsb (λ e, is_spread e.2) entries then
    _ ← chunk_emit_u16 Op.BuildDict 0; compile_spread_entries entries 0
  else
    _ ← compile_entries entries; chunk_emit_u16 Op.BuildDict (len entries mod 65536).

(** The match of [compile_node]. *)
Definition compile_arm (n : Node.Node) : CompileM unit :=
  match n with
  | Node.IntLiteral value => load_constant (Constant.Int value)
  | Node.FloatLiteral value => load_constant (Constant.Float value)
  | Node.StringLiteral value | Node.RawStringLiteral value => load_string value
  | Node.BoolLiteral true => chunk_emit Op.True_
  | Node.BoolLiteral false => chunk_emit Op.False_
  | Node.NilLiteral => chunk_emit Op.Nil
  | Node.DurationLiteral ms =>
      match i64_try_from ms with
      | Some ms => load_constant (Constant.Duration ms)
      | None => λ s, CompileError (line s)
      end
  | Node.BinaryOp op left_ right_ => compile_binary_op op left_ right_
  | Node.UnaryOp op operand =>
      _ ← compile operand; chunk_emit match op with Neg => Op.Negate | Operators.Not => Op.Not end
  | Node.Ternary condition true_expr false_expr => compile_ternary condition true_expr false_expr
  | Node.ListLiteral elements => compile_list_literal elements
  | Node.DictLiteral entries => compile_dict_literal entries
  | Node.Identifier _ | Node.Spread _ => λ _, Unmodelled
  end.
End node.

(** [compile_node]: a folded node is compiled in place of the original, and goes
    through folding again. *)
Fixpoint compile_node (fuel : nat) (snode : SNode) : CompileM unit :=
  match fuel with
  | O => λ _, Diverges
  | S fuel =>
      _ ← enter_node (span snode);
      match (if optimizations_enabled then fold_constant_expr snode else None) with
      | Some folded =>
          if negb (node_eqb (node folded) (node snode)) then compile_node fuel folded
          else compile_arm (compile_node fuel) (node snode)
      | None => compile_arm (compile_node fuel) (node snode)
      end
  end.

(** [compile_return_stmt] outside of [finally] and handlers; the tail calls are
    calls and pipes, outside the model. *)
Definition compile_return_stmt (fuel : nat) (value : option SNode) : CompileM unit :=
  _ ← match value with Some val => compile_node fuel val | None => chunk_emit Op.Nil end;
  chunk_emit Op.Return.
End compiler.

(** [ensure_chunk_addressable] *)
Definition ensure_chunk_addressable : CompileM unit := λ s,
  if (U16_MAX <? len (chunk_code (chunk (emitter s))))%N then CompileError (line s) else Done (tt, s).
