(* ===== verification/CompileEnds.v ===== *)
(** * When compiling ends

    Folding rebuilds a constant expression from its value, and [compile_node]
    starts over on what it rebuilt until rebuilding changes nothing. Refolding
    gives the same node back, so it stops after one round, unless the node holds
    a NaN, which differs from itself. *)

From stdpp Require Import countable.
From Stdlib Require Import Strings.String.
From S2P Require Import Prelude BTree Opcode Program Float64 Semantics Values Arith Ops Operators Fold FoldSound.
From S2P Require Import Emit Compile.

(** ** Computations that do not run out *)

(** The same outcome, and it is not [Diverges]. *)
Definition agrees {A} (m m' : CompileM A) : Prop := ∀ s, m s = m' s ∧ m s ≠ Diverges.

Lemma agrees_bind {A B} (m m' : CompileM A) (f f' : A → CompileM B) :
  agrees m m' → (∀ a, agrees (f a) (f' a)) → agrees (m ≫= f) (m' ≫= f').
Proof.
  intros Hm Hf s. destruct (Hm s) as [He Hd]. unfold mbind, compile_bind. rewrite <- He.
  destruct (m s) as [[a s']| | | |]; try done. apply Hf.
Qed.

Lemma agrees_refl {A} (m : CompileM A) : (∀ s, m s ≠ Diverges) → agrees m m.
Proof. by intros Hm s. Qed.

Create HintDb compiling.

Lemma ends_emit op : agrees (chunk_emit op) (chunk_emit op).
Proof. by apply agrees_refl. Qed.
Lemma ends_emit_u16 op v : agrees (chunk_emit_u16 op v) (chunk_emit_u16 op v).
Proof. by apply agrees_refl. Qed.
Lemma ends_emit_u8 op v : agrees (chunk_emit_u8 op v) (chunk_emit_u8 op v).
Proof. by apply agrees_refl. Qed.
Lemma ends_jump op : agrees (chunk_emit_jump op) (chunk_emit_jump op).
Proof. by apply agrees_refl. Qed.
Lemma ends_patch p : agrees (chunk_patch_jump p) (chunk_patch_jump p).
Proof. by apply agrees_refl. Qed.
Lemma ends_constant c : agrees (chunk_add_constant c) (chunk_add_constant c).
Proof. apply agrees_refl. intros s. unfold chunk_add_constant. by destruct (add_constant _ _) as [[]|]. Qed.
Lemma ends_string t : agrees (string_constant t) (string_constant t).
Proof.
  apply agrees_refl. intros s. unfold string_constant. destruct (_ !! t); [done|].
  pose proof (proj2 (ends_constant (Constant.String t) s)) as Hs.
  by destruct (chunk_add_constant _ s) as [[]| | | |].
Qed.
Lemma ends_generic op : agrees (emit_generic_binary_op op) (emit_generic_binary_op op).
Proof. apply agrees_refl. intros s. by destruct op. Qed.
Lemma compile_ends_ret {A} (a : A) : agrees (mret a) (mret a).
Proof. by apply agrees_refl. Qed.
Lemma ends_unmodelled {A} : agrees (λ _, @Unmodelled (A * Compiler)) (λ _, Unmodelled).
Proof. by apply agrees_refl. Qed.

#[export] Hint Resolve ends_emit ends_emit_u16 ends_emit_u8 ends_jump ends_patch ends_constant
  ends_string ends_generic compile_ends_ret ends_unmodelled : compiling.

Ltac ends := repeat first [progress auto with compiling | apply agrees_bind; [|intros ?]].

(** The expressions [compile_node] compiles on the way: for a spread, what it
    spreads. *)
Definition unspread (e : SNode) : SNode := match node e with Node.Spread inner => inner | _ => e end.

Definition parts (n : Node.Node) : list SNode :=
  match n with
  | Node.BinaryOp _ l r => [l; r]
  | Node.UnaryOp _ e => [e]
  | Node.Ternary c t f => [c; t; f]
  | Node.ListLiteral items => map unspread items
  | Node.DictLiteral entries => concat (map (λ e : SNode * SNode, [e.1; unspread e.2]) entries)
  | _ => []
  end.

Section arms.
Context `{FloatLib} (expand : TypeExpr.TypeExpr → TypeExpr.TypeExpr)
  (lookup : string → option TypeExpr.TypeExpr) (opt : bool) (c c' : SNode → CompileM unit).

Lemma ends_flush op n : agrees (flush op n) (flush op n).
Proof. unfold flush. destruct (_ <? _)%N; ends. Qed.
#[local] Hint Resolve ends_flush : compiling.

Lemma ends_spread check e : agrees (c e) (c' e) → agrees (compile_spread c check e) (compile_spread c' check e).
Proof. intros He. unfold compile_spread. ends. Qed.

Lemma is_spread_unspread e : is_spread e = false → unspread e = e.
Proof. unfold is_spread, unspread. by destruct (node e). Qed.

Lemma ends_all items : (∀ e, e ∈ items → agrees (c e) (c' e)) →
  agrees (compile_all c items) (compile_all c' items).
Proof.
  induction items as [|e items IH]; intros He; cbn [compile_all]; ends; [apply He; by left|].
  apply IH. intros x Hx. apply He. by right.
Qed.

Lemma ends_spread_items items n : (∀ e, e ∈ items → agrees (c (unspread e)) (c' (unspread e))) →
  agrees (compile_spread_items c items n) (compile_spread_items c' items n).
Proof.
  revert n; induction items as [|e items IH]; intros n He; cbn [compile_spread_items]; ends.
  assert (agrees (c (unspread e)) (c' (unspread e))) as Hhd by (apply He; by left).
  assert (∀ k, agrees (compile_spread_items c items k) (compile_spread_items c' items k)) as Htl
    by (intros k; apply IH; intros x Hx; apply He; by right).
  unfold unspread in Hhd. destruct (node e); ends; by apply ends_spread.
Qed.

Lemma ends_list items : (∀ e, e ∈ map unspread items → agrees (c e) (c' e)) →
  agrees (compile_list_literal c items) (compile_list_literal c' items).
Proof.
  intros He. unfold compile_list_literal. destruct (existsb is_spread items) eqn:Hs; ends.
  - apply ends_spread_items. intros e Hin. apply He. by apply (list_elem_of_fmap_2 unspread).
  - apply ends_all. intros e Hin. apply He. rewrite <- (is_spread_unspread e).
    + by apply (list_elem_of_fmap_2 unspread).
    + apply not_true_iff_false. intros Hsp. apply not_true_iff_false in Hs. apply Hs, existsb_exists.
      exists e. by split; [apply list_elem_of_In|].
Qed.

(** The parts of a dictionary. *)
Definition entry_parts (e : SNode * SNode) : list SNode := [e.1; unspread e.2].

Definition entries_agree (entries : list (SNode * SNode)) : Prop :=
  ∀ e, e ∈ entries → agrees (c e.1) (c' e.1) ∧ agrees (c (unspread e.2)) (c' (unspread e.2)).

Lemma entries_agree_cons e entries : entries_agree (e :: entries) →
  agrees (c e.1) (c' e.1) ∧ agrees (c (unspread e.2)) (c' (unspread e.2)) ∧ entries_agree entries.
Proof.
  intros He. split_and!; [apply (He e); by left|apply (He e); by left|]. intros x Hx. apply He. by right.
Qed.

Lemma ends_entries entries : existsb (λ e : SNode * SNode, is_spread e.2) entries = false →
  entries_agree entries → agrees (compile_entries c entries) (compile_entries c' entries).
Proof.
  induction entries as [|[k v] entries IH]; intros Hs He; cbn [compile_entries]; [ends|].
  apply entries_agree_cons in He as (Hk & Hv & He). cbn in Hs. apply orb_false_iff in Hs as [Hv' Hs].
  cbn [fst snd] in *. rewrite is_spread_unspread in Hv by done. ends.
Qed.

Lemma ends_spread_entries entries n : entries_agree entries →
  agrees (compile_spread_entries c entries n) (compile_spread_entries c' entries n).
Proof.
  revert n; induction entries as [|[k v] entries IH]; intros n He; cbn [compile_spread_entries]; [ends|].
  apply entries_agree_cons in He as (Hk & Hv & He). cbn [fst snd] in *.
  unfold unspread in Hv. destruct (node v); ends; by apply ends_spread.
Qed.

Lemma ends_dict entries : entries_agree entries →
  agrees (compile_dict_literal c entries) (compile_dict_literal c' entries).
Proof.
  intros He. unfold compile_dict_literal. destruct (existsb _ entries) eqn:Hs; ends.
  - by apply ends_spread_entries.
  - by apply ends_entries.
Qed.

Lemma ends_binary op l r : agrees (c l) (c' l) → agrees (c r) (c' r) →
  agrees (compile_binary_op expand lookup opt c op l r) (compile_binary_op expand lookup opt c' op l r).
Proof.
  intros Hl Hr. destruct op; cbn [compile_binary_op];
    unfold compile_conditional, compile_nil_coalesce; ends; case_match; ends.
Qed.

Lemma ends_arm n : (∀ p, p ∈ parts n → agrees (c p) (c' p)) →
  agrees (compile_arm expand lookup opt c n) (compile_arm expand lookup opt c' n).
Proof.
  intros Hp. destruct n as [t|t|z|f|b| |ms|x|op l r|op e|e t f|items|entries|e]; cbn [compile_arm parts] in *;
    unfold load_string, load_constant, compile_ternary; ends.
  - destruct b; ends.
  - destruct (i64_try_from ms); ends. by apply agrees_refl.
  - apply ends_binary; apply Hp; set_solver.
  - apply Hp. set_solver.
  - apply Hp. set_solver.
  - apply Hp. set_solver.
  - apply Hp. set_solver.
  - by apply ends_list.
  - apply ends_dict. intros e He. split; apply Hp, list_elem_of_In, in_concat; exists (entry_parts e);
      (split; [by apply (in_map entry_parts), list_elem_of_In|cbn; auto]).
Qed.
End arms.

(** ** Folding twice *)

(** The values folding can produce. *)
Inductive foldable : V.VmValue → Prop :=
  | foldable_nil : foldable V.Nil
  | foldable_bool b : foldable (V.Bool b)
  | foldable_int z : foldable (V.Int z)
  | foldable_float f : foldable (V.Float f)
  | foldable_string s : foldable (V.String s)
  | foldable_duration z : checked_i64 z = Some z → foldable (V.Duration z)
  | foldable_list vs : (len vs <= MAX_FOLDED_COLLECTION_ITEMS)%N → (∀ v, v ∈ vs → foldable v) →
      foldable (V.List vs)
  | foldable_dict es : (len es <= MAX_FOLDED_COLLECTION_ITEMS)%N → BTree.sorted es →
      (∀ e, e ∈ es → foldable e.2) → foldable (V.Dict es).

#[local] Hint Constructors foldable : compiling.

Section refold.
Context `{FloatLib}.

Lemma numeric_foldable ints floats a b v : fold_numeric ints floats a b = Some v → foldable v.
Proof.
  destruct a, b; cbn; intros Hv; try done; try (injection Hv as <-; constructor).
  destruct (ints _ _); [|done]. injection Hv as <-. constructor.
Qed.

Ltac numeric_case ints floats :=
  match goal with Hv : _ ?a ?b = Some ?v |- _ => exact (numeric_foldable ints floats a b v Hv) end.

Lemma checked_len {A} (x y : list A) n : checked_add_usize (len x) (len y) = Some n → n = (len x + len y)%N.
Proof. unfold checked_add_usize. case_match; congruence. Qed.

Lemma add_foldable a b v : foldable a → foldable b → fold_add a b = Some v → foldable v.
Proof.
  intros Ha Hb Hv.
  destruct Ha as [| | | | | |xs Hx Hxs|xs Hx Hsx Hxs], Hb as [| | | | | |ys Hy Hys|ys Hy Hsy Hys];
    try numeric_case checked_add f64_add; cbn in Hv; try done.
  - destruct (checked_add_usize _ _); [|done]. cbn in Hv. case_match; [done|]. injection Hv as <-. constructor.
  - destruct (checked_add_usize _ _) as [n|] eqn:En; [|done]. cbn in Hv. apply checked_len in En as ->.
    destruct (N.ltb_spec MAX_FOLDED_COLLECTION_ITEMS (len xs + len ys)); [done|]. injection Hv as <-.
    constructor; [by rewrite len_app|]. intros v [Hin|Hin]%elem_of_app; auto.
  - destruct (checked_add_usize _ _) as [n|] eqn:En; [|done]. cbn in Hv. apply checked_len in En as ->.
    destruct (N.ltb_spec MAX_FOLDED_COLLECTION_ITEMS (len xs + len ys)); [done|]. injection Hv as <-.
    constructor; [|by apply btree_extend_sorted|by apply btree_extend_values].
    pose proof (btree_extend_length xs ys). unfold len in *. lia.
Qed.

Lemma repeat_foldable t n v : fold_repeat t n = Some v → foldable v.
Proof.
  unfold fold_repeat. destruct (checked_mul_usize _ _); [|done]. cbn. case_match; [done|].
  intros [= <-]. constructor.
Qed.

Lemma binary_foldable op a b v : foldable a → foldable b → fold_binary op a b = Some v → foldable v.
Proof.
  intros Ha Hb Hv. destruct op; cbn [fold_binary] in Hv; try (injection Hv as <-; constructor); try done.
  - injection Hv as <-. destruct Ha; auto with compiling.
  - exact (add_foldable a b v Ha Hb Hv).
  - numeric_case checked_sub f64_sub.
  - destruct Ha, Hb; try numeric_case checked_mul f64_mul; exact (repeat_foldable _ _ _ Hv).
  - destruct Ha, Hb; try numeric_case checked_div f64_div. destruct z0; [done|numeric_case checked_div f64_div..].
  - unfold fold_mod in Hv. destruct a; try done; case_match; try done; numeric_case checked_rem f64_rem.
  - destruct Ha, Hb; cbn in Hv; try done; repeat case_match; try (injection Hv as <-; constructor).
    destruct (checked_pow _ _); [|done]. injection Hv as <-. constructor.
Qed.

Lemma constant_foldable n v : constant_of n = Some v → foldable v.
Proof.
  revert v; induction n as [s|s|z|f|b| |ms|x|op l r IHl IHr|op e IHe|c t f IHc IHt IHf|items IH|es IH|e IHe]
    using node_ind; intros v Hv; cbn [constant_of] in Hv; try done; try (injection Hv as <-; constructor).
  - destruct (i64_try_from ms) as [z|] eqn:Ez; [|done]. injection Hv as <-. constructor.
    unfold i64_try_from, checked_i64 in *. repeat case_match; congruence.
  - destruct (constant_of (node l)) as [a|]; [|done]. destruct (constant_of (node r)) as [b|]; [|done].
    eapply (binary_foldable op a b); eauto.
  - destruct (constant_of (node e)) as [a|]; [|done]. cbn in Hv.
    destruct op, a; cbn in Hv; try done; try (injection Hv as <-; constructor).
    destruct (checked_neg _); [|done]. injection Hv as <-. constructor.
  - destruct (constant_of (node c)) as [a|]; [|done]. cbn in Hv. destruct (V.is_truthy a); auto.
  - destruct (N.ltb_spec MAX_FOLDED_COLLECTION_ITEMS (len items)) as [|Hlen]; [done|].
    destruct (collect _ _) as [vs|] eqn:Evs; cbn in Hv; [|done]. injection Hv as <-.
    apply (collect_Forall _ (λ _ v, foldable v)) in Evs.
    + constructor; [unfold len in *; by rewrite <- (Forall2_length _ _ _ Evs)|].
      apply Forall_forall. clear -Evs. induction Evs; by constructor.
    + rewrite Forall_forall in IH |- *. intros i Hi w Hw. destruct (is_spread i); [done|]. by apply (IH i).
  - destruct (N.ltb_spec MAX_FOLDED_COLLECTION_ITEMS (len es)) as [|Hlen]; [done|].
    destruct (collect _ _) as [vs|] eqn:Evs; cbn in Hv; [|done]. injection Hv as <-.
    apply (collect_Forall _ (λ _ e, foldable e.2)) in Evs.
    + constructor; [|by apply btree_extend_sorted, btree_sorted_nil|apply btree_extend_values; [set_solver|]].
      * pose proof (btree_extend_length [] vs) as Hl. rewrite <- (Forall2_length _ _ _ Evs) in Hl.
        unfold BTree.from_entries, len in *. cbn in Hl. lia.
      * apply Forall_forall. clear -Evs. induction Evs; by constructor.
    + rewrite Forall_forall in IH |- *. intros e He w Hw. destruct (is_spread e.2); [done|].
      destruct (constant_of (node e.1)) as [k|]; [|done].
      destruct (constant_of (node e.2)) as [x|] eqn:Ex; [|done]. injection Hw as <-. by apply (IH e He).
Qed.

Lemma collect_back {A B} (f : A → option B) l ys : Forall2 (λ y x, f x = Some y) ys l → collect f l = Some ys.
Proof. induction 1 as [|y x ys l Hx _ IH]; [done|]. cbn. by rewrite Hx, IH. Qed.

Lemma refold v sp n : foldable v → value_to_node v sp = Some n → constant_of n = Some v.
Proof.
  revert n; induction v as [| | | | |z|vs IH|es IH] using vm_value_ind; intros n Hp Hn; cbn in Hn;
    try (injection Hn as <-; done).
  - destruct (Z.ltb_spec z 0); [done|]. injection Hn as <-. cbn. inversion Hp as [| | | | |? Hz| |]; subst.
    unfold i64_try_from. by rewrite Z2N.id, Hz.
  - destruct (collect _ _) as [ns|] eqn:Ens; cbn in Hn; [|done]. injection Hn as <-.
    inversion Hp as [| | | | | |? Hlen Hall|]; subst.
    apply (collect_Forall _ (λ v i, constant_of (node i) = Some v)) in Ens.
    + cbn [constant_of]. unfold len in *. rewrite <- (Forall2_length _ _ _ Ens).
      destruct (N.ltb_spec MAX_FOLDED_COLLECTION_ITEMS (N.of_nat (length vs))); [lia|].
      rewrite (collect_back _ _ vs); [done|]. eapply Forall2_impl; [exact Ens|]. intros v i Hi.
      cbn beta in *. unfold is_spread. destruct (node i); first [exact Hi|discriminate Hi].
    + rewrite Forall_forall in IH |- *. intros v Hv i Hi.
      destruct (value_to_node v sp) as [m|] eqn:Em; cbn in Hi; [|done]. injection Hi as <-. cbn. auto.
  - destruct (collect _ _) as [ns|] eqn:Ens; cbn in Hn; [|done]. injection Hn as <-.
    inversion Hp as [| | | | | | |? Hlen Hs Hall]; subst.
    apply (collect_Forall _ (λ (e : string * V.VmValue) (i : SNode * SNode),
      node i.1 = Node.StringLiteral e.1 ∧ constant_of (node i.2) = Some e.2)) in Ens.
    + cbn [constant_of]. unfold len in *. rewrite <- (Forall2_length _ _ _ Ens).
      destruct (N.ltb_spec MAX_FOLDED_COLLECTION_ITEMS (N.of_nat (length es))); [lia|].
      rewrite (collect_back _ _ es).
      * cbn. by rewrite btree_from_sorted.
      * eapply Forall2_impl; [exact Ens|]. intros [k v] i [Hk Hi]. cbn beta. cbn [fst snd] in *.
        rewrite Hk. assert (is_spread i.2 = false) as -> by (unfold is_spread; by destruct (node i.2)).
        by rewrite Hi.
    + rewrite Forall_forall in IH |- *. intros e He i Hi.
      destruct (value_to_node e.2 sp) as [m|] eqn:Em; cbn in Hi; [|done]. injection Hi as <-. cbn. auto.
Qed.

(** A node rebuilt from its value folds to itself. *)
Lemma fold_again e folded : fold_constant_expr e = Some folded →
  fold_constant_expr folded = if is_constant_fold_candidate (node folded) then Some folded else None.
Proof.
  unfold fold_constant_expr. destruct (negb _); [done|].
  destruct (constant_value e) as [v|] eqn:Ev; cbn; [|done]. unfold value_to_snode.
  destruct (value_to_node v (span e)) as [n|] eqn:En; cbn; [|done]. intros [= <-]. cbn.
  destruct (is_constant_fold_candidate n); [|done]. cbn. unfold constant_value. cbn.
  rewrite (refold v (span e)); [|by eapply constant_foldable|done]. cbn. by rewrite En.
Qed.
End refold.

(** ** The recursion *)

Section ends.
Context `{FloatLib} (expand : TypeExpr.TypeExpr → TypeExpr.TypeExpr)
  (lookup : string → option TypeExpr.TypeExpr) (opt : bool).

Notation compile := (compile_node expand lookup opt).

(** What [compile_node] does with [e] comes to an end. *)
Inductive settles : SNode → Prop :=
  | settles_same e :
      (opt = true → ∀ f, fold_constant_expr e = Some f → node_eqb (node f) (node e) = true) →
      (∀ p, p ∈ parts (node e) → settles p) → settles e
  | settles_folded e f :
      opt = true → fold_constant_expr e = Some f → node_eqb (node f) (node e) = false →
      settles f → settles e.

(** From some budget on, the result no longer depends on it. *)
Definition ends_node (e : SNode) : Prop :=
  ∃ n, ∀ fuel, n ≤ fuel → agrees (compile fuel e) (compile n e).

Lemma ends_parts (ps : list SNode) : (∀ p, p ∈ ps → ends_node p) →
  ∃ n, ∀ fuel p, n ≤ fuel → p ∈ ps → agrees (compile fuel p) (compile n p).
Proof.
  induction ps as [|p ps IH]; intros Hps; [exists 0; set_solver|].
  destruct IH as [n Hn]; [intros q Hq; apply Hps; by right|]. destruct (Hps p) as [k Hk]; [by left|].
  exists (n + k). intros fuel q Hfuel [->|Hq]%elem_of_cons s.
  - destruct (Hk fuel ltac:(lia) s) as [H1 H2]. destruct (Hk (n + k) ltac:(lia) s) as [H3 _].
    split; [by rewrite H1, H3|done].
  - destruct (Hn fuel q ltac:(lia) Hq s) as [H1 H2]. destruct (Hn (n + k) q ltac:(lia) Hq s) as [H3 _].
    split; [by rewrite H1, H3|done].
Qed.

Lemma settles_ends e : settles e → ends_node e.
Proof.
  induction 1 as [e Hsame _ IH|e f Hopt Hf Hne _ [n IH]].
  - destruct (ends_parts _ IH) as [n Hn]. exists (S n). intros fuel Hfuel.
    destruct fuel as [|fuel]; [lia|]. cbn [compile_node]. apply agrees_bind; [by apply agrees_refl|]. intros _.
    assert (agrees (compile_arm expand lookup opt (compile fuel) (node e))
                   (compile_arm expand lookup opt (compile n) (node e))) as Harm
      by (apply ends_arm; intros p Hp; apply Hn; [lia|done]).
    destruct opt; [|exact Harm]. destruct (fold_constant_expr e) as [f|]; [|exact Harm].
    by rewrite (Hsame eq_refl f eq_refl).
  - exists (S n). intros fuel Hfuel. destruct fuel as [|fuel]; [lia|]. cbn [compile_node].
    apply agrees_bind; [by apply agrees_refl|]. intros _. rewrite Hopt in *. rewrite Hf, Hne. apply IH. lia.
Qed.

(** *** Rebuilt values *)

Lemma list_eqb_elem {A} (eqb : A → A → bool) l x : list_eqb eqb l l = true → x ∈ l → eqb x x = true.
Proof.
  induction l as [|y l IH]; cbn; [set_solver|]. intros [Hy Hl]%andb_true_iff [->|Hx]%elem_of_cons; auto.
Qed.

Lemma rebuilt_unspread v sp n : value_to_node v sp = Some n → unspread (mkSpanned n sp) = mkSpanned n sp.
Proof.
  destruct v; cbn; try (by intros [= <-]).
  - case_match; [done|]. by intros [= <-].
  - destruct (collect _ _); [|done]. by intros [= <-].
  - destruct (collect _ _); [|done]. by intros [= <-].
Qed.

Lemma rebuilt_settles v sp n : foldable v → value_to_node v sp = Some n → node_eqb n n = true →
  settles (mkSpanned n sp).
Proof.
  assert (∀ v n, foldable v → value_to_node v sp = Some n → node_eqb n n = true →
    (∀ p, p ∈ parts n → settles p) → settles (mkSpanned n sp)) as Hnode.
  { intros w m Hw Hm Heq Hparts. apply settles_same; [|exact Hparts]. intros _ f Hf.
    unfold fold_constant_expr in Hf. destruct (negb _); [done|]. unfold constant_value in Hf.
    cbn [node] in Hf. rewrite (refold w sp m Hw Hm) in Hf. cbn [mbind option_bind span] in Hf.
    unfold value_to_snode in Hf. rewrite Hm in Hf. by injection Hf as <-. }
  revert n; induction v as [| | | | | |vs IH|es IH] using vm_value_ind; intros n Hp Hn Heq;
    (eapply Hnode; [exact Hp|exact Hn|exact Heq|]); cbn in Hn;
    try (injection Hn as <-; cbn [parts]; set_solver).
  - case_match; [done|]. injection Hn as <-. cbn [parts]. set_solver.
  - destruct (collect _ _) as [ns|] eqn:Ens; cbn in Hn; [|done]. injection Hn as <-.
    inversion Hp as [| | | | | |? _ Hall|]; subst.
    apply (collect_Forall _ (λ _ i, node_eqb (node i) (node i) = true → settles (unspread i))) in Ens.
    + cbn [parts]. intros p (i & -> & Hi)%list_elem_of_fmap.
      apply Forall2_right in Ens. rewrite Forall_forall in Ens. apply (Ens i Hi). cbn in Heq.
      apply (list_eqb_elem _ _ i) in Heq; [|done]. by apply andb_true_iff in Heq as [? _].
    + rewrite Forall_forall in IH |- *. intros v Hv i Hi Hi'.
      destruct (value_to_node v sp) as [m|] eqn:Em; cbn in Hi; [|done]. injection Hi as <-.
      rewrite (rebuilt_unspread _ _ _ Em). exact (IH v Hv m (Hall v Hv) Em Hi').
  - destruct (collect _ _) as [ns|] eqn:Ens; cbn in Hn; [|done]. injection Hn as <-.
    inversion Hp as [| | | | | | |? _ _ Hall]; subst.
    apply (collect_Forall _ (λ _ (i : SNode * SNode), node_eqb (node i.2) (node i.2) = true →
      settles i.1 ∧ settles (unspread i.2))) in Ens.
    + cbn [parts]. intros p (q & (i & <- & Hi)%in_map_iff & Hq)%list_elem_of_In%in_concat.
      apply Forall2_right in Ens. rewrite Forall_forall in Ens. apply list_elem_of_In in Hi.
      cbn in Heq. apply (list_eqb_elem _ _ i) in Heq; [|done]. apply andb_true_iff in Heq as [_ Heq].
      apply andb_true_iff in Heq as [Heq _]. destruct (Ens i Hi Heq). cbn in Hq. destruct Hq as [<-|[<-|[]]]; done.
    + rewrite Forall_forall in IH |- *. intros e He i Hi Hi'.
      destruct (value_to_node e.2 sp) as [m|] eqn:Em; cbn in Hi; [|done]. injection Hi as <-. cbn [fst snd].
      rewrite (rebuilt_unspread _ _ _ Em).
      split; [|exact (IH e He m (Hall e He) Em Hi')]. apply (Hnode (V.String e.1)); [constructor|done|cbn; apply String.eqb_refl|].
      cbn [parts]. set_solver.
Qed.

(** A rebuilt value that is no collection has no parts. *)
Lemma rebuilt_scalar v sp n :
  value_to_node v sp = Some n → is_constant_fold_candidate n = false → parts n = [].
Proof.
  destruct v; cbn; intros Hn Hc; try (by injection Hn as <-).
  - case_match; [done|]. by injection Hn as <-.
  - destruct (collect _ _); cbn in Hn; [|done]. by injection Hn as <-.
  - destruct (collect _ _); cbn in Hn; [|done]. by injection Hn as <-.
Qed.

(** What folding rebuilt settles, unless it is a collection unequal to itself. *)
Lemma folded_settles e f :
  fold_constant_expr e = Some f →
  is_constant_fold_candidate (node f) = false ∨ node_eqb (node f) (node f) = true → settles f.
Proof.
  intros Hf Hor. pose proof (fold_again _ _ Hf) as Hag. unfold fold_constant_expr in Hf.
  destruct (negb _); [done|]. destruct (constant_value e) as [v|] eqn:Ev; cbn in Hf; [|done].
  unfold value_to_snode in Hf. destruct (value_to_node v (span e)) as [n|] eqn:En; cbn in Hf; [|done].
  injection Hf as <-. cbn [node] in *. destruct Hor as [Hc|Heq].
  - rewrite Hc in Hag. apply settles_same; [intros _ f Hf; congruence|]. cbn [node].
    rewrite (rebuilt_scalar _ _ _ En Hc). by intros p ?%not_elem_of_nil.
  - eapply rebuilt_settles; [by eapply constant_foldable|done|done].
Qed.

(** [compile_node] compiles the parts of an expression it keeps. *)
Definition kept (e : SNode) : Prop :=
  opt = true → ∀ f, fold_constant_expr e = Some f → node_eqb (node f) (node e) = true.

Inductive visits : SNode → SNode → Prop :=
  | visits_itself e : visits e e
  | visits_part e p x : kept e → p ∈ parts (node e) → visits p x → visits e x.

(** Folding replaces the expression by a collection unequal to itself. *)
Definition stuck_on (e : SNode) : Prop :=
  opt = true ∧ ∃ f, fold_constant_expr e = Some f ∧ node_eqb (node f) (node e) = false ∧
    is_constant_fold_candidate (node f) = true ∧ node_eqb (node f) (node f) = false.

Lemma parts_ind (P : SNode → Prop) :
  (∀ e, (∀ p, p ∈ parts (node e) → P p) → P e) → ∀ e, P e.
Proof.
  intros Hparts.
  assert (∀ n, (∀ sp, P (mkSpanned n sp)) ∧ ∀ inner, n = Node.Spread inner → P inner) as Hn.
  2: { intros [n sp]. apply Hn. }
  assert (∀ i : SNode, ((∀ sp, P (mkSpanned (node i) sp)) ∧
    ∀ inner, node i = Node.Spread inner → P inner) → P i ∧ P (unspread i)) as Hi.
  { intros [m sp] [Hm Hspread]. split; [apply Hm|]. unfold unspread. cbn [node] in *.
    destruct m; try apply Hm. by apply Hspread. }
  induction n as [| | | | | | | |op l r IHl IHr|op x IHx|c t f IHc IHt IHf|items IH|es IH|x IHx] using node_ind;
    (split; [intros sp; apply Hparts; cbn [node parts]; intros p Hp|try (intros inner Hin; discriminate Hin)]);
    try (by apply not_elem_of_nil in Hp).
  - rewrite !elem_of_cons, elem_of_nil in Hp. destruct Hp as [->|[->|[]]]; by apply Hi.
  - rewrite elem_of_cons, elem_of_nil in Hp. destruct Hp as [->|[]]. by apply Hi.
  - rewrite !elem_of_cons, elem_of_nil in Hp. destruct Hp as [->|[->|[->|[]]]]; by apply Hi.
  - apply list_elem_of_fmap in Hp as (i & -> & Hin). rewrite Forall_forall in IH. by apply Hi, IH.
  - apply list_elem_of_In, in_concat in Hp as (q & (i & <- & Hin)%in_map_iff & Hq).
    rewrite Forall_forall in IH. apply list_elem_of_In, IH in Hin as [H1 H2]. apply Hi in H1, H2.
    destruct Hq as [<-|[<-|[]]]; [apply H1|apply H2].
  - intros inner [= <-]. by apply Hi in IHx as [? _].
Qed.

Lemma all_or_one {A} (P Q : A → Prop) (l : list A) :
  (∀ x, x ∈ l → P x ∨ Q x) → (∀ x, x ∈ l → P x) ∨ ∃ x, x ∈ l ∧ Q x.
Proof.
  induction l as [|x l IH]; intros Hl; [left; by intros x ?%not_elem_of_nil|].
  destruct (Hl x) as [Hx|Hx]; [by left| |right; exists x; by split; [left|]].
  destruct IH as [Hall|(y & Hy & Hq)]; [intros y Hy; apply Hl; by right| |right; exists y; by split; [right|]].
  left. by intros y [->|Hy]%elem_of_cons; [|apply Hall].
Qed.

(** Every expression settles, or comes to one that is stuck. *)
Lemma settles_or_stuck e : settles e ∨ ∃ x, visits e x ∧ stuck_on x.
Proof.
  induction e as [e IH] using parts_ind.
  assert (kept e ∨ opt = true ∧ ∃ f, fold_constant_expr e = Some f ∧ node_eqb (node f) (node e) = false)
    as [Hkept|(Hopt & f & Hf & Hne)].
  { unfold kept. destruct opt; [|by left]. destruct (fold_constant_expr e) as [f|]; [|by left].
    destruct (node_eqb (node f) (node e)) eqn:E; [left; by intros _ g [= <-]|right; eauto]. }
  - destruct (all_or_one _ _ _ IH) as [Hall|(p & Hp & x & Hx & Hs)].
    + left. by apply settles_same.
    + right. exists x. by split; [eapply visits_part|].
  - destruct (is_constant_fold_candidate (node f)) eqn:Hc, (node_eqb (node f) (node f)) eqn:Heq.
    2: { right. exists e. split; [constructor|]. split; [done|]. by exists f. }
    all: left; eapply settles_folded; [done..|]; eapply folded_settles; [done|]; auto.
Qed.

Lemma unoptimised_settles e : opt = false → settles e.
Proof. intros Hopt. destruct (settles_or_stuck e) as [|(x & _ & Ho & _)]; congruence. Qed.
End ends.

(** *** Collections unequal to themselves *)

Fixpoint holds_nan (n : Node.Node) : bool :=
  match n with
  | Node.FloatLiteral f => negb (f64_eqb f f)
  | Node.BinaryOp _ l r => holds_nan (node l) || holds_nan (node r)
  | Node.UnaryOp _ e | Node.Spread e => holds_nan (node e)
  | Node.Ternary c t f => holds_nan (node c) || holds_nan (node t) || holds_nan (node f)
  | Node.ListLiteral items => existsb (λ i : SNode, holds_nan (node i)) items
  | Node.DictLiteral es => existsb (λ e : SNode * SNode, holds_nan (node e.1) || holds_nan (node e.2)) es
  | _ => false
  end.

Lemma list_eqb_diagonal {A} (eqb : A → A → bool) (p : A → bool) l :
  Forall (λ x, eqb x x = negb (p x)) l → list_eqb eqb l l = negb (existsb p l).
Proof. induction 1 as [|x l Hx _ IH]; cbn; [done|]. by rewrite Hx, IH, negb_orb. Qed.

(** Spans and operators are equal to themselves. *)
Ltac same_places := repeat case_bool_decide; try done; rewrite ?andb_true_r.

(** A node differs from itself exactly when a float in it does. *)
Lemma node_eqb_diagonal n : node_eqb n n = negb (holds_nan n).
Proof.
  induction n as [s|s|z|f|b| |ms|x|op l r IHl IHr|op e IHe|c t f IHc IHt IHf|items IH|es IH|e IHe]
    using node_ind; cbn [node_eqb holds_nan].
  - apply String.eqb_refl.
  - apply String.eqb_refl.
  - apply Z.eqb_refl.
  - by rewrite negb_involutive.
  - by destruct b.
  - done.
  - apply N.eqb_refl.
  - apply String.eqb_refl.
  - rewrite IHl, IHr, negb_orb. by same_places.
  - rewrite IHe. by same_places.
  - rewrite IHc, IHt, IHf, !negb_orb. by same_places.
  - apply list_eqb_diagonal. eapply Forall_impl; [exact IH|]. intros i Hi. cbn beta.
    rewrite Hi. by same_places.
  - apply (list_eqb_diagonal _ (λ e : SNode * SNode, holds_nan (node e.1) || holds_nan (node e.2))).
    eapply Forall_impl; [exact IH|]. intros e [H1 H2]. cbn beta.
    rewrite H1, H2, negb_orb. by same_places.
  - rewrite IHe. by same_places.
Qed.

Section theorem.
Context `{FloatLib} (expand : TypeExpr.TypeExpr → TypeExpr.TypeExpr)
  (lookup : string → option TypeExpr.TypeExpr).

Lemma unstable_diverges e f fuel s : fold_constant_expr e = Some f →
  is_constant_fold_candidate (node f) = true → node_eqb (node f) (node f) = false →
  compile_node expand lookup true fuel f s = Diverges.
Proof.
  intros Hf Hc Hne. pose proof (fold_again _ _ Hf) as Hag. rewrite Hc in Hag.
  revert s; induction fuel as [|fuel IH]; intros s; [done|]. cbn [compile_node].
  rewrite Hag, Hne. unfold mbind, compile_bind, enter_node. apply IH.
Qed.

Lemma stuck_diverges e : stuck_on true e → ∀ fuel s, compile_node expand lookup true fuel e s = Diverges.
Proof.
  intros (_ & f & Hf & Hne & Hc & Hself) [|fuel] s; [done|]. cbn [compile_node]. rewrite Hf, Hne.
  unfold mbind, compile_bind, enter_node. by apply (unstable_diverges e).
Qed.

(** C16: When compiling an expression ends. Without optimisations always: from some
    depth of recursion on, the result no longer depends on the depth. With them
    it ends, or [compile_node] comes to an expression (the whole one, or a part
    of one that folding leaves alone) that folds to a list or a record with a NaN
    in it, and on that expression it recurses for ever, whatever the depth: it
    compares the rebuilt node with itself, finds it different and starts over.
    A NaN that is folded on its own, or folded away, does no harm. *)
Theorem compiling_ends opt e :
  (∃ n, ∀ fuel, n ≤ fuel → ∀ s,
     compile_node expand lookup opt fuel e s = compile_node expand lookup opt n e s ∧
     compile_node expand lookup opt fuel e s ≠ Diverges) ∨
  opt = true ∧ ∃ x f, visits opt e x ∧ fold_constant_expr x = Some f ∧
    is_constant_fold_candidate (node f) = true ∧ holds_nan (node f) = true ∧
    ∀ fuel s, compile_node expand lookup opt fuel x s = Diverges.
Proof.
  destruct (settles_or_stuck opt e) as [He|(x & Hx & Hs)]; [left; by apply (settles_ends expand lookup opt)|right].
  pose proof Hs as (-> & f & Hf & _ & Hc & Hself). split; [done|]. exists x, f. split_and!; try done.
  - rewrite node_eqb_diagonal in Hself. by apply negb_false_iff.
  - by apply stuck_diverges.
Qed.

(** [[0.0 / 0.0]] is one, and [[0.0 / 0.0] == 1] is compiled. *)
Definition nan_at_line (n : Node.Node) : SNode := mkSpanned n (mkSpan 0 11 1 1 1).

Definition list_of_nan : SNode :=
  nan_at_line (Node.ListLiteral [nan_at_line (Node.BinaryOp BinaryOperator.Div
    (nan_at_line (Node.FloatLiteral f64_zero)) (nan_at_line (Node.FloatLiteral f64_zero)))]).

Lemma list_of_nan_diverges :
  f64_eqb (f64_div f64_zero f64_zero) (f64_div f64_zero f64_zero) = false →
  ∀ fuel s, compile_node expand lookup true fuel list_of_nan s = Diverges.
Proof.
  intros Hnan. apply stuck_diverges. split; [done|]. eexists. split_and!; [reflexivity|reflexivity|reflexivity|].
  cbn. by rewrite Hnan.
Qed.

Lemma compared_nan_ends :
  ∃ n, ∀ fuel, n ≤ fuel → ∀ s,
    compile_node expand lookup true fuel (nan_at_line (Node.BinaryOp BinaryOperator.Eq list_of_nan
      (nan_at_line (Node.IntLiteral 1)))) s ≠ Diverges.
Proof.
  set (e := nan_at_line _). destruct (compiling_ends true e) as [[n Hn]|(_ & x & f & Hx & Hf & Hc & _)].
  - exists n. intros fuel Hfuel s. by apply Hn.
  - exfalso. inversion Hx as [|? p ? Hkept]; subst; [by injection Hf as <-|].
    assert (node_eqb (Node.BoolLiteral false) (node e) = true) as Hno; [|discriminate Hno].
    by apply (Hkept eq_refl (mkSpanned (Node.BoolLiteral false) (span e))).
Qed.
End theorem.
