(* ===== verification/Running.v ===== *)
(** * Running straight-line code

    A program logic for code that calls nothing: where the executor gets from a
    position in a chunk, up to failures for want of resources. The rules below
    are the meaning of the instructions expressions compile to. *)

From Stdlib Require Import Strings.String.
From S2P Require Import Prelude BTree Opcode Program Verifier Artifact Float64 Semantics Values.
From S2P Require Import Resource Text Arith Ops TypeContract Json Regex Host Env Machine Methods.
From S2P Require Import Builtins Snapshot Execute Run FoldSound Emit.

(** ** Failures for want of resources *)

Definition limit (d : Diagnostic) : Prop :=
  code d ∈ [execution_fuel; operand_stack_limit; value_depth_limit; value_node_limit; value_byte_limit].

(** The machines that differ in their fuel alone. *)
Definition fuel_only (m m' : Machine) : Prop := ∃ a b, m' = set_fuel a b m.

Lemma fuel_only_refl m : fuel_only m m.
Proof. exists (fuel m), (replay_credit m). by destruct m. Qed.

Lemma fuel_only_trans m1 m2 m3 : fuel_only m1 m2 → fuel_only m2 m3 → fuel_only m1 m3.
Proof. intros (a & b & ->) (a' & b' & ->). by exists a', b'. Qed.

#[export] Hint Resolve fuel_only_refl : kernel.
#[export] Hint Extern 2 (fuel_only _ _) => (eapply fuel_only_trans; [|eassumption]) : kernel.

(** [op] gives a value satisfying [P], or fails for want of resources. *)
Definition limited {A} (op : MachineR A) (P : A → Prop) : Prop :=
  ∀ m, match op m with Ok (a, m') => P a ∧ fuel_only m m' | Err d => limit d end.

Lemma limited_ret {A} (a : A) (P : A → Prop) : P a → limited (mret a) P.
Proof. intros Ha m. split; [done|apply fuel_only_refl]. Qed.

Lemma limited_bind {A B} (op : MachineR A) (f : A → MachineR B) P Q :
  limited op P → (∀ a, P a → limited (f a) Q) → limited (op ≫= f) Q.
Proof.
  intros Hop Hf m. specialize (Hop m). unfold mbind, state_bind.
  destruct (op m) as [[a m']|]; [|done]. destruct Hop as [Ha Hm]. specialize (Hf a Ha m').
  destruct (f a m') as [[b m'']|]; [|done]. destruct Hf as [Hb Hm']. split; [done|].
  by eapply fuel_only_trans.
Qed.

Lemma limited_lift {A} (r : result A) : (∀ d, r = Err d → limit d) → limited (lift r) (λ _, True).
Proof. intros Hr m. unfold lift. destruct r; [split; [done|apply fuel_only_refl]|by apply Hr]. Qed.

Lemma limited_charge n : limited (charge n) (λ _, True).
Proof. intros m. unfold charge. destruct (_ <? _)%N; [unfold limit; set_solver|]. split; [done|]. by eexists _, _. Qed.

Lemma walk_limit {T} `{ResourceView T} n stack nodes bytes d :
  resource_walk n stack nodes bytes = Err d → limit d.
Proof.
  revert stack nodes bytes; induction n as [|n IH]; intros [|[v depth] stack] nodes bytes Hd; try done;
    cbn [resource_walk] in Hd; [injection Hd as <-; unfold limit; set_solver|].
  unfold reserve_children, check_depth, check_bytes, reject_if in Hd.
  repeat (match type of Hd with context [if ?b then _ else _] => destruct b end; cbn in Hd;
    try (injection Hd as <-; unfold limit; set_solver)); by eapply IH.
Qed.

Lemma validate_limit v d : validate_runtime_value v = Err d → limit d.
Proof. apply walk_limit. Qed.

Lemma total_nodes_limit vs d : total_nodes vs = Err d → limit d.
Proof.
  unfold total_nodes. generalize 0%N. induction vs as [|v vs IH]; intros n Hd; [done|].
  cbn [result_foldl] in Hd. destruct (validate_runtime_value v) as [u|e] eqn:E; cbn [mbind result_bind] in Hd.
  - exact (IH _ Hd).
  - injection Hd as <-. exact (validate_limit _ _ E).
Qed.

Lemma limited_charge_value v : limited (charge_value_work v) (λ _, True).
Proof. eapply limited_bind; [apply limited_lift, validate_limit|]. intros; apply limited_charge. Qed.

Lemma limited_charge_values vs : limited (charge_values_work vs) (λ _, True).
Proof. eapply limited_bind; [apply limited_lift, total_nodes_limit|]. intros; apply limited_charge. Qed.

(** Keys and values as [BuildDict] finds them on the stack. *)
Definition flatten_pairs (kvs : list (RuntimeValue * RuntimeValue)) : list RuntimeValue :=
  concat (map (λ kv, [kv.1; kv.2]) kvs).

Section ops.
Context `{FloatLib, Platform}.

Lemma limited_render v : limited (render_value v) (λ s, s = display v).
Proof. eapply limited_bind; [apply limited_charge_value|]. intros _ _. by apply limited_ret. Qed.

Lemma limited_values_equal a b : limited (values_equal a b) (λ r, r = semantic_values_equal a b).
Proof. eapply limited_bind; [apply limited_charge_values|]. intros _ _. by apply limited_ret. Qed.

Lemma limited_list_contains vs v :
  limited (list_contains vs v) (λ r, r = existsb (λ w, semantic_values_equal w v) vs).
Proof.
  induction vs as [|w vs IH]; cbn [list_contains existsb]; [by apply limited_ret|].
  eapply limited_bind; [apply limited_values_equal|]. intros b ->.
  destruct (semantic_values_equal w v); [by apply limited_ret|apply IH].
Qed.

Lemma limited_contains container item :
  limited (contains container item) (λ r, r = contains_runtime item container).
Proof.
  destruct container; cbn [contains contains_runtime]; try (by apply limited_ret).
  - eapply limited_bind; [apply limited_render|]. intros s ->. by apply limited_ret.
  - apply limited_list_contains.
  - eapply limited_bind; [apply limited_render|]. intros s ->. by apply limited_ret.
Qed.

Lemma flatten_pairs_length kvs : length (flatten_pairs kvs) = length kvs * 2.
Proof. induction kvs as [|kv kvs IH]; [done|]. cbn. f_equal. f_equal. exact IH. Qed.

Lemma limited_build_dict kvs es :
  limited (build_dict es (flatten_pairs kvs))
    (λ r, r = BTree.extend es (map (λ kv, (display kv.1, kv.2)) kvs)).
Proof.
  revert es; induction kvs as [|[k v] kvs IH]; intros es; cbn [flatten_pairs map concat app build_dict fst snd];
    [by apply limited_ret|].
  eapply limited_bind; [apply limited_render|]. intros s ->. apply IH.
Qed.
End ops.

(** ** Steps *)

Section running.
Context `{FloatLib, Platform} (session : Session).

(** An iteration of the loop that stays in the frame; [None] is any other. *)
Definition advance (s : State) : option (result State) :=
  let f := st_frame s in
  match charge 1 (st_machine s) with
  | Err d => Some (Err d)
  | Ok (_, m) =>
      b ← code_of f !! fr_ip f;
      op ← Op.from_byte b;
      match execute_op session op (mkState (set_ip (fr_ip f + 1) f) m) with
      | Err d => Some (Err d)
      | Ok (Stepped Continue, s) =>
          Some (if (MAX_OPERAND_STACK <? length (fr_stack (st_frame s)))%nat
                then Err (diagnostic operand_stack_limit) else Ok s)
      | _ => None
      end
  end.

(** From [s] the executor comes to a state in [Q] without leaving the frame, or
    fails for want of resources or as [E] says. *)
Inductive goes (Q : State → Prop) (E : Diagnostic → Prop) (s : State) : Prop :=
  | goes_stop : Q s → goes Q E s
  | goes_step s' : advance s = Some (Ok s') → goes Q E s' → goes Q E s
  | goes_fail d : advance s = Some (Err d) → limit d ∨ E d → goes Q E s.

Lemma goes_bind Q Q' E E' s :
  goes Q' E' s → (∀ d, E' d → E d) → (∀ s', Q' s' → goes Q E s') → goes Q E s.
Proof.
  intros Hs HE HQ. induction Hs as [s Hs|s s' Ha _ IH|s d Ha Hd]; [by apply HQ|by eapply goes_step|].
  eapply goes_fail; [done|]. destruct Hd; auto.
Qed.

(** [execute_frames] *)
Definition execute_frames (steps : nat) (frames : list Frame) : ExecR Step :=
  exec session steps (Frames frames).

(** The same on the stack of frames. *)
Lemma exec_advance s r callers steps : advance s = Some r →
  execute_frames (S steps) (st_frame s :: callers) (st_machine s) =
  match r with
  | Ok s' => execute_frames steps (st_frame s' :: callers) (st_machine s')
  | Err d => Finished (Err d)
  end.
Proof.
  unfold advance. intros Ha. unfold execute_frames. cbn [exec]. unfold step_frames, run_machine, mbind, exec_bind.
  destruct (charge 1 (st_machine s)) as [[[] m]|d]; [|by injection Ha as <-].
  destruct (code_of (st_frame s) !! fr_ip (st_frame s)) as [b|]; [|done].
  cbn [mbind option_bind] in Ha. destruct (Op.from_byte b) as [op|]; [|done].
  cbn [mbind option_bind] in Ha. destruct (execute_op session op _) as [[req s']|d]; [|by injection Ha as <-].
  destruct req as [[]| |]; try done. injection Ha as <-.
  cbn -[Nat.ltb MAX_OPERAND_STACK exec]. by destruct (MAX_OPERAND_STACK <? _)%nat.
Qed.

Lemma exec_goes Q E s callers : goes Q E s →
  (∃ n d, (limit d ∨ E d) ∧ ∀ steps,
     execute_frames (n + steps) (st_frame s :: callers) (st_machine s) = Finished (Err d)) ∨
  (∃ n s', Q s' ∧ ∀ steps,
     execute_frames (n + steps) (st_frame s :: callers) (st_machine s) =
     execute_frames steps (st_frame s' :: callers) (st_machine s')).
Proof.
  induction 1 as [s Hs|s s' Ha _ IH|s d Ha Hd].
  - right. by exists 0%nat, s.
  - destruct IH as [(n & d & Hd & IH)|(n & s'' & HQ & IH)].
    + left. exists (S n), d. split; [done|]. intros steps. cbn [Nat.add]. by rewrite (exec_advance _ _ _ _ Ha).
    + right. exists (S n), s''. split; [done|]. intros steps. cbn [Nat.add]. by rewrite (exec_advance _ _ _ _ Ha).
  - left. exists 1%nat, d. split; [done|]. intros steps. cbn [Nat.add]. by rewrite (exec_advance _ _ _ _ Ha).
Qed.

(** ** Positions *)

(** The frame at another position, with another stack. *)
Definition at_ (f : Frame) (ip : nat) (stack : list RuntimeValue) : Frame :=
  mkFrame (fr_chunk f) ip stack (fr_locals f) (fr_env f) (fr_handlers f) (fr_argc f).

Definition code_at (c : Chunk) (ip : nat) (bs : list byte) : Prop :=
  ∃ rest, drop ip (chunk_code c) = bs ++ rest.

Lemma code_at_app c ip bs1 bs2 : code_at c ip (bs1 ++ bs2) ↔
  code_at c ip bs1 ∧ code_at c (ip + length bs1) bs2.
Proof.
  split.
  - intros [rest Hr]. rewrite <- app_assoc in Hr. split; [by eexists|]. exists rest.
    by rewrite <- drop_drop, Hr, drop_app_length.
  - intros [[rest1 Hr1] [rest2 Hr2]]. exists rest2. rewrite <- drop_drop, Hr1, drop_app_length in Hr2.
    by rewrite <- app_assoc, <- Hr2.
Qed.

Lemma code_at_cons c ip b bs : code_at c ip (b :: bs) ↔ code_at c ip [b] ∧ code_at c (ip + 1) bs.
Proof. apply (code_at_app c ip [b] bs). Qed.

Lemma code_at_lookup c ip b : code_at c ip [b] → chunk_code c !! ip = Some b.
Proof. intros [rest Hr]. rewrite <- (Nat.add_0_r ip), <- lookup_drop, Hr. done. Qed.

Lemma code_at_length c ip b bs : code_at c ip (b :: bs) → ip + length (b :: bs) ≤ length (chunk_code c).
Proof.
  intros [rest Hr]. apply (f_equal length) in Hr. rewrite length_drop, length_app in Hr. cbn in *. lia.
Qed.

(** A 16-bit operand. *)
Lemma code_at_u16 c ip n : code_at c ip (be_bytes 2 n) → (n < 65536)%N →
  ip + 2 ≤ length (chunk_code c) ∧ read_code_u16 (chunk_code c) ip = N.to_nat n.
Proof.
  intros Hc Hn. split; [exact (code_at_length _ _ _ _ Hc)|]. destruct Hc as [rest Hr].
  unfold read_code_u16. rewrite Hr, take_app_le by done.
  change (take 2 (be_bytes 2 n)) with (be_bytes 2 n). rewrite from_be_be_bytes.
  by rewrite N.mod_small.
Qed.

Lemma read_u16_at_code f ip st m n : code_at (fr_chunk f) ip (be_bytes 2 n) → (n < 65536)%N →
  read_u16 (mkState (at_ f ip st) m) = Ok (N.to_nat n, mkState (at_ f (ip + 2) st) m).
Proof.
  intros Hc Hn. destruct (code_at_u16 _ _ _ Hc Hn) as [Hl Hr]. unfold read_u16. cbn [st_frame].
  unfold code_of. cbn [fr_chunk fr_ip at_]. rewrite Hr. by destruct (Nat.ltb_spec (length (chunk_code (fr_chunk f))) (ip + 2)); [lia|].
Qed.

(** ** Instructions *)

Lemma goes_op Q E f ip st m op bs :
  code_at (fr_chunk f) ip (op_byte op :: bs) →
  (∀ m', fuel_only m m' →
     match execute_op session op (mkState (at_ f (ip + 1) st) m') with
     | Ok (Stepped Continue, s) => goes Q E s
     | Err d => limit d ∨ E d
     | _ => False
     end) →
  goes Q E (mkState (at_ f ip st) m).
Proof.
  intros Hc%code_at_cons Hop. destruct Hc as [Hb%code_at_lookup _].
  pose proof (limited_charge 1 m) as Hm. destruct (charge 1 m) as [[[] m']|d] eqn:Ec.
  2: { eapply goes_fail; [|cbn; by left]. unfold advance. cbn [st_machine]. by rewrite Ec. }
  specialize (Hop m' (proj2 Hm)).
  assert (advance (mkState (at_ f ip st) m) =
    match execute_op session op (mkState (at_ f (ip + 1) st) m') with
      | Err d => Some (Err d)
      | Ok (Stepped Continue, s) =>
          Some (if (MAX_OPERAND_STACK <? length (fr_stack (st_frame s)))%nat
                then Err (diagnostic operand_stack_limit) else Ok s)
      | _ => None
      end) as Ha.
  { unfold advance. cbn [st_machine st_frame]. rewrite Ec. unfold code_of. cbn [fr_chunk fr_ip at_].
    rewrite Hb. cbn [mbind option_bind]. unfold op_byte. by rewrite op_from_byte_discriminant. }
  destruct (execute_op session op _) as [[[[]| |] s]|d]; try done.
  - destruct (_ <? _)%nat.
    + eapply goes_fail; [exact Ha|]. left. unfold limit. set_solver.
    + by eapply goes_step.
  - by eapply goes_fail.
Qed.

(** The instruction takes [args], top first, and leaves the value of [r]. *)
Definition computes (c : Chunk) (op : Op.Op) (operands : list byte) (args : list RuntimeValue)
    (r : result RuntimeValue) : Prop :=
  ∀ f ip st m, fr_chunk f = c → code_at c ip operands →
    match execute_op session op (mkState (at_ f ip (args ++ st)) m) with
    | Ok (request, s) =>
        request = Stepped Continue ∧ ∃ v m', r = Ok v ∧ fuel_only m m' ∧
          s = mkState (at_ f (ip + length operands) (v :: st)) m'
    | Err d => limit d ∨ r = Err d
    end.

Lemma goes_computes Q E f ip st m op operands args r :
  code_at (fr_chunk f) ip (op_byte op :: operands) → computes (fr_chunk f) op operands args r →
  (∀ v m', r = Ok v → fuel_only m m' →
     goes Q E (mkState (at_ f (ip + S (length operands)) (v :: st)) m')) →
  (∀ d, r = Err d → E d) →
  goes Q E (mkState (at_ f ip (args ++ st)) m).
Proof.
  intros Hc Hop HQ HE. eapply goes_op; [done|]. intros m' Hm. apply code_at_cons in Hc as [_ Hc].
  specialize (Hop f (ip + 1) st m' eq_refl Hc). destruct (execute_op session op _) as [[req s]|d].
  - destruct Hop as (-> & v & m'' & -> & Hm' & ->). rewrite <- Nat.add_assoc. apply HQ; [done|].
    by eapply fuel_only_trans.
  - destruct Hop; auto.
Qed.

(** *** Values *)

Ltac open_op := cbn [execute_op];
  unfold op_binary, binary, op_negate, op_not, compare_equality, compare, op_contains, op_dup, op_pop,
    charged_push, charge_value, push_done, on_machine, lift, mbind, state_bind; cbn.

Lemma computes_push c op v : execute_op session op = push_done v → computes c op [] [] (Ok v).
Proof.
  intros Hop f ip st m _ _. rewrite Hop. cbn. split; [done|]. exists v, m.
  rewrite (Nat.add_0_r ip). auto with kernel.
Qed.

Lemma computes_constant c index k : (index < 65536)%N → chunk_constants c !! N.to_nat index = Some k →
  computes c Op.Constant (be_bytes 2 index) [] (Ok (runtime_of_constant k)).
Proof.
  intros Hi Hk f ip st m <- Hc. cbn [execute_op]. unfold op_constant, mbind, state_bind.
  rewrite (read_u16_at_code f ip _ m index) by done. cbn. rewrite Hk. cbn. split; [done|].
  eexists _, m. auto with kernel.
Qed.

Lemma computes_binary c op g a b : execute_op session op = op_binary g →
  computes c op [] [b; a] (g a b).
Proof.
  intros Hop f ip st m _ _. rewrite Hop. open_op.
  destruct (g a b) as [v|d]; cbn; [|by right].
  pose proof (limited_charge_value v m) as Hv. destruct (charge_value_work v m) as [[[] m']|]; [|cbn; by left].
  cbn. split; [done|]. exists v, m'. rewrite (Nat.add_0_r ip). split_and!; [done|apply Hv|done].
Qed.

Lemma computes_negate c v : computes c Op.Negate [] [v] (negate v).
Proof.
  intros f ip st m _ _. open_op. destruct (negate v) as [w|]; cbn; [|by right]. split; [done|].
  exists w, m. rewrite (Nat.add_0_r ip). auto with kernel.
Qed.

Lemma computes_not c v : computes c Op.Not [] [v] (Ok (RBool (negb (truthy v)))).
Proof.
  intros f ip st m _ _. open_op. split; [done|]. eexists _, m. rewrite (Nat.add_0_r ip). auto with kernel.
Qed.

(** A test on two values that may run out of resources. *)
Lemma computes_limited c op (test : RuntimeValue → RuntimeValue → MachineR bool) a b t :
  execute_op session op = (right_ ← pop; left_ ← pop; found ← on_machine (test left_ right_);
                           push_done (RBool found)) →
  limited (test a b) (λ r, r = t) → computes c op [] [b; a] (Ok (RBool t)).
Proof.
  intros Hop Ht f ip st m _ _. rewrite Hop. open_op.
  specialize (Ht m). destruct (test a b m) as [[r m']|]; [|cbn; by left]. destruct Ht as [-> Hm]. cbn.
  split; [done|]. eexists _, m'. by rewrite (Nat.add_0_r ip).
Qed.

Lemma computes_equality c op expected a b : execute_op session op = compare_equality expected →
  computes c op [] [b; a] (Ok (RBool (Bool.eqb (semantic_values_equal a b) expected))).
Proof.
  intros Hop f ip st m _ _. rewrite Hop. open_op.
  pose proof (limited_values_equal a b m) as Ht. destruct (values_equal a b m) as [[r m']|]; [|cbn; by left].
  destruct Ht as [-> Hm]. cbn. split; [done|]. eexists _, m'. by rewrite (Nat.add_0_r ip).
Qed.

Lemma computes_compare c op predicate a b : execute_op session op = compare predicate →
  computes c op [] [b; a] (Ok (compare_runtime predicate a b)).
Proof.
  intros Hop f ip st m _ _. rewrite Hop. open_op.
  pose proof (limited_charge_values [a; b] m) as Ht.
  destruct (charge_values_work [a; b] m) as [[r m']|]; [|cbn; by left]. destruct Ht as [_ Hm]. cbn.
  split; [done|]. exists (compare_runtime predicate a b), m'. by rewrite (Nat.add_0_r ip).
Qed.

Lemma computes_contains c item container :
  computes c Op.Contains [] [container; item] (Ok (RBool (contains_runtime item container))).
Proof.
  intros f ip st m _ _. open_op.
  pose proof (limited_contains container item m) as Ht.
  destruct (contains container item m) as [[r m']|]; [|cbn; by left].
  destruct Ht as [-> Hm]. cbn. split; [done|]. eexists _, m'. by rewrite (Nat.add_0_r ip).
Qed.

Lemma pop_args_reverse f ip vs st m :
  pop_args (length vs) (mkState (at_ f ip (reverse vs ++ st)) m) =
  Ok (vs, mkState (at_ f ip st) m).
Proof.
  unfold pop_args. cbn [st_frame fr_stack at_]. rewrite length_app, length_reverse.
  destruct (Nat.ltb_spec (length vs + length st) (length vs)); [lia|].
  rewrite take_app_le by (by rewrite length_reverse).
  rewrite take_ge by (by rewrite length_reverse). rewrite reverse_involutive.
  rewrite drop_app_ge by (by rewrite length_reverse). by rewrite length_reverse, Nat.sub_diag.
Qed.

Lemma charged_push_at f ip st m v :
  match charged_push v (mkState (at_ f ip st) m) with
  | Ok (request, s) =>
      request = Stepped Continue ∧ ∃ m', fuel_only m m' ∧ s = mkState (at_ f ip (v :: st)) m'
  | Err d => limit d
  end.
Proof.
  open_op.
  pose proof (limited_charge_value v m) as Hv. destruct (charge_value_work v m) as [[[] m']|]; [|done].
  cbn. split; [done|]. exists m'. split; [apply Hv|done].
Qed.

Lemma computes_build_list c vs : (len vs < 65536)%N →
  computes c Op.BuildList (be_bytes 2 (len vs)) (reverse vs) (Ok (RList vs)).
Proof.
  intros Hn f ip st m <- Hc. cbn [execute_op]. unfold op_build_list, mbind, state_bind.
  rewrite (read_u16_at_code f ip _ m (len vs)) by done. unfold len. rewrite Nat2N.id, pop_args_reverse.
  pose proof (charged_push_at f (ip + 2) st m (RList vs)) as Hp.
  destruct (charged_push _ _) as [[req s]|]; [|cbn; by left]. destruct Hp as (-> & m' & Hm & ->).
  split; [done|]. by exists (RList vs), m'.
Qed.

Lemma computes_build_dict c kvs : (len kvs < 65536)%N →
  computes c Op.BuildDict (be_bytes 2 (len kvs)) (reverse (flatten_pairs kvs))
    (Ok (RRecord (BTree.from_entries (map (λ kv, (display kv.1, kv.2)) kvs)))).
Proof.
  intros Hn f ip st m <- Hc. cbn [execute_op]. unfold op_build_dict, mbind, state_bind.
  rewrite (read_u16_at_code f ip _ m (len kvs)) by done. unfold len.
  rewrite Nat2N.id, <- flatten_pairs_length.
  rewrite pop_args_reverse. unfold on_machine. cbn [st_machine st_frame].
  pose proof (limited_build_dict kvs [] m) as Hd. destruct (build_dict [] _ m) as [[es m']|]; [|cbn; by left].
  destruct Hd as [-> Hm].
  pose proof (charged_push_at f (ip + 2) st m'
    (RRecord (BTree.from_entries (map (λ kv, (display kv.1, kv.2)) kvs)))) as Hp.
  destruct (charged_push _ _) as [[req s]|]; [|cbn; by left]. destruct Hp as (-> & m'' & Hm' & ->).
  split; [done|]. eexists _, m''. split_and!; [done|by eapply fuel_only_trans|done].
Qed.

(** *** The stack and jumps *)

Lemma goes_pop Q E f ip v st m : code_at (fr_chunk f) ip [op_byte Op.Pop] →
  (∀ m', fuel_only m m' → goes Q E (mkState (at_ f (ip + 1) st) m')) →
  goes Q E (mkState (at_ f ip (v :: st)) m).
Proof. intros Hc HQ. by eapply goes_op. Qed.

Lemma goes_dup Q E f ip v st m : code_at (fr_chunk f) ip [op_byte Op.Dup] →
  (∀ m', fuel_only m m' → goes Q E (mkState (at_ f (ip + 1) (v :: v :: st)) m')) →
  goes Q E (mkState (at_ f ip (v :: st)) m).
Proof. intros Hc HQ. by eapply goes_op. Qed.

Lemma goes_jump Q E f ip target st m :
  code_at (fr_chunk f) ip (op_byte Op.Jump :: be_bytes 2 (N.of_nat target)) → (N.of_nat target < 65536)%N →
  (∀ m', fuel_only m m' → goes Q E (mkState (at_ f target st) m')) →
  goes Q E (mkState (at_ f ip st) m).
Proof.
  intros Hc Ht HQ. eapply goes_op; [done|]. intros m' Hm. apply code_at_cons in Hc as [_ Hc].
  cbn [execute_op]. unfold op_jump, mbind, state_bind.
  rewrite (read_u16_at_code f (ip + 1) st m' (N.of_nat target)) by done.
  rewrite Nat2N.id. by apply HQ.
Qed.

(** A conditional jump looks at the top of the stack and leaves it there. *)
Lemma goes_jump_if Q E f ip op expected target v st m :
  execute_op session op = op_jump_if expected →
  code_at (fr_chunk f) ip (op_byte op :: be_bytes 2 (N.of_nat target)) → (N.of_nat target < 65536)%N →
  (∀ m', fuel_only m m' →
     goes Q E (mkState (at_ f (if Bool.eqb (truthy v) expected then target else ip + 3) (v :: st)) m')) →
  goes Q E (mkState (at_ f ip (v :: st)) m).
Proof.
  intros Hop Hc Ht HQ. eapply goes_op; [done|]. intros m' Hm. apply code_at_cons in Hc as [_ Hc].
  rewrite Hop. unfold op_jump_if, mbind, state_bind.
  rewrite (read_u16_at_code f (ip + 1) _ m' (N.of_nat target)) by done.
  rewrite Nat2N.id. specialize (HQ m' Hm). cbn. destruct (Bool.eqb _ _); cbn; [exact HQ|].
  replace (ip + 1 + 2) with (ip + 3) by lia. exact HQ.
Qed.
End running.
