(* ===== verification/Region.v ===== *)
(** * Regions of compiled code

    What each piece of the compiler adds to a chunk, and what the added code
    does: a region pushes values the way an evaluation gives them, wherever the
    chunk ends up. Jumps, branches and collections are put together here. *)

From stdpp Require Import countable.
From Stdlib Require Import Strings.String.
From S2P Require Import Prelude BTree Opcode Program Verifier Artifact Float64 Semantics Values.
From S2P Require Import Resource Text Arith Ops TypeContract Json Regex Host Env Machine Methods.
From S2P Require Import Builtins Snapshot Execute Run Operators Fold FoldSound Emit Compile Running.

(** ** What compiling adds *)

Definition code (s : Compiler) : list byte := chunk_code (chunk (emitter s)).
Definition constants (s : Compiler) : list Constant.Constant := chunk_constants (chunk (emitter s)).

(** The memo tables point at what they remember. *)
Record compiler_ok (s : Compiler) : Prop := {
  ok_index : ∀ k i, constant_index (emitter s) !! k = Some i → constants s !! N.to_nat i = Some k;
  ok_strings : ∀ t i, string_constants s !! t = Some i →
    constants s !! N.to_nat i = Some (Constant.String t);
  ok_bound : (len (constants s) <= 65536)%N
}.

Record emits (s s' : Compiler) (bs : list byte) : Prop := {
  emits_code : code s' = code s ++ bs;
  emits_constants : constants s `prefix_of` constants s';
  emits_ok : compiler_ok s → compiler_ok s'
}.

Lemma emits_refl s : emits s s [].
Proof. split; [by rewrite app_nil_r|done|done]. Qed.

Lemma emits_trans s1 s2 s3 b1 b2 : emits s1 s2 b1 → emits s2 s3 b2 → emits s1 s3 (b1 ++ b2).
Proof.
  intros [C1 K1 O1] [C2 K2 O2]. split; [by rewrite C2, C1, app_assoc|by etransitivity|auto].
Qed.

Lemma emits_length s s' bs : emits s s' bs → length (code s') = length (code s) + length bs.
Proof. intros [-> _ _]. apply length_app. Qed.

(** A step that leaves the tables alone. *)
Lemma emits_same s s' bs :
  code s' = code s ++ bs → constants s' = constants s →
  constant_index (emitter s') = constant_index (emitter s) → string_constants s' = string_constants s →
  emits s s' bs.
Proof.
  intros Hc Hk Hi Ht. split; [done|by rewrite Hk|]. intros [O1 O2 O3].
  split; unfold constants in *; rewrite ?Hk, ?Hi, ?Ht; done.
Qed.

Lemma be_bytes_2 v : be_bytes 2 v = [n2b (N.shiftr v 8); n2b v].
Proof.
  cbn [be_bytes]. rewrite N.shiftr_div_pow2. change (256 ^ N.of_nat 0)%N with 1%N. by rewrite N.div_1_r.
Qed.

Lemma emit_emits op s s' : chunk_emit op s = Done (tt, s') → emits s s' [op_byte op].
Proof. intros [= <-]. by apply emits_same. Qed.

Lemma emit_u16_emits op v s s' :
  chunk_emit_u16 op v s = Done (tt, s') → emits s s' (op_byte op :: be_bytes 2 v).
Proof. intros [= <-]. rewrite be_bytes_2. by apply emits_same. Qed.

Lemma emit_jump_emits op p s s' : chunk_emit_jump op s = Done (p, s') →
  p = length (code s) + 1 ∧ emits s s' (op_byte op :: [n2b 255; n2b 255]).
Proof. intros [= <- <-]. split; [done|]. by apply emits_same. Qed.

Lemma enter_emits sp s s' : enter_node sp s = Done (tt, s') → emits s s' [].
Proof. intros [= <-]. apply emits_same; [by rewrite app_nil_r|done..]. Qed.

(** The 16 bits of a jump, once its target is known. *)
Lemma patch_emits p s0 s s' pre op post target :
  chunk_patch_jump p s = Done (tt, s') → p = length (code s0) + length pre + 1 →
  emits s0 s (pre ++ (op_byte op :: [n2b 255; n2b 255]) ++ post) → target = length (code s) →
  emits s0 s' (pre ++ (op_byte op :: be_bytes 2 (N.of_nat target mod 65536)) ++ post).
Proof.
  intros [= <-] -> [Hc Hk Ho] ->. split; [|done|].
  - unfold code in *. cbn. unfold code_len. rewrite Hc.
    replace (length _ + length pre + 1) with (length ((chunk_code (chunk (emitter s0)) ++ pre) ++ [op_byte op]))
      by (rewrite !length_app; cbn; lia).
    replace (chunk_code (chunk (emitter s0)) ++ pre ++ (op_byte op :: [n2b 255; n2b 255]) ++ post)
      with (((chunk_code (chunk (emitter s0)) ++ pre) ++ [op_byte op]) ++ [n2b 255; n2b 255] ++ post)
      by (by rewrite <- !app_assoc).
    rewrite take_app_length, <- drop_drop, drop_app_length. cbn [drop app].
    by rewrite <- !app_assoc.
  - intros Hs. destruct (Ho Hs) as [O1 O2 O3]. by split.
Qed.

(** *** Constants *)

Lemma lookup_prefix {A} (l1 l2 : list A) i x : l1 `prefix_of` l2 → l1 !! i = Some x → l2 !! i = Some x.
Proof. intros [k ->]. apply lookup_app_l_Some. Qed.

Lemma lookup_index s i k : compiler_ok s → constants s !! N.to_nat i = Some k → (i < 65536)%N.
Proof. intros Hs Hi%lookup_lt_Some. pose proof (ok_bound s Hs). unfold len in *. lia. Qed.

Lemma add_constant_emits k i s s' : chunk_add_constant k s = Done (i, s') →
  emits s s' [] ∧ (compiler_ok s → constants s' !! N.to_nat i = Some k).
Proof.
  unfold chunk_add_constant, add_constant. destruct (constant_index (emitter s) !! k) as [j|] eqn:Ek.
  - intros [= <- <-]. split; [by apply emits_same; [by rewrite app_nil_r|..]|]. intros [O _ _]. by apply O.
  - destruct (N.ltb_spec U16_MAX (len (chunk_constants (chunk (emitter s))))) as [|Hle]; [done|].
    intros [= <- <-]. unfold U16_MAX in Hle.
    assert (∀ k' j, constants s !! j = Some k' → (constants s ++ [k]) !! j = Some k') as Hold
      by (intros; by apply lookup_app_l_Some).
    assert ((constants s ++ [k]) !! N.to_nat (len (constants s)) = Some k) as Hnew.
    { unfold len. rewrite Nat2N.id. by rewrite lookup_app_r, Nat.sub_diag by done. }
    split; [|done]. split; [by rewrite app_nil_r|by exists [k]|]. intros [O1 O2 O3]. split.
    + intros k' j. cbn [emitter constant_index].
      intros [[<- <-]|[_ Hj]]%lookup_insert_Some; [exact Hnew|]. apply Hold. by apply O1.
    + intros t j Ht. apply Hold. by apply O2.
    + change (constants _) with (constants s ++ [k]). unfold constants. rewrite len_app, len_cons, len_nil. lia.
Qed.

Lemma string_constant_emits t i s s' : string_constant t s = Done (i, s') →
  emits s s' [] ∧ (compiler_ok s → constants s' !! N.to_nat i = Some (Constant.String t)).
Proof.
  unfold string_constant. destruct (string_constants s !! t) as [j|] eqn:Et.
  - intros [= <- <-]. split; [apply emits_refl|]. intros [_ O _]. by apply O.
  - destruct (chunk_add_constant _ s) as [[j s1]| | | |] eqn:Ea; try done. intros [= <- <-].
    apply add_constant_emits in Ea as [He Hj]. split; [|exact Hj].
    split; [exact (emits_code _ _ _ He)|exact (emits_constants _ _ _ He)|].
    intros Hs. destruct (emits_ok _ _ _ He Hs) as [O1 O2 O3]. split; [done| |done].
    intros t' j'. cbn. intros [[<- <-]|[_ Hj']]%lookup_insert_Some; [exact (Hj Hs)|by apply O2].
Qed.

(** ** Regions of code *)

(** The chunk that is run ends up with the constants of [s], and small enough for
    its jumps (see [ensure_chunk_addressable]). *)
Record covers (c : Chunk) (s : Compiler) : Prop := {
  covers_constants : constants s `prefix_of` chunk_constants c;
  covers_size : (len (chunk_code c) < 65536)%N
}.

Lemma covers_before c s s' bs : emits s s' bs → covers c s' → covers c s.
Proof. intros He [Hk Hs]. split; [|done]. etransitivity; [apply (emits_constants _ _ _ He)|done]. Qed.

Lemma eqb_false_r_negb b : Bool.eqb b false = negb b.
Proof. by destruct b. Qed.

Section regions.
Context `{FloatLib, Platform} (session : Session).

(** The code between [s] and [s'] pushes [shape a] when [r] is [Ok a], and fails
    as [r] does. *)
Record region {A} (shape : A → list RuntimeValue) (s s' : Compiler) (r : result A) (bs : list byte)
    : Prop := {
  region_emits : emits s s' bs;
  region_runs Q E f ip st m :
    compiler_ok s → ip = length (code s) → code_at (fr_chunk f) ip bs → covers (fr_chunk f) s' →
    (∀ a m', r = Ok a → fuel_only m m' →
       goes session Q E (mkState (at_ f (ip + length bs) (shape a ++ st)) m')) →
    (∀ d, r = Err d → E d) →
    goes session Q E (mkState (at_ f ip st) m)
}.

Definition single (v : RuntimeValue) : list RuntimeValue := [v].

Lemma region_nil {A} (shape : A → list RuntimeValue) s s' (a : A) :
  emits s s' [] → shape a = [] → region shape s s' (Ok a) [].
Proof.
  intros He Ha. split; [done|]. intros Q E f ip st m _ _ _ _ HQ _.
  specialize (HQ a m eq_refl (fuel_only_refl m)). rewrite Ha in HQ. cbn in HQ.
  by rewrite Nat.add_0_r in HQ.
Qed.

(** Steps that add no code. *)
Lemma region_after {A} (shape : A → list RuntimeValue) s s1 s' r bs :
  emits s s1 [] → region shape s1 s' r bs → region shape s s' r bs.
Proof.
  intros He [He' Hr]. split; [exact (emits_trans _ _ _ [] bs He He')|].
  intros Q E f ip st m Hs ->. pose proof (emits_length _ _ _ He) as Hl. cbn in Hl.
  apply Hr; [by apply (emits_ok _ _ _ He)|lia].
Qed.

Lemma region_seq {A B C} (sa : A → list RuntimeValue) (sb : B → list RuntimeValue)
    (sc : C → list RuntimeValue) (c : A → B → C) s s1 s2 ra rb b1 b2 :
  region sa s s1 ra b1 → region sb s1 s2 rb b2 → (∀ a b, sc (c a b) = sb b ++ sa a) →
  region sc s s2 (a ← ra; b ← rb; Ok (c a b)) (b1 ++ b2).
Proof.
  intros [Ea Ra] [Eb Rb] Hsc. split; [by eapply emits_trans|].
  intros Q E f ip st m Hs Hip Hc Hk HQ HE. apply code_at_app in Hc as [Hc1 Hc2].
  eapply Ra; [done..|by eapply covers_before| |].
  - intros a m1 Hra Hm1. rewrite Hra in HQ, HE. cbn [mbind result_bind] in HQ, HE.
    eapply Rb; [by apply (emits_ok _ _ _ Ea)|by rewrite (emits_length _ _ _ Ea), Hip|done..| |].
    + intros b m2 Hrb Hm2. rewrite Hrb in HQ. cbn [mbind result_bind] in HQ.
      specialize (HQ (c a b) m2 eq_refl (fuel_only_trans _ _ _ Hm1 Hm2)).
      rewrite Hsc, length_app, Nat.add_assoc, <- app_assoc in HQ. exact HQ.
    + intros d Hrb. apply HE. by rewrite Hrb.
  - intros d Hra. apply HE. by rewrite Hra.
Qed.

(** An instruction on what a region leaves. *)
Lemma region_op {A} (shape : A → list RuntimeValue) s s1 s2 r b1 op operands g :
  region shape s s1 r b1 → emits s1 s2 (op_byte op :: operands) →
  (∀ c a, compiler_ok s → compiler_ok s1 → r = Ok a → covers c s2 →
     code_at c (length (code s)) (b1 ++ op_byte op :: operands) →
     computes session c op operands (shape a) (g a)) →
  region single s s2 (a ← r; g a) (b1 ++ op_byte op :: operands).
Proof.
  intros [Er Rr] Eo Hop. split; [by eapply emits_trans|].
  intros Q E f ip st m Hs Hip Hc Hk HQ HE. pose proof Hc as [Hc1 Hc2]%code_at_app.
  eapply Rr; [done..|by eapply covers_before| |].
  - intros a m1 Hr Hm1. rewrite Hr in HQ, HE. cbn [mbind result_bind] in HQ, HE.
    eapply goes_computes; [exact Hc2| | |exact HE].
    + apply Hop; [done|by apply (emits_ok _ _ _ Er)|done|done|by rewrite <- Hip].
    + intros v m2 Hv Hm2. specialize (HQ v m2 Hv (fuel_only_trans _ _ _ Hm1 Hm2)).
      rewrite length_app, Nat.add_assoc in HQ. exact HQ.
  - intros d Hr. apply HE. by rewrite Hr.
Qed.

(** ** Compiling pieces *)

Definition produces (m : CompileM unit) (r : result RuntimeValue) : Prop :=
  ∀ s s', m s = Done (tt, s') → ∃ bs, bs ≠ [] ∧ region single s s' r bs.

Lemma bind_done {A B} (m : CompileM A) (f : A → CompileM B) s p :
  (m ≫= f) s = Done p → ∃ a s1, m s = Done (a, s1) ∧ f a s1 = Done p.
Proof. unfold mbind, compile_bind. destruct (m s) as [[a s1]| | | |]; try done. by eauto. Qed.

Lemma produces_ext m r r' : produces m r → r = r' → produces m r'.
Proof. by intros ? <-. Qed.

Lemma produces_enter sp m r : produces m r → produces (_ ← enter_node sp; m) r.
Proof.
  intros Hm s s' ([] & s1 & He & Hs)%bind_done. destruct (Hm _ _ Hs) as (bs & Hbs & Hr). exists bs.
  split; [done|]. eapply region_after; [by eapply enter_emits|done].
Qed.

(** One instruction that pushes a value, with no operands. *)
Lemma produces_push op v : execute_op session op = push_done v → produces (chunk_emit op) (Ok v).
Proof.
  intros Hop s s' Hs%emit_emits. exists [op_byte op]. split; [done|].
  apply (region_op (λ _ : unit, []) s s s' (Ok tt) [] op [] (λ _, Ok v)); [|done|].
  - apply region_nil; [apply emits_refl|done].
  - intros. by apply computes_push.
Qed.

Lemma load_produces (load : CompileM N) k :
  (∀ i s s', load s = Done (i, s') →
     emits s s' [] ∧ (compiler_ok s → constants s' !! N.to_nat i = Some k)) →
  produces (index ← load; chunk_emit_u16 Op.Constant index) (Ok (runtime_of_constant k)).
Proof.
  intros Hload s s' (i & s1 & Hl & Hs%emit_u16_emits)%bind_done. destruct (Hload _ _ _ Hl) as [He Hk].
  exists (op_byte Op.Constant :: be_bytes 2 i). split; [done|].
  apply (region_op (λ _ : unit, []) s s1 s' (Ok tt) [] _ _ (λ _, Ok (runtime_of_constant k)));
    [by apply region_nil|done|].
  intros c _ Hok Hok1 _ [Hcov _] _. apply computes_constant; [by eapply lookup_index, Hk|].
  eapply lookup_prefix; [exact Hcov|]. eapply lookup_prefix; [apply (emits_constants _ _ _ Hs)|auto].
Qed.

(** Operators of one and of two operands. *)
Lemma produces_unary m op r g : produces m r → (∀ c v, computes session c op [] [v] (g v)) →
  produces (_ ← m; chunk_emit op) (v ← r; g v).
Proof.
  intros Hm Hop s s' ([] & s1 & Hs1 & Hs%emit_emits)%bind_done. destruct (Hm _ _ Hs1) as (b1 & _ & Hr).
  exists (b1 ++ [op_byte op]). split; [by destruct b1|].
  eapply (region_op single); [done|done|]. intros. apply Hop.
Qed.

Definition both (p : RuntimeValue * RuntimeValue) : list RuntimeValue := [p.2; p.1].

Lemma produces_binary l r op rl rr g : produces l rl → produces r rr →
  (∀ c a b, computes session c op [] [b; a] (g a b)) →
  produces (_ ← l; _ ← r; chunk_emit op) (a ← rl; b ← rr; g a b).
Proof.
  intros Hl Hr Hop s s' ([] & s1 & Hs1 & ([] & s2 & Hs2 & Hs%emit_emits)%bind_done)%bind_done.
  destruct (Hl _ _ Hs1) as (b1 & _ & R1). destruct (Hr _ _ Hs2) as (b2 & _ & R2).
  exists ((b1 ++ b2) ++ [op_byte op]). split; [by destruct b1, b2|].
  replace (a ← rl; b ← rr; g a b) with (p ← (a ← rl; b ← rr; Ok (a, b)); g p.1 p.2)
    by (destruct rl; [by destruct rr|done]).
  eapply (region_op both).
  - by eapply (region_seq single single both pair).
  - done.
  - intros. apply Hop.
Qed.

(** *** Binary operators *)

Definition generic_op (op : BinaryOperator.BinaryOperator) : option Op.Op :=
  match op with
  | BinaryOperator.Add => Some Op.Add
  | BinaryOperator.Sub => Some Op.Sub
  | BinaryOperator.Mul => Some Op.Mul
  | BinaryOperator.Div => Some Op.Div
  | BinaryOperator.Mod => Some Op.Mod
  | BinaryOperator.Pow => Some Op.Pow
  | BinaryOperator.Eq => Some Op.Equal
  | BinaryOperator.Neq => Some Op.NotEqual
  | BinaryOperator.Lt => Some Op.Less
  | BinaryOperator.Gt => Some Op.Greater
  | BinaryOperator.Lte => Some Op.LessEqual
  | BinaryOperator.Gte => Some Op.GreaterEqual
  | BinaryOperator.In => Some Op.Contains
  | _ => None
  end.

Lemma emit_generic op o : generic_op op = Some o → emit_generic_binary_op op = chunk_emit o.
Proof. by destruct op; intros [= <-]. Qed.

Lemma computes_same c o o' operands args r : execute_op session o = execute_op session o' →
  computes session c o' operands args r → computes session c o operands args r.
Proof. unfold computes. by intros ->. Qed.

Lemma generic_computes op o c a b : generic_op op = Some o →
  computes session c o [] [b; a] (evaluate_binary op a b).
Proof.
  assert (∀ p q, (∀ c, p c = q c) → compare_runtime p a b = compare_runtime q a b) as Hext.
  { intros p q Hpq. unfold compare_runtime. destruct (semantic_try_compare a b); by rewrite ?Hpq. }
  destruct op; intros [= <-]; cbn [evaluate_binary]; try by apply computes_binary.
  - replace (semantic_values_equal a b) with (Bool.eqb (semantic_values_equal a b) true)
      by (by destruct (semantic_values_equal a b)).
    by apply computes_equality.
  - replace (negb _) with (Bool.eqb (semantic_values_equal a b) false)
      by (by destruct (semantic_values_equal a b)).
    by apply computes_equality.
  - rewrite (Hext _ is_lt) by (by intros []). by apply computes_compare.
  - rewrite (Hext _ is_gt) by (by intros []). by apply computes_compare.
  - rewrite (Hext _ is_le) by (by intros []). by apply computes_compare.
  - rewrite (Hext _ is_ge) by (by intros []). by apply computes_compare.
  - apply computes_contains.
Qed.

(** Typed instructions do what the generic ones do. *)
Lemma specialized_generic expand op l r o : specialized_binary_op expand op l r = Some o →
  ∃ g, generic_op op = Some g ∧ execute_op session o = execute_op session g.
Proof.
  unfold specialized_binary_op. destruct (l ≫= _) as [a|]; [|done]. destruct (r ≫= _) as [b|]; [|done].
  cbn. destruct a, b; try done; destruct op; try done; intros [= <-]; by eexists.
Qed.

Lemma produces_pointwise m m' r : (∀ s, m s = m' s) → produces m r → produces m' r.
Proof. intros Hm Hp s s' Hs. apply Hp. by rewrite Hm. Qed.

Lemma produces_operator l r rl rr op typed : produces l rl → produces r rr →
  op ∉ [BinaryOperator.And; BinaryOperator.Or; BinaryOperator.NilCoalesce; BinaryOperator.Pipe] →
  (∀ o, typed = Some o → ∃ g, generic_op op = Some g ∧ execute_op session o = execute_op session g) →
  produces (_ ← l; _ ← r; match typed with Some o => chunk_emit o | None => emit_generic_binary_op op end)
    (a ← rl; b ← rr; evaluate_binary op a b).
Proof.
  intros Hl Hr Hop Htyped. destruct typed as [o|].
  - destruct (Htyped o eq_refl) as (g & Hg & Ho). apply produces_binary; [done..|].
    intros. eapply computes_same; [exact Ho|by apply generic_computes].
  - destruct (generic_op op) as [g|] eqn:Hg.
    + rewrite (emit_generic _ _ Hg). apply produces_binary; [done..|]. intros. by apply generic_computes.
    + assert (op = BinaryOperator.NotIn) as -> by (destruct op; try done; set_solver).
      apply (produces_pointwise (_ ← (_ ← l; _ ← r; chunk_emit Op.Contains); chunk_emit Op.Not)).
      { intros s. unfold mbind, compile_bind. destruct (l s) as [[[] s1]| | | |]; try done.
        by destruct (r s1) as [[[] s2]| | | |]. }
      eapply produces_ext; [apply produces_unary; [apply produces_binary; [done..|]|]|].
      * intros. apply (generic_computes BinaryOperator.In). done.
      * intros. apply computes_not.
      * destruct rl as [a|]; [|done]. by destruct rr.
Qed.

(** *** Jumps *)

(** A jump forward, with its operand. *)
Definition jump_code (op : Op.Op) (target : nat) : list byte :=
  op_byte op :: be_bytes 2 (N.of_nat target mod 65536).

(** Positions as the parts of the code before them. *)
Ltac position :=
  unfold jump_code in *;
  repeat (progress (cbn [length app] in *; rewrite ?length_app, ?be_bytes_length in * )); lia.

(** Go on at the position of some code. *)
Ltac here H :=
  lazymatch type of H with code_at _ ?p _ =>
    lazymatch goal with |- goes _ _ _ (mkState (at_ _ ?q _) _) => replace q with p by position end
  end.

(** The same, at the end of a region. *)
Ltac leave H :=
  lazymatch type of H with context [at_ _ ?p _] =>
    lazymatch goal with |- goes _ _ _ (mkState (at_ _ ?q _) _) => replace q with p by position end
  end.

Ltac split_code H :=
  repeat lazymatch type of H with code_at _ _ (_ ++ _) =>
    let H1 := fresh "Hc" in apply code_at_app in H as [H1 H]; try split_code H1 end.

Lemma code_at_small c ip bs n : code_at c ip bs → bs ≠ [] → (len (chunk_code c) < 65536)%N →
  n ≤ ip + length bs → (N.of_nat n mod 65536 = N.of_nat n)%N ∧ (N.of_nat n < 65536)%N.
Proof.
  intros Hc Hbs Hlen Hn. destruct bs as [|b bs]; [done|]. apply code_at_length in Hc. unfold len in Hlen.
  assert (N.of_nat n < 65536)%N by lia. split; [by apply N.mod_small|done].
Qed.

Lemma covers_same c s s' : constants s' = constants s → covers c s' → covers c s.
Proof. intros Hk [Hc Hl]. split; [by rewrite <- Hk|done]. Qed.

Lemma patch_constants p s s' : chunk_patch_jump p s = Done (tt, s') → constants s' = constants s.
Proof. by intros [= <-]. Qed.

(** [Not] twice makes a boolean. *)
Lemma goes_normalise Q E f ip v st m : code_at (fr_chunk f) ip [op_byte Op.Not; op_byte Op.Not] →
  (∀ m', fuel_only m m' → goes session Q E (mkState (at_ f (ip + 2) (RBool (truthy v) :: st)) m')) →
  goes session Q E (mkState (at_ f ip (v :: st)) m).
Proof.
  intros [Hc1 Hc2]%code_at_cons HQ.
  apply (goes_computes session Q E f ip st m Op.Not [] [v] _ Hc1 (computes_not session _ v)); [|done].
  intros w m1 [= <-] Hm1. cbn [length].
  apply (goes_computes session Q E f (ip + 1) st m1 Op.Not [] [_] _ Hc2 (computes_not session _ _)); [|done].
  intros w m2 [= <-] Hm2. cbn [length].
  replace (negb (truthy (RBool (negb (truthy v))))) with (truthy v) by (symmetry; apply negb_involutive).
  replace (ip + 1 + 1) with (ip + 2) by lia. apply HQ. by eapply fuel_only_trans.
Qed.

Lemma produces_conditional l r rl rr jump expected : produces l rl → produces r rr →
  execute_op session jump = op_jump_if expected →
  produces (_ ← l; jump ← chunk_emit_jump jump; _ ← chunk_emit Op.Pop; _ ← r;
            _ ← chunk_patch_jump jump; _ ← chunk_emit Op.Not; chunk_emit Op.Not)
    (v ← rl; if Bool.eqb (truthy v) expected then Ok (RBool (truthy v))
             else w ← rr; Ok (RBool (truthy w))).
Proof.
  intros Hl Hr Hop s s' ([] & s1 & C1 & (p & s2 & [Hp E2]%emit_jump_emits & ([] & s3 & E3%emit_emits &
    ([] & s4 & C4 & ([] & s5 & C5 &
    ([] & s6 & E6%emit_emits & E7%emit_emits)%bind_done)%bind_done)%bind_done)%bind_done)%bind_done)%bind_done.
  destruct (Hl _ _ C1) as (b1 & _ & [E1 R1]). destruct (Hr _ _ C4) as (b2 & _ & [E4 R2]).
  pose proof (patch_constants _ _ _ C5) as K5.
  pose proof (emits_trans _ _ _ _ _ E1 (emits_trans _ _ _ _ _ E2 (emits_trans _ _ _ _ _ E3 E4))) as E14.
  pose proof (emits_length _ _ _ E1) as L1. pose proof (emits_length _ _ _ E14) as L4.
  pose proof (patch_emits p s s4 s5 b1 jump _ _ C5 ltac:(lia) E14 eq_refl) as E5.
  fold (jump_code jump (length (code s4))) in E5.
  pose proof (emits_trans _ _ _ _ _ E6 E7) as E57. pose proof (emits_trans _ _ _ _ _ E5 E57) as E.
  exists ((b1 ++ jump_code jump (length (code s4)) ++ [op_byte Op.Pop] ++ b2) ++ [op_byte Op.Not] ++ [op_byte Op.Not]).
  split; [by destruct b1|]. split; [exact E|].
  intros Q E' f ip st m Hs -> Hc Hk HQ HE.
  destruct (code_at_small _ _ _ (length (code s4)) Hc) as [Ht Hsmall];
    [by destruct b1|apply Hk|rewrite (emits_length _ _ _ E14); position|].
  unfold jump_code in Hc. rewrite Ht in Hc.
  apply code_at_app in Hc as [Hc Hn]. apply code_at_app in Hc as [Hc1 Hc].
  apply code_at_app in Hc as [Hj Hc]. apply code_at_app in Hc as [Hpop Hc2].
  assert (covers (fr_chunk f) s4) as Hk4 by (by eapply covers_same, covers_before).
  pose proof (emits_trans _ _ _ _ _ E2 (emits_trans _ _ _ _ _ E3 E4)) as E24.
  eapply R1; [done|done|exact Hc1|by eapply covers_before| |].
  - intros v m1 Hv Hm1. rewrite Hv in HQ, HE. cbn [mbind result_bind] in HQ, HE.
    eapply goes_jump_if; [exact Hop|exact Hj|done|]. intros m2 Hm2.
    destruct (Bool.eqb (truthy v) expected).
    + here Hn. apply goes_normalise; [exact Hn|]. intros m3 Hm3. leave HQ. apply (HQ (RBool (truthy v))); [done|].
      eauto using fuel_only_trans.
    + here Hpop. apply goes_pop; [exact Hpop|]. intros m3 Hm3. here Hc2.
      eapply R2; [| |exact Hc2|done| |].
      * by eapply emits_ok, emits_ok, emits_ok.
      * rewrite (emits_length _ _ _ E3), (emits_length _ _ _ E2), L1. position.
      * intros w m4 Hw Hm4. rewrite Hw in HQ. here Hn. apply goes_normalise; [exact Hn|]. intros m5 Hm5.
        leave HQ. apply (HQ (RBool (truthy w))); [done|]. eauto using fuel_only_trans.
      * intros d Hd. apply HE. by rewrite Hd.
  - intros d Hd. apply HE. by rewrite Hd.
Qed.

(** Two branches: a conditional jump over the first, a jump over the second. *)
Lemma branch_emits op s s1 s2 s4 s5 s6 s8 s' p q b1 b2 b3 :
  emits s s1 b1 → chunk_emit_jump op s1 = Done (p, s2) → emits s2 s4 b2 →
  chunk_emit_jump Op.Jump s4 = Done (q, s5) → chunk_patch_jump p s5 = Done (tt, s6) →
  emits s6 s8 b3 → chunk_patch_jump q s8 = Done (tt, s') →
  emits s s' (b1 ++ jump_code op (length (code s) + length b1 + 3 + length b2 + 3) ++ b2 ++
              jump_code Op.Jump (length (code s) + length b1 + 3 + length b2 + 3 + length b3) ++ b3) ∧
  (∀ c, covers c s' → covers c s1 ∧ covers c s4 ∧ covers c s8) ∧
  (compiler_ok s → compiler_ok s2 ∧ compiler_ok s6) ∧
  length (code s2) = length (code s) + length b1 + 3 ∧
  length (code s6) = length (code s) + length b1 + 3 + length b2 + 3.
Proof.
  intros E1 [Hp E2]%emit_jump_emits E24 [Hq E5]%emit_jump_emits P1 E68 P2.
  pose proof (patch_constants _ _ _ P1) as K1. pose proof (patch_constants _ _ _ P2) as K2.
  pose proof (emits_trans _ _ _ _ _ E1 (emits_trans _ _ _ _ _ E2 (emits_trans _ _ _ _ _ E24 E5))) as E15.
  pose proof (emits_length _ _ _ E1) as L1. pose proof (emits_length _ _ _ E15) as L5.
  pose proof (emits_length _ _ _ (emits_trans _ _ _ _ _ E2 E24)) as L4. pose proof (emits_length _ _ _ E2) as L2.
  pose proof (patch_emits p s s5 s6 b1 op _ _ P1 ltac:(lia) E15 eq_refl) as E6.
  pose proof (emits_trans _ _ _ _ _ E6 E68) as E8. pose proof (emits_length _ _ _ E8) as L8.
  replace (length (code s5)) with (length (code s) + length b1 + 3 + length b2 + 3) in * by position.
  fold (jump_code op (length (code s) + length b1 + 3 + length b2 + 3)) in E8.
  set (J := jump_code op _) in *.
  replace ((b1 ++ J ++ b2 ++ op_byte Op.Jump :: [n2b 255; n2b 255]) ++ b3)
    with ((b1 ++ J ++ b2) ++ (op_byte Op.Jump :: [n2b 255; n2b 255]) ++ b3) in E8
    by (by rewrite <- !app_assoc).
  pose proof (patch_emits q s s8 s' (b1 ++ J ++ b2) Op.Jump _ _ P2 ltac:(subst J; position) E8 eq_refl) as E9.
  replace (length (code s8)) with (length (code s) + length b1 + 3 + length b2 + 3 + length b3) in E9
    by (subst J; position).
  rewrite <- !app_assoc in E9. split_and!; [exact E9| | |rewrite L2, L1; position|].
  - intros c Hc. assert (covers c s8) as Hc8 by (by eapply covers_same).
    assert (covers c s4) as Hc4 by (by eapply covers_before, covers_same, covers_before).
    split_and!; [by eapply covers_before, covers_before|done|done].
  - intros Hs. split; [by apply (emits_ok _ _ _ E2), (emits_ok _ _ _ E1)|by apply (emits_ok _ _ _ E6)].
  - rewrite (emits_length _ _ _ E6). subst J. position.
Qed.

(** Running the code of two branches, with [v] on top. *)
Lemma goes_branch Q E op expected f ip v st m b2 b3 : execute_op session op = op_jump_if expected →
  (len (chunk_code (fr_chunk f)) < 65536)%N →
  code_at (fr_chunk f) ip (jump_code op (ip + 3 + length b2 + 3) ++ b2 ++
    jump_code Op.Jump (ip + 3 + length b2 + 3 + length b3) ++ b3) → b3 ≠ [] →
  (Bool.eqb (truthy v) expected = false → code_at (fr_chunk f) (ip + 3) b2 →
     (∀ st' m', (∀ m'', fuel_only m' m'' →
          goes session Q E (mkState (at_ f (ip + 3 + length b2 + 3 + length b3) st') m'')) →
        goes session Q E (mkState (at_ f (ip + 3 + length b2) st') m')) →
     ∀ m', fuel_only m m' → goes session Q E (mkState (at_ f (ip + 3) (v :: st)) m')) →
  (Bool.eqb (truthy v) expected = true → code_at (fr_chunk f) (ip + 3 + length b2 + 3) b3 →
     ∀ m', fuel_only m m' → goes session Q E (mkState (at_ f (ip + 3 + length b2 + 3) (v :: st)) m')) →
  goes session Q E (mkState (at_ f ip (v :: st)) m).
Proof.
  intros Hop Hlen Hc Hb3 Hthen Helse.
  apply code_at_app in Hc as [Hj Hc]. apply code_at_app in Hc as [Hc2 Hc].
  apply code_at_app in Hc as [Hj2 Hc3].
  replace (ip + length (jump_code op (ip + 3 + length b2 + 3))) with (ip + 3) in * by position.
  replace (ip + 3 + length b2 + length (jump_code Op.Jump (ip + 3 + length b2 + 3 + length b3)))
    with (ip + 3 + length b2 + 3) in * by position.
  destruct (code_at_small _ _ _ (ip + 3 + length b2 + 3 + length b3) Hc3 Hb3 Hlen) as [Ht2 Hs2]; [lia|].
  destruct (code_at_small _ _ _ (ip + 3 + length b2 + 3) Hc3 Hb3 Hlen) as [Ht1 Hs1]; [lia|].
  unfold jump_code in Hj, Hj2. rewrite Ht1 in Hj. rewrite Ht2 in Hj2.
  eapply goes_jump_if; [exact Hop|exact Hj|done|]. intros m' Hm.
  destruct (Bool.eqb (truthy v) expected); [by apply Helse|]. apply Hthen; [done..| |done].
  intros st' m'' Hgo. by eapply goes_jump.
Qed.

Lemma produces_ternary c t e rc rt re : produces c rc → produces t rt → produces e re →
  produces (_ ← c; else_jump ← chunk_emit_jump Op.JumpIfFalse; _ ← chunk_emit Op.Pop; _ ← t;
            end_jump ← chunk_emit_jump Op.Jump; _ ← chunk_patch_jump else_jump;
            _ ← chunk_emit Op.Pop; _ ← e; chunk_patch_jump end_jump)
    (v ← rc; if truthy v then rt else re).
Proof.
  intros Hc Ht He s s' ([] & s1 & C1 & (p & s2 & J1 & ([] & s3 & E3%emit_emits & ([] & s4 & C4 &
    (q & s5 & J2 & ([] & s6 & P1 & ([] & s7 & E7%emit_emits & ([] & s8 & C8 &
    P2)%bind_done)%bind_done)%bind_done)%bind_done)%bind_done)%bind_done)%bind_done)%bind_done.
  destruct (Hc _ _ C1) as (b1 & _ & [E1 R1]). destruct (Ht _ _ C4) as (b2 & _ & [E4 R2]).
  destruct (He _ _ C8) as (b3 & _ & [E8 R3]).
  destruct (branch_emits _ _ _ _ _ _ _ _ _ _ _ _ _ _ E1 J1 (emits_trans _ _ _ _ _ E3 E4) J2 P1
    (emits_trans _ _ _ _ _ E7 E8) P2) as (E & Kc & Ok_ & L2 & L6).
  eexists; split; [|split; [exact E|]]; [by destruct b1|].
  intros Q E' f ip st m Hs -> [Hc1 Hcode]%code_at_app Hk HQ HE.
  destruct (Kc _ Hk) as (Hk1 & Hk4 & Hk8). destruct (Ok_ Hs) as [Ok2 Ok6].
  eapply R1; [done|done|exact Hc1|done| |intros d Hd; apply HE; by rewrite Hd].
  intros v m1 Hv Hm1. rewrite Hv in HQ, HE. cbn [mbind result_bind] in HQ, HE.
  eapply (goes_branch _ _ Op.JumpIfFalse false); [reflexivity|apply Hk|exact Hcode|done|..].
  - intros Hb [Hp Hc2]%code_at_app Hskip m2 Hm2. apply goes_pop; [exact Hp|]. intros m3 Hm3. here Hc2.
    assert (truthy v = true) as Hv' by (by destruct (truthy v)). rewrite Hv' in HQ, HE.
    eapply R2; [by apply (emits_ok _ _ _ E3)|rewrite (emits_length _ _ _ E3), L2; position|exact Hc2|done|..|exact HE].
    intros w m4 Hw Hm4.
    match goal with |- goes _ _ _ (mkState (at_ _ ?q _) _) =>
      replace q with (length (code s) + length b1 + 3 + length ([op_byte Op.Pop] ++ b2)) by position end.
    apply Hskip. intros m5 Hm5. leave HQ. apply HQ; [done|]. eauto 6 using fuel_only_trans.
  - intros Hb [Hp Hc3]%code_at_app m2 Hm2. apply goes_pop; [exact Hp|]. intros m3 Hm3. here Hc3.
    assert (truthy v = false) as Hv' by (by destruct (truthy v)). rewrite Hv' in HQ, HE.
    eapply R3; [by apply (emits_ok _ _ _ E7)|rewrite (emits_length _ _ _ E7), L6; position|exact Hc3|done|..|exact HE].
    intros w m4 Hw Hm4. leave HQ. apply HQ; [done|]. eauto 6 using fuel_only_trans.
Qed.

(** A value and whether it is there. *)
Definition tested (v : RuntimeValue) : list RuntimeValue :=
  [RBool (negb (semantic_values_equal v RNil)); v].

Lemma jump_if_tested x b : Bool.eqb (truthy (RBool (negb x))) true = b → x = negb b.
Proof. change (truthy (RBool (negb x))) with (negb x). by destruct x, b. Qed.

Lemma region_test s s1 s2 s3 s4 r b1 :
  region single s s1 r b1 → emits s1 s2 [op_byte Op.Dup] → emits s2 s3 [op_byte Op.Nil] →
  emits s3 s4 [op_byte Op.NotEqual] →
  region tested s s4 r (b1 ++ [op_byte Op.Dup] ++ [op_byte Op.Nil] ++ [op_byte Op.NotEqual]).
Proof.
  intros [E1 R1] E2 E3 E4. pose proof (emits_trans _ _ _ _ _ E2 (emits_trans _ _ _ _ _ E3 E4)) as E14.
  split; [by eapply emits_trans|]. intros Q E f ip st m Hs Hip Hc Hk HQ HE.
  apply code_at_app in Hc as [Hc1 Hc]. apply code_at_app in Hc as [Hdup Hc].
  apply code_at_app in Hc as [Hnil Hne].
  eapply R1; [done..|by eapply covers_before| |done]. intros v m1 Hv Hm1.
  apply goes_dup; [done|]. intros m2 Hm2.
  apply (goes_computes session Q E f _ _ m2 Op.Nil [] [] (Ok RNil) Hnil); [by apply computes_push| |done].
  intros w m3 [= <-] Hm3. here Hne.
  apply (goes_computes session Q E f _ _ m3 Op.NotEqual [] [RNil; v]
    (Ok (RBool (Bool.eqb (semantic_values_equal v RNil) false))) Hne);
    [by apply computes_equality| |done].
  intros w m4 [= <-] Hm4. leave HQ. rewrite eqb_false_r_negb. apply (HQ v); [done|].
  eauto 6 using fuel_only_trans.
Qed.

Lemma produces_coalesce l r rl rr : produces l rl → produces r rr →
  produces (_ ← l; _ ← chunk_emit Op.Dup; _ ← chunk_emit Op.Nil; _ ← chunk_emit Op.NotEqual;
            jump ← chunk_emit_jump Op.JumpIfTrue; _ ← chunk_emit Op.Pop; _ ← chunk_emit Op.Pop; _ ← r;
            end_ ← chunk_emit_jump Op.Jump; _ ← chunk_patch_jump jump; _ ← chunk_emit Op.Pop;
            chunk_patch_jump end_)
    (v ← rl; if semantic_values_equal v RNil then rr else Ok v).
Proof.
  intros Hl Hr s s' ([] & s1 & C1 & ([] & s2 & D2%emit_emits & ([] & s3 & D3%emit_emits &
    ([] & s4 & D4%emit_emits & (p & s5 & J1 & ([] & s6 & E6%emit_emits & ([] & s7 & E7%emit_emits &
    ([] & s8 & C8 & (q & s9 & J2 & ([] & s10 & P1 & ([] & s11 & E11%emit_emits &
    P2)%bind_done)%bind_done)%bind_done)%bind_done)%bind_done)%bind_done)%bind_done)%bind_done)%bind_done)%bind_done)%bind_done.
  destruct (Hl _ _ C1) as (b0 & _ & R0). destruct (Hr _ _ C8) as (b2 & _ & [E8 R2]).
  pose proof (region_test _ _ _ _ _ _ _ R0 D2 D3 D4) as [E1 R1].
  destruct (branch_emits _ _ _ _ _ _ _ _ _ _ _ _ _ _ E1 J1
    (emits_trans _ _ _ _ _ E6 (emits_trans _ _ _ _ _ E7 E8)) J2 P1 E11 P2) as (E & Kc & Ok_ & L2 & L6).
  set (b1 := b0 ++ _) in *. assert (b1 ≠ []) as Hb1 by (subst b1; by destruct b0). clearbody b1.
  eexists; split; [|split; [exact E|]]; [by destruct b1|].
  intros Q E' f ip st m Hs -> [Hc1 Hcode]%code_at_app Hk HQ HE.
  destruct (Kc _ Hk) as (Hk1 & Hk4 & Hk8). destruct (Ok_ Hs) as [Ok2 Ok6].
  eapply R1; [done|done|exact Hc1|done| |intros d Hd; apply HE; by rewrite Hd].
  intros v m1 Hv Hm1. rewrite Hv in HQ, HE. cbn [mbind result_bind] in HQ, HE.
  eapply (goes_branch _ _ Op.JumpIfTrue true); [reflexivity|apply Hk|exact Hcode|done|..].
  - intros Hb [Hp [Hp' Hc2]%code_at_app]%code_at_app Hskip m2 Hm2.
    apply goes_pop; [exact Hp|]. intros m3 Hm3. here Hp'. apply goes_pop; [exact Hp'|]. intros m4 Hm4. here Hc2.
    pose proof (jump_if_tested _ _ Hb) as Hv'. rewrite Hv' in HQ, HE.
    eapply R2; [by apply (emits_ok _ _ _ E7), (emits_ok _ _ _ E6)
      |rewrite (emits_length _ _ _ E7), (emits_length _ _ _ E6), L2; position|exact Hc2|done|..|exact HE].
    intros w m5 Hw Hm5.
    match goal with |- goes _ _ _ (mkState (at_ _ ?q _) _) =>
      replace q with (length (code s) + length b1 + 3 +
        length ([op_byte Op.Pop] ++ [op_byte Op.Pop] ++ b2)) by position end.
    apply Hskip. intros m6 Hm6. leave HQ. apply HQ; [done|]. eauto 7 using fuel_only_trans.
  - intros Hb Hp m2 Hm2. apply goes_pop; [exact Hp|]. intros m3 Hm3.
    pose proof (jump_if_tested _ _ Hb) as Hv'. rewrite Hv' in HQ. leave HQ. apply (HQ v); [done|]. eauto 6 using fuel_only_trans.
Qed.

(** ** Collections *)

Lemma code_at_count c lo bs n : code_at c lo bs → bs ≠ [] → n ≤ length bs →
  (len (chunk_code c) < 65536)%N → (N.of_nat n mod 65536 = N.of_nat n)%N ∧ (N.of_nat n < 65536)%N.
Proof. intros Hc Hbs Hn Hlen. apply (code_at_small _ _ _ _ Hc Hbs Hlen). lia. Qed.

Lemma all_region compile f items :
  Forall (λ i, produces (compile i) (f i)) items → ∀ s s', compile_all compile items s = Done (tt, s') →
  ∃ bs, length items ≤ length bs ∧ region reverse s s' (result_map f items) bs.
Proof.
  induction 1 as [|i items Hi _ IH]; intros s s' Hs.
  - injection Hs as <-. exists []. split; [done|]. by apply region_nil; [apply emits_refl|].
  - apply bind_done in Hs as ([] & s1 & C1 & C2). destruct (Hi _ _ C1) as (b1 & Hb1 & R1).
    destruct (IH _ _ C2) as (b2 & Hb2 & R2). exists (b1 ++ b2). split.
    + rewrite length_app. destruct b1; [done|]. cbn. lia.
    + eapply (region_seq single reverse reverse cons); [done|done|]. intros. apply reverse_cons.
Qed.

Lemma produces_list compile f items : Forall (λ i, produces (compile i) (f i)) items →
  produces (_ ← compile_all compile items; chunk_emit_u16 Op.BuildList (len items mod 65536))
    (RList <$> result_map f items).
Proof.
  intros Hitems s s' ([] & s1 & C1 & C2%emit_u16_emits)%bind_done.
  destruct (all_region _ _ _ Hitems _ _ C1) as (bs & Hbs & R).
  replace (RList <$> result_map f items) with (vs ← result_map f items; Ok (RList vs))
    by (by destruct (result_map f items)).
  exists (bs ++ op_byte Op.BuildList :: be_bytes 2 (len items mod 65536)). split; [by destruct bs|].
  eapply region_op; [exact R|exact C2|]. intros c vs _ _ Hvs Hk Hc.
  destruct (code_at_count _ _ _ (length items) Hc) as [Hm Hn]; [by destruct bs|rewrite length_app; lia|apply Hk|].
  assert (len vs = len items) as Hlen by (unfold len; by rewrite (result_map_length f items vs Hvs)).
  fold (len items) in Hm, Hn. rewrite Hm, <- Hlen. apply computes_build_list. by rewrite Hlen.
Qed.

Definition pair_of (f : SNode → result RuntimeValue) (e : SNode * SNode)
    : result (RuntimeValue * RuntimeValue) := k ← f e.1; v ← f e.2; Ok (k, v).

Definition pairs (kvs : list (RuntimeValue * RuntimeValue)) : list RuntimeValue :=
  reverse (flatten_pairs kvs).

Lemma entries_region compile f entries :
  Forall (λ e : SNode * SNode, produces (compile e.1) (f e.1) ∧ produces (compile e.2) (f e.2)) entries →
  ∀ s s', compile_entries compile entries s = Done (tt, s') →
  ∃ bs, length entries ≤ length bs ∧ region pairs s s' (result_map (pair_of f) entries) bs.
Proof.
  induction 1 as [|[k v] entries [Hk Hv] _ IH]; intros s s' Hs.
  - injection Hs as <-. exists []. split; [done|]. by apply region_nil; [apply emits_refl|].
  - apply bind_done in Hs as ([] & s1 & C1 & ([] & s2 & C2 & C3)%bind_done).
    destruct (Hk _ _ C1) as (b1 & Hb1 & R1). destruct (Hv _ _ C2) as (b2 & Hb2 & R2).
    destruct (IH _ _ C3) as (b3 & Hb3 & R3). exists ((b1 ++ b2) ++ b3). split.
    + rewrite !length_app. destruct b1; [done|]. cbn in *. lia.
    + eapply (region_seq both pairs pairs cons); [|exact R3|].
      * by eapply (region_seq single single both pair).
      * intros [a b] kvs. unfold pairs, both. change (flatten_pairs ((a, b) :: kvs)) with (a :: b :: flatten_pairs kvs).
        by rewrite !reverse_cons, <- app_assoc.
Qed.

Lemma result_map_pairs f entries :
  result_map (λ e : SNode * SNode, key ← f e.1; value ← f e.2; Ok (display key, value)) entries =
  (kvs ← result_map (pair_of f) entries; Ok (map (λ kv, (display kv.1, kv.2)) kvs)).
Proof.
  induction entries as [|[k v] entries IH]; [done|]. cbn [result_map fst snd]. rewrite IH.
  change (pair_of f (k, v)) with (a ← f k; b ← f v; Ok (a, b)). destruct (f k); [|done]. cbn [mbind result_bind].
  destruct (f v); [|done]. cbn [mbind result_bind]. by destruct (result_map (pair_of f) entries).
Qed.

Lemma produces_dict compile f entries :
  Forall (λ e : SNode * SNode, produces (compile e.1) (f e.1) ∧ produces (compile e.2) (f e.2)) entries →
  produces (_ ← compile_entries compile entries; chunk_emit_u16 Op.BuildDict (len entries mod 65536))
    (es ← result_map (λ e : SNode * SNode, key ← f e.1; value ← f e.2; Ok (display key, value)) entries;
     Ok (RRecord (BTree.from_entries es))).
Proof.
  intros Hentries s s' ([] & s1 & C1 & C2%emit_u16_emits)%bind_done.
  destruct (entries_region _ _ _ Hentries _ _ C1) as (bs & Hbs & R).
  set (g := λ kvs, Ok (RRecord (BTree.from_entries (map (λ kv, (display kv.1, kv.2)) kvs)))).
  rewrite result_map_pairs.
  replace (es ← (kvs ← _; _); _) with (kvs ← result_map (pair_of f) entries; g kvs)
    by (by destruct (result_map (pair_of f) entries)).
  exists (bs ++ op_byte Op.BuildDict :: be_bytes 2 (len entries mod 65536)). split; [by destruct bs|].
  eapply region_op; [exact R|exact C2|]. intros c kvs _ _ Hkvs Hk Hc.
  destruct (code_at_count _ _ _ (length entries) Hc) as [Hm Hn]; [by destruct bs|rewrite length_app; lia|apply Hk|].
  assert (len kvs = len entries) as Hlen by (unfold len; by rewrite (result_map_length _ entries kvs Hkvs)).
  fold (len entries) in Hm, Hn. rewrite Hm, <- Hlen. apply computes_build_dict. by rewrite Hlen.
Qed.

End regions.
