(* ===== verification/CompileSound.v ===== *)
(** * Compiled expressions run to their value

    The code [compile_node] emits for an expression, run by the executor, pushes
    the value [evaluate] gives, or fails as [evaluate] does or for want of
    resources; with optimisations and without. *)

From stdpp Require Import countable.
From Stdlib Require Import Strings.String.
From S2P Require Import Prelude BTree Opcode Program Verifier Artifact Float64 Semantics Values.
From S2P Require Import Resource Text Arith Ops TypeContract Json Regex Host Env Machine Methods.
From S2P Require Import Builtins Snapshot Execute Run Operators Fold FoldSound Emit Compile Running Region.

(** ** Nodes *)

(** What the theorems are about: no spreads, which call a builtin, and under
    optimisation no durations (see [folding_preserves_meaning]). *)
Fixpoint supported (optimised : bool) (n : Node.Node) : bool :=
  match n with
  | Node.Spread _ => false
  | Node.DurationLiteral _ => negb optimised
  | Node.UnaryOp _ e => supported optimised (node e)
  | Node.BinaryOp _ l r => supported optimised (node l) && supported optimised (node r)
  | Node.Ternary c t f =>
      supported optimised (node c) && supported optimised (node t) && supported optimised (node f)
  | Node.ListLiteral items => forallb (λ item, supported optimised (node item)) items
  | Node.DictLiteral entries =>
      forallb (λ e : SNode * SNode, supported optimised (node e.1) && supported optimised (node e.2)) entries
  | _ => true
  end.

Section nodes.
Context `{FloatLib, Platform} (session : Session).


Lemma supported_items opt items : supported opt (Node.ListLiteral items) = true →
  existsb is_spread items = false ∧ Forall (λ i : SNode, supported opt (node i) = true) items.
Proof.
  intros Hs. cbn in Hs. rewrite forallb_forall in Hs. split.
  - destruct (existsb is_spread items) eqn:E; [|done]. apply existsb_exists in E as (i & Hi & Hsp).
    apply Hs in Hi. unfold is_spread in Hsp. by destruct (node i).
  - apply Forall_forall. intros i Hi. by apply Hs, list_elem_of_In.
Qed.

Lemma supported_entries opt entries : supported opt (Node.DictLiteral entries) = true →
  existsb (λ e : SNode * SNode, is_spread e.2) entries = false ∧
  Forall (λ e : SNode * SNode, supported opt (node e.1) = true ∧ supported opt (node e.2) = true) entries.
Proof.
  intros Hs. cbn in Hs. rewrite forallb_forall in Hs. split.
  - destruct (existsb _ entries) eqn:E; [|done]. apply existsb_exists in E as (e & He & Hsp).
    apply Hs in He as [_ He]%andb_true_iff. unfold is_spread in Hsp. by destruct (node e.2).
  - apply Forall_forall. intros e He. by apply andb_true_iff, Hs, list_elem_of_In.
Qed.

Section arms.
Context (expand_alias : TypeExpr.TypeExpr → TypeExpr.TypeExpr)
  (lookup_type_fact : string → option TypeExpr.TypeExpr) (opt : bool) (compile : SNode → CompileM unit).
Hypothesis Hcompile : ∀ e, supported opt (node e) = true → produces session (compile e) (evaluate (node e)).

Lemma binary_produces op l r : supported opt (Node.BinaryOp op l r) = true →
  produces session (compile_binary_op expand_alias lookup_type_fact opt compile op l r)
    (evaluate (Node.BinaryOp op l r)).
Proof.
  intros [Hl Hr]%andb_true_iff. apply Hcompile in Hl, Hr.
  destruct (decide (op ∈ [BinaryOperator.And; BinaryOperator.Or; BinaryOperator.NilCoalesce;
    BinaryOperator.Pipe])) as [Hop|Hop].
  - rewrite !elem_of_cons in Hop. destruct Hop as [->|[->|[->|[->|Hop%not_elem_of_nil]]]]; [..|done].
    + eapply produces_ext; [by apply (produces_conditional session _ _ (evaluate (node l)) (evaluate (node r)) Op.JumpIfFalse false)|].
      cbn [evaluate]. destruct (evaluate (node l)) as [v|]; [|done]. cbn [mbind result_bind].
      by destruct (truthy v).
    + eapply produces_ext; [by apply (produces_conditional session _ _ (evaluate (node l)) (evaluate (node r)) Op.JumpIfTrue true)|].
      cbn [evaluate]. destruct (evaluate (node l)) as [v|]; [|done]. cbn [mbind result_bind].
      by destruct (truthy v).
    + by apply produces_coalesce.
    + intros s s' Hs. done.
  - pose proof (produces_operator session _ _ _ _ op
      (if opt then specialized_binary_op expand_alias op
                     (infer_expr_type expand_alias lookup_type_fact (node l))
                     (infer_expr_type expand_alias lookup_type_fact (node r)) else None) Hl Hr Hop) as Hp.
    replace (evaluate (Node.BinaryOp op l r)) with
      (a ← evaluate (node l); b ← evaluate (node r); evaluate_binary op a b)
      by (destruct op; try done; exfalso; apply Hop; set_solver).
    replace (compile_binary_op _ _ _ _ op l r) with
      (_ ← compile l; _ ← compile r;
       match (if opt then specialized_binary_op expand_alias op
                     (infer_expr_type expand_alias lookup_type_fact (node l))
                     (infer_expr_type expand_alias lookup_type_fact (node r)) else None) with
       | Some o => chunk_emit o | None => emit_generic_binary_op op end)
      by (destruct op; try done; exfalso; apply Hop; set_solver).
    apply Hp. intros o Ho. destruct opt; [|done]. by eapply (specialized_generic session).
Qed.

Lemma arm_produces n : supported opt n = true →
  produces session (compile_arm expand_alias lookup_type_fact opt compile n) (evaluate n).
Proof.
  intros Hn. destruct n as [t|t|z|f|b| |ms|x|op l r|op e|c t f|items|entries|e]; cbn [compile_arm].
  - apply (load_produces session _ (Constant.String t)). apply string_constant_emits.
  - apply (load_produces session _ (Constant.String t)). apply string_constant_emits.
  - apply (load_produces session _ (Constant.Int z)). apply add_constant_emits.
  - apply (load_produces session _ (Constant.Float f)). apply add_constant_emits.
  - destruct b; by apply produces_push.
  - by apply produces_push.
  - destruct (i64_try_from ms) as [z|] eqn:Ez; [|done].
    assert (z = Z.of_N ms) as -> by (unfold i64_try_from, checked_i64 in Ez; case_match; congruence).
    apply (load_produces session _ (Constant.Duration _)). apply add_constant_emits.
  - done.
  - by apply binary_produces.
  - destruct op.
    + apply produces_unary; [by apply Hcompile|]. intros. apply computes_negate.
    + apply (produces_unary session _ _ _ (λ v, Ok (RBool (negb (truthy v))))); [by apply Hcompile|].
      intros. apply computes_not.
  - apply andb_true_iff in Hn as [[Hc Ht]%andb_true_iff Hf]. apply produces_ternary; by apply Hcompile.
  - destruct (supported_items _ _ Hn) as [Hsp Hitems]. unfold compile_list_literal. rewrite Hsp.
    apply produces_list. eapply Forall_impl; [exact Hitems|]. intros i Hi. by apply Hcompile.
  - destruct (supported_entries _ _ Hn) as [Hsp Hentries]. unfold compile_dict_literal. rewrite Hsp.
    apply (produces_dict session _ (λ e, evaluate (node e))). eapply Forall_impl; [exact Hentries|].
    intros e [He1 He2]. split; by apply Hcompile.
  - done.
Qed.
End arms.

(** *** Folded nodes *)

Lemma supported_duration_free n : supported true n = true → duration_free n = true.
Proof.
  induction n as [| | | | | | | |op l r IHl IHr|op e IHe|c t f IHc IHt IHf|items IH|es IH|e IHe] using node_ind;
    intros Hs; cbn in *; try done.
  - apply andb_true_iff in Hs as [? ?]. apply andb_true_iff. auto.
  - auto.
  - apply andb_true_iff in Hs as [[? ?]%andb_true_iff ?]. rewrite !andb_true_iff. auto.
  - rewrite forallb_forall in Hs |- *. rewrite Forall_forall in IH. intros i Hi.
    apply IH; [by apply list_elem_of_In|auto].
  - rewrite forallb_forall in Hs |- *. rewrite Forall_forall in IH. intros e He.
    destruct (IH e) as [IH1 IH2]; [by apply list_elem_of_In|].
    apply Hs, andb_true_iff in He as [? ?]. apply andb_true_iff. auto.
Qed.

Lemma value_to_node_supported v sp n : plain v → value_to_node v sp = Some n → supported true n = true.
Proof.
  revert n; induction v as [| | | | | |vs IH|es IH] using vm_value_ind; intros n Hp Hn; cbn in Hn;
    try (injection Hn as <-; done).
  - inversion Hp.
  - destruct (collect _ _) as [ns|] eqn:Ens; cbn in Hn; [|done]. injection Hn as <-.
    inversion Hp as [| | | | |? Hall|]; subst. cbn. apply forallb_forall.
    apply (collect_Forall _ (λ _ i, supported true (node i) = true)) in Ens.
    + apply Forall2_right in Ens. rewrite Forall_forall in Ens. intros i Hi%list_elem_of_In. by apply Ens.
    + rewrite Forall_forall in IH |- *. intros v Hv i Hi.
      destruct (value_to_node v sp) as [m|] eqn:Em; cbn in Hi; [|done]. injection Hi as <-. cbn. eauto.
  - destruct (collect _ _) as [ns|] eqn:Ens; cbn in Hn; [|done]. injection Hn as <-.
    inversion Hp as [| | | | | |? _ Hall]; subst. cbn. apply forallb_forall.
    apply (collect_Forall _ (λ _ (e : SNode * SNode),
      supported true (node e.1) && supported true (node e.2) = true)) in Ens.
    + apply Forall2_right in Ens. rewrite Forall_forall in Ens. intros i Hi%list_elem_of_In. by apply Ens.
    + rewrite Forall_forall in IH |- *. intros e He i Hi.
      destruct (value_to_node e.2 sp) as [m|] eqn:Em; cbn in Hi; [|done]. injection Hi as <-. cbn. eauto.
Qed.

Lemma folded_node e folded : supported true (node e) = true → fold_constant_expr e = Some folded →
  supported true (node folded) = true ∧ evaluate (node folded) = evaluate (node e).
Proof.
  intros Hs%supported_duration_free Hf. unfold fold_constant_expr in Hf. destruct (negb _); [done|].
  destruct (constant_value e) as [v|] eqn:Ev; cbn in Hf; [|done]. unfold value_to_snode in Hf.
  destruct (value_to_node v (span e)) as [n|] eqn:En; cbn in Hf; [|done]. injection Hf as <-.
  destruct (constant_sound _ _ Hs Ev) as [-> Hp]. cbn [node].
  split; [by eapply value_to_node_supported|by eapply value_to_node_sound].
Qed.

Lemma node_produces expand lookup opt fuel e : supported opt (node e) = true →
  produces session (compile_node expand lookup opt fuel e) (evaluate (node e)).
Proof.
  revert e; induction fuel as [|fuel IH]; intros e He; [done|]. cbn [compile_node].
  apply produces_enter.
  pose proof (arm_produces expand lookup opt (compile_node expand lookup opt fuel) IH _ He) as Harm.
  destruct opt; [|exact Harm]. destruct (fold_constant_expr e) as [folded|] eqn:Hf; [|exact Harm].
  destruct (negb _); [|exact Harm]. destruct (folded_node _ _ He Hf) as [Hs <-]. by apply IH.
Qed.

(** ** Running compiled expressions *)

(** C2: The compiler is correct on the expressions that are [supported]: built
    from literals, operators, conditionals, lists and records, without spreads
    and identifiers, and under optimisation without duration literals, which
    folding and execution treat differently (see [folding_preserves_meaning]:
    [1s == 1000] is one value folded and another executed). Take the code
    [compile_node] appends for one, with folding and typed instructions or
    without, and any chunk that ends up with that code in its place and the
    constants. Run from the first instruction, on any stack and under any
    callers, it comes to the instruction after the region with the value of
    [evaluate] pushed and nothing but fuel gone from the machine, or it ends with
    the error of [evaluate] or for want of fuel, stack or value budget ([limit]). *)
Theorem compiled_expressions_evaluate expand lookup opt fuel e s s' f callers stack m :
  compile_node expand lookup opt fuel e s = Done (tt, s') →
  supported opt (node e) = true → compiler_ok s →
  code_at (fr_chunk f) (length (code s)) (drop (length (code s)) (code s')) →
  covers (fr_chunk f) s' →
  ∃ n,
    (∃ d, (limit d ∨ evaluate (node e) = Err d) ∧
       ∀ k, execute_frames session (n + k) (at_ f (length (code s)) stack :: callers) m = Finished (Err d)) ∨
    (∃ v m', evaluate (node e) = Ok v ∧ fuel_only m m' ∧
       ∀ k, execute_frames session (n + k) (at_ f (length (code s)) stack :: callers) m =
            execute_frames session k (at_ f (length (code s')) (v :: stack) :: callers) m').
Proof.
  intros Hc Hs Hok Hcode Hk. destruct (node_produces _ _ _ _ _ Hs _ _ Hc) as (bs & _ & [He Hr]).
  rewrite (emits_code _ _ _ He), drop_app_length in Hcode.
  assert (goes session (λ t, ∃ v m', evaluate (node e) = Ok v ∧ fuel_only m m' ∧
            t = mkState (at_ f (length (code s')) (v :: stack)) m') (λ d, evaluate (node e) = Err d)
            (mkState (at_ f (length (code s)) stack) m)) as Hgo.
  { eapply Hr; [done|done|exact Hcode|done| |done]. intros v m' Hv Hm. apply goes_stop. exists v, m'.
    by rewrite (emits_length _ _ _ He). }
  destruct (exec_goes session _ _ _ callers Hgo) as [(n & d & Hd & Hx)|(n & t & (v & m' & Hv & Hm & ->) & Hx)].
  - exists n. left. by exists d.
  - exists n. right. by exists v, m'.
Qed.

Lemma exec_return f ip v stack m : code_at (fr_chunk f) ip [op_byte Op.Return] →
  ∃ r, (∀ k, execute_frames session (S k) [at_ f ip (v :: stack)] m = Finished r) ∧
    match r with
    | Ok (Value w, m') => w = v ∧ fuel_only m m'
    | Ok (Suspended_ _, _) => False
    | Err d => limit d
    end.
Proof.
  intros Hc%code_at_lookup. pose proof (limited_charge 1 m) as Hm.
  destruct (charge 1 m) as [[[] m']|d] eqn:Ec.
  - exists (Ok (Value v, m')). split; [|split; [done|apply Hm]]. intros k. unfold execute_frames. cbn [exec].
    unfold step_frames, run_machine, mbind, exec_bind. rewrite Ec. unfold code_of. cbn [fr_chunk fr_ip at_].
    rewrite Hc. unfold op_byte. rewrite op_from_byte_discriminant. done.
  - exists (Err d). split; [|done]. intros k. unfold execute_frames. cbn [exec].
    unfold step_frames, run_machine, mbind, exec_bind. by rewrite Ec.
Qed.

Lemma compiler_new_ok : compiler_ok compiler_new.
Proof. split; [intros ? ? Hl; cbn in Hl; by rewrite lookup_empty in Hl..|done]. Qed.

Lemma addressable s s' : ensure_chunk_addressable s = Done (tt, s') →
  s' = s ∧ (len (code s) < 65536)%N.
Proof.
  unfold ensure_chunk_addressable. destruct (N.ltb_spec U16_MAX (len (chunk_code (chunk (emitter s)))));
    [done|]. intros [= <-]. unfold U16_MAX in *. split; [done|]. unfold code. lia.
Qed.

(** C39: Returned expressions run. A body that only returns a [supported]
    expression (see [compiled_expressions_evaluate]), when it compiles and passes
    [ensure_chunk_addressable], executes to an end, with some number of steps
    enough and any further ones without effect: it completes with the value of
    [evaluate], having touched nothing of the machine but its fuel, or ends with
    the error of [evaluate] or for want of fuel, stack or value budget ([limit]).
    It never suspends, never falls off its code, never underflows its stack. *)
Theorem returned_expressions_run expand lookup opt fuel e s env arguments m :
  (_ ← compile_return_stmt expand lookup opt fuel (Some e); ensure_chunk_addressable) compiler_new =
    Done (tt, s) →
  supported opt (node e) = true →
  ∃ n r, (∀ k, execute_frames session (n + k) [frame_new (chunk (emitter s)) env arguments] m = Finished r) ∧
    match r with
    | Ok (Value v, m') => evaluate (node e) = Ok v ∧ fuel_only m m'
    | Ok (Suspended_ _, _) => False
    | Err d => limit d ∨ evaluate (node e) = Err d
    end.
Proof.
  intros Hc Hs. apply bind_done in Hc as ([] & s2 & ([] & s1 & C1 & C2%emit_emits)%bind_done & Ha).
  apply addressable in Ha as [-> Hlen].
  destruct (node_produces _ _ _ _ _ Hs _ _ C1) as (bs & _ & R). pose proof (region_emits _ _ _ _ _ _ R) as E1.
  set (f := frame_new (chunk (emitter s2)) env arguments).
  assert (code_at (fr_chunk f) 0 (bs ++ [op_byte Op.Return])) as [Hbs Hret]%code_at_app.
  { exists []. rewrite app_nil_r. exact (emits_code _ _ _ (emits_trans _ _ _ _ _ E1 C2)). }
  assert (covers (fr_chunk f) s1) as Hk by (eapply covers_before; [exact C2|by split]).
  assert (goes session (λ t, ∃ v m', evaluate (node e) = Ok v ∧ fuel_only m m' ∧
            t = mkState (at_ f (length bs) [v]) m') (λ d, evaluate (node e) = Err d)
            (mkState (at_ f 0 []) m)) as Hgo.
  { eapply (region_runs _ _ _ _ _ _ R); [apply compiler_new_ok|done|exact Hbs|exact Hk| |done].
    intros v m' Hv Hm. apply goes_stop. by exists v, m'. }
  destruct (exec_goes session _ _ _ [] Hgo) as [(n & d & Hd & Hx)|(n & t & (v & m1 & Hv & Hm & ->) & Hx)].
  - exists n, (Err d). split; [exact Hx|exact Hd].
  - destruct (exec_return f (length bs) v [] m1 Hret) as (r & Hr & Hfin). exists (n + 1), r. split.
    + intros k. rewrite <- Nat.add_assoc. etransitivity; [apply Hx|]. apply Hr.
    + destruct r as [[[w|] m2]|d]; [|done|by left]. destruct Hfin as [-> Hm2].
      split; [done|by eapply fuel_only_trans].
Qed.
End nodes.

(** *** An example *)

(** [nil ?? (1 < 2 && "x" in "xy" ? [1 + 2 * 3] : {})] *)
Definition sample_node : SNode :=
  let at_line (n : Node.Node) : SNode := mkSpanned n (mkSpan 0 10 1 1 1) in
  let int z := at_line (Node.IntLiteral z) in
  let text t := at_line (Node.StringLiteral t) in
  let binary op l r := at_line (Node.BinaryOp op l r) in
  binary BinaryOperator.NilCoalesce (at_line Node.NilLiteral)
    (at_line (Node.Ternary
      (binary BinaryOperator.And (binary BinaryOperator.Lt (int 1%Z) (int 2%Z))
         (binary BinaryOperator.In (text "x") (text "xy")))
      (at_line (Node.ListLiteral [binary BinaryOperator.Add (int 1%Z)
         (binary BinaryOperator.Mul (int 2%Z) (int 3%Z))]))
      (at_line (Node.DictLiteral [])))).

Definition compiled_sample : Compiler :=
  match (_ ← @compile_return_stmt sample_floats id (λ _, None) false 10 (Some sample_node);
         ensure_chunk_addressable) compiler_new with
  | Done (_, s) => s
  | _ => compiler_new
  end.

Definition sample_session : Session :=
  mkSession (mkProgramArtifact [] [] (chunk (emitter compiled_sample)) "main" EntryFunction false [] [])
    (mkGrantSet [] None) [].

Lemma returned_expressions_run_witness :
  ∃ n r, (∀ k, @execute_frames sample_floats sample_platform sample_session (n + k)
                 [frame_new (chunk (emitter compiled_sample)) 0 []] (machine_new [] 0) = Finished r) ∧
    match r with
    | Ok (Value v, m') => v = RList [RInt 7] ∧ fuel_only (machine_new [] 0) m'
    | Ok (Suspended_ _, _) => False
    | Err d => limit d
    end.
Proof.
  destruct (@returned_expressions_run sample_floats sample_platform sample_session id (λ _, None) false 10
    sample_node compiled_sample 0 [] (machine_new [] 0)) as (n & r & Hr & Hfin).
  - vm_compute. reflexivity.
  - reflexivity.
  - exists n, r. split; [exact Hr|].
    assert (@evaluate sample_floats (node sample_node) = Ok (RList [RInt 7])) as Hv by reflexivity.
    rewrite Hv in Hfin. destruct r as [[[v|] m']|d]; [|done|].
    + destruct Hfin as [[= <-] Hm]. done.
    + destruct Hfin as [Hd|[=]]. exact Hd.
Defined.

(** The same expression without its [Return]. *)
Definition compiled_node : Compiler :=
  match @compile_node sample_floats id (λ _, None) false 10 sample_node compiler_new with
  | Done (_, s) => s
  | _ => compiler_new
  end.

Lemma compiled_expressions_evaluate_witness :
  let f := frame_new (chunk (emitter compiled_sample)) 0 [] in
  ∃ n,
    (∃ d, limit d ∧ ∀ k, @execute_frames sample_floats sample_platform sample_session (n + k) [f]
                            (machine_new [] 0) = Finished (Err d)) ∨
    (∃ m', fuel_only (machine_new [] 0) m' ∧
       ∀ k, @execute_frames sample_floats sample_platform sample_session (n + k) [f] (machine_new [] 0) =
            @execute_frames sample_floats sample_platform sample_session k
              [at_ f (length (code compiled_node)) [RList [RInt 7]]] m').
Proof.
  intros f. assert (@evaluate sample_floats (node sample_node) = Ok (RList [RInt 7])) as Hv by reflexivity.
  assert (at_ f (length (code compiler_new)) [] = f) as Hf by reflexivity.
  destruct (@compiled_expressions_evaluate sample_floats sample_platform sample_session id (λ _, None)
    false 10 sample_node compiler_new compiled_node f [] [] (machine_new [] 0))
    as (n & [(d & Hd & Hx)|(v & m' & Hw & Hm & Hx)]).
  - vm_compute. reflexivity.
  - reflexivity.
  - exact compiler_new_ok.
  - exists [op_byte Op.Return]. vm_compute. reflexivity.
  - split; [exists []; vm_compute; reflexivity|vm_compute; reflexivity].
  - exists n. left. exists d. rewrite Hf in Hx. split; [|exact Hx]. rewrite Hv in Hd. destruct Hd as [Hd|[=]]. exact Hd.
  - exists n. right. exists m'. rewrite Hf in Hx. split; [exact Hm|]. rewrite Hv in Hw. injection Hw as <-. exact Hx.
Defined.
