(* ===== verification/CompileVerifies.v ===== *)
(** * Compiled code passes the verifier

    Whatever expression [compile_node] compiles, the bytes it appends are whole
    instructions whose operands index the chunk's tables and whose jumps go to
    instructions: a returned expression is a chunk [validate_chunk] accepts. *)

From stdpp Require Import countable.
From Stdlib Require Import Strings.String.
From S2P Require Import Prelude BTree Opcode Program Verifier Linker Float64 Semantics Values Ops.
From S2P Require Import Operators Fold Emit Compile Region CompileSound.

(** ** Blocks of instructions *)

(** The operands of the instructions an expression compiles to; [T] are the
    offsets a jump may name. *)
Definition fits (K : list Constant.Constant) (T : nat → Prop) (op : Op.Op) (operands : list byte) : Prop :=
  match Op.operands op with
  | [] => operands = []
  | [OperandKind.ConstantU16] =>
      ∃ i, operands = be_bytes 2 i ∧ (i < 65536)%N ∧ is_Some (K !! N.to_nat i)
  | [OperandKind.JumpU16] => ∃ t, operands = be_bytes 2 (N.of_nat t mod 65536) ∧ T t
  | [OperandKind.ImmediateU16] => length operands = 2
  | [OperandKind.ImmediateU8] => length operands = 1
  | _ => False
  end.

Inductive block (K : list Constant.Constant) (T : nat → Prop) : list byte → Prop :=
  | block_nil : block K T []
  | block_cons op operands bs :
      fits K T op operands → block K T bs → block K T (op_byte op :: operands ++ bs).

(** The offsets of instructions in code that starts at [lo], and its end. *)
Definition starts (lo : nat) (bs : list byte) (t : nat) : Prop := ∃ d, t = lo + d ∧ boundary bs 0 d.

(** A block that jumps within itself. *)
Definition tidy (K : list Constant.Constant) (lo : nat) (bs : list byte) : Prop :=
  block K (starts lo bs) bs.

Lemma fits_mono K K' (T T' : nat → Prop) op operands :
  K `prefix_of` K' → (∀ t, T t → T' t) → fits K T op operands → fits K' T' op operands.
Proof.
  intros HK HT. unfold fits. destruct (Op.operands op) as [|[] [|]]; try done.
  - intros (i & -> & Hi & [k Hk]). exists i. split_and!; [done..|]. exists k. by eapply lookup_prefix.
  - intros (t & -> & Ht). exists t. auto.
Qed.

Lemma block_mono K K' (T T' : nat → Prop) bs :
  K `prefix_of` K' → (∀ t, T t → T' t) → block K T bs → block K' T' bs.
Proof. intros HK HT. induction 1; constructor; [by eapply fits_mono|done]. Qed.

Lemma block_app K T b1 b2 : block K T b1 → block K T b2 → block K T (b1 ++ b2).
Proof.
  induction 1 as [|op operands b1 Hf _ IH]; intros H2; [done|]. cbn. rewrite <- app_assoc.
  constructor; [done|auto].
Qed.

Lemma block_one K T op operands : fits K T op operands → block K T (op_byte op :: operands).
Proof. intros Hf. rewrite <- (app_nil_r operands). by constructor; [|constructor]. Qed.

Lemma fits_length K T op operands : fits K T op operands → Op.instruction_len op = 1 + length operands.
Proof.
  unfold fits, Op.instruction_len. destruct (Op.operands op) as [|[] [|]]; try done.
  all: try by intros ->.
  - by intros (i & -> & _).
  - by intros (t & -> & _).
Qed.

(** *** Boundaries *)

Lemma op_at_head op bs : op_at (op_byte op :: bs) 0 = Some op.
Proof. unfold op_at, op_byte. cbn. apply op_from_byte_discriminant. Qed.

Lemma op_at_embed pre bs post d op : op_at bs d = Some op → op_at (pre ++ bs ++ post) (length pre + d) = Some op.
Proof.
  unfold op_at. destruct (bs !! d) as [b|] eqn:Eb; [|done]. cbn. intros Hb.
  rewrite lookup_app_r, Nat.add_comm, Nat.add_sub by lia. rewrite (lookup_app_l_Some bs post d b Eb). exact Hb.
Qed.

Lemma boundary_embed pre bs post d :
  boundary bs 0 d → boundary (pre ++ bs ++ post) (length pre) (length pre + d).
Proof.
  induction 1 as [|ip op _ IH Hop]; [rewrite Nat.add_0_r; constructor|].
  rewrite Nat.add_assoc. constructor; [done|]. by apply op_at_embed.
Qed.

Lemma boundary_block K T bs : block K T bs → boundary bs 0 (length bs).
Proof.
  induction 1 as [|op operands bs Hf _ IH]; [constructor|].
  eapply boundary_trans.
  - apply (boundary_next _ 0 0 op); [constructor|apply op_at_head].
  - cbn [length Nat.add]. rewrite (fits_length _ _ _ _ Hf), length_app.
    replace (S (length operands + length bs)) with (length (op_byte op :: operands) + length bs)
      by (cbn; lia).
    replace (op_byte op :: operands ++ bs) with ((op_byte op :: operands) ++ bs ++ [])
      by (by rewrite app_nil_r).
    by apply boundary_embed.
Qed.

(** Code that control leaves at its end. *)
Definition closed (bs : list byte) : Prop := boundary bs 0 (length bs).

Lemma closed_app a b : closed a → closed b → closed (a ++ b).
Proof.
  unfold closed. intros Ha Hb. rewrite length_app. eapply boundary_trans.
  - exact (boundary_embed [] a b _ Ha).
  - pose proof (boundary_embed a b [] _ Hb) as Hab. by rewrite app_nil_r in Hab.
Qed.

Lemma closed_one K T op operands : fits K T op operands → closed (op_byte op :: operands).
Proof. intros Hf. eapply boundary_block, block_one, Hf. Qed.

Lemma closed_jump op target : Op.operands op = [OperandKind.JumpU16] → closed (jump_code op target).
Proof.
  intros Hop. apply (closed_one [] (λ _, True)). unfold fits. rewrite Hop. by exists target.
Qed.

Lemma closed_tidy K lo bs : tidy K lo bs → closed bs.
Proof. apply boundary_block. Qed.

(** The instructions of a part are instructions of the whole. *)
Lemma starts_embed lo lo' pre bs post t : closed pre → lo' = lo + length pre →
  starts lo' bs t → starts lo (pre ++ bs ++ post) t.
Proof.
  intros Hpre -> (d & -> & Hd). exists (length pre + d). split; [lia|].
  eapply boundary_trans; [|by apply boundary_embed].
  exact (boundary_embed [] pre (bs ++ post) _ Hpre).
Qed.

Lemma starts_at lo bs post t : closed bs → t = lo + length bs → starts lo (bs ++ post) t.
Proof. intros Hb ->. exists (length bs). split; [done|]. exact (boundary_embed [] bs post _ Hb). Qed.

Lemma starts_end lo bs t : closed bs → t = lo + length bs → starts lo bs t.
Proof. intros Hb ->. by exists (length bs). Qed.

(** *** Putting blocks together *)

Lemma tidy_nil K lo : tidy K lo [].
Proof. constructor. Qed.

Lemma tidy_mono K K' lo bs : K `prefix_of` K' → tidy K lo bs → tidy K' lo bs.
Proof. intros HK. by apply block_mono. Qed.

Lemma tidy_one K lo op operands : fits K (λ _, False) op operands → tidy K lo (op_byte op :: operands).
Proof. intros Hf. apply block_one. eapply fits_mono; [done| |done]. by intros. Qed.

(** A part of a block, its jumps among the jumps of the whole. *)
Lemma tidy_part K lo lo' pre bs post : tidy K lo' bs → closed pre → lo' = lo + length pre →
  block K (starts lo (pre ++ bs ++ post)) bs.
Proof. intros Hb Hpre Hlo. eapply block_mono; [done| |exact Hb]. intros t. by apply starts_embed. Qed.

Lemma tidy_app K lo lo' b1 b2 : tidy K lo b1 → tidy K lo' b2 → lo' = lo + length b1 → tidy K lo (b1 ++ b2).
Proof.
  intros H1 H2 Hlo. apply block_app.
  - eapply (tidy_part K lo lo [] b1 b2); [done|constructor|cbn; lia].
  - pose proof (tidy_part K lo lo' b1 b2 [] H2 (closed_tidy _ _ _ H1) Hlo) as Hb.
    by rewrite app_nil_r in Hb.
Qed.

Lemma jump_fits K T op target : Op.operands op = [OperandKind.JumpU16] → T target →
  block K T (jump_code op target).
Proof. intros Hop Ht. apply block_one. unfold fits. rewrite Hop. by exists target. Qed.

(** A jump over a part of the code after it. *)
Lemma tidy_over K lo b1 op b2 target :
  Op.operands op = [OperandKind.JumpU16] → tidy K lo b1 → tidy K (lo + length b1 + 3) b2 →
  target = lo + length b1 + 3 + length b2 → tidy K lo (b1 ++ jump_code op target ++ b2).
Proof.
  intros Hop H1 H2 Ht. pose proof (closed_tidy _ _ _ H1) as C1. pose proof (closed_tidy _ _ _ H2) as C2.
  pose proof (closed_jump op target Hop) as CJ. apply block_app; [|apply block_app].
  - eapply (tidy_part K lo lo []); [done|constructor|cbn; lia].
  - apply jump_fits; [done|]. apply starts_end; [by repeat apply closed_app|].
    rewrite !length_app. change (length (jump_code op target)) with 3. lia.
  - pose proof (tidy_part K lo _ (b1 ++ jump_code op target) b2 [] H2) as Hb.
    rewrite app_nil_r, <- app_assoc in Hb. apply Hb; [by apply closed_app|].
    rewrite length_app. change (length (jump_code op target)) with 3. lia.
Qed.

(** Two branches, as [branch_emits] lays them out. *)
Lemma tidy_branch K lo b1 op b2 b3 :
  Op.operands op = [OperandKind.JumpU16] → tidy K lo b1 → tidy K (lo + length b1 + 3) b2 →
  tidy K (lo + length b1 + 3 + length b2 + 3) b3 →
  tidy K lo (b1 ++ jump_code op (lo + length b1 + 3 + length b2 + 3) ++ b2 ++
             jump_code Op.Jump (lo + length b1 + 3 + length b2 + 3 + length b3) ++ b3).
Proof.
  intros Hop H1 H2 H3. set (else_ := lo + length b1 + 3 + length b2 + 3) in *.
  pose proof (tidy_over K _ b2 Op.Jump b3 (else_ + length b3) eq_refl H2 H3 ltac:(lia)) as H23.
  set (J := jump_code Op.Jump (else_ + length b3)) in *.
  pose proof (closed_tidy _ _ _ H1) as C1. pose proof (closed_tidy _ _ _ H2) as C2.
  pose proof (closed_jump op else_ Hop) as CJ. pose proof (closed_jump Op.Jump (else_ + length b3) eq_refl) as CJ'.
  apply block_app; [|apply block_app].
  - eapply (tidy_part K lo lo []); [done|constructor|cbn; lia].
  - apply jump_fits; [done|]. rewrite !app_assoc. apply starts_at; [by repeat apply closed_app|].
    subst J. rewrite !length_app. change (length (jump_code op else_)) with 3.
    change (length (jump_code Op.Jump (else_ + length b3))) with 3. lia.
  - pose proof (tidy_part K lo _ (b1 ++ jump_code op else_) (b2 ++ J ++ b3) [] H23) as Hb.
    rewrite app_nil_r, <- app_assoc in Hb. apply Hb; [by apply closed_app|].
    rewrite length_app. change (length (jump_code op else_)) with 3. lia.
Qed.

(** *** Blocks are verified *)

Lemma boundary_shift pre bs ip : boundary (pre ++ bs) (length pre) ip →
  ∃ d, ip = length pre + d ∧ boundary bs 0 d.
Proof.
  induction 1 as [|ip op _ (d & -> & IH) Hop]; [exists 0; split; [lia|constructor]|].
  exists (d + Op.instruction_len op). split; [lia|]. constructor; [done|].
  unfold op_at in *. by rewrite lookup_app_r, Nat.add_comm, Nat.add_sub in Hop by lia.
Qed.

Lemma block_at K T bs ip : block K T bs → boundary bs 0 ip →
  ip = length bs ∨ ∃ pre op operands post, bs = pre ++ op_byte op :: operands ++ post ∧
    length pre = ip ∧ fits K T op operands.
Proof.
  intros Hb. revert ip. induction Hb as [|op operands bs Hf _ IH]; intros ip Hip.
  { left. apply boundary_end in Hip; [done|cbn; lia]. }
  apply boundary_inv in Hip as [->|(op' & Hop & Hip)]; [right; by exists [], op, operands, bs|].
  rewrite op_at_head in Hop. injection Hop as <-. cbn [Nat.add] in Hip.
  rewrite (fits_length _ _ _ _ Hf) in Hip.
  apply (boundary_shift (op_byte op :: operands)) in Hip as (d & -> & Hd).
  destruct (IH _ Hd) as [->|(pre & op' & operands' & post & -> & <- & Hf')].
  - left. cbn. rewrite length_app. lia.
  - right. exists (op_byte op :: operands ++ pre), op', operands', post. split_and!; [|cbn; rewrite length_app; lia|done].
    cbn. by rewrite <- app_assoc.
Qed.

Lemma read_operand pre b i post : (i < 65536)%N →
  read_code_u16 (pre ++ b :: be_bytes 2 i ++ post) (length pre + 1) = N.to_nat i.
Proof.
  intros Hi. unfold read_code_u16. rewrite <- drop_drop, drop_app_length. change (drop 1 _) with (be_bytes 2 i ++ post).
  rewrite take_app_length' by (by rewrite be_bytes_length). by rewrite from_be_be_bytes, N.mod_small.
Qed.

Lemma fits_static pre op operands post T tables :
  let code := pre ++ op_byte op :: operands ++ post in
  (len code < 65536)%N → fits (ct_constants tables) T op operands →
  (∀ t, T t → boundary code 0 t ∧ t < length code) →
  instruction_static code tables (length pre) op ∧
  Forall (λ t, boundary code 0 t ∧ t < length code) (jumps_of code (Op.operands op) (length pre + 1)).
Proof.
  intros code Hlen Hf HT. pose proof (fits_length _ _ _ _ Hf) as Hl. unfold instruction_static.
  assert (length pre + Op.instruction_len op ≤ length code) as Hend
    by (subst code; rewrite Hl, length_app; cbn; rewrite length_app; lia).
  assert (builtin_static code tables (length pre) op) as Hb
    by (clear -Hf; unfold fits in Hf; destruct op; cbn in Hf |- *; done).
  enough (operands_static code tables (Op.operands op) (length pre + 1) ∧
    Forall (λ t, boundary code 0 t ∧ t < length code) (jumps_of code (Op.operands op) (length pre + 1))) by tauto.
  unfold fits in Hf. clear Hend Hl Hb. destruct (Op.operands op) as [|[] [|]]; try done.
  all: try (split; [repeat split|constructor]; fail).
  - destruct Hf as (i & -> & Hi & k & Hk). split; [|constructor]. split; [|done].
    exists k. subst code. by rewrite read_operand.
  - destruct Hf as (t & -> & Ht). split; [by split|]. cbn [jumps_of app]. constructor; [|constructor].
    destruct (HT t Ht) as [Hbt Hlt]. subst code.
    assert (N.of_nat t < 65536)%N as Hs by (unfold len in Hlen; lia).
    rewrite N.mod_small in * by done. rewrite read_operand, Nat2N.id by done. done.
Qed.

(** The code of an expression, then an instruction without operands. *)
Lemma tidy_verified bs op tables : Op.operands op = [] → tidy (ct_constants tables) 0 bs →
  (len (bs ++ [op_byte op]) < 65536)%N → verified (bs ++ [op_byte op]) tables.
Proof.
  intros Hop Ht Hlen ip Hip. set (T := starts 0 bs).
  assert (block (ct_constants tables) T (bs ++ [op_byte op])) as Hb.
  { apply block_app; [exact Ht|]. apply block_one. unfold fits. by rewrite Hop. }
  destruct (block_at _ _ _ _ Hb Hip) as [->|(pre & op' & operands & post & Hcode & <- & Hf)]; [by left|right].
  exists op'. rewrite Hcode in *. split.
  { pose proof (op_at_embed pre (op_byte op' :: operands) post 0 op' (op_at_head _ _)) as Ho.
    by rewrite Nat.add_0_r in Ho. }
  eapply fits_static; [done|exact Hf|]. intros t (d & -> & Hd). cbn [Nat.add].
  assert (d ≤ length bs) as Hle.
  { destruct (block_at _ _ _ _ Ht Hd) as [->|(p & o & a & q & -> & <- & _)]; [done|].
    rewrite length_app. lia. }
  rewrite <- Hcode. split; [exact (boundary_embed [] bs _ _ Hd)|]. rewrite length_app. cbn. lia.
Qed.

(** ** What compiling keeps *)

(** [n] more positions in the source map; the other tables as they were. *)
Record maps_by (n : nat) (s s' : Compiler) : Prop := {
  maps_lines : length (chunk_lines (chunk (emitter s'))) = length (chunk_lines (chunk (emitter s))) + n;
  maps_columns : length (chunk_columns (chunk (emitter s'))) = length (chunk_columns (chunk (emitter s))) + n;
  maps_functions : chunk_functions (chunk (emitter s')) = chunk_functions (chunk (emitter s));
  maps_locals : chunk_local_slots (chunk (emitter s')) = chunk_local_slots (chunk (emitter s));
  maps_bindings : chunk_binding_types (chunk (emitter s')) = chunk_binding_types (chunk (emitter s))
}.

Lemma maps_trans n1 n2 n s1 s2 s3 : maps_by n1 s1 s2 → maps_by n2 s2 s3 → n = n1 + n2 → maps_by n s1 s3.
Proof. intros [] [] ->. split; first [lia|congruence]. Qed.

Lemma maps_same s s' : chunk_lines (chunk (emitter s')) = chunk_lines (chunk (emitter s)) →
  chunk_columns (chunk (emitter s')) = chunk_columns (chunk (emitter s)) →
  chunk_functions (chunk (emitter s')) = chunk_functions (chunk (emitter s)) →
  chunk_local_slots (chunk (emitter s')) = chunk_local_slots (chunk (emitter s)) →
  chunk_binding_types (chunk (emitter s')) = chunk_binding_types (chunk (emitter s)) → maps_by 0 s s'.
Proof. intros. split; rewrite ?Nat.add_0_r; congruence. Qed.

Ltac maps := split; cbn; rewrite ?length_app; cbn; lia || reflexivity.

Lemma emit_maps op s s' : chunk_emit op s = Done (tt, s') → maps_by 1 s s'.
Proof. intros [= <-]. maps. Qed.

Lemma emit_u16_maps op v s s' : chunk_emit_u16 op v s = Done (tt, s') → maps_by 3 s s'.
Proof. intros [= <-]. maps. Qed.

Lemma emit_u8_maps op v s s' : chunk_emit_u8 op v s = Done (tt, s') → maps_by 2 s s'.
Proof. intros [= <-]. maps. Qed.

Lemma emit_jump_maps op p s s' : chunk_emit_jump op s = Done (p, s') → maps_by 3 s s'.
Proof. intros [= _ <-]. maps. Qed.

Lemma patch_maps p s s' : chunk_patch_jump p s = Done (tt, s') → maps_by 0 s s'.
Proof. intros [= <-]. by apply maps_same. Qed.

Lemma add_constant_maps k i s s' : chunk_add_constant k s = Done (i, s') → maps_by 0 s s'.
Proof.
  unfold chunk_add_constant, add_constant. destruct (constant_index (emitter s) !! k).
  - intros [= _ <-]. by apply maps_same.
  - destruct (_ <? _)%N; [done|]. intros [= _ <-]. by apply maps_same.
Qed.

Lemma string_constant_maps t i s s' : string_constant t s = Done (i, s') → maps_by 0 s s'.
Proof.
  unfold string_constant. destruct (string_constants s !! t).
  - intros [= _ <-]. by apply maps_same.
  - destruct (chunk_add_constant _ s) as [[j s1]| | | |] eqn:Ea; try done. intros [= _ <-].
    apply add_constant_maps in Ea as []. by split.
Qed.

Record adds (s s' : Compiler) (bs : list byte) : Prop := {
  adds_emits : emits s s' bs;
  adds_maps : maps_by (length bs) s s';
  adds_tidy : compiler_ok s → tidy (constants s') (length (code s)) bs
}.

Definition tidies (m : CompileM unit) : Prop := ∀ s s', m s = Done (tt, s') → ∃ bs, adds s s' bs.

Lemma adds_trans s1 s2 s3 b1 b2 : adds s1 s2 b1 → adds s2 s3 b2 → adds s1 s3 (b1 ++ b2).
Proof.
  intros [E1 M1 T1] [E2 M2 T2]. split; [by eapply emits_trans| |].
  - eapply maps_trans; [done..|apply length_app].
  - intros Hs. eapply tidy_app; [|apply T2, (emits_ok _ _ _ E1), Hs|by apply emits_length].
    eapply tidy_mono; [exact (emits_constants _ _ _ E2)|auto].
Qed.

(** Steps that add no code. *)
Lemma adds_none s s' : emits s s' [] → maps_by 0 s s' → adds s s' [].
Proof. intros. split; [done..|]. intros _. apply tidy_nil. Qed.

Lemma adds_emit op s s' : Op.operands op = [] → chunk_emit op s = Done (tt, s') → adds s s' [op_byte op].
Proof.
  intros Hop Hs. split; [by apply emit_emits|by eapply emit_maps|]. intros _. apply tidy_one.
  unfold fits. by rewrite Hop.
Qed.

Lemma adds_immediate op v s s' : Op.operands op = [OperandKind.ImmediateU16] →
  chunk_emit_u16 op v s = Done (tt, s') → adds s s' (op_byte op :: be_bytes 2 v).
Proof.
  intros Hop Hs. split; [by apply emit_u16_emits|by eapply emit_u16_maps|]. intros _. apply tidy_one.
  unfold fits. by rewrite Hop.
Qed.

Lemma adds_u8 op v s s' : Op.operands op = [OperandKind.ImmediateU8] →
  chunk_emit_u8 op v s = Done (tt, s') → adds s s' [op_byte op; n2b v].
Proof.
  intros Hop Hs. split; [injection Hs as <-; by apply emits_same|by eapply emit_u8_maps|]. intros _.
  apply tidy_one. unfold fits. by rewrite Hop.
Qed.

Lemma tidies_seq m m' : tidies m → tidies m' → tidies (_ ← m; m').
Proof.
  intros Hm Hm' s s' ([] & s1 & C1 & C2)%bind_done. destruct (Hm _ _ C1) as [b1 A1].
  destruct (Hm' _ _ C2) as [b2 A2]. exists (b1 ++ b2). by eapply adds_trans.
Qed.

Lemma tidies_ret : tidies (mret tt).
Proof. intros s s' [= <-]. exists []. apply adds_none; [apply emits_refl|by apply maps_same]. Qed.

Lemma tidies_emit op : Op.operands op = [] → tidies (chunk_emit op).
Proof. intros Hop s s' Hs. eexists. by apply adds_emit. Qed.

Lemma tidies_immediate op v : Op.operands op = [OperandKind.ImmediateU16] → tidies (chunk_emit_u16 op v).
Proof. intros Hop s s' Hs. eexists. by apply adds_immediate. Qed.

Lemma tidies_u8 op v : Op.operands op = [OperandKind.ImmediateU8] → tidies (chunk_emit_u8 op v).
Proof. intros Hop s s' Hs. eexists. by apply adds_u8. Qed.

Lemma tidies_enter sp : tidies (enter_node sp).
Proof.
  intros s s' Hs. exists []. apply adds_none; [by eapply enter_emits|]. injection Hs as <-. by apply maps_same.
Qed.

Lemma tidies_fails {m : CompileM unit} : (∀ s p, m s ≠ Done p) → tidies m.
Proof. intros Hm s s' Hs. by apply Hm in Hs. Qed.

(** *** Constants *)

Definition loads (load : CompileM N) (k : Constant.Constant) : Prop :=
  ∀ i s s', load s = Done (i, s') →
    emits s s' [] ∧ maps_by 0 s s' ∧ (compiler_ok s → constants s' !! N.to_nat i = Some k).

Lemma loads_constant k : loads (chunk_add_constant k) k.
Proof. intros i s s' Hs. destruct (add_constant_emits _ _ _ _ Hs). by eauto using add_constant_maps. Qed.

Lemma loads_string t : loads (string_constant t) (Constant.String t).
Proof. intros i s s' Hs. destruct (string_constant_emits _ _ _ _ Hs). by eauto using string_constant_maps. Qed.

Lemma tidies_load load k : loads load k → tidies (i ← load; chunk_emit_u16 Op.Constant i).
Proof.
  intros Hload s s' (i & s1 & C1 & C2)%bind_done. destruct (Hload _ _ _ C1) as (E1 & M1 & K1).
  pose proof (emit_u16_emits _ _ _ _ C2) as E2. exists ([] ++ op_byte Op.Constant :: be_bytes 2 i). split.
  - by eapply emits_trans.
  - eapply maps_trans; [done|by eapply emit_u16_maps|done].
  - intros Hs. pose proof (K1 Hs) as Hi. apply tidy_one. exists i. split_and!; [done| |].
    + eapply lookup_index; [|exact Hi]. by apply (emits_ok _ _ _ E1).
    + exists k. eapply lookup_prefix; [exact (emits_constants _ _ _ E2)|done].
Qed.

Lemma tidies_pointwise m m' : tidies m → (∀ s, m s = m' s) → tidies m'.
Proof. intros Hm He s s' Hs. apply Hm. by rewrite He. Qed.

Lemma compile_assoc {A B C} (m : CompileM A) (f : A → CompileM B) (g : B → CompileM C) s :
  ((m ≫= f) ≫= g) s = (m ≫= λ a, f a ≫= g) s.
Proof. unfold mbind, compile_bind. by destruct (m s) as [[]| | | |]. Qed.

Lemma tidies_load_then load k rest : loads load k → tidies rest →
  tidies (i ← load; _ ← chunk_emit_u16 Op.Constant i; rest).
Proof.
  intros Hl Hr. eapply tidies_pointwise; [by apply tidies_seq; [eapply tidies_load|]|].
  intros s. apply compile_assoc.
Qed.

(** *** Jumps *)

Lemma tidies_conditional l r jump : Op.operands jump = [OperandKind.JumpU16] → tidies l → tidies r →
  tidies (_ ← l; jump ← chunk_emit_jump jump; _ ← chunk_emit Op.Pop; _ ← r;
          _ ← chunk_patch_jump jump; _ ← chunk_emit Op.Not; chunk_emit Op.Not).
Proof.
  intros Hop Hl Hr s s' ([] & s1 & C1 & (p & s2 & C2 & ([] & s3 & C3 & ([] & s4 & C4 & ([] & s5 & C5 &
    C6)%bind_done)%bind_done)%bind_done)%bind_done)%bind_done.
  destruct (Hl _ _ C1) as [b1 A1]. destruct (Hr _ _ C4) as [b2 A2].
  pose proof (adds_trans _ _ _ _ _ (adds_emit Op.Pop _ _ eq_refl C3) A2) as A24.
  destruct (emit_jump_emits _ _ _ _ C2) as [Hp E2].
  destruct A1 as [E1 M1 T1], A24 as [E24 M24 T24].
  pose proof (emits_trans _ _ _ _ _ E1 (emits_trans _ _ _ _ _ E2 E24)) as E14.
  pose proof (emits_length _ _ _ E1) as L1. pose proof (emits_length _ _ _ E14) as L4.
  pose proof (patch_emits p s s4 s5 b1 jump _ _ C5 ltac:(lia) E14 eq_refl) as E5.
  fold (jump_code jump (length (code s4))) in E5.
  assert (adds s s5 (b1 ++ jump_code jump (length (code s4)) ++ [op_byte Op.Pop] ++ b2)) as A5.
  { split; [exact E5| |].
    - eapply maps_trans; [exact M1|eapply maps_trans; [by eapply emit_jump_maps|eapply maps_trans;
        [exact M24|by eapply patch_maps|reflexivity]|reflexivity]|]. rewrite !length_app. cbn. lia.
    - intros Hs. assert (compiler_ok s1) as Hs1 by (by apply (emits_ok _ _ _ E1)).
      assert (compiler_ok s2) as Hs2 by (by apply (emits_ok _ _ _ E2)).
      rewrite (patch_constants _ _ _ C5). apply tidy_over; [done| | |].
      + eapply tidy_mono; [|by apply T1]. apply (emits_constants _ _ _ (emits_trans _ _ _ _ _ E2 E24)).
      + replace (length (code s) + length b1 + 3) with (length (code s2))
          by (rewrite (emits_length _ _ _ E2), L1; cbn; lia). by apply T24.
      + rewrite L4, !length_app. cbn. lia. }
  destruct (tidies_seq _ _ (tidies_emit Op.Not eq_refl) (tidies_emit Op.Not eq_refl) _ _ C6) as [b6 A6].
  eexists. by eapply adds_trans.
Qed.

(** A jump over a first branch, and one over the second. *)
Lemma adds_branch op s s1 s2 s4 s5 s6 s8 s' p q b1 b2 b3 : Op.operands op = [OperandKind.JumpU16] →
  adds s s1 b1 → chunk_emit_jump op s1 = Done (p, s2) → adds s2 s4 b2 →
  chunk_emit_jump Op.Jump s4 = Done (q, s5) → chunk_patch_jump p s5 = Done (tt, s6) →
  adds s6 s8 b3 → chunk_patch_jump q s8 = Done (tt, s') → ∃ bs, adds s s' bs.
Proof.
  intros Hop [E1 M1 T1] J1 [E2 M2 T2] J2 P1 [E3 M3 T3] P2.
  destruct (branch_emits _ _ _ _ _ _ _ _ _ _ _ _ _ _ E1 J1 E2 J2 P1 E3 P2) as (E & _ & Ok_ & L2 & L6).
  eexists. split; [exact E| |].
  - eapply maps_trans; [exact M1|eapply maps_trans; [by eapply emit_jump_maps|eapply maps_trans; [exact M2|
      eapply maps_trans; [by eapply emit_jump_maps|eapply maps_trans; [by eapply patch_maps|eapply maps_trans;
      [exact M3|by eapply patch_maps|reflexivity]|reflexivity]|reflexivity]|reflexivity]|reflexivity]|].
    unfold jump_code. repeat (progress (cbn [length app] in *; rewrite ?length_app, ?be_bytes_length)). lia.
  - intros Hs. destruct (Ok_ Hs) as [Ok2 Ok6]. pose proof (patch_constants _ _ _ P2) as K2.
    pose proof (patch_constants _ _ _ P1) as K1. apply emit_jump_emits in J1 as [_ J1], J2 as [_ J2].
    pose proof (emits_constants _ _ _ E3) as K3. pose proof (emits_constants _ _ _ J2) as KJ2.
    rewrite K2. apply tidy_branch; [done|..].
    + eapply tidy_mono; [|by apply T1]. etransitivity; [|exact K3]. rewrite K1.
      exact (emits_constants _ _ _ (emits_trans _ _ _ _ _ J1 (emits_trans _ _ _ _ _ E2 J2))).
    + rewrite <- L2. eapply tidy_mono; [|by apply T2]. etransitivity; [|exact K3]. by rewrite K1.
    + rewrite <- L6. by apply T3.
Qed.

Lemma tidies_ternary c t e : tidies c → tidies t → tidies e →
  tidies (_ ← c; else_jump ← chunk_emit_jump Op.JumpIfFalse; _ ← chunk_emit Op.Pop; _ ← t;
          end_jump ← chunk_emit_jump Op.Jump; _ ← chunk_patch_jump else_jump;
          _ ← chunk_emit Op.Pop; _ ← e; chunk_patch_jump end_jump).
Proof.
  intros Hc Ht He s s' ([] & s1 & C1 & (p & s2 & J1 & ([] & s3 & C3 & ([] & s4 & C4 & (q & s5 & J2 &
    ([] & s6 & P1 & ([] & s7 & C7 & ([] & s8 & C8 &
    P2)%bind_done)%bind_done)%bind_done)%bind_done)%bind_done)%bind_done)%bind_done)%bind_done.
  destruct (Hc _ _ C1) as [b1 A1]. destruct (Ht _ _ C4) as [b2 A2]. destruct (He _ _ C8) as [b3 A3].
  pose proof (adds_trans _ _ _ _ _ (adds_emit Op.Pop _ _ eq_refl C3) A2) as A24.
  pose proof (adds_trans _ _ _ _ _ (adds_emit Op.Pop _ _ eq_refl C7) A3) as A68.
  exact (adds_branch Op.JumpIfFalse _ _ _ _ _ _ _ _ _ _ _ _ _ eq_refl A1 J1 A24 J2 P1 A68 P2).
Qed.

Lemma tidies_coalesce l r : tidies l → tidies r →
  tidies (_ ← l; _ ← chunk_emit Op.Dup; _ ← chunk_emit Op.Nil; _ ← chunk_emit Op.NotEqual;
          jump ← chunk_emit_jump Op.JumpIfTrue; _ ← chunk_emit Op.Pop; _ ← chunk_emit Op.Pop; _ ← r;
          end_ ← chunk_emit_jump Op.Jump; _ ← chunk_patch_jump jump; _ ← chunk_emit Op.Pop;
          chunk_patch_jump end_).
Proof.
  intros Hl Hr s s' ([] & s1 & C1 & ([] & s2 & C2 & ([] & s3 & C3 & ([] & s4 & C4 & (p & s5 & J1 &
    ([] & s6 & C6 & ([] & s7 & C7 & ([] & s8 & C8 & (q & s9 & J2 & ([] & s10 & P1 & ([] & s11 & C11 &
    P2)%bind_done)%bind_done)%bind_done)%bind_done)%bind_done)%bind_done)%bind_done)%bind_done)%bind_done)%bind_done)%bind_done.
  destruct (Hl _ _ C1) as [b1 A1]. destruct (Hr _ _ C8) as [b2 A2].
  pose proof (adds_trans _ _ _ _ _ A1 (adds_trans _ _ _ _ _ (adds_emit Op.Dup _ _ eq_refl C2)
    (adds_trans _ _ _ _ _ (adds_emit Op.Nil _ _ eq_refl C3) (adds_emit Op.NotEqual _ _ eq_refl C4)))) as A14.
  pose proof (adds_trans _ _ _ _ _ (adds_emit Op.Pop _ _ eq_refl C6)
    (adds_trans _ _ _ _ _ (adds_emit Op.Pop _ _ eq_refl C7) A2)) as A68.
  exact (adds_branch Op.JumpIfTrue _ _ _ _ _ _ _ _ _ _ _ _ _ eq_refl A14 J1 A68 J2 P1
    (adds_emit Op.Pop _ _ eq_refl C11) P2).
Qed.

(** ** Nodes *)

#[local] Hint Resolve tidies_ret tidies_seq tidies_enter : core.
#[local] Hint Extern 2 (tidies (chunk_emit _)) => (by apply tidies_emit) : core.
#[local] Hint Extern 2 (tidies (chunk_emit_u16 _ _)) => (by apply tidies_immediate) : core.
#[local] Hint Extern 2 (tidies (chunk_emit_u8 _ _)) => (by apply tidies_u8) : core.

Section nodes.
Context `{FloatLib} (expand_alias : TypeExpr.TypeExpr → TypeExpr.TypeExpr)
  (lookup_type_fact : string → option TypeExpr.TypeExpr) (opt : bool).

Section arms.
Context (compile : SNode → CompileM unit) (Hcompile : ∀ e, tidies (compile e)).

Lemma tidies_flush build pending : Op.operands build = [OperandKind.ImmediateU16] →
  tidies (flush build pending).
Proof. intros Hb. unfold flush. destruct (_ <? _)%N; auto. Qed.

Lemma tidies_spread check inner : tidies (compile_spread compile check inner).
Proof.
  unfold compile_spread. apply tidies_seq; [done|]. apply tidies_seq; [auto|].
  eapply tidies_load_then; [apply loads_string|]. auto 10.
Qed.

Lemma tidies_all items : tidies (compile_all compile items).
Proof. induction items; cbn; auto. Qed.

Lemma tidies_spread_items items pending : tidies (compile_spread_items compile items pending).
Proof.
  revert pending; induction items as [|item items IH]; intros pending; [by apply tidies_flush|]. cbn.
  destruct (node item); auto. apply tidies_seq; [by apply tidies_flush|]. auto using tidies_spread.
Qed.

Lemma tidies_entries entries : tidies (compile_entries compile entries).
Proof. induction entries as [|[]]; cbn; auto. Qed.

Lemma tidies_spread_entries entries pending : tidies (compile_spread_entries compile entries pending).
Proof.
  revert pending; induction entries as [|[key value] entries IH]; intros pending; [by apply tidies_flush|].
  cbn. destruct (node value); auto. apply tidies_seq; [by apply tidies_flush|]. auto using tidies_spread.
Qed.

Lemma tidies_generic op : tidies (emit_generic_binary_op op).
Proof. destruct op; cbn; auto; intros s s' Hs; discriminate Hs. Qed.

Lemma tidies_typed op l r o : specialized_binary_op expand_alias op l r = Some o → tidies (chunk_emit o).
Proof.
  unfold specialized_binary_op. destruct (l ≫= _) as [a|]; [|done]. destruct (r ≫= _) as [b|]; [|done].
  cbn. intros Ho. destruct a, b; try done; destruct op; try done; injection Ho as <-; auto.
Qed.

Lemma tidies_binary op l r : tidies (compile_binary_op expand_alias lookup_type_fact opt compile op l r).
Proof.
  assert (tidies (_ ← compile l; _ ← compile r;
    match (if opt then specialized_binary_op expand_alias op
             (infer_expr_type expand_alias lookup_type_fact (node l))
             (infer_expr_type expand_alias lookup_type_fact (node r)) else None) with
    | Some o => chunk_emit o | None => emit_generic_binary_op op end)) as Hgeneric.
  { do 2 (apply tidies_seq; [done|]). destruct opt; [|apply tidies_generic].
    destruct (specialized_binary_op _ _ _ _) eqn:Ho; [by eapply tidies_typed|apply tidies_generic]. }
  destruct op; try exact Hgeneric.
  - intros s s' Hs. discriminate Hs.
  - apply (tidies_conditional _ _ Op.JumpIfTrue); [reflexivity|apply Hcompile..].
  - apply (tidies_conditional _ _ Op.JumpIfFalse); [reflexivity|apply Hcompile..].
  - apply tidies_coalesce; apply Hcompile.
Qed.

Lemma tidies_arm n : tidies (compile_arm expand_alias lookup_type_fact opt compile n).
Proof.
  destruct n as [t|t|z|f|b| |ms|x|op l r|op e|c t f|items|entries|e]; cbn [compile_arm].
  - eapply tidies_load, loads_string.
  - eapply tidies_load, loads_string.
  - eapply tidies_load, loads_constant.
  - eapply tidies_load, loads_constant.
  - destruct b; auto.
  - auto.
  - destruct (i64_try_from ms); [eapply tidies_load, loads_constant|]. intros s s' Hs. discriminate Hs.
  - intros s s' Hs. discriminate Hs.
  - apply tidies_binary.
  - destruct op; auto.
  - by apply tidies_ternary.
  - unfold compile_list_literal. destruct (existsb _ _); auto using tidies_spread_items, tidies_all.
  - unfold compile_dict_literal. destruct (existsb _ _); auto using tidies_spread_entries, tidies_entries.
  - intros s s' Hs. discriminate Hs.
Qed.
End arms.

Lemma tidies_node fuel e : tidies (compile_node expand_alias lookup_type_fact opt fuel e).
Proof.
  revert e; induction fuel as [|fuel IH]; intros e; [intros s s' Hs; discriminate Hs|]. cbn [compile_node].
  apply tidies_seq; [auto|]. destruct (if opt then _ else _) as [folded|]; [|by apply tidies_arm].
  destruct (negb _); [auto|by apply tidies_arm].
Qed.

(** C13: Compiled code verifies. Whatever expression a body returns, or none, when
    it compiles within the address space its chunk has a source position for
    every byte and its code passes the verifier of [decode]: every instruction is
    whole, its operands are in the tables, and every jump goes to an
    instruction. *)
Theorem compiled_code_verifies fuel value s :
  (_ ← compile_return_stmt expand_alias lookup_type_fact opt fuel value; ensure_chunk_addressable)
    compiler_new = Done (tt, s) →
  chunk_checked (chunk (emitter s)) ∧
  ∀ n, (w ← wire_chunk (chunk (emitter s)) []; validate_chunk n w) = Ok tt.
Proof.
  intros Hc. apply bind_done in Hc as ([] & s2 & ([] & s1 & C1 & C2)%bind_done & Ha).
  apply addressable in Ha as [-> Hlen].
  assert (tidies match value with
    | Some e => compile_node expand_alias lookup_type_fact opt fuel e | None => chunk_emit Op.Nil end) as Hm
    by (destruct value; auto using tidies_node).
  destruct (Hm _ _ C1) as [bs [E1 M1 T1]]. specialize (T1 compiler_new_ok).
  pose proof (emit_emits _ _ _ C2) as E2. pose proof (emit_maps _ _ _ C2) as M2.
  pose proof (emits_code _ _ _ (emits_trans _ _ _ _ _ E1 E2)) as Hcode.
  pose proof (maps_trans _ _ _ _ _ _ M1 M2 eq_refl) as M. cbn [code compiler_new emitter] in Hcode.
  destruct M as [Ml Mc Mf Ms Mb]. change (code s2 = bs ++ [op_byte Op.Return]) in Hcode. rewrite Hcode in Hlen.
  assert (chunk_checked (chunk (emitter s2))) as Hok.
  { split; fold (code s2); rewrite Hcode.
    - apply tidy_verified; [done| |done]. cbn [ct_constants chunk_tables].
      eapply tidy_mono; [|exact T1]. exact (emits_constants _ _ _ E2).
    - rewrite Ml, length_app. cbn. lia.
    - rewrite Mc, length_app. cbn. lia. }
  split; [exact Hok|]. intros n. destruct Hok as [Hv Hl Hcol]. unfold wire_chunk. rewrite Ms. cbn.
  unfold validate_chunk. cbn -[validate_code]. rewrite Hl, Hcol, Nat.eqb_refl. cbn -[validate_code].
  apply validate_code_verified in Hv. unfold chunk_tables in Hv. rewrite Mf, Ms, Mb in Hv.
  unfold wire_tables. rewrite Mb. cbn -[validate_code] in Hv |- *. by rewrite Hv.
Qed.
End nodes.

(** *** An example *)

Lemma compiled_code_verifies_witness :
  chunk_checked (chunk (emitter compiled_sample)) ∧
  ∀ n, (w ← wire_chunk (chunk (emitter compiled_sample)) []; validate_chunk n w) = Ok tt.
Proof.
  apply (@compiled_code_verifies sample_floats id (λ _, None) false 10 (Some sample_node)).
  vm_compute. reflexivity.
Defined.
