(* ===== verification/Token.v ===== *)
(** * Tokens ([harn-lexer/src/token.rs])

    The token kinds the parser sees and the keyword vocabulary. Where tokens
    come from, and the source spans they carry, is not modelled. *)

From Stdlib Require Import Strings.String.
From S2P Require Import Prelude Program.

(** [StringSegment], without the position of an interpolated expression. *)
Module StringSegment.
Inductive StringSegment :=
  | Literal (text : string)
  | Expression (text : string).
End StringSegment.

#[export] Instance string_segment_eq_dec : EqDecision StringSegment.StringSegment.
Proof. solve_decision. Defined.

Module TokenKind.
Inductive TokenKind :=
  | Pipeline | Extends | Override | Let | Const | Var | If | Else | For | In | Match | Retry
  | Parallel | Return | Import | True_ | False_ | Nil | Try | Catch | Throw | Throws | Finally
  | Fn | Spawn | While | TypeKw | Enum | Struct | Interface | Pub | Guard | Defer | Yield
  | Break | Continue | Impl
  | Identifier (name : string)
  | StringLiteral (value : string)
  | InterpolatedString (segments : list StringSegment.StringSegment)
  | RawStringLiteral (value : string)
  | IntLiteral (value : Z)
  | FloatLiteral (value : f64)
  | DurationLiteral (ms : N)
  | Eq | Neq | And | Or | Pipe | NilCoal | Pow | DotDot | DotDotEq | QuestionDot | Arrow
  | Lte | Gte | PlusAssign | MinusAssign | StarAssign | SlashAssign | PercentAssign
  | Assign | Not | Dot | Plus | Minus | Star | Slash | Percent | Lt | Gt | Question | Bar | Amp
  | LBrace | RBrace | LParen | RParen | LBracket | RBracket | Comma | Colon | Semicolon | At
  | LineComment (text : string) (is_doc : bool)
  | BlockComment (text : string) (is_doc : bool)
  | Newline | Eof.

(** [std::mem::discriminant] *)
Definition discriminant (k : TokenKind) : N :=
  match k with
  | Pipeline => 0 | Extends => 1 | Override => 2 | Let => 3 | Const => 4 | Var => 5 | If => 6
  | Else => 7 | For => 8 | In => 9 | Match => 10 | Retry => 11 | Parallel => 12 | Return => 13
  | Import => 14 | True_ => 15 | False_ => 16 | Nil => 17 | Try => 18 | Catch => 19 | Throw => 20
  | Throws => 21 | Finally => 22 | Fn => 23 | Spawn => 24 | While => 25 | TypeKw => 26 | Enum => 27
  | Struct => 28 | Interface => 29 | Pub => 30 | Guard => 31 | Defer => 32 | Yield => 33
  | Break => 34 | Continue => 35 | Impl => 36 | Identifier _ => 37 | StringLiteral _ => 38
  | InterpolatedString _ => 39 | RawStringLiteral _ => 40 | IntLiteral _ => 41 | FloatLiteral _ => 42
  | DurationLiteral _ => 43 | Eq => 44 | Neq => 45 | And => 46 | Or => 47 | Pipe => 48 | NilCoal => 49
  | Pow => 50 | DotDot => 51 | DotDotEq => 52 | QuestionDot => 53 | Arrow => 54 | Lte => 55 | Gte => 56
  | PlusAssign => 57 | MinusAssign => 58 | StarAssign => 59 | SlashAssign => 60 | PercentAssign => 61
  | Assign => 62 | Not => 63 | Dot => 64 | Plus => 65 | Minus => 66 | Star => 67 | Slash => 68
  | Percent => 69 | Lt => 70 | Gt => 71 | Question => 72 | Bar => 73 | Amp => 74 | LBrace => 75
  | RBrace => 76 | LParen => 77 | RParen => 78 | LBracket => 79 | RBracket => 80 | Comma => 81
  | Colon => 82 | Semicolon => 83 | At => 84 | LineComment _ _ => 85 | BlockComment _ _ => 86
  | Newline => 87 | Eof => 88
  end%N.
End TokenKind.
Abbreviation TokenKind := TokenKind.TokenKind.

(** The comparison of [Parser::check]: by discriminant. *)
Definition same_kind (a b : TokenKind) : bool := (TokenKind.discriminant a =? TokenKind.discriminant b)%N.

(** The vocabulary [define_keyword_vocabulary!] declares. *)
Definition KEYWORD_TOKENS : list (string * TokenKind) :=
  [("break", TokenKind.Break); ("catch", TokenKind.Catch); ("const", TokenKind.Const);
   ("continue", TokenKind.Continue); ("defer", TokenKind.Defer); ("else", TokenKind.Else);
   ("enum", TokenKind.Enum); ("extends", TokenKind.Extends); ("finally", TokenKind.Finally);
   ("fn", TokenKind.Fn); ("for", TokenKind.For); ("guard", TokenKind.Guard); ("if", TokenKind.If);
   ("impl", TokenKind.Impl); ("import", TokenKind.Import); ("in", TokenKind.In);
   ("interface", TokenKind.Interface); ("let", TokenKind.Let); ("match", TokenKind.Match);
   ("override", TokenKind.Override); ("parallel", TokenKind.Parallel); ("pipeline", TokenKind.Pipeline);
   ("pub", TokenKind.Pub); ("retry", TokenKind.Retry); ("return", TokenKind.Return);
   ("spawn", TokenKind.Spawn); ("struct", TokenKind.Struct); ("throw", TokenKind.Throw);
   ("throws", TokenKind.Throws); ("try", TokenKind.Try); ("type", TokenKind.TypeKw);
   ("var", TokenKind.Var); ("while", TokenKind.While); ("yield", TokenKind.Yield);
   ("false", TokenKind.False_); ("nil", TokenKind.Nil); ("true", TokenKind.True_)].

(** [keyword_token_kind] *)
Definition keyword_token_kind (value : string) : option TokenKind :=
  snd <$> find (λ k, String.eqb k.1 value) KEYWORD_TOKENS.

(** The token a word of identifier characters lexes to. *)
Definition word_token (word : string) : TokenKind :=
  default (TokenKind.Identifier word) (keyword_token_kind word).
