(* ===== verification/Syntax.v ===== *)
(** * Expressions ([harn-parser/src/ast.rs])

    The expression nodes the parser's precedence climbing builds and the
    formatter prints, without their spans. Nodes with blocks and patterns in
    them (closures, [if], [match], [try], concurrency) are left out. *)

From Stdlib Require Import Strings.String.
From S2P Require Import Prelude Program Operators Token.

Module Expr.
Inductive Expr :=
  | StringLiteral (value : string)
  | RawStringLiteral (value : string)
  | InterpolatedString (segments : list StringSegment.StringSegment)
  | IntLiteral (value : Z)
  | FloatLiteral (value : f64)
  | BoolLiteral (value : bool)
  | NilLiteral
  | DurationLiteral (ms : N)
  | Identifier (name : string)
  | BinaryOp (op : BinaryOperator.BinaryOperator) (left right : Expr)
  | UnaryOp (op : UnaryOperator) (operand : Expr)
  | Ternary (condition true_expr false_expr : Expr)
  | RangeExpr (start end_ : Expr) (inclusive : bool)
  | ListLiteral (elements : list Expr)
  | DictLiteral (entries : list (Expr * Expr))
  | Spread (inner : Expr)
  | FunctionCall (name : string) (type_args : list TypeExpr.TypeExpr) (args : list Expr)
  | ValueCall (callee : Expr) (args : list Expr)
  | MethodCall (object : Expr) (method : string) (args : list Expr)
  | OptionalMethodCall (object : Expr) (method : string) (args : list Expr)
  | PropertyAccess (object : Expr) (property : string)
  | OptionalPropertyAccess (object : Expr) (property : string)
  | SubscriptAccess (object index : Expr)
  | OptionalSubscriptAccess (object index : Expr)
  | SliceAccess (object : Expr) (start end_ : option Expr)
  | StructConstruct (struct_name : string) (fields : list (Expr * Expr))
  | TryOperator (operand : Expr)
  | NonNullAssert (operand : Expr).
End Expr.
Abbreviation Expr := Expr.Expr.

(** [Precedence::of_node] *)
Definition of_node (n : Expr) : Precedence.Precedence :=
  match n with
  | Expr.BinaryOp op _ _ => precedence op
  | Expr.UnaryOp _ _ => Precedence.Prefix
  | Expr.RangeExpr _ _ _ => Precedence.Range
  | Expr.Ternary _ _ _ => Precedence.Ternary
  | _ => Precedence.Postfix
  end.

(** ** Induction *)

Section expr_ind.
Context (P : Expr → Prop).
Hypothesis HString : ∀ s, P (Expr.StringLiteral s).
Hypothesis HRaw : ∀ s, P (Expr.RawStringLiteral s).
Hypothesis HInterpolated : ∀ s, P (Expr.InterpolatedString s).
Hypothesis HInt : ∀ z, P (Expr.IntLiteral z).
Hypothesis HFloat : ∀ f, P (Expr.FloatLiteral f).
Hypothesis HBool : ∀ b, P (Expr.BoolLiteral b).
Hypothesis HNil : P Expr.NilLiteral.
Hypothesis HDuration : ∀ ms, P (Expr.DurationLiteral ms).
Hypothesis HIdentifier : ∀ s, P (Expr.Identifier s).
Hypothesis HBinary : ∀ op l r, P l → P r → P (Expr.BinaryOp op l r).
Hypothesis HUnary : ∀ op e, P e → P (Expr.UnaryOp op e).
Hypothesis HTernary : ∀ c t f, P c → P t → P f → P (Expr.Ternary c t f).
Hypothesis HRange : ∀ s e i, P s → P e → P (Expr.RangeExpr s e i).
Hypothesis HList : ∀ es, Forall P es → P (Expr.ListLiteral es).
Hypothesis HDict : ∀ es, Forall (λ e, P e.1 ∧ P e.2) es → P (Expr.DictLiteral es).
Hypothesis HSpread : ∀ e, P e → P (Expr.Spread e).
Hypothesis HCall : ∀ f ts es, Forall P es → P (Expr.FunctionCall f ts es).
Hypothesis HValueCall : ∀ c es, P c → Forall P es → P (Expr.ValueCall c es).
Hypothesis HMethod : ∀ o m es, P o → Forall P es → P (Expr.MethodCall o m es).
Hypothesis HOptionalMethod : ∀ o m es, P o → Forall P es → P (Expr.OptionalMethodCall o m es).
Hypothesis HProperty : ∀ o p, P o → P (Expr.PropertyAccess o p).
Hypothesis HOptionalProperty : ∀ o p, P o → P (Expr.OptionalPropertyAccess o p).
Hypothesis HSubscript : ∀ o i, P o → P i → P (Expr.SubscriptAccess o i).
Hypothesis HOptionalSubscript : ∀ o i, P o → P i → P (Expr.OptionalSubscriptAccess o i).
Hypothesis HSlice : ∀ o s e, P o → (∀ x, s = Some x → P x) → (∀ x, e = Some x → P x) →
  P (Expr.SliceAccess o s e).
Hypothesis HStruct : ∀ s es, Forall (λ e, P e.1 ∧ P e.2) es → P (Expr.StructConstruct s es).
Hypothesis HTry : ∀ e, P e → P (Expr.TryOperator e).
Hypothesis HNonNull : ∀ e, P e → P (Expr.NonNullAssert e).

Fixpoint expr_ind (n : Expr) : P n :=
  let all := fix all es : Forall P es :=
    match es with [] => Forall_nil_2 _ | e :: es => Forall_cons_2 _ _ _ (expr_ind e) (all es) end in
  let entries := fix entries es : Forall (λ e, P e.1 ∧ P e.2) es :=
    match es with
    | [] => Forall_nil_2 _
    | (k, v) :: es => Forall_cons_2 (λ e, P e.1 ∧ P e.2) (k, v) es (conj (expr_ind k) (expr_ind v)) (entries es)
    end in
  let optional (o : option Expr) : ∀ x, o = Some x → P x :=
    match o with
    | None => λ x H, False_ind _ (eq_ind None (λ o, match o with None => True | Some _ => False end) I _ H)
    | Some y => λ x H, eq_ind (Some y) (λ o, match o with Some x => P x | None => True end) (expr_ind y) _ H
    end in
  match n with
  | Expr.StringLiteral s => HString s
  | Expr.RawStringLiteral s => HRaw s
  | Expr.InterpolatedString s => HInterpolated s
  | Expr.IntLiteral z => HInt z
  | Expr.FloatLiteral f => HFloat f
  | Expr.BoolLiteral b => HBool b
  | Expr.NilLiteral => HNil
  | Expr.DurationLiteral ms => HDuration ms
  | Expr.Identifier s => HIdentifier s
  | Expr.BinaryOp op l r => HBinary op l r (expr_ind l) (expr_ind r)
  | Expr.UnaryOp op e => HUnary op e (expr_ind e)
  | Expr.Ternary c t f => HTernary c t f (expr_ind c) (expr_ind t) (expr_ind f)
  | Expr.RangeExpr s e i => HRange s e i (expr_ind s) (expr_ind e)
  | Expr.ListLiteral es => HList es (all es)
  | Expr.DictLiteral es => HDict es (entries es)
  | Expr.Spread e => HSpread e (expr_ind e)
  | Expr.FunctionCall f ts es => HCall f ts es (all es)
  | Expr.ValueCall c es => HValueCall c es (expr_ind c) (all es)
  | Expr.MethodCall o m es => HMethod o m es (expr_ind o) (all es)
  | Expr.OptionalMethodCall o m es => HOptionalMethod o m es (expr_ind o) (all es)
  | Expr.PropertyAccess o p => HProperty o p (expr_ind o)
  | Expr.OptionalPropertyAccess o p => HOptionalProperty o p (expr_ind o)
  | Expr.SubscriptAccess o i => HSubscript o i (expr_ind o) (expr_ind i)
  | Expr.OptionalSubscriptAccess o i => HOptionalSubscript o i (expr_ind o) (expr_ind i)
  | Expr.SliceAccess o s e => HSlice o s e (expr_ind o) (optional s) (optional e)
  | Expr.StructConstruct s es => HStruct s es (entries es)
  | Expr.TryOperator e => HTry e (expr_ind e)
  | Expr.NonNullAssert e => HNonNull e (expr_ind e)
  end.
End expr_ind.
