(* ===== verification/ParserState.v ===== *)
(** * The parser's state ([harn-parser/src/parser/state.rs], [contextual.rs])

    A parser reads the tokens from its position on; the tokens before it matter
    to spans only. Nesting is counted down: a parser is given the parsers one
    level deeper, or none at the limit. *)

From Stdlib Require Import Strings.String.
From S2P Require Import Prelude Program Token.

(** ** Results *)

(** [ParserError] without its spans and the text of what it got;
    [NestingExceeded] is the [Unexpected] of [nesting_limit_error]. *)
Module ParserError.
Inductive ParserError :=
  | Unexpected (expected : string)
  | NestingExceeded (context : string)
  | UnexpectedEof (expected : string)
  | RemovedRangeSyntax.
End ParserError.
Abbreviation ParserError := ParserError.ParserError.

(** [Unsupported]: a construct outside this development. [Exhausted]: a loop
    ran out of the budget its tokens give it. *)
Inductive Parsed (A : Type) :=
  | Accepted (a : A) (rest : list TokenKind)
  | Rejected (e : ParserError)
  | Unsupported
  | Exhausted.
Arguments Accepted {A}.
Arguments Rejected {A}.
Arguments Unsupported {A}.
Arguments Exhausted {A}.

Definition Parser (A : Type) : Type := list TokenKind → Parsed A.

#[export] Instance parser_ret : MRet Parser := λ A a toks, Accepted a toks.
#[export] Instance parser_bind : MBind Parser := λ A B f p toks,
  match p toks with
  | Accepted a toks => f a toks
  | Rejected e => Rejected e
  | Unsupported => Unsupported
  | Exhausted => Exhausted
  end.

#[export] Instance parser_fmap : FMap Parser := λ A B f p, a ← p; mret (f a).

(** ** The cursor *)

(** [MAX_NESTING_DEPTH] *)
Definition MAX_NESTING_DEPTH : nat := 64.

(** [Parser::is_at_end] *)
Definition is_at_end (toks : list TokenKind) : bool :=
  match toks with [] | TokenKind.Eof :: _ => true | _ => false end.

(** [Parser::check] *)
Definition check (kind : TokenKind) (toks : list TokenKind) : bool :=
  match toks with k :: _ => same_kind k kind | [] => false end.

(** [Parser::skip_newlines] *)
Fixpoint skip_newlines (toks : list TokenKind) : list TokenKind :=
  match toks with TokenKind.Newline :: toks => skip_newlines toks | _ => toks end.

(** [Parser::check_skip_newlines]: the position moves on success only. *)
Definition check_skip_newlines (kind : TokenKind) (toks : list TokenKind) : option (list TokenKind) :=
  let toks := skip_newlines toks in if check kind toks then Some toks else None.

(** [Parser::check_identifier] *)
Definition check_identifier (name : string) (toks : list TokenKind) : bool :=
  match toks with TokenKind.Identifier s :: _ => String.eqb s name | _ => false end.

(** [Parser::advance] *)
Definition advance (toks : list TokenKind) : list TokenKind := tail toks.

(** [self.peek_kind_at(offset)] is a token of [kind]. *)
Definition peek_is (kind : TokenKind) (offset : nat) (toks : list TokenKind) : bool :=
  check kind (drop offset toks).

(** The tokens from the cursor on, and moving the cursor. *)
Definition look : Parser (list TokenKind) := λ toks, Accepted toks toks.
Definition move (f : list TokenKind → list TokenKind) : Parser unit := λ toks, Accepted tt (f toks).
Definition skip : Parser unit := move skip_newlines.
Definition next : Parser unit := move advance.

Definition fail {A} (e : ParserError) : Parser A := λ _, Rejected e.
Definition unsupported {A} : Parser A := λ _, Unsupported.
Definition exhausted {A} : Parser A := λ _, Exhausted.

(** [Parser::make_error] *)
Definition make_error (expected : string) (toks : list TokenKind) : ParserError :=
  match toks with
  | [] | TokenKind.Eof :: _ => ParserError.UnexpectedEof expected
  | _ => ParserError.Unexpected expected
  end.

Definition reject {A} (expected : string) : Parser A := λ toks, Rejected (make_error expected toks).

(** [Parser::consume] *)
Definition consume (kind : TokenKind) (expected : string) : Parser unit :=
  _ ← skip; toks ← look; if check kind toks then next else reject expected.

(** [Parser::consume_identifier] *)
Definition consume_identifier (expected : string) : Parser string :=
  _ ← skip; toks ← look;
  match toks with
  | TokenKind.Identifier name :: _ => _ ← next; mret name
  | _ => reject expected
  end.

(** The keywords [consume_identifier_or_keyword] takes as names. *)
Definition keyword_name (k : TokenKind) : option string :=
  match k with
  | TokenKind.Pipeline => Some "pipeline" | TokenKind.Extends => Some "extends"
  | TokenKind.Override => Some "override" | TokenKind.Let => Some "let"
  | TokenKind.Const => Some "const" | TokenKind.Var => Some "var" | TokenKind.If => Some "if"
  | TokenKind.Else => Some "else" | TokenKind.For => Some "for" | TokenKind.In => Some "in"
  | TokenKind.Match => Some "match" | TokenKind.Retry => Some "retry"
  | TokenKind.Parallel => Some "parallel" | TokenKind.Return => Some "return"
  | TokenKind.Import => Some "import" | TokenKind.True_ => Some "true"
  | TokenKind.False_ => Some "false" | TokenKind.Nil => Some "nil" | TokenKind.Try => Some "try"
  | TokenKind.Catch => Some "catch" | TokenKind.Throw => Some "throw"
  | TokenKind.Finally => Some "finally" | TokenKind.Fn => Some "fn" | TokenKind.Spawn => Some "spawn"
  | TokenKind.While => Some "while" | TokenKind.TypeKw => Some "type" | TokenKind.Enum => Some "enum"
  | TokenKind.Struct => Some "struct" | TokenKind.Interface => Some "interface"
  | TokenKind.Pub => Some "pub" | TokenKind.Guard => Some "guard" | TokenKind.Defer => Some "defer"
  | TokenKind.Yield => Some "yield" | TokenKind.Break => Some "break"
  | TokenKind.Continue => Some "continue" | TokenKind.Impl => Some "impl"
  | _ => None
  end.

(** [Parser::consume_identifier_or_keyword] *)
Definition consume_identifier_or_keyword (expected : string) : Parser string :=
  _ ← skip; toks ← look;
  match toks with
  | TokenKind.Identifier name :: _ => _ ← next; mret name
  | k :: _ => match keyword_name k with Some name => _ ← next; mret name | None => reject expected end
  | [] => reject expected
  end.

(** [if self.check(&Comma) { advance; skip_newlines }] after an item. *)
Definition skip_comma : Parser unit :=
  _ ← skip; toks ← look; if check TokenKind.Comma toks then _ ← next; skip else mret tt.

(** The loop over the items of a list literal, an argument list, a dictionary
    or a parameter list, to its closing token; commas may be left out. *)
Section items.
Context {A : Type} (close : TokenKind) (item : Parser A).
Fixpoint item_loop (fuel : nat) (items : list A) : Parser (list A) :=
  match fuel with
  | O => exhausted
  | S fuel =>
      toks ← look;
      if is_at_end toks || check close toks then mret items
      else x ← item; _ ← skip_comma; item_loop fuel (items ++ [x])
  end.
End items.

Definition parse_items {A} (close : TokenKind) (item : Parser A) : Parser (list A) :=
  _ ← skip; toks ← look; item_loop close item (S (length toks)) [].

Definition opens (k : TokenKind) : bool :=
  match k with TokenKind.LBrace | TokenKind.LBracket | TokenKind.LParen => true | _ => false end.
Definition closes (k : TokenKind) : bool :=
  match k with TokenKind.RBrace | TokenKind.RBracket | TokenKind.RParen => true | _ => false end.

(** [Parser::check_token_nesting_limit] *)
Fixpoint token_nesting_ok (depth : nat) (toks : list TokenKind) : bool :=
  match toks with
  | [] => true
  | k :: toks =>
      if opens k then (S depth <=? MAX_NESTING_DEPTH)%nat && token_nesting_ok (S depth) toks
      else if closes k then token_nesting_ok (pred depth) toks
      else token_nesting_ok depth toks
  end.

Definition check_token_nesting_limit : Parser unit := λ toks,
  if token_nesting_ok 0 toks then Accepted tt toks
  else Rejected (ParserError.NestingExceeded "source").

(** ** Contextual constructs *)

(** [paren_group_precedes_brace], from the opening parenthesis on. *)
Fixpoint paren_group_precedes_brace (depth : nat) (toks : list TokenKind) : bool :=
  match toks with
  | [] => false
  | k :: toks =>
      if opens k then paren_group_precedes_brace (S depth) toks
      else if closes k then
        if (pred depth =? 0)%nat then check TokenKind.LBrace toks
        else paren_group_precedes_brace (pred depth) toks
      else if same_kind k TokenKind.Eof then false
      else paren_group_precedes_brace depth toks
  end.

(** [continues_value_expression] *)
Definition continues_value_expression (k : TokenKind) : bool :=
  match k with
  | TokenKind.Newline | TokenKind.Eof | TokenKind.Semicolon | TokenKind.Comma | TokenKind.Colon
  | TokenKind.RParen | TokenKind.RBracket | TokenKind.RBrace | TokenKind.Dot | TokenKind.QuestionDot
  | TokenKind.Question | TokenKind.Assign | TokenKind.PlusAssign | TokenKind.MinusAssign
  | TokenKind.StarAssign | TokenKind.SlashAssign | TokenKind.PercentAssign | TokenKind.Eq
  | TokenKind.Neq | TokenKind.And | TokenKind.Or | TokenKind.Pipe | TokenKind.NilCoal | TokenKind.Pow
  | TokenKind.Lt | TokenKind.Gt | TokenKind.Lte | TokenKind.Gte | TokenKind.Plus | TokenKind.Star
  | TokenKind.Slash | TokenKind.Percent | TokenKind.In | TokenKind.DotDot | TokenKind.DotDotEq
  | TokenKind.LineComment _ _ | TokenKind.BlockComment _ _ => true
  | _ => false
  end.

(** [introduces_construct]: does the identifier [name] at the cursor begin its
    construct? *)
Definition introduces_construct (name : string) (toks : list TokenKind) : bool :=
  if negb (check_identifier name toks) then false
  else
    let next := advance toks in
    let next_is (k : TokenKind) := check k next in
    if existsb (String.eqb name) ["select"; "scope"; "block"; "cost_route"] then next_is TokenKind.LBrace
    else if existsb (String.eqb name) ["tool"; "skill"; "eval_pack"] then next_is (TokenKind.Identifier "")
    else if String.eqb name "mutex" then
      next_is TokenKind.LBrace || (next_is TokenKind.LParen && paren_group_precedes_brace 0 next)
    else if String.eqb name "deadline" then
      next_is (TokenKind.DurationLiteral 0) || next_is (TokenKind.IntLiteral 0) ||
      next_is (TokenKind.FloatLiteral 0) || next_is (TokenKind.Identifier "") || (next_is TokenKind.LParen && paren_group_precedes_brace 0 next)
    else if existsb (String.eqb name) ["require"; "emit"] then
      match next with k :: _ => negb (continues_value_expression k) | [] => false end
    else false.
