(* ===== verification/TypeParser.v ===== *)
(** * Parsing type expressions ([harn-parser/src/parser/types.rs])

    [parse_type_expr] and what it calls; a nested type is read by the parser
    one nesting level deeper. *)

From Stdlib Require Import Strings.String.
From S2P Require Import Prelude Program Token ParserState.

(** ** Unions *)

Definition is_nil_named (t : TypeExpr.TypeExpr) : bool :=
  match t with TypeExpr.Named n => String.eqb n "nil" | _ => false end.

(** [wrap_optional] *)
Definition wrap_optional (t : TypeExpr.TypeExpr) : TypeExpr.TypeExpr :=
  if is_nil_named t then t
  else
    let optional := TypeExpr.Union [t; TypeExpr.Named "nil"] in
    match t with
    | TypeExpr.Union members => if existsb is_nil_named members then t else optional
    | _ => optional
    end.

(** [flatten_union_into] *)
Fixpoint flatten_union (t : TypeExpr.TypeExpr) : list TypeExpr.TypeExpr :=
  match t with
  | TypeExpr.Union members => flat_map flatten_union members
  | other => [other]
  end.

(** [dedupe_in_order]; [seen] is in the order of [Vec::push]. *)
Fixpoint dedupe_in_order (seen types : list TypeExpr.TypeExpr) : list TypeExpr.TypeExpr :=
  match types with
  | [] => []
  | t :: types =>
      if existsb (λ s, type_expr_eqb s t) seen then dedupe_in_order seen types
      else t :: dedupe_in_order (seen ++ [t]) types
  end.

(** [attach_optional_postfix] *)
Fixpoint attach_optional_postfix (t : TypeExpr.TypeExpr) (toks : list TokenKind)
    {struct toks} : Parsed TypeExpr.TypeExpr :=
  match toks with
  | TokenKind.Question :: toks => attach_optional_postfix (wrap_optional t) toks
  | _ => Accepted t toks
  end.

(** The constructor an applied name stands for. *)
Definition applied_type (name : string) (args : list TypeExpr.TypeExpr) : TypeExpr.TypeExpr :=
  match args with
  | [t] =>
      if String.eqb name "list" then TypeExpr.List t
      else if String.eqb name "tuple" then TypeExpr.Tuple args
      else if String.eqb name "iter" || String.eqb name "Iter" then TypeExpr.Iter t
      else if String.eqb name "Generator" || String.eqb name "generator" then TypeExpr.Generator t
      else if String.eqb name "Stream" || String.eqb name "stream" then TypeExpr.Stream t
      else if String.eqb name "owned" then TypeExpr.Owned t
      else TypeExpr.Applied name args
  | _ =>
      if String.eqb name "tuple" then TypeExpr.Tuple args
      else match args with
           | [k; v] => if String.eqb name "dict" then TypeExpr.DictType k v else TypeExpr.Applied name args
           | _ => TypeExpr.Applied name args
           end
  end.

Section types.
(** [parse_nested_type_expr] *)
Context (nested_type : string → Parser TypeExpr.TypeExpr).

(** ** Lists of types *)

(** The loop of [parse_type_arg_list]. *)
Fixpoint type_arg_loop (fuel : nat) (args : list TypeExpr.TypeExpr) : Parser (list TypeExpr.TypeExpr) :=
  match fuel with
  | O => exhausted
  | S fuel =>
      toks ← look;
      if is_at_end toks || check TokenKind.Gt toks then mret args
      else
        t ← nested_type "type argument";
        _ ← skip; toks ← look;
        if check TokenKind.Comma toks then
          _ ← next; _ ← skip; toks ← look;
          if check TokenKind.Gt toks || is_at_end toks then reject "type argument"
          else type_arg_loop fuel (args ++ [t])
        else mret (args ++ [t])
  end.

(** [parse_type_arg_list] *)
Definition parse_type_arg_list : Parser (list TypeExpr.TypeExpr) :=
  _ ← skip; toks ← look;
  if check TokenKind.Gt toks then reject "type argument"
  else
    args ← type_arg_loop (S (length toks)) [];
    _ ← consume TokenKind.Gt ">";
    mret args.

(** ** Shapes *)

(** [at_ellipsis] *)
Definition at_ellipsis (toks : list TokenKind) : bool :=
  check TokenKind.Dot toks && peek_is TokenKind.Dot 1 toks && peek_is TokenKind.Dot 2 toks.

(** A field of a shape type. *)
Definition parse_shape_field : Parser (ShapeField TypeExpr.TypeExpr) :=
  name ← consume_identifier_or_keyword "field name";
  toks ← look;
  let optional := check TokenKind.Question toks in
  _ ← (if optional then next else mret tt);
  _ ← consume TokenKind.Colon ":";
  t ← nested_type "shape field type";
  mret (mkShapeField name t optional).

Fixpoint shape_loop (fuel : nat) (fields : list (ShapeField TypeExpr.TypeExpr))
    (rests : list TypeExpr.TypeExpr)
    : Parser (list (ShapeField TypeExpr.TypeExpr) * list TypeExpr.TypeExpr) :=
  match fuel with
  | O => exhausted
  | S fuel =>
      toks ← look;
      if is_at_end toks || check TokenKind.RBrace toks then mret (fields, rests)
      else if at_ellipsis toks then
        _ ← move (drop 3); t ← nested_type "row tail"; _ ← skip_comma;
        shape_loop fuel fields (rests ++ [t])
      else
        f ← parse_shape_field; _ ← skip_comma;
        shape_loop fuel (fields ++ [f]) rests
  end.

(** [parse_shape_type] *)
Definition parse_shape_type : Parser TypeExpr.TypeExpr :=
  _ ← consume TokenKind.LBrace "{";
  _ ← skip; toks ← look;
  r ← shape_loop (S (length toks)) [] [];
  _ ← consume TokenKind.RBrace "}";
  mret match r.2 with [] => TypeExpr.Shape r.1 | _ => TypeExpr.OpenShape r.1 r.2 end.

(** ** Types *)

(** The function type at [fn]. *)
Definition parse_fn_type : Parser TypeExpr.TypeExpr :=
  _ ← next;
  _ ← consume TokenKind.LParen "(";
  params ← parse_items TokenKind.RParen (nested_type "function parameter type");
  _ ← consume TokenKind.RParen ")";
  _ ← consume TokenKind.Arrow "->";
  return_type ← nested_type "function return type";
  mret (TypeExpr.FnType params return_type).

(** A named type and its arguments. *)
Definition parse_named_type : Parser TypeExpr.TypeExpr :=
  name ← consume_identifier "type name";
  toks ← look;
  if String.eqb name "never" then mret TypeExpr.Never
  else if check TokenKind.Lt toks then
    _ ← next; toks ← look;
    if String.eqb name "tuple" && check TokenKind.Gt toks then _ ← next; mret (TypeExpr.Tuple [])
    else args ← parse_type_arg_list; mret (applied_type name args)
  else mret (TypeExpr.Named name).

(** [parse_type_primary_base]; the negation of a literal does not overflow, since
    no token holds [i64::MIN]. *)
Definition parse_type_primary_base : Parser TypeExpr.TypeExpr :=
  _ ← skip; toks ← look;
  match toks with
  | TokenKind.LBrace :: _ => parse_shape_type
  | TokenKind.LBracket :: _ =>
      _ ← next; inner ← nested_type "list type"; _ ← consume TokenKind.RBracket "]";
      mret (TypeExpr.List inner)
  | TokenKind.Nil :: _ => _ ← next; mret (TypeExpr.Named "nil")
  | (TokenKind.True_ | TokenKind.False_) :: _ => _ ← next; mret (TypeExpr.Named "bool")
  | (TokenKind.StringLiteral text | TokenKind.RawStringLiteral text) :: _ =>
      _ ← next; mret (TypeExpr.LitString text)
  | TokenKind.IntLiteral value :: _ => _ ← next; mret (TypeExpr.LitInt value)
  | TokenKind.Minus :: TokenKind.IntLiteral v :: _ => _ ← next; _ ← next; mret (TypeExpr.LitInt (- v))
  | TokenKind.Fn :: _ => parse_fn_type
  | _ => parse_named_type
  end.

(** [parse_type_primary] *)
Definition parse_type_primary : Parser TypeExpr.TypeExpr :=
  base ← parse_type_primary_base; attach_optional_postfix base.

(** The operands after each [separator]. *)
Fixpoint type_operand_loop (operand : Parser TypeExpr.TypeExpr) (separator : TokenKind) (fuel : nat)
    (types : list TypeExpr.TypeExpr) : Parser (list TypeExpr.TypeExpr) :=
  match fuel with
  | O => exhausted
  | S fuel =>
      toks ← look;
      if check separator toks then
        _ ← next; t ← operand; type_operand_loop operand separator fuel (types ++ [t])
      else mret types
  end.

(** [parse_type_intersection] *)
Definition parse_type_intersection : Parser TypeExpr.TypeExpr :=
  first ← parse_type_primary;
  toks ← look;
  if check TokenKind.Amp toks then
    types ← type_operand_loop parse_type_primary TokenKind.Amp (S (length toks)) [first];
    mret (TypeExpr.Intersection types)
  else mret first.

(** [parse_type_expr] *)
Definition parse_type_expr : Parser TypeExpr.TypeExpr :=
  _ ← skip;
  first ← parse_type_intersection;
  toks ← look;
  if check TokenKind.Bar toks then
    types ← type_operand_loop parse_type_intersection TokenKind.Bar (S (length toks)) [first];
    mret match dedupe_in_order [] (flat_map flatten_union types) with
         | [t] => t
         | types => TypeExpr.Union types
         end
  else mret first.
End types.
