(* ===== verification/Parser.v ===== *)
(** * Parsing expressions ([parser/expressions.rs], [postfix.rs], [precedence.rs])

    Recursive descent with precedence climbing on an operator ladder. Every
    recursion of the source passes [with_nesting] and so is structural on the
    levels that are left; loops are given one more step than they have tokens. *)

From Stdlib Require Import Strings.String.
From S2P Require Import Prelude Program Operators Token Syntax ParserState TypeParser.

(** ** Lookahead *)

(** [token_starts_ternary_branch] *)
Definition token_starts_ternary_branch (k : TokenKind) : bool :=
  match k with
  | TokenKind.Identifier _ | TokenKind.IntLiteral _ | TokenKind.FloatLiteral _
  | TokenKind.StringLiteral _ | TokenKind.RawStringLiteral _ | TokenKind.InterpolatedString _
  | TokenKind.True_ | TokenKind.False_ | TokenKind.Nil | TokenKind.LParen | TokenKind.LBracket
  | TokenKind.LBrace | TokenKind.Not | TokenKind.Minus | TokenKind.Fn | TokenKind.If
  | TokenKind.Match | TokenKind.Try | TokenKind.Spawn | TokenKind.Parallel | TokenKind.Retry
  | TokenKind.DurationLiteral _ => true
  | _ => false
  end.

(** [next_non_newline_continues_ternary_branch] *)
Definition continues_ternary_branch (toks : list TokenKind) : bool :=
  match skip_newlines toks with
  | (TokenKind.Colon | TokenKind.Plus | TokenKind.Star | TokenKind.Slash | TokenKind.Percent
    | TokenKind.Pow | TokenKind.And | TokenKind.Or | TokenKind.Eq | TokenKind.Neq | TokenKind.Lt
    | TokenKind.Gt | TokenKind.Lte | TokenKind.Gte | TokenKind.NilCoal | TokenKind.Pipe
    | TokenKind.Dot | TokenKind.QuestionDot) :: _ => true
  | _ => false
  end.

(** The loop of [question_has_top_level_ternary_colon]. *)
Fixpoint ternary_colon (depth : nat) (at_branch_start : bool) (toks : list TokenKind) : bool :=
  match toks with
  | [] => false
  | k :: toks =>
      let bracket (at_branch_start : bool) :=
        if opens k then ternary_colon (S depth) at_branch_start toks
        else if closes k then ternary_colon (pred depth) at_branch_start toks
        else if same_kind k TokenKind.Eof then false
        else ternary_colon depth at_branch_start toks in
      if (depth =? 0)%nat then
        match k with
        | TokenKind.Colon => true
        | TokenKind.Newline =>
            if at_branch_start || continues_ternary_branch toks then ternary_colon depth at_branch_start toks
            else false
        | TokenKind.RParen | TokenKind.RBracket | TokenKind.RBrace | TokenKind.Eof => false
        | _ => bracket false
        end
      else bracket at_branch_start
  end.

(** [question_starts_ternary_branch], of the tokens after the question mark. *)
Definition question_starts_ternary_branch (toks : list TokenKind) : bool :=
  match skip_newlines toks with
  | k :: _ => token_starts_ternary_branch k && ternary_colon 0 true toks
  | [] => false
  end.

(** [is_closure_lookahead] *)
Fixpoint is_closure_lookahead (depth : nat) (toks : list TokenKind) : bool :=
  match toks with
  | [] => false
  | k :: toks =>
      if same_kind k TokenKind.Eof then false
      else if same_kind k TokenKind.Arrow && (depth =? 0)%nat then true
      else if opens k then is_closure_lookahead (S depth) toks
      else if same_kind k TokenKind.RBrace && (depth =? 0)%nat then false
      else if closes k then is_closure_lookahead (pred depth) toks
      else is_closure_lookahead depth toks
  end.

(** [char::is_uppercase] of the first character, for ASCII; [unicode_uppercase]
    is Unicode's table for the rest. *)
Definition starts_uppercase (unicode_uppercase : string → bool) (name : string) : bool :=
  match as_bytes name with
  | [] => false
  | b :: _ => if (b2n b <? 128)%N then ((65 <=? b2n b) && (b2n b <=? 90))%N else unicode_uppercase name
  end.

Section parser.
Context (unicode_uppercase : string → bool).

(** [is_struct_construct_lookahead], from the opening brace on. *)
Definition is_struct_construct_lookahead (struct_name : string) (toks : list TokenKind) : bool :=
  starts_uppercase unicode_uppercase struct_name &&
  match skip_newlines (drop 1 toks) with
  | TokenKind.RBrace :: _ => true
  | (TokenKind.Identifier _ | TokenKind.StringLiteral _) :: toks =>
      check TokenKind.Colon (skip_newlines toks)
  | _ => false
  end.

(** The parsers one nesting level deeper. *)
Record Level := mkLevel {
  level_expression : Parser Expr;
  level_ternary : Parser Expr;
  level_unary : Parser Expr;
  level_type : Parser TypeExpr.TypeExpr
}.

Section level.
Context (grammar : OperatorGrammar) (inner : option Level).

(** [with_nesting] *)
Definition with_nesting {A} (context : string) (f : Level → Parser A) : Parser A :=
  match inner with
  | Some l => f l
  | None => fail (ParserError.NestingExceeded context)
  end.

Definition parse_nested_expression (context : string) : Parser Expr := with_nesting context level_expression.
Definition parse_nested_type_expr (context : string) : Parser TypeExpr.TypeExpr :=
  with_nesting context level_type.

(** ** Sequences *)

(** An element of a list or an argument, spread or not. *)
Definition parse_element (spread element : string) : Parser Expr :=
  toks ← look;
  if check TokenKind.Dot toks && check TokenKind.Dot (advance toks) then
    _ ← next; _ ← next; _ ← consume TokenKind.Dot ".";
    Expr.Spread <$> parse_nested_expression spread
  else parse_nested_expression element.

(** [parse_arg_list] *)
Definition parse_arg_list : Parser (list Expr) :=
  parse_items TokenKind.RParen (parse_element "spread argument" "argument").

(** Arguments and the closing parenthesis, after the opening one. *)
Definition parse_args : Parser (list Expr) :=
  args ← parse_arg_list; _ ← consume TokenKind.RParen ")"; mret args.

(** [parse_list_literal] *)
Definition parse_list_literal : Parser Expr :=
  _ ← consume TokenKind.LBracket "[";
  elements ← parse_items TokenKind.RBracket (parse_element "list spread" "list element");
  _ ← consume TokenKind.RBracket "]";
  mret (Expr.ListLiteral elements).

(** *** Dictionaries *)

Definition parse_dict_key : Parser Expr :=
  toks ← look;
  match toks with
  | TokenKind.LBracket :: _ =>
      _ ← next; k ← parse_nested_expression "computed dict key"; _ ← consume TokenKind.RBracket "]"; mret k
  | TokenKind.StringLiteral s :: _ => _ ← next; mret (Expr.StringLiteral s)
  | _ => Expr.StringLiteral <$> consume_identifier_or_keyword "dict key"
  end.

(** One entry; a spread has [nil] for its key. *)
Definition parse_dict_entry : Parser (Expr * Expr) :=
  toks ← look;
  if at_ellipsis toks then
    _ ← move (drop 3); e ← parse_nested_expression "dict spread"; mret (Expr.NilLiteral, Expr.Spread e)
  else
    key ← parse_dict_key;
    _ ← consume TokenKind.Colon ":";
    value ← parse_nested_expression "dict value";
    mret (key, value).

(** [parse_dict_entries] *)
Definition parse_dict_entries : Parser (list (Expr * Expr)) :=
  entries ← parse_items TokenKind.RBrace parse_dict_entry;
  _ ← consume TokenKind.RBrace "}";
  mret entries.

(** [parse_dict_or_closure]; closures are outside the model. *)
Definition parse_dict_or_closure : Parser Expr :=
  _ ← consume TokenKind.LBrace "{";
  _ ← skip; toks ← look;
  if check TokenKind.RBrace toks then _ ← next; mret (Expr.DictLiteral [])
  else if is_closure_lookahead 0 toks then unsupported
  else Expr.DictLiteral <$> parse_dict_entries.

(** ** Primaries *)

(** [parse_primary]; constructs with blocks in them are outside the model. *)
Definition parse_primary : Parser Expr :=
  toks ← look;
  match toks with
  | [] => fail (ParserError.UnexpectedEof "expression")
  | TokenKind.StringLiteral s :: _ => _ ← next; mret (Expr.StringLiteral s)
  | TokenKind.RawStringLiteral s :: _ => _ ← next; mret (Expr.RawStringLiteral s)
  | TokenKind.InterpolatedString segments :: _ => _ ← next; mret (Expr.InterpolatedString segments)
  | TokenKind.IntLiteral n :: _ => _ ← next; mret (Expr.IntLiteral n)
  | TokenKind.FloatLiteral n :: _ => _ ← next; mret (Expr.FloatLiteral n)
  | TokenKind.True_ :: _ => _ ← next; mret (Expr.BoolLiteral true)
  | TokenKind.False_ :: _ => _ ← next; mret (Expr.BoolLiteral false)
  | TokenKind.Nil :: _ => _ ← next; mret Expr.NilLiteral
  | TokenKind.Identifier name :: _ =>
      if (String.eqb name "cost_route" && introduces_construct "cost_route" toks) ||
         (String.eqb name "deadline" && introduces_construct "deadline" toks) then unsupported
      else _ ← next; mret (Expr.Identifier name)
  | TokenKind.LParen :: _ =>
      _ ← next;
      with_nesting "parenthesized expression" (λ l,
        e ← level_expression l; _ ← consume TokenKind.RParen ")"; mret e)
  | TokenKind.LBracket :: _ => parse_list_literal
  | TokenKind.LBrace :: _ => parse_dict_or_closure
  | TokenKind.DurationLiteral ms :: _ => _ ← next; mret (Expr.DurationLiteral ms)
  | (TokenKind.Parallel | TokenKind.Retry | TokenKind.If | TokenKind.Spawn | TokenKind.Try
    | TokenKind.Match | TokenKind.Fn) :: _ => unsupported
  | _ => reject "expression"
  end.

(** ** Postfix operators *)

(** After [.] or [?.]: a member, a call of it or an optional subscript. *)
Definition parse_member (object : Expr) : Parser Expr :=
  toks ← look;
  let optional := check TokenKind.QuestionDot toks in
  _ ← next; toks ← look;
  if optional && check TokenKind.LBracket toks then
    _ ← next; index ← parse_nested_expression "optional subscript index";
    _ ← consume TokenKind.RBracket "]";
    mret (Expr.OptionalSubscriptAccess object index)
  else
    member ← consume_identifier_or_keyword "member name";
    toks ← look;
    if check TokenKind.LParen toks then
      _ ← next; args ← parse_args;
      mret (if optional then Expr.OptionalMethodCall object member args
            else Expr.MethodCall object member args)
    else
      mret (if optional then Expr.OptionalPropertyAccess object member
            else Expr.PropertyAccess object member).

(** The end of a slice, after its colon. *)
Definition parse_slice_end : Parser (option Expr) :=
  toks ← look;
  end_ ← (if check TokenKind.RBracket toks then mret None
          else Some <$> parse_nested_expression "slice bound");
  _ ← consume TokenKind.RBracket "]";
  mret end_.

(** A subscript or a slice, at its bracket. *)
Definition parse_subscript (object : Expr) : Parser Expr :=
  _ ← next; toks ← look;
  if check TokenKind.Colon toks then
    _ ← next; end_ ← parse_slice_end; mret (Expr.SliceAccess object None end_)
  else
    index ← parse_nested_expression "subscript index";
    toks ← look;
    if check TokenKind.Colon toks then
      _ ← next; end_ ← parse_slice_end; mret (Expr.SliceAccess object (Some index) end_)
    else
      _ ← consume TokenKind.RBracket "]"; mret (Expr.SubscriptAccess object index).

(** A generic call [f<T>(..)] at its [<], or nothing when what follows is not
    one; an error after the parenthesis is an error. *)
Definition parse_generic_call (name : string) : Parser (option Expr) := λ toks,
  match parse_type_arg_list parse_nested_type_expr (advance toks) with
  | Accepted type_args after =>
      if check TokenKind.LParen after then
        (args ← (_ ← next; parse_args); mret (Some (Expr.FunctionCall name type_args args))) after
      else Accepted None toks
  | Rejected _ => Accepted None toks
  | Unsupported => Unsupported
  | Exhausted => Exhausted
  end.

Definition call_of (callee : Expr) (args : list Expr) : Expr :=
  match callee with
  | Expr.Identifier name => Expr.FunctionCall name [] args
  | _ => Expr.ValueCall callee args
  end.

(** One turn of the loop of [parse_postfix_suffixes]; [None] is its [break]. *)
Definition parse_suffix (expr : Expr) : Parser (option Expr) :=
  toks ← look;
  match check_skip_newlines TokenKind.Dot toks, check_skip_newlines TokenKind.QuestionDot toks with
  | Some at_, _ | None, Some at_ => _ ← move (λ _, at_); Some <$> parse_member expr
  | None, None =>
      match toks with
      | TokenKind.LBracket :: _ => Some <$> parse_subscript expr
      | TokenKind.LBrace :: _ =>
          match expr with
          | Expr.Identifier name =>
              if is_struct_construct_lookahead name toks then
                _ ← next; fields ← parse_dict_entries; mret (Some (Expr.StructConstruct name fields))
              else mret None
          | _ => mret None
          end
      | TokenKind.Lt :: _ =>
          match expr with Expr.Identifier name => parse_generic_call name | _ => mret None end
      | TokenKind.LParen :: _ => _ ← next; args ← parse_args; mret (Some (call_of expr args))
      | TokenKind.Question :: after =>
          if question_starts_ternary_branch after then mret None
          else if check TokenKind.LBracket after then
            _ ← next; _ ← next; index ← parse_nested_expression "optional subscript index";
            _ ← consume TokenKind.RBracket "]";
            mret (Some (Expr.OptionalSubscriptAccess expr index))
          else _ ← next; mret (Some (Expr.TryOperator expr))
      | TokenKind.Not :: _ => _ ← next; mret (Some (Expr.NonNullAssert expr))
      | _ => mret None
      end
  end.

(** [parse_postfix_suffixes] *)
Fixpoint parse_postfix_suffixes (fuel : nat) (expr : Expr) : Parser Expr :=
  match fuel with
  | O => exhausted
  | S fuel =>
      s ← parse_suffix expr;
      match s with Some expr => parse_postfix_suffixes fuel expr | None => mret expr end
  end.

(** [parse_postfix] *)
Definition parse_postfix : Parser Expr :=
  e ← parse_primary; toks ← look; parse_postfix_suffixes (S (length toks)) e.

(** ** Prefix operators and powers *)

(** [parse_exponent] *)
Definition parse_exponent : Parser Expr :=
  left_ ← parse_postfix;
  toks ← look;
  match check_skip_newlines TokenKind.Pow toks with
  | None => mret left_
  | Some at_ =>
      _ ← move (λ _, at_); _ ← next; _ ← skip;
      right_ ← with_nesting "exponent expression" level_unary;
      mret (Expr.BinaryOp BinaryOperator.Pow left_ right_)
  end.

(** [parse_unary_expression] *)
Definition parse_unary_expression : Parser Expr :=
  toks ← look;
  let prefix (op : UnaryOperator) :=
    _ ← next; operand ← with_nesting "unary expression" level_unary; mret (Expr.UnaryOp op operand) in
  if check TokenKind.Not toks then prefix Not
  else if check TokenKind.Minus toks then prefix Neg
  else parse_exponent.

(** ** Binary operators *)

(** [binary_operator_token] *)
Definition binary_operator_token (op : BinaryOperator.BinaryOperator) : TokenKind :=
  match op with
  | BinaryOperator.Pipe => TokenKind.Pipe
  | BinaryOperator.Or => TokenKind.Or
  | BinaryOperator.And => TokenKind.And
  | BinaryOperator.Eq => TokenKind.Eq
  | BinaryOperator.Neq => TokenKind.Neq
  | BinaryOperator.Lt => TokenKind.Lt
  | BinaryOperator.Gt => TokenKind.Gt
  | BinaryOperator.Lte => TokenKind.Lte
  | BinaryOperator.Gte => TokenKind.Gte
  | BinaryOperator.In | BinaryOperator.NotIn => TokenKind.In
  | BinaryOperator.NilCoalesce => TokenKind.NilCoal
  | BinaryOperator.Add => TokenKind.Plus
  | BinaryOperator.Sub => TokenKind.Minus
  | BinaryOperator.Mul => TokenKind.Star
  | BinaryOperator.Div => TokenKind.Slash
  | BinaryOperator.Mod => TokenKind.Percent
  | BinaryOperator.Pow => TokenKind.Pow
  end.

(** The position of [op], if it comes next. *)
Definition operator_at (op : BinaryOperator.BinaryOperator) (toks : list TokenKind)
    : option (list TokenKind) :=
  let here (found : bool) := if found then Some toks else None in
  match op with
  | BinaryOperator.In => here (check TokenKind.In toks)
  | BinaryOperator.NotIn => here (check_identifier "not" toks && peek_is TokenKind.In 1 toks)
  | _ =>
      let kind := binary_operator_token op in
      if continues_across_newline op then check_skip_newlines kind toks else here (check kind toks)
  end.

(** [check_binary_operator] *)
Definition check_binary_operator (group : Precedence.Precedence) (toks : list TokenKind)
    : option (BinaryOperator.BinaryOperator * list TokenKind) :=
  head (omap (λ op, if decide (precedence op = group) then (λ at_, (op, at_)) <$> operator_at op toks
                    else None) BinaryOperator.ALL).

Section climb.
(** The operands of a group: the parser of the next tighter one. *)
Context (operand : Parser Expr).

(** The loop of [parse_binary_group]. *)
Fixpoint binary_loop (group : Precedence.Precedence) (fuel : nat) (left_ : Expr) : Parser Expr :=
  match fuel with
  | O => exhausted
  | S fuel =>
      toks ← look;
      match check_binary_operator group toks with
      | None => mret left_
      | Some (op, at_) =>
          _ ← move (λ _, at_); _ ← next;
          _ ← (if decide (op = BinaryOperator.NotIn) then next else mret tt);
          _ ← skip;
          right_ ← operand;
          binary_loop group fuel (Expr.BinaryOp op left_ right_)
      end
  end.

(** [parse_binary_group] *)
Definition parse_binary_group (group : Precedence.Precedence) : Parser Expr :=
  left_ ← operand; toks ← look; binary_loop group (S (length toks)) left_.

Inductive RangeSpelling := Exclusive | Inclusive | LegacyTo.

(** [check_range_operator] *)
Definition check_range_operator (toks : list TokenKind)
    : ParserError + option (RangeSpelling * list TokenKind) :=
  match check_skip_newlines TokenKind.DotDot toks, check_skip_newlines TokenKind.DotDotEq toks with
  | Some at_, _ => inr (Some (Exclusive, at_))
  | None, Some at_ => inr (Some (Inclusive, at_))
  | None, None =>
      if check_identifier "to" toks then
        if legacy_ranges grammar then inr (Some (LegacyTo, toks)) else inl ParserError.RemovedRangeSyntax
      else inr None
  end.

(** Whether a range includes its end; [exclusive] ends the legacy spelling. *)
Definition range_inclusive (spelling : RangeSpelling) : Parser bool :=
  match spelling with
  | Exclusive => mret false
  | Inclusive => mret true
  | LegacyTo =>
      toks ← look;
      if check_identifier "exclusive" toks then _ ← next; mret false else mret true
  end.

(** [parse_range] *)
Definition parse_range : Parser Expr :=
  left_ ← operand;
  toks ← look;
  match check_range_operator toks with
  | inl e => fail e
  | inr None => mret left_
  | inr (Some (spelling, at_)) =>
      _ ← move (λ _, at_); _ ← next; _ ← skip;
      right_ ← operand;
      inclusive ← range_inclusive spelling;
      toks ← look;
      if check TokenKind.DotDot toks || check TokenKind.DotDotEq toks then
        reject "end of range; parenthesize a range used as a range bound"
      else mret (Expr.RangeExpr left_ right_ inclusive)
  end.

(** [parse_ternary] *)
Definition parse_ternary : Parser Expr :=
  condition ← operand;
  toks ← look;
  match check_skip_newlines TokenKind.Question toks with
  | None => mret condition
  | Some at_ =>
      _ ← move (λ _, at_); _ ← next; _ ← skip;
      true_expr ← with_nesting "ternary expression" level_ternary;
      _ ← consume TokenKind.Colon ":"; _ ← skip;
      false_expr ← with_nesting "ternary expression" level_ternary;
      mret (Expr.Ternary condition true_expr false_expr)
  end.
End climb.

(** [parse_precedence], of the groups of a ladder from one on. *)
Fixpoint climb (groups : list Precedence.Precedence) : Parser Expr :=
  match groups with
  | [] => parse_postfix
  | group :: tighter =>
      match group with
      | Precedence.Ternary => parse_ternary (climb tighter)
      | Precedence.Range => parse_range (climb tighter)
      | Precedence.Prefix => parse_unary_expression
      | Precedence.Exponent => parse_exponent
      | Precedence.Postfix => parse_postfix
      | binary => parse_binary_group (climb tighter) binary
      end
  end.

(** The groups of the ladder from [group] on. *)
Definition groups_from (group : Precedence.Precedence) : list Precedence.Precedence :=
  match Precedence.position group (ladder grammar) with
  | Some index => drop index (ladder grammar)
  | None => []
  end.

Definition parse_precedence (group : Precedence.Precedence) : Parser Expr := climb (groups_from group).

(** [parse_expression] *)
Definition parse_expression : Parser Expr := _ ← skip; parse_precedence (loosest grammar).

Definition level : Level :=
  mkLevel parse_expression (parse_precedence Precedence.Ternary) parse_unary_expression
    (parse_type_expr parse_nested_type_expr).
End level.

(** The parsers with [remaining] nesting levels left. *)
Fixpoint levels (grammar : OperatorGrammar) (remaining : nat) : Level :=
  level grammar match remaining with O => None | S remaining => Some (levels grammar remaining) end.

(** [parse_single_expression] *)
Definition parse_single_expression (grammar : OperatorGrammar) : Parser Expr :=
  _ ← check_token_nesting_limit;
  _ ← skip;
  e ← level_expression (levels grammar MAX_NESTING_DEPTH);
  _ ← skip; toks ← look;
  if is_at_end toks then mret e else reject "end of interpolated expression".
End parser.
