(* ===== verification/Format.v ===== *)
(** * Printing expressions ([harn-fmt], [typechecker/format.rs])

    The tokens of the text the formatter prints for an expression. Where it
    breaks lines and puts trailing commas depends on widths, comments and the
    lines of the source; a [Layout] stands for any such choice. *)

From Stdlib Require Import Strings.String.
From S2P Require Import Prelude Program Operators Token Syntax ParserState TypeParser Parser.

(** ** Grouping ([helpers.rs]) *)

(** [operand_needs_grouping] *)
Definition operand_needs_grouping (parent : Precedence.Precedence) (node : Expr)
    (side : OperandSide.OperandSide) : bool := operand_needs_parens parent (of_node node) side.

(** [needs_parens_as_postfix_object]; assignments are statements. *)
Definition needs_parens_as_postfix_object (node : Expr) : bool :=
  operand_needs_grouping Precedence.Postfix node OperandSide.Postfix.

(** [needs_parens_as_unary_operand] *)
Definition needs_parens_as_unary_operand (node : Expr) : bool :=
  match node with Expr.BinaryOp _ _ _ | Expr.Ternary _ _ _ | Expr.RangeExpr _ _ _ => true | _ => false end ||
  operand_needs_grouping Precedence.Prefix node OperandSide.Prefix.

(** [child_needs_parens] *)
Definition child_needs_parens (parent_op : BinaryOperator.BinaryOperator) (child : Expr) (is_right : bool)
    : bool :=
  let side := if is_right then OperandSide.Right else OperandSide.Left in
  if operand_needs_grouping (precedence parent_op) child side ||
     match child with Expr.Ternary _ _ _ => true | _ => false end then true
  else
    match child with
    | Expr.BinaryOp child_op _ _ =>
        if bool_decide (child_op = BinaryOperator.NilCoalesce) &&
           negb (bool_decide (parent_op = BinaryOperator.NilCoalesce)) then true
        else
          match parent_op, child_op with
          | BinaryOperator.Or, BinaryOperator.And | BinaryOperator.And, BinaryOperator.Or => true
          | _, _ => false
          end
    | _ => false
    end.

(** [plus_chain_depth] *)
Fixpoint plus_chain_depth (node : Expr) : nat :=
  match node with
  | Expr.BinaryOp BinaryOperator.Add left_ _ => S (plus_chain_depth left_)
  | _ => 0
  end.

(** [is_identifier] *)
Definition is_identifier (s : string) : bool :=
  let alphabetic b := byte_in 65 90 b || byte_in 97 122 b in
  let word b := alphabetic b || byte_in 48 57 b || (b2n b =? 95)%N in
  match as_bytes s with
  | [] => false
  | b :: bs => (alphabetic b || (b2n b =? 95)%N) && forallb word (b :: bs)
  end.

(** ** Types *)

(** [optional_sugar_inner] *)
Definition optional_sugar_inner (types : list TypeExpr.TypeExpr) : option TypeExpr.TypeExpr :=
  let sugared (inner : TypeExpr.TypeExpr) :=
    match inner with
    | TypeExpr.Union _ | TypeExpr.Intersection _ | TypeExpr.FnType _ _ => None
    | _ => if is_nil_named inner then None else Some inner
    end in
  match types with
  | [a; b] =>
      if is_nil_named a then sugared b
      else if is_nil_named b then sugared a else None
  | _ => None
  end.

(** [Vec::join] *)
Fixpoint join (separator : list TokenKind) (items : list (list TokenKind)) : list TokenKind :=
  match items with
  | [] => []
  | [item] => item
  | item :: items => item ++ separator ++ join separator items
  end.

Definition int_tokens (z : Z) : list TokenKind :=
  if (z <? 0)%Z then [TokenKind.Minus; TokenKind.IntLiteral (- z)] else [TokenKind.IntLiteral z].

Definition grouped (needs_parens : bool) (ts : list TokenKind) : list TokenKind :=
  if needs_parens then TokenKind.LParen :: ts ++ [TokenKind.RParen] else ts.

Definition ellipsis : list TokenKind := [TokenKind.Dot; TokenKind.Dot; TokenKind.Dot].

(** [format_type] *)
Fixpoint type_tokens (t : TypeExpr.TypeExpr) : list TokenKind :=
  let comma := [TokenKind.Comma] in
  let applied (name : string) (ts : list (list TokenKind)) :=
    word_token name :: TokenKind.Lt :: join comma ts ++ [TokenKind.Gt] in
  let field (f : ShapeField TypeExpr.TypeExpr) :=
    word_token (field_name f) :: (if field_optional f then [TokenKind.Question] else []) ++
    TokenKind.Colon :: type_tokens (field_type f) in
  let braces (ts : list (list TokenKind)) := TokenKind.LBrace :: join comma ts ++ [TokenKind.RBrace] in
  match t with
  | TypeExpr.Named n => [word_token n]
  | TypeExpr.Union types =>
      match optional_sugar_inner types, types with
      | Some _, [a; b] =>
          (if is_nil_named a then type_tokens b else type_tokens a) ++ [TokenKind.Question]
      | _, _ => join [TokenKind.Bar] (map type_tokens types)
      end
  | TypeExpr.Intersection types =>
      join [TokenKind.Amp] (map (λ m, grouped
        match m with
        | TypeExpr.Union members => negb (bool_decide (is_Some (optional_sugar_inner members)))
        | _ => false
        end (type_tokens m)) types)
  | TypeExpr.Shape fields => braces (map field fields)
  | TypeExpr.OpenShape fields rests => braces (map field fields ++ map (λ r, ellipsis ++ type_tokens r) rests)
  | TypeExpr.List inner => applied "list" [type_tokens inner]
  | TypeExpr.Tuple elements => applied "tuple" (map type_tokens elements)
  | TypeExpr.Iter inner => applied "iter" [type_tokens inner]
  | TypeExpr.Generator inner => applied "Generator" [type_tokens inner]
  | TypeExpr.Stream inner => applied "Stream" [type_tokens inner]
  | TypeExpr.DictType k v => applied "dict" [type_tokens k; type_tokens v]
  | TypeExpr.Applied name args => applied name (map type_tokens args)
  | TypeExpr.FnType params return_type =>
      TokenKind.Fn :: TokenKind.LParen :: join comma (map type_tokens params) ++
      TokenKind.RParen :: TokenKind.Arrow :: type_tokens return_type
  | TypeExpr.Never => [TokenKind.Identifier "never"]
  | TypeExpr.LitString s => [TokenKind.StringLiteral s]
  | TypeExpr.LitInt v => int_tokens v
  | TypeExpr.Owned inner => applied "owned" [type_tokens inner]
  end.

(** ** Layout *)

(** Where lines are broken: how many newline tokens come at a place, and which
    sequences end in a comma. Places are paths of child positions. *)
Record Layout := mkLayout {
  breaks : list nat → nat;
  trailing_comma : list nat → bool
}.

Section format.
Context (layout : Layout).

Definition newlines (p : list nat) : list TokenKind := replicate (breaks layout p) TokenKind.Newline.

(** The items of [format_comma_sequence] and [format_comma_sequence_commented]
    after the first; place [S i] is after the comma of item [i]. *)
Fixpoint comma_items (p : list nat) (i : nat) (items : list (list TokenKind)) : list TokenKind :=
  match items with
  | [] => []
  | [item] => item ++ if trailing_comma layout p then TokenKind.Comma :: newlines (S i :: p) else []
  | item :: items => item ++ TokenKind.Comma :: newlines (S i :: p) ++ comma_items p (S i) items
  end.

(** [format_comma_sequence] *)
Definition comma_sequence (p : list nat) (items : list (list TokenKind)) : list TokenKind :=
  match items with [] => [] | _ => newlines (0 :: p) ++ comma_items p 0 items end.

(** The tokens of an operator's symbol. *)
Definition operator_tokens (op : BinaryOperator.BinaryOperator) : list TokenKind :=
  match op with
  | BinaryOperator.NotIn => [TokenKind.Identifier "not"; TokenKind.In]
  | _ => [binary_operator_token op]
  end.

(** A binary operator between its operands; [\\] continues a line without a
    newline token. *)
Definition binary_tokens (p : list nat) (op : BinaryOperator.BinaryOperator) (left_ right_ : list TokenKind)
    : list TokenKind :=
  left_ ++ (if continues_across_newline op then newlines (0 :: p) else []) ++ operator_tokens op ++ right_.

Definition float_tokens (bits : f64) : list TokenKind :=
  if N.testbit bits 63 then [TokenKind.Minus; TokenKind.FloatLiteral (N.clearbit bits 63)]
  else [TokenKind.FloatLiteral bits].

(** A text followed directly by another: where the first ends in [?], the lexer
    reads it and the start of the second as one operator. *)
Definition glue (a b : list TokenKind) : list TokenKind :=
  match last a, b with
  | Some TokenKind.Question, TokenKind.Dot :: b => removelast a ++ TokenKind.QuestionDot :: b
  | Some TokenKind.Question, TokenKind.Question :: b => removelast a ++ TokenKind.NilCoal :: b
  | Some TokenKind.Question, TokenKind.QuestionDot :: b =>
      removelast a ++ TokenKind.NilCoal :: TokenKind.Dot :: b
  | Some TokenKind.Question, TokenKind.DotDot :: b =>
      removelast a ++ TokenKind.QuestionDot :: TokenKind.Dot :: b
  | Some TokenKind.Question, TokenKind.DotDotEq :: b =>
      removelast a ++ TokenKind.QuestionDot :: TokenKind.Dot :: TokenKind.Assign :: b
  | _, _ => a ++ b
  end.

(** [.member] or [?.member] after an object, perhaps on a line of its own. *)
Definition member_tokens (p : list nat) (object : list TokenKind) (dot : TokenKind) (member : string)
    : list TokenKind := glue object (newlines (0 :: p) ++ [dot; word_token member]).

Definition call_tokens (p : list nat) (args : list (list TokenKind)) : list TokenKind :=
  TokenKind.LParen :: comma_sequence p args ++ [TokenKind.RParen].

(** [format_dict_key], of a key that is not printed as an expression. *)
Definition plain_key (key : Expr) : option (list TokenKind) :=
  match key with
  | Expr.StringLiteral s => Some (if is_identifier s then [word_token s] else [TokenKind.StringLiteral s])
  | _ => None
  end.

Section mapi.
Context {A B : Type} (f : nat → A → B).
Fixpoint mapi (i : nat) (l : list A) : list B :=
  match l with [] => [] | x :: l => f i x :: mapi (S i) l end.
End mapi.

(** [format_expr_in_layout] of the node at a place; [chain] is set inside the
    chain [format_deep_plus_chain] prints, whose first term is never grouped. *)
Fixpoint tokens (chain : bool) (p : list nat) (node : Expr) {struct node} : list TokenKind :=
  let at_ (i : nat) (child : Expr) := tokens false (i :: p) child in
  let object (child : Expr) := grouped (needs_parens_as_postfix_object child) (at_ 1 child) in
  let args (es : list Expr) := call_tokens (2 :: p) (mapi (λ i e, tokens false (i :: 2 :: p) e) 0 es) in
  let entry (i : nat) (e : Expr * Expr) :=
    match e.2 with
    | Expr.Spread inner => ellipsis ++ tokens false (1 :: i :: 2 :: p) inner
    | _ =>
        match plain_key e.1 with
        | Some ts => ts
        | None => TokenKind.LBracket :: tokens false (2 :: i :: 2 :: p) e.1 ++ [TokenKind.RBracket]
        end ++ TokenKind.Colon :: newlines (0 :: i :: 2 :: p) ++ tokens false (1 :: i :: 2 :: p) e.2
    end in
  let braces (es : list (Expr * Expr)) :=
    TokenKind.LBrace :: comma_sequence (2 :: p) (mapi entry 0 es) ++ [TokenKind.RBrace] in
  match node with
  | Expr.StringLiteral s => [TokenKind.StringLiteral s]
  | Expr.RawStringLiteral s => [TokenKind.RawStringLiteral s]
  | Expr.InterpolatedString segments => [TokenKind.InterpolatedString segments]
  | Expr.IntLiteral n => int_tokens n
  | Expr.FloatLiteral f => float_tokens f
  | Expr.BoolLiteral b => [if b then TokenKind.True_ else TokenKind.False_]
  | Expr.NilLiteral => [TokenKind.Nil]
  | Expr.Identifier name => [word_token name]
  | Expr.DurationLiteral ms => [TokenKind.DurationLiteral ms]
  | Expr.BinaryOp op left_ right_ =>
      let deep := bool_decide (op = BinaryOperator.Add) && (chain || (64 <=? plus_chain_depth left_)%nat) in
      binary_tokens p op
        (if deep then tokens true (1 :: p) left_
         else grouped (child_needs_parens op left_ false) (at_ 1 left_))
        (grouped (child_needs_parens op right_ true) (at_ 2 right_))
  | Expr.UnaryOp op operand =>
      match op with Not => TokenKind.Not | Neg => TokenKind.Minus end ::
      grouped (needs_parens_as_unary_operand operand) (at_ 1 operand)
  | Expr.TryOperator operand => glue (object operand) [TokenKind.Question]
  | Expr.NonNullAssert operand => object operand ++ [TokenKind.Not]
  | Expr.FunctionCall name type_args es =>
      word_token name ::
      match type_args with
      | [] => []
      | _ => TokenKind.Lt :: join [TokenKind.Comma] (map type_tokens type_args) ++ [TokenKind.Gt]
      end ++ args es
  | Expr.ValueCall callee es => object callee ++ args es
  | Expr.MethodCall obj method es => member_tokens p (object obj) TokenKind.Dot method ++ args es
  | Expr.OptionalMethodCall obj method es =>
      member_tokens p (object obj) TokenKind.QuestionDot method ++ args es
  | Expr.PropertyAccess obj property => member_tokens p (object obj) TokenKind.Dot property
  | Expr.OptionalPropertyAccess obj property => member_tokens p (object obj) TokenKind.QuestionDot property
  | Expr.SubscriptAccess obj index => object obj ++ TokenKind.LBracket :: at_ 2 index ++ [TokenKind.RBracket]
  | Expr.OptionalSubscriptAccess obj index =>
      glue (object obj) (TokenKind.QuestionDot :: TokenKind.LBracket :: at_ 2 index ++ [TokenKind.RBracket])
  | Expr.SliceAccess obj start end_ =>
      object obj ++ TokenKind.LBracket :: match start with Some e => at_ 2 e | None => [] end ++
      TokenKind.Colon :: match end_ with Some e => at_ 3 e | None => [] end ++ [TokenKind.RBracket]
  | Expr.Ternary condition true_expr false_expr =>
      let operand (i : nat) (e : Expr) (side : OperandSide.OperandSide) :=
        grouped (operand_needs_grouping Precedence.Ternary e side) (at_ i e) in
      operand 1 condition OperandSide.TernaryCondition ++ TokenKind.Question ::
      operand 2 true_expr OperandSide.TernaryBranch ++ TokenKind.Colon ::
      operand 3 false_expr OperandSide.TernaryBranch
  | Expr.RangeExpr start end_ inclusive =>
      glue (grouped (operand_needs_grouping Precedence.Range start OperandSide.Left) (at_ 1 start))
        ((if inclusive then TokenKind.DotDotEq else TokenKind.DotDot) ::
         grouped (operand_needs_grouping Precedence.Range end_ OperandSide.Right) (at_ 2 end_))
  | Expr.ListLiteral es =>
      TokenKind.LBracket :: comma_sequence (2 :: p) (mapi (λ i e, tokens false (i :: 2 :: p) e) 0 es) ++
      [TokenKind.RBracket]
  | Expr.DictLiteral es => braces es
  | Expr.StructConstruct name es => word_token name :: braces es
  | Expr.Spread inner => ellipsis ++ at_ 1 inner
  end.
End format.
