(* ===== verification/ParserEnds.v ===== *)
(** * The expression parser ends

    Every parser leaves a suffix of the tokens it is given, shorter where it
    must read something, and none of its loops runs out of the budget its
    tokens give it: on any token list the parser accepts, rejects, or meets a
    construct outside the model. *)

From Stdlib Require Import Strings.String.
From S2P Require Import Prelude Program Operators Token Syntax ParserState TypeParser Parser.

(** ** What parsers read *)

(** [p] ends on [toks], and on success has read at least [k] of them; [u] is
    whether it may meet a construct outside the model. *)
Definition eats_under {A} (u : Prop) (k : nat) (p : Parser A) (toks : list TokenKind) : Prop :=
  match p toks with
  | Accepted _ rest => rest `suffix_of` toks ∧ length rest + k ≤ length toks
  | Rejected _ => True
  | Unsupported => u
  | Exhausted => False
  end.

Section rules.
Context {u : Prop}.
#[local] Abbreviation eats := (eats_under u).

Lemma eats_weaken {A} k k' (p : Parser A) toks : eats k p toks → k' ≤ k → eats k' p toks.
Proof. unfold eats. destruct (p toks); try done. intros [? ?] ?. split; [done|lia]. Qed.

Lemma eats_ret {A} (a : A) toks : eats 0 (mret a) toks.
Proof. split; [done|]. cbn. lia. Qed.

Lemma eats_bind {A B} k j n (p : Parser A) (f : A → Parser B) toks :
  eats k p toks → n ≤ k + j →
  (∀ a rest, p toks = Accepted a rest → rest `suffix_of` toks → length rest + k ≤ length toks →
     eats j (f a) rest) →
  eats n (p ≫= f) toks.
Proof.
  unfold eats, mbind, parser_bind. intros Hp Hn Hf. destruct (p toks) as [a rest| | |]; try done.
  destruct Hp as [Hs Hl]. specialize (Hf a rest eq_refl Hs Hl). destruct (f a rest) as [b rest'| | |]; try done.
  destruct Hf as [Hs' Hl']. split; [by etransitivity|lia].
Qed.

Lemma eats_fmap {A B} k (g : A → B) (p : Parser A) toks : eats k p toks → eats k (g <$> p) toks.
Proof.
  intros Hp. eapply (eats_bind k 0); [done|lia|]. intros. apply eats_ret.
Qed.

Lemma eats_look {A} k (f : list TokenKind → Parser A) toks : eats k (f toks) toks → eats k (look ≫= f) toks.
Proof. done. Qed.

Lemma eats_reject {A} k s toks : eats k (reject s : Parser A) toks.
Proof. done. Qed.
Lemma eats_fail {A} k e toks : eats k (fail e : Parser A) toks.
Proof. done. Qed.

(** *** Moves *)

Lemma skip_newlines_suffix toks : skip_newlines toks `suffix_of` toks.
Proof. induction toks as [|[] toks IH]; try done. cbn. by apply suffix_cons_r. Qed.

Lemma suffix_le (a b : list TokenKind) : a `suffix_of` b → length a ≤ length b.
Proof. intros [k ->]. rewrite length_app. lia. Qed.

Lemma eats_move f toks : f toks `suffix_of` toks → eats 0 (move f) toks.
Proof. intros Hf. split; [done|]. apply suffix_le in Hf. lia. Qed.

Lemma eats_skip toks : eats 0 skip toks.
Proof. apply eats_move, skip_newlines_suffix. Qed.

Lemma eats_next kind toks : check kind toks = true → eats 1 next toks.
Proof. destruct toks; [done|]. intros _. split; [by exists [t]|]. cbn. lia. Qed.

Lemma eats_next_weak toks : eats 0 next toks.
Proof. apply eats_move. destruct toks; [done|]. by exists [t]. Qed.

Lemma eats_next_cons k toks : eats 1 next (k :: toks).
Proof. split; [by exists [k]|]. cbn. lia. Qed.

Lemma eats_consume kind expected toks : eats 1 (consume kind expected) toks.
Proof.
  eapply (eats_bind 0 1); [apply eats_skip|lia|]. intros [] rest _ _ _. apply eats_look.
  destruct (check kind rest) eqn:Hc; [by eapply eats_next|done].
Qed.

Lemma eats_identifier expected toks : eats 1 (consume_identifier expected) toks.
Proof.
  eapply (eats_bind 0 1); [apply eats_skip|lia|]. intros [] rest _ _ _. apply eats_look.
  destruct rest as [|[] rest]; try done. eapply (eats_bind 1 0); [apply eats_next_cons|lia|].
  intros. apply eats_ret.
Qed.

Lemma eats_identifier_or_keyword expected toks : eats 1 (consume_identifier_or_keyword expected) toks.
Proof.
  eapply (eats_bind 0 1); [apply eats_skip|lia|]. intros [] rest _ _ _. apply eats_look.
  destruct rest as [|k rest]; [done|].
  assert (∀ name, eats 1 (_ ← next; mret name : Parser string) (k :: rest)) as Hname.
  { intros name. eapply (eats_bind 1 0); [apply eats_next_cons|lia|]. intros. apply eats_ret. }
  destruct k; try apply Hname; cbn [keyword_name]; try apply Hname; done.
Qed.

Lemma eats_skip_comma toks : eats 0 skip_comma toks.
Proof.
  eapply (eats_bind 0 0); [apply eats_skip|lia|]. intros [] rest _ _ _. apply eats_look.
  destruct (check _ _); [|apply eats_ret]. eapply (eats_bind 0 0); [apply eats_next_weak|lia|].
  intros. apply eats_skip.
Qed.

Lemma check_skip_suffix kind toks at_ : check_skip_newlines kind toks = Some at_ →
  at_ `suffix_of` toks ∧ check kind at_ = true.
Proof.
  unfold check_skip_newlines. destruct (check kind (skip_newlines toks)) eqn:Hc; [|done].
  intros [= <-]. split; [apply skip_newlines_suffix|done].
Qed.

Lemma eats_one {A} (a : A) k toks : eats 1 (_ ← next; mret a : Parser A) (k :: toks).
Proof. eapply (eats_bind 1 0); [apply eats_next_cons|lia|]. intros. apply eats_ret. Qed.

(** The items of a bracket, each of which reads something. *)
Lemma eats_item_loop {A} close (item : Parser A) fuel items toks :
  (∀ toks, eats 1 item toks) → length toks < fuel → eats 0 (item_loop close item fuel items) toks.
Proof.
  intros Hitem. revert items toks. induction fuel as [|fuel IH]; intros items toks Hf; [lia|].
  cbn [item_loop]. apply eats_look. destruct (_ || _); [apply eats_ret|].
  eapply (eats_bind 1 0); [apply Hitem|lia|]. intros x rest _ _ Hr.
  eapply (eats_bind 0 0); [apply eats_skip_comma|lia|]. intros [] rest1 _ _ H1. apply IH. lia.
Qed.

Lemma eats_items {A} close (item : Parser A) toks : (∀ toks, eats 1 item toks) →
  eats 0 (parse_items close item) toks.
Proof.
  intros Hitem. eapply (eats_bind 0 0); [apply eats_skip|lia|]. intros [] rest _ _ _. apply eats_look.
  apply eats_item_loop; [done|lia].
Qed.
End rules.

Create HintDb eats.
#[export] Hint Resolve eats_ret eats_reject eats_fail eats_skip eats_next_cons eats_consume
  eats_identifier eats_identifier_or_keyword eats_skip_comma eats_fmap : eats.

(** ** Types *)

Section types.
Context {u : Prop}.
#[local] Abbreviation eats := (eats_under u).
Context (nested_type : string → Parser TypeExpr.TypeExpr).
Hypothesis Hnested : ∀ context toks, eats 1 (nested_type context) toks.
#[local] Hint Resolve Hnested : eats.

Lemma eats_type_arg_loop fuel args toks : length toks < fuel →
  eats 0 (type_arg_loop nested_type fuel args) toks.
Proof.
  revert args toks. induction fuel as [|fuel IH]; intros args toks Hf; [lia|]. cbn [type_arg_loop].
  apply eats_look. destruct (_ || _); [apply eats_ret|]. eapply (eats_bind 1 0); [auto with eats|lia|].
  intros t rest _ _ Hr. eapply (eats_bind 0 0); [auto with eats|lia|]. intros [] rest1 _ _ H1. apply eats_look.
  destruct (check TokenKind.Comma rest1); [|apply eats_ret].
  eapply (eats_bind 0 0); [apply eats_next_weak|lia|]. intros [] rest2 _ _ H2.
  eapply (eats_bind 0 0); [auto with eats|lia|]. intros [] rest3 _ _ H3. apply eats_look.
  destruct (_ || _); [done|]. apply IH. lia.
Qed.

Lemma eats_type_arg_list toks : eats 1 (parse_type_arg_list nested_type) toks.
Proof.
  eapply (eats_bind 0 1); [auto with eats|lia|]. intros [] rest _ _ _. apply eats_look.
  destruct (check _ _); [done|]. eapply (eats_bind 0 1); [apply eats_type_arg_loop; lia|lia|].
  intros args rest1 _ _ _. eapply (eats_bind 1 0); [auto with eats|lia|]. auto with eats.
Qed.

Lemma eats_shape_field toks : eats 1 (parse_shape_field nested_type) toks.
Proof.
  eapply (eats_bind 1 0); [auto with eats|lia|]. intros name rest _ _ _. apply eats_look. cbv zeta.
  eapply (eats_bind 0 0); [destruct (check _ _); [apply eats_next_weak|apply eats_ret]|lia|].
  intros [] rest1 _ _ _. eapply (eats_bind 1 0); [auto with eats|lia|]. intros [] rest2 _ _ _.
  eapply (eats_bind 1 0); [auto with eats|lia|]. auto with eats.
Qed.

Lemma at_ellipsis_drop toks : at_ellipsis toks = true → eats 3 (move (drop 3)) toks.
Proof.
  unfold at_ellipsis, peek_is. destruct toks as [|a [|b [|c toks]]]; cbn; rewrite ?andb_false_r; try done.
  intros _. split; [by exists [a; b; c]|]. change (length toks + 3 ≤ 3 + length toks). lia.
Qed.

Lemma eats_shape_loop fuel fields rests toks : length toks < fuel →
  eats 0 (shape_loop nested_type fuel fields rests) toks.
Proof.
  revert fields rests toks. induction fuel as [|fuel IH]; intros fields rests toks Hf; [lia|].
  cbn [shape_loop]. apply eats_look. destruct (_ || _); [apply eats_ret|]. destruct (at_ellipsis toks) eqn:He.
  - eapply (eats_bind 3 0); [by apply at_ellipsis_drop|lia|]. intros [] rest _ _ Hr.
    eapply (eats_bind 1 0); [auto with eats|lia|]. intros t rest1 _ _ H1.
    eapply (eats_bind 0 0); [auto with eats|lia|]. intros [] rest2 _ _ H2. apply IH. lia.
  - eapply (eats_bind 1 0); [apply eats_shape_field|lia|]. intros f rest _ _ Hr.
    eapply (eats_bind 0 0); [auto with eats|lia|]. intros [] rest1 _ _ H1. apply IH. lia.
Qed.

Lemma eats_shape_type toks : eats 1 (parse_shape_type nested_type) toks.
Proof.
  eapply (eats_bind 1 0); [auto with eats|lia|]. intros [] rest _ _ _.
  eapply (eats_bind 0 0); [auto with eats|lia|]. intros [] rest1 _ _ _. apply eats_look.
  eapply (eats_bind 0 0); [apply eats_shape_loop; lia|lia|]. intros r rest2 _ _ _.
  eapply (eats_bind 1 0); [auto with eats|lia|]. auto with eats.
Qed.

Lemma eats_fn_type k toks : eats 1 (parse_fn_type nested_type) (k :: toks).
Proof.
  eapply (eats_bind 1 0); [auto with eats|lia|]. intros [] rest _ _ _.
  eapply (eats_bind 1 0); [auto with eats|lia|]. intros [] rest1 _ _ _.
  eapply (eats_bind 0 0); [by apply eats_items|lia|]. intros ps rest3 _ _ _.
  eapply (eats_bind 1 0); [auto with eats|lia|]. intros [] rest4 _ _ _.
  eapply (eats_bind 1 0); [auto with eats|lia|]. intros [] rest5 _ _ _.
  eapply (eats_bind 1 0); [auto with eats|lia|]. auto with eats.
Qed.

Lemma eats_named_type toks : eats 1 (parse_named_type nested_type) toks.
Proof.
  eapply (eats_bind 1 0); [auto with eats|lia|]. intros name rest _ _ _. apply eats_look.
  destruct (String.eqb name "never"); [apply eats_ret|]. destruct (check _ _); [|apply eats_ret].
  eapply (eats_bind 0 0); [apply eats_next_weak|lia|]. intros [] rest1 _ _ _. apply eats_look.
  destruct (_ && _).
  - eapply (eats_bind 0 0); [apply eats_next_weak|lia|]. auto with eats.
  - eapply (eats_bind 1 0); [apply eats_type_arg_list|lia|]. auto with eats.
Qed.

Lemma eats_type_primary_base toks : eats 1 (parse_type_primary_base nested_type) toks.
Proof.
  eapply (eats_bind 0 1); [auto with eats|lia|]. intros [] rest _ _ _. apply eats_look.
  pose proof (eats_named_type rest) as Hnamed. destruct rest as [|k rest]; [done|].
  destruct k; try exact Hnamed; try apply eats_one.
  - apply eats_fn_type.
  - destruct rest as [|[] rest]; try exact Hnamed.
    eapply (eats_bind 1 0); [auto with eats|lia|]. intros [] rest1 _ _ _.
    eapply (eats_bind 0 0); [apply eats_next_weak|lia|]. auto with eats.
  - apply eats_shape_type.
  - eapply (eats_bind 1 0); [auto with eats|lia|]. intros [] rest1 _ _ _.
    eapply (eats_bind 1 0); [auto with eats|lia|]. intros t rest2 _ _ _.
    eapply (eats_bind 1 0); [auto with eats|lia|]. auto with eats.
Qed.

Lemma eats_attach t toks : eats 0 (attach_optional_postfix t) toks.
Proof.
  revert t. induction toks as [|k toks IH]; intros t; [by split; [|cbn; lia]|].
  destruct k; try (by split; [|cbn; lia]). specialize (IH (wrap_optional t)). unfold eats in *. cbn.
  destruct (attach_optional_postfix _ _); try done. destruct IH as [? ?]. split; [by apply suffix_cons_r|lia].
Qed.

Lemma eats_type_primary toks : eats 1 (parse_type_primary nested_type) toks.
Proof.
  eapply (eats_bind 1 0); [apply eats_type_primary_base|lia|]. intros. apply eats_attach.
Qed.

Lemma eats_type_operand_loop operand separator fuel types toks :
  (∀ toks, eats 1 (operand : Parser TypeExpr.TypeExpr) toks) → length toks < fuel →
  eats 0 (type_operand_loop operand separator fuel types) toks.
Proof.
  intros Ho. revert types toks. induction fuel as [|fuel IH]; intros types toks Hf; [lia|].
  cbn [type_operand_loop]. apply eats_look. destruct (check _ _) eqn:Hc; [|apply eats_ret].
  eapply (eats_bind 1 0); [by eapply eats_next|lia|]. intros [] rest _ _ Hr.
  eapply (eats_bind 1 0); [apply Ho|lia|]. intros t rest1 _ _ H1. apply IH. lia.
Qed.

Lemma eats_type_intersection toks : eats 1 (parse_type_intersection nested_type) toks.
Proof.
  eapply (eats_bind 1 0); [apply eats_type_primary|lia|]. intros t rest _ _ _. apply eats_look.
  destruct (check _ _); [|apply eats_ret].
  eapply (eats_bind 0 0); [apply eats_type_operand_loop; [apply eats_type_primary|lia]|lia|]. auto with eats.
Qed.

Lemma eats_type_expr toks : eats 1 (parse_type_expr nested_type) toks.
Proof.
  eapply (eats_bind 0 1); [auto with eats|lia|]. intros [] rest _ _ _.
  eapply (eats_bind 1 0); [apply eats_type_intersection|lia|]. intros t rest1 _ _ _. apply eats_look.
  destruct (check _ _); [|apply eats_ret].
  eapply (eats_bind 0 0); [apply eats_type_operand_loop; [apply eats_type_intersection|lia]|lia|].
  auto with eats.
Qed.
End types.

(** ** Expressions *)

#[local] Abbreviation eats := (eats_under True).

(** The parsers of a level read something. *)
Record level_eats (l : Level) : Prop := mkLevelEats {
  expression_eats : ∀ toks, eats 1 (level_expression l) toks;
  ternary_eats : ∀ toks, eats 1 (level_ternary l) toks;
  unary_eats : ∀ toks, eats 1 (level_unary l) toks;
  type_eats : ∀ toks, eats 1 (level_type l) toks
}.

(** A turn of the suffix loop reads something, if it is not the last. *)
Definition eats_option {A} (p : Parser (option A)) (toks : list TokenKind) : Prop :=
  eats 0 p toks ∧ ∀ a rest, p toks = Accepted (Some a) rest → length rest < length toks.

Lemma eats_option_some {A} (p : Parser (option A)) toks : eats 1 p toks → eats_option p toks.
Proof.
  intros Hp. split; [eapply eats_weaken; [done|lia]|]. intros a rest Ha. unfold eats in Hp. rewrite Ha in Hp. lia.
Qed.

Lemma eats_option_none {A} toks : eats_option (mret None : Parser (option A)) toks.
Proof. split; [apply eats_ret|]. intros a rest [=]. Qed.

Lemma check_cons kind toks : check kind toks = true → ∃ k toks', toks = k :: toks'.
Proof. destruct toks; [done|]. eauto. Qed.

Section expressions.
Context (unicode_uppercase : string → bool) (grammar : OperatorGrammar) (inner : option Level).
Hypothesis Hinner : ∀ l, inner = Some l → level_eats l.

Lemma eats_with_nesting {A} k context (f : Level → Parser A) toks :
  (∀ l, level_eats l → eats k (f l) toks) → eats k (with_nesting inner context f) toks.
Proof. intros Hf. unfold with_nesting. destruct inner as [l|] eqn:Hl; [by apply Hf, Hinner|done]. Qed.

Lemma eats_nested_expression context toks : eats 1 (parse_nested_expression inner context) toks.
Proof. apply eats_with_nesting. intros l Hl. apply expression_eats, Hl. Qed.

Lemma eats_nested_type context toks : eats 1 (parse_nested_type_expr inner context) toks.
Proof. apply eats_with_nesting. intros l Hl. apply type_eats, Hl. Qed.

#[local] Hint Resolve eats_nested_expression eats_nested_type eats_next_weak : eats.

(** *** Sequences *)

Lemma eats_element spread element toks : eats 1 (parse_element inner spread element) toks.
Proof.
  unfold parse_element. apply eats_look. destruct (_ && _); [|auto with eats].
  eapply (eats_bind 0 1); [auto with eats|lia|]. intros [] rest _ _ _.
  eapply (eats_bind 0 1); [auto with eats|lia|]. intros [] rest1 _ _ _.
  eapply (eats_bind 1 1); [auto with eats|lia|]. auto with eats.
Qed.

Lemma eats_args toks : eats 1 (parse_args inner) toks.
Proof.
  unfold parse_args, parse_arg_list. eapply (eats_bind 0 1); [apply eats_items; intros; apply eats_element|lia|]. intros args rest _ _ _.
  eapply (eats_bind 1 0); [auto with eats|lia|]. auto with eats.
Qed.

Lemma eats_list_literal toks : eats 1 (parse_list_literal inner) toks.
Proof.
  eapply (eats_bind 1 0); [auto with eats|lia|]. intros [] rest _ _ _.
  eapply (eats_bind 0 1); [apply eats_items; intros; apply eats_element|lia|]. intros es rest2 _ _ _.
  eapply (eats_bind 1 0); [auto with eats|lia|]. auto with eats.
Qed.

Lemma eats_dict_key toks : eats 1 (parse_dict_key inner) toks.
Proof.
  unfold parse_dict_key. apply eats_look. destruct toks as [|k toks]; [auto with eats|].
  destruct k; auto with eats; [apply eats_one|].
  eapply (eats_bind 1 0); [auto with eats|lia|]. intros [] rest _ _ _.
  eapply (eats_bind 1 0); [auto with eats|lia|]. intros e rest1 _ _ _.
  eapply (eats_bind 1 0); [auto with eats|lia|]. auto with eats.
Qed.

Lemma eats_dict_entry toks : eats 1 (parse_dict_entry inner) toks.
Proof.
  unfold parse_dict_entry. apply eats_look. destruct (at_ellipsis toks) eqn:He.
  - eapply (eats_bind 3 0); [by apply at_ellipsis_drop|lia|]. intros [] rest _ _ _.
    eapply (eats_bind 1 0); [auto with eats|lia|]. auto with eats.
  - eapply (eats_bind 1 0); [apply eats_dict_key|lia|]. intros key rest _ _ _.
    eapply (eats_bind 1 0); [auto with eats|lia|]. intros [] rest1 _ _ _.
    eapply (eats_bind 1 0); [auto with eats|lia|]. auto with eats.
Qed.

Lemma eats_dict_entries toks : eats 1 (parse_dict_entries inner) toks.
Proof.
  eapply (eats_bind 0 1); [apply eats_items; intros; apply eats_dict_entry|lia|]. intros es rest1 _ _ _.
  eapply (eats_bind 1 0); [auto with eats|lia|]. auto with eats.
Qed.

Lemma eats_dict_or_closure toks : eats 1 (parse_dict_or_closure inner) toks.
Proof.
  eapply (eats_bind 1 0); [auto with eats|lia|]. intros [] rest _ _ _.
  eapply (eats_bind 0 0); [auto with eats|lia|]. intros [] rest1 _ _ _. apply eats_look.
  destruct (check _ _); [eapply (eats_bind 0 0); [auto with eats|lia|]; auto with eats|].
  destruct (is_closure_lookahead 0 rest1); [done|]. apply eats_fmap.
  eapply eats_weaken; [apply eats_dict_entries|lia].
Qed.

Lemma eats_primary toks : eats 1 (parse_primary inner) toks.
Proof.
  unfold parse_primary. apply eats_look. destruct toks as [|k toks]; [done|].
  destruct k; try apply eats_one; try done.
  - destruct (_ || _); [done|apply eats_one].
  - apply eats_dict_or_closure.
  - eapply (eats_bind 1 0); [auto with eats|lia|]. intros [] rest _ _ _. apply eats_with_nesting. intros l Hl.
    eapply (eats_bind 1 0); [apply expression_eats, Hl|lia|]. intros e rest1 _ _ _.
    eapply (eats_bind 1 0); [auto with eats|lia|]. auto with eats.
  - apply eats_list_literal.
Qed.

(** *** Postfix operators *)

Lemma eats_member object k toks : eats 1 (parse_member inner object) (k :: toks).
Proof.
  unfold parse_member. apply eats_look. cbv zeta. eapply (eats_bind 1 0); [auto with eats|lia|].
  intros [] rest _ _ _. apply eats_look. destruct (_ && _).
  - eapply (eats_bind 0 1); [auto with eats|lia|]. intros [] rest1 _ _ _.
    eapply (eats_bind 1 0); [auto with eats|lia|]. intros e rest2 _ _ _.
    eapply (eats_bind 1 0); [auto with eats|lia|]. auto with eats.
  - eapply (eats_bind 1 0); [auto with eats|lia|]. intros m rest1 _ _ _. apply eats_look.
    destruct (check _ _); [|apply eats_ret]. eapply (eats_bind 0 1); [auto with eats|lia|].
    intros [] rest2 _ _ _. eapply (eats_bind 1 0); [apply eats_args|lia|]. intros args rest3 _ _ _.
    apply eats_ret.
Qed.

Lemma eats_slice_end toks : eats 1 (parse_slice_end inner) toks.
Proof.
  unfold parse_slice_end. apply eats_look. eapply (eats_bind 0 1); [|lia|].
  - destruct (check _ _); [apply eats_ret|]. apply eats_fmap. eapply eats_weaken; [auto with eats|lia].
  - intros e rest _ _ _. eapply (eats_bind 1 0); [auto with eats|lia|]. auto with eats.
Qed.

Lemma eats_subscript object k toks : eats 1 (parse_subscript inner object) (k :: toks).
Proof.
  eapply (eats_bind 1 0); [auto with eats|lia|]. intros [] rest _ _ _. apply eats_look.
  destruct (check _ rest).
  - eapply (eats_bind 0 0); [auto with eats|lia|]. intros [] rest1 _ _ _.
    eapply (eats_bind 1 0); [apply eats_slice_end|lia|]. auto with eats.
  - eapply (eats_bind 1 0); [auto with eats|lia|]. intros e rest1 _ _ _. apply eats_look.
    destruct (check _ rest1).
    + eapply (eats_bind 0 0); [auto with eats|lia|]. intros [] rest2 _ _ _.
      eapply (eats_bind 1 0); [apply eats_slice_end|lia|]. auto with eats.
    + eapply (eats_bind 1 0); [auto with eats|lia|]. auto with eats.
Qed.

Lemma eats_generic_call name k toks : eats_option (parse_generic_call inner name) (k :: toks).
Proof.
  unfold eats_option, eats, parse_generic_call. cbn [advance tail].
  pose proof (eats_type_arg_list _ eats_nested_type toks) as Ht. unfold eats in Ht.
  destruct (parse_type_arg_list _ toks) as [args after|e| |] eqn:Ha; try done;
    [|by split; [split; [done|lia]|]].
  destruct Ht as [Hs Hl]. destruct (check TokenKind.LParen after) eqn:Hc; [|by split; [split; [done|lia]|]].
  assert (eats 1 (_ ← next; parse_args inner) after) as Hcall.
  { eapply (eats_bind 0 1); [auto with eats|lia|]. intros [] rest _ _ _. apply eats_args. }
  eapply (eats_bind 1 0 1 _ (λ x, mret (Some (Expr.FunctionCall name args x)))) in Hcall; [|lia|auto with eats].
  unfold eats in Hcall. lazymatch type of Hcall with match ?p with _ => _ end => destruct p end; try done.
  destruct Hcall as [Hs' Hl']. split; [split; [|cbn; lia]|].
  - etransitivity; [done|]. by apply suffix_cons_r.
  - intros ? ? [= _ <-]. cbn. lia.
Qed.

Lemma eats_suffix expr toks : eats_option (parse_suffix unicode_uppercase inner expr) toks.
Proof.
  assert (∀ kind at_, check_skip_newlines kind toks = Some at_ →
    eats_option (_ ← move (λ _, at_); Some <$> parse_member inner expr) toks) as Hmember.
  { intros kind at_ Hat. apply check_skip_suffix in Hat as [Hs Hc].
    apply check_cons in Hc as (k & rest & ->). apply eats_option_some.
    eapply (eats_bind 0 1); [by apply eats_move|lia|]. intros [] rest' [= <-] _ _.
    apply eats_fmap, eats_member. }
  assert (∀ (f : list TokenKind → Parser (option Expr)), eats_option (f toks) toks →
    eats_option (look ≫= f) toks) as Hlook by done.
  unfold parse_suffix. apply Hlook.
  destruct (check_skip_newlines TokenKind.Dot toks) as [at_|] eqn:H1; [by eapply Hmember|].
  destruct (check_skip_newlines TokenKind.QuestionDot toks) as [at_|] eqn:H2; [by eapply Hmember|].
  destruct toks as [|k toks]; [apply eats_option_none|].
  destruct k; try apply eats_option_none.
  - apply eats_option_some, eats_one.
  - destruct expr; try apply eats_option_none. apply eats_generic_call.
  - destruct (question_starts_ternary_branch toks); [apply eats_option_none|]. apply eats_option_some.
    destruct (check _ toks); [|apply eats_one]. eapply (eats_bind 1 0); [auto with eats|lia|].
    intros [] rest _ _ _. eapply (eats_bind 0 0); [auto with eats|lia|]. intros [] rest1 _ _ _.
    eapply (eats_bind 1 0); [auto with eats|lia|]. intros e rest2 _ _ _.
    eapply (eats_bind 1 0); [auto with eats|lia|]. auto with eats.
  - destruct expr; try apply eats_option_none. destruct (is_struct_construct_lookahead _ _ _);
      [|apply eats_option_none]. apply eats_option_some.
    eapply (eats_bind 1 0); [auto with eats|lia|]. intros [] rest _ _ _.
    eapply (eats_bind 1 0); [apply eats_dict_entries|lia|]. auto with eats.
  - apply eats_option_some. eapply (eats_bind 1 0); [auto with eats|lia|]. intros [] rest _ _ _.
    eapply (eats_bind 1 0); [apply eats_args|lia|]. auto with eats.
  - apply eats_option_some, eats_fmap, eats_subscript.
Qed.

Lemma eats_suffixes fuel expr toks : length toks < fuel →
  eats 0 (parse_postfix_suffixes unicode_uppercase inner fuel expr) toks.
Proof.
  revert expr toks. induction fuel as [|fuel IH]; intros expr toks Hf; [lia|]. cbn [parse_postfix_suffixes].
  destruct (eats_suffix expr toks) as [Hs Hsome]. eapply (eats_bind 0 0); [done|lia|].
  intros [e|] rest Hr _ _; [|apply eats_ret]. apply Hsome in Hr. apply IH. lia.
Qed.

Lemma eats_postfix toks : eats 1 (parse_postfix unicode_uppercase inner) toks.
Proof.
  eapply (eats_bind 1 0); [apply eats_primary|lia|]. intros e rest _ _ _. apply eats_look.
  apply eats_suffixes. lia.
Qed.

(** *** Operators *)

Lemma eats_nested_unary context toks : eats 1 (with_nesting inner context level_unary) toks.
Proof. apply eats_with_nesting. intros l Hl. apply unary_eats, Hl. Qed.

Lemma eats_nested_ternary context toks : eats 1 (with_nesting inner context level_ternary) toks.
Proof. apply eats_with_nesting. intros l Hl. apply ternary_eats, Hl. Qed.

#[local] Hint Resolve eats_nested_unary eats_nested_ternary : eats.

Lemma eats_exponent toks : eats 1 (parse_exponent unicode_uppercase inner) toks.
Proof.
  eapply (eats_bind 1 0); [apply eats_postfix|lia|]. intros e rest _ _ _. apply eats_look.
  destruct (check_skip_newlines _ rest) as [at_|] eqn:Hat; [|apply eats_ret]. apply check_skip_suffix in Hat as [Hat _].
  eapply (eats_bind 0 0); [by apply eats_move|lia|]. intros [] rest1 _ _ _.
  eapply (eats_bind 0 0); [auto with eats|lia|]. intros [] rest2 _ _ _.
  eapply (eats_bind 0 0); [auto with eats|lia|]. intros [] rest3 _ _ _.
  eapply (eats_bind 1 0); [auto with eats|lia|]. auto with eats.
Qed.

Lemma eats_unary toks : eats 1 (parse_unary_expression unicode_uppercase inner) toks.
Proof.
  unfold parse_unary_expression. apply eats_look. cbv zeta.
  assert (∀ op, eats 1 (_ ← next; operand ← with_nesting inner "unary expression" level_unary;
    mret (Expr.UnaryOp op operand) : Parser Expr) toks) as Hop.
  { intros op. eapply (eats_bind 0 1); [auto with eats|lia|]. intros [] rest _ _ _.
    eapply (eats_bind 1 0); [auto with eats|lia|]. auto with eats. }
  destruct (check _ _); [apply Hop|]. destruct (check _ _); [apply Hop|apply eats_exponent].
Qed.

Lemma operator_at_suffix op toks at_ : operator_at op toks = Some at_ →
  at_ `suffix_of` toks ∧ ∃ kind, check kind at_ = true.
Proof.
  assert (∀ kind, (if check kind toks then Some toks else None) = Some at_ →
    at_ `suffix_of` toks ∧ ∃ kind, check kind at_ = true) as Hhere.
  { intros kind. destruct (check kind toks) eqn:Hc; [|done]. intros [= <-]. eauto. }
  assert (∀ kind, check_skip_newlines kind toks = Some at_ →
    at_ `suffix_of` toks ∧ ∃ kind, check kind at_ = true) as Hskip.
  { intros kind [? ?]%check_skip_suffix. eauto. }
  destruct op; try apply Hskip; try apply Hhere. unfold operator_at.
  destruct (check_identifier "not" toks) eqn:Hc; [|done]. cbn [andb].
  destruct (peek_is _ _ _); [|done]. intros [= <-]. split; [done|].
  destruct toks as [|[] ?]; try done. by exists (TokenKind.Identifier name).
Qed.

Lemma check_binary_operator_suffix group toks op at_ : check_binary_operator group toks = Some (op, at_) →
  at_ `suffix_of` toks ∧ ∃ kind, check kind at_ = true.
Proof.
  unfold check_binary_operator. intros Hh%head_Some_elem_of.
  apply list_elem_of_omap in Hh as (op' & _ & Hop). destruct (decide _); [|done].
  apply fmap_Some in Hop as (at' & Hat & [= <- <-]). by eapply operator_at_suffix.
Qed.

Section climb.
Context (operand : Parser Expr).
Hypothesis Hoperand : ∀ toks, eats 1 operand toks.
#[local] Hint Resolve Hoperand : eats.

Lemma eats_binary_loop group fuel left_ toks : length toks < fuel →
  eats 0 (binary_loop operand group fuel left_) toks.
Proof.
  revert left_ toks. induction fuel as [|fuel IH]; intros left_ toks Hf; [lia|]. cbn [binary_loop].
  apply eats_look. destruct (check_binary_operator group toks) as [[op at_]|] eqn:Hat; [|apply eats_ret].
  apply check_binary_operator_suffix in Hat as [Hs [kind Hc]].
  eapply (eats_bind 0 0); [by apply eats_move|lia|]. intros [] rest [= <-] _ _.
  eapply (eats_bind 1 0); [by eapply eats_next|lia|]. intros [] rest1 _ _ H1.
  eapply (eats_bind 0 0); [destruct (decide _); auto with eats|lia|]. intros [] rest2 _ _ H2.
  eapply (eats_bind 0 0); [auto with eats|lia|]. intros [] rest3 _ _ H3.
  eapply (eats_bind 1 0); [auto with eats|lia|]. intros e rest4 _ _ H4. apply IH.
  apply suffix_le in Hs. lia.
Qed.

Lemma eats_binary_group group toks : eats 1 (parse_binary_group operand group) toks.
Proof.
  eapply (eats_bind 1 0); [auto with eats|lia|]. intros e rest _ _ _. apply eats_look.
  apply eats_binary_loop. lia.
Qed.

Lemma check_range_operator_suffix toks spelling at_ :
  check_range_operator grammar toks = inr (Some (spelling, at_)) → at_ `suffix_of` toks.
Proof.
  unfold check_range_operator. destruct (check_skip_newlines TokenKind.DotDot toks) eqn:H1.
  { intros [= _ <-]. by apply check_skip_suffix in H1 as [? _]. }
  destruct (check_skip_newlines TokenKind.DotDotEq toks) eqn:H2.
  { intros [= _ <-]. by apply check_skip_suffix in H2 as [? _]. }
  destruct (check_identifier _ _); [|done]. destruct (legacy_ranges grammar); [|done]. by intros [= _ <-].
Qed.

Lemma eats_range toks : eats 1 (parse_range grammar operand) toks.
Proof.
  eapply (eats_bind 1 0); [auto with eats|lia|]. intros e rest _ _ _. apply eats_look.
  destruct (check_range_operator grammar rest) as [err|[[spelling at_]|]] eqn:Hat; [done| |apply eats_ret].
  apply check_range_operator_suffix in Hat.
  eapply (eats_bind 0 0); [by apply eats_move|lia|]. intros [] rest1 _ _ _.
  eapply (eats_bind 0 0); [auto with eats|lia|]. intros [] rest2 _ _ _.
  eapply (eats_bind 0 0); [auto with eats|lia|]. intros [] rest3 _ _ _.
  eapply (eats_bind 1 0); [auto with eats|lia|]. intros e2 rest4 _ _ _.
  eapply (eats_bind 0 0); [|lia|].
  - destruct spelling; try apply eats_ret. cbn [range_inclusive]. apply eats_look.
    destruct (check_identifier _ _); [|apply eats_ret]. eapply (eats_bind 0 0); [auto with eats|lia|]. auto with eats.
  - intros b rest5 _ _ _. apply eats_look. destruct (_ || _); [done|apply eats_ret].
Qed.

Lemma eats_ternary toks : eats 1 (parse_ternary inner operand) toks.
Proof.
  eapply (eats_bind 1 0); [auto with eats|lia|]. intros e rest _ _ _. apply eats_look.
  destruct (check_skip_newlines _ rest) as [at_|] eqn:Hat; [|apply eats_ret]. apply check_skip_suffix in Hat as [Hat _].
  eapply (eats_bind 0 0); [by apply eats_move|lia|]. intros [] rest1 _ _ _.
  eapply (eats_bind 0 0); [auto with eats|lia|]. intros [] rest2 _ _ _.
  eapply (eats_bind 0 0); [auto with eats|lia|]. intros [] rest3 _ _ _.
  eapply (eats_bind 1 0); [auto with eats|lia|]. intros e2 rest4 _ _ _.
  eapply (eats_bind 1 0); [auto with eats|lia|]. intros [] rest5 _ _ _.
  eapply (eats_bind 0 0); [auto with eats|lia|]. intros [] rest6 _ _ _.
  eapply (eats_bind 1 0); [auto with eats|lia|]. auto with eats.
Qed.
End climb.

Lemma eats_climb groups toks : eats 1 (climb unicode_uppercase grammar inner groups) toks.
Proof.
  revert toks. induction groups as [|[] groups IH]; intros toks; cbn [climb].
  all: first [apply eats_postfix | by apply eats_ternary | by apply eats_range | apply eats_unary
    | apply eats_exponent | by apply eats_binary_group].
Qed.

Lemma eats_level : level_eats (level unicode_uppercase grammar inner).
Proof.
  split; intros toks; cbn [level level_expression level_ternary level_unary level_type].
  - eapply (eats_bind 0 1); [auto with eats|lia|]. intros [] rest _ _ _. apply eats_climb.
  - apply eats_climb.
  - apply eats_unary.
  - apply eats_type_expr. auto with eats.
Qed.
End expressions.

Lemma eats_levels unicode_uppercase grammar remaining : level_eats (levels unicode_uppercase grammar remaining).
Proof.
  induction remaining as [|remaining IH]; apply eats_level; [done|]. by intros l [= <-].
Qed.

(** The expression parser ends on every token list, under both operator
    grammars: none of the loops of [parse_single_expression] runs longer than
    its tokens allow, so it accepts, rejects, or meets a construct outside the
    model. *)
Theorem parse_single_expression_ends unicode_uppercase grammar toks :
  parse_single_expression unicode_uppercase grammar toks ≠ Exhausted.
Proof.
  assert (eats 1 (parse_single_expression unicode_uppercase grammar) toks) as H.
  { eapply (eats_bind 0 1); [unfold check_token_nesting_limit|lia|].
    { unfold eats. destruct (token_nesting_ok 0 toks); [by split; [|lia]|done]. }
    intros [] rest _ _ _. eapply (eats_bind 0 1); [auto with eats|lia|]. intros [] rest1 _ _ _.
    eapply (eats_bind 1 0); [apply expression_eats, eats_levels|lia|]. intros e rest2 _ _ _.
    eapply (eats_bind 0 0); [auto with eats|lia|]. intros [] rest3 _ _ _. apply eats_look.
    destruct (is_at_end _); [apply eats_ret|done]. }
  unfold eats in H. by intros Hp; rewrite Hp in H.
Qed.
