(* ===== verification/Printable.v ===== *)
(** * Expressions whose text reads back

    When the tokens the formatter prints for an expression parse to it again:
    the conditions, and the shape of the printed tokens that lookahead in the
    parser depends on. Each condition excludes a form that is printed
    ambiguously; [Reparse] proves the round trip under them and shows what
    happens outside. *)

From Stdlib Require Import Strings.String.
From S2P Require Import Prelude Program Operators Token Syntax ParserState TypeParser Parser Format.

(** ** Conditions *)

(** Names that are one token and begin no construct of their own. *)
Definition plain_name (name : string) : bool :=
  match keyword_token_kind name with None => true | Some _ => false end &&
  negb (String.eqb name "deadline") && negb (String.eqb name "cost_route").

(** Names that can follow a dot or be a key: every word but [throws]. *)
Definition member_name (name : string) : bool := negb (String.eqb name "throws").

(** Does the text of [e] end in a [?] operator? *)
Fixpoint ends_try (e : Expr) : bool :=
  match e with
  | Expr.TryOperator _ => true
  | Expr.BinaryOp op _ r => negb (child_needs_parens op r true) && ends_try r
  | Expr.UnaryOp _ o => negb (needs_parens_as_unary_operand o) && ends_try o
  | Expr.Ternary _ _ f =>
      negb (operand_needs_grouping Precedence.Ternary f OperandSide.TernaryBranch) && ends_try f
  | Expr.RangeExpr _ e _ =>
      negb (operand_needs_grouping Precedence.Range e OperandSide.Right) && ends_try e
  | _ => false
  end.

(** Operators whose token could begin the branch of a ternary. *)
Definition operator_starts_branch (op : BinaryOperator.BinaryOperator) : bool :=
  match op with BinaryOperator.Sub | BinaryOperator.NotIn => true | _ => false end.

(** Callees a following argument list would turn into another kind of call. *)
Definition calls_by_name (e : Expr) : bool :=
  match e with
  | Expr.Identifier _ | Expr.PropertyAccess _ _ | Expr.OptionalPropertyAccess _ _ => true
  | _ => false
  end.

(** The first field the lookahead of a struct construction accepts. *)
Definition struct_head (fields : list (Expr * Expr)) : bool :=
  match fields with
  | [] => true
  | (_, Expr.Spread _) :: _ => false
  | (Expr.StringLiteral s, _) :: _ =>
      negb (is_identifier s) || match keyword_token_kind s with None => true | Some _ => false end
  | _ => false
  end.

Definition deep_chain (chain : bool) (op : BinaryOperator.BinaryOperator) (left_ : Expr) : bool :=
  bool_decide (op = BinaryOperator.Add) && (chain || (64 <=? plus_chain_depth left_)%nat).

Section printable.
Context (unicode_uppercase : string → bool).

(** Items of lists and arguments, and entries of dictionaries, may be spreads. *)
Definition element_printable (printable : Expr → bool) (e : Expr) : bool :=
  match e with Expr.Spread inner => printable inner | _ => printable e end.

Definition entry_printable (printable : Expr → bool) (e : Expr * Expr) : bool :=
  match e.2 with
  | Expr.Spread inner => match e.1 with Expr.NilLiteral => true | _ => false end && printable inner
  | _ =>
      match e.1 with
      | Expr.StringLiteral s => negb (is_identifier s) || member_name s
      | _ => printable e.1
      end && printable e.2
  end.

Fixpoint printable (chain : bool) (e : Expr) : bool :=
  let object (o : Expr) := (needs_parens_as_postfix_object o || negb (ends_try o)) && printable false o in
  let element := element_printable (printable false) in
  let entry := entry_printable (printable false) in
  match e with
  | Expr.IntLiteral n => (0 <=? n)%Z
  | Expr.FloatLiteral f => negb (N.testbit f 63)
  | Expr.Identifier name => plain_name name
  | Expr.BinaryOp op l r =>
      let bare := negb (child_needs_parens op l false) in
      (bare || negb (deep_chain chain op l)) && negb (bare && operator_starts_branch op && ends_try l) &&
      printable (deep_chain chain op l) l && printable false r
  | Expr.UnaryOp _ o => printable false o
  | Expr.Ternary c t f => printable false c && printable false t && printable false f
  | Expr.RangeExpr s e _ =>
      (operand_needs_grouping Precedence.Range s OperandSide.Left || negb (ends_try s)) &&
      printable false s && printable false e
  | Expr.ListLiteral es => forallb element es
  | Expr.DictLiteral es => forallb entry es
  | Expr.StructConstruct name es =>
      plain_name name && starts_uppercase unicode_uppercase name && struct_head es && forallb entry es
  | Expr.FunctionCall name type_args es =>
      plain_name name && match type_args with [] => true | _ => false end && forallb element es
  | Expr.ValueCall c es => negb (calls_by_name c) && object c && forallb element es
  | Expr.MethodCall o m es | Expr.OptionalMethodCall o m es =>
      member_name m && object o && forallb element es
  | Expr.PropertyAccess o m | Expr.OptionalPropertyAccess o m => member_name m && object o
  | Expr.SubscriptAccess o i | Expr.OptionalSubscriptAccess o i => object o && printable false i
  | Expr.SliceAccess o s e =>
      object o && match s with Some s => printable false s | None => true end &&
      match e with Some e => printable false e | None => true end
  | Expr.TryOperator o | Expr.NonNullAssert o => object o
  | Expr.Spread _ => false
  | _ => true
  end.
End printable.

(** The nesting levels the text of [e] needs. *)
Definition grouping (parens : bool) (n : nat) : nat := if parens then S n else n.

Fixpoint depth (e : Expr) : nat :=
  let object (o : Expr) := grouping (needs_parens_as_postfix_object o) (depth o) in
  let items (es : list Expr) := list_max (map (λ e, S (depth e)) es) in
  let entries (es : list (Expr * Expr)) := list_max (map (λ e, S (Nat.max (depth e.1) (depth e.2))) es) in
  let optional (e : option Expr) := match e with Some e => S (depth e) | None => 0 end in
  match e with
  | Expr.BinaryOp op l r =>
      let right_ := grouping (child_needs_parens op r true) (depth r) in
      Nat.max (grouping (child_needs_parens op l false) (depth l))
        match op with BinaryOperator.Pow => S right_ | _ => right_ end
  | Expr.UnaryOp _ o => S (grouping (needs_parens_as_unary_operand o) (depth o))
  | Expr.Ternary c t f =>
      let operand (e : Expr) (side : OperandSide.OperandSide) :=
        grouping (operand_needs_grouping Precedence.Ternary e side) (depth e) in
      Nat.max (operand c OperandSide.TernaryCondition)
        (S (Nat.max (operand t OperandSide.TernaryBranch) (operand f OperandSide.TernaryBranch)))
  | Expr.RangeExpr s e _ =>
      Nat.max (grouping (operand_needs_grouping Precedence.Range s OperandSide.Left) (depth s))
        (grouping (operand_needs_grouping Precedence.Range e OperandSide.Right) (depth e))
  | Expr.ListLiteral es => items es
  | Expr.DictLiteral es | Expr.StructConstruct _ es => entries es
  | Expr.Spread inner => depth inner
  | Expr.FunctionCall _ _ es => items es
  | Expr.ValueCall o es | Expr.MethodCall o _ es | Expr.OptionalMethodCall o _ es =>
      Nat.max (object o) (items es)
  | Expr.PropertyAccess o _ | Expr.OptionalPropertyAccess o _ => object o
  | Expr.SubscriptAccess o i | Expr.OptionalSubscriptAccess o i => Nat.max (object o) (S (depth i))
  | Expr.SliceAccess o s e => Nat.max (object o) (Nat.max (optional s) (optional e))
  | Expr.TryOperator o | Expr.NonNullAssert o => object o
  | _ => 0
  end.

(** A call's [>] and argument list are not printed after a [<]: no [<] is
    followed by [>(] later on. *)
Fixpoint no_gt_paren (toks : list TokenKind) : bool :=
  match toks with
  | [] => true
  | k :: toks => negb (same_kind k TokenKind.Gt && check TokenKind.LParen toks) && no_gt_paren toks
  end.

Fixpoint no_generic (toks : list TokenKind) : bool :=
  match toks with
  | [] => true
  | k :: toks => (negb (same_kind k TokenKind.Lt) || no_gt_paren toks) && no_generic toks
  end.

(** ** The shape of printed tokens *)

(** Tokens that lookahead passes over. *)
Definition passed (k : TokenKind) : bool :=
  negb (opens k) && negb (closes k) &&
  match k with TokenKind.Newline | TokenKind.Eof | TokenKind.Arrow => false | _ => true end.

(** Balanced token lists. Outside brackets ([nested] unset) a newline comes
    only before a token that continues a ternary branch. *)
Inductive segment : bool → list TokenKind → Prop :=
  | segment_nil nested : segment nested []
  | segment_app nested x y : segment nested x → segment nested y → segment nested (x ++ y)
  | segment_token nested k : passed k = true → segment nested [k]
  | segment_group nested k x k' : opens k = true → closes k' = true → segment true x →
      segment nested (k :: x ++ [k'])
  | segment_newlines n : segment true (replicate n TokenKind.Newline)
  | segment_continued n k : passed k = true → continues_ternary_branch [k] = true →
      segment false (replicate n TokenKind.Newline ++ [k]).

Create HintDb segment.
#[export] Hint Resolve segment_nil segment_app segment_token segment_group segment_newlines : segment.
#[export] Hint Extern 1 (passed _ = true) => reflexivity : segment.
#[export] Hint Extern 1 (opens _ = true) => reflexivity : segment.
#[export] Hint Extern 1 (closes _ = true) => reflexivity : segment.

Lemma segment_nested nested x : segment nested x → segment true x.
Proof.
  induction 1; auto with segment.
Qed.

Lemma segment_cons nested k x : passed k = true → segment nested x → segment nested (k :: x).
Proof. intros ? ?. apply (segment_app _ [k]); auto with segment. Qed.

Lemma segment_snoc nested x k : segment nested x → passed k = true → segment nested (x ++ [k]).
Proof. auto with segment. Qed.

#[export] Hint Resolve segment_cons : segment.
#[export] Hint Extern 3 (segment true _) => eapply segment_nested; eassumption : segment.

Lemma opens_spec k : opens k = true →
  k = TokenKind.LBrace ∨ k = TokenKind.LBracket ∨ k = TokenKind.LParen.
Proof. destruct k; auto; done. Qed.

Lemma closes_spec k : closes k = true →
  k = TokenKind.RBrace ∨ k = TokenKind.RBracket ∨ k = TokenKind.RParen.
Proof. destruct k; auto; done. Qed.

(** The closure scan passes over balanced tokens. *)
Lemma closure_passes nested x : segment nested x →
  ∀ d rest, is_closure_lookahead d (x ++ rest) = is_closure_lookahead d rest.
Proof.
  induction 1 as [| nested x y _ IHx _ IHy | nested k Hk | nested k x k' Hk Hk' _ IH | n | n k Hk _];
    intros d rest.
  - done.
  - rewrite <- app_assoc, IHx. apply IHy.
  - destruct k; try done.
  - apply opens_spec in Hk. apply closes_spec in Hk'. rewrite app_comm_cons, <- app_assoc. cbn [app].
    assert (∀ x, is_closure_lookahead d (k :: x) = is_closure_lookahead (S d) x) as ->
      by (intros; by destruct Hk as [-> | [-> | ->]]).
    rewrite IH. cbn [app]. by destruct Hk' as [-> | [-> | ->]].
  - induction n as [|n IH]; [done|]. cbn. apply IH.
  - rewrite <- app_assoc. induction n as [|n IH]; [|cbn; apply IH]. by destruct k.
Qed.

Lemma skip_newlines_replicate n toks :
  skip_newlines (replicate n TokenKind.Newline ++ toks) = skip_newlines toks.
Proof. by induction n. Qed.

(** The scan for a ternary's colon passes over balanced tokens in brackets, *)
Lemma ternary_inside nested x : segment nested x →
  ∀ d b rest, ternary_colon (S d) b (x ++ rest) = ternary_colon (S d) b rest.
Proof.
  induction 1 as [| nested x y _ IHx _ IHy | nested k Hk | nested k x k' Hk Hk' _ IH | n | n k Hk _];
    intros d b rest.
  - done.
  - rewrite <- app_assoc, IHx. apply IHy.
  - by destruct k.
  - apply opens_spec in Hk. apply closes_spec in Hk'. rewrite app_comm_cons, <- app_assoc. cbn [app].
    assert (∀ x, ternary_colon (S d) b (k :: x) = ternary_colon (S (S d)) b x) as ->
      by (intros; by destruct Hk as [-> | [-> | ->]]).
    rewrite IH. cbn [app]. by destruct Hk' as [-> | [-> | ->]].
  - induction n as [|n IH]; [done|]. apply IH.
  - rewrite <- app_assoc. induction n as [|n IH]; [|apply IH]. by destruct k.
Qed.

(** and finds the colon after a printed branch. *)
Lemma ternary_passes x : segment false x →
  ∀ b rest, (∀ b, ternary_colon 0 b rest = true) → ternary_colon 0 b (x ++ rest) = true.
Proof.
  assert (∀ k b rest, passed k = true → (∀ b, ternary_colon 0 b rest = true) →
    ternary_colon 0 b (k :: rest) = true) as Htoken by (intros []; cbn; auto; done).
  remember false as nested eqn:Hn.
  induction 1 as [| nested x y _ IHx _ IHy | nested k Hk | nested k x k' Hk Hk' Hx _ | n | n k Hk Hc];
    intros b rest Hr.
  - apply Hr.
  - rewrite <- app_assoc. apply IHx; [done|]. intros. by apply IHy.
  - by apply Htoken.
  - apply opens_spec in Hk. apply closes_spec in Hk'. rewrite app_comm_cons, <- app_assoc. cbn [app].
    assert (∀ x, ternary_colon 0 b (k :: x) = ternary_colon 1 false x) as ->
      by (intros; by destruct Hk as [-> | [-> | ->]]).
    rewrite (ternary_inside _ _ Hx). destruct Hk' as [-> | [-> | ->]]; apply Hr.
  - done.
  - rewrite <- app_assoc. revert b. induction n as [|n IH]; intros b; [by apply Htoken|].
    cbn [replicate app]. cbn [ternary_colon Nat.eqb].
    assert (continues_ternary_branch (replicate n TokenKind.Newline ++ k :: rest) = true) as ->.
    { unfold continues_ternary_branch in *. rewrite skip_newlines_replicate.
      destruct k; try done; cbn in Hc |- *; done. }
    rewrite orb_true_r. apply IH.
Qed.

(** *** Words *)

Lemma keyword_token_kind_In name k : keyword_token_kind name = Some k → In (name, k) KEYWORD_TOKENS.
Proof.
  unfold keyword_token_kind. intros ([n k'] & Hf & Hk)%fmap_Some. cbn in Hk. subst k'.
  apply find_some in Hf as [Hin Heq]. cbn in Heq. apply String.eqb_eq in Heq. by subst n.
Qed.

Lemma keyword_forall (f : string * TokenKind → bool) name k :
  forallb f KEYWORD_TOKENS = true → keyword_token_kind name = Some k → f (name, k) = true.
Proof. intros Hf Hk%keyword_token_kind_In. rewrite forallb_forall in Hf. by apply Hf. Qed.

Lemma word_token_passed name : passed (word_token name) = true.
Proof.
  unfold word_token. destruct (keyword_token_kind name) as [k|] eqn:Hk; [|done]. cbn.
  by apply (keyword_forall (λ w, passed w.2) name k).
Qed.

#[export] Hint Resolve word_token_passed : segment.

Lemma word_token_is (f : TokenKind → bool) name : f (TokenKind.Identifier name) = true →
  forallb (λ w, f w.2) KEYWORD_TOKENS = true → f (word_token name) = true.
Proof.
  intros Hi Hk. unfold word_token. destruct (keyword_token_kind name) as [k|] eqn:Hn; [|done].
  by apply (keyword_forall (λ w, f w.2) name k).
Qed.

Lemma plain_name_word name : plain_name name = true → word_token name = TokenKind.Identifier name.
Proof. unfold plain_name, word_token. by destruct (keyword_token_kind name). Qed.

(** Every word but [throws] is read back as a member name. *)
Lemma member_name_word name : member_name name = true →
  word_token name = TokenKind.Identifier name ∨ keyword_name (word_token name) = Some name.
Proof.
  unfold member_name, word_token. intros Hn.
  destruct (keyword_token_kind name) as [k|] eqn:Hk; [right|by left].
  apply (keyword_forall (λ w, String.eqb w.1 "throws" ||
    match keyword_name w.2 with Some n => String.eqb n w.1 | None => false end)) in Hk; [|by vm_compute].
  cbn in *. destruct (String.eqb name "throws"); [done|]. cbn in Hk.
  destruct (keyword_name k); [|done]. by apply String.eqb_eq in Hk as ->.
Qed.

(** *** Texts *)

Definition starts (ts : list TokenKind) : bool :=
  match ts with k :: _ => token_starts_ternary_branch k | [] => false end.

(** Printed text: balanced, beginning as an expression does. *)
Definition shaped (ts : list TokenKind) : Prop := starts ts = true ∧ segment false ts.

(** Text that does not end in [?]. *)
Definition closed (ts : list TokenKind) : Prop := last ts ≠ Some TokenKind.Question.

Lemma glue_closed a b : closed a → glue a b = a ++ b.
Proof. unfold closed, glue. destruct (last a) as [[]|]; done. Qed.

Lemma starts_app a b : starts a = true → starts (a ++ b) = true.
Proof. by destruct a. Qed.

Lemma shaped_app a b : shaped a → segment false b → shaped (a ++ b).
Proof. intros [? ?] ?. split; [by apply starts_app|auto with segment]. Qed.

Lemma shaped_grouped b ts : shaped ts → shaped (grouped b ts).
Proof.
  intros [Hs Hseg]. destruct b; [|done]. split; [done|]. apply segment_group; auto with segment.
Qed.

Lemma closed_text_app a b : b ≠ [] → closed b → closed (a ++ b).
Proof.
  unfold closed. rewrite last_app. intros Hb. destruct (last b) eqn:Hl; [done|].
  by apply last_None in Hl.
Qed.

Lemma closed_cons a k b : b ≠ [] → closed b → closed (a ++ k :: b).
Proof. intros. apply closed_text_app; [done|]. by apply (closed_text_app [k]). Qed.

Lemma closed_snoc a k : k ≠ TokenKind.Question → closed (a ++ [k]).
Proof. unfold closed. rewrite last_snoc. congruence. Qed.

Lemma closed_grouped b ts : (b = false → closed ts) → closed (grouped b ts).
Proof.
  destruct b; [|by auto]. intros _. unfold grouped. rewrite app_comm_cons. by apply closed_snoc.
Qed.

Lemma shaped_nonempty ts : shaped ts → ts ≠ [].
Proof. intros [Hs _] ->. done. Qed.

(** ** Printed expressions *)

Lemma Forall_mapi {A B} (P : A → Prop) (Q : B → Prop) (f : nat → A → B) i l :
  Forall P l → (∀ i x, P x → Q (f i x)) → Forall Q (mapi f i l).
Proof. intros Hl Hf. revert i. induction Hl; intros i; cbn; constructor; auto. Qed.

Section printed.
Context (unicode_uppercase : string → bool) (layout : Layout).
#[local] Abbreviation printable := (printable unicode_uppercase).
#[local] Abbreviation tokens := (tokens layout).

Lemma newlines_segment p : segment true (newlines layout p).
Proof. apply segment_newlines. Qed.
#[local] Hint Resolve newlines_segment : segment.

Lemma operator_segment p op : segment false
  ((if continues_across_newline op then newlines layout p else []) ++ operator_tokens op).
Proof.
  destruct op; cbn [continues_across_newline operator_tokens binary_operator_token app]; unfold newlines;
    first [by apply segment_continued | by repeat (apply segment_cons; [done|]); apply segment_nil].
Qed.

Lemma comma_items_segment p i items : Forall (segment true) items → segment true (comma_items layout p i items).
Proof.
  intros Hi. revert i. induction Hi as [|x items Hx Hi IH]; intros i; [apply segment_nil|].
  assert (∀ y, segment true y → segment true (x ++ TokenKind.Comma :: newlines layout (S i :: p) ++ y)) as Hy.
  { intros y Hy. apply segment_app; [done|]. apply segment_cons; [done|]. auto with segment. }
  destruct items; cbn [comma_items]; [|apply Hy, IH].
  apply segment_app; [done|]. destruct (trailing_comma _ _); [|apply segment_nil].
  apply segment_cons; auto with segment.
Qed.

Lemma comma_sequence_segment p items : Forall (segment true) items → segment true (comma_sequence layout p items).
Proof.
  intros Hi. destruct items as [|x items]; [apply segment_nil|].
  apply segment_app; [apply newlines_segment|by apply comma_items_segment].
Qed.

Lemma bracketed_segment k k' p items nested : opens k = true → closes k' = true →
  Forall (segment true) items → segment nested (k :: comma_sequence layout p items ++ [k']).
Proof. intros. apply segment_group; [done..|]. by apply comma_sequence_segment. Qed.

(** The formatter's rule for the left operand is the grouping rule, in chains
    too. *)
Lemma tokens_binary chain p op l r : printable chain (Expr.BinaryOp op l r) = true →
  tokens chain p (Expr.BinaryOp op l r) =
    grouped (child_needs_parens op l false) (tokens (deep_chain chain op l) (1 :: p) l) ++
    ((if continues_across_newline op then newlines layout (0 :: p) else []) ++ operator_tokens op) ++
    grouped (child_needs_parens op r true) (tokens false (2 :: p) r).
Proof.
  cbn [Printable.printable Format.tokens]. unfold binary_tokens. fold (deep_chain chain op l).
  rewrite !andb_true_iff. intros [[[Hd _] _] _]. rewrite <- !app_assoc.
  destruct (deep_chain chain op l); [|done]. by destruct (child_needs_parens op l false).
Qed.

(** The statement proved of each node. *)
Definition prints_shaped (e : Expr) : Prop := ∀ chain p, printable chain e = true →
  shaped (tokens chain p e) ∧ (ends_try e = false → closed (tokens chain p e)).

Definition object_text (p : list nat) (o : Expr) : list TokenKind :=
  grouped (needs_parens_as_postfix_object o) (tokens false (1 :: p) o).

Lemma object_shaped p o : prints_shaped o →
  (needs_parens_as_postfix_object o || negb (ends_try o)) && printable false o = true →
  shaped (object_text p o) ∧ closed (object_text p o).
Proof.
  intros Ho [Ht Hp]%andb_true_iff. destruct (Ho false (1 :: p) Hp) as [Hs Hc]. unfold object_text.
  split; [by apply shaped_grouped|]. apply closed_grouped. intros Hn. rewrite Hn in Ht. apply Hc.
  by destruct (ends_try o).
Qed.

(** An object and a suffix of it. *)
Lemma suffix_shaped p o s : prints_shaped o →
  (needs_parens_as_postfix_object o || negb (ends_try o)) && printable false o = true →
  segment false s → glue (object_text p o) s = object_text p o ++ s ∧ shaped (object_text p o ++ s).
Proof.
  intros Ho Hp Hs. destruct (object_shaped p o Ho Hp). split; [by apply glue_closed|by apply shaped_app].
Qed.

(** *** Items *)

(** What is proved of a node holds of what it spreads. *)
Definition with_spread (P : Expr → Prop) (e : Expr) : Prop := P e ∧ ∀ inner, e = Expr.Spread inner → P inner.

Definition element_text (p : list nat) (i : nat) (e : Expr) : list TokenKind := tokens false (i :: 2 :: p) e.
Definition element_texts (p : list nat) (es : list Expr) : list (list TokenKind) := mapi (element_text p) 0 es.

Definition key_text (p : list nat) (i : nat) (key : Expr) : list TokenKind :=
  match plain_key key with
  | Some ts => ts
  | None => TokenKind.LBracket :: tokens false (2 :: i :: 2 :: p) key ++ [TokenKind.RBracket]
  end.

Definition entry_text (p : list nat) (i : nat) (e : Expr * Expr) : list TokenKind :=
  match e.2 with
  | Expr.Spread inner => ellipsis ++ tokens false (1 :: i :: 2 :: p) inner
  | _ =>
      key_text p i e.1 ++ TokenKind.Colon :: newlines layout (0 :: i :: 2 :: p) ++
      tokens false (1 :: i :: 2 :: p) e.2
  end.
Definition entry_texts (p : list nat) (es : list (Expr * Expr)) : list (list TokenKind) := mapi (entry_text p) 0 es.

Definition braces_text (p : list nat) (es : list (Expr * Expr)) : list TokenKind :=
  TokenKind.LBrace :: comma_sequence layout (2 :: p) (entry_texts p es) ++ [TokenKind.RBrace].

Lemma tokens_dict chain p es : tokens chain p (Expr.DictLiteral es) = braces_text p es.
Proof. done. Qed.

Lemma ellipsis_segment nested x : segment nested x → segment nested (ellipsis ++ x).
Proof. intros. by repeat (apply segment_cons; [done|]). Qed.

Lemma element_segment p i e : with_spread prints_shaped e →
  element_printable (printable false) e = true → segment true (element_text p i e).
Proof.
  intros [He Hs] Hp. unfold element_text.
  destruct e; try (destruct (He false (i :: 2 :: p) Hp) as [[_ ?] _]; auto with segment; fail).
  destruct (Hs e eq_refl false (1 :: i :: 2 :: p) Hp) as [[_ ?] _]. cbn [Format.tokens].
  apply ellipsis_segment. auto with segment.
Qed.

Lemma elements_segment p es nested k k' : opens k = true → closes k' = true →
  Forall (with_spread prints_shaped) es → forallb (element_printable (printable false)) es = true →
  segment nested (k :: comma_sequence layout (2 :: p) (element_texts p es) ++ [k']).
Proof.
  intros Hk Hk' Hes Hp. apply bracketed_segment; [done..|].
  apply (Forall_mapi (λ e, with_spread prints_shaped e ∧ element_printable (printable false) e = true)).
  - rewrite forallb_forall in Hp. apply Forall_forall. intros e He.
    rewrite Forall_forall in Hes. split; [by apply Hes|]. by apply Hp, list_elem_of_In.
  - intros i e [? ?]. by apply element_segment.
Qed.

Lemma plain_key_segment nested key ts : plain_key key = Some ts → segment nested ts.
Proof.
  destruct key; try done. cbn [plain_key]. intros [= <-]. destruct (is_identifier value); auto with segment.
Qed.

(** A key that is printed as an expression is printable. *)
Lemma entry_key_printable (e : Expr * Expr) : entry_printable (printable false) e = true →
  (∃ inner, e = (Expr.NilLiteral, Expr.Spread inner) ∧ printable false inner = true) ∨
  ((∀ inner, e.2 ≠ Expr.Spread inner) ∧ printable false e.2 = true ∧
   ((∃ s, e.1 = Expr.StringLiteral s ∧ (is_identifier s = true → member_name s = true)) ∨
    plain_key e.1 = None ∧ printable false e.1 = true)).
Proof.
  unfold entry_printable. destruct e as [k v]. cbn [fst snd]. intros He.
  assert ((∃ inner, v = Expr.Spread inner) ∨ ∀ inner, v ≠ Expr.Spread inner) as [[inner ->]|Hv]
    by (destruct v; eauto; by right).
  - left. destruct k; try done. eauto.
  - right. split; [done|]. assert (match k with
      | Expr.StringLiteral s => negb (is_identifier s) || member_name s
      | _ => printable false k end && printable false v = true) as [Hk ->]%andb_true_iff
      by (destruct v; try done; by exfalso; eapply Hv). split; [done|].
    destruct k; try by right. left. exists value. split; [done|]. by destruct (is_identifier value).
Qed.

Lemma entry_segment p i e : with_spread prints_shaped e.1 → with_spread prints_shaped e.2 →
  entry_printable (printable false) e = true → segment true (entry_text p i e).
Proof.
  intros [Hk _] [Hv Hs] [(inner & -> & Hp)|(Hn & Hp & Hkey)]%entry_key_printable; unfold entry_text.
  - destruct (Hs inner eq_refl false (1 :: i :: 2 :: p) Hp) as [[_ ?] _]. apply ellipsis_segment. auto with segment.
  - assert (segment true (key_text p i e.1 ++ TokenKind.Colon :: newlines layout (0 :: i :: 2 :: p) ++
      tokens false (1 :: i :: 2 :: p) e.2)) as Hseg.
    { destruct (Hv false (1 :: i :: 2 :: p) Hp) as [[_ ?] _]. apply segment_app.
      - unfold key_text. destruct (plain_key e.1) eqn:Hplain; [by eapply plain_key_segment|].
        destruct Hkey as [(s & Hes & _)|[_ Hkp]]; [by rewrite Hes in Hplain|].
        destruct (Hk false (2 :: i :: 2 :: p) Hkp) as [[_ ?] _]. apply segment_group; auto with segment.
      - apply segment_cons; [done|]. apply segment_app; auto with segment. }
    destruct e as [k []]; try exact Hseg. by exfalso; eapply Hn.
Qed.

Lemma entry_texts_segment p es : Forall (λ e, with_spread prints_shaped e.1 ∧ with_spread prints_shaped e.2) es →
  forallb (entry_printable (printable false)) es = true → Forall (segment true) (entry_texts p es).
Proof.
  intros Hes Hp. apply (Forall_mapi (λ e, (with_spread prints_shaped e.1 ∧ with_spread prints_shaped e.2) ∧
    entry_printable (printable false) e = true)).
  - rewrite forallb_forall in Hp. apply Forall_forall. intros e He.
    rewrite Forall_forall in Hes. split; [by apply Hes|]. by apply Hp, list_elem_of_In.
  - intros i e [[? ?] ?]. by apply entry_segment.
Qed.

Lemma braces_segment p es nested : Forall (λ e, with_spread prints_shaped e.1 ∧ with_spread prints_shaped e.2) es →
  forallb (entry_printable (printable false)) es = true → segment nested (braces_text p es).
Proof. intros. apply bracketed_segment; [done..|]. by apply entry_texts_segment. Qed.

Lemma args_segment p es nested : Forall (with_spread prints_shaped) es →
  forallb (element_printable (printable false)) es = true →
  segment nested (call_tokens layout (2 :: p) (element_texts p es)).
Proof. intros. by apply elements_segment. Qed.

Lemma group_segment p i e nested k k' : prints_shaped e → printable false e = true →
  opens k = true → closes k' = true → segment nested (k :: tokens false (i :: p) e ++ [k']).
Proof.
  intros He Hp ? ?. destruct (He false (i :: p) Hp) as [[_ ?] _]. apply segment_group; auto with segment.
Qed.

Lemma member_segment p dot m : passed dot = true → continues_ternary_branch [dot] = true →
  segment false (newlines layout p ++ [dot; word_token m]).
Proof.
  intros. change [dot; word_token m] with ([dot] ++ [word_token m]). rewrite app_assoc.
  apply segment_app; [by apply segment_continued|]. auto with segment.
Qed.

(** *** Every expression *)

Lemma shaped_literal ts e : starts ts = true → segment false ts → closed ts →
  shaped ts ∧ (ends_try e = false → closed ts).
Proof. by repeat split. Qed.

Lemma suffixed (p : list nat) (o : Expr) (s : list TokenKind) (e : Expr) : prints_shaped o →
  (needs_parens_as_postfix_object o || negb (ends_try o)) && printable false o = true →
  segment false s → s ≠ [] → (ends_try e = false → closed s) →
  ∀ ts, (ts = glue (object_text p o) s ∨ ts = object_text p o ++ s) →
  shaped ts ∧ (ends_try e = false → closed ts).
Proof.
  intros Ho Hp Hs Hne Hc ts Hts. destruct (suffix_shaped p o s Ho Hp Hs) as [Hg Hsh].
  assert (ts = object_text p o ++ s) as -> by (destruct Hts; congruence).
  split; [done|]. intros. apply closed_text_app; auto.
Qed.

(** *** Operators *)

Lemma operand_shaped b chain p e : prints_shaped e → printable chain e = true →
  shaped (grouped b (tokens chain p e)) ∧ (negb b && ends_try e = false → closed (grouped b (tokens chain p e))).
Proof.
  intros He Hp. destruct (He chain p Hp) as [Hs Hc]. split; [by apply shaped_grouped|].
  intros Ht. apply closed_grouped. intros ->. by apply Hc.
Qed.

Lemma shaped_segment ts : shaped ts → segment false ts.
Proof. by intros []. Qed.
#[local] Hint Resolve shaped_segment operator_segment : segment.

Lemma binary_shaped op l r : prints_shaped l → prints_shaped r → prints_shaped (Expr.BinaryOp op l r).
Proof.
  intros Hl Hr chain p Hp. rewrite (tokens_binary _ _ _ _ _ Hp). cbn [Printable.printable] in Hp.
  rewrite !andb_true_iff in Hp. destruct Hp as [[[_ _] Hpl] Hpr].
  destruct (operand_shaped (child_needs_parens op l false) _ (1 :: p) l Hl Hpl) as [Hsl _].
  destruct (operand_shaped (child_needs_parens op r true) _ (2 :: p) r Hr Hpr) as [Hsr Hcr].
  split; [apply shaped_app; auto with segment|]. intros Ht. rewrite app_assoc.
  apply closed_text_app; [by apply shaped_nonempty|auto].
Qed.

Lemma unary_shaped op o : prints_shaped o → prints_shaped (Expr.UnaryOp op o).
Proof.
  intros Ho chain p Hp.
  destruct (operand_shaped (needs_parens_as_unary_operand o) _ (1 :: p) o Ho Hp) as [Hs Hc].
  cbn [Format.tokens]. split.
  - split; [by destruct op|]. apply segment_cons; [by destruct op|auto with segment].
  - intros Ht. apply (closed_cons []); [by apply shaped_nonempty|auto].
Qed.

Lemma ternary_shaped c t f : prints_shaped c → prints_shaped t → prints_shaped f →
  prints_shaped (Expr.Ternary c t f).
Proof.
  intros Hc Ht Hf chain p Hp. cbn [Printable.printable] in Hp. rewrite !andb_true_iff in Hp.
  destruct Hp as [[Hpc Hpt] Hpf].
  destruct (operand_shaped (operand_needs_grouping Precedence.Ternary c OperandSide.TernaryCondition)
    _ (1 :: p) c Hc Hpc) as [Hsc _].
  destruct (operand_shaped (operand_needs_grouping Precedence.Ternary t OperandSide.TernaryBranch)
    _ (2 :: p) t Ht Hpt) as [Hst _].
  destruct (operand_shaped (operand_needs_grouping Precedence.Ternary f OperandSide.TernaryBranch)
    _ (3 :: p) f Hf Hpf) as [Hsf Hcf].
  cbn [Format.tokens]. split.
  - apply shaped_app; [done|]. apply segment_cons; [done|]. apply segment_app; auto with segment.
  - intros He. apply closed_cons; [by intros [_ [=]]%app_eq_nil|]. apply closed_cons; [by apply shaped_nonempty|auto].
Qed.

Lemma range_shaped s e i : prints_shaped s → prints_shaped e → prints_shaped (Expr.RangeExpr s e i).
Proof.
  intros Hs He chain p Hp. cbn [Printable.printable] in Hp. rewrite !andb_true_iff in Hp.
  destruct Hp as [[Ht Hps] Hpe].
  destruct (operand_shaped (operand_needs_grouping Precedence.Range s OperandSide.Left) _ (1 :: p) s Hs Hps)
    as [Hss Hcs].
  destruct (operand_shaped (operand_needs_grouping Precedence.Range e OperandSide.Right) _ (2 :: p) e He Hpe)
    as [Hse Hce].
  cbn [Format.tokens]. rewrite glue_closed by (apply Hcs; by destruct (operand_needs_grouping _ s _), (ends_try s)).
  split.
  - apply shaped_app; [done|]. apply segment_cons; [by destruct i|auto with segment].
  - intros Hte. apply closed_cons; [by apply shaped_nonempty|auto].
Qed.

(** *** Literals and postfix forms *)

Lemma list_shaped es : Forall (with_spread prints_shaped) es → prints_shaped (Expr.ListLiteral es).
Proof.
  intros Hes chain p Hp. change (tokens chain p (Expr.ListLiteral es)) with
    (TokenKind.LBracket :: comma_sequence layout (2 :: p) (element_texts p es) ++ [TokenKind.RBracket]).
  apply shaped_literal; [done|by apply elements_segment|]. rewrite app_comm_cons. by apply closed_snoc.
Qed.

Lemma dict_shaped es : Forall (λ e, with_spread prints_shaped e.1 ∧ with_spread prints_shaped e.2) es →
  prints_shaped (Expr.DictLiteral es).
Proof.
  intros Hes chain p Hp. rewrite tokens_dict.
  apply shaped_literal; [done|by apply braces_segment|]. unfold braces_text. rewrite app_comm_cons.
  by apply closed_snoc.
Qed.

Lemma named_shaped name ts e : plain_name name = true → segment false ts → closed (word_token name :: ts) →
  shaped (word_token name :: ts) ∧ (ends_try e = false → closed (word_token name :: ts)).
Proof.
  intros Hn Hts Hc. apply shaped_literal; [by rewrite (plain_name_word _ Hn)|by apply segment_cons; auto with segment|done].
Qed.

Lemma struct_shaped name es : Forall (λ e, with_spread prints_shaped e.1 ∧ with_spread prints_shaped e.2) es →
  prints_shaped (Expr.StructConstruct name es).
Proof.
  intros Hes chain p Hp. cbn [Printable.printable] in Hp. rewrite !andb_true_iff in Hp.
  destruct Hp as [[[Hn _] _] Hp]. apply (named_shaped name (braces_text p es)); [done|by apply braces_segment|].
  unfold braces_text. rewrite 2!app_comm_cons. by apply closed_snoc.
Qed.

Lemma call_shaped name ts es : Forall (with_spread prints_shaped) es → prints_shaped (Expr.FunctionCall name ts es).
Proof.
  intros Hes chain p Hp. cbn [Printable.printable] in Hp. rewrite !andb_true_iff in Hp.
  destruct Hp as [[Hn Ht] Hp]. destruct ts; [|done].
  apply (named_shaped name (call_tokens layout (2 :: p) (element_texts p es))); [done|by apply args_segment|].
  unfold call_tokens. rewrite 2!app_comm_cons. by apply closed_snoc.
Qed.

Lemma closed_args p es : closed (call_tokens layout (2 :: p) (element_texts p es)).
Proof. unfold call_tokens. rewrite app_comm_cons. by apply closed_snoc. Qed.

Lemma closed_member p dot m : closed (newlines layout p ++ [dot; word_token m]).
Proof.
  change [dot; word_token m] with ([dot] ++ [word_token m]). rewrite app_assoc. apply closed_snoc.
  intros Hm. pose proof (word_token_passed m) as Hw. unfold word_token in Hm.
  destruct (keyword_token_kind m) as [k|] eqn:Hk; [|done]. cbn in Hm. subst k.
  by apply (keyword_forall (λ w, negb (same_kind w.2 TokenKind.Question))) in Hk; [|by vm_compute].
Qed.

(** A member with its arguments, if any. *)
Lemma member_suffixed o m p dot args e : prints_shaped o →
  member_name m && ((needs_parens_as_postfix_object o || negb (ends_try o)) && printable false o) = true →
  passed dot = true → continues_ternary_branch [dot] = true → segment false args → closed args ∨ args = [] →
  shaped (member_tokens layout p (object_text p o) dot m ++ args) ∧
  (ends_try e = false → closed (member_tokens layout p (object_text p o) dot m ++ args)).
Proof.
  intros Ho [_ Hp]%andb_true_iff ? ? Hargs Hc. unfold member_tokens.
  destruct (suffix_shaped p o (newlines layout (0 :: p) ++ [dot; word_token m]) Ho Hp) as [-> Hs];
    [by apply member_segment|]. split; [by apply shaped_app|]. intros _.
  destruct Hc as [Hc| ->]; [|rewrite app_nil_r; apply closed_text_app; [by intros [_ [=]]%app_eq_nil|apply closed_member]].
  destruct args; [rewrite app_nil_r; apply closed_text_app; [by intros [_ [=]]%app_eq_nil|apply closed_member]|].
  by apply closed_text_app.
Qed.

Lemma slice_segment p s e : (∀ x, s = Some x → prints_shaped x) → (∀ x, e = Some x → prints_shaped x) →
  match s with Some s => printable false s | None => true end = true →
  match e with Some e => printable false e | None => true end = true →
  segment false (TokenKind.LBracket :: match s with Some e => tokens false (2 :: p) e | None => [] end ++
    TokenKind.Colon :: match e with Some e => tokens false (3 :: p) e | None => [] end ++ [TokenKind.RBracket]).
Proof.
  intros Hs He Hps Hpe.
  assert (∀ o i, (∀ x, o = Some x → prints_shaped x) →
    match o with Some e => printable false e | None => true end = true →
    segment true match o with Some e => tokens false (i :: p) e | None => [] end) as Ho.
  { intros [x|] i Hx Hp; [|apply segment_nil]. destruct (Hx x eq_refl false (i :: p) Hp) as [[_ ?] _].
    auto with segment. }
  rewrite (app_comm_cons _ _ TokenKind.Colon), app_assoc. apply segment_group; [done..|].
  apply segment_app; [by apply Ho|]. apply segment_cons; [done|by apply Ho].
Qed.

Lemma tokens_shaped_spread e : with_spread prints_shaped e.
Proof.
  induction e using expr_ind; (split; [|try by intros ? [=]]).
  all: repeat match goal with H : with_spread _ _ |- _ => destruct H as [? _] end.
  all: try (intros chain path Hp; apply shaped_literal; cbn [Format.tokens]; auto with segment; done).
  all: try by first [apply binary_shaped | apply unary_shaped | apply ternary_shaped | apply range_shaped
    | apply list_shaped | apply dict_shaped | apply struct_shaped | apply call_shaped].
  all: try by intros ? [= <-].
  all: intros chain path Hp; cbn [Printable.printable] in Hp.
  - cbn [Format.tokens]. unfold int_tokens. replace (z <? 0)%Z with false by lia. apply shaped_literal; auto with segment; done.
  - cbn [Format.tokens]. unfold float_tokens. destruct (N.testbit f 63); [done|]. apply shaped_literal; auto with segment; done.
  - destruct b; cbn [Format.tokens]; apply shaped_literal; auto with segment; done.
  - apply (named_shaped s []); [done|apply segment_nil|]. by rewrite (plain_name_word _ Hp).
  - apply andb_true_iff in Hp as [[_ Ho]%andb_true_iff Hes].
    eapply (suffixed path e); [done..|by apply args_segment|done|intros; apply closed_args|by right].
  - apply andb_true_iff in Hp as [Hp Hes]. eapply (member_suffixed e m path TokenKind.Dot); [done..| |].
    + by apply args_segment.
    + left. apply closed_args.
  - apply andb_true_iff in Hp as [Hp Hes]. eapply (member_suffixed e m path TokenKind.QuestionDot); [done..| |].
    + by apply args_segment.
    + left. apply closed_args.
  - rewrite <- (app_nil_r (tokens _ _ _)). eapply (member_suffixed e p path TokenKind.Dot); [done..|apply segment_nil|by right].
  - rewrite <- (app_nil_r (tokens _ _ _)).
    eapply (member_suffixed e p path TokenKind.QuestionDot); [done..|apply segment_nil|by right].
  - apply andb_true_iff in Hp as [Ho Hi].
    apply (suffixed path e1 (TokenKind.LBracket :: tokens false (2 :: path) e2 ++ [TokenKind.RBracket]));
      [done..| |done| |by right].
    + by apply group_segment.
    + intros _. rewrite app_comm_cons. by apply closed_snoc.
  - apply andb_true_iff in Hp as [Ho Hi].
    apply (suffixed path e1 (TokenKind.QuestionDot :: TokenKind.LBracket :: tokens false (2 :: path) e2 ++
      [TokenKind.RBracket])); [done..| |done| |by left].
    + apply segment_cons; [done|]. by apply group_segment.
    + intros _. rewrite 2!app_comm_cons. by apply closed_snoc.
  - apply andb_true_iff in Hp as [[Ho Hs]%andb_true_iff He].
    eapply (suffixed path e); [done..|apply slice_segment; [..|exact Hs|exact He]|done| |by right].
    1-2: intros x Hx; match goal with H : ∀ x, _ = Some x → with_spread _ x |- _ => exact (proj1 (H x Hx)) end.
    intros _. rewrite (app_comm_cons _ _ TokenKind.Colon), app_assoc, app_comm_cons. by apply closed_snoc.
  - by apply (suffixed path e [TokenKind.Question]); auto with segment.
  - by apply (suffixed path e [TokenKind.Not]); auto with segment.
Qed.

(** The text of a printable expression is balanced and begins as an expression
    does; only a [?] operator at its right edge ends it in [?]. *)
Lemma tokens_shaped e chain p : printable chain e = true → shaped (tokens chain p e).
Proof. intros. by apply (proj1 (tokens_shaped_spread e)). Qed.

Lemma tokens_closed e chain p : printable chain e = true → ends_try e = false → closed (tokens chain p e).
Proof. intros. by apply (proj1 (tokens_shaped_spread e)). Qed.
End printed.
