(* ===== verification/Reading.v ===== *)
(** * Reading printed text, group by group

    What the parser of a precedence group does with a printed text: [reads]. A
    text read at one group is read the same at every looser group whose
    operators do not follow it ([reads_climb]); [ends] says which tokens do
    not continue an expression. *)

From Stdlib Require Import Strings.String.
From S2P Require Import Prelude Program Operators Token Syntax ParserState TypeParser Parser Format ParserEnds Printable.

(** ** Generic calls *)

Lemma no_gt_paren_after pre after : no_gt_paren (pre ++ TokenKind.Gt :: after) = true →
  check TokenKind.LParen after = false.
Proof.
  induction pre as [|k pre IH]; cbn [app no_gt_paren]; rewrite andb_true_iff; intros [H1 H2]; [|by apply IH].
  by destruct (check TokenKind.LParen after).
Qed.

Lemma no_generic_app a b : no_generic (a ++ b) = true → no_generic b = true.
Proof. induction a; [done|]. cbn [app no_generic]. rewrite andb_true_iff. intros [_ ?]. auto. Qed.

Lemma no_generic_cons k b : no_generic (k :: b) = true → no_generic b = true.
Proof. apply (no_generic_app [k]). Qed.

Lemma consume_inv kind expected toks rest : consume kind expected toks = Accepted tt rest →
  ∃ k, skip_newlines toks = k :: rest ∧ same_kind k kind = true.
Proof.
  unfold consume, skip, look, move, next, mbind, parser_bind. destruct (skip_newlines toks) as [|k rest'];
    cbn [check]; [done|]. destruct (same_kind k kind) eqn:Hk; [|done]. intros [= <-]. eauto.
Qed.

Lemma same_kind_gt k : same_kind k TokenKind.Gt = true → k = TokenKind.Gt.
Proof. by destruct k. Qed.

Section types.
Context (unicode_uppercase : string → bool).

(** The parsers one level in, with [r] nesting levels left. *)
Definition inner_level (r : nat) : option Level :=
  match r with O => None | S r => Some (levels unicode_uppercase CURRENT r) end.

Lemma nested_type_eats r context toks : eats_under False 1 (parse_nested_type_expr (inner_level r) context) toks.
Proof.
  revert context toks. induction r as [|r IH]; intros context toks; [done|].
  unfold parse_nested_type_expr, with_nesting. cbn [inner_level]. destruct r; by apply eats_type_expr.
Qed.

Lemma type_arg_list_after r toks args after :
  parse_type_arg_list (parse_nested_type_expr (inner_level r)) toks = Accepted args after →
  ∃ pre, toks = pre ++ TokenKind.Gt :: after.
Proof.
  unfold parse_type_arg_list, skip, move, look, mbind, parser_bind. destruct (check _ _); [done|].
  pose proof (eats_type_arg_loop _ (nested_type_eats r) (S (length (skip_newlines toks))) []
    (skip_newlines toks) ltac:(lia)) as He. unfold eats_under in He.
  destruct (type_arg_loop _ _ _ _) as [a rest| | |]; try done. destruct He as [Hs _].
  destruct (consume TokenKind.Gt ">" rest) as [[] rest'| | |] eqn:Hc; try done. intros [= _ ->].
  apply consume_inv in Hc as (k & Hk & ->%same_kind_gt).
  assert (TokenKind.Gt :: after `suffix_of` toks) as [pre ->]; [|eauto].
  rewrite <- Hk. etransitivity; [apply skip_newlines_suffix|]. etransitivity; [done|apply skip_newlines_suffix].
Qed.

(** A comparison is not taken for the type arguments of a call. *)
Lemma no_generic_call r name toks : no_gt_paren toks = true →
  parse_generic_call (inner_level r) name (TokenKind.Lt :: toks) = Accepted None (TokenKind.Lt :: toks).
Proof.
  intros Hg. unfold parse_generic_call. cbn [advance tail].
  pose proof (eats_type_arg_list _ (nested_type_eats r) toks) as He. unfold eats_under in He.
  destruct (parse_type_arg_list _ toks) as [args after| | |] eqn:Ha; try done.
  apply type_arg_list_after in Ha as [pre ->]. by rewrite (no_gt_paren_after _ _ Hg).
Qed.
End types.

(** ** What ends an expression *)

Section reparse.
Context (unicode_uppercase : string → bool).
#[local] Abbreviation inner := (inner_level unicode_uppercase).

(** [parse_precedence] with [r] nesting levels left. *)
Definition parse_group (g : Precedence.Precedence) (r : nat) : Parser Expr :=
  parse_precedence unicode_uppercase CURRENT (inner r) g.

(** No operator of the group comes next. *)
Definition ends (g : Precedence.Precedence) (rest : list TokenKind) : Prop :=
  match g with
  | Precedence.Ternary => check_skip_newlines TokenKind.Question rest = None
  | Precedence.Range => check_range_operator CURRENT rest = inr None
  | Precedence.Prefix => True
  | Precedence.Exponent => check_skip_newlines TokenKind.Pow rest = None
  | Precedence.Postfix =>
      ∀ r e, parse_suffix unicode_uppercase (inner r) e rest = Accepted None rest
  | g => check_binary_operator g rest = None
  end.

Definition loops (g : Precedence.Precedence) : bool :=
  match g with
  | Precedence.Ternary | Precedence.Range | Precedence.Prefix | Precedence.Exponent => false
  | _ => true
  end.

(** What may follow a text read up to the loop of its group. *)
Definition stops_after (g : Precedence.Precedence) (rest : list TokenKind) : Prop :=
  ∀ h, Precedence.level g < Precedence.level h ∨ h = g ∧ loops g = false → ends h rest.

(** *** Finding operators *)

Lemma check_binary_operator_none g toks :
  (∀ op, precedence op = g → operator_at op toks = None) → check_binary_operator g toks = None.
Proof.
  intros Hno. unfold check_binary_operator. destruct (head _) as [[op at_]|] eqn:Hh; [|done].
  apply head_Some_elem_of, list_elem_of_omap in Hh as (op' & _ & Hop).
  destruct (decide _) as [Hg|]; [|done]. by rewrite (Hno op' Hg) in Hop.
Qed.

Lemma check_binary_operator_some op toks at_ : operator_at op toks = Some at_ →
  (∀ op', precedence op' = precedence op → op' ≠ op → operator_at op' toks = None) →
  check_binary_operator (precedence op) toks = Some (op, at_).
Proof.
  intros Hat Hother. unfold check_binary_operator. destruct (head _) as [[op1 at1]|] eqn:Hh.
  - apply head_Some_elem_of, list_elem_of_omap in Hh as (op' & _ & Hop).
    destruct (decide _) as [Hg|]; [|done]. apply fmap_Some in Hop as (at' & Hat' & [= <- <-]).
    destruct (decide (op1 = op)) as [->|Hne]; [congruence|]. by rewrite (Hother op1 Hg Hne) in Hat'.
  - exfalso. apply head_None in Hh. assert ((op, at_) ∈ (@nil (BinaryOperator.BinaryOperator * list TokenKind))) as He;
      [|by apply not_elem_of_nil in He].
    rewrite <- Hh. apply list_elem_of_omap. exists op. split; [by destruct op; repeat constructor|].
    rewrite decide_True by done. by rewrite Hat.
Qed.

(** *** Suffixes *)

Definition begins_suffix (toks : list TokenKind) : bool :=
  match toks with
  | (TokenKind.LBracket | TokenKind.LBrace | TokenKind.Lt | TokenKind.LParen | TokenKind.Question
    | TokenKind.Not) :: _ => true
  | _ => false
  end.

Lemma ends_postfix rest : check_skip_newlines TokenKind.Dot rest = None →
  check_skip_newlines TokenKind.QuestionDot rest = None → begins_suffix rest = false → ends Precedence.Postfix rest.
Proof.
  intros Hd Hq Hb r e. unfold parse_suffix, look, mbind at 1, parser_bind at 1. rewrite Hd, Hq.
  by destruct rest as [|[] rest].
Qed.

(** *** The next token *)

(** [k] comes next, after any newlines. *)
Definition ahead (k : TokenKind) (rest : list TokenKind) : Prop :=
  ∃ n rest', rest = replicate n TokenKind.Newline ++ k :: rest' ∧ same_kind k TokenKind.Newline = false.

Lemma ahead_here k rest : same_kind k TokenKind.Newline = false → ahead k (k :: rest).
Proof. by exists 0, rest. Qed.

Lemma ahead_newlines n k rest : ahead k rest → ahead k (replicate n TokenKind.Newline ++ rest).
Proof. intros (m & rest' & -> & ?). exists (n + m), rest'. by rewrite replicate_add, <- app_assoc. Qed.

Lemma ahead_skip k rest : ahead k rest → ∃ rest', skip_newlines rest = k :: rest'.
Proof.
  intros (n & rest' & -> & Hk). rewrite skip_newlines_replicate. exists rest'. by destruct k.
Qed.

Lemma ahead_check_skip kind k rest : ahead k rest → same_kind k kind = false → check_skip_newlines kind rest = None.
Proof. intros [rest' Hs]%ahead_skip Hk. unfold check_skip_newlines. rewrite Hs. cbn [check]. by rewrite Hk. Qed.

Lemma ahead_check kind k rest : ahead k rest → same_kind k kind = false → same_kind TokenKind.Newline kind = false →
  check kind rest = false.
Proof. intros ([|n] & rest' & -> & _) ? ?; done. Qed.

Definition is_identifier_named (name : string) (k : TokenKind) : bool :=
  match k with TokenKind.Identifier s => String.eqb s name | _ => false end.

Lemma ahead_identifier name k rest : ahead k rest → is_identifier_named name k = false →
  check_identifier name rest = false.
Proof. intros ([|n] & rest' & -> & _) ?; done. Qed.

(** Whether [k] is the first token of the operator. *)
Definition begins_operator (op : BinaryOperator.BinaryOperator) (k : TokenKind) : bool :=
  match op with
  | BinaryOperator.NotIn => is_identifier_named "not" k
  | _ => same_kind k (binary_operator_token op)
  end.

Lemma ahead_operator_at op k rest : ahead k rest → begins_operator op k = false → operator_at op rest = None.
Proof.
  intros Ha Hk. destruct op; cbn [begins_operator] in Hk;
    cbn [operator_at continues_across_newline binary_operator_token];
    rewrite ?(ahead_check _ k), ?(ahead_identifier _ k) by done; try done; by eapply ahead_check_skip.
Qed.

(** Whether [k] continues an expression of the group. *)
Definition continues_group (g : Precedence.Precedence) (k : TokenKind) : bool :=
  match g with
  | Precedence.Ternary => same_kind k TokenKind.Question
  | Precedence.Range =>
      same_kind k TokenKind.DotDot || same_kind k TokenKind.DotDotEq || is_identifier_named "to" k
  | Precedence.Prefix => false
  | Precedence.Exponent => same_kind k TokenKind.Pow
  | Precedence.Postfix =>
      same_kind k TokenKind.Dot || same_kind k TokenKind.QuestionDot || begins_suffix [k]
  | g => existsb (λ op, bool_decide (precedence op = g) && begins_operator op k) BinaryOperator.ALL
  end.

Lemma ahead_ends_group g k rest : ahead k rest →
  existsb (λ op, bool_decide (precedence op = g) && begins_operator op k) BinaryOperator.ALL = false →
  check_binary_operator g rest = None.
Proof.
  intros Ha Hg. apply check_binary_operator_none. intros op Hop. apply (ahead_operator_at _ k); [done|].
  apply not_true_iff_false. intros Hb. apply not_true_iff_false in Hg. apply Hg, existsb_exists.
  exists op. split; [destruct op; cbn; tauto|]. by rewrite Hb, bool_decide_true.
Qed.

Lemma ahead_ends g k rest : ahead k rest → continues_group g k = false → ends g rest.
Proof.
  intros Ha Hk. destruct g; cbn [ends continues_group] in *; try by apply (ahead_ends_group _ k).
  - by apply (ahead_check_skip _ k).
  - rewrite !orb_false_iff in Hk. destruct Hk as [[? ?] ?]. unfold check_range_operator.
    by rewrite !(ahead_check_skip _ k), (ahead_identifier _ k) by done.
  - done.
  - by apply (ahead_check_skip _ k).
  - rewrite !orb_false_iff in Hk. destruct Hk as [[? ?] ?].
    apply ends_postfix; [by eapply ahead_check_skip..|]. destruct Ha as ([|n] & rest' & -> & _); [|done].
    by destruct k.
Qed.

(** *** Ends of nested expressions *)

Definition stop_token (k : TokenKind) : bool :=
  match k with
  | TokenKind.RParen | TokenKind.RBracket | TokenKind.RBrace | TokenKind.Comma | TokenKind.Colon
  | TokenKind.Eof => true
  | _ => false
  end.

Definition stop_here (rest : list TokenKind) : Prop := ∃ k, ahead k rest ∧ stop_token k = true.

Lemma stop_token_here k rest : stop_token k = true → stop_here (k :: rest).
Proof. intros Hk. exists k. split; [|done]. apply ahead_here. by destruct k. Qed.

Lemma stop_ends g rest : stop_here rest → ends g rest.
Proof. intros (k & Ha & Hk). apply (ahead_ends _ k); [done|]. by destruct k, g. Qed.

Lemma stop_stops g rest : stop_here rest → stops_after g rest.
Proof. intros Hs h _. by apply stop_ends. Qed.

(** *** Ends of left operands *)

(** An operator with its line break, and the tokens after it. *)
Definition operator_text (op : BinaryOperator.BinaryOperator) (n : nat) (x : list TokenKind) : list TokenKind :=
  (if continues_across_newline op then replicate n TokenKind.Newline else []) ++ operator_tokens op ++ x.

Definition first_token (op : BinaryOperator.BinaryOperator) : TokenKind :=
  match op with BinaryOperator.NotIn => TokenKind.Identifier "not" | _ => binary_operator_token op end.

Lemma operator_text_ahead op n x : ahead (first_token op) (operator_text op n x).
Proof.
  destruct op; first [by apply (ahead_newlines n), ahead_here | by apply ahead_here].
Qed.

Lemma operator_ends op n x g : Precedence.level (precedence op) < Precedence.level g →
  (op = BinaryOperator.Lt → no_gt_paren x = true) → ends g (operator_text op n x).
Proof.
  intros Hl Hx. pose proof (operator_text_ahead op n x) as Ha.
  destruct (decide (op = BinaryOperator.Lt ∧ g = Precedence.Postfix)) as [[-> ->]|Hne].
  - intros r e. unfold parse_suffix, look, mbind at 1, parser_bind at 1.
    rewrite 2!(ahead_check_skip _ TokenKind.Lt) by done. destruct n; [|done].
    destruct e; try done. apply no_generic_call. by apply Hx.
  - apply (ahead_ends _ _ _ Ha). destruct op, g; try done; try (cbn in Hl; lia). by destruct Hne.
Qed.

Lemma operator_found op n x : precedence op ≠ Precedence.Exponent →
  check_binary_operator (precedence op) (operator_text op n x) = Some (op, operator_tokens op ++ x).
Proof.
  intros Hp. apply check_binary_operator_some.
  - destruct op; try done; unfold operator_text; cbn [operator_at continues_across_newline binary_operator_token];
      unfold check_skip_newlines; by rewrite skip_newlines_replicate.
  - intros op' Hg Hne. apply (ahead_operator_at _ _ _ (operator_text_ahead op n x)). by destruct op, op'.
Qed.

(** ** Reading a printed text *)

(** The next tighter group. *)
Definition tighter_group (g : Precedence.Precedence) : Precedence.Precedence := tighter CURRENT g.

(** The parser of group [g] on the text [ts] of [e], and on what follows: it is
    in its loop with [e], or is done. *)
Definition reads (g : Precedence.Precedence) (r : nat) (ts : list TokenKind) (e : Expr)
    (rest : list TokenKind) : Prop :=
  match g with
  | Precedence.Ternary | Precedence.Range | Precedence.Prefix | Precedence.Exponent =>
      parse_group g r (ts ++ rest) = Accepted e rest
  | Precedence.Postfix =>
      ∃ fuel, length rest < fuel ∧
        parse_group g r (ts ++ rest) = parse_postfix_suffixes unicode_uppercase (inner r) fuel e rest
  | g =>
      ∃ fuel, length rest < fuel ∧
        parse_group g r (ts ++ rest) = binary_loop (parse_group (tighter_group g) r) g fuel e rest
  end.

Lemma reads_done g r ts e rest : reads g r ts e rest → ends g rest → parse_group g r (ts ++ rest) = Accepted e rest.
Proof.
  destruct g; cbn [reads ends]; try done; intros (fuel & Hf & ->) He; (destruct fuel as [|fuel]; [lia|]).
  all: cbn [binary_loop parse_postfix_suffixes]; unfold look, mbind, parser_bind; by rewrite He.
Qed.

(** Text that a prefix operator begins. *)
Definition prefixed (ts : list TokenKind) : bool := check TokenKind.Not ts || check TokenKind.Minus ts.

Lemma level_inj g h : Precedence.level g = Precedence.level h → g = h.
Proof. by destruct g, h. Qed.

Lemma level_postfix g : Precedence.level g ≤ Precedence.level Precedence.Postfix.
Proof. destruct g; cbv; lia. Qed.

Lemma level_tighter g : g ≠ Precedence.Postfix → Precedence.level (tighter_group g) = S (Precedence.level g).
Proof. by destruct g. Qed.

(** A text one group reads, the next looser group reads. *)
Lemma reads_looser g r ts e rest : g ≠ Precedence.Postfix →
  parse_group (tighter_group g) r (ts ++ rest) = Accepted e rest → (loops g = false → ends g rest) →
  (g = Precedence.Prefix → prefixed (ts ++ rest) = false) → reads g r ts e rest.
Proof.
  intros Hg Hp He Hpre.
  assert (∀ g', parse_group (tighter_group g) r = parse_group g' r →
    parse_group g' r (ts ++ rest) = Accepted e rest) as Ht by (by intros ? <-).
  destruct g; try done; cbn [reads loops] in *.
  1, 3, 4, 5, 6, 7, 9, 10: exists (S (length rest)); split; [lia|].
  1-8: lazymatch goal with |- parse_group ?g _ _ = _ =>
         change (parse_group g r) with (parse_binary_group (parse_group (tighter_group g) r) g) end;
       unfold parse_binary_group, mbind at 1, parser_bind at 1; by rewrite Hp.
  - specialize (He eq_refl).
    change (parse_group Precedence.Ternary r) with (parse_ternary (inner r) (parse_group Precedence.LogicalOr r)).
    unfold parse_ternary, look, mbind, parser_bind. rewrite (Ht Precedence.LogicalOr) by done.
    cbn [ends] in He. by rewrite He.
  - specialize (He eq_refl).
    change (parse_group Precedence.Range r) with (parse_range CURRENT (parse_group Precedence.Additive r)).
    unfold parse_range, look, mbind, parser_bind. rewrite (Ht Precedence.Additive) by done.
    cbn [ends] in He. by rewrite He.
  - specialize (Hpre eq_refl). apply orb_false_iff in Hpre as [H1 H2].
    change (parse_group Precedence.Prefix r) with (parse_unary_expression unicode_uppercase (inner r)).
    unfold parse_unary_expression, look, mbind at 1, parser_bind at 1. by rewrite H1, H2.
  - specialize (He eq_refl).
    change (parse_group Precedence.Exponent r) with (parse_exponent unicode_uppercase (inner r)).
    unfold parse_exponent, look, mbind, parser_bind.
    pose proof (Ht Precedence.Postfix eq_refl) as Hx. unfold parse_group in Hx.
    change (parse_precedence unicode_uppercase CURRENT (inner r) Precedence.Postfix) with
      (parse_postfix unicode_uppercase (inner r)) in Hx. rewrite Hx. cbn [ends] in He. by rewrite He.
Qed.

(** and so does every looser group whose operators do not follow. *)
Lemma reads_climb g h r ts e rest : Precedence.level g ≤ Precedence.level h → reads h r ts e rest →
  (g = h ∨ stops_after g rest) →
  (Precedence.level Precedence.Prefix < Precedence.level h → prefixed (ts ++ rest) = false) → reads g r ts e rest.
Proof.
  remember (Precedence.level h - Precedence.level g) as n eqn:Hn. revert g Hn.
  induction n as [|n IH]; intros g Hn Hle Hr Hs Hpre.
  { assert (g = h) as -> by (apply level_inj; lia). done. }
  assert (g ≠ h) as Hne by (intros ->; lia). destruct Hs as [->|Hs]; [done|].
  assert (g ≠ Precedence.Postfix) as Hg by (intros ->; pose proof (level_postfix h); apply Hne, level_inj; lia).
  pose proof (level_tighter g Hg) as Hlt.
  assert (reads (tighter_group g) r ts e rest) as Ht.
  { apply IH; [lia|lia|done| |done]. right. intros k [Hk|[-> _]]; apply Hs; left; lia. }
  apply reads_looser; [done| |intros; apply Hs; by right|].
  - apply (reads_done _ _ _ _ _ Ht). apply Hs. left. lia.
  - intros ->. apply Hpre. lia.
Qed.
End reparse.
