(* ===== verification/ReparseOperators.v ===== *)
(** * Printed operators parse to themselves

    [reprints] is the statement proved of each node: the parser of its group
    reads its printed text, wherever that fits. Here for operands and the
    operators, prefixes, powers, ternaries and ranges. *)

From Stdlib Require Import Strings.String.
From S2P Require Import Prelude Program Operators Token Syntax ParserState TypeParser Parser Format ParserEnds Printable Reading.

Section reparse.
Context (unicode_uppercase : string → bool) (layout : Layout).
#[local] Abbreviation inner := (inner_level unicode_uppercase).
#[local] Abbreviation printable := (printable unicode_uppercase).
#[local] Abbreviation tokens := (tokens layout).
#[local] Abbreviation parse_group := (parse_group unicode_uppercase).
#[local] Abbreviation ends := (ends unicode_uppercase).
#[local] Abbreviation stops_after := (stops_after unicode_uppercase).
#[local] Abbreviation reads := (reads unicode_uppercase).
#[local] Abbreviation object_text := (object_text layout).

(** ** Preliminaries *)

(** Running a parser step by step. *)
Lemma bind_accepted {A B} (m : Parser A) (f : A → Parser B) toks a rest :
  m toks = Accepted a rest → (m ≫= f) toks = f a rest.
Proof. intros Hm. unfold mbind, parser_bind. by rewrite Hm. Qed.

Lemma look_bind {B} (f : list TokenKind → Parser B) toks : (look ≫= f) toks = f toks toks.
Proof. done. Qed.

Lemma next_bind {B} (f : unit → Parser B) k toks : (next ≫= f) (k :: toks) = f tt toks.
Proof. done. Qed.

Lemma move_bind {B} g (f : unit → Parser B) toks : (move g ≫= f) toks = f tt (g toks).
Proof. done. Qed.

Lemma skip_bind {B} (f : unit → Parser B) toks : (skip ≫= f) toks = f tt (skip_newlines toks).
Proof. done. Qed.

Lemma fmap_accepted {A B} (g : A → B) (m : Parser A) toks a rest :
  m toks = Accepted a rest → (g <$> m) toks = Accepted (g a) rest.
Proof. intros Hm. unfold fmap, parser_fmap. by rewrite (bind_accepted _ _ _ _ _ Hm). Qed.

Lemma levels_inner r : levels unicode_uppercase CURRENT r = level unicode_uppercase CURRENT (inner r).
Proof. by destruct r. Qed.

Lemma skip_shaped ts rest : starts ts = true → skip_newlines (ts ++ rest) = ts ++ rest.
Proof. by destruct ts as [|[] ts]. Qed.

Definition is_member (e : Expr) : bool :=
  match e with Expr.PropertyAccess _ _ | Expr.OptionalPropertyAccess _ _ => true | _ => false end.

(** What may directly follow the text of [e]. *)
Definition fits (e : Expr) (rest : list TokenKind) : Prop :=
  (ends_try e = true → starts (skip_newlines rest) = false) ∧
  (is_member e = true → check TokenKind.LParen rest = false).

(** The statement proved of each node. *)
Definition reprints (e : Expr) : Prop := ∀ chain p r rest,
  printable chain e = true → depth e ≤ r → no_generic (tokens chain p e ++ rest) = true →
  fits e rest → stops_after (of_node e) rest → reads (of_node e) r (tokens chain p e) e rest.

Lemma ahead_fits e k rest : ahead k rest → token_starts_ternary_branch k = false →
  same_kind k TokenKind.LParen = false → fits e rest.
Proof.
  intros Ha Hk Hp. split; intros _; [|by apply (ahead_check _ k)].
  destruct (ahead_skip _ _ Ha) as [rest' ->]. done.
Qed.

Lemma stop_fits e rest : stop_here rest → fits e rest.
Proof. intros (k & Ha & Hk). by apply (ahead_fits _ k); [|destruct k..]. Qed.

Lemma ends_no_paren rest : ends Precedence.Postfix rest → check TokenKind.LParen rest = false.
Proof.
  intros He. destruct rest as [|[] rest]; try done. specialize (He 0 Expr.NilLiteral).
  unfold parse_suffix, look, next, move, mbind, parser_bind in He. cbn in He.
  by destruct (parse_args _ _).
Qed.

(** A right operand ends where the operation does. *)
Lemma ends_fits e rest : (ends_try e = true → starts (skip_newlines rest) = false) →
  ends Precedence.Postfix rest → fits e rest.
Proof. intros ? ?. split; [done|]. intros _. by apply ends_no_paren. Qed.

Lemma stops_weaken g h rest : Precedence.level g ≤ Precedence.level h → stops_after g rest → stops_after h rest.
Proof.
  intros Hl Hs k Hk. destruct (decide (g = h)) as [->|Hne]; [by apply Hs|]. apply Hs.
  assert (Precedence.level g ≠ Precedence.level h) by (by intros ?%level_inj). destruct Hk as [?|[-> _]]; left; lia.
Qed.

Lemma stops_ends g h rest : Precedence.level g < Precedence.level h → stops_after g rest → ends h rest.
Proof. intros ? Hs. apply Hs. by left. Qed.

(** *** No prefix operators *)

Lemma prefixed_app ts rest : starts ts = true → prefixed (ts ++ rest) = prefixed ts.
Proof. by destruct ts. Qed.

Lemma prefixed_grouped b ts : (b = false → prefixed ts = false) → prefixed (grouped b ts) = false.
Proof. destruct b; [done|auto]. Qed.

Lemma bare_object o : needs_parens_as_postfix_object o = false → of_node o = Precedence.Postfix.
Proof.
  unfold needs_parens_as_postfix_object, operand_needs_grouping. destruct (of_node o); done.
Qed.

(** The text of a node tighter than a prefix operator begins with none. *)
Definition prefix_free (e : Expr) : Prop := ∀ chain p, printable chain e = true →
  Precedence.level Precedence.Prefix < Precedence.level (of_node e) → prefixed (tokens chain p e) = false.

Lemma object_prefix_free p o : prefix_free o → printable false o = true → prefixed (object_text p o) = false.
Proof.
  intros Ho Hp. apply prefixed_grouped. intros Hb. apply Ho; [done|]. rewrite (bare_object o Hb). cbv. lia.
Qed.

(** A suffix is printed after its object. *)
Lemma suffix_text p o s : (needs_parens_as_postfix_object o || negb (ends_try o)) && printable false o = true →
  glue (object_text p o) s = object_text p o ++ s.
Proof.
  intros [Ht Hp]%andb_true_iff. apply glue_closed, closed_grouped. intros Hb.
  eapply tokens_closed; [done|]. rewrite Hb in Ht. by destruct (ends_try o).
Qed.

Lemma object_starts p o : printable false o = true → starts (object_text p o) = true.
Proof. intros Hp. eapply shaped_grouped, tokens_shaped. done. Qed.

Lemma suffix_prefix_free p o s ts : prefix_free o →
  (needs_parens_as_postfix_object o || negb (ends_try o)) && printable false o = true →
  ts = glue (object_text p o) s ∨ ts = object_text p o ++ s → prefixed ts = false.
Proof.
  intros Ho Hp Hts. assert (ts = object_text p o ++ s) as ->.
  { destruct Hts as [-> | ->]; [by apply suffix_text|done]. }
  apply andb_true_iff in Hp as [_ Hp]. rewrite prefixed_app by (by apply object_starts).
  by apply object_prefix_free.
Qed.

Lemma member_prefix_free p o dot m args : prefix_free o →
  (needs_parens_as_postfix_object o || negb (ends_try o)) && printable false o = true →
  prefixed (member_tokens layout p (object_text p o) dot m ++ args) = false.
Proof.
  intros Ho Hp. unfold member_tokens. rewrite suffix_text by done. rewrite <- app_assoc.
  eapply suffix_prefix_free; [done..|by right].
Qed.

Lemma binary_prefix_free op l r : prefix_free l → prefix_free (Expr.BinaryOp op l r).
Proof.
  intros Hl chain p Hp Hlevel. rewrite (tokens_binary _ _ _ _ _ _ _ Hp).
  cbn [Printable.printable] in Hp. rewrite !andb_true_iff in Hp. destruct Hp as [[_ Hpl] _].
  rewrite prefixed_app by (eapply shaped_grouped, tokens_shaped; done). apply prefixed_grouped. intros Hb.
  apply Hl; [done|]. revert Hlevel Hb. cbn [of_node]. destruct op; try (intros Hx; cbv in Hx; lia). intros _.
  unfold child_needs_parens, operand_needs_grouping. destruct (of_node l); try done; cbv; lia.
Qed.

Lemma tokens_prefix_free e : prefix_free e.
Proof.
  induction e using expr_ind; try (by apply binary_prefix_free);
    intros chain path Hp Hl; cbn [Printable.printable] in Hp; try done; try (cbv in Hl; lia).
  - cbn [Format.tokens]. unfold int_tokens. by replace (z <? 0)%Z with false by lia.
  - cbn [Format.tokens]. unfold float_tokens. by destruct (N.testbit f 63).
  - by destruct b.
  - cbn [Format.tokens]. by rewrite plain_name_word.
  - apply andb_true_iff in Hp as [[Hn _]%andb_true_iff _]. cbn [Format.tokens]. by rewrite plain_name_word.
  - apply andb_true_iff in Hp as [[_ Ho]%andb_true_iff _]. by eapply (suffix_prefix_free path e); [| |right].
  - apply andb_true_iff in Hp as [[_ Ho]%andb_true_iff _]. by apply (member_prefix_free path e).
  - apply andb_true_iff in Hp as [[_ Ho]%andb_true_iff _]. by apply (member_prefix_free path e).
  - apply andb_true_iff in Hp as [_ Ho]. rewrite <- (app_nil_r (tokens _ _ _)). by apply (member_prefix_free path e).
  - apply andb_true_iff in Hp as [_ Ho]. rewrite <- (app_nil_r (tokens _ _ _)). by apply (member_prefix_free path e).
  - apply andb_true_iff in Hp as [Ho _]. by eapply (suffix_prefix_free path e1); [| |right].
  - apply andb_true_iff in Hp as [Ho _]. by eapply (suffix_prefix_free path e1); [| |left].
  - apply andb_true_iff in Hp as [[Ho _]%andb_true_iff _]. by eapply (suffix_prefix_free path e); [| |right].
  - apply andb_true_iff in Hp as [[[Hn _]%andb_true_iff _]%andb_true_iff _]. cbn [Format.tokens].
    by rewrite plain_name_word.
  - by eapply (suffix_prefix_free path e); [| |left].
  - by eapply (suffix_prefix_free path e); [| |right].
Qed.

(** ** Operands *)

Lemma primary_reads r ts e rest : parse_primary (inner r) (ts ++ rest) = Accepted e rest →
  reads Precedence.Postfix r ts e rest.
Proof.
  intros Hp. exists (S (length rest)). split; [lia|].
  change (parse_group Precedence.Postfix r) with (parse_postfix unicode_uppercase (inner r)).
  unfold parse_postfix, mbind at 1, parser_bind at 1. by rewrite Hp.
Qed.

(** An expression read by the loosest group, where it ends. *)
Lemma expression_reads e chain p r rest : reprints e → printable chain e = true → depth e ≤ r →
  no_generic (tokens chain p e ++ rest) = true → stop_here rest →
  parse_group Precedence.Pipe r (tokens chain p e ++ rest) = Accepted e rest.
Proof.
  intros He Hp Hd Hg Hs. apply reads_done; [|by apply stop_ends].
  apply (reads_climb _ _ (of_node e)).
  - destruct (of_node e); cbv; lia.
  - apply He; try done; [by apply stop_fits|by apply stop_stops].
  - right. by apply stop_stops.
  - intros Hl. rewrite prefixed_app by (by eapply tokens_shaped). by apply tokens_prefix_free.
Qed.

Lemma nested_reads context e p m r rest : reprints e → printable false e = true → S (depth e) ≤ r →
  no_generic (tokens false p e ++ rest) = true → stop_here rest →
  parse_nested_expression (inner r) context (replicate m TokenKind.Newline ++ tokens false p e ++ rest) =
    Accepted e rest.
Proof.
  intros He Hp Hd Hg Hs. destruct r as [|r]; [lia|].
  unfold parse_nested_expression, with_nesting. cbn [inner_level]. rewrite levels_inner.
  cbn [level level_expression]. unfold parse_expression, skip, move, mbind, parser_bind.
  rewrite skip_newlines_replicate, skip_shaped by (by eapply tokens_shaped).
  apply (expression_reads e false p r rest); auto with lia.
Qed.

(** A closing token, where one is expected. *)
Lemma consume_here kind expected k rest : same_kind k kind = true → same_kind k TokenKind.Newline = false →
  consume kind expected (k :: rest) = Accepted tt rest.
Proof.
  intros Hk Hn. unfold consume, skip, move, look, next, mbind, parser_bind.
  replace (skip_newlines (k :: rest)) with (k :: rest) by (by destruct k). cbn [check]. by rewrite Hk.
Qed.

Lemma parenthesized_reads e chain p r rest : reprints e → printable chain e = true → S (depth e) ≤ r →
  no_generic (tokens chain p e ++ TokenKind.RParen :: rest) = true →
  reads Precedence.Postfix r (grouped true (tokens chain p e)) e rest.
Proof.
  intros He Hp Hd Hg. apply primary_reads. cbn [grouped]. rewrite <- app_comm_cons, <- app_assoc.
  unfold parse_primary, look, next, move, mbind, parser_bind. cbn [advance tail app].
  destruct r as [|r]; [lia|]. unfold with_nesting. cbn [inner_level]. rewrite levels_inner.
  cbn [level level_expression]. unfold parse_expression, skip, move, mbind, parser_bind.
  rewrite skip_shaped by (by eapply tokens_shaped).
  pose proof (expression_reads e chain p r (TokenKind.RParen :: rest) He Hp ltac:(lia) Hg
    (stop_token_here TokenKind.RParen rest eq_refl)) as Hr. unfold Reading.parse_group in Hr. change (loosest CURRENT) with Precedence.Pipe.
  rewrite Hr. by rewrite consume_here.
Qed.

(** An operand, grouped where it is looser than its place. *)
Lemma operand_reads b chain p e g r rest : reprints e → printable chain e = true → grouping b (depth e) ≤ r →
  no_generic (grouped b (tokens chain p e) ++ rest) = true →
  (b = false → Precedence.level g ≤ Precedence.level (of_node e) ∧ fits e rest) → stops_after g rest →
  reads g r (grouped b (tokens chain p e)) e rest.
Proof.
  intros He Hp Hd Hg Hb Hs. destruct b.
  - apply (reads_climb _ _ Precedence.Postfix); [apply level_postfix| |by right|done].
    apply parenthesized_reads; [done..|]. cbn [grouped] in Hg. rewrite <- app_comm_cons, <- app_assoc in Hg.
    by apply no_generic_cons in Hg.
  - destruct (Hb eq_refl) as [Hl Hf]. apply (reads_climb _ _ (of_node e)); [done| |by right|].
    + apply He; try done. by apply (stops_weaken g).
    + intros Hlevel. cbn [grouped]. rewrite prefixed_app by (by eapply tokens_shaped).
      by apply tokens_prefix_free.
Qed.

Lemma operand_starts b chain p e : printable chain e = true → starts (grouped b (tokens chain p e)) = true.
Proof. intros Hp. eapply shaped_grouped, tokens_shaped. done. Qed.

(** ** Operators *)

Lemma grouping_le b n r : grouping b n ≤ r → n ≤ r.
Proof. destruct b; cbn; lia. Qed.

Lemma binary_text chain p op l r rest : printable chain (Expr.BinaryOp op l r) = true →
  tokens chain p (Expr.BinaryOp op l r) ++ rest =
    grouped (child_needs_parens op l false) (tokens (deep_chain chain op l) (1 :: p) l) ++
    operator_text op (breaks layout (0 :: p))
      (grouped (child_needs_parens op r true) (tokens false (2 :: p) r) ++ rest).
Proof.
  intros Hp. rewrite (tokens_binary _ _ _ _ _ _ _ Hp). unfold operator_text. by rewrite <- !app_assoc.
Qed.

(** The grouping rule keeps operands no looser than their place. *)
Lemma bare_left op l : child_needs_parens op l false = false → op ≠ BinaryOperator.Pow →
  Precedence.level (precedence op) ≤ Precedence.level (of_node l).
Proof.
  unfold child_needs_parens, operand_needs_grouping. intros Hb Hop.
  destruct (operand_needs_parens _ _ _) eqn:Hn; [done|]. clear Hb. revert Hn.
  destruct op, (of_node l); try done; cbv; lia.
Qed.

Lemma bare_right op r : child_needs_parens op r true = false → op ≠ BinaryOperator.Pow →
  Precedence.level (tighter_group (precedence op)) ≤ Precedence.level (of_node r).
Proof.
  unfold child_needs_parens, operand_needs_grouping. intros Hb Hop.
  destruct (operand_needs_parens _ _ _) eqn:Hn; [done|]. clear Hb. revert Hn.
  destruct op, (of_node r); try done; cbv; lia.
Qed.

(** What follows a left operand fits it. *)
Lemma operator_fits op n x l : (operator_starts_branch op = true → ends_try l = false) →
  fits l (operator_text op n x).
Proof.
  intros Hb. pose proof (operator_text_ahead op n x) as Ha.
  destruct (operator_starts_branch op) eqn:Ho; [|by apply (ahead_fits _ _ _ Ha); destruct op].
  split; [by rewrite Hb|]. intros _. by apply (ahead_check _ _ _ Ha); destruct op.
Qed.

Lemma no_generic_operator op n x : no_generic (operator_text op n x) = true →
  no_generic x = true ∧ (op = BinaryOperator.Lt → no_gt_paren x = true).
Proof.
  intros Hg. split.
  - unfold operator_text in Hg. rewrite app_assoc in Hg. by apply no_generic_app in Hg.
  - intros ->. apply no_generic_app in Hg. cbn in Hg. by destruct (no_gt_paren x).
Qed.

(** One turn of the loop of a binary group. *)
Lemma binary_step operand op n fuel l r x rest : precedence op ≠ Precedence.Exponent → starts x = true →
  operand (x ++ rest) = Accepted r rest →
  binary_loop operand (precedence op) (S fuel) l (operator_text op n (x ++ rest)) =
    binary_loop operand (precedence op) fuel (Expr.BinaryOp op l r) rest.
Proof.
  intros Hop Hx Hr. cbn [binary_loop]. rewrite look_bind, operator_found by done. rewrite move_bind.
  assert (∀ k y, (next ≫= λ _, (if decide (op = BinaryOperator.NotIn) then next else mret tt) ≫= λ _,
    skip ≫= λ _, operand ≫= λ right_, binary_loop operand (precedence op) fuel (Expr.BinaryOp op l right_)) (k :: y) =
    (skip ≫= λ _, operand ≫= λ right_, binary_loop operand (precedence op) fuel (Expr.BinaryOp op l right_))
      (if decide (op = BinaryOperator.NotIn) then advance y else y)) as Hstep by (intros; by destruct (decide _)).
  assert (∃ k y, operator_tokens op ++ x ++ rest = k :: y ∧
    (if decide (op = BinaryOperator.NotIn) then advance y else y) = x ++ rest) as (k & y & -> & Hy)
    by (destruct op; by repeat eexists).
  rewrite Hstep, Hy, skip_bind, skip_shaped by done. by rewrite (bind_accepted _ _ _ _ _ Hr).
Qed.

Lemma operator_text_length op n x : length x < length (operator_text op n x).
Proof. unfold operator_text. rewrite !length_app. destruct op; cbn; lia. Qed.

Lemma binary_reprints op l r : op ≠ BinaryOperator.Pow → reprints l → reprints r →
  reprints (Expr.BinaryOp op l r).
Proof.
  intros Hop Hl Hr chain p budget rest Hp Hd Hg [Hf _] Hs. unfold reads.
  rewrite (binary_text _ _ _ _ _ _ Hp) in Hg |- *.
  cbn [Printable.printable] in Hp. rewrite !andb_true_iff in Hp. destruct Hp as [[[_ Ht] Hpl] Hpr].
  cbn [depth] in Hd. set (R := grouped (child_needs_parens op r true) (tokens false (2 :: p) r)) in *.
  set (n := breaks layout (0 :: p)) in *.
  assert (precedence op ≠ Precedence.Exponent) as Hprec by (by destruct op).
  assert (loops (precedence op) = true ∧ precedence op ≠ Precedence.Postfix) as [Hloop Hpost] by (by destruct op).
  destruct (no_generic_operator op n (R ++ rest)) as [Hgr Hlt]; [by apply no_generic_app in Hg|].
  assert (parse_group (tighter_group (precedence op)) budget (R ++ rest) = Accepted r rest) as Hright.
  { apply reads_done; [apply operand_reads; [done..| | | |]|].
    - destruct op; cbn in Hd |- *; lia.
    - done.
    - intros Hb. split; [by apply bare_right|]. apply ends_fits.
      + intros Hr'. apply Hf. cbn [ends_try]. by rewrite Hb.
      + apply (stops_ends (precedence op)); [|done]. by destruct op; cbv; lia.
    - apply (stops_weaken (precedence op)); [|done]. rewrite level_tighter by done. lia.
    - apply (stops_ends (precedence op)); [|done]. rewrite level_tighter by done. lia. }
  assert (reads (precedence op) budget (grouped (child_needs_parens op l false)
    (tokens (deep_chain chain op l) (1 :: p) l)) l (operator_text op n (R ++ rest))) as Hleft.
  { apply operand_reads; [done..|destruct op; cbn in Hd |- *; lia|done| |].
    - intros Hb. split; [by apply bare_left|]. apply operator_fits. intros Hbranch.
      rewrite Hb, Hbranch in Ht. by destruct (ends_try l).
    - intros h [Hh|[-> Hh]]; [by apply operator_ends|congruence]. }
  assert (∀ fuel, length (operator_text op n (R ++ rest)) < fuel → ∃ fuel', length rest < fuel' ∧
    binary_loop (parse_group (tighter_group (precedence op)) budget) (precedence op) fuel l
      (operator_text op n (R ++ rest)) =
    binary_loop (parse_group (tighter_group (precedence op)) budget) (precedence op) fuel'
      (Expr.BinaryOp op l r) rest) as Hstep.
  { intros [|fuel] Hfuel; [lia|]. exists fuel. pose proof (operator_text_length op n (R ++ rest)) as Hlen.
    rewrite length_app in Hlen. split; [lia|]. apply binary_step; [done|by apply operand_starts|done]. }
  cbn [of_node]. unfold reads in Hleft.
  destruct op; try done; destruct Hleft as (fuel & Hfuel & Heq); destruct (Hstep fuel Hfuel) as (f' & Hf' & Heq');
    exists f'; (split; [exact Hf'|exact (eq_trans Heq Heq')]).
Qed.

(** *** Powers and prefixes *)

(** The parser of unary expressions one level in. *)
Lemma nested_unary r context ts e rest : parse_group Precedence.Prefix r (ts ++ rest) = Accepted e rest →
  with_nesting (inner (S r)) context level_unary (ts ++ rest) = Accepted e rest.
Proof.
  intros Hp. unfold with_nesting. cbn [inner_level]. by rewrite levels_inner.
Qed.

Lemma nested_ternary r context ts e rest : parse_group Precedence.Ternary r (ts ++ rest) = Accepted e rest →
  with_nesting (inner (S r)) context level_ternary (ts ++ rest) = Accepted e rest.
Proof.
  intros Hp. unfold with_nesting. cbn [inner_level]. by rewrite levels_inner.
Qed.

(** An operand of a prefix or of a power. *)
Lemma prefix_operand b p e g r rest (parent : Expr) : reprints e → printable false e = true →
  grouping b (depth e) ≤ r → no_generic (grouped b (tokens false p e) ++ rest) = true →
  (b = false → Precedence.level Precedence.Prefix ≤ Precedence.level (of_node e)) →
  (negb b && ends_try e = true → ends_try parent = true) → fits parent rest →
  g = Precedence.Prefix ∨ g = Precedence.Exponent → stops_after g rest →
  parse_group Precedence.Prefix r (grouped b (tokens false p e) ++ rest) = Accepted e rest.
Proof.
  intros He Hp Hd Hg Hb Ht [Hf _] Hgroup Hs.
  assert (∀ h, Precedence.level Precedence.Prefix ≤ Precedence.level h → ends h rest) as Hends.
  { intros h Hh. destruct (decide (h = Precedence.Prefix)) as [->|]; [done|].
    destruct (decide (h = Precedence.Exponent)) as [->|].
    - apply Hs. destruct Hgroup as [-> | ->]; [left; cbv; lia|by right].
    - assert (h = Precedence.Postfix) as -> by (destruct h; try done; cbv in Hh; lia).
      apply (stops_ends g); [|done]. destruct Hgroup as [-> | ->]; cbv; lia. }
  apply reads_done; [|done]. apply operand_reads; [done..| |].
  - intros Hbare. split; [by apply Hb|]. apply ends_fits; [|apply Hends; cbv; lia].
    intros Htry. apply Hf, Ht. by rewrite Hbare.
  - intros h Hh. apply Hends. destruct Hh as [?|[-> _]]; lia.
Qed.

Lemma pow_reprints l r : reprints l → reprints r → reprints (Expr.BinaryOp BinaryOperator.Pow l r).
Proof.
  intros Hl Hr chain p budget rest Hp Hd Hg Hf Hs. unfold reads. cbn [of_node precedence] in Hs |- *.
  rewrite (binary_text _ _ _ _ _ _ Hp) in Hg |- *.
  cbn [Printable.printable] in Hp. rewrite !andb_true_iff in Hp. destruct Hp as [[[_ Ht] Hpl] Hpr].
  cbn [depth] in Hd. set (R := grouped (child_needs_parens BinaryOperator.Pow r true) (tokens false (2 :: p) r)) in *.
  set (n := breaks layout (0 :: p)) in *.
  destruct (no_generic_operator BinaryOperator.Pow n (R ++ rest)) as [Hgr _]; [by apply no_generic_app in Hg|].
  change (parse_group Precedence.Exponent budget) with (parse_exponent unicode_uppercase (inner budget)).
  unfold parse_exponent. rewrite (bind_accepted _ _ _ l (operator_text BinaryOperator.Pow n (R ++ rest))).
  2: { apply (reads_done _ Precedence.Postfix); [|by apply operator_ends; [cbv; lia|]].
    apply operand_reads; [done..|lia|done| |].
    - intros Hb. split; [|by apply operator_fits]. revert Hb. unfold child_needs_parens, operand_needs_grouping.
      destruct (of_node l); try done; cbv; lia.
    - intros h [Hh|[-> Hh]]; [|done]. pose proof (level_postfix h). lia. }
  rewrite look_bind. unfold operator_text at 1. unfold check_skip_newlines. cbn [continues_across_newline].
  rewrite skip_newlines_replicate. cbn [operator_tokens binary_operator_token app skip_newlines].
  cbn [check same_kind TokenKind.discriminant N.eqb Pos.eqb]. rewrite move_bind, next_bind, skip_bind.
  destruct budget as [|budget]; [lia|].
  rewrite skip_shaped by (by apply operand_starts).
  rewrite (bind_accepted _ _ _ r rest); [done|]. apply nested_unary.
  apply (prefix_operand _ _ _ Precedence.Exponent _ _ (Expr.BinaryOp BinaryOperator.Pow l r)); try done; try lia.
  - intros Hb. revert Hb. unfold child_needs_parens, operand_needs_grouping.
    destruct (of_node r); try done; cbv; lia.
  - by right.
Qed.

Lemma unary_reprints op o : reprints o → reprints (Expr.UnaryOp op o).
Proof.
  intros Ho chain p budget rest Hp Hd Hg Hf Hs. unfold reads. cbn [of_node] in Hs |- *.
  cbn [depth] in Hd. cbn [Printable.printable] in Hp. destruct budget as [|budget]; [lia|].
  change (parse_group Precedence.Prefix (S budget)) with (parse_unary_expression unicode_uppercase (inner (S budget))).
  unfold parse_unary_expression. rewrite look_bind. cbv zeta. cbn [Format.tokens].
  assert (with_nesting (inner (S budget)) "unary expression" level_unary
    (grouped (needs_parens_as_unary_operand o) (tokens false (1 :: p) o) ++ rest) = Accepted o rest) as Hn.
  { apply nested_unary.
    apply (prefix_operand _ _ _ Precedence.Prefix _ _ (Expr.UnaryOp op o)); try done; try lia.
    - cbn [Format.tokens] in Hg. by apply no_generic_cons in Hg.
    - unfold needs_parens_as_unary_operand, operand_needs_grouping. intros [_ Hb]%orb_false_iff. revert Hb.
      destruct (of_node o); try done; cbv; lia.
    - by left. }
  destruct op; cbn [app check same_kind TokenKind.discriminant N.eqb Pos.eqb];
    rewrite next_bind; by rewrite (bind_accepted _ _ _ _ _ Hn).
Qed.

(** *** Ternaries *)

(** The question mark of a printed ternary is not taken for a [?] operator. *)
Lemma ternary_question t rest : shaped t →
  question_starts_ternary_branch (t ++ TokenKind.Colon :: rest) = true.
Proof.
  intros [Hs Hseg]. unfold question_starts_ternary_branch. rewrite skip_shaped by done.
  destruct t as [|k t]; [done|]. cbn [app starts] in Hs |- *. rewrite Hs. by apply (ternary_passes (k :: t)).
Qed.

Lemma question_ends t rest g : shaped t → Precedence.level Precedence.Ternary < Precedence.level g →
  ends g (TokenKind.Question :: t ++ TokenKind.Colon :: rest).
Proof.
  intros Ht Hg. destruct (decide (g = Precedence.Postfix)) as [->|Hne].
  - intros r e. unfold parse_suffix. rewrite look_bind. cbn [check_skip_newlines skip_newlines check same_kind].
    cbn [TokenKind.discriminant N.eqb Pos.eqb]. by rewrite ternary_question.
  - apply (ahead_ends _ _ TokenKind.Question); [by apply ahead_here|].
    destruct g; try done. cbv in Hg. lia.
Qed.

Lemma branch_bare e : operand_needs_grouping Precedence.Ternary e OperandSide.TernaryBranch = false →
  Precedence.level Precedence.Ternary ≤ Precedence.level (of_node e).
Proof. unfold operand_needs_grouping. destruct (of_node e); try done; cbv; lia. Qed.

(** A branch, one level in. *)
Lemma branch_reads context p e r rest : reprints e → printable false e = true →
  grouping (operand_needs_grouping Precedence.Ternary e OperandSide.TernaryBranch) (depth e) ≤ r →
  no_generic (grouped (operand_needs_grouping Precedence.Ternary e OperandSide.TernaryBranch)
    (tokens false p e) ++ rest) = true →
  (operand_needs_grouping Precedence.Ternary e OperandSide.TernaryBranch = false → fits e rest) →
  (∀ h, Precedence.level Precedence.Ternary ≤ Precedence.level h → ends h rest) →
  with_nesting (inner (S r)) context level_ternary
    (grouped (operand_needs_grouping Precedence.Ternary e OperandSide.TernaryBranch) (tokens false p e) ++ rest) =
    Accepted e rest.
Proof.
  intros He Hp Hd Hg Hf Hends. apply nested_ternary, reads_done; [|by apply Hends].
  apply operand_reads; [done..| |].
  - intros Hb. split; [by apply branch_bare|auto].
  - intros h [?|[-> _]]; apply Hends; lia.
Qed.

Lemma ternary_reprints c t f : reprints c → reprints t → reprints f → reprints (Expr.Ternary c t f).
Proof.
  intros Hc Ht Hf chain p budget rest Hp Hd Hg [Hfit _] Hs. unfold reads. cbn [of_node] in Hs |- *.
  cbn [depth] in Hd. cbn [Printable.printable] in Hp. rewrite !andb_true_iff in Hp.
  destruct Hp as [[Hpc Hpt] Hpf]. destruct budget as [|budget]; [lia|].
  cbn [Format.tokens] in Hg |- *.
  set (T := grouped _ (tokens false (2 :: p) t)) in *. set (F := grouped _ (tokens false (3 :: p) f)) in *.
  set (C := grouped _ (tokens false (1 :: p) c)) in *.
  replace ((C ++ TokenKind.Question :: T ++ TokenKind.Colon :: F) ++ rest) with
    (C ++ TokenKind.Question :: T ++ TokenKind.Colon :: F ++ rest) in Hg |- *
    by (by rewrite <- app_assoc; cbn [app]; rewrite <- app_assoc).
  assert (shaped T) as HsT by (by eapply shaped_grouped, tokens_shaped).
  change (parse_group Precedence.Ternary (S budget)) with
    (parse_ternary (inner (S budget)) (parse_group Precedence.LogicalOr (S budget))).
  unfold parse_ternary. rewrite (bind_accepted _ _ _ c (TokenKind.Question :: T ++ TokenKind.Colon :: F ++ rest)).
  2: { apply reads_done; [|by apply question_ends; [|cbv; lia]]. apply operand_reads; [done..|lia|done| |].
    - intros Hb. split; [|by apply (ahead_fits _ TokenKind.Question); [apply ahead_here|..]].
      revert Hb. unfold operand_needs_grouping. destruct (of_node c); try done; cbv; lia.
    - intros h [Hh|[-> Hh]]; [|done]. apply question_ends; [done|]. etransitivity; [|done]. cbv; lia. }
  apply no_generic_app, no_generic_cons in Hg.
  assert (no_generic (F ++ rest) = true) as HgF by (apply no_generic_app in Hg; by apply no_generic_cons in Hg).
  rewrite look_bind. cbn [check_skip_newlines skip_newlines check same_kind TokenKind.discriminant N.eqb Pos.eqb].
  rewrite move_bind, next_bind, skip_bind, skip_shaped by apply HsT.
  rewrite (bind_accepted _ _ _ t (TokenKind.Colon :: F ++ rest)).
  2: { apply branch_reads; [done..|lia|done| |].
    - intros _. by apply stop_fits, stop_token_here.
    - intros h _. by apply stop_ends, stop_token_here. }
  rewrite (bind_accepted _ _ _ tt (F ++ rest)) by (by apply consume_here).
  rewrite skip_bind, skip_shaped by (by apply operand_starts).
  assert (∀ h, Precedence.level Precedence.Ternary ≤ Precedence.level h → ends h rest) as Hends.
  { intros h Hh. apply Hs. destruct (decide (h = Precedence.Ternary)) as [->|Hne]; [by right|left].
    assert (Precedence.level Precedence.Ternary ≠ Precedence.level h) by (intros Heq%level_inj; congruence). lia. }
  rewrite (bind_accepted _ _ _ f rest); [done|]. apply branch_reads; [done..|lia|done| |done].
  intros Hb. apply ends_fits; [|apply Hends; cbv; lia]. intros Htry. apply Hfit. cbn [ends_try]. by rewrite Hb.
Qed.

(** *** Ranges *)

Lemma range_reprints s e i : reprints s → reprints e → reprints (Expr.RangeExpr s e i).
Proof.
  intros Hrs Hre chain p budget rest Hp Hd Hg [Hfit _] Hs. unfold reads. cbn [of_node] in Hs |- *.
  cbn [depth] in Hd. cbn [Printable.printable] in Hp. rewrite !andb_true_iff in Hp.
  destruct Hp as [[Htry Hps] Hpe]. cbn [Format.tokens] in Hg |- *.
  rewrite glue_closed in Hg |- *.
  2-3: apply closed_grouped; intros Hb; eapply tokens_closed; [done|]; rewrite Hb in Htry; by destruct (ends_try s).
  set (S1 := grouped _ (tokens false (1 :: p) s)) in *. set (E := grouped _ (tokens false (2 :: p) e)) in *.
  set (dots := if i then TokenKind.DotDotEq else TokenKind.DotDot) in *.
  replace ((S1 ++ dots :: E) ++ rest) with (S1 ++ dots :: E ++ rest) in Hg |- * by (by rewrite <- app_assoc).
  assert (∀ h, Precedence.level Precedence.Range < Precedence.level h → ends h (dots :: E ++ rest)) as Hdots.
  { intros h Hh. apply (ahead_ends _ _ dots); [apply ahead_here; by destruct i|].
    destruct i, h; try done; cbv in Hh; lia. }
  assert (∀ h, Precedence.level Precedence.Range ≤ Precedence.level h → ends h rest) as Hends.
  { intros h Hh. apply Hs. destruct (decide (h = Precedence.Range)) as [->|Hne]; [by right|left].
    assert (Precedence.level Precedence.Range ≠ Precedence.level h) by (intros Heq%level_inj; congruence). lia. }
  change (parse_group Precedence.Range budget) with (parse_range CURRENT (parse_group Precedence.Additive budget)).
  unfold parse_range. rewrite (bind_accepted _ _ _ s (dots :: E ++ rest)).
  2: { apply reads_done; [|apply Hdots; cbv; lia]. apply operand_reads; [done..|lia|done| |].
    - intros Hb. split; [|apply (ahead_fits _ dots); [apply ahead_here|..]; by destruct i].
      revert Hb. unfold operand_needs_grouping. destruct (of_node s); try done; cbv; lia.
    - intros h [Hh|[-> Hh]]; [|done]. apply Hdots. etransitivity; [|done]. cbv; lia. }
  apply no_generic_app, no_generic_cons in Hg. rewrite look_bind.
  assert (check_range_operator CURRENT (dots :: E ++ rest) =
    inr (Some (if i then Inclusive else Exclusive, dots :: E ++ rest))) as -> by (by destruct i).
  rewrite move_bind, next_bind, skip_bind, skip_shaped by (by apply operand_starts).
  rewrite (bind_accepted _ _ _ e rest).
  2: { apply reads_done; [|apply Hends; cbv; lia]. apply operand_reads; [done..|lia|done| |].
    - intros Hb. split.
      + revert Hb. unfold operand_needs_grouping. destruct (of_node e); try done; cbv; lia.
      + apply ends_fits; [|apply Hends; cbv; lia]. intros Ht. apply Hfit. cbn [ends_try]. by rewrite Hb.
    - intros h [Hh|[-> Hh]]; [|done]. apply Hends. etransitivity; [|by apply Nat.lt_le_incl]. cbv; lia. }
  rewrite (bind_accepted _ _ _ i rest) by (by destruct i). rewrite look_bind.
  assert (check TokenKind.DotDot rest || check TokenKind.DotDotEq rest = false) as ->; [|done].
  pose proof (Hends Precedence.Range ltac:(cbv; lia)) as Hr. cbn [Reading.ends] in Hr.
  destruct rest as [|[] rest]; done.
Qed.
End reparse.
