(* ===== verification/Reparse.v ===== *)
(** * Printed expressions parse to themselves

    The tokens the formatter prints for a printable expression, whatever its
    layout, are parsed to that expression: sequences and postfix forms, the
    induction, and the round trip. *)

From Stdlib Require Import Strings.String.
From S2P Require Import Prelude Program Operators Token Syntax ParserState TypeParser Parser Format ParserEnds Printable Reading ReparseOperators.

Section reparse.
Context (unicode_uppercase : string → bool) (layout : Layout).
#[local] Abbreviation inner := (inner_level unicode_uppercase).
#[local] Abbreviation printable := (printable unicode_uppercase).
#[local] Abbreviation tokens := (tokens layout).
#[local] Abbreviation parse_group := (parse_group unicode_uppercase).
#[local] Abbreviation reads := (reads unicode_uppercase).
#[local] Abbreviation object_text := (object_text layout).
#[local] Abbreviation reprints := (reprints unicode_uppercase layout).

(** ** Sequences *)

(** Tokens an item can begin with. *)
Definition begins_item (ts : list TokenKind) : bool :=
  match ts with
  | k :: _ => negb (closes k) && match k with TokenKind.Newline | TokenKind.Eof | TokenKind.Comma => false | _ => true end
  | [] => false
  end.

Definition reads_item {A} (item : Parser A) (ts : list TokenKind) (x : A) : Prop :=
  begins_item ts = true ∧
  ∀ rest, stop_here rest → no_generic (ts ++ rest) = true → item (ts ++ rest) = Accepted x rest.

Lemma begins_skip ts rest : begins_item ts = true → skip_newlines (ts ++ rest) = ts ++ rest.
Proof. by destruct ts as [|[] ts]. Qed.

Lemma begins_app ts rest : begins_item ts = true → begins_item (ts ++ rest) = true.
Proof. by destruct ts. Qed.

Lemma starts_begins ts : starts ts = true → begins_item ts = true.
Proof. by destruct ts as [|[] ts]. Qed.

(** After an item: the comma, if it is there, and the newlines. *)
Lemma skip_comma_comma n rest : skip_comma (TokenKind.Comma :: replicate n TokenKind.Newline ++ rest) =
  Accepted tt (skip_newlines rest).
Proof.
  unfold skip_comma. rewrite skip_bind, look_bind. cbn [skip_newlines check same_kind TokenKind.discriminant N.eqb Pos.eqb].
  rewrite next_bind. unfold skip, move. by rewrite skip_newlines_replicate.
Qed.

Lemma skip_comma_close k rest : closes k = true → skip_comma (k :: rest) = Accepted tt (k :: rest).
Proof. by destruct k. Qed.

Lemma close_stop k rest : closes k = true → stop_here (k :: rest).
Proof. intros. apply stop_token_here. by destruct k. Qed.

Lemma item_loop_item {A} close (item : Parser A) fuel acc toks : begins_item toks = true → closes close = true →
  item_loop close item (S fuel) acc toks =
    (x ← item; _ ← skip_comma; item_loop close item fuel (acc ++ [x])) toks.
Proof.
  intros Hb Hc. cbn [item_loop]. rewrite look_bind. destruct toks as [|k toks]; [done|].
  destruct (is_at_end _ || check _ _) eqn:Hend; [|done]. exfalso. apply orb_true_iff in Hend as [He|He].
  - by destruct k.
  - by destruct k, close.
Qed.

Lemma item_loop_reads {A} close (item : Parser A) p i texts xs acc fuel rest :
  closes close = true → Forall2 (reads_item item) texts xs →
  length (comma_items layout p i texts ++ close :: rest) < fuel →
  no_generic (comma_items layout p i texts ++ close :: rest) = true →
  item_loop close item fuel acc (comma_items layout p i texts ++ close :: rest) =
    Accepted (acc ++ xs) (close :: rest).
Proof.
  intros Hclose Hitems. revert i acc fuel.
  induction Hitems as [|ts x texts xs [Hb Hread] Hitems IH]; intros i acc fuel Hf Hg.
  { destruct fuel as [|fuel]; [lia|]. cbn [comma_items app item_loop]. rewrite look_bind, app_nil_r.
    by destruct close. }
  destruct fuel as [|fuel]; [lia|].
  set (tail := match texts with
    | [] => (if trailing_comma layout p then TokenKind.Comma :: newlines layout (S i :: p) else []) ++ close :: rest
    | _ => TokenKind.Comma :: newlines layout (S i :: p) ++ comma_items layout p (S i) texts ++ close :: rest
    end).
  assert (comma_items layout p i (ts :: texts) ++ close :: rest = ts ++ tail) as Heq.
  { unfold tail. destruct texts; cbn [comma_items]; rewrite <- app_assoc; [done|].
    cbn [app]. by rewrite <- app_assoc. }
  assert (stop_here tail) as Hstop.
  { unfold tail. destruct texts; [destruct (trailing_comma layout p)|];
      [by apply stop_token_here|by apply close_stop|by apply stop_token_here]. }
  assert (skip_comma tail = Accepted tt (comma_items layout p (S i) texts ++ close :: rest)) as Hcomma.
  { unfold tail, newlines. destruct texts as [|t1 texts].
    - destruct (trailing_comma layout p); [|by apply skip_comma_close]. cbn [app].
      rewrite skip_comma_comma. by destruct close.
    - rewrite skip_comma_comma. f_equal. inversion Hitems as [|? ? ? ? [Hb1 _] _]; subst.
      apply begins_skip. destruct texts; cbn [comma_items]; by apply begins_app. }
  rewrite Heq in Hf, Hg |- *. rewrite item_loop_item by (done || by apply begins_app).
  rewrite (bind_accepted _ _ _ _ _ (Hread tail Hstop Hg)), (bind_accepted _ _ _ _ _ Hcomma).
  assert (length (comma_items layout p (S i) texts ++ close :: rest) < fuel) as Hlen.
  { assert (length (comma_items layout p (S i) texts ++ close :: rest) ≤ length tail).
    { unfold tail. destruct texts; cbn; rewrite ?length_app; cbn; lia. }
    assert (0 < length ts) by (destruct ts; [done|cbn; lia]). rewrite length_app in Hf. lia. }
  rewrite (IH (S i) (acc ++ [x]) fuel Hlen); [by rewrite <- app_assoc|].
  apply no_generic_app in Hg. unfold tail in Hg. destruct texts; [|by apply no_generic_cons, no_generic_app in Hg].
  by apply no_generic_app in Hg.
Qed.

(** A bracketed sequence, after its opening bracket. *)
Lemma items_read {A} close (item : Parser A) p texts xs rest :
  closes close = true → Forall2 (reads_item item) texts xs →
  no_generic (comma_sequence layout p texts ++ close :: rest) = true →
  parse_items close item (comma_sequence layout p texts ++ close :: rest) = Accepted xs (close :: rest).
Proof.
  intros Hclose Hitems Hg. unfold parse_items. rewrite skip_bind, look_bind.
  assert (skip_newlines (comma_sequence layout p texts ++ close :: rest) =
    comma_items layout p 0 texts ++ close :: rest) as ->.
  { unfold comma_sequence, newlines. destruct Hitems as [|t x texts xs [Hb _]]; [by destruct close|].
    rewrite <- app_assoc, skip_newlines_replicate. apply begins_skip.
    destruct texts; cbn [comma_items]; by apply begins_app. }
  rewrite item_loop_reads with (xs := xs); [done..|lia|].
  unfold comma_sequence in Hg. destruct texts; [done|]. rewrite <- app_assoc in Hg. by apply no_generic_app in Hg.
Qed.

Lemma Forall2_mapi {A B} (P : A → Prop) (R : B → A → Prop) (f : nat → A → B) i l :
  Forall P l → (∀ i x, P x → R (f i x) x) → Forall2 R (mapi f i l) l.
Proof. intros Hl Hf. revert i. induction Hl; intros i; cbn; constructor; auto. Qed.

Lemma forallb_Forall_pair {A} (P : A → Prop) (f : A → bool) l :
  Forall P l → forallb f l = true → Forall (λ x, P x ∧ f x = true) l.
Proof.
  intros Hl Hf. rewrite forallb_forall in Hf. apply Forall_forall. intros x Hx. rewrite Forall_forall in Hl.
  split; [by apply Hl|]. by apply Hf, list_elem_of_In.
Qed.

Lemma depth_items {A} (f : A → nat) l r : list_max (map f l) ≤ r → Forall (λ x, f x ≤ r) l.
Proof. intros Hl. apply list_max_le in Hl. by apply Forall_map in Hl. Qed.

(** *** Elements *)

Lemma element_reads spread element p i e r : with_spread reprints e →
  element_printable (printable false) e = true → S (depth e) ≤ r →
  reads_item (parse_element (inner r) spread element) (element_text layout p i e) e.
Proof.
  intros [He Hs] Hp Hd. unfold element_text.
  assert (∀ e' p', reprints e' → printable false e' = true → S (depth e') ≤ r → ∀ context rest, stop_here rest →
    no_generic (tokens false p' e' ++ rest) = true →
    parse_nested_expression (inner r) context (tokens false p' e' ++ rest) = Accepted e' rest) as Hnested.
  { intros e' p' He' Hp' Hd' context rest Hstop Hg. by apply (nested_reads _ _ context e' p' 0). }
  assert ((∃ inner, e = Expr.Spread inner) ∨ printable false e = true) as [[e' ->]|Hp'] by (destruct e; eauto).
  - split; [done|]. intros rest Hstop Hg. cbn [Format.tokens] in Hg |- *.
    change ((ellipsis ++ tokens false (1 :: i :: 2 :: p) e') ++ rest) with
      (TokenKind.Dot :: TokenKind.Dot :: TokenKind.Dot :: tokens false (1 :: i :: 2 :: p) e' ++ rest) in Hg |- *.
    unfold parse_element. rewrite look_bind. cbn [check advance tail same_kind TokenKind.discriminant N.eqb Pos.eqb andb].
    rewrite 2!next_bind, (bind_accepted _ _ _ tt (tokens false (1 :: i :: 2 :: p) e' ++ rest)) by (by apply consume_here).
    apply fmap_accepted, Hnested; [by apply Hs|done..|]. by do 3 apply no_generic_cons in Hg.
  - pose proof (tokens_shaped _ layout e false (i :: 2 :: p) Hp') as [Hst _].
    split; [by apply starts_begins|]. intros rest Hstop Hg. unfold parse_element. rewrite look_bind.
    replace (check TokenKind.Dot (tokens false (i :: 2 :: p) e ++ rest)) with false
      by (by destruct (tokens _ _ _) as [|[] ?]).
    by apply Hnested.
Qed.

Lemma elements_read spread element p es r close rest : Forall (with_spread reprints) es →
  forallb (element_printable (printable false)) es = true → list_max (map (λ e, S (depth e)) es) ≤ r →
  closes close = true → no_generic (comma_sequence layout (2 :: p) (element_texts layout p es) ++ close :: rest) = true →
  parse_items close (parse_element (inner r) spread element)
    (comma_sequence layout (2 :: p) (element_texts layout p es) ++ close :: rest) = Accepted es (close :: rest).
Proof.
  intros Hes Hp Hd%depth_items Hc Hg. apply items_read; [done| |done].
  apply (Forall2_mapi (λ e, (with_spread reprints e ∧ element_printable (printable false) e = true) ∧ S (depth e) ≤ r)).
  - apply Forall_and. split; [by apply forallb_Forall_pair|done].
  - intros i e [[? ?] ?]. by apply element_reads.
Qed.

Lemma args_read p es r rest : Forall (with_spread reprints) es →
  forallb (element_printable (printable false)) es = true → list_max (map (λ e, S (depth e)) es) ≤ r →
  no_generic (call_tokens layout (2 :: p) (element_texts layout p es) ++ rest) = true →
  parse_args (inner r) (comma_sequence layout (2 :: p) (element_texts layout p es) ++ TokenKind.RParen :: rest) =
    Accepted es rest.
Proof.
  intros Hes Hp Hd Hg. unfold call_tokens in Hg. cbn [app] in Hg. rewrite <- app_assoc in Hg.
  apply no_generic_cons in Hg. unfold parse_args, parse_arg_list.
  rewrite (bind_accepted _ _ _ es (TokenKind.RParen :: rest)) by (by apply elements_read).
  by rewrite (bind_accepted _ _ _ tt rest) by (by apply consume_here).
Qed.

(** *** Entries *)

Lemma word_consume expected s rest : member_name s = true →
  consume_identifier_or_keyword expected (word_token s :: rest) = Accepted s rest.
Proof.
  intros Hm. assert (negb (same_kind (word_token s) TokenKind.Newline) = true) as Hn
    by (apply (word_token_is (λ k, negb (same_kind k TokenKind.Newline))); by vm_compute).
  unfold consume_identifier_or_keyword. rewrite skip_bind, look_bind.
  replace (skip_newlines (word_token s :: rest)) with (word_token s :: rest) by (by destruct (word_token s)).
  destruct (member_name_word s Hm) as [-> | Hk]; [done|]. by destruct (word_token s); cbn in Hk |- *; simplify_eq.
Qed.

Lemma key_reads p i key r rest : reprints key →
  (∃ s, key = Expr.StringLiteral s ∧ (is_identifier s = true → member_name s = true)) ∨
    plain_key key = None ∧ printable false key = true →
  S (depth key) ≤ r → no_generic (key_text layout p i key ++ TokenKind.Colon :: rest) = true →
  parse_dict_key (inner r) (key_text layout p i key ++ TokenKind.Colon :: rest) =
    Accepted key (TokenKind.Colon :: rest).
Proof.
  intros Hkey Hk Hd Hg. unfold parse_dict_key. rewrite look_bind. unfold key_text in Hg |- *.
  destruct Hk as [(s & -> & Hs)|[Hnone Hp]].
  - cbn [plain_key]. destruct (is_identifier s); [|done]. cbn [app].
    assert (match word_token s with TokenKind.LBracket | TokenKind.StringLiteral _ => false | _ => true end = true) as Hw
      by (apply (word_token_is (λ k, match k with TokenKind.LBracket | TokenKind.StringLiteral _ => false | _ => true end));
          by vm_compute).
    pose proof (fmap_accepted Expr.StringLiteral _ _ _ _ (word_consume "dict key" s (TokenKind.Colon :: rest) (Hs eq_refl))).
    by destruct (word_token s).
  - rewrite Hnone in Hg |- *. cbn [app] in Hg |- *. rewrite <- app_assoc in Hg |- *. rewrite next_bind. cbn [app] in Hg |- *.
    rewrite (bind_accepted _ _ _ key (TokenKind.RBracket :: TokenKind.Colon :: rest)).
    + by rewrite (bind_accepted _ _ _ tt (TokenKind.Colon :: rest)) by (by apply consume_here).
    + apply (nested_reads _ _ _ _ _ 0); [done..|by apply no_generic_cons in Hg|by apply stop_token_here].
Qed.

Lemma key_begins p i key : begins_item (key_text layout p i key) = true ∧
  at_ellipsis (key_text layout p i key) = false ∧ ∀ rest, at_ellipsis (key_text layout p i key ++ rest) = false.
Proof.
  unfold key_text. destruct (plain_key key) as [ts|] eqn:Hk; [|done].
  destruct key; try done. cbn [plain_key] in Hk. injection Hk as <-. destruct (is_identifier value); [|done].
  assert (begins_item [word_token value] && negb (same_kind (word_token value) TokenKind.Dot) = true) as Hw
    by (apply (word_token_is (λ k, begins_item [k] && negb (same_kind k TokenKind.Dot))); by vm_compute).
  apply andb_true_iff in Hw as [Hw Hd]. split; [done|].
  assert (∀ rest, at_ellipsis ([word_token value] ++ rest) = false) as Ha; [|by split; [apply (Ha [])|]].
  intros rest. unfold at_ellipsis. cbn [app check]. by destruct (same_kind (word_token value) TokenKind.Dot).
Qed.

Lemma entry_reads p i e r : with_spread reprints e.1 → with_spread reprints e.2 →
  entry_printable (printable false) e = true → S (Nat.max (depth e.1) (depth e.2)) ≤ r →
  reads_item (parse_dict_entry (inner r)) (entry_text layout p i e) e.
Proof.
  intros [Hk _] [Hv Hs] Hp Hd. destruct (entry_key_printable _ _ Hp) as [(e' & -> & Hp')|(Hn & Hpv & Hkey)].
  - cbn [fst snd depth Nat.max] in Hd, Hs. split; [done|]. intros rest Hstop Hg.
    change (entry_text layout p i (Expr.NilLiteral, Expr.Spread e') ++ rest) with
      (TokenKind.Dot :: TokenKind.Dot :: TokenKind.Dot :: tokens false (1 :: i :: 2 :: p) e' ++ rest) in Hg |- *.
    unfold parse_dict_entry. rewrite look_bind.
    match goal with |- context [at_ellipsis ?x] => change (at_ellipsis x) with true end. cbv match.
    rewrite move_bind. cbn [drop].
    rewrite (bind_accepted _ _ _ e' rest); [done|]. do 3 apply no_generic_cons in Hg.
    apply (nested_reads _ _ _ e' (1 :: i :: 2 :: p) 0); [by apply Hs|done..].
  - assert (entry_text layout p i e = key_text layout p i e.1 ++ TokenKind.Colon ::
      newlines layout (0 :: i :: 2 :: p) ++ tokens false (1 :: i :: 2 :: p) e.2) as ->.
    { unfold entry_text. destruct e as [k []]; try done. }
    destruct (key_begins p i e.1) as (Hb & _ & Ha). split; [by apply begins_app|]. intros rest Hstop Hg.
    rewrite <- app_assoc in Hg |- *. cbn [app] in Hg |- *. rewrite <- app_assoc in Hg |- *.
    unfold parse_dict_entry. rewrite look_bind, Ha.
    rewrite (bind_accepted _ _ _ _ _ (key_reads p i e.1 r _ Hk Hkey ltac:(lia) Hg)).
    rewrite (bind_accepted _ _ _ tt (newlines layout (0 :: i :: 2 :: p) ++ tokens false (1 :: i :: 2 :: p) e.2 ++ rest))
      by (by apply consume_here).
    apply no_generic_app, no_generic_cons, no_generic_app in Hg. unfold newlines.
    rewrite (bind_accepted _ _ _ _ _ (nested_reads _ _ _ e.2 (1 :: i :: 2 :: p) _ r rest Hv Hpv ltac:(lia) Hg Hstop)).
    by destruct e.
Qed.

Definition pair_spread (e : Expr * Expr) : Prop := with_spread reprints e.1 ∧ with_spread reprints e.2.

Lemma entries_read p es r rest : Forall pair_spread es → forallb (entry_printable (printable false)) es = true →
  list_max (map (λ e, S (Nat.max (depth e.1) (depth e.2))) es) ≤ r →
  no_generic (comma_sequence layout (2 :: p) (entry_texts layout p es) ++ TokenKind.RBrace :: rest) = true →
  parse_dict_entries (inner r) (comma_sequence layout (2 :: p) (entry_texts layout p es) ++ TokenKind.RBrace :: rest) =
    Accepted es rest.
Proof.
  intros Hes Hp Hd%depth_items Hg. unfold parse_dict_entries.
  rewrite (bind_accepted _ _ _ es (TokenKind.RBrace :: rest)).
  - by rewrite (bind_accepted _ _ _ tt rest) by (by apply consume_here).
  - apply items_read; [done| |done].
    apply (Forall2_mapi (λ e, (pair_spread e ∧ entry_printable (printable false) e = true) ∧
      S (Nat.max (depth e.1) (depth e.2)) ≤ r)).
    + apply Forall_and. split; [by apply forallb_Forall_pair|done].
    + intros i e [[[? ?] ?] ?]. by apply entry_reads.
Qed.

Lemma skip_idemp toks : skip_newlines (skip_newlines toks) = skip_newlines toks.
Proof. by induction toks as [|[] toks IH]. Qed.

Lemma closure_skip toks : is_closure_lookahead 0 (skip_newlines toks) = is_closure_lookahead 0 toks.
Proof. by induction toks as [|[] toks IH]. Qed.

Lemma entries_skip r toks : parse_dict_entries (inner r) (skip_newlines toks) = parse_dict_entries (inner r) toks.
Proof.
  unfold parse_dict_entries. assert (∀ close A (item : Parser A) B (f : list A → Parser B),
    (parse_items close item ≫= f) (skip_newlines toks) = (parse_items close item ≫= f) toks) as Hskip.
  { intros. unfold mbind, parser_bind. unfold parse_items. rewrite !skip_bind, skip_idemp. done. }
  apply Hskip.
Qed.

Lemma entry_text_begins p i e : entry_printable (printable false) e = true →
  begins_item (entry_text layout p i e) = true.
Proof.
  intros Hp. destruct (entry_key_printable _ _ Hp) as [(e' & -> & _)|(Hn & _ & _)]; [done|].
  unfold entry_text. destruct (key_begins p i e.1) as (Hb & _ & _).
  destruct e as [k []]; try (by apply begins_app); done.
Qed.

(** A dictionary literal is told from a closure. *)
Lemma dict_reads p es r rest : Forall pair_spread es → forallb (entry_printable (printable false)) es = true →
  list_max (map (λ e, S (Nat.max (depth e.1) (depth e.2))) es) ≤ r →
  no_generic (braces_text layout p es ++ rest) = true →
  parse_dict_or_closure (inner r) (braces_text layout p es ++ rest) = Accepted (Expr.DictLiteral es) rest.
Proof.
  intros Hes Hp Hd Hg. unfold braces_text in Hg |- *. cbn [app] in Hg |- *. rewrite <- app_assoc in Hg |- *.
  set (X := comma_sequence layout (2 :: p) (entry_texts layout p es)) in *. apply no_generic_cons in Hg.
  unfold parse_dict_or_closure. rewrite (bind_accepted _ _ _ tt (X ++ [TokenKind.RBrace] ++ rest)) by (by apply consume_here).
  rewrite skip_bind, look_bind. cbn [app].
  destruct (check TokenKind.RBrace (skip_newlines (X ++ TokenKind.RBrace :: rest))) eqn:Hc.
  - destruct es as [|e es].
    + by cbn in *.
    + exfalso. cbn [forallb] in Hp. apply andb_true_iff in Hp as [Hpe _].
      pose proof (entry_text_begins p 0 e Hpe) as Hb. revert Hc. unfold X, entry_texts, comma_sequence, newlines.
      cbn [mapi]. rewrite <- app_assoc, skip_newlines_replicate.
      assert (begins_item (comma_items layout (2 :: p) 0 (entry_text layout p 0 e :: mapi (entry_text layout p) 1 es)) = true)
        as Hb' by (destruct es; cbn [comma_items mapi]; by apply begins_app).
      rewrite begins_skip by done. by destruct (comma_items _ _ _ _) as [|[] ?].
  - rewrite closure_skip. unfold X. rewrite (closure_passes true).
    + cbn [is_closure_lookahead same_kind TokenKind.discriminant N.eqb Pos.eqb andb].
      cbn. apply fmap_accepted. rewrite entries_skip. by apply entries_read.
    + apply comma_sequence_segment. eapply entry_texts_segment; [|done]. apply Forall_forall. intros e _.
      split; apply tokens_shaped_spread.
Qed.

(** ** Postfix forms *)

Lemma suffix_reads r o eo s e rest : reads Precedence.Postfix r o eo (s ++ rest) → s ≠ [] →
  parse_suffix unicode_uppercase (inner r) eo (s ++ rest) = Accepted (Some e) rest →
  reads Precedence.Postfix r (o ++ s) e rest.
Proof.
  intros (fuel & Hf & Ho) Hs He. destruct fuel as [|fuel]; [lia|]. exists fuel. split.
  - rewrite length_app in Hf. destruct s; [done|cbn in Hf; lia].
  - rewrite <- app_assoc, Ho. cbn [parse_postfix_suffixes]. by rewrite (bind_accepted _ _ _ _ _ He).
Qed.

Lemma object_reads p o r x : reprints o →
  (needs_parens_as_postfix_object o || negb (ends_try o)) && printable false o = true →
  grouping (needs_parens_as_postfix_object o) (depth o) ≤ r → no_generic (object_text p o ++ x) = true →
  (is_member o = true → check TokenKind.LParen x = false) → reads Precedence.Postfix r (object_text p o) o x.
Proof.
  intros Ho [Ht Hp]%andb_true_iff Hd Hg Hx. apply operand_reads; [done..| |].
  - intros Hb. split; [by rewrite (bare_object o Hb)|]. split; [|done]. intros Htry.
    by rewrite Hb, Htry in Ht.
  - intros h [Hh|[-> Hh]]; [|done]. pose proof (level_postfix h). lia.
Qed.

(** An object and a suffix that the suffix loop reads as [e]. *)
Lemma suffixed_reads p o s e r rest ts : reprints o →
  (needs_parens_as_postfix_object o || negb (ends_try o)) && printable false o = true →
  grouping (needs_parens_as_postfix_object o) (depth o) ≤ r → no_generic (ts ++ rest) = true →
  ts = glue (object_text p o) s ∨ ts = object_text p o ++ s → s ≠ [] →
  (is_member o = true → check TokenKind.LParen (s ++ rest) = false) →
  (no_generic (s ++ rest) = true →
    parse_suffix unicode_uppercase (inner r) o (s ++ rest) = Accepted (Some e) rest) →
  reads Precedence.Postfix r ts e rest.
Proof.
  intros Ho Hp Hd Hg Hts Hne Hm Hs. assert (ts = object_text p o ++ s) as ->.
  { destruct Hts as [-> | ->]; [by eapply suffix_text|done]. }
  rewrite <- app_assoc in Hg. apply (suffix_reads _ _ o); [by apply object_reads|done|].
  apply Hs. by apply no_generic_app in Hg.
Qed.

(** What is proved of the suffix [s] of an object [o]. *)
Definition suffix_goal (p : list nat) (o : Expr) (s : list TokenKind) (e : Expr) : Prop :=
  ∀ r rest, depth e ≤ r → no_generic (s ++ rest) = true → fits e rest →
  parse_suffix unicode_uppercase (inner r) o (s ++ rest) = Accepted (Some e) rest.

Lemma postfix_reprints o e (s : list nat → list TokenKind) :
  of_node e = Precedence.Postfix → reprints o →
  (∀ r, depth e ≤ r → grouping (needs_parens_as_postfix_object o) (depth o) ≤ r) →
  (∀ chain p, printable chain e = true →
    (needs_parens_as_postfix_object o || negb (ends_try o)) && printable false o = true ∧
    (tokens chain p e = glue (object_text p o) (s p) ∨ tokens chain p e = object_text p o ++ s p) ∧
    s p ≠ [] ∧ (is_member o = true → check TokenKind.LParen (s p) = false) ∧ suffix_goal p o (s p) e) →
  reprints e.
Proof.
  intros Hpost Ho Hdepth He chain p r rest Hp Hd Hg Hf _. rewrite Hpost.
  destruct (He chain p Hp) as (Hop & Hts & Hne & Hm & Hs).
  eapply (suffixed_reads p o (s p)); eauto. intros Hmem. specialize (Hm Hmem). by destruct (s p).
Qed.

Lemma dot_suffix dot n x o r : dot = TokenKind.Dot ∨ dot = TokenKind.QuestionDot →
  parse_suffix unicode_uppercase (inner r) o (replicate n TokenKind.Newline ++ dot :: x) =
    (Some <$> parse_member (inner r) o) (dot :: x).
Proof.
  intros Hd. unfold parse_suffix. rewrite look_bind. unfold check_skip_newlines.
  rewrite skip_newlines_replicate. by destruct Hd as [-> | ->].
Qed.

Definition member_access (dot : TokenKind) (o : Expr) (m : string) : Expr :=
  if check TokenKind.QuestionDot [dot] then Expr.OptionalPropertyAccess o m else Expr.PropertyAccess o m.

Definition member_call (dot : TokenKind) (o : Expr) (m : string) (es : list Expr) : Expr :=
  if check TokenKind.QuestionDot [dot] then Expr.OptionalMethodCall o m es else Expr.MethodCall o m es.

Lemma word_not_bracket m : same_kind (word_token m) TokenKind.LBracket = false.
Proof.
  apply negb_true_iff. by apply (word_token_is (λ k, negb (same_kind k TokenKind.LBracket))); vm_compute.
Qed.

Lemma member_reads r dot o m rest : dot = TokenKind.Dot ∨ dot = TokenKind.QuestionDot → member_name m = true →
  check TokenKind.LParen rest = false →
  parse_member (inner r) o (dot :: word_token m :: rest) = Accepted (member_access dot o m) rest.
Proof.
  intros Hd Hm Hp. unfold parse_member. rewrite look_bind, next_bind, look_bind.
  cbn [check]. rewrite word_not_bracket, andb_false_r.
  rewrite (bind_accepted _ _ _ _ _ (word_consume "member name" m rest Hm)), look_bind, Hp.
  by destruct Hd as [-> | ->].
Qed.

Lemma member_call_reads r dot o m es x rest : dot = TokenKind.Dot ∨ dot = TokenKind.QuestionDot →
  member_name m = true → parse_args (inner r) x = Accepted es rest →
  parse_member (inner r) o (dot :: word_token m :: TokenKind.LParen :: x) = Accepted (member_call dot o m es) rest.
Proof.
  intros Hd Hm Hp. unfold parse_member. rewrite look_bind, next_bind, look_bind.
  cbn [check]. rewrite word_not_bracket, andb_false_r.
  rewrite (bind_accepted _ _ _ _ _ (word_consume "member name" m _ Hm)), look_bind.
  cbn [check same_kind TokenKind.discriminant N.eqb Pos.eqb]. rewrite next_bind, (bind_accepted _ _ _ _ _ Hp).
  by destruct Hd as [-> | ->].
Qed.

Lemma property_reprints dot o m : dot = TokenKind.Dot ∨ dot = TokenKind.QuestionDot → reprints o →
  reprints (member_access dot o m).
Proof.
  intros Hd Ho. apply (postfix_reprints o _ (λ p, newlines layout (0 :: p) ++ [dot; word_token m])).
  - by destruct Hd as [-> | ->].
  - done.
  - by destruct Hd as [-> | ->].
  - intros chain p Hp. assert (member_name m = true ∧
      (needs_parens_as_postfix_object o || negb (ends_try o)) && printable false o = true) as [Hm Hop]
      by (apply andb_true_iff; by destruct Hd as [-> | ->]).
    split_and!; [done| | | |].
    + left. by destruct Hd as [-> | ->].
    + by intros [_ [=]]%app_eq_nil.
    + intros _. unfold newlines. destruct (breaks _ _); [|done]. by destruct Hd as [-> | ->].
    + intros r rest _ _ [_ Hf]. rewrite <- app_assoc. unfold newlines. cbn [app]. rewrite dot_suffix by done.
      apply fmap_accepted, member_reads; [done..|]. apply Hf. by destruct Hd as [-> | ->].
Qed.

Lemma method_reprints dot o m es : dot = TokenKind.Dot ∨ dot = TokenKind.QuestionDot → reprints o →
  Forall (with_spread reprints) es → reprints (member_call dot o m es).
Proof.
  intros Hd Ho Hes. apply (postfix_reprints o _ (λ p, newlines layout (0 :: p) ++ [dot; word_token m] ++
    call_tokens layout (2 :: p) (element_texts layout p es))).
  - by destruct Hd as [-> | ->].
  - done.
  - intros r. destruct Hd as [-> | ->]; cbn [member_call check same_kind]; cbn; lia.
  - intros chain p Hp. assert (member_name m = true ∧
      (needs_parens_as_postfix_object o || negb (ends_try o)) && printable false o = true ∧
      forallb (element_printable (printable false)) es = true) as (Hm & Hop & Hpes).
    { destruct Hd as [-> | ->]; apply andb_true_iff in Hp as [[? ?]%andb_true_iff ?]; done. }
    split_and!; [done| | | |].
    + right. transitivity (member_tokens layout p (object_text p o) dot m ++
        call_tokens layout (2 :: p) (element_texts layout p es)); [by destruct Hd as [-> | ->]|].
      unfold member_tokens. erewrite suffix_text by done. by rewrite <- !app_assoc.
    + by intros [_ [=]]%app_eq_nil.
    + intros _. unfold newlines. destruct (breaks _ _); [|done]. by destruct Hd as [-> | ->].
    + intros r rest Hdepth Hg _. rewrite <- !app_assoc in Hg |- *. unfold newlines in Hg |- *. cbn [app] in Hg |- *.
      rewrite dot_suffix by done. apply no_generic_app in Hg. do 2 apply no_generic_cons in Hg.
      apply fmap_accepted. unfold call_tokens. cbn [app]. apply member_call_reads; [done..|].
      rewrite <- app_assoc. apply args_read; [done..| |done].
      destruct Hd as [-> | ->]; cbn in Hdepth; lia.
Qed.

Lemma paren_suffix o r x : parse_suffix unicode_uppercase (inner r) o (TokenKind.LParen :: x) =
  (args ← parse_args (inner r); mret (Some (call_of o args))) x.
Proof. done. Qed.

Lemma bracket_suffix o r x : parse_suffix unicode_uppercase (inner r) o (TokenKind.LBracket :: x) =
  (Some <$> parse_subscript (inner r) o) (TokenKind.LBracket :: x).
Proof. done. Qed.

Lemma value_call_reprints o es : reprints o → Forall (with_spread reprints) es → reprints (Expr.ValueCall o es).
Proof.
  intros Ho Hes. apply (postfix_reprints o _ (λ p, call_tokens layout (2 :: p) (element_texts layout p es)));
    [done..|cbn; lia|].
  intros chain p Hp. cbn [Printable.printable] in Hp. rewrite !andb_true_iff in Hp.
  destruct Hp as [[Hc Hop] Hpes]. rewrite <- andb_true_iff in Hop.
  split_and!; [done|by right|done|by destruct o|].
  intros r rest Hd Hg _. cbn [depth] in Hd. unfold call_tokens at 1. cbn [app]. rewrite paren_suffix, <- app_assoc.
  rewrite (bind_accepted _ _ _ es rest) by (apply args_read; [done..|lia|done]). by destruct o.
Qed.

(** A name and the suffix that makes it a call or a struct. *)
Lemma name_reads r name x : plain_name name = true →
  reads Precedence.Postfix r [word_token name] (Expr.Identifier name) x.
Proof.
  intros Hn. apply primary_reads. rewrite (plain_name_word _ Hn). cbn [app]. unfold parse_primary. rewrite look_bind.
  unfold plain_name in Hn. rewrite !andb_true_iff, !negb_true_iff in Hn. destruct Hn as [[_ H1] H2].
  by rewrite H1, H2.
Qed.

Lemma call_reprints name ts es : Forall (with_spread reprints) es → reprints (Expr.FunctionCall name ts es).
Proof.
  intros Hes chain p r rest Hp Hd Hg _ _. cbn [Printable.printable] in Hp. rewrite !andb_true_iff in Hp.
  destruct Hp as [[Hn Ht] Hpes]. destruct ts; [|done]. cbn [depth] in Hd.
  apply (suffix_reads r [word_token name] (Expr.Identifier name)
    (call_tokens layout (2 :: p) (element_texts layout p es))); [by apply name_reads|done|].
  apply no_generic_cons in Hg. unfold call_tokens. cbn [app]. rewrite paren_suffix, <- app_assoc.
  by rewrite (bind_accepted _ _ _ es rest) by (by apply args_read).
Qed.

Lemma struct_reprints name es : Forall pair_spread es → reprints (Expr.StructConstruct name es).
Proof.
  intros Hes chain p r rest Hp Hd Hg _ _. cbn [Printable.printable] in Hp. rewrite !andb_true_iff in Hp.
  destruct Hp as [[[Hn Hu] Hh] Hpes]. cbn [depth] in Hd.
  apply (suffix_reads r [word_token name] (Expr.Identifier name) (braces_text layout p es));
    [by apply name_reads|done|].
  apply no_generic_cons in Hg. change (no_generic (braces_text layout p es ++ rest) = true) in Hg.
  unfold braces_text in Hg |- *. cbn [app] in Hg |- *. rewrite <- app_assoc in Hg |- *. apply no_generic_cons in Hg.
  change ([TokenKind.RBrace] ++ rest) with (TokenKind.RBrace :: rest) in Hg |- *.
  assert (is_struct_construct_lookahead unicode_uppercase name (TokenKind.LBrace ::
    comma_sequence layout (2 :: p) (entry_texts layout p es) ++ TokenKind.RBrace :: rest) = true) as Hl.
  { unfold is_struct_construct_lookahead. rewrite Hu. cbn [andb skipn]. rewrite drop_0. unfold comma_sequence, newlines.
    destruct es as [|[k v] es]; [done|]. unfold entry_texts. cbn [mapi].
    rewrite <- app_assoc, skip_newlines_replicate.
    assert (∃ s ts, plain_key k = Some [s] ∧ k = Expr.StringLiteral ts ∧
      match s with TokenKind.Identifier _ | TokenKind.StringLiteral _ => True | _ => False end) as (s & ts & Hk & -> & Hs).
    { destruct k; try (by destruct v). cbn [struct_head plain_key] in Hh |- *.
      destruct (is_identifier value); [|by eauto]. exists (word_token value), value. split_and!; [done..|].
      unfold word_token. destruct (keyword_token_kind value); [by destruct v|done]. }
    assert (entry_text layout p 0 (Expr.StringLiteral ts, v) = s :: TokenKind.Colon ::
      newlines layout (0 :: 0 :: 2 :: p) ++ tokens false (1 :: 0 :: 2 :: p) v) as Het.
    { unfold entry_text, key_text. cbn [fst snd]. rewrite Hk. by destruct v. }
    destruct es; cbn [mapi comma_items]; rewrite Het; by destruct s. }
  assert (∀ x, parse_suffix unicode_uppercase (inner r) (Expr.Identifier name) (TokenKind.LBrace :: x) =
    (if is_struct_construct_lookahead unicode_uppercase name (TokenKind.LBrace :: x) then
      fields ← parse_dict_entries (inner r); mret (Some (Expr.StructConstruct name fields)) else
      λ _, Accepted None (TokenKind.LBrace :: x)) x) as Hsuffix.
  { intros x. transitivity ((if is_struct_construct_lookahead unicode_uppercase name (TokenKind.LBrace :: x) then
      _ ← next; fields ← parse_dict_entries (inner r); mret (Some (Expr.StructConstruct name fields))
      else mret None : Parser (option Expr)) (TokenKind.LBrace :: x)); [done|].
    destruct (is_struct_construct_lookahead unicode_uppercase name (TokenKind.LBrace :: x)); reflexivity. }
  rewrite Hsuffix, Hl. by rewrite (bind_accepted _ _ _ es rest) by (by apply entries_read).
Qed.

Lemma try_reprints o : reprints o → reprints (Expr.TryOperator o).
Proof.
  intros Ho. apply (postfix_reprints o _ (λ _, [TokenKind.Question])); [done..|].
  intros chain p Hp. split_and!; [done|by left|done..|].
  intros r rest _ _ [Hf _]. specialize (Hf eq_refl). cbn [app]. unfold parse_suffix. rewrite look_bind. cbn.
  unfold question_starts_ternary_branch, starts in *.
  assert (check TokenKind.LBracket rest = false) as -> by (by destruct rest as [|[] ?]).
  destruct (skip_newlines rest); [done|]. by rewrite Hf.
Qed.

Lemma non_null_reprints o : reprints o → reprints (Expr.NonNullAssert o).
Proof.
  intros Ho. apply (postfix_reprints o _ (λ _, [TokenKind.Not])); [done..|].
  intros chain p Hp. by split_and!; [done|right|..].
Qed.

(** *** Subscripts *)

Lemma subscript_reprints o i : reprints o → reprints i → reprints (Expr.SubscriptAccess o i).
Proof.
  intros Ho Hi. apply (postfix_reprints o _ (λ p, TokenKind.LBracket :: tokens false (2 :: p) i ++ [TokenKind.RBracket]));
    [done..|cbn; lia|].
  intros chain p Hp. cbn [Printable.printable] in Hp. rewrite andb_true_iff in Hp. destruct Hp as [Hop Hpi].
  split_and!; [done|by right|done..|]. intros r rest Hd Hg _. cbn [depth] in Hd. cbn [app] in Hg |- *.
  rewrite <- app_assoc in Hg |- *. apply no_generic_cons in Hg. rewrite bracket_suffix. apply fmap_accepted.
  unfold parse_subscript. rewrite next_bind, look_bind.
  replace (check TokenKind.Colon _) with false
    by (pose proof (tokens_shaped _ layout i false (2 :: p) Hpi) as [Hs _]; by destruct (tokens _ _ _) as [|[] ?]).
  rewrite (bind_accepted _ _ _ i (TokenKind.RBracket :: rest))
    by (apply (nested_reads _ _ _ _ _ 0); [done..|lia|done|by apply stop_token_here]).
  rewrite look_bind. cbn [check same_kind TokenKind.discriminant N.eqb Pos.eqb].
  by rewrite (bind_accepted _ _ _ tt rest) by (by apply consume_here).
Qed.

Lemma optional_subscript_reprints o i : reprints o → reprints i → reprints (Expr.OptionalSubscriptAccess o i).
Proof.
  intros Ho Hi. apply (postfix_reprints o _ (λ p, TokenKind.QuestionDot :: TokenKind.LBracket ::
    tokens false (2 :: p) i ++ [TokenKind.RBracket])); [done..|cbn; lia|].
  intros chain p Hp. cbn [Printable.printable] in Hp. rewrite andb_true_iff in Hp. destruct Hp as [Hop Hpi].
  split_and!; [done|by left|done..|]. intros r rest Hd Hg _. cbn [depth] in Hd. cbn [app] in Hg |- *.
  rewrite <- app_assoc in Hg |- *. do 2 apply no_generic_cons in Hg.
  etransitivity; [apply (dot_suffix TokenKind.QuestionDot 0); auto|]. apply fmap_accepted.
  unfold parse_member. rewrite look_bind, next_bind, look_bind.
  cbn [check same_kind TokenKind.discriminant N.eqb Pos.eqb andb]. rewrite next_bind.
  rewrite (bind_accepted _ _ _ i (TokenKind.RBracket :: rest))
    by (apply (nested_reads _ _ _ _ _ 0); [done..|lia|done|by apply stop_token_here]).
  by rewrite (bind_accepted _ _ _ tt rest) by (by apply consume_here).
Qed.

(** *** Slices *)

Definition optional_text (i : nat) (p : list nat) (e : option Expr) : list TokenKind :=
  match e with Some e => tokens false (i :: p) e | None => [] end.

Definition optional_printable (e : option Expr) : bool :=
  match e with Some e => printable false e | None => true end.

Definition optional_depth (e : option Expr) : nat := match e with Some e => S (depth e) | None => 0 end.

Lemma slice_end_reads r i p e rest : (∀ x, e = Some x → reprints x) → optional_printable e = true →
  optional_depth e ≤ r → no_generic (optional_text i p e ++ TokenKind.RBracket :: rest) = true →
  parse_slice_end (inner r) (optional_text i p e ++ TokenKind.RBracket :: rest) = Accepted e rest.
Proof.
  intros He Hp Hd Hg. unfold parse_slice_end. rewrite look_bind. destruct e as [e|]; cbn [optional_text] in Hg |- *.
  - cbn [optional_printable optional_depth] in Hp, Hd.
    replace (check TokenKind.RBracket _) with false
      by (pose proof (tokens_shaped _ layout e false (i :: p) Hp) as [Hs _]; by destruct (tokens _ _ _) as [|[] ?]).
    rewrite (bind_accepted _ _ _ (Some e) (TokenKind.RBracket :: rest)).
    + by rewrite (bind_accepted _ _ _ tt rest) by (by apply consume_here).
    + apply fmap_accepted, (nested_reads _ _ _ _ _ 0); [by apply He|done..|by apply stop_token_here].
  - cbn [app]. by rewrite (bind_accepted _ _ _ None (TokenKind.RBracket :: rest)) by done.
Qed.

Lemma slice_reprints o s e : reprints o → (∀ x, s = Some x → reprints x) → (∀ x, e = Some x → reprints x) →
  reprints (Expr.SliceAccess o s e).
Proof.
  intros Ho Hrs Hre. apply (postfix_reprints o _ (λ p, TokenKind.LBracket :: optional_text 2 p s ++
    TokenKind.Colon :: optional_text 3 p e ++ [TokenKind.RBracket])); [done..|cbn; lia|].
  intros chain p Hp. change (((needs_parens_as_postfix_object o || negb (ends_try o)) && printable false o &&
    optional_printable s && optional_printable e) = true) in Hp. rewrite !andb_true_iff in Hp.
  destruct Hp as [[Hop Hps] Hpe]. rewrite <- andb_true_iff in Hop.
  split_and!; [done|by right|done..|]. intros r rest Hd Hg _.
  change (depth (Expr.SliceAccess o s e)) with (Nat.max (grouping (needs_parens_as_postfix_object o) (depth o))
    (Nat.max (optional_depth s) (optional_depth e))) in Hd.
  replace ((TokenKind.LBracket :: optional_text 2 p s ++ TokenKind.Colon :: optional_text 3 p e ++
    [TokenKind.RBracket]) ++ rest) with (TokenKind.LBracket :: optional_text 2 p s ++
    TokenKind.Colon :: optional_text 3 p e ++ TokenKind.RBracket :: rest) in Hg |- *
    by (cbn [app]; rewrite <- app_assoc; cbn [app]; by rewrite <- app_assoc).
  apply no_generic_cons in Hg. rewrite bracket_suffix. apply fmap_accepted. unfold parse_subscript.
  rewrite next_bind, look_bind.
  assert (no_generic (optional_text 3 p e ++ TokenKind.RBracket :: rest) = true) as Hge
    by (apply no_generic_app in Hg; by apply no_generic_cons in Hg).
  pose proof (slice_end_reads r 3 p e rest Hre Hpe ltac:(lia) Hge) as Hend.
  destruct s as [s|]; cbn [optional_text optional_printable optional_depth] in *.
  - replace (check TokenKind.Colon (tokens false (2 :: p) s ++ _)) with false
      by (pose proof (tokens_shaped _ layout s false (2 :: p) Hps) as [Hs _]; by destruct (tokens _ _ _) as [|[] ?]).
    rewrite (bind_accepted _ _ _ s (TokenKind.Colon :: optional_text 3 p e ++ TokenKind.RBracket :: rest))
      by (apply (nested_reads _ _ _ _ _ 0); [by apply Hrs|done|lia|done|by apply stop_token_here]).
    rewrite look_bind. cbn [check same_kind TokenKind.discriminant N.eqb Pos.eqb].
    by rewrite next_bind, (bind_accepted _ _ _ _ _ Hend).
  - cbn [app check same_kind TokenKind.discriminant N.eqb Pos.eqb].
    by rewrite next_bind, (bind_accepted _ _ _ _ _ Hend).
Qed.

(** ** Primaries and the induction *)

Lemma primary_reprints e : of_node e = Precedence.Postfix →
  (∀ chain p r rest, printable chain e = true → depth e ≤ r → no_generic (tokens chain p e ++ rest) = true →
    parse_primary (inner r) (tokens chain p e ++ rest) = Accepted e rest) → reprints e.
Proof. intros Hp He chain p r rest ? ? ? _ _. rewrite Hp. by apply primary_reads, He. Qed.

Lemma list_reprints es : Forall (with_spread reprints) es → reprints (Expr.ListLiteral es).
Proof.
  intros Hes. apply primary_reprints; [done|]. intros chain p r rest Hp Hd Hg.
  change (tokens chain p (Expr.ListLiteral es)) with
    (TokenKind.LBracket :: comma_sequence layout (2 :: p) (element_texts layout p es) ++ [TokenKind.RBracket]) in Hg |- *.
  cbn [app] in Hg |- *. rewrite <- app_assoc in Hg |- *.
  change ([TokenKind.RBracket] ++ rest) with (TokenKind.RBracket :: rest) in Hg |- *. apply no_generic_cons in Hg.
  transitivity (parse_list_literal (inner r) (TokenKind.LBracket ::
    comma_sequence layout (2 :: p) (element_texts layout p es) ++ TokenKind.RBracket :: rest)); [done|].
  unfold parse_list_literal. rewrite (bind_accepted _ _ _ tt
    (comma_sequence layout (2 :: p) (element_texts layout p es) ++ TokenKind.RBracket :: rest)) by (by apply consume_here).
  rewrite (bind_accepted _ _ _ es (TokenKind.RBracket :: rest)) by (by apply elements_read).
  by rewrite (bind_accepted _ _ _ tt rest) by (by apply consume_here).
Qed.

Lemma dict_reprints es : Forall pair_spread es → reprints (Expr.DictLiteral es).
Proof.
  intros Hes. apply primary_reprints; [done|]. intros chain p r rest Hp Hd Hg.
  transitivity (parse_dict_or_closure (inner r) (braces_text layout p es ++ rest)); [done|]. by apply dict_reads.
Qed.

Lemma expression_reprints e : with_spread reprints e.
Proof.
  induction e using expr_ind; (split; [|try by intros ? [=]]).
  all: repeat match goal with H : with_spread _ _ |- _ => destruct H as [? _] end.
  all: try by intros ? [= <-].
  all: try by (apply primary_reprints; [done|]; intros; by repeat match goal with b : bool |- _ => destruct b end).
  all: try by first [apply unary_reprints | apply ternary_reprints | apply range_reprints | apply list_reprints
    | apply dict_reprints | apply call_reprints | apply value_call_reprints | apply struct_reprints
    | apply try_reprints | apply non_null_reprints | apply subscript_reprints | apply optional_subscript_reprints].
  - apply primary_reprints; [done|]. intros chain p r rest Hp _ _. cbn [Printable.printable Format.tokens] in *.
    unfold int_tokens. by replace (z <? 0)%Z with false by lia.
  - apply primary_reprints; [done|]. intros chain p r rest Hp _ _. cbn [Printable.printable Format.tokens] in *.
    unfold float_tokens. by destruct (N.testbit f 63).
  - intros chain p r rest Hp _ _ _ _. by apply name_reads.
  - destruct (decide (op = BinaryOperator.Pow)) as [->|]; [by apply pow_reprints|by apply binary_reprints].
  - apply (method_reprints TokenKind.Dot); auto.
  - apply (method_reprints TokenKind.QuestionDot); auto.
  - apply (property_reprints TokenKind.Dot); auto.
  - apply (property_reprints TokenKind.QuestionDot); auto.
  - apply slice_reprints; [done|..].
    all: intros x Hx; match goal with H : ∀ x, _ = Some x → with_spread _ x |- _ => exact (proj1 (H x Hx)) end.
Qed.
End reparse.

(** C14: What the formatter prints for an expression parses to that expression,
    for every layout of lines and trailing commas: under the current grammar,
    for expressions within the nesting limit whose printed form is not one of
    the ambiguous ones [printable] and [no_generic] exclude. *)
Theorem printed_expression_parses unicode_uppercase layout e :
  printable unicode_uppercase false e = true → depth e ≤ MAX_NESTING_DEPTH →
  no_generic (tokens layout false [] e ++ [TokenKind.Eof]) = true →
  token_nesting_ok 0 (tokens layout false [] e ++ [TokenKind.Eof]) = true →
  parse_single_expression unicode_uppercase CURRENT (tokens layout false [] e ++ [TokenKind.Eof]) =
    Accepted e [TokenKind.Eof].
Proof.
  intros Hp Hd Hg Hn. pose proof (tokens_shaped unicode_uppercase layout e false [] Hp) as [Hs _].
  unfold parse_single_expression.
  rewrite (bind_accepted _ _ _ tt (tokens layout false [] e ++ [TokenKind.Eof]))
    by (unfold check_token_nesting_limit; by rewrite Hn).
  rewrite skip_bind, skip_shaped by done. rewrite levels_inner.
  rewrite (bind_accepted _ _ _ e [TokenKind.Eof]); [done|].
  cbn [level level_expression]. unfold parse_expression. rewrite skip_bind, skip_shaped by done.
  apply (expression_reads unicode_uppercase layout); try done; [|by apply stop_token_here].
  exact (proj1 (expression_reprints unicode_uppercase layout e)).
Qed.

(** [a?.b(...xs, [1:])[i] ?? (c ? -d ** 2 : {"k": P {n: 0..5}, [e]: x!}) not in ys?] *)
Definition sample : Expr :=
  let id := Expr.Identifier in
  Expr.BinaryOp BinaryOperator.NotIn
    (Expr.BinaryOp BinaryOperator.NilCoalesce
      (Expr.SubscriptAccess
        (Expr.OptionalMethodCall (id "a") "b"
          [Expr.Spread (id "xs"); Expr.SliceAccess (id "ys") (Some (Expr.IntLiteral 1)) None]) (id "i"))
      (Expr.Ternary (id "c")
        (Expr.UnaryOp Neg (Expr.BinaryOp BinaryOperator.Pow (id "d") (Expr.IntLiteral 2)))
        (Expr.DictLiteral
          [(Expr.StringLiteral "k", Expr.StructConstruct "P"
              [(Expr.StringLiteral "n", Expr.RangeExpr (Expr.IntLiteral 0) (Expr.IntLiteral 5) false)]);
           (id "e", Expr.NonNullAssert (id "x"))])))
    (Expr.TryOperator (Expr.PropertyAccess (id "ys") "type")).

Lemma printed_expression_parses_witness :
  let layout := mkLayout length (λ p, Nat.even (length p)) in
  parse_single_expression (λ _, false) CURRENT (tokens layout false [] sample ++ [TokenKind.Eof]) =
    Accepted sample [TokenKind.Eof].
Proof. apply (printed_expression_parses (λ _, false)); vm_compute; [reflexivity|lia|reflexivity|reflexivity]. Defined.

(** ** Texts that read back as something else *)

Definition reprint (e : Expr) : Parsed Expr :=
  parse_single_expression (λ _, false) CURRENT
    (tokens (mkLayout (λ _, 0) (λ _, false)) false [] e ++ [TokenKind.Eof]).

(** Outside those conditions formatting changes or breaks a program:
    [(a < b) > (c == d)] becomes a generic call, [(a?)[b]] and [(a?).b] optional
    accesses, [(a.b)(c)] a method call, and [(a?)?], [{"throws": a}],
    [P {"if": a}] and [{k: (a?) - b, j: c}] no longer parse. *)
Example ambiguous_forms :
  let a := Expr.Identifier "a" in
  let b := Expr.Identifier "b" in
  let c := Expr.Identifier "c" in
  let tried := Expr.TryOperator a in
  let rejected (e : Expr) := match reprint e with Rejected _ => True | _ => False end in
  let compared := Expr.BinaryOp BinaryOperator.Eq c (Expr.Identifier "d") in
  reprint (Expr.BinaryOp BinaryOperator.Gt (Expr.BinaryOp BinaryOperator.Lt a b) compared) =
    Accepted (Expr.FunctionCall "a" [TypeExpr.Named "b"] [compared]) [TokenKind.Eof] ∧
  reprint (Expr.SubscriptAccess tried b) = Accepted (Expr.OptionalSubscriptAccess a b) [TokenKind.Eof] ∧
  reprint (Expr.PropertyAccess tried "b") = Accepted (Expr.OptionalPropertyAccess a "b") [TokenKind.Eof] ∧
  reprint (Expr.ValueCall (Expr.PropertyAccess a "b") [c]) = Accepted (Expr.MethodCall a "b" [c]) [TokenKind.Eof] ∧
  rejected (Expr.TryOperator tried) ∧
  rejected (Expr.DictLiteral [(Expr.StringLiteral "throws", a)]) ∧
  rejected (Expr.StructConstruct "P" [(Expr.StringLiteral "if", a)]) ∧
  rejected (Expr.DictLiteral
    [(Expr.StringLiteral "k", Expr.BinaryOp BinaryOperator.Sub tried b); (Expr.StringLiteral "j", c)]).
Proof. vm_compute. repeat split. Qed.
