(* ===== verification/Split.v ===== *)
(** * Splitting and stripping text ([str] methods)

    [str::split] at one character, [strip_prefix] and [split_once], shared by
    the components that take directories, globs and prose patterns apart. *)

From Stdlib Require Import Strings.String Strings.Ascii.
From S2P Require Import Prelude.

(** [str::split(separator)] *)
Fixpoint split_on (separator : ascii) (s : string) : list string :=
  match s with
  | EmptyString => [EmptyString]
  | String c s =>
      if decide (c = separator) then EmptyString :: split_on separator s
      else match split_on separator s with
           | part :: parts => String c part :: parts
           | [] => [String c EmptyString]
           end
  end.

(** [str::strip_prefix] *)
Fixpoint strip_prefix (prefix s : string) : option string :=
  match prefix, s with
  | EmptyString, _ => Some s
  | String c prefix, String d s => if decide (c = d) then strip_prefix prefix s else None
  | String _ _, EmptyString => None
  end.

(** [str::split_once(needle)]: what follows the first occurrence. *)
Fixpoint after_first (needle s : string) : option string :=
  match strip_prefix needle s with
  | Some rest => Some rest
  | None => match s with EmptyString => None | String _ s => after_first needle s end
  end.

Lemma append_nil (s : string) : (s ++ "")%string = s.
Proof. induction s as [|c s IH]; [done|exact (f_equal (String c) IH)]. Qed.

Lemma append_assoc (a b c : string) : (a ++ b ++ c)%string = ((a ++ b) ++ c)%string.
Proof. induction a as [|x a IH]; [done|exact (f_equal (String x) IH)]. Qed.

Lemma strip_prefix_spec prefix s rest :
  strip_prefix prefix s = Some rest ↔ s = (prefix ++ rest)%string.
Proof.
  revert s. induction prefix as [|c prefix IH]; intros s; cbn.
  - change ("" ++ rest)%string with rest. split; congruence.
  - change (String c prefix ++ rest)%string with (String c (prefix ++ rest)).
    destruct s as [|d s]; [done|]. case_decide; [subst; rewrite IH; split; congruence|split; congruence].
Qed.

Lemma append_length (a b : string) : String.length (a ++ b) = String.length a + String.length b.
Proof. induction a as [|x a IH]; [done|exact (f_equal S IH)]. Qed.

Lemma append_suffix (a b c d : string) :
  (a ++ b)%string = (c ++ d)%string → String.length d ≤ String.length b → ∃ gap, b = (gap ++ d)%string.
Proof.
  revert c. induction a as [|x a IH]; intros c Heq Hlen; [by exists c|].
  destruct c as [|y c].
  - apply (f_equal String.length) in Heq. change ("" ++ d)%string with d in Heq.
    rewrite append_length in Heq. cbn in Heq. lia.
  - injection Heq as _ Heq. by eapply IH.
Qed.

Lemma after_first_spec needle s :
  match after_first needle s with
  | Some rest =>
      (∃ before, s = (before ++ needle ++ rest)%string) ∧
      ∀ before rest', s = (before ++ needle ++ rest')%string → ∃ gap, rest = (gap ++ rest')%string
  | None => ∀ before rest', s ≠ (before ++ needle ++ rest')%string
  end.
Proof.
  assert (∀ s, match strip_prefix needle s with
    | Some rest => (∃ before, s = (before ++ needle ++ rest)%string) ∧
        ∀ before rest', s = (before ++ needle ++ rest')%string → ∃ gap, rest = (gap ++ rest')%string
    | None => ∀ rest', s ≠ (needle ++ rest')%string
    end) as Hstrip.
  { clear s. intros s. destruct (strip_prefix needle s) as [rest|] eqn:E.
    - apply strip_prefix_spec in E as ->. split; [by exists ""%string|]. intros before rest' Heq.
      rewrite append_assoc in Heq. apply (append_suffix _ _ _ _ Heq).
      apply (f_equal String.length) in Heq. rewrite !append_length in Heq. lia.
    - intros rest' Hr. apply strip_prefix_spec in Hr. congruence. }
  induction s as [|c s IH]; cbn [after_first].
  - specialize (Hstrip ""%string). destruct (strip_prefix needle ""); [done|]. intros before rest' Heq.
    destruct before; [by eapply Hstrip|done].
  - specialize (Hstrip (String c s)). destruct (strip_prefix needle (String c s)); [done|].
    destruct (after_first needle s) as [rest|].
    + destruct IH as [[before ->] Hfirst]. split; [by exists (String c before)|]. intros before' rest' Heq.
      destruct before' as [|d before']; [by destruct (Hstrip rest')|]. injection Heq as _ Heq. by eapply Hfirst.
    + intros before rest' Heq. destruct before as [|d before]; [by destruct (Hstrip rest')|].
      injection Heq as _ Heq. by eapply IH.
Qed.

Lemma split_on_nonempty sep s : split_on sep s ≠ [].
Proof. induction s as [|c s IH]; cbn; [done|]. case_decide; [done|]. by destruct (split_on sep s). Qed.

Definition lacks (sep : ascii) (s : string) : Prop := sep ∉ String.list_ascii_of_string s.

Lemma split_on_lacks sep s : Forall (lacks sep) (split_on sep s).
Proof.
  unfold lacks. induction s as [|c s IH]; cbn; [by repeat constructor; apply not_elem_of_nil|].
  case_decide as Hc; [constructor; [apply not_elem_of_nil|done]|].
  pose proof (split_on_nonempty sep s). destruct (split_on sep s) as [|part parts]; [done|].
  apply Forall_cons in IH as [Hp IH]. constructor; [|done]. cbn. rewrite elem_of_cons. naive_solver.
Qed.
