(* ===== verification/Ordered.v ===== *)
(** * [BTreeSet] and [BTreeMap] over any ordered key

    [BTree] fixes string keys; the rest of the workspace also orders content
    addresses, pairs and records. A type with Rust's [Ord] is an instance of
    [Ord]; a set is its sorted list of elements, a map its entries sorted by
    key, so that iteration order and [pop_first] are those of the source. *)

From S2P Require Import Prelude BTree.
From Stdlib Require Import Strings.String Sorting.Sorted.

Class Ord (A : Type) := {
  compare : A → A → comparison;
  compare_eq a b : compare a b = Eq ↔ a = b;
  compare_antisym a b : compare b a = CompOpp (compare a b);
  compare_lt_trans a b c : compare a b = Lt → compare b c = Lt → compare a c = Lt
}.

Definition ord_lt {A} `{Ord A} (a b : A) : Prop := compare a b = Lt.

(** ** Instances: strings, bytes, numbers, lists, pairs *)

#[export] Program Instance string_ord : Ord string := {| compare := String.compare |}.
Next Obligation. intros a b. split; [apply String.compare_eq_iff|intros ->; apply str_compare_refl]. Qed.
Next Obligation. intros a b. apply String.compare_antisym. Qed.
Next Obligation. intros a b c. apply str_lt_trans. Qed.

#[export] Program Instance N_ord : Ord N := {| compare := N.compare |}.
Next Obligation. intros a b. apply N.compare_eq_iff. Qed.
Next Obligation. intros. apply N.compare_antisym. Qed.
Next Obligation. intros a b c. rewrite !N.compare_lt_iff. apply N.lt_trans. Qed.

#[export] Program Instance nat_ord : Ord nat := {| compare := Nat.compare |}.
Next Obligation. intros a b. apply Nat.compare_eq_iff. Qed.
Next Obligation. intros. apply Nat.compare_antisym. Qed.
Next Obligation. intros a b c. rewrite !Nat.compare_lt_iff. lia. Qed.

#[export] Program Instance byte_ord : Ord byte := {| compare a b := compare (b2n a) (b2n b) |}.
Next Obligation. intros a b. cbn. rewrite N.compare_eq_iff. split; [apply b2n_inj|congruence]. Qed.
Next Obligation. intros. apply compare_antisym. Qed.
Next Obligation. intros a b c. apply compare_lt_trans. Qed.

#[export] Instance byte_eq_decision : EqDecision byte := Byte.byte_eq_dec.

(** [Ordering::then] *)
Definition then_with (c d : comparison) : comparison := match c with Eq => d | _ => c end.

Section lexicographic.
Context {A B : Type} `{Ord A, Ord B}.

(** [Ord for [A]]: the first difference decides, a proper prefix is less. *)
Fixpoint list_compare (l k : list A) : comparison :=
  match l, k with
  | [], [] => Eq
  | [], _ => Lt
  | _, [] => Gt
  | a :: l, b :: k => then_with (compare a b) (list_compare l k)
  end.

Lemma compare_refl (a : A) : compare a a = Eq.
Proof. by apply compare_eq. Qed.

#[export] Program Instance list_ord : Ord (list A) := {| compare := list_compare |}.
Next Obligation.
  intros l. induction l as [|a l IH]; intros [|b k]; cbn; try done.
  destruct (compare a b) eqn:E; cbn; try (split; [done|]; intros [= -> ->]; by rewrite compare_refl in E).
  apply compare_eq in E as ->. rewrite IH. split; congruence.
Qed.
Next Obligation.
  intros l. induction l as [|a l IH]; intros [|b k]; cbn; try done.
  rewrite (compare_antisym a b). destruct (compare a b); cbn; auto.
Qed.
Next Obligation.
  intros l. induction l as [|a l IH]; intros [|b k] [|c m]; cbn; try done.
  destruct (compare a b) eqn:E, (compare b c) eqn:F; cbn; try done.
  - apply compare_eq in E as ->. rewrite F. cbn. apply IH.
  - apply compare_eq in E as ->. by rewrite F.
  - apply compare_eq in F as ->. by rewrite E.
  - by rewrite (compare_lt_trans a b c).
Qed.

#[export] Program Instance pair_ord : Ord (A * B) :=
  {| compare p q := then_with (compare p.1 q.1) (compare p.2 q.2) |}.
Next Obligation.
  intros [a b] [c d]; cbn. destruct (compare a c) eqn:E; cbn;
    try (split; [done|]; intros [= -> ->]; by rewrite compare_refl in E).
  apply compare_eq in E as ->. rewrite compare_eq. split; congruence.
Qed.
Next Obligation.
  intros [a b] [c d]; cbn. rewrite (compare_antisym a c).
  destruct (compare a c); cbn; auto using compare_antisym.
Qed.
Next Obligation.
  intros [a b] [c d] [e f]; cbn. destruct (compare a c) eqn:E, (compare c e) eqn:F; cbn; try done.
  - apply compare_eq in E as ->. rewrite F. cbn. apply compare_lt_trans.
  - apply compare_eq in E as ->. by rewrite F.
  - apply compare_eq in F as ->. by rewrite E.
  - by rewrite (compare_lt_trans a c e).
Qed.
End lexicographic.

(** ** The order *)

Section order.
Context {A : Type} `{Ord A}.
Implicit Types a b c : A.

#[export] Instance ord_lt_strict : StrictOrder ord_lt.
Proof.
  split.
  - intros a. unfold complement, ord_lt. by rewrite compare_refl.
  - intros a b c. apply compare_lt_trans.
Qed.

Lemma compare_gt a b : compare a b = Gt ↔ ord_lt b a.
Proof. unfold ord_lt. rewrite (compare_antisym a b). destruct (compare a b); cbn; split; congruence. Qed.

Lemma ord_lt_trichotomy a b : ord_lt a b ∨ a = b ∨ ord_lt b a.
Proof.
  destruct (compare a b) eqn:E; [right; left; by apply compare_eq|by left|right; right; by apply compare_gt].
Qed.

Lemma ord_lt_irrefl a : ¬ ord_lt a a.
Proof. apply irreflexivity, _. Qed.
End order.

(** [cmp::Reverse] *)
Record Reverse (A : Type) := reverse { reversed : A }.
Arguments reverse {A}.
Arguments reversed {A}.

#[export] Program Instance reverse_ord {A} `{Ord A} : Ord (Reverse A) :=
  {| compare a b := compare (reversed b) (reversed a) |}.
Next Obligation. intros A H [a] [b]. cbn. rewrite compare_eq. split; congruence. Qed.
Next Obligation. intros A H [a] [b]. apply compare_antisym. Qed.
Next Obligation. intros A H [a] [b] [c] Hab Hbc. cbn in *. by apply (compare_lt_trans c b a). Qed.

(** The reflexive order, as [max_by] and sorting compare. *)
Section at_most.
Context {A : Type} `{Ord A}.
Implicit Types a b c : A.

Definition ord_le a b : Prop := compare a b ≠ Gt.

Lemma ord_le_lt a b : ord_le a b ↔ ord_lt a b ∨ a = b.
Proof.
  unfold ord_le, ord_lt. rewrite <- compare_eq. destruct (compare a b); split; intuition congruence.
Qed.

Lemma ord_le_refl a : ord_le a a.
Proof. apply ord_le_lt. by right. Qed.

Lemma ord_le_trans a b c : ord_le a b → ord_le b c → ord_le a c.
Proof.
  rewrite !ord_le_lt. intros [Hab| ->] [Hbc| ->]; auto. left. by transitivity b.
Qed.

Lemma ord_le_total a b : ord_le a b ∨ ord_lt b a.
Proof. rewrite ord_le_lt. destruct (ord_lt_trichotomy a b) as [?|[?|?]]; auto. Qed.
End at_most.

(** [Iterator::max_by]: the last of the greatest. *)
Fixpoint max_by_from {A} (cmp : A → A → comparison) (best : A) (l : list A) : A :=
  match l with
  | [] => best
  | x :: l => max_by_from cmp (match cmp best x with Gt => best | _ => x end) l
  end.

Definition max_by {A} (cmp : A → A → comparison) (l : list A) : option A :=
  match l with [] => None | x :: l => Some (max_by_from cmp x l) end.

Lemma max_by_from_greatest {A K} `{Ord K} (key : A → K) best l :
  let m := max_by_from (λ a b, compare (key a) (key b)) best l in
  m ∈ best :: l ∧ ∀ x, x ∈ best :: l → ord_le (key x) (key m).
Proof.
  revert best. induction l as [|y l IH]; intros best; cbn.
  - split; [by left|]. intros x ->%list_elem_of_singleton. apply ord_le_refl.
  - set (best' := match compare (key best) (key y) with Gt => best | _ => y end).
    destruct (IH best') as [Hin Hle].
    assert (ord_le (key best) (key best') ∧ ord_le (key y) (key best') ∧ (best' = best ∨ best' = y)) as (Hb & Hy & Hor).
    { subst best'. destruct (compare (key best) (key y)) eqn:E; unfold ord_le; split_and!; auto; try congruence.
      all: try apply ord_le_refl. rewrite (compare_antisym (key best) (key y)), E. done. }
    split; [destruct Hor as [Heq|Heq]; rewrite Heq in Hin at 2; set_solver|].
    intros x [->|[->|Hx]%elem_of_cons]%elem_of_cons.
    + eapply ord_le_trans; [exact Hb|]. apply Hle. by left.
    + eapply ord_le_trans; [exact Hy|]. apply Hle. by left.
    + apply Hle. by right.
Qed.

Lemma max_by_greatest {A K} `{Ord K} (key : A → K) l m :
  max_by (λ a b, compare (key a) (key b)) l = Some m → m ∈ l ∧ ∀ x, x ∈ l → ord_le (key x) (key m).
Proof. destruct l as [|y l]; [done|]. intros [= <-]. apply max_by_from_greatest. Qed.

(** ** Sets *)

Definition oset (A : Type) : Type := list A.

Section oset.
Context {A : Type} `{Ord A, EqDecision A}.
Implicit Types (s : oset A) (x y : A).

(** [BTreeSet::contains] *)
Definition contains x s : bool := bool_decide (x ∈ s).

(** [BTreeSet::insert] *)
Fixpoint set_insert x s : oset A :=
  match s with
  | [] => [x]
  | y :: s' =>
      match compare x y with
      | Lt => x :: s
      | Eq => s
      | Gt => y :: set_insert x s'
      end
  end.

(** [BTreeSet::remove] *)
Definition set_remove x s : oset A := filter (λ y, y ≠ x) s.

(** [BTreeSet::extend], [collect] *)
Definition set_extend s (l : list A) : oset A := fold_left (λ s x, set_insert x s) l s.
Definition to_set (l : list A) : oset A := set_extend [] l.

Definition ordered s : Prop := StronglySorted ord_lt s.

Lemma elem_of_set_insert x y s : y ∈ set_insert x s ↔ y = x ∨ y ∈ s.
Proof.
  induction s as [|z s IH]; cbn; [set_solver|].
  destruct (compare x z) eqn:E; [apply compare_eq in E as ->| |]; set_solver.
Qed.

Lemma elem_of_set_extend y s l : y ∈ set_extend s l ↔ y ∈ s ∨ y ∈ l.
Proof.
  unfold set_extend. revert s. induction l as [|x l IH]; intros s; cbn; [set_solver|].
  rewrite IH, elem_of_set_insert. set_solver.
Qed.

Lemma elem_of_to_set y l : y ∈ to_set l ↔ y ∈ l.
Proof. unfold to_set. rewrite elem_of_set_extend. set_solver. Qed.

Lemma elem_of_set_remove x y s : y ∈ set_remove x s ↔ y ≠ x ∧ y ∈ s.
Proof. unfold set_remove. by rewrite list_elem_of_filter. Qed.

Lemma ordered_insert x s : ordered s → ordered (set_insert x s).
Proof.
  unfold ordered. induction 1 as [|y s Hs IH Hlt]; cbn; [by repeat constructor|].
  destruct (compare x y) eqn:E; [by constructor| |].
  - constructor; [by constructor|]. constructor; [done|].
    eapply Forall_impl; [exact Hlt|]. intros z Hz. by transitivity y.
  - apply compare_gt in E. constructor; [done|]. apply Forall_forall.
    intros z [->|Hz]%elem_of_set_insert; [done|]. rewrite Forall_forall in Hlt. by apply Hlt.
Qed.

Lemma ordered_extend s l : ordered s → ordered (set_extend s l).
Proof.
  unfold set_extend. revert s. induction l as [|x l IH]; intros s Hs; cbn; [done|].
  by apply IH, ordered_insert.
Qed.

Lemma ordered_to_set l : ordered (to_set l).
Proof. apply ordered_extend. constructor. Qed.

Lemma ordered_remove x s : ordered s → ordered (set_remove x s).
Proof.
  unfold ordered, set_remove. induction 1 as [|y s Hs IH Hlt]; [constructor|].
  rewrite filter_cons. case_decide; [|done]. constructor; [done|].
  rewrite Forall_forall in *. intros z [_ Hz]%list_elem_of_filter. by apply Hlt.
Qed.

Lemma ordered_nodup s : ordered s → NoDup s.
Proof.
  induction 1 as [|y s Hs IH Hlt]; constructor; [|done].
  intros Hin. rewrite Forall_forall in Hlt. by apply (ord_lt_irrefl y), Hlt.
Qed.

(** Ordered sets with the same elements are the same list. *)
Lemma ordered_ext s t : ordered s → ordered t → (∀ x, x ∈ s ↔ x ∈ t) → s = t.
Proof.
  unfold ordered. intros Hs. revert t. induction Hs as [|x s Hs IH Hlt]; intros t Ht Heq.
  - destruct t as [|y t]; [done|]. destruct (Heq y) as [_ Hy]. by apply not_elem_of_nil in Hy; [|left].
  - rewrite Forall_forall in Hlt. destruct Ht as [|y t Ht Hlt'].
    { destruct (Heq x) as [Hx _]. by apply not_elem_of_nil in Hx; [|left]. }
    rewrite Forall_forall in Hlt'.
    assert (x = y) as ->.
    { destruct (Heq x) as [Hx _], (Heq y) as [_ Hy].
      specialize (Hx ltac:(left)). specialize (Hy ltac:(left)).
      apply elem_of_cons in Hx as [->|Hx]; [done|]. apply elem_of_cons in Hy as [->|Hy]; [done|].
      destruct (ord_lt_irrefl x). transitivity y; auto. }
    f_equal. apply IH; [done|]. intros z. specialize (Heq z). rewrite !elem_of_cons in Heq.
    split; intros Hz; [destruct Heq as [[->|?] _]|destruct Heq as [_ [->|?]]]; auto;
      by destruct (ord_lt_irrefl y); auto.
Qed.

Lemma contains_true x s : contains x s = true ↔ x ∈ s.
Proof. apply bool_decide_eq_true. Qed.

Lemma contains_false x s : contains x s = false ↔ x ∉ s.
Proof. apply bool_decide_eq_false. Qed.
End oset.

(** ** Maps *)

Definition omap (K V : Type) : Type := list (K * V).

Section omap.
Context {K V : Type} `{Ord K, EqDecision K}.
Implicit Types (m : omap K V) (k : K) (v : V).

(** [BTreeMap::get] *)
Fixpoint map_get k m : option V :=
  match m with
  | [] => None
  | (k', v) :: m' => if decide (k = k') then Some v else map_get k m'
  end.

Definition map_contains k m : bool :=
  match map_get k m with Some _ => true | None => false end.

(** [*map.entry(k).or_insert(default)] replaced by [f] of it; a [BTreeMap::insert]
    is the update by a constant. *)
Fixpoint map_update (default : V) (f : V → V) k m : omap K V :=
  match m with
  | [] => [(k, f default)]
  | (k', v') :: m' =>
      match compare k k' with
      | Lt => (k, f default) :: m
      | Eq => (k', f v') :: m'
      | Gt => (k', v') :: map_update default f k m'
      end
  end.

Definition map_insert k v m : omap K V := map_update v (λ _, v) k m.

Definition map_ordered m : Prop := StronglySorted (λ a b, ord_lt a.1 b.1) m.

Lemma map_get_elem k v m : map_get k m = Some v → (k, v) ∈ m.
Proof.
  induction m as [|[k' w] m IH]; cbn; [done|].
  case_decide as Hk; [subst; intros [= ->]; by left|right; auto].
Qed.

Lemma map_get_none k m : map_get k m = None ↔ k ∉ map fst m.
Proof.
  induction m as [|[k' w] m IH]; cbn; [set_solver|].
  rewrite elem_of_cons. case_decide; naive_solver.
Qed.

Lemma map_contains_true k m : map_contains k m = true ↔ is_Some (map_get k m).
Proof. unfold map_contains. destruct (map_get k m); split; naive_solver. Qed.

Lemma map_get_update k k' d f m :
  map_ordered m →
  map_get k (map_update d f k' m) =
    if decide (k = k') then Some (f (default d (map_get k m))) else map_get k m.
Proof.
  unfold map_ordered. induction 1 as [|[k0 v0] m Hs IH Hlt]; cbn.
  { by case_decide. }
  assert (∀ k, ord_lt k k0 → map_get k m = None) as Hnone.
  { intros k1 Hk1. apply map_get_none. intros ([k2 v2] & -> & Hin)%list_elem_of_fmap.
    rewrite Forall_forall in Hlt. specialize (Hlt _ Hin). cbn in *.
    apply (ord_lt_irrefl k2). by transitivity k0. }
  destruct (compare k' k0) eqn:E; cbn.
  - apply compare_eq in E as ->. by repeat case_decide.
  - destruct (decide (k = k')) as [->|]; [|done].
    rewrite decide_False by (intros ->; by apply (ord_lt_irrefl k0)). by rewrite Hnone.
  - rewrite IH. destruct (decide (k = k0)) as [->|]; [|done].
    rewrite decide_False; [done|]. intros ->. by rewrite compare_refl in E.
Qed.

Lemma map_update_keys d f k m k' : k' ∈ map fst (map_update d f k m) ↔ k' = k ∨ k' ∈ map fst m.
Proof.
  induction m as [|[k0 v0] m IH]; cbn; [set_solver|].
  destruct (compare k k0) eqn:E; cbn; [apply compare_eq in E as ->| |]; set_solver.
Qed.

Lemma map_update_ordered d f k m : map_ordered m → map_ordered (map_update d f k m).
Proof.
  unfold map_ordered. induction 1 as [|[k0 v0] m Hs IH Hlt]; cbn; [by repeat constructor|].
  rewrite Forall_forall in Hlt. destruct (compare k k0) eqn:E.
  - constructor; [done|]. apply Forall_forall. intros e He. by apply Hlt.
  - constructor; [by constructor; [|apply Forall_forall]|]. constructor; [done|].
    apply Forall_forall. intros e He. cbn. transitivity k0; [done|]. by apply Hlt.
  - apply compare_gt in E. constructor; [done|]. apply Forall_forall. intros [k1 v1] He.
    apply (list_elem_of_fmap_2 fst), map_update_keys in He. cbn in *.
    destruct He as [->|(e & -> & He)%list_elem_of_fmap]; [done|]. by apply Hlt.
Qed.
End omap.

#[export] Hint Resolve ordered_insert ordered_remove ordered_extend ordered_to_set map_update_ordered : kernel.
#[export] Hint Rewrite @contains_true @contains_false @elem_of_set_insert @elem_of_set_remove
  @elem_of_set_extend @elem_of_to_set : ordered.
