(* ===== verification/Fallible.v ===== *)
(** * [Result<A, E>] outside the kernel

    The monad of the components beside the kernel, whose errors are types of
    their own, with the inversion tactic for computations that returned. *)

From S2P Require Import Prelude.

(** [Result<A, E>] *)
Inductive fallible (E A : Type) :=
  | Returned (a : A)
  | Raised (e : E).
Arguments Returned {E A} a.
Arguments Raised {E A} e.

#[export] Instance fallible_ret {E} : MRet (fallible E) := λ A a, Returned a.
#[export] Instance fallible_bind {E} : MBind (fallible E) := λ A B f m,
  match m with Returned a => f a | Raised e => Raised e end.

(** [if guard { return Err(..) }] and [.ok_or(..)?] *)
Definition raise_if {E} (b : bool) (e : E) : fallible E unit := if b then Raised e else Returned tt.
Definition ok_or_raise {E A} (o : option A) (e : E) : fallible E A :=
  match o with Some a => Returned a | None => Raised e end.

Lemma fallible_bind_returned {E A B} (m : fallible E A) (f : A → fallible E B) b :
  (m ≫= f) = Returned b ↔ ∃ a, m = Returned a ∧ f a = Returned b.
Proof. destruct m; cbn; naive_solver. Qed.

(** Invert a computation that returned, one bind at a time. *)
Ltac inv_returned :=
  repeat match goal with
  | H : (_ ≫= _) = Returned _ |- _ => apply fallible_bind_returned in H as (? & ? & H)
  | H : Returned _ = Returned _ |- _ => injection H; clear H; intros; subst
  | H : Raised _ = Returned _ |- _ => discriminate H
  | H : raise_if ?b _ = Returned _ |- _ =>
      let E := fresh "E" in unfold raise_if in H; destruct b eqn:E; [discriminate H|clear H]
  | H : ok_or_raise ?o _ = Returned _ |- _ =>
      let E := fresh "E" in unfold ok_or_raise in H; destruct o eqn:E; [|discriminate H]
  end.
