(* ===== verification/Atom.v ===== *)
(** * Flow atoms ([harn-flow/src/atom.rs]): edits, signing, undo

    An atom is an ordered list of text edits with signed provenance, named by
    the SHA-256 of the canonical encoding of its body. The [time], [sha2],
    [ed25519_dalek] and [serde_json] crates are parameters ([FlowCrates]), what
    they promise is [FlowLaws]. *)

From Stdlib Require Import Strings.String.
From S2P Require Import Prelude Program Ordered Fallible.

(** ** Data *)

(** [AtomId]: 32 bytes. *)
Definition ATOM_ID_BYTES : nat := 32.
Definition ED25519_PUBLIC_KEY_BYTES : nat := 32.
Definition ED25519_SIGNATURE_BYTES : nat := 64.
Definition AtomId : Type := list byte.

(** [AtomError] without its messages. *)
Module AtomError.
Inductive AtomError :=
  | Json
  | Binary
  | ContentHashMismatch (expected actual : AtomId)
  | InvalidSignature (role : string)
  | Apply
  | Invalid.
End AtomError.
Abbreviation AtomError := AtomError.AtomError.
Abbreviation AtomResult := (fallible AtomError).

(** [TextOp] *)
Module TextOp.
Inductive TextOp :=
  | Insert (offset : N) (content : string)
  | Delete (offset : N) (content : string).
End TextOp.
Abbreviation TextOp := TextOp.TextOp.

(** [AtomSignature] *)
Record AtomSignature := mkAtomSignature {
  principal_key : list byte;
  principal_sig : list byte;
  persona_key : list byte;
  persona_sig : list byte
}.

(** ** Text edits *)

(** [TextOp::invert] *)
Definition op_invert (op : TextOp) : TextOp :=
  match op with
  | TextOp.Insert offset content => TextOp.Delete offset content
  | TextOp.Delete offset content => TextOp.Insert offset content
  end.

(** [TextOp::apply]; the document is changed only on success. *)
Definition op_apply (op : TextOp) (document : list byte) : AtomResult (list byte) :=
  match op with
  | TextOp.Insert offset content =>
      _ ← raise_if (USIZE_MAX <? offset)%N AtomError.Apply;
      _ ← raise_if (len document <? offset)%N AtomError.Apply;
      let o := N.to_nat offset in
      Returned (take o document ++ as_bytes content ++ drop o document)
  | TextOp.Delete offset content =>
      _ ← raise_if (USIZE_MAX <? offset)%N AtomError.Apply;
      end_ ← ok_or_raise (checked_add_usize offset (slen content)) AtomError.Apply;
      _ ← raise_if (len document <? end_)%N AtomError.Apply;
      let o := N.to_nat offset in
      let e := N.to_nat end_ in
      _ ← raise_if (negb (bool_decide (take (e - o) (drop o document) = as_bytes content))) AtomError.Apply;
      Returned (take o document ++ drop e document)
  end.

(** [Atom::apply]: the document as the edits before a failure leave it. *)
Fixpoint apply_ops (ops : list TextOp) (document : list byte) : list byte * AtomResult unit :=
  match ops with
  | [] => (document, Returned tt)
  | op :: ops =>
      match op_apply op document with
      | Returned document => apply_ops ops document
      | Raised e => (document, Raised e)
      end
  end.

(** [target.ops.iter().rev().map(TextOp::invert)] *)
Definition invert_ops (ops : list TextOp) : list TextOp := map op_invert (rev ops).

(** ** Code outside the repository *)

Class FlowCrates := {
  (** [time::OffsetDateTime], [format(&Rfc3339)] and [parse(_, &Rfc3339)] *)
  OffsetDateTime : Type;
  rfc3339_format : OffsetDateTime → option string;
  rfc3339_parse : string → option OffsetDateTime;
  (** [sha2::Sha256::digest] *)
  sha256_digest : list byte → list byte;
  (** [ed25519_dalek]: [verifying_key().to_bytes()], [sign], whether
      [VerifyingKey::from_bytes] succeeds, and [verify(key, message, signature)] *)
  SigningKey : Type;
  verifying_key : SigningKey → list byte;
  ed25519_sign : SigningKey → list byte → list byte;
  verifying_key_valid : list byte → bool;
  ed25519_verify : list byte → list byte → list byte → bool
}.

Class FlowLaws `{FlowCrates} := {
  rfc3339_round_trip t s :
    rfc3339_format t = Some s → rfc3339_parse s = Some t ∧ str_wf s ∧ (slen s <= U32_MAX)%N;
  sha256_length bs : length (sha256_digest bs) = ATOM_ID_BYTES;
  verifying_key_length k : length (verifying_key k) = ED25519_PUBLIC_KEY_BYTES;
  signature_length k m : length (ed25519_sign k m) = ED25519_SIGNATURE_BYTES;
  verifying_key_is_valid k : verifying_key_valid (verifying_key k) = true;
  signatures_verify k m : ed25519_verify (verifying_key k) m (ed25519_sign k m) = true
}.

Section atom.
Context `{FlowCrates}.

(** [Provenance] *)
Record Provenance := mkProvenance {
  principal : string;
  persona : string;
  agent_run_id : string;
  tool_call_id : option string;
  trace_id : string;
  transcript_ref : string;
  timestamp : OffsetDateTime
}.

(** [Atom] *)
Record Atom := mkAtom {
  atom_id : AtomId;
  ops : list TextOp;
  parents : list AtomId;
  provenance : Provenance;
  signature : AtomSignature;
  inverse_of : option AtomId
}.

(** ** The canonical encoding *)

Definition ATOM_BINARY_MAGIC : list byte := as_bytes "FATM".
Definition ATOM_BINARY_VERSION : N := 1.

(** [uN::to_le_bytes]; a length is cast with [as u32]. *)
Definition to_le_bytes (n : nat) (w : N) : list byte := rev (be_bytes n w).
Definition write_u32 (value : N) : list byte := to_le_bytes 4 value.
Definition write_u64 (value : N) : list byte := to_le_bytes 8 value.
Definition write_len (n : N) : list byte := write_u32 (n mod 4294967296).

Definition write_bytes (bytes : list byte) : list byte := write_len (len bytes) ++ bytes.
Definition write_str (value : string) : list byte := write_bytes (as_bytes value).

Definition write_op (op : TextOp) : list byte :=
  match op with
  | TextOp.Insert offset content => [n2b 0] ++ write_u64 offset ++ write_str content
  | TextOp.Delete offset content => [n2b 1] ++ write_u64 offset ++ write_str content
  end.

Definition write_ops (ops : list TextOp) : list byte := write_len (len ops) ++ concat (map write_op ops).
Definition write_parents (parents : list AtomId) : list byte := write_len (len parents) ++ concat parents.

(** [write_provenance], given the formatted timestamp. *)
Definition provenance_bytes (p : Provenance) (formatted : string) : list byte :=
  write_str (principal p) ++ write_str (persona p) ++ write_str (agent_run_id p) ++
  match tool_call_id p with Some id => [n2b 1] ++ write_str id | None => [n2b 0] end ++
  write_str (trace_id p) ++ write_str (transcript_ref p) ++ write_str formatted.

Definition write_provenance (p : Provenance) : AtomResult (list byte) :=
  formatted ← ok_or_raise (rfc3339_format (timestamp p)) AtomError.Invalid;
  Returned (provenance_bytes p formatted).

Definition write_optional_atom_id (value : option AtomId) : list byte :=
  match value with Some id => [n2b 1] ++ id | None => [n2b 0] end.

(** [encode_body_canonical] *)
Definition encode_body_canonical (ops : list TextOp) (parents : list AtomId) (provenance : Provenance)
    (inverse_of : option AtomId) : AtomResult (list byte) :=
  provenance ← write_provenance provenance;
  Returned (ATOM_BINARY_MAGIC ++ [n2b ATOM_BINARY_VERSION] ++ write_ops ops ++ write_parents parents ++
    provenance ++ write_optional_atom_id inverse_of).

Definition encode_body (a : Atom) : AtomResult (list byte) :=
  encode_body_canonical (ops a) (parents a) (provenance a) (inverse_of a).

Definition write_signature (s : AtomSignature) : list byte :=
  principal_key s ++ principal_sig s ++ persona_key s ++ persona_sig s.

(** [encode_atom_binary], [Atom::to_binary] *)
Definition to_binary (a : Atom) : AtomResult (list byte) :=
  body ← encode_body a;
  Returned (body ++ atom_id a ++ write_signature (signature a)).

(** ** Signing and verification *)

(** [Atom::sign] *)
Definition sign (ops : list TextOp) (parents : list AtomId) (provenance : Provenance)
    (inverse_of : option AtomId) (principal_key persona_key : SigningKey) : AtomResult Atom :=
  body_bytes ← encode_body_canonical ops parents provenance inverse_of;
  let id := sha256_digest body_bytes in
  Returned (mkAtom id ops parents provenance
    (mkAtomSignature (verifying_key principal_key) (ed25519_sign principal_key id)
       (verifying_key persona_key) (ed25519_sign persona_key id))
    inverse_of).

(** [Atom::invert] *)
Definition invert (target : Atom) (provenance : Provenance) (principal_key persona_key : SigningKey)
    : AtomResult Atom :=
  sign (invert_ops (ops target)) [atom_id target] provenance (Some (atom_id target))
    principal_key persona_key.

(** [Atom::verify_content_hash] *)
Definition verify_content_hash (a : Atom) : AtomResult unit :=
  body_bytes ← encode_body a;
  let recomputed := sha256_digest body_bytes in
  raise_if (negb (bool_decide (recomputed = atom_id a)))
    (AtomError.ContentHashMismatch (atom_id a) recomputed).

(** [Atom::verify_signatures] *)
Definition verify_signatures (a : Atom) : AtomResult unit :=
  let payload := atom_id a in
  let s := signature a in
  _ ← raise_if (negb (verifying_key_valid (principal_key s))) AtomError.Invalid;
  _ ← raise_if (negb (verifying_key_valid (persona_key s))) AtomError.Invalid;
  _ ← raise_if (negb (ed25519_verify (principal_key s) payload (principal_sig s)))
        (AtomError.InvalidSignature "principal");
  raise_if (negb (ed25519_verify (persona_key s) payload (persona_sig s)))
    (AtomError.InvalidSignature "persona").

(** [Atom::verify] *)
Definition verify (a : Atom) : AtomResult unit :=
  _ ← verify_content_hash a;
  verify_signatures a.

(** [Atom::apply] *)
Definition apply (a : Atom) (document : list byte) : list byte * AtomResult unit :=
  apply_ops (ops a) document.
End atom.

(** ** Undo *)

(** Bytes the edits insert: with the document they bound every intermediate one. *)
Definition inserted (ops : list TextOp) : N :=
  foldr (λ op n, match op with TextOp.Insert _ content => slen content + n | TextOp.Delete _ _ => n end)%N
    0%N ops.

Lemma len_nat {A} (l : list A) : N.to_nat (len l) = length l.
Proof. apply Nat2N.id. Qed.

(** A list cut at an offset inside it. *)
Lemma cut_at {A} (l : list A) (offset : N) :
  (offset <= len l)%N → ∃ a b, l = a ++ b ∧ offset = len a.
Proof.
  intros Ho. exists (take (N.to_nat offset) l), (drop (N.to_nat offset) l).
  rewrite take_drop. unfold len in *. rewrite length_take. split; [done|lia].
Qed.

Lemma drop_len {A} (a b : list A) : drop (N.to_nat (len a)) (a ++ b) = b.
Proof. rewrite len_nat. apply drop_app_length. Qed.
Lemma take_len {A} (a b : list A) : take (N.to_nat (len a)) (a ++ b) = a.
Proof. rewrite len_nat. apply take_app_length. Qed.

Lemma insert_applies a b content :
  (len a <= USIZE_MAX)%N →
  op_apply (TextOp.Insert (len a) content) (a ++ b) = Returned (a ++ as_bytes content ++ b).
Proof.
  intros Ha. cbn [op_apply]. rewrite (proj2 (N.ltb_ge _ _) Ha). cbn [raise_if mbind fallible_bind].
  rewrite len_app. replace (_ <? _)%N with false by (symmetry; apply N.ltb_ge; lia).
  cbn [raise_if mbind fallible_bind]. by rewrite drop_len, take_len.
Qed.

Lemma delete_applies a b content :
  (len (a ++ as_bytes content) <= USIZE_MAX)%N →
  op_apply (TextOp.Delete (len a) content) (a ++ as_bytes content ++ b) = Returned (a ++ b).
Proof.
  rewrite len_app, len_as_bytes. intros Ha. cbn [op_apply].
  replace (_ <? _)%N with false by (symmetry; apply N.ltb_ge; lia). cbn [raise_if mbind fallible_bind].
  unfold checked_add_usize. rewrite (proj2 (N.leb_le _ _) Ha). cbn [ok_or_raise mbind fallible_bind].
  rewrite !len_app, len_as_bytes. replace (_ <? _)%N with false by (symmetry; apply N.ltb_ge; lia).
  cbn [raise_if mbind fallible_bind]. rewrite drop_len, take_len.
  rewrite (app_assoc a), <- (len_as_bytes content), <- len_app, drop_len, !len_nat, length_app.
  by rewrite Nat.add_comm, Nat.add_sub, take_app_length, bool_decide_true.
Qed.

(** What an edit that applies did to the document. *)
Lemma op_apply_inv op document document' :
  op_apply op document = Returned document' →
  ∃ a b, match op with
  | TextOp.Insert offset content =>
      offset = len a ∧ (offset <= USIZE_MAX)%N ∧ document = a ++ b ∧ document' = a ++ as_bytes content ++ b
  | TextOp.Delete offset content =>
      offset = len a ∧ (offset <= USIZE_MAX)%N ∧ document = a ++ as_bytes content ++ b ∧ document' = a ++ b
  end.
Proof.
  destruct op as [offset content|offset content]; cbn [op_apply]; intros Ha; inv_returned; reflect_bools.
  - destruct (cut_at document offset) as (a & b & -> & ->); [done|].
    exists a, b. by rewrite take_len, drop_len.
  - unfold checked_add_usize in *. repeat case_match; simplify_eq. reflect_bools.
    match goal with Hb : negb (bool_decide _) = false |- _ =>
      apply negb_false_iff, bool_decide_eq_true in Hb; rename Hb into Hcut end.
    destruct (cut_at document offset) as (a & r & -> & ->); [lia|].
    rewrite drop_len in Hcut. rewrite take_len.
    exists a, (drop (length (as_bytes content)) r).
    assert (N.to_nat (len a + slen content) = length a + length (as_bytes content)) as Hn.
    { rewrite <- len_as_bytes. unfold len. lia. }
    rewrite Hn in *. rewrite len_nat in Hcut.
    replace (length a + length (as_bytes content) - length a) with (length (as_bytes content)) in Hcut by lia.
    split_and!; [done..| |].
    + rewrite <- Hcut at 1. by rewrite take_drop.
    + by rewrite <- drop_drop, drop_app_length.
Qed.

Lemma op_apply_length op document document' :
  op_apply op document = Returned document' → (len document' <= len document + inserted [op])%N.
Proof.
  intros (a & b & Ha)%op_apply_inv.
  destruct op; destruct Ha as (_ & _ & -> & ->); cbn; rewrite !len_app, ?len_as_bytes; lia.
Qed.

(** An edit is undone by its inverse. *)
Lemma op_undo op document document' :
  (len document' <= USIZE_MAX)%N → op_apply op document = Returned document' →
  op_apply (op_invert op) document' = Returned document.
Proof.
  intros Hfits (a & b & Ha)%op_apply_inv. destruct op; destruct Ha as (-> & Ho & -> & ->); cbn [op_invert].
  - apply delete_applies. rewrite !len_app in *. lia.
  - by apply insert_applies.
Qed.

Lemma inserted_app ops1 ops2 : inserted (ops1 ++ ops2) = (inserted ops1 + inserted ops2)%N.
Proof. unfold inserted. induction ops1 as [|[o c|o c] ops1 IH]; cbn; [done|rewrite IH; lia|done]. Qed.

Lemma apply_ops_app ops1 ops2 document :
  apply_ops (ops1 ++ ops2) document =
    match apply_ops ops1 document with
    | (document, Returned _) => apply_ops ops2 document
    | failed => failed
    end.
Proof. revert document. induction ops1 as [|op ops1 IH]; intros d; cbn; [done|]. by destruct (op_apply op d). Qed.

Lemma apply_ops_undo ops document document' :
  (len document + inserted ops <= USIZE_MAX)%N → apply_ops ops document = (document', Returned tt) →
  apply_ops (invert_ops ops) document' = (document, Returned tt).
Proof.
  unfold invert_ops. revert document. induction ops as [|op ops IH]; intros d Hfits Ha; [by injection Ha as ->|].
  cbn [apply_ops] in Ha. destruct (op_apply op d) as [d1|] eqn:Eop; [|done].
  pose proof (op_apply_length _ _ _ Eop). change (op :: ops) with ([op] ++ ops) in Hfits. rewrite inserted_app in Hfits.
  cbn [rev]. rewrite map_app, apply_ops_app. rewrite (IH d1) by (done || lia). cbn [map apply_ops].
  by rewrite (op_undo op d d1) by (done || lia).
Qed.

Lemma op_invert_involutive op : op_invert (op_invert op) = op.
Proof. by destruct op. Qed.

Lemma invert_ops_involutive ops : invert_ops (invert_ops ops) = ops.
Proof.
  unfold invert_ops. rewrite <- map_rev, rev_involutive, map_map. rewrite <- (map_id ops) at 2.
  apply map_ext, op_invert_involutive.
Qed.

(** C36: Whatever an atom did to a document, the atom that [invert] makes of it
    undoes: where the atom applies, its inverse applies to the result and
    restores the document byte for byte. The inverse names the atom it undoes
    as its parent and in [inverse_of], and inverting again gives the original
    edits. *)
Theorem inverse_restores `{FlowCrates} target provenance principal_key persona_key inverse document document' :
  invert target provenance principal_key persona_key = Returned inverse →
  (len document + inserted (ops target) <= USIZE_MAX)%N →
  apply target document = (document', Returned tt) →
  apply inverse document' = (document, Returned tt) ∧
  parents inverse = [atom_id target] ∧ inverse_of inverse = Some (atom_id target) ∧
  ∀ provenance principal_key persona_key again,
    invert inverse provenance principal_key persona_key = Returned again → ops again = ops target.
Proof.
  unfold invert, sign, apply. intros Hi Hfits Ha. inv_returned; cbn. split_and!; [|done..|].
  - by apply apply_ops_undo.
  - intros. inv_returned; cbn. apply invert_ops_involutive.
Qed.

(** ** Crates that keep the laws, for examples *)

Definition sample_crates : FlowCrates := {|
  OffsetDateTime := unit;
  rfc3339_format _ := Some "2026-04-24T12:34:56Z"%string;
  rfc3339_parse s := if String.eqb s "2026-04-24T12:34:56Z" then Some tt else None;
  sha256_digest bs := take 32 (rev bs ++ repeat Byte.x00 32);
  SigningKey := byte;
  verifying_key k := repeat k 32;
  ed25519_sign k _ := repeat k 64;
  verifying_key_valid _ := true;
  ed25519_verify key _ sig := match key with k :: _ => bool_decide (sig = repeat k 64) | [] => false end
|}.

Lemma sample_laws : @FlowLaws sample_crates.
Proof.
  split.
  - by intros [] s [= <-].
  - intros bs. cbn [sha256_digest sample_crates]. rewrite length_take, length_app, repeat_length. unfold ATOM_ID_BYTES. lia.
  - intros k. apply repeat_length.
  - intros k m. apply repeat_length.
  - done.
  - intros k m. by apply bool_decide_eq_true_2.
Qed.

Definition sample_provenance : @Provenance sample_crates :=
  @mkProvenance sample_crates "user:alice" "ship-captain" "run-0001" (Some "tc-42"%string) "trace-abcd"
    "transcript:0001#turn-3" tt.

Definition sample_ops : list TextOp :=
  [TextOp.Insert 0 "Hello, "; TextOp.Insert 7 "world!"; TextOp.Delete 0 "Hell"].

Definition sample_atom : @Atom sample_crates :=
  match @sign sample_crates sample_ops [] sample_provenance None Byte.x01 Byte.x02 with
  | Returned a => a
  | Raised _ => @mkAtom sample_crates [] [] [] sample_provenance (mkAtomSignature [] [] [] []) None
  end.

Lemma inverse_restores_witness :
  ∃ inverse, @invert sample_crates sample_atom sample_provenance Byte.x01 Byte.x02 = Returned inverse ∧
    @apply sample_crates inverse (as_bytes "o, world!!") = (as_bytes "!", Returned tt).
Proof.
  eexists. split; [vm_compute; reflexivity|].
  refine (proj1 (@inverse_restores sample_crates sample_atom sample_provenance Byte.x01 Byte.x02 _
    (as_bytes "!") _ _ _ _)); [vm_compute; reflexivity|vm_compute; discriminate|vm_compute; reflexivity].
Defined.
