(* ===== verification/AtomCodec.v ===== *)
(** * The binary form of Flow atoms ([harn-flow/src/atom.rs])

    The cursor that reads atoms back, and what it accepts: exactly the
    canonical encoding, up to the spelling of the timestamp, of an atom whose
    name is the hash of its body. *)

From Stdlib Require Import Strings.String.
From S2P Require Import Prelude Program Ordered Fallible Atom.

(** ** The cursor *)

(** [Cursor] methods read from the bytes that remain. *)
Definition Take (A : Type) : Type := list byte → AtomResult (A * list byte).

#[export] Instance take_ret : MRet Take := λ A a bytes, Returned (a, bytes).
#[export] Instance take_bind : MBind Take := λ A B f r bytes,
  match r bytes with Returned (a, bytes) => f a bytes | Raised e => Raised e end.

(** [Cursor::take] *)
Definition take_exact (n : N) : Take (list byte) := λ bytes,
  if (len bytes <? n)%N then Raised AtomError.Binary
  else Returned (take (N.to_nat n) bytes, drop (N.to_nat n) bytes).

Definition take_error {A} : Take A := λ _, Raised AtomError.Binary.

(** [uN::from_le_bytes] *)
Definition from_le_bytes (bs : list byte) : N := from_be_bytes (rev bs).

Definition take_u8 : Take N := bs ← take_exact 1; mret (from_le_bytes bs).
Definition take_u32 : Take N := bs ← take_exact 4; mret (from_le_bytes bs).
Definition take_u64 : Take N := bs ← take_exact 8; mret (from_le_bytes bs).
Definition take_bytes : Take (list byte) := n ← take_u32; take_exact n.

Definition take_string : Take string :=
  bytes ← take_bytes;
  match from_utf8 bytes with Some s => mret s | None => take_error end.

(** [for _ in 0..count { .. push(..) }] *)
Section repeat.
Context {A : Type} (r : Take A).
Fixpoint take_many (count : nat) : Take (list A) :=
  match count with
  | O => mret []
  | S count => x ← r; xs ← take_many count; mret (x :: xs)
  end.
End repeat.

(** ** Decoding *)

Definition take_op : Take TextOp :=
  tag ← take_u8;
  offset ← take_u64;
  content ← take_string;
  if (tag =? 0)%N then mret (TextOp.Insert offset content)
  else if (tag =? 1)%N then mret (TextOp.Delete offset content)
  else take_error.

Definition take_ops : Take (list TextOp) := n ← take_u32; take_many take_op (N.to_nat n).
Definition take_id : Take AtomId := take_exact (N.of_nat ATOM_ID_BYTES).
Definition take_parents : Take (list AtomId) := n ← take_u32; take_many take_id (N.to_nat n).

(** A tag byte and, after a one, a value. *)
Definition take_optional {A} (r : Take A) : Take (option A) :=
  tag ← take_u8;
  if (tag =? 0)%N then mret None
  else if (tag =? 1)%N then x ← r; mret (Some x)
  else take_error.

Definition take_signature : Take AtomSignature :=
  principal_key ← take_exact (N.of_nat ED25519_PUBLIC_KEY_BYTES);
  principal_sig ← take_exact (N.of_nat ED25519_SIGNATURE_BYTES);
  persona_key ← take_exact (N.of_nat ED25519_PUBLIC_KEY_BYTES);
  persona_sig ← take_exact (N.of_nat ED25519_SIGNATURE_BYTES);
  mret (mkAtomSignature principal_key principal_sig persona_key persona_sig).

Section decode.
Context `{FlowCrates}.

Definition take_timestamp : Take OffsetDateTime :=
  s ← take_string;
  match rfc3339_parse s with Some t => mret t | None => take_error end.

Definition take_provenance : Take Provenance :=
  principal ← take_string;
  persona ← take_string;
  agent_run_id ← take_string;
  tool_call_id ← take_optional take_string;
  trace_id ← take_string;
  transcript_ref ← take_string;
  timestamp ← take_timestamp;
  mret (mkProvenance principal persona agent_run_id tool_call_id trace_id transcript_ref timestamp).

Definition take_header : Take unit :=
  magic ← take_exact (len ATOM_BINARY_MAGIC);
  if negb (bool_decide (magic = ATOM_BINARY_MAGIC)) then take_error
  else
    version ← take_u8;
    if negb (version =? ATOM_BINARY_VERSION)%N then take_error else mret tt.

Definition take_atom : Take Atom :=
  _ ← take_header;
  ops ← take_ops;
  parents ← take_parents;
  provenance ← take_provenance;
  inverse_of ← take_optional take_id;
  id ← take_id;
  signature ← take_signature;
  mret (mkAtom id ops parents provenance signature inverse_of).

(** [decode_atom_binary] *)
Definition decode_atom_binary (bytes : list byte) : AtomResult Atom :=
  '(a, rest) ← take_atom bytes;
  _ ← raise_if (negb (len rest =? 0)%N) AtomError.Binary;
  Returned a.

(** [Atom::from_binary_slice] *)
Definition from_binary_slice (bytes : list byte) : AtomResult Atom :=
  a ← decode_atom_binary bytes;
  _ ← verify_content_hash a;
  Returned a.
End decode.

(** ** What each reader reads

    [codes r w P]: the reader [r] accepts exactly the encodings [w x] of the
    values that satisfy [P]. *)

Definition codes {A} (r : Take A) (w : A → list byte) (P : A → Prop) : Prop :=
  ∀ bytes x rest, r bytes = Returned (x, rest) ↔ P x ∧ bytes = w x ++ rest.

Lemma codes_read {A} (r : Take A) w P x rest :
  codes r w P → P x → r (w x ++ rest) = Returned (x, rest).
Proof. intros Hr Hx. by apply Hr. Qed.

Lemma take_bind_returned {A B} (r : Take A) (f : A → Take B) bytes y rest :
  (r ≫= f) bytes = Returned (y, rest) ↔
  ∃ x mid, r bytes = Returned (x, mid) ∧ f x mid = Returned (y, rest).
Proof.
  unfold mbind, take_bind. destruct (r bytes) as [[x mid]|e]; [|naive_solver].
  split; [by exists x, mid|naive_solver].
Qed.

(** A reader run after another, through the projection that recovers what the
    first one read. *)
Lemma codes_bind {A B} (r : Take A) (f : A → Take B) (p : B → A) w wf P Q :
  codes r w P → (∀ x, P x → codes (f x) wf (λ y, Q y ∧ p y = x)) →
  codes (r ≫= f) (λ y, w (p y) ++ wf y) (λ y, P (p y) ∧ Q y).
Proof.
  intros Hr Hf bytes y rest. rewrite take_bind_returned. split.
  - intros (x & mid & Hx & Hy). apply Hr in Hx as [Hx ->].
    apply Hf in Hy as [[Hq <-] ->]; [|done]. by rewrite <- app_assoc.
  - intros [[Hp Hq] ->]. exists (p y), (wf y ++ rest). rewrite <- app_assoc. split.
    + by apply Hr.
    + by apply Hf.
Qed.

Lemma codes_ret {A} (x : A) : codes (mret x) (λ _, []) (λ y, y = x).
Proof. intros bytes y rest. unfold mret, take_ret. naive_solver. Qed.

Lemma codes_impl {A} (r : Take A) w w' P P' :
  (∀ x, P x ↔ P' x) → (∀ x, P x → w x = w' x) → codes r w P → codes r w' P'.
Proof.
  intros HP Hw Hr bytes x rest. rewrite (Hr bytes x rest), <- HP.
  split; intros [Hx ->]; (split; [done|]); by rewrite Hw.
Qed.

Lemma codes_error {A} (w : A → list byte) : codes take_error w (λ _, False).
Proof. intros bytes x rest. unfold take_error. naive_solver. Qed.

Lemma codes_take n : codes (take_exact n) (λ bs, bs) (λ bs, len bs = n).
Proof.
  intros bytes x rest. unfold take_exact. destruct (len bytes <? n)%N eqn:E; reflect_bools.
  - split; [done|]. intros [Hx ->]. rewrite len_app in E. lia.
  - split.
    + intros [= <- <-]. rewrite take_drop. unfold len in *. rewrite length_take. split; [lia|done].
    + intros [<- ->]. by rewrite take_len, drop_len.
Qed.

(** ** Words *)

Lemma to_le_bytes_length n w : length (to_le_bytes n w) = n.
Proof. unfold to_le_bytes. by rewrite length_rev, be_bytes_length. Qed.

Lemma codes_word n :
  codes (bs ← take_exact (N.of_nat n); mret (from_le_bytes bs)) (to_le_bytes n) (λ w, w < 256 ^ N.of_nat n)%N.
Proof.
  intros bytes w rest. rewrite take_bind_returned. unfold mret, take_ret. split.
  - intros (bs & mid & Hbs & Hw). injection Hw as <- <-. apply codes_take in Hbs as [Hn ->].
    unfold from_le_bytes, to_le_bytes. assert (length (rev bs) = n) as Hl.
    { rewrite length_rev. unfold len in Hn. lia. }
    split.
    + pose proof (from_be_bytes_lt (rev bs)) as Hlt. unfold len in Hlt. by rewrite Hl in Hlt.
    + rewrite <- Hl at 1. by rewrite be_bytes_from_be, rev_involutive.
  - intros [Hw ->]. exists (to_le_bytes n w), rest. split.
    + apply codes_take. split; [|done]. unfold len. by rewrite to_le_bytes_length.
    + unfold from_le_bytes, to_le_bytes. by rewrite rev_involutive, from_be_be_bytes, N.mod_small.
Qed.

Lemma codes_u8 : codes take_u8 (λ n, [n2b n]) (λ n, n < 256)%N.
Proof.
  eapply codes_impl, (codes_word 1); [done|]. intros n Hn. unfold to_le_bytes. cbn [be_bytes rev app].
  by rewrite N.div_1_r.
Qed.
Lemma codes_u32 : codes take_u32 write_u32 (λ n, n < 4294967296)%N.
Proof. apply (codes_word 4). Qed.
Lemma codes_u64 : codes take_u64 write_u64 (λ n, n < 18446744073709551616)%N.
Proof. apply (codes_word 8). Qed.

(** ** Lengths, strings, sequences *)

Lemma write_len_small n : (n <= U32_MAX)%N → write_len n = write_u32 n.
Proof. unfold U32_MAX. intros Hn. unfold write_len. by rewrite N.mod_small by lia. Qed.

Lemma codes_bytes : codes take_bytes write_bytes (λ bs, len bs <= U32_MAX)%N.
Proof.
  eapply codes_impl; [| |apply (codes_bind _ _ len _ (λ bs, bs) _ (λ _, True) codes_u32)].
  - intros bs. unfold U32_MAX. cbn. intuition lia.
  - intros bs [Hn _]. unfold write_bytes. rewrite write_len_small; [done|]. unfold U32_MAX. lia.
  - intros n _. eapply codes_impl, codes_take; [|done]. naive_solver.
Qed.

Definition str_ok (s : string) : Prop := str_wf s ∧ (slen s <= U32_MAX)%N.

Lemma codes_string : codes take_string write_str str_ok.
Proof.
  eapply codes_impl; [| |apply (codes_bind _ _ as_bytes _ (λ _, []) _ str_wf codes_bytes)].
  - intros s. unfold str_ok. cbn. rewrite len_as_bytes. naive_solver.
  - intros s _. apply app_nil_r.
  - intros bs _. destruct (from_utf8 bs) as [s|] eqn:E.
    + apply from_utf8_inv in E as [<- Hs]. eapply codes_impl, codes_ret; [|done].
      intros x. cbn. split; [by intros ->|]. intros [_ Hx].
      by rewrite <- (from_bytes_as_bytes x), Hx, from_bytes_as_bytes.
    + eapply codes_impl, codes_error; [|done]. intros s. split; [done|]. intros [Hs <-].
      by rewrite (from_utf8_as_bytes s Hs) in E.
Qed.

Lemma codes_many {A} (r : Take A) w P n :
  codes r w P → codes (take_many r n) (λ xs, concat (map w xs)) (λ xs, Forall P xs ∧ length xs = n).
Proof.
  intros Hr. induction n as [|n IH]; cbn [take_many].
  - eapply codes_impl, codes_ret; cbn.
    + intros [|x xs]; cbn; [naive_solver|]. split; [done|by intros [_ ?]].
    + by intros ? ->.
  - intros bytes ys rest. rewrite take_bind_returned. split.
    + intros (x & mid & Hx & Hxs). apply take_bind_returned in Hxs as (xs & mid' & Hxs & Hret).
      injection Hret as <- <-. apply Hr in Hx as [Hx ->]. apply IH in Hxs as [[HF <-] ->].
      cbn. rewrite <- app_assoc. split; [split; [by constructor|done]|done].
    + intros [[HF Hn] ->]. destruct ys as [|x xs]; [done|]. apply Forall_cons in HF as [Hx HF].
      cbn in *. rewrite <- app_assoc. exists x, (concat (map w xs) ++ rest). split; [by apply Hr|].
      apply take_bind_returned. exists xs, rest. split; [|done]. apply IH. by split; [split; [|lia]|].
Qed.

Lemma codes_counted {A} (r : Take A) w P :
  codes r w P →
  codes (n ← take_u32; take_many r (N.to_nat n)) (λ xs, write_len (len xs) ++ concat (map w xs))
    (λ xs, Forall P xs ∧ (len xs <= U32_MAX)%N).
Proof.
  intros Hr. eapply codes_impl; [| |apply (codes_bind _ _ len _ (λ xs, concat (map w xs)) _ (Forall P) codes_u32)].
  - intros xs. unfold U32_MAX. cbn. intuition lia.
  - intros xs [Hn _]. rewrite write_len_small; [done|]. unfold U32_MAX. lia.
  - intros n _. eapply codes_impl, (codes_many _ _ _ _ Hr); [|done]. intros xs. cbn. unfold len. intuition lia.
Qed.

Lemma codes_optional {A} (r : Take A) w P :
  codes r w P →
  codes (take_optional r) (λ o, match o with Some x => [n2b 1] ++ w x | None => [n2b 0] end)
    (λ o, match o with Some x => P x | None => True end).
Proof.
  intros Hr. pose (tag (o : option A) := if o then 1%N else 0%N).
  eapply codes_impl; [| |apply (codes_bind _ _ tag _ (λ o, match o with Some x => w x | None => [] end) _
    (λ o, match o with Some x => P x | None => True end) codes_u8)].
  - intros [x|]; cbn; intuition lia.
  - by intros [x|].
  - intros n _. destruct (n =? 0)%N eqn:E0; [|destruct (n =? 1)%N eqn:E1]; reflect_bools; subst.
    + eapply codes_impl, codes_ret; [intros [x|]; cbn; naive_solver|]. by intros ? ->.
    + intros bytes o rest. rewrite take_bind_returned. split.
      * intros (x & mid & Hx & Hret). injection Hret as <- <-. by apply Hr in Hx as [Hx ->].
      * intros [[Hx Ht] ->]. destruct o as [x|]; [|done]. exists x, rest. split; [|done]. by apply Hr.
    + eapply codes_impl, codes_error; [intros [x|]; cbn; naive_solver|done].
Qed.

(** ** Atoms *)

(** What fits the encoding: offsets and lengths within their words, strings in
    UTF-8, identifiers, keys and signatures of their lengths. *)
Definition op_ok (op : TextOp) : Prop :=
  match op with
  | TextOp.Insert offset content | TextOp.Delete offset content =>
      (offset <= U64_MAX)%N ∧ str_ok content
  end.
Definition id_ok (id : AtomId) : Prop := length id = ATOM_ID_BYTES.
Definition ops_ok (ops : list TextOp) : Prop := Forall op_ok ops ∧ (len ops <= U32_MAX)%N.
Definition parents_ok (ids : list AtomId) : Prop := Forall id_ok ids ∧ (len ids <= U32_MAX)%N.
Definition option_ok {A} (P : A → Prop) (o : option A) : Prop :=
  match o with Some x => P x | None => True end.
Definition signature_ok (s : AtomSignature) : Prop :=
  length (principal_key s) = ED25519_PUBLIC_KEY_BYTES ∧ length (principal_sig s) = ED25519_SIGNATURE_BYTES ∧
  length (persona_key s) = ED25519_PUBLIC_KEY_BYTES ∧ length (persona_sig s) = ED25519_SIGNATURE_BYTES.

Lemma codes_op : codes take_op write_op op_ok.
Proof.
  intros bytes op rest. unfold take_op. rewrite take_bind_returned. split.
  - intros (tag & mid & Htag & Hop). apply codes_u8 in Htag as [_ ->].
    apply take_bind_returned in Hop as (offset & mid' & Ho & Hop). apply codes_u64 in Ho as [Ho ->].
    apply take_bind_returned in Hop as (content & mid'' & Hc & Hop). apply codes_string in Hc as [Hc ->].
    destruct (tag =? 0)%N eqn:E0; [|destruct (tag =? 1)%N eqn:E1]; reflect_bools; subst; [..|done];
      injection Hop as <- <-; cbn [write_op op_ok]; rewrite <- !app_assoc;
      (split; [split; [unfold U64_MAX; lia|done]|done]).
  - intros [Hop ->].
    destruct op as [offset content|offset content]; destruct Hop as [Ho Hc]; cbn [write_op];
      rewrite <- !app_assoc.
    all: eexists _, _; split; [apply codes_u8; split; [|reflexivity]; lia|].
    all: apply take_bind_returned; eexists _, _; split;
      [apply codes_u64; split; [|reflexivity]; unfold U64_MAX in *; lia|].
    all: apply take_bind_returned; eexists _, _; split; [by apply codes_string|done].
Qed.

Lemma codes_ops : codes take_ops write_ops ops_ok.
Proof. apply (codes_counted _ _ _ codes_op). Qed.

Lemma codes_id : codes take_id (λ id, id) id_ok.
Proof. eapply codes_impl, codes_take; [|done]. intros id. unfold id_ok, len. lia. Qed.

Lemma codes_parents : codes take_parents write_parents parents_ok.
Proof.
  eapply codes_impl, (codes_counted _ _ _ codes_id); [done|].
  intros ids _. unfold write_parents. by rewrite map_id.
Qed.

(** Step a reader of a sequence of fields, in either direction. *)
Ltac field_inv H codes :=
  apply take_bind_returned in H as (? & ? & ?Hfield & H); apply codes in Hfield as [? ->].
Ltac field_read codes :=
  apply take_bind_returned; eexists _, _; split; [apply codes; split; [|reflexivity]; done|].

Lemma codes_signature : codes take_signature write_signature signature_ok.
Proof.
  intros bytes s rest. unfold take_signature, signature_ok, write_signature. split.
  - intros Hs. do 4 field_inv Hs codes_take. injection Hs as <- <-. cbn.
    rewrite <- !app_assoc. unfold len, ED25519_PUBLIC_KEY_BYTES, ED25519_SIGNATURE_BYTES in *. split; [lia|done].
  - destruct s as [pk ps ak as_]. cbn. intros [(Hpk & Hps & Hak & Has) ->]. rewrite <- !app_assoc.
    all: repeat (apply take_bind_returned; eexists _, _; split;
      [apply codes_take; split; [|reflexivity]; unfold len; congruence|]). done.
Qed.

Section atom.
Context `{FlowCrates}.

Definition provenance_ok (p : Provenance) : Prop :=
  str_ok (principal p) ∧ str_ok (persona p) ∧ str_ok (agent_run_id p) ∧ option_ok str_ok (tool_call_id p) ∧
  str_ok (trace_id p) ∧ str_ok (transcript_ref p).

Definition body_ok (ops : list TextOp) (parents : list AtomId) (p : Provenance)
    (inverse_of : option AtomId) : Prop :=
  ops_ok ops ∧ parents_ok parents ∧ provenance_ok p ∧ option_ok id_ok inverse_of.

Definition atom_ok (a : Atom) : Prop :=
  body_ok (ops a) (parents a) (provenance a) (inverse_of a) ∧ id_ok (atom_id a) ∧ signature_ok (signature a).

(** A spelling of a timestamp. *)
Definition spells (text : string) (t : OffsetDateTime) : Prop :=
  str_ok text ∧ rfc3339_parse text = Some t.

Lemma take_timestamp_spec bytes t rest :
  take_timestamp bytes = Returned (t, rest) ↔ ∃ text, spells text t ∧ bytes = write_str text ++ rest.
Proof.
  unfold take_timestamp. split.
  - intros Ht. field_inv Ht codes_string. unfold spells.
    destruct (rfc3339_parse x) eqn:E; [injection Ht as <- <-; eauto|done].
  - intros (text & [Hok Hp] & ->). field_read codes_string. by rewrite Hp.
Qed.

Lemma take_provenance_spec bytes p rest :
  take_provenance bytes = Returned (p, rest) ↔
  ∃ text, provenance_ok p ∧ spells text (timestamp p) ∧ bytes = provenance_bytes p text ++ rest.
Proof.
  unfold take_provenance, provenance_ok, provenance_bytes. split.
  - intros Hp. do 3 field_inv Hp codes_string. field_inv Hp (codes_optional _ _ _ codes_string).
    do 2 field_inv Hp codes_string. apply take_bind_returned in Hp as (t & ? & Ht & Hp).
    apply take_timestamp_spec in Ht as (text & Ht & ->). injection Hp as <- <-.
    exists text. cbn -[write_str]. rewrite <- !app_assoc. by split_and!.
  - intros (text & (H1 & H2 & H3 & H4 & H5 & H6) & Ht & ->). rewrite <- !app_assoc.
    do 3 field_read codes_string. field_read (codes_optional _ _ _ codes_string).
    do 2 field_read codes_string. apply take_bind_returned. eexists _, _. split.
    + apply take_timestamp_spec. by exists text.
    + by destruct p.
Qed.

(** The canonical body with the timestamp spelled [text]. *)
Definition body_bytes (text : string) (ops : list TextOp) (parents : list AtomId) (p : Provenance)
    (inverse_of : option AtomId) : list byte :=
  ATOM_BINARY_MAGIC ++ [n2b ATOM_BINARY_VERSION] ++ write_ops ops ++ write_parents parents ++
  provenance_bytes p text ++ write_optional_atom_id inverse_of.

Definition atom_bytes (text : string) (a : Atom) : list byte :=
  body_bytes text (ops a) (parents a) (provenance a) (inverse_of a) ++ atom_id a ++ write_signature (signature a).

Lemma take_header_spec bytes rest :
  take_header bytes = Returned (tt, rest) ↔ bytes = ATOM_BINARY_MAGIC ++ [n2b ATOM_BINARY_VERSION] ++ rest.
Proof.
  unfold take_header. split.
  - intros Hh. field_inv Hh codes_take. case_bool_decide as Hm; cbn [negb] in Hh; [subst|done].
    field_inv Hh codes_u8. destruct (_ =? _)%N eqn:E in Hh; [|done]. reflect_bools. subst. by injection Hh as ->.
  - intros ->. field_read codes_take. rewrite bool_decide_true by done. cbn [negb].
    by field_read codes_u8.
Qed.

Lemma take_atom_spec bytes a rest :
  take_atom bytes = Returned (a, rest) ↔
  ∃ text, atom_ok a ∧ spells text (timestamp (provenance a)) ∧ bytes = atom_bytes text a ++ rest.
Proof.
  unfold take_atom, atom_ok, body_ok, atom_bytes, body_bytes. split.
  - intros Ha. apply take_bind_returned in Ha as ([] & ? & Hh & Ha). apply take_header_spec in Hh as ->.
    field_inv Ha codes_ops. field_inv Ha codes_parents.
    apply take_bind_returned in Ha as (p & ? & Hp & Ha). apply take_provenance_spec in Hp as (text & ? & ? & ->).
    field_inv Ha (codes_optional _ _ _ codes_id). field_inv Ha codes_id. field_inv Ha codes_signature.
    injection Ha as <- <-. exists text. cbn [ops parents provenance inverse_of atom_id signature]. rewrite <- !app_assoc.
    by split_and!.
  - intros (text & ((Ho & Hps & Hp & Hi) & Hid & Hs) & Ht & ->). rewrite <- !app_assoc.
    apply take_bind_returned. eexists _, _. split; [by apply take_header_spec|].
    field_read codes_ops. field_read codes_parents.
    apply take_bind_returned. eexists _, _. split; [apply take_provenance_spec; by exists text|].
    field_read (codes_optional _ _ _ codes_id). field_read codes_id. field_read codes_signature.
    by destruct a.
Qed.

Lemma take_atom_reads text a :
  atom_ok a → spells text (timestamp (provenance a)) → take_atom (atom_bytes text a) = Returned (a, []).
Proof. intros. apply take_atom_spec. exists text. by rewrite app_nil_r. Qed.

(** ** Acceptance *)

Lemma encode_body_spec a bytes :
  encode_body a = Returned bytes ↔
  ∃ text, rfc3339_format (timestamp (provenance a)) = Some text ∧
    bytes = body_bytes text (ops a) (parents a) (provenance a) (inverse_of a).
Proof.
  unfold encode_body, encode_body_canonical, write_provenance, body_bytes.
  destruct (rfc3339_format _) as [text|] eqn:E; cbn [ok_or_raise mbind fallible_bind].
  - split; [intros [= <-]; by exists text|by intros (? & [= <-] & ->)].
  - split; [done|by intros (? & ? & _)].
Qed.

Lemma verify_content_hash_spec a :
  verify_content_hash a = Returned tt ↔
  ∃ bytes, encode_body a = Returned bytes ∧ atom_id a = sha256_digest bytes.
Proof.
  unfold verify_content_hash, raise_if. destruct (encode_body a) as [bytes|e]; cbn; [|naive_solver].
  case_bool_decide; cbn; naive_solver.
Qed.

Lemma from_binary_slice_spec bytes a :
  from_binary_slice bytes = Returned a ↔
  verify_content_hash a = Returned tt ∧
  ∃ text, atom_ok a ∧ spells text (timestamp (provenance a)) ∧ bytes = atom_bytes text a.
Proof.
  unfold from_binary_slice, decode_atom_binary. split.
  - intros Ha. apply fallible_bind_returned in Ha as (x & Hx & Ha).
    apply fallible_bind_returned in Ha as ([] & Hv & Ha). injection Ha as ->. split; [done|].
    apply fallible_bind_returned in Hx as ([y rest] & Hy & Hx). inv_returned.
    apply take_atom_spec in Hy as (text & ? & ? & ->). exists text. split_and!; [done..|].
    destruct rest; [apply app_nil_r|done].
  - intros (Hv & text & Ha & Ht & ->).
    rewrite take_atom_reads by done.
    change ((verify_content_hash a ≫= λ _, Returned a) = Returned a). by rewrite Hv.
Qed.

Context `{!FlowLaws}.

Lemma spells_format text t : rfc3339_format t = Some text → spells text t.
Proof. intros (? & ? & ?)%rfc3339_round_trip. by split. Qed.

Lemma to_binary_round_trip a :
  atom_ok a → verify_content_hash a = Returned tt →
  ∃ bytes, to_binary a = Returned bytes ∧ from_binary_slice bytes = Returned a.
Proof.
  intros Ha Hv. pose proof Hv as (body & Hb & _)%verify_content_hash_spec.
  pose proof Hb as (text & Ht & ->)%encode_body_spec.
  exists (atom_bytes text a). unfold to_binary. rewrite Hb. split; [done|].
  apply from_binary_slice_spec. split; [done|]. exists text. auto using spells_format.
Qed.

(** The body determines what it encodes. *)
Lemma body_bytes_inj text1 text2 a b :
  atom_ok a → atom_ok b →
  spells text1 (timestamp (provenance a)) → spells text2 (timestamp (provenance b)) →
  body_bytes text1 (ops a) (parents a) (provenance a) (inverse_of a) =
    body_bytes text2 (ops b) (parents b) (provenance b) (inverse_of b) →
  ops a = ops b ∧ parents a = parents b ∧ provenance a = provenance b ∧ inverse_of a = inverse_of b.
Proof.
  intros Ha [Hb _] Ht1 Ht2 Heq. pose proof (take_atom_reads _ _ Ha Ht1) as Ra.
  pose proof (take_atom_reads text2
    (mkAtom (atom_id a) (ops b) (parents b) (provenance b) (signature a) (inverse_of b))) as Rb.
  unfold atom_bytes in Ra, Rb. cbn [ops parents provenance inverse_of atom_id signature] in Rb.
  rewrite Heq, Rb in Ra; [by injection Ra as <-|split; [done|apply Ha]|done].
Qed.
End atom.

(** An atom made by [sign] from content that fits the encoding verifies,
    and its binary form reads back as the same atom. *)
Theorem signed_atoms_round_trip `{FlowLaws} ops parents provenance inverse_of principal_key persona_key a :
  sign ops parents provenance inverse_of principal_key persona_key = Returned a →
  body_ok ops parents provenance inverse_of →
  verify a = Returned tt ∧
  ∃ bytes, to_binary a = Returned bytes ∧ from_binary_slice bytes = Returned a.
Proof.
  unfold sign. intros (body & Hb & Ha)%fallible_bind_returned Hok. injection Ha as <-.
  match goal with |- verify ?a = _ ∧ _ => assert (verify_content_hash a = Returned tt) as Hv end.
  { apply verify_content_hash_spec. by exists body. }
  split.
  - unfold verify, verify_signatures. rewrite Hv. cbn.
    by rewrite !verifying_key_is_valid, !signatures_verify.
  - apply to_binary_round_trip; [|done]. split; [done|]. split; [apply sha256_length|].
    unfold signature_ok. cbn. by rewrite !verifying_key_length, !signature_length.
Qed.

Lemma sample_body_ok : @body_ok sample_crates sample_ops [] sample_provenance None.
Proof.
  assert (∀ s, utf8_valid (as_bytes s) = true → (slen s <=? U32_MAX)%N = true → str_ok s) as Hs.
  { intros s Hwf Hn. split; [done|by apply N.leb_le]. }
  assert (∀ n s, (n <=? U64_MAX)%N = true → str_ok s → (n <= U64_MAX)%N ∧ str_ok s) as Ho.
  { intros n s Hn Hok. split; [by apply N.leb_le|done]. }
  split; [split|split; [split|split]].
  - apply Forall_cons. split; [|apply Forall_cons; split; [|apply Forall_singleton]];
      (apply Ho; [reflexivity|apply Hs; reflexivity]).
  - by apply N.leb_le.
  - constructor.
  - by apply N.leb_le.
  - split_and!; apply Hs; reflexivity.
  - exact I.
Qed.

Lemma signed_atoms_round_trip_witness :
  ∃ bytes, @to_binary sample_crates sample_atom = Returned bytes ∧
    @from_binary_slice sample_crates bytes = Returned sample_atom.
Proof.
  refine (proj2 (@signed_atoms_round_trip sample_crates sample_laws sample_ops [] sample_provenance None
    Byte.x01 Byte.x02 sample_atom _ _)); [vm_compute; reflexivity|].
  exact sample_body_ok.
Defined.

(** C37: Binary atoms are addressed by their content. What [from_binary_slice]
    accepts is the canonical encoding of the atom it returns, whose name is the
    hash of its canonical body; only the spelling of the timestamp in the
    accepted bytes is free. Two accepted atoms of the same name have the same
    edits, parents, provenance and undo link, unless two different bodies with
    the same SHA-256 digest are exhibited. *)
Theorem binary_atoms_content_addressed `{FlowLaws} bytes1 bytes2 a1 a2 :
  from_binary_slice bytes1 = Returned a1 → from_binary_slice bytes2 = Returned a2 →
  (∃ text, spells text (timestamp (provenance a1)) ∧ bytes1 = atom_bytes text a1) ∧
  (∃ body, encode_body a1 = Returned body ∧ atom_id a1 = sha256_digest body) ∧
  (atom_id a1 = atom_id a2 →
   (ops a1 = ops a2 ∧ parents a1 = parents a2 ∧ provenance a1 = provenance a2 ∧ inverse_of a1 = inverse_of a2) ∨
   ∃ body1 body2, encode_body a1 = Returned body1 ∧ encode_body a2 = Returned body2 ∧ body1 ≠ body2 ∧
     sha256_digest body1 = sha256_digest body2).
Proof.
  intros (Hv1 & text1 & Ha1 & Hs1 & ->)%from_binary_slice_spec (Hv2 & text2 & Ha2 & Hs2 & ->)%from_binary_slice_spec.
  apply verify_content_hash_spec in Hv1 as (body1 & Hb1 & Hi1), Hv2 as (body2 & Hb2 & Hi2).
  split_and!; [by exists text1|by exists body1|]. intros Heq.
  destruct (decide (body1 = body2)) as [->|Hne]; [left|right; exists body1, body2; rewrite <- Hi1, <- Hi2; auto].
  apply encode_body_spec in Hb1 as (f1 & Hf1 & Hb1), Hb2 as (f2 & Hf2 & Hb2).
  apply (body_bytes_inj f1 f2); auto using spells_format. congruence.
Qed.

Lemma binary_atoms_content_addressed_witness :
  match @to_binary sample_crates sample_atom with
  | Returned bytes => ∃ text, bytes = @atom_bytes sample_crates text sample_atom
  | Raised _ => False
  end.
Proof.
  assert (match @to_binary sample_crates sample_atom with
    | Returned bytes => @from_binary_slice sample_crates bytes = Returned sample_atom
    | Raised _ => False
    end) as Ed by (vm_compute; reflexivity).
  destruct (@to_binary sample_crates sample_atom) as [bytes|]; [|exact Ed].
  destruct (proj1 (@binary_atoms_content_addressed sample_crates sample_laws bytes bytes _ _ Ed Ed)) as (text & _ & Ht).
  by exists text.
Defined.
