(* ===== verification/Predicates.v ===== *)
(** * Flow predicate verdicts and their composition ([harn-flow/src/predicates])

    [result.rs]: graded verdicts with their evidence. [compose.rs]: which
    declarations apply to a touched directory, the ceiling on their number, and
    how the verdicts of a directory and of its ancestors are combined. *)

From Stdlib Require Import Strings.String Strings.Ascii.
From S2P Require Import Prelude Split Ordered Atom.

(** ** Results ([result.rs]) *)

Record InvariantBlockError := mkBlockError { block_code : string; block_message : string }.

Module Approver.
Inductive Approver :=
  | Principal (id : string)
  | Role (name : string).
End Approver.

Module Verdict.
Inductive Verdict :=
  | Allow
  | Warn (reason : string)
  | Block (error : InvariantBlockError)
  | RequireApproval (approver : Approver.Approver).
End Verdict.

Record ByteSpan := mkByteSpan { span_start : N; span_end : N }.

Module EvidenceItem.
Inductive EvidenceItem :=
  | AtomPointer (atom : AtomId) (diff_span : ByteSpan)
  | MetadataPath (directory namespace key : string)
  | TranscriptExcerpt (transcript_id : string) (span : ByteSpan)
  | ExternalCitation (url quote fetched_at : string).
End EvidenceItem.

(** [f64::clamp(0.0, 1.0)] and other confidences stay 64-bit patterns. *)
Definition F64_ONE : N := 4607182418800017408.

Section results.
Context `{FlowCrates}.

Record Remediation := mkRemediation { description : string; suggested_atoms : option (list Atom) }.

Record InvariantResult := mkInvariantResult {
  verdict : Verdict.Verdict;
  evidence : list EvidenceItem.EvidenceItem;
  remediation : option Remediation;
  confidence : N
}.

(** [InvariantResult::allow], [warn], [block], [require_approval] *)
Definition result_of (v : Verdict.Verdict) : InvariantResult := mkInvariantResult v [] None F64_ONE.
Definition allow : InvariantResult := result_of Verdict.Allow.
Definition warn (reason : string) : InvariantResult := result_of (Verdict.Warn reason).
Definition block (error : InvariantBlockError) : InvariantResult := result_of (Verdict.Block error).
Definition require_approval (approver : Approver.Approver) : InvariantResult :=
  result_of (Verdict.RequireApproval approver).

(** [InvariantResult::is_blocking] *)
Definition is_blocking (r : InvariantResult) : bool :=
  match verdict r with Verdict.Block _ => true | _ => false end.
End results.

(** ** Directories ([compose.rs]) *)

Definition SLASH : ascii := "/".
Definition split_slash : string → list string := split_on SLASH.

(** [parts.join("/")] *)
Fixpoint join_slash (parts : list string) : string :=
  match parts with
  | [] => EmptyString
  | [part] => part
  | part :: parts => (part ++ String SLASH (join_slash parts))%string
  end.

(** The components [normalize_relative_dir] keeps. *)
Definition plain_component (part : string) : bool :=
  negb (String.eqb part "") && negb (String.eqb part ".") && negb (String.eqb part "..").

Definition components (value : string) : list string :=
  filter (λ part, plain_component part = true) (split_slash value).

Definition normalize_relative_dir (value : string) : string :=
  match components value with
  | [] => "."%string
  | parts => join_slash parts
  end.

Definition directory_depth (relative_dir : string) : nat :=
  if String.eqb relative_dir "." then 0
  else length (filter (λ part, part ≠ ""%string) (split_slash relative_dir)).

Definition is_ancestor_dir (ancestor descendant : string) : bool :=
  let ancestor := normalize_relative_dir ancestor in
  let descendant := normalize_relative_dir descendant in
  if String.eqb ancestor "." || String.eqb ancestor descendant then true
  else match strip_prefix ancestor descendant with
       | Some (String c _) => bool_decide (c = SLASH)
       | _ => false
       end.

(** [qualified_name] *)
Definition qualified_name_of (relative_dir name : string) : string :=
  let relative_dir := normalize_relative_dir relative_dir in
  if String.eqb relative_dir "." then name else (relative_dir ++ "::" ++ name)%string.

Record PredicateSource := mkPredicateSource { relative_dir : string; depth : nat }.

(** [PredicateSource::new] *)
Definition source_new (relative_dir : string) : PredicateSource :=
  let relative_dir := normalize_relative_dir relative_dir in
  mkPredicateSource relative_dir (directory_depth relative_dir).

(** [is_ancestor_of_or_same] *)
Definition is_ancestor_of_or_same (s other : PredicateSource) : bool :=
  is_ancestor_dir (relative_dir s) (relative_dir other).

(** ** Composition *)

(** [VerdictStrictness], ordered as declared: its position. *)
Module VerdictStrictness.
Inductive VerdictStrictness := Allow | Warn | RequireApproval | Block.

Definition rank (s : VerdictStrictness) : N :=
  match s with Allow => 0 | Warn => 1 | RequireApproval => 2 | Block => 3 end.
End VerdictStrictness.

Definition verdict_strictness (v : Verdict.Verdict) : VerdictStrictness.VerdictStrictness :=
  match v with
  | Verdict.Allow => VerdictStrictness.Allow
  | Verdict.Warn _ => VerdictStrictness.Warn
  | Verdict.RequireApproval _ => VerdictStrictness.RequireApproval
  | Verdict.Block _ => VerdictStrictness.Block
  end.

Section compose.
Context `{FlowCrates}.

Record PredicateEvaluation := mkEvaluation {
  qualified_name : string;
  logical_name : string;
  source : PredicateSource;
  result_ : InvariantResult
}.

Record ComposedPredicateEvaluation := mkComposed {
  composed_qualified_name : string;
  composed_logical_name : string;
  composed_source : PredicateSource;
  selected_qualified_name : string;
  selected_source : PredicateSource;
  composed_result : InvariantResult
}.

Definition strictness (r : InvariantResult) : N :=
  VerdictStrictness.rank (verdict_strictness (verdict r)).

Definition compare_evaluations (left_ right_ : PredicateEvaluation) : comparison :=
  then_with (compare (strictness (result_ left_)) (strictness (result_ right_)))
    (then_with (Nat.compare (depth (source right_)) (depth (source left_)))
      (compare (qualified_name right_) (qualified_name left_))).

(** The candidates that may govern an evaluation. *)
Definition governs (evaluation candidate : PredicateEvaluation) : bool :=
  String.eqb (logical_name candidate) (logical_name evaluation) &&
  is_ancestor_of_or_same (source candidate) (source evaluation).

Definition compose_one (evaluations : list PredicateEvaluation) (evaluation : PredicateEvaluation)
    : ComposedPredicateEvaluation :=
  let selected := default evaluation
    (max_by compare_evaluations (filter (λ c, governs evaluation c = true) evaluations)) in
  mkComposed (qualified_name evaluation) (logical_name evaluation) (source evaluation)
    (qualified_name selected) (source selected) (result_ selected).

Definition compose_predicate_results (evaluations : list PredicateEvaluation)
    : list ComposedPredicateEvaluation :=
  map (compose_one evaluations) evaluations.
End compose.

(** ** Directories as component lists *)

Definition no_slash : string → Prop := lacks SLASH.

(** A directory component: not empty and without a separator. *)
Definition component (s : string) : Prop := s ≠ ""%string ∧ s ≠ "."%string ∧ no_slash s.

Lemma components_ok value : Forall component (components value).
Proof.
  unfold components, component. apply Forall_forall. intros s [Hs Hin]%list_elem_of_filter.
  pose proof (split_on_lacks SLASH value) as Hn. rewrite Forall_forall in Hn.
  unfold plain_component in Hs. rewrite !andb_true_iff, !negb_true_iff, !String.eqb_neq in Hs.
  split_and!; [apply Hs..|by apply Hn].
Qed.

Lemma join_slash_cons part parts :
  join_slash (part :: parts) = (part ++ match parts with [] => "" | _ => String SLASH (join_slash parts) end)%string.
Proof. destruct parts; [exact (eq_sym (append_nil part))|done]. Qed.

Lemma join_slash_nonempty part parts : part ≠ ""%string → join_slash (part :: parts) ≠ ""%string.
Proof. rewrite join_slash_cons. by destruct part. Qed.

(** Two texts that continue with a separator or end after a component. *)
Lemma component_split p q r s :
  no_slash p → no_slash q → (r = ""%string ∨ ∃ r', r = String SLASH r') → (s = ""%string ∨ ∃ s', s = String SLASH s') →
  (p ++ r = q ++ s)%string → p = q ∧ r = s.
Proof.
  unfold no_slash, lacks. revert q. induction p as [|c p IH]; intros [|d q] Hp Hq Hr Hs Heq; cbn in *.
  - done.
  - destruct Hr as [->|[r' ->]]; [done|]. injection Heq as <- _. by destruct Hq; left.
  - destruct Hs as [->|[s' ->]]; [done|]. injection Heq as -> _. by destruct Hp; left.
  - injection Heq as -> Heq. rewrite elem_of_cons in Hp, Hq.
    destruct (IH q) as [-> ->]; try naive_solver. 
Qed.

Definition tail_text (parts : list string) : string :=
  match parts with [] => "" | _ => String SLASH (join_slash parts) end.

Lemma tail_text_shape parts : tail_text parts = ""%string ∨ ∃ r, tail_text parts = String SLASH r.
Proof. destruct parts; [by left|right; by eexists]. Qed.

(** The text of a list of components begins with the text of another, up to a
    separator, exactly when the list begins with the other list. *)
Lemma join_slash_prefix l k rest :
  l ≠ [] → Forall component l → Forall component k →
  join_slash k = (join_slash l ++ rest)%string → (rest = ""%string ∨ ∃ r, rest = String SLASH r) →
  ∃ m, k = l ++ m ∧ rest = tail_text m.
Proof.
  intros Hl Hcl. revert k. induction Hcl as [|p l Hp Hcl IH]; intros k Hck Heq Hrest; [done|].
  destruct k as [|q k].
  { destruct (join_slash_nonempty p l); [by destruct Hp|]. rewrite join_slash_cons in *.
    destruct p; [|done]. by destruct Hp. }
  apply Forall_cons in Hck as [Hq Hck]. rewrite !join_slash_cons in Heq. fold (tail_text l) (tail_text k) in Heq.
  rewrite <- append_assoc in Heq.
  assert ((tail_text l ++ rest)%string = ""%string ∨ ∃ r, (tail_text l ++ rest)%string = String SLASH r) as Hshape.
  { destruct l; [done|]. right. by eexists. }
  apply component_split in Heq as [-> Heq]; [|apply Hq|apply Hp|apply tail_text_shape|done].
  destruct l as [|p' l].
  { exists k. by rewrite Heq. }
  destruct k as [|q' k]; [done|]. injection Heq as Heq.
  destruct (IH ltac:(done) (q' :: k) Hck Heq Hrest) as (m & -> & ->). by exists m.
Qed.

Lemma join_slash_app l m : l ≠ [] → join_slash (l ++ m) = (join_slash l ++ tail_text m)%string.
Proof.
  intros Hl. induction l as [|p l IH]; [done|]. destruct l as [|q l].
  - cbn [app]. rewrite !join_slash_cons. fold (tail_text m). cbn [tail_text]. by rewrite append_nil.
  - cbn [app] in *. rewrite !(join_slash_cons p). rewrite IH by done. by rewrite <- append_assoc.
Qed.

Lemma normalized_root value : normalize_relative_dir value = "."%string ↔ components value = [].
Proof.
  unfold normalize_relative_dir. pose proof (components_ok value) as Hok.
  destruct (components value) as [|p l]; [done|]. split; [|done].
  apply Forall_cons in Hok as [(Hp & Hdot & Hns) _]. rewrite join_slash_cons. fold (tail_text l).
  intros Heq. change "."%string with ("." ++ "")%string in Heq.
  apply component_split in Heq as [-> _]; [done|done|by apply not_elem_of_cons; split; [|apply not_elem_of_nil]
    |apply tail_text_shape|by left].
Qed.

Lemma prefix_of_nil_inv {A} (l : list A) : l `prefix_of` [] → l = [].
Proof. intros [k Hk]. by destruct l. Qed.

(** A directory is an ancestor exactly when its components begin the other's. *)
Lemma is_ancestor_dir_prefix a d :
  is_ancestor_dir a d = true ↔ components a `prefix_of` components d.
Proof.
  unfold is_ancestor_dir. destruct (String.eqb_spec (normalize_relative_dir a) ".") as [Ha|Ha]; cbn [orb].
  { apply normalized_root in Ha as ->. split; [intros _; apply prefix_nil|done]. }
  assert (components a ≠ []) as Hna by (by rewrite <- normalized_root).
  assert (normalize_relative_dir a = join_slash (components a)) as Hja.
  { unfold normalize_relative_dir. by destruct (components a). }
  destruct (decide (components d = [])) as [Hd|Hnd].
  { rewrite (proj2 (normalized_root d) Hd), Hd. destruct (String.eqb_spec (normalize_relative_dir a) "."); [done|].
    split; [|by intros ?%prefix_of_nil_inv]. destruct (strip_prefix _ _) as [[|c r]|] eqn:E; try done.
    apply strip_prefix_spec in E. intros _.
    assert (normalize_relative_dir a ≠ ""%string) as Hne.
    { rewrite Hja. pose proof (components_ok a) as Hok. destruct (components a); [done|].
      apply Forall_cons in Hok as [[Hp _] _]. by apply join_slash_nonempty. }
    destruct (normalize_relative_dir a) as [|x [|y t]]; cbn in E; done. }
  assert (normalize_relative_dir d = join_slash (components d)) as Hjd.
  { unfold normalize_relative_dir. by destruct (components d). }
  rewrite Hja, Hjd. pose proof (components_ok a) as Hoa. pose proof (components_ok d) as Hod.
  assert (∀ l, join_slash (components d) = (join_slash (components a) ++ tail_text l)%string →
    components a `prefix_of` components d) as Hprefix.
  { intros l Heq. apply join_slash_prefix in Heq as (m & -> & _); try done; [by apply prefix_app_r|apply tail_text_shape]. }
  destruct (String.eqb_spec (join_slash (components a)) (join_slash (components d))) as [Heq|Hne].
  - split; [intros _|done]. apply (Hprefix []). by rewrite <- Heq, append_nil.
  - split.
    + destruct (strip_prefix _ _) as [[|c r]|] eqn:E; try done. rewrite bool_decide_eq_true. intros ->.
      apply strip_prefix_spec in E. apply join_slash_prefix in E as (m & -> & _); eauto. by apply prefix_app_r.
    + intros [m Hm]. rewrite Hm, join_slash_app in Hne |- * by done.
      rewrite (proj2 (strip_prefix_spec _ _ (tail_text m)) eq_refl).
      destruct m as [|x m]; [|cbn [tail_text]; by apply bool_decide_eq_true].
      destruct Hne. by rewrite append_nil.
Qed.

(** ** What governs *)

Section governing.
Context `{FlowCrates}.
Implicit Types (e c : PredicateEvaluation) (es : list PredicateEvaluation).

(** The order of [compare_evaluations], as one key. *)
Definition evaluation_key e : N * (Reverse nat * Reverse string) :=
  (strictness (result_ e), (reverse (depth (source e)), reverse (qualified_name e))).

Lemma compare_evaluations_key : compare_evaluations = λ l r, compare (evaluation_key l) (evaluation_key r).
Proof. reflexivity. Qed.

Lemma governs_spec e c :
  governs e c = true ↔
  logical_name c = logical_name e ∧
  components (relative_dir (source c)) `prefix_of` components (relative_dir (source e)).
Proof.
  unfold governs, is_ancestor_of_or_same. by rewrite andb_true_iff, String.eqb_eq, is_ancestor_dir_prefix.
Qed.

Lemma governs_refl e : governs e e = true.
Proof. by apply governs_spec. Qed.

Lemma governs_trans e1 e2 e3 : governs e2 e1 = true → governs e3 e2 = true → governs e3 e1 = true.
Proof. rewrite !governs_spec. intros [-> ?] [-> ?]. split; [done|by etrans]. Qed.

(** The evaluation selected for [e]: a governing one, the greatest of them. *)
Lemma compose_one_selected es e :
  e ∈ es →
  ∃ c, c ∈ es ∧ governs e c = true ∧
    compose_one es e = mkComposed (qualified_name e) (logical_name e) (source e)
      (qualified_name c) (source c) (result_ c) ∧
    ∀ x, x ∈ es → governs e x = true → ord_le (evaluation_key x) (evaluation_key c).
Proof.
  intros He. unfold compose_one. rewrite compare_evaluations_key.
  destruct (max_by _ _) as [c|] eqn:E.
  - apply max_by_greatest in E as [[Hg Hc]%list_elem_of_filter Hmax]. exists c. split_and!; [done..|].
    intros x Hx Hgx. apply Hmax, list_elem_of_filter. done.
  - destruct (filter _ es) eqn:Ef; [|done].
    assert (e ∈ filter (λ c, governs e c = true) es) as Hin
      by (apply list_elem_of_filter; split; [apply governs_refl|done]).
    rewrite Ef in Hin. by apply not_elem_of_nil in Hin.
Qed.

Lemma ord_le_key x c :
  ord_le (evaluation_key x) (evaluation_key c) →
  (strictness (result_ x) <= strictness (result_ c))%N ∧
  (strictness (result_ x) = strictness (result_ c) → depth (source c) ≤ depth (source x)).
Proof.
  unfold ord_le, evaluation_key. cbn -[strictness]. unfold then_with.
  destruct (N.compare_spec (strictness (result_ x)) (strictness (result_ c))) as [Heq|Hlt|Hgt];
    [|intros _; lia|done].
  destruct (Nat.compare_spec (depth (source c)) (depth (source x))); [lia|lia|done].
Qed.
End governing.

(** C35: Composing verdicts only tightens. The verdict in force for an evaluation
    is that of a same-named predicate of its directory or an ancestor, the
    strictest of them and the shallowest among equally strict, hence at least as
    strict as its own and as that of every ancestor: a directory below another
    is never held to a laxer verdict, and a block anywhere above blocks. *)
Theorem composition_never_relaxes `{FlowCrates} es e :
  e ∈ es →
  ∃ c, c ∈ es ∧ governs e c = true ∧ composed_result (compose_one es e) = result_ c ∧
    selected_qualified_name (compose_one es e) = qualified_name c ∧
    (∀ x, x ∈ es → governs e x = true →
      (strictness (result_ x) <= strictness (result_ c))%N ∧
      (strictness (result_ x) = strictness (result_ c) → depth (source c) ≤ depth (source x)) ∧
      (is_blocking (result_ x) = true → is_blocking (composed_result (compose_one es e)) = true)) ∧
    (∀ x, x ∈ es → governs x e = true →
      (strictness (composed_result (compose_one es e)) <= strictness (composed_result (compose_one es x)))%N).
Proof.
  intros He. destruct (compose_one_selected es e He) as (c & Hc & Hg & -> & Hmax).
  exists c. split_and!; [done..| |].
  - intros x Hx Hgx. destruct (ord_le_key x c (Hmax x Hx Hgx)) as [Hs Hd]. split_and!; [done..|].
    unfold is_blocking, strictness in *. cbn. destruct (verdict (result_ x)), (verdict (result_ c)); cbn in *; try done; lia.
  - intros x Hx Hgx. destruct (compose_one_selected es x Hx) as (c' & _ & _ & -> & Hmax'). cbn.
    apply ord_le_key, Hmax'; [done|]. by eapply governs_trans.
Qed.

Definition sample_evaluations : list (@PredicateEvaluation sample_crates) :=
  let made dir name r := @mkEvaluation sample_crates (qualified_name_of dir name) name (source_new dir) r in
  [made "." "no_pii" (@block sample_crates (mkBlockError "pii" "found")); made "services/api" "no_pii" (@allow sample_crates)]%string.

Lemma composition_never_relaxes_witness :
  ∃ c, c ∈ sample_evaluations ∧
    composed_result (compose_one sample_evaluations
      (@mkEvaluation sample_crates "services/api::no_pii" "no_pii" (source_new "services/api") (@allow sample_crates))) =
      result_ c.
Proof.
  destruct (@composition_never_relaxes sample_crates sample_evaluations
    (@mkEvaluation sample_crates "services/api::no_pii" "no_pii" (source_new "services/api") (@allow sample_crates)))
    as (c & Hc & _ & Hr & _).
  - right. left.
  - by exists c.
Defined.
