(* ===== verification/Slice.v ===== *)
(** * Flow slices ([harn-flow/src/slice.rs])

    A slice is what ships together: the atoms of the chosen intents with all
    their ancestors, the tests that cover them, and the atoms those tests cover
    in turn, in an order that puts parents first. *)

From Stdlib Require Import Strings.String.
From S2P Require Import Prelude Ordered Atom Predicates.

(** ** Data *)

Definition IntentId : Type := list byte.
Definition SliceId : Type := list byte.
Definition TestId : Type := string.
Definition PredicateHash : Type := string.

Record Approval := mkApproval {
  reviewer : string;
  approved_at : string;
  reason : option string;
  approval_signature : option string
}.

(** [UnresolvedParent { atom, missing_parent }], ordered by its fields. *)
Definition UnresolvedParent : Type := AtomId * AtomId.

(** [CoverageMap] *)
Record CoverageMap := mkCoverage {
  tests_by_atom : omap AtomId (oset TestId);
  atoms_by_test : omap TestId (oset AtomId)
}.

Module SliceStatus.
Inductive SliceStatus :=
  | Ready
  | Empty
  | Blocked (unresolved_parents : list UnresolvedParent).
End SliceStatus.

Module SliceDerivationError.
Inductive SliceDerivationError :=
  | MissingIntent (id : IntentId)
  | MissingAtom (id : AtomId)
  | CyclicAtomParents
  | InvalidSliceId
  | Serialize.
End SliceDerivationError.
Abbreviation SliceDerivationError := SliceDerivationError.SliceDerivationError.

(** [Result<A, SliceDerivationError>]. [Panicked]: an [expect] failed or a
    subtraction underflowed. [Exhausted]: a loop ran out of its budget. *)
Inductive Derivation (A : Type) :=
  | Derived (a : A)
  | Refused (e : SliceDerivationError)
  | Panicked
  | Exhausted.
Arguments Derived {A}.
Arguments Refused {A}.
Arguments Panicked {A}.
Arguments Exhausted {A}.

#[export] Instance derivation_ret : MRet Derivation := λ A a, Derived a.
#[export] Instance derivation_bind : MBind Derivation := λ A B f m,
  match m with
  | Derived a => f a
  | Refused e => Refused e
  | Panicked => Panicked
  | Exhausted => Exhausted
  end.

Definition refuse_if (b : bool) (e : SliceDerivationError) : Derivation unit :=
  if b then Refused e else Derived tt.
Definition ok_or_refuse {A} (o : option A) (e : SliceDerivationError) : Derivation A :=
  match o with Some a => Derived a | None => Refused e end.

(** ** Coverage *)

(** [CoverageMap::insert] *)
Definition coverage_insert (atom : AtomId) (test : TestId) (c : CoverageMap) : CoverageMap :=
  mkCoverage (map_update [] (set_insert test) atom (tests_by_atom c))
    (map_update [] (set_insert atom) test (atoms_by_test c)).

(** [CoverageMap::tests_for_atoms], [atoms_for_tests] *)
Definition tests_for_atoms (c : CoverageMap) (atoms : oset AtomId) : oset TestId :=
  to_set (concat (map (λ atom, default [] (map_get atom (tests_by_atom c))) atoms)).
Definition atoms_for_tests (c : CoverageMap) (tests : oset TestId) : oset AtomId :=
  to_set (concat (map (λ test, default [] (map_get test (atoms_by_test c))) tests)).

Section derive.
Context `{FlowCrates}.

(** [Slice], and the body that is serialised for its name *)
Record SliceBody := mkSliceBody {
  body_atoms : list AtomId;
  body_intents : list IntentId;
  body_invariants_applied : list (PredicateHash * InvariantResult);
  body_required_tests : list TestId;
  body_approval_chain : list Approval;
  body_base_ref : AtomId;
  body_status : SliceStatus.SliceStatus
}.

Record Slice := mkSlice { slice_id : SliceId; slice_body : SliceBody }.

(** [SliceDerivationInput] *)
Record SliceDerivationInput := mkInput {
  atoms : omap AtomId Atom;
  intents : omap IntentId (list AtomId);
  candidate_intents : list IntentId;
  coverage : CoverageMap;
  invariants_applied : list (PredicateHash * InvariantResult);
  approval_chain : list Approval;
  base_ref : AtomId
}.

(** [serde_json::to_vec] of the body; [None] is its error. *)
Context (to_vec : SliceBody → option (list byte)).

(** ** The closure under parents *)

(** The sets [resolve_atom] is passed by reference. *)
Record Resolution := mkResolution {
  included : oset AtomId;
  visiting : oset AtomId;
  rejected : oset AtomId;
  unresolved : oset UnresolvedParent;
  cycle_detected : bool
}.

Definition include_atom (id : AtomId) (st : Resolution) : Resolution :=
  mkResolution (set_insert id (included st)) (visiting st) (rejected st) (unresolved st) (cycle_detected st).
Definition reject_atom (id : AtomId) (st : Resolution) : Resolution :=
  mkResolution (included st) (visiting st) (set_insert id (rejected st)) (unresolved st) (cycle_detected st).
Definition start_visit (id : AtomId) (st : Resolution) : Resolution :=
  mkResolution (included st) (set_insert id (visiting st)) (rejected st) (unresolved st) (cycle_detected st).
Definition end_visit (id : AtomId) (st : Resolution) : Resolution :=
  mkResolution (included st) (set_remove id (visiting st)) (rejected st) (unresolved st) (cycle_detected st).
Definition record_missing (u : UnresolvedParent) (st : Resolution) : Resolution :=
  mkResolution (included st) (visiting st) (rejected st) (set_insert u (unresolved st)) (cycle_detected st).
Definition detect_cycle (st : Resolution) : Resolution :=
  mkResolution (included st) (visiting st) (rejected st) (unresolved st) true.

Section resolve.
Context (atoms : omap AtomId Atom).

(** The loop over [atom.parents], given the recursive call. *)
Section parents.
Variable resolve : AtomId → Resolution → option (bool * Resolution).
Fixpoint resolve_parents (id : AtomId) (parents : list AtomId) (parents_resolved : bool) (st : Resolution)
    : option (bool * Resolution) :=
  match parents with
  | [] => Some (parents_resolved, st)
  | parent :: parents =>
      if negb (map_contains parent atoms) then
        resolve_parents id parents false (record_missing (id, parent) st)
      else
        '(resolved, st) ← resolve parent st;
        resolve_parents id parents (if resolved : bool then parents_resolved else false) st
  end.
End parents.

(** [resolve_atom]; [fuel] bounds the depth of the recursion. *)
Fixpoint resolve_atom (fuel : nat) (id : AtomId) (st : Resolution) : option (bool * Resolution) :=
  match fuel with
  | O => None
  | S fuel =>
      if contains id (included st) then Some (true, st)
      else if contains id (rejected st) then Some (false, st)
      else if contains id (visiting st) then Some (false, detect_cycle st)
      else
        let st := start_visit id st in
        match map_get id atoms with
        | None => Some (false, end_visit id (reject_atom id st))
        | Some atom =>
            '(parents_resolved, st) ← resolve_parents (resolve_atom fuel) id (parents atom) true st;
            let st := end_visit id st in
            if parents_resolved : bool then Some (true, include_atom id st)
            else Some (false, reject_atom id st)
        end
  end.

Definition resolve_fuel : nat := S (length atoms).

Fixpoint resolve_seeds (seeds : list AtomId) (st : Resolution) : option Resolution :=
  match seeds with
  | [] => Some st
  | seed :: seeds => '(_, st) ← resolve_atom resolve_fuel seed st; resolve_seeds seeds st
  end.

(** [resolve_coherent_closure] *)
Definition resolve_coherent_closure (seeds : oset AtomId) (unresolved_ : oset UnresolvedParent)
    : Derivation (oset AtomId * oset UnresolvedParent) :=
  match resolve_seeds seeds (mkResolution [] [] [] unresolved_ false) with
  | None => Exhausted
  | Some st =>
      if cycle_detected st then Refused SliceDerivationError.CyclicAtomParents
      else Derived (included st, unresolved st)
  end.

(** ** The order *)

(** Count an atom's parents inside the slice and file it under each. *)
Fixpoint link_parents (id : AtomId) (parents : list AtomId) (indegree : omap AtomId N)
    (children : omap AtomId (oset AtomId)) : omap AtomId N * omap AtomId (oset AtomId) :=
  match parents with
  | [] => (indegree, children)
  | parent :: parents =>
      link_parents id parents (map_update 0%N (λ n, n + 1)%N id indegree)
        (map_update [] (set_insert id) parent children)
  end.

Fixpoint link_atoms (included_ ids : list AtomId) (indegree : omap AtomId N)
    (children : omap AtomId (oset AtomId)) : Derivation (omap AtomId N * omap AtomId (oset AtomId)) :=
  match ids with
  | [] => Derived (indegree, children)
  | id :: ids =>
      atom ← ok_or_refuse (map_get id atoms) (SliceDerivationError.MissingAtom id);
      let '(indegree, children) :=
        link_parents id (filter (λ parent, parent ∈ included_) (parents atom)) indegree children in
      link_atoms included_ ids indegree children
  end.

(** The loop over the children of a popped atom. *)
Fixpoint release (children : list AtomId) (indegree : omap AtomId N) (ready : oset AtomId)
    : Derivation (omap AtomId N * oset AtomId) :=
  match children with
  | [] => Derived (indegree, ready)
  | child :: children =>
      match map_get child indegree with
      | None => Panicked
      | Some degree =>
          if (degree =? 0)%N then Panicked
          else
            let degree := (degree - 1)%N in
            release children (map_insert child degree indegree)
              (if (degree =? 0)%N then set_insert child ready else ready)
      end
  end.

(** [while let Some(atom_id) = ready.pop_first()] *)
Fixpoint drain (fuel : nat) (children : omap AtomId (oset AtomId)) (indegree : omap AtomId N)
    (ready : oset AtomId) (ordered_ : list AtomId) : Derivation (list AtomId) :=
  match ready with
  | [] => Derived ordered_
  | id :: ready =>
      match fuel with
      | O => Exhausted
      | S fuel =>
          '(indegree, ready) ← match map_get id children with
            | Some children => release children indegree ready
            | None => Derived (indegree, ready)
            end;
          drain fuel children indegree ready (ordered_ ++ [id])
      end
  end.

(** [stable_topological_order] *)
Definition stable_topological_order (included_ : oset AtomId) : Derivation (list AtomId) :=
  let zeros := fold_left (λ m id, map_insert id 0%N m) included_ [] in
  '(indegree, children) ← link_atoms included_ included_ zeros [];
  let ready := to_set (map fst (filter (λ e, e.2 = 0%N) indegree)) in
  ordered_ ← drain (length included_) children indegree ready [];
  _ ← refuse_if (negb (length ordered_ =? length included_)%nat) SliceDerivationError.CyclicAtomParents;
  Derived ordered_.
End resolve.

(** ** Derivation *)

(** [sorted_unique] *)
Definition sorted_unique (intents : list IntentId) : list IntentId := to_set intents.

(** Add atoms to a set, all of which must be known. *)
Fixpoint add_seeds (atoms : omap AtomId Atom) (ids : list AtomId) (seeds : oset AtomId)
    : Derivation (oset AtomId) :=
  match ids with
  | [] => Derived seeds
  | id :: ids =>
      _ ← refuse_if (negb (map_contains id atoms)) (SliceDerivationError.MissingAtom id);
      add_seeds atoms ids (set_insert id seeds)
  end.

Fixpoint seeds_of_intents (atoms : omap AtomId Atom) (intents : omap IntentId (list AtomId))
    (chosen : list IntentId) (seeds : oset AtomId) : Derivation (oset AtomId) :=
  match chosen with
  | [] => Derived seeds
  | intent :: chosen =>
      ids ← ok_or_refuse (map_get intent intents) (SliceDerivationError.MissingIntent intent);
      seeds ← add_seeds atoms ids seeds;
      seeds_of_intents atoms intents chosen seeds
  end.

(** The loop to the fixed point of closure and coverage. *)
Fixpoint close_coverage (fuel : nat) (atoms : omap AtomId Atom) (coverage : CoverageMap)
    (seeds included_ : oset AtomId) (required_tests : oset TestId) (unresolved_ : oset UnresolvedParent)
    : Derivation (oset AtomId * oset TestId * oset UnresolvedParent) :=
  match fuel with
  | O => Exhausted
  | S fuel =>
      '(closure, unresolved_) ← resolve_coherent_closure atoms seeds unresolved_;
      let tests := tests_for_atoms coverage closure in
      let coverage_atoms := atoms_for_tests coverage tests in
      next_seeds ← add_seeds atoms coverage_atoms seeds;
      if bool_decide (next_seeds = seeds) && bool_decide (tests = required_tests) &&
         bool_decide (closure = included_)
      then Derived (closure, tests, unresolved_)
      else close_coverage fuel atoms coverage next_seeds closure tests unresolved_
  end.

Definition close_fuel (atoms : omap AtomId Atom) : nat := length atoms + 3.

(** [compute_slice_id] *)
Definition compute_slice_id (body : SliceBody) : Derivation SliceId :=
  bytes ← ok_or_refuse (to_vec body) SliceDerivationError.Serialize;
  Derived (sha256_digest bytes).

(** [derive_slice] *)
Definition derive_slice (input : SliceDerivationInput) : Derivation Slice :=
  let intents_ := sorted_unique (candidate_intents input) in
  seeds ← seeds_of_intents (atoms input) (intents input) intents_ [];
  '(included_, required_tests, unresolved_parents) ←
    close_coverage (close_fuel (atoms input)) (atoms input) (coverage input) seeds [] [] [];
  atom_order ← stable_topological_order (atoms input) included_;
  let status :=
    match unresolved_parents, atom_order with
    | _ :: _, _ => SliceStatus.Blocked unresolved_parents
    | [], [] => SliceStatus.Empty
    | [], _ :: _ => SliceStatus.Ready
    end in
  let body := mkSliceBody atom_order intents_ (invariants_applied input) required_tests
    (approval_chain input) (base_ref input) status in
  id ← compute_slice_id body;
  Derived (mkSlice id body).
End derive.
