(* ===== verification/SliceClosure.v ===== *)
(** * What [resolve_coherent_closure] and the coverage loop compute

    The depth-first search finds exactly the atoms all of whose ancestors are
    known, or reports a cycle that is there; the loop over coverage reaches the
    least fixed point within its budget. *)

From Stdlib Require Import Strings.String.
From S2P Require Import Prelude Ordered Atom Predicates Slice.

Section closure.
Context `{FlowCrates} (atoms : omap AtomId Atom).
Implicit Types (x y p : AtomId) (st : Resolution).

(** ** Specification *)

Definition known x : Prop := is_Some (map_get x atoms).

(** [parent x p]: [p] is a known parent of [x]; [missing x p]: an unknown one. *)
Definition parent x p : Prop := ∃ a, map_get x atoms = Some a ∧ p ∈ parents a ∧ known p.
Definition missing x p : Prop := ∃ a, map_get x atoms = Some a ∧ p ∈ parents a ∧ map_get p atoms = None.

(** Known with all ancestors, finitely many generations back. *)
Inductive coherent : AtomId → Prop :=
  | coherent_intro x a :
      map_get x atoms = Some a → (∀ p, p ∈ parents a → coherent p) → coherent x.

Definition reaches : AtomId → AtomId → Prop := rtc parent.
Definition on_cycle x : Prop := tc parent x x.

Lemma coherent_known x : coherent x → known x.
Proof. intros [? a Ha _]. by exists a. Qed.

Lemma coherent_parent x p : coherent x → parent x p → coherent p.
Proof. intros [? a Ha Hps] (a' & Ha' & Hp & _). simplify_eq. auto. Qed.

Lemma coherent_not_missing x p : coherent x → ¬ missing x p.
Proof.
  intros [? a Ha Hps] (a' & Ha' & Hp & Hm). simplify_eq.
  apply Hps, coherent_known in Hp as [? Hp]. congruence.
Qed.

Lemma coherent_acyclic x : coherent x → ¬ on_cycle x.
Proof.
  unfold on_cycle. induction 1 as [x a Ha Hps IH]. intros Hc.
  assert (∃ p, parent x p ∧ rtc parent p x) as (p & Hp & Hr).
  { inversion Hc; subst; [by exists x|]. eauto using tc_rtc. }
  pose proof Hp as (a' & Ha' & Hin & _). simplify_eq. apply (IH p Hin). by eapply tc_rtc_l, tc_once.
Qed.

(** ** Enough fuel *)

(** Known atoms not being visited bound the depth of the recursion. *)
Definition unvisited (visiting_ : oset AtomId) : nat :=
  length (filter (λ x, x ∉ visiting_) (map fst atoms)).

Lemma unvisited_insert x (v : oset AtomId) :
  known x → x ∉ v → S (unvisited (set_insert x v)) ≤ unvisited v.
Proof.
  intros [a Ha] Hx. apply map_get_elem in Ha. unfold unvisited.
  assert (x ∈ map fst atoms) as Hin by (apply list_elem_of_fmap; by exists (x, a)).
  clear Ha. induction (map fst atoms) as [|y ks IH]; [by apply not_elem_of_nil in Hin|].
  assert (length (filter (λ z, z ∉ set_insert x v) ks) ≤ length (filter (λ z, z ∉ v) ks)) as Hle.
  { clear. induction ks as [|z ks IH]; [done|]. rewrite !filter_cons.
    repeat case_decide; cbn; rewrite ?elem_of_set_insert in *; try lia; naive_solver. }
  rewrite !filter_cons. destruct (decide (x = y)) as [<-|Hne].
  - rewrite decide_False by (rewrite elem_of_set_insert; naive_solver). rewrite decide_True by done. cbn. lia.
  - apply elem_of_cons in Hin as [?|Hin]; [done|]. specialize (IH Hin).
    repeat case_decide; cbn; rewrite ?elem_of_set_insert in *; try lia; naive_solver.
Qed.

Lemma remove_insert x (v : oset AtomId) : ordered v → x ∉ v → set_remove x (set_insert x v) = v.
Proof.
  intros Hv Hx. apply ordered_ext; [auto using ordered_remove, ordered_insert|done|].
  intros y. rewrite elem_of_set_remove, elem_of_set_insert. naive_solver.
Qed.

(** A search that ends, leaves the path as it was and only adds. *)
Definition grows st st' : Prop :=
  visiting st' = visiting st ∧ included st ⊆ included st' ∧ rejected st ⊆ rejected st' ∧
  unresolved st ⊆ unresolved st' ∧ (cycle_detected st = true → cycle_detected st' = true).

Lemma grows_refl st : grows st st.
Proof. by split_and!. Qed.

Lemma grows_trans st1 st2 st3 : grows st1 st2 → grows st2 st3 → grows st1 st3.
Proof. intros (? & ? & ? & ? & ?) (? & ? & ? & ? & ?). split_and!; [congruence|set_solver..|auto]. Qed.

Lemma resolve_parents_ends resolve id ps b st :
  ordered (visiting st) →
  (∀ p st', p ∈ ps → known p → visiting st' = visiting st → ∃ r st'', resolve p st' = Some (r, st'') ∧ grows st' st'') →
  ∃ r st', resolve_parents atoms resolve id ps b st = Some (r, st') ∧ grows st st'.
Proof.
  intros Hv. revert b st Hv. induction ps as [|p ps IH]; intros b st Hv Hr; cbn.
  { exists b, st. auto using grows_refl. }
  destruct (map_contains p atoms) eqn:Ep; cbn.
  - apply map_contains_true in Ep. destruct (Hr p st) as (r & st' & -> & Hg); [by left|done..|]. cbn.
    pose proof Hg as [Hvis _]. destruct (IH (if r then b else false) st') as (r' & st'' & -> & Hg').
    + by rewrite Hvis.
    + intros q st3 Hq Hk Hv3. apply Hr; [by right|done|congruence].
    + eauto using grows_trans.
  - destruct (IH false (record_missing (id, p) st)) as (r' & st'' & -> & Hg'); [done| |].
    + intros q st3 Hq Hk Hv3. apply Hr; [by right|done|done].
    + exists r', st''. split; [done|]. eapply grows_trans; [|exact Hg']. cbn. split_and!; [done..| |done].
      intros u Hu. apply elem_of_set_insert. by right.
Qed.

Lemma resolve_atom_ends fuel x st :
  ordered (visiting st) → unvisited (visiting st) < fuel →
  ∃ r st', resolve_atom atoms fuel x st = Some (r, st') ∧ grows st st'.
Proof.
  revert x st. induction fuel as [|fuel IH]; intros x st Hv Hf; [lia|]. cbn.
  destruct (contains x (included st)); [eauto using grows_refl|].
  destruct (contains x (rejected st)); [eauto using grows_refl|].
  destruct (contains x (visiting st)) eqn:Ev; [eexists _, _; split; [done|by split_and!]|].
  apply contains_false in Ev.
  destruct (map_get x atoms) as [a|] eqn:Ea.
  - destruct (resolve_parents_ends (resolve_atom atoms fuel) x (parents a) true (start_visit x st))
      as (r & st' & -> & Hg); [by apply ordered_insert| |].
    { intros p st' _ Hk Hv'. apply IH; rewrite Hv'; [by apply ordered_insert|]. cbn.
      pose proof (unvisited_insert x (visiting st) (ex_intro _ a Ea) Ev). lia. }
    cbn. destruct Hg as (Hvis & Hi & Hr & Hu & Hc). cbn in *.
    assert (set_remove x (visiting st') = visiting st) as Hrem by (rewrite Hvis; by apply remove_insert).
    destruct r; eexists _, _; (split; [done|]); split_and!; cbn; try done;
      intros y Hy; apply elem_of_set_insert; auto.
  - eexists _, _. split; [done|]. split_and!; cbn; try done; [by apply remove_insert|].
    intros y Hy. apply elem_of_set_insert. by right.
Qed.

Lemma unvisited_nil : unvisited [] < resolve_fuel atoms.
Proof.
  unfold unvisited, resolve_fuel. rewrite <- (length_map fst atoms). apply le_n_S.
  apply length_filter.
Qed.

Definition finished st y : Prop := y ∈ included st ∨ y ∈ rejected st.

Lemma grows_finished st st' y : grows st st' → finished st y → finished st' y.
Proof. intros (_ & Hi & Hr & _) [?|?]; [left|right]; set_solver. Qed.

Lemma grows_cycle st st' : grows st st' → cycle_detected st' = false → cycle_detected st = false.
Proof. intros (_ & _ & _ & _ & Hc) Hst'. destruct (cycle_detected st); [by rewrite Hc in Hst'|done]. Qed.

(** ** What the search has established

    [from]: the atoms the search started from and what they reach; [old]: the
    missing parents recorded before it. *)

Section search.
Context (from : AtomId → Prop) (old : oset UnresolvedParent).
Hypothesis from_parent : ∀ x p, from x → parent x p → from p.

(** While no cycle was met, finished atoms are closed under parents, and decided. *)
Record Decided st : Prop := {
  decided_included y : y ∈ included st → coherent y;
  decided_rejected y : y ∈ rejected st → ¬ coherent y;
  decided_parents y p : finished st y → parent y p → finished st p;
  decided_acyclic y : finished st y → Acc (λ p x, parent x p) y;
  decided_missing y p : finished st y → missing y p → (y, p) ∈ unresolved st
}.

Record Searched st : Prop := {
  searched_from y : finished st y → from y;
  searched_unresolved y p : (y, p) ∈ unresolved st → (y, p) ∈ old ∨ from y ∧ missing y p;
  searched_cycle : cycle_detected st = true → ∃ y, from y ∧ on_cycle y;
  searched_decided : cycle_detected st = false → Decided st
}.

Lemma searched_visit st v : Searched st →
  Searched (mkResolution (included st) v (rejected st) (unresolved st) (cycle_detected st)).
Proof. intros [? ? ? Hd]. split; try assumption. intros Hc. destruct (Hd Hc). split; assumption. Qed.

Lemma searched_detect st x : from x → on_cycle x → Searched st → Searched (detect_cycle st).
Proof. intros Hx Hc [? ? ? _]. split; try assumption; [by exists x|discriminate]. Qed.

Lemma searched_record st x p : from x → missing x p → Searched st → Searched (record_missing (x, p) st).
Proof.
  intros Hx Hm [? Hu ? Hd]. split; try assumption.
  - intros y q. cbn. rewrite elem_of_set_insert. intros [[= -> ->]|?]; [by right|by apply Hu].
  - intros Hc. destruct (Hd Hc) as [? ? ? ? Hmiss]. split; try assumption.
    intros y q Hy Hyq. cbn. rewrite elem_of_set_insert. right. by apply Hmiss.
Qed.

(** Finishing [x] when its parents are. *)
Definition finish (r : bool) x st : Resolution := if r then include_atom x st else reject_atom x st.

Lemma finished_finish r x st y : finished (finish r x st) y ↔ y = x ∨ finished st y.
Proof. unfold finished, finish. destruct r; cbn; rewrite elem_of_set_insert; tauto. Qed.

Lemma searched_finish r x st :
  from x → Searched st →
  (cycle_detected st = false →
    (r = true ↔ coherent x) ∧ (∀ p, parent x p → finished st p) ∧ (∀ p, missing x p → (x, p) ∈ unresolved st)) →
  Searched (finish r x st).
Proof.
  intros Hx [Hfrom Hu Hcyc Hd] Hdone.
  assert (cycle_detected (finish r x st) = cycle_detected st ∧ unresolved (finish r x st) = unresolved st) as [Ec Eu]
    by (by destruct r).
  split.
  - intros y [->|Hy]%finished_finish; auto.
  - intros y p. rewrite Eu. apply Hu.
  - by rewrite Ec.
  - rewrite Ec. intros Hc. destruct (Hd Hc) as [Hi Hr Hp Ha Hm]. destruct (Hdone Hc) as (Hrx & Hps & Hms).
    split.
    + intros y. destruct r; cbn; [|apply Hi]. rewrite elem_of_set_insert. intros [->|?]; [by apply Hrx|by apply Hi].
    + intros y. destruct r; cbn; [apply Hr|]. rewrite elem_of_set_insert.
      intros [->|?]; [by rewrite <- Hrx|by apply Hr].
    + intros y p Hy Hyp. apply finished_finish. right. apply finished_finish in Hy as [->|Hy]; [by apply Hps|by eapply Hp].
    + intros y Hy. apply finished_finish in Hy as [->|Hy]; [|by apply Ha]. constructor. intros p Hxp. apply Ha, Hps, Hxp.
    + intros y p Hy Hyp. rewrite Eu. apply finished_finish in Hy as [->|Hy]; [by apply Hms|by apply Hm].
Qed.

(** The answer of a search for [p]. *)
Definition answers (r : bool) p st : Prop :=
  cycle_detected st = false → finished st p ∧ (r = true ↔ p ∈ included st).

Lemma answers_coherent r p st st' :
  answers r p st → Searched st → grows st st' → Searched st' → cycle_detected st' = false →
  r = true ↔ p ∈ included st'.
Proof.
  intros Ha Hs Hg Hs' Hc. pose proof (grows_cycle _ _ Hg Hc) as Hc0. destruct (Ha Hc0) as [Hf ->].
  destruct (searched_decided _ Hs Hc0) as [_ Hr _ _ _], (searched_decided _ Hs' Hc) as [Hi' _ _ _ _].
  destruct Hg as (_ & Hi & _). split; [set_solver|]. intros Hp. destruct Hf as [Hf|Hf]; [done|].
  destruct (Hr _ Hf). by apply Hi'.
Qed.

Lemma all_cons {A} (P : A → Prop) (y : A) (l : list A) : (∀ q, q ∈ y :: l → P q) ↔ P y ∧ ∀ q, q ∈ l → P q.
Proof.
  split; [intros Ha; split; [apply Ha; by left|intros q Hq; apply Ha; by right]|].
  intros [Hy Hl] q [->|Hq]%elem_of_cons; auto.
Qed.

Lemma resolve_parents_sound resolve x a ps b st r st' :
  (∀ p st1 r1 st2, p ∈ ps → known p → visiting st1 = visiting st → Searched st1 →
    resolve p st1 = Some (r1, st2) → grows st1 st2 ∧ Searched st2 ∧ answers r1 p st2) →
  map_get x atoms = Some a → ps ⊆ parents a → from x → Searched st →
  resolve_parents atoms resolve x ps b st = Some (r, st') →
  grows st st' ∧ Searched st' ∧
  (cycle_detected st' = false →
    (∀ p, p ∈ ps → known p → finished st' p) ∧ (∀ p, p ∈ ps → ¬ known p → (x, p) ∈ unresolved st') ∧
    (r = true ↔ b = true ∧ ∀ p, p ∈ ps → p ∈ included st')).
Proof.
  intros Hres Ha Hps Hx. revert b st Hres. induction ps as [|p ps IH]; intros b st Hres Hs Hr; cbn in Hr.
  { injection Hr as <- <-. split_and!; [apply grows_refl|done|]. intros _.
    split_and!; [by intros ? ?%not_elem_of_nil..|]. split; [|by intros [? _]]. by split; [|intros ? ?%not_elem_of_nil]. }
  assert (p ∈ parents a ∧ ps ⊆ parents a) as [Hpa Hps'].
  { split; [apply Hps; by left|intros q Hq; apply Hps; by right]. }
  destruct (map_contains p atoms) eqn:Ep; cbn in Hr.
  - apply map_contains_true in Ep. apply bind_Some in Hr as ([r1 st1] & Hr1 & Hr).
    destruct (Hres p st r1 st1) as (Hg1 & Hs1 & Ha1); [by left|done..|].
    destruct (IH Hps' (if r1 then b else false) st1) as (Hg & Hs' & Hall); [|exact Hs1|exact Hr|].
    { intros q st2 r2 st3 Hq Hk Hv. apply Hres; [by right|done|]. destruct Hg1 as [Hv1 _]. congruence. }
    split_and!; [by eapply grows_trans|done|]. intros Hc. destruct (Hall Hc) as (Hk & Hm & Hrb).
    pose proof (answers_coherent _ _ _ _ Ha1 Hs1 Hg Hs' Hc) as Hpc.
    split_and!.
    + intros q [->|Hq]%elem_of_cons Hkq; [|by apply Hk]. eapply grows_finished; [exact Hg|]. apply Ha1.
      by eapply grows_cycle.
    + intros q [->|Hq]%elem_of_cons Hkq; [done|by apply Hm].
    + rewrite Hrb, all_cons, <- Hpc. destruct r1; intuition congruence.
  - assert (map_get p atoms = None) as Hnone by (unfold map_contains in Ep; by destruct (map_get p atoms)).
    assert (missing x p) as Hmis by (exists a; split_and!; [exact Ha|exact Hpa|exact Hnone]).
    destruct (IH Hps' false (record_missing (x, p) st)) as (Hg & Hs' & Hall);
      [|by apply searched_record|exact Hr|].
    { intros q st2 r2 st3 Hq Hk Hv. apply Hres; [by right|done|exact Hv]. }
    split_and!; [|done|].
    + eapply grows_trans; [|exact Hg]. split_and!; cbn; try done. intros u Hu. apply elem_of_set_insert. by right.
    + intros Hc. destruct (Hall Hc) as (Hk & Hm & Hrb). split_and!.
      * intros q [->|Hq]%elem_of_cons Hkq; [|by apply Hk]. destruct Hkq. congruence.
      * intros q [->|Hq]%elem_of_cons Hkq; [|by apply Hm]. destruct Hg as (_ & _ & _ & Hu & _).
        apply Hu. cbn. apply elem_of_set_insert. by left.
      * rewrite Hrb. split; [by intros [? _]|]. intros [_ Hin].
        destruct (searched_decided _ Hs' Hc) as [Hi _ _ _ _].
        destruct (coherent_known p) as [? ?]; [apply Hi, Hin; by left|congruence].
Qed.

Lemma resolve_atom_sound fuel x st r st' :
  ordered (visiting st) → unvisited (visiting st) < fuel →
  from x → known x → Searched st → (∀ v, v ∈ visiting st → tc parent v x) →
  resolve_atom atoms fuel x st = Some (r, st') →
  grows st st' ∧ Searched st' ∧ answers r x st'.
Proof.
  revert x st r st'. induction fuel as [|fuel IH]; intros x st r st' Hord Hfuel Hx Hk Hs Hpath Hr; [lia|].
  destruct (resolve_atom_ends (S fuel) x st Hord Hfuel) as (r0 & st0 & Hr0 & Hg). rewrite Hr in Hr0.
  injection Hr0 as <- <-. split; [done|]. cbn in Hr.
  destruct (contains x (included st)) eqn:Ei.
  { injection Hr as <- <-. apply contains_true in Ei. split; [done|]. intros _. by split; [left|]. }
  apply contains_false in Ei. destruct (contains x (rejected st)) eqn:Ej.
  { injection Hr as <- <-. apply contains_true in Ej. split; [done|]. intros _. by split; [right|]. }
  destruct (contains x (visiting st)) eqn:Ev.
  { injection Hr as <- <-. apply contains_true in Ev. split; [|done].
    apply (searched_detect _ x); [done|by apply Hpath|done]. }
  apply contains_false in Ev. destruct (map_get x atoms) as [a|] eqn:Ea; [|by destruct Hk; congruence].
  apply bind_Some in Hr as ([b st1] & Hps & Hr).
  destruct (resolve_parents_sound (resolve_atom atoms fuel) x a (parents a) true (start_visit x st) b st1)
    as (Hg1 & Hs1 & Hall); [|exact Ea|reflexivity|exact Hx|by apply searched_visit|exact Hps|].
  { intros p st2 r2 st3 Hp Hkp Hv Hs2 Hr2. cbn in Hv. apply IH; [..|exact Hkp|exact Hs2| |exact Hr2].
    - rewrite Hv. by apply ordered_insert.
    - rewrite Hv. pose proof (unvisited_insert x (visiting st) Hk Ev). lia.
    - apply (from_parent x); [done|]. by exists a.
    - intros v. rewrite Hv, elem_of_set_insert. assert (parent x p) as Hxp by (by exists a).
      intros [->|Hv']; [by apply tc_once|]. eapply tc_r; [by apply Hpath|done]. }
  assert (r = b ∧ st' = finish b x (end_visit x st1)) as [-> ->] by (destruct b; by injection Hr as <- <-).
  split.
  - apply searched_finish; [done|by apply searched_visit|]. intros Hc. cbn in Hc.
    destruct (Hall Hc) as (Hfin & Hmis & Hb). split_and!.
    + rewrite Hb. split.
      * intros [_ Hin]. econstructor; [done|]. intros p Hp. apply (decided_included _ (searched_decided _ Hs1 Hc)), Hin, Hp.
      * intros Hcoh. split; [done|]. intros p Hp. inversion Hcoh as [? a' Ha' Hpc]; simplify_eq.
        destruct (Hfin p Hp) as [?|Hrej]; [by apply coherent_known, Hpc|done|].
        destruct (decided_rejected _ (searched_decided _ Hs1 Hc) _ Hrej). by apply Hpc.
    + intros p (a' & Ha' & Hp & Hkp). simplify_eq. by apply Hfin.
    + intros p (a' & Ha' & Hp & Hkp). simplify_eq. apply Hmis; [done|]. intros [? ?]. congruence.
  - intros Hc. split; [apply finished_finish; by left|]. unfold finish in *. destruct b; cbn in *.
    + rewrite elem_of_set_insert. split; [by left|done].
    + split; [done|]. intros Hin. destruct (Hall Hc) as (Hfin & Hmis & Hb).
      pose proof (decided_included _ (searched_decided _ Hs1 Hc) _ Hin) as Hcoh.
      apply Hb. split; [done|]. intros p Hp. inversion Hcoh as [? a' Ha' Hpc]; simplify_eq.
      destruct (Hfin p Hp) as [?|Hrej]; [by apply coherent_known, Hpc|done|].
      destruct (decided_rejected _ (searched_decided _ Hs1 Hc) _ Hrej). by apply Hpc.
Qed.
End search.

(** ** The closure *)

Definition sorted_state st : Prop := ordered (included st) ∧ ordered (unresolved st).

Lemma resolve_parents_sorted resolve x ps b st r st' :
  (∀ p st r st', resolve p st = Some (r, st') → sorted_state st → sorted_state st') →
  resolve_parents atoms resolve x ps b st = Some (r, st') → sorted_state st → sorted_state st'.
Proof.
  intros Hres. revert b st. induction ps as [|p ps IH]; intros b st; cbn; [by intros [= _ <-]|].
  destruct (map_contains p atoms); cbn.
  - intros ([r1 st1] & Hr1 & Hr)%bind_Some Hs. eapply IH; [exact Hr|]. by eapply Hres.
  - intros Hr [Hi Hu]. eapply IH; [exact Hr|]. split; [done|]. by apply ordered_insert.
Qed.

Lemma resolve_atom_sorted fuel x st r st' :
  resolve_atom atoms fuel x st = Some (r, st') → sorted_state st → sorted_state st'.
Proof.
  revert x st r st'. induction fuel as [|fuel IH]; intros x st r st'; cbn; [done|].
  repeat (destruct (contains x _); [by intros [= _ <-]|]).
  destruct (map_get x atoms) as [a|]; [|by intros [= _ <-]].
  intros ([b st1] & Hps & Hr)%bind_Some Hs.
  apply resolve_parents_sorted in Hps as [Hi Hu]; [|exact IH|exact Hs].
  destruct b; injection Hr as <- <-; (split; [|done]); cbn; auto using ordered_insert.
Qed.

Lemma acc_acyclic x : Acc (λ p x, parent x p) x → ¬ on_cycle x.
Proof.
  unfold on_cycle. induction 1 as [x _ IH]. intros Hc.
  assert (∃ p, parent x p ∧ rtc parent p x) as (p & Hp & Hr).
  { inversion Hc; subst; [by exists x|]. eauto using tc_rtc. }
  apply (IH p Hp). by eapply tc_rtc_l, tc_once.
Qed.

Lemma resolve_seeds_sound from old seeds st :
  (∀ x p, from x → parent x p → from p) → (∀ s, s ∈ seeds → from s ∧ known s) →
  visiting st = [] → Searched from old st → sorted_state st →
  ∃ st', resolve_seeds atoms seeds st = Some st' ∧ Searched from old st' ∧ grows st st' ∧ sorted_state st' ∧
    (cycle_detected st' = false → ∀ s, s ∈ seeds → finished st' s).
Proof.
  intros Hfp. revert st. induction seeds as [|s seeds IH]; intros st Hseeds Hv Hs Hso; cbn [resolve_seeds].
  { exists st. do 2 (split; [done|]). split; [apply grows_refl|]. split; [done|]. by intros _ ? ?%not_elem_of_nil. }
  destruct (Hseeds s) as [Hf Hk]; [by left|].
  assert (ordered (visiting st)) as Hord by (rewrite Hv; constructor).
  assert (unvisited (visiting st) < resolve_fuel atoms) as Hfuel by (rewrite Hv; apply unvisited_nil).
  destruct (resolve_atom_ends _ s st Hord Hfuel) as (r & st1 & Hr & _).
  destruct (resolve_atom_sound from old Hfp _ s st r st1 Hord Hfuel Hf Hk Hs) as (Hg1 & Hs1 & Ha1);
    [rewrite Hv; by intros ? ?%not_elem_of_nil|done|].
  rewrite Hr. cbn [mbind option_bind]. destruct (IH st1) as (st' & -> & Hs' & Hg & Hso' & Hfin).
  - intros s' Hs'. apply Hseeds. by right.
  - destruct Hg1 as [-> _]. exact Hv.
  - exact Hs1.
  - by eapply resolve_atom_sorted.
  - exists st'. do 2 (split; [done|]). split; [by eapply grows_trans|]. split; [done|].
    intros Hc s' [->|Hin]%elem_of_cons; [|by apply Hfin].
    eapply grows_finished; [exact Hg|]. apply Ha1. by eapply grows_cycle.
Qed.

(** What a set of seeds reaches. *)
Definition reached (seeds : AtomId → Prop) x : Prop := ∃ s, seeds s ∧ reaches s x.

Lemma reached_parent seeds x p : reached seeds x → parent x p → reached seeds p.
Proof. intros (s & Hs & Hr) Hp. exists s. split; [done|]. by eapply rtc_r. Qed.

Lemma resolve_coherent_closure_spec seeds old :
  (∀ s, s ∈ seeds → known s) → ordered old →
  match resolve_coherent_closure atoms seeds old with
  | Derived (closure, unresolved_) =>
      (∀ x, reached (.∈ seeds) x → ¬ on_cycle x) ∧
      (∀ x, x ∈ closure ↔ reached (.∈ seeds) x ∧ coherent x) ∧
      (∀ x p, (x, p) ∈ unresolved_ ↔ (x, p) ∈ old ∨ reached (.∈ seeds) x ∧ missing x p) ∧
      ordered closure ∧ ordered unresolved_
  | Refused e => e = SliceDerivationError.CyclicAtomParents ∧ ∃ x, reached (.∈ seeds) x ∧ on_cycle x
  | Panicked | Exhausted => False
  end.
Proof.
  intros Hk Hold. unfold resolve_coherent_closure.
  destruct (resolve_seeds_sound (reached (.∈ seeds)) old seeds (mkResolution [] [] [] old false))
    as (st & -> & [Hfrom Hun Hcyc Hdec] & Hg & [Hi Hu] & Hfin).
  - apply reached_parent.
  - intros s Hs. split; [|by apply Hk]. exists s. split; [done|apply rtc_refl].
  - done.
  - split; cbn.
    + by intros y [?%not_elem_of_nil|?%not_elem_of_nil].
    + auto.
    + done.
    + intros _. split; unfold finished; cbn; intros y; try (intros p); set_solver.
  - split; [constructor|exact Hold].
  - destruct (cycle_detected st) eqn:Ec; [split; [done|by apply Hcyc]|].
    destruct (Hdec eq_refl) as [Dinc Drej Dpar Dacc Dmis]. specialize (Hfin eq_refl).
    assert (∀ x, reached (.∈ seeds) x → finished st x) as Hall.
    { intros x (s & Hs & Hr). apply Hfin in Hs. clear Hk. induction Hr as [|s y x Hp _ IH]; [done|].
      apply IH. by eapply Dpar. }
    split_and!; [| | |done|done].
    + intros x Hx. by apply acc_acyclic, Dacc, Hall.
    + intros x. split; [intros Hx; split; [apply Hfrom; by left|by apply Dinc]|].
      intros [Hx Hc]. destruct (Hall x Hx) as [?|Hrej]; [done|]. by destruct (Drej _ Hrej).
    + intros x p. split; [apply Hun|]. intros [Ho|[Hx Hm]]; [|by apply Dmis; [apply Hall|]].
      destruct Hg as (_ & _ & _ & Hsub & _). by apply Hsub.
Qed.

(** ** Seeds *)

Lemma map_contains_known x : map_contains x atoms = true ↔ known x.
Proof. apply map_contains_true. Qed.

Lemma add_seeds_spec ids seeds :
  match add_seeds atoms ids seeds with
  | Derived seeds' => (∀ x, x ∈ ids → known x) ∧ seeds' = set_extend seeds ids
  | Refused e => ∃ x, x ∈ ids ∧ ¬ known x ∧ e = SliceDerivationError.MissingAtom x
  | Panicked | Exhausted => False
  end.
Proof.
  revert seeds. induction ids as [|x ids IH]; intros seeds; cbn; [by split; [intros ? ?%not_elem_of_nil|]|].
  pose proof (map_contains_known x) as Hx. destruct (map_contains x atoms); cbn.
  - specialize (IH (set_insert x seeds)). destruct (add_seeds _ ids _); [|naive_solver by right|done..].
    destruct IH as [Hk ->]. split; [|done]. intros y [->|Hy]%elem_of_cons; [by apply Hx|by apply Hk].
  - exists x. split_and!; [by left|by intros ?%Hx|done].
Qed.

(** ** Coverage *)

Section coverage.
Context (coverage : CoverageMap).

Definition exercised_by x (t : TestId) : Prop := t ∈ default [] (map_get x (tests_by_atom coverage)).
Definition exercises (t : TestId) x : Prop := x ∈ default [] (map_get t (atoms_by_test coverage)).

Lemma elem_of_concat_map {A B} (f : A → list B) (l : list A) (y : B) :
  y ∈ concat (map f l) ↔ ∃ x : A, x ∈ l ∧ y ∈ f x.
Proof.
  rewrite list_elem_of_In, <- flat_map_concat_map, in_flat_map. setoid_rewrite <- list_elem_of_In. done.
Qed.

Lemma elem_of_tests_for_atoms t l : t ∈ tests_for_atoms coverage l ↔ ∃ x, x ∈ l ∧ exercised_by x t.
Proof. unfold tests_for_atoms. by rewrite elem_of_to_set, elem_of_concat_map. Qed.

Lemma elem_of_atoms_for_tests x l : x ∈ atoms_for_tests coverage l ↔ ∃ t, t ∈ l ∧ exercises t x.
Proof. unfold atoms_for_tests. by rewrite elem_of_to_set, elem_of_concat_map. Qed.

(** The least set of atoms that has the chosen ones and what the tests of its
    coherent ancestors exercise. *)
Inductive needed (chosen : AtomId → Prop) : AtomId → Prop :=
  | needed_chosen x : chosen x → needed chosen x
  | needed_exercised s x t y :
      needed chosen s → reaches s x → coherent x → exercised_by x t → exercises t y → needed chosen y.

(** A step of the loop from [seeds] changes nothing any more. *)
Definition settled (seeds included_ : oset AtomId) (tests : oset TestId) : Prop :=
  ordered included_ ∧ (∀ x, x ∈ included_ ↔ reached (.∈ seeds) x ∧ coherent x) ∧
  tests = tests_for_atoms coverage included_ ∧ ∀ x, x ∈ atoms_for_tests coverage tests → x ∈ seeds.

Lemma settled_needed chosen seeds included_ tests :
  (∀ x, chosen x → x ∈ seeds) → (∀ x, x ∈ seeds → needed chosen x) → settled seeds included_ tests →
  ∀ x, x ∈ seeds ↔ needed chosen x.
Proof.
  intros Hchosen Hseeds (_ & Hinc & -> & Hback) x. split; [apply Hseeds|].
  induction 1 as [x Hx|s x t y _ IH Hr Hc Ht Hy]; [by apply Hchosen|].
  apply Hback, elem_of_atoms_for_tests. exists t. split; [|done].
  apply elem_of_tests_for_atoms. exists x. split; [|done]. apply Hinc. split; [by exists s|done].
Qed.

Lemma set_extend_grows (seeds ids : oset AtomId) :
  ordered seeds → set_extend seeds ids ≠ seeds → (∀ x, x ∈ ids → known x) →
  S (unvisited (set_extend seeds ids)) ≤ unvisited seeds.
Proof.
  intros Hord Hne Hk.
  assert (∃ x, x ∈ ids ∧ x ∉ seeds) as (x & Hx & Hnx).
  { destruct (decide (Forall (.∈ seeds) ids)) as [Hall|Hex].
    - destruct Hne. apply ordered_ext; [by apply ordered_extend|done|]. intros y.
      rewrite elem_of_set_extend. rewrite Forall_forall in Hall. naive_solver.
    - apply not_Forall_Exists, Exists_exists in Hex; [|apply _]. naive_solver. }
  etrans; [|by apply (unvisited_insert x seeds); [apply Hk|]]. apply le_n_S. unfold unvisited.
  induction (map fst atoms) as [|y ks IH]; [done|]. rewrite !filter_cons.
  repeat case_decide; cbn; rewrite ?elem_of_set_extend, ?elem_of_set_insert in *; try lia; naive_solver.
Qed.

Definition loop_result (chosen : AtomId → Prop)
    (r : Derivation (oset AtomId * oset TestId * oset UnresolvedParent)) : Prop :=
  match r with
  | Derived (closure, tests, unresolved_) =>
      (∀ x, needed chosen x → known x) ∧
      (∀ x, reached (needed chosen) x → ¬ on_cycle x) ∧
      (∀ x, x ∈ closure ↔ reached (needed chosen) x ∧ coherent x) ∧
      (∀ t, t ∈ tests ↔ ∃ x, x ∈ closure ∧ exercised_by x t) ∧
      (∀ x p, (x, p) ∈ unresolved_ ↔ reached (needed chosen) x ∧ missing x p) ∧
      ordered closure ∧ ordered tests ∧ ordered unresolved_
  | Refused (SliceDerivationError.CyclicAtomParents) => ∃ x, reached (needed chosen) x ∧ on_cycle x
  | Refused (SliceDerivationError.MissingAtom x) => needed chosen x ∧ ¬ known x
  | Refused _ | Panicked | Exhausted => False
  end.

Lemma reached_iff (P Q : AtomId → Prop) x : (∀ s, P s ↔ Q s) → reached P x ↔ reached Q x.
Proof. unfold reached. intros HPQ. by setoid_rewrite HPQ. Qed.

Lemma reached_mono (P Q : AtomId → Prop) x : (∀ s, P s → Q s) → reached P x → reached Q x.
Proof. intros HPQ (s & Hs & Hr). exists s. auto. Qed.

Lemma close_coverage_spec fuel chosen seeds included_ tests unresolved_ :
  ordered seeds → ordered unresolved_ →
  (∀ x, chosen x → x ∈ seeds) → (∀ x, x ∈ seeds → needed chosen x ∧ known x) →
  (∀ x p, (x, p) ∈ unresolved_ → reached (needed chosen) x ∧ missing x p) →
  (unvisited seeds + 2 ≤ fuel ∨ settled seeds included_ tests ∧ 1 ≤ fuel) →
  loop_result chosen (close_coverage fuel atoms coverage seeds included_ tests unresolved_).
Proof.
  revert seeds included_ tests unresolved_.
  induction fuel as [|fuel IH]; intros seeds inc tests un Hord Hun Hchosen Hseeds Hun' Hfuel; [lia|]. cbn [close_coverage].
  pose proof (resolve_coherent_closure_spec seeds un (λ s Hs, proj2 (Hseeds s Hs)) Hun) as Hspec.
  assert (∀ x, reached (.∈ seeds) x → reached (needed chosen) x) as Hreach
    by (intros x; apply reached_mono; intros s Hs; by apply Hseeds).
  destruct (resolve_coherent_closure atoms seeds un) as [[closure un']|e| |]; cbn [mbind derivation_bind];
    [|by destruct Hspec as [-> (x & Hx & Hc)]; exists x; auto|done|done].
  destruct Hspec as (Hacyclic & Hclosure & Hmissing & Hoc & Hou).
  set (tests' := tests_for_atoms coverage closure).
  pose proof (add_seeds_spec (atoms_for_tests coverage tests') seeds) as Hadd.
  assert (∀ y, y ∈ atoms_for_tests coverage tests' → needed chosen y) as Hnew.
  { intros y (t & (x & Hx & Ht)%elem_of_tests_for_atoms & Hy)%elem_of_atoms_for_tests.
    apply Hclosure in Hx as [(s & Hs & Hr) Hc]. eapply needed_exercised; [by apply Hseeds|done..]. }
  destruct (add_seeds atoms _ seeds) as [next|e| |]; cbn [mbind derivation_bind];
    [|by destruct Hadd as (x & Hx & Hk & ->); split; [apply Hnew|]|done|done].
  destruct Hadd as [Hk ->]. set (next := set_extend seeds (atoms_for_tests coverage tests')).
  assert (∀ x p, (x, p) ∈ un' → reached (needed chosen) x ∧ missing x p) as Hun2.
  { intros x p [Ho|[Hx Hm]]%Hmissing; [by apply Hun'|auto]. }
  destruct (decide (next = seeds)) as [Hn|Hn].
  - assert (settled seeds closure tests') as Hset.
    { split_and!; [done..|]. intros x Hx. rewrite <- Hn. apply elem_of_set_extend. by right. }
    pose proof (settled_needed chosen seeds closure tests' Hchosen (λ x Hx, proj1 (Hseeds x Hx)) Hset) as Hneed.
    rewrite Hn, (bool_decide_true (seeds = seeds)) by done. cbn [andb].
    destruct (bool_decide (tests' = tests) && bool_decide (closure = inc)) eqn:Estop.
    + split_and!; [..|done|apply ordered_to_set|done].
      * intros x Hx%Hneed. by apply Hseeds.
      * intros x Hx. apply Hacyclic. by apply (reached_iff _ _ x Hneed).
      * intros x. by rewrite Hclosure, (reached_iff _ _ x Hneed).
      * intros t. apply elem_of_tests_for_atoms.
      * intros x p. split; [apply Hun2|]. intros [Hx Hm]. apply Hmissing. right.
        split; [by apply (reached_iff _ _ x Hneed)|done].
    + apply IH; try done. right. split; [done|]. destruct Hfuel as [?|[Hold _]]; [lia|]. exfalso.
      destruct Hold as (Ho1 & Ho2 & Ho3 & _). assert (closure = inc) as Heq.
      { apply ordered_ext; [done..|]. intros x. by rewrite Hclosure, Ho2. }
      apply not_true_iff_false in Estop. apply Estop. apply andb_true_iff.
      rewrite !bool_decide_eq_true. unfold tests'. by rewrite Heq, Ho3.
  - rewrite bool_decide_false by done. cbn [andb]. apply IH; try done.
    + by apply ordered_extend.
    + intros x Hx. apply elem_of_set_extend. left. by apply Hchosen.
    + intros x [Hx|Hx]%elem_of_set_extend; [by apply Hseeds|]. split; [by apply Hnew|by apply Hk].
    + left. pose proof (set_extend_grows seeds _ Hord Hn Hk) as Hlt. fold next in Hlt.
      destruct Hfuel as [?|[(_ & Ho2 & Ho3 & Ho4) _]]; [lia|]. exfalso. apply Hn.
      apply ordered_ext; [by apply ordered_extend|done|]. intros x. unfold next. rewrite elem_of_set_extend.
      split; [|by left]. intros [Hx|Hx]; [done|]. apply Ho4. rewrite Ho3.
      apply elem_of_atoms_for_tests in Hx as (t & (y & Hy & Ht)%elem_of_tests_for_atoms & Hx).
      apply elem_of_atoms_for_tests. exists t. split; [|done]. apply elem_of_tests_for_atoms.
      exists y. split; [|done]. by apply Ho2, Hclosure.
Qed.
End coverage.
End closure.
