(* ===== verification/SliceOrder.v ===== *)
(** * The order of a slice: [stable_topological_order]

    Kahn's algorithm over the atoms of a slice. It lists them all, parents
    first, always the least atom whose parents are listed; it fails when there
    is a cycle, and also when an atom names a parent twice. *)

From Stdlib Require Import Strings.String Sorting.Sorted.
From S2P Require Import Prelude Ordered Atom Predicates Slice.

(** ** Maps *)

Section maps.
Context {K V : Type} `{Ord K, EqDecision K}.
Implicit Types (m : omap K V).

Lemma map_elem_get m k v : map_ordered m → (k, v) ∈ m ↔ map_get k m = Some v.
Proof.
  intros Hm. split; [|apply map_get_elem]. unfold map_ordered in Hm.
  induction Hm as [|[k0 v0] m Hs IH Hlt]; [by intros ?%not_elem_of_nil|]. rewrite Forall_forall in Hlt.
  cbn. intros [[= -> ->]|Hin]%elem_of_cons; [by rewrite decide_True|].
  rewrite decide_False; [auto|]. intros ->. by apply (ord_lt_irrefl k0), (Hlt (k0, v)).
Qed.
End maps.

Section order.
Context `{FlowCrates} (atoms : omap AtomId Atom) (inc : list AtomId).
Implicit Types (x y p : AtomId) (O : list AtomId).
Hypothesis inc_ordered : ordered inc.
Hypothesis inc_known : ∀ x, x ∈ inc → is_Some (map_get x atoms).

(** The parents of an atom inside the slice, as the atom lists them. *)
Definition inner x : list AtomId :=
  match map_get x atoms with
  | Some a => filter (λ p, p ∈ inc) (parents a)
  | None => []
  end.

(** ** The order it should be *)

(** Atoms that may come after the atoms [O]. *)
Definition available O x : Prop := x ∈ inc ∧ x ∉ O ∧ NoDup (inner x) ∧ ∀ p, p ∈ inner x → p ∈ O.

Definition stable_order O : Prop :=
  ∀ O1 x O2, O = O1 ++ x :: O2 → available O1 x ∧ ∀ y, available O1 y → ord_le x y.

(** ** Counting parents *)

(** Parents of [x] among the atoms [O]. *)
Definition paid x O : nat := length (filter (λ p, p ∈ inner x) O).

Lemma inner_inc x p : p ∈ inner x → p ∈ inc.
Proof. unfold inner. destruct (map_get x atoms); [|by intros ?%not_elem_of_nil]. by intros [? _]%list_elem_of_filter. Qed.

Lemma paid_sub x O : NoDup O → filter (λ p, p ∈ inner x) O ⊆+ inner x.
Proof. intros HO. apply NoDup_submseteq; [by apply NoDup_filter|]. by intros p [? _]%list_elem_of_filter. Qed.

Lemma paid_le x O : NoDup O → paid x O ≤ length (inner x).
Proof. intros HO. by apply submseteq_length, paid_sub. Qed.

Lemma paid_full x O :
  NoDup O → paid x O = length (inner x) ↔ NoDup (inner x) ∧ ∀ p, p ∈ inner x → p ∈ O.
Proof.
  intros HO. split.
  - intros Hp. assert (filter (λ p, p ∈ inner x) O ≡ₚ inner x) as Heq.
    { apply submseteq_length_Permutation; [by apply paid_sub|]. unfold paid in Hp. lia. }
    split; [rewrite <- Heq; by apply NoDup_filter|]. intros p. rewrite <- Heq at 1.
    by intros [_ ?]%list_elem_of_filter.
  - intros [Hnd Hall]. unfold paid. apply Permutation_length, NoDup_Permutation; [by apply NoDup_filter|done|].
    intros p. rewrite list_elem_of_filter. naive_solver.
Qed.

Lemma paid_snoc x O p : paid x (O ++ [p]) = paid x O + if decide (p ∈ inner x) then 1 else 0.
Proof. unfold paid. rewrite filter_app, length_app, filter_cons. by case_decide. Qed.

(** ** Building the tables *)

Definition file (children : omap AtomId (oset AtomId)) p : list AtomId := default [] (map_get p children).

Definition filed (children : omap AtomId (oset AtomId)) : Prop :=
  map_ordered children ∧ ∀ p, ordered (file children p).

Lemma filed_update id p children :
  filed children → filed (map_update [] (set_insert id) p children) ∧
  ∀ q y, y ∈ file (map_update [] (set_insert id) p children) q ↔ y ∈ file children q ∨ (y = id ∧ q = p).
Proof.
  unfold filed, file. intros [Hm Hs]. split; [split; [by apply map_update_ordered|]|].
  - intros q. rewrite map_get_update by done. case_decide; [subst; cbn; by apply ordered_insert|apply Hs].
  - intros q y. rewrite map_get_update by done. case_decide; subst; cbn; [rewrite elem_of_set_insert|]; naive_solver.
Qed.

Lemma link_parents_spec id ps indegree children d indegree' children' :
  map_ordered indegree → map_get id indegree = Some d → filed children →
  link_parents id ps indegree children = (indegree', children') →
  map_ordered indegree' ∧ filed children' ∧
  (∀ x, map_get x indegree' = if decide (x = id) then Some (d + len ps)%N else map_get x indegree) ∧
  (∀ p y, y ∈ file children' p ↔ y ∈ file children p ∨ (y = id ∧ p ∈ ps)).
Proof.
  revert indegree children d. induction ps as [|q ps IH]; intros indegree children d Hm Hd Hf; cbn.
  { intros [= <- <-]. split_and!; [done|done| |].
    - intros x. case_decide; [subst; rewrite Hd; f_equal; unfold len; cbn; lia|done].
    - intros p y. split; [by left|]. by intros [?|[_ ?%not_elem_of_nil]]. }
  intros Hl. destruct (filed_update id q children Hf) as [Hf' Hin'].
  assert (map_get id (map_update 0%N (λ n, n + 1)%N id indegree) = Some (d + 1)%N) as Hd'.
  { rewrite map_get_update by done. by rewrite decide_True, Hd. }
  destruct (IH _ _ (d + 1)%N (map_update_ordered _ _ _ _ Hm) Hd' Hf' Hl) as (Ho & Hff & Hg & Hc).
  split; [done|]. split; [done|]. split.
  - intros x. rewrite Hg. case_decide; [f_equal; rewrite len_cons; lia|].
    rewrite map_get_update by done. by rewrite decide_False.
  - intros p y. rewrite Hc, Hin', elem_of_cons. naive_solver.
Qed.

Lemma link_atoms_spec ids indegree children :
  NoDup ids → (∀ x, x ∈ ids → x ∈ inc) → (∀ x, x ∈ ids → is_Some (map_get x indegree)) →
  map_ordered indegree → filed children →
  ∃ indegree' children', link_atoms atoms inc ids indegree children = Derived (indegree', children') ∧
    map_ordered indegree' ∧ filed children' ∧
    (∀ x, map_get x indegree' =
       if decide (x ∈ ids) then Some (default 0 (map_get x indegree) + len (inner x))%N else map_get x indegree) ∧
    (∀ p y, y ∈ file children' p ↔ y ∈ file children p ∨ (y ∈ ids ∧ p ∈ inner y)).
Proof.
  revert indegree children. induction ids as [|id ids IH]; intros indegree children Hnd Hinc Hget Hm Hf.
  { exists indegree, children. split; [done|]. split; [done|]. split; [done|]. split.
    - intros x. by rewrite decide_False by apply not_elem_of_nil.
    - intros p y. split; [by left|]. by intros [?|[?%not_elem_of_nil _]]. }
  apply NoDup_cons in Hnd as [Hid Hnd]. destruct (inc_known id) as [a Ha]; [apply Hinc; by left|].
  destruct (Hget id) as [d Hd]; [by left|]. cbn [link_atoms]. rewrite Ha. cbn [ok_or_refuse mbind derivation_bind].
  destruct (link_parents _ _ _ _) as [indegree1 children1] eqn:El.
  assert (filter (λ p, p ∈ inc) (parents a) = inner id) as Hin by (unfold inner; by rewrite Ha).
  rewrite Hin in El. destruct (link_parents_spec _ _ _ _ _ _ _ Hm Hd Hf El) as (Hm1 & Hf1 & Hg1 & Hc1).
  destruct (IH indegree1 children1) as (indegree' & children' & -> & Hm' & Hf' & Hg' & Hc'); [done| | |done|done|].
  { intros x Hx. apply Hinc. by right. }
  { intros x Hx. rewrite Hg1. case_decide; [by eexists|]. apply Hget. by right. }
  exists indegree', children'. split; [done|]. split; [done|]. split; [done|]. split.
  - intros x. rewrite Hg', Hg1. destruct (decide (x = id)) as [->|Hne].
    + rewrite decide_False by done. rewrite decide_True by by left. by rewrite Hd.
    + destruct (decide (x ∈ ids)); [rewrite decide_True by by right|rewrite decide_False]; [done|done|].
      by intros [?|?]%elem_of_cons.
  - intros p y. rewrite Hc', Hc1, elem_of_cons. naive_solver.
Qed.

Lemma zeros_spec ids m :
  map_ordered m →
  let m' := fold_left (λ m id, map_insert id 0%N m) ids m in
  map_ordered m' ∧ ∀ x, map_get x m' = if decide (x ∈ ids) then Some 0%N else map_get x m.
Proof.
  revert m. induction ids as [|id ids IH]; intros m Hm; cbn.
  { split; [done|]. intros x. by rewrite decide_False by apply not_elem_of_nil. }
  destruct (IH (map_insert id 0%N m)) as [Hm' Hg]; [by apply map_update_ordered|]. split; [done|].
  intros x. rewrite Hg. unfold map_insert. rewrite map_get_update by done.
  destruct (decide (x ∈ ids)); [by rewrite decide_True by by right|].
  destruct (decide (x = id)) as [->|]; [by rewrite decide_True by by left|].
  rewrite decide_False; [done|]. by intros [?|?]%elem_of_cons.
Qed.

(** ** The loop *)

Lemma release_spec cs indegree ready :
  NoDup cs → map_ordered indegree → ordered ready →
  (∀ c, c ∈ cs → ∃ d, map_get c indegree = Some d ∧ d ≠ 0%N) →
  ∃ indegree' ready', release cs indegree ready = Derived (indegree', ready') ∧
    map_ordered indegree' ∧ ordered ready' ∧
    (∀ x, map_get x indegree' =
       if decide (x ∈ cs) then (λ d, d - 1)%N <$> map_get x indegree else map_get x indegree) ∧
    (∀ x, x ∈ ready' ↔ x ∈ ready ∨ (x ∈ cs ∧ map_get x indegree = Some 1%N)).
Proof.
  revert indegree ready. induction cs as [|c cs IH]; intros indegree ready Hnd Hm Ho Hpos.
  { exists indegree, ready. do 3 (split; [done|]). split.
    - intros x. by rewrite decide_False by apply not_elem_of_nil.
    - intros x. split; [by left|]. by intros [?|[?%not_elem_of_nil _]]. }
  apply NoDup_cons in Hnd as [Hc Hnd]. destruct (Hpos c) as (d & Hd & Hd0); [by left|].
  cbn [release]. rewrite Hd, (proj2 (N.eqb_neq d 0) Hd0).
  assert (∀ x, map_get x (map_insert c (d - 1)%N indegree) = if decide (x = c) then Some (d - 1)%N else map_get x indegree) as Hins.
  { intros x. unfold map_insert. rewrite map_get_update by done. done. }
  destruct (IH (map_insert c (d - 1)%N indegree) (if (d - 1 =? 0)%N then set_insert c ready else ready))
    as (indegree' & ready' & -> & Hm' & Ho' & Hg & Hr); [done|by apply map_update_ordered| | |].
  { case_match; [by apply ordered_insert|done]. }
  { intros x Hx. rewrite Hins, decide_False by (intros ->; done). apply Hpos. by right. }
  exists indegree', ready'. do 3 (split; [done|]). split.
  - intros x. rewrite Hg, !Hins. destruct (decide (x = c)) as [->|Hne].
    + rewrite decide_False by done. rewrite decide_True by by left. by rewrite Hd.
    + destruct (decide (x ∈ cs)); [by rewrite decide_True by by right|].
      rewrite decide_False; [done|]. by intros [?|?]%elem_of_cons.
  - intros x. rewrite Hr, Hins, elem_of_cons.
    assert (x ∈ (if (d - 1 =? 0)%N then set_insert c ready else ready) ↔ x ∈ ready ∨ (x = c ∧ d = 1%N)) as ->.
    { destruct (N.eqb_spec (d - 1) 0); [rewrite elem_of_set_insert|]; split; intros; intuition (subst; lia || auto). }
    destruct (decide (x = c)) as [->|Hne]; [rewrite Hd|]; split; intros Hx; intuition (subst; congruence || auto).
Qed.

Lemma stable_order_snoc O x :
  stable_order O → available O x → (∀ y, available O y → ord_le x y) → stable_order (O ++ [x]).
Proof.
  intros HO Hx Hmin O1 z O2 Heq. destruct O2 as [|w O2 _] using rev_ind.
  - apply app_inj_tail in Heq as [-> ->]. done.
  - rewrite app_comm_cons, app_assoc in Heq. apply app_inj_tail in Heq as [-> ->]. by eapply HO.
Qed.

Lemma stable_order_parents O x p : stable_order O → x ∈ O → p ∈ inner x → p ∈ O.
Proof.
  intros HO (O1 & O2 & ->)%list_elem_of_split Hp. destruct (HO O1 x O2 eq_refl) as [(_ & _ & _ & Hall) _].
  apply elem_of_app. left. by apply Hall.
Qed.

(** The state of the loop after the atoms [O]. *)
Record Drained (O : list AtomId) (indegree : omap AtomId N) (ready : oset AtomId) : Prop := {
  drained_indegree : map_ordered indegree;
  drained_ready : ordered ready;
  drained_nodup : NoDup O;
  drained_inc x : x ∈ O → x ∈ inc;
  drained_degree x : x ∈ inc → map_get x indegree = Some (N.of_nat (length (inner x) - paid x O));
  drained_available x : x ∈ ready ↔ available O x;
  drained_order : stable_order O
}.

Section drain.
Context (children : omap AtomId (oset AtomId)).
Hypothesis children_filed : filed children.
Hypothesis children_spec : ∀ p y, y ∈ file children p ↔ y ∈ inc ∧ p ∈ inner y.

Lemma drained_step O indegree id ready :
  Drained O indegree (id :: ready) →
  ∃ indegree' ready',
    match map_get id children with
    | Some children => release children indegree ready
    | None => Derived (indegree, ready)
    end = Derived (indegree', ready') ∧ Drained (O ++ [id]) indegree' ready'.
Proof.
  intros [Hm Ho Hnd Hinc Hdeg Hav Hord].
  assert (available O id) as Hid by (apply Hav; by left). destruct Hid as (Hidinc & HidO & Hidnd & Hidp).
  assert (NoDup (O ++ [id])) as Hnd'.
  { apply NoDup_app. split_and!; [done| |apply NoDup_singleton]. intros x Hx ->%list_elem_of_singleton. done. }
  apply StronglySorted_inv in Ho as [Ho Hlt]. rewrite Forall_forall in Hlt.
  assert (∀ c, c ∈ file children id → paid c O < length (inner c)) as Hless.
  { intros c [_ Hc]%children_spec. pose proof (paid_le c _ Hnd') as Hle. rewrite paid_snoc, decide_True in Hle by done. lia. }
  destruct (release_spec (file children id) indegree ready) as (indegree' & ready' & Hrel & Hm' & Ho' & Hg & Hr).
  { apply ordered_nodup, children_filed. }
  { done. }
  { done. }
  { intros c Hc. specialize (Hless c Hc). apply children_spec in Hc as [Hc _].
    rewrite (Hdeg c Hc). eexists. split; [done|]. lia. }
  exists indegree', ready'. split.
  { revert Hrel. unfold file. by destruct (map_get id children). }
  assert (∀ x, x ∈ inc → paid x (O ++ [id]) = paid x O + if decide (x ∈ file children id) then 1 else 0) as Hpaid.
  { intros x Hx. rewrite paid_snoc. f_equal. pose proof (children_spec id x).
    destruct (decide (id ∈ inner x)), (decide (x ∈ file children id)); naive_solver. }
  split; [done..| | | |].
  - intros x [Hx| ->%list_elem_of_singleton]%elem_of_app; auto.
  - intros x Hx. rewrite Hg, (Hdeg x Hx), (Hpaid x Hx). case_decide; apply (f_equal Some); cbv beta; lia.
  - intros x. rewrite Hr. assert (x ∈ ready ↔ x ≠ id ∧ available O x) as ->.
    { rewrite <- Hav, elem_of_cons. split; [|naive_solver]. intros Hx. split; [|by right].
      intros ->. by apply (ord_lt_irrefl id), Hlt. }
    unfold available. destruct (decide (x ∈ inc)) as [Hx|Hx]; [|rewrite children_spec; naive_solver].
    rewrite (Hdeg x Hx), elem_of_app, list_elem_of_singleton, <- !paid_full by done. rewrite (Hpaid x Hx).
    pose proof (paid_le x O Hnd). destruct (decide (x ∈ file children id)) as [Hc|Hc].
    + pose proof (Hless x Hc). split; [intros [[_ (_ & _ & ?)]|[_ [= Heq]]]; [lia|]|].
      * split; [done|]. split; [|lia]. intros [HxO| ->].
        -- apply children_spec in Hc as [_ Hc]. by apply HidO, (stable_order_parents O x).
        -- apply children_spec in Hc as [_ Hc]. by apply HidO, Hidp.
      * intros (_ & _ & ?). right. split; [done|]. f_equal. lia.
    + split; [intros [(Hne & _ & HxO & ?)|[? _]]; [|done]|intros (_ & HxO & ?); left].
      * split; [done|]. split; [|lia]. naive_solver.
      * split; [naive_solver|]. split; [done|]. split; [naive_solver|lia].
  - apply stable_order_snoc; [done|done|]. intros y Hy. apply Hav in Hy. apply ord_le_lt.
    apply elem_of_cons in Hy as [->|Hy]; [by right|left; by apply Hlt].
Qed.
Lemma drain_spec fuel O indegree ready :
  length inc ≤ fuel + length O → Drained O indegree ready →
  ∃ O' indegree', drain fuel children indegree ready O = Derived O' ∧ Drained O' indegree' [].
Proof.
  revert O indegree ready. induction fuel as [|fuel IH]; intros O indegree ready Hfuel HD.
  - destruct ready as [|id ready]; [by exists O, indegree|]. exfalso.
    assert (available O id) as (Hinc & HO & _) by (apply (drained_available _ _ _ HD); by left).
    assert (length (id :: O) ≤ length inc); [|cbn in *; lia].
    apply submseteq_length, NoDup_submseteq; [constructor; [done|apply HD]|].
    intros x [->|Hx]%elem_of_cons; [done|by apply HD].
  - destruct ready as [|id ready]; [by exists O, indegree|]. cbn [drain].
    destruct (drained_step _ _ _ _ HD) as (indegree' & ready' & -> & HD'). cbn [mbind derivation_bind].
    apply IH; [|done]. rewrite length_app. cbn. lia.
Qed.
End drain.

(** Parents inside the slice, as a relation that must have no infinite descent. *)
Definition inner_parent p x : Prop := x ∈ inc ∧ p ∈ inner x.

Lemma drained_all O indegree :
  (∀ x, x ∈ inc → NoDup (inner x) ∧ Acc inner_parent x) → Drained O indegree [] → ∀ x, x ∈ inc → x ∈ O.
Proof.
  intros Hok HD x Hx. destruct (Hok x Hx) as [_ Hacc]. induction Hacc as [x _ IH].
  destruct (decide (x ∈ O)) as [|HO]; [done|]. exfalso.
  apply (not_elem_of_nil x), (drained_available _ _ _ HD). split_and!; [done|done|by apply Hok|].
  intros p Hp. apply IH; [done|by eapply inner_inc].
Qed.

(** It lists the whole slice in the stable order, and fails exactly when some
    atom has a repeated parent or the parents go round. *)
Lemma stable_topological_order_spec :
  match stable_topological_order atoms inc with
  | Derived ids => ids ≡ₚ inc ∧ stable_order ids
  | Refused e =>
      e = SliceDerivationError.CyclicAtomParents ∧
      ¬ (∀ x, x ∈ inc → NoDup (inner x) ∧ Acc inner_parent x)
  | Panicked | Exhausted => False
  end.
Proof.
  unfold stable_topological_order.
  destruct (zeros_spec inc [] ltac:(constructor)) as [Hmz Hgz].
  destruct (link_atoms_spec inc (fold_left (λ m id, map_insert id 0%N m) inc []) [])
    as (indegree & children & -> & Hm & Hf & Hg & Hc).
  { by apply ordered_nodup. }
  { done. }
  { intros x Hx. rewrite Hgz, decide_True by done. by eexists. }
  { done. }
  { split; [constructor|]. intros p. constructor. }
  cbn [mbind derivation_bind].
  assert (∀ x, map_get x indegree = if decide (x ∈ inc) then Some (len (inner x)) else None) as Hdeg.
  { intros x. rewrite Hg, Hgz. case_decide; [apply (f_equal Some); cbn; lia|done]. }
  assert (∀ p y, y ∈ file children p ↔ y ∈ inc ∧ p ∈ inner y) as Hch.
  { intros p y. rewrite Hc. split; [|by right]. by intros [?%not_elem_of_nil|?]. }
  match goal with |- context [drain _ _ _ ?r []] => set (ready := r) end.
  assert (Drained [] indegree ready) as HD.
  { subst ready. split.
    - done.
    - apply ordered_to_set.
    - constructor.
    - by intros x ?%not_elem_of_nil.
    - intros x Hx. rewrite Hdeg, decide_True by done. apply (f_equal Some). unfold len, paid. cbn. lia.
    - intros x. rewrite elem_of_to_set. unfold available. rewrite <- paid_full by constructor. unfold paid. cbn.
      rewrite list_elem_of_fmap. split.
      + intros ([y d] & -> & [Hd Hin]%list_elem_of_filter). cbn in *. subst. apply map_elem_get in Hin; [|done].
        rewrite Hdeg in Hin. case_decide; [|done]. injection Hin as Hin. unfold len in Hin.
        split; [done|]. split; [apply not_elem_of_nil|lia].
      + intros (Hx & _ & Hl). exists (x, 0%N). split; [done|]. apply list_elem_of_filter. split; [done|].
        apply map_elem_get; [done|]. rewrite Hdeg, decide_True by done. apply (f_equal Some). unfold len. lia.
    - intros O1 x O2 Heq. by destruct O1. }
  destruct (drain_spec children Hf Hch (length inc) [] _ _ ltac:(cbn; lia) HD) as (O & indegree' & -> & HD').
  cbn [mbind derivation_bind].
  pose proof (drained_nodup _ _ _ HD') as Hnd. pose proof (drained_inc _ _ _ HD') as Hinc.
  assert (O ⊆+ inc) as Hsub by (apply NoDup_submseteq; done).
  destruct (Nat.eqb_spec (length O) (length inc)) as [Hl|Hl]; cbn [negb refuse_if mbind derivation_bind].
  - split; [|apply HD']. apply submseteq_length_Permutation; [done|lia].
  - split; [done|]. intros Hok. apply Hl, Nat.le_antisymm; [by apply submseteq_length|].
    apply submseteq_length, NoDup_submseteq; [by apply ordered_nodup|]. by eapply drained_all.
Qed.
End order.
