(* ===== verification/SliceSound.v ===== *)
(** * Deriving slices: what ships, in which order, and when it fails *)

From Stdlib Require Import Strings.String.
From S2P Require Import Prelude Ordered Atom Predicates Slice SliceClosure SliceOrder.

Section slice.
Context `{FlowCrates} (to_vec : SliceBody → option (list byte)).

(** ** Specification *)

Section input.
Context (input : SliceDerivationInput).

(** Atoms of the candidate intents. *)
Definition chosen (x : AtomId) : Prop :=
  ∃ i ids, i ∈ candidate_intents input ∧ map_get i (intents input) = Some ids ∧ x ∈ ids.

(** Atoms the slice must account for: the chosen ones, and what the tests of
    shipped atoms exercise, with everything these descend from. *)
Definition concerned (x : AtomId) : Prop :=
  reached (atoms input) (needed (atoms input) (coverage input) chosen) x.

(** What ships: the concerned atoms all of whose ancestors are known. *)
Definition ships (x : AtomId) : Prop := concerned x ∧ coherent (atoms input) x.

Definition parents_of (x : AtomId) : list AtomId :=
  match map_get x (atoms input) with Some a => parents a | None => [] end.

(** Ships, is not listed yet, and all its parents are. *)
Definition next_candidate (listed : list AtomId) (x : AtomId) : Prop :=
  ships x ∧ x ∉ listed ∧ ∀ p, p ∈ parents_of x → p ∈ listed.

Record slice_spec (s : Slice) : Prop := {
  spec_atoms x : x ∈ body_atoms (slice_body s) ↔ ships x;
  spec_once : NoDup (body_atoms (slice_body s));
  spec_order before x after :
    body_atoms (slice_body s) = before ++ x :: after →
    next_candidate before x ∧ ∀ y, next_candidate before y → ord_le x y;
  spec_tests t :
    t ∈ body_required_tests (slice_body s) ↔ ∃ x, ships x ∧ exercised_by (coverage input) x t;
  spec_status :
    match body_status (slice_body s) with
    | SliceStatus.Blocked us =>
        us ≠ [] ∧ ordered us ∧ ∀ x p, (x, p) ∈ us ↔ concerned x ∧ missing (atoms input) x p
    | SliceStatus.Ready => (∀ x p, concerned x → ¬ missing (atoms input) x p) ∧ body_atoms (slice_body s) ≠ []
    | SliceStatus.Empty => (∀ x p, concerned x → ¬ missing (atoms input) x p) ∧ body_atoms (slice_body s) = []
    end;
  spec_intents : ordered (body_intents (slice_body s)) ∧
    ∀ i, i ∈ body_intents (slice_body s) ↔ i ∈ candidate_intents input;
  spec_id : ∃ bytes, to_vec (slice_body s) = Some bytes ∧ slice_id s = sha256_digest bytes
}.

(** When derivation refuses. *)
Definition refusal_spec (e : SliceDerivationError) : Prop :=
  match e with
  | SliceDerivationError.MissingIntent i => i ∈ candidate_intents input ∧ map_get i (intents input) = None
  | SliceDerivationError.MissingAtom x =>
      needed (atoms input) (coverage input) chosen x ∧ ¬ known (atoms input) x
  | SliceDerivationError.CyclicAtomParents =>
      (∃ x, concerned x ∧ on_cycle (atoms input) x) ∨ (∃ x, ships x ∧ ¬ NoDup (parents_of x))
  | SliceDerivationError.InvalidSliceId => False
  | SliceDerivationError.Serialize => ∃ body, to_vec body = None
  end.

(** ** The steps *)

Lemma seeds_of_intents_spec l seeds :
  (∀ i, i ∈ l → i ∈ candidate_intents input) → ordered seeds →
  match seeds_of_intents (atoms input) (intents input) l seeds with
  | Derived seeds' =>
      ordered seeds' ∧
      (∀ x, x ∈ seeds' ↔ x ∈ seeds ∨ ∃ i ids, i ∈ l ∧ map_get i (intents input) = Some ids ∧ x ∈ ids) ∧
      (∀ x, x ∈ seeds' → x ∈ seeds ∨ known (atoms input) x)
  | Refused e => refusal_spec e
  | Panicked | Exhausted => False
  end.
Proof.
  intros Hl. revert seeds. induction l as [|i l IH]; intros seeds Ho; cbn.
  { split_and!; [done| |by left]. intros x. split; [by left|]. by intros [?|(? & ? & ?%not_elem_of_nil & _)]. }
  destruct (map_get i (intents input)) as [ids|] eqn:Ei; cbn [ok_or_refuse mbind derivation_bind];
    [|split; [apply Hl; by left|done]].
  pose proof (add_seeds_spec (atoms input) ids seeds) as Hadd.
  destruct (add_seeds _ ids seeds) as [seeds1|e| |]; cbn [mbind derivation_bind]; [|..|done|done].
  - destruct Hadd as [Hk ->]. specialize (IH (λ j Hj, Hl j ltac:(by right)) _ (ordered_extend seeds ids Ho)).
    destruct (seeds_of_intents _ _ l _); try done. destruct IH as (Ho' & Hin & Hkn). split_and!; [done|..].
    + intros x. rewrite Hin, elem_of_set_extend. split.
      * intros [[?|Hx]|(j & js & Hj & ?)]; [by left|right; exists i, ids; split; [by left|done]|].
        right. exists j, js. split; [by right|done].
      * intros [?|(j & js & [->|Hj]%elem_of_cons & Hg & Hx)]; [auto| |right; by exists j, js].
        rewrite Ei in Hg. injection Hg as <-. auto.
    + intros x [[?|?]%elem_of_set_extend|?]%Hkn; auto.
  - destruct Hadd as (x & Hx & Hk & ->). split; [|done]. apply needed_chosen. exists i, ids.
    split; [apply Hl; by left|done].
Qed.

Lemma ships_parent x p : ships x → p ∈ parents_of x → ships p.
Proof.
  intros [Hc Hcoh] Hp. unfold parents_of in Hp. destruct (map_get x (atoms input)) as [a|] eqn:Ea;
    [|by apply not_elem_of_nil in Hp].
  assert (coherent (atoms input) p) as Hcp by (inversion Hcoh; simplify_eq; auto).
  split; [|done]. apply (reached_parent _ _ x); [done|]. exists a. split_and!; [done..|]. by apply coherent_known.
Qed.

(** Inside a set of what ships, all parents of an atom are inside. *)
Lemma inner_parents_of closure x :
  (∀ y, y ∈ closure ↔ ships y) → ships x → inner (atoms input) closure x = parents_of x.
Proof.
  intros Hc Hx. unfold inner, parents_of. destruct (map_get x (atoms input)) as [a|] eqn:Ea; [|done].
  assert (∀ p, p ∈ parents a → p ∈ closure) as Hall.
  { intros p Hp. apply Hc. eapply ships_parent; [exact Hx|]. unfold parents_of. by rewrite Ea. }
  induction (parents a) as [|p ps IH]; [done|]. rewrite filter_cons, decide_True by (apply Hall; by left).
  f_equal. apply IH. intros q Hq. apply Hall. by right.
Qed.

Lemma coherent_inner_acc closure x :
  coherent (atoms input) x → Acc (inner_parent (atoms input) closure) x.
Proof.
  induction 1 as [x a Ha Hps IH]. constructor. intros p [_ Hp]. unfold inner in Hp. rewrite Ha in Hp.
  by apply list_elem_of_filter in Hp as [_ ?%IH].
Qed.

Lemma order_spec closure :
  ordered closure → (∀ x, x ∈ closure ↔ ships x) →
  match stable_topological_order (atoms input) closure with
  | Derived order =>
      (∀ x, x ∈ order ↔ ships x) ∧ NoDup order ∧
      ∀ before x after, order = before ++ x :: after →
        next_candidate before x ∧ ∀ y, next_candidate before y → ord_le x y
  | Refused e => e = SliceDerivationError.CyclicAtomParents ∧ ∃ x, ships x ∧ ¬ NoDup (parents_of x)
  | Panicked | Exhausted => False
  end.
Proof.
  intros Ho Hc. pose proof (stable_topological_order_spec (atoms input) closure Ho) as Hspec.
  destruct (stable_topological_order _ closure) as [order|e| |].
  - destruct Hspec as [Hperm Hord]; [intros x [_ Hx]%Hc; by apply coherent_known|].
    assert (NoDup order) as Hnd by (rewrite Hperm; by apply ordered_nodup).
    assert (∀ x, ships x → NoDup (parents_of x)) as Hps.
    { intros x Hx. apply Hc in Hx as Hxc. rewrite <- Hperm in Hxc.
      apply list_elem_of_split in Hxc as (O1 & O2 & Heq). destruct (Hord O1 x O2 Heq) as [(_ & _ & Hn & _) _].
      by rewrite (inner_parents_of closure) in Hn. }
    assert (∀ O x, available (atoms input) closure O x ↔ next_candidate O x) as Hav.
    { intros O x. unfold available, next_candidate. rewrite Hc. split.
      - intros (Hx & HO & _ & Hp). by rewrite (inner_parents_of closure) in Hp.
      - intros (Hx & HO & Hp). rewrite (inner_parents_of closure) by done. auto. }
    split_and!; [intros x; by rewrite Hperm, Hc|done|]. intros before x after Heq.
    destruct (Hord before x after Heq) as [Hx Hmin]. split; [by apply Hav|]. intros y Hy. by apply Hmin, Hav.
  - destruct Hspec as [-> Hn]; [intros x [_ Hx]%Hc; by apply coherent_known|]. split; [done|].
    destruct (decide (Forall (λ x, NoDup (parents_of x)) closure)) as [Hall|Hex].
    + destruct Hn. intros x Hx. apply Hc in Hx as Hs. split; [|by apply coherent_inner_acc, Hs].
      rewrite (inner_parents_of closure) by done. rewrite Forall_forall in Hall. by apply Hall.
    + apply not_Forall_Exists, Exists_exists in Hex as (x & Hx%Hc & Hnx); [|apply _]. by exists x.
  - by apply Hspec; intros x [_ Hx]%Hc; apply coherent_known.
  - by apply Hspec; intros x [_ Hx]%Hc; apply coherent_known.
Qed.

(** Every derivation ends, in the slice or with a reason. *)
Lemma derive_slice_cases :
  match derive_slice to_vec input with
  | Derived slice => slice_spec slice
  | Refused e => refusal_spec e
  | Panicked | Exhausted => False
  end.
Proof.
  unfold derive_slice, sorted_unique.
  pose proof (seeds_of_intents_spec (to_set (candidate_intents input)) []
    (λ i Hi, proj1 (elem_of_to_set i (candidate_intents input)) Hi) ltac:(constructor)) as Hseeds.
  destruct (seeds_of_intents _ _ _ _) as [seeds|e| |]; cbn [mbind derivation_bind]; try done.
  destruct Hseeds as (Hos & Hins & Hkn).
  assert (∀ x, x ∈ seeds ↔ chosen x) as Hch.
  { intros x. rewrite Hins. unfold chosen. setoid_rewrite elem_of_to_set.
    split; [by intros [?%not_elem_of_nil|?]|by right]. }
  assert (loop_result (atoms input) (coverage input) chosen
    (close_coverage (close_fuel (atoms input)) (atoms input) (coverage input) seeds [] [] [])) as Hloop.
  { apply close_coverage_spec.
    - done.
    - constructor.
    - intros x. apply Hch.
    - intros x Hx. split; [by apply needed_chosen, Hch|]. by destruct (Hkn x Hx) as [?%not_elem_of_nil|?].
    - by intros x p ?%not_elem_of_nil.
    - left. unfold close_fuel, unvisited. pose proof (length_filter (λ x, x ∉ seeds) (map fst (atoms input))) as Hl.
      rewrite length_map in Hl. lia. }
  destruct (close_coverage _ _ _ _ _ _ _) as [[[closure tests] un]|[i|x| | |]| |]; cbn [mbind derivation_bind];
    try done; [|by left].
  destruct Hloop as (Hknown & Hacyc & Hclosure & Htests & Hun & Hoc & Hot & Hou).
  assert (∀ x, x ∈ closure ↔ ships x) as Hships by (intros x; apply Hclosure).
  pose proof (order_spec closure Hoc Hships) as Horder.
  destruct (stable_topological_order _ closure) as [order|e| |]; cbn [mbind derivation_bind];
    [|destruct Horder as [-> Hd]; by right|done|done].
  destruct Horder as (Hin & Hnd & Hord). unfold compute_slice_id.
  match goal with |- context [to_vec ?b] => set (body := b) end.
  destruct (to_vec body) as [bytes|] eqn:Ev; cbn [ok_or_refuse mbind derivation_bind]; [|by exists body].
  split; subst body; cbn [slice_body body_atoms body_required_tests body_status body_intents slice_id].
  - exact Hin.
  - exact Hnd.
  - exact Hord.
  - intros t. rewrite Htests. by setoid_rewrite Hships.
  - assert (un = [] → ∀ x p, concerned x → ¬ missing (atoms input) x p) as Hnone.
    { intros -> x p Hc Hm. apply (not_elem_of_nil (x, p)), Hun. done. }
    destruct un as [|u us]; [|done]. destruct order; (split; [by apply Hnone|done]).
  - split; [apply ordered_to_set|]. intros i. apply elem_of_to_set.
  - exists bytes. split; [done|]. reflexivity.
Qed.
End input.
End slice.

(** The input with other candidate intents. *)
Definition with_candidates `{FlowCrates} (l : list IntentId) (input : SliceDerivationInput) : SliceDerivationInput :=
  mkInput (atoms input) (intents input) l (coverage input) (invariants_applied input) (approval_chain input)
    (base_ref input).

(** C33: A derived slice ships exactly the concerned atoms all of whose ancestors
    are known, each once, parents first and always the least atom that may come
    next, with exactly the tests that cover them; it is blocked exactly when a
    concerned atom has an unknown parent, and reports each such parent. The
    slice depends on the set of candidate intents, not on their order or
    repetition. *)
Theorem derive_slice_ships `{FlowCrates} to_vec input slice :
  derive_slice to_vec input = Derived slice →
  slice_spec to_vec input slice ∧
  ∀ candidates, (∀ i, i ∈ candidates ↔ i ∈ candidate_intents input) →
    derive_slice to_vec (with_candidates candidates input) = Derived slice.
Proof.
  intros Hd. pose proof (derive_slice_cases to_vec input) as Hcases. rewrite Hd in Hcases.
  split; [exact Hcases|]. intros candidates Hsame. rewrite <- Hd.
  assert (to_set candidates = to_set (candidate_intents input)) as Heq.
  { apply ordered_ext; [apply ordered_to_set..|]. intros i. by rewrite !elem_of_to_set. }
  unfold derive_slice, sorted_unique, with_candidates.
  cbn [candidate_intents atoms intents coverage invariants_applied approval_chain base_ref]. by rewrite Heq.
Qed.

(** Deriving a slice always ends, and refuses only with a reason: an
    unknown candidate intent, an unknown atom that is chosen or exercised, a
    cycle among concerned atoms or a shipped atom that lists a parent twice, or
    a body that does not serialise. *)
Theorem derive_slice_refuses `{FlowCrates} to_vec input :
  match derive_slice to_vec input with
  | Derived _ => True
  | Refused e => refusal_spec to_vec input e
  | Panicked | Exhausted => False
  end.
Proof. pose proof (derive_slice_cases to_vec input). by destruct (derive_slice to_vec input). Qed.

(** C34: Progress: when every candidate intent and every atom that is chosen or
    exercised is known, no concerned atom lies on a cycle, shipped atoms list
    their parents once and bodies serialise, there is a slice. *)
Theorem derive_slice_progress `{FlowCrates} to_vec input :
  (∀ i, i ∈ candidate_intents input → is_Some (map_get i (intents input))) →
  (∀ x, needed (atoms input) (coverage input) (chosen input) x → known (atoms input) x) →
  (∀ x, concerned input x → ¬ on_cycle (atoms input) x) →
  (∀ x, ships input x → NoDup (parents_of input x)) →
  (∀ body, is_Some (to_vec body)) →
  ∃ slice, derive_slice to_vec input = Derived slice.
Proof.
  intros Hi Hx Hc Hp Hb. pose proof (derive_slice_cases to_vec input) as Hcases.
  destruct (derive_slice to_vec input) as [slice|[i|x| | |]| |]; [by exists slice|exfalso..|done|done]; cbn in Hcases.
  - destruct Hcases as [Hin Hn]. destruct (Hi i Hin). congruence.
  - destruct Hcases as [Hn Hk]. by apply Hk, Hx.
  - destruct Hcases as [(x & Hx1 & Hx2)|(x & Hx1 & Hx2)]; [by eapply Hc|by apply Hx2, Hp].
  - done.
  - destruct Hcases as [body Hn]. destruct (Hb body). congruence.
Qed.

(** ** Examples *)

Section examples.
#[local] Existing Instance sample_crates.

(** An atom that is only its parents; names are one byte long here. *)
Definition plain_atom (id : AtomId) (parents : list AtomId) : Atom :=
  mkAtom id [] parents sample_provenance (mkAtomSignature [] [] [] []) None.

Definition named (n : N) : AtomId := [n2b n].

Definition sample_history : omap AtomId Atom :=
  map (λ e, (named e.1, plain_atom (named e.1) (map named e.2)))
    [(1, []); (2, []); (3, [2; 1]); (4, [2]); (5, [9])]%N.

Definition sample_coverage : CoverageMap :=
  coverage_insert (named 4) "test:flow" (coverage_insert (named 3) "test:flow" (mkCoverage [] [])).

Definition sample_input (ids : list N) : SliceDerivationInput :=
  mkInput sample_history [(named 0, map named ids)] [named 0; named 0] sample_coverage [] [] (named 0).

Definition no_bytes : SliceBody → option (list byte) := λ _, Some [].

Lemma derive_slice_ships_witness :
  ∃ slice, derive_slice no_bytes (sample_input [3%N]) = Derived slice ∧
    body_atoms (slice_body slice) = map named [1; 2; 3; 4]%N ∧ slice_spec no_bytes (sample_input [3%N]) slice.
Proof.
  assert (match derive_slice no_bytes (sample_input [3%N]) with
    | Derived slice => body_atoms (slice_body slice) = map named [1; 2; 3; 4]%N
    | _ => False
    end) as Hs by (vm_compute; reflexivity).
  destruct (derive_slice no_bytes (sample_input [3%N])) as [slice|e| |] eqn:Ed; [|destruct Hs..].
  exists slice. split; [reflexivity|]. split; [exact Hs|]. exact (proj1 (derive_slice_ships _ _ _ Ed)).
Defined.

(** Listing a parent twice makes derivation report a cycle where there is none. *)
Definition repeated_history : omap AtomId Atom :=
  [(named 1, plain_atom (named 1) []); (named 2, plain_atom (named 2) [named 1; named 1])].

Definition repeated_input : SliceDerivationInput :=
  mkInput repeated_history [(named 0, [named 2])] [named 0] (mkCoverage [] []) [] [] (named 0).

Lemma repeated_history_coherent : coherent repeated_history (named 2).
Proof.
  assert (coherent repeated_history (named 1)) as H1.
  { eapply coherent_intro; [reflexivity|]. by intros p ?%not_elem_of_nil. }
  eapply coherent_intro; [reflexivity|]. cbn.
  intros p [->|[->|?%not_elem_of_nil]%elem_of_cons]%elem_of_cons; done.
Qed.

Lemma repeated_parent_refused :
  derive_slice no_bytes repeated_input = Refused SliceDerivationError.CyclicAtomParents ∧
  ¬ on_cycle repeated_history (named 2).
Proof. split; [vm_compute; reflexivity|]. apply coherent_acyclic, repeated_history_coherent. Qed.

Definition root_history : omap AtomId Atom := [(named 1, plain_atom (named 1) [])].
Definition root_input : SliceDerivationInput :=
  mkInput root_history [(named 0, [named 1])] [named 0] (mkCoverage [] []) [] [] (named 0).

Lemma root_get x a : map_get x root_history = Some a → x = named 1 ∧ a = plain_atom (named 1) [].
Proof. unfold root_history. cbn [map_get]. case_decide; [by intros [= <-]|done]. Qed.

Lemma root_needed x : needed root_history (mkCoverage [] []) (chosen root_input) x → x = named 1.
Proof.
  induction 1 as [x (i & ids & _ & Hi & Hx)|s x t y _ _ _ _ Ht _]; [|by apply not_elem_of_nil in Ht].
  cbn in Hi. case_decide; [|done]. injection Hi as <-. by apply list_elem_of_singleton in Hx.
Qed.

Lemma derive_slice_progress_witness : ∃ slice, derive_slice no_bytes root_input = Derived slice.
Proof.
  apply derive_slice_progress.
  - intros i ->%list_elem_of_singleton. by eexists.
  - intros x ->%root_needed. by eexists.
  - intros x (s & ->%root_needed & Hr). apply coherent_acyclic.
    apply rtc_inv in Hr as [<-|(p & (a & Ha & Hp & _) & _)].
    + eapply coherent_intro; [reflexivity|]. by intros p ?%not_elem_of_nil.
    + apply root_get in Ha as [_ ->]. by apply not_elem_of_nil in Hp.
  - intros x _. unfold parents_of. cbn [atoms root_input].
    destruct (map_get x root_history) as [a|] eqn:Ha; [apply root_get in Ha as [_ ->]|]; constructor.
  - intros body. by eexists.
Defined.
End examples.
