(* ===== verification/Glob.v ===== *)
(** * Glob matching ([harn-glob/src/lib.rs])

    The three matchers of the workspace: [match_path] on bytes with backtracking,
    [match_prose] greedily on segments, [match_name] through the [globset] crate
    (a parameter) with shortcuts and a cache. Against them: the meaning of path
    globs on characters, and of prose patterns as gaps between segments. *)

From Stdlib Require Import Strings.String Strings.Ascii.
From S2P Require Import Prelude Split Ordered Program Text.

Definition STAR : byte := Byte.x2a.
Definition QUESTION : byte := Byte.x3f.
Definition SLASH : byte := Byte.x2f.

(** ** [match_path] *)

(** [u8::leading_ones] *)
Fixpoint ones_from (bits : nat) (n : N) : nat :=
  match bits with
  | O => 0
  | S bits => if N.testbit n (N.of_nat bits) then S (ones_from bits n) else 0
  end.
Definition leading_ones (b : byte) : nat := ones_from 8 (b2n b).

(** [byte & 0xC0 == 0x80] *)
Definition mid_char (path : list byte) : bool :=
  match path with b :: _ => (N.land (b2n b) 192 =? 128)%N | [] => false end.

Section match_path.
Variable continue_ : list byte → bool.

(** The loop of [**/]: here, or after any separator. *)
Fixpoint after_directory (path : list byte) : bool :=
  match path with
  | [] => false
  | c :: path => (bool_decide (c = SLASH) && continue_ path) || after_directory path
  end.

(** The loop of [*] and [**]: at every character boundary up to a separator, or
    to the end. *)
Fixpoint after_run (double : bool) (path : list byte) : bool :=
  (negb (mid_char path) && continue_ path) ||
  match path with
  | [] => false
  | c :: path => if negb double && bool_decide (c = SLASH) then false else after_run double path
  end.
End match_path.

(** [match_path_bytes] on what is left of the pattern and of the path. *)
Fixpoint match_path_bytes (pat path : list byte) : bool :=
  match pat with
  | [] => match path with [] => true | _ => false end
  | c :: pat =>
      if bool_decide (c = STAR) then
        match pat with
        | [] => negb (bool_decide (SLASH ∈ path))
        | c' :: pat' =>
            if bool_decide (c' = STAR) then
              match pat' with
              | [] => true
              | c'' :: pat'' =>
                  if bool_decide (c'' = SLASH)
                  then match_path_bytes pat'' path || after_directory (match_path_bytes pat'') path
                  else after_run (match_path_bytes pat') true path
              end
            else after_run (match_path_bytes pat) false path
        end
      else if bool_decide (c = QUESTION) then
        match path with
        | [] => false
        | b :: _ =>
            if bool_decide (b = SLASH) then false
            else match_path_bytes pat (drop (Nat.max (leading_ones b) 1) path)
        end
      else
        match path with
        | b :: path => if bool_decide (b = c) then match_path_bytes pat path else false
        | [] => false
        end
  end.

(** [match_path] *)
Definition match_path (pattern path : string) : bool :=
  match_path_bytes (as_bytes pattern) (as_bytes path).

(** ** [match_prose] *)

Definition STAR_CHAR : Ascii.ascii := "*"%char.
Definition split_star : string → list string := split_on STAR_CHAR.

(** The segments after the first one. *)
Fixpoint match_segments (segments : list string) (remaining : string) : bool :=
  match segments with
  | [] => true
  | [last] => if String.eqb last "" then true else ends_with_text remaining last
  | segment :: segments =>
      if String.eqb segment "" then match_segments segments remaining
      else match after_first segment remaining with
           | Some rest => match_segments segments rest
           | None => false
           end
  end.

(** [match_prose] *)
Definition match_prose (pattern text : string) : bool :=
  if String.eqb pattern "*" then true
  else if negb (str_contains pattern "*") then String.eqb pattern text
  else
    match split_star pattern with
    | [] => true
    | first :: segments =>
        if String.eqb first "" then match_segments segments text
        else match strip_prefix first text with
             | Some remaining => match_segments segments remaining
             | None => false
             end
    end.

(** ** The meaning of path globs *)

(** A character is its bytes: a lead byte and as many continuation bytes as its
    leading ones announce. *)
Definition char_ok (c : list byte) : Prop :=
  match c with
  | b :: tail =>
      is_continuation b = false ∧ length c = Nat.max (leading_ones b) 1 ∧
      Forall (λ t, is_continuation t = true) tail
  | [] => False
  end.

Inductive Glob :=
  | Star
  | DoubleStar
  | Directories
  | AnyChar
  | Literal (c : list byte).

(** How [match_path] reads a pattern, left to right: [**/], [**], [*], [?], and
    other characters. *)
Fixpoint glob_tokens (pattern : list (list byte)) : list Glob :=
  match pattern with
  | [] => []
  | c :: pattern =>
      if decide (c = [STAR]) then
        match pattern with
        | c' :: pattern' =>
            if decide (c' = [STAR]) then
              match pattern' with
              | c'' :: pattern'' =>
                  if decide (c'' = [SLASH]) then Directories :: glob_tokens pattern''
                  else DoubleStar :: glob_tokens pattern'
              | [] => [DoubleStar]
              end
            else Star :: glob_tokens pattern
        | [] => [Star]
        end
      else if decide (c = [QUESTION]) then AnyChar :: glob_tokens pattern
      else Literal c :: glob_tokens pattern
  end.

(** How the documentation reads it: only a [**/] that begins a segment stands for
    directories; after anything else in a segment it is [**] and a separator. *)
Fixpoint documented_tokens (start : bool) (pattern : list (list byte)) : list Glob :=
  match pattern with
  | [] => []
  | c :: pattern =>
      if decide (c = [STAR]) then
        match pattern with
        | c' :: pattern' =>
            if decide (c' = [STAR]) then
              match pattern' with
              | c'' :: pattern'' =>
                  if decide (c'' = [SLASH]) then
                    (if start then [Directories] else [DoubleStar; Literal [SLASH]]) ++
                    documented_tokens true pattern''
                  else DoubleStar :: documented_tokens false pattern'
              | [] => [DoubleStar]
              end
            else Star :: documented_tokens false pattern
        | [] => [Star]
        end
      else if decide (c = [QUESTION]) then AnyChar :: documented_tokens false pattern
      else Literal c :: documented_tokens (bool_decide (c = [SLASH])) pattern
  end.

(** Every [**/] of the pattern begins a segment. *)
Fixpoint directories_lead (start : bool) (pattern : list (list byte)) : bool :=
  match pattern with
  | [] => true
  | c :: pattern =>
      if decide (c = [STAR]) then
        match pattern with
        | c' :: pattern' =>
            if decide (c' = [STAR]) then
              match pattern' with
              | c'' :: pattern'' =>
                  if decide (c'' = [SLASH]) then start && directories_lead true pattern''
                  else directories_lead false pattern'
              | [] => true
              end
            else directories_lead false pattern
        | [] => true
        end
      else if decide (c = [QUESTION]) then directories_lead false pattern
      else directories_lead (bool_decide (c = [SLASH])) pattern
  end.

(** Which character sequences a glob matches. *)
Inductive Matches : list Glob → list (list byte) → Prop :=
  | matches_end : Matches [] []
  | matches_literal c gs path : Matches gs path → Matches (Literal c :: gs) (c :: path)
  | matches_any c gs path : c ≠ [SLASH] → Matches gs path → Matches (AnyChar :: gs) (c :: path)
  | matches_star run gs path : Forall (λ c, c ≠ [SLASH]) run → Matches gs path → Matches (Star :: gs) (run ++ path)
  | matches_double run gs path : Matches gs path → Matches (DoubleStar :: gs) (run ++ path)
  | matches_no_directory gs path : Matches gs path → Matches (Directories :: gs) path
  | matches_directories dirs gs path :
      Matches gs path → Matches (Directories :: gs) (dirs ++ [SLASH] :: path).

(** ** Characters in bytes *)

Lemma mid_char_continuation b path : mid_char (b :: path) = is_continuation b.
Proof. by destruct b. Qed.

Lemma slash_not_continuation : is_continuation SLASH = false.
Proof. reflexivity. Qed.

Lemma ascii_char_ok b : (b2n b < 128)%N → char_ok [b].
Proof. destruct b; cbn; intros Hb; try (by vm_compute in Hb); repeat split; constructor. Qed.

Lemma byte_in_continuation lo hi b :
  (128 <= lo)%N → (hi <= 191)%N → byte_in lo hi b = true → is_continuation b = true.
Proof.
  unfold is_continuation, byte_in. rewrite !andb_true_iff, !N.leb_le. lia.
Qed.

(** Lead bytes announce the length of their character. *)
Lemma lead_two b : byte_in 194 223 b = true → is_continuation b = false ∧ leading_ones b = 2.
Proof. by destruct b. Qed.
Lemma lead_three b : byte_in 224 239 b = true → is_continuation b = false ∧ leading_ones b = 3.
Proof. by destruct b. Qed.
Lemma lead_four b : byte_in 240 244 b = true → is_continuation b = false ∧ leading_ones b = 4.
Proof. by destruct b. Qed.

Lemma byte_in_sub lo hi lo' hi' b :
  (lo' <= lo)%N → (hi <= hi')%N → byte_in lo hi b = true → byte_in lo' hi' b = true.
Proof. unfold byte_in. rewrite !andb_true_iff, !N.leb_le. lia. Qed.

Ltac split_bytes := repeat match goal with H : _ && _ = true |- _ => apply andb_true_iff in H as [? H] end.
Ltac bytes_in :=
  solve [assumption
    | eapply byte_in_continuation; [| |eassumption]; lia
    | eapply byte_in_sub; [| |eassumption]; lia].

(** Valid UTF-8 is a sequence of characters. *)
Lemma utf8_chars bs : utf8_valid bs = true → ∃ cs, bs = concat cs ∧ Forall char_ok cs.
Proof.
  remember (length bs) as n eqn:Hn. revert bs Hn. induction (lt_wf n) as [n _ IH]. intros bs -> Hv.
  destruct bs as [|b0 r0]; [by exists []|].
  assert (∀ c rest, b0 :: r0 = c ++ rest → char_ok c → utf8_valid rest = true →
    ∃ cs, b0 :: r0 = concat cs ∧ Forall char_ok cs) as Hstep.
  { intros c rest Heq Hc Hrest. destruct (IH (length rest)) with (bs := rest) as (cs & -> & Hcs); [|done|done|].
    - rewrite Heq, length_app. destruct c; [done|]. cbn. lia.
    - exists (c :: cs). split; [done|by constructor]. }
  clear IH. cbn [utf8_valid] in Hv.
  destruct (byte_in 0 127 b0) eqn:E0.
  { apply (Hstep [b0] r0); [done| |done]. apply ascii_char_ok. unfold byte_in in E0. reflect_bools. lia. }
  destruct r0 as [|b1 r1]; [done|]. destruct (byte_in 194 223 b0) eqn:E2.
  { apply lead_two in E2 as [Hl Hn]. split_bytes. apply (Hstep [b0; b1] r1); [done| |done].
    cbn [char_ok length]. rewrite Hn. repeat constructor; bytes_in. }
  destruct r1 as [|b2 r2]; [done|].
  assert (byte_in 224 239 b0 = true → is_continuation b1 = true → is_continuation b2 = true →
    utf8_valid r2 = true → ∃ cs, b0 :: b1 :: b2 :: r2 = concat cs ∧ Forall char_ok cs) as Hthree.
  { intros [Hl Hn]%lead_three H1 H2 Hr. apply (Hstep [b0; b1; b2] r2); [done| |done].
    cbn [char_ok length]. rewrite Hn. by repeat constructor. }
  destruct (byte_in 224 224 b0) eqn:E3; [split_bytes; apply Hthree; bytes_in|].
  destruct (byte_in 237 237 b0) eqn:E4; [split_bytes; apply Hthree; bytes_in|].
  destruct (byte_in 225 239 b0) eqn:E5; [split_bytes; apply Hthree; bytes_in|].
  destruct r2 as [|b3 r3]; [done|].
  assert (byte_in 240 244 b0 = true → is_continuation b1 = true → is_continuation b2 = true →
    is_continuation b3 = true → utf8_valid r3 = true →
    ∃ cs, b0 :: b1 :: b2 :: b3 :: r3 = concat cs ∧ Forall char_ok cs) as Hfour.
  { intros [Hl Hn]%lead_four H1 H2 H3 Hr. apply (Hstep [b0; b1; b2; b3] r3); [done| |done].
    cbn [char_ok length]. rewrite Hn. by repeat constructor. }
  destruct (byte_in 240 240 b0) eqn:E6; [split_bytes; apply Hfour; bytes_in|].
  destruct (byte_in 241 243 b0) eqn:E7; [split_bytes; apply Hfour; bytes_in|].
  destruct (byte_in 244 244 b0) eqn:E8; [split_bytes; apply Hfour; bytes_in|done].
Qed.

Lemma char_groups_concat cs : Forall char_ok cs → char_groups (concat cs) = cs.
Proof.
  induction 1 as [|[|b tail] cs Hc Hcs IH]; [done|done|]. destruct Hc as (_ & _ & Htail). cbn [concat].
  assert (∀ b, char_groups (b :: tail ++ concat cs) = (b :: tail) :: cs) as Hg; [|apply Hg]. clear b.
  induction Htail as [|t tail Ht _ IHt]; intros b.
  - cbn [app char_groups]. rewrite IH. destruct Hcs as [|[|c g] cs Hc Hcs]; [done|done|].
    by destruct Hc as [-> _].
  - change (char_groups (b :: (t :: tail) ++ concat cs)) with
      (match char_groups (t :: tail ++ concat cs) with
       | (c :: g) :: gs => if is_continuation c then (b :: c :: g) :: gs else [b] :: (c :: g) :: gs
       | gs => [b] :: gs
       end).
    by rewrite IHt, Ht.
Qed.

Lemma str_wf_groups s :
  str_wf s → as_bytes s = concat (char_groups (as_bytes s)) ∧ Forall char_ok (char_groups (as_bytes s)).
Proof. intros (cs & -> & Hcs)%utf8_chars. by rewrite char_groups_concat. Qed.

(** The characters of a text are found from any side. *)
Lemma char_unique c cs rest :
  char_ok c → Forall char_ok cs → concat cs = c ++ rest → ∃ cs', cs = c :: cs' ∧ rest = concat cs'.
Proof.
  intros Hc Hcs Heq. destruct Hcs as [|d cs Hd Hcs]; [by destruct c|]. cbn [concat] in Heq.
  assert (c = d) as ->; [|exists cs; split; [done|by apply app_inv_head in Heq]].
  destruct c as [|b c], d as [|b' d]; try done. cbn [app] in Heq. injection Heq as -> Heq.
  destruct Hc as (_ & Hc & _), Hd as (_ & Hd & _). f_equal. cbn [length] in Hc, Hd.
  assert (length c = length d) as Hl by lia. apply (f_equal (take (length c))) in Heq.
  rewrite take_app_length, Hl, take_app_length in Heq. done.
Qed.

Lemma slash_char_ok : char_ok [SLASH].
Proof. by apply ascii_char_ok. Qed.

(** A character other than the separator has no separator byte. *)
Lemma char_slash c : char_ok c → SLASH ∈ c ↔ c = [SLASH].
Proof.
  intros Hc. split; [|intros ->; by left]. destruct c as [|b tail]; [done|]. destruct Hc as (Hb & Hl & Htail).
  intros [<-|Hin]%elem_of_cons.
  - cbn in Hl. by destruct tail.
  - rewrite Forall_forall in Htail. by apply Htail in Hin.
Qed.

Lemma concat_slash cs : Forall char_ok cs → SLASH ∈ concat cs ↔ [SLASH] ∈ cs.
Proof.
  induction 1 as [|c cs Hc Hcs IH]; cbn; [by split; intros ?%not_elem_of_nil|].
  rewrite elem_of_app, elem_of_cons, IH, char_slash by done. naive_solver.
Qed.

(** ** The loops *)

Section loops.
Variable continue_ : list byte → bool.

Lemma after_directory_skip c path : SLASH ∉ c → after_directory continue_ (c ++ path) = after_directory continue_ path.
Proof.
  induction c as [|b c IH]; cbn; [done|]. rewrite elem_of_cons. intros Hb.
  rewrite bool_decide_false by naive_solver. apply IH. naive_solver.
Qed.

Lemma after_directory_spec cs :
  Forall char_ok cs →
  after_directory continue_ (concat cs) = true ↔
  ∃ dirs rest, cs = dirs ++ [SLASH] :: rest ∧ continue_ (concat rest) = true.
Proof.
  induction 1 as [|c cs Hc Hcs IH]; cbn [concat].
  { split; [done|]. by intros ([|] & ? & ? & _). }
  destruct (decide (c = [SLASH])) as [->|Hne].
  - cbn [app after_directory]. rewrite bool_decide_true by done. cbn [andb]. rewrite orb_true_iff, IH. split.
    + intros [Hk|(dirs & rest & -> & Hk)]; [by exists [], cs|by exists ([SLASH] :: dirs), rest].
    + intros (dirs & rest & Heq & Hk). destruct dirs as [|d dirs]; [injection Heq as ->; by left|].
      injection Heq as <- ->. right. by exists dirs, rest.
  - rewrite after_directory_skip by (by rewrite char_slash). rewrite IH. split.
    + intros (dirs & rest & -> & Hk). by exists (c :: dirs), rest.
    + intros (dirs & rest & Heq & Hk). destruct dirs as [|d dirs]; [by injection Heq as -> ->|].
      injection Heq as <- ->. by exists dirs, rest.
Qed.

Lemma after_run_tail double tail path :
  Forall (λ t, is_continuation t = true) tail →
  after_run continue_ double (tail ++ path) = after_run continue_ double path.
Proof.
  induction 1 as [|t tail Ht _ IH]; [done|]. cbn [app after_run]. rewrite mid_char_continuation, Ht. cbn [negb andb orb].
  rewrite (bool_decide_false (t = SLASH)); [by rewrite andb_false_r|]. intros ->. by rewrite slash_not_continuation in Ht.
Qed.

Lemma mid_char_concat cs : Forall char_ok cs → mid_char (concat cs) = false.
Proof.
  intros [|[|b tail] cs' Hc _]; [done|done|]. cbn [concat app]. rewrite mid_char_continuation. by destruct Hc.
Qed.

Lemma after_run_spec double cs :
  Forall char_ok cs →
  after_run continue_ double (concat cs) = true ↔
  ∃ run rest, cs = run ++ rest ∧ (double = true ∨ Forall (λ c, c ≠ [SLASH]) run) ∧
    continue_ (concat rest) = true.
Proof.
  induction 1 as [|c cs Hc Hcs IH].
  { cbn. rewrite orb_false_r. split; [intros Hk; exists [], []; auto|].
    intros (run & rest & Heq & _ & Hk). by apply symmetry, app_eq_nil in Heq as [-> ->]. }
  assert (Forall char_ok (c :: cs)) as Hall by by constructor.
  assert (after_run continue_ double (concat (c :: cs)) = true ↔
    continue_ (concat (c :: cs)) = true ∨ (negb double && bool_decide (c = [SLASH])) = false ∧
      after_run continue_ double (concat cs) = true) as ->.
  { pose proof (mid_char_concat _ Hall) as Hmid. destruct c as [|b tail]; [done|]. destruct Hc as (Hb & Hl & Htail).
    cbn [concat app after_run] in *. rewrite Hmid, orb_true_iff. cbn [negb andb].
    rewrite after_run_tail by done.
    assert (bool_decide (b = SLASH) = bool_decide (b :: tail = [SLASH])) as ->.
    { apply bool_decide_ext. split; [|by intros [= -> _]]. intros ->. destruct tail; [done|]. by cbn in Hl. }
    destruct (negb double && _); naive_solver. }
  rewrite IH. split.
  - intros [Hk|(Hs & run & rest & -> & Hrun & Hk)]; [exists [], (c :: cs); auto|].
    exists (c :: run), rest. split; [done|]. split; [|done]. destruct Hrun as [->|Hrun]; [by left|].
    destruct double; [by left|right]. constructor; [|done]. cbn in Hs. by apply bool_decide_eq_false in Hs.
  - intros (run & rest & Heq & Hrun & Hk). destruct run as [|d run]; [left; by rewrite Heq|right].
    injection Heq as <- ->. split; [|exists run, rest; split; [done|split; [|done]]].
    + destruct Hrun as [->|Hrun]; [done|]. apply Forall_cons in Hrun as [Hd _].
      by rewrite bool_decide_false, andb_false_r.
    + destruct Hrun as [?|Hrun]; [by left|right]. by apply Forall_cons in Hrun as [_ Hrun].
Qed.
End loops.

(** ** [match_path] means what the glob says *)

Lemma matches_nil gs : Matches [] gs ↔ gs = [].
Proof. split; [by inversion 1|intros ->; constructor]. Qed.

Lemma matches_cons t ts gs :
  Matches (t :: ts) gs ↔
  match t with
  | Literal c => ∃ rest, gs = c :: rest ∧ Matches ts rest
  | AnyChar => ∃ c rest, gs = c :: rest ∧ c ≠ [SLASH] ∧ Matches ts rest
  | Star => ∃ run rest, gs = run ++ rest ∧ Forall (λ c, c ≠ [SLASH]) run ∧ Matches ts rest
  | DoubleStar => ∃ run rest, gs = run ++ rest ∧ Matches ts rest
  | Directories => Matches ts gs ∨ ∃ dirs rest, gs = dirs ++ [SLASH] :: rest ∧ Matches ts rest
  end.
Proof.
  split.
  - inversion 1; subst; eauto 8.
  - destruct t.
    + intros (run & rest & -> & ? & ?). by constructor.
    + intros (run & rest & -> & ?). by constructor.
    + intros [?|(dirs & rest & -> & ?)]; by constructor.
    + intros (c & rest & -> & ? & ?). by constructor.
    + intros (rest & -> & ?). by constructor.
Qed.

(** An ASCII lead byte is the whole character. *)
Lemma ascii_alone b tail : (b2n b < 128)%N → char_ok (b :: tail) → tail = [].
Proof.
  intros Hb (_ & Hl & _). destruct tail as [|t tail]; [done|]. exfalso. cbn [length] in Hl.
  assert (leading_ones b = 0) as Hz by (revert Hb; destruct b; cbn; intros Hb; done). rewrite Hz in Hl. cbn in Hl. lia.
Qed.

Lemma literal_spec c rest path :
  char_ok c → c ≠ [STAR] → c ≠ [QUESTION] →
  match_path_bytes (c ++ rest) path = true ↔ ∃ path', path = c ++ path' ∧ match_path_bytes rest path' = true.
Proof.
  intros Hc Hs Hq. assert (Forall (λ b, b ≠ STAR ∧ b ≠ QUESTION) c) as Hplain.
  { destruct c as [|b tail]; [done|]. pose proof Hc as (Hb & _ & Htail). constructor.
    - split; intros ->; apply ascii_alone in Hc as ->; done.
    - eapply Forall_impl; [exact Htail|]. intros t Ht. split; intros ->; by vm_compute in Ht. }
  clear Hc Hs Hq. revert path. induction Hplain as [|b c [Hs Hq] _ IH]; intros path.
  { split; [intros Hm; by exists path|by intros (path' & -> & Hm)]. }
  cbn [app match_path_bytes]. rewrite !bool_decide_false by done. destruct path as [|b' path].
  { split; [done|]. by intros (path' & ? & _). }
  case_bool_decide as Hb.
  - subst b'. rewrite IH. split; intros (path' & Heq & Hm); exists path'; [by subst|by injection Heq as ->].
  - split; [done|]. intros (path' & Heq & _). by injection Heq as -> _.
Qed.

Lemma concat_empty cs : Forall char_ok cs → concat cs = [] → cs = [].
Proof. intros [|[|b tail] cs' Hc _]; done. Qed.

(** The bytes of a pattern that continues begin with its first character. *)
Lemma ascii_head b c cs tail :
  (b2n b < 128)%N → char_ok c → concat (c :: cs) = b :: tail → c = [b] ∧ tail = concat cs.
Proof.
  intros Hb Hc Heq. destruct c as [|b' c]; [done|]. cbn [concat app] in Heq. injection Heq as -> <-.
  by apply ascii_alone in Hc as ->.
Qed.

Lemma head_other b0 c cs :
  (b2n b0 < 128)%N → char_ok c → c ≠ [b0] → ∃ b tail, concat (c :: cs) = b :: tail ∧ b ≠ b0.
Proof.
  intros Hb Hc Hne. destruct c as [|b c]; [done|]. exists b, (c ++ concat cs). split; [done|].
  intros ->. by apply ascii_alone in Hc as ->.
Qed.

Lemma after_directories_spec k gs :
  Forall char_ok gs →
  k (concat gs) || after_directory k (concat gs) = true ↔
  k (concat gs) = true ∨ ∃ dirs rest, gs = dirs ++ [SLASH] :: rest ∧ k (concat rest) = true.
Proof. intros Hgs. by rewrite orb_true_iff, after_directory_spec. Qed.

(** The function on a pattern that begins with a star. *)
Lemma match_star_cons b pat path :
  match_path_bytes (STAR :: b :: pat) path =
    if bool_decide (b = STAR) then
      match pat with
      | [] => true
      | c :: pat' =>
          if bool_decide (c = SLASH)
          then match_path_bytes pat' path || after_directory (match_path_bytes pat') path
          else after_run (match_path_bytes pat) true path
      end
    else after_run (match_path_bytes (b :: pat)) false path.
Proof. reflexivity. Qed.

Section induction_step.
Variable bound : nat.
Hypothesis IH : ∀ ps gs, length ps ≤ bound → Forall char_ok ps → Forall char_ok gs →
  match_path_bytes (concat ps) (concat gs) = true ↔ Matches (glob_tokens ps) gs.

Lemma match_run_spec double ps gs :
  length ps ≤ bound → Forall char_ok ps → Forall char_ok gs →
  after_run (match_path_bytes (concat ps)) double (concat gs) = true ↔
  ∃ run rest, gs = run ++ rest ∧ (double = true ∨ Forall (λ c, c ≠ [SLASH]) run) ∧ Matches (glob_tokens ps) rest.
Proof.
  intros Hn Hps Hgs. rewrite after_run_spec by done.
  split; intros (run & rest & -> & Hrun & Hm); exists run, rest; apply Forall_app in Hgs as [_ Hrest];
    (split; [done|]; split; [done|]); by apply IH.
Qed.

Lemma match_star_spec ps gs :
  length ps ≤ bound → Forall char_ok ps → Forall char_ok gs →
  match_path_bytes (concat ([STAR] :: ps)) (concat gs) = true ↔ Matches (glob_tokens ([STAR] :: ps)) gs.
Proof.
  intros Hn Hps Hgs. destruct Hps as [|c ps Hc Hps].
  { change (negb (bool_decide (SLASH ∈ concat gs)) = true ↔ Matches [Star] gs). rewrite negb_true_iff, bool_decide_eq_false, concat_slash by done. rewrite matches_cons. split.
    - intros Hs. exists gs, []. rewrite app_nil_r. split; [done|]. split; [|constructor].
      apply Forall_forall. by intros x Hx ->.
    - intros (run & rest & -> & Hrun & ->%matches_nil). rewrite app_nil_r. intros Hin.
      rewrite Forall_forall in Hrun. by apply (Hrun _ Hin). }
  destruct (decide (c = [STAR])) as [->|Hne].
  2: { destruct (head_other STAR c ps ltac:(done) Hc Hne) as (b & tail & Heq & Hb).
    cbn [glob_tokens]. rewrite decide_True, (decide_False (P := c = [STAR])) by done. rewrite matches_cons.
    change (concat ([STAR] :: c :: ps)) with (STAR :: concat (c :: ps)). rewrite Heq, match_star_cons.
    rewrite (bool_decide_false (b = STAR)), <- Heq, match_run_spec by (done || by constructor).
    cbn [glob_tokens]. rewrite (decide_False (P := c = [STAR])) by done.
    split; intros (run & rest & ? & Hrun & ?); exists run, rest; naive_solver. }
  cbn [glob_tokens]. rewrite !decide_True by done.
  change (concat ([STAR] :: [STAR] :: ps)) with (STAR :: STAR :: concat ps). rewrite match_star_cons.
  rewrite bool_decide_true by done. destruct Hps as [|c ps Hc' Hps].
  { split; [intros _|done]. apply matches_cons. exists gs, []. rewrite app_nil_r. split; [done|constructor]. }
  cbn [length] in Hn. destruct (decide (c = [SLASH])) as [->|Hne].
  - change (concat ([SLASH] :: ps)) with (SLASH :: concat ps). cbv iota. rewrite bool_decide_true by done.
    rewrite after_directories_spec, matches_cons, IH by (done || lia). apply or_iff_compat_l.
    split; intros (dirs & rest & -> & Hm); exists dirs, rest; (split; [done|]);
      apply Forall_app in Hgs as [_ [_ Hrest]%Forall_cons]; apply IH; done || lia.
  - destruct (head_other SLASH c ps ltac:(done) Hc' Hne) as (b & tail & Heq & Hb). rewrite Heq.
    rewrite (bool_decide_false (b = SLASH)), <- Heq, match_run_spec, matches_cons by (done || (by constructor) || (cbn; lia)).
    split; [intros (run & rest & ? & _ & ?)|intros (run & rest & ? & ?)]; exists run, rest; auto.
Qed.

Lemma match_any_spec ps gs :
  length ps ≤ bound → Forall char_ok ps → Forall char_ok gs →
  match_path_bytes (concat ([QUESTION] :: ps)) (concat gs) = true ↔ Matches (glob_tokens ([QUESTION] :: ps)) gs.
Proof.
  intros Hn Hps Hgs. cbn [glob_tokens]. rewrite decide_False, decide_True, matches_cons by done.
  change (concat ([QUESTION] :: ps)) with (QUESTION :: concat ps).
  destruct Hgs as [|c gs Hc Hgs]; [split; [done|by intros (? & ? & ? & _)]|].
  destruct c as [|b tail]; [done|].
  change (match_path_bytes (QUESTION :: concat ps) (concat ((b :: tail) :: gs))) with
    (if bool_decide (b = SLASH) then false
     else match_path_bytes (concat ps) (drop (Nat.max (leading_ones b) 1) ((b :: tail) ++ concat gs))).
  case_bool_decide as Hb.
  - subst b. apply ascii_alone in Hc as ->; [|done]. split; [done|]. intros (c & rest & Heq & Hne & _). by injection Heq as <- _.
  - destruct Hc as (_ & <- & _). rewrite drop_app_length, IH by done. split.
    + intros Hm. exists (b :: tail), gs. split; [done|]. split; [congruence|done].
    + intros (c & rest & Heq & _ & Hm). by injection Heq as _ ->.
Qed.

Lemma match_literal_spec c ps gs :
  length ps ≤ bound → char_ok c → Forall char_ok ps → Forall char_ok gs → c ≠ [STAR] → c ≠ [QUESTION] →
  match_path_bytes (concat (c :: ps)) (concat gs) = true ↔ Matches (glob_tokens (c :: ps)) gs.
Proof.
  intros Hn Hc Hps Hgs Hs Hq. cbn [glob_tokens]. rewrite !decide_False, matches_cons by done.
  change (concat (c :: ps)) with (c ++ concat ps). rewrite literal_spec by done. split.
  - intros (path & Heq & Hm). destruct (char_unique c gs path Hc Hgs Heq) as (gs' & -> & ->).
    exists gs'. split; [done|]. apply Forall_cons in Hgs as [_ Hgs]. by apply IH.
  - intros (rest & -> & Hm). exists (concat rest). split; [done|]. apply Forall_cons in Hgs as [_ Hgs]. by apply IH.
Qed.
End induction_step.

Lemma match_bytes_spec n ps gs :
  length ps ≤ n → Forall char_ok ps → Forall char_ok gs →
  match_path_bytes (concat ps) (concat gs) = true ↔ Matches (glob_tokens ps) gs.
Proof.
  revert ps gs. induction n as [|n IH]; intros ps gs Hn Hps Hgs.
  all: destruct Hps as [|c ps Hc Hps];
    [cbn; rewrite matches_nil; split; [|by intros ->];
     destruct (concat gs) eqn:E; [intros _; by apply concat_empty|done]|cbn in Hn; try lia].
  destruct (decide (c = [STAR])) as [->|Hs]; [apply (match_star_spec n IH); done || lia|].
  destruct (decide (c = [QUESTION])) as [->|Hq]; [apply (match_any_spec n IH); done || lia|].
  apply (match_literal_spec n IH); done || lia.
Qed.

(** The two readings of a pattern: what the documented one matches the other
    does, and they are the same where [**/] begins segments. *)
Lemma documented_reading n ps start :
  length ps ≤ n →
  (∀ gs, Matches (documented_tokens start ps) gs → Matches (glob_tokens ps) gs) ∧
  (directories_lead start ps = true → documented_tokens start ps = glob_tokens ps).
Proof.
  revert ps start. induction n as [|n IH]; intros ps start Hn.
  { destruct ps; [by split|cbn in Hn; lia]. }
  assert (∀ g ps start, length ps ≤ n →
    (∀ gs, Matches (g :: documented_tokens start ps) gs → Matches (g :: glob_tokens ps) gs) ∧
    (directories_lead start ps = true → g :: documented_tokens start ps = g :: glob_tokens ps)) as Hcons.
  { intros g ps' start' Hn'. destruct (IH ps' start' Hn') as [Hm Heq]. split; [|intros Hl; by rewrite (Heq Hl)].
    intros gs Hgs. inversion Hgs; subst; first [solve [constructor; auto]|apply matches_directories; auto]. }
  destruct ps as [|c ps]; [by split|]. cbn [length] in Hn. cbn [documented_tokens glob_tokens directories_lead].
  case_decide; [|case_decide; apply Hcons; lia].
  destruct ps as [|c' ps]; [by split|]. case_decide; [|apply (Hcons Star (c' :: ps)); lia].
  destruct ps as [|c'' ps]; [by split|]. cbn [length] in Hn.
  case_decide; [|apply (Hcons DoubleStar (c'' :: ps)); cbn; lia].
  destruct start; cbn [app andb]; [apply Hcons; lia|]. split; [|done].
  intros gs Hgs. inversion Hgs as [| | | |run ? path Hrest| |]; subst. inversion Hrest; subst.
  apply matches_directories, (IH ps true); [lia|done].
Qed.

(** C38: [match_path], which backtracks over bytes, matches what the documentation
    of path globs says, character by character: [*] a run of characters and [?]
    one character, neither a separator; [**] any run; [**/] at the start of a
    segment any directories or none; every other character itself. Every path a
    pattern means is matched, and no other is if each [**/] of the pattern begins
    a segment. (One that does not, [a**/b], also matches without the separator:
    [directories_inside_a_name].) *)
Theorem match_path_correct pattern path :
  str_wf pattern → str_wf path →
  let tokens := documented_tokens true (char_groups (as_bytes pattern)) in
  (Matches tokens (char_groups (as_bytes path)) → match_path pattern path = true) ∧
  (directories_lead true (char_groups (as_bytes pattern)) = true →
     match_path pattern path = true → Matches tokens (char_groups (as_bytes path))).
Proof.
  intros [Hp Hpc]%str_wf_groups [Hq Hqc]%str_wf_groups. cbn zeta.
  destruct (documented_reading _ (char_groups (as_bytes pattern)) true (le_n _)) as [Hm Heq].
  unfold match_path.
  assert (match_path_bytes (as_bytes pattern) (as_bytes path) = true ↔
    Matches (glob_tokens (char_groups (as_bytes pattern))) (char_groups (as_bytes path))) as ->.
  { rewrite Hp, Hq at 1. by eapply match_bytes_spec. }
  split; [apply Hm|]. intros Hl. by rewrite (Heq Hl).
Qed.

Lemma match_path_correct_witness :
  Matches (documented_tokens true (char_groups (as_bytes "src/**/?*.rs")))
    (char_groups (as_bytes "src/deep/tree/é.rs")).
Proof. apply match_path_correct; vm_compute; reflexivity. Defined.

(** [**/] stands for no directory even inside a name. *)
Lemma directories_inside_a_name :
  match_path "a**/b" "ab" = true ∧ directories_lead true (char_groups (as_bytes "a**/b")) = false.
Proof. by split. Qed.

(** ** Prose patterns *)

(** The segments after the first, each somewhere after the one before, the last
    at the end. *)
Inductive segments_match : list string → string → Prop :=
  | segments_last last gap : segments_match [last] (gap ++ last)
  | segments_more segment segments gap rest :
      segments_match segments rest → segments_match (segment :: segments) (gap ++ segment ++ rest).

(** The pattern's segments, in order, with any gaps between them. *)
Definition prose_means (pattern text : string) : Prop :=
  match split_star pattern with
  | [] => False
  | [segment] => text = segment
  | first :: segments => ∃ rest, text = (first ++ rest)%string ∧ segments_match segments rest
  end.

Lemma segments_match_gap segments gap rest :
  segments_match segments rest → segments_match segments (gap ++ rest).
Proof. inversion 1; rewrite append_assoc; by constructor. Qed.

Lemma substring_whole (s : string) : String.substring 0 (String.length s) s = s.
Proof. induction s as [|c s IH]; cbn; [done|by rewrite IH]. Qed.

Lemma str_drop_append (a b : string) : str_drop (String.length a) (a ++ b) = b.
Proof.
  unfold str_drop. rewrite append_length, Nat.add_comm, Nat.add_sub.
  induction a as [|c a IH]; [apply substring_whole|exact IH].
Qed.

Lemma split_at_length n s : n ≤ String.length s → ∃ before, s = (before ++ str_drop n s)%string.
Proof.
  unfold str_drop. revert s. induction n as [|n IH]; intros s Hl.
  - exists ""%string. rewrite Nat.sub_0_r, substring_whole. done.
  - destruct s as [|c s]; cbn in Hl; [lia|]. destruct (IH s ltac:(lia)) as [before Heq].
    exists (String c before). exact (f_equal (String c) Heq).
Qed.

Lemma ends_with_text_spec s suffix : ends_with_text s suffix = true ↔ ∃ before, s = (before ++ suffix)%string.
Proof.
  unfold ends_with_text. rewrite andb_true_iff, Nat.leb_le, String.eqb_eq. split.
  - intros [Hl Heq]. destruct (split_at_length (String.length s - String.length suffix) s) as [before Hb]; [lia|].
    exists before. rewrite Heq in Hb. exact Hb.
  - intros [before ->]. rewrite append_length. split; [lia|].
    rewrite Nat.add_sub. apply str_drop_append.
Qed.

Lemma match_segments_spec segments remaining :
  segments ≠ [] → match_segments segments remaining = true ↔ segments_match segments remaining.
Proof.
  revert remaining. induction segments as [|segment segments IH]; intros remaining Hne; [done|].
  destruct segments as [|next segments].
  - cbn [match_segments]. destruct (String.eqb_spec segment "") as [->|_].
    + split; [intros _|done]. rewrite <- (append_nil remaining). constructor.
    + rewrite ends_with_text_spec. split; [intros [before ->]; constructor|].
      inversion 1 as [last gap|? ? ? ? Hrest]; subst; [by exists gap|inversion Hrest].
  - assert (∀ rest, match_segments (next :: segments) rest = true ↔ segments_match (next :: segments) rest) as IH'
      by (intros rest; by apply IH).
    clear IH Hne. change (match_segments (segment :: next :: segments) remaining) with
      (if String.eqb segment "" then match_segments (next :: segments) remaining
       else match after_first segment remaining with
            | Some rest => match_segments (next :: segments) rest
            | None => false
            end).
    assert (segments_match (segment :: next :: segments) remaining ↔
      ∃ gap rest, remaining = (gap ++ segment ++ rest)%string ∧ segments_match (next :: segments) rest) as ->.
    { split; [inversion 1; subst; eauto|]. intros (gap & rest & -> & Hrest). by constructor. }
    destruct (String.eqb_spec segment "") as [->|_].
    + rewrite IH'. split; [intros Hm; by exists ""%string, remaining|].
      intros (gap & rest & -> & Hm). by apply segments_match_gap.
    + pose proof (after_first_spec segment remaining) as Hfirst. destruct (after_first segment remaining) as [rest|].
      * rewrite IH'. destruct Hfirst as [[before ->] Hfirst]. split; [intros Hm; by exists before, rest|].
        intros (gap & rest' & Heq & Hm). destruct (Hfirst gap rest' Heq) as [gap' ->]. by apply segments_match_gap.
      * split; [done|]. intros (gap & rest & Heq & _). by destruct (Hfirst gap rest).
Qed.

Lemma contains_star_spec s : str_contains s "*" = false ↔ lacks STAR_CHAR s.
Proof.
  unfold lacks. induction s as [|c s IH].
  - split; [intros _; apply not_elem_of_nil|done].
  - change (str_contains (String c s) "*") with (String.prefix "*" (String c s) || str_contains s "*").
    rewrite orb_false_iff, IH. cbn [String.list_ascii_of_string]. rewrite not_elem_of_cons.
    assert (String.prefix "*" (String c s) = false ↔ STAR_CHAR ≠ c) as ->; [|naive_solver].
    change (String.prefix "*" (String c s)) with (if ascii_dec STAR_CHAR c then String.prefix "" s else false).
    destruct (ascii_dec STAR_CHAR c) as [Hc|Hc]; [split; [by destruct s|done]|by split].
Qed.

Lemma split_on_single sep s : lacks sep s → split_on sep s = [s].
Proof.
  unfold lacks. induction s as [|c s IH]; cbn; [done|]. rewrite not_elem_of_cons. intros [Hc Hs].
  rewrite decide_False by done. by rewrite IH.
Qed.

Lemma split_on_several sep s : ¬ lacks sep s → ∃ first next parts, split_on sep s = first :: next :: parts.
Proof.
  unfold lacks. induction s as [|c s IH]; cbn; [by intros []; apply not_elem_of_nil|].
  rewrite not_elem_of_cons. intros Hs. case_decide as Hc.
  - pose proof (split_on_nonempty sep s). destruct (split_on sep s) as [|part parts]; [done|]. by exists ""%string, part, parts.
  - destruct IH as (first & next & parts & ->); [naive_solver|]. by exists (String c first), next, parts.
Qed.

(** [match_prose], which takes each segment where it first occurs, matches
    exactly the texts that are the pattern's segments in order with any gaps
    between them, anchored at both ends. *)
Theorem match_prose_correct pattern text : match_prose pattern text = true ↔ prose_means pattern text.
Proof.
  unfold match_prose, prose_means. destruct (String.eqb_spec pattern "*") as [->|_].
  { split; [intros _|done]. exists text. split; [done|]. rewrite <- (append_nil text). constructor. }
  destruct (str_contains pattern "*") eqn:Ec; cbn [negb].
  - assert (¬ lacks STAR_CHAR pattern) as Hs by (rewrite <- contains_star_spec; congruence).
    destruct (split_on_several _ _ Hs) as (first & next & parts & Heq). unfold split_star. rewrite Heq.
    destruct (String.eqb_spec first "") as [->|_].
    + rewrite match_segments_spec by done. split; [intros Hm; by exists text|by intros (rest & -> & Hm)].
    + destruct (strip_prefix first text) as [rest|] eqn:E.
      * apply strip_prefix_spec in E as ->. rewrite match_segments_spec by done.
        split; [intros Hm; by exists rest|]. intros (rest' & Heq' & Hm).
        assert (strip_prefix first (first ++ rest) = Some rest') as Hr by (by apply strip_prefix_spec).
        assert (strip_prefix first (first ++ rest) = Some rest) as Hr' by (by apply strip_prefix_spec). congruence.
      * split; [done|]. intros (rest & Heq' & _). apply strip_prefix_spec in Heq'. congruence.
  - apply contains_star_spec, split_on_single in Ec. unfold split_star. rewrite Ec, String.eqb_eq. split; congruence.
Qed.
