(* ===== verification/GlobName.v ===== *)
(** * Matching flat names ([match_name] of [harn-glob/src/lib.rs])

    Shortcuts for the common shapes, then the [globset] crate (a parameter)
    behind a cache that is emptied when it has more than 512 entries. The cache
    is the state of a thread, threaded through its calls; against it stands what
    a pattern means by its shape, which no history of calls changes. *)

From Stdlib Require Import Strings.String Strings.Ascii.
From S2P Require Import Prelude Split Ordered Program Text Glob.
Open Scope string_scope.

(** [globset]: building a matcher can fail, matching cannot. *)
Class NameGlobs := {
  GlobMatcher : Type;
  build_glob : string → option GlobMatcher;
  is_match : GlobMatcher → string → bool;
}.

(** [has_name_metacharacters] *)
Definition metacharacter (b : byte) : bool :=
  bool_decide (b ∈ [Byte.x2a; Byte.x3f; Byte.x5b; Byte.x7b; Byte.x5c]).
Definition has_name_metacharacters (pattern : string) : bool := existsb metacharacter (as_bytes pattern).

(** [str::strip_suffix] *)
Definition strip_suffix (suffix s : string) : option string :=
  if ends_with_text s suffix then Some (String.substring 0 (String.length s - String.length suffix) s) else None.

Section globs.
Context `{NameGlobs}.

(** The thread's [COMPILED]. *)
Definition Cache : Type := omap string (option GlobMatcher).

Definition affix_match (pattern name : string) : bool :=
  match strip_suffix "*" pattern with
  | Some prefix => starts_with_text name prefix
  | None =>
      match strip_prefix "*" pattern with
      | Some suffix => ends_with_text name suffix
      | None => String.eqb pattern name
      end
  end.

(** The cap on the number of entries. *)
Definition trim (cache : Cache) : Cache := if (512 <? length cache)%nat then [] else cache.

Definition compiled_name_match (pattern name : string) (cache : Cache) : bool * Cache :=
  let cache := trim cache in
  let '(matcher, cache) :=
    match map_get pattern cache with
    | Some matcher => (matcher, cache)
    | None => (build_glob pattern, map_insert pattern (build_glob pattern) cache)
    end in
  (match matcher with Some m => is_match m name | None => affix_match pattern name end, cache).

(** The shortcut [match_name] takes, if it takes one. *)
Definition literal_name_match (pattern name : string) : option bool :=
  if String.eqb pattern "*" then Some true
  else if negb (has_name_metacharacters pattern) then Some (String.eqb pattern name)
  else
    let shortcut :=
      match strip_suffix "*" pattern with
      | Some prefix =>
          if negb (has_name_metacharacters prefix) then Some (starts_with_text name prefix)
          else match strip_prefix "*" prefix with
               | Some infix => if negb (has_name_metacharacters infix) then Some (str_contains name infix) else None
               | None => None
               end
      | None => None
      end in
    match shortcut with
    | Some b => Some b
    | None =>
        match strip_prefix "*" pattern with
        | Some suffix => if negb (has_name_metacharacters suffix) then Some (ends_with_text name suffix) else None
        | None => None
        end
    end.

Definition match_name (pattern name : string) (cache : Cache) : bool * Cache :=
  match literal_name_match pattern name with
  | Some b => (b, cache)
  | None => compiled_name_match pattern name cache
  end.

(** A thread's calls, in order. *)
Fixpoint match_names (calls : list (string * string)) (cache : Cache) : list bool * Cache :=
  match calls with
  | [] => ([], cache)
  | (pattern, name) :: calls =>
      let '(b, cache) := match_name pattern name cache in
      let '(bs, cache) := match_names calls cache in
      (b :: bs, cache)
  end.

(** ** The shapes of patterns *)

Definition literal (s : string) : Prop := has_name_metacharacters s = false.

(** A pattern none of the shortcuts covers. *)
Definition compound (pattern : string) : Prop :=
  ¬ literal pattern ∧
  ∀ l, literal l → pattern ≠ l ++ "*" ∧ pattern ≠ "*" ++ l ∧ pattern ≠ "*" ++ l ++ "*".

(** An affix pattern, whatever else it has. *)
Inductive AffixMeans : string → string → Prop :=
  | affix_prefix prefix rest : AffixMeans (prefix ++ "*") (prefix ++ rest)
  | affix_suffix suffix before :
      (∀ prefix, "*" ++ suffix ≠ prefix ++ "*") → AffixMeans ("*" ++ suffix) (before ++ suffix)
  | affix_exact name :
      (∀ prefix, name ≠ prefix ++ "*") → (∀ suffix, name ≠ "*" ++ suffix) → AffixMeans name name.

Inductive NameMeans : string → string → Prop :=
  | name_exact l : literal l → NameMeans l l
  | name_prefix l rest : literal l → NameMeans (l ++ "*") (l ++ rest)
  | name_suffix l before : literal l → NameMeans ("*" ++ l) (before ++ l)
  | name_infix l before rest : literal l → NameMeans ("*" ++ l ++ "*") (before ++ l ++ rest)
  | name_glob pattern m name :
      compound pattern → build_glob pattern = Some m → is_match m name = true → NameMeans pattern name
  | name_affix pattern name :
      compound pattern → build_glob pattern = None → AffixMeans pattern name → NameMeans pattern name.

End globs.

Lemma append_inj_r (a b s : string) : a ++ s = b ++ s → a = b.
Proof.
  revert b. induction a as [|c a IH]; intros [|d b] Heq; [done| | |].
  1, 2: apply (f_equal String.length) in Heq; rewrite !append_length in Heq; cbn in Heq; lia.
  injection Heq as -> Heq. f_equal. by apply IH.
Qed.

Lemma substring_left (a b : string) : String.substring 0 (String.length a) (a ++ b) = a.
Proof. induction a as [|c a IH]; [by destruct b|exact (f_equal (String c) IH)]. Qed.

Lemma strip_suffix_spec suffix s p : strip_suffix suffix s = Some p ↔ s = p ++ suffix.
Proof.
  assert (∀ q, String.substring 0 (String.length (q ++ suffix) - String.length suffix) (q ++ suffix) = q) as Hleft.
  { intros q. rewrite append_length, Nat.add_sub. apply substring_left. }
  unfold strip_suffix. destruct (ends_with_text s suffix) eqn:E.
  - apply ends_with_text_spec in E as [before ->]. rewrite Hleft. split; [congruence|].
    by intros ->%append_inj_r.
  - split; [done|]. intros ->. assert (ends_with_text (p ++ suffix) suffix = true); [|congruence].
    apply ends_with_text_spec. by exists p.
Qed.

Lemma starts_with_text_spec s prefix : starts_with_text s prefix = true ↔ ∃ rest, s = prefix ++ rest.
Proof.
  unfold starts_with_text. revert s. induction prefix as [|c prefix IH]; intros s; cbn.
  - split; [intros _; by exists s|by destruct s].
  - destruct s as [|d s]; cbn; [split; [done|intros [rest Heq]; done]|].
    destruct (ascii_dec c d) as [->|Hc].
    + rewrite IH. split; intros [rest Heq]; exists rest; [exact (f_equal (String d) Heq)|by injection Heq].
    + split; [done|]. intros [rest Heq]. by injection Heq.
Qed.

Lemma str_contains_spec s needle :
  str_contains s needle = true ↔ ∃ before rest, s = before ++ needle ++ rest.
Proof.
  assert (∀ s, String.prefix needle s = true ↔ ∃ rest, s = needle ++ rest) as Hp
    by (intros; apply starts_with_text_spec).
  induction s as [|c s IH]; cbn [str_contains]; rewrite orb_true_iff, Hp.
  - split; [intros [[rest ->]|]; [by exists "", rest|done]|].
    intros ([|d before] & rest & Heq); [left; by exists rest|done].
  - rewrite IH. split.
    + intros [[rest Heq]|(before & rest & Heq)]; [by exists "", rest|].
      exists (String c before), rest. exact (f_equal (String c) Heq).
    + intros ([|d before] & rest & Heq); [left; by exists rest|]. injection Heq as _ Heq. right. eauto.
Qed.

Lemma metacharacters_append a b :
  has_name_metacharacters (a ++ b) = has_name_metacharacters a || has_name_metacharacters b.
Proof.
  unfold has_name_metacharacters, as_bytes, String.list_byte_of_string.
  induction a as [|c a IH]; [done|]. cbn. by rewrite <- orb_assoc, <- IH.
Qed.

Lemma literal_append a b : literal (a ++ b) ↔ literal a ∧ literal b.
Proof. unfold literal. rewrite metacharacters_append. apply orb_false_iff. Qed.

Lemma star_not_literal : ¬ literal "*".
Proof. done. Qed.

(** Two shapes of one pattern are the same shape of the same literal. *)
Lemma prefix_or_suffix l l' : literal l → l ++ "*" = "*" ++ l' → l = "" ∧ l' = "".
Proof.
  destruct l as [|c l]; [intros _ Heq; injection Heq as Heq; split; [done|exact (eq_sym Heq)]|]. intros Hl Heq. injection Heq as -> _.
  change (literal ("*" ++ l)) in Hl. by apply literal_append in Hl as [Hs%star_not_literal _].
Qed.

Lemma prefix_not_infix l l' : literal l → l ++ "*" ≠ "*" ++ l' ++ "*".
Proof. intros Hl. rewrite (append_assoc "*"). intros ->%append_inj_r. by apply literal_append in Hl as [? _]. Qed.

Lemma suffix_not_infix l l' : literal l → "*" ++ l ≠ "*" ++ l' ++ "*".
Proof.
  intros Hl Heq. injection Heq as Heq. change (l = l' ++ "*") in Heq. subst. by apply literal_append in Hl as [_ ?].
Qed.

Ltac literal_star :=
  repeat match goal with
  | H : literal (_ ++ _) |- _ => apply literal_append in H as [? ?]
  | H : literal "*" |- _ => destruct (star_not_literal H)
  end.

Section shapes.
Context `{NameGlobs}.

(** What a pattern's shape makes of a name. *)
Lemma name_means_shape p n :
  NameMeans p n ↔
  (literal p ∧ n = p) ∨
  (∃ l rest, literal l ∧ p = l ++ "*" ∧ n = l ++ rest) ∨
  (∃ l before, literal l ∧ p = "*" ++ l ∧ n = before ++ l) ∨
  (∃ l before rest, literal l ∧ p = "*" ++ l ++ "*" ∧ n = before ++ l ++ rest) ∨
  (compound p ∧ match build_glob p with Some m => is_match m n = true | None => AffixMeans p n end).
Proof.
  split.
  - destruct 1 as [l|l rest|l before|l before rest|p m n Hp E|p n Hp E]; [by left| | | |do 4 right; by rewrite E..].
    + right; left. by exists l, rest.
    + do 2 right; left. by exists l, before.
    + do 3 right; left. by exists l, before, rest.
  - intros [[Hl ->]|[(l & rest & Hl & -> & ->)|[(l & before & Hl & -> & ->)|
      [(l & before & rest & Hl & -> & ->)|[Hp Hm]]]]]; [by constructor..|].
    destruct (build_glob p) as [m|] eqn:E; [by eapply name_glob|by apply name_affix].
Qed.

Lemma means_exact p n : literal p → NameMeans p n ↔ n = p.
Proof.
  intros Hp. rewrite name_means_shape. split; [|by left].
  intros [[_ ->]|[(l & rest & _ & -> & _)|[(l & before & _ & -> & _)|[(l & before & rest & _ & -> & _)|[[Hc _] _]]]]];
    by literal_star.
Qed.

Lemma means_prefix l n : literal l → NameMeans (l ++ "*") n ↔ ∃ rest, n = l ++ rest.
Proof.
  intros Hl. rewrite name_means_shape. split; [|intros [rest ->]; right; left; eauto].
  intros [[Hp ->]|[(l' & rest & _ & Heq & ->)|[(l' & before & Hl' & Heq & ->)|[(l' & before & rest & _ & Heq & _)|
    [[_ Hc] _]]]]].
  - by literal_star.
  - apply append_inj_r in Heq as ->. eauto.
  - apply prefix_or_suffix in Heq as [-> ->]; [|done]. by exists (before ++ "").
  - by apply prefix_not_infix in Heq.
  - by destruct (Hc l Hl).
Qed.

Lemma means_suffix l n : literal l → NameMeans ("*" ++ l) n ↔ ∃ before, n = before ++ l.
Proof.
  intros Hl. rewrite name_means_shape. split; [|intros [before ->]; do 2 right; left; eauto].
  intros [[Hp ->]|[(l' & rest & Hl' & Heq & ->)|[(l' & before & _ & Heq & ->)|[(l' & before & rest & _ & Heq & _)|
    [[_ Hc] _]]]]].
  - by literal_star.
  - symmetry in Heq. apply prefix_or_suffix in Heq as [-> ->]; [|done]. exists rest. by rewrite append_nil.
  - injection Heq as Heq. change (l = l') in Heq. subst. eauto.
  - by apply suffix_not_infix in Heq.
  - by destruct (Hc l Hl) as (_ & ? & _).
Qed.

Lemma means_infix l n : literal l → NameMeans ("*" ++ l ++ "*") n ↔ ∃ before rest, n = before ++ l ++ rest.
Proof.
  intros Hl. rewrite name_means_shape. split; [|intros (before & rest & ->); do 3 right; left; eauto 6].
  intros [[Hp ->]|[(l' & rest & Hl' & Heq & _)|[(l' & before & Hl' & Heq & _)|[(l' & before & rest & _ & Heq & ->)|
    [[_ Hc] _]]]]].
  - by literal_star.
  - symmetry in Heq. by apply prefix_not_infix in Heq.
  - symmetry in Heq. by apply suffix_not_infix in Heq.
  - rewrite !append_assoc in Heq. apply append_inj_r in Heq. injection Heq as Heq. change (l = l') in Heq. subst. eauto.
  - by destruct (Hc l Hl) as (_ & _ & ?).
Qed.

Lemma means_compound p n :
  compound p →
  NameMeans p n ↔ match build_glob p with Some m => is_match m n = true | None => AffixMeans p n end.
Proof.
  intros Hp. rewrite name_means_shape. split; [|intros; do 4 right; done].
  destruct Hp as [Hnl Hc].
  intros [[? _]|[(l & rest & Hl & -> & _)|[(l & before & Hl & -> & _)|[(l & before & rest & Hl & -> & _)|[_ ?]]]]];
    done || by destruct (Hc l Hl) as (? & ? & ?).
Qed.

Lemma affix_match_spec p n : affix_match p n = true ↔ AffixMeans p n.
Proof.
  unfold affix_match. destruct (strip_suffix "*" p) as [prefix|] eqn:Es.
  - apply strip_suffix_spec in Es as ->. rewrite starts_with_text_spec. split; [intros [rest ->]; constructor|].
    inversion 1 as [prefix' rest Heq|suffix before Hn Heq|name Hn _ Heq]; subst.
    + apply append_inj_r in Heq as ->. eauto.
    + by destruct (Hn prefix).
    + by destruct (Hn prefix).
  - assert (∀ q, p ≠ q ++ "*") as Hs by (intros q Hq%strip_suffix_spec; congruence).
    destruct (strip_prefix "*" p) as [suffix|] eqn:Ep.
    + apply strip_prefix_spec in Ep as ->. rewrite ends_with_text_spec.
      split; [intros [before ->]; by constructor|].
      inversion 1 as [prefix rest Heq|suffix' before _ Heq|name _ Hp Heq]; subst; [by destruct (Hs prefix)| |by destruct (Hp suffix)].
      change (suffix' = suffix) in Heq. subst. eauto.
    + assert (∀ q, p ≠ "*" ++ q) as Hp by (intros q Hq%strip_prefix_spec; congruence).
      rewrite String.eqb_eq. split; [intros <-; by constructor|].
      inversion 1 as [prefix rest|suffix before|]; subst; [by destruct (Hs prefix)|by destruct (Hp suffix)|done].
Qed.

(** The literal [prefix*] and [*infix*] shortcuts, when there is one. *)
Lemma star_last_shortcut p n prefix :
  p = prefix ++ "*" → ¬ literal p →
  match (if negb (has_name_metacharacters prefix) then Some (starts_with_text n prefix)
         else match strip_prefix "*" prefix with
              | Some infix => if negb (has_name_metacharacters infix) then Some (str_contains n infix) else None
              | None => None
              end) with
  | Some b => b = true ↔ NameMeans p n
  | None => ∀ l, literal l → p ≠ l ++ "*" ∧ p ≠ "*" ++ l ++ "*"
  end.
Proof.
  intros -> _. destruct (has_name_metacharacters prefix) eqn:Ep; cbn [negb]; [|by rewrite starts_with_text_spec, means_prefix].
  assert (∀ l, literal l → prefix ++ "*" ≠ l ++ "*") as Hp
    by (intros l Hl ->%append_inj_r; unfold literal in Hl; congruence).
  assert (∀ l, prefix ++ "*" = "*" ++ l ++ "*" → prefix = "*" ++ l) as Hi
    by (intros l; rewrite (append_assoc "*"); apply append_inj_r).
  destruct (strip_prefix "*" prefix) as [infix|] eqn:Ei.
  - apply strip_prefix_spec in Ei as ->. destruct (has_name_metacharacters infix) eqn:Em; cbn [negb].
    + intros l Hl. split; [by apply Hp|]. intros Heq%Hi. injection Heq as Heq. change (infix = l) in Heq. subst.
      unfold literal in Hl. congruence.
    + rewrite str_contains_spec. change (("*" ++ infix) ++ "*") with ("*" ++ infix ++ "*"). by rewrite means_infix.
  - intros l Hl. split; [by apply Hp|]. intros Heq%Hi%strip_prefix_spec. congruence.
Qed.

Lemma literal_name_match_spec p n :
  match literal_name_match p n with
  | Some b => b = true ↔ NameMeans p n
  | None => compound p
  end.
Proof.
  unfold literal_name_match. destruct (String.eqb_spec p "*") as [->|_].
  { change (true = true ↔ NameMeans ("" ++ "*") n). rewrite means_prefix by done. split; [intros _; by exists n|done]. }
  destruct (has_name_metacharacters p) eqn:Hp; cbn [negb]; [|by rewrite means_exact, String.eqb_eq by done].
  assert (¬ literal p) as Hnl by (unfold literal; congruence).
  set (shortcut := match strip_suffix "*" p with Some _ => _ | None => None end).
  assert (match shortcut with
    | Some b => b = true ↔ NameMeans p n
    | None => ∀ l, literal l → p ≠ l ++ "*" ∧ p ≠ "*" ++ l ++ "*"
    end) as Hshortcut.
  { subst shortcut. destruct (strip_suffix "*" p) as [prefix|] eqn:Es.
    - apply strip_suffix_spec in Es. by apply star_last_shortcut.
    - intros l _. split; [intros Heq%strip_suffix_spec; congruence|].
      rewrite (append_assoc "*"). intros Heq%strip_suffix_spec. congruence. }
  destruct shortcut as [b|]; [done|]. destruct (strip_prefix "*" p) as [suffix|] eqn:Ep.
  - apply strip_prefix_spec in Ep as ->. destruct (has_name_metacharacters suffix) eqn:Em; cbn [negb].
    + split; [done|]. intros l Hl. destruct (Hshortcut l Hl). split_and!; [done| |done].
      intros Heq. injection Heq as Heq. change (suffix = l) in Heq. subst. unfold literal in Hl. congruence.
    + by rewrite ends_with_text_spec, means_suffix.
  - split; [done|]. intros l Hl. destruct (Hshortcut l Hl). split_and!; [done| |done].
    intros Heq%strip_prefix_spec. congruence.
Qed.

(** ** The cache *)

(** What the cache holds is what [globset] builds, and it stays small. *)
Record cache_ok (cache : Cache) : Prop := {
  cache_ordered : map_ordered cache;
  cache_built p m : map_get p cache = Some m → m = build_glob p;
  cache_bounded : (length cache <= 513)%nat;
}.

Lemma map_update_length {K V} `{Ord K} (d : V) f (k : K) (m : omap K V) :
  (length (map_update d f k m) <= S (length m))%nat.
Proof. induction m as [|[k' v] m IH]; cbn; [done|]. destruct (compare k k'); cbn; lia. Qed.

Lemma empty_cache_ok : cache_ok [].
Proof. split; [constructor|done|cbn; lia]. Qed.

Lemma trimmed_cache_ok cache :
  cache_ok cache →
  cache_ok (trim cache) ∧ (length (trim cache) <= 512)%nat.
Proof.
  intros Hc. unfold trim. destruct (Nat.ltb_spec 512 (length cache)); [split; [apply empty_cache_ok|cbn; lia]|by split].
Qed.

Lemma match_name_spec pattern name cache :
  cache_ok cache →
  ((match_name pattern name cache).1 = true ↔ NameMeans pattern name) ∧ cache_ok (match_name pattern name cache).2.
Proof.
  intros Hc. unfold match_name. pose proof (literal_name_match_spec pattern name) as Hl.
  destruct (literal_name_match pattern name) as [b|]; [done|].
  unfold compiled_name_match. destruct (trimmed_cache_ok cache Hc) as [[Ho Hb _] Hn].
  generalize dependent (trim cache). intros trimmed Ho Hb Hn.
  rewrite means_compound by done. destruct (map_get pattern trimmed) as [m|] eqn:E; cbn.
  - rewrite (Hb _ _ E). split; [|split; [done|done|lia]].
    by destruct (build_glob pattern); [|rewrite affix_match_spec].
  - split; [by destruct (build_glob pattern); [|rewrite affix_match_spec]|].
    unfold map_insert. split; [by apply map_update_ordered| |].
    + intros p m. rewrite map_get_update by done. case_decide as Hp; [subst; congruence|apply Hb].
    + pose proof (map_update_length (build_glob pattern) (λ _, build_glob pattern) pattern trimmed). lia.
Qed.

(** Whatever a thread has matched before, [match_name] answers each call by
    what the pattern means - a literal, one end, both ends or the middle of the
    name, else the glob the crate builds or, where it builds none, the affix -
    and the cache never has more than 513 entries. *)
Theorem match_name_history calls :
  let '(answers, cache) := match_names calls [] in
  Forall2 (λ call answer, answer = true ↔ NameMeans call.1 call.2) calls answers ∧ (length cache <= 513)%nat.
Proof.
  assert (∀ cache, cache_ok cache →
    Forall2 (λ call answer, answer = true ↔ NameMeans call.1 call.2) calls (match_names calls cache).1 ∧
    cache_ok (match_names calls cache).2) as Hcalls.
  { induction calls as [|[pattern name] calls IH]; intros cache Hc; [by split; [constructor|]|]. cbn.
    destruct (match_name_spec pattern name cache Hc) as [Hm Hc'].
    destruct (match_name pattern name cache) as [b cache']. specialize (IH cache' Hc').
    destruct (match_names calls cache') as [bs cache'']. destruct IH as [IH Hc'']. split; [by constructor|done]. }
  specialize (Hcalls [] empty_cache_ok). destruct (match_names calls []) as [answers cache].
  destruct Hcalls as [Ha [_ _ Hb]]. done.
Qed.
End shapes.
