(* ===== verification/Policy.v ===== *)
(** * Capability policies ([harn-execution-policy])

    What a run may do: the tools it may call, the capability operations it may
    perform, the roots it may touch, its side-effect level, recursion budget and
    confinement. A nested run gets the [intersect] of its ceiling and what it
    requests; a policy computed by a program is checked by
    [assert_within_ceiling]. Names are matched by [match_name], whose cache is
    not threaded here because no answer depends on it (GlobName). *)

From Stdlib Require Import Strings.String Strings.Ascii.
From S2P Require Import Prelude Split Ordered Fallible Text Glob GlobName.
Open Scope string_scope.

(** ** Tool annotations ([tool_annotations.rs]) *)

Module ToolKind.
Inductive ToolKind := Read | Edit | Delete | Move | Search | Execute | Think | Fetch | Other.
End ToolKind.

(** [ToolKind::is_read_only] *)
Definition is_read_only (k : ToolKind.ToolKind) : bool :=
  match k with ToolKind.Read | ToolKind.Search | ToolKind.Think | ToolKind.Fetch => true | _ => false end.

Module SideEffectLevel.
Inductive SideEffectLevel :=
  None_ | ReadOnly | WorkspaceWrite | ProcessExec | NetworkRead | Network | DesktopControl.

Definition ALL : list SideEffectLevel :=
  [None_; ReadOnly; WorkspaceWrite; ProcessExec; NetworkRead; Network; DesktopControl].

Definition rank (l : SideEffectLevel) : nat :=
  match l with
  | None_ => 0 | ReadOnly => 1 | WorkspaceWrite => 2 | ProcessExec => 3
  | NetworkRead => 4 | Network => 5 | DesktopControl => 6
  end.

Definition as_str (l : SideEffectLevel) : string :=
  match l with
  | None_ => "none"
  | ReadOnly => "read_only"
  | WorkspaceWrite => "workspace_write"
  | ProcessExec => "process_exec"
  | NetworkRead => "network_read"
  | Network => "network"
  | DesktopControl => "desktop_control"
  end.

Definition parse (value : string) : SideEffectLevel :=
  if String.eqb value "none" then None_
  else if String.eqb value "read_only" then ReadOnly
  else if String.eqb value "workspace_write" then WorkspaceWrite
  else if String.eqb value "process_exec" then ProcessExec
  else if String.eqb value "network_read" then NetworkRead
  else if String.eqb value "network" then Network
  else if String.eqb value "desktop_control" then DesktopControl
  else None_.

Definition rank_str (level : string) : nat := rank (parse level).
End SideEffectLevel.

Record ToolDependencyRangeParams := mkRangeParams { range_start : string; range_end : string }.

Record ToolArgSchema := mkArgSchema {
  path_params : list string;
  dependency_key_params : list string;
  dependency_range_params : list ToolDependencyRangeParams;
  arg_aliases : omap string string;
  required : list string
}.

Module CompletionEvidenceRole.
Inductive CompletionEvidenceRole := Observation | Mutation | Verification.
End CompletionEvidenceRole.

(** The record's own side-effect level and capabilities are told apart from a
    policy's by a prefix. *)
Record ToolAnnotations := mkToolAnnotations {
  kind : ToolKind.ToolKind;
  annotation_side_effect_level : SideEffectLevel.SideEffectLevel;
  completion_evidence_role : option CompletionEvidenceRole.CompletionEvidenceRole;
  arg_schema : ToolArgSchema;
  annotation_capabilities : omap string (list string);
  emits_artifacts : bool;
  result_readers : list string;
  inline_result : bool;
  read_only_hint : option bool;
  destructive_hint : option bool;
  idempotent_hint : option bool;
  open_world_hint : option bool
}.

#[export] Instance ToolKind_eq_dec : EqDecision ToolKind.ToolKind.
Proof. solve_decision. Defined.
#[export] Instance SideEffectLevel_eq_dec : EqDecision SideEffectLevel.SideEffectLevel.
Proof. solve_decision. Defined.
#[export] Instance ToolDependencyRangeParams_eq_dec : EqDecision ToolDependencyRangeParams.
Proof. solve_decision. Defined.
#[export] Instance omap_eq_dec {K V} `{EqDecision K, EqDecision V} : EqDecision (omap K V).
Proof. unfold omap. apply _. Defined.
#[export] Instance ToolArgSchema_eq_dec : EqDecision ToolArgSchema.
Proof. solve_decision. Defined.
#[export] Instance CompletionEvidenceRole_eq_dec : EqDecision CompletionEvidenceRole.CompletionEvidenceRole.
Proof. solve_decision. Defined.
#[export] Instance ToolAnnotations_eq_dec : EqDecision ToolAnnotations.
Proof. solve_decision. Defined.

(** ** Confinement ([capability/mod.rs], [capability/process_sandbox.rs]) *)

Module SandboxProfile.
Inductive SandboxProfile := Unrestricted | WorkspacePaths | Worktree | Wasi | OsHardened.

Definition as_str (p : SandboxProfile) : string :=
  match p with
  | Unrestricted => "unrestricted"
  | WorkspacePaths => "workspace_paths"
  | Worktree => "worktree"
  | Wasi => "wasi"
  | OsHardened => "os_hardened"
  end.

Definition parse (value : string) : option SandboxProfile :=
  if String.eqb value "unrestricted" then Some Unrestricted
  else if String.eqb value "workspace_paths" then Some WorkspacePaths
  else if String.eqb value "worktree" then Some Worktree
  else if String.eqb value "wasi" then Some Wasi
  else if String.eqb value "os_hardened" then Some OsHardened
  else None.

(** [SandboxProfile::all] *)
Definition ALL : list SandboxProfile := [Unrestricted; WorkspacePaths; Wasi; Worktree; OsHardened].

Definition enforces_path_scope (p : SandboxProfile) : bool :=
  match p with Unrestricted => false | _ => true end.

Definition confines_processes (p : SandboxProfile) : bool :=
  match p with Worktree | OsHardened => true | _ => false end.

(** [sandbox_profile_strictness] *)
Definition strictness (p : SandboxProfile) : nat :=
  match p with Unrestricted => 0 | WorkspacePaths => 1 | Wasi => 2 | Worktree => 3 | OsHardened => 4 end.
End SandboxProfile.

(** [strictest_sandbox_profile] *)
Definition strictest_sandbox_profile (left_ right_ : SandboxProfile.SandboxProfile) :=
  if (SandboxProfile.strictness right_ <=? SandboxProfile.strictness left_)%nat then left_ else right_.

Module ProcessSandboxPreset.
Inductive ProcessSandboxPreset := SystemRuntime | DeveloperToolchains | PackageManagerConfig | UserTemp.
End ProcessSandboxPreset.

#[export] Instance ProcessSandboxPreset_eq_dec : EqDecision ProcessSandboxPreset.ProcessSandboxPreset.
Proof. solve_decision. Defined.

Definition default_presets : list ProcessSandboxPreset.ProcessSandboxPreset :=
  [ProcessSandboxPreset.SystemRuntime; ProcessSandboxPreset.DeveloperToolchains;
   ProcessSandboxPreset.PackageManagerConfig; ProcessSandboxPreset.UserTemp].

Record ProcessSandboxPolicy := mkProcessSandbox {
  presets : option (list ProcessSandboxPreset.ProcessSandboxPreset);
  read_roots : list string;
  write_roots : list string;
  read_deny_roots : list string;
  allow_tcp_loopback : bool;
  deny_network : bool;
  unix_socket_roots : list string;
  ssh_agent_socket : option string;
  allow_process_self_introspection : bool;
  allow_child_workspace_write : bool;
  netns_launcher_path : option string
}.

(** [ProcessSandboxPolicy::default] *)
Definition default_sandbox : ProcessSandboxPolicy :=
  mkProcessSandbox None [] [] [] false false [] None false false None.

Record ProcessNetworkProxy := mkProxy { http_port : N; socks_port : N }.

(** ** Policies *)

Record ToolArgConstraint := mkArgConstraint {
  constraint_tool : string;
  arg_patterns : list string;
  arg_key : option string
}.

#[export] Instance ToolArgConstraint_eq_dec : EqDecision ToolArgConstraint.
Proof. solve_decision. Defined.

Record CapabilityPolicy := mkPolicy {
  tools : list string;
  capabilities : omap string (list string);
  workspace_roots : list string;
  read_only_roots : list string;
  side_effect_level : option string;
  recursion_limit : option N;
  tool_arg_constraints : list ToolArgConstraint;
  tool_annotations : omap string ToolAnnotations;
  sandbox_profile : SandboxProfile.SandboxProfile;
  process_sandbox : ProcessSandboxPolicy;
  process_network_proxy : option ProcessNetworkProxy
}.

(** [CapabilityPolicy::default] and [neutral] *)
Definition default_policy : CapabilityPolicy :=
  mkPolicy [] [] [] [] None None [] [] SandboxProfile.Worktree default_sandbox None.
Definition neutral : CapabilityPolicy :=
  mkPolicy [] [] [] [] None None [] [] SandboxProfile.Unrestricted default_sandbox None.

Definition DENY_ALL_SENTINEL : string := String "000" "harn:deny-all".

(** ** Roots *)

(** [Path::components] on Unix, where [Path::starts_with] compares them. *)
Inductive Component := RootDir | CurDir | ParentDir | Normal (name : string).

#[export] Instance Component_eq_dec : EqDecision Component.
Proof. solve_decision. Defined.

Definition component_of (part : string) : Component :=
  if String.eqb part ".." then ParentDir else Normal part.

Definition path_components (path : string) : list Component :=
  let parts := split_on "/" path in
  (if String.prefix "/" path then [RootDir]
   else match parts with part :: _ => if String.eqb part "." then [CurDir] else [] | [] => [] end) ++
  map component_of (filter (λ part, part ≠ "" ∧ part ≠ ".") parts).

Fixpoint starts_with {A} `{EqDecision A} (l prefix : list A) : bool :=
  match prefix, l with
  | [], _ => true
  | x :: prefix, y :: l => bool_decide (x = y) && starts_with l prefix
  | _ :: _, [] => false
  end.

Section roots.
(** What the runtime installed with [install_owned_scratch_resolver]. *)
Context (owned_scratch : option (string → string → bool)).

Definition root_is_within (candidate root : string) : bool :=
  starts_with (path_components candidate) (path_components root) ||
  match owned_scratch with Some resolve => resolve candidate root | None => false end.

(** The loop over the requested roots. *)
Definition clamp_root (host : list string) (root : string) : list string :=
  if existsb (root_is_within root) host then [root]
  else filter (λ allowed, root_is_within allowed root = true) host.

Definition intersect_roots (host requested : list string) : list string :=
  match host, requested with
  | [], _ => requested
  | _, [] => host
  | _, _ => to_set (concat (map (clamp_root host) requested))
  end.
End roots.

Definition extend_unique (target roots : list string) : list string :=
  fold_left (λ target root, if bool_decide (root ∈ target) then target else (target ++ [root])%list) roots target.

Definition intersect_presets (left_ right_ : list ProcessSandboxPreset.ProcessSandboxPreset) :=
  filter (λ preset, preset ∈ right_) left_.

Definition effective_presets (p : ProcessSandboxPolicy) : list ProcessSandboxPreset.ProcessSandboxPreset :=
  default default_presets (presets p).

(** [ProcessSandboxPolicy::extend] *)
Definition sandbox_extend (p other : ProcessSandboxPolicy) : ProcessSandboxPolicy :=
  mkProcessSandbox
    (match presets other with Some ps => Some ps | None => presets p end)
    (extend_unique (read_roots p) (read_roots other))
    (extend_unique (write_roots p) (write_roots other))
    (extend_unique (read_deny_roots p) (read_deny_roots other))
    (allow_tcp_loopback p || allow_tcp_loopback other)
    (deny_network p || deny_network other)
    (extend_unique (unix_socket_roots p) (unix_socket_roots other))
    (match ssh_agent_socket other with Some socket => Some socket | None => ssh_agent_socket p end)
    (allow_process_self_introspection p || allow_process_self_introspection other)
    (allow_child_workspace_write p || allow_child_workspace_write other)
    (match netns_launcher_path other with Some path => Some path | None => netns_launcher_path p end).

(** [ProcessSandboxPolicy::intersect] *)
Definition sandbox_intersect (owned_scratch : option (string → string → bool))
    (p requested : ProcessSandboxPolicy) (ceiling_children_may_write : bool) : ProcessSandboxPolicy :=
  mkProcessSandbox
    (match presets p, presets requested with
     | None, None => None
     | _, _ => Some (intersect_presets (effective_presets p) (effective_presets requested))
     end)
    (intersect_roots owned_scratch (read_roots p) (read_roots requested))
    (intersect_roots owned_scratch (write_roots p) (write_roots requested))
    (extend_unique (read_deny_roots p) (read_deny_roots requested))
    (allow_tcp_loopback p)
    (deny_network p || deny_network requested)
    (intersect_roots owned_scratch (unix_socket_roots p) (unix_socket_roots requested))
    (ssh_agent_socket p)
    (allow_process_self_introspection p && allow_process_self_introspection requested)
    (allow_child_workspace_write requested && ceiling_children_may_write)
    (netns_launcher_path p).

(** [iter().filter_map(..).collect()] of a map, keeping its keys. *)
Fixpoint omap_filter {V W} (f : string → V → option W) (m : omap string V) : omap string W :=
  match m with
  | [] => []
  | (k, v) :: m =>
      match f k v with Some w => (k, w) :: omap_filter f m | None => omap_filter f m end
  end.

(** ** What a policy allows *)

Section policy.
Context `{NameGlobs}.

(** [harn_glob::match_name] *)
Definition glob_match (pattern name : string) : bool := (match_name pattern name []).1.

Definition tools_are_restricted (p : CapabilityPolicy) : bool := negb (bool_decide (tools p = [])).
Definition tools_deny_all (p : CapabilityPolicy) : bool := bool_decide (DENY_ALL_SENTINEL ∈ tools p).

Definition allowed_tool_patterns (p : CapabilityPolicy) : list string :=
  if tools_deny_all p then [] else tools p.

Definition encode_restricted_tools (tools : list string) : list string :=
  if bool_decide (tools = []) || bool_decide (DENY_ALL_SENTINEL ∈ tools) then [DENY_ALL_SENTINEL] else tools.

(** [tool_pattern_allows] *)
Definition tool_pattern_allows (p : CapabilityPolicy) (tool : string) : bool :=
  negb (tools_are_restricted p) ||
  (negb (tools_deny_all p) && existsb (λ pattern, glob_match pattern tool) (tools p)).

(** The characters that make a requested name a pattern. *)
Definition pattern_character (b : byte) : bool :=
  bool_decide (b ∈ [Byte.x2a; Byte.x3f; Byte.x5b; Byte.x5d; Byte.x7b; Byte.x7d]).

Definition tool_pattern_within_ceiling (ceiling requested : string) : bool :=
  String.eqb ceiling "*" || String.eqb ceiling requested ||
  (negb (existsb pattern_character (as_bytes requested)) && glob_match ceiling requested).

Definition capabilities_are_restricted (p : CapabilityPolicy) : bool :=
  negb (bool_decide (capabilities p = [])).
Definition capabilities_deny_all (p : CapabilityPolicy) : bool :=
  map_contains DENY_ALL_SENTINEL (capabilities p).

Definition capability_operations (p : CapabilityPolicy) (capability : string) : option (list string) :=
  if capabilities_deny_all p then None else map_get capability (capabilities p).

Definition encode_restricted_capabilities (capabilities : omap string (list string))
    : omap string (list string) :=
  if bool_decide (capabilities = []) || map_contains DENY_ALL_SENTINEL capabilities
  then [(DENY_ALL_SENTINEL, [])] else capabilities.

(** [str::split_once], what comes before. *)
Fixpoint before_first (separator : ascii) (s : string) : option string :=
  match s with
  | EmptyString => None
  | String c s => if decide (c = separator) then Some "" else String c <$> before_first separator s
  end.

(** [operation_is_covered] *)
Definition operation_is_covered (capability allowed requested : string) : bool :=
  String.eqb allowed requested ||
  (String.eqb capability "authority" && negb (str_contains allowed "@") &&
   match before_first "@" requested with Some access => String.eqb access allowed | None => false end).

Definition grants (p : CapabilityPolicy) (capability operation : string) : bool :=
  match map_get capability (capabilities p) with
  | Some allowed => bool_decide (allowed = []) || existsb (String.eqb operation) allowed
  | None => false
  end.

(** [policy_allows_capability] *)
Definition policy_allows_capability (p : CapabilityPolicy) (capability operation : string) : bool :=
  if negb (capabilities_are_restricted p) then true
  else if capabilities_deny_all p then false
  else if match map_get capability (capabilities p) with
          | Some allowed =>
              bool_decide (allowed = []) ||
              existsb (λ candidate, operation_is_covered capability candidate operation) allowed
          | None => false
          end
  then true
  else if String.eqb capability "workspace" && String.eqb operation "exists"
  then grants p "workspace" "read_text" || grants p "workspace" "list"
  else String.eqb capability "llm" && String.eqb operation "catalog" && grants p "llm" "call".

(** [allows_network] *)
Definition allows_network (p : CapabilityPolicy) : bool :=
  match side_effect_level p with
  | Some level =>
      (SideEffectLevel.rank SideEffectLevel.Network <=? SideEffectLevel.rank_str level)%nat
  | None => true
  end.

(** [children_may_write] *)
Definition children_may_write (p : CapabilityPolicy) : bool :=
  allow_child_workspace_write (process_sandbox p) || negb (capabilities_are_restricted p) ||
  match capability_operations p "workspace" with
  | Some ops => existsb (λ op, String.eqb op "write_text" || String.eqb op "delete") ops
  | None => false
  end.
(** ** The meet of a ceiling and a request *)

(** The message of an [Err(String)], by what it names. *)
Inductive PolicyError :=
  | ToolsExceed (denied : list string)
  | OperationsExceed (capability : string) (denied : list string)
  | CapabilityExceeds (capability : string)
  | Widened (dimension : string).

(** The requested tools the ceiling has no pattern for. *)
Definition tools_outside (p requested : CapabilityPolicy) : list string :=
  filter (λ tool, tool ≠ DENY_ALL_SENTINEL ∧
    existsb (λ allowed, tool_pattern_within_ceiling allowed tool) (allowed_tool_patterns p) = false)
    (tools requested).

Definition operations_outside (capability : string) (allowed_ops requested_ops : list string) : list string :=
  if bool_decide (allowed_ops = []) then []
  else filter (λ op, existsb (λ allowed, operation_is_covered capability allowed op) allowed_ops = false)
         requested_ops.

(** The loop over the requested capabilities. *)
Fixpoint check_operations (p : CapabilityPolicy) (requested : omap string (list string))
    : fallible PolicyError unit :=
  match requested with
  | [] => mret tt
  | (capability, requested_ops) :: requested =>
      _ ← match capability_operations p capability with
          | Some allowed_ops =>
              let denied := operations_outside capability allowed_ops requested_ops in
              raise_if (negb (bool_decide (denied = []))) (OperationsExceed capability denied)
          | None => raise_if (capabilities_are_restricted p) (CapabilityExceeds capability)
          end;
      check_operations p requested
  end.

Definition intersect_operations (capability : string) (allowed_ops requested_ops : list string) : list string :=
  if bool_decide (allowed_ops = []) then requested_ops
  else if bool_decide (requested_ops = []) then allowed_ops
  else filter (λ op, existsb (λ allowed, operation_is_covered capability allowed op) allowed_ops = true)
         requested_ops.

Definition intersect_tools (p requested : CapabilityPolicy) : list string :=
  if negb (tools_are_restricted p) then tools requested
  else if negb (tools_are_restricted requested) then tools p
  else if tools_deny_all p || tools_deny_all requested then encode_restricted_tools []
  else filter (λ tool, existsb (λ allowed, tool_pattern_within_ceiling allowed tool)
                         (allowed_tool_patterns p) = true) (tools requested).

Definition intersect_capabilities (p requested : CapabilityPolicy) : omap string (list string) :=
  if negb (capabilities_are_restricted p) then capabilities requested
  else if negb (capabilities_are_restricted requested) then capabilities p
  else if capabilities_deny_all p || capabilities_deny_all requested then encode_restricted_capabilities []
  else omap_filter (λ capability requested_ops,
         (λ allowed_ops, intersect_operations capability allowed_ops requested_ops) <$>
           capability_operations p capability) (capabilities requested).

(** Where a side has no bound, the other's holds. *)
Definition meet_option {A} (f : A → A → A) (a b : option A) : option A :=
  match a, b with
  | Some a, Some b => Some (f a b)
  | Some a, None => Some a
  | None, b => b
  end.

Definition min_side_effect (a b : string) : string :=
  if (SideEffectLevel.rank_str a <=? SideEffectLevel.rank_str b)%nat then a else b.

(** The annotations of the tools that are left, the request's first. *)
Definition intersect_annotations (p requested : CapabilityPolicy) (tools : list string)
    : omap string ToolAnnotations :=
  fold_left (λ m tool,
    match map_get tool (tool_annotations requested), map_get tool (tool_annotations p) with
    | Some a, _ | None, Some a => map_insert tool a m
    | None, None => m
    end) tools [].

(** [CapabilityPolicy::intersect] *)
Definition intersect (owned_scratch : option (string → string → bool)) (p requested : CapabilityPolicy)
    : fallible PolicyError CapabilityPolicy :=
  _ ← (if tools_are_restricted p && negb (tools_deny_all requested) then
         raise_if (negb (bool_decide (tools_outside p requested = []))) (ToolsExceed (tools_outside p requested))
       else mret tt);
  _ ← (if negb (capabilities_deny_all requested) then check_operations p (capabilities requested)
       else mret tt);
  let tools_ := intersect_tools p requested in
  mret (mkPolicy tools_
    (intersect_capabilities p requested)
    (intersect_roots owned_scratch (workspace_roots p) (workspace_roots requested))
    (intersect_roots owned_scratch (read_only_roots p) (read_only_roots requested))
    (meet_option min_side_effect (side_effect_level p) (side_effect_level requested))
    (meet_option N.min (recursion_limit p) (recursion_limit requested))
    (tool_arg_constraints p ++ tool_arg_constraints requested)
    (intersect_annotations p requested tools_)
    (strictest_sandbox_profile (sandbox_profile p) (sandbox_profile requested))
    (sandbox_intersect owned_scratch (process_sandbox p) (process_sandbox requested) (children_may_write p))
    (process_network_proxy p)).
(** ** Checking a computed policy against its ceiling *)

Definition roots_outside (ceiling requested : list string) : list string :=
  filter (λ root, root ∉ ceiling) requested.

Definition widened (b : bool) (dimension : string) : fallible PolicyError unit := raise_if b (Widened dimension).

Definition check_tools (p requested : CapabilityPolicy) : fallible PolicyError unit :=
  if negb (tools_are_restricted p) then mret tt
  else
    _ ← widened (negb (tools_are_restricted requested)) "dropped the tool ceiling";
    if tools_deny_all requested then mret tt
    else
      _ ← widened (tools_deny_all p) "deny-all tools";
      raise_if (negb (bool_decide (tools_outside p requested = []))) (ToolsExceed (tools_outside p requested)).

(** The loop over the requested capabilities. *)
Fixpoint check_capabilities (p : CapabilityPolicy) (requested : omap string (list string))
    : fallible PolicyError unit :=
  match requested with
  | [] => mret tt
  | (capability, requested_ops) :: requested =>
      _ ← match capability_operations p capability with
          | Some allowed_ops =>
              _ ← widened (bool_decide (requested_ops = []) && negb (bool_decide (allowed_ops = [])))
                    "every operation";
              let denied := operations_outside capability allowed_ops requested_ops in
              raise_if (negb (bool_decide (denied = []))) (OperationsExceed capability denied)
          | None => raise_if (capabilities_are_restricted p) (CapabilityExceeds capability)
          end;
      check_capabilities p requested
  end.

Definition check_roots (ceiling requested : list string) (dimension : string) : fallible PolicyError unit :=
  if bool_decide (ceiling = []) then mret tt
  else widened (negb (bool_decide (roots_outside ceiling requested = []))) dimension.

Definition check_recursion (p requested : CapabilityPolicy) : fallible PolicyError unit :=
  match recursion_limit p, recursion_limit requested with
  | None, _ => mret tt
  | Some ceiling_limit, Some requested_limit => widened (ceiling_limit <? requested_limit)%N "recursion budget"
  | Some _, None => widened true "dropped the recursion budget"
  end.

Definition check_side_effects (p requested : CapabilityPolicy) : fallible PolicyError unit :=
  match side_effect_level p, side_effect_level requested with
  | None, _ => mret tt
  | Some ceiling_level, Some requested_level =>
      widened (SideEffectLevel.rank_str ceiling_level <? SideEffectLevel.rank_str requested_level)%nat
        "side-effect level"
  | Some _, None => widened true "dropped the side-effect ceiling"
  end.

Definition check_process_sandbox (p requested : CapabilityPolicy) : fallible PolicyError unit :=
  let ceiling_ps := process_sandbox p in
  let requested_ps := process_sandbox requested in
  _ ← widened (match ssh_agent_socket requested_ps with
               | Some socket => negb (bool_decide (ssh_agent_socket ceiling_ps = Some socket))
               | None => false
               end) "SSH agent socket";
  _ ← widened (negb (bool_decide (roots_outside (read_roots ceiling_ps) (read_roots requested_ps) = [])))
        "process_sandbox.read_roots";
  _ ← widened (negb (bool_decide (roots_outside (write_roots ceiling_ps) (write_roots requested_ps) = [])))
        "process_sandbox.write_roots";
  _ ← widened (negb (bool_decide (roots_outside (unix_socket_roots ceiling_ps) (unix_socket_roots requested_ps) = [])))
        "process_sandbox.unix_socket_roots";
  _ ← widened (negb (bool_decide (roots_outside (read_deny_roots requested_ps) (read_deny_roots ceiling_ps) = [])))
        "dropped read denials";
  _ ← widened (negb (bool_decide (netns_launcher_path requested_ps = netns_launcher_path ceiling_ps)))
        "namespace helper";
  _ ← widened (negb (bool_decide
                (filter (λ preset, preset ∉ effective_presets ceiling_ps) (effective_presets requested_ps) = [])))
        "process_sandbox presets";
  _ ← widened (allow_tcp_loopback requested_ps && negb (allow_tcp_loopback ceiling_ps)) "TCP loopback";
  _ ← widened (allow_process_self_introspection requested_ps &&
               negb (allow_process_self_introspection ceiling_ps)) "process self-introspection";
  widened (allow_child_workspace_write requested_ps && negb (children_may_write p)) "child writes".

Definition check_constraints (p requested : CapabilityPolicy) : fallible PolicyError unit :=
  widened (negb (bool_decide
    (filter (λ c, c ∉ tool_arg_constraints requested) (tool_arg_constraints p) = [])))
    "dropped tool_arg_constraints".

Definition tool_still_granted (requested : CapabilityPolicy) (tool : string) : bool :=
  negb (tools_are_restricted requested) ||
  (negb (tools_deny_all requested) && existsb (λ granted, String.eqb granted tool) (tools requested)).

(** The loop over the ceiling's annotations. *)
Fixpoint check_annotations (requested : CapabilityPolicy) (annotations : omap string ToolAnnotations)
    : fallible PolicyError unit :=
  match annotations with
  | [] => mret tt
  | (tool, annotation) :: annotations =>
      _ ← widened (tool_still_granted requested tool &&
                   negb (bool_decide (map_get tool (tool_annotations requested) = Some annotation)))
            "tool_annotations";
      check_annotations requested annotations
  end.

(** [assert_within_ceiling] *)
Definition assert_within_ceiling (p requested : CapabilityPolicy) : fallible PolicyError unit :=
  _ ← check_tools p requested;
  _ ← widened (capabilities_are_restricted p && negb (capabilities_are_restricted requested))
        "dropped the capability ceiling";
  _ ← (if negb (capabilities_deny_all requested) then check_capabilities p (capabilities requested)
       else mret tt);
  _ ← check_roots (workspace_roots p) (workspace_roots requested) "workspace_roots";
  _ ← check_roots (read_only_roots p) (read_only_roots requested) "read_only_roots";
  _ ← check_recursion p requested;
  _ ← check_side_effects p requested;
  _ ← widened (SandboxProfile.strictness (sandbox_profile requested) <?
               SandboxProfile.strictness (sandbox_profile p))%nat "sandbox profile";
  _ ← check_process_sandbox p requested;
  _ ← check_constraints p requested;
  check_annotations requested (tool_annotations p).

(** ** The wire form *)

(** [CapabilityPolicyWire] as it is serialised: serde skips the proxy. *)
Record CapabilityPolicyWire := mkWire {
  wire_tools : list string;
  wire_tools_restricted : bool;
  wire_capabilities : omap string (list string);
  wire_capabilities_restricted : bool;
  wire_workspace_roots : list string;
  wire_read_only_roots : list string;
  wire_side_effect_level : option string;
  wire_recursion_limit : option N;
  wire_tool_arg_constraints : list ToolArgConstraint;
  wire_tool_annotations : omap string ToolAnnotations;
  wire_sandbox_profile : SandboxProfile.SandboxProfile;
  wire_process_sandbox : ProcessSandboxPolicy
}.

(** [From<&CapabilityPolicy> for CapabilityPolicyWire] *)
Definition to_wire (p : CapabilityPolicy) : CapabilityPolicyWire :=
  mkWire (if tools_deny_all p then [] else tools p) (tools_deny_all p)
    (if capabilities_deny_all p then [] else capabilities p) (capabilities_deny_all p)
    (workspace_roots p) (read_only_roots p) (side_effect_level p) (recursion_limit p)
    (tool_arg_constraints p) (tool_annotations p) (sandbox_profile p) (process_sandbox p).

(** [From<CapabilityPolicyWire> for CapabilityPolicy], after serde read it. *)
Definition from_wire (w : CapabilityPolicyWire) : CapabilityPolicy :=
  mkPolicy
    (if wire_tools_restricted w || bool_decide (DENY_ALL_SENTINEL ∈ wire_tools w)
     then encode_restricted_tools (wire_tools w) else wire_tools w)
    (if wire_capabilities_restricted w || map_contains DENY_ALL_SENTINEL (wire_capabilities w)
     then encode_restricted_capabilities (wire_capabilities w) else wire_capabilities w)
    (wire_workspace_roots w) (wire_read_only_roots w) (wire_side_effect_level w) (wire_recursion_limit w)
    (wire_tool_arg_constraints w) (wire_tool_annotations w) (wire_sandbox_profile w)
    (wire_process_sandbox w) None.

(** [restrict_tools], [restrict_capabilities] *)
Definition restrict_tools (tools_ : list string) (p : CapabilityPolicy) : CapabilityPolicy :=
  mkPolicy (encode_restricted_tools tools_) (capabilities p) (workspace_roots p) (read_only_roots p)
    (side_effect_level p) (recursion_limit p) (tool_arg_constraints p) (tool_annotations p)
    (sandbox_profile p) (process_sandbox p) (process_network_proxy p).
Definition restrict_capabilities (capabilities_ : omap string (list string)) (p : CapabilityPolicy)
    : CapabilityPolicy :=
  mkPolicy (tools p) (encode_restricted_capabilities capabilities_) (workspace_roots p) (read_only_roots p)
    (side_effect_level p) (recursion_limit p) (tool_arg_constraints p) (tool_annotations p)
    (sandbox_profile p) (process_sandbox p) (process_network_proxy p).
End policy.
