(* ===== verification/PolicySound.v ===== *)
(** * What capability policies guarantee

    Policies are ordered by authority; [intersect] is the meet of a ceiling and
    a request, so nesting never widens, and a computed policy that
    [assert_within_ceiling] accepts lies below its ceiling. Where the code
    leaves that order is listed in [policy_gaps]. *)

From Stdlib Require Import Strings.String Strings.Ascii.
From S2P Require Import Prelude Split Ordered Fallible Text Glob GlobName Policy.
Open Scope string_scope.

(** A tool name or pattern without an escape. *)
Definition unescaped (tool : string) : Prop := Byte.x5c ∉ as_bytes tool.

#[export] Instance unescaped_dec tool : Decision (unescaped tool).
Proof. unfold unescaped. apply _. Defined.

Lemma filter_keeps_all {A} (P : A → Prop) `{∀ x, Decision (P x)} l : Forall P l → filter P l = l.
Proof. induction 1 as [|x l Hx _ IH]; [done|]. rewrite filter_cons_True by done. by rewrite IH. Qed.

Lemma filter_keeps_none {A} (P : A → Prop) `{∀ x, Decision (P x)} l : filter P l = [] ↔ Forall (λ x, ¬ P x) l.
Proof.
  rewrite Forall_forall. split.
  - intros Hf x Hin HP. assert (x ∈ filter P l) as Hx by (by apply list_elem_of_filter). rewrite Hf in Hx. set_solver.
  - intros Hn. destruct (filter P l) as [|x k] eqn:E; [done|].
    assert (x ∈ filter P l) as Hx by (rewrite E; left). apply list_elem_of_filter in Hx as [HP Hin]. by destruct (Hn x).
Qed.

(** ** The order of authority *)

(** No bound is above every bound. *)
Definition bound_le {A} (le : A → A → Prop) (a b : option A) : Prop :=
  match a, b with
  | _, None => True
  | Some a, Some b => le a b
  | None, Some _ => False
  end.

Definition effects_le (a b : string) : Prop := (SideEffectLevel.rank_str a <= SideEffectLevel.rank_str b)%nat.

Section order.
Context `{NameGlobs}.

Definition tools_le (p q : CapabilityPolicy) : Prop :=
  ∀ t, tool_pattern_allows p t = true → tool_pattern_allows q t = true.

(** Everything but the tools. *)
Record bounds_le (p q : CapabilityPolicy) : Prop := {
  le_capabilities c o : policy_allows_capability p c o = true → policy_allows_capability q c o = true;
  le_recursion : bound_le N.le (recursion_limit p) (recursion_limit q);
  le_effects : bound_le effects_le (side_effect_level p) (side_effect_level q);
  le_confinement :
    (SandboxProfile.strictness (sandbox_profile q) <= SandboxProfile.strictness (sandbox_profile p))%nat;
  le_constraints : tool_arg_constraints q ⊆ tool_arg_constraints p;
  le_denials : read_deny_roots (process_sandbox q) ⊆ read_deny_roots (process_sandbox p);
  le_presets : effective_presets (process_sandbox p) ⊆ effective_presets (process_sandbox q);
  le_introspection :
    allow_process_self_introspection (process_sandbox p) = true →
    allow_process_self_introspection (process_sandbox q) = true
}.

Record authority_le (p q : CapabilityPolicy) : Prop := {
  le_tools : tools_le p q;
  le_bounds : bounds_le p q
}.

#[export] Instance bound_le_preorder {A} (le : A → A → Prop) `{!PreOrder le} : PreOrder (bound_le le).
Proof.
  split; [by intros [a|]; cbn|]. intros [a|] [b|] [c|]; cbn; try done. apply transitivity.
Qed.

#[export] Instance effects_le_preorder : PreOrder effects_le.
Proof. unfold effects_le. split; [intros a; lia|intros a b c; lia]. Qed.

#[export] Instance bounds_preorder : PreOrder bounds_le.
Proof.
  split.
  - intros p. by split.
  - intros p q r [] []. split; try lia; auto; by etransitivity.
Qed.

#[export] Instance authority_preorder : PreOrder authority_le.
Proof.
  split; [intros p; split; [by intros t|done]|]. intros p q r [] []. split; [|by etransitivity].
  intros t Ht. auto.
Qed.

(** What only the host may grant. *)
Record host_owned (p q : CapabilityPolicy) : Prop := {
  host_loopback : allow_tcp_loopback (process_sandbox p) = allow_tcp_loopback (process_sandbox q);
  host_socket : ssh_agent_socket (process_sandbox p) = ssh_agent_socket (process_sandbox q);
  host_launcher : netns_launcher_path (process_sandbox p) = netns_launcher_path (process_sandbox q);
  host_proxy : process_network_proxy p = process_network_proxy q
}.

(** ** Tools *)

Lemma glob_match_spec pattern name : glob_match pattern name = true ↔ NameMeans pattern name.
Proof. apply (match_name_spec pattern name []), empty_cache_ok. Qed.

(** A requested name that is not a pattern is a literal, unless it has an escape. *)
Lemma unescaped_literal tool :
  unescaped tool → existsb pattern_character (as_bytes tool) = false → literal tool.
Proof.
  unfold unescaped, literal, has_name_metacharacters. induction (as_bytes tool) as [|b bs IH]; cbn; [done|].
  rewrite not_elem_of_cons, !orb_false_iff. intros [Hb Hbs] [Hp Hps]. split; [|auto].
  unfold pattern_character in Hp. unfold metacharacter. rewrite bool_decide_eq_false in *. set_solver.
Qed.

Lemma within_ceiling ceiling requested t :
  unescaped requested → tool_pattern_within_ceiling ceiling requested = true →
  glob_match requested t = true → glob_match ceiling t = true.
Proof.
  unfold tool_pattern_within_ceiling. intros Hu Hw.
  rewrite !orb_true_iff, !String.eqb_eq, andb_true_iff, negb_true_iff in Hw.
  destruct Hw as [[-> | ->]|[Hp Hm]]; [|done|]; rewrite !glob_match_spec.
  - intros _. change (NameMeans ("" ++ "*") t). apply means_prefix; [done|by exists t].
  - rewrite means_exact by (by apply unescaped_literal). intros ->. by apply glob_match_spec.
Qed.

Lemma tools_restricted_false p : tools_are_restricted p = false ↔ tools p = [].
Proof. unfold tools_are_restricted. by rewrite negb_false_iff, bool_decide_eq_true. Qed.

Lemma allowed_patterns p : tools_deny_all p = false → allowed_tool_patterns p = tools p.
Proof. unfold allowed_tool_patterns. by intros ->. Qed.

(** No requested tool lies outside: each is within some pattern of the ceiling. *)
Lemma tools_within p q tool :
  tools_outside p q = [] → tools_deny_all q = false → tool ∈ tools q →
  existsb (λ allowed, tool_pattern_within_ceiling allowed tool) (allowed_tool_patterns p) = true.
Proof.
  unfold tools_deny_all. rewrite bool_decide_eq_false. intros Ho Hd Hin. apply not_false_iff_true. intros Hf.
  assert (tool ∈ tools_outside p q) as Hout; [|rewrite Ho in Hout; set_solver].
  apply list_elem_of_filter. split; [|done]. split; [congruence|done].
Qed.

Lemma tools_below p q t :
  Forall unescaped (tools q) → tools_outside p q = [] → tools_are_restricted q = true →
  tool_pattern_allows q t = true → tool_pattern_allows p t = true.
Proof.
  unfold tool_pattern_allows at 1. intros Hu Ho -> [Hd Hm]%andb_true_iff. rewrite negb_true_iff in Hd.
  apply existsb_exists in Hm as (pattern & Hin%list_elem_of_In & Hm).
  rewrite Forall_forall in Hu. pose proof (tools_within p q pattern Ho Hd Hin) as Hw.
  apply existsb_exists in Hw as (allowed & Ha & Hw). unfold tool_pattern_allows.
  apply orb_true_iff. right. unfold allowed_tool_patterns in Ha.
  destruct (tools_deny_all p); [done|]. apply existsb_exists. exists allowed. split; [done|].
  eapply within_ceiling; eauto.
Qed.
(** The tools of the meet are those both sides allow. *)
Definition tools_guard (p q : CapabilityPolicy) : Prop :=
  tools_are_restricted p = true → tools_deny_all q = false → tools_outside p q = [].

Lemma tool_allows_same p q t : tools p = tools q → tool_pattern_allows p t = tool_pattern_allows q t.
Proof. unfold tool_pattern_allows, tools_are_restricted, tools_deny_all. by intros ->. Qed.

Lemma tool_allows_unrestricted p t : tools p = [] → tool_pattern_allows p t = true.
Proof. intros Hp. unfold tool_pattern_allows. by rewrite (proj2 (tools_restricted_false p) Hp). Qed.

Lemma tool_allows_denied p t : tools_deny_all p = true → tool_pattern_allows p t = false.
Proof.
  unfold tool_pattern_allows. intros Hd. rewrite Hd. unfold tools_are_restricted, tools_deny_all in *.
  rewrite bool_decide_eq_true in Hd. destruct (tools p); [by apply elem_of_nil in Hd|done].
Qed.

(** The tools of the meet are the ceiling's, the request's, or none. *)
Lemma meet_tools_cases p q r :
  tools_guard p q → tools r = intersect_tools p q →
  (tools q = [] ∧ tools r = tools p) ∨
  (tools r = tools q ∧ (tools p = [] ∨ tools_are_restricted q = true ∧ tools_outside p q = [])) ∨
  (tools_deny_all r = true ∧ (tools_deny_all p = true ∨ tools_deny_all q = true)).
Proof.
  intros Hg Hr. unfold intersect_tools in Hr.
  destruct (tools_are_restricted p) eqn:Ep; cbn [negb] in Hr;
    [|apply tools_restricted_false in Ep; by auto].
  destruct (tools_are_restricted q) eqn:Eq; cbn [negb] in Hr;
    [|apply tools_restricted_false in Eq; by auto].
  destruct (tools_deny_all p || tools_deny_all q) eqn:Ed.
  - right; right. split; [unfold tools_deny_all; by rewrite Hr|]. by apply orb_true_iff.
  - apply orb_false_iff in Ed as [_ Ed]. specialize (Hg Ep Ed). right; left.
    split; [|by auto]. rewrite Hr. apply filter_keeps_all, Forall_forall. intros tool Hin. by eapply tools_within.
Qed.

(** It allows what both sides allow, nothing but what the request allows, and
    without escapes nothing but what the ceiling allows. *)
Lemma meet_tools_le p q r :
  tools_guard p q → tools r = intersect_tools p q →
  (∀ s, tools_le s p → tools_le s q → tools_le s r) ∧ tools_le r q ∧
  (Forall unescaped (tools q) → tools_le r p).
Proof.
  intros Hg Hr. unfold tools_le.
  destruct (meet_tools_cases p q r Hg Hr) as [[Hq Hp]|[[Hq Hor]|[Hd Hor]]].
  - pose proof (λ t, tool_allows_same r p t Hp) as Hsame. setoid_rewrite Hsame.
    split_and!; auto. intros t _. by apply tool_allows_unrestricted.
  - pose proof (λ t, tool_allows_same r q t Hq) as Hsame. setoid_rewrite Hsame.
    split_and!; auto. intros Hu t Ht. destruct Hor as [Hp|[Eq Ho]]; [by apply tool_allows_unrestricted|by eapply tools_below].
  - split_and!.
    + intros s Hsp Hsq t Ht. exfalso.
      destruct Hor as [Hn|Hn]; [specialize (Hsp t Ht)|specialize (Hsq t Ht)];
        rewrite tool_allows_denied in * by done; done.
    + intros t. by rewrite (tool_allows_denied r).
    + intros _ t. by rewrite (tool_allows_denied r).
Qed.

(** ** Capabilities *)

Lemma before_first_contains s access : before_first "@" s = Some access → str_contains s "@" = true.
Proof.
  intros Hb. apply str_contains_spec. revert access Hb. induction s as [|c s IH]; cbn; [done|]. intros access.
  case_decide as Hc; [intros _; exists "", s; by subst|].
  destruct (before_first "@" s) as [a|]; [|done]. intros _. destruct (IH a eq_refl) as (before & rest & ->).
  by exists (String c before), rest.
Qed.

Lemma covered_refl c o : operation_is_covered c o o = true.
Proof. unfold operation_is_covered. by rewrite String.eqb_refl. Qed.

Lemma covered_trans c a b o :
  operation_is_covered c a b = true → operation_is_covered c b o = true → operation_is_covered c a o = true.
Proof.
  unfold operation_is_covered. rewrite !orb_true_iff, !andb_true_iff, !negb_true_iff, !String.eqb_eq.
  intros [->|[[-> Ha] Hab]]; [done|]. intros [->|[[_ Hb] _]]; [by right|].
  destruct (before_first "@" b) as [access|] eqn:E; [|done]. apply before_first_contains in E. congruence.
Qed.

Lemma covered_plain c a o : c ≠ "authority" → operation_is_covered c a o = String.eqb a o.
Proof.
  intros Hc. unfold operation_is_covered. rewrite (proj2 (String.eqb_neq c "authority") Hc). apply orb_false_r.
Qed.

(** What a list of granted operations allows. *)
Definition operations_allow (c : string) (ops : list string) (o : string) : bool :=
  bool_decide (ops = []) || existsb (λ a, operation_is_covered c a o) ops ||
  (String.eqb c "workspace" && String.eqb o "exists" &&
    (existsb (String.eqb "read_text") ops || existsb (String.eqb "list") ops)) ||
  (String.eqb c "llm" && String.eqb o "catalog" && existsb (String.eqb "call") ops).

Lemma policy_allows_operations p c o :
  policy_allows_capability p c o =
    negb (capabilities_are_restricted p) ||
    match capability_operations p c with Some ops => operations_allow c ops o | None => false end.
Proof.
  unfold policy_allows_capability, capability_operations, operations_allow, grants.
  destruct (capabilities_are_restricted p); [cbn [negb orb]|done].
  destruct (capabilities_deny_all p); [done|].
  destruct (String.eqb_spec c "workspace") as [->|_].
  - destruct (map_get "workspace" (capabilities p)) as [ops|]; [|by destruct (String.eqb o "exists")].
    destruct (bool_decide (ops = [])); [done|]. cbn [orb].
    destruct (existsb (λ a, operation_is_covered _ a o) ops); [done|]. cbn.
    destruct (String.eqb o "exists"); [by rewrite orb_false_r|done].
  - destruct (String.eqb_spec c "llm") as [->|_].
    + destruct (map_get "llm" (capabilities p)) as [ops|]; [|by cbn; rewrite andb_false_r].
      destruct (bool_decide (ops = [])); [done|]. cbn [orb].
      by destruct (existsb (λ a, operation_is_covered _ a o) ops).
    + destruct (map_get c (capabilities p)) as [ops|]; [|done]. cbn [andb]. rewrite !orb_false_r.
      by destruct (bool_decide (ops = []) || _).
Qed.

Lemma operations_within c al ops a :
  operations_outside c al ops = [] → al ≠ [] → a ∈ ops →
  existsb (λ allowed, operation_is_covered c allowed a) al = true.
Proof.
  unfold operations_outside. intros Ho Hal Hin. rewrite bool_decide_eq_false_2 in Ho by done.
  apply not_false_iff_true. intros Hf.
  match type of Ho with ?l = [] => assert (a ∈ l) as Hout; [|rewrite Ho in Hout; set_solver] end.
  by apply list_elem_of_filter.
Qed.

Lemma existsb_elem {A} (f : A → bool) l : existsb f l = true ↔ ∃ x, x ∈ l ∧ f x = true.
Proof. rewrite existsb_exists. by setoid_rewrite list_elem_of_In. Qed.

(** Operations within the ceiling's allow no more than it does. *)
Lemma operations_below c al ops o :
  operations_outside c al ops = [] → (ops = [] → al = []) →
  operations_allow c ops o = true → operations_allow c al o = true.
Proof.
  intros Ho Hne. unfold operations_allow. destruct (bool_decide_reflect (al = [])) as [|Hal]; [done|].
  rewrite (bool_decide_eq_false_2 (ops = [])) by (intros ?; auto).
  assert (∀ a, c ≠ "authority" → existsb (String.eqb a) ops = true → existsb (String.eqb a) al = true) as Hplain.
  { intros a Hc (a' & Hin & ->%String.eqb_eq)%existsb_elem.
    pose proof (operations_within c al ops a' Ho Hal Hin) as Hw. apply existsb_elem in Hw as (b & Hb & Hw).
    rewrite covered_plain, String.eqb_eq in Hw by done. subst. apply existsb_elem.
    exists a'. by rewrite String.eqb_refl. }
  rewrite !orb_true_iff, !andb_true_iff, !orb_true_iff, !String.eqb_eq. cbn [orb].
  intros [[[?|(a & Hin & Ha)%existsb_elem]|[[-> ->] Hl]]|[[-> ->] Hl]]; [done| | |].
  - left; left; right. pose proof (operations_within c al ops a Ho Hal Hin) as Hw.
    apply existsb_elem in Hw as (b & Hb & Hw). apply existsb_elem. exists b. split; [done|]. by eapply covered_trans.
  - left; right. split; [done|]. destruct Hl as [Hl|Hl]; [left|right]; by apply Hplain.
  - right. split; [done|]. by apply Hplain.
Qed.
Lemma capabilities_restricted_false p : capabilities_are_restricted p = false ↔ capabilities p = [].
Proof. unfold capabilities_are_restricted. by rewrite negb_false_iff, bool_decide_eq_true. Qed.

Lemma capability_allows_same p q c o :
  capabilities p = capabilities q → policy_allows_capability p c o = policy_allows_capability q c o.
Proof.
  rewrite !policy_allows_operations.
  unfold capabilities_are_restricted, capability_operations, capabilities_deny_all. by intros ->.
Qed.

Lemma capability_allows_unrestricted p c o : capabilities p = [] → policy_allows_capability p c o = true.
Proof.
  intros Hp. rewrite policy_allows_operations. by rewrite (proj2 (capabilities_restricted_false p) Hp).
Qed.

Lemma capability_allows_denied p c o : capabilities_deny_all p = true → policy_allows_capability p c o = false.
Proof.
  intros Hd. rewrite policy_allows_operations. unfold capability_operations. rewrite Hd.
  destruct (capabilities_are_restricted p) eqn:E; [done|]. apply capabilities_restricted_false in E.
  unfold capabilities_deny_all in Hd. by rewrite E in Hd.
Qed.

(** What the loop over the requested capabilities accepts. *)
Lemma check_operations_returned p m :
  check_operations p m = Returned tt →
  ∀ c ops, map_get c m = Some ops →
    match capability_operations p c with
    | Some al => operations_outside c al ops = []
    | None => capabilities_are_restricted p = false
    end.
Proof.
  induction m as [|[c' ops'] m IH]; [done|]. cbn. intros (u & Hc & Hm)%fallible_bind_returned c ops.
  case_decide as Heq; [|by apply IH; destruct u]. subst. intros [= ->].
  destruct (capability_operations p c') as [al|]; unfold raise_if in Hc.
  - destruct (bool_decide_reflect (operations_outside c' al ops = [])); done.
  - by destruct (capabilities_are_restricted p).
Qed.

Lemma check_operations_entry p m c ops :
  check_operations p m = Returned tt → (c, ops) ∈ m →
  is_Some (capability_operations p c) ∨ capabilities_are_restricted p = false.
Proof.
  induction m as [|[c' ops'] m IH]; cbn; [by intros _ ?%elem_of_nil|].
  intros (u & Hc & Hm)%fallible_bind_returned [Heq|Hin]%elem_of_cons; [|apply IH; [by destruct u|done]].
  injection Heq as -> ->. destruct (capability_operations p c'); [by left; eexists|right].
  unfold raise_if in Hc. by destruct (capabilities_are_restricted p).
Qed.

Lemma map_get_omap_filter {V W} (f : string → V → option W) m k :
  (∀ k v, (k, v) ∈ m → is_Some (f k v)) → map_get k (omap_filter f m) = map_get k m ≫= f k.
Proof.
  intros Hf. induction m as [|[k' v] m IH]; [done|]. cbn.
  destruct (Hf k' v) as [w Hw]; [by left|]. rewrite Hw. cbn. case_decide as Hk; [by subst|].
  apply IH. intros k0 v0 Hin. apply Hf. by right.
Qed.

Lemma omap_filter_nonempty {V W} (f : string → V → option W) m :
  (∀ k v, (k, v) ∈ m → is_Some (f k v)) → m ≠ [] → omap_filter f m ≠ [].
Proof. intros Hf Hm. destruct m as [|[k v] m]; [done|]. cbn. destruct (Hf k v) as [w ->]; [by left|done]. Qed.

Definition capabilities_guard (p q : CapabilityPolicy) : Prop :=
  capabilities_deny_all q = false → check_operations p (capabilities q) = Returned tt.

(** Both sides' operations and the meet of them allow the same. *)
Lemma meet_operations c al ops o :
  operations_outside c al ops = [] →
  operations_allow c (intersect_operations c al ops) o = operations_allow c al o && operations_allow c ops o.
Proof.
  intros Ho. unfold intersect_operations.
  destruct (bool_decide_reflect (al = [])) as [->|Hal]; [done|].
  destruct (bool_decide_reflect (ops = [])) as [->|Hops]; [by rewrite andb_true_r|].
  rewrite filter_keeps_all by (apply Forall_forall; intros a Hin; by eapply operations_within).
  destruct (operations_allow c ops o) eqn:E; [|by rewrite andb_false_r].
  by rewrite (operations_below c al ops o).
Qed.

Lemma meet_capabilities p q r c o :
  capabilities_guard p q → capabilities r = intersect_capabilities p q →
  policy_allows_capability r c o = policy_allows_capability p c o && policy_allows_capability q c o.
Proof.
  intros Hg Hr. unfold intersect_capabilities in Hr.
  destruct (capabilities_are_restricted p) eqn:Ep; cbn [negb] in Hr.
  2: { apply capabilities_restricted_false in Ep.
       by rewrite (capability_allows_same r q), (capability_allows_unrestricted p). }
  destruct (capabilities_are_restricted q) eqn:Eq; cbn [negb] in Hr.
  2: { apply capabilities_restricted_false in Eq.
       by rewrite (capability_allows_same r p), (capability_allows_unrestricted q), andb_true_r. }
  destruct (capabilities_deny_all p || capabilities_deny_all q) eqn:Ed.
  { rewrite (capability_allows_denied r) by (unfold capabilities_deny_all; by rewrite Hr).
    symmetry. apply andb_false_iff. apply orb_true_iff in Ed as [Ed|Ed]; [left|right]; by apply capability_allows_denied. }
  apply orb_false_iff in Ed as [Edp Edq]. specialize (Hg Edq).
  assert (∀ c ops, (c, ops) ∈ capabilities q →
    is_Some ((λ allowed_ops, intersect_operations c allowed_ops ops) <$> capability_operations p c)) as Hsome.
  { intros c' ops Hin. destruct (check_operations_entry p _ c' ops Hg Hin) as [[al ->]|?]; [by eexists|congruence]. }
  assert (∀ c, capability_operations r c =
    map_get c (capabilities q) ≫= λ ops, (λ al, intersect_operations c al ops) <$> capability_operations p c) as Hget.
  { intros c'. unfold capability_operations at 1, capabilities_deny_all, map_contains.
    rewrite Hr, !map_get_omap_filter by done.
    unfold capabilities_deny_all, map_contains in Edq. by destruct (map_get DENY_ALL_SENTINEL (capabilities q)). }
  rewrite !policy_allows_operations, Ep, Eq, Hget.
  assert (capabilities_are_restricted r = true) as ->.
  { unfold capabilities_are_restricted. rewrite bool_decide_eq_false_2; [done|]. rewrite Hr.
    apply omap_filter_nonempty; [done|]. intros Hq. by apply capabilities_restricted_false in Hq; rewrite Hq in Eq. }
  cbn [negb orb].
  assert (capability_operations q c = map_get c (capabilities q)) as ->
    by (unfold capability_operations; by rewrite Edq).
  destruct (map_get c (capabilities q)) as [ops|] eqn:E; cbn; [|by rewrite andb_false_r].
  pose proof (check_operations_returned p _ Hg c ops E) as Ho. clear E.
  destruct (capability_operations p c) as [al|]; cbn; [by apply meet_operations|done].
Qed.
(** ** The other dimensions *)

Lemma meet_bound {A} (le : A → A → Prop) f (s a b : option A) :
  (∀ x y z, le x (f y z) ↔ le x y ∧ le x z) →
  bound_le le s (meet_option f a b) ↔ bound_le le s a ∧ bound_le le s b.
Proof. intros Hf. destruct s, a, b; cbn; try rewrite Hf; tauto. Qed.

Lemma min_recursion x y z : (x <= N.min y z)%N ↔ (x <= y)%N ∧ (x <= z)%N.
Proof. lia. Qed.

Lemma min_effects x y z : effects_le x (min_side_effect y z) ↔ effects_le x y ∧ effects_le x z.
Proof.
  unfold effects_le, min_side_effect. destruct (Nat.leb_spec (SideEffectLevel.rank_str y) (SideEffectLevel.rank_str z)); lia.
Qed.

Lemma strictest_strictness a b :
  SandboxProfile.strictness (strictest_sandbox_profile a b) =
    Nat.max (SandboxProfile.strictness a) (SandboxProfile.strictness b).
Proof. by destruct a, b. Qed.

Lemma elem_of_extend_unique x target roots : x ∈ extend_unique target roots ↔ x ∈ target ∨ x ∈ roots.
Proof.
  unfold extend_unique. revert target. induction roots as [|root roots IH]; intros target; cbn; [set_solver|].
  rewrite IH. case_bool_decide; set_solver.
Qed.

Lemma elem_of_meet_presets x owned p q b :
  x ∈ effective_presets (sandbox_intersect owned p q b) ↔ x ∈ effective_presets p ∧ x ∈ effective_presets q.
Proof.
  assert (∀ l k, x ∈ intersect_presets l k ↔ x ∈ l ∧ x ∈ k) as Hi
    by (intros l k; unfold intersect_presets; rewrite list_elem_of_filter; tauto).
  rewrite <- Hi. unfold sandbox_intersect, effective_presets. cbn [presets].
  destruct (presets p), (presets q); cbn [default from_option]; done.
Qed.

(** ** Roots *)

Lemma starts_with_prefix {A} `{EqDecision A} (l k : list A) : starts_with l k = true ↔ k `prefix_of` l.
Proof.
  revert l. induction k as [|x k IH]; intros l; cbn [starts_with]; [split; [intros _; apply prefix_nil|by destruct l]|].
  destruct l as [|y l]; [split; [done|intros Hp; by apply prefix_nil_not in Hp]|].
  cbn [starts_with]. rewrite andb_true_iff, bool_decide_eq_true, IH. split; [intros [-> Hp]; by apply prefix_cons|].
  intros Hp. split; [by apply prefix_cons_inv_1 in Hp|by apply prefix_cons_inv_2 in Hp].
Qed.

Lemma root_within_refl owned root : root_is_within owned root root = true.
Proof. apply orb_true_iff. left. by apply starts_with_prefix. Qed.

Lemma root_within_lexical path root :
  root_is_within None path root = true ↔ path_components root `prefix_of` path_components path.
Proof. unfold root_is_within. by rewrite orb_false_r, starts_with_prefix. Qed.

Definition in_scope (roots : list string) (path : string) : Prop :=
  ∃ root, root ∈ roots ∧ root_is_within None path root = true.

Lemma elem_of_meet_roots owned host requested x :
  host ≠ [] → requested ≠ [] →
  x ∈ intersect_roots owned host requested ↔ ∃ root, root ∈ requested ∧ x ∈ clamp_root owned host root.
Proof.
  intros Hh Hr. unfold intersect_roots. destruct host as [|h host]; [done|]. destruct requested as [|r requested]; [done|].
  rewrite elem_of_to_set, list_elem_of_In, in_concat. split.
  - intros (l & (root & <- & Hin)%in_map_iff & Hx). exists root. by rewrite !list_elem_of_In.
  - intros (root & Hin & Hx). exists (clamp_root owned (h :: host) root). split; [|by apply list_elem_of_In].
    apply in_map_iff. exists root. split; [done|]. by apply list_elem_of_In.
Qed.

Lemma elem_of_clamp_root owned host root x :
  x ∈ clamp_root owned host root →
  (∃ h, h ∈ host ∧ root_is_within owned x h = true) ∧ root_is_within owned x root = true.
Proof.
  unfold clamp_root. destruct (existsb (root_is_within owned root) host) eqn:E.
  - intros ->%list_elem_of_singleton. split; [by apply existsb_elem|apply root_within_refl].
  - intros [Hx Hin]%list_elem_of_filter. split; [|done]. exists x. split; [done|apply root_within_refl].
Qed.

(** Roots left by the meet lie inside a root of either side that has any. *)
Lemma meet_roots_within owned host requested x :
  x ∈ intersect_roots owned host requested →
  (host ≠ [] → ∃ h, h ∈ host ∧ root_is_within owned x h = true) ∧
  (requested ≠ [] → ∃ r, r ∈ requested ∧ root_is_within owned x r = true).
Proof.
  destruct host as [|h host]; [intros Hx; split; [done|]; intros _; exists x; split; [done|apply root_within_refl]|].
  destruct requested as [|r requested];
    [intros Hx; split; [|done]; intros _; exists x; split; [done|apply root_within_refl]|].
  rewrite elem_of_meet_roots by done. intros (root & Hin & Hx).
  apply elem_of_clamp_root in Hx as [Hh Hr]. split; [done|]. intros _. by exists root.
Qed.

(** Without a scratch resolver they cover what both sides cover. *)
Lemma meet_roots_scope host requested path :
  host ≠ [] → requested ≠ [] →
  in_scope (intersect_roots None host requested) path ↔ in_scope host path ∧ in_scope requested path.
Proof.
  intros Hh Hr. unfold in_scope. split.
  - intros (x & (root & Hin & Hx)%elem_of_meet_roots & Hw); [|done..].
    apply elem_of_clamp_root in Hx as [(h & Hhin & Hxh) Hxr].
    rewrite !root_within_lexical in *.
    split; [exists h|exists root]; (split; [done|]); apply root_within_lexical; by etransitivity.
  - intros [(h & Hhin & Hph) (root & Hin & Hpr)].
    setoid_rewrite elem_of_meet_roots; [|done..]. unfold clamp_root.
    destruct (existsb (root_is_within None root) host) eqn:E.
    + exists root. split; [|done]. exists root. split; [done|]. rewrite E. by apply list_elem_of_singleton.
    + rewrite root_within_lexical in Hph, Hpr.
      assert (root_is_within None root h = false) as Hno.
      { apply not_true_iff_false. intros Hw. apply not_true_iff_false in E. apply E, existsb_elem. by exists h. }
      exists h. split; [|by apply root_within_lexical]. exists root. split; [done|]. rewrite E.
      apply list_elem_of_filter. split; [|done].
      destruct (prefix_weak_total _ _ _ Hph Hpr) as [Hp|Hp]; apply root_within_lexical in Hp; [congruence|done].
Qed.
(** ** The meet *)

Lemma intersect_returned owned p q r :
  intersect owned p q = Returned r → tools_guard p q ∧ capabilities_guard p q.
Proof.
  unfold intersect. intros (u & Ht & (u' & Hc & _)%fallible_bind_returned)%fallible_bind_returned. split.
  - intros Ep Eq. rewrite Ep, Eq in Ht. cbn in Ht. unfold raise_if in Ht.
    by destruct (bool_decide_reflect (tools_outside p q = [])).
  - intros Eq. rewrite Eq in Hc. by destruct u'.
Qed.

Lemma intersect_fields owned p q r :
  intersect owned p q = Returned r →
  tools r = intersect_tools p q ∧ capabilities r = intersect_capabilities p q ∧
  r = mkPolicy (tools r) (capabilities r)
    (intersect_roots owned (workspace_roots p) (workspace_roots q))
    (intersect_roots owned (read_only_roots p) (read_only_roots q))
    (meet_option min_side_effect (side_effect_level p) (side_effect_level q))
    (meet_option N.min (recursion_limit p) (recursion_limit q))
    (tool_arg_constraints p ++ tool_arg_constraints q) (tool_annotations r)
    (strictest_sandbox_profile (sandbox_profile p) (sandbox_profile q))
    (sandbox_intersect owned (process_sandbox p) (process_sandbox q) (children_may_write p))
    (process_network_proxy p).
Proof.
  unfold intersect. intros Hi. apply fallible_bind_returned in Hi as (_ & _ & Hi).
  apply fallible_bind_returned in Hi as (_ & _ & Hi). injection Hi as <-. by split_and!.
Qed.

Lemma intersect_bounds owned p q r s :
  intersect owned p q = Returned r → bounds_le s r ↔ bounds_le s p ∧ bounds_le s q.
Proof.
  intros Hi. destruct (intersect_returned owned p q r Hi) as [_ Hc].
  destruct (intersect_fields owned p q r Hi) as (_ & Hcr & Hr).
  assert (∀ c o, policy_allows_capability r c o = true ↔
      policy_allows_capability p c o = true ∧ policy_allows_capability q c o = true) as Hcaps
    by (intros c o; rewrite <- andb_true_iff, (meet_capabilities p q r c o); done).
  pose proof (meet_bound N.le N.min (recursion_limit s) (recursion_limit p) (recursion_limit q) min_recursion) as Hrec.
  pose proof (meet_bound effects_le min_side_effect (side_effect_level s) (side_effect_level p) (side_effect_level q)
    min_effects) as Heff.
  pose proof (strictest_strictness (sandbox_profile p) (sandbox_profile q)) as Hprofile.
  clear Hcr. rewrite Hr. rewrite Hr in Hcaps. clear Hr. split.
  - intros [Hc' Hr' He' Hs' Hk' Hd' Hp' Hn']. cbn in *. unfold subseteq, list_subseteq in *.
    setoid_rewrite Hcaps in Hc'.
    setoid_rewrite elem_of_extend_unique in Hd'. setoid_rewrite (λ x, elem_of_meet_presets x owned (process_sandbox p) (process_sandbox q) (children_may_write p)) in Hp'.
    setoid_rewrite elem_of_app in Hk'. setoid_rewrite andb_true_iff in Hn'.
    split; (split;
      [intros c o Hs; by apply Hc'|by apply Hrec|by apply Heff|lia
      |intros x Hx; apply Hk'; auto|intros x Hx; apply Hd'; auto|intros x Hx; by apply Hp'
      |intros Hs; by apply Hn']).
  - intros [[] []]. split; cbn.
    + intros c o Hs. apply Hcaps. auto.
    + by apply Hrec.
    + by apply Heff.
    + lia.
    + intros x [Hx|Hx]%elem_of_app; auto.
    + intros x [Hx|Hx]%elem_of_extend_unique; auto.
    + intros x Hx. apply (elem_of_meet_presets x owned (process_sandbox p) (process_sandbox q) (children_may_write p)).
      auto.
    + intros Hs. apply andb_true_iff. auto.
Qed.

Lemma intersect_tools_le owned p q r :
  intersect owned p q = Returned r →
  (∀ s, tools_le s p → tools_le s q → tools_le s r) ∧ tools_le r q ∧
  (Forall unescaped (tools q) → tools_le r p).
Proof.
  intros Hi. apply meet_tools_le; [by apply (intersect_returned owned p q r Hi)|].
  by apply (intersect_fields owned p q r Hi).
Qed.

Lemma intersect_glb owned p q r s :
  Forall unescaped (tools q) → intersect owned p q = Returned r →
  authority_le s r ↔ authority_le s p ∧ authority_le s q.
Proof.
  intros Hu Hi. pose proof (intersect_bounds owned p q r s Hi) as Hb.
  destruct (intersect_tools_le owned p q r Hi) as (Hs & Hq & Hp). specialize (Hp Hu).
  split.
  - intros [Ht Hl]. apply Hb in Hl as [? ?]. split; (split; [|done]); intros t Hst; auto.
  - intros [[Htp Hlp] [Htq Hlq]]. split; [by apply Hs|by apply Hb].
Qed.

(** Nested runs: each requests within what the one around it was given. *)
Fixpoint nest (owned : option (string → string → bool)) (p : CapabilityPolicy) (requests : list CapabilityPolicy)
    : fallible PolicyError CapabilityPolicy :=
  match requests with
  | [] => mret p
  | q :: requests => r ← intersect owned p q; nest owned r requests
  end.

Lemma intersect_host_owned owned p q r : intersect owned p q = Returned r → host_owned r p.
Proof.
  unfold intersect. intros (_ & _ & (_ & _ & Hi)%fallible_bind_returned)%fallible_bind_returned.
  by injection Hi as <-.
Qed.

Lemma in_scope_root roots root : root ∈ roots → in_scope roots root.
Proof. intros Hin. exists root. split; [done|apply root_within_refl]. Qed.

(** Roots both sides bound: what is left covers what both cover, and nothing is
    left exactly when both cover nothing. *)
Lemma meet_roots_bound host requested :
  host ≠ [] → requested ≠ [] →
  (∀ path, in_scope (intersect_roots None host requested) path ↔ in_scope host path ∧ in_scope requested path) ∧
  (intersect_roots None host requested = [] ↔ ∀ path, ¬ (in_scope host path ∧ in_scope requested path)).
Proof.
  intros Hh Hr. pose proof (meet_roots_scope host requested) as Hscope. split; [intros path; by apply Hscope|]. split.
  - intros Hnil path Hboth%Hscope; [|done..]. rewrite Hnil in Hboth. destruct Hboth as (root & Hin & _).
    by apply elem_of_nil in Hin.
  - intros Hno. destruct (intersect_roots None host requested) as [|root roots] eqn:E; [done|].
    destruct (Hno root). apply (Hscope root Hh Hr). apply in_scope_root. by left.
Qed.

(** The roots of a policy: of the workspace, and of the process sandbox. *)
Definition all_roots : list (CapabilityPolicy → list string) :=
  [workspace_roots; read_only_roots; read_roots ∘ process_sandbox; write_roots ∘ process_sandbox;
   unix_socket_roots ∘ process_sandbox].

(** C31: The policy of a nested run is the meet of its ceiling and its request, as
    far as tools, capability operations, recursion budget, side effects,
    confinement, argument constraints, read denials and presets go: it is below
    the request, below the ceiling, and above whatever is below both. Only for
    the tools the ceiling needs the request to be without escapes ([unescaped]):
    a name with a backslash in it gets past ([policy_gaps]). What only the host
    may grant is the ceiling's, and the network is cut off where either does.

    Of the roots, those of the process sandbox included: each lies inside a root
    of either side that has any. Where both sides have roots (and without a
    scratch resolver) what is left covers, lexically, what both cover; when both
    cover nothing in common no root is left, which the code takes for no bound.
    A side without roots is no bound either, so a request adds roots where its
    ceiling has none. *)
Theorem intersect_meets owned p q r :
  intersect owned p q = Returned r →
  (∀ s, authority_le s p → authority_le s q → authority_le s r) ∧
  authority_le r q ∧ bounds_le r p ∧ (Forall unescaped (tools q) → tools_le r p) ∧
  host_owned r p ∧
  deny_network (process_sandbox r) = deny_network (process_sandbox p) || deny_network (process_sandbox q) ∧
  (allow_child_workspace_write (process_sandbox r) = true → children_may_write p = true) ∧
  Forall (λ roots : CapabilityPolicy → list string,
    (∀ x, x ∈ roots r →
      (roots p ≠ [] → ∃ h, h ∈ roots p ∧ root_is_within owned x h = true) ∧
      (roots q ≠ [] → ∃ h, h ∈ roots q ∧ root_is_within owned x h = true)) ∧
    (owned = None → roots p ≠ [] → roots q ≠ [] →
      (∀ path, in_scope (roots r) path ↔ in_scope (roots p) path ∧ in_scope (roots q) path) ∧
      (roots r = [] ↔ ∀ path, ¬ (in_scope (roots p) path ∧ in_scope (roots q) path)))) all_roots.
Proof.
  intros Hi. destruct (intersect_tools_le owned p q r Hi) as (Hs & Hq & Hp).
  pose proof (λ s, intersect_bounds owned p q r s Hi) as Hb.
  destruct (proj1 (Hb r)) as [Hbp Hbq]; [done|].
  split; [intros s [] []; split; [by apply Hs|by apply Hb]|]. split; [by split|]. split; [done|]. split; [done|].
  split; [by eapply intersect_host_owned|]. destruct (intersect_fields owned p q r Hi) as (_ & _ & ->). cbn.
  split; [done|]. split; [by intros [_ ?]%andb_true_iff|].
  unfold all_roots. repeat (apply Forall_cons; split); [..|by apply Forall_nil];
    (split; cbn; [by apply meet_roots_within|intros -> ? ?; by apply meet_roots_bound]).
Qed.

(** Nesting never widens, however deep: the policy a chain of requests
    leaves has exactly the authority of the outermost ceiling and of every
    request on the way, and the outermost host's grants. *)
Theorem nested_policies_meet owned p requests r :
  Forall (λ q, Forall unescaped (tools q)) requests → nest owned p requests = Returned r →
  (∀ s, authority_le s r ↔ authority_le s p ∧ Forall (authority_le s) requests) ∧ host_owned r p.
Proof.
  intros Hu. revert p. induction Hu as [|q requests Hq _ IH]; intros p; cbn.
  - intros [= <-]. split; [intros s; by split; [split; [|constructor]|intros []]|done].
  - intros (m & Hm & Hr)%fallible_bind_returned. destruct (IH m Hr) as [Hle Hh].
    pose proof (intersect_host_owned _ _ _ _ Hm) as [? ? ? ?]. split.
    + intros s. rewrite Hle, Forall_cons, (intersect_glb owned p q m s) by done. tauto.
    + destruct Hh. split; congruence.
Qed.

(** ** The check of a computed policy *)

Lemma widened_returned b d u : widened b d = Returned u ↔ b = false.
Proof. unfold widened, raise_if. destruct b, u; split; done. Qed.

Lemma roots_outside_nil ceiling requested :
  negb (bool_decide (roots_outside ceiling requested = [])) = false ↔ requested ⊆ ceiling.
Proof.
  rewrite negb_false_iff, bool_decide_eq_true. unfold roots_outside. rewrite filter_keeps_none, Forall_forall.
  unfold subseteq, list_subseteq. split; intros Hs x Hx; [|by intros Hn; apply Hn, Hs].
  destruct (decide (x ∈ ceiling)); [done|]. by destruct (Hs x Hx).
Qed.

Lemma check_tools_below p q t u :
  Forall unescaped (tools q) → check_tools p q = Returned u →
  tool_pattern_allows q t = true → tool_pattern_allows p t = true.
Proof.
  intros Hu. unfold check_tools. destruct (tools_are_restricted p) eqn:Ep; cbn [negb].
  2: { intros _ _. by apply tool_allows_unrestricted, tools_restricted_false. }
  intros (u1 & Hr%widened_returned & Hc)%fallible_bind_returned. rewrite negb_false_iff in Hr.
  destruct (tools_deny_all q) eqn:Eq; [by rewrite (tool_allows_denied q)|].
  apply fallible_bind_returned in Hc as (u2 & _ & Hc). unfold raise_if in Hc.
  destruct (bool_decide_reflect (tools_outside p q = [])); [|done]. by apply tools_below.
Qed.

Lemma check_capabilities_returned p m u :
  check_capabilities p m = Returned u →
  ∀ c ops, map_get c m = Some ops →
    match capability_operations p c with
    | Some al => operations_outside c al ops = [] ∧ (ops = [] → al = [])
    | None => capabilities_are_restricted p = false
    end.
Proof.
  induction m as [|[c' ops'] m IH]; [done|]. cbn. intros (u1 & Hc & Hm)%fallible_bind_returned c ops.
  case_decide as Heq; [|by apply IH]. subst. intros [= ->].
  destruct (capability_operations p c') as [al|].
  - apply fallible_bind_returned in Hc as (u2 & Hw%widened_returned & Hc). unfold raise_if in Hc.
    destruct (bool_decide_reflect (operations_outside c' al ops = [])); [|done]. split; [done|].
    intros ->. destruct (bool_decide_reflect (al = [])); done.
  - unfold raise_if in Hc. by destruct (capabilities_are_restricted p).
Qed.

Lemma check_capabilities_below p q c o :
  (capabilities_are_restricted p = true → capabilities_are_restricted q = true) →
  (capabilities_deny_all q = false → check_capabilities p (capabilities q) = Returned tt) →
  policy_allows_capability q c o = true → policy_allows_capability p c o = true.
Proof.
  intros Hr Hc. destruct (capabilities_deny_all q) eqn:Eq; [by rewrite (capability_allows_denied q)|].
  specialize (Hc eq_refl). rewrite !policy_allows_operations.
  destruct (capabilities_are_restricted p) eqn:Ep; [|done]. rewrite (Hr eq_refl). cbn [negb orb].
  assert (capability_operations q c = map_get c (capabilities q)) as ->
    by (unfold capability_operations; by rewrite Eq).
  destruct (map_get c (capabilities q)) as [ops|] eqn:E; [|done].
  pose proof (check_capabilities_returned p _ tt Hc c ops E) as Ho.
  destruct (capability_operations p c) as [al|]; [|congruence]. destruct Ho as [Ho Hne]. by apply operations_below.
Qed.

Lemma check_roots_returned ceiling requested d u :
  check_roots ceiling requested d = Returned u → ceiling ≠ [] → requested ⊆ ceiling.
Proof.
  unfold check_roots. intros Hc Hne. rewrite bool_decide_eq_false_2 in Hc by done.
  by apply widened_returned, roots_outside_nil in Hc.
Qed.

Lemma check_annotations_returned q annotations u tool a :
  check_annotations q annotations = Returned u → map_get tool annotations = Some a →
  tool_still_granted q tool = true → map_get tool (tool_annotations q) = Some a.
Proof.
  induction annotations as [|[tool' a'] annotations IH]; [done|]. cbn.
  intros (u1 & Hw%widened_returned & Hc)%fallible_bind_returned. destruct (decide (tool = tool')) as [Heq|]; [|by apply IH].
  subst. intros [= ->] Hg. rewrite Hg in Hw. cbn in Hw. by apply negb_false_iff, bool_decide_eq_true in Hw.
Qed.

(** Take a sequence of checks apart. *)
Ltac inv_checks :=
  repeat match goal with
  | H : (_ ≫= _) = Returned _ |- _ => apply fallible_bind_returned in H as ([] & ? & H)
  end;
  repeat match goal with
  | H : widened _ _ = Returned _ |- _ => apply widened_returned in H
  | H : negb (bool_decide (roots_outside _ _ = [])) = false |- _ => apply roots_outside_nil in H
  end.

(** What the check of the process sandbox leaves no room for. *)
Record sandbox_below (p q : CapabilityPolicy) : Prop := {
  below_socket s :
    ssh_agent_socket (process_sandbox q) = Some s → ssh_agent_socket (process_sandbox p) = Some s;
  below_read_roots : read_roots (process_sandbox q) ⊆ read_roots (process_sandbox p);
  below_write_roots : write_roots (process_sandbox q) ⊆ write_roots (process_sandbox p);
  below_socket_roots : unix_socket_roots (process_sandbox q) ⊆ unix_socket_roots (process_sandbox p);
  below_denials : read_deny_roots (process_sandbox p) ⊆ read_deny_roots (process_sandbox q);
  below_launcher : netns_launcher_path (process_sandbox q) = netns_launcher_path (process_sandbox p);
  below_presets : effective_presets (process_sandbox q) ⊆ effective_presets (process_sandbox p);
  below_loopback :
    allow_tcp_loopback (process_sandbox q) = true → allow_tcp_loopback (process_sandbox p) = true;
  below_introspection :
    allow_process_self_introspection (process_sandbox q) = true →
    allow_process_self_introspection (process_sandbox p) = true;
  below_child_writes : allow_child_workspace_write (process_sandbox q) = true → children_may_write p = true
}.

Lemma check_process_sandbox_below p q u : check_process_sandbox p q = Returned u → sandbox_below p q.
Proof.
  unfold check_process_sandbox. cbn zeta. intros Hc. inv_checks.
  split; try done.
  - intros s Hs. rewrite Hs in *.
    match goal with H : negb (bool_decide (_ = Some s)) = false |- _ => by apply negb_false_iff, bool_decide_eq_true in H end.
  - by match goal with H : negb (bool_decide (netns_launcher_path _ = _)) = false |- _ =>
      apply negb_false_iff, bool_decide_eq_true in H end.
  - match goal with H : negb (bool_decide (filter _ _ = [])) = false |- _ =>
      apply negb_false_iff, bool_decide_eq_true, filter_keeps_none in H; rewrite Forall_forall in H; rename H into Hp end.
    intros x Hx. destruct (decide (x ∈ effective_presets (process_sandbox p))); [done|by destruct (Hp x Hx)].
  - intros Hl. rewrite Hl in *. by destruct (allow_tcp_loopback (process_sandbox p)).
  - intros Hl. rewrite Hl in *. by destruct (allow_process_self_introspection (process_sandbox p)).
  - intros Hl. rewrite Hl in *. by destruct (children_may_write p).
Qed.

(** C32: What [assert_within_ceiling] accepts lies below the ceiling in capability
    operations, recursion budget, side effects, confinement, argument
    constraints, read denials and presets, and, for a policy without escapes in
    its tools, in the tools. Its process sandbox has no socket, root, loopback,
    launcher or child write beyond the ceiling's. Workspace and read-only roots,
    where the ceiling has any, are roots of the ceiling; to have none, which is no
    bound, passes too. Annotations of tools granted by name survive unchanged.
    [deny_network], and the annotations of tools granted by a pattern, are not
    compared ([policy_gaps]). *)
Theorem ceiling_check_sound p q :
  assert_within_ceiling p q = Returned tt →
  bounds_le q p ∧ (Forall unescaped (tools q) → tools_le q p) ∧ sandbox_below p q ∧
  (workspace_roots p ≠ [] → workspace_roots q ⊆ workspace_roots p) ∧
  (read_only_roots p ≠ [] → read_only_roots q ⊆ read_only_roots p) ∧
  (∀ tool a, map_get tool (tool_annotations p) = Some a → tool_still_granted q tool = true →
    map_get tool (tool_annotations q) = Some a).
Proof.
  unfold assert_within_ceiling, check_constraints. intros Hc. inv_checks.
  match goal with H : check_process_sandbox p q = _ |- _ => apply check_process_sandbox_below in H as Hps end.
  split; [|split; [intros Hu t; by eapply check_tools_below|
    split; [done|split; [by eapply check_roots_returned|split; [by eapply check_roots_returned|]]]]].
  2: { intros tool a. by apply (check_annotations_returned _ _ tt). }
  destruct Hps. split; try done.
  - intros c o. apply check_capabilities_below.
    + intros Hp. rewrite Hp in *. by destruct (capabilities_are_restricted q).
    + intros Hd. by rewrite Hd in *.
  - match goal with H : check_recursion p q = _ |- _ => unfold check_recursion in H; revert H end.
    destruct (recursion_limit p), (recursion_limit q); cbn; try done. intros Hw%widened_returned. by apply N.ltb_ge in Hw.
  - match goal with H : check_side_effects p q = _ |- _ => unfold check_side_effects in H; revert H end.
    unfold effects_le. destruct (side_effect_level p), (side_effect_level q); cbn; try done.
    intros Hw%widened_returned. by apply Nat.ltb_ge.
  - by apply Nat.ltb_ge.
  - match goal with H : negb (bool_decide (filter (λ c, c ∉ _) _ = [])) = false |- _ =>
      apply negb_false_iff, bool_decide_eq_true, filter_keeps_none in H; rewrite Forall_forall in H; rename H into Hk end.
    intros k Hin. destruct (decide (k ∈ tool_arg_constraints q)); [done|by destruct (Hk k Hin)].
Qed.

(** ** The wire form *)

(** A denial is written as the marker alone, everything else as it is. *)
Lemma from_wire_to_wire p :
  from_wire (to_wire p) = mkPolicy
    (if tools_deny_all p then [DENY_ALL_SENTINEL] else tools p)
    (if capabilities_deny_all p then [(DENY_ALL_SENTINEL, [])] else capabilities p)
    (workspace_roots p) (read_only_roots p) (side_effect_level p) (recursion_limit p) (tool_arg_constraints p)
    (tool_annotations p) (sandbox_profile p) (process_sandbox p) None.
Proof.
  unfold from_wire, to_wire. cbn [wire_tools wire_tools_restricted wire_capabilities wire_capabilities_restricted].
  f_equal.
  - destruct (tools_deny_all p) eqn:Et; [done|]. unfold tools_deny_all in Et. by rewrite Et.
  - destruct (capabilities_deny_all p) eqn:Ec; [done|]. unfold capabilities_deny_all in Ec. by rewrite Ec.
Qed.

(** A policy survives its wire form: what is read back allows the same tools
    and operations as every policy that was written - deny-all included, also
    beside grants it overrides - and agrees with it on all else but the host's
    proxy, which is not carried; a second trip changes nothing. *)
Theorem policy_wire_round_trip p :
  let q := from_wire (to_wire p) in
  (∀ t, tool_pattern_allows q t = tool_pattern_allows p t) ∧
  (∀ c o, policy_allows_capability q c o = policy_allows_capability p c o) ∧
  workspace_roots q = workspace_roots p ∧ read_only_roots q = read_only_roots p ∧
  side_effect_level q = side_effect_level p ∧ recursion_limit q = recursion_limit p ∧
  tool_arg_constraints q = tool_arg_constraints p ∧ tool_annotations q = tool_annotations p ∧
  sandbox_profile q = sandbox_profile p ∧ process_sandbox q = process_sandbox p ∧
  process_network_proxy q = None ∧ from_wire (to_wire q) = q.
Proof.
  cbn zeta. rewrite !from_wire_to_wire. split; [|split; [|repeat split]].
  - intros t. destruct (tools_deny_all p) eqn:E; [|by apply tool_allows_same].
    by rewrite (tool_allows_denied p), tool_allows_denied.
  - intros c o. destruct (capabilities_deny_all p) eqn:E; [|by apply capability_allows_same].
    by rewrite (capability_allows_denied p), capability_allows_denied.
  - cbn. f_equal.
    + unfold tools_deny_all at 1. cbn. destruct (tools_deny_all p) eqn:E; [done|]. unfold tools_deny_all in E. by rewrite E.
    + unfold capabilities_deny_all at 1. cbn. destruct (capabilities_deny_all p) eqn:E; [done|].
      unfold capabilities_deny_all in E. by rewrite E.
Qed.
End order.

(** ** Examples *)

(** A [globset] of runs, single characters and escapes. *)
Section sample_run.
Variable continue_ : string → bool.
Fixpoint sample_run (name : string) : bool :=
  continue_ name || match name with EmptyString => false | String _ name => sample_run name end.
End sample_run.

Fixpoint sample_match (pattern name : string) : bool :=
  match pattern with
  | EmptyString => String.eqb name ""
  | String c pattern =>
      if Ascii.eqb c "*" then sample_run (sample_match pattern) name
      else if Ascii.eqb c "\" then
        match pattern, name with
        | String c pattern, String d name => Ascii.eqb c d && sample_match pattern name
        | _, _ => false
        end
      else
        match name with
        | String d name => (Ascii.eqb c "?" || Ascii.eqb c d) && sample_match pattern name
        | EmptyString => false
        end
  end.

#[export] Instance sample_globs : NameGlobs :=
  {| GlobMatcher := string; build_glob := Some; is_match := sample_match |}.

Definition sample_annotations : ToolAnnotations :=
  mkToolAnnotations ToolKind.Edit SideEffectLevel.WorkspaceWrite None (mkArgSchema ["path"] [] [] [] [])
    [] false [] false None None None None.

Definition sample_ceiling : CapabilityPolicy :=
  mkPolicy ["edit_*"; "read"] [("authority", ["write"]); ("workspace", ["read_text"; "write_text"])]
    ["/repo"] [] (Some "process_exec") (Some 3%N) [mkArgConstraint "edit_*" ["src/**"] (Some "path")]
    [("read", sample_annotations)] SandboxProfile.Worktree
    (mkProcessSandbox None ["/opt"] [] ["/home/u/.ssh"] true false [] None true false None) (Some (mkProxy 80 81)).

Definition sample_request : CapabilityPolicy :=
  mkPolicy ["edit_file"; "read"] [("authority", ["write@repo"]); ("workspace", ["read_text"])]
    ["/repo/crates"] ["/data"] (Some "read_only") None [mkArgConstraint "edit_*" ["src/**"] (Some "path")]
    [("read", sample_annotations)] SandboxProfile.OsHardened
    (mkProcessSandbox (Some []) ["/opt/sdk"] [] ["/home/u/.aws"] true true [] None false false None) None.

Definition sample_meet : CapabilityPolicy :=
  Eval vm_compute in
    match intersect None sample_ceiling sample_request with Returned r => r | Raised _ => default_policy end.

Lemma sample_unescaped : Forall unescaped (tools sample_request).
Proof. by apply (bool_decide_unpack _); vm_compute. Qed.

Lemma intersect_meets_witness :
  intersect None sample_ceiling sample_request = Returned sample_meet ∧
  bounds_le sample_meet sample_ceiling ∧ tools_le sample_meet sample_ceiling.
Proof.
  split; [vm_compute; reflexivity|].
  destruct (intersect_meets None sample_ceiling sample_request sample_meet) as (_ & _ & Hb & Ht & _);
    [vm_compute; reflexivity|].
  split; [exact Hb|apply Ht, sample_unescaped].
Defined.

Lemma nested_policies_meet_witness : host_owned sample_meet sample_ceiling.
Proof.
  apply (nested_policies_meet None sample_ceiling [sample_request; neutral] sample_meet).
  - constructor; [apply sample_unescaped|]. by apply (bool_decide_unpack _); vm_compute.
  - vm_compute. reflexivity.
Defined.

(** A policy within [sample_ceiling]. *)
Definition sample_stage : CapabilityPolicy :=
  mkPolicy ["edit_file"; "read"] [("authority", ["write@repo"]); ("workspace", ["read_text"])]
    ["/repo"] ["/data"] (Some "read_only") (Some 2%N) [mkArgConstraint "edit_*" ["src/**"] (Some "path")]
    [("read", sample_annotations)] SandboxProfile.OsHardened
    (mkProcessSandbox (Some []) [] [] ["/home/u/.ssh"] true true [] None false true None) None.

Lemma ceiling_check_sound_witness : bounds_le sample_stage sample_ceiling ∧ tools_le sample_stage sample_ceiling.
Proof.
  destruct (ceiling_check_sound sample_ceiling sample_stage) as (Hb & Ht & _); [vm_compute; reflexivity|].
  split; [exact Hb|]. apply Ht. by apply (bool_decide_unpack _); vm_compute.
Defined.

(** Policies that differ from the default in one dimension. *)
Definition with_tools (ts : list string) : CapabilityPolicy :=
  mkPolicy ts [] [] [] None None [] [] SandboxProfile.Worktree default_sandbox None.
Definition with_annotations (ts : list string) (annotations : omap string ToolAnnotations) : CapabilityPolicy :=
  mkPolicy ts [] [] [] None None [] annotations SandboxProfile.Worktree default_sandbox None.
Definition with_workspace (roots : list string) : CapabilityPolicy :=
  mkPolicy [] [] roots [] None None [] [] SandboxProfile.Worktree default_sandbox None.
Definition with_operations (caps : omap string (list string)) : CapabilityPolicy :=
  mkPolicy [] caps [] [] None None [] [] SandboxProfile.Worktree default_sandbox None.
Definition with_read_roots (roots : list string) : CapabilityPolicy :=
  mkPolicy [] [] [] [] None None [] [] SandboxProfile.Worktree
    (mkProcessSandbox None roots [] [] false false [] None false false None) None.
Definition without_network : CapabilityPolicy :=
  mkPolicy [] [] [] [] None None [] [] SandboxProfile.Worktree
    (mkProcessSandbox None [] [] [] false true [] None false false None) None.

(** What remains of [f] of the meet of two policies. *)
Definition of_meet {A} (f : CapabilityPolicy → A) (p q : CapabilityPolicy) : option A :=
  match intersect None p q with Returned r => Some (f r) | Raised _ => None end.

(** Where policies leave the order. An escape in a requested tool slips past
    the ceiling's pattern, which matches the escaped text; disjoint roots leave
    none, which is no bound; [..] is compared but not resolved; process roots
    need no ceiling; annotations go where no tool is named; a ceiling of every
    workspace operation has children that may not write, below one that may. The
    check passes a policy that restores the network, drops every workspace root,
    or drops the annotation of a tool it grants by pattern. *)
Example policy_gaps :
  tool_pattern_allows (with_tools ["read_?x"]) "read_x" = false ∧
  of_meet (λ r, tool_pattern_allows r "read_x") (with_tools ["read_?x"]) (with_tools ["read_\x"]) = Some true ∧
  of_meet workspace_roots (with_workspace ["/repo"]) (with_workspace ["/elsewhere"]) = Some [] ∧
  of_meet workspace_roots (with_workspace ["/repo"]) (with_workspace ["/repo/../etc"]) = Some ["/repo/../etc"] ∧
  of_meet (read_roots ∘ process_sandbox) (with_read_roots []) (with_read_roots ["/etc"]) = Some ["/etc"] ∧
  assert_within_ceiling (with_read_roots []) (with_read_roots ["/etc"]) = Raised (Widened "process_sandbox.read_roots") ∧
  of_meet tool_annotations (with_annotations [] [("edit", sample_annotations)])
    (with_annotations [] [("edit", sample_annotations)]) = Some [] ∧
  children_may_write (with_operations [("workspace", [])]) = false ∧
  of_meet children_may_write (with_operations [("workspace", [])]) (with_operations [("workspace", ["write_text"])]) =
    Some true ∧
  assert_within_ceiling without_network default_policy = Returned tt ∧
  assert_within_ceiling (with_workspace ["/repo"]) (with_workspace []) = Returned tt ∧
  assert_within_ceiling (with_annotations ["*"] [("edit", sample_annotations)]) (with_tools ["*"]) = Returned tt.
Proof. repeat split; vm_compute; reflexivity. Qed.
