(* ===== verification/SessionEvent.v ===== *)
(** * Session events and their canonical bytes ([harn-session-store/src/event.rs])

    The events a session persists, and the JSON encoding with sorted keys whose
    bytes are hashed into the chain and signed. The encoding is injective up to
    the order of keys, so the bytes of an event determine every field they
    cover, whatever [serde_json] does inside numbers and strings. *)

From Stdlib Require Import Strings.String Sorting.Sorted.
From S2P Require Import Prelude BTree Split.

(** What the crate uses of [serde_json]: numbers and how they print, strings as
    [to_writer] writes them. *)
Class SerdeJson := {
  JsonNumber : Type;
  number_of_u64 : N → JsonNumber;
  number_of_i64 : Z → JsonNumber;
  number_to_string : JsonNumber → list byte;
  number_eqb : JsonNumber → JsonNumber → bool;
  write_json_string : string → list byte
}.

(** A byte that occurs in a printed number. *)
Definition number_byte (b : byte) : bool :=
  let n := b2n b in
  ((48 <=? n) && (n <=? 57) || (n =? 43) || (n =? 45) || (n =? 46) || (n =? 69) || (n =? 101))%N.

(** What [serde_json] documents: numbers convert and print without loss, in
    JSON's number syntax; a written string is quoted and says where it ends. *)
Class SerdeJsonLaws `{SerdeJson} := {
  number_of_u64_inj m n :
    (m <= U64_MAX)%N → (n <= U64_MAX)%N → number_of_u64 m = number_of_u64 n → m = n;
  number_of_i64_inj m n :
    in_i64 m = true → in_i64 n = true → number_of_i64 m = number_of_i64 n → m = n;
  number_to_string_inj m n : number_to_string m = number_to_string n → m = n;
  number_bytes n : number_to_string n ≠ [] ∧ Forall (λ b, number_byte b = true) (number_to_string n);
  json_string_quoted s : head (write_json_string s) = Some (n2b 34);
  json_string_delimited s t x y :
    write_json_string s ++ x = write_json_string t ++ y → s = t ∧ x = y
}.

(** ** [serde_json::Value] *)

Module Value.
Section value.
Context `{SerdeJson}.

Inductive Value :=
  | Null
  | Bool (value : bool)
  | Number (value : JsonNumber)
  | String (value : string)
  | Array (values : list Value)
  | Object (entries : list (string * Value)).

Section ind.
Variable P : Value → Prop.
Hypotheses (HNull : P Null) (HBool : ∀ b, P (Bool b)) (HNumber : ∀ n, P (Number n))
  (HString : ∀ s, P (String s)) (HArray : ∀ vs, Forall P vs → P (Array vs))
  (HObject : ∀ es, Forall (λ e, P e.2) es → P (Object es)).

Fixpoint value_ind (v : Value) : P v :=
  match v with
  | Null => HNull
  | Bool b => HBool b
  | Number n => HNumber n
  | String s => HString s
  | Array vs => HArray vs
      ((fix go vs := match vs return Forall P vs with
        | [] => Forall_nil_2 P
        | v :: vs => Forall_cons_2 P v vs (value_ind v) (go vs)
        end) vs)
  | Object es => HObject es
      ((fix go es := match es return Forall (λ e, P e.2) es with
        | [] => Forall_nil_2 _
        | e :: es => Forall_cons_2 (λ e, P e.2) e es (value_ind e.2) (go es)
        end) es)
  end.
End ind.

(** [PartialEq for Value]; objects compare as [BTreeMap]s, entry by entry. *)
Fixpoint eqb (v w : Value) : bool :=
  match v, w with
  | Null, Null => true
  | Bool b, Bool c => Bool.eqb b c
  | Number m, Number n => number_eqb m n
  | String s, String t => String.eqb s t
  | Array vs, Array ws =>
      (fix go vs ws :=
         match vs, ws with
         | [], [] => true
         | v :: vs, w :: ws => eqb v w && go vs ws
         | _, _ => false
         end) vs ws
  | Object es, Object fs =>
      (fix go es fs :=
         match es, fs with
         | [], [] => true
         | e :: es, f :: fs => String.eqb e.1 f.1 && eqb e.2 f.2 && go es fs
         | _, _ => false
         end) es fs
  | _, _ => false
  end.
End value.
End Value.
Notation Value := Value.Value.

(** ** The canonical writer *)

Section entries.
Context {A : Type}.
Implicit Types es : list (string * A).

(** [sort_unstable_by(|left, right| left.0.cmp(right.0))]: keys are distinct,
    so there is one sorted order. *)
Fixpoint insert_entry (e : string * A) es : list (string * A) :=
  match es with
  | [] => [e]
  | f :: es' =>
      match String.compare e.1 f.1 with
      | Gt => f :: insert_entry e es'
      | _ => e :: es
      end
  end.

Definition sort_entries es : list (string * A) := foldr insert_entry [] es.

(** [keys.zip(keys.skip(1)).all(|(left, right)| left < right)] *)
Fixpoint in_order es : bool :=
  match es with
  | e :: (f :: _) as es' => match String.compare e.1 f.1 with Lt => in_order es' | _ => false end
  | _ => true
  end.

Definition order_entries es : list (string * A) := if in_order es then es else sort_entries es.
End entries.

(** Values between commas. *)
Fixpoint separated (items : list (list byte)) : list byte :=
  match items with
  | [] => []
  | [item] => item
  | item :: items => item ++ as_bytes "," ++ separated items
  end.

Section writer.
Context `{SerdeJson}.

(** [write_canonical_entries], of entries whose values are already written *)
Definition write_canonical_entries (entries : list (string * list byte)) : list byte :=
  as_bytes "{" ++ separated (map (λ e, write_json_string e.1 ++ as_bytes ":" ++ e.2) entries) ++ as_bytes "}".

(** [write_canonical]: values are written before the entries are ordered, which
    only the keys decide. *)
Fixpoint write_canonical (v : Value) : list byte :=
  match v with
  | Value.Null => as_bytes "null"
  | Value.Bool b => as_bytes (if b then "true" else "false")
  | Value.Number n => number_to_string n
  | Value.String s => write_json_string s
  | Value.Array items => as_bytes "[" ++ separated (map write_canonical items) ++ as_bytes "]"
  | Value.Object es =>
      write_canonical_entries (order_entries (map (λ e, (e.1, write_canonical e.2)) es))
  end.

(** [canonical_json_bytes] *)
Definition canonical_json_bytes (v : Value) : list byte := write_canonical v.

(** ** What the writer determines *)

(** The value with the keys of every object in order. *)
Fixpoint canonical (v : Value) : Value :=
  match v with
  | Value.Array items => Value.Array (map canonical items)
  | Value.Object es => Value.Object (order_entries (map (λ e, (e.1, canonical e.2)) es))
  | _ => v
  end.

(** Writing a value in the order it has. *)
Fixpoint plain (v : Value) : list byte :=
  match v with
  | Value.Null => as_bytes "null"
  | Value.Bool b => as_bytes (if b then "true" else "false")
  | Value.Number n => number_to_string n
  | Value.String s => write_json_string s
  | Value.Array items => as_bytes "[" ++ separated (map plain items) ++ as_bytes "]"
  | Value.Object es => write_canonical_entries (map (λ e, (e.1, plain e.2)) es)
  end.
End writer.

Section ordering.
Context {A B : Type} (f : A → B).
Let on_value (e : string * A) : string * B := (e.1, f e.2).

Lemma insert_entry_map e es : insert_entry (on_value e) (map on_value es) = map on_value (insert_entry e es).
Proof. induction es as [|g es IH]; cbn; [done|]. destruct (String.compare _ _); cbn; by rewrite <- ?IH. Qed.

Lemma sort_entries_map es : sort_entries (map on_value es) = map on_value (sort_entries es).
Proof. unfold sort_entries. induction es as [|e es IH]; cbn; [done|]. by rewrite IH, <- insert_entry_map. Qed.

Lemma in_order_map es : in_order (map on_value es) = in_order es.
Proof.
  induction es as [|e [|g es] IH]; [done..|]. cbn [map] in *.
  change (match String.compare e.1 g.1 with Lt => in_order (on_value g :: map on_value es) | _ => false end =
    match String.compare e.1 g.1 with Lt => in_order (g :: es) | _ => false end). by rewrite IH.
Qed.

Lemma order_entries_map es : order_entries (map on_value es) = map on_value (order_entries es).
Proof. unfold order_entries. rewrite in_order_map, sort_entries_map. by case_match. Qed.
End ordering.

(** The entries of a [BTreeMap] are in order. *)
Lemma in_order_sorted {A} (es : btree A) : BTree.sorted es → in_order es = true.
Proof.
  induction 1 as [|e es Hs IH Hlt]; [done|]. destruct es as [|g es]; [done|].
  apply Forall_cons in Hlt as [Hlt _]. cbn in *. unfold str_lt in Hlt. by rewrite Hlt.
Qed.

Lemma order_entries_sorted {A} (es : btree A) : BTree.sorted es → order_entries es = es.
Proof. intros Hs. unfold order_entries. by rewrite in_order_sorted. Qed.

(** ** Events *)

Module SessionEventKind.
Inductive SessionEventKind :=
  | Message
  | ToolCall
  | ToolResult
  | Plan
  | Compaction
  | SystemReminder
  | Hypothesis'
  | Receipt
  | Reminder
  | PermissionDecision
  | Control
  | Custom (custom_type : string).

#[global] Instance kind_eq_dec : EqDecision SessionEventKind.
Proof. solve_decision. Defined.

Definition discriminator (kind : SessionEventKind) : string :=
  match kind with
  | Message => "message"
  | ToolCall => "tool_call"
  | ToolResult => "tool_result"
  | Plan => "plan"
  | Compaction => "compaction"
  | SystemReminder => "system_reminder"
  | Hypothesis' => "hypothesis"
  | Receipt => "receipt"
  | Reminder => "reminder"
  | PermissionDecision => "permission_decision"
  | Control => "control"
  | Custom custom_type => custom_type
  end.

Definition from_discriminator (s : string) : option SessionEventKind :=
  if String.eqb s "message" then Some Message
  else if String.eqb s "tool_call" then Some ToolCall
  else if String.eqb s "tool_result" then Some ToolResult
  else if String.eqb s "plan" then Some Plan
  else if String.eqb s "compaction" then Some Compaction
  else if String.eqb s "system_reminder" then Some SystemReminder
  else if String.eqb s "hypothesis" then Some Hypothesis'
  else if String.eqb s "receipt" then Some Receipt
  else if String.eqb s "reminder" then Some Reminder
  else if String.eqb s "permission_decision" then Some PermissionDecision
  else if String.eqb s "control" then Some Control
  else None.

Definition NAMED : list SessionEventKind :=
  [Message; ToolCall; ToolResult; Plan; Compaction; SystemReminder; Hypothesis'; Receipt; Reminder;
   PermissionDecision; Control].

(** A kind is its discriminator unless one of the two is custom. *)
Lemma from_discriminator_spec kind s :
  from_discriminator s = Some kind ↔ kind ∈ NAMED ∧ discriminator kind = s.
Proof.
  split.
  - unfold from_discriminator. intros Hs. unfold NAMED.
    repeat case_match; simplify_eq; (split; [set_solver|symmetry; by apply String.eqb_eq]).
  - intros [Hin <-]. unfold NAMED in Hin. set_unfold in Hin. naive_solver.
Qed.
End SessionEventKind.
Notation SessionEventKind := SessionEventKind.SessionEventKind.

(** [EventId], a [u64] *)
Notation EventId := N.
Definition CANONICAL_ORIGIN_SESSION_HEADER : string := "harn.canonical_origin_session_id".

(** [EventSignature] *)
Record EventSignature := mkEventSignature { algorithm : string; key_id : string; signature_text : string }.

Section event.
Context `{SerdeJson}.

(** [AppendEvent] *)
Record AppendEvent := mkAppendEvent {
  append_kind : SessionEventKind;
  append_payload : Value;
  append_parent_event_id : option EventId;
  append_actor : option string;
  append_tags : list string;
  append_headers : btree string
}.

(** [AppendEvent::new] *)
Definition new_append_event (kind : SessionEventKind) (payload : Value) : AppendEvent :=
  mkAppendEvent kind payload None None [] [].

(** [StoredEvent] *)
Record StoredEvent := mkStoredEvent {
  event_id : EventId;
  session_id : string;
  tenant_id : option string;
  parent_event_id : option EventId;
  actor : option string;
  kind : SessionEventKind;
  payload : Value;
  tags : list string;
  headers : btree string;
  ts_ms : Z;
  ts : string;
  record_hash : string;
  prev_hash : option string;
  signed_by : option EventSignature
}.

Definition with_content (p : Value) (h : btree string) (e : StoredEvent) : StoredEvent :=
  mkStoredEvent (event_id e) (session_id e) (tenant_id e) (parent_event_id e) (actor e) (kind e) p
    (tags e) h (ts_ms e) (ts e) (record_hash e) (prev_hash e) (signed_by e).
Definition with_headers (h : btree string) (e : StoredEvent) : StoredEvent :=
  with_content (payload e) h e.
Definition with_link (session : string) (prev : option string) (e : StoredEvent) : StoredEvent :=
  mkStoredEvent (event_id e) session (tenant_id e) (parent_event_id e) (actor e) (kind e) (payload e)
    (tags e) (headers e) (ts_ms e) (ts e) (record_hash e) prev (signed_by e).
Definition with_record_hash (hash : string) (e : StoredEvent) : StoredEvent :=
  mkStoredEvent (event_id e) (session_id e) (tenant_id e) (parent_event_id e) (actor e) (kind e)
    (payload e) (tags e) (headers e) (ts_ms e) (ts e) hash (prev_hash e) (signed_by e).
Definition with_signature (s : option EventSignature) (e : StoredEvent) : StoredEvent :=
  mkStoredEvent (event_id e) (session_id e) (tenant_id e) (parent_event_id e) (actor e) (kind e)
    (payload e) (tags e) (headers e) (ts_ms e) (ts e) (record_hash e) (prev_hash e) s.

(** [StoredEvent::canonical_origin_session_id], [bind_canonical_origin] *)
Definition canonical_origin_session_id (e : StoredEvent) : string :=
  default (session_id e) (BTree.get CANONICAL_ORIGIN_SESSION_HEADER (headers e)).
Definition bind_canonical_origin (session : string) (e : StoredEvent) : StoredEvent :=
  with_headers (BTree.insert CANONICAL_ORIGIN_SESSION_HEADER session (headers e)) e.

(** [StoredEvent::is_redacted_projection], [source_record_hash], [mark_redacted_projection] *)
Definition REDACTED : string := "redacted:".
Definition is_redacted_projection (e : StoredEvent) : bool := String.prefix REDACTED (record_hash e).
Definition source_record_hash (e : StoredEvent) : string :=
  default (record_hash e) (strip_prefix REDACTED (record_hash e)).
Definition mark_redacted_projection (e : StoredEvent) : StoredEvent :=
  with_signature None
    (if is_redacted_projection e then e else with_record_hash (REDACTED ++ record_hash e) e).

(** ** The bytes of an event *)

(** [json!] of an optional value, a list of strings, a map of strings *)
Definition json_option {A} (f : A → Value) (o : option A) : Value := from_option f Value.Null o.
Definition json_strings (ss : list string) : Value := Value.Array (map Value.String ss).
Definition json_map (m : btree string) : Value := Value.Object (map (λ e, (e.1, Value.String e.2)) m).
Definition json_u64 (n : N) : Value := Value.Number (number_of_u64 n).
Definition json_i64 (z : Z) : Value := Value.Number (number_of_i64 z).

(** The fields of the envelope, the payload after them. *)
Definition event_entries (e : StoredEvent) : list (string * Value) :=
  [("schema", Value.String "harn.session.event.v1");
   ("session_id", Value.String (session_id e));
   ("event_id", json_u64 (event_id e));
   ("tenant_id", json_option Value.String (tenant_id e));
   ("parent_event_id", json_option json_u64 (parent_event_id e));
   ("actor", json_option Value.String (actor e));
   ("kind", Value.String (SessionEventKind.discriminator (kind e)));
   ("tags", json_strings (tags e));
   ("headers", json_map (headers e));
   ("ts_ms", json_i64 (ts_ms e));
   ("prev_hash", json_option Value.String (prev_hash e));
   ("payload", payload e)]%string.

(** [canonical_event_bytes] *)
Definition canonical_event_bytes (e : StoredEvent) : list byte :=
  write_canonical_entries (map (λ f, (f.1, write_canonical f.2)) (sort_entries (event_entries e))).
End event.

Lemma insert_entry_elem {A} (e f : string * A) es : f ∈ insert_entry e es ↔ f = e ∨ f ∈ es.
Proof. induction es as [|g es IH]; cbn; [set_solver|]. case_match; set_solver. Qed.

Lemma order_entries_elem {A} (e : string * A) es : e ∈ order_entries es ↔ e ∈ es.
Proof.
  unfold order_entries. destruct (in_order es); [done|]. unfold sort_entries.
  induction es as [|f es IH]; cbn; [done|]. rewrite insert_entry_elem. set_solver.
Qed.

(** ** The bytes determine the value *)

(** What follows a number in a written value. *)
Definition delimited (rest : list byte) : Prop :=
  match rest with [] => True | b :: _ => number_byte b = false end.

(** The longest run of bytes with a property is determined by the whole. *)
Lemma run_inj {A} (p : A → bool) l k x y :
  Forall (λ a, p a = true) l → Forall (λ a, p a = true) k →
  match x with [] => True | a :: _ => p a = false end →
  match y with [] => True | a :: _ => p a = false end →
  l ++ x = k ++ y → l = k ∧ x = y.
Proof.
  intros Hl. revert k. induction Hl as [|a l Ha Hl IH]; intros k Hk Hx Hy Heq.
  - destruct Hk as [|b k Hb Hk]; [done|]. cbn in Heq. subst x. cbn in Hx. congruence.
  - destruct Hk as [|b k Hb Hk]; cbn in Heq; [subst y; cbn in Hy; congruence|].
    injection Heq as -> Heq. destruct (IH k Hk Hx Hy Heq) as [-> ->]. done.
Qed.

Section separated.
Context {A : Type} (f : A → list byte) (stop : byte).
Hypotheses (Hstop : number_byte stop = false) (Hcomma : stop ≠ n2b 44)
  (Hhead : ∀ a, ∃ b r, f a = b :: r ∧ b ≠ stop ∧ b ≠ n2b 44).

Definition readable (a : A) : Prop :=
  ∀ b x y, delimited x → delimited y → f a ++ x = f b ++ y → a = b ∧ x = y.

(** A separated list is read back item by item, up to what closes it. *)
Lemma separated_inj l k x y :
  Forall readable l → separated (map f l) ++ stop :: x = separated (map f k) ++ stop :: y → l = k ∧ x = y.
Proof using All.
  intros Hl. revert k. induction Hl as [|a l Ha Hl IH]; intros k Heq.
  - destruct k as [|b k]; [by injection Heq as ->|]. destruct (Hhead b) as (c & r & Hf & Hc & _).
    destruct k; cbn in Heq; rewrite Hf in Heq; by injection Heq.
  - destruct k as [|b k].
    { destruct (Hhead a) as (c & r & Hf & Hc & _). destruct l; cbn in Heq; rewrite Hf in Heq; by injection Heq. }
    assert (∀ a l x, separated (map f (a :: l)) ++ stop :: x =
      f a ++ match l with [] => stop :: x | _ => n2b 44 :: separated (map f l) ++ stop :: x end) as Hsep.
    { intros a' [|c l'] x'; [done|]. cbn [map separated]. by rewrite <- app_assoc. }
    rewrite !Hsep in Heq. apply Ha in Heq as [-> Heq]; [|by destruct l..|by destruct k].
    destruct l as [|a' l], k as [|b' k].
    + by injection Heq as ->.
    + by injection Heq.
    + injection Heq as Heq' _. by destruct Hcomma.
    + injection Heq as Heq. destruct (IH (b' :: k) Heq) as [-> ->]. done.
Qed.
End separated.

Section injective.
Context `{SerdeJsonLaws}.

(** The first byte says which kind of value was written. *)
Lemma plain_head (v : Value) :
  ∃ b r, plain v = b :: r ∧
    match v with
    | Value.Null => b = n2b 110
    | Value.Bool value => b = if value then n2b 116 else n2b 102
    | Value.Number _ => number_byte b = true
    | Value.String _ => b = n2b 34
    | Value.Array _ => b = n2b 91
    | Value.Object _ => b = n2b 123
    end.
Proof.
  destruct v as [|[]|n|s|vs|es]; cbn [plain]; try (by eexists _, _).
  - destruct (number_bytes n) as [Hne Hall]. destruct (number_to_string n) as [|b r]; [done|].
    apply Forall_cons in Hall as [Hb _]. by eexists _, _.
  - pose proof (json_string_quoted s) as Hq. destruct (write_json_string s) as [|b r]; [done|].
    injection Hq as ->. by eexists _, _.
Qed.

Lemma plain_starts (v : Value) stop :
  stop = n2b 93 ∨ stop = n2b 125 → ∃ b r, plain v = b :: r ∧ b ≠ stop ∧ b ≠ n2b 44.
Proof.
  intros Hs. destruct (plain_head v) as (b & r & Hv & Hb). exists b, r. split; [done|].
  destruct v as [|[]|n|s|vs|es]; subst; destruct Hs as [-> | ->];
    try (split; intros Heq%(f_equal b2n); by vm_compute in Heq);
    (split; intros ->; by vm_compute in Hb).
Qed.

Lemma plain_inj (v w : Value) x y :
  delimited x → delimited y → plain v ++ x = plain w ++ y → v = w ∧ x = y.
Proof.
  intros Hx Hy. revert w x y Hx Hy. induction v as [|b|n|s|vs IH|es IH] using Value.value_ind;
    intros w x y Hx Hy Heq;
    (match type of Heq with plain ?v ++ _ = _ => destruct (plain_head v) as (c & r & Hv & Hc) end);
    destruct (plain_head w) as (d & r' & Hw & Hd);
    (assert (c = d) as Hcd by (rewrite Hv, Hw in Heq; by injection Heq)); subst d;
    clear Hv Hw; destruct w as [|b'|n'|s'|vs'|es'];
    repeat match goal with b : bool |- _ => destruct b end; subst;
    try (exfalso; revert Hd; vm_compute; discriminate);
    try (exfalso; revert Hc; vm_compute; discriminate); clear Hd; try clear Hc;
    try (by simplify_eq/=).
  - cbn [plain] in Heq. apply (run_inj number_byte) in Heq as [Heq ->]; [|apply number_bytes..|done|done].
    by rewrite (number_to_string_inj _ _ Heq).
  - by apply json_string_delimited in Heq as [-> ->].
  - cbn [plain] in Heq. rewrite <- !app_assoc in Heq. injection Heq as Heq.
    apply (separated_inj plain (n2b 93)) in Heq as [-> ->]; auto using plain_starts.
  - cbn [plain] in Heq. unfold write_canonical_entries in Heq. rewrite !map_map in Heq. cbn [fst snd] in Heq.
    rewrite <- !app_assoc in Heq. injection Heq as Heq.
    apply (separated_inj (λ e : string * Value, write_json_string e.1 ++ as_bytes ":" ++ plain e.2) (n2b 125)) in Heq
      as [-> ->]; auto.
    + intros [k v]. cbn [fst snd]. pose proof (json_string_quoted k) as Hq.
      destruct (write_json_string k) as [|b r0]; [done|]. injection Hq as ->. by eexists _, _.
    + eapply Forall_impl; [exact IH|]. intros [k v] Hk [k' v'] x' y' Hx' Hy' Heq'. cbn [fst snd] in *.
      rewrite <- !app_assoc in Heq'. apply json_string_delimited in Heq' as [-> Heq'].
      injection Heq' as Heq'. by apply Hk in Heq' as [-> ->].
Qed.

Lemma plain_whole (v w : Value) : plain v = plain w → v = w.
Proof. intros Heq. by apply (plain_inj v w [] []); rewrite ?app_nil_r. Qed.

Lemma write_canonical_plain (v : Value) : write_canonical v = plain (canonical v).
Proof.
  induction v as [| | | |vs IH|es IH] using Value.value_ind; try done; cbn [write_canonical canonical plain].
  - rewrite map_map. do 3 f_equal. apply map_ext_Forall, IH.
  - rewrite !order_entries_map, map_map. cbn [fst snd]. f_equal. apply map_ext_Forall, Forall_forall.
    intros e He. rewrite order_entries_elem in He. rewrite Forall_forall in IH. by rewrite (IH e He).
Qed.

(** Two values are written alike exactly when they differ in key order only. *)
Lemma canonical_json_bytes_inj (v w : Value) :
  canonical_json_bytes v = canonical_json_bytes w ↔ canonical v = canonical w.
Proof.
  unfold canonical_json_bytes. rewrite !write_canonical_plain. split; [|congruence].
  apply plain_whole.
Qed.

(** ** What the bytes of an event cover *)

(** Every field but [ts], the hash, the signature and the difference between a
    named kind and a custom one of the same name. *)
Definition same_content (e f : StoredEvent) : Prop :=
  session_id e = session_id f ∧ event_id e = event_id f ∧ tenant_id e = tenant_id f ∧
  parent_event_id e = parent_event_id f ∧ actor e = actor f ∧
  SessionEventKind.discriminator (kind e) = SessionEventKind.discriminator (kind f) ∧
  tags e = tags f ∧ order_entries (headers e) = order_entries (headers f) ∧ ts_ms e = ts_ms f ∧
  prev_hash e = prev_hash f ∧ canonical (payload e) = canonical (payload f).

(** The integers of an event have their widths. *)
Definition event_fits (e : StoredEvent) : Prop :=
  (event_id e <= U64_MAX)%N ∧ (default 0 (parent_event_id e) <= U64_MAX)%N ∧ in_i64 (ts_ms e) = true.

Lemma canonical_event_bytes_plain (e : StoredEvent) :
  canonical_event_bytes e = plain (canonical (Value.Object (event_entries e))).
Proof.
  unfold canonical_event_bytes. cbn [canonical plain]. rewrite order_entries_map, map_map. cbn [fst snd].
  change (order_entries (event_entries e)) with (sort_entries (event_entries e)).
  f_equal. apply map_ext. intros f. by rewrite write_canonical_plain.
Qed.

Lemma json_option_inj {A} (f : A → Value) (o o' : option A) :
  (∀ a, f a ≠ Value.Null) → (∀ a b, o = Some a → o' = Some b → f a = f b → a = b) →
  json_option f o = json_option f o' → o = o'.
Proof.
  intros Hnull Hinj Heq. destruct o as [a|], o' as [b|]; cbn in Heq; [|by destruct (Hnull a)|by destruct (Hnull b)|done].
  by rewrite (Hinj a b).
Qed.

Lemma canonical_option {A} (f : A → Value) (o : option A) :
  (∀ a, canonical (f a) = f a) → canonical (json_option f o) = json_option f o.
Proof. intros Hf. by destruct o as [a|]; [apply Hf|]. Qed.

Lemma canonical_strings ss : canonical (json_strings ss) = json_strings ss.
Proof. unfold json_strings. cbn [canonical]. by rewrite map_map. Qed.

Lemma canonical_map m : canonical (json_map m) = json_map (order_entries m).
Proof. unfold json_map. cbn [canonical]. rewrite map_map. cbn [fst snd canonical]. by rewrite order_entries_map. Qed.

Lemma json_strings_inj ss ss' : json_strings ss = json_strings ss' → ss = ss'.
Proof. intros Heq. injection Heq as Heq. apply (list_fmap_eq_inj Value.String) in Heq; [done|]. intros a b Hab. by injection Hab. Qed.

Lemma json_map_inj m m' : json_map m = json_map m' → m = m'.
Proof.
  intros Heq. injection Heq as Heq. apply (list_fmap_eq_inj (λ e : string * string, (e.1, Value.String e.2))) in Heq; [done|].
  intros [k v] [k' v'] Hab. cbn in Hab. by simplify_eq.
Qed.

(** The entries in the order of their keys. *)
Lemma canonical_event (e : StoredEvent) :
  canonical (Value.Object (event_entries e)) = Value.Object
    [("actor", json_option Value.String (actor e)); ("event_id", json_u64 (event_id e));
     ("headers", json_map (order_entries (headers e)));
     ("kind", Value.String (SessionEventKind.discriminator (kind e)));
     ("parent_event_id", json_option json_u64 (parent_event_id e)); ("payload", canonical (payload e));
     ("prev_hash", json_option Value.String (prev_hash e)); ("schema", Value.String "harn.session.event.v1");
     ("session_id", Value.String (session_id e)); ("tags", json_strings (tags e));
     ("tenant_id", json_option Value.String (tenant_id e)); ("ts_ms", json_i64 (ts_ms e))]%string.
Proof.
  cbn [canonical event_entries map fst snd].
  rewrite !canonical_option, canonical_strings, canonical_map by done. reflexivity.
Qed.

(** Equal bytes were written for equal content. *)
Lemma event_bytes_content (e f : StoredEvent) :
  event_fits e → event_fits f → canonical_event_bytes e = canonical_event_bytes f → same_content e f.
Proof.
  intros (He & Hep & Het) (Hf & Hfp & Hft). rewrite !canonical_event_bytes_plain. intros Heq%plain_whole.
  rewrite !canonical_event in Heq.
  injection Heq as Ha Hi Hh Hk Hp Hpl Hl Hs Htags Ht Hts. unfold same_content. split_and!; try done.
  - by apply number_of_u64_inj.
  - eapply json_option_inj; [..|exact Ht]; [done|by intros ?? _ _ [= ->]].
  - eapply json_option_inj; [..|exact Hp]; [done|]. intros a b Ea Eb Hab. injection Hab as Hab. simplify_eq/=.
    rewrite Ea in Hep. rewrite Eb in Hfp. by apply number_of_u64_inj.
  - eapply json_option_inj; [..|exact Ha]; [done|by intros ?? _ _ [= ->]].
  - apply json_strings_inj. exact (f_equal Value.Array Htags).
  - apply json_map_inj. exact (f_equal Value.Object Hh).
  - by apply number_of_i64_inj.
  - eapply json_option_inj; [..|exact Hl]; [done|by intros ?? _ _ [= ->]].
Qed.

(** C18: The bytes that are hashed and signed are the same for two events exactly
    when the events agree on every field the bytes are meant to cover: session,
    position, tenant, parent, actor, kind, tags, headers, time, link, and the
    payload up to the order of its keys. No choice of strings, numbers or nesting
    makes two different events look alike. The kind is covered by its name, so a
    named kind and a custom one of that name are alike. *)
Theorem canonical_event_bytes_cover (e f : StoredEvent) :
  event_fits e → event_fits f →
  canonical_event_bytes e = canonical_event_bytes f ↔ same_content e f.
Proof.
  intros He Hf. split; [by apply event_bytes_content|].
  intros (H1 & H2 & H3 & H4 & H5 & H6 & H7 & H8 & H9 & H10 & H11). rewrite !canonical_event_bytes_plain.
  f_equal. rewrite !canonical_event. by rewrite H1, H2, H3, H4, H5, H6, H7, H8, H9, H10, H11.
Qed.
End injective.

(** ** A writer that keeps the laws, for examples *)

Definition sample_escape (b : byte) : list byte :=
  if (b2n b =? 34)%N || (b2n b =? 92)%N then [n2b 92; b] else [b].

Definition sample_json : SerdeJson := {|
  JsonNumber := bool * N;
  number_of_u64 n := (false, n);
  number_of_i64 z := ((z <? 0)%Z, Z.abs_N z);
  number_eqb m n := bool_decide (m = n);
  number_to_string n := (if n.1 then n2b 45 else n2b 43) :: repeat (n2b 48) (N.to_nat n.2);
  write_json_string s := n2b 34 :: concat (map sample_escape (as_bytes s)) ++ [n2b 34]
|}.

Lemma sample_escape_inj bs cs x y :
  concat (map sample_escape bs) ++ n2b 34 :: x = concat (map sample_escape cs) ++ n2b 34 :: y → bs = cs ∧ x = y.
Proof.
  assert (∀ b r, sample_escape b ++ r ≠ n2b 34 :: x ∧ sample_escape b ++ r ≠ n2b 34 :: y) as Hends.
  { intros b r. unfold sample_escape. destruct ((b2n b =? 34)%N || _) eqn:E; cbn; [done|].
    split; intros [= -> _]; by vm_compute in E. }
  revert cs. induction bs as [|b bs IH]; intros [|c cs] Heq; cbn [map concat] in Heq.
  - by injection Heq as ->.
  - rewrite <- app_assoc in Heq. by destruct (Hends c (concat (map sample_escape cs) ++ n2b 34 :: y)).
  - rewrite <- app_assoc in Heq. by destruct (Hends b (concat (map sample_escape bs) ++ n2b 34 :: x)).
  - rewrite <- !app_assoc in Heq. unfold sample_escape in Heq at 1 3.
    destruct ((b2n b =? 34)%N || _) eqn:Eb, ((b2n c =? 34)%N || _) eqn:Ec; cbn [app] in Heq.
    + injection Heq as -> Heq. by destruct (IH cs Heq) as [-> ->].
    + injection Heq as Hc _. subst c. by vm_compute in Ec.
    + injection Heq as Hb _. subst b. by vm_compute in Eb.
    + injection Heq as -> Heq. by destruct (IH cs Heq) as [-> ->].
Qed.

Lemma as_bytes_inj s t : as_bytes s = as_bytes t → s = t.
Proof. intros Heq. by rewrite <- (from_bytes_as_bytes s), <- (from_bytes_as_bytes t), Heq. Qed.

Lemma sample_json_laws : @SerdeJsonLaws sample_json.
Proof.
  split; cbn.
  - by intros m n _ _ [= ->].
  - intros m n _ _ [= Hs Ha].
    destruct (m <? 0)%Z eqn:Em, (n <? 0)%Z eqn:En; [| discriminate..|]; reflect_bools; lia.
  - intros [s m] [t n] Heq. cbn in Heq. injection Heq as Hs Hl. apply (f_equal length) in Hl.
    rewrite !repeat_length in Hl. apply N2Nat.inj in Hl as ->. by destruct s, t.
  - intros [s n]. split; [done|]. constructor; [by destruct s|]. apply Forall_forall.
    intros b Hb%list_elem_of_In%repeat_spec. by subst b.
  - done.
  - intros s t x y Heq. injection Heq as Heq. rewrite <- !app_assoc in Heq.
    apply sample_escape_inj in Heq as [Heq ->]. by apply as_bytes_inj in Heq as ->.
Qed.

Definition sample_event : @StoredEvent sample_json :=
  @mkStoredEvent sample_json 1%N "session" None None (Some "user"%string) SessionEventKind.Message
    (Value.Object [("b", Value.Bool true); ("a", Value.Null)])%string [] [] 5 "1970-01-01T00:00:00.005Z" "" None None.

(** A custom kind spelled like a named one is covered by the same bytes, and so
    is a payload whose keys come in another order. *)
Lemma canonical_event_bytes_cover_witness :
  @event_fits sample_json sample_event ∧
  let f := @mkStoredEvent sample_json 1%N "session" None None (Some "user"%string)
    (SessionEventKind.Custom "message") (Value.Object [("a", Value.Null); ("b", Value.Bool true)])%string [] [] 5
    "later" "" None None in
  @canonical_event_bytes sample_json sample_event = @canonical_event_bytes sample_json f.
Proof.
  split; [by vm_compute|].
  apply (@canonical_event_bytes_cover sample_json sample_json_laws sample_event _); by vm_compute.
Defined.
