(* ===== verification/SessionSigning.v ===== *)
(** * The signed chain of a session ([harn-session-store/src/signing.rs])

    Every event carries the hash of its canonical bytes and of the event before
    it; a running root folds the hashes; signatures are over the bytes of an
    event or, for a receipt, over the root before it. A verified chain is
    determined by its root, up to a collision of SHA-256. *)

From Stdlib Require Import Strings.String.
From S2P Require Import Prelude BTree Fallible Split Ordered Atom SessionEvent.

(** What the crate uses of [hex], [base64] and [ed25519_dalek] beside [FlowCrates]. *)
Class SigningCrates `{FlowCrates} := {
  hex_encode : list byte → string;
  base64_encode : list byte → string;
  base64_decode : string → option (list byte);
  signing_key_from_bytes : list byte → SigningKey;
  (** whether [Signature::from_slice] succeeds *)
  signature_valid : list byte → bool
}.

Class SigningLaws `{SigningCrates} := {
  hex_length bs : String.length (hex_encode bs) = 2 * length bs;
  hex_encode_inj a b : hex_encode a = hex_encode b → a = b;
  base64_round_trip bs : base64_decode (base64_encode bs) = Some bs;
  signature_is_valid k m : signature_valid (ed25519_sign k m) = true
}.

Definition ALGORITHM : string := "ed25519".

Module VerifyError.
Inductive VerifyError :=
  | NotSigned
  | UnsupportedAlgorithm (algorithm : string)
  | DecodeError
  | InvalidShape
  | BadSignature
  | HashMismatch (stored computed : string).
End VerifyError.
Notation VerifyError := VerifyError.VerifyError.

(** What a [ChainFailure] or [VerifyFailure] says, as data. *)
Module Reason.
Inductive Reason :=
  | SequenceGap (expected found : EventId)
  | ChainBreak
  | RedactedProjection (source : string)
  | HashMismatch (stored recomputed : string)
  | Signature (error : VerifyError)
  | EventCountMismatch (stored found : N)
  | LastEventMismatch
  | ChainRootMismatch.
End Reason.
Notation Reason := Reason.Reason.

(** [ChainFailure], [VerifyFailure] *)
Record ChainFailure := mkChainFailure { failure_event_id : EventId; reason : Reason }.

Section signing.
Context `{SerdeJson, SigningCrates}.

(** [SessionSigner], [from_seed] *)
Record SessionSigner := mkSessionSigner { signing_key : SigningKey; signer_key_id : string }.

(** [finalize_sha256] of a hasher fed with [bytes] *)
Definition finalize_sha256 (bytes : list byte) : string :=
  ("sha256:" ++ hex_encode (sha256_digest bytes))%string.

Definition key_id_for (verifying_key : list byte) : string :=
  ("sha256:" ++ String.substring 0 32 (hex_encode (sha256_digest verifying_key)))%string.

Definition from_seed (seed : list byte) : SessionSigner :=
  let key := signing_key_from_bytes seed in mkSessionSigner key (key_id_for (verifying_key key)).

Definition signer_verifying_key (s : SessionSigner) : list byte := verifying_key (signing_key s).

Definition sign_bytes (key : SigningKey) (key_id : string) (bytes : list byte) : EventSignature :=
  mkEventSignature ALGORITHM key_id (base64_encode (ed25519_sign key bytes)).

Definition receipt_signing_material (root : string) : list byte :=
  as_bytes "harn.session.receipt.v1" ++ [n2b 10] ++ as_bytes "root=" ++ as_bytes root ++ [n2b 10].

(** [SessionSigner::sign_event], [sign_receipt] *)
Definition sign_event (s : SessionSigner) (e : StoredEvent) : EventSignature :=
  sign_bytes (signing_key s) (signer_key_id s) (canonical_event_bytes e).
Definition sign_receipt (s : SessionSigner) (root : string) : EventSignature :=
  sign_bytes (signing_key s) (signer_key_id s) (receipt_signing_material root).

Definition compute_record_hash (e : StoredEvent) : string := finalize_sha256 (canonical_event_bytes e).

(** ** The root *)

Definition chain_root_init : string := finalize_sha256 (as_bytes "harn.session.chain.v2").
Definition chain_root_fold (prev_root record_hash : string) : string :=
  finalize_sha256 (as_bytes prev_root ++ [n2b 10] ++ as_bytes record_hash).
Definition chain_root_hash (events : list StoredEvent) : string :=
  fold_left (λ root e, chain_root_fold root (source_record_hash e)) events chain_root_init.

(** ** Verification *)

Definition verify_signature (s : EventSignature) (key bytes : list byte) : fallible VerifyError unit :=
  _ ← raise_if (negb (String.eqb (algorithm s) ALGORITHM)) (VerifyError.UnsupportedAlgorithm (algorithm s));
  signature ← ok_or_raise (base64_decode (signature_text s)) VerifyError.DecodeError;
  _ ← raise_if (negb (signature_valid signature)) VerifyError.InvalidShape;
  raise_if (negb (ed25519_verify key bytes signature)) VerifyError.BadSignature.

Definition verify_event (e : StoredEvent) (key : list byte) : fallible VerifyError unit :=
  _ ← raise_if (is_redacted_projection e) VerifyError.InvalidShape;
  let computed := compute_record_hash e in
  _ ← raise_if (negb (String.eqb computed (record_hash e))) (VerifyError.HashMismatch (record_hash e) computed);
  s ← ok_or_raise (signed_by e) VerifyError.NotSigned;
  verify_signature s key (canonical_event_bytes e).

Definition verify_receipt_root (s : EventSignature) (key : list byte) (root : string) : fallible VerifyError unit :=
  verify_signature s key (receipt_signing_material root).

Section chain.
Variables event_verifier receipt_verifier : option (list byte).

(** One round of the loop of [verify_event_chain_detailed]: the signatures it
    counts, what it reports, and the link it expects next. *)
Definition check_event (before : list StoredEvent) (expected : option string) (e : StoredEvent)
    : N * list ChainFailure * option string :=
  let fail r := mkChainFailure (event_id e) r in
  let id := (len before + 1)%N in
  let links := (if decide (event_id e = id) then [] else [fail (Reason.SequenceGap id (event_id e))]) ++
    (if decide (prev_hash e = expected) then [] else [fail Reason.ChainBreak]) in
  if is_redacted_projection e then
    (0%N, links ++ [fail (Reason.RedactedProjection (source_record_hash e))], Some (source_record_hash e))
  else
    let recomputed := compute_record_hash e in
    if negb (String.eqb recomputed (record_hash e)) then
      (0%N, links ++ [fail (Reason.HashMismatch (record_hash e) recomputed)], Some (record_hash e))
    else
      let next := Some (record_hash e) in
      match signed_by e with
      | None => (0%N, links, next)
      | Some s =>
          let is_receipt := bool_decide (kind e = SessionEventKind.Receipt) in
          match (if is_receipt then receipt_verifier else event_verifier) with
          | None => (1%N, links, next)
          | Some verifier =>
              match (if is_receipt then verify_receipt_root s verifier (chain_root_hash before)
                     else verify_event e verifier) with
              | Returned _ => (1%N, links, next)
              | Raised error => (0%N, links ++ [fail (Reason.Signature error)], next)
              end
          end
      end.

Fixpoint verify_from (before : list StoredEvent) (expected : option string) (events : list StoredEvent)
    : N * list ChainFailure :=
  match events with
  | [] => (0%N, [])
  | e :: events =>
      let '(signed, failures, next) := check_event before expected e in
      let '(signed', failures') := verify_from (before ++ [e]) next events in
      ((signed + signed')%N, failures ++ failures')
  end.

(** [verify_event_chain_detailed] *)
Definition verify_event_chain (events : list StoredEvent) : N * list ChainFailure :=
  verify_from [] None events.
End chain.

(** [re_anchor_events] *)
Fixpoint re_anchor_from (prev : option string) (new_session_id : string) (events : list StoredEvent)
    : list StoredEvent :=
  match events with
  | [] => []
  | e :: events =>
      let copied := with_link new_session_id prev (bind_canonical_origin (canonical_origin_session_id e) e) in
      let copied := with_signature None (with_record_hash (compute_record_hash copied) copied) in
      copied :: re_anchor_from (Some (record_hash copied)) new_session_id events
  end.
Definition re_anchor_events (events : list StoredEvent) (new_session_id : string) : list StoredEvent :=
  re_anchor_from None new_session_id events.

(** [canonical_receipt_payload] *)
Definition canonical_receipt_payload (session : string) (last_event_id : EventId) (chain_root : string) : Value :=
  Value.Object
    [("schema", Value.String "harn.session.receipt.v1"); ("session_id", Value.String session);
     ("last_event_id", json_u64 last_event_id); ("chain_root", Value.String chain_root)]%string.
End signing.

(** ** What a clean verification says *)

Section clean.
Context `{SerdeJson, SigningCrates}.
Variables event_verifier receipt_verifier : option (list byte).

(** The signature of an event, where there is one and a key to check it with. *)
Definition signature_holds (before : list StoredEvent) (e : StoredEvent) : Prop :=
  match signed_by e with
  | None => True
  | Some s =>
      let is_receipt := bool_decide (kind e = SessionEventKind.Receipt) in
      match (if is_receipt then receipt_verifier else event_verifier) with
      | None => True
      | Some verifier =>
          verify_signature s verifier
            (if is_receipt then receipt_signing_material (chain_root_hash before) else canonical_event_bytes e)
          = Returned tt
      end
  end.

(** An event in its place: numbered, linked, hashed, signed. *)
Definition event_holds (before : list StoredEvent) (expected : option string) (e : StoredEvent) : Prop :=
  event_id e = (len before + 1)%N ∧ prev_hash e = expected ∧ record_hash e = compute_record_hash e ∧
  signature_holds before e.

Fixpoint chain_from (before : list StoredEvent) (expected : option string) (events : list StoredEvent) : Prop :=
  match events with
  | [] => True
  | e :: events =>
      event_holds before expected e ∧ chain_from (before ++ [e]) (Some (record_hash e)) events
  end.

Definition is_signed (e : StoredEvent) : bool := match signed_by e with Some _ => true | None => false end.

Lemma computed_not_redacted e : is_redacted_projection (with_record_hash (compute_record_hash e) e) = false.
Proof. done. Qed.

Lemma hashed_not_redacted e : record_hash e = compute_record_hash e → is_redacted_projection e = false.
Proof. unfold is_redacted_projection. by intros ->. Qed.

Lemma hashed_source e : record_hash e = compute_record_hash e → source_record_hash e = record_hash e.
Proof. unfold source_record_hash. by intros ->. Qed.

Lemma fallible_tt {E} (m : fallible E unit) : (∃ u, m = Returned u) ↔ m = Returned tt.
Proof. split; [by intros [[] ->]|eauto]. Qed.

Lemma verify_event_hashed e s key :
  record_hash e = compute_record_hash e → signed_by e = Some s →
  verify_event e key = verify_signature s key (canonical_event_bytes e).
Proof.
  intros Hh Hs. unfold verify_event. rewrite hashed_not_redacted, Hs, <- Hh, String.eqb_refl by done. done.
Qed.

Lemma check_event_clean before expected e :
  event_holds before expected e →
  check_event event_verifier receipt_verifier before expected e =
    ((if is_signed e then 1 else 0)%N, [], Some (record_hash e)).
Proof.
  intros (Hi & Hp & Hh & Hs). unfold check_event, signature_holds, is_signed in *.
  rewrite hashed_not_redacted, <- Hh, String.eqb_refl, !decide_True by done. cbn [negb app].
  destruct (signed_by e) as [s|] eqn:Es; [|done]. pose proof (λ key, verify_event_hashed e s key Hh Es) as Hv.
  unfold verify_receipt_root. repeat case_match; rewrite ?Hv in *; congruence.
Qed.

Lemma check_event_holds before expected e count next :
  check_event event_verifier receipt_verifier before expected e = (count, [], next) →
  event_holds before expected e.
Proof.
  unfold check_event, event_holds. intros Hc.
  assert (event_id e = (len before + 1)%N ∧ prev_hash e = expected) as [Hi Hp].
  { repeat case_decide; try done; repeat case_match; discriminate. }
  rewrite !decide_True in Hc by done. cbn [app] in Hc.
  destruct (is_redacted_projection e); [discriminate|].
  destruct (String.eqb _ _) eqn:Hh; [|discriminate]. apply String.eqb_eq in Hh. cbn [negb] in Hc.
  split_and!; [done..|]. unfold signature_holds. destruct (signed_by e) as [s|] eqn:Es; [|done].
  pose proof (λ key, verify_event_hashed e s key (eq_sym Hh) Es) as Hv. unfold verify_receipt_root in Hc.
  repeat case_match; rewrite ?Hv in *; try done; try discriminate; by destruct a.
Qed.

Lemma verify_from_clean before expected events :
  chain_from before expected events →
  verify_from event_verifier receipt_verifier before expected events = (len (filter is_signed events), []).
Proof.
  revert before expected. induction events as [|e events IH]; intros before expected; cbn [chain_from verify_from]; [done|].
  intros [He Hes]. rewrite check_event_clean, IH by done. rewrite filter_cons.
  destruct (is_signed e) eqn:E; [rewrite decide_True by done|rewrite decide_False by auto]; rewrite ?len_cons; done.
Qed.

Lemma verify_from_chain before expected events :
  (verify_from event_verifier receipt_verifier before expected events).2 = [] → chain_from before expected events.
Proof.
  revert before expected. induction events as [|e events IH]; intros before expected; cbn [chain_from verify_from]; [done|].
  destruct (check_event _ _ before expected e) as [[count failures] next] eqn:Ec.
  destruct (verify_from _ _ (before ++ [e]) next events) as [count' failures'] eqn:Ev. cbn [snd].
  intros [-> ->]%app_eq_nil. pose proof (check_event_holds _ _ _ _ _ Ec) as He.
  rewrite check_event_clean in Ec by done. injection Ec as _ <-. split; [done|]. apply IH. by rewrite Ev.
Qed.

(** What the link of the event after [events] must be. *)
Definition link_after (expected : option string) (events : list StoredEvent) : option string :=
  from_option (λ e, Some (record_hash e)) expected (last events).

Lemma chain_from_app before expected es fs :
  chain_from before expected (es ++ fs) ↔
  chain_from before expected es ∧ chain_from (before ++ es) (link_after expected es) fs.
Proof.
  revert before expected. induction es as [|e es IH]; intros before expected.
  - cbn. rewrite app_nil_r. naive_solver.
  - assert (link_after expected (e :: es) = link_after (Some (record_hash e)) es) as ->
      by (unfold link_after; rewrite last_cons; by destruct (last es)).
    cbn [app chain_from]. rewrite IH, <- app_assoc. cbn [app]. tauto.
Qed.

Lemma chain_from_snoc expected es e :
  chain_from [] expected (es ++ [e]) ↔ chain_from [] expected es ∧ event_holds es (link_after expected es) e.
Proof. rewrite chain_from_app. cbn. naive_solver. Qed.

Lemma chain_from_hashed before expected es :
  chain_from before expected es → Forall (λ e, record_hash e = compute_record_hash e) es.
Proof.
  revert before expected. induction es as [|e es IH]; intros before expected; [constructor|].
  intros [(_ & _ & Hh & _) Hes]. constructor; [done|]. by eapply IH.
Qed.
End clean.

(** ** The root commits to the chain *)

Section commit.
Context `{SerdeJson, SigningCrates, !SerdeJsonLaws, !FlowLaws, !SigningLaws}.

(** What verifying a chain hashes: the seed of the root and, event by event, the
    canonical bytes and the step of the root. *)
Definition fold_preimage (root hash : string) : list byte :=
  as_bytes root ++ [n2b 10] ++ as_bytes hash.

Fixpoint hashed_from (root : string) (es : list StoredEvent) : list (list byte) :=
  match es with
  | [] => []
  | e :: es =>
      canonical_event_bytes e :: fold_preimage root (source_record_hash e) ::
      hashed_from (chain_root_fold root (source_record_hash e)) es
  end.

Definition hashed_strings (es : list StoredEvent) : list (list byte) :=
  as_bytes "harn.session.chain.v2" :: hashed_from chain_root_init es.

(** Two chains that exhibit a collision: a string hashed for one and a different
    string hashed for the other have the same digest. *)
Definition collision_between (es fs : list StoredEvent) : Prop :=
  ∃ a b, a ∈ hashed_strings es ∧ b ∈ hashed_strings fs ∧ a ≠ b ∧ sha256_digest a = sha256_digest b.

Lemma string_length_bytes (s : string) : String.length s = length (as_bytes s).
Proof. pose proof (len_as_bytes s) as Hlen. unfold len, slen in Hlen. lia. Qed.

Lemma string_app_inj_l (a b c : string) : (a ++ b)%string = (a ++ c)%string → b = c.
Proof. induction a as [|x a IH]; cbn; [done|]. intros Heq. injection Heq as Heq. by apply IH. Qed.

Lemma finalize_sha256_inj es fs a b :
  a ∈ hashed_strings es → b ∈ hashed_strings fs →
  finalize_sha256 a = finalize_sha256 b → a = b ∨ collision_between es fs.
Proof.
  intros Ha Hb Heq%string_app_inj_l%hex_encode_inj. destruct (decide (a = b)) as [|Hne]; [by left|right].
  by exists a, b.
Qed.

Lemma finalize_sha256_length bs : length (as_bytes (finalize_sha256 bs)) = 71.
Proof.
  rewrite <- string_length_bytes. unfold finalize_sha256. by rewrite append_length, hex_length, sha256_length.
Qed.

Lemma chain_root_snoc es e :
  chain_root_hash (es ++ [e]) = chain_root_fold (chain_root_hash es) (source_record_hash e).
Proof. unfold chain_root_hash. by rewrite fold_left_app. Qed.

Lemma hashed_snoc es e :
  hashed_strings (es ++ [e]) =
  hashed_strings es ++ [canonical_event_bytes e; fold_preimage (chain_root_hash es) (source_record_hash e)].
Proof.
  unfold hashed_strings, chain_root_hash. cbn. f_equal. generalize chain_root_init as root.
  induction es as [|f es IH]; intros root; cbn; [done|]. by rewrite IH.
Qed.

Lemma collision_before es e fs f :
  collision_between es fs → collision_between (es ++ [e]) (fs ++ [f]).
Proof.
  intros (a & b & Ha & Hb & Hc). exists a, b. rewrite !hashed_snoc, !elem_of_app. auto.
Qed.

Lemma collision_symmetric es fs : collision_between es fs → collision_between fs es.
Proof. intros (a & b & Ha & Hb & Hne & Heq). by exists b, a. Qed.

Lemma chain_root_finalized es : ∃ bs, chain_root_hash es = finalize_sha256 bs.
Proof. destruct es as [|e es _] using rev_ind; [by eexists|]. rewrite chain_root_snoc. by eexists. Qed.

Lemma chain_root_length es : length (as_bytes (chain_root_hash es)) = 71.
Proof. destruct (chain_root_finalized es) as [bs ->]. apply finalize_sha256_length. Qed.

Lemma hashed_last es e :
  canonical_event_bytes e ∈ hashed_strings (es ++ [e]) ∧
  fold_preimage (chain_root_hash es) (source_record_hash e) ∈ hashed_strings (es ++ [e]).
Proof. rewrite hashed_snoc, !elem_of_app, !elem_of_cons. auto. Qed.

Lemma chain_root_not_init es e :
  chain_root_init = chain_root_hash (es ++ [e]) → collision_between [] (es ++ [e]).
Proof.
  rewrite chain_root_snoc. intros [Heq|]%(finalize_sha256_inj [] (es ++ [e])); [|done|by left|apply hashed_last].
  apply (f_equal length) in Heq. unfold fold_preimage in Heq.
  rewrite !length_app, chain_root_length in Heq. vm_compute in Heq. lia.
Qed.

Lemma chain_root_fold_inj es e fs f :
  chain_root_hash (es ++ [e]) = chain_root_hash (fs ++ [f]) →
  chain_root_hash es = chain_root_hash fs ∧ source_record_hash e = source_record_hash f ∨
  collision_between (es ++ [e]) (fs ++ [f]).
Proof.
  rewrite !chain_root_snoc.
  intros [Heq|]%(finalize_sha256_inj (es ++ [e]) (fs ++ [f])); [left|by right|apply hashed_last..].
  apply app_inj_1 in Heq as [Hroot Heq]; [|by rewrite !chain_root_length].
  injection Heq as Heq. by apply as_bytes_inj in Hroot, Heq.
Qed.

(** C8: The root of a chain commits to all of it. If two event lists verify, with
    whatever keys, and have the same chain root, then they have the same length
    and agree event by event on everything the canonical bytes cover; otherwise
    the two chains themselves exhibit a collision of SHA-256, two different byte
    strings with one digest of which verification hashes one for each chain. So
    no event can be altered, dropped, added or moved under a published root. *)
Theorem chain_root_commits es fs ev rv ev' rv' :
  (verify_event_chain ev rv es).2 = [] → (verify_event_chain ev' rv' fs).2 = [] →
  Forall event_fits es → Forall event_fits fs →
  chain_root_hash es = chain_root_hash fs →
  Forall2 same_content es fs ∨ collision_between es fs.
Proof.
  unfold verify_event_chain. intros Hes%verify_from_chain%chain_from_hashed Hfs%verify_from_chain%chain_from_hashed.
  revert fs Hfs. induction es as [|e es IH] using rev_ind; intros fs Hfs Fes Ffs Hroot;
    destruct fs as [|f fs _] using rev_ind.
  - by left.
  - right. by apply chain_root_not_init in Hroot.
  - right. symmetry in Hroot. by apply collision_symmetric, chain_root_not_init.
  - apply chain_root_fold_inj in Hroot as [[Hroot Hhash]|]; [|by right].
    apply Forall_app in Hes as [Hes He], Hfs as [Hfs Hf], Fes as [Fes Fe], Ffs as [Ffs Ff].
    rewrite Forall_singleton in He, Hf, Fe, Ff. rewrite !hashed_source, He, Hf in Hhash by done.
    apply (finalize_sha256_inj (es ++ [e]) (fs ++ [f])) in Hhash as [Hbytes|]; [|by right|apply hashed_last..].
    destruct (IH Hes fs) as [Hall|]; auto; [|by right; apply collision_before]. left. apply Forall2_app; [done|].
    constructor; [|done]. by apply event_bytes_content.
Qed.
End commit.

(** ** Crates that keep the laws, for examples *)

Definition sample_signing : @SigningCrates sample_crates := {|
  hex_encode bs := from_bytes (concat (map (λ b, [b; b]) bs));
  base64_encode := from_bytes;
  base64_decode s := Some (as_bytes s);
  signing_key_from_bytes seed := default Byte.x00 (head seed) : @SigningKey sample_crates;
  signature_valid _ := true
|}.

Lemma sample_signing_laws : @SigningLaws sample_crates sample_signing.
Proof.
  split; cbn.
  - intros bs. rewrite string_length_bytes, as_bytes_from_bytes. induction bs; cbn in *; lia.
  - intros a b Heq%(f_equal as_bytes). rewrite !as_bytes_from_bytes in Heq. revert b Heq.
    induction a as [|x a IH]; intros [|y b] Heq; cbn in Heq; try done. injection Heq as -> Heq. by rewrite (IH b).
  - intros bs. f_equal. apply as_bytes_from_bytes.
  - done.
Qed.

Definition sample_chain (ts : string) : list (@StoredEvent sample_json) :=
  let e := sample_event in
  @re_anchor_events sample_json sample_crates sample_signing
    [e; @mkStoredEvent sample_json 2%N "elsewhere" None (Some 1%N) None SessionEventKind.Plan Value.Null ["tag"] [] (-3) ts
       "" None None]%string "session".

(** The formatted time is not covered: chains that differ in it alone have the
    same root. *)
Lemma chain_root_commits_witness :
  (@verify_event_chain sample_json sample_crates sample_signing None None (sample_chain "early")).2 = [] ∧
  (Forall2 (@same_content sample_json) (sample_chain "early") (sample_chain "late") ∨
   @collision_between sample_json sample_crates sample_signing (sample_chain "early") (sample_chain "late")).
Proof.
  assert (∀ ts, Forall (@event_fits sample_json) (sample_chain ts)) as Hfits.
  { intros ts. unfold sample_chain, re_anchor_events. cbn [re_anchor_from].
    repeat (constructor; [split_and!; cbn; done|]). constructor. }
  split; [by vm_compute|].
  apply (@chain_root_commits sample_json sample_crates sample_signing sample_json_laws sample_laws sample_signing_laws
    (sample_chain "early") (sample_chain "late") None None None None);
    [vm_compute; reflexivity|vm_compute; reflexivity|apply Hfits|apply Hfits|vm_compute; reflexivity].
Defined.
