(* ===== verification/SessionHooks.v ===== *)
(** * Producer identity and redaction ([harn-session-store/src/identity.rs], [redaction.rs])

    Reserved headers name the producer of an event; the store normalises them,
    and applies the host's redaction policy before events are hashed and again
    when they are read. What a policy changed is marked, and never passes for
    the signed original. *)

From Stdlib Require Import Strings.String.
From stdpp Require Import pretty.
From S2P Require Import Prelude BTree Fallible Split Ordered Atom Program Text SessionEvent SessionSigning.

(** ** Errors of the store *)

Module StoreContention.
Inductive StoreContention :=
  | DatabaseBusy
  | DatabaseLocked
  | MaintenanceActive
  | ProjectLeaseHeld
  | TaskExecutionHeld.
End StoreContention.
Notation StoreContention := StoreContention.StoreContention.

Module StoreError.
Inductive StoreError :=
  | Uninitialized
  | NotFound (message : string)
  | AlreadyExists (message : string)
  | Conflict (message : string)
  | InvalidInput (message : string)
  | Tenant (message : string)
  | Contention (kind : StoreContention) (message : string)
  | MaintenanceRequired (operation : string)
  | SchemaIncompatible (schema : string) (stored supported : Z)
  | Backend (message : string).
End StoreError.
Notation StoreError := StoreError.StoreError.
Notation StoreResult := (fallible StoreError).

(** ** Identity *)

Module EventIdentityField.
Inductive EventIdentityField :=
  | RunId
  | TurnId
  | SourceEventId
  | MessageId
  | ToolCallId.

#[global] Instance field_eq_dec : EqDecision EventIdentityField.
Proof. solve_decision. Defined.

Definition ALL : list EventIdentityField := [RunId; TurnId; SourceEventId; MessageId; ToolCallId].

Definition header_name (field : EventIdentityField) : string :=
  match field with
  | RunId => "run_id"
  | TurnId => "turn_id"
  | SourceEventId => "source_event_id"
  | MessageId => "message_id"
  | ToolCallId => "tool_call_id"
  end.

(** The derived [Ord]: the order of declaration. *)
Definition rank (field : EventIdentityField) : nat :=
  match field with RunId => 0 | TurnId => 1 | SourceEventId => 2 | MessageId => 3 | ToolCallId => 4 end.

Lemma elem_of_all field : field ∈ ALL.
Proof. unfold ALL. destruct field; set_solver. Qed.

Lemma header_name_inj f g : header_name f = header_name g → f = g.
Proof. by destruct f, g. Qed.
End EventIdentityField.
Notation EventIdentityField := EventIdentityField.EventIdentityField.
Notation header_name := EventIdentityField.header_name.

#[export] Program Instance field_ord : Ord EventIdentityField :=
  {| compare f g := Nat.compare (EventIdentityField.rank f) (EventIdentityField.rank g) |}.
Next Obligation. intros [] []; cbn; split; done. Qed.
Next Obligation. intros [] []; done. Qed.
Next Obligation. intros [] [] []; done. Qed.

Module EventIdentityError.
Inductive EventIdentityError :=
  | Invalid (field : EventIdentityField) (reason : string)
  | Conflict (field : EventIdentityField) (existing incoming : string).

(** [Display] *)
Definition to_string (error : EventIdentityError) : string :=
  match error with
  | Invalid field reason => "invalid " ++ header_name field ++ ": " ++ reason
  | Conflict field existing incoming =>
      "conflicting " ++ header_name field ++ " values '" ++ existing ++ "' and '" ++ incoming ++ "'"
  end%string.
End EventIdentityError.
Notation EventIdentityError := EventIdentityError.EventIdentityError.
Notation IdentityResult := (fallible EventIdentityError).

(** [char::is_control]: the C0 and C1 controls and DEL, on the bytes of the character. *)
Definition is_control (c : string) : bool :=
  match map b2n (as_bytes c) with
  | [b] => ((b <? 32) || (b =? 127))%N
  | [194; b]%N => ((128 <=? b) && (b <=? 159))%N
  | _ => false
  end.

Definition validate_normalized_value (field : EventIdentityField) (normalized : string) : IdentityResult unit :=
  _ ← raise_if (String.eqb normalized "") (EventIdentityError.Invalid field "value must not be blank");
  raise_if (existsb is_control (chars normalized))
    (EventIdentityError.Invalid field "value must not contain control characters").

(** [normalize_value]; [trim_text] is [str::trim]. *)
Definition normalize_value (field : EventIdentityField) (value : string) : IdentityResult string :=
  let normalized := trim_text value in
  _ ← validate_normalized_value field normalized;
  Returned normalized.

(** [EventIdentity] *)
Definition EventIdentity : Type := omap EventIdentityField string.

(** [EventIdentity::insert] *)
Definition identity_insert (identity : EventIdentity) (field : EventIdentityField) (value : string)
    : IdentityResult EventIdentity :=
  value ← normalize_value field value;
  match map_get field identity with
  | Some existing =>
      _ ← raise_if (negb (String.eqb existing value)) (EventIdentityError.Conflict field existing value);
      Returned identity
  | None => Returned (map_insert field value identity)
  end.

(** [EventIdentity::from_headers], its loop over the fields *)
Fixpoint from_headers_from (identity : EventIdentity) (fields : list EventIdentityField) (headers : btree string)
    : IdentityResult EventIdentity :=
  match fields with
  | [] => Returned identity
  | field :: fields =>
      identity ← match BTree.get (header_name field) headers with
                 | Some value => identity_insert identity field value
                 | None => Returned identity
                 end;
      from_headers_from identity fields headers
  end.
Definition from_headers (headers : btree string) : IdentityResult EventIdentity :=
  from_headers_from [] EventIdentityField.ALL headers.

(** [EventIdentity::apply_to_headers]: every value is compared before any is written. *)
Fixpoint check_headers (identity : EventIdentity) (headers : btree string) : IdentityResult unit :=
  match identity with
  | [] => Returned tt
  | (field, value) :: identity =>
      _ ← match BTree.get (header_name field) headers with
          | Some existing =>
              existing ← normalize_value field existing;
              raise_if (negb (String.eqb existing value)) (EventIdentityError.Conflict field existing value)
          | None => Returned tt
          end;
      check_headers identity headers
  end.
Definition write_headers (identity : EventIdentity) (headers : btree string) : btree string :=
  fold_left (λ headers e, BTree.insert (header_name e.1) e.2 headers) identity headers.
Definition apply_to_headers (identity : EventIdentity) (headers : btree string) : IdentityResult (btree string) :=
  _ ← check_headers identity headers;
  Returned (write_headers identity headers).

(** [normalize_identity_headers_with_change]: the headers, the identity, whether
    anything changed *)
Definition normalize_with_change (headers : btree string) : IdentityResult (btree string * EventIdentity * bool) :=
  identity ← from_headers headers;
  let changed := existsb (λ field,
    negb (bool_decide (BTree.get (header_name field) headers = map_get field identity))) EventIdentityField.ALL in
  headers ← (if changed then apply_to_headers identity headers else Returned headers);
  Returned (headers, identity, changed).

(** [normalize_identity_headers_in_place]: the headers as the loop left them, and
    whether it changed them or why it stopped *)
Fixpoint normalize_in_place_from (fields : list EventIdentityField) (changed : bool) (headers : btree string)
    : btree string * IdentityResult bool :=
  match fields with
  | [] => (headers, Returned changed)
  | field :: fields =>
      match BTree.get (header_name field) headers with
      | None => normalize_in_place_from fields changed headers
      | Some value =>
          let normalized := trim_text value in
          match validate_normalized_value field normalized with
          | Raised error => (headers, Raised error)
          | Returned _ =>
              if (slen normalized =? slen value)%N then normalize_in_place_from fields changed headers
              else normalize_in_place_from fields true (BTree.insert (header_name field) normalized headers)
          end
      end
  end.
Definition normalize_in_place (headers : btree string) : btree string * IdentityResult bool :=
  normalize_in_place_from EventIdentityField.ALL false headers.

(** ** Redaction *)

Section redaction.
Context `{SerdeJson, SigningCrates}.

(** [EventRedactor], a host's policy *)
Record EventRedactor := mkEventRedactor {
  redact_json : Value → Value;
  redact_headers : btree string → btree string
}.

(** [StoreHooks]: what the operations below consult *)
Record StoreHooks := mkStoreHooks {
  redaction : option EventRedactor;
  event_signer : option SessionSigner;
  receipt_signer : option SessionSigner
}.

Definition default_hooks : StoreHooks := mkStoreHooks None None None.

(** [relocate_historical_identity_header]: the first key with the base's name
    that is free; [free_key_free] shows the budget reaches it. *)
Fixpoint free_key (fuel : nat) (base key : string) (suffix : N) (headers : btree string) : string :=
  match fuel with
  | O => key
  | S fuel =>
      if BTree.contains_key key headers then free_key fuel base (base ++ "." ++ pretty suffix)%string (suffix + 1) headers
      else key
  end.

Definition relocate_historical_identity_header (headers : btree string) (field : EventIdentityField) : btree string :=
  match BTree.get (header_name field) headers with
  | None => headers
  | Some value =>
      let headers := BTree.remove (header_name field) headers in
      let base := ("harn.legacy.header." ++ header_name field)%string in
      BTree.insert (free_key (S (length headers)) base base 2 headers) value headers
  end.

Definition invalid_identity (id : EventId) (error : EventIdentityError) : StoreError :=
  StoreError.Backend
    ("stored event " ++ pretty id ++ " has invalid producer identity: " ++ EventIdentityError.to_string error)%string.

(** The loops relocate at most every reserved header once. *)
Definition RELOCATIONS : nat := S (length EventIdentityField.ALL).

(** [normalize_stored_identity_in_place] *)
Fixpoint normalize_stored_in_place (fuel : nat) (id : EventId) (changed : bool) (headers : btree string)
    : StoreResult (btree string * bool) :=
  match fuel with
  | O => Raised (StoreError.Backend "")
  | S fuel =>
      match normalize_in_place headers with
      | (headers, Returned normalized) => Returned (headers, changed || normalized)
      | (headers, Raised (EventIdentityError.Invalid field _)) =>
          normalize_stored_in_place fuel id true (relocate_historical_identity_header headers field)
      | (_, Raised error) => Raised (invalid_identity id error)
      end
  end.

(** [normalize_stored_identity] *)
Fixpoint normalize_stored_identity (fuel : nat) (id : EventId) (changed : bool) (headers : btree string)
    : StoreResult (btree string * EventIdentity * bool) :=
  match fuel with
  | O => Raised (StoreError.Backend "")
  | S fuel =>
      match normalize_with_change headers with
      | Returned (headers, identity, normalized) => Returned (headers, identity, changed || normalized)
      | Raised (EventIdentityError.Invalid field _) =>
          normalize_stored_identity fuel id true (relocate_historical_identity_header headers field)
      | Raised error => Raised (invalid_identity id error)
      end
  end.

(** [apply_event_redaction] *)
Definition apply_event_redaction (hooks : StoreHooks) (payload : Value) (headers : btree string)
    (identity : EventIdentity) : IdentityResult (Value * btree string) :=
  match redaction hooks with
  | None => Returned (payload, headers)
  | Some policy =>
      let canonical_origin := BTree.get CANONICAL_ORIGIN_SESSION_HEADER headers in
      let payload := redact_json policy payload in
      let headers := redact_headers policy headers in
      let headers := match canonical_origin with
        | Some origin => BTree.insert CANONICAL_ORIGIN_SESSION_HEADER origin headers
        | None => BTree.remove CANONICAL_ORIGIN_SESSION_HEADER headers
        end in
      headers ← apply_to_headers identity headers;
      Returned (payload, headers)
  end.

(** [.map_err(..)] *)
Definition map_err {E F A} (f : E → F) (m : fallible E A) : fallible F A :=
  match m with Returned a => Returned a | Raised e => Raised (f e) end.

Definition invalid_input (error : EventIdentityError) : StoreError :=
  StoreError.InvalidInput (EventIdentityError.to_string error).

(** [prepare_append_event] *)
Definition prepare_append_event (hooks : StoreHooks) (e : AppendEvent) : StoreResult AppendEvent :=
  normalized ← map_err invalid_input (normalize_with_change (append_headers e));
  let '(headers, identity, _) := normalized in
  redacted ← map_err invalid_input (apply_event_redaction hooks (append_payload e) headers identity);
  let '(payload, headers) := redacted in
  Returned (mkAppendEvent (append_kind e) payload (append_parent_event_id e) (append_actor e) (append_tags e) headers).

Definition changed_identity (id : EventId) (error : EventIdentityError) : StoreError :=
  StoreError.Backend
    ("redaction policy changed producer identity for stored event " ++ pretty id ++ ": " ++
     EventIdentityError.to_string error)%string.

(** Identity and policy applied to a stored event. *)
Definition redact_content (hooks : StoreHooks) (e : StoredEvent) : StoreResult StoredEvent :=
  normalized ← normalize_stored_identity RELOCATIONS (event_id e) false (headers e);
  let '(headers, identity, _) := normalized in
  redacted ← map_err (changed_identity (event_id e)) (apply_event_redaction hooks (payload e) headers identity);
  let '(payload, headers) := redacted in
  Returned (with_content payload headers e).

Fixpoint for_each (f : StoredEvent → StoreResult StoredEvent) (events : list StoredEvent)
    : StoreResult (list StoredEvent) :=
  match events with
  | [] => Returned []
  | e :: events => e ← f e; events ← for_each f events; Returned (e :: events)
  end.

(** [prepare_stored_events_for_persistence] *)
Definition prepare_stored_events_for_persistence (hooks : StoreHooks) : list StoredEvent → StoreResult (list StoredEvent) :=
  for_each (redact_content hooks).

(** The body of [redact_stored_events] *)
Definition redact_stored_event (hooks : StoreHooks) (e : StoredEvent) : StoreResult StoredEvent :=
  match redaction hooks with
  | None =>
      normalized ← normalize_stored_in_place RELOCATIONS (event_id e) false (headers e);
      let '(normal, changed) := (normalized : btree string * bool) in
      let e := with_headers normal e in
      Returned (if changed then mark_redacted_projection e else e)
  | Some _ =>
      redacted ← redact_content hooks e;
      Returned (if negb (Value.eqb (payload redacted) (payload e)) || negb (bool_decide (headers redacted = headers e))
                then mark_redacted_projection redacted else redacted)
  end.

Definition redact_stored_events (hooks : StoreHooks) : list StoredEvent → StoreResult (list StoredEvent) :=
  for_each (redact_stored_event hooks).
End redaction.

(** ** Normalised headers *)

Definition value_normal (f : EventIdentityField) (v : string) : Prop :=
  trim_text v = v ∧ validate_normalized_value f v = Returned tt.
Definition normal_headers (h : btree string) : Prop :=
  ∀ f v, BTree.get (header_name f) h = Some v → value_normal f v.

Lemma validate_returned f v u : validate_normalized_value f v = Returned u → validate_normalized_value f v = Returned tt.
Proof. by destruct u. Qed.

Lemma validate_raised f v e : validate_normalized_value f v = Raised e → ∃ r, e = EventIdentityError.Invalid f r.
Proof. unfold validate_normalized_value, raise_if. repeat case_match; intros [= <-]; eauto. Qed.

Lemma normalize_value_spec f v n :
  normalize_value f v = Returned n ↔ n = trim_text v ∧ validate_normalized_value f n = Returned tt.
Proof.
  unfold normalize_value. split.
  - intros Hn. inv_returned. split; [done|]. by eapply validate_returned.
  - intros [-> Hv]. by rewrite Hv.
Qed.

Lemma normalize_value_raised f v e : normalize_value f v = Raised e → ∃ r, e = EventIdentityError.Invalid f r.
Proof.
  unfold normalize_value. destruct (validate_normalized_value f (trim_text v)) eqn:E; cbn; [done|].
  intros [= <-]. by eapply validate_raised.
Qed.

Lemma value_normal_normalizes f v : value_normal f v → normalize_value f v = Returned v.
Proof. intros [Ht Hv]. apply normalize_value_spec. by rewrite Ht. Qed.

Lemma normalized_value_normal f v n : normalize_value f v = Returned n → value_normal f n.
Proof. intros [-> Hv]%normalize_value_spec. split; [apply trim_text_idem|done]. Qed.

Lemma map_insert_elem (identity : EventIdentity) f v e :
  e ∈ map_insert f v identity → e ∈ identity ∨ e = (f, v).
Proof.
  unfold map_insert. induction identity as [|[g w] identity IH]; cbn [map_update]; [set_solver|].
  destruct (compare f g) eqn:E; [apply compare_eq in E as ->| |]; set_solver.
Qed.

(** What the identity taken from some headers is: its values are normal forms of
    the headers, and every reserved header is there. *)
Definition identity_of (fields : list EventIdentityField) (h : btree string) (identity : EventIdentity) : Prop :=
  map_ordered identity ∧
  (∀ e, e ∈ identity → ∃ u, BTree.get (header_name e.1) h = Some u ∧ normalize_value e.1 u = Returned e.2) ∧
  (∀ f, f ∈ fields → map_get f identity = trim_text <$> BTree.get (header_name f) h).

Lemma from_headers_from_spec h seen fields identity identity' :
  NoDup (seen ++ fields) → identity_of seen h identity → (∀ f, f ∈ fields → map_get f identity = None) →
  from_headers_from identity fields h = Returned identity' → identity_of (seen ++ fields) h identity'.
Proof.
  revert seen identity. induction fields as [|f fields IH]; intros seen identity Hnd Hid Hnone Hfrom; cbn in Hfrom.
  { rewrite app_nil_r. by injection Hfrom as <-. }
  assert (f ∉ seen ∧ f ∉ fields) as [Hf1 Hf2]
    by (apply NoDup_app in Hnd as (_ & Hd & Hc); apply NoDup_cons in Hc as [? _]; set_solver).
  replace (seen ++ f :: fields) with ((seen ++ [f]) ++ fields) in * by by rewrite <- app_assoc.
  destruct Hid as (Ho & Hin & Hget).
  destruct (BTree.get (header_name f) h) as [v|] eqn:Ev.
  - apply fallible_bind_returned in Hfrom as (identity1 & Hins & Hfrom). unfold identity_insert in Hins.
    rewrite Hnone in Hins by left. apply fallible_bind_returned in Hins as (n & Hn & [= <-]).
    assert (∀ g, map_get g (map_insert f n identity) = if decide (g = f) then Some n else map_get g identity) as Hnew
      by (intros g; unfold map_insert; by rewrite map_get_update).
    eapply IH; [done| | |exact Hfrom].
    + split_and!; [by apply map_update_ordered|intros e [He| ->]%map_insert_elem; [by apply Hin|by exists v]|].
      intros g Hg. rewrite Hnew. case_decide as Heq; [|apply Hget; set_solver].
      subst g. rewrite Ev. by apply normalize_value_spec in Hn as [-> _].
    + intros g Hg. rewrite Hnew, decide_False by (by intros ->). apply Hnone. by right.
  - cbn in Hfrom. eapply IH; [done| |intros g Hg; apply Hnone; by right|exact Hfrom]. split_and!; [done..|].
    intros g Hg. apply elem_of_app in Hg as [Hg|Hg%list_elem_of_singleton]; [by apply Hget|].
    subst g. rewrite Ev, Hnone by left. done.
Qed.

Lemma from_headers_spec h identity :
  from_headers h = Returned identity → identity_of EventIdentityField.ALL h identity.
Proof.
  apply (from_headers_from_spec h []); [|split_and!; [constructor|intros e He|intros f Hf]|]; try set_solver.
  apply (bool_decide_unpack _). by vm_compute.
Qed.

(** The only failure is a header without a normal form. *)
Lemma from_headers_from_raised h fields identity e :
  NoDup fields → map_ordered identity → (∀ f, f ∈ fields → map_get f identity = None) →
  from_headers_from identity fields h = Raised e →
  ∃ f v, BTree.get (header_name f) h = Some v ∧ normalize_value f v = Raised e.
Proof.
  revert identity. induction fields as [|f fields IH]; intros identity Hnd Ho Hnone Hfrom; cbn in Hfrom; [done|].
  apply NoDup_cons in Hnd as [Hf Hnd].
  destruct (BTree.get (header_name f) h) as [v|] eqn:Ev.
  - unfold identity_insert in Hfrom. rewrite Hnone in Hfrom by left.
    destruct (normalize_value f v) as [n|e'] eqn:En; cbn in Hfrom.
    + eapply IH; [done| | |exact Hfrom]; [by apply map_update_ordered|]. intros g Hg. unfold map_insert.
      rewrite map_get_update, decide_False by (done || by intros ->). apply Hnone. by right.
    + injection Hfrom as <-. by exists f, v.
  - cbn in Hfrom. eapply IH; [done|done| |exact Hfrom]. intros g Hg. apply Hnone. by right.
Qed.

Lemma check_headers_returned h identity :
  (∀ e, e ∈ identity → ∃ u, BTree.get (header_name e.1) h = Some u ∧ normalize_value e.1 u = Returned e.2) →
  check_headers identity h = Returned tt.
Proof.
  induction identity as [|[f v] identity IH]; intros Hin; cbn; [done|].
  destruct (Hin (f, v)) as (u & Hu & Hn); [by left|]. cbn in *. rewrite Hu, Hn. cbn. rewrite String.eqb_refl. cbn.
  apply IH. intros e He. apply Hin. by right.
Qed.

Lemma write_headers_get h identity f :
  map_ordered identity →
  BTree.get (header_name f) (write_headers identity h) =
    match map_get f identity with Some v => Some v | None => BTree.get (header_name f) h end.
Proof.
  unfold write_headers, map_ordered. intros Ho. revert h.
  induction Ho as [|[g v] identity Ho IH Hlt]; intros h; cbn [fold_left map_get]; [done|]. cbn [fst snd].
  rewrite IH. case_decide as Heq.
  - subst g. rewrite btree_get_insert_eq. replace (map_get f identity) with (@None string); [done|].
    symmetry. apply map_get_none. intros ([g w] & Hg & He)%list_elem_of_fmap. rewrite Forall_forall in Hlt.
    specialize (Hlt _ He). cbn in *. subst g. by apply ord_lt_irrefl in Hlt.
  - rewrite btree_get_insert_ne; [done|]. intros Hn. by apply EventIdentityField.header_name_inj in Hn.
Qed.

Lemma normalize_with_change_normal h h' identity changed :
  normalize_with_change h = Returned (h', identity, changed) →
  normal_headers h' ∧ (∀ k, (∀ f, k ≠ header_name f) → BTree.get k h' = BTree.get k h).
Proof.
  unfold normalize_with_change. intros Hn. apply fallible_bind_returned in Hn as (identity' & Hfrom & Hn).
  apply from_headers_spec in Hfrom as (Ho & Hin & Hget).
  assert (∀ f, map_get f identity' = trim_text <$> BTree.get (header_name f) h) as Hall
    by (intros f; apply Hget, EventIdentityField.elem_of_all).
  assert (∀ f v, map_get f identity' = Some v → value_normal f v) as Hnorm.
  { intros f v Hv%map_get_elem%Hin. destruct Hv as (u & _ & Hu). by eapply normalized_value_normal. }
  destruct (existsb _ _) eqn:Ech; apply fallible_bind_returned in Hn as (h1 & Happ & [= <- <- <-]).
  - unfold apply_to_headers in Happ. rewrite check_headers_returned in Happ by done. injection Happ as <-. split.
    + intros f v. rewrite write_headers_get by done. destruct (map_get f identity') as [w|] eqn:Ew.
      * intros [= <-]. by apply Hnorm.
      * rewrite Hall in Ew. by destruct (BTree.get _ h).
    + intros k Hk. unfold write_headers. clear -Hk. revert h.
      induction identity' as [|e identity' IH]; intros h; cbn [fold_left]; [done|]. rewrite IH.
      by rewrite btree_get_insert_ne.
  - injection Happ as <-. split; [|done]. intros f v Hv. apply Hnorm.
    assert (BTree.get (header_name f) h = map_get f identity') as <-; [|done].
    destruct (decide (BTree.get (header_name f) h = map_get f identity')) as [|Hne]; [done|].
    apply not_true_iff_false in Ech. destruct Ech. apply existsb_exists. exists f.
    split; [apply list_elem_of_In, EventIdentityField.elem_of_all|]. by rewrite bool_decide_false.
Qed.

Lemma normalize_with_change_raised h e :
  normalize_with_change h = Raised e → ∃ f v, BTree.get (header_name f) h = Some v ∧ normalize_value f v = Raised e.
Proof.
  unfold normalize_with_change. destruct (from_headers h) as [identity|e'] eqn:Ef; cbn.
  - apply from_headers_spec in Ef as (_ & Hin & _). unfold apply_to_headers.
    rewrite check_headers_returned by done. by case_match.
  - intros [= <-]. eapply from_headers_from_raised; [| | |exact Ef]; [|constructor|done].
    apply (bool_decide_unpack _). by vm_compute.
Qed.

Lemma normalize_with_change_id h :
  normal_headers h → ∃ identity, normalize_with_change h = Returned (h, identity, false).
Proof.
  intros Hh. destruct (from_headers h) as [identity|e] eqn:Ef.
  - exists identity. unfold normalize_with_change. rewrite Ef. cbn [mbind fallible_bind].
    apply from_headers_spec in Ef as (_ & _ & Hget).
    replace (existsb _ _) with false; [done|]. symmetry. apply not_true_iff_false. intros (f & Hf & Hne)%existsb_exists.
    apply list_elem_of_In, Hget in Hf. apply negb_true_iff, bool_decide_eq_false in Hne. rewrite Hf in Hne.
    destruct (BTree.get (header_name f) h) as [v|] eqn:Ev; [|done]. apply Hh in Ev as [Hv _]. cbn in Hne. by rewrite Hv in Hne.
  - exfalso. assert (∃ f v, BTree.get (header_name f) h = Some v ∧ normalize_value f v = Raised e) as (f & v & Hv & Hn)
      by (apply normalize_with_change_raised; unfold normalize_with_change; by rewrite Ef).
    apply Hh, value_normal_normalizes in Hv. congruence.
Qed.

Lemma normalize_in_place_id h : normal_headers h → normalize_in_place h = (h, Returned false).
Proof.
  intros Hh. unfold normalize_in_place. generalize EventIdentityField.ALL as fields.
  induction fields as [|f fields IH]; cbn; [done|].
  destruct (BTree.get (header_name f) h) as [v|] eqn:Ev; [|done].
  apply Hh in Ev as [-> ->]. by rewrite N.eqb_refl.
Qed.

(** Headers with the same reserved keys and the same order. *)
Definition same_reserved (h h' : btree string) : Prop :=
  (BTree.sorted h → BTree.sorted h') ∧ ∀ f, is_Some (BTree.get (header_name f) h') ↔ is_Some (BTree.get (header_name f) h).

Lemma normalize_in_place_spec h h' r :
  normalize_in_place h = (h', r) →
  same_reserved h h' ∧
  (∀ e, r = Raised e → ∃ f r, e = EventIdentityError.Invalid f r ∧ is_Some (BTree.get (header_name f) h')).
Proof.
  unfold normalize_in_place. generalize false as changed. generalize EventIdentityField.ALL as fields.
  intros fields. revert h. induction fields as [|f fields IH]; intros h changed; cbn.
  { intros [= <- <-]. by split_and!. }
  destruct (BTree.get (header_name f) h) as [v|] eqn:Ev; [|apply IH].
  destruct (validate_normalized_value f (trim_text v)) as [u|e] eqn:Eval.
  - case_match; [apply IH|]. intros ([Hs Hr] & He)%IH. split; [|done]. split.
    + intros Ho. by apply Hs, btree_insert_sorted.
    + intros g. rewrite Hr. destruct (decide (f = g)) as [<-|Hne].
      * by rewrite btree_get_insert_eq, Ev.
      * rewrite btree_get_insert_ne; [done|]. intros Hn. by apply EventIdentityField.header_name_inj in Hn.
  - intros [= <- <-]. split_and!; [by split|]. intros e' [= <-]. apply validate_raised in Eval as [r ->]. exists f, r.
    split; [done|]. by rewrite Ev.
Qed.

(** *** Relocation *)

Lemma btree_get_remove_ne {V} k k' (m : btree V) : k ≠ k' → BTree.get k (BTree.remove k' m) = BTree.get k m.
Proof.
  intros Hne. induction m as [|[k0 v0] m IH]; cbn; [done|]. destruct (String.eqb k' k0) eqn:E.
  - apply String.eqb_eq in E as ->. by rewrite (proj2 (String.eqb_neq _ _) Hne).
  - cbn. by rewrite IH.
Qed.

Lemma btree_remove_elem {V} k (m : btree V) e : e ∈ BTree.remove k m → e ∈ m.
Proof. induction m as [|[k0 v0] m IH]; cbn; [done|]. case_match; set_solver. Qed.

Lemma btree_remove_sorted {V} k (m : btree V) : BTree.sorted m → BTree.sorted (BTree.remove k m).
Proof.
  unfold BTree.sorted. induction 1 as [|[k0 v0] m Hs IH Hlt]; cbn; [constructor|]. case_match; [done|].
  constructor; [done|]. rewrite Forall_forall in *. intros e He. apply Hlt. by eapply btree_remove_elem.
Qed.

Lemma btree_get_remove_eq {V} k (m : btree V) : BTree.sorted m → BTree.get k (BTree.remove k m) = None.
Proof.
  unfold BTree.sorted. induction 1 as [|[k0 v0] m Hs IH Hlt]; cbn; [done|]. destruct (String.eqb k k0) eqn:E.
  - apply String.eqb_eq in E as ->. by apply btree_get_lower.
  - cbn. by rewrite E.
Qed.

Lemma free_key_extends fuel base key suffix h :
  (∃ t, key = base ++ t)%string → ∃ t, free_key fuel base key suffix h = (base ++ t)%string.
Proof. revert key suffix. induction fuel as [|fuel IH]; intros key suffix Hk; cbn; [done|]. case_match; [|done]. apply IH. by eexists. Qed.

Lemma legacy_not_reserved f g t : ("harn.legacy.header." ++ header_name f ++ t)%string ≠ header_name g.
Proof. by destruct g. Qed.

Lemma relocate_reserved h f g :
  BTree.sorted h →
  BTree.get (header_name g) (relocate_historical_identity_header h f) =
    if decide (g = f) then None else BTree.get (header_name g) h.
Proof.
  intros Hs. unfold relocate_historical_identity_header. destruct (BTree.get (header_name f) h) as [v|] eqn:Ev.
  - set (base := ("harn.legacy.header." ++ header_name f)%string).
    match goal with |- BTree.get _ (BTree.insert ?k _ _) = _ =>
      assert (header_name g ≠ k) as Hk end.
    { destruct (free_key_extends (S (length (BTree.remove (header_name f) h))) base base 2 (BTree.remove (header_name f) h))
        as [t Ht]; [by exists ""%string; rewrite append_nil|].
      intros Heq. rewrite Ht in Heq. unfold base in Heq. rewrite <- append_assoc in Heq.
      symmetry in Heq. by apply legacy_not_reserved in Heq. }
    rewrite btree_get_insert_ne by done. case_decide as Hg; [subst g; by apply btree_get_remove_eq|].
    apply btree_get_remove_ne. intros Hn. by apply EventIdentityField.header_name_inj in Hn.
  - case_decide as Hg; [by subst g|done].
Qed.

Lemma relocate_sorted h f : BTree.sorted h → BTree.sorted (relocate_historical_identity_header h f).
Proof.
  intros Hs. unfold relocate_historical_identity_header. case_match; [|done].
  by apply btree_insert_sorted, btree_remove_sorted.
Qed.

(** The search for a free key finds one: more keys than headers cannot be taken. *)
Fixpoint tried (fuel : nat) (base key : string) (suffix : N) : list string :=
  match fuel with
  | O => []
  | S fuel => key :: tried fuel base (base ++ "." ++ pretty suffix)%string (suffix + 1)
  end.

Lemma free_key_tried fuel base key suffix h :
  BTree.contains_key (free_key fuel base key suffix h) h = true →
  Forall (λ k, BTree.contains_key k h = true) (tried fuel base key suffix).
Proof.
  revert key suffix. induction fuel as [|fuel IH]; intros key suffix Hc; cbn in *; [constructor|].
  destruct (BTree.contains_key key h) eqn:E; [|congruence]. constructor; [done|]. by apply IH.
Qed.

Lemma tried_elem fuel base n suffix k :
  k ∈ tried fuel base (base ++ "." ++ pretty n)%string suffix → (n < suffix)%N →
  ∃ m, k = (base ++ "." ++ pretty m)%string ∧ (n <= m)%N.
Proof.
  revert n suffix. induction fuel as [|fuel IH]; intros n suffix Hk Hn; cbn in Hk; [by apply not_elem_of_nil in Hk|].
  apply elem_of_cons in Hk as [->|Hk]; [by exists n|]. apply IH in Hk as (m & -> & Hm); [|lia]. exists m. split; [done|lia].
Qed.

Lemma tried_suffixes fuel base n suffix :
  (n < suffix)%N → NoDup (tried fuel base (base ++ "." ++ pretty n)%string suffix).
Proof.
  revert n suffix. induction fuel as [|fuel IH]; intros n suffix Hn; cbn; [constructor|]. constructor; [|apply IH; lia].
  intros Hk. apply tried_elem in Hk as (m & Heq & Hm); [|lia].
  apply string_app_inj_l, string_app_inj_l, (inj pretty) in Heq. lia.
Qed.

Lemma free_key_free base suffix h :
  BTree.contains_key (free_key (S (length h)) base base suffix h) h = false.
Proof.
  apply not_true_iff_false. intros Htaken%free_key_tried.
  assert (NoDup (tried (S (length h)) base base suffix)) as Hnd.
  { cbn [tried]. constructor; [|apply tried_suffixes; lia]. intros Hk.
    apply tried_elem in Hk as (m & Heq & _); [|lia]. apply (f_equal String.length) in Heq.
    rewrite !append_length in Heq. change (String.length ".") with 1 in Heq. lia. }
  assert (tried (S (length h)) base base suffix ⊆+ map fst h) as Hsub.
  { apply NoDup_submseteq; [done|]. intros k Hk. rewrite Forall_forall in Htaken. specialize (Htaken k Hk).
    unfold BTree.contains_key in Htaken. destruct (BTree.get k h) as [v|] eqn:E; [|done].
    apply btree_get_in in E. by apply (list_elem_of_fmap_2 fst) in E. }
  apply submseteq_length in Hsub. rewrite length_map in Hsub.
  assert (∀ fuel base key suffix, length (tried fuel base key suffix) = fuel) as Hlen
    by (intros fuel; induction fuel; intros; cbn; by f_equal).
  rewrite Hlen in Hsub. lia.
Qed.

(** *** The loops end *)

Definition present (h : btree string) : nat :=
  length (filter (λ f, is_Some (BTree.get (header_name f) h)) EventIdentityField.ALL).

Lemma present_relocate h f :
  BTree.sorted h → is_Some (BTree.get (header_name f) h) →
  present (relocate_historical_identity_header h f) < present h.
Proof.
  intros Hs Hf. unfold present.
  assert (∀ fields, NoDup fields →
    length (filter (λ g, is_Some (BTree.get (header_name g) (relocate_historical_identity_header h f))) fields) +
      (if decide (f ∈ fields) then 1 else 0) = length (filter (λ g, is_Some (BTree.get (header_name g) h)) fields)) as Hcount.
  { induction 1 as [|g fields Hg Hnd IH]; [done|]. rewrite !filter_cons, relocate_reserved by done.
    destruct (decide (g = f)) as [->|Hne].
    - rewrite (decide_True (P := f ∈ f :: fields)) by left. rewrite (decide_False (P := f ∈ fields)) in IH by done.
      rewrite decide_False by (by intros []). rewrite decide_True by done. cbn. lia.
    - repeat case_decide; try done; cbn; try lia; exfalso; set_solver. }
  specialize (Hcount EventIdentityField.ALL). rewrite decide_True in Hcount by apply EventIdentityField.elem_of_all.
  rewrite <- Hcount; [lia|]. apply (bool_decide_unpack _). by vm_compute.
Qed.

Lemma present_bound h : present h < RELOCATIONS.
Proof. unfold present, RELOCATIONS. pose proof (length_filter (λ f, is_Some (BTree.get (header_name f) h)) EventIdentityField.ALL). lia. Qed.

Lemma present_same h h' : same_reserved h h' → present h' = present h.
Proof.
  intros [_ Hr]. unfold present. generalize EventIdentityField.ALL as fields.
  induction fields as [|f fields IH]; [done|]. rewrite !filter_cons. specialize (Hr f).
  repeat case_decide; cbn; rewrite ?IH; tauto.
Qed.

Lemma normalize_stored_identity_ends fuel id changed h :
  BTree.sorted h → present h < fuel →
  ∃ h' identity c, normalize_stored_identity fuel id changed h = Returned (h', identity, c) ∧ normal_headers h'.
Proof.
  revert changed h. induction fuel as [|fuel IH]; intros changed h Hs Hp; [lia|]. cbn [normalize_stored_identity].
  destruct (normalize_with_change h) as [[[h' identity] c]|e] eqn:En.
  - exists h', identity, (changed || c). split; [done|]. eapply proj1, normalize_with_change_normal, En.
  - apply normalize_with_change_raised in En as (f & v & Hv & Hn). apply normalize_value_raised in Hn as Hr.
    destruct Hr as [r ->]. cbn. assert (present (relocate_historical_identity_header h f) < present h).
    { apply present_relocate; [done|]. by rewrite Hv. }
    apply IH; [by apply relocate_sorted|lia].
Qed.

Lemma normalize_stored_in_place_ends fuel id changed h :
  BTree.sorted h → present h < fuel → ∃ h' c, normalize_stored_in_place fuel id changed h = Returned (h', c).
Proof.
  revert changed h. induction fuel as [|fuel IH]; intros changed h Hs Hp; [lia|]. cbn [normalize_stored_in_place].
  destruct (normalize_in_place h) as [h1 [c|e]] eqn:En; [by eexists _, _|].
  apply normalize_in_place_spec in En as [Hsame He]. destruct (He e) as (f & r & -> & Hf); [done|].
  pose proof (present_same _ _ Hsame). destruct Hsame as [Hs1 _]. specialize (Hs1 Hs).
  pose proof (present_relocate h1 f Hs1 Hf). apply IH; [by apply relocate_sorted|lia].
Qed.

(** ** What reading changes *)

Lemma origin_not_reserved f : CANONICAL_ORIGIN_SESSION_HEADER ≠ header_name f.
Proof. by destruct f. Qed.

Lemma relocate_origin h f :
  BTree.get CANONICAL_ORIGIN_SESSION_HEADER (relocate_historical_identity_header h f) =
    BTree.get CANONICAL_ORIGIN_SESSION_HEADER h.
Proof.
  unfold relocate_historical_identity_header. destruct (BTree.get (header_name f) h) as [v|]; [|done].
  set (base := ("harn.legacy.header." ++ header_name f)%string).
  destruct (free_key_extends (S (length (BTree.remove (header_name f) h))) base base 2 (BTree.remove (header_name f) h))
    as [t Ht]; [by exists ""%string; rewrite append_nil|].
  rewrite Ht, btree_get_insert_ne by done. apply btree_get_remove_ne, origin_not_reserved.
Qed.

Lemma normalize_stored_identity_origin fuel id changed h h' identity c :
  normalize_stored_identity fuel id changed h = Returned (h', identity, c) →
  BTree.get CANONICAL_ORIGIN_SESSION_HEADER h' = BTree.get CANONICAL_ORIGIN_SESSION_HEADER h.
Proof.
  revert changed h. induction fuel as [|fuel IH]; intros changed h; [done|]. cbn [normalize_stored_identity].
  destruct (normalize_with_change h) as [[[h1 i1] c1]|[f r|f a b]] eqn:En; [| |done].
  - intros [= <- <- <-]. by apply (normalize_with_change_normal _ _ _ _ En), origin_not_reserved.
  - intros Hn%IH. by rewrite Hn, relocate_origin.
Qed.

Lemma normalize_in_place_origin h h' r :
  normalize_in_place h = (h', r) →
  BTree.get CANONICAL_ORIGIN_SESSION_HEADER h' = BTree.get CANONICAL_ORIGIN_SESSION_HEADER h.
Proof.
  unfold normalize_in_place. generalize false as changed. generalize EventIdentityField.ALL as fields.
  intros fields. revert h. induction fields as [|f fields IH]; intros h changed; cbn [normalize_in_place_from].
  { by intros [= <- <-]. }
  destruct (BTree.get (header_name f) h) as [v|]; [|apply IH].
  destruct (validate_normalized_value f (trim_text v)); [|by intros [= <- <-]].
  case_match; [apply IH|]. intros Hn%IH. by rewrite Hn, btree_get_insert_ne by apply origin_not_reserved.
Qed.

Lemma normalize_in_place_unchanged h h' : normalize_in_place h = (h', Returned false) → h' = h.
Proof.
  unfold normalize_in_place. generalize EventIdentityField.ALL as fields. intros fields.
  assert (∀ changed h, normalize_in_place_from fields changed h = (h', Returned false) → changed = false ∧ h' = h) as Hall;
    [|by intros [_ ?]%Hall].
  clear h. induction fields as [|f fields IH]; intros changed h; cbn [normalize_in_place_from]; [by intros [= -> ->]|].
  destruct (BTree.get (header_name f) h) as [v|]; [|apply IH].
  destruct (validate_normalized_value f (trim_text v)); [|done]. case_match; [apply IH|]. by intros [? _]%IH.
Qed.

Lemma normalize_stored_in_place_spec fuel id changed h h' c :
  normalize_stored_in_place fuel id changed h = Returned (h', c) →
  BTree.get CANONICAL_ORIGIN_SESSION_HEADER h' = BTree.get CANONICAL_ORIGIN_SESSION_HEADER h ∧
  (c = false → changed = false ∧ h' = h).
Proof.
  revert changed h. induction fuel as [|fuel IH]; intros changed h; [done|]. cbn [normalize_stored_in_place].
  destruct (normalize_in_place h) as [h1 [c1|[f r|f a b]]] eqn:En; [| |done].
  - intros [= <- <-]. split; [by eapply normalize_in_place_origin|]. intros [-> ->]%orb_false_iff.
    by apply normalize_in_place_unchanged in En.
  - intros [Ho Hc]%IH. rewrite Ho, relocate_origin. split; [by eapply normalize_in_place_origin|].
    by intros [? _]%Hc.
Qed.

Lemma write_headers_origin identity h :
  BTree.get CANONICAL_ORIGIN_SESSION_HEADER (write_headers identity h) = BTree.get CANONICAL_ORIGIN_SESSION_HEADER h.
Proof.
  unfold write_headers. revert h. induction identity as [|e identity IH]; intros h; cbn [fold_left]; [done|].
  by rewrite IH, btree_get_insert_ne by apply origin_not_reserved.
Qed.

Section projections.
Context `{SerdeJson, SigningCrates}.

(** Headers are [BTreeMap]s, those a policy returns included. *)
Definition policy_sorted (hooks : StoreHooks) : Prop :=
  match redaction hooks with
  | None => True
  | Some policy => ∀ h, BTree.sorted (redact_headers policy h)
  end.

(** The columns of an event a projection never changes. *)
Definition same_row (e e' : StoredEvent) : Prop :=
  event_id e' = event_id e ∧ session_id e' = session_id e ∧ tenant_id e' = tenant_id e ∧
  parent_event_id e' = parent_event_id e ∧ actor e' = actor e ∧ kind e' = kind e ∧ tags e' = tags e ∧
  ts_ms e' = ts_ms e ∧ ts e' = ts e ∧ prev_hash e' = prev_hash e ∧
  source_record_hash e' = source_record_hash e ∧
  canonical_origin_session_id e' = canonical_origin_session_id e.

Definition as_stored (e e' : StoredEvent) : Prop :=
  headers e' = headers e ∧ (payload e' = payload e ∨ Value.eqb (payload e') (payload e) = true) ∧
  record_hash e' = record_hash e ∧ signed_by e' = signed_by e.

Definition never_authenticates (e : StoredEvent) : Prop :=
  is_redacted_projection e = true ∧ signed_by e = None ∧
  ∀ key, verify_event e key = Raised VerifyError.InvalidShape.

Lemma strip_prefix_prefix p s : String.prefix p s = true → ∃ rest, strip_prefix p s = Some rest.
Proof.
  revert s. induction p as [|c p IH]; intros s Hp; [by exists s|]. destruct s as [|d s]; [discriminate|].
  cbn in *. destruct (Ascii.ascii_dec c d) as [->|]; [|discriminate]. rewrite decide_True by done. by apply IH.
Qed.

Lemma marked_projection e :
  never_authenticates (mark_redacted_projection e) ∧
  source_record_hash (mark_redacted_projection e) = source_record_hash e.
Proof.
  unfold mark_redacted_projection. destruct (is_redacted_projection e) eqn:E.
  - split; [|done]. assert (is_redacted_projection (with_signature None e) = true) as Hr by done.
    split_and!; [done..|]. intros key. unfold verify_event. by rewrite Hr.
  - assert (is_redacted_projection (with_record_hash (REDACTED ++ record_hash e) e) = true) as Hr
      by (unfold is_redacted_projection; cbn; by destruct (record_hash e)).
    split.
    + split_and!; [done..|]. intros key. unfold verify_event.
      change (is_redacted_projection (with_signature None ?x)) with (is_redacted_projection x). by rewrite Hr.
    + unfold source_record_hash at 1. cbn [record_hash with_signature with_record_hash].
      rewrite (proj2 (strip_prefix_spec REDACTED _ (record_hash e))) by done.
      change (record_hash e = source_record_hash e). unfold source_record_hash. destruct (strip_prefix REDACTED (record_hash e)) as [rest|] eqn:Es; [|done].
      apply strip_prefix_spec in Es. unfold is_redacted_projection in E. rewrite Es in E. destruct rest; vm_compute in E; discriminate.
Qed.
End projections.

Section reading.
Context `{SerdeJson, SigningCrates}.

Lemma same_content_row e h p :
  BTree.get CANONICAL_ORIGIN_SESSION_HEADER h = BTree.get CANONICAL_ORIGIN_SESSION_HEADER (headers e) →
  same_row e (with_content p h e).
Proof. intros Ho. unfold same_row, canonical_origin_session_id. cbn. rewrite Ho. by split_and!. Qed.

Lemma same_row_marked e e' : same_row e e' → same_row e (mark_redacted_projection e').
Proof.
  intros Hsame. pose proof (proj2 (marked_projection e')) as Hsource. unfold same_row in *. rewrite Hsource.
  unfold mark_redacted_projection, canonical_origin_session_id in *. by destruct (is_redacted_projection e').
Qed.

Lemma redact_content_row hooks e e' :
  policy_sorted hooks → redact_content hooks e = Returned e' →
  ∃ p h, e' = with_content p h e ∧
    BTree.get CANONICAL_ORIGIN_SESSION_HEADER h = BTree.get CANONICAL_ORIGIN_SESSION_HEADER (headers e).
Proof.
  unfold redact_content, policy_sorted. intros Hp Hr.
  apply fallible_bind_returned in Hr as ([[h identity] c] & Hn & Hr).
  apply normalize_stored_identity_origin in Hn as Ho.
  apply fallible_bind_returned in Hr as ([p h'] & Ha & [= <-]). exists p, h'. split; [done|]. rewrite <- Ho.
  unfold apply_event_redaction in Ha. destruct (redaction hooks) as [policy|]; cbn in Ha; [|by injection Ha as <- <-].
  destruct (apply_to_headers _ _) as [h2|] eqn:Eh; [|done]. injection Ha as _ <-.
  unfold apply_to_headers in Eh. apply fallible_bind_returned in Eh as (_ & _ & [= <-]).
  rewrite write_headers_origin. destruct (BTree.get CANONICAL_ORIGIN_SESSION_HEADER h) as [origin|].
  - apply btree_get_insert_eq.
  - by apply btree_get_remove_eq.
Qed.

Lemma redact_stored_event_projects hooks e e' :
  policy_sorted hooks → redact_stored_event hooks e = Returned e' →
  same_row e e' ∧ (as_stored e e' ∨ never_authenticates e').
Proof.
  unfold redact_stored_event. intros Hp Hr. destruct (redaction hooks) as [policy|] eqn:Epolicy.
  - apply fallible_bind_returned in Hr as (e1 & Hc & [= <-]). apply redact_content_row in Hc as (p & h & -> & Ho); [|done].
    pose proof (same_content_row e h p Ho) as Hrow. destruct (_ || _) eqn:Ech.
    + split; [by apply same_row_marked|right]. apply marked_projection.
    + split; [done|left]. apply orb_false_iff in Ech as [Ev Eh]. apply negb_false_iff in Ev, Eh.
      apply bool_decide_eq_true in Eh. split_and!; [done|by right|done..].
  - apply fallible_bind_returned in Hr as ([h c] & Hn & [= <-]). apply normalize_stored_in_place_spec in Hn as [Ho Hc].
    pose proof (same_content_row e h (payload e) Ho) as Hrow. destruct c.
    + split; [by apply same_row_marked|right]. apply marked_projection.
    + split; [done|left]. destruct (Hc eq_refl) as [_ ->]. split_and!; [done|by left|done..].
Qed.

Lemma for_each_Forall2 (f : StoredEvent → StoreResult StoredEvent) es es' :
  for_each f es = Returned es' ↔ Forall2 (λ e e', f e = Returned e') es es'.
Proof.
  revert es'. induction es as [|e es IH]; intros es'; cbn; [split; [by intros [= <-]|by inversion 1]|]. split.
  - intros (e1 & He & (es1 & Hes & [= <-])%fallible_bind_returned)%fallible_bind_returned.
    constructor; [done|]. by apply IH.
  - inversion 1 as [|? e1 ? es1 He Hes]; subst. apply IH in Hes. by rewrite He, Hes.
Qed.

Lemma chain_root_source es es' :
  Forall2 (λ e e', source_record_hash e' = source_record_hash e) es es' → chain_root_hash es' = chain_root_hash es.
Proof.
  unfold chain_root_hash. generalize chain_root_init as root. intros root Hall. revert root.
  induction Hall as [|e e' es es' He Hall IH]; intros root; cbn [fold_left]; [done|]. by rewrite He, IH.
Qed.

(** C19: What a reader is given is either what was signed or plainly not it. Every
    event that reading, snapshotting or replaying returns keeps its position,
    links, source hash and lineage, so the chain root of what is read is the
    chain root of what is stored; and each is the stored event as it is, hash
    and signature included, or a projection that is marked, unsigned and refused
    by [verify_event] under every key. A policy cannot grant or erase where an
    event came from. Without a policy reading always succeeds, whatever identity
    headers older data holds. *)
Theorem projections_never_authenticate hooks es :
  policy_sorted hooks →
  (∀ es', redact_stored_events hooks es = Returned es' →
     chain_root_hash es' = chain_root_hash es ∧
     Forall2 (λ e e', same_row e e' ∧ (as_stored e e' ∨ never_authenticates e')) es es') ∧
  (redaction hooks = None → Forall (λ e, BTree.sorted (headers e)) es →
     ∃ es', redact_stored_events hooks es = Returned es').
Proof.
  intros Hp. split.
  - intros es' Hes%for_each_Forall2.
    assert (Forall2 (λ e e', same_row e e' ∧ (as_stored e e' ∨ never_authenticates e')) es es') as Hall
      by (eapply Forall2_impl; [exact Hes|]; intros e e'; by apply redact_stored_event_projects).
    split; [|done]. apply chain_root_source. eapply Forall2_impl; [exact Hall|].
    intros e e' [Hsame _]. unfold same_row in Hsame. tauto.
  - intros Hnone Hs. induction Hs as [|e es He Hes [es' IH]]; [by exists []|]. unfold redact_stored_events in *. cbn [for_each].
    assert (∃ e', redact_stored_event hooks e = Returned e') as [e' ->]; [|cbn; rewrite IH; by eexists].
    unfold redact_stored_event. rewrite Hnone.
    destruct (normalize_stored_in_place_ends RELOCATIONS (event_id e) false (headers e)) as (h & c & ->);
      [done|apply present_bound|]. by eexists.
Qed.
End reading.

(** A policy that hides payloads, and legacy headers, for examples *)
Definition sample_policy : @EventRedactor sample_json :=
  @mkEventRedactor sample_json (λ _, Value.String "hidden") (λ h, BTree.from_entries h).

Definition sample_hooks : @StoreHooks sample_json sample_crates :=
  @mkStoreHooks sample_json sample_crates (Some sample_policy) None None.

Lemma projections_never_authenticate_witness :
  @policy_sorted sample_json sample_crates sample_hooks ∧
  (∀ es', @redact_stored_events sample_json sample_crates sample_hooks (sample_chain "early") = Returned es' →
     @chain_root_hash sample_json sample_crates sample_signing es' = @chain_root_hash sample_json sample_crates sample_signing (sample_chain "early")) ∧
  ∃ es', @redact_stored_events sample_json sample_crates sample_hooks (sample_chain "early") = Returned es' ∧
    Forall (λ e, is_redacted_projection e = true) es'.
Proof.
  assert (@policy_sorted sample_json sample_crates sample_hooks) as Hp.
  { intros h. apply btree_extend_sorted. constructor. }
  split_and!; [exact Hp| |].
  - intros es' Hes.
    apply (@projections_never_authenticate sample_json sample_crates sample_signing sample_hooks (sample_chain "early") Hp).
    exact Hes.
  - eexists. split; [vm_compute; reflexivity|]. repeat constructor.
Defined.
