(* ===== verification/SessionStore.v ===== *)
(** * The session store in memory ([harn-session-store/src/store.rs], [memory.rs], [memory_helpers.rs], [boundary.rs])

    Sessions by id, each its metadata and its chain of events; snapshots and
    import receipts. One definition per operation of [MemorySessionStore], in
    the order the source takes its decisions; an operation that fails has not
    changed the store. The clock is a sequence of readings and the fresh
    identifier an argument of the operations that consult them. *)

From Stdlib Require Import Strings.String.
From stdpp Require Import pretty.
From S2P Require Import Prelude BTree Fallible Ordered Atom Text SessionEvent SessionSigning SessionHooks.

(** ** Data *)

Module SessionStatus.
Inductive SessionStatus :=
  | Open
  | Closed
  | SoftDeleted
  | HardDeleted.

#[global] Instance status_eq_dec : EqDecision SessionStatus.
Proof. solve_decision. Defined.
End SessionStatus.
Notation SessionStatus := SessionStatus.SessionStatus.

Module SessionType.
Inductive SessionType :=
  | User
  | Subagent
  | Scheduled.

#[global] Instance type_eq_dec : EqDecision SessionType.
Proof. solve_decision. Defined.
End SessionType.
Notation SessionType := SessionType.SessionType.

Module ListSortKey.
Inductive ListSortKey :=
  | CreatedAt
  | UpdatedAt.
End ListSortKey.
Notation ListSortKey := ListSortKey.ListSortKey.

Module ListOrder.
Inductive ListOrder :=
  | Ascending
  | Descending.
End ListOrder.
Notation ListOrder := ListOrder.ListOrder.

(** [CanonicalSessionBoundary] *)
Record CanonicalSessionBoundary := mkBoundary {
  boundary_schema : string;
  boundary_session_id : string;
  boundary_event_id : option EventId;
  boundary_record_hash : option string
}.

Definition CANONICAL_SESSION_BOUNDARY_SCHEMA : string := "harn.canonical_session_boundary.v1".

(** A reading of the clock: milliseconds, and the instant as RFC 3339 text
    ([now_ms_and_rfc3339]). *)
Definition Instant : Type := Z * string.

(** [+] on [u64], as an optimised build computes it. *)
Definition add_u64 (a b : N) : N := (a + b) mod 18446744073709551616.

Definition MAX_READ_BATCH : N := 1000.

Section store.
Context `{SerdeJson, SigningCrates}.

(** [SessionMeta] *)
Record SessionMeta := mkSessionMeta {
  meta_id : string;
  meta_tenant_id : option string;
  meta_persona : option string;
  meta_parent_session_id : option string;
  meta_title : option string;
  meta_title_pinned : bool;
  meta_cwd : option string;
  meta_model : option string;
  meta_session_type : option SessionType;
  meta_project_scope : option string;
  meta_usage_input : N;
  meta_usage_output : N;
  meta_usage_cost_usd_micros : N;
  meta_created_at_ms : Z;
  meta_created_at : string;
  meta_updated_at_ms : Z;
  meta_updated_at : string;
  meta_status : SessionStatus;
  meta_event_count : N;
  meta_last_event_id : option EventId;
  meta_chain_root_hash : option string;
  meta_closed_at_ms : option Z;
  meta_closed_at : option string;
  meta_soft_deleted_at_ms : option Z;
  meta_ttl_seconds : option N;
  meta_tags : list string;
  meta_attributes : btree Value
}.

(** [CreateSession] *)
Record CreateSession := mkCreateSession {
  create_id : option string;
  create_tenant_id : option string;
  create_persona : option string;
  create_parent_session_id : option string;
  create_title : option string;
  create_title_pinned : bool;
  create_cwd : option string;
  create_model : option string;
  create_session_type : option SessionType;
  create_project_scope : option string;
  create_usage_input : N;
  create_usage_output : N;
  create_usage_cost_usd_micros : N;
  create_ttl_seconds : option N;
  create_tags : list string;
  create_attributes : btree Value
}.

(** [UpdateSession] *)
Record UpdateSession := mkUpdateSession {
  update_title : option string;
  update_title_pinned : option bool;
  update_cwd : option string;
  update_model : option string;
  update_parent_session_id : option string;
  update_session_type : option SessionType;
  update_project_scope : option string;
  update_usage_input : option N;
  update_usage_output : option N;
  update_usage_cost_usd_micros : option N;
  update_attributes : btree Value
}.

(** [ImportSession], [ImportResult] *)
Record ImportSession := mkImportSession {
  import_source_id : string;
  import_source_digest : string;
  import_session : CreateSession;
  import_events : list AppendEvent
}.
Record ImportResult := mkImportResult {
  result_source_id : string;
  result_source_digest : string;
  result_session_id : string;
  result_event_count : N;
  result_imported : bool
}.

(** [ListFilter] *)
Record ListFilter := mkListFilter {
  filter_tenant_id : option string;
  filter_persona : option string;
  filter_status : option SessionStatus;
  filter_tag : option string;
  filter_parent_session_id : option string;
  filter_session_type : option SessionType;
  filter_project_scope : option string;
  filter_created_after_ms : option Z;
  filter_created_before_ms : option Z;
  filter_limit : option N;
  filter_cursor : option string;
  filter_sort_by : ListSortKey;
  filter_order : ListOrder
}.

(** [ReadRange], [EventPage] *)
Record ReadRange := mkReadRange {
  from_event_id : option EventId;
  to_event_id : option EventId;
  range_limit : option N
}.
Record EventPage := mkEventPage { page_events : list StoredEvent; next_cursor : option EventId }.

(** [ForkResult], [TruncateResult] *)
Record ForkResult := mkForkResult {
  child_session_id : string;
  forked_from_event_id : option EventId;
  copied_event_count : N
}.
Record TruncateResult := mkTruncateResult {
  kept_event_count : N;
  removed_event_count : N;
  new_tip_event_id : option EventId
}.

(** [Snapshot], keyed by its [SnapshotId] *)
Record Snapshot := mkSnapshot {
  snapshot_id : string;
  snapshot_session : SessionMeta;
  snapshot_events : list StoredEvent;
  captured_at_ms : Z;
  captured_at : string
}.

(** [VerifyReport] *)
Record VerifyReport := mkVerifyReport {
  report_session_id : string;
  report_chain_root_hash : string;
  report_event_count : N;
  report_signed_event_count : N;
  failures : list ChainFailure
}.

(** [SessionRecord] *)
Record SessionRecord := mkSessionRecord {
  meta : SessionMeta;
  events : list StoredEvent;
  next_event_id : EventId
}.

(** [Inner], without the tables of tasks *)
Record Inner := mkInner {
  sessions : btree SessionRecord;
  snapshots : btree Snapshot;
  imports : btree ImportResult
}.

Definition new_store : Inner := mkInner [] [] [].

Definition set_session (id : string) (r : SessionRecord) (inner : Inner) : Inner :=
  mkInner (BTree.insert id r (sessions inner)) (snapshots inner) (imports inner).

(** [SessionRecord::fresh] *)
Definition fresh (m : SessionMeta) : SessionRecord := mkSessionRecord m [] 1.

(** ** Metadata *)

(** [meta_for_create] *)
Definition meta_for_create (now : Instant) (uuid : string) (request : CreateSession) : SessionMeta :=
  mkSessionMeta (default uuid (create_id request)) (create_tenant_id request) (create_persona request)
    (create_parent_session_id request) (create_title request) (create_title_pinned request) (create_cwd request)
    (create_model request) (create_session_type request) (create_project_scope request)
    (create_usage_input request) (create_usage_output request) (create_usage_cost_usd_micros request)
    now.1 now.2 now.1 now.2 SessionStatus.Open 0 None None None None None
    (create_ttl_seconds request) (create_tags request) (create_attributes request).

(** The journal fields [append_locked] updates. *)
Definition meta_appended (count : N) (last : option EventId) (root : option string) (now : Instant)
    (m : SessionMeta) : SessionMeta :=
  mkSessionMeta (meta_id m) (meta_tenant_id m) (meta_persona m) (meta_parent_session_id m) (meta_title m)
    (meta_title_pinned m) (meta_cwd m) (meta_model m) (meta_session_type m) (meta_project_scope m)
    (meta_usage_input m) (meta_usage_output m) (meta_usage_cost_usd_micros m) (meta_created_at_ms m)
    (meta_created_at m) now.1 now.2 (meta_status m) count last root (meta_closed_at_ms m) (meta_closed_at m)
    (meta_soft_deleted_at_ms m) (meta_ttl_seconds m) (meta_tags m) (meta_attributes m).

(** [status], [closed_at_ms], [closed_at] *)
Definition meta_closed (now : Instant) (m : SessionMeta) : SessionMeta :=
  mkSessionMeta (meta_id m) (meta_tenant_id m) (meta_persona m) (meta_parent_session_id m) (meta_title m)
    (meta_title_pinned m) (meta_cwd m) (meta_model m) (meta_session_type m) (meta_project_scope m)
    (meta_usage_input m) (meta_usage_output m) (meta_usage_cost_usd_micros m) (meta_created_at_ms m)
    (meta_created_at m) (meta_updated_at_ms m) (meta_updated_at m) SessionStatus.Closed (meta_event_count m)
    (meta_last_event_id m) (meta_chain_root_hash m) (Some now.1) (Some now.2) (meta_soft_deleted_at_ms m)
    (meta_ttl_seconds m) (meta_tags m) (meta_attributes m).

(** The fields [soft_delete] sets. *)
Definition meta_soft_deleted (now : Instant) (m : SessionMeta) : SessionMeta :=
  mkSessionMeta (meta_id m) (meta_tenant_id m) (meta_persona m) (meta_parent_session_id m) (meta_title m)
    (meta_title_pinned m) (meta_cwd m) (meta_model m) (meta_session_type m) (meta_project_scope m)
    (meta_usage_input m) (meta_usage_output m) (meta_usage_cost_usd_micros m) (meta_created_at_ms m)
    (meta_created_at m) now.1 now.2 SessionStatus.SoftDeleted (meta_event_count m) (meta_last_event_id m)
    (meta_chain_root_hash m) (meta_closed_at_ms m) (meta_closed_at m) (Some now.1) (meta_ttl_seconds m)
    (meta_tags m) (meta_attributes m).

(** The metadata of a child, from its parent's. *)
Definition meta_forked (child : string) (now : Instant) (count : N) (last : option EventId) (root : option string)
    (m : SessionMeta) : SessionMeta :=
  mkSessionMeta child (meta_tenant_id m) (meta_persona m) (Some (meta_id m)) (meta_title m)
    (meta_title_pinned m) (meta_cwd m) (meta_model m) (meta_session_type m) (meta_project_scope m)
    (meta_usage_input m) (meta_usage_output m) (meta_usage_cost_usd_micros m) now.1 now.2 now.1 now.2
    SessionStatus.Open count last root None None None (meta_ttl_seconds m) (meta_tags m) (meta_attributes m).

(** [if let Some(value) = update { field = Some(value) }] *)
Definition or_else {A} (update field : option A) : option A :=
  match update with Some value => Some value | None => field end.

(** The fields [update] writes; attributes are merged. *)
Definition meta_updated (title : option string) (pinned : bool) (request : UpdateSession) (now : Instant)
    (m : SessionMeta) : SessionMeta :=
  mkSessionMeta (meta_id m) (meta_tenant_id m) (meta_persona m)
    (or_else (update_parent_session_id request) (meta_parent_session_id m)) title pinned
    (or_else (update_cwd request) (meta_cwd m)) (or_else (update_model request) (meta_model m))
    (or_else (update_session_type request) (meta_session_type m))
    (or_else (update_project_scope request) (meta_project_scope m))
    (default (meta_usage_input m) (update_usage_input request))
    (default (meta_usage_output m) (update_usage_output request))
    (default (meta_usage_cost_usd_micros m) (update_usage_cost_usd_micros request)) (meta_created_at_ms m)
    (meta_created_at m) now.1 now.2 (meta_status m) (meta_event_count m) (meta_last_event_id m)
    (meta_chain_root_hash m) (meta_closed_at_ms m) (meta_closed_at m) (meta_soft_deleted_at_ms m)
    (meta_ttl_seconds m) (meta_tags m) (BTree.extend (meta_attributes m) (update_attributes request)).

(** [validate_open] *)
Definition validate_open (m : SessionMeta) : StoreResult unit :=
  match meta_status m with
  | SessionStatus.Open => Returned tt
  | SessionStatus.Closed => Raised (StoreError.Conflict ("session '" ++ meta_id m ++ "' is closed")%string)
  | SessionStatus.SoftDeleted | SessionStatus.HardDeleted =>
      Raised (StoreError.NotFound ("session '" ++ meta_id m ++ "' has been deleted")%string)
  end.

(** [resolve_title_update] *)
Definition resolve_title_update (current_title : option string) (current_pinned : bool)
    (requested_title : option string) (requested_pin : option bool) : option string * bool :=
  let pinned := default current_pinned requested_pin in
  let title := match requested_title, requested_pin with
    | None, _ => current_title
    | Some requested, Some _ => Some requested
    | Some requested, None => if negb current_pinned then Some requested else current_title
    end in
  (title, pinned).

(** [ImportSession::validate] *)
Definition validate_import (request : ImportSession) : StoreResult unit :=
  let blank s := String.eqb (trim_text s) "" in
  _ ← raise_if (blank (import_source_id request) || blank (import_source_digest request))
        (StoreError.InvalidInput "import source_id and source_digest must be non-empty");
  raise_if (match create_id (import_session request) with None => true | Some id => blank id end)
    (StoreError.InvalidInput "import session id must be explicit and non-empty").

(** ** Appending *)

Definition not_found {A} (id : string) (o : option A) : StoreResult A := ok_or_raise o (StoreError.NotFound id).

(** [validate_parent] *)
Definition validate_parent (r : SessionRecord) (e : AppendEvent) : StoreResult unit :=
  match append_parent_event_id e with
  | None => Returned tt
  | Some parent =>
      raise_if (negb (existsb (λ stored, (event_id stored =? parent)%N) (events r)))
        (StoreError.InvalidInput ("parent_event_id " ++ pretty parent ++ " not present in session")%string)
  end.

(** The event [append_locked] stores, before it is signed *)
Definition stored_event (r : SessionRecord) (e : AppendEvent) (now : Instant) : StoredEvent :=
  let m := meta r in
  let stored := bind_canonical_origin (meta_id m)
    (mkStoredEvent (next_event_id r) (meta_id m) (meta_tenant_id m) (append_parent_event_id e) (append_actor e)
       (append_kind e) (append_payload e) (append_tags e) (append_headers e) now.1 now.2 ""
       (record_hash <$> last (events r)) None) in
  with_record_hash (compute_record_hash stored) stored.

(** [append_locked] *)
Definition append_locked (hooks : StoreHooks) (now : Instant) (r : SessionRecord) (e : AppendEvent)
    : StoreResult (SessionRecord * StoredEvent) :=
  e ← prepare_append_event hooks e;
  _ ← validate_open (meta r);
  _ ← validate_parent r e;
  let stored := stored_event r e now in
  let stored := match event_signer hooks with
    | Some signer => with_signature (Some (sign_event signer stored)) stored
    | None => stored
    end in
  let prev_root := default chain_root_init (meta_chain_root_hash (meta r)) in
  let events := events r ++ [stored] in
  let m := meta_appended (len events) (Some (event_id stored))
    (Some (chain_root_fold prev_root (record_hash stored))) now (meta r) in
  Returned (mkSessionRecord m events (N.min (next_event_id r + 1) U64_MAX), stored).

(** The loop of [import] over its events. *)
Fixpoint append_all (hooks : StoreHooks) (now : nat → Instant) (r : SessionRecord) (es : list AppendEvent)
    : StoreResult SessionRecord :=
  match es with
  | [] => Returned r
  | e :: es =>
      appended ← append_locked hooks (now O) r e;
      append_all hooks (λ i, now (S i)) appended.1 es
  end.

(** ** Boundaries *)

(** [CanonicalSessionBoundary::empty], [acknowledged] *)
Definition empty_boundary (id : string) : CanonicalSessionBoundary :=
  mkBoundary CANONICAL_SESSION_BOUNDARY_SCHEMA id None None.
Definition acknowledged (e : StoredEvent) : CanonicalSessionBoundary :=
  mkBoundary CANONICAL_SESSION_BOUNDARY_SCHEMA (session_id e) (Some (event_id e)) (Some (source_record_hash e)).

(** [CanonicalSessionBoundary::validate] *)
Definition validate_boundary (b : CanonicalSessionBoundary) (id : string) (es : list StoredEvent) : StoreResult unit :=
  raise_if (negb (String.eqb (boundary_schema b) CANONICAL_SESSION_BOUNDARY_SCHEMA &&
    String.eqb (boundary_session_id b) id &&
    match boundary_event_id b, boundary_record_hash b with
    | None, None => true
    | Some event, Some hash => existsb (λ e, (event_id e =? event)%N && String.eqb (session_id e) id &&
        String.eqb (source_record_hash e) hash) es
    | _, _ => false
    end))
    (StoreError.Conflict "canonical_boundary.invalid: boundary is stale, foreign, or not acknowledged by this canonical session").

(** [CanonicalHistoryPosition], [CanonicalHistoryBoundaries], [from_events] *)
Record CanonicalHistoryPosition := mkPosition {
  source_event_id : string;
  origin_session_id : string;
  before_boundary : CanonicalSessionBoundary;
  position_boundary : CanonicalSessionBoundary
}.
Record CanonicalHistoryBoundaries := mkBoundaries {
  tip : CanonicalSessionBoundary;
  positions : list CanonicalHistoryPosition
}.

Fixpoint positions_from (before : CanonicalSessionBoundary) (es : list StoredEvent) : list CanonicalHistoryPosition :=
  match es with
  | [] => []
  | e :: es =>
      match BTree.get "source_event_id" (headers e) with
      | Some identity => [mkPosition identity (canonical_origin_session_id e) before (acknowledged e)]
      | None => []
      end ++ positions_from (acknowledged e) es
  end.

Definition boundaries_from_events (id : string) (es : list StoredEvent) : CanonicalHistoryBoundaries :=
  mkBoundaries (from_option acknowledged (empty_boundary id) (last es)) (positions_from (empty_boundary id) es).

(** ** Listing *)

(** [match_filter] *)
Definition filter_option {A} (o : option A) (accepts : A → bool) : bool := from_option accepts true o.

Definition match_filter (m : SessionMeta) (f : ListFilter) : bool :=
  filter_option (filter_tenant_id f) (λ tenant, bool_decide (meta_tenant_id m = Some tenant)) &&
  filter_option (filter_persona f) (λ persona, bool_decide (meta_persona m = Some persona)) &&
  filter_option (filter_status f) (λ status, bool_decide (meta_status m = status)) &&
  filter_option (filter_tag f) (λ tag, existsb (String.eqb tag) (meta_tags m)) &&
  filter_option (filter_parent_session_id f) (λ id, bool_decide (meta_parent_session_id m = Some id)) &&
  filter_option (filter_session_type f) (λ t, bool_decide (meta_session_type m = Some t)) &&
  filter_option (filter_project_scope f) (λ scope, bool_decide (meta_project_scope m = Some scope)) &&
  filter_option (filter_created_after_ms f) (λ after, negb (meta_created_at_ms m <? after)%Z) &&
  filter_option (filter_created_before_ms f) (λ before, negb (before <? meta_created_at_ms m)%Z).

(** The comparison [list] sorts by. *)
Definition list_compare_meta (f : ListFilter) (left right : SessionMeta) : comparison :=
  let timestamp_order := match filter_sort_by f with
    | ListSortKey.CreatedAt => Z.compare (meta_created_at_ms left) (meta_created_at_ms right)
    | ListSortKey.UpdatedAt => Z.compare (meta_updated_at_ms left) (meta_updated_at_ms right)
    end in
  then_with (match filter_order f with
             | ListOrder.Ascending => timestamp_order
             | ListOrder.Descending => CompOpp timestamp_order
             end) (String.compare (meta_id left) (meta_id right)).

(** [slice::sort_by], stable *)
Section sort.
Context {A : Type} (cmp : A → A → comparison).
Fixpoint insert_by (x : A) (l : list A) : list A :=
  match l with
  | [] => [x]
  | y :: l' => match cmp x y with Gt => y :: insert_by x l' | _ => x :: l end
  end.
Definition sort_by (l : list A) : list A := foldr insert_by [] l.
End sort.

(** [out.into_iter().skip(start + 1)] past the cursor, where it is listed *)
Fixpoint after_cursor (cursor : string) (l : list SessionMeta) : option (list SessionMeta) :=
  match l with
  | [] => None
  | m :: l => if String.eqb (meta_id m) cursor then Some l else after_cursor cursor l
  end.

(** The events a fork copies: the prefix its boundary names. *)
Definition prefix_at (at_event_id : option EventId) (es : list StoredEvent) : list StoredEvent :=
  filter (λ e, from_option (λ b, (event_id e <=? b)%N) false at_event_id = true) es.

Definition take_n {A} (n : N) (l : list A) : list A := take (N.to_nat n) l.
End store.

(** ** The operations of [MemorySessionStore] *)

Module Memory.
Section operations.
Context `{SerdeJson, SigningCrates}.
Variable hooks : StoreHooks.

Definition describe (id : string) (inner : Inner) : StoreResult SessionMeta :=
  r ← not_found id (BTree.get id (sessions inner));
  Returned (meta r).

Definition create (now : Instant) (uuid : string) (request : CreateSession) (inner : Inner)
    : StoreResult (Inner * SessionMeta) :=
  let m := meta_for_create now uuid request in
  _ ← raise_if (BTree.contains_key (meta_id m) (sessions inner)) (StoreError.AlreadyExists (meta_id m));
  Returned (set_session (meta_id m) (fresh m) inner, m).

Definition update (now : Instant) (id : string) (request : UpdateSession) (inner : Inner)
    : StoreResult (Inner * SessionMeta) :=
  r ← not_found id (BTree.get id (sessions inner));
  let '(title, pinned) := resolve_title_update (meta_title (meta r)) (meta_title_pinned (meta r))
    (update_title request) (update_title_pinned request) in
  let m := meta_updated title pinned request now (meta r) in
  Returned (set_session id (mkSessionRecord m (events r) (next_event_id r)) inner, m).

Definition list_sessions (f : ListFilter) (inner : Inner) : list SessionMeta :=
  let limit := N.min (default MAX_READ_BATCH (filter_limit f)) MAX_READ_BATCH in
  let out := sort_by (list_compare_meta f)
    (filter (λ m, match_filter m f = true) (map (λ s, meta s.2) (sessions inner))) in
  let out := match filter_cursor f with
    | Some cursor => default out (after_cursor cursor out)
    | None => out
    end in
  take_n limit out.

Definition append (now : Instant) (id : string) (e : AppendEvent) (inner : Inner) : StoreResult (Inner * StoredEvent) :=
  r ← not_found id (BTree.get id (sessions inner));
  appended ← append_locked hooks now r e;
  Returned (set_session id appended.1 inner, appended.2).

Definition read (id : string) (range : ReadRange) (inner : Inner) : StoreResult EventPage :=
  r ← not_found id (BTree.get id (sessions inner));
  let from := default 1%N (from_event_id range) in
  let to := default U64_MAX (to_event_id range) in
  let limit := N.min (default MAX_READ_BATCH (range_limit range)) MAX_READ_BATCH in
  let page := take_n limit (filter (λ e, from <= event_id e ∧ event_id e <= to)%N (events r)) in
  let cursor := if (len page =? limit)%N then (λ tail, add_u64 (event_id tail) 1) <$> last page else None in
  page ← redact_stored_events hooks page;
  Returned (mkEventPage page cursor).

(** [SessionStore::read_all], [read_all_events]: pages until the cursor is [None];
    [read_all_drains] shows a budget beyond the number of events is enough. *)
Fixpoint read_pages (fuel : nat) (cursor : option EventId) (id : string) (inner : Inner)
    : StoreResult (list StoredEvent) :=
  match fuel with
  | O => Raised (StoreError.Backend "")
  | S fuel =>
      page ← read id (mkReadRange cursor None (Some MAX_READ_BATCH)) inner;
      match next_cursor page with
      | None => Returned (page_events page)
      | Some cursor =>
          rest ← read_pages fuel (Some cursor) id inner;
          Returned (page_events page ++ rest)
      end
  end.
Definition read_budget (id : string) (inner : Inner) : nat :=
  S (from_option (λ r, length (events r)) 0 (BTree.get id (sessions inner))).
Definition read_all (id : string) (inner : Inner) : StoreResult (list StoredEvent) :=
  read_pages (read_budget id inner) None id inner.

(** [SessionStore::history_boundaries] *)
Definition history_boundaries (id : string) (inner : Inner) : StoreResult CanonicalHistoryBoundaries :=
  _ ← describe id inner;
  es ← read_all id inner;
  Returned (boundaries_from_events id es).

Definition fork (now : Instant) (uuid : string) (id : string) (boundary : CanonicalSessionBoundary)
    (child : option string) (inner : Inner) : StoreResult (Inner * ForkResult) :=
  parent ← not_found id (BTree.get id (sessions inner));
  _ ← validate_boundary boundary id (events parent);
  let at_event_id := boundary_event_id boundary in
  let new_id := default uuid child in
  _ ← raise_if (BTree.contains_key new_id (sessions inner)) (StoreError.AlreadyExists new_id);
  parent_events ← prepare_stored_events_for_persistence hooks (prefix_at at_event_id (events parent));
  let copied := re_anchor_events parent_events new_id in
  let child_meta := meta_forked new_id now (len copied) (event_id <$> last copied)
    (Some (chain_root_hash copied)) (meta parent) in
  let next := from_option (λ tail, add_u64 (event_id tail) 1) 1%N (last copied) in
  Returned (set_session new_id (mkSessionRecord child_meta copied next) inner,
    mkForkResult new_id at_event_id (len copied)).

Definition truncate (now : Instant) (id : string) (at_event_id : EventId) (inner : Inner)
    : StoreResult (Inner * TruncateResult) :=
  r ← not_found id (BTree.get id (sessions inner));
  _ ← raise_if (negb (existsb (λ e, (event_id e =? at_event_id)%N) (events r)))
        (StoreError.InvalidInput ("event " ++ pretty at_event_id ++ " not found in session '" ++ id ++ "'")%string);
  let removed := len (filter (λ e, at_event_id < event_id e)%N (events r)) in
  let kept := filter (λ e, event_id e <= at_event_id)%N (events r) in
  let m := meta_appended (len kept) (event_id <$> last kept) (Some (chain_root_hash kept)) now (meta r) in
  Returned (set_session id (mkSessionRecord m kept (add_u64 at_event_id 1)) inner,
    mkTruncateResult (len kept) removed (event_id <$> last kept)).

Definition snapshot (now : Instant) (uuid : string) (id : string) (inner : Inner) : StoreResult (Inner * Snapshot) :=
  r ← not_found id (BTree.get id (sessions inner));
  es ← redact_stored_events hooks (events r);
  let s := mkSnapshot ("snap-" ++ uuid)%string (meta r) es now.1 now.2 in
  Returned (mkInner (sessions inner) (BTree.insert (snapshot_id s) s (snapshots inner)) (imports inner), s).

Definition replay (id : string) (inner : Inner) : StoreResult Snapshot :=
  s ← not_found id (BTree.get id (snapshots inner));
  es ← redact_stored_events hooks (snapshot_events s);
  Returned (mkSnapshot (snapshot_id s) (snapshot_session s) es (captured_at_ms s) (captured_at s)).

(** [receipt_signer.or(event_signer)] *)
Definition receipt_signer_or_event : option SessionSigner :=
  match receipt_signer hooks with Some signer => Some signer | None => event_signer hooks end.

(** [events.iter_mut().find(..)]: the first event of that id gets the signature. *)
Fixpoint sign_event_of (id : EventId) (s : EventSignature) (es : list StoredEvent) : list StoredEvent :=
  match es with
  | [] => []
  | e :: es => if (event_id e =? id)%N then with_signature (Some s) e :: es else e :: sign_event_of id s es
  end.

Definition close (now : nat → Instant) (id : string) (inner : Inner) : StoreResult (Inner * StoredEvent) :=
  r ← not_found id (BTree.get id (sessions inner));
  _ ← validate_open (meta r);
  let record_root := default (chain_root_hash (events r)) (meta_chain_root_hash (meta r)) in
  let last_event_id := default 0%N (meta_last_event_id (meta r)) in
  let payload := canonical_receipt_payload id last_event_id record_root in
  let receipt := mkAppendEvent SessionEventKind.Receipt payload None (Some "session_store"%string) [] [] in
  appended ← append_locked hooks (now 0) r receipt;
  let '(r, stored) := appended in
  let '(es, stored) := match receipt_signer_or_event with
    | Some signer =>
        let signature := sign_receipt signer record_root in
        (sign_event_of (event_id stored) signature (events r), with_signature (Some signature) stored)
    | None => (events r, stored)
    end in
  Returned (set_session id (mkSessionRecord (meta_closed (now 1) (meta r)) es (next_event_id r)) inner, stored).

Definition soft_delete (now : Instant) (id : string) (inner : Inner) : StoreResult (Inner * SessionMeta) :=
  r ← not_found id (BTree.get id (sessions inner));
  match meta_status (meta r) with
  | SessionStatus.HardDeleted => Raised (StoreError.NotFound id)
  | SessionStatus.SoftDeleted => Returned (inner, meta r)
  | _ =>
      let m := meta_soft_deleted now (meta r) in
      Returned (set_session id (mkSessionRecord m (events r) (next_event_id r)) inner, m)
  end.

Definition hard_delete (id : string) (inner : Inner) : StoreResult (Inner * unit) :=
  _ ← not_found id (BTree.get id (sessions inner));
  Returned (mkInner (BTree.remove id (sessions inner)) (snapshots inner) (imports inner), tt).

(** [SessionImporter::import]; the clock is read once for the session and once
    for every event. *)
Definition import (now : nat → Instant) (uuid : string) (request : ImportSession) (inner : Inner)
    : StoreResult (Inner * ImportResult) :=
  _ ← validate_import request;
  match BTree.get (import_source_id request) (imports inner) with
  | Some existing =>
      _ ← raise_if (negb (String.eqb (result_source_digest existing) (import_source_digest request)))
            (StoreError.Conflict ("import source '" ++ import_source_id request ++ "' changed digest")%string);
      Returned (inner, mkImportResult (result_source_id existing) (result_source_digest existing)
        (result_session_id existing) (result_event_count existing) false)
  | None =>
      let m := meta_for_create (now 0) uuid (import_session request) in
      _ ← raise_if (BTree.contains_key (meta_id m) (sessions inner)) (StoreError.AlreadyExists (meta_id m));
      r ← append_all hooks (λ i, now (S i)) (fresh m) (import_events request);
      let result := mkImportResult (import_source_id request) (import_source_digest request) (meta_id m)
        (len (events r)) true in
      Returned (mkInner (BTree.insert (meta_id m) r (sessions inner)) (snapshots inner)
        (BTree.insert (import_source_id request) result (imports inner)), result)
  end.

(** [verify_session_chain] *)
Definition verify_session_chain (m : SessionMeta) (es : list StoredEvent)
    (event_verifier receipt_verifier : option (list byte)) : VerifyReport :=
  let chain_root := chain_root_hash es in
  let '(signed, chain_failures) := verify_event_chain event_verifier receipt_verifier es in
  let tail_id := from_option event_id 0%N (last es) in
  let expected_root := match es with [] => None | _ => Some chain_root end in
  mkVerifyReport (meta_id m) chain_root (len es) signed
    (chain_failures ++
     (if (meta_event_count m =? len es)%N then []
      else [mkChainFailure tail_id (Reason.EventCountMismatch (meta_event_count m) (len es))]) ++
     (if decide (meta_last_event_id m = event_id <$> last es) then []
      else [mkChainFailure tail_id Reason.LastEventMismatch]) ++
     (if decide (meta_chain_root_hash m = expected_root) then []
      else [mkChainFailure tail_id Reason.ChainRootMismatch])).

Definition verify (id : string) (inner : Inner) : StoreResult VerifyReport :=
  r ← not_found id (BTree.get id (sessions inner));
  Returned (verify_session_chain (meta r) (events r)
    (signer_verifying_key <$> event_signer hooks) (signer_verifying_key <$> receipt_signer_or_event)).
End operations.
End Memory.
