(* ===== verification/SessionSound.v ===== *)
(** * What the session store keeps

    The store as a transition system: any interleaving of operations, in the
    order the lock serialises them. Every session reachable this way is a chain
    that verifies; reading pages through all of it; an import happens once; a
    fork copies exactly the prefix its boundary acknowledges. *)

From Stdlib Require Import Strings.String.
From S2P Require Import Prelude BTree Fallible Split Ordered Atom Text SessionEvent SessionSigning SessionHooks SessionStore.

(** ** The transition system *)

Section machine.
Context `{SerdeJson, SigningCrates}.

(** An operation that may change the store, with what it takes from outside. *)
Inductive Operation :=
  | OpCreate (request : CreateSession)
  | OpUpdate (id : string) (request : UpdateSession)
  | OpAppend (id : string) (e : AppendEvent)
  | OpFork (id : string) (boundary : CanonicalSessionBoundary) (child : option string)
  | OpTruncate (id : string) (at_event_id : EventId)
  | OpSnapshot (id : string)
  | OpClose (id : string)
  | OpSoftDelete (id : string)
  | OpHardDelete (id : string)
  | OpImport (request : ImportSession).

Definition state_after {A} (inner : Inner) (r : StoreResult (Inner * A)) : Inner :=
  match r with Returned (inner, _) => inner | Raised _ => inner end.

Definition perform (hooks : StoreHooks) (now : nat → Instant) (uuid : string) (op : Operation) (inner : Inner) : Inner :=
  match op with
  | OpCreate request => state_after inner (Memory.create (now 0) uuid request inner)
  | OpUpdate id request => state_after inner (Memory.update (now 0) id request inner)
  | OpAppend id e => state_after inner (Memory.append hooks (now 0) id e inner)
  | OpFork id boundary child => state_after inner (Memory.fork hooks (now 0) uuid id boundary child inner)
  | OpTruncate id at_event_id => state_after inner (Memory.truncate (now 0) id at_event_id inner)
  | OpSnapshot id => state_after inner (Memory.snapshot hooks (now 0) uuid id inner)
  | OpClose id => state_after inner (Memory.close hooks now id inner)
  | OpSoftDelete id => state_after inner (Memory.soft_delete (now 0) id inner)
  | OpHardDelete id => state_after inner (Memory.hard_delete id inner)
  | OpImport request => state_after inner (Memory.import hooks now uuid request inner)
  end.

(** Every session is short enough for its counters. *)
Definition in_memory (inner : Inner) : Prop :=
  Forall (λ s, (len (events s.2) < U64_MAX)%N) (sessions inner).

(** Callers leave receipts to [close], or nobody signs events: an event of kind
    [Receipt] is verified as a signature of the root, not of the event. *)
Definition appends (op : Operation) : list AppendEvent :=
  match op with OpAppend _ e => [e] | OpImport request => import_events request | _ => [] end.
Definition admissible (hooks : StoreHooks) (op : Operation) : Prop :=
  event_signer hooks = None ∨ Forall (λ e, append_kind e ≠ SessionEventKind.Receipt) (appends op).

Inductive reachable (hooks : StoreHooks) : Inner → Prop :=
  | reachable_new : reachable hooks new_store
  | reachable_step inner now uuid op :
      reachable hooks inner → admissible hooks op → in_memory (perform hooks now uuid op inner) →
      reachable hooks (perform hooks now uuid op inner).

(** ** The invariant of a session *)

Section invariant.
Variable hooks : StoreHooks.

Definition event_key : option (list byte) := signer_verifying_key <$> event_signer hooks.
Definition receipt_key : option (list byte) := signer_verifying_key <$> Memory.receipt_signer_or_event hooks.

(** The stored events: a verified chain of this session, its headers normal
    where no policy rewrites them. *)
Record events_ok (id : string) (es : list StoredEvent) : Prop := {
  ok_chain : chain_from event_key receipt_key [] None es;
  ok_owner : Forall (λ e, session_id e = id) es;
  ok_normal : redaction hooks = None → Forall (λ e, normal_headers (headers e)) es
}.

Record record_ok (id : string) (r : SessionRecord) : Prop := {
  ok_events : events_ok id (events r);
  ok_id : meta_id (meta r) = id;
  ok_next : next_event_id r = (len (events r) + 1)%N;
  ok_count : meta_event_count (meta r) = len (events r);
  ok_last : meta_last_event_id (meta r) = event_id <$> last (events r);
  ok_root : meta_chain_root_hash (meta r) = Some (chain_root_hash (events r)) ∨
    events r = [] ∧ meta_chain_root_hash (meta r) = None
}.

Definition store_ok (inner : Inner) : Prop := Forall (λ s, record_ok s.1 s.2) (sessions inner).
End invariant.
End machine.

(** ** Chains and their prefixes *)

Section prefixes.
Context `{SerdeJson, SigningCrates}.

(** The events of a chain are numbered by their place. *)
Lemma chain_from_ids ev rv before expected es :
  chain_from ev rv before expected es →
  ∀ at_event_id, filter (λ e, event_id e <= at_event_id)%N es = take (N.to_nat at_event_id - length before) es ∧
    filter (λ e, at_event_id < event_id e)%N es = drop (N.to_nat at_event_id - length before) es.
Proof.
  revert before expected. induction es as [|e es IH]; intros before expected Hes at_event_id.
  { by rewrite take_nil, drop_nil. }
  destruct Hes as [(Hid & _) Hes]. specialize (IH _ _ Hes at_event_id) as [IHt IHd].
  rewrite length_app in IHt, IHd. cbn in IHt, IHd. unfold len in Hid. rewrite !filter_cons, IHt, IHd.
  destruct (decide (event_id e <= at_event_id)%N) as [Hle|Hgt].
  - rewrite decide_False by lia.
    replace (N.to_nat at_event_id - length before) with (S (N.to_nat at_event_id - (length before + 1))) by lia. done.
  - rewrite decide_True by lia.
    replace (N.to_nat at_event_id - length before) with 0 by lia.
    by replace (N.to_nat at_event_id - (length before + 1)) with 0 by lia.
Qed.

Lemma chain_from_take ev rv expected n es :
  chain_from ev rv [] expected es → chain_from ev rv [] expected (take n es).
Proof. rewrite <- (take_drop n es) at 1. by intros [? _]%chain_from_app. Qed.

Lemma chain_from_nth ev rv expected es n e :
  chain_from ev rv [] expected es → es !! n = Some e → event_id e = N.of_nat (S n).
Proof.
  intros Hes Hn. rewrite <- (take_drop_middle es n e Hn) in Hes. apply chain_from_app in Hes as [_ [(Hid & _) _]].
  rewrite Hid. unfold len. cbn. rewrite length_take. apply lookup_lt_Some in Hn. lia.
Qed.

(** A copy under another session is a chain of its own. *)
Lemma re_anchor_chain ev rv before prev id es :
  (∀ n e, es !! n = Some e → event_id e = N.of_nat (S (length before + n))) →
  chain_from ev rv before prev (re_anchor_from prev id es).
Proof.
  revert before prev. induction es as [|e es IH]; intros before prev Hids; cbn; [done|]. split.
  - split_and!; [|done..]. cbn. rewrite (Hids 0 e) by done. unfold len. lia.
  - apply IH. intros n f Hf. rewrite (Hids (S n) f) by done. rewrite length_app. cbn. f_equal. lia.
Qed.

Lemma re_anchor_from_length prev id es : length (re_anchor_from prev id es) = length es.
Proof. revert prev. induction es as [|e es IH]; intros prev; cbn; by f_equal. Qed.
End prefixes.

(** ** Every operation keeps the invariant *)

Section preservation.
Context `{SerdeJson, SigningCrates, !FlowLaws, !SigningLaws}.
Variable hooks : StoreHooks.

(** Signing and verifying agree. *)
Lemma sign_bytes_verifies key key_id bytes :
  verify_signature (sign_bytes key key_id bytes) (verifying_key key) bytes = Returned tt.
Proof.
  unfold verify_signature, sign_bytes. cbn [algorithm signature_text]. rewrite String.eqb_refl. cbn [negb raise_if mbind fallible_bind].
  rewrite base64_round_trip. cbn [ok_or_raise mbind fallible_bind]. rewrite signature_is_valid.
  cbn [negb raise_if mbind fallible_bind].
  by rewrite signatures_verify.
Qed.

Lemma meta_root_is id r : record_ok hooks id r → default chain_root_init (meta_chain_root_hash (meta r)) = chain_root_hash (events r).
Proof. intros Hr. destruct (ok_root _ _ _ Hr) as [-> |[-> ->]]; done. Qed.

(** The headers [prepare_append_event] leaves. *)
Lemma prepare_append_event_spec e e' :
  prepare_append_event hooks e = Returned e' →
  append_kind e' = append_kind e ∧ append_parent_event_id e' = append_parent_event_id e ∧
  (redaction hooks = None → normal_headers (append_headers e')).
Proof.
  unfold prepare_append_event. intros Hp. apply fallible_bind_returned in Hp as ([[h identity] c] & Hn & Hp).
  apply fallible_bind_returned in Hp as ([p h'] & Ha & [= <-]). split_and!; [done..|]. intros Hnone.
  unfold map_err in Hn, Ha. unfold apply_event_redaction in Ha. rewrite Hnone in Ha. injection Ha as <- <-. cbn.
  destruct (normalize_with_change (append_headers e)) as [x|] eqn:E; [|done]. injection Hn as ->.
  by apply normalize_with_change_normal in E as [? _].
Qed.

Lemma normal_bound id h : normal_headers h → normal_headers (BTree.insert CANONICAL_ORIGIN_SESSION_HEADER id h).
Proof.
  intros Hh f v. rewrite btree_get_insert_ne; [apply Hh|]. intros Hf. by apply (origin_not_reserved f).
Qed.

(** The signature the loop of [append_locked] and [close] put on the last event *)
Definition signed_append (r : SessionRecord) (e : AppendEvent) (now : Instant) (s : option EventSignature) : StoredEvent :=
  with_signature s (stored_event r e now).

Lemma append_locked_inv now r e r' stored :
  append_locked hooks now r e = Returned (r', stored) →
  ∃ e', prepare_append_event hooks e = Returned e' ∧ meta_status (meta r) = SessionStatus.Open ∧
    stored = signed_append r e' now ((λ signer, sign_event signer (stored_event r e' now)) <$> event_signer hooks) ∧
    r' = mkSessionRecord
      (meta_appended (len (events r ++ [stored])) (Some (event_id stored))
         (Some (chain_root_fold (default chain_root_init (meta_chain_root_hash (meta r))) (record_hash stored))) now (meta r))
      (events r ++ [stored]) (N.min (next_event_id r + 1) U64_MAX).
Proof.
  unfold append_locked. intros Ha. apply fallible_bind_returned in Ha as (e' & He & Ha).
  apply fallible_bind_returned in Ha as (u & Hopen & Ha). apply fallible_bind_returned in Ha as (u' & _ & Ha).
  exists e'. split; [done|]. split; [unfold validate_open in Hopen; by destruct (meta_status (meta r))|].
  unfold signed_append. destruct (event_signer hooks) as [signer|]; injection Ha as <- <-; by split.
Qed.

(** An appended event holds its place, whatever valid signature it carries. *)
Lemma appended_ok id r e e' now s :
  record_ok hooks id r → prepare_append_event hooks e = Returned e' →
  signature_holds (event_key hooks) (receipt_key hooks) (events r) (signed_append r e' now s) →
  events_ok hooks id (events r ++ [signed_append r e' now s]).
Proof.
  intros Hr (Hkind & _ & Hnormal)%prepare_append_event_spec Hs. pose proof (ok_events _ _ _ Hr) as [Hchain Howner Hn].
  split.
  - apply chain_from_snoc. split; [done|]. split_and!; [apply (ok_next _ _ _ Hr)| |done..].
    unfold link_after. cbn. by destruct (last (events r)).
  - apply Forall_app. split; [done|]. constructor; [|done]. apply (ok_id _ _ _ Hr).
  - intros Hnone. apply Forall_app. split; [by apply Hn|]. constructor; [|done]. by apply normal_bound, Hnormal.
Qed.

Lemma appended_record id r now e' s m :
  record_ok hooks id r → (len (events r ++ [signed_append r e' now s]) < U64_MAX)%N →
  events_ok hooks id (events r ++ [signed_append r e' now s]) →
  meta_id m = id → meta_event_count m = len (events r ++ [signed_append r e' now s]) →
  meta_last_event_id m = Some (next_event_id r) →
  meta_chain_root_hash m =
    Some (chain_root_fold (default chain_root_init (meta_chain_root_hash (meta r))) (record_hash (stored_event r e' now))) →
  record_ok hooks id (mkSessionRecord m (events r ++ [signed_append r e' now s]) (N.min (next_event_id r + 1) U64_MAX)).
Proof.
  intros Hr Hfits Hes Hid Hcount Hlast Hroot. rewrite len_app in *. change (len [_]) with 1%N in *.
  split; cbn [meta events next_event_id]; try done.
  - rewrite (ok_next _ _ _ Hr), len_app. change (len [_]) with 1%N. lia.
  - by rewrite len_app.
  - by rewrite last_snoc.
  - left. rewrite Hroot, (meta_root_is id r Hr), chain_root_snoc.
    by rewrite (hashed_source (signed_append r e' now s)).
Qed.

Lemma append_locked_ok id now r e r' stored :
  record_ok hooks id r → event_signer hooks = None ∨ append_kind e ≠ SessionEventKind.Receipt →
  (len (events r') < U64_MAX)%N →
  append_locked hooks now r e = Returned (r', stored) → record_ok hooks id r'.
Proof.
  intros Hr Hkind Hfits Ha. apply append_locked_inv in Ha as (e' & He & _ & -> & ->). cbn [events] in Hfits.
  apply appended_record; try done; try apply (ok_id _ _ _ Hr).
  eapply appended_ok; [done|exact He|]. unfold signature_holds, signed_append. cbn [signed_by with_signature kind].
  destruct (event_signer hooks) as [signer|] eqn:Es; [|done]. destruct Hkind as [|Hkind]; [done|]. cbn [fmap option_fmap option_map].
  rewrite bool_decide_false by (apply prepare_append_event_spec in He as [Hk _]; by cbn; rewrite Hk).
  unfold event_key. rewrite Es. exact (sign_bytes_verifies (signing_key signer) (signer_key_id signer) _).
Qed.

Lemma fresh_ok id m :
  meta_id m = id → meta_event_count m = 0%N → meta_last_event_id m = None → meta_chain_root_hash m = None →
  record_ok hooks id (fresh m).
Proof. intros Hid Hcount Hlast Hroot. split; cbn; auto. by split. Qed.

(** An operation that leaves the journal alone. *)
Lemma same_journal_ok id r m :
  record_ok hooks id r → meta_id m = meta_id (meta r) → meta_event_count m = meta_event_count (meta r) →
  meta_last_event_id m = meta_last_event_id (meta r) → meta_chain_root_hash m = meta_chain_root_hash (meta r) →
  record_ok hooks id (mkSessionRecord m (events r) (next_event_id r)).
Proof.
  intros Hr Hid Hcount Hlast Hroot. destruct Hr. split; cbn; congruence || by rewrite ?Hid, ?Hcount, ?Hlast, ?Hroot.
Qed.

Lemma add_u64_small a b : (a + b < 18446744073709551616)%N → add_u64 a b = (a + b)%N.
Proof. apply N.mod_small. Qed.

(** [truncate] keeps a prefix of the chain. *)
Lemma truncate_ok id r now at_event_id :
  record_ok hooks id r → (len (events r) < U64_MAX)%N → existsb (λ e, event_id e =? at_event_id)%N (events r) = true →
  let kept := filter (λ e, event_id e <= at_event_id)%N (events r) in
  record_ok hooks id (mkSessionRecord
    (meta_appended (len kept) (event_id <$> last kept) (Some (chain_root_hash kept)) now (meta r)) kept
    (add_u64 at_event_id 1)).
Proof.
  intros Hr Hfits (e & He & Hid)%existsb_exists. apply N.eqb_eq in Hid. cbn zeta. destruct (ok_events _ _ _ Hr) as [Hc Ho Hn].
  apply list_elem_of_In, list_elem_of_lookup in He as [n Hlook].
  pose proof (chain_from_nth _ _ _ _ _ _ Hc Hlook) as Heid. apply lookup_lt_Some in Hlook as Hlt. unfold len in Hfits.
  destruct (chain_from_ids _ _ _ _ _ Hc at_event_id) as [-> _]. cbn [length]. rewrite Nat.sub_0_r.
  split; cbn; try done; [|apply (ok_id _ _ _ Hr)| |by left].
  - split; [by eapply chain_from_take|by apply Forall_take|intros Hnone; by apply Forall_take, Hn].
  - rewrite add_u64_small by (unfold U64_MAX in Hfits; lia). unfold len. rewrite length_take. lia.
Qed.

(** [prepare_stored_events_for_persistence] keeps the places. *)
Lemma prepare_stored_spec es es' :
  prepare_stored_events_for_persistence hooks es = Returned es' →
  Forall2 (λ e e', ∃ p h, e' = with_content p h e ∧ (redaction hooks = None → p = payload e ∧ normal_headers h)) es es'.
Proof.
  intros Hes%for_each_Forall2. eapply Forall2_impl; [exact Hes|]. intros e e' He. unfold redact_content in He.
  apply fallible_bind_returned in He as ([[h identity] c] & Hn & He).
  apply fallible_bind_returned in He as ([p h'] & Ha & [= <-]). exists p, h'. split; [done|]. intros Hnone.
  unfold map_err, apply_event_redaction in Ha. rewrite Hnone in Ha. injection Ha as <- <-. split; [done|].
  clear -Hn. revert Hn. generalize false as changed. generalize (headers e) as h0. generalize RELOCATIONS as fuel.
  intros fuel. induction fuel as [|fuel IH]; intros h0 changed; [done|]. cbn [normalize_stored_identity].
  destruct (normalize_with_change h0) as [[[h1 i1] c1]|[f r|f a b]] eqn:En; [| |done].
  - intros [= <- <- <-]. eapply proj1, normalize_with_change_normal, En.
  - apply IH.
Qed.

Lemma re_anchor_owner prev id es : Forall (λ e, session_id e = id) (re_anchor_from prev id es).
Proof. revert prev. induction es as [|e es IH]; intros prev; cbn; constructor; auto. Qed.

Lemma re_anchor_normal prev id es :
  Forall (λ e, normal_headers (headers e)) es → Forall (λ e, normal_headers (headers e)) (re_anchor_from prev id es).
Proof.
  intros Hes. revert prev. induction Hes as [|e es He Hes IH]; intros prev; cbn; constructor; [|apply IH].
  by apply normal_bound.
Qed.

Lemma prefix_at_take id es at_event_id :
  events_ok hooks id es → prefix_at at_event_id es = take (from_option N.to_nat 0 at_event_id) es.
Proof.
  intros [Hc _ _]. unfold prefix_at. destruct at_event_id as [b|]; cbn [from_option].
  - destruct (chain_from_ids _ _ _ _ _ Hc b) as [Ht _]. cbn [length] in Ht. rewrite Nat.sub_0_r in Ht. rewrite <- Ht.
    apply list_filter_iff. intros e. apply N.leb_le.
  - clear. induction es as [|e es IH]; [done|]. by rewrite filter_cons, decide_False.
Qed.

Lemma copied_ok id es es' child :
  events_ok hooks id es → prepare_stored_events_for_persistence hooks es = Returned es' →
  events_ok hooks child (re_anchor_events es' child).
Proof.
  intros [Hc _ _] Hes%prepare_stored_spec. split.
  - apply re_anchor_chain. intros n e' Hn. destruct (Forall2_lookup_r _ _ _ _ _ Hes Hn) as (e & He & p & h & -> & _).
    cbn. by eapply chain_from_nth.
  - apply re_anchor_owner.
  - intros Hnone. apply re_anchor_normal. apply Forall_lookup. intros n e' Hn.
    destruct (Forall2_lookup_r _ _ _ _ _ Hes Hn) as (e & He & p & h & -> & Hh). by apply Hh.
Qed.

Lemma last_id ev rv es : chain_from ev rv [] None es → event_id <$> last es = if decide (es = []) then None else Some (len es).
Proof.
  destruct es as [|e es _] using rev_ind; [done|]. intros [_ (Hid & _)]%chain_from_snoc.
  rewrite last_snoc, decide_False by (by intros []%app_eq_nil). cbn. by rewrite Hid, len_app.
Qed.

Lemma forked_ok id parent es' child now :
  record_ok hooks id parent → (len es' < U64_MAX)%N → events_ok hooks child (re_anchor_events es' child) →
  record_ok hooks child (mkSessionRecord
    (meta_forked child now (len (re_anchor_events es' child)) (event_id <$> last (re_anchor_events es' child))
       (Some (chain_root_hash (re_anchor_events es' child))) (meta parent))
    (re_anchor_events es' child) (from_option (λ tail, add_u64 (event_id tail) 1) 1%N (last (re_anchor_events es' child)))).
Proof.
  intros Hr Hfits Hes. set (copied := re_anchor_events es' child) in *.
  assert (len copied = len es') as Hlen by (unfold len; f_equal; apply re_anchor_from_length).
  split; cbn; try done; [|by left]. pose proof (last_id _ _ _ (ok_chain _ _ _ Hes)) as Hlast.
  destruct (last copied) as [tail|] eqn:Et; cbn in *.
  - destruct (decide (copied = [])); [done|]. injection Hlast as ->. rewrite add_u64_small; [done|].
    unfold U64_MAX in Hfits. lia.
  - by apply last_None in Et as ->.
Qed.

(** [close]: the receipt is signed over the root before it. *)
Lemma sign_event_of_snoc id s es e :
  Forall (λ f, event_id f ≠ id) es → event_id e = id →
  Memory.sign_event_of id s (es ++ [e]) = es ++ [with_signature (Some s) e].
Proof.
  intros Hes He. induction Hes as [|f es Hf Hes IH]; cbn.
  - by rewrite He, N.eqb_refl.
  - by rewrite (proj2 (N.eqb_neq _ _) Hf), IH.
Qed.

Lemma earlier_ids id r : record_ok hooks id r → Forall (λ e, event_id e ≠ next_event_id r) (events r).
Proof.
  intros Hr. apply Forall_lookup. intros n e Hn. rewrite (ok_next _ _ _ Hr).
  rewrite (chain_from_nth _ _ _ _ _ _ (ok_chain _ _ _ (ok_events _ _ _ Hr)) Hn).
  apply lookup_lt_Some in Hn. unfold len. lia.
Qed.

Lemma receipt_ok id r e e' now s root :
  record_ok hooks id r → append_kind e = SessionEventKind.Receipt → prepare_append_event hooks e = Returned e' →
  root = chain_root_hash (events r) →
  s = (λ signer, sign_receipt signer root) <$> Memory.receipt_signer_or_event hooks →
  events_ok hooks id (events r ++ [signed_append r e' now s]).
Proof.
  intros Hr Hkind He -> ->. eapply appended_ok; [done|exact He|]. apply prepare_append_event_spec in He as (Hk & _).
  unfold signature_holds, signed_append. cbn [signed_by with_signature kind].
  destruct (Memory.receipt_signer_or_event hooks) as [signer|] eqn:Es; [|done]. cbn [fmap option_fmap option_map].
  rewrite bool_decide_true by (cbn; by rewrite Hk). unfold receipt_key. rewrite Es.
  exact (sign_bytes_verifies (signing_key signer) (signer_key_id signer) _).
Qed.
End preservation.

Section steps.
Context `{SerdeJson, SigningCrates, !FlowLaws, !SigningLaws}.
Variable hooks : StoreHooks.

Lemma get_ok inner id r : store_ok hooks inner → BTree.get id (sessions inner) = Some r → record_ok hooks id r.
Proof. intros Hs Hr%btree_get_in. unfold store_ok in Hs. rewrite Forall_forall in Hs. by apply (Hs (id, r)). Qed.

Lemma get_fits inner id r : in_memory inner → BTree.get id (sessions inner) = Some r → (len (events r) < U64_MAX)%N.
Proof. intros Hs Hr%btree_get_in. unfold in_memory in Hs. rewrite Forall_forall in Hs. by apply (Hs (id, r)). Qed.

Lemma set_session_ok inner id r :
  store_ok hooks inner → record_ok hooks id r → store_ok hooks (set_session id r inner).
Proof.
  unfold store_ok. rewrite !Forall_forall. intros Hs Hr e [He| ->]%btree_insert_elem; [by apply Hs|done].
Qed.

Lemma set_session_fits inner id r : in_memory (set_session id r inner) → (len (events r) < U64_MAX)%N.
Proof. intros Hs. eapply (get_fits _ id); [exact Hs|]. apply btree_get_insert_eq. Qed.

Ltac bind_inv H x E := apply fallible_bind_returned in H as (x & E & H).
Ltac found_inv H r E := bind_inv H r E; unfold not_found, ok_or_raise in E; destruct (BTree.get _ _) eqn:?; [injection E as ->|discriminate E].

Lemma append_ok now id e inner inner' stored :
  store_ok hooks inner → admissible hooks (OpAppend id e) → in_memory inner' →
  Memory.append hooks now id e inner = Returned (inner', stored) → store_ok hooks inner'.
Proof.
  intros Hs Had Hfits Ha. unfold Memory.append in Ha. found_inv Ha r Er. bind_inv Ha p Hp. destruct p as [r' stored'].
  injection Ha as <- <-. apply set_session_ok; [done|]. eapply append_locked_ok; [by eapply get_ok| | |exact Hp].
  - destruct Had as [|Had]; [by left|right]. by apply Forall_cons in Had as [? _].
  - by eapply set_session_fits.
Qed.

Lemma append_all_length now r es r' : append_all hooks now r es = Returned r' → (len (events r) <= len (events r'))%N.
Proof.
  revert now r. induction es as [|e es IH]; intros now r Ha; cbn in Ha; [by injection Ha as ->|].
  bind_inv Ha p Hp. destruct p as [r1 stored]. apply IH in Ha. apply append_locked_inv in Hp as (e' & _ & _ & _ & ->).
  cbn in *. rewrite len_app in Ha. lia.
Qed.

Lemma append_all_ok id now r es r' :
  record_ok hooks id r → event_signer hooks = None ∨ Forall (λ e, append_kind e ≠ SessionEventKind.Receipt) es →
  (len (events r') < U64_MAX)%N → append_all hooks now r es = Returned r' → record_ok hooks id r'.
Proof.
  intros Hr Had Hfits. revert now r Hr Had. induction es as [|e es IH]; intros now r Hr Had Ha; cbn in Ha; [by injection Ha as <-|].
  bind_inv Ha p Hp. destruct p as [r1 stored]. eapply IH; [| |exact Ha].
  - eapply append_locked_ok; [done| | |exact Hp].
    + destruct Had as [|Had]; [by left|right]. by apply Forall_cons in Had as [? _].
    + apply append_all_length in Ha. cbn [fst] in *. lia.
  - destruct Had as [|Had]; [by left|right]. by apply Forall_cons in Had as [_ ?].
Qed.

Lemma close_ok now id inner inner' stored :
  store_ok hooks inner → in_memory inner' →
  Memory.close hooks now id inner = Returned (inner', stored) → store_ok hooks inner'.
Proof.
  intros Hs Hfits Hc. unfold Memory.close in Hc. found_inv Hc r Er. pose proof (get_ok _ _ _ Hs Heqo) as Hr.
  bind_inv Hc u Hu. bind_inv Hc p Hp. destruct p as [r1 stored1].
  set (root := default (chain_root_hash (events r)) (meta_chain_root_hash (meta r))) in *.
  assert (root = chain_root_hash (events r)) as Hroot by (subst root; by destruct (ok_root _ _ _ Hr) as [-> |[_ ->]]).
  apply append_locked_inv in Hp as (e' & He & _ & -> & ->).
  assert (∀ s, s = (λ signer, sign_receipt signer root) <$> Memory.receipt_signer_or_event hooks →
    events_ok hooks id (events r ++ [signed_append r e' (now 0) s])) as Hreceipt
    by (intros s; eapply receipt_ok; [done| |exact He|exact Hroot]; done).
  assert (∃ s, s = (λ signer, sign_receipt signer root) <$> Memory.receipt_signer_or_event hooks ∧
    inner' = set_session id (mkSessionRecord (meta_closed (now 1)
      (meta_appended (len (events r ++ [signed_append r e' (now 0) s])) (Some (next_event_id r))
         (Some (chain_root_fold (default chain_root_init (meta_chain_root_hash (meta r)))
           (record_hash (stored_event r e' (now 0))))) (now 0) (meta r)))
      (events r ++ [signed_append r e' (now 0) s]) (N.min (next_event_id r + 1) U64_MAX)) inner) as (s & Hsig & ->).
  { destruct (Memory.receipt_signer_or_event hooks) as [signer|] eqn:Es; cbn [events meta next_event_id] in Hc.
    - rewrite sign_event_of_snoc in Hc by (done || by eapply earlier_ids). injection Hc as <- <-. eexists. split; [done|].
      rewrite !len_app. done.
    - injection Hc as <- <-. exists None. split; [done|].
      unfold Memory.receipt_signer_or_event in Es. destruct (receipt_signer hooks); [done|]. by rewrite Es. }
  apply set_session_ok; [done|]. apply set_session_fits in Hfits. cbn [events] in Hfits.
  apply appended_record; try done; [by apply Hreceipt|apply (ok_id _ _ _ Hr)].
Qed.

Lemma fork_ok now uuid id boundary child inner inner' result :
  store_ok hooks inner → in_memory inner' →
  Memory.fork hooks now uuid id boundary child inner = Returned (inner', result) → store_ok hooks inner'.
Proof.
  intros Hs Hfits Hf. unfold Memory.fork in Hf. found_inv Hf r Er. pose proof (get_ok _ _ _ Hs Heqo) as Hr.
  bind_inv Hf u Hu. bind_inv Hf u' Hu'. bind_inv Hf es Hes. injection Hf as <- <-.
  apply set_session_fits in Hfits. cbn [events] in Hfits.
  apply set_session_ok; [done|]. apply (forked_ok hooks id); [done| |].
  - unfold len in *. unfold re_anchor_events in Hfits. by rewrite re_anchor_from_length in Hfits.
  - eapply (copied_ok hooks id); [|exact Hes].
    pose proof (ok_events _ _ _ Hr) as Hev. rewrite (prefix_at_take hooks id) by done. destruct Hev as [Hc Ho Hn].
    split; [by eapply chain_from_take|by apply Forall_take|intros Hnone; by apply Forall_take, Hn].
Qed.

(** Every operation keeps every session verified. *)
Lemma perform_ok now uuid op inner :
  store_ok hooks inner → admissible hooks op → in_memory inner → in_memory (perform hooks now uuid op inner) →
  store_ok hooks (perform hooks now uuid op inner).
Proof.
  intros Hs Had Hbefore Hafter.
  destruct op as [request|id request|id e|id boundary child|id at_event_id|id|id|id|id|request]; cbn [perform] in *;
    match goal with |- store_ok _ (state_after _ ?m) => destruct m as [[inner' result]|] eqn:E; [|done] end;
    cbn [state_after] in *.
  - unfold Memory.create in E. bind_inv E u Hu. injection E as <- <-. apply set_session_ok; [done|]. by apply fresh_ok.
  - unfold Memory.update in E. found_inv E r Er. destruct (resolve_title_update _ _ _ _) as [title pinned].
    injection E as <- <-. apply set_session_ok; [done|]. apply same_journal_ok; [by eapply get_ok|done..].
  - by eapply append_ok.
  - by eapply fork_ok.
  - unfold Memory.truncate in E. found_inv E r Er. bind_inv E u Hu. unfold raise_if in Hu.
    destruct (existsb _ _) eqn:Ex; [|done]. injection E as <- <-. apply set_session_ok; [done|].
    apply truncate_ok; [by eapply get_ok|exact (get_fits _ _ _ Hbefore Heqo)|done].
  - unfold Memory.snapshot in E. found_inv E r Er. bind_inv E es Hes. by injection E as <- <-.
  - by eapply close_ok.
  - unfold Memory.soft_delete in E. found_inv E r Er.
    assert (∀ m, Returned (set_session id (mkSessionRecord (meta_soft_deleted (now 0) (meta r)) (events r) (next_event_id r)) inner, m)
      = Returned (inner', result) (E := StoreError) → store_ok hooks inner') as Hset.
    { intros m Hm. injection Hm as <- <-. apply set_session_ok; [done|]. apply same_journal_ok; [by eapply get_ok|done..]. }
    destruct (meta_status (meta r)); [by eapply Hset|by eapply Hset|by injection E as <- <-|done].
  - unfold Memory.hard_delete in E. bind_inv E r Er. injection E as <- <-. unfold store_ok in *. cbn.
    rewrite Forall_forall in *. intros s Hin%btree_remove_elem. by apply Hs.
  - unfold Memory.import in E. bind_inv E u Hu. destruct (BTree.get _ (imports inner)).
    + bind_inv E u' Hu'. by injection E as <- <-.
    + bind_inv E u' Hu'. bind_inv E r Er. injection E as <- <-.
      change (store_ok hooks (set_session (meta_id (meta_for_create (now 0) uuid (import_session request))) r inner)).
      apply set_session_ok; [done|]. eapply append_all_ok; [by apply fresh_ok|exact Had| |exact Er].
      apply (set_session_fits inner (meta_id (meta_for_create (now 0) uuid (import_session request)))), Hafter.
Qed.

Lemma reachable_ok inner : reachable hooks inner → store_ok hooks inner ∧ in_memory inner.
Proof.
  induction 1 as [|inner now uuid op Hr [IHs IHm] Had Hfits]; [split; constructor|].
  split; [|done]. by apply perform_ok.
Qed.
End steps.

(** ** Verification *)

Section theorems.
Context `{SerdeJson, SigningCrates, !FlowLaws, !SigningLaws}.
Variable hooks : StoreHooks.

(** C7: Whatever was done to the store, in whatever order, as long as callers do
    not append [Receipt] events of their own to a store that signs events
    ([admissible]; [caller_receipts_fail] shows what happens if they do): every
    session in it verifies. Numbering, links, hashes, signatures, counters and
    root agree, and [verify] counts exactly the signed events. The one thing it
    can then report is a root mismatch on a session without events, which a fork
    at the empty boundary makes. *)
Theorem reachable_sessions_verify inner id r :
  reachable hooks inner → BTree.get id (sessions inner) = Some r →
  ∃ report, Memory.verify hooks id inner = Returned report ∧
    report_chain_root_hash report = chain_root_hash (events r) ∧
    report_event_count report = len (events r) ∧
    report_signed_event_count report = len (filter is_signed (events r)) ∧
    failures report =
      if decide (events r = [] ∧ meta_chain_root_hash (meta r) ≠ None)
      then [mkChainFailure 0 Reason.ChainRootMismatch] else [].
Proof.
  intros [Hs _]%reachable_ok Hget. pose proof (get_ok hooks _ _ _ Hs Hget) as Hr.
  unfold Memory.verify, not_found. rewrite Hget. cbn [ok_or_raise mbind fallible_bind]. eexists. split; [done|].
  unfold Memory.verify_session_chain, verify_event_chain. fold (event_key hooks) (receipt_key hooks).
  rewrite (verify_from_clean _ _ _ _ _ (ok_chain _ _ _ (ok_events _ _ _ Hr))). cbn. split_and!; [done..|].
  rewrite (ok_count _ _ _ Hr), N.eqb_refl, (ok_last _ _ _ Hr), decide_True by done. cbn.
  destruct (ok_root _ _ _ Hr) as [Hroot|[Hes Hroot]]; rewrite Hroot.
  - destruct (events r) as [|e es]; cbn; repeat case_decide; try done; naive_solver.
  - rewrite Hes. rewrite decide_True by done. rewrite decide_False by naive_solver. done.
Qed.

(** ** Reading *)

Lemma filter_ext_in {A} (P Q : A → Prop) `{∀ x, Decision (P x), ∀ x, Decision (Q x)} (l : list A) :
  Forall (λ x, P x ↔ Q x) l → filter P l = filter Q l.
Proof. induction 1 as [|x l Hx Hl IH]; [done|]. rewrite !filter_cons, IH. repeat case_decide; tauto. Qed.

Lemma for_each_same (f : StoredEvent → StoreResult StoredEvent) es :
  Forall (λ e, f e = Returned e) es → for_each f es = Returned es.
Proof. intros Hes. apply for_each_Forall2. by induction Hes; constructor. Qed.

(** Without a policy stored events are read as they are. *)
Lemma redact_same es :
  redaction hooks = None → Forall (λ e, normal_headers (headers e)) es → redact_stored_events hooks es = Returned es.
Proof.
  intros Hnone Hes. apply for_each_same. eapply Forall_impl; [exact Hes|]. intros e He.
  unfold redact_stored_event. rewrite Hnone. cbn [RELOCATIONS normalize_stored_in_place].
  rewrite normalize_in_place_id by done. cbn. by destruct e.
Qed.

Lemma chain_id_bound ev rv es :
  chain_from ev rv [] None es → Forall (λ e, (event_id e <= len es)%N) es.
Proof.
  intros Hc. apply Forall_lookup. intros n e Hn. rewrite (chain_from_nth _ _ _ _ _ _ Hc Hn).
  apply lookup_lt_Some in Hn. unfold len. lia.
Qed.

Lemma for_each_app (f : StoredEvent → StoreResult StoredEvent) es fs :
  for_each f (es ++ fs) = es ← for_each f es; fs ← for_each f fs; Returned (es ++ fs).
Proof.
  induction es as [|e es IH]; cbn; [by destruct (for_each f fs)|].
  destruct (f e); cbn; [|done]. rewrite IH. destruct (for_each f es); cbn; [|done]. by destruct (for_each f fs).
Qed.

Lemma read_page inner id r k cursor :
  record_ok hooks id r → (len (events r) < U64_MAX)%N →
  BTree.get id (sessions inner) = Some r → default 1%N cursor = N.of_nat (S k) →
  Memory.read hooks id (mkReadRange cursor None (Some MAX_READ_BATCH)) inner =
    page ← redact_stored_events hooks (take 1000 (drop k (events r)));
    Returned (mkEventPage page
      (if decide (1000 ≤ length (drop k (events r))) then Some (N.of_nat (S (k + 1000))) else None)).
Proof.
  intros Hr Hfits Hget Hcursor. pose proof (ok_events _ _ _ Hr) as [Hc _ Hn].
  unfold Memory.read, not_found. rewrite Hget. cbn [ok_or_raise mbind fallible_bind from_event_id to_event_id range_limit].
  rewrite Hcursor. cbn [default from_option]. rewrite N.min_id. unfold take_n. change (N.to_nat MAX_READ_BATCH) with 1000.
  rewrite (filter_ext_in _ (λ e, N.of_nat k < event_id e)%N).
  2:{ eapply Forall_impl; [by eapply chain_id_bound|]. intros e He. cbn beta in He. lia. }
  destruct (chain_from_ids _ _ _ _ _ Hc (N.of_nat k)) as [_ Hdrop]. cbn [length] in Hdrop.
  rewrite Hdrop, Nat2N.id, Nat.sub_0_r.
  destruct (redact_stored_events hooks (take 1000 (drop k (events r)))) as [page|]; [|done].
  cbn [mbind fallible_bind]. do 2 f_equal. unfold len. rewrite length_take.
  destruct (decide (1000 ≤ length (drop k (events r)))) as [Hfull|Hpart].
  - rewrite Nat.min_l by done. change (N.of_nat 1000 =? MAX_READ_BATCH)%N with true. cbn iota.
    rewrite last_lookup, length_take, Nat.min_l by done. cbn [Init.Nat.pred].
    rewrite lookup_take_lt by lia. rewrite lookup_drop. rewrite length_drop in Hfull.
    destruct (lookup_lt_is_Some_2 (events r) (k + 999)) as [e He]; [lia|]. rewrite He. cbn [fmap option_fmap option_map].
    rewrite (chain_from_nth _ _ _ _ _ _ Hc He). f_equal. unfold len, U64_MAX in Hfits. rewrite add_u64_small by lia. lia.
  - replace (N.of_nat _ =? MAX_READ_BATCH)%N with false; [done|]. symmetry. apply N.eqb_neq. unfold MAX_READ_BATCH. lia.
Qed.

Lemma read_pages_drain inner id r fuel k cursor :
  record_ok hooks id r → (len (events r) < U64_MAX)%N →
  BTree.get id (sessions inner) = Some r → default 1%N cursor = N.of_nat (S k) → length (drop k (events r)) < fuel →
  Memory.read_pages hooks fuel cursor id inner = redact_stored_events hooks (drop k (events r)).
Proof.
  intros Hr Hfits Hget. revert k cursor. induction fuel as [|fuel IH]; intros k cursor Hcursor Hfuel; [lia|].
  cbn [Memory.read_pages]. rewrite (read_page inner id r k) by done.
  rewrite <- (take_drop 1000 (drop k (events r))) at 2. unfold redact_stored_events at 2. rewrite for_each_app.
  fold (redact_stored_events hooks). destruct (redact_stored_events hooks (take 1000 _)) as [page|]; [|done].
  cbn [mbind fallible_bind next_cursor page_events]. rewrite length_drop in Hfuel.
  case_decide as Hlen; rewrite length_drop in Hlen.
  - rewrite (IH (k + 1000)) by (rewrite ?length_drop; done || lia). by rewrite drop_drop.
  - rewrite (drop_ge (drop k (events r))) by (rewrite length_drop; lia). cbn. by rewrite app_nil_r.
Qed.

Lemma read_all_redacts inner id r :
  reachable hooks inner → BTree.get id (sessions inner) = Some r →
  Memory.read_all hooks id inner = redact_stored_events hooks (events r).
Proof.
  intros [Hs Hm]%reachable_ok Hget. unfold Memory.read_all, Memory.read_budget. rewrite Hget. cbn [from_option].
  rewrite (read_pages_drain inner id r _ 0); [by rewrite drop_0|by eapply get_ok|by eapply get_fits|done|done|].
  rewrite drop_0. lia.
Qed.

(** C21: A reader that follows the cursors gets what one pass of the redaction
    over the whole journal gives, in order, or the error that pass ends in: the
    journal itself where there is no policy. However long the journal is, paging
    neither skips nor repeats an event and always ends. (In a store as for
    [reachable_sessions_verify]; what redaction changes is stated by
    [projections_never_authenticate].) *)
Theorem read_all_drains inner id r :
  reachable hooks inner → BTree.get id (sessions inner) = Some r →
  Memory.read_all hooks id inner = redact_stored_events hooks (events r) ∧
  (redaction hooks = None → Memory.read_all hooks id inner = Returned (events r)).
Proof.
  intros Hreach Hget. rewrite (read_all_redacts inner id r) by done. split; [done|]. intros Hnone.
  apply redact_same; [done|]. apply reachable_ok in Hreach as [Hs _].
  by apply (ok_normal _ _ _ (ok_events _ _ _ (get_ok hooks _ _ _ Hs Hget))).
Qed.
End theorems.

(** ** Boundaries and forks *)

Section forks.
Context `{SerdeJson, SigningCrates, !FlowLaws, !SigningLaws}.
Variable hooks : StoreHooks.

Definition all_boundaries (hb : CanonicalHistoryBoundaries) : list CanonicalSessionBoundary :=
  tip hb :: concat (map (λ p, [before_boundary p; position_boundary p]) (positions hb)).

(** What a copied event keeps of the original. *)
Definition copied (child : string) (e e' : StoredEvent) : Prop :=
  session_id e' = child ∧ event_id e' = event_id e ∧ tenant_id e' = tenant_id e ∧
  parent_event_id e' = parent_event_id e ∧ actor e' = actor e ∧ kind e' = kind e ∧ payload e' = payload e ∧
  tags e' = tags e ∧ ts_ms e' = ts_ms e ∧ ts e' = ts e ∧ signed_by e' = None ∧
  headers e' = BTree.insert CANONICAL_ORIGIN_SESSION_HEADER (canonical_origin_session_id e) (headers e) ∧
  canonical_origin_session_id e' = canonical_origin_session_id e.

Lemma re_anchor_copies prev id es : Forall2 (copied id) es (re_anchor_from prev id es).
Proof.
  revert prev. induction es as [|e es IH]; intros prev; cbn; constructor; [|apply IH].
  split_and!; try done. unfold canonical_origin_session_id at 1. cbn. by rewrite btree_get_insert_eq.
Qed.

Lemma positions_from_spec before es b :
  b ∈ concat (map (λ p, [before_boundary p; position_boundary p]) (positions_from before es)) →
  b = before ∨ ∃ e, e ∈ es ∧ b = acknowledged e.
Proof.
  revert before. induction es as [|e es IH]; intros before; cbn; [by intros ?%not_elem_of_nil|].
  rewrite map_app, concat_app. intros [Hb|[->|(f & Hf & ->)]%IH]%elem_of_app.
  - destruct (BTree.get _ _); cbn in Hb; [|by apply not_elem_of_nil in Hb].
    apply elem_of_cons in Hb as [->|Hb]; [by left|]. apply list_elem_of_singleton in Hb as ->. right. exists e. by split; [left|].
  - right. exists e. by split; [left|].
  - right. exists f. by split; [right|].
Qed.

Lemma boundaries_spec id es b :
  b ∈ all_boundaries (boundaries_from_events id es) → b = empty_boundary id ∨ ∃ e, e ∈ es ∧ b = acknowledged e.
Proof.
  intros [->|Hb]%elem_of_cons; [|by apply positions_from_spec].
  cbn. destruct (last es) as [e|] eqn:E; [right|by left]. exists e. split; [|done].
  apply last_Some_elem_of in E. done.
Qed.

Lemma boundary_valid id es b :
  Forall (λ e, session_id e = id) es → b = empty_boundary id ∨ (∃ e, e ∈ es ∧ b = acknowledged e) →
  validate_boundary b id es = Returned tt.
Proof.
  intros Ho Hb. unfold validate_boundary, raise_if. destruct Hb as [->|(e & He & ->)]; cbn.
  - by rewrite String.eqb_refl.
  - rewrite Forall_forall in Ho. rewrite (Ho e He), String.eqb_refl. cbn.
    replace (existsb _ es) with true; [done|]. symmetry. apply existsb_exists. exists e.
    split; [by apply list_elem_of_In|]. by rewrite N.eqb_refl, (Ho e He), !String.eqb_refl.
Qed.

(** Without a policy [prepare_stored_events_for_persistence] changes nothing. *)
Lemma prepare_same es :
  redaction hooks = None → Forall (λ e, normal_headers (headers e)) es →
  prepare_stored_events_for_persistence hooks es = Returned es.
Proof.
  intros Hnone Hes. apply for_each_same. eapply Forall_impl; [exact Hes|]. intros e He.
  unfold redact_content. cbn [RELOCATIONS normalize_stored_identity].
  destruct (normalize_with_change_id (headers e) He) as [identity ->]. cbn. unfold apply_event_redaction. rewrite Hnone.
  cbn. by destruct e.
Qed.

(** A projection acknowledges what the stored event does; and what a policy lets
    be read it lets be kept. *)
Lemma redact_stored_event_acknowledged e e' :
  redact_stored_event hooks e = Returned e' →
  acknowledged e' = acknowledged e ∧ (redaction hooks ≠ None → ∃ e1, redact_content hooks e = Returned e1).
Proof.
  unfold redact_stored_event. intros Hr.
  assert (∀ p h, acknowledged (mark_redacted_projection (with_content p h e)) = acknowledged e) as Hmark.
  { intros p h. unfold acknowledged. rewrite (proj2 (marked_projection _)).
    unfold mark_redacted_projection. by destruct (is_redacted_projection _). }
  destruct (redaction hooks) as [policy|].
  - apply fallible_bind_returned in Hr as (e1 & Hc & [= <-]). split; [|by exists e1].
    unfold redact_content in Hc. apply fallible_bind_returned in Hc as ([[h identity] c] & _ & Hc).
    apply fallible_bind_returned in Hc as ([p h'] & _ & [= <-]). by destruct (_ || _).
  - apply fallible_bind_returned in Hr as ([h c] & _ & [= <-]). split; [|done].
    change (with_headers h e) with (with_content (payload e) h e). by destruct c.
Qed.

Lemma redacted_boundaries id es es' b :
  redact_stored_events hooks es = Returned es' → b ∈ all_boundaries (boundaries_from_events id es') →
  b = empty_boundary id ∨ ∃ e, e ∈ es ∧ b = acknowledged e.
Proof.
  intros Hes%for_each_Forall2 [->|(e' & He & ->)]%boundaries_spec; [by left|right].
  apply list_elem_of_lookup in He as [n He]. destruct (Forall2_lookup_r _ _ _ _ _ Hes He) as (e & Hn & Hr).
  exists e. split; [by eapply list_elem_of_lookup_2|]. by apply redact_stored_event_acknowledged in Hr as [-> _].
Qed.

(** The prefix a fork keeps of a journal that can be read. *)
Lemma redacted_prefix id r es' n :
  record_ok hooks id r → redact_stored_events hooks (events r) = Returned es' →
  ∃ prefix, prepare_stored_events_for_persistence hooks (take n (events r)) = Returned prefix ∧
    length prefix = length (take n (events r)) ∧
    (redaction hooks = None → prefix = take n (events r)).
Proof.
  intros Hr Hes%for_each_Forall2. destruct (redaction hooks) as [policy|] eqn:Epolicy.
  - assert (∃ prefix, Forall2 (λ e e1, redact_content hooks e = Returned e1) (take n (events r)) prefix)
      as [prefix Hprefix].
    { apply (Forall2_take _ _ _ n) in Hes. induction Hes as [|e e' es es1 He _ [prefix IH]]; [by exists []|].
      apply redact_stored_event_acknowledged in He as [_ He]. destruct He as [e1 He]; [by rewrite Epolicy|].
      exists (e1 :: prefix). by constructor. }
    exists prefix. split_and!; [by apply for_each_Forall2|by symmetry; eapply Forall2_length|done].
  - exists (take n (events r)). split_and!; [|done..]. apply prepare_same; [done|].
    by apply Forall_take, (ok_normal _ _ _ (ok_events _ _ _ Hr)).
Qed.

End forks.

(** ** Imports *)

Section imports.
Context `{SerdeJson, SigningCrates}.
Variable hooks : StoreHooks.

Definition step : Type := (nat → Instant) * string * Operation.
Definition run (steps : list step) (inner : Inner) : Inner :=
  fold_left (λ inner s, perform hooks s.1.1 s.1.2 s.2 inner) steps inner.

(** No operation removes or changes an import receipt. *)
Lemma perform_imports now uuid op inner source result :
  BTree.get source (imports inner) = Some result → BTree.get source (imports (perform hooks now uuid op inner)) = Some result.
Proof.
  intros Hget. destruct op; cbn [perform];
    match goal with |- context [state_after _ ?m] => destruct m as [[inner' res]|] eqn:E; [|done] end; cbn [state_after].
  - unfold Memory.create in E. apply fallible_bind_returned in E as (? & _ & [= <- <-]). done.
  - unfold Memory.update in E. apply fallible_bind_returned in E as (? & _ & E).
    destruct (resolve_title_update _ _ _ _). by injection E as <- <-.
  - unfold Memory.append in E. apply fallible_bind_returned in E as (? & _ & E).
    apply fallible_bind_returned in E as (? & _ & [= <- <-]). done.
  - unfold Memory.fork in E. repeat (apply fallible_bind_returned in E as (? & _ & E)). by injection E as <- <-.
  - unfold Memory.truncate in E. repeat (apply fallible_bind_returned in E as (? & _ & E)). by injection E as <- <-.
  - unfold Memory.snapshot in E. repeat (apply fallible_bind_returned in E as (? & _ & E)). by injection E as <- <-.
  - unfold Memory.close in E. do 2 apply fallible_bind_returned in E as (? & _ & E).
    apply fallible_bind_returned in E as ([? ?] & _ & E). destruct (Memory.receipt_signer_or_event hooks); by injection E as <- <-.
  - unfold Memory.soft_delete in E. apply fallible_bind_returned in E as (r & _ & E).
    destruct (meta_status (meta r)); by injection E as <- <- || done.
  - unfold Memory.hard_delete in E. apply fallible_bind_returned in E as (? & _ & E). by injection E as <- <-.
  - unfold Memory.import in E. apply fallible_bind_returned in E as (? & _ & E).
    destruct (BTree.get (import_source_id request) (imports inner)) as [existing|] eqn:Eex.
    + apply fallible_bind_returned in E as (? & _ & E). by injection E as <- <-.
    + repeat (apply fallible_bind_returned in E as (? & _ & E)). injection E as <- <-. cbn.
      rewrite btree_get_insert_ne; [done|]. intros ->. congruence.
Qed.

Lemma run_imports steps inner source result :
  BTree.get source (imports inner) = Some result → BTree.get source (imports (run steps inner)) = Some result.
Proof. revert inner. induction steps as [|s steps IH]; intros inner Hget; [done|]. cbn. by apply IH, perform_imports. Qed.

Definition repeated (result : ImportResult) : ImportResult :=
  mkImportResult (result_source_id result) (result_source_digest result) (result_session_id result)
    (result_event_count result) false.

(** C22: A source is imported once, ever. After an import succeeded, and after
    anything else has happened to the store, deleting the imported session
    included, importing the source again with the same digest changes nothing
    and returns the same receipt, marked as not imported; with another digest it
    is a conflict. *)
Theorem import_once now uuid request inner inner' result steps now' uuid' request' :
  Memory.import hooks now uuid request inner = Returned (inner', result) →
  import_source_id request' = import_source_id request → validate_import request' = Returned tt →
  Memory.import hooks now' uuid' request' (run steps inner') =
    if String.eqb (import_source_digest request') (import_source_digest request)
    then Returned (run steps inner', repeated result)
    else Raised (StoreError.Conflict ("import source '" ++ import_source_id request ++ "' changed digest")%string).
Proof.
  intros Hi Hsource Hvalid.
  assert (∃ receipt, BTree.get (import_source_id request) (imports inner') = Some receipt ∧
    repeated receipt = repeated result ∧ result_source_digest receipt = import_source_digest request) as (receipt & Hget & Hrep & Hdigest).
  { unfold Memory.import in Hi. apply fallible_bind_returned in Hi as (? & _ & Hi).
    destruct (BTree.get (import_source_id request) (imports inner)) as [existing|] eqn:Eex.
    - unfold raise_if in Hi. destruct (String.eqb (result_source_digest existing) (import_source_digest request)) eqn:Ed; [|done].
      injection Hi as <- <-. exists existing. split_and!; [done..|]. by apply String.eqb_eq.
    - repeat (apply fallible_bind_returned in Hi as (? & _ & Hi)). injection Hi as <- <-. cbn.
      rewrite btree_get_insert_eq. eexists. by split. }
  unfold Memory.import. rewrite Hvalid. cbn [mbind fallible_bind]. rewrite Hsource, (run_imports _ _ _ _ Hget), Hdigest.
  rewrite String.eqb_sym. destruct (String.eqb _ _); cbn [negb raise_if mbind fallible_bind]; [|done].
  by rewrite <- Hrep, <- Hdigest.
Qed.
End imports.

(** ** A store, for examples *)

Section runs.
Context `{SerdeJson, SigningCrates}.

Fixpoint fits_along (hooks : StoreHooks) (steps : list step) (inner : Inner) : bool :=
  match steps with
  | [] => true
  | s :: steps =>
      let inner := perform hooks s.1.1 s.1.2 s.2 inner in
      forallb (λ s, len (events s.2) <? U64_MAX)%N (sessions inner) && fits_along hooks steps inner
  end.

Lemma reachable_run hooks steps inner :
  reachable hooks inner → Forall (λ s, admissible hooks s.2) steps → fits_along hooks steps inner = true →
  reachable hooks (run hooks steps inner).
Proof.
  intros Hr Had. revert inner Hr. induction Had as [|s steps Hs Had IH]; intros inner Hr; cbn [fits_along]; [done|].
  intros [Hm Hrest]%andb_true_iff. apply IH; [|done]. apply reachable_step; [done..|].
  apply Forall_forall. intros t Ht%list_elem_of_In. rewrite forallb_forall in Hm. by apply N.ltb_lt, Hm.
Qed.
End runs.

Section samples.
#[local] Existing Instance sample_json.
#[local] Existing Instance sample_crates.
#[local] Existing Instance sample_signing.

Definition sample_signed_hooks : StoreHooks := mkStoreHooks None (Some (from_seed [Byte.x01])) (Some (from_seed [Byte.x02])).

Definition sample_create (id : string) : CreateSession :=
  mkCreateSession (Some id) None None None None false None None None None 0 0 0 None [] [].

Definition sample_append (kind : SessionEventKind) : AppendEvent :=
  mkAppendEvent kind Value.Null None (Some "user"%string) [] [("run_id", " r1 "); ("source_event_id", "s1")]%string.

Definition sample_import : ImportSession :=
  mkImportSession "legacy" "digest" (sample_create "imported") [sample_append SessionEventKind.Plan].

Definition sample_steps : list step :=
  let at_time op := (λ i, (Z.of_nat i, "now"%string), "uuid"%string, op) in
  map at_time
    [OpCreate (sample_create "a"); OpAppend "a" (sample_append SessionEventKind.Message);
     OpAppend "a" (sample_append SessionEventKind.ToolCall); OpImport sample_import; OpClose "a";
     OpFork "a" (empty_boundary "a") (Some "b"); OpTruncate "a" 2; OpHardDelete "imported"].

Definition sample_store : Inner := run sample_signed_hooks sample_steps new_store.

Lemma sample_reachable : reachable sample_signed_hooks sample_store.
Proof.
  apply reachable_run; [constructor| |vm_compute; reflexivity].
  unfold sample_steps. cbn [map].
  repeat (apply Forall_cons; split; [right; repeat constructor; discriminate|]). constructor.
Qed.

(** The journal of ["a"] kept two signed events; ["b"] was forked without any. *)
Lemma reachable_sessions_verify_witness :
  reachable sample_signed_hooks sample_store ∧
  (∃ report, Memory.verify sample_signed_hooks "a" sample_store = Returned report ∧
    report_signed_event_count report = 2%N ∧ failures report = []) ∧
  (∃ report, Memory.verify sample_signed_hooks "b" sample_store = Returned report ∧
    failures report = [mkChainFailure 0 Reason.ChainRootMismatch]).
Proof.
  split; [exact sample_reachable|].
  assert (∃ a, BTree.get "a" (sessions sample_store) = Some a ∧ len (filter is_signed (events a)) = 2%N ∧ events a ≠ []) as (a & Ha & Hsigned & Hne)
    by (eexists; split; [vm_compute; reflexivity|split; [vm_compute; reflexivity|discriminate]]).
  assert (∃ b, BTree.get "b" (sessions sample_store) = Some b ∧ events b = [] ∧ meta_chain_root_hash (meta b) ≠ None) as (b & Hb & Hnil & Hroot)
    by (eexists; split; [vm_compute; reflexivity|split; [reflexivity|discriminate]]).
  pose proof (@reachable_sessions_verify sample_json sample_crates sample_signing sample_laws sample_signing_laws
    sample_signed_hooks sample_store "a" a sample_reachable Ha) as (report & Hv & _ & _ & Hcount & Hf).
  pose proof (@reachable_sessions_verify sample_json sample_crates sample_signing sample_laws sample_signing_laws
    sample_signed_hooks sample_store "b" b sample_reachable Hb) as (report' & Hv' & _ & _ & _ & Hf').
  split.
  - exists report. rewrite Hf, decide_False by (intros [Hnil' _]; exact (Hne Hnil')). rewrite Hcount.
    exact (conj Hv (conj Hsigned eq_refl)).
  - exists report'. rewrite Hf', decide_True by exact (conj Hnil Hroot). exact (conj Hv' eq_refl).
Defined.

(** Why receipts must come from [close]: one a caller appends is signed over its
    own bytes and verified as a signature of the root. *)
Example caller_receipts_fail :
  let steps := [OpCreate (sample_create "a"); OpAppend "a" (sample_append SessionEventKind.Receipt)] in
  let inner := run sample_signed_hooks (map (λ op, (λ _, (0%Z, "now"%string), "uuid"%string, op)) steps) new_store in
  failures <$> (match Memory.verify sample_signed_hooks "a" inner with Returned r => Some r | Raised _ => None end) =
  Some [mkChainFailure 1 (Reason.Signature (VerifyError.BadSignature))].
Proof. vm_compute. reflexivity. Qed.

Definition sample_plain_store : Inner := run default_hooks sample_steps new_store.

Lemma sample_plain_reachable : reachable default_hooks sample_plain_store.
Proof.
  apply reachable_run; [constructor| |vm_compute; reflexivity].
  unfold sample_steps. cbn [map]. repeat (apply Forall_cons; split; [by left|]). constructor.
Qed.

Lemma read_all_drains_witness :
  reachable default_hooks sample_plain_store ∧
  ∃ a, BTree.get "a" (sessions sample_plain_store) = Some a ∧
    Memory.read_all default_hooks "a" sample_plain_store = Returned (events a) ∧ length (events a) = 2.
Proof.
  split; [exact sample_plain_reachable|]. eexists. split; [vm_compute; reflexivity|]. split; [|reflexivity].
  apply (@read_all_drains sample_json sample_crates sample_signing sample_laws sample_signing_laws default_hooks
    sample_plain_store "a"); [exact sample_plain_reachable|vm_compute; reflexivity|reflexivity].
Defined.


(** The imported session was deleted; importing it again still does nothing. *)
Lemma import_once_witness :
  ∃ before inner result, Memory.import default_hooks (λ _, (1, "now"%string)%Z) "uuid" sample_import before = Returned (inner, result) ∧
    let after := run default_hooks (drop 4 sample_steps) inner in
    BTree.get "imported" (sessions after) = None ∧
    Memory.import default_hooks (λ _, (9, "later"%string)%Z) "uuid" sample_import after = Returned (after, repeated result).
Proof.
  eexists (run default_hooks (take 3 sample_steps) new_store), _, _. split; [vm_compute; reflexivity|]. split; [vm_compute; reflexivity|].
  erewrite (@import_once sample_json sample_crates sample_signing default_hooks (λ _, (1, "now"%string)%Z) "uuid" sample_import
    (run default_hooks (take 3 sample_steps) new_store)); [reflexivity|vm_compute; reflexivity|reflexivity|vm_compute; reflexivity].
Defined.
End samples.
