(* ===== verification/SessionRetention.v ===== *)
(** * Retention ([harn-session-store/src/retention.rs], [sweep_retention] of [store.rs])

    Which sessions a sweep archives, soft-deletes and removes. The sweep is
    modelled as it runs alone: nothing else takes the store's lock between its
    calls. *)

From Stdlib Require Import Strings.String.
From S2P Require Import Prelude BTree Fallible Ordered Atom SessionEvent SessionSigning SessionHooks SessionStore SessionSound.

(** [harn_clock::elapsed_ms] *)
Definition saturating_sub_i64 (a b : Z) : Z := Z.max I64_MIN (Z.min I64_MAX (a - b)).
Definition elapsed_ms (now_ms since_ms : Z) : N := Z.to_N (saturating_sub_i64 now_ms since_ms).

Definition saturating_mul_u64 (a b : N) : N := N.min (a * b) U64_MAX.

(** [RetentionPolicy] *)
Record RetentionPolicy := mkRetentionPolicy {
  max_age_seconds : option N;
  min_age_before_archive_seconds : option N;
  grace_seconds : N
}.

Definition default_grace : N := 24 * 60 * 60.
Definition default_retention : RetentionPolicy := mkRetentionPolicy None None default_grace.

(** [Tombstone] *)
Record Tombstone := mkTombstone {
  tombstone_session_id : string;
  tombstone_tenant_id : option string;
  deleted_at_ms : Z;
  deleted_at : string;
  final_chain_root_hash : option string;
  final_event_id : option EventId
}.

(** [SweepReport] *)
Record SweepReport := mkSweepReport {
  soft_deleted : N;
  hard_deleted : N;
  archived : N;
  tombstoned : N
}.

Section retention.
Context `{SerdeJson, SigningCrates}.

(** [older than] in the policy's predicates *)
Definition at_least (age_ms : N) (seconds : option N) : bool :=
  match seconds with Some s => (saturating_mul_u64 s 1000 <=? age_ms)%N | None => false end.

Definition is_status (s : SessionStatus) (m : SessionMeta) : bool := bool_decide (meta_status m = s).

Definition should_soft_delete (p : RetentionPolicy) (m : SessionMeta) (now_ms : Z) : bool :=
  if negb (is_status SessionStatus.Open m || is_status SessionStatus.Closed m) then false
  else
    let age_ms := elapsed_ms now_ms (meta_created_at_ms m) in
    at_least age_ms (max_age_seconds p) ||
    (is_status SessionStatus.Closed m && at_least age_ms (min_age_before_archive_seconds p)).

Definition should_hard_delete (p : RetentionPolicy) (m : SessionMeta) (now_ms : Z) : bool :=
  if negb (is_status SessionStatus.SoftDeleted m) then false
  else match meta_soft_deleted_at_ms m with
       | None => false
       | Some since => at_least (elapsed_ms now_ms since) (Some (grace_seconds p))
       end.

Definition should_archive (p : RetentionPolicy) (m : SessionMeta) (now_ms : Z) : bool :=
  if negb (is_status SessionStatus.Closed m) then false
  else at_least (elapsed_ms now_ms (meta_created_at_ms m)) (min_age_before_archive_seconds p).

(** [ArchiveSink]: what the host's sink answers *)
Record ArchiveSink := mkArchiveSink {
  archive : SessionMeta → list StoredEvent → StoreResult unit;
  tombstone : Tombstone → StoreResult unit
}.

Definition default_filter : ListFilter :=
  mkListFilter None None None None None None None None None None None ListSortKey.CreatedAt ListOrder.Ascending.

Section sweep.
Variable hooks : StoreHooks.
Variable sink : option ArchiveSink.
Variable policy : RetentionPolicy.
Variable now_ms : Z.
(** [ms_to_rfc3339(now_ms)] *)
Variable now_text : string.

Definition tombstone_of (m : SessionMeta) : Tombstone :=
  mkTombstone (meta_id m) (meta_tenant_id m) now_ms now_text (meta_chain_root_hash m) (meta_last_event_id m).

(** One round of the sweep, as far as it gets. *)
Definition sweep_session (now : Instant) (m : SessionMeta) (report : SweepReport) (inner : Inner)
    : Inner * StoreResult SweepReport :=
  if should_hard_delete policy m now_ms then
    match from_option (λ s, tombstone s (tombstone_of m)) (Returned tt) sink with
    | Raised e => (inner, Raised e)
    | Returned _ =>
        match Memory.hard_delete (meta_id m) inner with
        | Raised e => (inner, Raised e)
        | Returned (inner, _) =>
            (inner, Returned (mkSweepReport (soft_deleted report) (hard_deleted report + 1) (archived report)
              (tombstoned report + if sink then 1 else 0)))
        end
    end
  else if should_soft_delete policy m now_ms then
    match (match sink, should_archive policy m now_ms with
           | Some s, true =>
               es ← Memory.read_all hooks (meta_id m) inner;
               _ ← archive s m es;
               Returned 1%N
           | _, _ => Returned 0%N
           end) with
    | Raised e => (inner, Raised e)
    | Returned count =>
        match Memory.soft_delete now (meta_id m) inner with
        | Raised e => (inner, Raised e)
        | Returned (inner, _) =>
            (inner, Returned (mkSweepReport (soft_deleted report + 1) (hard_deleted report) (archived report + count)
              (tombstoned report)))
        end
    end
  else (inner, Returned report).

Fixpoint sweep_sessions (now : nat → Instant) (ms : list SessionMeta) (report : SweepReport) (inner : Inner)
    : Inner * StoreResult SweepReport :=
  match ms with
  | [] => (inner, Returned report)
  | m :: ms =>
      match sweep_session (now 0) m report inner with
      | (inner, Raised e) => (inner, Raised e)
      | (inner, Returned report) => sweep_sessions (λ i, now (S i)) ms report inner
      end
  end.

(** [sweep_retention_unchecked] *)
Definition sweep_retention (now : nat → Instant) (inner : Inner) : Inner * StoreResult SweepReport :=
  sweep_sessions now (Memory.list_sessions default_filter inner) (mkSweepReport 0 0 0 0) inner.
End sweep.
End retention.

(** ** The sessions of a store are a map *)

Section sorted.
Context `{SerdeJson, SigningCrates}.
Variable hooks : StoreHooks.

Lemma perform_sessions now uuid op inner :
  let after := sessions (perform hooks now uuid op inner) in
  after = sessions inner ∨ (∃ k r, after = BTree.insert k r (sessions inner)) ∨ ∃ k, after = BTree.remove k (sessions inner).
Proof.
  destruct op; cbn [perform];
    match goal with |- context [state_after _ ?m] => destruct m as [[inner' res]|] eqn:E; [|by left] end; cbn [state_after].
  - unfold Memory.create in E. apply fallible_bind_returned in E as (? & _ & [= <- <-]). right; left. by eexists _, _.
  - unfold Memory.update in E. apply fallible_bind_returned in E as (? & _ & E).
    destruct (resolve_title_update _ _ _ _). injection E as <- <-. right; left. by eexists _, _.
  - unfold Memory.append in E. repeat (apply fallible_bind_returned in E as (? & _ & E)). injection E as <- <-.
    right; left. by eexists _, _.
  - unfold Memory.fork in E. repeat (apply fallible_bind_returned in E as (? & _ & E)). injection E as <- <-.
    right; left. by eexists _, _.
  - unfold Memory.truncate in E. repeat (apply fallible_bind_returned in E as (? & _ & E)). injection E as <- <-.
    right; left. by eexists _, _.
  - unfold Memory.snapshot in E. repeat (apply fallible_bind_returned in E as (? & _ & E)). injection E as <- <-. by left.
  - unfold Memory.close in E. do 2 apply fallible_bind_returned in E as (? & _ & E).
    apply fallible_bind_returned in E as ([? ?] & _ & E). right; left.
    destruct (Memory.receipt_signer_or_event hooks); injection E as <- <-; by eexists _, _.
  - unfold Memory.soft_delete in E. apply fallible_bind_returned in E as (r & _ & E).
    destruct (meta_status (meta r)); [|..|done]; injection E as <- <-; [right; left; by eexists _, _..|by left].
  - unfold Memory.hard_delete in E. apply fallible_bind_returned in E as (? & _ & [= <- <-]). right; right. by eexists.
  - unfold Memory.import in E. apply fallible_bind_returned in E as (? & _ & E).
    destruct (BTree.get (import_source_id request) (imports inner)).
    + apply fallible_bind_returned in E as (? & _ & [= <- <-]). by left.
    + repeat (apply fallible_bind_returned in E as (? & _ & E)). injection E as <- <-. right; left. by eexists _, _.
Qed.

Lemma reachable_sorted inner : reachable hooks inner → BTree.sorted (sessions inner).
Proof.
  induction 1 as [|inner now uuid op Hr IH _ _]; [constructor|].
  destruct (perform_sessions now uuid op inner) as [-> |[(k & r & ->)|[k ->]]];
    auto using btree_insert_sorted, btree_remove_sorted.
Qed.
End sorted.

(** ** What a sweep does *)

Section sweeping.
Context `{SerdeJson, SigningCrates}.
Variable hooks : StoreHooks.
Variable sink : option ArchiveSink.
Variable policy : RetentionPolicy.
Variable now_ms : Z.
Variable now_text : string.
Notation sweep_one := (sweep_session hooks sink policy now_ms now_text).
Notation sweep_all := (sweep_sessions hooks sink policy now_ms now_text).

(** [seconds] have passed since [since_ms]; differences saturate as [i64] and a
    clock that went back counts as no time. *)
Definition elapsed_since (since_ms : Z) (seconds : N) : Prop :=
  (1000 * Z.of_N seconds <= Z.max 0 (Z.min I64_MAX (now_ms - since_ms)))%Z.

(** The soft deletion of a session outlived the grace window. *)
Definition expired (m : SessionMeta) : Prop :=
  meta_status m = SessionStatus.SoftDeleted ∧
  ∃ since, meta_soft_deleted_at_ms m = Some since ∧ elapsed_since since (grace_seconds policy).

(** A closed session reached the age of the archive. *)
Definition archivable (m : SessionMeta) : Prop :=
  meta_status m = SessionStatus.Closed ∧
  ∃ age, min_age_before_archive_seconds policy = Some age ∧ elapsed_since (meta_created_at_ms m) age.

(** A session that is not deleted is too old, or archivable. *)
Definition due (m : SessionMeta) : Prop :=
  (meta_status m = SessionStatus.Open ∨ meta_status m = SessionStatus.Closed) ∧
  (∃ age, max_age_seconds policy = Some age ∧ elapsed_since (meta_created_at_ms m) age) ∨ archivable m.

Lemma at_least_spec since o :
  at_least (elapsed_ms now_ms since) o = true ↔ ∃ s, o = Some s ∧ elapsed_since since s.
Proof.
  unfold at_least, elapsed_ms, elapsed_since, saturating_sub_i64, saturating_mul_u64, I64_MIN, I64_MAX, U64_MAX.
  destruct o as [s|]; [|by split; [|intros (? & ? & ?)]].
  rewrite N.leb_le. split; [intros Hle; exists s; split; [done|]|intros (s' & [= <-] & Hle)]; lia.
Qed.

Lemma should_hard_delete_spec m : should_hard_delete policy m now_ms = true ↔ expired m.
Proof.
  unfold should_hard_delete, expired, is_status. case_bool_decide as Hst; cbn [negb]; [|by split; [|intros [? _]]].
  destruct (meta_soft_deleted_at_ms m) as [since|]; [|by split; [|intros (_ & ? & ? & _)]].
  rewrite at_least_spec. split.
  - intros (s & [= <-] & He). split; [done|]. by exists since.
  - intros (_ & since' & [= <-] & He). by eexists.
Qed.

Lemma should_archive_spec m : should_archive policy m now_ms = true ↔ archivable m.
Proof.
  unfold should_archive, archivable, is_status. case_bool_decide as Hst; cbn [negb]; [|by split; [|intros [? _]]].
  rewrite at_least_spec. naive_solver.
Qed.

Lemma should_soft_delete_spec m : should_soft_delete policy m now_ms = true ↔ due m.
Proof.
  unfold should_soft_delete, due, archivable, is_status.
  case_bool_decide as Ho; case_bool_decide as Hc; cbn [negb orb andb];
    rewrite ?orb_true_iff, ?at_least_spec; naive_solver.
Qed.

(** A session is left alone; or it was due and is soft-deleted with its journal
    intact, the archive having it first where it is archivable; or its soft
    deletion expired and it is gone, the sink having its tombstone. *)
Definition swept (start : Inner) (id : string) (r : SessionRecord) (inner : Inner) : Prop :=
  match BTree.get id (sessions inner) with
  | None =>
      expired (meta r) ∧ ∀ s, sink = Some s → tombstone s (tombstone_of now_ms now_text (meta r)) = Returned tt
  | Some r' =>
      r' = r ∨
      due (meta r) ∧ events r' = events r ∧ meta_status (meta r') = SessionStatus.SoftDeleted ∧
      ∀ s, sink = Some s → archivable (meta r) →
        ∃ es, Memory.read_all hooks id start = Returned es ∧ archive s (meta r) es = Returned tt
  end.

(** What a completed round did for its session. *)
Definition settled (m : SessionMeta) (inner : Inner) : Prop :=
  (expired m → BTree.get (meta_id m) (sessions inner) = None) ∧
  (due m → ∃ r, BTree.get (meta_id m) (sessions inner) = Some r ∧ meta_status (meta r) = SessionStatus.SoftDeleted).

(** Reading a session looks at nothing else. *)
Lemma read_all_get id a b :
  BTree.get id (sessions a) = BTree.get id (sessions b) → Memory.read_all hooks id a = Memory.read_all hooks id b.
Proof.
  intros Hget. assert (∀ range, Memory.read hooks id range a = Memory.read hooks id range b) as Hread
    by (intros range; unfold Memory.read; by rewrite Hget).
  unfold Memory.read_all, Memory.read_budget. rewrite Hget. generalize (@None EventId).
  induction (S _) as [|n IH]; intros cursor; cbn [Memory.read_pages]; [done|]. rewrite Hread.
  destruct (Memory.read _ _ _ _) as [page|]; [|done]. cbn. destruct (next_cursor page); [|done]. by rewrite IH.
Qed.

Lemma hard_not_soft m : should_hard_delete policy m now_ms = true → should_soft_delete policy m now_ms = false.
Proof.
  unfold should_hard_delete, should_soft_delete, is_status.
  by destruct (meta_status m); repeat (rewrite bool_decide_true by done || rewrite bool_decide_false by done).
Qed.

(** The store of a sweep, between rounds: only the listed sessions changed. *)
Record between (start inner : Inner) : Prop := {
  between_sorted : BTree.sorted (sessions inner);
  between_swept : ∀ id r, BTree.get id (sessions start) = Some r → swept start id r inner;
  between_none : ∀ id, BTree.get id (sessions start) = None → BTree.get id (sessions inner) = None;
  between_rest : snapshots inner = snapshots start ∧ imports inner = imports start
}.

Definition listed (start : Inner) (m : SessionMeta) : Prop :=
  ∃ r, BTree.get (meta_id m) (sessions start) = Some r ∧ meta r = m.

(** Where one listed session changed as the rounds allow, the rest is as before. *)
Lemma between_update start inner inner' m r o :
  between start inner → BTree.get (meta_id m) (sessions start) = Some r → meta r = m →
  BTree.sorted (sessions inner') →
  (∀ id, BTree.get id (sessions inner') = if decide (id = meta_id m) then o else BTree.get id (sessions inner)) →
  snapshots inner' = snapshots inner ∧ imports inner' = imports inner →
  swept start (meta_id m) r inner' → settled m inner' →
  between start inner' ∧ settled m inner' ∧ ∀ m', listed start m' → settled m' inner → settled m' inner'.
Proof.
  intros [_ Hswept Hnone [Hsn Him]] Hget Hm Hsorted Hall [Hsn' Him'] Hone Hsettled. split_and!; [split|done|].
  - done.
  - intros id r0 Hr0. destruct (decide (id = meta_id m)) as [->|Hne]; [congruence|].
    unfold swept. rewrite Hall, decide_False by done. by apply Hswept.
  - intros id Hid. rewrite Hall, decide_False; [by apply Hnone|]. intros ->. congruence.
  - by rewrite Hsn', Him'.
  - intros m' (r' & Hget' & Hm') Hold. destruct (decide (meta_id m' = meta_id m)) as [Heq|Hne].
    + rewrite Heq in Hget'. assert (m' = m) as -> by congruence. done.
    + unfold settled in *. by rewrite Hall, decide_False.
Qed.

(** A round that ends leaves its session settled; one that fails changed nothing. *)
Lemma sweep_session_between start now m report inner inner' result :
  between start inner → listed start m → sweep_one now m report inner = (inner', result) →
  match result with
  | Raised _ => inner' = inner
  | Returned _ =>
      between start inner' ∧ settled m inner' ∧ ∀ m', listed start m' → settled m' inner → settled m' inner'
  end.
Proof.
  intros Hb (r & Hget & Hm) Hs. pose proof Hb as [Hsorted Hswept _ _]. unfold sweep_session in Hs.
  destruct (should_hard_delete policy m now_ms) eqn:Ehard; [|destruct (should_soft_delete policy m now_ms) eqn:Esoft].
  - destruct (from_option _ _ sink) as [u|e] eqn:Esink; [|by injection Hs as <- <-].
    destruct (Memory.hard_delete (meta_id m) inner) as [[inner1 u']|e] eqn:Eh; [|by injection Hs as <- <-].
    injection Hs as <- <-. unfold Memory.hard_delete in Eh. apply fallible_bind_returned in Eh as (r1 & _ & [= <- _]).
    eapply (between_update _ inner _ m r None); cbn [sessions]; auto using btree_remove_sorted.
    + intros id. case_decide as Hid; [subst id; by apply btree_get_remove_eq|by apply btree_get_remove_ne].
    + unfold swept. cbn [sessions]. rewrite btree_get_remove_eq, Hm by done.
      split; [by apply should_hard_delete_spec|]. intros s ->. cbn in Esink. by destruct u.
    + split; cbn [sessions]; [intros _; by apply btree_get_remove_eq|].
      intros Hsoft%should_soft_delete_spec. by rewrite hard_not_soft in Hsoft.
  - destruct (match sink with Some s => _ | None => _ end) as [count|e] eqn:Earchive; [|by injection Hs as <- <-].
    destruct (Memory.soft_delete now (meta_id m) inner) as [[inner1 m1]|e] eqn:Es; [|by injection Hs as <- <-].
    injection Hs as <- <-. unfold Memory.soft_delete, not_found in Es.
    destruct (BTree.get (meta_id m) (sessions inner)) as [r1|] eqn:E1; [|done]. cbn [ok_or_raise mbind fallible_bind] in Es.
    pose proof (Hswept _ _ Hget) as Hr1. unfold swept in Hr1. rewrite E1 in Hr1.
    destruct (decide (meta_status (meta r1) = SessionStatus.SoftDeleted)) as [Hst|Hst].
    { rewrite Hst in Es. injection Es as <- <-. split_and!; [done| |auto]. split; [|intros _; by exists r1].
      intros Hx%should_hard_delete_spec. congruence. }
    assert (inner1 = set_session (meta_id m) (mkSessionRecord (meta_soft_deleted now (meta r1)) (events r1) (next_event_id r1)) inner)
      as -> by (destruct (meta_status (meta r1)); try done; by injection Es as <- <-).
    assert (r1 = r) as -> by (destruct Hr1 as [|(_ & _ & ? & _)]; done).
    eapply (between_update _ inner _ m r); cbn [set_session sessions]; auto using btree_insert_sorted.
    + intros id. case_decide as Hid; [subst id; apply btree_get_insert_eq|by apply btree_get_insert_ne].
    + unfold swept. cbn [set_session sessions]. rewrite btree_get_insert_eq, Hm. right.
      split_and!; [by apply should_soft_delete_spec|done..|]. intros s -> Harchive%should_archive_spec.
      rewrite Harchive in Earchive. apply fallible_bind_returned in Earchive as (es & Hes & Earchive).
      apply fallible_bind_returned in Earchive as ([] & Harch & _). exists es. split; [|done].
      rewrite <- Hes. apply read_all_get. by rewrite E1.
    + split; cbn [set_session sessions]; [intros Hx%should_hard_delete_spec; congruence|].
      intros _. rewrite btree_get_insert_eq. eexists. by split.
  - injection Hs as <- <-. split_and!; [done| |auto]. split;
      [intros Hx%should_hard_delete_spec|intros Hx%should_soft_delete_spec]; congruence.
Qed.

Lemma sweep_sessions_between start now ms report inner inner' result :
  between start inner → Forall (listed start) ms → sweep_all now ms report inner = (inner', result) →
  between start inner' ∧
  match result with
  | Raised _ => True
  | Returned _ => ∀ m, listed start m → m ∈ ms ∨ settled m inner → settled m inner'
  end.
Proof.
  intros Hb Hms. revert now report inner Hb.
  induction Hms as [|m ms Hm Hms IH]; intros now report inner Hb Hs; cbn [sweep_sessions] in Hs.
  { injection Hs as <- <-. split; [done|]. intros m _ [Hin%not_elem_of_nil|Hold]; done. }
  destruct (sweep_one (now 0) m report inner) as [inner1 [report1|e]] eqn:E1;
    pose proof (sweep_session_between _ _ _ _ _ _ _ Hb Hm E1) as Hone.
  - destruct Hone as (Hb1 & Hsettled & Hkeep). destruct (IH _ _ _ Hb1 Hs) as [Hb' Hdone]. split; [done|].
    destruct result as [report'|]; [|done]. intros m' Hm' [Hin|Hold]; apply Hdone; auto.
    apply elem_of_cons in Hin as [->|Hin]; auto.
  - injection Hs as <- <-. by rewrite Hone.
Qed.

Lemma insert_by_elem {A} (cmp : A → A → comparison) x y l : y ∈ insert_by cmp x l ↔ y = x ∨ y ∈ l.
Proof. induction l as [|z l IH]; cbn; [set_solver|]. case_match; set_solver. Qed.

Lemma sort_by_elem {A} (cmp : A → A → comparison) y l : y ∈ sort_by cmp l ↔ y ∈ l.
Proof. unfold sort_by. induction l as [|x l IH]; cbn; [done|]. rewrite insert_by_elem, IH. set_solver. Qed.

Context `{!FlowLaws, !SigningLaws}.

(** What [list] returns is metadata of the store's sessions. *)
Lemma list_sessions_listed f start :
  reachable hooks start → Forall (listed start) (Memory.list_sessions f start).
Proof.
  intros Hr. pose proof (reachable_sorted hooks start Hr) as Hsorted. pose proof (reachable_ok hooks start Hr) as [Hok _].
  assert (∀ m, m ∈ map (λ s : string * SessionRecord, meta s.2) (sessions start) → listed start m) as Hall.
  { intros m ([id r] & -> & Hin)%list_elem_of_fmap. cbn. apply btree_get_sorted_in in Hin as Hget; [|done].
    exists r. by rewrite (ok_id _ _ _ (get_ok hooks _ _ _ Hok Hget)). }
  assert (∀ l, Forall (listed start) l → Forall (listed start) (default l (c ← filter_cursor f; after_cursor c l))) as Hcursor.
  { intros l Hl. destruct (filter_cursor f) as [c|]; [|done]. cbn. induction Hl as [|m l Hm Hl IH]; cbn; [constructor|].
    destruct (String.eqb (meta_id m) c); [done|]. destruct (after_cursor c l); [done|]. by constructor. }
  unfold Memory.list_sessions. apply Forall_take.
  match goal with |- Forall _ (match filter_cursor f with Some c => default ?l _ | None => _ end) =>
    assert (Forall (listed start) l) as Hl end.
  { apply Forall_forall. intros m Hm. rewrite sort_by_elem in Hm. apply list_elem_of_filter in Hm as [_ Hm]. by apply Hall. }
  apply Hcursor in Hl. by destruct (filter_cursor f).
Qed.

(** Small stores are listed in full. *)
Lemma list_sessions_full start id r :
  reachable hooks start → length (sessions start) ≤ 1000 → BTree.get id (sessions start) = Some r →
  meta r ∈ Memory.list_sessions default_filter start.
Proof.
  intros _ Hlen Hget%btree_get_in. unfold Memory.list_sessions. cbn [filter_limit filter_cursor default_filter default from_option].
  rewrite N.min_id. unfold take_n. change (N.to_nat MAX_READ_BATCH) with 1000. rewrite take_ge.
  - rewrite sort_by_elem. apply list_elem_of_filter. split; [done|]. by apply (list_elem_of_fmap_2 (λ s, meta s.2) _ _ Hget).
  - assert (∀ A (cmp : A → A → comparison) x l, length (insert_by cmp x l) = S (length l)) as Hins
      by (intros A cmp x l; induction l; cbn; [done|]; case_match; cbn; lia).
    assert (∀ A (cmp : A → A → comparison) l, length (sort_by cmp l) = length l) as ->
      by (intros A cmp l; unfold sort_by; induction l; cbn; [done|]; rewrite Hins; lia).
    etransitivity; [apply length_filter|]. by rewrite length_map.
Qed.

(** C27: A retention sweep destroys nothing early and nothing unannounced. Whether
    it completes or stops at an error, every session of the store is untouched,
    or was due for soft deletion and is soft-deleted with its journal intact,
    which the archive accepted first where the session is archivable, or is gone
    because its soft deletion outlived the grace window and, where there is a
    sink, the sink accepted its tombstone; nothing appears, and snapshots and
    import receipts stay. A sweep that completes has done all that was due
    in the page it lists, which is the whole store up to a thousand sessions. *)
Theorem sweep_respects_retention start now inner' result :
  reachable hooks start → sweep_retention hooks sink policy now_ms now_text now start = (inner', result) →
  (∀ id r, BTree.get id (sessions start) = Some r → swept start id r inner') ∧
  (∀ id, BTree.get id (sessions start) = None → BTree.get id (sessions inner') = None) ∧
  snapshots inner' = snapshots start ∧ imports inner' = imports start ∧
  match result with
  | Raised _ => True
  | Returned _ =>
      (∀ m, m ∈ Memory.list_sessions default_filter start → settled m inner') ∧
      (length (sessions start) ≤ 1000 → ∀ id r, BTree.get id (sessions start) = Some r → settled (meta r) inner')
  end.
Proof.
  intros Hr Hs. pose proof (list_sessions_listed default_filter start Hr) as Hlisted.
  assert (between start start) as Hb.
  { split; [by eapply reachable_sorted| |done|done]. intros id r Hget. unfold swept. rewrite Hget. by left. }
  apply (sweep_sessions_between start) in Hs as [[_ Hswept Hnone [Hsn Him]] Hdone]; [|done|done].
  split_and!; [done..|]. destruct result as [report|]; [|done].
  assert (∀ m, m ∈ Memory.list_sessions default_filter start → settled m inner') as Hall.
  { intros m Hm. apply Hdone; [|by left]. rewrite Forall_forall in Hlisted. by apply Hlisted. }
  split; [done|]. intros Hlen id r Hget. by eapply Hall, list_sessions_full.
Qed.
End sweeping.

(** ** A sweep, for examples *)

Section samples.
#[local] Existing Instance sample_json.
#[local] Existing Instance sample_crates.
#[local] Existing Instance sample_signing.

Definition sample_sink : ArchiveSink := mkArchiveSink (λ _ _, Returned tt) (λ _, Returned tt).
Definition sample_policy_windows : RetentionPolicy := mkRetentionPolicy (Some 1%N) None 2.
Definition sample_before : Inner :=
  run default_hooks [(λ _, (0, "now"%string)%Z, "uuid"%string, OpSoftDelete "b")] sample_plain_store.

Lemma sample_before_reachable : reachable default_hooks sample_before.
Proof.
  apply reachable_run; [exact sample_plain_reachable| |vm_compute; reflexivity].
  apply Forall_cons; split; [by left|constructor].
Qed.

(** After two and a half seconds ["a"] is old enough to be soft-deleted and ["b"]
    has been soft-deleted long enough to go. *)
Lemma sweep_respects_retention_witness :
  ∃ a inner' report, BTree.get "a" (sessions sample_before) = Some a ∧
    sweep_retention default_hooks (Some sample_sink) sample_policy_windows 2500 "later" (λ _, (2500, "later"%string)%Z) sample_before
      = (inner', Returned report) ∧
    hard_deleted report = 1%N ∧ BTree.get "b" (sessions inner') = None ∧
    swept default_hooks (Some sample_sink) sample_policy_windows 2500 "later" sample_before "a" a inner'.
Proof.
  set (a := default (fresh (meta_for_create (0%Z, ""%string) "" (sample_create ""))) (BTree.get "a" (sessions sample_before))).
  set (swept_store := sweep_retention default_hooks (Some sample_sink) sample_policy_windows 2500 "later"
    (λ _, (2500, "later"%string)%Z) sample_before).
  assert (BTree.get "a" (sessions sample_before) = Some a) as Ha by (vm_compute; reflexivity).
  assert (swept_store = (swept_store.1, Returned (mkSweepReport 1 1 0 1))) as Hs by (vm_compute; reflexivity).
  exists a, swept_store.1, (mkSweepReport 1 1 0 1). refine (conj Ha (conj Hs (conj eq_refl (conj _ _)))).
  - vm_compute. reflexivity.
  - exact (proj1 (@sweep_respects_retention sample_json sample_crates sample_signing default_hooks (Some sample_sink)
      sample_policy_windows 2500 "later" sample_laws sample_signing_laws sample_before (λ _, (2500, "later"%string)%Z)
      swept_store.1 _ sample_before_reachable Hs) "a"%string a Ha).
Defined.
End samples.
