(* ===== verification/Tasks.v ===== *)
(** * Tasks ([harn-session-store/src/task.rs], [memory_tasks.rs], [lease.rs])

    Records of the tasks an API accepted, the state machine of their status, the
    control events that log it, retry bindings, and the projection that hides
    old messages from a reader without deleting them; then the part of [Inner]
    that [TaskStore for MemorySessionStore] reads and writes ([Inner] of
    SessionStore is the other part, and no operation touches both). An operation
    runs under the store's lock: it is a computation on the tables that keeps
    what it has changed when it fails, as a mutable guard does. *)

From Stdlib Require Import Strings.String.
From S2P Require Import Prelude BTree Fallible Ordered Atom Text SessionEvent SessionSigning SessionHooks SessionStore.

(** ** Status *)

Module TaskStatus.
Inductive TaskStatus :=
  | Submitted
  | Working
  | InputRequired
  | AuthRequired
  | Completed
  | Failed
  | Canceled.

#[global] Instance task_status_eq_dec : EqDecision TaskStatus.
Proof. solve_decision. Defined.

(** [TaskStatus::is_active] *)
Definition is_active (s : TaskStatus) : bool :=
  match s with Submitted | Working | InputRequired | AuthRequired => true | _ => false end.

(** [TaskStatus::as_str], also the serialised form *)
Definition as_str (s : TaskStatus) : string :=
  match s with
  | Submitted => "SUBMITTED"
  | Working => "WORKING"
  | InputRequired => "INPUT_REQUIRED"
  | AuthRequired => "AUTH_REQUIRED"
  | Completed => "COMPLETED"
  | Failed => "FAILED"
  | Canceled => "CANCELED"
  end.

(** [TaskStatus::event] *)
Definition event (s : TaskStatus) : string :=
  match s with
  | Submitted => "task.submitted"
  | Working => "task.resumed"
  | InputRequired => "task.input_required"
  | AuthRequired => "task.auth_required"
  | Completed => "task.completed"
  | Failed => "task.failed"
  | Canceled => "task.canceled"
  end.

(** The transitions [TaskRecord::transition] allows *)
Definition allowed (from to : TaskStatus) : bool :=
  match from with
  | Submitted => match to with Working | Failed | Canceled => true | _ => false end
  | Working =>
      match to with InputRequired | AuthRequired | Completed | Failed | Canceled => true | _ => false end
  | InputRequired | AuthRequired => match to with Working | Failed | Canceled => true | _ => false end
  | Completed | Failed | Canceled => false
  end.
End TaskStatus.
Notation TaskStatus := TaskStatus.TaskStatus.

(** [TaskFailure] *)
Record TaskFailure := mkTaskFailure {
  failure_code : string;
  failure_message : string
}.

(** [StoredTaskRetry] *)
Record StoredTaskRetry := mkStoredTaskRetry {
  retry_binding_digest : string;
  retry_request_fingerprint : string
}.

(** [TaskBinding] *)
Record TaskBinding := mkTaskBinding {
  binding_task_id : string;
  binding_request_fingerprint : string;
  binding_expires_at_ms : Z
}.

Module RetryDecision.
Inductive RetryDecision :=
  | Create
  | Reuse
  | Conflict.
End RetryDecision.
Notation RetryDecision := RetryDecision.RetryDecision.

(** [TaskUpdate] *)
Record TaskUpdate := mkTaskUpdate {
  update_status : TaskStatus;
  update_at : string;
  update_failure : option TaskFailure
}.

Definition TASK_RETRY_RETENTION_MS : Z := 24 * 60 * 60 * 1000.

(** ** The projection of messages *)

(** [TaskMessageProjection] *)
Record TaskMessageProjection := mkProjection {
  projection_through : option string;
  projection_retained : oset string
}.

Definition default_projection : TaskMessageProjection := mkProjection None [].

(** [<] and [<=] on [str] *)
Definition str_ltb (a b : string) : bool := match String.compare a b with Lt => true | _ => false end.
Definition str_leb (a b : string) : bool := match String.compare a b with Gt => false | _ => true end.

(** [TaskMessageProjection::includes] *)
Definition includes (p : TaskMessageProjection) (id : string) : bool :=
  from_option (λ through, str_ltb through id) true (projection_through p) || contains id (projection_retained p).

Section tasks.
Context `{SerdeJson, SigningCrates}.

(** ** Data *)

(** [TaskSessionDescriptor] *)
Record TaskSessionDescriptor := mkTaskSession {
  ts_id : string;
  ts_workspace_id : string;
  ts_workspace_root : string;
  ts_mode_id : string;
  ts_model_policy : option Value;
  ts_metadata : Value;
  ts_persona_id : option string;
  ts_root_session_id : option string;
  ts_parent_session_id : option string;
  ts_branch_id : option string;
  ts_created_at : string;
  ts_updated_at : string;
  ts_summary : option string;
  ts_status : SessionStatus
}.

(** [TaskSessionUpdate] *)
Record TaskSessionUpdate := mkTaskSessionUpdate {
  tsu_metadata : option Value;
  tsu_summary : option (option string);
  tsu_model_policy : option (option Value);
  tsu_status : option SessionStatus;
  tsu_updated_at : string
}.

(** [TaskRecord] *)
Record TaskRecord := mkTaskRecord {
  task_id : string;
  task_session_id : string;
  task_workspace_id : string;
  task_created_at : string;
  task_updated_at : string;
  task_status : TaskStatus;
  task_input : Value;
  task_metadata : Value;
  task_created_by : string;
  task_persona_id : option string;
  task_branch_id : option string;
  task_parent_task_id : option string;
  task_assigned_agent_id : option string;
  task_receipt_id : option string;
  task_outcome_id : option string;
  task_quota_id : option string;
  task_started_at : option string;
  task_completed_at : option string;
  task_canceled_at : option string;
  task_failure : option TaskFailure
}.

(** [NewTaskControlEvent] *)
Record NewTaskControlEvent := mkNewControlEvent {
  new_event : string;
  new_payload : Value
}.

(** [TaskControlEvent] *)
Record TaskControlEvent := mkControlEvent {
  control_id : string;
  control_task_id : string;
  control_session_id : string;
  control_created_at : string;
  control_event : string;
  control_payload : Value
}.

(** [TaskMessageView] *)
Record TaskMessageView := mkMessageView {
  view_events : list TaskControlEvent;
  view_through_event_id : option string
}.

(** [AdmitTask] *)
Record AdmitTask := mkAdmitTask {
  admit_record : TaskRecord;
  admit_session : TaskSessionDescriptor;
  admit_retry : option StoredTaskRetry;
  admit_initial_events : list NewTaskControlEvent;
  admit_now_ms : Z
}.

Definition is_object (v : Value) : bool := match v with Value.Object _ => true | _ => false end.

(** [Value::as_str] *)
Definition json_as_str (v : Value) : option string := match v with Value.String s => Some s | _ => None end.

(** ** Sessions of tasks *)

(** [TaskSessionUpdate::apply] *)
Definition apply_session_update (u : TaskSessionUpdate) (s : TaskSessionDescriptor) : StoreResult TaskSessionDescriptor :=
  let malformed o := from_option (λ v, negb (is_object v)) false o in
  _ ← raise_if
        (String.eqb (tsu_updated_at u) "" || malformed (tsu_metadata u) || malformed (mjoin (tsu_model_policy u)) ||
         negb (bool_decide (ts_status s = SessionStatus.Open)) &&
         bool_decide (tsu_status u = Some SessionStatus.Open))
        (StoreError.InvalidInput "invalid task session update");
  Returned (mkTaskSession (ts_id s) (ts_workspace_id s) (ts_workspace_root s) (ts_mode_id s)
    (default (ts_model_policy s) (tsu_model_policy u)) (default (ts_metadata s) (tsu_metadata u)) (ts_persona_id s)
    (ts_root_session_id s) (ts_parent_session_id s) (ts_branch_id s) (ts_created_at s) (tsu_updated_at u)
    (default (ts_summary s) (tsu_summary u)) (default (ts_status s) (tsu_status u))).

(** [TaskSessionDescriptor::redacted] *)
Definition session_redacted (hooks : StoreHooks) (s : TaskSessionDescriptor) : TaskSessionDescriptor :=
  match redaction hooks with
  | None => s
  | Some policy =>
      mkTaskSession (ts_id s) (ts_workspace_id s) (ts_workspace_root s) (ts_mode_id s)
        (redact_json policy <$> ts_model_policy s) (redact_json policy (ts_metadata s)) (ts_persona_id s)
        (ts_root_session_id s) (ts_parent_session_id s) (ts_branch_id s) (ts_created_at s) (ts_updated_at s)
        (summary ← ts_summary s; json_as_str (redact_json policy (Value.String summary))) (ts_status s)
  end.

(** ** Task records *)

(** [TaskRecord::redacted] *)
Definition task_redacted (hooks : StoreHooks) (t : TaskRecord) : StoreResult TaskRecord :=
  match redaction hooks with
  | None => Returned t
  | Some policy =>
      failure ← match task_failure t with
        | None => Returned None
        | Some failure =>
            message ← ok_or_raise (json_as_str (redact_json policy (Value.String (failure_message failure))))
                        (StoreError.Backend "task redactor changed failure message shape");
            Returned (Some (mkTaskFailure (failure_code failure) message))
        end;
      Returned (mkTaskRecord (task_id t) (task_session_id t) (task_workspace_id t) (task_created_at t)
        (task_updated_at t) (task_status t) (redact_json policy (task_input t)) (redact_json policy (task_metadata t))
        (task_created_by t) (task_persona_id t) (task_branch_id t) (task_parent_task_id t)
        (task_assigned_agent_id t) (task_receipt_id t) (task_outcome_id t) (task_quota_id t) (task_started_at t)
        (task_completed_at t) (task_canceled_at t) failure)
  end.

(** [TaskRecord::transition]: whether it happened, and the record after it *)
Definition transition (t : TaskRecord) (u : TaskUpdate) : bool * TaskRecord :=
  let status := update_status u in
  if negb (TaskStatus.allowed (task_status t) status) then (false, t)
  else
    let now_if s o := if decide (status = s) then Some (update_at u) else o in
    (true,
     mkTaskRecord (task_id t) (task_session_id t) (task_workspace_id t) (task_created_at t) (update_at u) status
       (task_input t) (task_metadata t) (task_created_by t) (task_persona_id t) (task_branch_id t)
       (task_parent_task_id t) (task_assigned_agent_id t) (task_receipt_id t)
       (if decide (status = TaskStatus.Completed) then Some ("outcome_" ++ task_id t)%string else task_outcome_id t)
       (task_quota_id t)
       (match task_started_at t with Some at_ => Some at_ | None => now_if TaskStatus.Working None end)
       (now_if TaskStatus.Completed (task_completed_at t))
       (now_if TaskStatus.Canceled (task_canceled_at t))
       (if decide (status = TaskStatus.Failed) then update_failure u else task_failure t)).

(** [TaskRecord::resource]: the serialised record, with [object] *)
Definition resource (t : TaskRecord) : Value :=
  let text o := json_option Value.String o in
  Value.Object
    [("id", Value.String (task_id t)); ("session_id", Value.String (task_session_id t));
     ("workspace_id", Value.String (task_workspace_id t)); ("created_at", Value.String (task_created_at t));
     ("updated_at", Value.String (task_updated_at t)); ("status", Value.String (TaskStatus.as_str (task_status t)));
     ("input", task_input t); ("metadata", task_metadata t); ("created_by", Value.String (task_created_by t));
     ("persona_id", text (task_persona_id t)); ("branch_id", text (task_branch_id t));
     ("parent_task_id", text (task_parent_task_id t)); ("assigned_agent_id", text (task_assigned_agent_id t));
     ("receipt_id", text (task_receipt_id t)); ("outcome_id", text (task_outcome_id t));
     ("quota_id", text (task_quota_id t)); ("started_at", text (task_started_at t));
     ("completed_at", text (task_completed_at t)); ("canceled_at", text (task_canceled_at t));
     ("failure", json_option (λ f, Value.Object
        [("code", Value.String (failure_code f)); ("message", Value.String (failure_message f))]) (task_failure t));
     ("object", Value.String "task")]%string.

(** [status_event] *)
Definition status_event (t : TaskRecord) (previous : option TaskStatus) : NewTaskControlEvent :=
  mkNewControlEvent
    (if bool_decide (task_status t = TaskStatus.Working) &&
        from_option (λ s, bool_decide (s = TaskStatus.Submitted)) true previous
     then "task.started" else TaskStatus.event (task_status t))
    (resource t).

(** ** Control events *)

(** [TaskControlEvent::redacted] *)
Definition control_redacted (hooks : StoreHooks) (e : TaskControlEvent) : TaskControlEvent :=
  match redaction hooks with
  | None => e
  | Some policy =>
      mkControlEvent (control_id e) (control_task_id e) (control_session_id e) (control_created_at e) (control_event e)
        (redact_json policy (control_payload e))
  end.

(** [TaskControlEvent::new] *)
Definition new_control_event (hooks : StoreHooks) (now : string) (id : string) (t : TaskRecord)
    (e : NewTaskControlEvent) : TaskControlEvent :=
  control_redacted hooks (mkControlEvent id (task_id t) (task_session_id t) now (new_event e) (new_payload e)).

(** [TaskMessageProjection::view] *)
Definition message_view (p : TaskMessageProjection) (es : list TaskControlEvent) : TaskMessageView :=
  mkMessageView (filter (λ e, includes p (control_id e) = true) es) (control_id <$> last es).

(** [TaskMessageProjection::retain] *)
Definition retain (p : TaskMessageProjection) (es : list TaskControlEvent) (through : option string)
    (retained : list string) : StoreResult TaskMessageProjection :=
  match through with
  | None => Returned p
  | Some through =>
      _ ← raise_if (negb (existsb (λ e, String.eqb (control_id e) through) es))
            (StoreError.InvalidInput "unknown task message snapshot");
      let watermark := from_option (λ old, if str_ltb through old then old else through) through (projection_through p) in
      let visible := filter (λ e,
        str_leb (control_id e) watermark && includes p (control_id e) &&
        (str_ltb through (control_id e) || contains (control_id e) (to_set retained)) = true) es in
      Returned (mkProjection (Some watermark) (to_set (map control_id visible)))
  end.

(** ** Admission *)

(** [is_digest] *)
Definition is_digest (value : string) : bool :=
  (String.length value =? 64)%nat &&
  forallb (λ b, let n := b2n b in (48 <=? n) && (n <=? 57) || (97 <=? n) && (n <=? 102))%N (as_bytes value).

(** [AdmitTask::validate] *)
Definition validate_admission (a : AdmitTask) : StoreResult unit :=
  let blank s := String.eqb (trim_text s) "" in
  let t := admit_record a in
  let s := admit_session a in
  _ ← raise_if
        (existsb blank [task_id t; task_session_id t; task_workspace_id t; ts_workspace_root s] ||
         negb (String.eqb (ts_id s) (task_session_id t)) ||
         negb (String.eqb (ts_workspace_id s) (task_workspace_id t)) ||
         negb (TaskStatus.is_active (task_status t)))
        (StoreError.InvalidInput "invalid task admission identity or state");
  raise_if
    (from_option (λ retry, negb (is_digest (retry_binding_digest retry)) ||
                           negb (is_digest (retry_request_fingerprint retry))) false (admit_retry a))
    (StoreError.InvalidInput "invalid task retry digest").

(** [retry_decision] *)
Definition retry_decision (b : TaskBinding) (t : TaskRecord) (fingerprint : string) (now_ms : Z) : RetryDecision :=
  if (binding_expires_at_ms b <=? now_ms)%Z && negb (TaskStatus.is_active (task_status t)) then RetryDecision.Create
  else if String.eqb (binding_request_fingerprint b) fingerprint then RetryDecision.Reuse
  else RetryDecision.Conflict.
End tasks.

(** ** Identifiers of control events *)

(** [n] digits in lower case, as [{:016x}] writes a [u64] for [n = 16] *)
Fixpoint hex_fixed (n : nat) (w : N) : string :=
  match n with
  | O => ""
  | S n => String.String (Ascii.ascii_of_byte (hex_digit ((w / 16 ^ N.of_nat n) mod 16))) (hex_fixed n w)
  end.

Definition event_name (n : N) : string := ("event_" ++ hex_fixed 16 n)%string.

(** [allocate_id] *)
Definition allocate_id (sequence : N) : StoreResult (string * N) :=
  let next := (sequence + 1)%N in
  if (next <=? U64_MAX)%N && (Z.of_N next <? I64_MAX)%Z then Returned (event_name next, next)
  else Raised (StoreError.Backend "control event sequence exhausted").

Section tables.
Context `{SerdeJson, SigningCrates}.

(** [Inner], the tables of tasks *)
Record TaskTables := mkTaskTables {
  tasks : btree TaskRecord;
  task_sessions : btree TaskSessionDescriptor;
  task_bindings : btree TaskBinding;
  task_log : list TaskControlEvent;
  task_message_projections : btree TaskMessageProjection;
  control_event_seq : N
}.

Definition no_tasks : TaskTables := mkTaskTables [] [] [] [] [] 0.

(** A computation under the lock. *)
Definition locked (A : Type) : Type := TaskTables → TaskTables * StoreResult A.

#[export] Instance locked_ret : MRet locked := λ A a s, (s, Returned a).
#[export] Instance locked_bind : MBind locked := λ A B f m s,
  match m s with (s, Returned a) => f a s | (s, Raised e) => (s, Raised e) end.

Definition gets {A} (f : TaskTables → A) : locked A := λ s, (s, Returned (f s)).
Definition modify (f : TaskTables → TaskTables) : locked unit := λ s, (f s, Returned tt).
Definition raise {A} (e : StoreError) : locked A := λ s, (s, Raised e).
Definition lift {A} (r : StoreResult A) : locked A := λ s, (s, r).

Definition put_task (t : TaskRecord) (s : TaskTables) : TaskTables :=
  mkTaskTables (BTree.insert (task_id t) t (tasks s)) (task_sessions s) (task_bindings s) (task_log s)
    (task_message_projections s) (control_event_seq s).
Definition put_session (id : string) (d : TaskSessionDescriptor) (s : TaskTables) : TaskTables :=
  mkTaskTables (tasks s) (BTree.insert id d (task_sessions s)) (task_bindings s) (task_log s)
    (task_message_projections s) (control_event_seq s).
Definition put_binding (digest : string) (b : TaskBinding) (s : TaskTables) : TaskTables :=
  mkTaskTables (tasks s) (task_sessions s) (BTree.insert digest b (task_bindings s)) (task_log s)
    (task_message_projections s) (control_event_seq s).
Definition put_events (es : list TaskControlEvent) (s : TaskTables) : TaskTables :=
  mkTaskTables (tasks s) (task_sessions s) (task_bindings s) (task_log s ++ es)
    (task_message_projections s) (control_event_seq s).
Definition put_projection (id : string) (p : TaskMessageProjection) (s : TaskTables) : TaskTables :=
  mkTaskTables (tasks s) (task_sessions s) (task_bindings s) (task_log s)
    (BTree.insert id p (task_message_projections s)) (control_event_seq s).
Definition put_sequence (n : N) (s : TaskTables) : TaskTables :=
  mkTaskTables (tasks s) (task_sessions s) (task_bindings s) (task_log s) (task_message_projections s) n.

(** [.get(id).cloned().ok_or_else(|| StoreError::NotFound(..))] *)
Definition found {A} (id : string) (o : option A) : locked A := lift (ok_or_raise o (StoreError.NotFound id)).

(** [next_id] *)
Definition next_id : locked string :=
  sequence ← gets control_event_seq;
  allocated ← lift (allocate_id sequence);
  _ ← modify (put_sequence allocated.2);
  mret allocated.1.

Section operations.
Variable hooks : StoreHooks.

Definition next_control_event_id : locked string := next_id.

(** The events of an admission, in order, each with a fresh identifier. *)
Fixpoint new_events (now : nat → string) (t : TaskRecord) (es : list NewTaskControlEvent) : locked (list TaskControlEvent) :=
  match es with
  | [] => mret []
  | e :: es =>
      id ← next_id;
      rest ← new_events (λ i, now (S i)) t es;
      mret (new_control_event hooks (now O) id t e :: rest)
  end.

Inductive TaskAdmission :=
  | Created (t : TaskRecord)
  | Reused (t : TaskRecord)
  | Conflicting.

(** The retry a stored binding decides, before anything is admitted. *)
Definition admission_retry (a : AdmitTask) : locked (option TaskAdmission) :=
  match admit_retry a with
  | None => mret None
  | Some retry =>
      bindings ← gets task_bindings;
      match BTree.get (retry_binding_digest retry) bindings with
      | None => mret None
      | Some binding =>
          records ← gets tasks;
          t ← lift (ok_or_raise (BTree.get (binding_task_id binding) records)
                (StoreError.Backend "task retry binding has no task"));
          match retry_decision binding t (retry_request_fingerprint retry) (admit_now_ms a) with
          | RetryDecision.Reuse => t ← lift (task_redacted hooks t); mret (Some (Reused t))
          | RetryDecision.Conflict => mret (Some Conflicting)
          | RetryDecision.Create => mret None
          end
      end
  end.

Definition saturating_add_i64 (a b : Z) : Z := Z.max I64_MIN (Z.min I64_MAX (a + b)).

(** [admit_task] *)
Definition admit_task (now : nat → string) (a : AdmitTask) : locked TaskAdmission :=
  _ ← lift (validate_admission a);
  decided ← admission_retry a;
  match decided with
  | Some outcome => mret outcome
  | None =>
      s ← gets id;
      _ ← lift (raise_if (BTree.contains_key (task_id (admit_record a)) (tasks s))
            (StoreError.AlreadyExists (task_id (admit_record a))));
      _ ← lift (raise_if
            (negb (bool_decide (ts_status (default (admit_session a)
               (BTree.get (ts_id (admit_session a)) (task_sessions s))) = SessionStatus.Open)))
            (StoreError.Conflict "session is closed"));
      t ← lift (task_redacted hooks (admit_record a));
      let session := session_redacted hooks (admit_session a) in
      es ← new_events now t (status_event t None :: admit_initial_events a);
      _ ← modify (λ s, if BTree.contains_key (ts_id session) (task_sessions s) then s
                       else put_session (ts_id session) session s);
      _ ← modify (put_task t);
      _ ← modify (put_events es);
      _ ← match admit_retry a with
          | None => mret tt
          | Some retry =>
              modify (put_binding (retry_binding_digest retry)
                (mkTaskBinding (task_id t) (retry_request_fingerprint retry)
                   (saturating_add_i64 (admit_now_ms a) TASK_RETRY_RETENTION_MS)))
          end;
      mret (Created t)
  end.

(** [get_task] *)
Definition get_task (id : string) : locked TaskRecord :=
  records ← gets tasks;
  t ← found id (BTree.get id records);
  lift (task_redacted hooks t).

(** [.collect::<StoreResult<Vec<_>>>()] *)
Fixpoint redact_tasks (ts : list TaskRecord) : StoreResult (list TaskRecord) :=
  match ts with
  | [] => Returned []
  | t :: ts => t ← task_redacted hooks t; ts ← redact_tasks ts; Returned (t :: ts)
  end.

(** [Option::is_none_or(|id| .. == id)] *)
Definition none_or_is (o : option string) (x : string) : bool := from_option (String.eqb x) true o.

(** [list_tasks] *)
Definition list_tasks (session_id workspace_id : option string) : locked (list TaskRecord) :=
  records ← gets tasks;
  lift (redact_tasks (filter (λ t,
    none_or_is session_id (task_session_id t) && none_or_is workspace_id (task_workspace_id t) = true)
    (BTree.values records))).

(** [get_task_session] *)
Definition get_task_session (id : string) : locked TaskSessionDescriptor :=
  descriptors ← gets task_sessions;
  d ← found id (BTree.get id descriptors);
  mret (session_redacted hooks d).

(** [list_task_sessions] *)
Definition list_task_sessions : locked (list TaskSessionDescriptor) :=
  descriptors ← gets task_sessions;
  mret (map (session_redacted hooks) (BTree.values descriptors)).

(** The tasks a closing session cancels, each with its event; nothing is stored
    before all are computed. *)
Fixpoint cancel_all (now : nat → string) (at_ : string) (sequence : N) (ts : list TaskRecord)
    : StoreResult (list TaskRecord * list TaskControlEvent * N) :=
  match ts with
  | [] => Returned ([], [], sequence)
  | t :: ts =>
      let canceled := (transition t (mkTaskUpdate TaskStatus.Canceled at_ None)).2 in
      canceled ← task_redacted hooks canceled;
      allocated ← allocate_id sequence;
      let event := new_control_event hooks (now O) allocated.1 canceled (status_event canceled (Some (task_status t))) in
      rest ← cancel_all (λ i, now (S i)) at_ allocated.2 ts;
      let '(records, es, sequence) := rest in
      Returned (canceled :: records, event :: es, sequence)
  end.

(** [update_task_session] *)
Definition update_task_session (now : nat → string) (session_id : string) (u : TaskSessionUpdate)
    : locked (TaskSessionDescriptor * list TaskControlEvent) :=
  s ← gets id;
  d ← found session_id (BTree.get session_id (task_sessions s));
  d ← lift (apply_session_update u d);
  let d := session_redacted hooks d in
  let active := filter (λ t,
    String.eqb (task_session_id t) session_id && TaskStatus.is_active (task_status t) = true)
    (BTree.values (tasks s)) in
  canceled ← lift (cancel_all now (ts_updated_at d) (control_event_seq s)
    (if decide (ts_status d = SessionStatus.Closed) then active else []));
  let '(records, es, sequence) := canceled in
  _ ← modify (put_sequence sequence);
  _ ← modify (λ s, fold_left (λ s t, put_task t s) records s);
  _ ← modify (put_events es);
  _ ← modify (put_session session_id d);
  mret (d, es).

(** [TaskChange] *)
Record TaskChange := mkTaskChange {
  change_task : TaskRecord;
  change_previous_status : TaskStatus;
  change_event : option TaskControlEvent
}.

(** [update_task] *)
Definition update_task (now : string) (id : string) (u : TaskUpdate) : locked TaskChange :=
  records ← gets tasks;
  t ← found id (BTree.get id records);
  let previous := task_status t in
  let '(changed, t) := transition t u in
  if negb changed then
    t ← lift (task_redacted hooks t);
    mret (mkTaskChange t previous None)
  else
    t ← lift (task_redacted hooks t);
    event_id ← next_id;
    let event := new_control_event hooks now event_id t (status_event t (Some previous)) in
    _ ← modify (put_events [event]);
    _ ← modify (put_task t);
    mret (mkTaskChange t previous (Some event)).

(** [append_task_event] *)
Definition append_task_event (now : string) (id : string) (e : NewTaskControlEvent) : locked TaskControlEvent :=
  records ← gets tasks;
  t ← found id (BTree.get id records);
  event_id ← next_id;
  let event := new_control_event hooks now event_id t e in
  _ ← modify (put_events [event]);
  mret event.

(** [task_events] *)
Definition task_events (task session : option string) : locked (list TaskControlEvent) :=
  es ← gets task_log;
  mret (map (control_redacted hooks) (filter (λ e,
    none_or_is task (control_task_id e) && none_or_is session (control_session_id e) = true) es)).

Definition MESSAGE_CREATED : string := "message.created".

(** [append_task_input] *)
Definition append_task_input (now : string) (id session_id : string) (message : Value) : locked TaskControlEvent :=
  records ← gets tasks;
  t ← found id (BTree.get id records);
  _ ← lift (raise_if (negb (String.eqb (task_session_id t) session_id) || negb (TaskStatus.is_active (task_status t)))
        (StoreError.InvalidInput "task cannot accept this session input"));
  event_id ← next_id;
  let event := new_control_event hooks now event_id t (mkNewControlEvent MESSAGE_CREATED message) in
  _ ← modify (put_events [event]);
  mret event.

(** The messages of a session in the log *)
Definition messages (session_id : string) (es : list TaskControlEvent) : list TaskControlEvent :=
  filter (λ e, String.eqb (control_session_id e) session_id && String.eqb (control_event e) MESSAGE_CREATED = true) es.

(** [task_message_view] *)
Definition task_message_view (session_id : string) : locked TaskMessageView :=
  s ← gets id;
  mret (message_view (default default_projection (BTree.get session_id (task_message_projections s)))
    (map (control_redacted hooks) (messages session_id (task_log s)))).

(** [retain_task_messages] *)
Definition retain_task_messages (session_id : string) (through : option string) (retained : list string) : locked unit :=
  s ← gets id;
  let p := default default_projection (BTree.get session_id (task_message_projections s)) in
  _ ← modify (put_projection session_id p);
  p ← lift (retain p (messages session_id (task_log s)) through retained);
  modify (put_projection session_id p).
End operations.
End tables.

(** ** Claims on the execution of a task *)

(** [TaskExecutionLease::try_acquire_memory], on the set of claimed tasks *)
Definition claim_task_execution (task_id : string) (claims : oset string) : StoreResult (oset string) :=
  _ ← raise_if (contains task_id claims)
        (StoreError.Contention StoreContention.TaskExecutionHeld "another executor owns the task");
  Returned (set_insert task_id claims).

(** [Drop for TaskExecutionLease] *)
Definition drop_lease (task_id : string) (claims : oset string) : oset string := set_remove task_id claims.
