(* ===== verification/TaskSound.v ===== *)
(** * What the task tables keep

    Every operation is a refusal, which at most uses up identifiers, or one
    abstract step: an admission, a transition, an event, a change of a session
    or of a projection. The invariants of reachable tables and the promises to
    callers are proved of those steps. *)

From Stdlib Require Import Strings.String Sorting.Sorted.
From S2P Require Import Prelude BTree Fallible Ordered Atom Text SessionEvent SessionSigning SessionHooks SessionStore Tasks.

(** ** Identifiers are ordered as the numbers they name *)

Lemma hex_digit_lt a b : (a < b)%N → (b < 16)%N → Ascii.compare (Ascii.ascii_of_byte (hex_digit a)) (Ascii.ascii_of_byte (hex_digit b)) = Lt.
Proof.
  intros Hab Hb.
  assert (forallb (λ i, forallb (λ j, negb (i <? j)%nat || match Ascii.compare (Ascii.ascii_of_byte (hex_digit (N.of_nat i)))
    (Ascii.ascii_of_byte (hex_digit (N.of_nat j))) with Lt => true | _ => false end) (seq 0 16)) (seq 0 16) = true) as Hall
    by (vm_compute; reflexivity).
  rewrite forallb_forall in Hall. specialize (Hall (N.to_nat a) ltac:(apply in_seq; lia)).
  rewrite forallb_forall in Hall. specialize (Hall (N.to_nat b) ltac:(apply in_seq; lia)).
  rewrite !N2Nat.id in Hall. apply orb_true_iff in Hall as [Hn|Hc].
  - apply negb_true_iff, Nat.ltb_ge in Hn. lia.
  - by destruct (Ascii.compare _ _).
Qed.

Lemma hex_fixed_lt n a b :
  (a mod 16 ^ N.of_nat n < b mod 16 ^ N.of_nat n)%N → str_lt (hex_fixed n a) (hex_fixed n b).
Proof.
  unfold str_lt. induction n as [|n IH]; intros Hlt; [cbn in Hlt; rewrite !N.mod_1_r in Hlt; lia|].
  rewrite Nat2N.inj_succ, N.pow_succ_r', (N.mul_comm 16), !N.Div0.mod_mul_r in Hlt. cbn [hex_fixed String.compare].
  pose proof (N.mod_lt a (16 ^ N.of_nat n) ltac:(apply N.pow_nonzero; lia)) as Ha.
  pose proof (N.mod_lt b (16 ^ N.of_nat n) ltac:(apply N.pow_nonzero; lia)) as Hb.
  pose proof (N.mod_lt (b / 16 ^ N.of_nat n) 16 ltac:(lia)) as Hd.
  destruct (N.lt_trichotomy ((a / 16 ^ N.of_nat n) mod 16) ((b / 16 ^ N.of_nat n) mod 16)) as [Hlt'|[Heq|Hgt]].
  - by rewrite (hex_digit_lt _ _ Hlt' Hd).
  - rewrite Heq in *. rewrite (proj2 (ascii_compare_eq _ _) eq_refl). apply IH. lia.
  - exfalso. clear IH Hd. revert Hlt Ha Hb Hgt. set (p := (16 ^ N.of_nat n)%N). clearbody p.
    generalize (a mod p)%N, (b mod p)%N, ((a / p) mod 16)%N, ((b / p) mod 16)%N. intros u v x y Hlt Ha Hb Hgt.
    assert (p * (y + 1) <= p * x)%N by (apply N.mul_le_mono_l; lia). lia.
Qed.

Definition named (n : N) : Prop := (Z.of_N n < I64_MAX)%Z.

Lemma compare_after_prefix p a b : String.compare (p ++ a) (p ++ b) = String.compare a b.
Proof. induction p as [|c p IH]; [done|].
  change (String.compare (String.String c (p ++ a)) (String.String c (p ++ b)) = String.compare a b). cbn. by rewrite (proj2 (ascii_compare_eq c c) eq_refl). Qed.

Lemma event_name_lt m n : (m < n)%N → named n → str_lt (event_name m) (event_name n).
Proof.
  intros Hmn Hn. unfold named, I64_MAX in Hn. unfold event_name, str_lt.
  rewrite compare_after_prefix. apply hex_fixed_lt.
  change (16 ^ N.of_nat 16)%N with 18446744073709551616%N. rewrite !N.mod_small; lia.
Qed.

Lemma event_name_inj m n : named m → named n → event_name m = event_name n → m = n.
Proof.
  intros Hm Hn Heq. destruct (N.lt_trichotomy m n) as [Hlt|[?|Hlt]]; [|done|];
    apply event_name_lt in Hlt; try done; rewrite Heq in Hlt; by apply str_lt_irrefl in Hlt.
Qed.

(** ** Operations as steps *)

Section machine.
Context `{SerdeJson, SigningCrates}.
Variable hooks : StoreHooks.
Implicit Types (s : TaskTables) (t : TaskRecord) (e : TaskControlEvent) (id sid : string).

(** An operation that may change the tables. *)
Inductive TaskOp :=
  | OpAllocate
  | OpAdmit (a : AdmitTask)
  | OpUpdateSession (sid : string) (u : TaskSessionUpdate)
  | OpUpdate (id : string) (u : TaskUpdate)
  | OpEvent (id : string) (e : NewTaskControlEvent)
  | OpInput (id sid : string) (message : Value)
  | OpRetain (sid : string) (through : option string) (retained : list string).

Definition perform_task (now : nat → string) (op : TaskOp) s : TaskTables :=
  match op with
  | OpAllocate => (next_control_event_id s).1
  | OpAdmit a => (admit_task hooks now a s).1
  | OpUpdateSession sid u => (update_task_session hooks now sid u s).1
  | OpUpdate id u => (update_task hooks (now 0) id u s).1
  | OpEvent id e => (append_task_event hooks (now 0) id e s).1
  | OpInput id sid message => (append_task_input hooks (now 0) id sid message s).1
  | OpRetain sid through retained => (retain_task_messages sid through retained s).1
  end.

(** The events got the identifiers after [from], up to [to], in order. *)
Fixpoint issued (from : N) (es : list TaskControlEvent) (to : N) : Prop :=
  match es with
  | [] => from = to
  | e :: es => control_id e = event_name (from + 1) ∧ named (from + 1) ∧ issued (from + 1) es to
  end.

Definition concerns t e : Prop := control_task_id e = task_id t ∧ control_session_id e = task_session_id t.
Definition same_task t t' : Prop := task_id t' = task_id t ∧ task_session_id t' = task_session_id t.

(** No earlier admission answers this one. *)
Definition unanswered (a : AdmitTask) s : Prop :=
  ∀ retry b, admit_retry a = Some retry → BTree.get (retry_binding_digest retry) (task_bindings s) = Some b →
    ∃ t, BTree.get (binding_task_id b) (tasks s) = Some t ∧
      retry_decision b t (retry_request_fingerprint retry) (admit_now_ms a) = RetryDecision.Create.

Definition admitted_tables (a : AdmitTask) t (d : TaskSessionDescriptor) (es : list TaskControlEvent) (n : N) s : TaskTables :=
  mkTaskTables (BTree.insert (task_id t) t (tasks s))
    (if BTree.contains_key (ts_id d) (task_sessions s) then task_sessions s
     else BTree.insert (ts_id d) d (task_sessions s))
    (match admit_retry a with
     | None => task_bindings s
     | Some retry => BTree.insert (retry_binding_digest retry)
         (mkTaskBinding (task_id t) (retry_request_fingerprint retry)
            (saturating_add_i64 (admit_now_ms a) TASK_RETRY_RETENTION_MS)) (task_bindings s)
     end)
    (task_log s ++ es) (task_message_projections s) n.

Definition put_tasks (ts : list TaskRecord) (m : btree TaskRecord) : btree TaskRecord :=
  fold_left (λ m t, BTree.insert (task_id t) t m) ts m.

Definition active_tasks sid s : list TaskRecord :=
  filter (λ t, String.eqb (task_session_id t) sid && TaskStatus.is_active (task_status t) = true) (BTree.values (tasks s)).

(** The tables after a session changed, its tasks [ts] canceled with events [es]. *)
Definition updated_tables sid (d : TaskSessionDescriptor) (ts : list TaskRecord) (es : list TaskControlEvent) (n : N) s :=
  mkTaskTables (put_tasks ts (tasks s)) (BTree.insert sid d (task_sessions s)) (task_bindings s)
    (task_log s ++ es) (task_message_projections s) n.

Definition canceled (closing : Prop) `{Decision closing} sid s (ts : list TaskRecord) (es : list TaskControlEvent) : Prop :=
  Forall2 (λ t t', same_task t t' ∧ task_status t' = TaskStatus.Canceled)
    (if decide closing then active_tasks sid s else []) ts ∧
  Forall2 (λ t e, concerns t e ∧ control_event e = TaskStatus.event TaskStatus.Canceled) ts es.

(** The event a caller asks for, with its task and name. *)
Definition requested (op : TaskOp) : option (string * string) :=
  match op with
  | OpEvent id e => Some (id, new_event e)
  | OpInput id _ _ => Some (id, MESSAGE_CREATED)
  | _ => None
  end.

Definition projection_of sid s : TaskMessageProjection :=
  default default_projection (BTree.get sid (task_message_projections s)).

Inductive task_step : TaskOp → TaskTables → TaskTables → Prop :=
  | step_refused op s n :
      match op with OpRetain _ _ _ => False | _ => True end →
      n = control_event_seq s ∨ (control_event_seq s < n)%N ∧ named n → task_step op s (put_sequence n s)
  | step_admitted a s t d es n :
      BTree.get (task_id t) (tasks s) = None → task_id t = task_id (admit_record a) →
      task_status t = task_status (admit_record a) → TaskStatus.is_active (task_status t) = true →
      ts_id d = task_session_id t →
      ts_status (default d (BTree.get (ts_id d) (task_sessions s))) = SessionStatus.Open →
      unanswered a s → issued (control_event_seq s) es n → Forall (concerns t) es →
      map control_event es = new_event (status_event t None) :: map new_event (admit_initial_events a) →
      task_step (OpAdmit a) s (admitted_tables a t d es n s)
  | step_moved id u s t t' e n :
      BTree.get id (tasks s) = Some t → task_status t' = update_status u →
      TaskStatus.allowed (task_status t) (task_status t') = true → same_task t t' →
      issued (control_event_seq s) [e] n → concerns t' e →
      control_event e = new_event (status_event t' (Some (task_status t))) →
      task_step (OpUpdate id u) s
        (mkTaskTables (BTree.insert (task_id t') t' (tasks s)) (task_sessions s) (task_bindings s) (task_log s ++ [e])
           (task_message_projections s) n)
  | step_event op id name s t e n :
      requested op = Some (id, name) → BTree.get id (tasks s) = Some t →
      issued (control_event_seq s) [e] n → concerns t e → control_event e = name →
      task_step op s (mkTaskTables (tasks s) (task_sessions s) (task_bindings s) (task_log s ++ [e])
        (task_message_projections s) n)
  | step_session sid u s d d' ts es n :
      BTree.get sid (task_sessions s) = Some d →
      (ts_status d ≠ SessionStatus.Open → ts_status d' ≠ SessionStatus.Open) →
      canceled (ts_status d' = SessionStatus.Closed) sid s ts es → issued (control_event_seq s) es n →
      task_step (OpUpdateSession sid u) s (updated_tables sid d' ts es n s)
  | step_retain sid through retained s :
      let p := projection_of sid s in
      task_step (OpRetain sid through retained) s
        (put_projection sid
           (match retain p (messages sid (task_log s)) through retained with Returned p' => p' | Raised _ => p end) s).

(** ** Running an operation *)

Lemma locked_bind_eq {A B} (m : locked A) (f : A → locked B) s :
  (m ≫= f) s = match m s with (s', Returned a) => f a s' | (s', Raised e) => (s', Raised e) end.
Proof. done. Qed.

Lemma step_stays op s : match op with OpRetain _ _ _ => False | _ => True end → task_step op s s.
Proof. intros Hop. destruct s. apply (step_refused op (mkTaskTables _ _ _ _ _ _) _ Hop). by left. Qed.

Lemma next_id_eq s :
  next_id s = match allocate_id (control_event_seq s) with
              | Returned (id, n) => (put_sequence n s, Returned id)
              | Raised e => (s, Raised e)
              end.
Proof.
  unfold next_id. rewrite locked_bind_eq. cbn. rewrite locked_bind_eq. unfold lift.
  by destruct (allocate_id _) as [[id n]|].
Qed.

Lemma allocate_id_spec n id n' :
  allocate_id n = Returned (id, n') → n' = (n + 1)%N ∧ id = event_name n' ∧ named n'.
Proof.
  unfold allocate_id, named. destruct (_ && _) eqn:E; [|done]. intros [= <- <-].
  apply andb_true_iff in E as [_ E%Z.ltb_lt]. by rewrite N.add_1_r in *.
Qed.

Lemma task_redacted_same t t' :
  task_redacted hooks t = Returned t' → same_task t t' ∧ task_status t' = task_status t.
Proof.
  unfold task_redacted, same_task. destruct (redaction hooks) as [policy|]; [|by intros [= <-]].
  intros Hr. by inv_returned.
Qed.

Lemma transition_spec t u :
  let '(changed, t') := transition t u in
  changed = TaskStatus.allowed (task_status t) (update_status u) ∧ same_task t t' ∧
  task_status t' = if changed then update_status u else task_status t.
Proof. unfold transition. by destruct (TaskStatus.allowed _ _). Qed.

Lemma new_control_event_spec now id t (request : NewTaskControlEvent) :
  let c := new_control_event hooks now id t request in
  control_id c = id ∧ concerns t c ∧ control_event c = new_event request.
Proof. unfold new_control_event, control_redacted, concerns. by destruct (redaction hooks). Qed.

Lemma issued_named from es to : issued from es to → to = from ∨ (from < to)%N ∧ named to.
Proof.
  revert from. induction es as [|e es IH]; intros from; cbn; [by left|]. intros (_ & Hn & Hi).
  right. destruct (IH _ Hi) as [->|[Hlt Hto]]; split; try done; lia.
Qed.

Lemma new_events_spec now t (es : list NewTaskControlEvent) s s' r :
  new_events hooks now t es s = (s', r) →
  ∃ n, s' = put_sequence n s ∧ (n = control_event_seq s ∨ (control_event_seq s < n)%N ∧ named n) ∧
    ∀ cs, r = Returned cs →
      issued (control_event_seq s) cs n ∧ Forall (concerns t) cs ∧ map control_event cs = map new_event es.
Proof.
  revert now s s' r. induction es as [|request es IH]; intros now s s' r Hr; cbn [new_events] in Hr.
  { injection Hr as <- <-. exists (control_event_seq s). split_and!; [by destruct s|by left|]. by intros cs [= <-]. }
  rewrite locked_bind_eq, next_id_eq in Hr.
  destruct (allocate_id (control_event_seq s)) as [[id n]|err] eqn:E.
  - apply allocate_id_spec in E as (-> & -> & Hn). rewrite locked_bind_eq in Hr.
    destruct (new_events hooks _ t es _) as [s1 r1] eqn:E1. apply IH in E1 as (n & -> & Hbound & Hret).
    cbn [put_sequence control_event_seq] in Hbound, Hret. exists n.
    destruct r1 as [rest|]; injection Hr as <- <-; (split; [done|]);
      (split; [right; destruct Hbound as [->|[? ?]]; split; try done; lia|intros cs [=]]). subst cs.
    destruct (Hret _ eq_refl) as (Hi & Hc & Hm).
    destruct (new_control_event_spec (now 0) (event_name (control_event_seq s + 1)) t request) as (Hid & Hcon & Hev).
    split_and!; [done..|by constructor|]. cbn [map]. by rewrite Hev, Hm.
  - injection Hr as <- <-. exists (control_event_seq s). split_and!; [by destruct s|by left|done].
Qed.

Lemma cancel_all_spec now at_ n ts records es n' :
  Forall (λ t, TaskStatus.is_active (task_status t) = true) ts →
  cancel_all hooks now at_ n ts = Returned (records, es, n') →
  Forall2 (λ t t', same_task t t' ∧ task_status t' = TaskStatus.Canceled) ts records ∧ issued n es n' ∧
  Forall2 (λ t e, concerns t e ∧ control_event e = TaskStatus.event TaskStatus.Canceled) records es.
Proof.
  intros Hts. revert now n records es n'. induction Hts as [|t ts Ht Hts IH]; intros now n records es n' Hr; cbn in Hr.
  { injection Hr as <- <- <-. split_and!; constructor. }
  apply fallible_bind_returned in Hr as (c & Hc & Hr). apply fallible_bind_returned in Hr as ([id m] & Hid & Hr).
  apply fallible_bind_returned in Hr as ([[rs es'] m'] & Hrest & [= <- <- <-]).
  apply allocate_id_spec in Hid as (-> & -> & Hn). apply IH in Hrest as (Hrs & Hi & Hes).
  apply task_redacted_same in Hc as [[Hcid Hcs] Hst].
  pose proof (transition_spec t (mkTaskUpdate TaskStatus.Canceled at_ None)) as Htr.
  destruct (transition _ _) as [changed t'] eqn:E. cbn [snd] in *. destruct Htr as (-> & [Hid' Hsid'] & Hst').
  assert (TaskStatus.allowed (task_status t) TaskStatus.Canceled = true) as Hall by (by destruct (task_status t)).
  cbn [update_status] in Hst'. rewrite Hall in Hst'.
  assert (task_status c = TaskStatus.Canceled) as Hcan by congruence.
  destruct (new_control_event_spec (now 0) (event_name (n + 1)) c (status_event c (Some (task_status t)))) as (Hcid' & Hcon & Hev).
  split_and!; [constructor; [|done]|cbn; by rewrite Hcid'|constructor; [|done]].
  - unfold same_task. by rewrite Hcid, Hcs.
  - split; [done|]. cbn [fst]. rewrite Hev. unfold status_event. rewrite Hcan. done.
Qed.

Lemma found_eq {A} id (o : option A) s :
  found id o s = (s, match o with Some a => Returned a | None => Raised (StoreError.NotFound id) end).
Proof. by destruct o. Qed.

(** A failed operation keeps the tables. *)
Ltac refuse := cbn [fst]; by apply step_stays.

Lemma admission_retry_spec a s :
  let r := admission_retry hooks a s in
  r.1 = s ∧ (r.2 = Returned None → unanswered a s) ∧ ∀ t, r.2 ≠ Returned (Some (Created t)).
Proof.
  unfold admission_retry, unanswered. destruct (admit_retry a) as [retry|]; [|done].
  rewrite locked_bind_eq. cbn. destruct (BTree.get (retry_binding_digest retry) (task_bindings s)) as [b|] eqn:Eb.
  - rewrite locked_bind_eq. cbn. rewrite locked_bind_eq. unfold lift.
    destruct (BTree.get (binding_task_id b) (tasks s)) as [t|] eqn:Et; cbn; [|done].
    destruct (retry_decision _ _ _ _) eqn:Ed; cbn; try done.
    + split_and!; [done| |done]. intros _ retry' b' [= <-] Hb. rewrite Eb in Hb. injection Hb as <-. by exists t.
    + rewrite locked_bind_eq. unfold lift. by destruct (task_redacted hooks t).
  - split_and!; [done| |done]. intros _ retry' b' [= <-] Hb. congruence.
Qed.

Lemma session_redacted_same d :
  ts_id (session_redacted hooks d) = ts_id d ∧ ts_status (session_redacted hooks d) = ts_status d.
Proof. unfold session_redacted. by destruct (redaction hooks). Qed.

Lemma validate_admission_spec a :
  validate_admission a = Returned tt →
  ts_id (admit_session a) = task_session_id (admit_record a) ∧
  TaskStatus.is_active (task_status (admit_record a)) = true.
Proof.
  unfold validate_admission. intros Hv. inv_returned.
  repeat match goal with H : _ || _ = false |- _ => apply orb_false_iff in H as [? ?] end.
  repeat match goal with H : negb _ = false |- _ => apply negb_false_iff in H end.
  split; [by apply String.eqb_eq|done].
Qed.

(** An admission is a step, and what it says it created is what it stored. *)
Definition admission_ok (a : AdmitTask) s (m : TaskTables * StoreResult TaskAdmission) : Prop :=
  task_step (OpAdmit a) s m.1 ∧
  ∀ t, m.2 = Returned (Created t) → ∃ d es n, m.1 = admitted_tables a t d es n s.

Ltac refuse_admission := split; [refuse|done].

Lemma admit_step now a s : admission_ok a s (admit_task hooks now a s).
Proof.
  unfold admit_task. rewrite locked_bind_eq. unfold lift at 1.
  destruct (validate_admission a) as [[]|] eqn:Ev; [|refuse_admission]. apply validate_admission_spec in Ev as [Hsid Hact].
  rewrite locked_bind_eq. pose proof (admission_retry_spec a s) as (Hs & Hun & Hno).
  destruct (admission_retry hooks a s) as [s0 [[outcome|]|err]]; cbn [fst snd] in Hs, Hun, Hno; subst s0;
    [|clear Hno|refuse_admission].
  { split; [refuse|]. intros t [= ->]. by destruct (Hno t). }
  specialize (Hun eq_refl). rewrite locked_bind_eq. cbn [gets]. rewrite locked_bind_eq. unfold lift at 1, raise_if at 1.
  destruct (BTree.contains_key _ (tasks (id s))) eqn:Eid; [refuse_admission|]. rewrite locked_bind_eq. unfold lift at 1, raise_if.
  destruct (negb _) eqn:Est; [refuse_admission|]. apply negb_false_iff, bool_decide_eq_true in Est.
  rewrite locked_bind_eq. unfold lift at 1.
  destruct (task_redacted hooks (admit_record a)) as [t|] eqn:Et; [|refuse_admission].
  apply task_redacted_same in Et as [[Htid Htsid] Htst].
  rewrite locked_bind_eq. destruct (new_events hooks now t _ s) as [s1 r] eqn:Ees.
  apply new_events_spec in Ees as (n & -> & Hn & Hret).
  destruct r as [es|err]; [|split; [by apply step_refused|done]]. destruct (Hret _ eq_refl) as (Hi & Hc & Hnames).
  pose proof (session_redacted_same (admit_session a)) as [Hd Hdst].
  set (d := session_redacted hooks (admit_session a)) in *.
  match goal with |- admission_ok _ _ ?m => assert (m = (admitted_tables a t d es n s, Returned (Created t))) as -> end.
  { rewrite !locked_bind_eq. unfold modify, admitted_tables, put_session, put_task, put_events, put_binding.
    destruct (BTree.contains_key (ts_id d) _) eqn:Ed; cbn in Ed |- *; rewrite ?Ed; by destruct (admit_retry a). }
  split; cbn [fst snd]; [|intros t' [= <-]; by exists d, es, n]. apply step_admitted; try done; try congruence.
  - rewrite Htid. unfold BTree.contains_key in Eid. cbn in Eid. by destruct (BTree.get _ _).
  - rewrite Hd. destruct (BTree.get (ts_id (admit_session a)) (task_sessions s)) as [d0|] eqn:Ed; rewrite <- Est;
      cbn; rewrite Ed; [done|exact Hdst].
Qed.

Lemma put_tasks_eq ts s :
  fold_left (λ s t, put_task t s) ts s =
    mkTaskTables (put_tasks ts (tasks s)) (task_sessions s) (task_bindings s) (task_log s)
      (task_message_projections s) (control_event_seq s).
Proof.
  unfold put_tasks. revert s. induction ts as [|t ts IH]; intros s; cbn; [by destruct s|]. by rewrite IH.
Qed.

Lemma apply_session_update_spec u d d' :
  apply_session_update u d = Returned d' →
  ts_id d' = ts_id d ∧ ts_status d' = default (ts_status d) (tsu_status u) ∧
  (ts_status d ≠ SessionStatus.Open → ts_status d' ≠ SessionStatus.Open).
Proof.
  unfold apply_session_update. intros Hu. inv_returned. split_and!; [done..|]. cbn. intros Hne Hopen.
  apply orb_false_iff in E as [_ E].
  rewrite bool_decide_eq_false_2 in E by done. cbn in E. apply bool_decide_eq_false in E.
  destruct (tsu_status u); cbn in Hopen; congruence.
Qed.

Definition session_ok sid (u : TaskSessionUpdate) s
    (m : TaskTables * StoreResult (TaskSessionDescriptor * list TaskControlEvent)) : Prop :=
  task_step (OpUpdateSession sid u) s m.1 ∧
  ∀ d es, m.2 = Returned (d, es) → ∃ ts n,
    canceled (ts_status d = SessionStatus.Closed) sid s ts es ∧ m.1 = updated_tables sid d ts es n s.

Ltac refuse_session := split; [refuse|done].

Lemma session_step now sid u s : session_ok sid u s (update_task_session hooks now sid u s).
Proof.
  unfold update_task_session. rewrite locked_bind_eq. cbn [gets id]. rewrite locked_bind_eq, found_eq.
  destruct (BTree.get sid (task_sessions s)) as [d|] eqn:Ed; [|refuse_session]. rewrite locked_bind_eq. unfold lift at 1.
  destruct (apply_session_update u d) as [d1|] eqn:Eu; [|refuse_session].
  apply apply_session_update_spec in Eu as (_ & _ & Hopen).
  rewrite locked_bind_eq. pose proof (session_redacted_same d1) as [_ Hst]. set (d2 := session_redacted hooks d1) in *.
  unfold lift at 1. destruct (cancel_all _ _ _ _ _) as [[[ts es] n]|] eqn:Ec; [|refuse_session].
  match type of Ec with cancel_all _ _ _ _ (if ?P then ?l else _) = _ => change l with (active_tasks sid s) in Ec end.
  repeat (rewrite locked_bind_eq; cbn [modify]). rewrite put_tasks_eq. apply cancel_all_spec in Ec as (Hts & Hi & Hes).
  - split; cbn [fst snd mret locked_ret].
    + apply (step_session sid u s d d2 ts es n); [done|by rewrite Hst|by split|done].
    + intros d' es' [= <- <-]. exists ts, n. by split; [split|].
  - destruct (decide _); [|constructor]. apply Forall_forall. intros t Ht.
    apply list_elem_of_filter in Ht as [Ht _]. by apply andb_true_iff in Ht as [_ Ht].
Qed.

Lemma issued_one n e : control_id e = event_name (n + 1) → named (n + 1) → issued n [e] (n + 1).
Proof. intros He Hn. cbn. by split_and!. Qed.

Lemma update_step now id u s : task_step (OpUpdate id u) s (update_task hooks now id u s).1.
Proof.
  unfold update_task. rewrite locked_bind_eq. cbn [gets]. rewrite locked_bind_eq, found_eq.
  destruct (BTree.get id (tasks s)) as [t|] eqn:Et; [|refuse].
  pose proof (transition_spec t u) as Htr. destruct (transition t u) as [changed t1]. destruct Htr as (Hall & [Hid Hsid] & Hst).
  destruct changed; cbn [negb]; rewrite locked_bind_eq; unfold lift at 1;
    destruct (task_redacted hooks t1) as [t2|] eqn:Er; try refuse.
  apply task_redacted_same in Er as [[Hid2 Hsid2] Hst2]. rewrite locked_bind_eq, next_id_eq.
  destruct (allocate_id (control_event_seq s)) as [[event_id n]|] eqn:En; [|refuse].
  apply allocate_id_spec in En as (-> & -> & Hn). rewrite !locked_bind_eq. cbn.
  destruct (new_control_event_spec now (event_name (control_event_seq s + 1)) t2 (status_event t2 (Some (task_status t))))
    as (Hcid & Hcon & Hev).
  eapply (step_moved id u s t t2); [done|congruence| |split; congruence| |done|exact Hev].
  - by rewrite Hst2, Hst.
  - by apply issued_one.
Qed.

Lemma event_step now id request s : task_step (OpEvent id request) s (append_task_event hooks now id request s).1.
Proof.
  unfold append_task_event. rewrite locked_bind_eq. cbn [gets]. rewrite locked_bind_eq, found_eq.
  destruct (BTree.get id (tasks s)) as [t|] eqn:Et; [|refuse]. rewrite locked_bind_eq, next_id_eq.
  destruct (allocate_id (control_event_seq s)) as [[event_id n]|] eqn:En; [|refuse].
  apply allocate_id_spec in En as (-> & -> & Hn). rewrite !locked_bind_eq. cbn.
  destruct (new_control_event_spec now (event_name (control_event_seq s + 1)) t request) as (Hcid & Hcon & Hev).
  apply (step_event (OpEvent id request) id (new_event request) s t _ _ eq_refl Et (issued_one _ _ Hcid Hn) Hcon Hev).
Qed.

Lemma input_step now id sid message s : task_step (OpInput id sid message) s (append_task_input hooks now id sid message s).1.
Proof.
  unfold append_task_input. rewrite locked_bind_eq. cbn [gets]. rewrite locked_bind_eq, found_eq.
  destruct (BTree.get id (tasks s)) as [t|] eqn:Et; [|refuse]. rewrite locked_bind_eq. unfold lift at 1, raise_if.
  destruct (_ || _); [refuse|]. rewrite locked_bind_eq, next_id_eq.
  destruct (allocate_id (control_event_seq s)) as [[event_id n]|] eqn:En; [|refuse].
  apply allocate_id_spec in En as (-> & -> & Hn). rewrite !locked_bind_eq. cbn.
  destruct (new_control_event_spec now (event_name (control_event_seq s + 1)) t (mkNewControlEvent MESSAGE_CREATED message))
    as (Hcid & Hcon & Hev).
  apply (step_event (OpInput id sid message) id MESSAGE_CREATED s t _ _ eq_refl Et (issued_one _ _ Hcid Hn) Hcon Hev).
Qed.

Lemma btree_insert_insert {V} k (v w : V) m : BTree.insert k w (BTree.insert k v m) = BTree.insert k w m.
Proof.
  induction m as [|[k' v'] m IH]; cbn; [by rewrite str_compare_refl|].
  destruct (String.compare k k') eqn:E; cbn; rewrite ?str_compare_refl, ?E; try done. by rewrite IH.
Qed.

Lemma retain_step sid through retained s :
  task_step (OpRetain sid through retained) s (retain_task_messages sid through retained s).1.
Proof.
  pose proof (step_retain sid through retained s) as Hstep. unfold retain_task_messages.
  rewrite locked_bind_eq. cbn [gets id]. rewrite locked_bind_eq. cbn [modify]. rewrite locked_bind_eq. unfold lift.
  fold (projection_of sid s). cbv zeta in Hstep. revert Hstep.
  destruct (retain _ _ _ _) as [p'|]; intros Hstep; cbn; [|exact Hstep].
  unfold put_projection in *. cbn. by rewrite btree_insert_insert.
Qed.

Lemma perform_step now op s : task_step op s (perform_task now op s).
Proof.
  destruct op; cbn [perform_task]; try apply admit_step; try apply session_step; auto using update_step, event_step, input_step, retain_step.
  unfold next_control_event_id. rewrite next_id_eq. destruct (allocate_id _) as [[id n]|] eqn:E; [|refuse].
  apply allocate_id_spec in E as (-> & _ & Hn). apply step_refused; [done|]. right. split; [lia|done].
Qed.

(** ** Runs *)

Definition task_run (steps : list ((nat → string) * TaskOp)) s : TaskTables :=
  fold_left (λ s step, perform_task step.1 step.2 s) steps s.

Inductive tasks_reachable (admissible : TaskOp → Prop) : TaskTables → Prop :=
  | tasks_start : tasks_reachable admissible no_tasks
  | tasks_step now op s :
      tasks_reachable admissible s → admissible op → tasks_reachable admissible (perform_task now op s).

(** What steps keep, runs keep. *)
Lemma run_keeps (P : TaskTables → Prop) steps s :
  (∀ op s s', P s → task_step op s s' → P s') → P s → P (task_run steps s).
Proof.
  intros Hstep. revert s. induction steps as [|[now op] steps IH]; intros s Hs; [done|].
  apply IH. eapply Hstep; [exact Hs|apply perform_step].
Qed.

Lemma reachable_task_run admissible steps s :
  tasks_reachable admissible s → Forall (λ step, admissible step.2) steps → tasks_reachable admissible (task_run steps s).
Proof.
  intros Hr Hsteps. revert s Hr. induction Hsteps as [|[now op] steps Hop _ IH]; intros s Hr; [done|].
  apply IH. by apply tasks_step.
Qed.

(** ** What one step does to tasks and sessions *)

Definition keyed (m : btree TaskRecord) : Prop := BTree.sorted m ∧ Forall (λ entry, task_id entry.2 = entry.1) m.

Lemma keyed_get m id t : keyed m → BTree.get id m = Some t → task_id t = id.
Proof. intros [_ Hk] Hget%btree_get_in. rewrite Forall_forall in Hk. exact (Hk _ Hget). Qed.

Lemma keyed_insert m t : keyed m → keyed (BTree.insert (task_id t) t m).
Proof.
  intros [Hs Hk]. split; [by apply btree_insert_sorted|]. rewrite Forall_forall in *.
  intros entry [Hin| ->]%btree_insert_elem; [by apply Hk|done].
Qed.

Lemma keyed_put_tasks ts m : keyed m → keyed (put_tasks ts m).
Proof. unfold put_tasks. revert m. induction ts as [|t ts IH]; intros m Hm; cbn; auto using keyed_insert. Qed.

Lemma keyed_values m : keyed m → map task_id (BTree.values m) = BTree.keys m.
Proof.
  intros [_ Hk]. unfold BTree.values, BTree.keys. rewrite map_map.
  induction Hk as [|entry m Hentry _ IH]; cbn; congruence.
Qed.

Lemma sorted_keys {V} (m : btree V) : BTree.sorted m → NoDup (BTree.keys m).
Proof.
  unfold BTree.sorted, BTree.keys. induction 1 as [|entry m _ IH Hlt]; cbn; constructor; [|done].
  intros ([k v] & Heq & Hin)%list_elem_of_fmap. rewrite Forall_forall in Hlt. specialize (Hlt _ Hin).
  cbn in Heq, Hlt. rewrite Heq in Hlt. by apply str_lt_irrefl in Hlt.
Qed.

Lemma active_elem sid s t :
  keyed (tasks s) →
  t ∈ active_tasks sid s ↔
    BTree.get (task_id t) (tasks s) = Some t ∧ task_session_id t = sid ∧ TaskStatus.is_active (task_status t) = true.
Proof.
  intros Hk. unfold active_tasks. rewrite list_elem_of_filter, andb_true_iff, String.eqb_eq.
  assert (t ∈ BTree.values (tasks s) ↔ BTree.get (task_id t) (tasks s) = Some t) as ->; [|tauto].
  unfold BTree.values. split.
  - intros ([id t'] & -> & Hin)%list_elem_of_fmap. cbn. apply btree_get_sorted_in in Hin as Hget; [|apply Hk].
    by rewrite (keyed_get _ _ _ Hk Hget).
  - intros Hget%btree_get_in. by apply (list_elem_of_fmap_2 snd) in Hget.
Qed.

Lemma active_nodup sid s : keyed (tasks s) → NoDup (map task_id (active_tasks sid s)).
Proof.
  intros Hk. apply (sublist_NoDup _ (map task_id (BTree.values (tasks s)))).
  - rewrite keyed_values by done. apply sorted_keys, Hk.
  - apply fmap_sublist, sublist_filter.
Qed.

Lemma put_tasks_get id ts m :
  BTree.get id (put_tasks ts m) = BTree.get id m ∧ id ∉ map task_id ts ∨
  ∃ t, t ∈ ts ∧ task_id t = id ∧ BTree.get id (put_tasks ts m) = Some t.
Proof.
  unfold put_tasks. revert m. induction ts as [|t ts IH]; intros m; cbn; [left; split; [done|set_solver]|].
  destruct (IH (BTree.insert (task_id t) t m)) as [[Hget Hni]|(t' & Hin & Hid & Hget)]; [|right; exists t'; set_solver].
  destruct (decide (id = task_id t)) as [->|Hne].
  - right. exists t. rewrite Hget, btree_get_insert_eq. set_solver.
  - left. rewrite Hget, btree_get_insert_ne by done. set_solver.
Qed.

(** A task changes by being admitted to an open session or by an allowed transition. *)
Definition task_change id s (t' : TaskRecord) : Prop :=
  task_id t' = id ∧
  (BTree.get id (tasks s) = None ∧ TaskStatus.is_active (task_status t') = true ∧
     (∀ d, BTree.get (task_session_id t') (task_sessions s) = Some d → ts_status d = SessionStatus.Open) ∨
   ∃ t, BTree.get id (tasks s) = Some t ∧ same_task t t' ∧
     TaskStatus.allowed (task_status t) (task_status t') = true).

Lemma canceled_from (closing : Prop) `{Decision closing} sid s ts t' :
  keyed (tasks s) →
  Forall2 (λ t t', same_task t t' ∧ task_status t' = TaskStatus.Canceled)
    (if decide closing then active_tasks sid s else []) ts →
  t' ∈ ts → ∃ t, BTree.get (task_id t') (tasks s) = Some t ∧ same_task t t' ∧ task_session_id t = sid ∧
    TaskStatus.is_active (task_status t) = true ∧ task_status t' = TaskStatus.Canceled.
Proof.
  intros Hk Hts Hin. destruct (decide closing); [|by inversion Hts; subst; apply not_elem_of_nil in Hin].
  apply list_elem_of_lookup in Hin as [i Hi]. eapply Forall2_lookup_r in Hts as (t & Ht & Hsame & Hst); [|exact Hi].
  apply list_elem_of_lookup_2, active_elem in Ht as (Hget & Hsid & Hact); [|done].
  exists t. destruct Hsame as [Hid Hsid']. rewrite Hid. by split_and!.
Qed.

Lemma step_task op s s' id :
  keyed (tasks s) → task_step op s s' →
  BTree.get id (tasks s') = BTree.get id (tasks s) ∨
  ∃ t', BTree.get id (tasks s') = Some t' ∧ task_change id s t'.
Proof.
  intros Hk Hstep. revert Hk.
  destruct Hstep as [op' s1 n _ _|a s1 t d es n Hnew _ _ Hact Hd Hopen _ _ _ _|id' u s1 t t' e n Hget _ Hall [Hid Hsid] _ _ _| |
             sid u s1 d d' ts es n Hd _ [Hts _] _|]; intros Hk; cbn; auto.
  - destruct (decide (id = task_id t)) as [->|Hne]; [right|left; by apply btree_get_insert_ne].
    exists t. rewrite btree_get_insert_eq. split; [done|]. split; [done|]. left. split_and!; [done..|].
    intros d0 Hd0. rewrite Hd, Hd0 in Hopen. exact Hopen.
  - pose proof (keyed_get _ _ _ Hk Hget) as Hkey. destruct (decide (id = task_id t')) as [->|Hne]; [right|left; by apply btree_get_insert_ne].
    exists t'. rewrite btree_get_insert_eq. split; [done|]. split; [done|]. right. exists t. rewrite Hid, Hkey. by split_and!.
  - destruct (put_tasks_get id ts (tasks s1)) as [[Hget _]|(t' & Hin & <- & Hget)]; [by left|right].
    exists t'. split; [done|]. split; [done|]. right.
    destruct (canceled_from _ sid s1 ts t' Hk Hts Hin) as (t & Ht & Hsame & _ & Hact & Hst).
    exists t. split_and!; [done..|]. rewrite Hst. by destruct (task_status t).
Qed.

Lemma step_session_kept op s s' sid d :
  task_step op s s' → BTree.get sid (task_sessions s) = Some d →
  ∃ d', BTree.get sid (task_sessions s') = Some d' ∧ (ts_status d ≠ SessionStatus.Open → ts_status d' ≠ SessionStatus.Open).
Proof.
  intros Hstep Hget. revert Hget.
  destruct Hstep as [op' s1 n _ _|a s1 t d0 es n _ _ _ _ _ _ _ _ _ _| | |sid' u s1 d0 d' ts es n Hd Hopen _ _|];
    intros Hget; cbn; try (by exists d).
  - destruct (BTree.contains_key _ _) eqn:E; [by exists d|].
    destruct (decide (sid = ts_id d0)) as [->|Hne]; [|exists d; by rewrite btree_get_insert_ne].
    unfold BTree.contains_key in E. by rewrite Hget in E.
  - destruct (decide (sid = sid')) as [->|Hne]; [|exists d; by rewrite btree_get_insert_ne].
    assert (d0 = d) as -> by congruence. exists d'. by rewrite btree_get_insert_eq.
Qed.

Lemma step_keyed op s s' : keyed (tasks s) → task_step op s s' → keyed (tasks s').
Proof. intros Hk Hstep. revert Hk. destruct Hstep; cbn; auto using keyed_insert, keyed_put_tasks. Qed.

(** ** What one step does to the log *)

Lemma step_log op s s' :
  task_step op s s' →
  ∃ es, task_log s' = task_log s ++ es ∧
    (issued (control_event_seq s) es (control_event_seq s') ∨
     es = [] ∧ (control_event_seq s < control_event_seq s')%N ∧ named (control_event_seq s')).
Proof.
  intros [op' s1 n _ [->|[Hlt Hn]]|a s1 t d es n _ _ _ _ _ _ _ Hi _ _|id u s1 t t' e n _ _ _ _ Hi _ _|
          op' id name s1 t e n _ _ Hi _ _|sid u s1 d d' ts es n _ _ _ Hi|sid through retained s1 p]; cbn; eauto.
  all: exists []; rewrite app_nil_r; (split; [done|]); first [by left|by right].
Qed.

(** Identifiers in the log increase and are at most the last one issued. *)
Definition numbered (n : N) (log : list TaskControlEvent) : Prop :=
  named n ∧ StronglySorted str_lt (map control_id log) ∧
  Forall (λ e, ∃ k, (k <= n)%N ∧ control_id e = event_name k) log.

Lemma sorted_snoc {A} (R : A → A → Prop) l y : StronglySorted R l → Forall (λ x, R x y) l → StronglySorted R (l ++ [y]).
Proof.
  induction 1 as [|x l Hl IH Hx]; cbn; intros Hy; [repeat constructor|]. inversion Hy; subst.
  constructor; [by apply IH|]. apply Forall_app. split; [done|by constructor].
Qed.

Lemma sorted_before {A} (R : A → A → Prop) l k : StronglySorted R (l ++ k) → ∀ x y, x ∈ l → y ∈ k → R x y.
Proof.
  induction l as [|z l IH]; cbn; [set_solver|]. intros Hs x y. inversion Hs as [|? ? Hlk Hz]; subst.
  intros [->|Hx]%elem_of_cons Hy; [|by apply IH]. rewrite Forall_forall in Hz. apply Hz. set_solver.
Qed.

Lemma numbered_issued n log es n' : numbered n log → issued n es n' → numbered n' (log ++ es).
Proof.
  revert n log. induction es as [|e es IH]; intros n log Hlog; cbn; [intros <-; by rewrite app_nil_r|].
  intros (Hid & Hn & Hi). rewrite cons_middle, app_assoc. apply (IH (n + 1)%N); [|done].
  destruct Hlog as (_ & Hs & Hall). rewrite Forall_forall in Hall. split_and!; [done| |].
  - rewrite map_app. apply sorted_snoc; [done|]. apply Forall_forall. intros id (e' & -> & Hin)%list_elem_of_fmap.
    destruct (Hall _ Hin) as (k & Hk & ->). rewrite Hid. apply event_name_lt; [lia|done].
  - apply Forall_app. split; [|constructor; [|done]].
    + apply Forall_forall. intros e' Hin. destruct (Hall _ Hin) as (k & Hk & He'). exists k. split; [lia|done].
    + exists (n + 1)%N. split; [lia|done].
Qed.

Lemma step_numbered op s s' :
  numbered (control_event_seq s) (task_log s) → task_step op s s' → numbered (control_event_seq s') (task_log s').
Proof.
  intros Hn Hstep. destruct (step_log _ _ _ Hstep) as (es & -> & [Hi|(-> & Hlt & Hn')]); [by eapply numbered_issued|].
  rewrite app_nil_r. destruct Hn as (_ & Hs & Hall). split_and!; [done..|].
  eapply Forall_impl; [exact Hall|]. intros e (k & Hk & He). exists k. split; [lia|done].
Qed.

(** Every event is of a task of the tables. *)
Definition attributed s : Prop :=
  Forall (λ e, ∃ t, BTree.get (control_task_id e) (tasks s) = Some t ∧ control_session_id e = task_session_id t) (task_log s).

Lemma step_task_same op s s' id t :
  keyed (tasks s) → task_step op s s' → BTree.get id (tasks s) = Some t →
  ∃ t', BTree.get id (tasks s') = Some t' ∧ same_task t t'.
Proof.
  intros Hk Hstep Hget. destruct (step_task _ _ _ id Hk Hstep) as [Heq|(t' & Hget' & _ & [(Hnone & _)|(t0 & Ht0 & Hsame & _)])].
  - exists t. by rewrite Heq.
  - congruence.
  - exists t'. split; [done|]. congruence.
Qed.

Lemma concerns_get m t e :
  keyed m → BTree.get (task_id t) m = Some t → concerns t e →
  ∃ t, BTree.get (control_task_id e) m = Some t ∧ control_session_id e = task_session_id t.
Proof. intros _ Hget [-> ->]. by exists t. Qed.

Lemma step_attributed op s s' :
  keyed (tasks s) → attributed s → task_step op s s' → attributed s'.
Proof.
  intros Hk Ha Hstep. assert (∀ e, e ∈ task_log s → ∃ t, BTree.get (control_task_id e) (tasks s') = Some t ∧ control_session_id e = task_session_id t) as Hold.
  { unfold attributed in Ha. rewrite Forall_forall in Ha. intros e He. destruct (Ha e He) as (t & Hget & Hsid).
    destruct (step_task_same _ _ _ _ _ Hk Hstep Hget) as (t' & Hget' & _ & Hsid'). exists t'. split; [done|congruence]. }
  pose proof (step_keyed _ _ _ Hk Hstep) as Hk'. unfold attributed. revert Hk Hk' Hold. clear Ha.
  destruct Hstep as [op' s1 n _ _|a s1 t d es n _ _ _ _ _ _ _ _ Hc _|id u s1 t t' e n _ _ _ _ _ Hc _|
    op' id name s1 t e n _ Hget _ Hc _|sid u s1 d d' ts es n _ _ [Hts Hes] _|sid through retained s1 p]; cbn; intros Hk Hk' Hold;
    try (by apply Forall_forall); apply Forall_app; (split; [by apply Forall_forall|]).
  - eapply Forall_impl; [exact Hc|]. intros e He. apply (concerns_get _ t e Hk'); [|done]. by rewrite btree_get_insert_eq.
  - constructor; [|done]. apply (concerns_get _ t' e Hk'); [|done]. by rewrite btree_get_insert_eq.
  - constructor; [|done]. apply (concerns_get _ t e Hk'); [|done]. by rewrite (keyed_get _ _ _ Hk Hget).
  - apply Forall_forall. intros e [i Hi]%list_elem_of_lookup. eapply Forall2_lookup_r in Hes as (t & Ht & Hc & _); [|exact Hi].
    apply list_elem_of_lookup_2 in Ht. destruct (put_tasks_get (task_id t) ts (tasks s1)) as [[_ Hni]|(t' & Hin & Hid & Hget)].
    { exfalso. apply Hni. by apply list_elem_of_fmap_2. }
    destruct (canceled_from _ sid s1 ts t Hk Hts Ht) as (t0 & Ht0 & [_ Hs0] & Hsid & _).
    destruct (canceled_from _ sid s1 ts t' Hk Hts Hin) as (t1 & Ht1 & [_ Hs1] & Hsid1 & _).
    destruct Hc as [-> ->]. exists t'. rewrite <- Hid in *. split; [done|]. congruence.
Qed.

(** ** Messages and their projection *)

Lemma messages_app sid log es : messages sid (log ++ es) = messages sid log ++ messages sid es.
Proof. apply filter_app. Qed.

Lemma messages_elem sid log e : e ∈ messages sid log → e ∈ log.
Proof. by intros [_ ?]%list_elem_of_filter. Qed.

Lemma str_ltb_lt a b : str_ltb a b = true ↔ str_lt a b.
Proof. unfold str_ltb, str_lt. by destruct (String.compare a b). Qed.

Lemma str_leb_lt a b : str_leb a b = negb (str_ltb b a).
Proof.
  unfold str_leb, str_ltb. rewrite (String.compare_antisym a b). by destruct (String.compare b a).
Qed.

(** What [retain] does to the messages it is given: it keeps those it kept
    before that are after the snapshot or asked for. *)
Lemma retain_spec p es through retained p' :
  retain p es through retained = Returned p' →
  match through with
  | None => p' = p
  | Some through =>
      (∃ e, e ∈ es ∧ control_id e = through) ∧
      (∃ w, projection_through p' = Some w ∧ (w = through ∨ projection_through p = Some w)) ∧
      ∀ e, e ∈ es → includes p' (control_id e) =
        includes p (control_id e) && (str_ltb through (control_id e) || contains (control_id e) retained)
  end.
Proof.
  unfold retain. destruct through as [through|]; [|by intros [= <-]]. intros Hr. inv_returned.
  apply negb_false_iff, existsb_exists in E as (e0 & Hin0 & Heq0%String.eqb_eq). apply list_elem_of_In in Hin0.
  split; [by exists e0|]. cbn [projection_through].
  set (w := from_option (λ old, if str_ltb through old then old else through) through (projection_through p)).
  assert (w = through ∨ projection_through p = Some w) as Hw
    by (unfold w; destruct (projection_through p) as [old|]; cbn; [case_match|]; auto).
  split; [by exists w|]. intros e He. unfold includes at 1. cbn [projection_through projection_retained from_option].
  assert (∀ id, (∃ e', e' ∈ es ∧ control_id e' = id) → contains id (to_set (map control_id (filter (λ e,
      str_leb (control_id e) w && includes p (control_id e) &&
      (str_ltb through (control_id e) || contains (control_id e) (to_set retained)) = true) es))) =
    str_leb id w && includes p id && (str_ltb through id || contains id retained)) as Hvisible.
  { intros id (e' & He' & <-). apply eq_true_iff_eq. rewrite contains_true, elem_of_to_set.
    assert (contains (control_id e') (to_set retained) = contains (control_id e') retained) as Hset
      by (unfold contains; apply bool_decide_ext, elem_of_to_set).
    rewrite <- Hset. split.
    - intros (e'' & Heq & [Hkeep _]%list_elem_of_filter)%list_elem_of_fmap. by rewrite Heq.
    - intros Hkeep. apply (list_elem_of_fmap_2 control_id), list_elem_of_filter. by split. }
  rewrite Hvisible by (by exists e). rewrite str_leb_lt. destruct (str_ltb w (control_id e)) eqn:Ew; cbn [negb andb orb]; [|done].
  apply str_ltb_lt in Ew. symmetry. apply andb_true_iff. unfold includes.
  assert (str_lt through (control_id e) ∧ ∀ old, projection_through p = Some old → str_lt old (control_id e)) as [Ht Hold].
  { unfold w in Ew. destruct (projection_through p) as [old|]; cbn in Ew; [|by split].
    destruct (str_ltb through old) eqn:El.
    - apply str_ltb_lt in El. split; [by eapply str_lt_trans|]. by intros ? [= <-].
    - split; [done|]. intros ? [= <-]. destruct (str_lt_trichotomy through old) as [Hlt|[->|Hlt]]; [|done|by eapply str_lt_trans].
      apply str_ltb_lt in Hlt. congruence. }
  split; apply orb_true_iff; left; [|by apply str_ltb_lt].
  destruct (projection_through p) as [old|]; [|done]. cbn. by apply str_ltb_lt, Hold.
Qed.

Definition projections_ok s : Prop :=
  ∀ sid w, projection_through (projection_of sid s) = Some w → ∃ e, e ∈ messages sid (task_log s) ∧ control_id e = w.

Lemma step_projection op s s' sid :
  task_step op s s' →
  projection_of sid s' = projection_of sid s ∧ (∀ through retained, op ≠ OpRetain sid through retained) ∨
  ∃ through retained, op = OpRetain sid through retained ∧ task_log s' = task_log s ∧
    projection_of sid s' = match retain (projection_of sid s) (messages sid (task_log s)) through retained with
                           | Returned p => p
                           | Raised _ => projection_of sid s
                           end.
Proof.
  intros Hstep. destruct Hstep as [op s1 n Hop _|a s1|id u s1|op id name s1 t e n Hreq|sid' u s1|sid' through retained s1 p];
    try (left; split; [done|]; intros; congruence).
  - left. split; [done|]. by intros ? ? ->.
  - left. split; [done|]. by intros ? ? ->.
  - destruct (decide (sid = sid')) as [->|Hne].
    + right. exists through, retained. split_and!; [done..|]. unfold projection_of at 1. cbn. by rewrite btree_get_insert_eq.
    + left. split; [|by intros ? ? [= ->]]. unfold projection_of. cbn. by rewrite btree_get_insert_ne.
Qed.

Lemma step_projections_ok op s s' : projections_ok s → task_step op s s' → projections_ok s'.
Proof.
  intros Hp Hstep sid w Hw. destruct (step_log _ _ _ Hstep) as (es & Hlog & _).
  assert (∀ e, e ∈ messages sid (task_log s) → e ∈ messages sid (task_log s')) as Hgrow
    by (intros e He; rewrite Hlog, messages_app; set_solver).
  assert (projection_through (projection_of sid s) = Some w → ∃ e, e ∈ messages sid (task_log s') ∧ control_id e = w) as Hold.
  { intros Hw'. destruct (Hp _ _ Hw') as (e & He & Hid). exists e. auto. }
  destruct (step_projection _ _ _ sid Hstep) as [[Heq Hop]|(through & retained & -> & _ & Heq)]; rewrite Heq in Hw; [by apply Hold|].
  destruct (retain _ _ _ _) as [p'|] eqn:Er; [|by apply Hold]. apply retain_spec in Er.
  destruct through as [through|]; [|subst p'; by apply Hold]. destruct Er as ((e & He & Hid) & (w' & Hw' & Hor) & _).
  assert (w' = w) as -> by congruence. destruct Hor as [->|Hor]; [exists e; auto|by apply Hold].
Qed.

(** ** Invariants of reachable tables *)

Record tables_ok s : Prop := {
  ok_keyed : keyed (tasks s);
  ok_numbered : numbered (control_event_seq s) (task_log s);
  ok_attributed : attributed s;
  ok_projections : projections_ok s
}.

Lemma tables_ok_step op s s' : tables_ok s → task_step op s s' → tables_ok s'.
Proof.
  intros [Hk Hn Ha Hp] Hstep.
  split; [by eapply step_keyed|by eapply step_numbered|by eapply step_attributed|by eapply step_projections_ok].
Qed.

Lemma reachable_tables_ok admissible s : tasks_reachable admissible s → tables_ok s.
Proof.
  induction 1 as [|now op s Hr IH _]; [|eapply tables_ok_step; [exact IH|apply perform_step]].
  split; [split; constructor| |constructor|done]. split_and!; [done|constructor..].
Qed.

(** ** The log of a task *)

(** The names the store gives to changes of status. *)
Definition LIFECYCLE : list string :=
  "task.started"%string :: map TaskStatus.event
    [TaskStatus.Submitted; TaskStatus.Working; TaskStatus.InputRequired; TaskStatus.AuthRequired;
     TaskStatus.Completed; TaskStatus.Failed; TaskStatus.Canceled].

Definition status_name (st : TaskStatus) (previous : option TaskStatus) : string :=
  if decide (st = TaskStatus.Working ∧ (previous = None ∨ previous = Some TaskStatus.Submitted)) then "task.started"
  else TaskStatus.event st.

(** The names of the status events of [id], in order *)
Definition lifecycle id (log : list TaskControlEvent) : list string :=
  filter (λ name, name ∈ LIFECYCLE) (map control_event (filter (λ e, control_task_id e = id) log)).

(** The runs of the state machine: what is logged, and the status it leads to. *)
Inductive history : list string → TaskStatus → Prop :=
  | history_admitted st : TaskStatus.is_active st = true → history [status_name st None] st
  | history_moved names st st' :
      history names st → TaskStatus.allowed st st' = true → history (names ++ [status_name st' (Some st)]) st'.

Lemma status_event_name t previous : new_event (status_event t previous) = status_name (task_status t) previous.
Proof.
  unfold status_event, status_name. cbn.
  destruct previous as [previous|]; cbn; repeat case_bool_decide; case_decide; cbn; naive_solver.
Qed.

Lemma status_name_lifecycle st previous : status_name st previous ∈ LIFECYCLE.
Proof.
  unfold status_name. case_decide; [by left|]. right. apply list_elem_of_fmap. exists st. split; [done|].
  destruct st; set_solver.
Qed.

Lemma status_name_inj st st' previous previous' : status_name st previous = status_name st' previous' → st = st'.
Proof.
  unfold status_name. intros Heq. destruct (decide _) as [[-> _]|_]; destruct (decide _) as [[-> _]|_]; try done.
  - by destruct st'.
  - by destruct st.
  - by destruct st, st'.
Qed.

(** The log alone determines the status. *)
Lemma history_determines names st st' : history names st → history names st' → st = st'.
Proof.
  intros Ha Hb. assert (∀ names st, history names st → ∃ previous, last names = Some (status_name st previous)) as Hlast.
  { intros ? ? []; [by eexists|]. eexists. apply last_snoc. }
  destruct (Hlast _ _ Ha) as [p Hp], (Hlast _ _ Hb) as [q Hq]. rewrite Hp in Hq. injection Hq. apply status_name_inj.
Qed.

Lemma lifecycle_app id log es : lifecycle id (log ++ es) = lifecycle id log ++ lifecycle id es.
Proof. unfold lifecycle. by rewrite filter_app, map_app, filter_app. Qed.

Lemma lifecycle_other id es : Forall (λ e, control_task_id e ≠ id) es → lifecycle id es = [].
Proof.
  intros Hes. unfold lifecycle. induction Hes as [|e es He _ IH]; [done|]. by rewrite filter_cons_False.
Qed.

Lemma lifecycle_own id es :
  Forall (λ e, control_task_id e = id) es → lifecycle id es = filter (λ name, name ∈ LIFECYCLE) (map control_event es).
Proof.
  intros Hes. unfold lifecycle. f_equal. f_equal. induction Hes as [|e es He _ IH]; [done|].
  by rewrite filter_cons_True, IH.
Qed.

Lemma lifecycle_one id t e :
  concerns t e → lifecycle id [e] = if decide (task_id t = id ∧ control_event e ∈ LIFECYCLE) then [control_event e] else [].
Proof.
  intros [Hid _]. case_decide as Hd.
  - destruct Hd as [Ht Hin]. rewrite lifecycle_own by (constructor; [congruence|done]). cbn. by rewrite decide_True.
  - destruct (decide (task_id t = id)) as [Ht|Ht].
    + rewrite lifecycle_own by (constructor; [congruence|done]). cbn. rewrite decide_False; naive_solver.
    + apply lifecycle_other. constructor; [congruence|done].
Qed.

Lemma lifecycle_canceled id ts es :
  NoDup (map task_id ts) →
  Forall2 (λ t e, concerns t e ∧ control_event e = TaskStatus.event TaskStatus.Canceled) ts es →
  lifecycle id es = if decide (id ∈ map task_id ts) then [TaskStatus.event TaskStatus.Canceled] else [].
Proof.
  intros Hnd Hes. induction Hes as [|t e ts es [Hc He] Hes IH]; cbn [map] in *; [by rewrite decide_False by set_solver|].
  apply NoDup_cons in Hnd as [Hni Hnd]. change (e :: es) with ([e] ++ es).
  rewrite lifecycle_app, IH, (lifecycle_one id t e Hc), He by done.
  assert (TaskStatus.event TaskStatus.Canceled ∈ LIFECYCLE) as Hin by (unfold LIFECYCLE; set_solver).
  destruct (decide (task_id t = id)) as [<-|Hne].
  - rewrite (decide_True (P := _ ∧ _)) by done. by rewrite decide_False, decide_True by set_solver.
  - rewrite (decide_False (P := _ ∧ _)) by naive_solver. cbn [app]. apply decide_ext. set_solver.
Qed.

(** Callers leave the names of status events to the store. *)
Definition leaves_lifecycle (op : TaskOp) : Prop :=
  match op with
  | OpAdmit a => Forall (λ request, new_event request ∉ LIFECYCLE) (admit_initial_events a)
  | OpEvent _ request => new_event request ∉ LIFECYCLE
  | _ => True
  end.

Definition logged s : Prop :=
  ∀ id t, BTree.get id (tasks s) = Some t → history (lifecycle id (task_log s)) (task_status t).

Lemma filter_none {A} (P : A → Prop) `{∀ x, Decision (P x)} l : Forall (λ x, ¬ P x) l → filter P l = [].
Proof. induction 1 as [|x l Hx _ IH]; [done|]. by rewrite filter_cons_False. Qed.

Lemma canceled_nodup (closing : Prop) `{Decision closing} sid s ts :
  keyed (tasks s) →
  Forall2 (λ t t', same_task t t' ∧ task_status t' = TaskStatus.Canceled)
    (if decide closing then active_tasks sid s else []) ts → NoDup (map task_id ts).
Proof.
  intros Hk Hts. destruct (decide closing); [|inversion Hts; constructor].
  assert (map task_id ts = map task_id (active_tasks sid s)) as ->; [|by apply active_nodup].
  clear Hk. induction Hts as [|t t' l ts [[Hid _] _] _ IH]; cbn; congruence.
Qed.

Lemma step_logged op s s' : tables_ok s → leaves_lifecycle op → logged s → task_step op s s' → logged s'.
Proof.
  intros [Hk _ Ha _] Hleave Hlog Hstep. revert Hk Ha Hleave Hlog.
  destruct Hstep as [op' s1 n _ _|a s1 t d es n Hnew _ _ Hact _ _ _ _ Hc Hnames|id u s1 t t' e n Hget _ Hall [Hid _] _ Hc Hev|
    op' id name s1 t e n Hreq Hget _ Hc Hev|sid u s1 d d' ts es n _ _ [Hts Hes] _|sid through retained s1 p]; cbn;
    intros Hk Ha Hleave Hlog id0 t0 Hget0;
    cbn [tasks task_log admitted_tables updated_tables put_sequence put_projection] in *; try (by apply Hlog).
  - rewrite lifecycle_app. destruct (decide (id0 = task_id t)) as [->|Hne].
    + rewrite btree_get_insert_eq in Hget0. injection Hget0 as <-. rewrite lifecycle_other.
      2: { unfold attributed in Ha. eapply Forall_impl; [exact Ha|]. intros e (t0 & Ht0 & _) Heq. congruence. }
      rewrite lifecycle_own by (eapply Forall_impl; [exact Hc|]; by intros ? [? _]). rewrite Hnames, status_event_name.
      rewrite filter_cons_True by apply status_name_lifecycle. rewrite filter_none; [by apply history_admitted|].
      apply Forall_fmap. exact Hleave.
    + rewrite btree_get_insert_ne in Hget0 by done. rewrite (lifecycle_other id0 es), app_nil_r; [by apply Hlog|].
      eapply Forall_impl; [exact Hc|]. intros e [-> _]. congruence.
  - rewrite lifecycle_app, (lifecycle_one _ _ _ Hc), Hev, status_event_name. pose proof (keyed_get _ _ _ Hk Hget) as Hkey.
    destruct (decide (id0 = task_id t')) as [->|Hne].
    + rewrite btree_get_insert_eq in Hget0. injection Hget0 as <-.
      rewrite decide_True by (split; [done|apply status_name_lifecycle]). apply history_moved; [|done].
      apply Hlog. by rewrite Hid, Hkey.
    + rewrite btree_get_insert_ne in Hget0 by done. rewrite decide_False, app_nil_r by naive_solver. by apply Hlog.
  - rewrite lifecycle_app, (lifecycle_one _ _ _ Hc), decide_False, app_nil_r; [by apply Hlog|]. intros [_ Hin]. rewrite Hev in Hin.
    destruct op'; try done; injection Hreq as _ <-; cbn in Hleave; [done|]. unfold LIFECYCLE, MESSAGE_CREATED in Hin. set_solver.
  - rewrite lifecycle_app. pose proof (canceled_nodup _ sid s1 ts Hk Hts) as Hnd.
    rewrite (lifecycle_canceled id0 ts es Hnd Hes).
    destruct (put_tasks_get id0 ts (tasks s1)) as [[Hsame Hni]|(t' & Hin & Hid' & Hget')].
    + rewrite Hsame in Hget0. rewrite decide_False, app_nil_r by done. by apply Hlog.
    + rewrite Hget' in Hget0. injection Hget0 as <-. rewrite decide_True by (rewrite <- Hid'; by apply list_elem_of_fmap_2).
      destruct (canceled_from _ sid s1 ts t' Hk Hts Hin) as (t & Ht & _ & _ & Hact & Hst). rewrite Hst.
      change (TaskStatus.event TaskStatus.Canceled) with (status_name TaskStatus.Canceled (Some (task_status t))).
      apply history_moved; [rewrite <- Hid'; by apply Hlog|by destruct (task_status t)].
Qed.

(** ** What callers can rely on *)

(** A task that is finished stays as it is. *)
Lemma finished_stays id t steps s :
  keyed (tasks s) → BTree.get id (tasks s) = Some t → TaskStatus.is_active (task_status t) = false →
  BTree.get id (tasks (task_run steps s)) = Some t.
Proof.
  intros Hk Hget Hdone.
  apply (run_keeps (λ s, keyed (tasks s) ∧ BTree.get id (tasks s) = Some t)); [|done].
  intros op s0 s1 [Hk0 Hget0] Hstep. split; [by eapply step_keyed|].
  destruct (step_task _ _ _ id Hk0 Hstep) as [->|(t' & _ & _ & [(Hnone & _)|(t0 & Ht0 & _ & Hall)])]; [done|congruence|].
  assert (t0 = t) as -> by congruence. by destruct (task_status t).
Qed.

(** C23: The log is the history of the tasks. In every state the store can reach,
    as long as callers do not log status events themselves, the status events
    of a task, in the order of their identifiers, are a run of the status
    machine from an admission to the status the record has, and to no other; a
    task that reached a final status is never changed again, whatever is done. *)
Theorem task_log_replays s id t :
  tasks_reachable leaves_lifecycle s → BTree.get id (tasks s) = Some t →
  history (lifecycle id (task_log s)) (task_status t) ∧
  (∀ st, history (lifecycle id (task_log s)) st → st = task_status t) ∧
  StronglySorted str_lt (map control_id (task_log s)) ∧
  (TaskStatus.is_active (task_status t) = false →
     ∀ steps, BTree.get id (tasks (task_run steps s)) = Some t).
Proof.
  intros Hr Hget. pose proof (reachable_tables_ok _ _ Hr) as [Hk (_ & Hsorted & _) _ _].
  assert (logged s) as Hlog.
  { clear Hget Hk Hsorted. induction Hr as [|now op s Hr IH Hleave]; [done|].
    eapply step_logged; [by eapply reachable_tables_ok|done|done|apply perform_step]. }
  specialize (Hlog _ _ Hget). split_and!; [done| |done|intros; by apply finished_stays].
  intros st Hst. by eapply history_determines.
Qed.

(** Sessions that are not open, without unfinished tasks. *)
Definition retired sid s : Prop :=
  (∃ d, BTree.get sid (task_sessions s) = Some d ∧ ts_status d ≠ SessionStatus.Open) ∧
  ∀ id t, BTree.get id (tasks s) = Some t → task_session_id t = sid → TaskStatus.is_active (task_status t) = false.

Lemma step_retired op s s' sid : keyed (tasks s) → retired sid s → task_step op s s' → retired sid s'.
Proof.
  intros Hk [(d & Hd & Hne) Hidle] Hstep. split.
  - destruct (step_session_kept _ _ _ _ _ Hstep Hd) as (d' & Hd' & Hopen). exists d'. auto.
  - intros id t' Hget Hsid. destruct (step_task _ _ _ id Hk Hstep) as [Heq|(t1 & Hget1 & _ & Hchange)].
    { apply (Hidle id); congruence. }
    assert (t1 = t') as -> by congruence. destruct Hchange as [(_ & _ & Hopen)|(t & Ht & [_ Hsame] & Hall)].
    + rewrite Hsid in Hopen. by destruct (Hne (Hopen _ Hd)).
    + specialize (Hidle _ _ Ht ltac:(congruence)). by destruct (task_status t).
Qed.

(** Who is canceled: the unfinished tasks of the session. *)
Lemma canceled_who sid s ts id t :
  keyed (tasks s) →
  Forall2 (λ t t', same_task t t' ∧ task_status t' = TaskStatus.Canceled) (active_tasks sid s) ts →
  BTree.get id (tasks s) = Some t →
  id ∈ map task_id ts ↔ task_session_id t = sid ∧ TaskStatus.is_active (task_status t) = true.
Proof.
  intros Hk Hts Hget.
  assert (map task_id ts = map task_id (active_tasks sid s)) as ->
    by (clear -Hts; induction Hts as [|? ? ? ? [[? _] _] _ IH]; cbn; congruence).
  rewrite list_elem_of_fmap. split.
  - intros (t0 & -> & Hin). apply active_elem in Hin as (Hget0 & ? & ?); [|done]. by assert (t0 = t) as -> by congruence.
  - intros [? ?]. exists t. pose proof (keyed_get _ _ _ Hk Hget) as Hkey. split; [done|].
    apply active_elem; [done|]. by rewrite Hkey.
Qed.

(** What happens to each task of the tables when a session closes. *)
Lemma closing_tasks sid d ts es n s id t :
  keyed (tasks s) → canceled (ts_status d = SessionStatus.Closed) sid s ts es → ts_status d = SessionStatus.Closed →
  BTree.get id (tasks s) = Some t →
  let s' := updated_tables sid d ts es n s in
  if decide (task_session_id t = sid ∧ TaskStatus.is_active (task_status t) = true)
  then (∃ t', BTree.get id (tasks s') = Some t' ∧ task_status t' = TaskStatus.Canceled) ∧
       lifecycle id es = ["task.canceled"%string]
  else BTree.get id (tasks s') = Some t ∧ lifecycle id es = [].
Proof.
  intros Hk [Hts Hes] Hclosed Hget. rewrite (lifecycle_canceled id ts es (canceled_nodup _ _ _ _ Hk Hts) Hes).
  pose proof Hts as Hts'. rewrite decide_True in Hts' by done. pose proof (canceled_who _ _ _ _ _ Hk Hts' Hget) as Hwho.
  cbn [updated_tables tasks]. destruct (put_tasks_get id ts (tasks s)) as [[Hsame Hni]|(t' & Hin & Hid & Hget')].
  - rewrite !decide_False by (rewrite <- ?Hwho; done). split; [congruence|done].
  - assert (id ∈ map task_id ts) as Hm by (rewrite <- Hid; by apply list_elem_of_fmap_2).
    rewrite (decide_True (P := id ∈ _)), decide_True by (rewrite <- ?Hwho; done). split; [|done]. exists t'. split; [done|].
    by destruct (canceled_from _ sid s ts t' Hk Hts Hin) as (? & _ & _ & _ & _ & ?).
Qed.

Lemma closing_retires sid d ts es n s :
  keyed (tasks s) → canceled (ts_status d = SessionStatus.Closed) sid s ts es → ts_status d = SessionStatus.Closed →
  retired sid (updated_tables sid d ts es n s).
Proof.
  intros Hk [Hts Hes] Hclosed. split; [exists d; cbn; rewrite btree_get_insert_eq; split; [done|]; by rewrite Hclosed|].
  intros id t Hget Hsid. cbn [updated_tables tasks] in Hget.
  destruct (put_tasks_get id ts (tasks s)) as [[Hsame Hni]|(t' & Hin & Hid & Hget')].
  - rewrite Hsame in Hget. destruct (TaskStatus.is_active _) eqn:Eact; [|done]. destruct Hni.
    rewrite decide_True in Hts by done. by apply (canceled_who _ _ _ _ _ Hk Hts Hget).
  - assert (t = t') as -> by congruence. by destruct (canceled_from _ sid s ts t' Hk Hts Hin) as (? & _ & _ & _ & _ & ->).
Qed.

(** C26: Closing a session settles it. When [update_task_session] leaves a session
    closed, every unfinished task of it is canceled in the same step, with one
    event each, and no other task is touched; and from then on, whatever is
    done, the session has no unfinished task: nothing is admitted to it and
    nothing in it starts again. *)
Theorem closing_settles now sid u s s' d es :
  tasks_reachable (λ _, True) s →
  update_task_session hooks now sid u s = (s', Returned (d, es)) → ts_status d = SessionStatus.Closed →
  task_log s' = task_log s ++ es ∧
  (∀ id t, BTree.get id (tasks s) = Some t →
     if decide (task_session_id t = sid ∧ TaskStatus.is_active (task_status t) = true)
     then (∃ t', BTree.get id (tasks s') = Some t' ∧ task_status t' = TaskStatus.Canceled) ∧
          lifecycle id es = ["task.canceled"%string]
     else BTree.get id (tasks s') = Some t ∧ lifecycle id es = []) ∧
  ∀ steps id t, BTree.get id (tasks (task_run steps s')) = Some t → task_session_id t = sid →
    TaskStatus.is_active (task_status t) = false.
Proof.
  intros Hr Hu Hclosed. pose proof (reachable_tables_ok _ _ Hr) as [Hk _ _ _].
  pose proof (session_step now sid u s) as [Hstep Hout]. rewrite Hu in Hstep, Hout. cbn [fst snd] in *.
  destruct (Hout _ _ eq_refl) as (ts & n & Hcanceled & ->). split_and!; [done|intros; by apply closing_tasks|].
  intros steps id t Hget Hsid.
  assert (∀ s, keyed (tasks s) ∧ retired sid s → keyed (tasks (task_run steps s)) ∧ retired sid (task_run steps s)) as Hkeep.
  { intros s0 Hs0. apply (run_keeps (λ s, keyed (tasks s) ∧ retired sid s)); [|done].
    intros op s1 s2 [Hk1 Hr1] Hstep1. split; [by eapply step_keyed|by eapply step_retired]. }
  destruct (Hkeep (updated_tables sid d ts es n s)) as [_ [_ Hidle]]; [|by eapply Hidle].
  split; [by eapply step_keyed|by apply closing_retires].
Qed.

(** A reader of the session's messages is shown this one. *)
Definition shown sid s e : Prop :=
  ∃ view, (task_message_view hooks sid s).2 = Returned view ∧ control_id e ∈ map control_id (view_events view).

(** The operation is a request to hide the message: it names a message of the
    session as its snapshot, this one is not after it, and is not to be kept. *)
Definition hides sid s e (op : TaskOp) : Prop :=
  match op with
  | OpRetain sid' (Some through) retained =>
      sid' = sid ∧ (∃ e0, e0 ∈ messages sid (task_log s) ∧ control_id e0 = through) ∧
      ¬ str_lt through (control_id e) ∧ control_id e ∉ retained
  | _ => False
  end.

Lemma control_redacted_id e : control_id (control_redacted hooks e) = control_id e.
Proof. unfold control_redacted. by destruct (redaction hooks). Qed.

Lemma shown_includes sid s e :
  e ∈ messages sid (task_log s) → shown sid s e ↔ includes (projection_of sid s) (control_id e) = true.
Proof.
  intros He. assert (shown sid s e ↔
    control_id e ∈ map control_id (filter (λ e, includes (projection_of sid s) (control_id e) = true)
      (map (control_redacted hooks) (messages sid (task_log s))))) as ->.
  { unfold shown, task_message_view. rewrite locked_bind_eq. cbn. split; [by intros (? & [= <-] & ?)|]. intros Hin.
    by eexists. }
  rewrite list_elem_of_fmap. split.
  - intros (e' & -> & [Hin _]%list_elem_of_filter). done.
  - intros Hin. exists (control_redacted hooks e). rewrite control_redacted_id. split; [done|].
    apply list_elem_of_filter. rewrite control_redacted_id. split; [done|]. by apply list_elem_of_fmap_2.
Qed.

(** What was committed later than every snapshot is not hidden. *)
Lemma new_shown sid s s' e es :
  tables_ok s → numbered (control_event_seq s') (task_log s') → task_log s' = task_log s ++ es →
  e ∈ es → includes (projection_of sid s) (control_id e) = true.
Proof.
  intros [_ _ _ Hp] (_ & Hsorted & _) Hlog He. unfold includes.
  destruct (projection_through (projection_of sid s)) as [w|] eqn:Ew; [|done]. apply orb_true_iff. left. cbn.
  destruct (Hp _ _ Ew) as (e0 & He0%messages_elem & <-). rewrite Hlog, map_app in Hsorted.
  apply str_ltb_lt. apply (sorted_before _ _ _ Hsorted); by apply list_elem_of_fmap_2.
Qed.

Lemma retain_raised p es through retained err w :
  retain p es through retained = Raised err → through = Some w → ¬ ∃ e, e ∈ es ∧ control_id e = w.
Proof.
  intros Hr ->. unfold retain in Hr. cbn in Hr. destruct (existsb _ es) eqn:E; [done|]. intros (e & He & <-).
  assert (existsb (λ e0, String.eqb (control_id e0) (control_id e)) es = true); [|congruence].
  apply existsb_exists. exists e. rewrite String.eqb_refl. by split; [apply list_elem_of_In|].
Qed.

(** C25: Messages are hidden only on request. Whatever the operation, afterwards a
    message of the session is shown exactly if it was shown before, or is new,
    and the operation did not ask to hide it; no event is ever removed from the
    log. So a message committed after the snapshot a reader compacts stays
    visible. *)
Theorem hidden_only_on_request now op s sid e :
  tasks_reachable (λ _, True) s →
  let s' := perform_task now op s in
  task_log s `prefix_of` task_log s' ∧
  (e ∈ messages sid (task_log s') →
   shown sid s' e ↔ ¬ hides sid s e op ∧ (e ∈ task_log s → shown sid s e)).
Proof.
  intros Hr s'. pose proof (reachable_tables_ok _ _ Hr) as Hok.
  pose proof (perform_step now op s) as Hstep. fold s' in Hstep. destruct (step_log _ _ _ Hstep) as (es & Hlog & _).
  split; [exists es; exact Hlog|]. intros He. rewrite (shown_includes _ _ _ He).
  assert (e ∈ task_log s → e ∈ messages sid (task_log s)) as Hmessage.
  { intros Hin. apply list_elem_of_filter in He as [He _]. apply list_elem_of_filter. by split. }
  destruct (step_projection _ _ _ sid Hstep) as [[Heq Hop]|(through & retained & -> & Hsame & Heq)]; rewrite Heq.
  - assert (¬ hides sid s e op) as Hno
      by (intros Hh; destruct op as [| | | | | |sid' [through|] retained]; try done; destruct Hh as [-> _]; by eapply Hop).
    assert (e ∈ task_log s ∨ e ∈ es) as [Hin|Hnew] by (apply messages_elem in He; rewrite Hlog in He; set_solver).
    + rewrite (shown_includes _ _ _ (Hmessage Hin)). tauto.
    + apply (new_shown sid s s' e es Hok) in Hnew; [|by eapply step_numbered, Hstep; apply Hok|done].
      rewrite Hnew. split; [|done]. intros _. split; [done|]. intros Hin. by apply shown_includes; [apply Hmessage|].
  - rewrite Hsame in He. pose proof (messages_elem _ _ _ He) as Hin. rewrite (shown_includes _ _ _ He).
    destruct (retain _ _ _ _) as [p'|err] eqn:Er.
    + apply retain_spec in Er. destruct through as [through|]; [|subst p'; cbn; tauto]. destruct Er as (Hvalid & _ & Hinc).
      rewrite (Hinc e He), andb_true_iff, orb_true_iff, contains_true, str_ltb_lt. cbn.
      destruct (decide (str_ltb through (control_id e) = true)) as [Hlt|Hlt]; rewrite str_ltb_lt in Hlt;
        destruct (decide (control_id e ∈ retained)); tauto.
    + destruct through as [through|]; [|done]. pose proof (retain_raised _ _ _ _ _ _ Er eq_refl) as Hinvalid. cbn.
      split; [intros Hi; split; [intros (_ & Hv & _); by apply Hinvalid|done]|intros [_ Hi]; by apply Hi].
Qed.

(** An admission under this binding comes before the binding expires. *)
Definition within (digest : string) (expires : Z) (op : TaskOp) : Prop :=
  match op with
  | OpAdmit a => ∀ retry, admit_retry a = Some retry → retry_binding_digest retry = digest → (admit_now_ms a < expires)%Z
  | _ => True
  end.

Lemma step_binding digest b op s s' :
  BTree.get digest (task_bindings s) = Some b → within digest (binding_expires_at_ms b) op → task_step op s s' →
  BTree.get digest (task_bindings s') = Some b.
Proof.
  intros Hget Hwithin Hstep. destruct Hstep as [|a s t d es n _ _ _ _ _ _ Hun _ _ _| | | |]; try done. cbn.
  destruct (admit_retry a) as [retry|] eqn:Eretry; [|done].
  destruct (decide (digest = retry_binding_digest retry)) as [->|Hne]; [|by rewrite btree_get_insert_ne].
  destruct (Hun retry b Eretry Hget) as (t0 & _ & Hcreate). unfold retry_decision in Hcreate.
  specialize (Hwithin retry Eretry eq_refl). rewrite (proj2 (Z.leb_gt _ _)) in Hcreate by done. cbn in Hcreate.
  by destruct (String.eqb _ _).
Qed.

Lemma run_binding digest b id t steps s :
  keyed (tasks s) → BTree.get digest (task_bindings s) = Some b → BTree.get id (tasks s) = Some t →
  Forall (λ step, within digest (binding_expires_at_ms b) step.2) steps →
  BTree.get digest (task_bindings (task_run steps s)) = Some b ∧ is_Some (BTree.get id (tasks (task_run steps s))).
Proof.
  intros Hk Hget Ht Hsteps. revert s t Hk Hget Ht. induction Hsteps as [|[now op] steps Hop _ IH]; intros s t Hk Hget Ht; [done|].
  pose proof (perform_step now op s) as Hstep. destruct (step_task_same _ _ _ _ _ Hk Hstep Ht) as (t' & Ht' & _).
  eapply IH; [by eapply step_keyed|by eapply step_binding|exact Ht'].
Qed.

(** An admission under a binding that stands is answered by it. *)
Lemma admit_answered now a retry b t s :
  validate_admission a = Returned tt → admit_retry a = Some retry →
  BTree.get (retry_binding_digest retry) (task_bindings s) = Some b → BTree.get (binding_task_id b) (tasks s) = Some t →
  (admit_now_ms a < binding_expires_at_ms b)%Z ∨ TaskStatus.is_active (task_status t) = true →
  admit_task hooks now a s =
    (s, if String.eqb (binding_request_fingerprint b) (retry_request_fingerprint retry)
        then t ← task_redacted hooks t; Returned (Reused t) else Returned Conflicting).
Proof.
  intros Hv Hretry Hb Ht Hstands. unfold admit_task. rewrite locked_bind_eq. unfold lift at 1. rewrite Hv.
  rewrite locked_bind_eq. unfold admission_retry. rewrite Hretry, locked_bind_eq. cbn [gets]. rewrite Hb, locked_bind_eq.
  cbn [gets]. rewrite locked_bind_eq. unfold lift at 1. rewrite Ht. cbn [ok_or_raise]. unfold retry_decision.
  assert ((binding_expires_at_ms b <=? admit_now_ms a)%Z && negb (TaskStatus.is_active (task_status t)) = false) as ->.
  { destruct Hstands as [Hlt|Hact]; [rewrite (proj2 (Z.leb_gt _ _)) by done; done|by rewrite Hact, andb_false_r]. }
  destruct (String.eqb _ _); [|done]. rewrite locked_bind_eq. unfold lift. by destruct (task_redacted hooks t).
Qed.

(** C24: A request is admitted once. After an admission that carries a retry key,
    and after anything else has happened to the store inside the retention
    window of the key, the same key never admits another task: while the window
    lasts, and after it as long as the task is unfinished, the same request is
    answered with the task as it is now, another request under the key is a
    conflict, and neither changes the store. *)
Theorem admitted_once now a s s' t retry steps now' a' retry' :
  tasks_reachable (λ _, True) s →
  admit_task hooks now a s = (s', Returned (Created t)) → admit_retry a = Some retry →
  let expires := saturating_add_i64 (admit_now_ms a) TASK_RETRY_RETENTION_MS in
  Forall (λ step, within (retry_binding_digest retry) expires step.2) steps →
  let after := task_run steps s' in
  validate_admission a' = Returned tt → admit_retry a' = Some retry' →
  retry_binding_digest retry' = retry_binding_digest retry →
  ∃ t', BTree.get (task_id t) (tasks after) = Some t' ∧
    ((admit_now_ms a' < expires)%Z ∨ TaskStatus.is_active (task_status t') = true →
     admit_task hooks now' a' after =
       (after, if String.eqb (retry_request_fingerprint retry) (retry_request_fingerprint retry')
               then t'' ← task_redacted hooks t'; Returned (Reused t'') else Returned Conflicting)).
Proof.
  intros Hr Ha Hretry expires Hsteps after Hv Hretry' Hdigest. pose proof (reachable_tables_ok _ _ Hr) as [Hk _ _ _].
  destruct (admit_step now a s) as [Hstep Hout]. rewrite Ha in Hstep, Hout. cbn [fst snd] in *.
  destruct (Hout _ eq_refl) as (d & es & n & Heq). pose proof (step_keyed _ _ _ Hk Hstep) as Hk'.
  set (b := mkTaskBinding (task_id t) (retry_request_fingerprint retry) expires).
  destruct (run_binding (retry_binding_digest retry) b (task_id t) t steps s') as [Hb [t' Ht']]; try done.
  - rewrite Heq. unfold admitted_tables. rewrite Hretry. cbn. apply btree_get_insert_eq.
  - rewrite Heq. cbn. apply btree_get_insert_eq.
  - exists t'. split; [done|]. intros Hstands. rewrite <- Hdigest in Hb. by eapply (admit_answered now' a' retry' b t').
Qed.
End machine.

(** ** One executor per task *)

(** Leases of executors: claims and releases in the order the lock of the claims
    serialises them; a release names a lease that was granted. *)
Inductive lease_state : list string → oset string → Prop :=
  | no_leases : lease_state [] []
  | lease_claimed live claims id claims' :
      lease_state live claims → claim_task_execution id claims = Returned claims' → lease_state (id :: live) claims'
  | lease_dropped before id after claims :
      lease_state (before ++ id :: after) claims → lease_state (before ++ after) (drop_lease id claims).

(** A claim is granted exactly while nobody holds the task. *)
Lemma lease_exclusive live claims id :
  lease_state live claims →
  NoDup live ∧ (∀ id, id ∈ claims ↔ id ∈ live) ∧
  ((∃ claims', claim_task_execution id claims = Returned claims') ↔ id ∉ live).
Proof.
  intros Hstate. assert (NoDup live ∧ ∀ id, id ∈ claims ↔ id ∈ live) as [Hnd Hsame].
  { induction Hstate as [|live claims id' claims' _ [Hnd Hsame] Hclaim|before id' after claims _ [Hnd Hsame]].
    - split; [constructor|done].
    - unfold claim_task_execution in Hclaim. inv_returned. apply contains_false in E.
      split; [constructor; [by rewrite <- Hsame|done]|]. intros task. rewrite elem_of_set_insert, Hsame. by rewrite elem_of_cons.
    - rewrite <- Permutation_middle in Hnd. apply NoDup_cons in Hnd as [Hni Hnd]. split; [done|].
      intros task. unfold drop_lease. rewrite elem_of_set_remove, Hsame. rewrite !elem_of_app, elem_of_cons in *. split; [naive_solver|]. intros Hin. split; [|tauto]. by intros ->. }
  split_and!; [done..|]. unfold claim_task_execution, raise_if. destruct (contains id claims) eqn:E; cbn.
  - apply contains_true in E. split; [by intros [? ?]|]. intros Hni. destruct Hni. by apply Hsame.
  - apply contains_false in E. split; [|by eexists]. intros _ Hin. by apply E, Hsame.
Qed.

(** ** Examples *)

Section samples.
#[local] Existing Instance sample_json.
#[local] Existing Instance sample_crates.
#[local] Existing Instance sample_signing.

Definition sample_task (id : string) : TaskRecord :=
  mkTaskRecord id "s1" "w1" "now" "now" TaskStatus.Submitted Value.Null Value.Null "user" None None None None None None None
    None None None None.
Definition sample_task_session : TaskSessionDescriptor :=
  mkTaskSession "s1" "w1" "/work" "agent" None (Value.Object []) None None None None "now" "now" None SessionStatus.Open.
Definition sample_digest : string := String.concat "" (repeat "0a"%string 32).
Definition sample_retry : StoredTaskRetry := mkStoredTaskRetry sample_digest sample_digest.
Definition sample_admission (id : string) (retry : option StoredTaskRetry) (now_ms : Z) : AdmitTask :=
  mkAdmitTask (sample_task id) sample_task_session retry [mkNewControlEvent "task.note" Value.Null] now_ms.
Definition sample_working : TaskUpdate := mkTaskUpdate TaskStatus.Working "later" None.
Definition sample_closing : TaskSessionUpdate := mkTaskSessionUpdate None None None (Some SessionStatus.Closed) "end".

Definition at_now (op : TaskOp) : (nat → string) * TaskOp := (λ _, "now"%string, op).
Definition sample_task_steps : list ((nat → string) * TaskOp) :=
  map at_now
    [OpAdmit (sample_admission "t1" (Some sample_retry) 0); OpUpdate "t1" sample_working;
     OpInput "t1" "s1" (Value.String "hello"); OpAdmit (sample_admission "t2" None 1); OpInput "t2" "s1" Value.Null].
Definition sample_tables : TaskTables := task_run default_hooks sample_task_steps no_tasks.
Definition closed_tables : TaskTables := task_run default_hooks [at_now (OpUpdateSession "s1" sample_closing)] sample_tables.

Lemma sample_tables_reachable (admissible : TaskOp → Prop) :
  (∀ op, leaves_lifecycle op → admissible op) → tasks_reachable default_hooks admissible sample_tables.
Proof.
  intros Had. apply reachable_task_run; [constructor|]. unfold sample_task_steps. cbn [map at_now].
  assert ("task.note"%string ∉ LIFECYCLE) as Hnote by (apply (bool_decide_unpack _); vm_compute; exact I).
  repeat (apply Forall_cons; split; [apply Had; cbn; try done; by repeat constructor|]). constructor.
Qed.

Lemma task_log_replays_witness :
  ∃ t, BTree.get "t1" (tasks closed_tables) = Some t ∧ task_status t = TaskStatus.Canceled ∧
    history ["task.submitted"; "task.started"; "task.canceled"]%string TaskStatus.Canceled ∧
    BTree.get "t1" (tasks (task_run default_hooks [at_now (OpUpdate "t1" sample_working)] closed_tables)) = Some t.
Proof.
  eexists. split; [vm_compute; reflexivity|]. split; [reflexivity|].
  assert (tasks_reachable default_hooks leaves_lifecycle closed_tables) as Hr
    by (apply reachable_task_run; [by apply sample_tables_reachable|by repeat constructor]).
  match goal with |- _ ∧ _ = Some ?t =>
    destruct (@task_log_replays sample_json sample_crates default_hooks closed_tables "t1" t Hr) as (Hh & _ & _ & Hfinal)
  end; [vm_compute; reflexivity|].
  split; [exact Hh|]. apply Hfinal. reflexivity.
Defined.

Lemma closing_settles_witness :
  ∃ d es, update_task_session default_hooks (λ _, "now"%string) "s1" sample_closing sample_tables = (closed_tables, Returned (d, es)) ∧
    map control_task_id es = ["t1"; "t2"]%string ∧
    (∃ t', BTree.get "t2" (tasks closed_tables) = Some t' ∧ task_status t' = TaskStatus.Canceled).
Proof.
  assert (∃ d es, update_task_session default_hooks (λ _, "now"%string) "s1" sample_closing sample_tables =
    (closed_tables, Returned (d, es)) ∧ ts_status d = SessionStatus.Closed ∧ map control_task_id es = ["t1"; "t2"]%string)
    as (d & es & Hu & Hd & Hes) by (eexists _, _; split; [vm_compute; reflexivity|by split]).
  assert (∃ t, BTree.get "t2" (tasks sample_tables) = Some t ∧ task_session_id t = "s1"%string ∧
    TaskStatus.is_active (task_status t) = true) as (t & Ht & Hactive) by (eexists; split; [vm_compute; reflexivity|by split]).
  exists d, es. split; [exact Hu|]. split; [exact Hes|].
  destruct (@closing_settles sample_json sample_crates default_hooks (λ _, "now"%string) "s1" sample_closing
    sample_tables closed_tables d es (sample_tables_reachable _ (λ _ _, I)) Hu Hd) as (_ & Hall & _).
  specialize (Hall "t2"%string t Ht). destruct (decide _) as [_|Hn] in Hall; [exact (proj1 Hall)|destruct (Hn Hactive)].
Defined.

Definition sample_message : string := event_name 4.

(** The first message is hidden, the second was not asked to be. *)
Lemma hidden_only_on_request_witness :
  let op := OpRetain "s1" (Some sample_message) [] in
  ∃ e1 e2, e1 ∈ messages "s1" (task_log sample_tables) ∧ e2 ∈ messages "s1" (task_log sample_tables) ∧
    ¬ shown default_hooks "s1" (perform_task default_hooks (λ _, "now"%string) op sample_tables) e1 ∧
    shown default_hooks "s1" (perform_task default_hooks (λ _, "now"%string) op sample_tables) e2.
Proof.
  intros op. set (log := messages "s1" (task_log sample_tables)).
  assert (∃ e1 e2, log = [e1; e2] ∧ control_id e1 = sample_message ∧ control_id e2 = event_name 7 ∧
    includes (projection_of "s1" sample_tables) (control_id e2) = true) as (e1 & e2 & Hlog & Hid1 & Hid2 & Hinc)
    by (eexists _, _; split; [vm_compute; reflexivity|]; split_and!; vm_compute; reflexivity).
  assert (e1 ∈ log ∧ e2 ∈ log) as [He1 He2] by (rewrite Hlog; split; [apply list_elem_of_here|apply list_elem_of_further, list_elem_of_here]).
  exists e1, e2. split; [exact He1|]. split; [exact He2|].
  assert (∀ e, e ∈ log → shown default_hooks "s1" (perform_task default_hooks (λ _, "now"%string) op sample_tables) e ↔
    ¬ hides "s1" sample_tables e op ∧ (e ∈ task_log sample_tables → shown default_hooks "s1" sample_tables e)) as Hshown.
  { intros e. apply (@hidden_only_on_request sample_json sample_crates default_hooks (λ _, "now"%string) op
      sample_tables "s1" e (sample_tables_reachable _ (λ _ _, I))). }
  rewrite (Hshown e1 He1), (Hshown e2 He2). split.
  - intros [Hno _]. apply Hno. split; [reflexivity|]. split; [exists e1; exact (conj He1 Hid1)|]. rewrite Hid1. split; [apply str_lt_irrefl|apply not_elem_of_nil].
  - split; [|intros _; apply shown_includes; [exact He2|exact Hinc]]. intros (_ & _ & Hlt & _). apply Hlt. rewrite Hid2. vm_compute. reflexivity.
Defined.

Definition sample_first : TaskTables :=
  (admit_task default_hooks (λ _, "now"%string) (sample_admission "t1" (Some sample_retry) 0) no_tasks).1.

(** The request again, for another task record, while the first task runs. *)
Lemma admitted_once_witness :
  admit_task default_hooks (λ _, "now"%string) (sample_admission "t1" (Some sample_retry) 0) no_tasks =
    (sample_first, Returned (Created (sample_task "t1"))) ∧
  ∃ t', BTree.get "t1" (tasks sample_tables) = Some t' ∧ task_status t' = TaskStatus.Working ∧
    admit_task default_hooks (λ _, "now"%string) (sample_admission "t9" (Some sample_retry) 5) sample_tables =
      (sample_tables, Returned (Reused t')).
Proof.
  assert (admit_task default_hooks (λ _, "now"%string) (sample_admission "t1" (Some sample_retry) 0) no_tasks =
    (sample_first, Returned (Created (sample_task "t1")))) as Hfirst by (vm_compute; reflexivity).
  split; [exact Hfirst|].
  assert (task_run default_hooks (drop 1 sample_task_steps) sample_first = sample_tables) as Hafter by (vm_compute; reflexivity).
  assert (Forall (λ step, within sample_digest (saturating_add_i64 0 TASK_RETRY_RETENTION_MS) step.2)
    (drop 1 sample_task_steps)) as Hwithin.
  { cbn [drop sample_task_steps map at_now]. repeat (apply Forall_cons; split; [cbn; try exact I; intros ? [=]|]). constructor. }
  assert (validate_admission (sample_admission "t9" (Some sample_retry) 5) = Returned tt) as Hv by (vm_compute; reflexivity).
  destruct (@admitted_once sample_json sample_crates default_hooks (λ _, "now"%string)
    (sample_admission "t1" (Some sample_retry) 0) no_tasks sample_first (sample_task "t1") sample_retry
    (drop 1 sample_task_steps) (λ _, "now"%string) (sample_admission "t9" (Some sample_retry) 5) sample_retry
    (tasks_start default_hooks (λ _, True)) Hfirst eq_refl Hwithin Hv eq_refl eq_refl) as (t' & Ht' & Hagain).
  rewrite Hafter in Ht', Hagain. exists t'. split; [exact Ht'|].
  assert (option_map task_status (BTree.get "t1" (tasks sample_tables)) = Some TaskStatus.Working) as Hst by (vm_compute; reflexivity).
  split; [change (BTree.get (task_id (sample_task "t1")) (tasks sample_tables)) with (BTree.get "t1" (tasks sample_tables)) in Ht';
    rewrite Ht' in Hst; injection Hst as Hst; exact Hst|].
  rewrite Hagain by (left; vm_compute; reflexivity). rewrite (String.eqb_refl _). reflexivity.
Defined.
End samples.
